(* ===== verification/_CoqProject ===== *)
-Q . S2P
Prelude.v
Errors.v
Runes.v
Strings.v
Sha256.v
Float64.v
Types.v
Validation.v
Workflow.v
MemStore.v
Persistence.v
MemStoreFacts.v
Plugin.v
Engine.v
EngineLogic.v
EngineSpec.v
EngineSafety.v
EngineProgress.v
EngineExamples.v
StateMachine.v
Dag.v
Saga.v
Fencing.v
Leader.v
Lease.v
Lane.v
MmapRing.v
MmapRingFacts.v
Worker.v
Deadlock.v
CircuitBreaker.v
SortSearch.v
Compactor.v
Expr.v
ExprFacts.v
ExprRoundtrip.v
Heap.v
Shaper.v
Calendar.v
Cron.v
CronFacts.v
CronEngine.v
CronEngineFacts.v
GraphMutator.v
GraphMutatorFacts.v
GraphMutations.v
Migration.v
MigrationFacts.v
Approval.v
EventBus.v
Ledger.v
Lock.v
LockFacts.v
Json.v
DeltaDiff.v
DeltaDiffFacts.v
Paths.v
Vfs.v
Sandbox.v
Blobstore.v
Analyzer.v
AnalyzerFacts.v
JsonText.v
FastJson.v
FastJsonFacts.v
Throttler.v
Replay.v
LoadBalancer.v
Barrier.v
Lru.v
ConsistentHash.v
BloomFilter.v
DeltaBinary.v
DeltaHash.v
Webhook.v
Mempool.v
Outbox.v
LaneControl.v
Versioning.v
TokenBucket.v
