(* ===== verification/Prelude.v ===== *)
(** A verification of Tempest, a workflow engine written in Go.

    * The program

    A workflow definition is a list of named steps with dependencies.  A run of a definition is
    created and its ready steps are put on a queue; schedulers lease items of the queue, execute
    the handlers of their steps and record the results, until every step is done.  The state
    lives in a store.  Around this core the repository has coordination services (leader
    election, leases, fencing tokens, deadlock detection), scheduling policies (priority lanes,
    traffic shaping, cron schedules), data structures (graphs, ring buffers, a log-structured
    store), an expression language, approvals, an event bus, schema migrations, resilience helpers
    (sagas, circuit breakers) and many packages of utilities.  Paths below are relative to [src/].

    * How the code is modelled

    Go maps are finite maps keyed by strings, Go strings are strings of bytes, times and
    durations are integers (nanoseconds).  A function that returns an error returns a [result],
    or an [option error] where it returns nothing else; errors are values that keep what they
    wrap, so that [errors.Is] is a function on them ([Errors]).  A method that holds its lock
    throughout is one step on the state.  Where a method releases its lock in between, what other
    goroutines do there is an argument ([others]).  The order in which Go visits a map, and the
    order in which [sort.Slice] leaves equal elements, is an argument too (a [shuffle]): a theorem
    that quantifies over it holds for every order.  Clocks, lease tokens and identifiers are read
    from arguments.  Machine integers are integers with their wrap-around written out ([wrap_u],
    [wrap_s]) where the code can reach it.

    * The files

    The file of a component has its model, and then its theorems where they are not in a file of their
    own.

    - [Prelude] (this file): results, machine integers, time, map iteration, sorting, strings, and
      the tactics and hints of the development.
    - [Runes], [Strings], [Float64], [Calendar], [Heap], [Sha256], [Json], [JsonText],
      [Paths], [SortSearch]: the parts of the Go library that several
      components use: UTF-8, splitting and trimming of strings, number parsing, IEEE binary64
      arithmetic, the civil calendar, [container/heap], SHA-256, SHA-512 with HMAC, CRC-32 and FNV-1a, decoded JSON documents,
      the reading and writing of JSON texts, the cleaning of paths and the binary search.
    - [Errors], [Types], [Validation], [Workflow]: [pkg/errors], [pkg/types], [pkg/validation] and
      [internal/workflow]: the data model, the validation of definitions, [NewRun], [ReadySteps].
    - [MemStore]: [internal/persistence/memstore], every method of the in-memory store.
      [Persistence]: the store interface of [internal/persistence/interface.go], one constructor
      per method; the memory store is an instance of the class [StoreImpl].  [MemStoreFacts]: its
      invariant and the theorems about leases, listings, retention, tokens and namespaces.
    - [Plugin], [Engine]: [internal/plugin] and [internal/scheduler].  The engine is a program
      over effects (clock, store, events, log, handlers); [run] executes it alone and
      [exec_schedule] interleaves several, one effect at a time.  [EngineLogic] is a program logic
      for it, [EngineSpec] specifies each method in it, [EngineSafety] and [EngineProgress] prove
      safety and liveness of whole histories, [EngineExamples] has the witnesses and the races.
    - [StateMachine] ([internal/statemachine]), [Dag] ([internal/dag]), [Saga]
      ([internal/saga]), [Fencing] ([internal/fencing]), [Leader] ([internal/leader]), [Lease] ([internal/lease]), [Lane]
      and [LaneControl] ([internal/lane]), [MmapRing] and [MmapRingFacts] ([internal/mmapring]), [Worker]
      ([internal/worker]), [Deadlock] ([internal/deadlock]), [CircuitBreaker]
      ([internal/circuitbreaker]): the models of these packages and their theorems.
    - [Compactor] ([internal/compactor]): the log-structured store, and that
      it refines a finite map.
    - [Expr], [ExprFacts] and [ExprRoundtrip] ([internal/expr]): lexer, parser and evaluation of
      expressions; their errors, and that parsing undoes printing.
    - [Shaper] ([internal/shaper]): the traffic shaper, and that it refines a
      list served by priority and age.
    - [Cron], [CronFacts], [CronEngine] and [CronEngineFacts] ([internal/cronengine]): cron
      expressions, the search for the next time in any location, and the engine with its queue of
      schedules in locations of fixed offsets.
    - [GraphMutator], [GraphMutatorFacts] and [GraphMutations] ([internal/graphmutator]): graphs
      that are edited while they run; the sort, and the four mutations.
    - [Migration] and [MigrationFacts] ([internal/migration]): schema migrations against the class
      [Executor]; the theorems are proved for every executor with the laws [ExecutorLaws].
    - [Approval] ([internal/approval]): requests, votes and policies.
    - [EventBus] ([internal/eventbus]): topics, subscriptions, groups and the
      movement of messages.
    - [Ledger] ([internal/ledger]): the chain of hashed records.
    - [Lock] and [LockFacts] ([internal/lock]): the mutex and the reader-writer lock, as relations
      that interleave the critical sections of any number of calls.
    - [DeltaDiff], [DeltaDiffFacts], [DeltaBinary] and [DeltaHash]
      ([internal/deltadiff]): JSON pointers, differences of documents and patches, patches in binary
      form, and the difference that compares hashes.
    - [Vfs] ([internal/vfs]), [Sandbox] ([internal/sandbox]): files below a root, and
      what keeps paths there.
    - [Blobstore] ([internal/blobstore]): the class [Backend] with the laws
      [BackendLaws], the backend in memory as an instance, and multipart uploads proved over any
      instance.
    - [Analyzer] and [AnalyzerFacts] ([internal/analyzer]): the rules that check the graph of a
      definition, and the configuration that mutes rules.
    - [FastJson] and [FastJsonFacts] ([internal/fastjson]): the streaming encoder and the codec of
      events.
    - [Throttler] ([internal/throttler]): the sliding log, the burst smoother,
      the ring of timestamps and the tuner.
    - [Replay] ([internal/replay]): recording, replaying, side effects,
      checkpoints and differences of states.
    - [LoadBalancer] ([internal/loadbalancer]): targets as shared objects in
      a heap, and selection by five strategies.
    - [Barrier] ([internal/barrier]): barriers of parties, as a relation that
      interleaves arrivals, wake-ups, cancellations, breaks and resets.
    - [Lru] ([internal/lru]): the cache of entries in the order of their last use.
    - [ConsistentHash] ([internal/consistenthash]) and [BloomFilter] ([internal/bloomfilter]): the
      hash ring and the filter.
    - [Webhook] ([internal/webhookdelivery]): signatures, endpoints, deliveries with their attempts, dead
      letters and batches.
    - [TokenBucket] ([internal/tokenbucket]): buckets of tokens over binary64, with leases as shared
      objects, the reaper, tenants, and a relation that interleaves the sections of the locks of the
      bucket and of the leases.
    - [Mempool] ([internal/mempool]): pools of byte buffers, as a relation that interleaves calls at their
      atomic operations, and what callers do with the slices they hold.
    - [Outbox] ([internal/outbox]): the store of messages, as shared objects, and the rounds of the
      processor.
    - [Versioning] ([internal/versioning]): semantic versions and constraints.

    * What the theorems show

    - The engine executes a step only when its dependencies are done, in every history from an
      empty store, and brings every run of a validated definition to success when handlers
      succeed, nothing is cancelled and no step depends on itself.  Four theorems show where it does not do what it means to: two concurrent workers
      can lose the completion of a run, a cancelled run goes on, a finished run is never
      reclaimed, and a self-dependent step is accepted and never runs.
    - The store leases an item to one holder within the lease window, keeps namespaces apart,
      finds the latest definition, pages listings without gaps, compacts only expired runs and
      revokes tokens.
    - The reaper does not change which items can be leased, unless it races with a dequeue; the
      expiry worker deletes by identifier across namespaces.
    - The graph's sort and cycle check are correct for every sequence of additions and edge
      removals; removing a node can leave an edge behind.
    - Later fencing tokens shut out earlier ones at the storage; leaders never share a term;
      leases exclude other holders until they expire.
    - The lane scheduler serves a task whenever there is one, with bounded credit; the tuner keeps
      quantums between the base and its largest multiple; observers of a lane are told a chain of changes.
    - The ring buffer refines a queue while its consumer is not lapped, and detects the corruption
      of a byte; its snapshot can fail to end.
    - The deadlock detector reports exactly the cycles of waits, and its resolution ends them.
    - A saga compensates exactly what it did; a run's states follow the transition table; a
      circuit breaker trips at its threshold.
    - The log-structured store answers what a finite map answers, through flushes, compactions and
      counts; the shaper answers what a list answers that serves the oldest packet of the highest
      priority.
    - An expression printed with the fewest parentheses is parsed back as the same tree; reading
      ends on every input, and evaluation fails only on values that are not numbers and on
      divisions by zero.
    - A cron expression contains the values its text names, and its next time is the first minute
      it names as long as the offset of the location stays the same; where clocks are put forward the
      search can run for ever.  The engine serves the earliest due schedule, runs a schedule that forbids overlaps
      once at a time, and loops forever on a date that does not exist.
    - Sorting a mutable graph decides its validity; injections, fan-outs and inlined graphs keep
      the graph valid and the order between the other nodes.
    - Migrations are applied once, in order, and a rollback undoes them, when their scripts leave the
      tracking table alone.
    - An approval is granted or refused exactly when the votes decide it, and is then final.
    - A topic matches as documented; a message reaches exactly the matching subscribers and one
      matching member of every group, in turn.
    - A ledger verifies as it was built, and a changed record shows in the last hash, unless fields
      have colons in them or a timestamp is changed by 2^64 nanoseconds; the first record is not checked.
    - The reader-writer lock excludes writers from all others in every interleaving, and nobody waits
      for a free lock as long as no call gives up; a call that gives up can strand readers, and can
      take the mutex with it.
    - Applying the difference of two documents to the first gives the second, when keys need no
      escaping and there are no nulls; pointers are read back as they were written.  A patch in
      binary form is decoded as it was encoded, and data that ends early is refused.
    - Paths stay below the root of the virtual file system, its usage is what is stored and within the
      quota, and files are read as they were written; its listing leaks, and the path check of the
      sandbox lets a sibling directory in.
    - A completed upload is the parts in order of their numbers, over any backend that keeps its
      promises, and the backend in memory does; ranges are read exactly, except for an overflow; a
      completion that fails discards the upload.
    - The analyzer has no errors for exactly the definitions whose steps can all be executed.
    - What the encoder writes is read back, and so are events, unless numbers are not finite or
      strings are not UTF-8.
    - The sliding log and the smoother admit exactly what their windows allow, though a request that
      is too large for an empty log panics, and one so large that the sum overflows is admitted; the tuner and the throttler agree on the rates; the
      offsets of the ring overflow.
    - A replay accepts exactly the recorded calls; side effects come back unless an identifier stands
      for two values; the memoizer finds the nearest checkpoint it holds.
    - Weighted selection gives every target its share in each round; consistent hashing moves only the
      keys of the target that goes, in the balancer and in the ring, unless points collide.
    - A barrier lets parties pass together, unless it is reset; the cache answers what a list in the
      order of use answers; the filter contains what its bits say and has no false negatives.
    - A signed payload verifies exactly within the tolerance, and what a delivery sends is signed; a
      delivery is over after its attempts, unless no request can be made for it, which leaves it pending
      for ever.  A timestamp far in the future passes the check.
    - The tokens of a lease are given back once, and the reaper gives back exactly those of the expired
      leases.  A lease that is renewed can still be reaped, a release and the reaper can wait for each
      other for ever, a negative lease takes tokens when it is released, and a limiter that is started again after a stop panics at the next one.
    - Buffers in use stay within the budget of their pool, and come with nothing but zeros in them unless
      a caller shortens the slice of its buffer or writes beyond it; a message of the
      outbox is sent once by one processor, and given up after five failures.
    - A version is read back as it was printed, and constraints mean what they say about the order, except
      for hyphens in pre-releases, carets below 1.0.0 and constraints that are not versions.

    * Fuel

    Loops that are not structural take fuel.  The search and the sort of a graph ([Dag]) and the
    search for deadlocks ([Deadlock]) compute enough from the graph, and the theorems show they
    end with the right answer.  [ScheduleNext] ([Lane]) ends with any fuel above the largest cost
    of a task ([ScheduleNext_progress]).  The write and read loops of the ring take the number of
    bytes, since every round moves one at least.  [Snapshot] takes any fuel above the number of
    frames, and [Snapshot_diverges] shows an input for which no fuel is enough.  The lexer and the
    parser of expressions take the length of the input and the number of tokens, and
    [Evaluate_errors] shows that neither runs out; the search for the next cron time takes the
    minutes of five years, and one more, in a location of a fixed offset, and any fuel in other locations
    ([Next_earliest] and [spring_forward_hangs]); the sort of a mutable graph takes the number of its nodes;
    a handler of the event bus is tried at most [MaxRetries + 1] times.  The searches of the analyzer
    take one more than the number of steps, and [analyzer_accepts] shows that they end; the reader of
    JSON texts takes the depth of nesting that the Go library allows and the length of the text; the
    binary search takes one more than the length of the list.

    * What is not modelled

    The dispatch of two messages by two workers at once, and calls of the deadlock detector within a round
    of resolution; tickers, channels and condition variables that only decide when a step is taken; goroutine
    start and shutdown; metrics and logging, except as recorded outputs; network services, SQL, files and command-line parsing; the rules of
    the analyzer that match regular expressions.  The connection pool of the
    migrations and the Unicode tables beyond Latin-1 are parameters. *)
From stdpp Require Export base tactics option gmap strings list sorting numbers pretty.
From Stdlib Require Export ZArith Lia Ascii.

(** * Results of fallible code *)

(** A Go function that returns [(T, error)]: exactly one of a value and an error. *)
Inductive result (E A : Type) : Type :=
| Ok (a : A)
| Err (e : E).
Arguments Ok {E A} a.
Arguments Err {E A} e.

#[export] Instance result_ret E : MRet (result E) := λ A a, Ok a.
#[export] Instance result_bind E : MBind (result E) := λ A B f m,
  match m with Ok a => f a | Err e => Err e end.

Definition is_ok {E A} (r : result E A) : bool :=
  match r with Ok _ => true | Err _ => false end.

(** A Go function that may panic, by an index out of range or a nil pointer. *)
Inductive outcome (A : Type) :=
  | Returns (a : A)
  | Panics.
Arguments Returns {A} a.
Arguments Panics {A}.

(** * Tactics *)

(** A decidable closed proposition. *)
Ltac decide_closed := apply (bool_decide_unpack _); vm_compute; exact I.

(** Comparisons of numbers as booleans. *)
Ltac solve_ltb := rewrite ?Z.ltb_lt, ?Z.ltb_ge, ?Nat.ltb_lt, ?Nat.ltb_ge; lia.

(** Facts about iteration orders and lists that the proofs about loops close goals with. *)
Create HintDb loops.

(** * Lists *)

Lemma forallb_elem {A} (f : A → bool) (l : list A) :
  forallb f l = true ↔ ∀ x, x ∈ l → f x = true.
Proof. rewrite forallb_forall. by setoid_rewrite list_elem_of_In. Qed.

Lemma NoDup_fmap_elem_inj {A B} (f : A → B) (l : list A) x y :
  NoDup (f <$> l) → x ∈ l → y ∈ l → f x = f y → x = y.
Proof.
  induction l as [|a l IH]; csimpl; [set_solver|]. rewrite NoDup_cons, !elem_of_cons.
  intros [Ha Hnd] [->|Hx] [->|Hy] E; [done| | |by apply IH];
    destruct Ha; apply list_elem_of_fmap; eauto.
Qed.

Lemma elem_of_mid {A} (x : A) (l1 l2 : list A) : x ∈ l1 ++ x :: l2.
Proof. apply elem_of_app. right. apply elem_of_cons. by left. Qed.

Lemma elem_of_not_nil {A} (x : A) (l : list A) : x ∈ l → l ≠ [].
Proof. by intros H ->; apply elem_of_nil in H. Qed.

(** * Machine integers *)

(** [wrap_u w z] is the value of [z] in a [w]-bit unsigned integer, [wrap_s w z] in a
    two's complement signed one. *)
Definition wrap_u (w : Z) (z : Z) : Z := (z mod 2 ^ w)%Z.
Definition wrap_s (w : Z) (z : Z) : Z :=
  ((z + 2 ^ (w - 1)) mod 2 ^ w - 2 ^ (w - 1))%Z.

Definition max_int64 : Z := (2 ^ 63 - 1)%Z.
Definition min_int64 : Z := (- 2 ^ 63)%Z.

Lemma wrap_u_small w z : (0 <= z < 2 ^ w)%Z → wrap_u w z = z.
Proof. intros. unfold wrap_u. by apply Z.mod_small. Qed.

Lemma wrap_u_range w z : (0 <= w)%Z → (0 <= wrap_u w z < 2 ^ w)%Z.
Proof. intros. apply Z.mod_pos_bound. lia. Qed.

Lemma wrap_s_small w z :
  (1 <= w)%Z → (- 2 ^ (w - 1) <= z < 2 ^ (w - 1))%Z → wrap_s w z = z.
Proof.
  intros Hw Hz. unfold wrap_s.
  assert (2 ^ w = 2 * 2 ^ (w - 1))%Z as E.
  { rewrite <- Z.pow_succ_r by lia. f_equal. lia. }
  rewrite Z.mod_small; lia.
Qed.

(** * Time *)

(** [time.Time] as nanoseconds since Go's zero time, [time.Duration] as an [int64] number of
    nanoseconds.  [Sub] saturates to the range of a duration, as the documentation of the
    package says; [Add] of a duration does not overflow the range of [time.Time]. *)
Abbreviation Time := Z (only parsing).
Abbreviation Duration := Z (only parsing).

Definition time_zero : Time := 0%Z.
Definition time_is_zero (t : Time) : bool := (t =? 0)%Z.
Definition time_before (t u : Time) : bool := (t <? u)%Z.
Definition time_after (t u : Time) : bool := (u <? t)%Z.
Definition time_add (t : Time) (d : Duration) : Time := (t + d)%Z.
Definition time_sub (t u : Time) : Duration :=
  Z.max min_int64 (Z.min max_int64 (t - u))%Z.

Definition millisecond : Duration := 1000000%Z.
Definition second : Duration := 1000000000%Z.

(** * Iteration over Go maps and sort.Slice *)

(** The order in which a [range] loop visits a map is unspecified.  A [shuffle] is one such
    choice: a loop over a map visits the shuffled bindings, and a theorem about the loop
    quantifies over the shuffle. *)
Record shuffle := Shuffle {
  shuffle_fun :> ∀ A : Type, list A → list A;
  shuffle_perm : ∀ (A : Type) (l : list A), shuffle_fun A l ≡ₚ l
}.

Definition shuffle_id : shuffle := Shuffle (λ A l, l) (λ A l, Permutation_refl l).
Definition shuffle_rev : shuffle :=
  Shuffle (λ A l, reverse l) (λ A l, reverse_Permutation l).

Definition range_map {V} (sh : shuffle) (m : gmap string V) : list (string * V) :=
  sh _ (map_to_list m).

(** The values of a map, in the order of a [for _, v := range m] loop. *)
Definition range_values {V} (sh : shuffle) (m : gmap string V) : list V :=
  (range_map sh m).*2.

Lemma range_map_perm {V} sh (m : gmap string V) : range_map sh m ≡ₚ map_to_list m.
Proof. apply shuffle_perm. Qed.

Lemma elem_of_range_map {V} sh (m : gmap string V) k v :
  (k, v) ∈ range_map sh m ↔ m !! k = Some v.
Proof. by rewrite range_map_perm, elem_of_map_to_list. Qed.

Lemma elem_of_range_values {V} sh (m : gmap string V) v :
  v ∈ range_values sh m ↔ ∃ k, m !! k = Some v.
Proof.
  unfold range_values. rewrite list_elem_of_fmap. split.
  - intros ([k v'] & -> & H). exists k. by apply elem_of_range_map in H.
  - intros [k H]. exists (k, v). split; [done|]. by apply elem_of_range_map.
Qed.

Lemma NoDup_range_map_fst {V} sh (m : gmap string V) : NoDup (range_map sh m).*1.
Proof. rewrite range_map_perm. apply NoDup_fst_map_to_list. Qed.

(** [sort.Slice] puts the slice in an order where no element is less than an earlier one; the
    order of equivalent elements is unspecified, so the slice is shuffled before the (stable)
    merge sort. *)
Definition not_after {A} (less : A → A → bool) (x y : A) : Prop := less y x = false.

#[export] Instance not_after_dec {A} (less : A → A → bool) x y :
  Decision (not_after less x y).
Proof. unfold not_after. apply _. Defined.

Lemma Sorted_weaken {A} (R S : A → A → Prop) (l : list A) :
  (∀ x y, R x y → S x y) → Sorted R l → Sorted S l.
Proof.
  intros HRS. induction 1 as [|x l Hl IH Hhd]; constructor; [done|].
  destruct Hhd; constructor. by apply HRS.
Qed.

Definition sort_slice {A} (less : A → A → bool) (l : list A) : list A :=
  merge_sort (not_after less) l.

Lemma sort_slice_perm {A} (less : A → A → bool) l : sort_slice less l ≡ₚ l.
Proof. apply merge_sort_Permutation. Qed.

#[export] Hint Resolve elem_of_mid shuffle_perm range_map_perm NoDup_range_map_fst sort_slice_perm
  : loops.

(** A comparison that is asymmetric on the strict order makes [not_after] total. *)
Lemma sort_slice_sorted {A} (less : A → A → bool) (l : list A) :
  (∀ x y, less x y = true → less y x = false) →
  Sorted (not_after less) (sort_slice less l).
Proof.
  intros Hasym. apply Sorted_merge_sort. intros x y. unfold not_after.
  destruct (less y x) eqn:E; [|by left]. right. by apply Hasym.
Qed.

(** * Maps filled by loops of assignments *)

(** A map filled by a loop of assignments holds, at the key of the only element with that
    key, the value of the element. *)
Lemma foldl_insert_lookup `{Countable K} {A V} (key : A → K) (val : A → V) (l : list A)
    (m : gmap K V) x :
  NoDup (key <$> l) → x ∈ l →
  foldl (λ m a, <[key a := val a]> m) m l !! key x = Some (val x).
Proof.
  revert m. induction l as [|a l IH]; intros m; simpl; [set_solver|].
  rewrite NoDup_cons, elem_of_cons. intros [Ha Hnd] [->|Hx]; [|by apply IH].
  assert (∀ m : gmap K V, m !! key a = Some (val a) →
    foldl (λ m a, <[key a := val a]> m) m l !! key a = Some (val a)) as Hkeep.
  { clear -Ha. induction l as [|b l IH]; intros m Hm; simpl; [done|].
    apply IH; [set_solver|]. rewrite lookup_insert_ne; set_solver. }
  apply Hkeep. by rewrite lookup_insert_eq.
Qed.

Lemma foldl_insert_Some `{Countable K} {A V} (key : A → K) (val : A → V) (l : list A) k v :
  foldl (λ m a, <[key a := val a]> m) (∅ : gmap K V) l !! k = Some v →
  ∃ x, x ∈ l ∧ key x = k ∧ val x = v.
Proof.
  assert (∀ m : gmap K V,
    foldl (λ m a, <[key a := val a]> m) m l !! k = Some v →
    m !! k = Some v ∨ ∃ x, x ∈ l ∧ key x = k ∧ val x = v) as Hsome.
  { induction l as [|a l IH]; simpl; [by left|]. intros m [Hm|Hm]%IH; [|set_solver].
    destruct (decide (key a = k)) as [<-|Hne].
    - rewrite lookup_insert_eq in Hm. simplify_eq. set_solver.
    - rewrite lookup_insert_ne in Hm by done. by left. }
  intros [Hm|Hm]%Hsome; [by rewrite lookup_empty in Hm|done].
Qed.

Lemma foldl_insert_in `{Countable K} {A V} (key : A → K) (val : A → V) (l : list A)
    (m : gmap K V) k :
  k ∈ (key <$> l) →
  ∃ x, x ∈ l ∧ key x = k ∧ foldl (λ m a, <[key a := val a]> m) m l !! k = Some (val x).
Proof.
  induction l as [|a l IH] using rev_ind; [set_solver|]. rewrite fmap_app, elem_of_app, foldl_snoc.
  intros Hk. destruct (decide (key a = k)) as [<-|Hne].
  - exists a. rewrite lookup_insert_eq. set_solver.
  - destruct IH as (x & Hx & Hkx & E); [set_solver|]. exists x. rewrite lookup_insert_ne by done.
    set_solver.
Qed.

Lemma foldl_insert_other `{Countable K} {A V} (key : A → K) (val : A → V) (l : list A)
    (m : gmap K V) k :
  k ∉ (key <$> l) → foldl (λ m a, <[key a := val a]> m) m l !! k = m !! k.
Proof.
  revert m. induction l as [|a l IH]; intros m; csimpl; [done|].
  rewrite not_elem_of_cons. intros [Ha Hl]. rewrite IH by done. by rewrite lookup_insert_ne.
Qed.

(** A loop over a map that deletes the bindings that pass a test leaves the others. *)
Lemma foldl_delete_lookup {V} (P : string * V → bool) (l : list (string * V))
    (m : gmap string V) k v :
  foldl (λ acc ka, if P ka then delete ka.1 acc else acc) m l !! k = Some v ↔
  m !! k = Some v ∧ ∀ w, (k, w) ∈ l → P (k, w) = false.
Proof.
  revert m. induction l as [|[j w] l IH]; intros m; simpl; [set_solver|].
  rewrite IH. destruct (P (j, w)) eqn:E; simpl.
  - rewrite lookup_delete_Some. split.
    + intros [[Hne Hm] Hl]. split; [done|]. intros w'. rewrite elem_of_cons.
      intros [[= -> ->]|?]; [done|by apply Hl].
    + intros [Hm Hl]. split; [split; [|done]|].
      * intros ->. specialize (Hl w). rewrite elem_of_cons in Hl.
        rewrite Hl in E by (by left). done.
      * intros w' Hw'. apply Hl. rewrite elem_of_cons. by right.
  - split; intros [Hm Hl]; (split; [done|]); intros w'.
    + rewrite elem_of_cons. intros [[= -> ->]|?]; [done|by apply Hl].
    + intros Hw'. apply Hl. rewrite elem_of_cons. by right.
Qed.

Lemma foldl_delete_filter {V} (P : string * V → bool) (m : gmap string V) :
  foldl (λ acc ka, if P ka then delete ka.1 acc else acc) m (map_to_list m) =
  filter (λ kv, P kv = false) m.
Proof.
  apply map_eq. intros k. apply option_eq. intros v.
  rewrite foldl_delete_lookup, map_lookup_filter_Some. split.
  - intros [Hm Hl]. split; [done|]. apply Hl. by apply elem_of_map_to_list.
  - intros [Hm HP]. split; [done|]. intros w Hw%elem_of_map_to_list. congruence.
Qed.

(** * Strings *)

(** A Go string is a sequence of bytes, here a [string] of [ascii]. *)
Fixpoint string_forall (P : ascii → bool) (s : string) : bool :=
  match s with
  | EmptyString => true
  | String c s' => P c && string_forall P s'
  end.

Definition ascii_eqb (a b : ascii) : bool := bool_decide (a = b).

(** [no_char c s]: the byte [c] does not occur in [s]. *)
Definition no_char (c : ascii) (s : string) : Prop :=
  string_forall (λ d, negb (ascii_eqb c d)) s = true.

#[export] Instance no_char_dec c s : Decision (no_char c s).
Proof. unfold no_char. apply _. Defined.

Lemma no_char_cons c d s : no_char c (String d s) ↔ c ≠ d ∧ no_char c s.
Proof.
  unfold no_char, ascii_eqb; simpl. rewrite andb_true_iff, negb_true_iff, bool_decide_eq_false.
  done.
Qed.

Lemma string_forall_impl (P Q : ascii → bool) s :
  (∀ c, P c = true → Q c = true) → string_forall P s = true → string_forall Q s = true.
Proof.
  intros HPQ. induction s as [|c s IH]; simpl; [done|].
  rewrite !andb_true_iff. naive_solver.
Qed.

Lemma string_app_nil_l (s : string) : ("" +:+ s)%string = s.
Proof. done. Qed.

Lemma string_app_cons c (s t : string) : (String c s +:+ t)%string = String c (s +:+ t)%string.
Proof. done. Qed.

Lemma string_app_assoc (s t u : string) : (s +:+ (t +:+ u))%string = ((s +:+ t) +:+ u)%string.
Proof. induction s as [|c s IH]; [done|]. rewrite !string_app_cons. by f_equal. Qed.

Lemma string_app_nil_r (s : string) : (s +:+ "")%string = s.
Proof. induction s as [|c s IH]; [done|]. rewrite string_app_cons. by f_equal. Qed.

(** A separator that does not occur in the two heads splits equal strings at one place. *)
Lemma split_at_char c (s1 s2 t1 t2 : string) :
  no_char c s1 → no_char c s2 →
  (s1 +:+ String c t1)%string = (s2 +:+ String c t2)%string → s1 = s2 ∧ t1 = t2.
Proof.
  revert s2. induction s1 as [|d1 s1 IH]; intros [|d2 s2] H1 H2; simpl;
    rewrite ?no_char_cons in *; intros E; simplify_eq; naive_solver.
Qed.

(** [strings.HasPrefix], [strings.Contains]. *)
Fixpoint has_prefix (p s : string) : bool :=
  match p, s with
  | EmptyString, _ => true
  | String c p', String d s' => ascii_eqb c d && has_prefix p' s'
  | String _ _, EmptyString => false
  end.

Fixpoint string_contains (s sub : string) : bool :=
  has_prefix sub s ||
  match s with
  | EmptyString => false
  | String _ s' => string_contains s' sub
  end.

(** [a < b] on strings: lexicographic on bytes. *)
Definition string_ltb (a b : string) : bool :=
  match String.compare a b with Lt => true | _ => false end.

Lemma string_ltb_cons c a d b :
  string_ltb (String c a) (String d b) = true ↔
  (N_of_ascii c < N_of_ascii d)%N ∨ c = d ∧ string_ltb a b = true.
Proof.
  unfold string_ltb. simpl. unfold Ascii.compare.
  destruct (N.compare_spec (N_of_ascii c) (N_of_ascii d)) as [E|E|E].
  - assert (c = d) as -> by (by rewrite <- (ascii_N_embedding c), E, ascii_N_embedding).
    split; [by right|]. intros [?|[_ ?]]; [lia|done].
  - split; [by left|done].
  - split; [done|]. intros [?|[-> ?]]; lia.
Qed.

Lemma string_ltb_irrefl a : string_ltb a a = false.
Proof.
  apply not_true_is_false. induction a as [|c a IH]; [done|].
  rewrite string_ltb_cons. intros [?|[_ ?]]; [lia|done].
Qed.

Lemma string_ltb_trans a b c :
  string_ltb a b = true → string_ltb b c = true → string_ltb a c = true.
Proof.
  revert b c. induction a as [|x a IH]; intros [|y b] [|z c]; try done.
  rewrite !string_ltb_cons. intros [?|[-> ?]] [?|[-> ?]]; [left; lia|by left|by left|].
  right. split; [done|]. by eapply IH.
Qed.

Lemma string_ltb_total a b : string_ltb a b = false → string_ltb b a = false → a = b.
Proof.
  unfold string_ltb. rewrite (String.compare_antisym b a).
  destruct (String.compare a b) eqn:E; [|done|done]. intros _ _. by apply String.compare_eq_iff.
Qed.

Lemma string_ltb_asym a b : string_ltb a b = true → string_ltb b a = false.
Proof.
  intros Hab. apply not_true_is_false. intros Hba.
  pose proof (string_ltb_trans _ _ _ Hab Hba) as Haa. by rewrite string_ltb_irrefl in Haa.
Qed.

(** [unicode.IsSpace] on the first rune of a UTF-8 string: the rest of the string after a
    leading white space rune (the ASCII ones, U+0085, U+00A0, U+1680, U+2000 to U+200A, U+2028,
    U+2029, U+202F, U+205F and U+3000). *)
Definition byte_of (a : ascii) : nat := Ascii.nat_of_ascii a.

Definition strip_space (s : string) : option string :=
  match s with
  | EmptyString => None
  | String a r =>
      if bool_decide (byte_of a ∈ [9; 10; 11; 12; 13; 32]) then Some r
      else match r with
      | EmptyString => None
      | String b r' =>
          if (byte_of a =? 194) && bool_decide (byte_of b ∈ [133; 160]) then Some r'
          else match r' with
          | EmptyString => None
          | String c r'' =>
              let t := (byte_of a, byte_of b, byte_of c) in
              if bool_decide (t ∈ [(225, 154, 128); (226, 128, 168); (226, 128, 169);
                                   (226, 128, 175); (226, 129, 159); (227, 128, 128)])
                 || ((byte_of a =? 226) && (byte_of b =? 128)
                     && (128 <=? byte_of c) && (byte_of c <=? 138))
              then Some r'' else None
          end
      end
  end.

Fixpoint all_space (fuel : nat) (s : string) : bool :=
  match fuel, s with
  | _, EmptyString => true
  | 0, _ => false
  | S n, _ => match strip_space s with Some r => all_space n r | None => false end
  end.

(** [strings.TrimSpace(s) == ""]; every round removes at least one byte. *)
Definition trim_space_empty (s : string) : bool := all_space (String.length s) s.

(** * Counting *)

Definition cnt (x : string) (l : list string) : nat := length (filter (x =.) l).

Lemma cnt_cons x y l : cnt x (y :: l) = (if decide (x = y) then 1 else 0) + cnt x l.
Proof. unfold cnt. rewrite filter_cons. by case_decide. Qed.

Lemma cnt_app x l1 l2 : cnt x (l1 ++ l2) = cnt x l1 + cnt x l2.
Proof. unfold cnt. by rewrite filter_app, length_app. Qed.

Lemma cnt_elem x l : x ∈ l ↔ cnt x l ≠ 0.
Proof.
  induction l as [|y l IH]; [set_solver|]. rewrite cnt_cons, elem_of_cons, IH.
  case_decide; naive_solver lia.
Qed.

(** A missing key of a map of counters reads as zero. *)
Definition degree (deg : gmap string Z) (n : string) : Z := default 0%Z (deg !! n).

Lemma degree_insert deg k z n :
  degree (<[k := z]> deg) n = if decide (n = k) then z else degree deg n.
Proof. unfold degree. case_decide; [subst; by rewrite lookup_insert_eq|by rewrite lookup_insert_ne]. Qed.

Lemma sum_list_with_perm {A} (f : A → nat) l l' :
  l ≡ₚ l' → sum_list_with f l = sum_list_with f l'.
Proof. induction 1; simpl; lia. Qed.

Lemma sum_list_with_fmap {A B} (f : B → nat) (h : A → B) l :
  sum_list_with f (h <$> l) = sum_list_with (f ∘ h) l.
Proof. induction l; csimpl; [done|]. by rewrite IHl. Qed.
