(* ===== verification/Errors.v ===== *)
(** Classified errors: [pkg/errors/errors.go].

    An error value is the chain that [errors.Unwrap] walks: a sentinel made by [errors.New]
    (compared by identity, so named by its variable), a formatted message that wraps nothing, a
    message that wraps another error with [%w], a [Classified] error, or the scheduler's
    [permanentFailure].  Formatted messages keep the format and its arguments; the text is
    produced by the [sprintf] of the standard library, a parameter where a definition needs
    the text. *)
From S2P Require Import Prelude.

Abbreviation Class := string (only parsing).

Definition ClassNotFound : Class := "not_found".
Definition ClassAlreadyExists : Class := "already_exists".
Definition ClassInvalidArgument : Class := "invalid_argument".
Definition ClassConflict : Class := "conflict".
Definition ClassUnauthenticated : Class := "unauthenticated".
Definition ClassPermissionDenied : Class := "permission_denied".
Definition ClassInternal : Class := "internal".
Definition ClassUnavailable : Class := "unavailable".
Definition ClassDeadlineExceeded : Class := "deadline_exceeded".
Definition ClassCanceled : Class := "canceled".

Inductive sentinel :=
| SNotFound | SAlreadyExists | SInvalidArgument | SConflict | SUnauthenticated
| SPermissionDenied | SInternal | SUnavailable | SDeadlineExceeded | SCanceled
| SOther (text : string).

#[export] Instance sentinel_eq_dec : EqDecision sentinel.
Proof. solve_decision. Defined.

Inductive error :=
| ESentinel (s : sentinel)
| EFmt (format : string) (args : list string)
| EWrap (format : string) (args : list string) (inner : error)
| EClassified (class : Class) (inner : error)
| EPermanent (inner : error).

Definition ErrNotFound : error := ESentinel SNotFound.
Definition ErrAlreadyExists : error := ESentinel SAlreadyExists.
Definition ErrInvalidArgument : error := ESentinel SInvalidArgument.
Definition ErrConflict : error := ESentinel SConflict.

(** [errors.Is(err, target)] for a sentinel target: some error of the chain is the target. *)
Fixpoint errors_Is (err : error) (target : sentinel) : bool :=
  match err with
  | ESentinel s => bool_decide (s = target)
  | EFmt _ _ => false
  | EWrap _ _ inner | EClassified _ inner | EPermanent inner => errors_Is inner target
  end.

(** [errors.As(err, &c)] for a [*Classified]: the class of the first one of the chain. *)
Fixpoint errors_As_Classified (err : error) : option Class :=
  match err with
  | EClassified class _ => Some class
  | ESentinel _ | EFmt _ _ => None
  | EWrap _ _ inner | EPermanent inner => errors_As_Classified inner
  end.

Definition Of (class : Class) (err : error) : error := EClassified class err.

Definition Classify (err : error) : Class :=
  match errors_As_Classified err with
  | Some class => class
  | None =>
      if errors_Is err SNotFound then ClassNotFound
      else if errors_Is err SAlreadyExists then ClassAlreadyExists
      else if errors_Is err SInvalidArgument then ClassInvalidArgument
      else if errors_Is err SConflict then ClassConflict
      else if errors_Is err SUnauthenticated then ClassUnauthenticated
      else if errors_Is err SPermissionDenied then ClassPermissionDenied
      else if errors_Is err SInternal then ClassInternal
      else if errors_Is err SUnavailable then ClassUnavailable
      else if errors_Is err SDeadlineExceeded then ClassDeadlineExceeded
      else if errors_Is err SCanceled then ClassCanceled
      else ClassInternal
  end.

Definition NotFoundError (err : error) : error := Of ClassNotFound err.
Definition AlreadyExistsError (err : error) : error := Of ClassAlreadyExists err.
Definition InvalidArgumentError (err : error) : error := Of ClassInvalidArgument err.
Definition ConflictError (err : error) : error := Of ClassConflict err.

(** [err.Error()]; the text of a sentinel is the argument of its [errors.New]. *)
Definition sentinel_text (s : sentinel) : string :=
  match s with
  | SNotFound => "not found"
  | SAlreadyExists => "already exists"
  | SInvalidArgument => "invalid argument"
  | SConflict => "conflict"
  | SUnauthenticated => "unauthenticated"
  | SPermissionDenied => "permission denied"
  | SInternal => "internal error"
  | SUnavailable => "unavailable"
  | SDeadlineExceeded => "deadline exceeded"
  | SCanceled => "canceled"
  | SOther text => text
  end.

Section text.
Variable sprintf : string → list string → string.

Fixpoint Error (err : error) : string :=
  match err with
  | ESentinel s => sentinel_text s
  | EFmt f args => sprintf f args
  | EWrap f args inner => sprintf f (args ++ [Error inner])
  | EClassified _ inner | EPermanent inner => Error inner
  end.
End text.
