(* ===== verification/Runes.v ===== *)
(** Runes: the conversions between Go strings and [[]rune], and the character classes of
    [unicode].

    A string holds bytes; [runes] decodes them as UTF-8 with U+FFFD for every byte that starts
    no valid encoding, [utf8_encode] is [WriteRune].  The tables of [unicode] beyond the ranges
    the package treats by cases are data of the Unicode standard, the record [tables]. *)
From S2P Require Import Prelude.

Definition rune_error : Z := 65533.
Definition byteZ (c : ascii) : Z := Z.of_nat (byte_of c).
Definition ascii_of_Z (z : Z) : ascii := Ascii.ascii_of_nat (Z.to_nat z).

Lemma byteZ_ascii_of_Z z : (0 <= z < 256)%Z → byteZ (ascii_of_Z z) = z.
Proof.
  intros Hz. unfold byteZ, byte_of, ascii_of_Z.
  rewrite Ascii.nat_ascii_embedding by lia. lia.
Qed.

Lemma byteZ_range c : (0 <= byteZ c < 256)%Z.
Proof. unfold byteZ, byte_of. pose proof (Ascii.nat_ascii_bounded c). lia. Qed.

Lemma byteZ_inj c d : byteZ c = byteZ d → c = d.
Proof.
  unfold byteZ, byte_of. intros E%Nat2Z.inj.
  by rewrite <- (Ascii.ascii_nat_embedding c), E, Ascii.ascii_nat_embedding.
Qed.

Lemma ascii_of_byteZ c : ascii_of_Z (byteZ c) = c.
Proof. apply byteZ_inj, byteZ_ascii_of_Z, byteZ_range. Qed.

Definition in_range (lo hi z : Z) : bool := (lo <=? z)%Z && (z <=? hi)%Z.

Lemma in_range_true lo hi z : in_range lo hi z = true ↔ (lo <= z <= hi)%Z.
Proof. unfold in_range. rewrite andb_true_iff, !Z.leb_le. done. Qed.

Lemma in_range_false lo hi z : in_range lo hi z = false ↔ (z < lo ∨ hi < z)%Z.
Proof. unfold in_range. rewrite andb_false_iff, !Z.leb_gt. done. Qed.

(** The second byte of an encoding of three or four bytes is restricted: no overlong
    encodings, no surrogates, nothing above U+10FFFF. *)
Definition second3_ok (a b : Z) : bool :=
  if (a =? 224)%Z then in_range 160 191 b
  else if (a =? 237)%Z then in_range 128 159 b
  else in_range 128 191 b.
Definition second4_ok (a b : Z) : bool :=
  if (a =? 240)%Z then in_range 144 191 b
  else if (a =? 244)%Z then in_range 128 143 b
  else in_range 128 191 b.

Fixpoint runes (s : string) : list Z :=
  match s with
  | EmptyString => []
  | String a s1 =>
      let a := byteZ a in
      if (a <? 128)%Z then a :: runes s1
      else if in_range 194 223 a then
        match s1 with
        | String b s2 =>
            let b := byteZ b in
            if in_range 128 191 b then ((a - 192) * 64 + (b - 128))%Z :: runes s2
            else rune_error :: runes s1
        | EmptyString => rune_error :: runes s1
        end
      else if in_range 224 239 a then
        match s1 with
        | String b (String c s3) =>
            let b := byteZ b in let c := byteZ c in
            if second3_ok a b && in_range 128 191 c
            then ((a - 224) * 4096 + (b - 128) * 64 + (c - 128))%Z :: runes s3
            else rune_error :: runes s1
        | _ => rune_error :: runes s1
        end
      else if in_range 240 244 a then
        match s1 with
        | String b (String c (String d s4)) =>
            let b := byteZ b in let c := byteZ c in let d := byteZ d in
            if second4_ok a b && in_range 128 191 c && in_range 128 191 d
            then ((a - 240) * 262144 + (b - 128) * 4096 + (c - 128) * 64 + (d - 128))%Z :: runes s4
            else rune_error :: runes s1
        | _ => rune_error :: runes s1
        end
      else rune_error :: runes s1
  end.

Definition valid_rune (r : Z) : bool := in_range 0 55295 r || in_range 57344 1114111 r.

Definition utf8_encode (r : Z) : string :=
  let r := if valid_rune r then r else rune_error in
  if (r <? 128)%Z then String (ascii_of_Z r) ""
  else if (r <? 2048)%Z then
    String (ascii_of_Z (192 + r / 64)%Z) (String (ascii_of_Z (128 + r mod 64)%Z) "")
  else if (r <? 65536)%Z then
    String (ascii_of_Z (224 + r / 4096)%Z) (String (ascii_of_Z (128 + r / 64 mod 64)%Z)
      (String (ascii_of_Z (128 + r mod 64)%Z) ""))
  else
    String (ascii_of_Z (240 + r / 262144)%Z) (String (ascii_of_Z (128 + r / 4096 mod 64)%Z)
      (String (ascii_of_Z (128 + r / 64 mod 64)%Z) (String (ascii_of_Z (128 + r mod 64)%Z) ""))).

Definition string_of_runes (rs : list Z) : string :=
  foldr (λ r s, utf8_encode r +:+ s) "" rs.

(** Encoded runes decode to themselves, whatever follows. *)
Lemma runes_encode r s : valid_rune r = true → runes (utf8_encode r +:+ s) = r :: runes s.
Proof.
  intros Hv. unfold utf8_encode. rewrite Hv.
  unfold valid_rune in Hv. rewrite orb_true_iff, !in_range_true in Hv.
  destruct (Z.ltb_spec r 128); [|destruct (Z.ltb_spec r 2048); [|destruct (Z.ltb_spec r 65536)]].
  - rewrite !string_app_cons. cbn [runes]. rewrite byteZ_ascii_of_Z by lia.
    by rewrite (proj2 (Z.ltb_lt _ _)) by lia.
  - rewrite !string_app_cons, string_app_nil_l. cbn [runes].
    rewrite !byteZ_ascii_of_Z by (Z.div_mod_to_equations; lia).
    rewrite (proj2 (Z.ltb_ge _ _)) by (Z.div_mod_to_equations; lia).
    rewrite !(proj2 (in_range_true _ _ _)) by (Z.div_mod_to_equations; lia).
    f_equal. Z.div_mod_to_equations. lia.
  - rewrite !string_app_cons, string_app_nil_l. cbn [runes].
    rewrite !byteZ_ascii_of_Z by (Z.div_mod_to_equations; lia).
    rewrite (proj2 (Z.ltb_ge _ _)) by (Z.div_mod_to_equations; lia).
    rewrite (proj2 (in_range_false 194 223 _)) by (Z.div_mod_to_equations; lia).
    rewrite (proj2 (in_range_true 224 239 _)) by (Z.div_mod_to_equations; lia).
    assert (second3_ok (224 + r / 4096) (128 + r / 64 mod 64) = true) as ->.
    { unfold second3_ok. repeat case_match; rewrite in_range_true;
        Z.div_mod_to_equations; lia. }
    rewrite (proj2 (in_range_true 128 191 _)) by (Z.div_mod_to_equations; lia).
    cbn [andb]. f_equal. Z.div_mod_to_equations. lia.
  - rewrite !string_app_cons, string_app_nil_l. cbn [runes].
    rewrite !byteZ_ascii_of_Z by (Z.div_mod_to_equations; lia).
    rewrite (proj2 (Z.ltb_ge _ _)) by (Z.div_mod_to_equations; lia).
    rewrite (proj2 (in_range_false 194 223 _)) by (Z.div_mod_to_equations; lia).
    rewrite (proj2 (in_range_false 224 239 _)) by (Z.div_mod_to_equations; lia).
    rewrite (proj2 (in_range_true 240 244 _)) by (Z.div_mod_to_equations; lia).
    assert (second4_ok (240 + r / 262144) (128 + r / 4096 mod 64) = true) as ->.
    { unfold second4_ok. repeat case_match; rewrite in_range_true;
        Z.div_mod_to_equations; lia. }
    rewrite !(proj2 (in_range_true 128 191 _)) by (Z.div_mod_to_equations; lia).
    cbn [andb]. f_equal. Z.div_mod_to_equations. lia.
Qed.

Lemma runes_string_of_runes rs s :
  forallb valid_rune rs = true → runes (string_of_runes rs +:+ s) = rs ++ runes s.
Proof.
  induction rs as [|r rs IH]; simpl; [done|]. rewrite andb_true_iff. intros [Hr Hrs].
  rewrite <- string_app_assoc, runes_encode by done. by rewrite IH.
Qed.

(** * Classes *)

Record tables := Tables {
  letter_table : Z → bool;
  digit_table : Z → bool;
  lower_table : Z → Z
}.

Definition unicode_IsSpace (r : Z) : bool :=
  bool_decide (r ∈ [9; 10; 11; 12; 13; 32; 133; 160; 5760; 8232; 8233; 8239; 8287; 12288]%Z)
  || in_range 8192 8202 r.

Definition latin1_letter (r : Z) : bool :=
  in_range 65 90 r || in_range 97 122 r || bool_decide (r ∈ [170; 181; 186]%Z)
  || in_range 192 214 r || in_range 216 246 r || in_range 248 255 r.

Definition unicode_IsLetter (U : tables) (r : Z) : bool :=
  if in_range 0 255 r then latin1_letter r else letter_table U r.
Definition unicode_IsDigit (U : tables) (r : Z) : bool :=
  if in_range 0 255 r then in_range 48 57 r else digit_table U r.
Definition unicode_ToLower (U : tables) (r : Z) : Z :=
  if in_range 0 127 r then (if in_range 65 90 r then r + 32 else r)%Z else lower_table U r.

(** [strings.ToLower] *)
Definition strings_ToLower (U : tables) (s : string) : string :=
  string_of_runes (unicode_ToLower U <$> runes s).
