(* ===== verification/Strings.v ===== *)
(** Functions of the package [strings] on a one-byte separator, and on prefixes. *)
From stdpp Require Import pretty.
From S2P Require Import Prelude.

(** [strings.TrimPrefix(s, p)] *)
Fixpoint drop_prefix (p s : string) : option string :=
  match p, s with
  | EmptyString, _ => Some s
  | String c p', String d s' => if ascii_eqb c d then drop_prefix p' s' else None
  | String _ _, EmptyString => None
  end.
Definition trim_prefix (s p : string) : string := default s (drop_prefix p s).

(** [strings.Split(s, sep)] for a separator of one byte. *)
Fixpoint split (sep : ascii) (s : string) : list string :=
  match s with
  | EmptyString => [""]
  | String c s' =>
      if ascii_eqb sep c then "" :: split sep s'
      else match split sep s' with
           | w :: ws => String c w :: ws
           | [] => [String c ""]
           end
  end.

(** [strings.Join(ws, sep)] for a separator of one byte. *)
Fixpoint join (sep : ascii) (ws : list string) : string :=
  match ws with
  | [] => ""
  | [w] => w
  | w :: ws' => w +:+ String sep (join sep ws')
  end.

Lemma ascii_eqb_true c d : ascii_eqb c d = true ↔ c = d.
Proof. apply bool_decide_eq_true. Qed.

Lemma ascii_eqb_false c d : ascii_eqb c d = false ↔ c ≠ d.
Proof. apply bool_decide_eq_false. Qed.

Lemma ascii_eqb_refl c : ascii_eqb c c = true.
Proof. by apply ascii_eqb_true. Qed.

Lemma split_not_nil sep s : split sep s ≠ [].
Proof. destruct s as [|c s]; simpl; repeat case_match; done. Qed.

Lemma join_cons sep w ws : ws ≠ [] → join sep (w :: ws) = w +:+ String sep (join sep ws).
Proof. by destruct ws. Qed.

Lemma join_split sep s : join sep (split sep s) = s.
Proof.
  induction s as [|c s IH]; [done|]. simpl.
  destruct (ascii_eqb sep c) eqn:E.
  - apply ascii_eqb_true in E as <-. rewrite join_cons by apply split_not_nil. by rewrite IH.
  - destruct (split sep s) as [|w [|w' ws]] eqn:Es; [by apply split_not_nil in Es| |];
      cbn [join] in *; rewrite <- IH; done.
Qed.

Lemma split_no_char sep s : no_char sep s → split sep s = [s].
Proof.
  induction s as [|c s IH]; [done|]. rewrite no_char_cons. intros [Hc Hs]. simpl.
  apply ascii_eqb_false in Hc as ->. by rewrite (IH Hs).
Qed.

Lemma split_app sep w s : no_char sep w → split sep (w +:+ String sep s) = w :: split sep s.
Proof.
  induction w as [|c w IH]; intros Hw.
  - rewrite string_app_nil_l. simpl. by rewrite ascii_eqb_refl.
  - apply no_char_cons in Hw as [Hc Hw]. rewrite string_app_cons. cbn [split].
    apply ascii_eqb_false in Hc as ->. by rewrite (IH Hw).
Qed.

Lemma split_join sep ws :
  ws ≠ [] → Forall (no_char sep) ws → split sep (join sep ws) = ws.
Proof.
  induction ws as [|w ws IH]; [done|]. intros _ [Hw Hws]%Forall_cons.
  destruct (decide (ws = [])) as [->|Hne]; [by apply split_no_char|].
  rewrite join_cons, split_app by done. by rewrite IH.
Qed.

Lemma split_parts sep s : Forall (no_char sep) (split sep s).
Proof.
  induction s as [|c s IH]; simpl; [by repeat constructor|].
  destruct (ascii_eqb sep c) eqn:E; [by constructor|]. apply ascii_eqb_false in E.
  destruct (split sep s) as [|w ws]; [repeat constructor; by apply no_char_cons|].
  apply Forall_cons in IH as [Hw Hws]. constructor; [by apply no_char_cons|done].
Qed.

Lemma drop_prefix_Some p s t : drop_prefix p s = Some t ↔ s = p +:+ t.
Proof.
  revert s. induction p as [|c p IH]; intros s; [simpl; naive_solver|].
  destruct s as [|d s]; [done|]. rewrite string_app_cons. simpl.
  destruct (ascii_eqb c d) eqn:E.
  - apply ascii_eqb_true in E as ->. rewrite IH. naive_solver.
  - apply ascii_eqb_false in E. naive_solver.
Qed.

(** * White space *)

Fixpoint trim_left (fuel : nat) (s : string) : string :=
  match fuel with
  | 0 => s
  | S n => match strip_space s with Some r => trim_left n r | None => s end
  end.
Fixpoint trim_right (s : string) : string :=
  match s with
  | EmptyString => ""
  | String c s' => if trim_space_empty s then "" else String c (trim_right s')
  end.
(** [strings.TrimSpace] *)
Definition trim_space (s : string) : string := trim_right (trim_left (String.length s) s).

(** [strings.Fields]: the words between runs of white space.  Every round reads at least one
    byte; no byte inside the encoding of a rune starts an encoded space. *)
Fixpoint fields_loop (fuel : nat) (s word : string) : list string :=
  let flush := if bool_decide (word = "") then [] else [word] in
  match fuel, s with
  | S n, String c s' =>
      match strip_space s with
      | Some rest => flush ++ fields_loop n rest ""
      | None => fields_loop n s' (word +:+ String c "")
      end
  | _, _ => flush
  end.
Definition fields (s : string) : list string := fields_loop (String.length s) s "".

(** * [strconv.Atoi] *)

Fixpoint digits_value (s : string) (acc : Z) : option Z :=
  match s with
  | EmptyString => Some acc
  | String c s' =>
      let z := Z.of_nat (byte_of c) in
      if (48 <=? z)%Z && (z <=? 57)%Z then digits_value s' (acc * 10 + (z - 48)) else None
  end.

(** [None] is an error: no digits, another character, or a value out of range. *)
Definition Atoi (s : string) : option Z :=
  let '(neg, digits) :=
    match s with
    | String c s' =>
        if ascii_eqb c "-" then (true, s') else if ascii_eqb c "+" then (false, s') else (false, s)
    | EmptyString => (false, s)
    end in
  if bool_decide (digits = "") then None
  else
    v ← digits_value digits 0;
    let v := if neg then (- v)%Z else v in
    if (min_int64 <=? v)%Z && (v <=? max_int64)%Z then Some v else None.

(** * Decimal texts *)

Lemma digits_value_cons c s acc :
  digits_value (String c s) acc =
  if (48 <=? Z.of_nat (byte_of c))%Z && (Z.of_nat (byte_of c) <=? 57)%Z
  then digits_value s (acc * 10 + (Z.of_nat (byte_of c) - 48)) else None.
Proof. done. Qed.

Definition digit_char (c : ascii) : bool := (48 <=? byte_of c)%nat && (byte_of c <=? 57)%nat.

Lemma pretty_N_char_byte x : (x < 10)%N → byte_of (pretty_N_char x) = N.to_nat (48 + x).
Proof.
  intros Hx. assert (x ∈ [0; 1; 2; 3; 4; 5; 6; 7; 8; 9]%N) as Hin by (rewrite !elem_of_cons; lia).
  by repeat (apply elem_of_cons in Hin as [->|Hin]; [done|]); apply elem_of_nil in Hin.
Qed.

Lemma digits_value_pretty_go x s :
  digits_value (pretty_N_go x s) 0 = digits_value s (Z.of_N x).
Proof.
  revert s. induction x as [x IH] using (well_founded_induction N.lt_wf_0). intros s.
  destruct (decide (0 < x)%N) as [Hx|Hx].
  - pose proof (N.mod_upper_bound x 10 ltac:(lia)). pose proof (N.div_mod x 10 ltac:(lia)).
    rewrite pretty_N_go_step, IH by (done || by apply N.div_lt).
    rewrite digits_value_cons, pretty_N_char_byte by done.
    set (q := (x / 10)%N) in *. set (r := (x mod 10)%N) in *. clearbody q r.
    rewrite N_nat_Z, (proj2 (Z.leb_le 48 _)), (proj2 (Z.leb_le _ 57)) by lia.
    cbn [andb]. f_equal. lia.
  - assert (x = 0%N) as -> by lia. by rewrite pretty_N_go_0.
Qed.

Lemma digits_value_pretty (x : N) : digits_value (pretty x) 0 = Some (Z.of_N x).
Proof.
  unfold pretty, pretty_N. case_decide; [by subst|]. by rewrite digits_value_pretty_go.
Qed.

Lemma pretty_N_digits (x : N) : string_forall digit_char (pretty x) = true.
Proof.
  unfold pretty, pretty_N. case_decide; [done|].
  assert (∀ s, string_forall digit_char s = true →
    string_forall digit_char (pretty_N_go x s) = true) as H'; [|by apply H'].
  clear. induction x as [x IH] using (well_founded_induction N.lt_wf_0). intros s Hs.
  destruct (decide (0 < x)%N) as [Hx|Hx].
  - rewrite pretty_N_go_step by done. apply IH; [by apply N.div_lt|]. simpl.
    pose proof (N.mod_upper_bound x 10 ltac:(lia)).
    unfold digit_char. rewrite pretty_N_char_byte, andb_true_iff by done. split; [|done].
    set (r := (x mod 10)%N) in *. clearbody r. rewrite andb_true_iff, !Nat.leb_le. lia.
  - assert (x = 0%N) as -> by lia. by rewrite pretty_N_go_0.
Qed.

Lemma pretty_N_not_nil (x : N) : pretty x ≠ ("" : string).
Proof. intros E. pose proof (digits_value_pretty x) as H. rewrite E in H. simpl in H.
  injection H as H. assert (x = 0%N) as -> by lia. done.
Qed.

Lemma pretty_Z_nonneg (z : Z) : (0 <= z)%Z → pretty z = pretty (Z.to_N z).
Proof. by destruct z. Qed.

(** What is printed is read back. *)
Lemma Atoi_pretty (z : Z) : (0 <= z <= max_int64)%Z → Atoi (pretty z) = Some z.
Proof.
  intros Hz. rewrite pretty_Z_nonneg by lia. unfold Atoi.
  pose proof (pretty_N_digits (Z.to_N z)) as Hd. pose proof (pretty_N_not_nil (Z.to_N z)) as Hn.
  pose proof (digits_value_pretty (Z.to_N z)) as Hv.
  destruct (pretty (Z.to_N z)) as [|c s] eqn:E; [done|].
  assert (digit_char c = true) as Hc by (simpl in Hd; by apply andb_true_iff in Hd as [? _]).
  assert (ascii_eqb c "-" = false ∧ ascii_eqb c "+" = false) as [-> ->].
  { unfold digit_char in Hc. split; apply ascii_eqb_false; by intros ->. }
  rewrite bool_decide_eq_false_2 by done. rewrite Hv. simpl. rewrite Z2N.id by lia.
  unfold min_int64, max_int64 in *.
  by rewrite (proj2 (Z.leb_le _ _)), (proj2 (Z.leb_le _ _)) by lia.
Qed.

(** A decimal text is made of digits, with a sign at most. *)
Definition sign_or_digit (c : ascii) : bool := digit_char c || ascii_eqb c "-" || ascii_eqb c "+".

Lemma digits_value_digits s acc v : digits_value s acc = Some v → string_forall digit_char s = true.
Proof.
  revert acc. induction s as [|c s IH]; intros acc; [done|]. rewrite digits_value_cons. cbn [string_forall].
  destruct (_ && _) eqn:E; [|done]. intros Hv%IH. rewrite Hv, andb_true_r. unfold digit_char.
  rewrite andb_true_iff, !Z.leb_le in E. rewrite andb_true_iff, !Nat.leb_le. lia.
Qed.

Lemma pretty_Z_decimal (z : Z) : string_forall sign_or_digit (pretty z) = true.
Proof.
  assert (∀ x : N, string_forall sign_or_digit (pretty x) = true) as HN.
  { intros x. apply (string_forall_impl digit_char); [|apply pretty_N_digits].
    intros c Hc. unfold sign_or_digit. by rewrite Hc. }
  destruct z as [|q|q]; [done|apply (HN (Npos q))|].
  change (pretty (Zneg q)) with (String "-"%char (pretty (Npos q))). cbn [string_forall]. by rewrite HN.
Qed.

Lemma Atoi_decimal s z : Atoi s = Some z → string_forall sign_or_digit s = true.
Proof.
  assert (∀ t v, digits_value t 0 = Some v → string_forall sign_or_digit t = true) as Hd.
  { intros t v Hv%digits_value_digits. apply (string_forall_impl digit_char); [|done].
    intros c Hc. unfold sign_or_digit. by rewrite Hc. }
  unfold Atoi. destruct s as [|c s]; [done|].
  destruct (ascii_eqb c "-") eqn:E1; [|destruct (ascii_eqb c "+") eqn:E2]; case_bool_decide; try done;
    intros (v & Hv & _)%bind_Some; apply Hd in Hv; try done;
    cbn [string_forall]; rewrite Hv; unfold sign_or_digit; by rewrite ?E1, ?E2, ?orb_true_r.
Qed.

Lemma Atoi_pretty_int (z : Z) : (min_int64 <= z <= max_int64)%Z → Atoi (pretty z) = Some z.
Proof.
  intros Hz. destruct (decide (0 <= z)%Z) as [|Hneg]; [by apply Atoi_pretty; lia|].
  destruct z as [|q|q]; [lia|lia|]. change (pretty (Zneg q)) with (String "-"%char (pretty (Npos q))).
  unfold Atoi. change (ascii_eqb "-" "-") with true. cbn iota.
  rewrite bool_decide_eq_false_2 by apply pretty_N_not_nil. rewrite digits_value_pretty. cbn [mbind option_bind].
  change (- Z.of_N (Npos q))%Z with (Zneg q).
  by rewrite (proj2 (Z.leb_le _ _)), (proj2 (Z.leb_le _ _)) by lia.
Qed.

(** * Visible ASCII text *)

Definition visible (c : ascii) : bool := (33 <=? byte_of c)%nat && (byte_of c <=? 126)%nat.

Lemma visible_strip c s : visible c = true → strip_space (String c s) = None.
Proof.
  intros Hc. unfold visible in Hc. apply andb_true_iff in Hc as [H1 H2].
  apply Nat.leb_le in H1, H2. cbn [strip_space].
  rewrite bool_decide_eq_false_2 by (rewrite !elem_of_cons, elem_of_nil; lia).
  destruct s as [|d s]; [done|]. rewrite (proj2 (Nat.eqb_neq _ _)) by lia. cbn [andb].
  destruct s as [|e s]; [done|].
  rewrite bool_decide_eq_false_2.
  2: { rewrite !elem_of_cons, elem_of_nil. intros [H|[H|[H|[H|[H|[H|[]]]]]]]; injection H; lia. }
  by rewrite (proj2 (Nat.eqb_neq _ _)) by lia.
Qed.

Lemma visible_trim s : string_forall visible s = true → trim_space s = s.
Proof.
  intros Hs. unfold trim_space.
  assert (trim_left (String.length s) s = s) as ->.
  { destruct s as [|c s]; [done|]. simpl in Hs. apply andb_true_iff in Hs as [Hc _].
    cbn [trim_left String.length]. by rewrite visible_strip. }
  induction s as [|c s IH]; [done|]. simpl in Hs. apply andb_true_iff in Hs as [Hc Hs].
  cbn [trim_right]. unfold trim_space_empty. cbn [all_space String.length].
  rewrite visible_strip by done. by rewrite IH.
Qed.

Lemma fields_loop_word fuel w s word :
  string_forall visible w = true →
  fields_loop (String.length w + fuel) (w +:+ s) word = fields_loop fuel s (word +:+ w).
Proof.
  revert word. induction w as [|c w IH]; intros word Hw.
  - by rewrite string_app_nil_r.
  - simpl in Hw. apply andb_true_iff in Hw as [Hc Hw].
    rewrite string_app_cons. cbn [String.length Nat.add fields_loop].
    rewrite visible_strip by done. rewrite IH by done. by rewrite <- string_app_assoc.
Qed.

Lemma string_length_app s t : String.length (s +:+ t) = (String.length s + String.length t)%nat.
Proof. induction s as [|c s IH]; [done|]. rewrite string_app_cons. simpl. by rewrite IH. Qed.

Lemma fields_cons w s :
  string_forall visible w = true → w ≠ "" → fields (w +:+ String " " s) = w :: fields s.
Proof.
  intros Hw Hne. unfold fields. rewrite string_length_app, fields_loop_word by done.
  rewrite string_app_nil_l. cbn [String.length fields_loop].
  change (strip_space (String " " s)) with (Some s). cbn iota.
  by rewrite bool_decide_eq_false_2.
Qed.

Lemma fields_last w : string_forall visible w = true → w ≠ "" → fields w = [w].
Proof.
  intros Hw Hne. unfold fields. pose proof (fields_loop_word 0 w "" "" Hw) as H.
  rewrite Nat.add_0_r, string_app_nil_r, string_app_nil_l in H. rewrite H.
  cbn [fields_loop]. by rewrite bool_decide_eq_false_2.
Qed.
