(* ===== verification/Sha256.v ===== *)
(** Hashes and hexadecimal text: the parts of [crypto/sha256], [crypto/sha512], [crypto/hmac],
    [hash/crc32], [hash/fnv] and [encoding/hex] that the program uses.  Words are integers below 2^32, bytes integers below 2^8. *)
From S2P Require Import Prelude.
Local Open Scope Z_scope.

Definition w32 (x : Z) : Z := x mod 2 ^ 32.
Definition rotr (n x : Z) : Z := Z.lor (Z.shiftr x n) (w32 (Z.shiftl x (32 - n))).
Definition lnot32 (x : Z) : Z := 2 ^ 32 - 1 - x.

Definition Ch (x y z : Z) : Z := Z.lxor (Z.land x y) (Z.land (lnot32 x) z).
Definition Maj (x y z : Z) : Z := Z.lxor (Z.lxor (Z.land x y) (Z.land x z)) (Z.land y z).
Definition Sigma0 (x : Z) : Z := Z.lxor (Z.lxor (rotr 2 x) (rotr 13 x)) (rotr 22 x).
Definition Sigma1 (x : Z) : Z := Z.lxor (Z.lxor (rotr 6 x) (rotr 11 x)) (rotr 25 x).
Definition sigma0 (x : Z) : Z := Z.lxor (Z.lxor (rotr 7 x) (rotr 18 x)) (Z.shiftr x 3).
Definition sigma1 (x : Z) : Z := Z.lxor (Z.lxor (rotr 17 x) (rotr 19 x)) (Z.shiftr x 10).

(** ** Constants *)

(** The constants of the rounds are the first 32 bits of the fractional parts of the cube roots of
    the first 64 primes, and the initial state those of the square roots of the first eight. *)
Definition prime (n : nat) : bool :=
  (2 <=? n)%nat && forallb (λ d, negb (n mod d =? 0)%nat) (seq 2 (n - 2)).
Definition primes (n : nat) : list Z :=
  Z.of_nat <$> take n (List.filter prime (seq 2 310)).

(** The largest [r] below [2 ^ bits] with [r ^ 3 <= n], bit by bit. *)
Fixpoint cbrt (bits : nat) (n r : Z) : Z :=
  match bits with
  | O => r
  | S bits' =>
      let r' := r + 2 ^ Z.of_nat bits' in
      cbrt bits' n (if r' ^ 3 <=? n then r' else r)
  end.

Definition K256 : list Z := Eval vm_compute in (λ p, w32 (cbrt 36 (p * 2 ^ 96) 0)) <$> primes 64.
Definition H0 : list Z := Eval vm_compute in (λ p, w32 (Z.sqrt (p * 2 ^ 64))) <$> primes 8.

(** ** Padding *)

Definition be_bytes (n : nat) (x : Z) : list Z :=
  (λ i, Z.shiftr x (8 * Z.of_nat (n - 1 - i)) mod 256) <$> seq 0 n.

(** A one bit, zeros up to 56 modulo 64, and the length in bits on 8 bytes. *)
Definition pad (msg : list Z) : list Z :=
  let n := length msg in
  msg ++ [128] ++ repeat 0 ((119 - n mod 64) mod 64)%nat ++ be_bytes 8 (8 * Z.of_nat n).

Fixpoint chunks (k n : nat) (l : list Z) : list (list Z) :=
  match n with
  | O => []
  | S n' => take k l :: chunks k n' (drop k l)
  end.

Definition word_of (bytes : list Z) : Z := foldl (λ w b, 256 * w + b) 0 bytes.

(** ** Compression *)

(** The message schedule, newest word first. *)
Fixpoint extend (n : nat) (w : list Z) : list Z :=
  match n with
  | O => w
  | S n' =>
      let at_ k := nth k w 0 in
      extend n' (w32 (sigma1 (at_ 1%nat) + at_ 6%nat + sigma0 (at_ 14%nat) + at_ 15%nat) :: w)
  end.

Definition schedule (block : list Z) : list Z :=
  reverse (extend 48 (reverse (word_of <$> chunks 4 16 block))).

Definition round (st : list Z) (kw : Z * Z) : list Z :=
  match st with
  | [a; b; c; d; e; f; g; h] =>
      let t1 := h + Sigma1 e + Ch e f g + kw.1 + kw.2 in
      let t2 := Sigma0 a + Maj a b c in
      [w32 (t1 + t2); a; b; c; w32 (d + t1); e; f; g]
  | _ => st
  end.

Definition compress (st : list Z) (block : list Z) : list Z :=
  zip_with (λ x y, w32 (x + y)) st (foldl round st (zip K256 (schedule block))).

Definition sha256 (msg : list Z) : list Z :=
  let p := pad msg in
  mjoin (be_bytes 4 <$> foldl compress H0 (chunks 64 (length p / 64) p)).

(** ** Text *)

Definition bytes_of_string (s : string) : list Z :=
  (λ c, Z.of_N (N_of_ascii c)) <$> String.list_ascii_of_string s.

Definition hex_digit (d : Z) : ascii := ascii_of_N (Z.to_N (if d <? 10 then 48 + d else 87 + d)).

(** [hex.EncodeToString] *)
Fixpoint hex_encode (bytes : list Z) : string :=
  match bytes with
  | [] => ""
  | b :: bytes' => String (hex_digit (b / 16)) (String (hex_digit (b mod 16)) (hex_encode bytes'))
  end.

Definition sha256_hex (s : string) : string := hex_encode (sha256 (bytes_of_string s)).

(** The vectors of the standard. *)
Lemma sha256_abc :
  sha256_hex "abc" = "ba7816bf8f01cfea414140de5dae2223b00361a396177a9cb410ff61f20015ad".
Proof. vm_compute. reflexivity. Qed.

Lemma sha256_empty :
  sha256_hex "" = "e3b0c44298fc1c149afbf4c8996fb92427ae41e4649b934ca495991b7852b855".
Proof. vm_compute. reflexivity. Qed.

Lemma sha256_two_blocks :
  sha256_hex "abcdbcdecdefdefgefghfghighijhijkijkljklmklmnlmnomnopnopq" =
  "248d6a61d20638b8e5c026930c3e6039a33ce45964ff2167f6ecedd419db06c1".
Proof. vm_compute. reflexivity. Qed.

(** A digest has 32 bytes, printed as 64 digits. *)
Lemma compress_length st block : length st = 8%nat → length (compress st block) = 8%nat.
Proof.
  intros Hst. unfold compress. rewrite length_zip_with.
  assert (∀ l st, length st = 8%nat → length (foldl round st l) = 8%nat) as H.
  { induction l as [|kw l IH]; intros s Hs; [done|]. simpl. apply IH.
    destruct s as [|a [|b [|c [|d [|e [|f [|g [|h [|]]]]]]]]]; done. }
  rewrite H by done. rewrite Hst. done.
Qed.

Lemma sha256_length msg : length (sha256 msg) = 32%nat.
Proof.
  unfold sha256. assert (∀ l st, length st = 8%nat → length (foldl compress st l) = 8%nat) as H.
  { induction l as [|b l IH]; intros st Hst; [done|]. simpl. apply IH. by apply compress_length. }
  specialize (H (chunks 64 (length (pad msg) / 64) (pad msg)) H0 eq_refl).
  destruct (foldl compress H0 _) as [|a [|b [|c [|d [|e [|f [|g [|h [|]]]]]]]]]; done.
Qed.

Lemma hex_encode_length bytes : String.length (hex_encode bytes) = (2 * length bytes)%nat.
Proof. induction bytes as [|b bytes IH]; [done|]. simpl. rewrite IH. lia. Qed.

Lemma sha256_hex_nonempty s : sha256_hex s ≠ "".
Proof.
  intros E. assert (String.length (sha256_hex s) = 64%nat) as H.
  { unfold sha256_hex. by rewrite hex_encode_length, sha256_length. }
  by rewrite E in H.
Qed.

(** * SHA-512 and HMAC

    The words have 64 bits, the blocks 128 bytes, and there are 80 rounds; the constants come from the
    first 80 primes. *)
Module Sha512.
Definition w64 (x : Z) : Z := x mod 2 ^ 64.
Definition rotr (n x : Z) : Z := Z.lor (Z.shiftr x n) (w64 (Z.shiftl x (64 - n))).
Definition Ch (x y z : Z) : Z := Z.lxor (Z.land x y) (Z.land (2 ^ 64 - 1 - x) z).
Definition Sigma0 (x : Z) : Z := Z.lxor (Z.lxor (rotr 28 x) (rotr 34 x)) (rotr 39 x).
Definition Sigma1 (x : Z) : Z := Z.lxor (Z.lxor (rotr 14 x) (rotr 18 x)) (rotr 41 x).
Definition sigma0 (x : Z) : Z := Z.lxor (Z.lxor (rotr 1 x) (rotr 8 x)) (Z.shiftr x 7).
Definition sigma1 (x : Z) : Z := Z.lxor (Z.lxor (rotr 19 x) (rotr 61 x)) (Z.shiftr x 6).

Definition primes (n : nat) : list Z := Z.of_nat <$> take n (List.filter prime (seq 2 410)).
Definition K512 : list Z := Eval vm_compute in (λ p, w64 (cbrt 68 (p * 2 ^ 192) 0)) <$> primes 80.
Definition H0 : list Z := Eval vm_compute in (λ p, w64 (Z.sqrt (p * 2 ^ 128))) <$> primes 8.

Definition pad (msg : list Z) : list Z :=
  let n := length msg in
  msg ++ [128] ++ repeat 0 ((239 - n mod 128) mod 128)%nat ++ be_bytes 16 (8 * Z.of_nat n).

Fixpoint extend (n : nat) (w : list Z) : list Z :=
  match n with
  | O => w
  | S n' =>
      let at_ k := nth k w 0 in
      extend n' (w64 (sigma1 (at_ 1%nat) + at_ 6%nat + sigma0 (at_ 14%nat) + at_ 15%nat) :: w)
  end.

Definition schedule (block : list Z) : list Z :=
  reverse (extend 64 (reverse (word_of <$> chunks 8 16 block))).

Definition round (st : list Z) (kw : Z * Z) : list Z :=
  match st with
  | [a; b; c; d; e; f; g; h] =>
      let t1 := h + Sigma1 e + Ch e f g + kw.1 + kw.2 in
      let t2 := Sigma0 a + Maj a b c in
      [w64 (t1 + t2); a; b; c; w64 (d + t1); e; f; g]
  | _ => st
  end.

Definition compress (st : list Z) (block : list Z) : list Z :=
  zip_with (λ x y, w64 (x + y)) st (foldl round st (zip K512 (schedule block))).

Definition sha512 (msg : list Z) : list Z :=
  let p := pad msg in
  mjoin (be_bytes 8 <$> foldl compress H0 (chunks 128 (length p / 128) p)).

(** [hmac.New(sha512.New, key)], written to and summed. *)
Definition hmac (key msg : list Z) : list Z :=
  let key := if (128 <? length key)%nat then sha512 key else key in
  let key := key ++ repeat 0 (128 - length key) in
  sha512 ((Z.lxor 92 <$> key) ++ sha512 ((Z.lxor 54 <$> key) ++ msg)).

Lemma sha512_abc :
  hex_encode (sha512 (bytes_of_string "abc")) =
  "ddaf35a193617abacc417349ae20413112e6fa4e89a97ea20a9eeee64b55d39a2192992a274fc1a836ba3c23a3feebbd454d4423643ce80e2a9ac94fa54ca49f".
Proof. vm_compute. reflexivity. Qed.
End Sha512.

(** * Checksums

    The checksums of the Go library that the hash ring and the Bloom filter use: CRC-32 with the IEEE
    polynomial, and the 64-bit FNV-1a hash. *)

(** One bit of the division by the reversed polynomial. *)
Definition crc_bit (c : Z) : Z :=
  if Z.testbit c 0 then Z.lxor (Z.shiftr c 1) 3988292384 else Z.shiftr c 1.
Definition crc_byte (c b : Z) : Z := Nat.iter 8 crc_bit (Z.lxor c b).

(** [crc32.ChecksumIEEE([]byte(s))] *)
Definition ChecksumIEEE (s : string) : Z :=
  Z.lxor (foldl crc_byte (2 ^ 32 - 1) (bytes_of_string s)) (2 ^ 32 - 1).

Example ChecksumIEEE_check : ChecksumIEEE "123456789" = 3421780262.
Proof. vm_compute. reflexivity. Qed.

Definition fnv_offset64 : Z := 14695981039346656037.
Definition fnv_prime64 : Z := 1099511628211.

(** [h.Write(data)] for [fnv.New64a]. *)
Definition fnv64a_write (h : Z) (data : list Z) : Z :=
  foldl (λ h b, wrap_u 64 (Z.lxor h b * fnv_prime64)) h data.

Example fnv64a_check : fnv64a_write fnv_offset64 (bytes_of_string "a") = 12638187200555641996.
Proof. vm_compute. reflexivity. Qed.
