(* ===== verification/Float64.v ===== *)
(** The [float64] type of Go: IEEE 754 binary64 arithmetic, [strconv.ParseFloat] and the [%v]
    formatting of [fmt].

    Numbers are those of the standard library's [SpecFloat], with 53 bits of precision and
    exponents below 1024; a conversion from decimal or hexadecimal text rounds the exact value
    once, to nearest even. *)
From Stdlib Require Import SpecFloat.
From stdpp Require Import pretty.
From S2P Require Import Prelude Runes.

Abbreviation float64 := spec_float (only parsing).

Definition f64_add : float64 → float64 → float64 := SFadd 53 1024.
Definition f64_sub : float64 → float64 → float64 := SFsub 53 1024.
Definition f64_mul : float64 → float64 → float64 := SFmul 53 1024.
Definition f64_div : float64 → float64 → float64 := SFdiv 53 1024.
Definition f64_opp : float64 → float64 := SFopp.
Definition f64_eqb : float64 → float64 → bool := SFeqb.
Definition f64_ltb : float64 → float64 → bool := SFltb.
Definition f64_leb : float64 → float64 → bool := SFleb.
Definition f64_zero : float64 := S754_zero false.

(** [float64(z)] of an integer. *)
Definition f64_of_Z (z : Z) : float64 := binary_normalize 53 1024 z 0 false.

(** * [strconv.ParseFloat] *)

Inductive num_error := ErrSyntax | ErrRange.

(** [c | ('x' - 'X')] *)
Definition lower (c : ascii) : Z := Z.lor (byteZ c) 32.
Definition is_dec (c : ascii) : bool := (48 <=? byteZ c)%Z && (byteZ c <=? 57)%Z.
Definition is_hex_letter (c : ascii) : bool := (97 <=? lower c)%Z && (lower c <=? 102)%Z.

(** The value of a digit in base 10 or 16. *)
Definition digit_value (hex : bool) (c : ascii) : option Z :=
  if is_dec c then Some (byteZ c - 48)%Z
  else if hex && is_hex_letter c then Some (lower c - 97 + 10)%Z
  else None.

Record mantissa := MkMantissa {
  mn_value : Z;        (** all the digits read, as one integer *)
  mn_frac : Z;         (** how many of them follow the dot *)
  mn_sawdot : bool;
  mn_sawdigits : bool;
  mn_underscores : bool
}.

(** The digits, with at most one dot; stops at the first other character. *)
Fixpoint read_mantissa (hex : bool) (s : string) (m : mantissa) : mantissa * string :=
  match s with
  | EmptyString => (m, s)
  | String c s' =>
      if ascii_eqb c "_" then
        read_mantissa hex s' (MkMantissa (mn_value m) (mn_frac m) (mn_sawdot m) (mn_sawdigits m) true)
      else if ascii_eqb c "." then
        if mn_sawdot m then (m, s)
        else read_mantissa hex s'
               (MkMantissa (mn_value m) (mn_frac m) true (mn_sawdigits m) (mn_underscores m))
      else
        match digit_value hex c with
        | Some d =>
            read_mantissa hex s'
              (MkMantissa (mn_value m * (if hex then 16 else 10) + d)
                 (if mn_sawdot m then mn_frac m + 1 else mn_frac m)%Z
                 (mn_sawdot m) true (mn_underscores m))
        | None => (m, s)
        end
  end.

(** The digits of an exponent, which stops growing at 10000. *)
Fixpoint read_exponent (s : string) (e : Z) (underscores : bool) : Z * bool * string :=
  match s with
  | EmptyString => (e, underscores, s)
  | String c s' =>
      if ascii_eqb c "_" then read_exponent s' e true
      else if is_dec c then
        read_exponent s' (if (e <? 10000)%Z then e * 10 + (byteZ c - 48) else e)%Z underscores
      else (e, underscores, s)
  end.

(** [underscoreOK]: [saw] is the kind of the last character, as in the source. *)
Fixpoint underscore_loop (hex : bool) (saw : ascii) (s : string) : bool :=
  match s with
  | EmptyString => negb (ascii_eqb saw "_")
  | String c s' =>
      if is_dec c || (hex && is_hex_letter c) then underscore_loop hex "0" s'
      else if ascii_eqb c "_" then ascii_eqb saw "0" && underscore_loop hex "_" s'
      else negb (ascii_eqb saw "_") && underscore_loop hex "!" s'
  end.
Definition underscoreOK (s : string) : bool :=
  let s := match s with
           | String c s' => if ascii_eqb c "-" || ascii_eqb c "+" then s' else s
           | EmptyString => s
           end in
  match s with
  | String "0" (String c s') =>
      if bool_decide (lower c ∈ [98; 111; 120]%Z) (* b, o, x *)
      then underscore_loop (lower c =? 120)%Z "0" s'
      else underscore_loop false "^" s
  | _ => underscore_loop false "^" s
  end.

Definition f64_signed (neg : bool) (f : float64) : float64 := if neg then SFopp f else f.

(** The value [m * 10 ^ e], rounded; far outside the range of the type it is not computed. *)
Fixpoint count_digits (fuel : nat) (z : Z) : Z :=
  match fuel with
  | 0 => 0%Z
  | S n => if (z =? 0)%Z then 0%Z else (1 + count_digits n (z / 10))%Z
  end.
Definition decimal_digits (z : Z) : Z := count_digits (S (Z.to_nat (Z.log2 z))) z.

Definition round_decimal (m e : Z) : float64 :=
  match m with
  | Z.pos p =>
      let dp := (decimal_digits m + e)%Z in
      if (310 <? dp)%Z then S754_infinity false
      else if (dp <? -330)%Z then S754_zero false
      else if (0 <=? e)%Z then binary_normalize 53 1024 (m * 10 ^ e) 0 false
      else
        match (10 ^ (- e))%Z with
        | Z.pos d =>
            let '(q, e', l) := SFdiv_core_binary 53 1024 (Z.pos p) 0 (Z.pos d) 0 in
            binary_round_aux 53 1024 false q e' l
        | _ => S754_zero false
        end
  | _ => S754_zero false
  end.

Definition round_hex (m e : Z) : float64 := binary_normalize 53 1024 m e false.

Definition with_range (f : float64) : float64 * option num_error :=
  match f with
  | S754_infinity _ => (f, Some ErrRange)
  | _ => (f, None)
  end.

(** [readFloat] and the conversion, on a string that is not a special value. *)
Definition parse_number (s : string) : float64 * option num_error :=
  let fail := (f64_zero, Some ErrSyntax) in
  let '(neg, s1) := match s with
                    | String c s' => if ascii_eqb c "+" then (false, s')
                                     else if ascii_eqb c "-" then (true, s') else (false, s)
                    | EmptyString => (false, s)
                    end in
  let '(hex, s2) := match s1 with
                    | String "0" (String c (String d s')) =>
                        if (lower c =? 120)%Z then (true, String d s') else (false, s1)
                    | _ => (false, s1)
                    end in
  let '(m, s3) := read_mantissa hex s2 (MkMantissa 0 0 false false false) in
  if negb (mn_sawdigits m) then fail
  else
    let '(r, s4) :=
      match s3 with
      | String c s' =>
          if (lower c =? (if hex then 112 else 101))%Z then (* p, e *)
            let '(neg_e, s'') := match s' with
                                 | String d t => if ascii_eqb d "+" then (false, t)
                                                 else if ascii_eqb d "-" then (true, t) else (false, s')
                                 | EmptyString => (false, s')
                                 end in
            match s'' with
            | String d _ =>
                if is_dec d then
                  let '(e, us, rest) := read_exponent s'' 0 false in
                  (Some (if neg_e then - e else e, us)%Z, rest)
                else (None, s3)
            | EmptyString => (None, s3)
            end
          else if hex then (None, s3) else (Some (0%Z, false), s3)
      | EmptyString => if hex then (None, s3) else (Some (0%Z, false), s3)
      end in
    match r, s4 with
    | Some (e, us), EmptyString =>
        if (mn_underscores m || us) && negb (underscoreOK s) then fail
        else
          let f := if hex then round_hex (mn_value m) (e - 4 * mn_frac m)
                   else round_decimal (mn_value m) (e - mn_frac m) in
          with_range (f64_signed neg f)
    | _, _ => fail
    end.

(** [commonPrefixLenIgnoreCase(s, prefix)] for a lower-case prefix. *)
Fixpoint common_prefix (s prefix : string) : nat :=
  match s, prefix with
  | String c s', String p prefix' =>
      let c' := if (65 <=? byteZ c)%Z && (byteZ c <=? 90)%Z then (byteZ c + 32)%Z else byteZ c in
      if (c' =? byteZ p)%Z then S (common_prefix s' prefix') else 0
  | _, _ => 0
  end.

(** [special]: the value and how many characters it takes. *)
Definition inf_length (s : string) : option nat :=
  let n := common_prefix s "infinity" in
  let n := if (3 <? n) && (n <? 8) then 3 else n in
  if (n =? 3) || (n =? 8) then Some n else None.
Definition special (s : string) : option (float64 * nat) :=
  match s with
  | EmptyString => None
  | String c s' =>
      if ascii_eqb c "+" || ascii_eqb c "-" then
        match inf_length s' with
        | Some n => Some (S754_infinity (ascii_eqb c "-"), S n)
        | None => None
        end
      else if (lower c =? 105)%Z then (* i *)
        match inf_length s with Some n => Some (S754_infinity false, n) | None => None end
      else if (lower c =? 110)%Z then (* n *)
        if common_prefix s "nan" =? 3 then Some (S754_nan, 3) else None
      else None
  end.

Definition ParseFloat (s : string) : float64 * option num_error :=
  match special s with
  | Some (f, n) => if n =? String.length s then (f, None) else (f64_zero, Some ErrSyntax)
  | None => parse_number s
  end.

(** * [fmt.Sprintf("%v", f)] *)

(** The shortest decimal that reads back as the number [m * 2 ^ e], digit by digit from the
    left: at each power of ten [p] the number is cut to [q * 10 ^ p], and the search stops when
    cutting or rounding up stays between the midpoints to the neighbouring numbers.  [A] and [B]
    bring multiples of [2 ^ (e - 2)] and of [10 ^ p] to one unit.  At [p = -1074] every finite
    number is exact, so the fuel is enough from any power of ten in range. *)
Fixpoint shortest_loop (fuel : nat) (m e p : Z) (low : Z) : Z * Z :=
  let A := (2 ^ Z.max 0 (e - 2) * 10 ^ Z.max 0 (- p))%Z in
  let B := (10 ^ Z.max 0 p * 2 ^ Z.max 0 (2 - e))%Z in
  let q := (4 * m * A / B)%Z in
  let inclusive := Z.even m in
  let okdown := (low * A <? q * B)%Z || inclusive && (low * A =? q * B)%Z in
  let okup := ((q + 1) * B <? (4 * m + 2) * A)%Z
              || inclusive && ((q + 1) * B =? (4 * m + 2) * A)%Z in
  let twice_rest := (2 * (4 * m * A - q * B))%Z in
  match okdown, okup with
  | true, true =>
      ((if (B <? twice_rest) || (twice_rest =? B) && Z.odd q then q + 1 else q)%Z, p)
  | true, false => (q, p)
  | false, true => ((q + 1)%Z, p)
  | false, false => match fuel with 0 => (q, p) | S n => shortest_loop n m e (p - 1) low end
  end.

Fixpoint strip_zeros (fuel : nat) (d p : Z) : Z * Z :=
  match fuel with
  | 0 => (d, p)
  | S n => if (d mod 10 =? 0)%Z then strip_zeros n (d / 10) (p + 1) else (d, p)
  end.

(** The digits, without trailing zeros, and the power of ten of the last one. *)
Definition shortest (m : positive) (e : Z) : Z * Z :=
  let low := if (Z.pos m =? 2 ^ 52)%Z && negb (e =? -1074)%Z
             then (4 * Z.pos m - 1)%Z else (4 * Z.pos m - 2)%Z in
  let p0 := ((Z.log2 (Z.pos m) + 1 + e) * 30103 / 100000 + 2)%Z in
  let '(d, p) := shortest_loop 1500 (Z.pos m) e p0 low in
  strip_zeros (Z.to_nat (decimal_digits d)) d p.

Definition string_rep (n : Z) (c : ascii) : string :=
  Nat.iter (Z.to_nat n) (String c) "".

(** [%e] with all the digits: [d.ddde±xx], at least two digits of exponent. *)
Definition format_e (digits : string) (exp : Z) : string :=
  let mant := match digits with
              | EmptyString | String _ EmptyString => digits
              | String c rest => String c ("." +:+ rest)
              end in
  let e := pretty (Z.abs exp) in
  mant +:+ "e" +:+ (if (exp <? 0)%Z then "-" else "+") +:+
  (if (Z.abs exp <? 10)%Z then "0" +:+ e else e).

(** [%f] with all the digits: the integer part padded with zeros, and the fraction if any. *)
Definition format_f (digits : string) (dp : Z) : string :=
  let nd := Z.of_nat (String.length digits) in
  let int_part :=
    if (0 <? dp)%Z then String.substring 0 (Z.to_nat (Z.min nd dp)) digits +:+ string_rep (dp - nd) "0"
    else "0" in
  if (dp <? nd)%Z then
    int_part +:+ "." +:+ string_rep (- dp) "0" +:+
    String.substring (Z.to_nat (Z.max 0 dp)) (String.length digits) digits
  else int_part.

(** [%v], that is [%g] with the shortest digits: an exponent below -4, or of 6 and
    more, is written out. *)
Definition format_v (f : float64) : string :=
  match f with
  | S754_nan => "NaN"
  | S754_infinity neg => if neg then "-Inf" else "+Inf"
  | S754_zero neg => if neg then "-0" else "0"
  | S754_finite neg m e =>
      let '(d, p) := shortest m e in
      let digits := pretty d in
      let dp := (Z.of_nat (String.length digits) + p)%Z in
      (if neg then "-" else "") +:+
      (if (dp - 1 <? -4)%Z || (6 <=? dp - 1)%Z then format_e digits (dp - 1)
       else format_f digits dp)
  end.

(** * Conversion to [int64] *)

(** The integer part, towards zero; [None] for infinities and NaN. *)
Definition f64_trunc (f : float64) : option Z :=
  match f with
  | S754_zero _ => Some 0%Z
  | S754_finite neg m e =>
      let z := if (0 <=? e)%Z then (Z.pos m * 2 ^ e)%Z else (Z.pos m / 2 ^ (- e))%Z in
      Some (if neg then - z else z)%Z
  | _ => None
  end.

(** [int64(f)]; Go leaves a value out of range to the machine, which gives the least [int64]. *)
Definition int64_of_f64 (f : float64) : Z :=
  match f64_trunc f with
  | Some z => if (min_int64 <=? z)%Z && (z <=? max_int64)%Z then z else min_int64
  | None => min_int64
  end.
