(* ===== verification/Types.v ===== *)
(** The data of the system: [pkg/types/types.go] and the filters and leases of
    [internal/persistence/interface.go].

    The enumerations of the source are string types with constants, and so are they here: a
    value read from outside can be any string.  A nil-able pointer or map is an [option]. *)
From S2P Require Import Prelude.

(** A value of type [any] in a payload. *)
Inductive any :=
| AnyNil
| AnyBool (b : bool)
| AnyInt (z : Z)
| AnyString (s : string)
| AnyList (l : list any)
| AnyObject (l : list (string * any)).

Abbreviation Payload := (option (gmap string any)) (only parsing).
Abbreviation StringMap := (option (gmap string string)) (only parsing).
Abbreviation Namespace := string (only parsing).

Record WorkflowID := MkWorkflowID {
  wid_Namespace : Namespace;
  wid_Name : string;
  wid_Version : Z
}.

#[export] Instance WorkflowID_eq_dec : EqDecision WorkflowID.
Proof. solve_decision. Defined.

Abbreviation StepState := string (only parsing).
Definition StepPending : StepState := "PENDING".
Definition StepQueued : StepState := "QUEUED".
Definition StepRunning : StepState := "RUNNING".
Definition StepSucceeded : StepState := "SUCCEEDED".
Definition StepFailed : StepState := "FAILED".
Definition StepSkipped : StepState := "SKIPPED".

Abbreviation RunState := string (only parsing).
Definition StatePending : RunState := "PENDING".
Definition StateQueued : RunState := "QUEUED".
Definition StateRunning : RunState := "RUNNING".
Definition StateSucceeded : RunState := "SUCCEEDED".
Definition StateFailed : RunState := "FAILED".
Definition StateCancelled : RunState := "CANCELLED".
Definition StateTimedOut : RunState := "TIMED_OUT".

Definition IsTerminal (s : RunState) : bool :=
  bool_decide (s = StateSucceeded) || bool_decide (s = StateFailed)
  || bool_decide (s = StateCancelled) || bool_decide (s = StateTimedOut).

(** The multiplier of a retry policy is a [float64] that no modelled operation reads; it is
    kept as the bits of the float. *)
Record RetryPolicy := MkRetryPolicy {
  rp_MaxAttempts : Z;
  rp_InitialInterval : Duration;
  rp_MaxInterval : Duration;
  rp_Multiplier : Z;
  rp_MaxElapsed : Duration
}.

Record StepDefinition := MkStepDefinition {
  sd_ID : string;
  sd_Handler : string;
  sd_DependsOn : list string;
  sd_Timeout : Duration;
  sd_Retry : RetryPolicy;
  sd_InputSchema : string;
  sd_OutputSchema : string;
  sd_IsGateway : bool;
  sd_ContinueOnErr : bool
}.

Record WorkflowDefinition := MkWorkflowDefinition {
  wd_ID : WorkflowID;
  wd_Description : string;
  wd_Steps : list StepDefinition;
  wd_Tags : StringMap;
  wd_CreatedAt : Time;
  wd_UpdatedAt : Time;
  wd_Timeout : Duration
}.

Record RunInput := MkRunInput {
  ri_Workflow : WorkflowID;
  ri_Payload : Payload;
  ri_Labels : StringMap;
  ri_ParentRunID : string
}.

Record StepRun := MkStepRun {
  sr_StepID : string;
  sr_State : StepState;
  sr_Attempt : Z;
  sr_StartedAt : option Time;
  sr_FinishedAt : option Time;
  sr_Output : Payload;
  sr_Error : string;
  sr_LastErrType : string;
  sr_Metadata : StringMap
}.

Record Run := MkRun {
  run_ID : string;
  run_Namespace : Namespace;
  run_Workflow : WorkflowID;
  run_State : RunState;
  run_Input : RunInput;
  run_Steps : list StepRun;
  run_Attempt : Z;
  run_CreatedAt : Time;
  run_StartedAt : option Time;
  run_FinishedAt : option Time;
  run_Error : string;
  run_Labels : StringMap;
  run_ParentRunID : string
}.

Record QueueItem := MkQueueItem {
  qi_RunID : string;
  qi_Namespace : Namespace;
  qi_StepID : string;
  qi_EnqueuedAt : Time;
  qi_VisibleAt : Time;
  qi_Attempt : Z
}.

Abbreviation EventType := string (only parsing).
Definition EventRunCreated : EventType := "run.created".
Definition EventStepQueued : EventType := "step.queued".
Definition EventStepStarted : EventType := "step.started".
Definition EventStepDone : EventType := "step.completed".
Definition EventStepFailed : EventType := "step.failed".
Definition EventRunCompleted : EventType := "run.completed".
Definition EventRunFailed : EventType := "run.failed".
Definition EventRunCancelled : EventType := "run.cancelled".
Definition EventRunTimedOut : EventType := "run.timed_out".
Definition EventRetrySched : EventType := "retry.scheduled".

Record Event := MkEvent {
  ev_ID : string;
  ev_Type : EventType;
  ev_Version : Z;
  ev_Namespace : Namespace;
  ev_RunID : string;
  ev_StepID : string;
  ev_CreatedAt : Time;
  ev_Payload : Payload;
  ev_Attempt : Z
}.

Definition Short (t : EventType) : string :=
  if bool_decide (t = EventRunCreated) then "run-created"
  else if bool_decide (t = EventStepQueued) then "step-queued"
  else if bool_decide (t = EventStepStarted) then "step-started"
  else if bool_decide (t = EventStepDone) then "step-done"
  else if bool_decide (t = EventStepFailed) then "step-failed"
  else if bool_decide (t = EventRunCompleted) then "run-completed"
  else if bool_decide (t = EventRunFailed) then "run-failed"
  else if bool_decide (t = EventRunCancelled) then "run-cancelled"
  else if bool_decide (t = EventRunTimedOut) then "run-timedout"
  else if bool_decide (t = EventRetrySched) then "retry-scheduled"
  else "event".

Record WebhookEndpoint := MkWebhookEndpoint {
  we_ID : string;
  we_Namespace : Namespace;
  we_URL : string;
  we_Secret : string;
  we_Types : list EventType;
  we_Active : bool;
  we_Timeout : Duration;
  we_CreatedAt : Time
}.

Abbreviation DeliveryStatus := string (only parsing).
Definition DeliveryQueued : DeliveryStatus := "queued".
Definition DeliveryDelivered : DeliveryStatus := "delivered".
Definition DeliveryFailed : DeliveryStatus := "failed".

Record Delivery := MkDelivery {
  dl_ID : string;
  dl_EventID : string;
  dl_EndpointID : string;
  dl_Namespace : Namespace;
  dl_Status : DeliveryStatus;
  dl_Attempts : Z;
  dl_LastStatus : Z;
  dl_LastError : string;
  dl_CreatedAt : Time;
  dl_AttemptedAt : option Time;
  dl_FinishedAt : option Time
}.

Record APIToken := MkAPIToken {
  tok_ID : string;
  tok_Namespace : Namespace;
  tok_Role : string;
  tok_Label : string;
  tok_CreatedAt : Time;
  tok_ExpiresAt : option Time;
  tok_TokenHash : string
}.

(** ** Filters and leases of the persistence interface *)

Record DefinitionFilter := MkDefinitionFilter {
  df_Namespace : Namespace; df_Name : string; df_Limit : Z; df_Offset : Z
}.

Record RunFilter := MkRunFilter {
  rf_Namespace : Namespace; rf_Workflow : string; rf_State : option RunState;
  rf_CreatedAfter : option Time; rf_Limit : Z; rf_Offset : Z
}.

Record EventFilter := MkEventFilter {
  ef_Namespace : Namespace; ef_RunID : string; ef_Type : EventType; ef_Limit : Z
}.

Record DeliveryFilter := MkDeliveryFilter {
  lf_Namespace : Namespace; lf_EndpointID : string; lf_Status : DeliveryStatus;
  lf_Limit : Z; lf_Offset : Z
}.

Record CredentialsFilter := MkCredentialsFilter {
  cf_Namespace : Namespace; cf_Limit : Z
}.

Record QueueLease := MkQueueLease { ql_Item : QueueItem; ql_Token : string }.

(** ** Field assignments *)

Definition set_run_State (x : RunState) (r : Run) : Run :=
  MkRun (run_ID r) (run_Namespace r) (run_Workflow r) x (run_Input r) (run_Steps r)
    (run_Attempt r) (run_CreatedAt r) (run_StartedAt r) (run_FinishedAt r) (run_Error r)
    (run_Labels r) (run_ParentRunID r).
Definition set_run_StartedAt (x : option Time) (r : Run) : Run :=
  MkRun (run_ID r) (run_Namespace r) (run_Workflow r) (run_State r) (run_Input r)
    (run_Steps r) (run_Attempt r) (run_CreatedAt r) x (run_FinishedAt r) (run_Error r)
    (run_Labels r) (run_ParentRunID r).
Definition set_run_FinishedAt (x : option Time) (r : Run) : Run :=
  MkRun (run_ID r) (run_Namespace r) (run_Workflow r) (run_State r) (run_Input r)
    (run_Steps r) (run_Attempt r) (run_CreatedAt r) (run_StartedAt r) x (run_Error r)
    (run_Labels r) (run_ParentRunID r).
Definition set_run_Error (x : string) (r : Run) : Run :=
  MkRun (run_ID r) (run_Namespace r) (run_Workflow r) (run_State r) (run_Input r)
    (run_Steps r) (run_Attempt r) (run_CreatedAt r) (run_StartedAt r) (run_FinishedAt r) x
    (run_Labels r) (run_ParentRunID r).
Definition set_run_Steps (x : list StepRun) (r : Run) : Run :=
  MkRun (run_ID r) (run_Namespace r) (run_Workflow r) (run_State r) (run_Input r) x
    (run_Attempt r) (run_CreatedAt r) (run_StartedAt r) (run_FinishedAt r) (run_Error r)
    (run_Labels r) (run_ParentRunID r).

Definition set_sr_State (x : StepState) (s : StepRun) : StepRun :=
  MkStepRun (sr_StepID s) x (sr_Attempt s) (sr_StartedAt s) (sr_FinishedAt s) (sr_Output s)
    (sr_Error s) (sr_LastErrType s) (sr_Metadata s).
Definition set_sr_StartedAt (x : option Time) (s : StepRun) : StepRun :=
  MkStepRun (sr_StepID s) (sr_State s) (sr_Attempt s) x (sr_FinishedAt s) (sr_Output s)
    (sr_Error s) (sr_LastErrType s) (sr_Metadata s).
Definition set_sr_FinishedAt (x : option Time) (s : StepRun) : StepRun :=
  MkStepRun (sr_StepID s) (sr_State s) (sr_Attempt s) (sr_StartedAt s) x (sr_Output s)
    (sr_Error s) (sr_LastErrType s) (sr_Metadata s).
Definition set_sr_Output (x : Payload) (s : StepRun) : StepRun :=
  MkStepRun (sr_StepID s) (sr_State s) (sr_Attempt s) (sr_StartedAt s) (sr_FinishedAt s) x
    (sr_Error s) (sr_LastErrType s) (sr_Metadata s).

Definition set_qi_VisibleAt (x : Time) (q : QueueItem) : QueueItem :=
  MkQueueItem (qi_RunID q) (qi_Namespace q) (qi_StepID q) (qi_EnqueuedAt q) x (qi_Attempt q).
Definition set_qi_Attempt (x : Z) (q : QueueItem) : QueueItem :=
  MkQueueItem (qi_RunID q) (qi_Namespace q) (qi_StepID q) (qi_EnqueuedAt q)
    (qi_VisibleAt q) x.

Definition set_ri_Workflow (x : WorkflowID) (i : RunInput) : RunInput :=
  MkRunInput x (ri_Payload i) (ri_Labels i) (ri_ParentRunID i).

Definition set_ev_ID (x : string) (e : Event) : Event :=
  MkEvent x (ev_Type e) (ev_Version e) (ev_Namespace e) (ev_RunID e) (ev_StepID e)
    (ev_CreatedAt e) (ev_Payload e) (ev_Attempt e).

(** A [StepRun] with the named fields and the zero value for the rest, as a composite literal
    of the source. *)
Definition StepRun_zero (id : string) (st : StepState) : StepRun :=
  MkStepRun id st 0 None None None "" "" None.
