(* ===== verification/Validation.v ===== *)
(** Validation of names, step identifiers, retry policies and workflow definitions:
    [pkg/validation/validation.go]. *)
From S2P Require Import Prelude Errors.

Definition maxWorkflowNameLen : nat := 64.
Definition maxStepIDLen : nat := 64.

(** The character classes of [nameRe], [^[a-z][a-z0-9\-\.]{0,63}$]. *)
Definition is_lower (c : ascii) : bool := ((97 <=? byte_of c) && (byte_of c <=? 122))%nat.
Definition is_digit (c : ascii) : bool := ((48 <=? byte_of c) && (byte_of c <=? 57))%nat.
Definition is_name_char (c : ascii) : bool :=
  is_lower c || is_digit c || ascii_eqb c "-"%char || ascii_eqb c "."%char.

Definition nameRe (s : string) : bool :=
  match s with
  | EmptyString => false
  | String c r => is_lower c && string_forall is_name_char r && (String.length r <=? 63)%nat
  end.

Definition nameRe_text : string := "^[a-z][a-z0-9\-\.]{0,63}$".

Definition ValidateName (name : string) : option error :=
  if trim_space_empty name then Some (EFmt "name must not be empty" [])
  else if (maxWorkflowNameLen <? String.length name)%nat
  then Some (EFmt "name %q exceeds %d chars" [name; "64"])
  else if negb (nameRe name) then Some (EFmt "name %q must match %s" [name; nameRe_text])
  else None.

Definition ValidateNamespace (ns : string) : option error :=
  if trim_space_empty ns then Some (EFmt "namespace must not be empty" [])
  else ValidateName ns.

Definition ValidateVersion (v : Z) : option error :=
  if (v <? 0)%Z then Some (EFmt "version must be non-negative, got %d" [pretty v]) else None.

Definition ValidateStepID (id : string) : option error :=
  if trim_space_empty id then Some (EFmt "step id must not be empty" [])
  else if (maxStepIDLen <? String.length id)%nat
  then Some (EFmt "step id %q exceeds %d chars" [id; "64"])
  else if negb (nameRe id) then Some (EFmt "step id %q must match %s" [id; nameRe_text])
  else None.

Record StepDef := MkStepDef {
  vs_ID : string;
  vs_Handler : string;
  vs_DependsOn : list string
}.

Fixpoint validate_deps (ids : gset string) (id : string) (deps : list string) : option error :=
  match deps with
  | [] => None
  | dep :: deps' =>
      if bool_decide (dep ∈ ids) then validate_deps ids id deps'
      else Some (EFmt "step %q depends on unknown step %q (must be declared first)" [id; dep])
  end.

Fixpoint validate_steps (ids : gset string) (steps : list StepDef) : option error :=
  match steps with
  | [] => None
  | s :: steps' =>
      match ValidateStepID (vs_ID s) with
      | Some err => Some err
      | None =>
          if bool_decide (vs_ID s ∈ ids)
          then Some (EFmt "duplicate step id %q" [vs_ID s])
          else
            let ids' := {[ vs_ID s ]} ∪ ids in
            if bool_decide (vs_Handler s = "")
            then Some (EFmt "step %q requires a handler" [vs_ID s])
            else
              match validate_deps ids' (vs_ID s) (vs_DependsOn s) with
              | Some err => Some err
              | None => validate_steps ids' steps'
              end
      end
  end.

Definition ValidateDefinitionSteps (steps : list StepDef) : option error :=
  match steps with
  | [] => Some (EFmt "definition must have at least one step" [])
  | _ => validate_steps ∅ steps
  end.

(** * What a validated name is made of *)

Lemma ValidateName_spec name :
  ValidateName name = None ↔
  trim_space_empty name = false ∧ (String.length name ≤ 64)%nat ∧ nameRe name = true.
Proof.
  unfold ValidateName, maxWorkflowNameLen.
  destruct (trim_space_empty name); [naive_solver|].
  destruct (Nat.ltb_spec 64 (String.length name)); [naive_solver lia|].
  destruct (nameRe name); naive_solver lia.
Qed.

Lemma name_char_not c d :
  is_name_char d = true → is_name_char c = false → negb (ascii_eqb c d) = true.
Proof.
  intros Hd Hc. apply negb_true_iff, bool_decide_eq_false. intros ->. congruence.
Qed.

(** A byte outside the classes of [nameRe] does not occur in a validated name. *)
Lemma ValidateName_no_char name c :
  ValidateName name = None → is_name_char c = false → no_char c name.
Proof.
  rewrite ValidateName_spec. intros (_ & _ & Hre) Hc.
  destruct name as [|d r]; [done|]. cbn [nameRe] in Hre.
  apply andb_true_iff in Hre as [Hre _]. apply andb_true_iff in Hre as [Hd Hr].
  apply no_char_cons. split.
  - intros <-. unfold is_name_char in Hc. rewrite Hd in Hc. done.
  - unfold no_char. eapply string_forall_impl; [|exact Hr].
    intros e He. by apply name_char_not.
Qed.

(** * What a validated definition guarantees *)

(** The deps of each step are declared no later than the step itself. *)
Fixpoint deps_declared (ids : gset string) (steps : list StepDef) : Prop :=
  match steps with
  | [] => True
  | s :: steps' =>
      let ids' := {[ vs_ID s ]} ∪ ids in
      Forall (λ dep, dep ∈ ids') (vs_DependsOn s) ∧ deps_declared ids' steps'
  end.

Lemma validate_deps_None ids id deps :
  validate_deps ids id deps = None ↔ Forall (λ dep, dep ∈ ids) deps.
Proof.
  induction deps as [|dep deps IH]; simpl; [by rewrite Forall_nil|].
  rewrite Forall_cons. case_bool_decide; naive_solver.
Qed.

Lemma validate_steps_None ids steps :
  validate_steps ids steps = None ↔
  Forall (λ s, ValidateStepID (vs_ID s) = None) steps ∧
  Forall (λ s, vs_ID s ∉ ids) steps ∧ NoDup (vs_ID <$> steps) ∧
  Forall (λ s, vs_Handler s ≠ "") steps ∧ deps_declared ids steps.
Proof.
  revert ids. induction steps as [|s steps IH]; intros ids; simpl.
  - rewrite !Forall_nil, NoDup_nil. tauto.
  - rewrite !Forall_cons, NoDup_cons. destruct (ValidateStepID (vs_ID s)); [naive_solver|].
    case_bool_decide; [naive_solver|]. case_bool_decide; [naive_solver|].
    destruct (validate_deps _ _ _) eqn:E.
    + split; [done|]. intros (_ & _ & _ & _ & Hd & _).
      apply validate_deps_None with (id := vs_ID s) in Hd. congruence.
    + apply validate_deps_None in E. rewrite IH.
      assert (Forall (λ s0, vs_ID s0 ∉ ({[vs_ID s]} ∪ ids : gset string)) steps ↔
              ((vs_ID s ∉ (vs_ID <$> steps)) ∧ Forall (λ s0, vs_ID s0 ∉ ids) steps)) as ->.
      { rewrite list_elem_of_fmap, !Forall_forall. set_solver. }
      tauto.
Qed.

(** The dependencies of a step are the step itself or were declared before it. *)
Lemma deps_declared_split ids l1 s l2 dep :
  deps_declared ids (l1 ++ s :: l2) → dep ∈ vs_DependsOn s →
  dep = vs_ID s ∨ dep ∈ ids ∨ dep ∈ vs_ID <$> l1.
Proof.
  revert ids. induction l1 as [|s' l1 IH]; intros ids; simpl.
  - intros [Hd _] Hdep. rewrite Forall_forall in Hd. apply Hd in Hdep. set_solver.
  - intros [_ Hd] Hdep. destruct (IH _ Hd Hdep) as [?|[?|?]]; set_solver.
Qed.

Lemma ValidateDefinitionSteps_inv steps :
  ValidateDefinitionSteps steps = None →
  steps ≠ [] ∧ NoDup (vs_ID <$> steps) ∧ deps_declared ∅ steps ∧
  Forall (λ s, ValidateStepID (vs_ID s) = None) steps ∧ Forall (λ s, vs_Handler s ≠ "") steps.
Proof.
  unfold ValidateDefinitionSteps. destruct steps; [done|]. intros H.
  apply validate_steps_None in H. naive_solver.
Qed.
