(* ===== verification/Workflow.v ===== *)
(** Runs and the readiness of steps: [internal/workflow/workflow.go]. *)
From S2P Require Import Prelude Errors Types Validation.

(** [fmt.Sprintf("%x", n)] for an integer. *)
Definition hex_digit (d : N) : ascii :=
  ascii_of_N (if (d <? 10)%N then 48 + d else 87 + d)%N.

Fixpoint hex_digits (fuel : nat) (n : N) (acc : string) : string :=
  match fuel with
  | 0 => acc
  | S fuel' =>
      let acc' := String (hex_digit (n mod 16)%N) acc in
      if (n <? 16)%N then acc' else hex_digits fuel' (n / 16)%N acc'
  end.

(** An integer has no more hexadecimal digits than bits, and at least one. *)
Definition sprintf_x (z : Z) : string :=
  let n := Z.abs_N z in
  let s := hex_digits (S (N.to_nat (N.size n))) n "" in
  if (z <? 0)%Z then "-" +:+ s else s.

(** The step record [NewRun] makes for a step definition; the two maps are empty, not nil. *)
Definition new_step (sd : StepDefinition) : StepRun :=
  MkStepRun (sd_ID sd) StepPending 0 None None (Some ∅) "" "" (Some ∅).

(** [NewRun(def, input, now)], where [nano] is the reading of [time.Now().UnixNano()]. *)
Definition NewRun (def : option WorkflowDefinition) (input : RunInput) (now : Time) (nano : Z) :
    result error Run :=
  match def with
  | None => Err (InvalidArgumentError (EFmt "definition must not be nil" []))
  | Some d =>
      match wd_Steps d with
      | [] => Err (InvalidArgumentError (EFmt "definition must have at least one step" []))
      | _ =>
          let input' := set_ri_Workflow (wd_ID d) input in
          Ok (MkRun (":" +:+ sprintf_x nano) (wid_Namespace (ri_Workflow input'))
                (ri_Workflow input') StatePending input' (new_step <$> wd_Steps d)
                0 now None None "" None "")
      end
  end.

(** The map [deps] of [ReadySteps]; a later definition with the same id wins. *)
Definition deps_map (steps : list StepDefinition) : gmap string (list string) :=
  foldl (λ m sd, <[sd_ID sd := sd_DependsOn sd]> m) ∅ steps.

(** The map [stepState] of [ReadySteps]. *)
Definition state_map (steps : list StepRun) : gmap string StepState :=
  foldl (λ m s, <[sr_StepID s := sr_State s]> m) ∅ steps.

(** A missing key reads as the empty state, which is neither of the two. *)
Definition dep_done (m : gmap string StepState) (dep : string) : bool :=
  let st := default "" (m !! dep) in
  bool_decide (st = StepSucceeded) || bool_decide (st = StepSkipped).

Definition ready (deps : gmap string (list string)) (states : gmap string StepState)
    (s : StepRun) : bool :=
  bool_decide (sr_State s = StepPending)
  && forallb (dep_done states) (default [] (deps !! sr_StepID s)).

Definition ReadySteps (def : option WorkflowDefinition) (run : option Run) : list StepRun :=
  match def, run with
  | Some d, Some r =>
      filter (λ s, ready (deps_map (wd_Steps d)) (state_map (run_Steps r)) s = true)
        (run_Steps r)
  | _, _ => []
  end.

(** * Lookups in the two maps *)

Lemma dep_done_spec steps dep :
  NoDup (sr_StepID <$> steps) →
  dep_done (state_map steps) dep = true ↔
  ∃ s, s ∈ steps ∧ sr_StepID s = dep ∧ (sr_State s = StepSucceeded ∨ sr_State s = StepSkipped).
Proof.
  intros Hnd. unfold dep_done. rewrite orb_true_iff, !bool_decide_eq_true. split.
  - destruct (state_map steps !! dep) as [st|] eqn:E; simpl; [|by intros [?|?]].
    apply foldl_insert_Some in E as (s & Hs & <- & <-). eauto.
  - intros (s & Hs & <- & Hst). unfold state_map.
    by rewrite (foldl_insert_lookup sr_StepID sr_State).
Qed.

Lemma elem_of_ReadySteps d r s :
  NoDup (sd_ID <$> wd_Steps d) → NoDup (sr_StepID <$> run_Steps r) →
  s ∈ ReadySteps (Some d) (Some r) ↔
  s ∈ run_Steps r ∧ sr_State s = StepPending ∧
  ∀ sd dep, sd ∈ wd_Steps d → sd_ID sd = sr_StepID s → dep ∈ sd_DependsOn sd →
    ∃ s', s' ∈ run_Steps r ∧ sr_StepID s' = dep ∧
      (sr_State s' = StepSucceeded ∨ sr_State s' = StepSkipped).
Proof.
  intros Hd Hr. unfold ReadySteps, ready. rewrite list_elem_of_filter, andb_true_iff,
    bool_decide_eq_true, forallb_elem.
  split.
  - intros [[Hp Hdeps] Hs]. split_and!; [done..|]. intros sd dep Hsd HID Hdep.
    apply dep_done_spec; [done|]. apply Hdeps. rewrite <- HID.
    unfold deps_map. rewrite (foldl_insert_lookup sd_ID sd_DependsOn) by done. done.
  - intros (Hs & Hp & Hdeps). split; [split; [done|]|done].
    destruct (deps_map (wd_Steps d) !! sr_StepID s) as [l|] eqn:E; simpl; [|set_solver].
    apply foldl_insert_Some in E as (sd & Hsd & HID & <-). intros dep Hdep.
    apply dep_done_spec; eauto.
Qed.

(** * Readiness of the steps of a validated definition *)

(** A step definition as the validator sees it. *)
Definition to_StepDef (sd : StepDefinition) : StepDef :=
  MkStepDef (sd_ID sd) (sd_Handler sd) (sd_DependsOn sd).

Definition validated (d : WorkflowDefinition) : Prop :=
  ValidateDefinitionSteps (to_StepDef <$> wd_Steps d) = None.

Definition no_self_dep (d : WorkflowDefinition) : Prop :=
  ∀ sd, sd ∈ wd_Steps d → sd_ID sd ∉ sd_DependsOn sd.

Definition step_done (s : StepRun) : Prop :=
  sr_State s = StepSucceeded ∨ sr_State s = StepSkipped.

#[export] Instance step_done_dec s : Decision (step_done s).
Proof. unfold step_done. apply _. Defined.

Lemma to_StepDef_ids (l : list StepDefinition) : vs_ID <$> (to_StepDef <$> l) = sd_ID <$> l.
Proof. rewrite <- list_fmap_compose. done. Qed.

Lemma validated_NoDup d : validated d → NoDup (sd_ID <$> wd_Steps d).
Proof.
  intros (_ & Hnd & _)%ValidateDefinitionSteps_inv. by rewrite to_StepDef_ids in Hnd.
Qed.

(** The first element of a list that has a decidable property. *)
Lemma first_such {A} (P : A → Prop) `{∀ x, Decision (P x)} (l : list A) :
  ¬ Forall P l → ∃ l1 x l2, l = l1 ++ x :: l2 ∧ Forall P l1 ∧ ¬ P x.
Proof.
  induction l as [|a l IH]; intros Hn; [by destruct Hn; constructor|].
  destruct (decide (P a)) as [Ha|Ha].
  - destruct IH as (l1 & x & l2 & -> & H1 & H2); [by intros ?; apply Hn; constructor|].
    exists (a :: l1), x, l2. by repeat constructor.
  - exists [], a, l. by repeat constructor.
Qed.

(** The dependencies of a step of a validated definition are steps declared before it. *)
Lemma validated_deps_before d l1 sd l2 dep :
  validated d → no_self_dep d → wd_Steps d = l1 ++ sd :: l2 → dep ∈ sd_DependsOn sd →
  dep ∈ sd_ID <$> l1.
Proof.
  intros Hv Hself Heq Hdep. apply ValidateDefinitionSteps_inv in Hv as (_ & _ & Hd & _).
  rewrite Heq, fmap_app, fmap_cons in Hd.
  destruct (deps_declared_split _ _ _ _ dep Hd Hdep) as [->|[H|H]]; [|set_solver|].
  - exfalso. apply (Hself sd); [rewrite Heq; apply elem_of_mid|done].
  - by rewrite to_StepDef_ids in H.
Qed.

Lemma fmap_eq_split {A B C} (f : A → C) (g : B → C) l1 x l2 k :
  f <$> (l1 ++ x :: l2) = g <$> k →
  ∃ k1 y k2, k = k1 ++ y :: k2 ∧ f <$> l1 = g <$> k1 ∧ f x = g y.
Proof.
  revert k. induction l1 as [|a l1 IH]; intros [|b k]; csimpl; intros H; simplify_eq.
  - by exists [], b, k.
  - destruct (IH k) as (k1 & y & k2 & -> & H1 & H2); [done|].
    exists (b :: k1), y, k2. csimpl. split_and!; [done|congruence|done].
Qed.

(** A run whose steps are the steps of its definition, in order. *)
Definition run_of (d : WorkflowDefinition) (r : Run) : Prop :=
  sr_StepID <$> run_Steps r = sd_ID <$> wd_Steps d.

Lemma NewRun_run_of d input now nano r :
  NewRun (Some d) input now nano = Ok r → run_of d r.
Proof.
  unfold NewRun, run_of. destruct (wd_Steps d) eqn:E; [done|]. intros ?; simplify_eq.
  simpl. f_equal. by rewrite <- list_fmap_compose.
Qed.

(** The first step that is not done is ready when every other step that is not done is
    pending too. *)
Lemma first_pending_ready d r :
  validated d → no_self_dep d → run_of d r →
  Forall (λ s, sr_State s = StepPending ∨ step_done s) (run_Steps r) →
  ¬ Forall step_done (run_Steps r) → ReadySteps (Some d) (Some r) ≠ [].
Proof.
  intros Hv Hself Hrun Hst Hn. pose proof (validated_NoDup _ Hv) as Hnd.
  apply first_such in Hn as (l1 & s & l2 & Heq & Hdone & Hs); [|apply _].
  assert (sr_State s = StepPending) as Hp.
  { rewrite Forall_forall in Hst. destruct (Hst s); [rewrite Heq; apply elem_of_mid|done..]. }
  apply (elem_of_not_nil s), elem_of_ReadySteps; [done|by rewrite Hrun|].
  split_and!; [rewrite Heq; apply elem_of_mid|done|]. intros sd dep Hsd HID Hdep.
  unfold run_of in Hrun. rewrite Heq in Hrun.
  apply fmap_eq_split in Hrun as (d1 & sd' & d2 & Hd & H1 & H2).
  assert (sd = sd') as <-.
  { apply (NoDup_fmap_elem_inj sd_ID (wd_Steps d)); [done|done|rewrite Hd; apply elem_of_mid|].
    congruence. }
  pose proof (validated_deps_before _ _ _ _ dep Hv Hself Hd Hdep) as Hbefore.
  rewrite <- H1 in Hbefore. apply list_elem_of_fmap in Hbefore as (s' & -> & Hs').
  exists s'. rewrite Heq. rewrite Forall_forall in Hdone. specialize (Hdone s' Hs').
  split_and!; [set_solver|done|exact Hdone].
Qed.

(** A pending step that depends on itself is never ready. *)
Lemma self_dep_never_ready d r sd :
  NoDup (sd_ID <$> wd_Steps d) → NoDup (sr_StepID <$> run_Steps r) →
  sd ∈ wd_Steps d → sd_ID sd ∈ sd_DependsOn sd →
  ∀ s, s ∈ ReadySteps (Some d) (Some r) → sr_StepID s ≠ sd_ID sd.
Proof.
  intros Hd Hr Hsd Hself s Hs HID.
  apply elem_of_ReadySteps in Hs as (Hs & Hp & Hdeps); [|done..].
  destruct (Hdeps sd (sd_ID sd)) as (s' & Hs' & HID' & Hst); [done..|].
  assert (s' = s) as ->.
  { apply (NoDup_fmap_elem_inj sr_StepID (run_Steps r)); [done..|congruence]. }
  rewrite Hp in Hst. by destruct Hst.
Qed.
