(* ===== verification/MemStore.v ===== *)
(** The in-memory store: [internal/persistence/memstore/memstore.go] and [helpers.go].

    The store's maps are finite maps from the key strings of the source.  The store keeps
    clones of what it is given and hands out clones, so a stored record is a value; every
    method holds the mutex for its whole body, so a method is one function on the state.  A
    method that loops over a map takes the [shuffle] that orders the loop; a method that draws
    lease tokens takes the tokens it draws. *)
From S2P Require Import Prelude Errors Types.

Record Store := MkStore {
  st_definitions : gmap string WorkflowDefinition;
  st_runs : gmap string Run;
  st_queue : gmap string QueueItem;
  st_events : list Event;
  st_webhooks : gmap string WebhookEndpoint;
  st_deliveries : gmap string Delivery;
  st_tokens : gmap string APIToken;
  st_tokenHash : gmap string APIToken
}.

Definition New : Store := MkStore ∅ ∅ ∅ [] ∅ ∅ ∅ ∅.

Definition set_definitions x s :=
  MkStore x (st_runs s) (st_queue s) (st_events s) (st_webhooks s) (st_deliveries s)
    (st_tokens s) (st_tokenHash s).
Definition set_runs x s :=
  MkStore (st_definitions s) x (st_queue s) (st_events s) (st_webhooks s) (st_deliveries s)
    (st_tokens s) (st_tokenHash s).
Definition set_queue x s :=
  MkStore (st_definitions s) (st_runs s) x (st_events s) (st_webhooks s) (st_deliveries s)
    (st_tokens s) (st_tokenHash s).
Definition set_events x s :=
  MkStore (st_definitions s) (st_runs s) (st_queue s) x (st_webhooks s) (st_deliveries s)
    (st_tokens s) (st_tokenHash s).
Definition set_webhooks x s :=
  MkStore (st_definitions s) (st_runs s) (st_queue s) (st_events s) x (st_deliveries s)
    (st_tokens s) (st_tokenHash s).
Definition set_deliveries x s :=
  MkStore (st_definitions s) (st_runs s) (st_queue s) (st_events s) (st_webhooks s) x
    (st_tokens s) (st_tokenHash s).
Definition set_tokens x y s :=
  MkStore (st_definitions s) (st_runs s) (st_queue s) (st_events s) (st_webhooks s)
    (st_deliveries s) x y.

(** * Keys *)

Definition itoa (i : Z) : string := pretty i.

Definition defKey (namespace : Namespace) (name : string) (version : Z) : string :=
  namespace +:+ "/" +:+ name +:+ "@" +:+ itoa version.

Definition runKey (namespace : Namespace) (id : string) : string :=
  namespace +:+ "/" +:+ id.

Definition queueKey (namespace : Namespace) (runID stepID : string) : string :=
  namespace +:+ "/" +:+ runID +:+ "/" +:+ stepID.

(** * Clones *)

(** The copy of a map by a loop of assignments; a nil map stays nil. *)
Definition copy_map {V} (m : option (gmap string V)) : option (gmap string V) :=
  match m with
  | None => None
  | Some m => Some (foldl (λ acc kv, <[kv.1 := kv.2]> acc) ∅ (map_to_list m))
  end.

Definition cloneDefinition (d : WorkflowDefinition) : WorkflowDefinition :=
  MkWorkflowDefinition (wd_ID d) (wd_Description d) ([] ++ wd_Steps d) (copy_map (wd_Tags d))
    (wd_CreatedAt d) (wd_UpdatedAt d) (wd_Timeout d).

Definition cloneStep (s : StepRun) : StepRun :=
  MkStepRun (sr_StepID s) (sr_State s) (sr_Attempt s) (sr_StartedAt s) (sr_FinishedAt s)
    (copy_map (sr_Output s)) (sr_Error s) (sr_LastErrType s) (copy_map (sr_Metadata s)).

Definition cloneRun (r : Run) : Run :=
  let i := run_Input r in
  MkRun (run_ID r) (run_Namespace r) (run_Workflow r) (run_State r)
    (MkRunInput (ri_Workflow i) (copy_map (ri_Payload i)) (ri_Labels i) (ri_ParentRunID i))
    (cloneStep <$> run_Steps r) (run_Attempt r) (run_CreatedAt r) (run_StartedAt r)
    (run_FinishedAt r) (run_Error r) (copy_map (run_Labels r)) (run_ParentRunID r).

Definition cloneRunForList (r : Run) : Run := r.
Definition cloneEvent (e : Event) : Event := e.
Definition cloneEndpoint (e : WebhookEndpoint) : WebhookEndpoint :=
  MkWebhookEndpoint (we_ID e) (we_Namespace e) (we_URL e) (we_Secret e) ([] ++ we_Types e)
    (we_Active e) (we_Timeout e) (we_CreatedAt e).
Definition cloneToken (t : APIToken) : APIToken := t.
Definition cloneDelivery (d : Delivery) : Delivery := d.

(** * Shared parts of the list methods *)

(** The [Offset] and [Limit] of a filter. *)
Definition apply_offset {A} (offset : Z) (l : list A) : list A :=
  if (0 <? offset)%Z then
    if (Z.of_nat (length l) <=? offset)%Z then [] else drop (Z.to_nat offset) l
  else l.
Definition apply_limit {A} (limit : Z) (l : list A) : list A :=
  if ((0 <? limit) && (limit <? Z.of_nat (length l)))%Z then take (Z.to_nat limit) l else l.

(** [f != "" && x != f], the test that skips a record. *)
Definition filtered_out (f x : string) : bool :=
  negb (bool_decide (f = "")) && negb (bool_decide (x = f)).

Definition err_notfound : error := NotFoundError ErrNotFound.
Definition err_exists : error := AlreadyExistsError ErrAlreadyExists.

(** * Workflow definitions *)

Definition CreateDefinition (d : WorkflowDefinition) (s : Store) : result error unit * Store :=
  let key := defKey (wid_Namespace (wd_ID d)) (wid_Name (wd_ID d)) (wid_Version (wd_ID d)) in
  match st_definitions s !! key with
  | Some _ => (Err err_exists, s)
  | None => (Ok (), set_definitions (<[key := cloneDefinition d]> (st_definitions s)) s)
  end.

Definition GetDefinition (id : WorkflowID) (s : Store) : result error WorkflowDefinition :=
  match st_definitions s !! defKey (wid_Namespace id) (wid_Name id) (wid_Version id) with
  | None => Err err_notfound
  | Some d => Ok (cloneDefinition d)
  end.

(** The loop of [GetDefinitionByName]: the latest definition so far and the next one. *)
Definition latest_step (namespace : Namespace) (name : string)
    (latest : option WorkflowDefinition) (d : WorkflowDefinition) : option WorkflowDefinition :=
  if bool_decide (wid_Namespace (wd_ID d) = namespace) && bool_decide (wid_Name (wd_ID d) = name)
  then match latest with
       | None => Some d
       | Some l =>
           if (wid_Version (wd_ID l) <? wid_Version (wd_ID d))%Z then Some d else latest
       end
  else latest.

Definition GetDefinitionByName (sh : shuffle) (namespace : Namespace) (name : string)
    (s : Store) : result error WorkflowDefinition :=
  match foldl (latest_step namespace name) None (range_values sh (st_definitions s)) with
  | None => Err err_notfound
  | Some d => Ok (cloneDefinition d)
  end.

Definition def_less (a b : WorkflowDefinition) : bool :=
  if negb (bool_decide (wid_Name (wd_ID a) = wid_Name (wd_ID b)))
  then string_ltb (wid_Name (wd_ID a)) (wid_Name (wd_ID b))
  else (wid_Version (wd_ID b) <? wid_Version (wd_ID a))%Z.

Definition def_matches (f : DefinitionFilter) (d : WorkflowDefinition) : bool :=
  negb (filtered_out (df_Namespace f) (wid_Namespace (wd_ID d)))
  && negb (filtered_out (df_Name f) (wid_Name (wd_ID d))).

Definition ListDefinitions (sh : shuffle) (f : DefinitionFilter) (s : Store) :
    result error (list WorkflowDefinition) :=
  let out := cloneDefinition <$>
    filter (λ d, def_matches f d = true) (range_values sh (st_definitions s)) in
  Ok (apply_limit (df_Limit f) (apply_offset (df_Offset f) (sort_slice def_less out))).

Definition DeleteDefinition (id : WorkflowID) (s : Store) : result error unit * Store :=
  let key := defKey (wid_Namespace id) (wid_Name id) (wid_Version id) in
  match st_definitions s !! key with
  | None => (Err err_notfound, s)
  | Some _ => (Ok (), set_definitions (delete key (st_definitions s)) s)
  end.

(** * Runs *)

Definition CreateRun (r : Run) (s : Store) : result error unit * Store :=
  let key := runKey (run_Namespace r) (run_ID r) in
  match st_runs s !! key with
  | Some _ => (Err err_exists, s)
  | None => (Ok (), set_runs (<[key := cloneRun r]> (st_runs s)) s)
  end.

Definition GetRun (namespace : Namespace) (id : string) (s : Store) : result error Run :=
  match st_runs s !! runKey namespace id with
  | None => Err err_notfound
  | Some r => Ok (cloneRun r)
  end.

Definition run_less (a b : Run) : bool := time_after (run_CreatedAt a) (run_CreatedAt b).

Definition run_matches (f : RunFilter) (r : Run) : bool :=
  negb (filtered_out (rf_Namespace f) (run_Namespace r))
  && negb (filtered_out (rf_Workflow f) (wid_Name (run_Workflow r)))
  && match rf_State f with None => true | Some st => bool_decide (run_State r = st) end
  && match rf_CreatedAfter f with None => true | Some t => time_after (run_CreatedAt r) t end.

Definition ListRuns (sh : shuffle) (f : RunFilter) (s : Store) : result error (list Run) :=
  let out := cloneRunForList <$>
    filter (λ r, run_matches f r = true) (range_values sh (st_runs s)) in
  Ok (apply_limit (rf_Limit f) (apply_offset (rf_Offset f) (sort_slice run_less out))).

Definition apply_run_state (to : RunState) (at_ : Time) (r : Run) : Run :=
  let r := set_run_State to r in
  if bool_decide (run_StartedAt r = None)
     && (bool_decide (to = StateRunning) || bool_decide (to = StateSucceeded)
         || bool_decide (to = StateFailed))
  then set_run_StartedAt (Some at_) r
  else if IsTerminal to then set_run_FinishedAt (Some at_) r
  else r.

Definition UpdateRunState (namespace : Namespace) (id : string) (to : RunState) (at_ : Time)
    (s : Store) : result error unit * Store :=
  let key := runKey namespace id in
  match st_runs s !! key with
  | None => (Err err_notfound, s)
  | Some r => (Ok (), set_runs (<[key := apply_run_state to at_ r]> (st_runs s)) s)
  end.

Definition UpdateRunError (namespace : Namespace) (id : string) (errMsg : string) (s : Store) :
    result error unit * Store :=
  let key := runKey namespace id in
  match st_runs s !! key with
  | None => (Err err_notfound, s)
  | Some r => (Ok (), set_runs (<[key := set_run_Error errMsg r]> (st_runs s)) s)
  end.

(** The loop of [UpdateStepState]: the first step with the id is replaced; [None] when there
    is no such step. *)
Fixpoint replace_step (step : StepRun) (steps : list StepRun) : option (list StepRun) :=
  match steps with
  | [] => None
  | s :: steps' =>
      if bool_decide (sr_StepID s = sr_StepID step) then Some (step :: steps')
      else (s ::.) <$> replace_step step steps'
  end.

Definition UpdateStepState (namespace : Namespace) (id : string) (step : StepRun) (s : Store) :
    result error unit * Store :=
  let key := runKey namespace id in
  match st_runs s !! key with
  | None => (Err err_notfound, s)
  | Some r =>
      match replace_step step (run_Steps r) with
      | Some steps' => (Ok (), set_runs (<[key := set_run_Steps steps' r]> (st_runs s)) s)
      | None =>
          (Err (NotFoundError (EFmt "step %q not found in run %q" [sr_StepID step; id])), s)
      end
  end.

(** * The queue *)

Definition Enqueue (item : QueueItem) (s : Store) : result error unit * Store :=
  let key := queueKey (qi_Namespace item) (qi_RunID item) (qi_StepID item) in
  (Ok (), set_queue (<[key := item]> (st_queue s)) s).

Definition lease_window : Duration := (30 * second)%Z.

(** A leased item: one more attempt, invisible for the lease window. *)
Definition lease_item (now : Time) (item : QueueItem) : QueueItem :=
  set_qi_VisibleAt (time_add now lease_window) (set_qi_Attempt (qi_Attempt item + 1) item).

(** The loop of [Dequeue] and [DequeueAny]: [wanted] is the namespace test of the former,
    [toks] the lease tokens drawn.  Once [limit] leases are out the loop breaks. *)
Fixpoint dequeue_loop (wanted : QueueItem → bool) (limit : Z) (now : Time)
    (toks : nat → string) (items : list (string * QueueItem))
    (q : gmap string QueueItem) (out : list QueueLease) :
    list QueueLease * gmap string QueueItem :=
  match items with
  | [] => (out, q)
  | (k, item) :: items' =>
      if negb (wanted item) then dequeue_loop wanted limit now toks items' q out
      else if negb (time_before (qi_VisibleAt item) now)
      then dequeue_loop wanted limit now toks items' q out
      else
        let item' := lease_item now item in
        let q' := <[k := item']> q in
        let out' := out ++ [MkQueueLease item' (toks (length out))] in
        if ((0 <? limit) && (limit <=? Z.of_nat (length out')))%Z then (out', q')
        else dequeue_loop wanted limit now toks items' q' out'
  end.

Definition dequeue_with (wanted : QueueItem → bool) (sh : shuffle) (toks : nat → string)
    (limit : Z) (now : Time) (s : Store) : result error (list QueueLease) * Store :=
  let res := dequeue_loop wanted limit now toks (range_map sh (st_queue s)) (st_queue s) [] in
  (Ok res.1, set_queue res.2 s).

Definition Dequeue (sh : shuffle) (toks : nat → string) (namespace : Namespace) (limit : Z)
    (now : Time) (s : Store) : result error (list QueueLease) * Store :=
  dequeue_with (λ item, bool_decide (qi_Namespace item = namespace)) sh toks limit now s.

Definition DequeueAny (sh : shuffle) (toks : nat → string) (limit : Z) (now : Time)
    (s : Store) : result error (list QueueLease) * Store :=
  dequeue_with (λ _, true) sh toks limit now s.

(** The lease token is not compared with anything. *)
Definition CompleteStep (namespace : Namespace) (runID stepID leaseToken : string) (s : Store) :
    result error unit * Store :=
  let key := queueKey namespace runID stepID in
  match st_queue s !! key with
  | None => (Err err_notfound, s)
  | Some _ => (Ok (), set_queue (delete key (st_queue s)) s)
  end.

(** [now] is the reading of the store's clock. *)
Definition ReleaseStep (now : Time) (namespace : Namespace) (runID stepID : string)
    (s : Store) : result error unit * Store :=
  let key := queueKey namespace runID stepID in
  match st_queue s !! key with
  | None => (Err err_notfound, s)
  | Some item => (Ok (), set_queue (<[key := set_qi_VisibleAt now item]> (st_queue s)) s)
  end.

Definition RequeueWithDelay (namespace : Namespace) (runID stepID : string) (visibleAt : Time)
    (attempt : Z) (s : Store) : result error unit * Store :=
  let key := queueKey namespace runID stepID in
  match st_queue s !! key with
  | None => (Err err_notfound, s)
  | Some item =>
      (Ok (), set_queue (<[key := set_qi_Attempt attempt (set_qi_VisibleAt visibleAt item)]>
                           (st_queue s)) s)
  end.

Definition LeaseExpired (sh : shuffle) (leaseTimeout : Duration) (now : Time) (s : Store) :
    result error (list QueueItem) :=
  Ok (filter (λ item, ((0 <? qi_Attempt item)
                       && (leaseTimeout <? time_sub now (qi_VisibleAt item)))%Z = true)
        (range_values sh (st_queue s))).

(** The loop of [ListQueue], with its early exit. *)
Fixpoint list_queue_loop (namespace : Namespace) (limit : Z) (items out : list QueueItem) :
    list QueueItem :=
  match items with
  | [] => out
  | item :: items' =>
      if negb (bool_decide (qi_Namespace item = namespace))
      then list_queue_loop namespace limit items' out
      else
        let out' := out ++ [item] in
        if ((0 <? limit) && (limit <=? Z.of_nat (length out')))%Z then out'
        else list_queue_loop namespace limit items' out'
  end.

Definition ListQueue (sh : shuffle) (namespace : Namespace) (limit : Z) (s : Store) :
    result error (list QueueItem) :=
  Ok (list_queue_loop namespace limit (range_values sh (st_queue s)) []).

(** * Events *)

Definition AppendEvent (e : Event) (s : Store) : result error unit * Store :=
  (Ok (), set_events (st_events s ++ [cloneEvent e]) s).

Definition GetEvent (id : string) (s : Store) : result error Event :=
  match list_find (λ e, ev_ID e = id) (st_events s) with
  | Some (_, e) => Ok (cloneEvent e)
  | None => Err err_notfound
  end.

Definition event_matches (f : EventFilter) (e : Event) : bool :=
  negb (filtered_out (ef_Namespace f) (ev_Namespace e))
  && negb (filtered_out (ef_RunID f) (ev_RunID e))
  && negb (filtered_out (ef_Type f) (ev_Type e)).

Definition event_less (a b : Event) : bool := time_after (ev_CreatedAt a) (ev_CreatedAt b).

Definition ListEvents (sh : shuffle) (f : EventFilter) (s : Store) :
    result error (list Event) :=
  let out := cloneEvent <$> filter (λ e, event_matches f e = true) (st_events s) in
  Ok (apply_limit (ef_Limit f) (sort_slice event_less (sh _ out))).

(** * Webhook endpoints and deliveries *)

Definition CreateWebhookEndpoint (e : WebhookEndpoint) (s : Store) :
    result error unit * Store :=
  let key := defKey (we_Namespace e) (we_ID e) 0 in
  match st_webhooks s !! key with
  | Some _ => (Err err_exists, s)
  | None => (Ok (), set_webhooks (<[key := cloneEndpoint e]> (st_webhooks s)) s)
  end.

Definition GetWebhookEndpoint (namespace : Namespace) (id : string) (s : Store) :
    result error WebhookEndpoint :=
  match st_webhooks s !! defKey namespace id 0 with
  | None => Err err_notfound
  | Some e => Ok (cloneEndpoint e)
  end.

Definition endpoint_less (a b : WebhookEndpoint) : bool := string_ltb (we_ID a) (we_ID b).

Definition ListWebhookEndpoints (sh : shuffle) (namespace : Namespace) (s : Store) :
    result error (list WebhookEndpoint) :=
  Ok (sort_slice endpoint_less (cloneEndpoint <$>
        filter (λ e, we_Namespace e = namespace) (range_values sh (st_webhooks s)))).

Definition UpdateWebhookEndpoint (e : WebhookEndpoint) (s : Store) :
    result error unit * Store :=
  let key := defKey (we_Namespace e) (we_ID e) 0 in
  match st_webhooks s !! key with
  | None => (Err err_notfound, s)
  | Some _ => (Ok (), set_webhooks (<[key := cloneEndpoint e]> (st_webhooks s)) s)
  end.

Definition DeleteWebhookEndpoint (namespace : Namespace) (id : string) (s : Store) :
    result error unit * Store :=
  let key := defKey namespace id 0 in
  match st_webhooks s !! key with
  | None => (Err err_notfound, s)
  | Some _ => (Ok (), set_webhooks (delete key (st_webhooks s)) s)
  end.

Definition CreateDelivery (d : Delivery) (s : Store) : result error unit * Store :=
  let key := defKey (dl_Namespace d) (dl_ID d) 0 in
  match st_deliveries s !! key with
  | Some _ => (Err err_exists, s)
  | None => (Ok (), set_deliveries (<[key := cloneDelivery d]> (st_deliveries s)) s)
  end.

Definition UpdateDelivery (d : Delivery) (s : Store) : result error unit * Store :=
  let key := defKey (dl_Namespace d) (dl_ID d) 0 in
  match st_deliveries s !! key with
  | None => (Err err_notfound, s)
  | Some _ => (Ok (), set_deliveries (<[key := cloneDelivery d]> (st_deliveries s)) s)
  end.

Definition delivery_matches (f : DeliveryFilter) (d : Delivery) : bool :=
  negb (filtered_out (lf_Namespace f) (dl_Namespace d))
  && negb (filtered_out (lf_EndpointID f) (dl_EndpointID d))
  && negb (filtered_out (lf_Status f) (dl_Status d)).

Definition delivery_less (a b : Delivery) : bool := time_before (dl_CreatedAt a) (dl_CreatedAt b).

Definition ListDeliveries (sh : shuffle) (f : DeliveryFilter) (s : Store) :
    result error (list Delivery) :=
  let out := cloneDelivery <$>
    filter (λ d, delivery_matches f d = true) (range_values sh (st_deliveries s)) in
  Ok (apply_limit (lf_Limit f) (apply_offset (lf_Offset f) (sort_slice delivery_less out))).

(** * API tokens *)

Definition CreateToken (tok : APIToken) (s : Store) : result error unit * Store :=
  let key := defKey (tok_Namespace tok) (tok_ID tok) 0 in
  match st_tokens s !! key with
  | Some _ => (Err err_exists, s)
  | None =>
      let cp := cloneToken tok in
      (Ok (), set_tokens (<[key := cp]> (st_tokens s))
                (if bool_decide (tok_TokenHash tok = "") then st_tokenHash s
                 else <[tok_TokenHash tok := cp]> (st_tokenHash s)) s)
  end.

Definition GetToken (namespace : Namespace) (id : string) (s : Store) :
    result error APIToken :=
  match st_tokens s !! defKey namespace id 0 with
  | None => Err err_notfound
  | Some t => Ok (cloneToken t)
  end.

Definition LookupTokenByHash (hash : string) (s : Store) : result error APIToken :=
  match st_tokenHash s !! hash with
  | None => Err err_notfound
  | Some t => Ok (cloneToken t)
  end.

Definition ListTokens (sh : shuffle) (f : CredentialsFilter) (s : Store) :
    result error (list APIToken) :=
  let out := cloneToken <$>
    filter (λ t, filtered_out (cf_Namespace f) (tok_Namespace t) = false)
      (range_values sh (st_tokens s)) in
  Ok (apply_limit (cf_Limit f) out).

Definition DeleteToken (namespace : Namespace) (id : string) (s : Store) :
    result error unit * Store :=
  let key := defKey namespace id 0 in
  match st_tokens s !! key with
  | None => (Err err_notfound, s)
  | Some t =>
      (Ok (), set_tokens (delete key (st_tokens s))
                (if bool_decide (tok_TokenHash t = "") then st_tokenHash s
                 else delete (tok_TokenHash t) (st_tokenHash s)) s)
  end.

(** * Retention *)

Definition finished_less (a b : Run) : bool :=
  time_before (default 0%Z (run_FinishedAt a)) (default 0%Z (run_FinishedAt b)).

Definition run_expired (cutoff : Time) (r : Run) : bool :=
  match run_FinishedAt r with
  | None => false
  | Some t => time_before t cutoff && IsTerminal (run_State r)
  end.

Definition ListExpiredRuns (sh : shuffle) (cutoff : Time) (limit : Z) (s : Store) :
    result error (list Run) :=
  let out := cloneRun <$>
    filter (λ r, run_expired cutoff r = true) (range_values sh (st_runs s)) in
  Ok (apply_limit limit (sort_slice finished_less out)).

(** The two inner loops of [DeleteRuns]; what they delete does not depend on the order. *)
Definition delete_runs_with_id (id : string) (m : gmap string Run) (deleted : Z) :
    gmap string Run * Z :=
  foldl (λ acc kr, if bool_decide (run_ID kr.2 = id)
                   then (delete kr.1 acc.1, acc.2 + 1)%Z else acc)
    (m, deleted) (map_to_list m).

Definition delete_queue_of (id : string) (q : gmap string QueueItem) : gmap string QueueItem :=
  foldl (λ acc ki, if string_contains ki.1 ("/" +:+ id +:+ "/") then delete ki.1 acc else acc)
    q (map_to_list q).

Fixpoint delete_runs_loop (ids : list string) (runs : gmap string Run)
    (q : gmap string QueueItem) (deleted : Z) : gmap string Run * gmap string QueueItem * Z :=
  match ids with
  | [] => (runs, q, deleted)
  | id :: ids' =>
      let '(runs', deleted') := delete_runs_with_id id runs deleted in
      delete_runs_loop ids' runs' (delete_queue_of id q) deleted'
  end.

Definition DeleteRuns (ids : list string) (s : Store) : result error Z * Store :=
  let '(runs', q', deleted) := delete_runs_loop ids (st_runs s) (st_queue s) 0 in
  (Ok deleted, set_queue q' (set_runs runs' s)).

(** The lock is taken to list the runs and again to delete them: [others] is what happens in between. *)
Definition CompactRunsAmid (others : Store → Store) (sh : shuffle) (before : Time) (limit : Z) (s : Store) :
    result error Z * Store :=
  match ListExpiredRuns sh before limit s with
  | Err e => (Err e, others s)
  | Ok expired => DeleteRuns (run_ID <$> expired) (others s)
  end.

(** A call that is not interrupted. *)
Definition CompactRuns (sh : shuffle) (before : Time) (limit : Z) (s : Store) : result error Z * Store :=
  CompactRunsAmid (λ s, s) sh before limit s.
