(* ===== verification/Persistence.v ===== *)
(** The store interface: [internal/persistence/interface.go].

    One constructor of [StoreOp] per method of the Go interface [Store], indexed by what the
    method returns.  [StoreImpl] is what an implementation provides: each call is one atomic
    step on its state, given the [oracle] of the call (the order of a loop over a map, the
    lease tokens drawn and the reading of the store's own clock).  The engine is written
    against the interface; [memstore] is an instance. *)
From S2P Require Import Prelude Errors Types MemStore.

Inductive StoreOp : Type → Type :=
| OpCreateDefinition (d : WorkflowDefinition) : StoreOp (result error unit)
| OpGetDefinition (id : WorkflowID) : StoreOp (result error WorkflowDefinition)
| OpGetDefinitionByName (namespace : Namespace) (name : string) :
    StoreOp (result error WorkflowDefinition)
| OpListDefinitions (f : DefinitionFilter) : StoreOp (result error (list WorkflowDefinition))
| OpDeleteDefinition (id : WorkflowID) : StoreOp (result error unit)
| OpCreateRun (r : Run) : StoreOp (result error unit)
| OpGetRun (namespace : Namespace) (id : string) : StoreOp (result error Run)
| OpListRuns (f : RunFilter) : StoreOp (result error (list Run))
| OpUpdateRunState (namespace : Namespace) (id : string) (to : RunState) (at_ : Time) :
    StoreOp (result error unit)
| OpUpdateRunError (namespace : Namespace) (id errMsg : string) : StoreOp (result error unit)
| OpUpdateStepState (namespace : Namespace) (id : string) (step : StepRun) :
    StoreOp (result error unit)
| OpEnqueue (item : QueueItem) : StoreOp (result error unit)
| OpDequeue (namespace : Namespace) (limit : Z) (now : Time) :
    StoreOp (result error (list QueueLease))
| OpDequeueAny (limit : Z) (now : Time) : StoreOp (result error (list QueueLease))
| OpCompleteStep (namespace : Namespace) (runID stepID leaseToken : string) :
    StoreOp (result error unit)
| OpReleaseStep (namespace : Namespace) (runID stepID : string) : StoreOp (result error unit)
| OpRequeueWithDelay (namespace : Namespace) (runID stepID : string) (visibleAt : Time)
    (attempt : Z) : StoreOp (result error unit)
| OpLeaseExpired (leaseTimeout : Duration) (now : Time) :
    StoreOp (result error (list QueueItem))
| OpListQueue (namespace : Namespace) (limit : Z) : StoreOp (result error (list QueueItem))
| OpAppendEvent (e : Event) : StoreOp (result error unit)
| OpGetEvent (id : string) : StoreOp (result error Event)
| OpListEvents (f : EventFilter) : StoreOp (result error (list Event))
| OpCreateWebhookEndpoint (e : WebhookEndpoint) : StoreOp (result error unit)
| OpGetWebhookEndpoint (namespace : Namespace) (id : string) :
    StoreOp (result error WebhookEndpoint)
| OpListWebhookEndpoints (namespace : Namespace) :
    StoreOp (result error (list WebhookEndpoint))
| OpUpdateWebhookEndpoint (e : WebhookEndpoint) : StoreOp (result error unit)
| OpDeleteWebhookEndpoint (namespace : Namespace) (id : string) : StoreOp (result error unit)
| OpCreateDelivery (d : Delivery) : StoreOp (result error unit)
| OpUpdateDelivery (d : Delivery) : StoreOp (result error unit)
| OpListDeliveries (f : DeliveryFilter) : StoreOp (result error (list Delivery))
| OpCreateToken (t : APIToken) : StoreOp (result error unit)
| OpGetToken (namespace : Namespace) (id : string) : StoreOp (result error APIToken)
| OpLookupTokenByHash (hash : string) : StoreOp (result error APIToken)
| OpListTokens (f : CredentialsFilter) : StoreOp (result error (list APIToken))
| OpDeleteToken (namespace : Namespace) (id : string) : StoreOp (result error unit)
| OpListExpiredRuns (cutoff : Time) (limit : Z) : StoreOp (result error (list Run))
| OpDeleteRuns (ids : list string) : StoreOp (result error Z)
| OpCompactRuns (before : Time) (limit : Z) : StoreOp (result error Z).

Record oracle := MkOracle {
  o_shuffle : shuffle;
  o_tokens : nat → string;
  o_now : Time
}.

Class StoreImpl (S : Type) :=
  store_exec : ∀ A, oracle → StoreOp A → S → A * S.
Arguments store_exec {S _} {A} o op s.

Definition memstore_exec A (o : oracle) (op : StoreOp A) (s : Store) : A * Store :=
  let sh := o_shuffle o in
  match op with
  | OpCreateDefinition d => CreateDefinition d s
  | OpGetDefinition id => (GetDefinition id s, s)
  | OpGetDefinitionByName ns name => (GetDefinitionByName sh ns name s, s)
  | OpListDefinitions f => (ListDefinitions sh f s, s)
  | OpDeleteDefinition id => DeleteDefinition id s
  | OpCreateRun r => CreateRun r s
  | OpGetRun ns id => (GetRun ns id s, s)
  | OpListRuns f => (ListRuns sh f s, s)
  | OpUpdateRunState ns id to at_ => UpdateRunState ns id to at_ s
  | OpUpdateRunError ns id msg => UpdateRunError ns id msg s
  | OpUpdateStepState ns id step => UpdateStepState ns id step s
  | OpEnqueue item => Enqueue item s
  | OpDequeue ns limit now => Dequeue sh (o_tokens o) ns limit now s
  | OpDequeueAny limit now => DequeueAny sh (o_tokens o) limit now s
  | OpCompleteStep ns runID stepID tok => CompleteStep ns runID stepID tok s
  | OpReleaseStep ns runID stepID => ReleaseStep (o_now o) ns runID stepID s
  | OpRequeueWithDelay ns runID stepID t n => RequeueWithDelay ns runID stepID t n s
  | OpLeaseExpired timeout now => (LeaseExpired sh timeout now s, s)
  | OpListQueue ns limit => (ListQueue sh ns limit s, s)
  | OpAppendEvent e => AppendEvent e s
  | OpGetEvent id => (GetEvent id s, s)
  | OpListEvents f => (ListEvents sh f s, s)
  | OpCreateWebhookEndpoint e => CreateWebhookEndpoint e s
  | OpGetWebhookEndpoint ns id => (GetWebhookEndpoint ns id s, s)
  | OpListWebhookEndpoints ns => (ListWebhookEndpoints sh ns s, s)
  | OpUpdateWebhookEndpoint e => UpdateWebhookEndpoint e s
  | OpDeleteWebhookEndpoint ns id => DeleteWebhookEndpoint ns id s
  | OpCreateDelivery d => CreateDelivery d s
  | OpUpdateDelivery d => UpdateDelivery d s
  | OpListDeliveries f => (ListDeliveries sh f s, s)
  | OpCreateToken t => CreateToken t s
  | OpGetToken ns id => (GetToken ns id s, s)
  | OpLookupTokenByHash hash => (LookupTokenByHash hash s, s)
  | OpListTokens f => (ListTokens sh f s, s)
  | OpDeleteToken ns id => DeleteToken ns id s
  | OpListExpiredRuns cutoff limit => (ListExpiredRuns sh cutoff limit s, s)
  | OpDeleteRuns ids => DeleteRuns ids s
  | OpCompactRuns before limit => CompactRuns sh before limit s
  end.

#[export] Instance memstore : StoreImpl Store := memstore_exec.
