(* ===== verification/MemStoreFacts.v ===== *)
(** Theorems about the in-memory store: keys, clones, listing, leasing, tokens, retention. *)
From S2P Require Import Prelude Errors Types Validation MemStore Persistence.

(** * Clones are equal to what they copy *)

Lemma foldl_insert_list_to_map {V} (l : list (string * V)) (m : gmap string V) :
  NoDup l.*1 → (∀ k, k ∈ l.*1 → m !! k = None) →
  foldl (λ acc kv, <[kv.1 := kv.2]> acc) m l = list_to_map l ∪ m.
Proof.
  revert m. induction l as [|[k v] l IH]; intros m; csimpl.
  - intros _ _. by rewrite (left_id_L ∅ (∪)).
  - rewrite NoDup_cons. intros [Hk Hnd] Hm. rewrite IH; [|done|].
    + rewrite <- insert_union_r; [by rewrite insert_union_l|]. by apply not_elem_of_list_to_map_1.
    + intros k' Hk'. rewrite lookup_insert_ne by set_solver. apply Hm. set_solver.
Qed.

Lemma copy_map_id {V} (m : option (gmap string V)) : copy_map m = m.
Proof.
  destruct m as [m|]; [|done]. simpl. f_equal. rewrite foldl_insert_list_to_map.
  - by rewrite (right_id_L ∅ (∪)), list_to_map_to_list.
  - apply NoDup_fst_map_to_list.
  - intros. apply lookup_empty.
Qed.

Lemma cloneDefinition_id d : cloneDefinition d = d.
Proof. destruct d. unfold cloneDefinition. simpl. by rewrite copy_map_id. Qed.

Lemma cloneStep_id s : cloneStep s = s.
Proof. destruct s. unfold cloneStep. simpl. by rewrite !copy_map_id. Qed.

Lemma cloneRun_id r : cloneRun r = r.
Proof.
  destruct r as [? ? ? ? [] steps]. unfold cloneRun. simpl. rewrite !copy_map_id. f_equal.
  rewrite <- (list_fmap_id steps) at 2. apply list_fmap_ext. intros. apply cloneStep_id.
Qed.

Lemma cloneEndpoint_id e : cloneEndpoint e = e.
Proof. by destruct e. Qed.

Create Rewrite HintDb clone.
#[export] Hint Rewrite cloneDefinition_id cloneStep_id cloneRun_id cloneEndpoint_id : clone.

Lemma fmap_clone {A} (f : A → A) (l : list A) : (∀ x, f x = x) → f <$> l = l.
Proof. intros H. rewrite <- (list_fmap_id l) at 2. apply list_fmap_ext. intros. apply H. Qed.

(** * Keys *)

Lemma name_no_slash n : ValidateName n = None → no_char "/"%char n.
Proof. intros. by apply ValidateName_no_char. Qed.
Lemma name_no_at n : ValidateName n = None → no_char "@"%char n.
Proof. intros. by apply ValidateName_no_char. Qed.

Lemma runKey_inj ns1 ns2 id1 id2 :
  no_char "/"%char ns1 → no_char "/"%char ns2 →
  runKey ns1 id1 = runKey ns2 id2 → ns1 = ns2 ∧ id1 = id2.
Proof. apply split_at_char. Qed.

Lemma defKey_inj ns1 ns2 n1 n2 v1 v2 :
  ValidateName ns1 = None → ValidateName ns2 = None →
  ValidateName n1 = None → ValidateName n2 = None →
  defKey ns1 n1 v1 = defKey ns2 n2 v2 → ns1 = ns2 ∧ n1 = n2 ∧ v1 = v2.
Proof.
  intros H1 H2 H3 H4 E. unfold defKey in E.
  apply split_at_char in E as [-> E]; [|by apply name_no_slash..].
  apply split_at_char in E as [-> E]; [|by apply name_no_at..].
  split_and!; [done..|]. by apply (inj pretty) in E.
Qed.

Lemma queueKey_inj ns1 ns2 r1 r2 s1 s2 :
  no_char "/"%char ns1 → no_char "/"%char ns2 → no_char "/"%char r1 → no_char "/"%char r2 →
  queueKey ns1 r1 s1 = queueKey ns2 r2 s2 → ns1 = ns2 ∧ r1 = r2 ∧ s1 = s2.
Proof.
  intros H1 H2 H3 H4 E. unfold queueKey in E.
  apply split_at_char in E as [-> E]; [|done..].
  apply split_at_char in E as [-> E]; [|done..]. done.
Qed.

(** * Leasing queue items *)

(** An item that the loop of [Dequeue] leases. *)
Definition eligible (wanted : QueueItem → bool) (now : Time) (item : QueueItem) : Prop :=
  wanted item = true ∧ (qi_VisibleAt item < now)%Z.

#[export] Instance eligible_dec wanted now item : Decision (eligible wanted now item).
Proof. unfold eligible. apply _. Defined.

(** The bindings the loop leases, when [n] leases are already out: the first ones that are
    eligible, up to the limit. *)
Definition picked (wanted : QueueItem → bool) (limit : Z) (now : Time) (n : nat)
    (items : list (string * QueueItem)) : list (string * QueueItem) :=
  let e := filter (λ ki, eligible wanted now ki.2) items in
  if (0 <? limit)%Z then take (Z.to_nat limit - n) e else e.

Definition lease_of (now : Time) (toks : nat → string) (n : nat)
    (items : list (string * QueueItem)) : list QueueLease :=
  imap (λ i ki, MkQueueLease (lease_item now ki.2) (toks (n + i))) items.

Definition lease_all (now : Time) (q : gmap string QueueItem)
    (items : list (string * QueueItem)) : gmap string QueueItem :=
  foldl (λ q ki, <[ki.1 := lease_item now ki.2]> q) q items.

Lemma eligible_bool wanted now item :
  negb (wanted item) = false → negb (time_before (qi_VisibleAt item) now) = false →
  eligible wanted now item.
Proof.
  unfold eligible, time_before. intros ?%negb_false_iff H%negb_false_iff.
  apply Z.ltb_lt in H. done.
Qed.

Lemma not_eligible_wanted wanted now item :
  negb (wanted item) = true → ¬ eligible wanted now item.
Proof. unfold eligible. intros ?%negb_true_iff [? _]. congruence. Qed.

Lemma not_eligible_time wanted now item :
  negb (time_before (qi_VisibleAt item) now) = true → ¬ eligible wanted now item.
Proof. unfold eligible, time_before. intros ?%negb_true_iff [_ ?]. lia. Qed.

Lemma picked_skip wanted limit now n k item items :
  ¬ eligible wanted now item →
  picked wanted limit now n ((k, item) :: items) = picked wanted limit now n items.
Proof. intros H. unfold picked. by rewrite filter_cons_False by done. Qed.

Lemma lease_of_cons now toks n ki items :
  lease_of now toks n (ki :: items) =
  MkQueueLease (lease_item now ki.2) (toks n) :: lease_of now toks (S n) items.
Proof.
  unfold lease_of. simpl. f_equal; [by rewrite Nat.add_0_r|].
  apply imap_ext. intros. simpl. by rewrite Nat.add_succ_r.
Qed.

Lemma dequeue_loop_spec wanted limit now toks items q out :
  ((0 < limit)%Z → (Z.of_nat (length out) < limit)%Z) →
  dequeue_loop wanted limit now toks items q out =
  let p := picked wanted limit now (length out) items in
  (out ++ lease_of now toks (length out) p, lease_all now q p).
Proof.
  revert q out. induction items as [|[k item] items IH]; intros q out Hlim; simpl.
  - unfold picked. destruct (0 <? limit)%Z; rewrite filter_nil, ?take_nil; simpl;
      by rewrite app_nil_r.
  - destruct (negb (wanted item)) eqn:E1.
    { rewrite IH, picked_skip by (done || by eapply not_eligible_wanted). done. }
    destruct (negb (time_before _ _)) eqn:E2.
    { rewrite IH, picked_skip by (done || by eapply not_eligible_time). done. }
    pose proof (eligible_bool _ _ _ E1 E2) as He.
    assert (∀ n, (0 < limit)%Z → (Z.of_nat n < limit)%Z →
      picked wanted limit now n ((k, item) :: items) =
      (k, item) :: picked wanted limit now (S n) items) as Hpick.
    { intros n Hl Hn. unfold picked. rewrite filter_cons_True by done.
      destruct (Z.ltb_spec 0 limit); [|lia].
      by replace (Z.to_nat limit - n) with (S (Z.to_nat limit - S n)) by lia. }
    rewrite length_app; simpl. rewrite Nat.add_1_r.
    destruct (Z.ltb_spec 0 limit) as [Hpos|Hpos]; simpl.
    + rewrite Hpick by auto. rewrite lease_of_cons. simpl.
      destruct (Z.leb_spec limit (Z.of_nat (S (length out)))).
      * unfold picked. destruct (Z.ltb_spec 0 limit); [|lia].
        replace (Z.to_nat limit - S (length out)) with 0 by lia. by rewrite take_0.
      * rewrite IH by (rewrite length_app; simpl; lia). rewrite length_app; simpl.
        by rewrite Nat.add_1_r, <- app_assoc.
    + rewrite IH by lia. rewrite length_app; simpl. rewrite Nat.add_1_r, <- app_assoc.
      unfold picked. destruct (Z.ltb_spec 0 limit); [lia|].
      rewrite filter_cons_True by done. by rewrite lease_of_cons.
Qed.

Lemma picked_sub wanted limit now n items ki :
  ki ∈ picked wanted limit now n items → ki ∈ items ∧ eligible wanted now ki.2.
Proof.
  unfold picked. intros H.
  assert (ki ∈ filter (λ ki, eligible wanted now ki.2) items) as H'.
  { destruct (0 <? limit)%Z; [|done]. eapply elem_of_take in H as (i & H & _).
    by eapply list_elem_of_lookup_2. }
  by apply list_elem_of_filter in H' as [??].
Qed.

Lemma picked_NoDup wanted limit now n items :
  NoDup items.*1 → NoDup (picked wanted limit now n items).*1.
Proof.
  intros H. unfold picked.
  assert (sublist (filter (λ ki, eligible wanted now ki.2) items).*1 items.*1) as Hsub.
  { apply fmap_sublist, sublist_filter. }
  assert (NoDup (filter (λ ki, eligible wanted now ki.2) items).*1) as Hf
    by (by eapply sublist_NoDup).
  destruct (0 <? limit)%Z; [|done]. eapply sublist_NoDup; [exact Hf|].
  apply fmap_sublist, sublist_take.
Qed.

Lemma lease_all_lookup now q items k item :
  NoDup items.*1 → (k, item) ∈ items → lease_all now q items !! k = Some (lease_item now item).
Proof.
  intros Hnd Hin.
  exact (foldl_insert_lookup fst (λ ki, lease_item now ki.2) items q (k, item) Hnd Hin).
Qed.

Lemma lease_all_other now q items k :
  k ∉ items.*1 → lease_all now q items !! k = q !! k.
Proof. apply (foldl_insert_other fst (λ ki, lease_item now ki.2)). Qed.

Lemma elem_of_lease_of now toks n items l :
  l ∈ lease_of now toks n items → ∃ ki, ki ∈ items ∧ ql_Item l = lease_item now ki.2.
Proof.
  unfold lease_of. rewrite elem_of_lookup_imap. intros (i & ki & -> & H). exists ki.
  split; [by eapply list_elem_of_lookup_2|done].
Qed.

(** What a dequeue returns and does, for either method. *)
Lemma dequeue_with_eq wanted sh toks limit now s :
  dequeue_with wanted sh toks limit now s =
  let p := picked wanted limit now 0 (range_map sh (st_queue s)) in
  (Ok (lease_of now toks 0 p), set_queue (lease_all now (st_queue s) p) s).
Proof. unfold dequeue_with. by rewrite dequeue_loop_spec by (simpl; lia). Qed.

(** Each lease is for an eligible item of the queue, which is marked as leased. *)
Lemma dequeue_with_lease wanted sh toks limit now s ls s' l :
  dequeue_with wanted sh toks limit now s = (Ok ls, s') → l ∈ ls →
  ∃ k item, st_queue s !! k = Some item ∧ eligible wanted now item ∧
    ql_Item l = lease_item now item ∧ st_queue s' !! k = Some (lease_item now item).
Proof.
  rewrite dequeue_with_eq. intros [= <- <-] Hl. apply elem_of_lease_of in Hl as ([k item] & Hk & Hl).
  pose proof (picked_sub _ _ _ _ _ _ Hk) as [Hin He]. apply elem_of_range_map in Hin.
  exists k, item. split_and!; [done..|]. apply lease_all_lookup; [|done].
  apply picked_NoDup, NoDup_range_map_fst.
Qed.

(** An item keeps its place in the queue: it is unchanged, or it was eligible and is leased. *)
Lemma dequeue_with_queue wanted sh toks limit now s r s' k :
  dequeue_with wanted sh toks limit now s = (r, s') →
  st_queue s' !! k = st_queue s !! k ∨
  ∃ item, st_queue s !! k = Some item ∧ eligible wanted now item ∧
    st_queue s' !! k = Some (lease_item now item).
Proof.
  rewrite dequeue_with_eq. intros [= <- <-]. cbn [set_queue st_queue].
  set (p := picked _ _ _ _ _). destruct (decide (k ∈ p.*1)) as [Hin|Hin].
  - right. apply list_elem_of_fmap in Hin as ([k' item] & -> & Hin).
    pose proof (picked_sub _ _ _ _ _ _ Hin) as [Hr He]. apply elem_of_range_map in Hr.
    exists item. split_and!; [done..|]. apply lease_all_lookup; [|done].
    apply picked_NoDup, NoDup_range_map_fst.
  - left. by apply lease_all_other.
Qed.

(** * The store's representation invariant *)

Definition def_at (k : string) (d : WorkflowDefinition) : Prop :=
  k = defKey (wid_Namespace (wd_ID d)) (wid_Name (wd_ID d)) (wid_Version (wd_ID d)).
Definition run_at (k : string) (r : Run) : Prop := k = runKey (run_Namespace r) (run_ID r).
Definition item_at (k : string) (q : QueueItem) : Prop :=
  k = queueKey (qi_Namespace q) (qi_RunID q) (qi_StepID q).
Definition endpoint_at (k : string) (e : WebhookEndpoint) : Prop :=
  k = defKey (we_Namespace e) (we_ID e) 0.
Definition delivery_at (k : string) (d : Delivery) : Prop :=
  k = defKey (dl_Namespace d) (dl_ID d) 0.
Definition token_key (t : APIToken) : string := defKey (tok_Namespace t) (tok_ID t) 0.
Definition token_at (k : string) (t : APIToken) : Prop := k = token_key t.

(** Every record is filed under its own key, and the hash index holds stored tokens under
    their own, non-empty, hash. *)
Record store_wf (s : Store) : Prop := {
  wf_definitions : map_Forall def_at (st_definitions s);
  wf_runs : map_Forall run_at (st_runs s);
  wf_queue : map_Forall item_at (st_queue s);
  wf_webhooks : map_Forall endpoint_at (st_webhooks s);
  wf_deliveries : map_Forall delivery_at (st_deliveries s);
  wf_tokens : map_Forall token_at (st_tokens s);
  wf_tokenHash : map_Forall (λ h t,
    h ≠ "" ∧ tok_TokenHash t = h ∧ st_tokens s !! token_key t = Some t) (st_tokenHash s)
}.

Lemma New_wf : store_wf New.
Proof. split; apply map_Forall_empty. Qed.

Lemma delete_runs_fold id (l : list (string * Run)) (m : gmap string Run) n :
  foldl (λ acc kr, if bool_decide (run_ID kr.2 = id)
                   then (delete kr.1 acc.1, acc.2 + 1)%Z else acc) (m, n) l =
  (foldl (λ acc kr, if bool_decide (run_ID kr.2 = id) then delete kr.1 acc else acc) m l,
   n + Z.of_nat (length (filter (λ kr, bool_decide (run_ID kr.2 = id) = true) l)))%Z.
Proof.
  revert m n. induction l as [|[k r] l IH]; intros m n; simpl; [f_equal; lia|].
  destruct (bool_decide (run_ID r = id)) eqn:E; rewrite IH.
  - rewrite filter_cons_True by done. simpl. f_equal. lia.
  - rewrite filter_cons_False; [done|]. simpl. congruence.
Qed.

Lemma delete_runs_with_id_eq id m n :
  delete_runs_with_id id m n =
  (filter (λ kr, bool_decide (run_ID kr.2 = id) = false) m,
   n + Z.of_nat (length (filter (λ kr, bool_decide (run_ID kr.2 = id) = true)
                           (map_to_list m))))%Z.
Proof.
  rewrite <- (foldl_delete_filter (λ kr, bool_decide (run_ID kr.2 = id))).
  apply delete_runs_fold.
Qed.

Lemma delete_queue_of_eq id q :
  delete_queue_of id q =
  filter (λ ki, string_contains ki.1 ("/" +:+ id +:+ "/") = false) q.
Proof. apply (foldl_delete_filter (λ ki, string_contains ki.1 ("/" +:+ id +:+ "/"))). Qed.

(** The runs and items that [DeleteRuns] leaves. *)
Lemma delete_runs_loop_lookup ids runs q n runs' q' n' :
  delete_runs_loop ids runs q n = (runs', q', n') →
  (∀ k r, runs' !! k = Some r ↔ runs !! k = Some r ∧ run_ID r ∉ ids) ∧
  (∀ k i, q' !! k = Some i ↔ q !! k = Some i ∧
     Forall (λ id, string_contains k ("/" +:+ id +:+ "/") = false) ids).
Proof.
  revert runs q n. induction ids as [|id ids IH]; intros runs q n.
  - intros [= -> -> ->]. split; intros; [set_solver|]. rewrite Forall_nil. tauto.
  - cbn [delete_runs_loop]. rewrite delete_runs_with_id_eq, delete_queue_of_eq.
    intros [Hr Hq]%IH. split; intros k x.
    + rewrite Hr, map_lookup_filter_Some, not_elem_of_cons, bool_decide_eq_false. naive_solver.
    + rewrite Hq, map_lookup_filter_Some, Forall_cons. naive_solver.
Qed.

Lemma DeleteRuns_wf ids s : store_wf s → store_wf (DeleteRuns ids s).2.
Proof.
  intros []. unfold DeleteRuns. destruct (delete_runs_loop _ _ _ _) as [[runs' q'] n'] eqn:E.
  apply delete_runs_loop_lookup in E as [Hr Hq]. split; simpl; try done.
  - intros k r [Hk _]%Hr. by apply wf_runs0.
  - intros k i [Hk _]%Hq. by apply wf_queue0.
Qed.

Lemma dequeue_with_wf wanted sh toks limit now s :
  store_wf s → store_wf (dequeue_with wanted sh toks limit now s).2.
Proof.
  intros Hwf. destruct (dequeue_with _ _ _ _ _ _) as [r s'] eqn:E.
  pose proof (λ k, dequeue_with_queue _ _ _ _ _ _ _ _ k E) as Hq.
  rewrite dequeue_with_eq in E. injection E as <- <-. destruct Hwf. split; simpl in *; try done.
  intros k i Hi. destruct (Hq k) as [Heq|(item & Hk & _ & Heq)]; rewrite Heq in Hi.
  - by apply wf_queue0.
  - simplify_eq. by apply wf_queue0 in Hk.
Qed.

Lemma CreateToken_wf t s : store_wf s → store_wf (CreateToken t s).2.
Proof.
  intros []. unfold CreateToken, cloneToken.
  destruct (st_tokens s !! _) eqn:Hk; simpl; [by constructor|].
  assert (map_Forall (λ h t', h ≠ "" ∧ tok_TokenHash t' = h ∧
    <[token_key t := t]> (st_tokens s) !! token_key t' = Some t') (st_tokenHash s)) as Hold.
  { intros h t' Ht'. apply wf_tokenHash0 in Ht' as (? & ? & Ht'). split_and!; [done..|].
    rewrite lookup_insert_ne; [done|]. unfold token_key in *. congruence. }
  split; simpl; try done.
  - by apply map_Forall_insert_2.
  - case_bool_decide; [done|]. apply map_Forall_insert_2; [|done].
    split_and!; [done..|]. apply lookup_insert_eq.
Qed.

Lemma DeleteToken_wf ns id s : store_wf s → store_wf (DeleteToken ns id s).2.
Proof.
  intros []. unfold DeleteToken.
  destruct (st_tokens s !! _) as [t|] eqn:Hk; simpl; [|by constructor].
  pose proof (wf_tokens0 _ _ Hk) as Htk. split; simpl; try done.
  - by apply map_Forall_delete.
  - intros h t' Ht'. assert (st_tokenHash s !! h = Some t' ∧ (tok_TokenHash t = "" ∨ h ≠ tok_TokenHash t))
      as [Hh Hne].
    { case_bool_decide; [by auto|]. apply lookup_delete_Some in Ht'. naive_solver. }
    apply wf_tokenHash0 in Hh as (? & <- & Hs). split_and!; [done..|].
    rewrite lookup_delete_ne; [done|]. intros Heq. rewrite Htk in Heq. unfold token_at in Htk.
    rewrite <- Heq, <- Htk, Hk in Hs. naive_solver.
Qed.

(** Updates of one map by an insertion or a deletion keep the records at their keys. *)
Ltac solve_store_wf :=
  split; simpl; try done;
  first [ by apply map_Forall_insert_2 | by apply map_Forall_delete | idtac ].

Lemma run_update_wf f ns id s r :
  store_wf s → st_runs s !! runKey ns id = Some r →
  (run_Namespace (f r) = run_Namespace r) → (run_ID (f r) = run_ID r) →
  store_wf (set_runs (<[runKey ns id := f r]> (st_runs s)) s).
Proof.
  intros [] Hr H1 H2. split; simpl; try done. apply map_Forall_insert_2; [|done].
  apply wf_runs0 in Hr. unfold run_at in *. by rewrite H1, H2.
Qed.

Lemma item_update_wf f ns runID stepID s item :
  store_wf s → st_queue s !! queueKey ns runID stepID = Some item →
  item_at (queueKey ns runID stepID) (f item) →
  store_wf (set_queue (<[queueKey ns runID stepID := f item]> (st_queue s)) s).
Proof. intros [] Hi H. split; simpl; try done. by apply map_Forall_insert_2. Qed.

Lemma apply_run_state_id to at_ r :
  run_Namespace (apply_run_state to at_ r) = run_Namespace r ∧
  run_ID (apply_run_state to at_ r) = run_ID r.
Proof. unfold apply_run_state. repeat case_match; done. Qed.

Lemma store_exec_wf {A} (o : oracle) (op : StoreOp A) (s : Store) :
  store_wf s → store_wf (store_exec o op s).2.
Proof.
  intros Hwf. unfold store_exec, memstore, memstore_exec. destruct op; simpl; try done.
  - unfold CreateDefinition. case_match; simpl; [done|]. destruct Hwf. solve_store_wf.
  - unfold DeleteDefinition. case_match; simpl; [|done]. destruct Hwf. solve_store_wf.
  - unfold CreateRun. case_match; simpl; [done|]. destruct Hwf. solve_store_wf.
  - unfold UpdateRunState. case_match eqn:E; simpl; [|done].
    by eapply run_update_wf; [|done|apply apply_run_state_id..].
  - unfold UpdateRunError. case_match; simpl; [|done]. by eapply run_update_wf.
  - unfold UpdateStepState. repeat case_match; simpl; [|done..].
    by apply (run_update_wf (set_run_Steps _)).
  - destruct Hwf. solve_store_wf.
  - by apply dequeue_with_wf.
  - by apply dequeue_with_wf.
  - unfold CompleteStep. case_match; simpl; [|done]. destruct Hwf. solve_store_wf.
  - unfold ReleaseStep. case_match eqn:E; simpl; [|done].
    eapply item_update_wf; [done..|]. by apply (wf_queue _ Hwf) in E.
  - unfold RequeueWithDelay. case_match eqn:E; simpl; [|done].
    apply (item_update_wf (λ i, set_qi_Attempt attempt (set_qi_VisibleAt visibleAt i)));
      [done..|]. by apply (wf_queue _ Hwf) in E.
  - destruct Hwf. solve_store_wf.
  - unfold CreateWebhookEndpoint. case_match; simpl; [done|]. destruct Hwf. solve_store_wf.
  - unfold UpdateWebhookEndpoint. case_match; simpl; [|done]. destruct Hwf. solve_store_wf.
  - unfold DeleteWebhookEndpoint. case_match; simpl; [|done]. destruct Hwf. solve_store_wf.
  - unfold CreateDelivery. case_match; simpl; [done|]. destruct Hwf. solve_store_wf.
  - unfold UpdateDelivery. case_match; simpl; [|done]. destruct Hwf. solve_store_wf.
  - by apply CreateToken_wf.
  - by apply DeleteToken_wf.
  - by apply DeleteRuns_wf.
  - by apply DeleteRuns_wf.
Qed.

(** * Sequences of calls *)

(** A call of any method with its oracle. *)
Inductive call :=
| Call {A : Type} (o : oracle) (op : StoreOp A).

(** The leases that a call hands out. *)
Definition leases_of {A} (op : StoreOp A) : A → list QueueLease :=
  match op in StoreOp A return A → list QueueLease with
  | OpDequeue _ _ _ => λ r, match r with Ok ls => ls | Err _ => [] end
  | OpDequeueAny _ _ => λ r, match r with Ok ls => ls | Err _ => [] end
  | _ => λ _, []
  end.

(** The calls in order: the leases they hand out and the final store. *)
Fixpoint exec_calls (cs : list call) (s : Store) : list QueueLease * Store :=
  match cs with
  | [] => ([], s)
  | Call o op :: cs' =>
      let '(r, s') := store_exec o op s in
      let '(ls, s'') := exec_calls cs' s' in
      (leases_of op r ++ ls, s'')
  end.

Definition lease_key (l : QueueLease) : string :=
  let i := ql_Item l in queueKey (qi_Namespace i) (qi_RunID i) (qi_StepID i).

(** A call that neither makes the item of key [k] visible again nor dequeues after [t]. *)
Definition keeps_lease (k : string) (t : Time) (c : call) : Prop :=
  match c with
  | Call _ op =>
      match op with
      | OpEnqueue i => queueKey (qi_Namespace i) (qi_RunID i) (qi_StepID i) ≠ k
      | OpReleaseStep ns r st => queueKey ns r st ≠ k
      | OpRequeueWithDelay ns r st _ _ => queueKey ns r st ≠ k
      | OpDequeue _ _ now => (now <= t)%Z
      | OpDequeueAny _ now => (now <= t)%Z
      | _ => True
      end
  end.

(** The item of key [k], if still queued, is invisible until [t]. *)
Definition leased_until (k : string) (t : Time) (s : Store) : Prop :=
  ∀ item, st_queue s !! k = Some item → (t <= qi_VisibleAt item)%Z.

Lemma dequeue_with_leased_until wanted sh toks limit now s k t :
  leased_until k t s → (now <= t)%Z →
  leased_until k t (dequeue_with wanted sh toks limit now s).2.
Proof.
  intros H Hnow item. destruct (dequeue_with _ _ _ _ _ _) as [r s'] eqn:E. simpl.
  destruct (dequeue_with_queue _ _ _ _ _ _ _ _ k E) as [->|(i & Hi & [_ Hv] & _)]; [apply H|].
  specialize (H i Hi). lia.
Qed.

Lemma dequeue_with_not_leased wanted sh toks limit now s k t ls s' l :
  store_wf s → leased_until k t s → (now <= t)%Z →
  dequeue_with wanted sh toks limit now s = (Ok ls, s') → l ∈ ls → lease_key l ≠ k.
Proof.
  intros Hwf H Hnow E Hl. destruct (dequeue_with_lease _ _ _ _ _ _ _ _ _ E Hl)
    as (k' & item & Hk & [_ Hv] & Hi & _).
  unfold lease_key. rewrite Hi. intros Heq. apply (wf_queue _ Hwf) in Hk as Hat.
  unfold item_at in Hat. simpl in Heq. rewrite <- Hat in Heq. subst k'.
  specialize (H item Hk). lia.
Qed.

Lemma insert_leased_until s k t k' item :
  leased_until k t s → k' ≠ k → leased_until k t (set_queue (<[k' := item]> (st_queue s)) s).
Proof. intros H Hne i. simpl. rewrite lookup_insert_ne by done. apply H. Qed.

Lemma keeps_lease_step {A} o (op : StoreOp A) s k t :
  leased_until k t s → keeps_lease k t (Call o op) →
  leased_until k t (store_exec o op s).2.
Proof.
  intros H Hk. unfold store_exec, memstore, memstore_exec. destruct op; simpl in *; try done.
  - unfold CreateDefinition. by case_match.
  - unfold DeleteDefinition. by case_match.
  - unfold CreateRun. by case_match.
  - unfold UpdateRunState. by case_match.
  - unfold UpdateRunError. by case_match.
  - unfold UpdateStepState. by repeat case_match.
  - by apply insert_leased_until.
  - by apply dequeue_with_leased_until.
  - by apply dequeue_with_leased_until.
  - unfold CompleteStep. case_match; [|done]. intros i. simpl.
    rewrite lookup_delete_Some. intros [_ Hi]. by apply H.
  - unfold ReleaseStep. case_match; [|done]. by apply insert_leased_until.
  - unfold RequeueWithDelay. case_match; [|done]. by apply insert_leased_until.
  - unfold CreateWebhookEndpoint. by case_match.
  - unfold UpdateWebhookEndpoint. by case_match.
  - unfold DeleteWebhookEndpoint. by case_match.
  - unfold CreateDelivery. by case_match.
  - unfold UpdateDelivery. by case_match.
  - unfold CreateToken. by case_match.
  - unfold DeleteToken. by case_match.
  - unfold DeleteRuns. destruct (delete_runs_loop _ _ _ _) as [[runs' q'] n'] eqn:E.
    apply delete_runs_loop_lookup in E as [_ Hq]. intros i [Hi _]%Hq. by apply H.
  - unfold CompactRuns, CompactRunsAmid, DeleteRuns. simpl.
    destruct (delete_runs_loop _ _ _ _) as [[runs' q'] n'] eqn:E.
    apply delete_runs_loop_lookup in E as [_ Hq]. intros i [Hi _]%Hq. by apply H.
Qed.

Lemma keeps_lease_leases {A} o (op : StoreOp A) s k t l :
  store_wf s → leased_until k t s → keeps_lease k t (Call o op) →
  l ∈ leases_of op (store_exec o op s).1 → lease_key l ≠ k.
Proof.
  intros Hwf H Hk. unfold store_exec, memstore, memstore_exec.
  destruct op; simpl in *; try (by intros ?%elem_of_nil);
    intros Hl; refine (dequeue_with_not_leased _ _ _ _ _ _ _ _ _ _ _ Hwf H Hk _ Hl);
    unfold dequeue_with; reflexivity.
Qed.

Lemma exec_calls_not_leased cs s k t l :
  store_wf s → leased_until k t s → Forall (keeps_lease k t) cs →
  l ∈ (exec_calls cs s).1 → lease_key l ≠ k.
Proof.
  revert s. induction cs as [|[A o op] cs IH]; intros s Hwf H Hcs; simpl.
  - by intros ?%elem_of_nil.
  - apply Forall_cons in Hcs as [Hc Hcs].
    pose proof (store_exec_wf o op s Hwf) as Hwf'.
    pose proof (keeps_lease_step o op s k t H Hc) as H'.
    pose proof (λ l, keeps_lease_leases o op s k t l Hwf H Hc) as Hl.
    destruct (store_exec o op s) as [r s'] eqn:E; simpl in *.
    specialize (IH s' Hwf' H' Hcs). destruct (exec_calls cs s') as [ls s'']; simpl in *.
    rewrite elem_of_app. intros [?|?]; auto.
Qed.

(** C3: A dequeued item is leased exclusively.  After a [DequeueAny] at time [now] that hands
    out a lease, no later sequence of store calls hands out the same item again within the 30
    second lease window, unless one of them puts the item back explicitly ([Enqueue],
    [ReleaseStep] or [RequeueWithDelay] of that very step). *)
Theorem lease_exclusive sh toks limit now s ls s' l cs :
  store_wf s → DequeueAny sh toks limit now s = (Ok ls, s') → l ∈ ls →
  Forall (keeps_lease (lease_key l) (time_add now lease_window)) cs →
  ∀ l', l' ∈ (exec_calls cs s').1 → lease_key l' ≠ lease_key l.
Proof.
  intros Hwf E Hl Hcs l' Hl'. eapply exec_calls_not_leased; [| |exact Hcs|exact Hl'].
  - pose proof (dequeue_with_wf (λ _, true) sh toks limit now s Hwf) as H.
    unfold DequeueAny in E. by rewrite E in H.
  - destruct (dequeue_with_lease _ _ _ _ _ _ _ _ _ E Hl) as (k & item & Hk & _ & Hi & Hk').
    intros item' Hitem'. apply (wf_queue _ Hwf) in Hk. unfold item_at in Hk.
    unfold lease_key in Hitem'. rewrite Hi in Hitem'. simpl in Hitem'. rewrite <- Hk in Hitem'.
    simplify_eq. simpl. lia.
Qed.

(** * The latest version of a definition *)

Definition named (namespace : Namespace) (name : string) (d : WorkflowDefinition) : Prop :=
  wid_Namespace (wd_ID d) = namespace ∧ wid_Name (wd_ID d) = name.

#[export] Instance named_dec namespace name d : Decision (named namespace name d).
Proof. unfold named. apply _. Defined.

Definition version (d : WorkflowDefinition) : Z := wid_Version (wd_ID d).

Lemma latest_step_named namespace name latest d :
  latest_step namespace name latest d =
  if decide (named namespace name d) then
    match latest with
    | None => Some d
    | Some l => if (version l <? version d)%Z then Some d else latest
    end
  else latest.
Proof.
  unfold latest_step, named. repeat case_bool_decide; case_decide; naive_solver.
Qed.

(** [d] is a definition of the list with the highest version among those of the name. *)
Definition is_latest (namespace : Namespace) (name : string) (l : list WorkflowDefinition)
    (d : WorkflowDefinition) : Prop :=
  d ∈ l ∧ named namespace name d ∧
  ∀ d', d' ∈ l → named namespace name d' → (version d' <= version d)%Z.

Lemma latest_fold namespace name l acc :
  (∀ d, acc = Some d → named namespace name d) →
  match foldl (latest_step namespace name) acc l with
  | None => acc = None ∧ ∀ d, d ∈ l → ¬ named namespace name d
  | Some d => named namespace name d ∧ (acc = Some d ∨ d ∈ l) ∧
      (∀ d', acc = Some d' ∨ d' ∈ l → named namespace name d' → (version d' <= version d)%Z)
  end.
Proof.
  revert acc. induction l as [|x l IH]; intros acc Hacc; simpl.
  - destruct acc as [d|]; [|set_solver]. split_and!; [by apply Hacc|by left|].
    intros d' [[= ->]|?%elem_of_nil] _; [lia|done].
  - rewrite latest_step_named. set (acc' := if decide _ then _ else _).
    assert (∀ d, acc' = Some d → named namespace name d) as Hacc'.
    { intros d. subst acc'. repeat case_match; naive_solver. }
    assert (∀ d, acc' = Some d → acc = Some d ∨ d = x) as Hfrom.
    { intros d. subst acc'. repeat case_match; naive_solver. }
    assert (∀ d', (acc = Some d' ∨ d' = x) → named namespace name d' →
      ∃ d, acc' = Some d ∧ (version d' <= version d)%Z) as Hmax.
    { intros d' Hd' Hn. subst acc'. case_decide; [|naive_solver lia].
      destruct acc as [l0|]; [|naive_solver lia].
      destruct (Z.ltb_spec (version l0) (version x)); naive_solver lia. }
    specialize (IH acc' Hacc'). destruct (foldl _ acc' l) as [d|].
    + destruct IH as (Hn & Hin & Hge). split_and!; [done| |].
      * destruct Hin as [Ha|?]; [|set_solver]. destruct (Hfrom _ Ha) as [?| ->]; set_solver.
      * intros d' Hd' Hn'. rewrite elem_of_cons in Hd'.
        assert (d' ∈ l ∨ (acc = Some d' ∨ d' = x)) as [?|Hd''] by tauto; [by apply Hge; auto|].
        destruct (Hmax d' Hd'' Hn') as (d0 & Hd0 & Hle).
        specialize (Hge d0 (or_introl Hd0) (Hacc' _ Hd0)). lia.
    + destruct IH as [Hnone Hl]. subst acc'. case_decide.
      { repeat case_match; naive_solver. } split; [done|]. set_solver.
Qed.

(** What the loop returns, in any order. *)
Lemma GetDefinitionByName_cases sh ns name s :
  store_wf s →
  match GetDefinitionByName sh ns name s with
  | Ok d => GetDefinition (wd_ID d) s = Ok d ∧
      is_latest ns name (range_values sh (st_definitions s)) d
  | Err e => e = err_notfound ∧ ∀ k d, st_definitions s !! k = Some d → ¬ named ns name d
  end.
Proof.
  intros Hwf. unfold GetDefinitionByName.
  pose proof (latest_fold ns name (range_values sh (st_definitions s)) None) as Hf.
  destruct (foldl _ _ _) as [d|]; destruct Hf as [Hf1 Hf2]; try done.
  - destruct Hf2 as [[?|Hin] Hmax]; [done|]. rewrite cloneDefinition_id. split.
    + apply elem_of_range_values in Hin as [k Hk]. apply (wf_definitions _ Hwf) in Hk as Hat.
      unfold GetDefinition. unfold def_at in Hat. by rewrite <- Hat, Hk, cloneDefinition_id.
    + split_and!; [done..|]. intros d' Hd'. apply Hmax. by right.
  - split; [done|]. intros k d Hd. apply Hf2, elem_of_range_values. by exists k.
Qed.

(** [GetDefinitionByName] returns a stored definition of the name with the highest version,
    and fails with "not found" exactly when the name has no definition; the result does not
    depend on the order in which the loop visits the map. *)
Theorem GetDefinitionByName_latest sh ns name s (Hwf : store_wf s) :
  match GetDefinitionByName sh ns name s with
  | Ok d => GetDefinition (wd_ID d) s = Ok d ∧
      is_latest ns name (range_values sh (st_definitions s)) d
  | Err e => Classify e = ClassNotFound ∧
      ∀ k d, st_definitions s !! k = Some d → ¬ named ns name d
  end ∧
  ∀ sh', GetDefinitionByName sh' ns name s = GetDefinitionByName sh ns name s.
Proof.
  pose proof (λ sh, GetDefinitionByName_cases sh ns name s Hwf) as H.
  split.
  - specialize (H sh). destruct (GetDefinitionByName sh ns name s); [done|].
    destruct H as [-> ?]. done.
  - intros sh'. pose proof (H sh) as H1. specialize (H sh').
    destruct (GetDefinitionByName sh ns name s) as [d|e], (GetDefinitionByName sh' ns name s) as [d'|e'].
    + destruct H1 as (Hg & Hin & Hn & Hmax), H as (Hg' & Hin' & Hn' & Hmax').
      assert (version d = version d') as Hv.
      { apply Z.le_antisymm; [apply Hmax'|apply Hmax]; try done; apply elem_of_range_values;
        by apply elem_of_range_values in Hin, Hin'. }
      assert (wd_ID d = wd_ID d') as Hid.
      { destruct Hn, Hn', d as [[]], d' as [[]]. unfold version in Hv. simpl in *. by subst. }
      rewrite Hid in Hg. congruence.
    + destruct H1 as (_ & [k Hk]%elem_of_range_values & Hn & _), H as [_ H]. by destruct (H k d).
    + destruct H as (_ & [k Hk]%elem_of_range_values & Hn & _), H1 as [_ H1]. by destruct (H1 k d').
    + destruct H, H1. congruence.
Qed.

(** * Pages of a listing *)

Lemma apply_offset_drop {A} offset (l : list A) :
  apply_offset offset l = drop (Z.to_nat offset) l.
Proof.
  unfold apply_offset. destruct (Z.ltb_spec 0 offset).
  - destruct (Z.leb_spec (Z.of_nat (length l)) offset); [|done]. rewrite drop_ge; [done|lia].
  - by replace (Z.to_nat offset) with 0 by lia.
Qed.

Lemma apply_limit_take {A} limit (l : list A) :
  (0 < limit)%Z → apply_limit limit l = take (Z.to_nat limit) l.
Proof.
  intros Hl. unfold apply_limit. destruct (Z.ltb_spec 0 limit); [|lia]. simpl.
  destruct (Z.ltb_spec limit (Z.of_nat (length l))); [done|]. rewrite take_ge; [done|lia].
Qed.

Lemma pages_concat {A} (l : list A) (n m : nat) :
  concat ((λ k, take m (drop (k * m) l)) <$> seq 0 n) = take (n * m) l.
Proof.
  induction n as [|n IH]; [done|].
  rewrite seq_S, fmap_app, concat_app, IH. simpl. rewrite app_nil_r, take_take_drop.
  f_equal. lia.
Qed.

Definition with_page (f : RunFilter) (limit offset : Z) : RunFilter :=
  MkRunFilter (rf_Namespace f) (rf_Workflow f) (rf_State f) (rf_CreatedAfter f) limit offset.

Definition ok_list {E A} (r : result E (list A)) : list A :=
  match r with Ok l => l | Err _ => [] end.

(** Paging through [ListRuns] with a positive page size loses and repeats nothing: the
    pages at offsets 0, L, 2L, ... are, in order, the unpaged listing; the listing is a
    permutation of the matching runs, newest first. *)
Theorem ListRuns_pages sh f s (L : Z) (n : nat) (HL : (0 < L)%Z) :
  let all := ok_list (ListRuns sh (with_page f 0 0) s) in
  concat ((λ k, ok_list (ListRuns sh (with_page f L (Z.of_nat k * L)) s)) <$> seq 0 n)
    = take (n * Z.to_nat L) all ∧
  all ≡ₚ filter (λ r, run_matches f r = true) (range_values sh (st_runs s)) ∧
  Sorted (λ a b, (run_CreatedAt b <= run_CreatedAt a)%Z) all.
Proof.
  simpl. unfold apply_offset at 2 3 4, apply_limit at 2 3 4. simpl.
  set (l := cloneRunForList <$> filter _ _). split_and!.
  - rewrite <- pages_concat. f_equal. apply list_fmap_ext. intros i k Hk.
    rewrite apply_limit_take, apply_offset_drop by done. do 2 f_equal. lia.
  - rewrite sort_slice_perm. subst l. by rewrite fmap_clone.
  - eapply Sorted_weaken; [|apply sort_slice_sorted].
    + unfold not_after, run_less, time_after. intros a b. by rewrite Z.ltb_ge.
    + unfold run_less, time_after. intros a b. rewrite Z.ltb_lt, Z.ltb_ge. lia.
Qed.

(** * Retention *)

Lemma length_filter_split {A} (f : A → bool) (l : list A) :
  length (filter (λ x, f x = false) l) + length (filter (λ x, f x = true) l) = length l.
Proof.
  induction l as [|x l IH]; [done|]. destruct (f x) eqn:E.
  - rewrite filter_cons_False, filter_cons_True by congruence. simpl. lia.
  - rewrite filter_cons_True, filter_cons_False by congruence. simpl. lia.
Qed.

Lemma size_filter_split {V} (f : string * V → bool) (m : gmap string V) :
  size (filter (λ x, f x = false) m) + length (filter (λ x, f x = true) (map_to_list m))
  = size m.
Proof.
  rewrite map_filter_alt, map_size_list_to_map.
  - rewrite length_filter_split. apply length_map_to_list.
  - eapply sublist_NoDup; [apply (NoDup_fst_map_to_list m)|].
    apply fmap_sublist, sublist_filter.
Qed.

Lemma delete_runs_loop_count ids runs q n runs' q' n' :
  delete_runs_loop ids runs q n = (runs', q', n') →
  (n' + Z.of_nat (size runs') = n + Z.of_nat (size runs))%Z.
Proof.
  revert runs q n. induction ids as [|id ids IH]; intros runs q n.
  - by intros [= -> -> ->].
  - cbn [delete_runs_loop]. rewrite delete_runs_with_id_eq. intros ->%IH.
    pose proof (size_filter_split (λ kr, bool_decide (run_ID kr.2 = id)) runs). lia.
Qed.

(** The identifiers of runs are unique across namespaces. *)
Definition unique_run_ids (s : Store) : Prop :=
  ∀ k1 k2 r1 r2, st_runs s !! k1 = Some r1 → st_runs s !! k2 = Some r2 →
    run_ID r1 = run_ID r2 → k1 = k2.

Lemma elem_of_apply_limit {A} limit (l : list A) x : x ∈ apply_limit limit l → x ∈ l.
Proof.
  unfold apply_limit. case_match; [|done]. intros (i & Hi & _)%elem_of_take.
  by eapply list_elem_of_lookup_2.
Qed.

Lemma elem_of_ListExpiredRuns sh cutoff limit s r :
  r ∈ ok_list (ListExpiredRuns sh cutoff limit s) →
  ∃ k, st_runs s !! k = Some r ∧ run_expired cutoff r = true.
Proof.
  simpl. intros H%elem_of_apply_limit. rewrite sort_slice_perm in H.
  rewrite fmap_clone in H by apply cloneRun_id.
  apply list_elem_of_filter in H as [He [k Hk]%elem_of_range_values]. eauto.
Qed.

(** Compaction deletes only runs that are terminal and finished before the cutoff, leaves
    every other run untouched and reports the number of runs it deleted, provided run
    identifiers are unique across namespaces (it deletes by identifier alone). *)
Theorem CompactRuns_only_expired sh before limit s n s'
    (Huniq : unique_run_ids s) (E : CompactRuns sh before limit s = (Ok n, s')) :
  (∀ k r, st_runs s' !! k = Some r → st_runs s !! k = Some r) ∧
  (∀ k r, st_runs s !! k = Some r → run_expired before r = false → st_runs s' !! k = Some r) ∧
  (n = Z.of_nat (size (st_runs s)) - Z.of_nat (size (st_runs s')))%Z.
Proof.
  unfold CompactRuns, CompactRunsAmid in E. pose proof (elem_of_ListExpiredRuns sh before limit s) as Hexp.
  destruct (ListExpiredRuns sh before limit s) as [ex|] eqn:Eex; [|done]. simpl in Hexp.
  unfold DeleteRuns in E. destruct (delete_runs_loop _ _ _ _) as [[runs' q'] m] eqn:El.
  injection E as <- <-. pose proof (delete_runs_loop_count _ _ _ _ _ _ _ El).
  apply delete_runs_loop_lookup in El as [Hr _]. simpl. split_and!; [naive_solver| |lia].
  intros k r Hk Hne. apply Hr. split; [done|]. intros (r' & Hid & Hin)%list_elem_of_fmap.
  destruct (Hexp r' Hin) as (k' & Hk' & He). pose proof (Huniq _ _ _ _ Hk Hk' Hid). congruence.
Qed.

(** * Revoked tokens *)

(** A deleted token no longer authenticates: once [DeleteToken] succeeds, neither the id nor
    the hash of the token finds it, and no other token is lost from the store. *)
Theorem DeleteToken_revokes ns id s t s' (Hwf : store_wf s)
    (Ht : GetToken ns id s = Ok t) (E : DeleteToken ns id s = (Ok (), s')) :
  GetToken ns id s' = Err err_notfound ∧
  LookupTokenByHash (tok_TokenHash t) s' = Err err_notfound ∧
  (∀ k, k ≠ defKey ns id 0 → st_tokens s' !! k = st_tokens s !! k).
Proof.
  unfold GetToken, cloneToken in Ht. unfold DeleteToken in E.
  destruct (st_tokens s !! _) as [t'|] eqn:Hk; [|done]. simplify_eq. split_and!.
  - unfold GetToken. simpl. by rewrite lookup_delete_eq.
  - unfold LookupTokenByHash. simpl. case_bool_decide as Hh.
    + destruct (st_tokenHash s !! tok_TokenHash t) eqn:Hh'; [|done].
      apply (wf_tokenHash _ Hwf) in Hh'. rewrite Hh in Hh'. by destruct Hh'.
    + by rewrite lookup_delete_eq.
  - intros k Hne. simpl. by rewrite lookup_delete_ne.
Qed.

(** * Isolation of namespaces *)

(** The namespace that a mutating call names; retention calls name none. *)
Definition op_namespace {A} (op : StoreOp A) : option Namespace :=
  match op with
  | OpCreateRun r => Some (run_Namespace r)
  | OpUpdateRunState ns _ _ _ | OpUpdateRunError ns _ _ | OpUpdateStepState ns _ _
  | OpCompleteStep ns _ _ _ | OpReleaseStep ns _ _ | OpRequeueWithDelay ns _ _ _ _
  | OpDequeue ns _ _ => Some ns
  | OpEnqueue i => Some (qi_Namespace i)
  | OpCreateDefinition d => Some (wid_Namespace (wd_ID d))
  | OpDeleteDefinition id => Some (wid_Namespace id)
  | OpCreateToken t => Some (tok_Namespace t)
  | OpDeleteToken ns _ => Some ns
  | _ => None
  end.

Lemma runKey_ne ns1 ns2 id1 id2 :
  no_char "/"%char ns1 → no_char "/"%char ns2 → ns1 ≠ ns2 → runKey ns1 id1 ≠ runKey ns2 id2.
Proof. intros H1 H2 Hne E. by destruct (runKey_inj _ _ _ _ H1 H2 E). Qed.

Lemma defKey_ne ns1 ns2 n1 n2 v1 v2 :
  no_char "/"%char ns1 → no_char "/"%char ns2 → ns1 ≠ ns2 →
  defKey ns1 n1 v1 ≠ defKey ns2 n2 v2.
Proof. intros H1 H2 Hne E. by destruct (split_at_char _ _ _ _ _ H1 H2 E). Qed.

Lemma namespace_frame {A} (o : oracle) (op : StoreOp A) s ns ns' :
  op_namespace op = Some ns' → ns ≠ ns' → no_char "/"%char ns → no_char "/"%char ns' →
  (∀ id, st_runs (store_exec o op s).2 !! runKey ns id = st_runs s !! runKey ns id) ∧
  (∀ name v, st_definitions (store_exec o op s).2 !! defKey ns name v =
             st_definitions s !! defKey ns name v) ∧
  (∀ id, st_tokens (store_exec o op s).2 !! defKey ns id 0 = st_tokens s !! defKey ns id 0).
Proof.
  intros Hop Hne Hns Hns'. unfold store_exec, memstore, memstore_exec.
  destruct op; simpl in *; simplify_eq;
    unfold CreateDefinition, DeleteDefinition, CreateRun, UpdateRunState, UpdateRunError,
      UpdateStepState, CompleteStep, ReleaseStep, RequeueWithDelay, CreateToken, DeleteToken;
    repeat case_match; simpl; split_and!; intros; try done;
    first [ apply lookup_insert_ne | apply lookup_delete_ne ];
    first [ by apply not_eq_sym, runKey_ne | by apply not_eq_sym, defKey_ne ].
Qed.

(** Tenants are isolated: a call that names one namespace leaves the runs, definitions and
    tokens of every other namespace as they were, for namespaces that [ValidateNamespace]
    accepts (their names contain no slash, the separator of the store's keys). *)
Theorem namespace_isolation {A} (o : oracle) (op : StoreOp A) s ns ns'
    (Hop : op_namespace op = Some ns') (Hne : ns ≠ ns')
    (Hns : ValidateNamespace ns = None) (Hns' : ValidateNamespace ns' = None) :
  let s' := (store_exec o op s).2 in
  (∀ id, GetRun ns id s' = GetRun ns id s) ∧
  (∀ name v, GetDefinition (MkWorkflowID ns name v) s' =
             GetDefinition (MkWorkflowID ns name v) s) ∧
  (∀ id, GetToken ns id s' = GetToken ns id s).
Proof.
  assert (∀ n, ValidateNamespace n = None → no_char "/"%char n) as Hslash.
  { intros n. unfold ValidateNamespace. destruct (trim_space_empty n); [done|].
    apply name_no_slash. }
  destruct (namespace_frame o op s ns ns' Hop Hne (Hslash _ Hns) (Hslash _ Hns'))
    as (H1 & H2 & H3).
  simpl. unfold GetRun, GetDefinition, GetToken. simpl.
  split_and!; intros; by rewrite ?H1, ?H2, ?H3.
Qed.

(** * Concrete instances *)

Definition ex_oracle (now : Time) : oracle := MkOracle shuffle_id (λ _, "lease-1") now.
Definition ex_item : QueueItem := MkQueueItem ":1a" "prod" "fetch" 5 5 1.
Definition ex_queued : Store := (store_exec (ex_oracle 5) (OpEnqueue ex_item) New).2.
Definition ex_lease : QueueLease := MkQueueLease (lease_item 100 ex_item) "lease-1".
Definition ex_leased : Store := (DequeueAny shuffle_id (λ _, "lease-1") 10 100 ex_queued).2.

Lemma lease_exclusive_witness :
  DequeueAny shuffle_id (λ _, "lease-1") 10 100 ex_queued = (Ok [ex_lease], ex_leased) ∧
  ∀ l', l' ∈ (exec_calls [Call (ex_oracle 200) (OpDequeueAny 0 200);
                          Call (ex_oracle 300) (OpCompleteStep "prod" ":1a" "fetch" "lease-1")]
                ex_leased).1 →
    lease_key l' ≠ lease_key ex_lease.
Proof.
  split; [vm_compute; reflexivity|].
  apply (lease_exclusive shuffle_id (λ _, "lease-1") 10 100 ex_queued [ex_lease] ex_leased).
  - apply store_exec_wf, New_wf.
  - vm_compute. reflexivity.
  - apply elem_of_cons. by left.
  - repeat constructor; vm_compute; discriminate.
Defined.

Definition ex_wid (v : Z) : WorkflowID := MkWorkflowID "prod" "order" v.
Definition ex_step (id : string) (deps : list string) : StepDefinition :=
  MkStepDefinition id "http" deps 0 (MkRetryPolicy 0 0 0 0 0) "" "" false false.
Definition ex_def (v : Z) (steps : list StepDefinition) : WorkflowDefinition :=
  MkWorkflowDefinition (ex_wid v) "" steps None 0 0 0.
Definition ex_defs : Store :=
  (exec_calls [Call (ex_oracle 1) (OpCreateDefinition (ex_def 1 []));
               Call (ex_oracle 1) (OpCreateDefinition (ex_def 3 [ex_step "a" []]));
               Call (ex_oracle 1) (OpCreateDefinition (ex_def 2 []))] New).2.

Lemma exec_calls_wf cs s : store_wf s → store_wf (exec_calls cs s).2.
Proof.
  revert s. induction cs as [|[A o op] cs IH]; intros s Hwf; simpl; [done|].
  pose proof (store_exec_wf o op s Hwf) as H. destruct (store_exec o op s) as [r s'].
  specialize (IH s' H). destruct (exec_calls cs s'). done.
Qed.

Lemma GetDefinitionByName_latest_witness :
  GetDefinitionByName shuffle_rev "prod" "order" ex_defs = Ok (ex_def 3 [ex_step "a" []]) ∧
  ∀ sh', GetDefinitionByName sh' "prod" "order" ex_defs =
         GetDefinitionByName shuffle_rev "prod" "order" ex_defs.
Proof.
  split; [vm_compute; reflexivity|].
  apply (GetDefinitionByName_latest shuffle_rev "prod" "order" ex_defs).
  apply exec_calls_wf, New_wf.
Defined.

Definition ex_run (ns id : string) (created : Time) (st : RunState) (fin : option Time) : Run :=
  MkRun id ns (MkWorkflowID ns "order" 1) st (MkRunInput (MkWorkflowID ns "order" 1) None None "")
    [StepRun_zero "a" StepPending] 0 created None fin "" None "".
Definition ex_runs : Store :=
  (exec_calls [Call (ex_oracle 1) (OpCreateRun (ex_run "prod" ":1" 10 StateSucceeded (Some 20%Z)));
               Call (ex_oracle 1) (OpCreateRun (ex_run "prod" ":2" 30 StateQueued None));
               Call (ex_oracle 1) (OpCreateRun (ex_run "test" ":3" 20 StateFailed (Some 90%Z)))]
     New).2.
Definition ex_filter : RunFilter := MkRunFilter "" "" None None 0 0.

Lemma ListRuns_pages_witness :
  concat ((λ k, ok_list (ListRuns shuffle_rev (with_page ex_filter 2 (Z.of_nat k * 2)) ex_runs))
            <$> seq 0 2)
  = take (2 * Z.to_nat 2) (ok_list (ListRuns shuffle_rev (with_page ex_filter 0 0) ex_runs)) ∧
  run_ID <$> ok_list (ListRuns shuffle_rev (with_page ex_filter 0 0) ex_runs) = [":2"; ":3"; ":1"].
Proof.
  split; [|vm_compute; reflexivity].
  apply (ListRuns_pages shuffle_rev ex_filter ex_runs 2 2). lia.
Defined.

Lemma unique_run_ids_list s :
  NoDup ((λ kr, run_ID kr.2) <$> map_to_list (st_runs s)) → unique_run_ids s.
Proof.
  intros Hnd k1 k2 r1 r2 H1%elem_of_map_to_list H2%elem_of_map_to_list Hid.
  by assert ((k1, r1) = (k2, r2)) as [= -> _]
    by (by eapply (NoDup_fmap_elem_inj (λ kr, run_ID kr.2))).
Qed.

Definition ex_compacted : Store := (CompactRuns shuffle_id 50 10 ex_runs).2.

Lemma CompactRuns_only_expired_witness :
  CompactRuns shuffle_id 50 10 ex_runs = (Ok 1%Z, ex_compacted) ∧
  (∀ k r, st_runs ex_runs !! k = Some r → run_expired 50 r = false →
     st_runs ex_compacted !! k = Some r).
Proof.
  split; [vm_compute; reflexivity|].
  apply (CompactRuns_only_expired shuffle_id 50 10 ex_runs 1).
  - apply unique_run_ids_list. decide_closed.
  - vm_compute. reflexivity.
Defined.

Definition ex_token (id hash : string) : APIToken := MkAPIToken id "prod" "admin" "" 0 None hash.
Definition ex_tokens : Store :=
  (exec_calls [Call (ex_oracle 1) (OpCreateToken (ex_token "t1" "h1"));
               Call (ex_oracle 1) (OpCreateToken (ex_token "t2" "h2"))] New).2.

Lemma DeleteToken_revokes_witness :
  LookupTokenByHash "h1" ex_tokens = Ok (ex_token "t1" "h1") ∧
  LookupTokenByHash "h1" (DeleteToken "prod" "t1" ex_tokens).2 = Err err_notfound.
Proof.
  split; [vm_compute; reflexivity|].
  apply (DeleteToken_revokes "prod" "t1" ex_tokens (ex_token "t1" "h1")).
  - apply exec_calls_wf, New_wf.
  - vm_compute. reflexivity.
  - vm_compute. reflexivity.
Defined.

Lemma namespace_isolation_witness :
  GetRun "prod" ":1"
    (store_exec (ex_oracle 1) (OpUpdateRunState "test" ":3" StateCancelled 99) ex_runs).2
  = GetRun "prod" ":1" ex_runs.
Proof.
  apply (namespace_isolation (ex_oracle 1) (OpUpdateRunState "test" ":3" StateCancelled 99)
           ex_runs "prod" "test"); vm_compute; (reflexivity || discriminate).
Defined.
