(* ===== verification/Plugin.v ===== *)
(** Task handlers and their registry: [internal/plugin/plugin.go].

    A handler is code outside the engine.  Its [Execute] is a function of the call's input and
    of the moment of the call, so that two calls with one input may differ.  The Go method
    returns a result and an error; its caller reads the result only when the error is nil, and
    here it returns one or the other. *)
From S2P Require Import Prelude Errors Types.

(** The clock that [Handle] carries is the engine's. *)
Record Handle := MkHandle {
  h_RunID : string;
  h_StepID : string;
  h_Namespace : string;
  h_RunInput : Payload;
  h_Deadline : Duration
}.

Record Result := MkResult {
  res_Output : Payload;
  res_Error : option error
}.

Record Handler := MkHandler {
  hd_Name : string;
  hd_Description : string;
  hd_Execute : Handle → nat → result error Result
}.

Record HandlerSpec := MkHandlerSpec { hs_Name : string; hs_Description : string }.

Abbreviation Registry := (gmap string Handler) (only parsing).

Definition NewRegistry : Registry := ∅.

(** [strings.ContainsAny(name, " \t\n")]. *)
Definition has_blank (name : string) : bool :=
  negb (string_forall (λ c, negb (bool_decide (byte_of c ∈ [32; 9; 10]))) name).

Definition Register (h : Handler) (r : Registry) : result error unit * Registry :=
  let name := hd_Name h in
  if bool_decide (name = "") then
    (Err (InvalidArgumentError (EFmt "handler name must not be empty" [])), r)
  else if has_blank name then
    (Err (InvalidArgumentError (EFmt "handler name %q must not contain whitespace" [name])), r)
  else match r !! name with
  | Some _ => (Err (AlreadyExistsError (EFmt "handler %q already registered" [name])), r)
  | None => (Ok (), <[name := h]> r)
  end.

Definition Resolve (name : string) (r : Registry) : result error Handler :=
  match r !! name with
  | None => Err (NotFoundError (EFmt "no handler named %q" [name]))
  | Some h => Ok h
  end.

Definition List_ (sh : shuffle) (r : Registry) : list string :=
  sort_slice string_ltb (range_map sh r).*1.

Definition Has (name : string) (r : Registry) : bool :=
  match r !! name with Some _ => true | None => false end.

(** [None] is the panic of [MustRegister]. *)
Definition MustRegister (h : Handler) (r : Registry) : option Registry :=
  match Register h r with
  | (Ok _, r') => Some r'
  | (Err _, _) => None
  end.

Definition describe (h : Handler) : string :=
  if bool_decide (hd_Description h = "") then hd_Name h else hd_Description h.

Definition Specs (sh : shuffle) (r : Registry) : list HandlerSpec :=
  sort_slice (λ a b, string_ltb (hs_Name a) (hs_Name b))
    ((λ nh, MkHandlerSpec nh.1 (describe nh.2)) <$> range_map sh r).
