(* ===== verification/Engine.v ===== *)
(** The execution engine: [internal/scheduler/scheduler.go], and the concurrent drain of
    [internal/scheduler/loop.go] and [pool.go].

    Each method of the engine is a [prog], a tree of the effects it performs in order: readings
    of the clock, calls of the store interface, publications to the event sink, log and metric
    records, and executions of handlers.  [run] interprets a program in a world sequentially;
    [exec_schedule] interleaves the programs of several workers, one effect at a time, since
    every store call takes the store's mutex and nothing else is shared. *)
From S2P Require Import Prelude Errors Types Workflow MemStore Persistence Plugin.

(** * Effects and programs *)

(** What the engine reports outside the store. *)
Inductive report :=
| Published (ev : Event)
| Incr (name : string)
| Warnf (format : string)
| Errorf (format : string)
| Executed (i : Handle).

Inductive eff : Type → Type :=
| ENow : eff Time
| EUnixNano : eff Z
| ERandHex : eff string
| EStore {A} (op : StoreOp A) : eff A
| EPublish (ev : Event) : eff (option error)
| EReport (r : report) : eff unit
| EExecute (h : Handler) (i : Handle) : eff (result error Result).

Inductive prog (A : Type) : Type :=
| Ret (a : A)
| Vis {X : Type} (e : eff X) (k : X → prog A)
| Panic.
Arguments Ret {A} a.
Arguments Vis {A X} e k.
Arguments Panic {A}.

Fixpoint prog_bind_ {A B} (f : A → prog B) (p : prog A) : prog B :=
  match p with
  | Ret a => f a
  | Vis e k => Vis e (λ x, prog_bind_ f (k x))
  | Panic => Panic
  end.

#[export] Instance prog_ret : MRet prog := λ A a, Ret a.
#[export] Instance prog_bind : MBind prog := λ A B f p, prog_bind_ f p.

Definition perform {X} (e : eff X) : prog X := Vis e Ret.
Definition store {A} (op : StoreOp A) : prog A := perform (EStore op).

(** * Worlds *)

(** What is outside the engine and the store, at each moment: the engine's clock, the system
    clock, random digits, the store's oracle and whether a publication fails. *)
Record env := MkEnv {
  env_clock : nat → Time;
  env_nano : nat → Z;
  env_rand : nat → string;
  env_oracle : nat → oracle;
  env_publish : nat → option error
}.

Record World := MkWorld {
  w_store : Store;
  w_reports : list report;
  w_tick : nat
}.

Section interpretation.
Context (en : env).

(** One effect; each effect is a new moment. *)
Definition do_eff {X} (e : eff X) (w : World) : X * World :=
  let n := w_tick w in
  match e in eff X return X * World with
  | ENow => (env_clock en n, MkWorld (w_store w) (w_reports w) (S n))
  | EUnixNano => (env_nano en n, MkWorld (w_store w) (w_reports w) (S n))
  | ERandHex => (env_rand en n, MkWorld (w_store w) (w_reports w) (S n))
  | EStore op =>
      let '(x, s') := store_exec (env_oracle en n) op (w_store w) in
      (x, MkWorld s' (w_reports w) (S n))
  | EPublish ev =>
      (env_publish en n, MkWorld (w_store w) (w_reports w ++ [Published ev]) (S n))
  | EReport r => (tt, MkWorld (w_store w) (w_reports w ++ [r]) (S n))
  | EExecute h i =>
      (hd_Execute h i n, MkWorld (w_store w) (w_reports w ++ [Executed i]) (S n))
  end.

(** The result and the world at the end; [None] is a panic. *)
Fixpoint run {A} (p : prog A) (w : World) : option A * World :=
  match p with
  | Ret a => (Some a, w)
  | Vis e k => let '(x, w') := do_eff e w in run (k x) w'
  | Panic => (None, w)
  end.

(** One effect of a program. *)
Definition step_prog {A} (p : prog A) (w : World) : prog A * World :=
  match p with
  | Vis e k => let '(x, w') := do_eff e w in (k x, w')
  | _ => (p, w)
  end.

(** The workers' programs, interleaved: at each moment the schedule names the worker that
    performs its next effect. *)
Fixpoint exec_schedule {A} (sched : list nat) (ts : list (prog A)) (w : World) :
    list (prog A) * World :=
  match sched with
  | [] => (ts, w)
  | i :: sched' =>
      match ts !! i with
      | None => exec_schedule sched' ts w
      | Some p => let '(p', w') := step_prog p w in exec_schedule sched' (<[i := p']> ts) w'
      end
  end.
End interpretation.

(** * The engine *)

Record Options := MkOptions { opt_MaxDequeue : Z; opt_EventSink : bool }.

(** [eng_events]: the event sink is not nil. *)
Record Engine := MkEngine {
  eng_registry : Registry;
  eng_events : bool;
  eng_maxDequeue : Z
}.

Definition NewEngine (registry : Registry) (o : Options) : Engine :=
  MkEngine registry (opt_EventSink o)
    (if (opt_MaxDequeue o <=? 0)%Z then 32 else opt_MaxDequeue o)%Z.

Section engine.
Context (e : Engine) (sprintf : string → list string → string).

Definition eventID (ev : Event) (digest : string) : string :=
  Short (ev_Type ev) +:+ "-" +:+ digest.

Definition emit (ev : Event) : prog unit :=
  if eng_events e then
    digest ← perform ERandHex;
    r ← perform (EPublish (set_ev_ID (eventID ev digest) ev));
    match r with
    | Some _ => perform (EReport (Warnf "publish event %s: %v"))
    | None => Ret ()
    end
  else Ret ().

(** The event literals of the source; fields not named are zero. *)
Definition step_event (ty : EventType) (run : Run) (stepID : string) (at_ : Time)
    (attempt : Z) (payload : Payload) : Event :=
  MkEvent "" ty 1 (run_Namespace run) (run_ID run) stepID at_ payload attempt.
Definition run_event (ty : EventType) (run : Run) (at_ : Time) (payload : Payload) : Event :=
  MkEvent "" ty 1 (run_Namespace run) (run_ID run) "" at_ payload 0.
Definition error_payload (msg : string) : Payload := Some {[ "error" := AnyString msg ]}.

Definition queueItemFor (run : Run) (step : StepRun) (now visibleAt : Time) : QueueItem :=
  MkQueueItem (run_ID run) (run_Namespace run) (sr_StepID step) now visibleAt
    (sr_Attempt step + 1).

(** The loops [for i := range run.Steps] that change the first step with an id: the changed
    step and the steps of the run after the change. *)
Fixpoint update_first (id : string) (f : StepRun → StepRun) (steps : list StepRun) :
    option (StepRun * list StepRun) :=
  match steps with
  | [] => None
  | s :: steps' =>
      if bool_decide (sr_StepID s = id) then Some (f s, f s :: steps')
      else (λ r, (r.1, s :: r.2)) <$> update_first id f steps'
  end.

(** One round of the loop of [enqueueReadySteps]; [run] is the engine's copy of the run, which
    the loop changes. *)
Definition enqueue_step (now : Time) (run : Run) (s : StepRun) : prog (result error Run) :=
  r ← store (OpEnqueue (queueItemFor run s now now));
  match r with
  | Err err => Ret (Err err)
  | Ok _ =>
      run' ← match update_first (sr_StepID s) (set_sr_State StepQueued) (run_Steps run) with
             | Some (s', steps') =>
                 _ ← store (OpUpdateStepState (run_Namespace run) (run_ID run) s');
                 Ret (set_run_Steps steps' run)
             | None => Ret run
             end;
      _ ← emit (step_event EventStepQueued run' (sr_StepID s) now (sr_Attempt s + 1) None);
      Ret (Ok run')
  end.

Fixpoint enqueue_loop (now : Time) (run : Run) (ss : list StepRun) : prog (result error Run) :=
  match ss with
  | [] => Ret (Ok run)
  | s :: ss' =>
      r ← enqueue_step now run s;
      match r with
      | Err err => Ret (Err err)
      | Ok run' => enqueue_loop now run' ss'
      end
  end.

Definition enqueueReadySteps (def : WorkflowDefinition) (run : Run) : prog (result error Run) :=
  now ← perform ENow;
  enqueue_loop now run (ReadySteps (Some def) (Some run)).

Definition Submit (input : RunInput) : prog (result error string) :=
  now ← perform ENow;
  rdef ← store (OpGetDefinitionByName (wid_Namespace (ri_Workflow input))
                  (wid_Name (ri_Workflow input)));
  match rdef with
  | Err err => Ret (Err err)
  | Ok def =>
      nano ← perform EUnixNano;
      match NewRun (Some def) (set_ri_Workflow (wd_ID def) input) now nano with
      | Err err => Ret (Err err)
      | Ok run =>
          r ← store (OpCreateRun run);
          match r with
          | Err err => Ret (Err err)
          | Ok _ =>
              r ← store (OpUpdateRunState (run_Namespace run) (run_ID run) StateQueued now);
              match r with
              | Err err => Ret (Err err)
              | Ok _ =>
                  r ← enqueueReadySteps def run;
                  match r with
                  | Err err => Ret (Err err)
                  | Ok run' =>
                      _ ← emit (run_event EventRunCreated run' now
                                  (Some {[ "workflow" := AnyString (wid_Name (wd_ID def));
                                           "version" := AnyInt (wid_Version (wd_ID def)) ]}));
                      _ ← perform (EReport (Incr "runs.submitted"));
                      Ret (Ok (run_ID run'))
                  end
              end
          end
      end
  end.

(** [findStepDef]; [None] is the nil pointer. *)
Definition findStepDef (d : WorkflowDefinition) (id : string) : option StepDefinition :=
  snd <$> list_find (λ sd, sd_ID sd = id) (wd_Steps d).

Definition finish_event (state : RunState) : EventType :=
  if bool_decide (state = StateFailed) then EventRunFailed
  else if bool_decide (state = StateCancelled) then EventRunCancelled
  else if bool_decide (state = StateTimedOut) then EventRunTimedOut
  else EventRunCompleted.

Definition finishRun (run : Run) (state : RunState) (errMsg : string) : prog (option error) :=
  now ← perform ENow;
  _ ← store (OpUpdateRunState (run_Namespace run) (run_ID run) state now);
  _ ← (if bool_decide (errMsg = "") then Ret ()
       else _ ← store (OpUpdateRunError (run_Namespace run) (run_ID run) errMsg); Ret ());
  _ ← emit (run_event (finish_event state) run now (error_payload errMsg));
  Ret None.

Definition promoteRun (run : Run) : prog (option error) := finishRun run StateSucceeded "".

Definition Cancel (namespace : Namespace) (runID : string) : prog (option error) :=
  r ← store (OpGetRun namespace runID);
  match r with
  | Err err => Ret (Some err)
  | Ok run =>
      if IsTerminal (run_State run) then Ret (Some (ConflictError ErrConflict))
      else finishRun run StateCancelled ""
  end.

Definition failStep (run : Run) (lease : QueueLease) (err : error) : prog (option error) :=
  let item := ql_Item lease in
  now ← perform ENow;
  let msg := if bool_decide (Error sprintf err = "") then "step failed" else Error sprintf err in
  _ ← store (OpUpdateStepState (qi_Namespace item) (qi_RunID item)
               (MkStepRun (qi_StepID item) StepFailed (qi_Attempt item) None None None msg "" None));
  _ ← emit (step_event EventStepFailed run (qi_StepID item) now (qi_Attempt item)
              (error_payload msg));
  _ ← store (OpCompleteStep (qi_Namespace item) (qi_RunID item) (qi_StepID item) (ql_Token lease));
  finishRun run StateFailed msg.

Definition markStepRunning (run : Run) (item : QueueItem) (at_ : Time) : prog Run :=
  match update_first (qi_StepID item)
          (λ s, set_sr_StartedAt (Some at_) (set_sr_State StepRunning s)) (run_Steps run) with
  | Some (s', steps') =>
      _ ← store (OpUpdateStepState (run_Namespace run) (run_ID run) s');
      Ret (set_run_Steps steps' run)
  | None => Ret run
  end.

Definition allDone (steps : list StepRun) : bool :=
  forallb (λ s, negb (negb (bool_decide (sr_State s = StepSucceeded))
                      && negb (bool_decide (sr_State s = StepSkipped)))) steps.

Definition completeStep (run : Run) (def : WorkflowDefinition) (lease : QueueLease)
    (output : Payload) : prog (option error) :=
  let item := ql_Item lease in
  now ← perform ENow;
  r ← store (OpCompleteStep (qi_Namespace item) (qi_RunID item) (qi_StepID item)
               (ql_Token lease));
  match r with
  | Err err => Ret (Some err)
  | Ok _ =>
      run' ← match update_first (qi_StepID item)
                     (λ s, set_sr_Output output
                             (set_sr_FinishedAt (Some now) (set_sr_State StepSucceeded s)))
                     (run_Steps run) with
             | Some (s', steps') =>
                 _ ← store (OpUpdateStepState (run_Namespace run) (run_ID run) s');
                 Ret (set_run_Steps steps' run)
             | None => Ret run
             end;
      _ ← emit (step_event EventStepDone run' (qi_StepID item) now (qi_Attempt item) None);
      if allDone (run_Steps run') then promoteRun run'
      else
        r ← enqueueReadySteps def run';
        match r with
        | Err err => Ret (Some err)
        | Ok _ => Ret None
        end
  end.

Definition executeLease (lease : QueueLease) : prog (option error) :=
  let item := ql_Item lease in
  r ← store (OpGetRun (qi_Namespace item) (qi_RunID item));
  match r with
  | Err err => Ret (Some err)
  | Ok run =>
      r ← store (OpGetDefinition (run_Workflow run));
      match r with
      | Err err => Ret (Some err)
      | Ok def =>
          match findStepDef def (qi_StepID item) with
          | None => Panic
          | Some sd =>
              match Resolve (sd_Handler sd) (eng_registry e) with
              | Err err => failStep run lease err
              | Ok handler =>
                  t ← perform ENow;
                  run' ← markStepRunning run item t;
                  t ← perform ENow;
                  _ ← emit (step_event EventStepStarted run' (qi_StepID item) t
                              (qi_Attempt item) None);
                  res ← perform (EExecute handler
                          (MkHandle (run_ID run') (qi_StepID item) ""
                             (ri_Payload (run_Input run')) (sd_Timeout sd)));
                  match res with
                  | Err err => failStep run' lease err
                  | Ok res =>
                      match res_Error res with
                      | Some err => failStep run' lease err
                      | None => completeStep run' def lease (res_Output res)
                      end
                  end
              end
          end
      end
  end.

Definition processLease (lease : QueueLease) : prog (option error) := executeLease lease.

Definition dequeueLeases : prog (result error (list QueueLease)) :=
  now ← perform ENow;
  store (OpDequeueAny (eng_maxDequeue e) now).

Fixpoint process_loop (leases : list QueueLease) : prog unit :=
  match leases with
  | [] => Ret ()
  | lease :: leases' =>
      r ← processLease lease;
      _ ← (match r with
           | Some _ => perform (EReport (Warnf "process lease: %v"))
           | None => Ret ()
           end);
      process_loop leases'
  end.

Definition ProcessLeases : prog (option error) :=
  r ← dequeueLeases;
  match r with
  | Err err => Ret (Some err)
  | Ok leases => _ ← process_loop leases; Ret None
  end.

(** The function [Scheduler.drain] gives to the pool for a lease. *)
Definition drain_task (lease : QueueLease) : prog unit :=
  r ← processLease lease;
  match r with
  | Some _ => perform (EReport (Warnf "process lease %s: %v"))
  | None => Ret ()
  end.

(** [Scheduler.drain]: the leases are dequeued once, and [drain_task] of each is given to the
    pool, whose workers run concurrently; the result is the leases given. *)
Definition drain : prog (list QueueLease) :=
  r ← dequeueLeases;
  match r with
  | Err _ => _ ← perform (EReport (Errorf "drain: dequeue: %v")); Ret []
  | Ok leases => Ret leases
  end.
End engine.
