(* ===== verification/EngineLogic.v ===== *)
(** A program logic for the engine, and the invariant of its sequential executions.

    [wp en guard tm p Q w]: run from the world [w], the program [p] does not panic, every effect
    it performs satisfies [guard] in the store it is performed on, and it ends with [Q], as long
    as the engine's clock reads times that satisfy [tm].
    [Inv s L] is the engine's invariant: every run of the store follows its definition, a step
    has left the pending state only after its dependencies were done, and every item of the
    queue or of the outstanding leases [L] names a step of a stored run that is not done and
    whose dependencies are. *)
From S2P Require Import Prelude Errors Types Validation Workflow MemStore Persistence.
From S2P Require Import MemStoreFacts Plugin Engine.

Section logic.
Context (en : env).
Context (guard : ∀ X, eff X → Store → Prop).
Context (tm : Time → Prop).

(** The assumption on what an effect returns. *)
Definition timely {X} (e : eff X) : X → Prop :=
  match e in eff X return X → Prop with
  | ENow => tm
  | _ => λ _, True
  end.

Fixpoint wp {A} (p : prog A) (Q : A → Store → Prop) (w : World) : Prop :=
  match p with
  | Ret a => Q a (w_store w)
  | Vis e k =>
      guard _ e (w_store w) ∧
      (timely e (do_eff en e w).1 → wp (k (do_eff en e w).1) Q (do_eff en e w).2)
  | Panic => False
  end.

(** A program logic triple on the store: from every world with the store [s]. *)
Definition triple {A} (s : Store) (p : prog A) (Q : A → Store → Prop) : Prop :=
  ∀ w, w_store w = s → wp p Q w.

Lemma wp_mono {A} (p : prog A) (Q Q' : A → Store → Prop) w :
  wp p Q w → (∀ a s, Q a s → Q' a s) → wp p Q' w.
Proof.
  intros Hp HQ. revert w Hp. induction p as [a|X e k IH|]; simpl; intros w Hp; [eauto| |done].
  destruct Hp as [Hg Hp]. eauto.
Qed.

Lemma do_eff_tick {X} (e : eff X) w : w_tick (do_eff en e w).2 = S (w_tick w).
Proof. destruct e; simpl; try done. by destruct (store_exec _ _ _). Qed.

Lemma run_tick {A} (p : prog A) w : w_tick w <= w_tick (run en p w).2.
Proof.
  revert w. induction p as [a|X e k IH|]; simpl; intros w; [done| |done].
  pose proof (do_eff_tick e w) as Ht. destruct (do_eff en e w) as [x w']. simpl in Ht.
  specialize (IH x w'). lia.
Qed.

(** The logic is sound for the interpreter: a program that reads the clock at moments when it
    satisfies [tm] returns, with [Q]. *)
Lemma wp_run {A} (p : prog A) (Q : A → Store → Prop) w :
  wp p Q w →
  (∀ n, w_tick w <= n → n < w_tick (run en p w).2 → tm (env_clock en n)) →
  ∃ a w', run en p w = (Some a, w') ∧ Q a (w_store w').
Proof.
  revert w. induction p as [a|X e k IH|]; simpl; intros w Hp Ht; [eauto| |done].
  destruct Hp as [_ Hp]. pose proof (do_eff_tick e w) as Hn.
  assert (timely e (do_eff en e w).1) as Htm.
  { destruct e; try done. apply Ht; [done|]. simpl in *.
    pose proof (run_tick (k (env_clock en (w_tick w)))
      (MkWorld (w_store w) (w_reports w) (S (w_tick w)))). simpl in *. lia. }
  specialize (Hp Htm). destruct (do_eff en e w) as [x w']. apply IH; [done|].
  simpl in Hn. intros n Hn1 Hn2. apply Ht; [lia|done].
Qed.

Lemma triple_ret {A} s (a : A) (Q : A → Store → Prop) : Q a s → triple s (Ret a) Q.
Proof. by intros HQ w <-. Qed.

Lemma triple_mono {A} s (p : prog A) (Q Q' : A → Store → Prop) :
  triple s p Q → (∀ a s', Q a s' → Q' a s') → triple s p Q'.
Proof. intros Hp HQ w Hw. eapply wp_mono; eauto. Qed.

Lemma triple_bind {A B} s (p : prog A) (f : A → prog B) (Q : B → Store → Prop) :
  triple s p (λ a s', triple s' (f a) Q) → triple s (p ≫= f) Q.
Proof.
  intros Hp w Hw. specialize (Hp w Hw). clear Hw. revert w Hp.
  induction p as [a|X e k IH|]; simpl; intros w Hp; [by apply Hp| |done].
  destruct Hp as [Hg Hp]. split; [done|]. intros Ht. by apply IH, Hp.
Qed.

(** An effect that does not touch the store. *)
Lemma triple_pure {X} s (e : eff X) (Q : X → Store → Prop) :
  (∀ w, w_store (do_eff en e w).2 = w_store w) →
  guard _ e s → (∀ x, timely e x → Q x s) → triple s (perform e) Q.
Proof. intros He Hg HQ w <-. split; [done|]. intros Ht. simpl. rewrite He. by apply HQ. Qed.

Lemma triple_store {A} s (op : StoreOp A) (Q : A → Store → Prop) :
  guard _ (EStore op) s →
  (∀ o, Q (store_exec o op s).1 (store_exec o op s).2) → triple s (store op) Q.
Proof.
  intros Hg HQ w <-. split; [done|]. intros _. simpl.
  specialize (HQ (env_oracle en (w_tick w))). by destruct (store_exec _ op _).
Qed.

Lemma triple_execute s h i (Q : result error Result → Store → Prop) :
  guard _ (EExecute h i) s → (∀ n, Q (hd_Execute h i n) s) → triple s (perform (EExecute h i)) Q.
Proof. intros Hg HQ w <-. split; [done|]. intros _. apply HQ. Qed.
End logic.

(** * The invariant *)

Definition def_ok (d : WorkflowDefinition) : Prop :=
  NoDup (sd_ID <$> wd_Steps d) ∧ no_char "/"%char (wid_Namespace (wd_ID d)).

(** Every dependency of the step [id] is a step of the run that is done. *)
Definition deps_done (d : WorkflowDefinition) (r : Run) (id : string) : Prop :=
  ∀ sd dep, sd ∈ wd_Steps d → sd_ID sd = id → dep ∈ sd_DependsOn sd →
    ∃ st, st ∈ run_Steps r ∧ sr_StepID st = dep ∧ step_done st.

Definition stored_run (s : Store) (ns : Namespace) (id : string) (r : Run) : Prop :=
  st_runs s !! runKey ns id = Some r ∧ run_Namespace r = ns ∧ run_ID r = id.

Definition def_of (s : Store) (r : Run) (d : WorkflowDefinition) : Prop :=
  GetDefinition (run_Workflow r) s = Ok d.

Definition run_ok (s : Store) (r : Run) : Prop :=
  no_char "/"%char (run_Namespace r) ∧ no_char "/"%char (run_ID r) ∧
  ∃ d, def_of s r d ∧ run_of d r ∧
    ∀ st, st ∈ run_Steps r → sr_State st ≠ StepPending → deps_done d r (sr_StepID st).

Definition item_ok (s : Store) (i : QueueItem) : Prop :=
  ∃ r d st, stored_run s (qi_Namespace i) (qi_RunID i) r ∧ def_of s r d ∧
    st ∈ run_Steps r ∧ sr_StepID st = qi_StepID i ∧ ¬ step_done st ∧
    deps_done d r (qi_StepID i).

Definition outstanding (s : Store) (L : list QueueItem) (i : QueueItem) : Prop :=
  i ∈ L ∨ ∃ k, st_queue s !! k = Some i.

Record Inv (s : Store) (L : list QueueItem) : Prop := {
  inv_wf : store_wf s;
  inv_defs : map_Forall (λ _, def_ok) (st_definitions s);
  inv_runs : map_Forall (λ _, run_ok s) (st_runs s);
  inv_items : ∀ i, outstanding s L i → item_ok s i
}.

Definition same_item (i j : QueueItem) : Prop :=
  qi_Namespace i = qi_Namespace j ∧ qi_RunID i = qi_RunID j ∧ qi_StepID i = qi_StepID j.

(** * Steps replaced in a run *)

Lemma update_first_replace id f steps s' steps' :
  (∀ s, sr_StepID (f s) = sr_StepID s) →
  update_first id f steps = Some (s', steps') →
  sr_StepID s' = id ∧ replace_step s' steps = Some steps'.
Proof.
  intros Hf. revert steps'. induction steps as [|a steps IH]; intros steps'; simpl; [done|].
  case_bool_decide as Ha.
  - intros ?; simplify_eq. rewrite Hf, bool_decide_true by done. done.
  - destruct (update_first id f steps) as [[t l]|]; [|done]. intros ?; simplify_eq/=.
    destruct (IH l eq_refl) as [<- Hr]. rewrite bool_decide_false by done. by rewrite Hr.
Qed.

Lemma update_first_elem id f steps st :
  st ∈ steps → sr_StepID st = id → is_Some (update_first id f steps).
Proof.
  induction steps as [|a steps IH]; [by intros ?%not_elem_of_nil|].
  intros [->|Hin]%elem_of_cons Hid; simpl.
  - rewrite bool_decide_true by done. eauto.
  - case_bool_decide; [eauto|]. destruct (IH Hin Hid) as [x ->]. simpl. eauto.
Qed.

Lemma replace_step_ids step steps steps' :
  replace_step step steps = Some steps' → sr_StepID <$> steps' = sr_StepID <$> steps.
Proof.
  revert steps'. induction steps as [|a steps IH]; intros steps'; simpl; [done|].
  case_bool_decide as Ha; [intros ?; simplify_eq/=; by rewrite Ha|].
  destruct (replace_step step steps) as [l|]; [|done]. intros ?; simplify_eq/=.
  by rewrite (IH l).
Qed.

(** The steps after a replacement: the new step, and the others unchanged. *)
Lemma elem_of_replace_step step steps steps' st :
  NoDup (sr_StepID <$> steps) → replace_step step steps = Some steps' →
  st ∈ steps' ↔ st = step ∨ st ∈ steps ∧ sr_StepID st ≠ sr_StepID step.
Proof.
  revert steps'. induction steps as [|a steps IH]; intros steps'; simpl; [done|].
  intros [Ha Hnd]%NoDup_cons. case_bool_decide as E.
  - intros ?; simplify_eq. rewrite !elem_of_cons. rewrite E in Ha. split.
    + intros [->|H]; [by left|]. right. split; [by right|]. intros Heq. apply Ha.
      rewrite <- Heq. by apply list_elem_of_fmap_2.
    + intros [->|[[->|H] Hne]]; [by left|done|by right].
  - destruct (replace_step step steps) as [l|]; [|done]. intros ?; simplify_eq/=.
    rewrite !elem_of_cons, (IH l) by done. split.
    + intros [->|[->|[H1 H2]]]; [right; split; [by left|done]|by left|right; split; [by right|done]].
    + intros [->|[[->|H1] H2]]; [right; by left|by left|right; right; done].
Qed.

(** * The store's operations keep the invariant *)

Lemma inv_run_ok s L ns id r : Inv s L → st_runs s !! runKey ns id = Some r → run_ok s r.
Proof. intros HI Hr. exact (inv_runs _ _ HI _ _ Hr). Qed.

Lemma stored_run_at s L ns id r :
  Inv s L → st_runs s !! runKey ns id = Some r → no_char "/"%char ns → stored_run s ns id r.
Proof.
  intros HI Hr Hns. pose proof (wf_runs _ (inv_wf _ _ HI) _ _ Hr) as Hk. unfold run_at in Hk.
  destruct (inv_run_ok _ _ _ _ _ HI Hr) as (Hns' & _).
  destruct (runKey_inj _ _ _ _ Hns Hns' Hk). done.
Qed.

Lemma def_of_lookup s r d :
  def_of s r d ↔
  st_definitions s !! defKey (wid_Namespace (run_Workflow r)) (wid_Name (run_Workflow r))
    (wid_Version (run_Workflow r)) = Some d.
Proof.
  unfold def_of, GetDefinition. case_match eqn:E; [rewrite cloneDefinition_id|]; naive_solver.
Qed.

Lemma def_of_NoDup s L r d :
  Inv s L → def_of s r d → run_of d r → NoDup (sr_StepID <$> run_Steps r).
Proof. intros HI Hd%def_of_lookup ->. exact (proj1 (inv_defs _ _ HI _ _ Hd)). Qed.

Lemma deps_done_mono d r r' id :
  (∀ st, st ∈ run_Steps r → step_done st →
     ∃ st', st' ∈ run_Steps r' ∧ sr_StepID st' = sr_StepID st ∧ step_done st') →
  deps_done d r id → deps_done d r' id.
Proof.
  intros Hm Hd sd dep H1 H2 H3. destruct (Hd sd dep H1 H2 H3) as (st & Hin & <- & Hdone).
  destruct (Hm st Hin Hdone) as (st' & ? & ? & ?). eauto.
Qed.

(** What a change of the run [r] into [r'] needs to keep the invariant. *)
Record run_change (s : Store) (L : list QueueItem) (r r' : Run) : Prop := {
  rc_ns : run_Namespace r' = run_Namespace r;
  rc_id : run_ID r' = run_ID r;
  rc_workflow : run_Workflow r' = run_Workflow r;
  rc_steps : sr_StepID <$> run_Steps r' = sr_StepID <$> run_Steps r;
  rc_done : ∀ st, st ∈ run_Steps r → step_done st →
    ∃ st', st' ∈ run_Steps r' ∧ sr_StepID st' = sr_StepID st ∧ step_done st';
  rc_started : ∀ d st', def_of s r d → st' ∈ run_Steps r' → sr_State st' ≠ StepPending →
    deps_done d r (sr_StepID st') ∨
    ∃ st, st ∈ run_Steps r ∧ sr_StepID st = sr_StepID st' ∧ sr_State st ≠ StepPending;
  rc_items : ∀ i st, outstanding s L i → qi_Namespace i = run_Namespace r →
    qi_RunID i = run_ID r → st ∈ run_Steps r → sr_StepID st = qi_StepID i → ¬ step_done st →
    ∃ st', st' ∈ run_Steps r' ∧ sr_StepID st' = sr_StepID st ∧ ¬ step_done st'
}.

Definition put_run (r : Run) (s : Store) : Store :=
  set_runs (<[runKey (run_Namespace r) (run_ID r) := r]> (st_runs s)) s.

Lemma run_change_run_ok s L r r' :
  run_change s L r r' → run_ok s r → run_ok (put_run r' s) r'.
Proof.
  intros [Hns Hid Hwf Hst Hdone Hstarted _] (H1 & H2 & d & Hd & Hof & Hs).
  split_and!; [by rewrite Hns|by rewrite Hid|]. exists d. split_and!.
  - unfold def_of in *. by rewrite Hwf.
  - unfold run_of in *. congruence.
  - intros st' Hin Hp. apply (deps_done_mono d r); [done|].
    destruct (Hstarted d st' Hd Hin Hp) as [?|(st & Hst' & <- & Hp')]; auto.
Qed.

Lemma run_change_item_ok s L r r' i :
  run_change s L r r' → stored_run s (run_Namespace r) (run_ID r) r →
  no_char "/"%char (run_Namespace r) →
  (∀ r0, stored_run s (qi_Namespace i) (qi_RunID i) r0 → no_char "/"%char (qi_Namespace i)) →
  outstanding s L i → item_ok s i → item_ok (put_run r' s) i.
Proof.
  intros [Hns Hid Hwf _ Hdone _ Hitems] (Hr & _ & _) Hs1 Hs2 Ho
    (r0 & d & st & Hr0 & Hd & Hin & Hst & Hnd & Hdeps).
  pose proof (Hs2 _ Hr0) as Hs0. destruct Hr0 as (Hl & Hn & Hi).
  destruct (decide (runKey (qi_Namespace i) (qi_RunID i) =
                    runKey (run_Namespace r) (run_ID r))) as [E|E].
  - rewrite E in Hl. simplify_eq. apply runKey_inj in E as [En Ei]; [|done..].
    destruct (Hitems i st Ho En Ei Hin Hst Hnd) as (st' & Hin' & Hst' & Hnd').
    exists r', d, st'. split_and!; [|by unfold def_of in *; rewrite Hwf|done|congruence|done|].
    + split_and!; [|congruence..]. simpl. rewrite Hns, Hid, <- En, <- Ei.
      apply lookup_insert_eq.
    + eapply deps_done_mono; [exact Hdone|done].
  - exists r0, d, st. split_and!; [|done..]. split_and!; [|done..].
    simpl. rewrite Hns, Hid. by rewrite lookup_insert_ne by congruence.
Qed.

Lemma run_change_inv s L r r' :
  Inv s L → stored_run s (run_Namespace r) (run_ID r) r → run_change s L r r' →
  Inv (put_run r' s) L.
Proof.
  intros HI Hr Hc. pose proof (inv_run_ok _ _ _ _ _ HI (proj1 Hr)) as Hok.
  pose proof (proj1 Hok) as Hs1. split.
  - destruct (inv_wf _ _ HI). split; try done. simpl. by apply map_Forall_insert_2.
  - exact (inv_defs _ _ HI).
  - apply map_Forall_insert_2; [by eapply run_change_run_ok|]. exact (inv_runs _ _ HI).
  - intros i Ho. eapply run_change_item_ok; [done..| |exact Ho|by apply (inv_items _ _ HI)].
    intros r0 (Hl & Hn & _). rewrite <- Hn. exact (proj1 (inv_run_ok _ _ _ _ _ HI Hl)).
Qed.

(** A change of a run that keeps what the invariant is about. *)
Definition keeps_steps (f : Run → Run) : Prop :=
  ∀ r, run_Steps (f r) = run_Steps r ∧ run_Namespace (f r) = run_Namespace r ∧
    run_ID (f r) = run_ID r ∧ run_Workflow (f r) = run_Workflow r.

Lemma apply_run_state_keeps to at_ : keeps_steps (apply_run_state to at_).
Proof. intros r. unfold apply_run_state. by repeat case_match. Qed.

Lemma set_run_Error_keeps msg : keeps_steps (set_run_Error msg).
Proof. done. Qed.

Lemma keeps_steps_change s L r f : keeps_steps f → run_change s L r (f r).
Proof.
  intros Hf. destruct (Hf r) as (H1 & H2 & H3 & H4).
  split; rewrite ?H1; try done; intros; eauto.
Qed.

(** The replacement of a step that is not done and whose dependencies are. *)
Lemma replace_step_change s L r d old new steps' :
  Inv s L → stored_run s (run_Namespace r) (run_ID r) r → def_of s r d →
  old ∈ run_Steps r → sr_StepID old = sr_StepID new → ¬ step_done old →
  deps_done d r (sr_StepID new) →
  replace_step new (run_Steps r) = Some steps' →
  (step_done new → ∀ i, outstanding s L i → qi_Namespace i = run_Namespace r →
     qi_RunID i = run_ID r → qi_StepID i ≠ sr_StepID new) →
  run_change s L r (set_run_Steps steps' r).
Proof.
  intros HI Hr Hd Hold Hid Hnd Hdeps Hrep Hfree.
  destruct (inv_run_ok _ _ _ _ _ HI (proj1 Hr)) as (_ & _ & d' & Hd' & Hof & Hs).
  assert (d' = d) as -> by (unfold def_of in *; congruence).
  pose proof (def_of_NoDup _ _ _ _ HI Hd Hof) as Hdup.
  pose proof (λ st, elem_of_replace_step new _ _ st Hdup Hrep) as Hel.
  split; try done; simpl.
  - by apply replace_step_ids in Hrep.
  - intros st Hin Hst. exists st. split_and!; [|done..]. apply Hel. right. split; [done|].
    intros E. rewrite <- Hid in E.
    by rewrite (NoDup_fmap_elem_inj sr_StepID _ st old Hdup Hin Hold E) in Hst.
  - intros d0 st' Hd0 [->|[Hin _]]%Hel Hp; [left|right; eauto].
    assert (d0 = d) as -> by (unfold def_of in *; congruence). done.
  - intros i st Ho Hn Hi Hin Hst Hnst. destruct (decide (sr_StepID st = sr_StepID new)) as [E|E].
    + exists new. split_and!; [by apply Hel; left|done|]. intros Hnew.
      apply (Hfree Hnew i Ho Hn Hi). congruence.
    + exists st. split_and!; [|done..]. apply Hel. by right.
Qed.
