(* ===== verification/EngineSpec.v ===== *)
(** What the engine's programs do to the store, as functions.

    The engine's methods mix store calls with clock readings, events and logs.  Here each method
    has a store transformer, the composition of its store calls, and a rule: the method run from
    a store ends with the transformed store, provided a handler is only executed where the guard
    allows it.  The safety and the progress theorems reason on the transformers. *)
From S2P Require Import Prelude Errors Types Workflow MemStore Persistence MemStoreFacts Plugin.
From S2P Require Import Engine EngineLogic.

(** * Store transformers *)

(** The step [id] of a run changed by [f], in the engine's copy of the run. *)
Definition upd_step (id : string) (f : StepRun → StepRun) (r : Run) : Run :=
  match update_first id f (run_Steps r) with
  | Some (_, steps') => set_run_Steps steps' r
  | None => r
  end.

Definition put_step (id : string) (f : StepRun → StepRun) (r : Run) (s : Store) : Store :=
  match update_first id f (run_Steps r) with
  | Some (st', _) => (UpdateStepState (run_Namespace r) (run_ID r) st' s).2
  | None => s
  end.

Definition enq_store (now : Time) (rs : Run * Store) (st : StepRun) : Run * Store :=
  let '(r, s) := rs in
  (upd_step (sr_StepID st) (set_sr_State StepQueued) r,
   put_step (sr_StepID st) (set_sr_State StepQueued) r
     (Enqueue (queueItemFor r st now now) s).2).

Definition enq_all (now : Time) (ss : list StepRun) (r : Run) (s : Store) : Run * Store :=
  foldl (enq_store now) (r, s) ss.

Definition finish_store (ns : Namespace) (id : string) (state : RunState) (msg : string)
    (now : Time) (s : Store) : Store :=
  let s := (UpdateRunState ns id state now s).2 in
  if bool_decide (msg = "") then s else (UpdateRunError ns id msg s).2.

Definition fail_store (i : QueueItem) (ns : Namespace) (id msg : string) (now : Time)
    (s : Store) : Store :=
  let failed := MkStepRun (qi_StepID i) StepFailed (qi_Attempt i) None None None msg "" None in
  let s := (UpdateStepState (qi_Namespace i) (qi_RunID i) failed s).2 in
  let s := (CompleteStep (qi_Namespace i) (qi_RunID i) (qi_StepID i) "" s).2 in
  finish_store ns id StateFailed msg now s.

Definition running (t : Time) (st : StepRun) : StepRun :=
  set_sr_StartedAt (Some t) (set_sr_State StepRunning st).

Definition succeeded (now : Time) (output : Payload) (st : StepRun) : StepRun :=
  set_sr_Output output (set_sr_FinishedAt (Some now) (set_sr_State StepSucceeded st)).

(** The store after the last step of a run, or after a step that frees others. *)
Definition advance_store (d : WorkflowDefinition) (now : Time) (r : Run) (s : Store) : Store :=
  if allDone (run_Steps r) then finish_store (run_Namespace r) (run_ID r) StateSucceeded "" now s
  else (enq_all now (ReadySteps (Some d) (Some r)) r s).2.

(** * Rules *)

#[local] Opaque triple store perform prog_bind.

Section rules.
Context (en : env) (e : Engine) (sprintf : string → list string → string).
Context (exec_ok : Handle → Store → Prop) (tm : Time → Prop).

(** Only the execution of a handler is guarded. *)
Definition exec_guard X (ef : eff X) (s : Store) : Prop :=
  match ef with
  | EExecute _ i => exec_ok i s
  | _ => True
  end.

Abbreviation triple' := (triple en exec_guard tm).

Lemma triple_now s (Q : Time → Store → Prop) :
  (∀ t, tm t → Q t s) → triple' s (perform ENow) Q.
Proof. intros. by apply triple_pure. Qed.

Lemma triple_report s r (Q : unit → Store → Prop) :
  Q tt s → triple' s (perform (EReport r)) Q.
Proof. intros. apply triple_pure; [done..|]. by intros [] _. Qed.

Lemma triple_op {A} s (op : StoreOp A) (Q : A → Store → Prop) :
  (∀ o, Q (store_exec o op s).1 (store_exec o op s).2) → triple' s (store op) Q.
Proof. intros. by apply triple_store. Qed.

Lemma triple_exec s h i (Q : result error Result → Store → Prop) :
  exec_ok i s → (∀ n, Q (hd_Execute h i n) s) → triple' s (perform (EExecute h i)) Q.
Proof. intros Hg HQ. by apply triple_execute. Qed.

Lemma emit_rule s ev (Q : unit → Store → Prop) : Q tt s → triple' s (emit e ev) Q.
Proof.
  intros HQ. unfold emit. destruct (eng_events e); [|by apply triple_ret].
  apply triple_bind, triple_pure; [done..|]. intros digest _.
  apply triple_bind, triple_pure; [done..|]. intros [err|] _; [|by apply triple_ret].
  by apply triple_report.
Qed.

(** A loop that changes one step of the run and stores it. *)
Lemma put_step_rule s id f r (Q : Run → Store → Prop) :
  Q (upd_step id f r) (put_step id f r s) →
  triple' s (match update_first id f (run_Steps r) with
             | Some (st', steps') =>
                 _ ← store (OpUpdateStepState (run_Namespace r) (run_ID r) st');
                 Ret (set_run_Steps steps' r)
             | None => Ret r
             end) Q.
Proof.
  unfold upd_step, put_step. intros HQ.
  destruct (update_first id f (run_Steps r)) as [[st' steps']|]; [|by apply triple_ret].
  apply triple_bind, triple_op. intros o. by apply triple_ret.
Qed.

Lemma enqueue_loop_rule now ss r s (Q : result error Run → Store → Prop) :
  Q (Ok (enq_all now ss r s).1) (enq_all now ss r s).2 →
  triple' s (enqueue_loop e now r ss) Q.
Proof.
  revert r s. induction ss as [|st ss IH]; intros r s HQ; simpl; [by apply triple_ret|].
  unfold enqueue_step. apply triple_bind, triple_bind, triple_op. intros o. simpl.
  apply triple_bind, put_step_rule, triple_bind, emit_rule, triple_ret. by apply IH.
Qed.

Lemma enqueueReadySteps_rule d r s (Q : result error Run → Store → Prop) :
  (∀ now, tm now → let rs := enq_all now (ReadySteps (Some d) (Some r)) r s in Q (Ok rs.1) rs.2) →
  triple' s (enqueueReadySteps e d r) Q.
Proof.
  intros HQ. apply triple_bind, triple_now. intros now Hnow. by apply enqueue_loop_rule, HQ.
Qed.

Lemma finishRun_rule r state msg s (Q : option error → Store → Prop) :
  (∀ now, tm now → Q None (finish_store (run_Namespace r) (run_ID r) state msg now s)) →
  triple' s (finishRun e r state msg) Q.
Proof.
  intros HQ. apply triple_bind, triple_now. intros now Hnow. specialize (HQ now Hnow).
  unfold finish_store in HQ. apply triple_bind, triple_op. intros o. apply triple_bind.
  case_bool_decide.
  - by apply triple_ret, triple_bind, emit_rule, triple_ret.
  - apply triple_bind, triple_op. intros o'.
    by apply triple_ret, triple_bind, emit_rule, triple_ret.
Qed.

Lemma failStep_rule r l err s (Q : option error → Store → Prop) :
  (∀ msg now, msg ≠ "" → tm now →
     Q None (fail_store (ql_Item l) (run_Namespace r) (run_ID r) msg now s)) →
  triple' s (failStep e sprintf r l err) Q.
Proof.
  intros HQ. apply triple_bind, triple_now. intros t _. cbv zeta.
  set (msg := if bool_decide (Error sprintf err = "") then _ else _).
  assert (msg ≠ "") as Hmsg by (subst msg; by case_bool_decide).
  apply triple_bind, triple_op. intros o. apply triple_bind, emit_rule, triple_bind, triple_op.
  intros o'. apply finishRun_rule. intros now Hnow. by apply HQ.
Qed.

Lemma markStepRunning_rule r i t s (Q : Run → Store → Prop) :
  Q (upd_step (qi_StepID i) (running t) r) (put_step (qi_StepID i) (running t) r s) →
  triple' s (markStepRunning r i t) Q.
Proof. apply put_step_rule. Qed.

Lemma completeStep_rule r d l output s (Q : option error → Store → Prop) :
  let i := ql_Item l in
  let c := CompleteStep (qi_Namespace i) (qi_RunID i) (qi_StepID i) (ql_Token l) s in
  (∀ err, c.1 = Err err → Q (Some err) c.2) →
  (∀ now now', tm now → tm now' → c.1 = Ok tt →
     Q None (advance_store d now' (upd_step (qi_StepID i) (succeeded now output) r)
               (put_step (qi_StepID i) (succeeded now output) r c.2))) →
  triple' s (completeStep e r d l output) Q.
Proof.
  intros i c Herr Hok. apply triple_bind, triple_now. intros now Hnow.
  apply triple_bind, triple_op. intros o.
  change (store_exec o _ s) with c. destruct c as [[[]|err] s1]; simpl in *.
  2: { by apply triple_ret, Herr. }
  apply triple_bind, put_step_rule, triple_bind, emit_rule.
  unfold advance_store in Hok.
  change (λ st, set_sr_Output output _) with (succeeded now output).
  destruct (allDone (run_Steps (upd_step _ _ r))) eqn:E.
  - apply finishRun_rule. intros now' Hnow'. specialize (Hok now now' Hnow Hnow' eq_refl).
    subst i. by rewrite E in Hok.
  - apply triple_bind, enqueueReadySteps_rule. intros now' Hnow'.
    apply triple_ret. specialize (Hok now now' Hnow Hnow' eq_refl). subst i. by rewrite E in Hok.
Qed.

Lemma executeLease_rule l r d sd s (Q : option error → Store → Prop) :
  let i := ql_Item l in
  GetRun (qi_Namespace i) (qi_RunID i) s = Ok r →
  GetDefinition (run_Workflow r) s = Ok d →
  findStepDef d (qi_StepID i) = Some sd →
  (∀ err, Resolve (sd_Handler sd) (eng_registry e) = Err err →
     triple' s (failStep e sprintf r l err) Q) →
  (∀ h t, tm t → Resolve (sd_Handler sd) (eng_registry e) = Ok h →
     let r' := upd_step (qi_StepID i) (running t) r in
     let s' := put_step (qi_StepID i) (running t) r s in
     let input := MkHandle (run_ID r') (qi_StepID i) "" (ri_Payload (run_Input r'))
                    (sd_Timeout sd) in
     exec_ok input s' ∧
     ∀ n, match hd_Execute h input n with
          | Err err => triple' s' (failStep e sprintf r' l err) Q
          | Ok res =>
              match res_Error res with
              | Some err => triple' s' (failStep e sprintf r' l err) Q
              | None => triple' s' (completeStep e r' d l (res_Output res)) Q
              end
          end) →
  triple' s (executeLease e sprintf l) Q.
Proof.
  intros i Hr Hd Hsd Hfail Hok. unfold executeLease. fold i.
  apply triple_bind, triple_op. intros o. cbn. rewrite Hr.
  apply triple_bind, triple_op. intros o'. cbn. rewrite Hd, Hsd.
  destruct (Resolve (sd_Handler sd) (eng_registry e)) as [h|err]; [|by apply Hfail].
  apply triple_bind, triple_now. intros t Ht. apply triple_bind, markStepRunning_rule.
  apply triple_bind, triple_now. intros t' _. apply triple_bind, emit_rule.
  destruct (Hok h t Ht eq_refl) as [Hg Hn]. apply triple_bind, triple_exec; [done|].
  intros n. specialize (Hn n). cbn in Hn. by repeat case_match.
Qed.
End rules.
