(* ===== verification/EngineSafety.v ===== *)
(** Safety of the engine's sequential executions: no handler is executed before the
    dependencies of its step are done, no step that is done is executed again, and the engine
    does not panic. *)
From S2P Require Import Prelude Errors Types Validation Workflow MemStore Persistence.
From S2P Require Import MemStoreFacts Plugin Engine EngineLogic EngineSpec.

(** * The transformers keep the invariant *)

Lemma item_ok_same s i j : same_item i j → item_ok s i → item_ok s j.
Proof. unfold item_ok. by intros (-> & -> & ->). Qed.

Lemma Inv_weaken s L L' : (∀ i, i ∈ L' → i ∈ L) → Inv s L → Inv s L'.
Proof.
  intros HL [Hw Hd Hr Hi]. split; try done. intros i [?|?]; apply Hi; [left|right]; eauto.
Qed.

(** A change of the queue alone. *)
Lemma queue_inv s L L' q :
  Inv s L → map_Forall item_at q →
  (∀ i, outstanding (set_queue q s) L' i → item_ok s i) → Inv (set_queue q s) L'.
Proof. intros [[] Hd Hr Hi] Hq Ho. by split; [split| | |]. Qed.

Lemma Enqueue_inv s L i : Inv s L → item_ok s i → Inv (Enqueue i s).2 L.
Proof.
  intros HI Hi. apply (queue_inv s L); [done| |].
  - apply map_Forall_insert_2; [done|]. apply (wf_queue _ (inv_wf _ _ HI)).
  - intros j [Hj|[k Hk]]; [by apply (inv_items _ _ HI); left|]. simpl in Hk.
    apply lookup_insert_Some in Hk as [[_ <-]|[_ Hk]]; [done|].
    apply (inv_items _ _ HI). right. eauto.
Qed.

Lemma CompleteStep_inv s L ns id st tok : Inv s L → Inv (CompleteStep ns id st tok s).2 L.
Proof.
  intros HI. unfold CompleteStep. case_match; simpl; [|done]. apply (queue_inv s L); [done| |].
  - apply map_Forall_delete, (wf_queue _ (inv_wf _ _ HI)).
  - intros j [Hj|[k Hk]]; apply (inv_items _ _ HI); [by left|]. right. exists k.
    simpl in Hk. by apply lookup_delete_Some in Hk as [_ ?].
Qed.

Lemma run_update_inv s L ns id r f :
  Inv s L → keeps_steps f → st_runs s !! runKey ns id = Some r →
  Inv (set_runs (<[runKey ns id := f r]> (st_runs s)) s) L.
Proof.
  intros HI Hf Hr. pose proof (wf_runs _ (inv_wf _ _ HI) _ _ Hr) as Hk. unfold run_at in Hk.
  destruct (Hf r) as (_ & Hns & Hid & _).
  replace (set_runs _ s) with (put_run (f r) s) by (unfold put_run; by rewrite Hns, Hid, <- Hk).
  apply (run_change_inv s L r); [done| |by apply keeps_steps_change].
  split_and!; [by rewrite <- Hk|done..].
Qed.

Lemma UpdateRunState_inv s L ns id to at_ : Inv s L → Inv (UpdateRunState ns id to at_ s).2 L.
Proof.
  intros HI. unfold UpdateRunState. case_match eqn:E; simpl; [|done].
  eapply run_update_inv; [done|apply apply_run_state_keeps|done].
Qed.

Lemma UpdateRunError_inv s L ns id msg : Inv s L → Inv (UpdateRunError ns id msg s).2 L.
Proof.
  intros HI. unfold UpdateRunError. case_match eqn:E; simpl; [|done].
  eapply run_update_inv; [done|apply set_run_Error_keeps|done].
Qed.

Lemma finish_store_inv s L ns id state msg now :
  Inv s L → Inv (finish_store ns id state msg now s) L.
Proof.
  intros HI. unfold finish_store. case_bool_decide;
    [|apply UpdateRunError_inv]; by apply UpdateRunState_inv.
Qed.

(** * A step of a run changed *)

Abbreviation current s r := (stored_run s (run_Namespace r) (run_ID r) r).

Definition no_item (s : Store) (L : list QueueItem) (r : Run) (id : string) : Prop :=
  ∀ i, outstanding s L i → qi_Namespace i = run_Namespace r → qi_RunID i = run_ID r →
    qi_StepID i ≠ id.

Lemma UpdateStepState_put s r st' steps' :
  current s r → replace_step st' (run_Steps r) = Some steps' →
  (UpdateStepState (run_Namespace r) (run_ID r) st' s).2 = put_run (set_run_Steps steps' r) s.
Proof. intros (Hr & _) Hst. unfold UpdateStepState. by rewrite Hr, Hst. Qed.

(** The step [id] is a step of [r] that may be changed. *)
Record changeable (s : Store) (r : Run) (d : WorkflowDefinition) (id : string) (st : StepRun) :
    Prop := {
  ch_current : current s r;
  ch_def : def_of s r d;
  ch_elem : st ∈ run_Steps r;
  ch_id : sr_StepID st = id;
  ch_open : ¬ step_done st;
  ch_deps : deps_done d r id
}.

(** What the change of a step gives: the copy is the stored run, and the step is changed. *)
Record changed (s' : Store) (r r' : Run) (d : WorkflowDefinition) (id : string)
    (f : StepRun → StepRun) (st : StepRun) : Prop := {
  cd_current : current s' r';
  cd_def : def_of s' r' d;
  cd_steps : ∀ x, x ∈ run_Steps r' ↔ x = f st ∨ x ∈ run_Steps r ∧ sr_StepID x ≠ id;
  cd_ns : run_Namespace r' = run_Namespace r;
  cd_runid : run_ID r' = run_ID r
}.

Lemma update_first_spec id f steps st :
  NoDup (sr_StepID <$> steps) → st ∈ steps → sr_StepID st = id →
  ∃ steps', update_first id f steps = Some (f st, steps').
Proof.
  intros Hnd Hin Hid. induction steps as [|a steps IH]; [by apply not_elem_of_nil in Hin|].
  apply NoDup_cons in Hnd as [Ha Hnd]. simpl. case_bool_decide as E.
  - assert (st = a) as ->; [|eauto]. apply elem_of_cons in Hin as [?|Hin]; [done|].
    destruct Ha. rewrite E, <- Hid. by apply list_elem_of_fmap_2.
  - apply elem_of_cons in Hin as [->|Hin]; [done|]. destruct (IH Hnd Hin) as [l ->]. simpl. eauto.
Qed.

Lemma current_NoDup s L r : Inv s L → current s r → NoDup (sr_StepID <$> run_Steps r).
Proof.
  intros HI (Hr & _). destruct (inv_run_ok _ _ _ _ _ HI Hr) as (_ & _ & d & Hd & Hof & _).
  by eapply def_of_NoDup.
Qed.

Lemma put_step_inv s L r d id f st :
  Inv s L → changeable s r d id st → (∀ x, sr_StepID (f x) = sr_StepID x) →
  (step_done (f st) → no_item s L r id) →
  Inv (put_step id f r s) L ∧ changed (put_step id f r s) r (upd_step id f r) d id f st.
Proof.
  intros HI [Hcur Hd Hin Hid Hnd Hdeps] Hf Hfree.
  pose proof (current_NoDup _ _ _ HI Hcur) as Hdup.
  destruct (update_first_spec id f _ _ Hdup Hin Hid) as [steps' Hu].
  destruct (update_first_replace _ _ _ _ _ Hf Hu) as [Hid' Hrep].
  unfold put_step, upd_step. rewrite Hu, (UpdateStepState_put _ _ _ _ Hcur Hrep). split.
  - apply (run_change_inv s L r); [done..|].
    apply (replace_step_change s L r d st (f st)); try done; [by rewrite Hid'|].
    rewrite Hid'. exact Hfree.
  - split; try done.
    + split_and!; [|done..]. simpl. apply lookup_insert_eq.
    + intros x. simpl. rewrite (elem_of_replace_step _ _ _ _ Hdup Hrep), Hid'. done.
Qed.

Lemma changed_deps s' r r' d id f st id' :
  NoDup (sr_StepID <$> run_Steps r) → st ∈ run_Steps r → sr_StepID st = id → ¬ step_done st →
  changed s' r r' d id f st → deps_done d r id' → deps_done d r' id'.
Proof.
  intros Hdup Hin Hid Hnd Hc. apply deps_done_mono. intros x Hx Hdone. exists x.
  split_and!; [|done..]. apply (cd_steps _ _ _ _ _ _ _ Hc). right. split; [done|].
  intros E. rewrite <- Hid in E.
  by rewrite (NoDup_fmap_elem_inj sr_StepID _ x st Hdup Hx Hin E) in Hdone.
Qed.

(** * Enqueueing *)

Lemma changeable_item_ok s r d st now :
  changeable s r d (sr_StepID st) st → item_ok s (queueItemFor r st now now).
Proof. intros []. by exists r, d, st. Qed.

Lemma enq_store_inv s L r d now st :
  Inv s L → changeable s r d (sr_StepID st) st →
  Inv (enq_store now (r, s) st).2 L ∧
  changed (enq_store now (r, s) st).2 r (enq_store now (r, s) st).1 d (sr_StepID st)
    (set_sr_State StepQueued) st.
Proof.
  intros HI Hc. apply put_step_inv; [|by destruct Hc|done|by intros [?|?]].
  apply Enqueue_inv; [done|]. by eapply changeable_item_ok.
Qed.

Lemma enq_all_inv L d now ss r s :
  Inv s L → NoDup (sr_StepID <$> ss) → (∀ st, st ∈ ss → changeable s r d (sr_StepID st) st) →
  Inv (enq_all now ss r s).2 L.
Proof.
  revert r s. induction ss as [|st ss IH]; intros r s HI Hnd Hss; [done|].
  apply NoDup_cons in Hnd as [Hst Hnd]. pose proof (Hss st (list_elem_of_here _ _)) as Hc.
  destruct (enq_store_inv s L r d now st HI Hc) as [HI' Hch]. unfold enq_all. cbn [foldl].
  destruct (enq_store now (r, s) st) as [r' s']; cbn [fst snd] in *.
  apply IH; [done..|]. intros x Hx.
  destruct (Hss x (list_elem_of_further _ _ _ Hx)) as [Hcur Hd Hin _ Hopen Hdeps].
  pose proof Hch as [Hcur' Hd' Hsteps _ _]. split; try done.
  - apply Hsteps. right. split; [done|]. intros Heq. apply Hst. rewrite <- Heq.
    by apply list_elem_of_fmap_2.
  - destruct Hc as [_ _ Hin' _ Hopen' _].
    by apply (changed_deps s' r r' d (sr_StepID st) (set_sr_State StepQueued) st);
      [by apply (current_NoDup s L)|..].
Qed.

Lemma ReadySteps_changeable s L r d st :
  Inv s L → current s r → def_of s r d → st ∈ ReadySteps (Some d) (Some r) →
  changeable s r d (sr_StepID st) st.
Proof.
  intros HI Hcur Hd Hst. pose proof (current_NoDup _ _ _ HI Hcur) as Hdup.
  pose proof (proj1 (def_of_lookup _ _ _) Hd) as Hd'.
  apply elem_of_ReadySteps in Hst as (Hin & Hp & Hdeps);
    [|exact (proj1 (inv_defs _ _ HI _ _ Hd'))|done].
  split; try done. intros [E|E]; by rewrite Hp in E.
Qed.

Lemma NoDup_ReadySteps d r :
  NoDup (sr_StepID <$> run_Steps r) → NoDup (sr_StepID <$> ReadySteps (Some d) (Some r)).
Proof. intros H. eapply sublist_NoDup; [exact H|]. apply fmap_sublist, sublist_filter. Qed.

Lemma advance_store_inv s L r d now :
  Inv s L → current s r → def_of s r d → Inv (advance_store d now r s) L.
Proof.
  intros HI Hcur Hd. unfold advance_store. case_match; [by apply finish_store_inv|].
  eapply enq_all_inv; [done|by eapply NoDup_ReadySteps, current_NoDup|].
  intros st Hst. by eapply ReadySteps_changeable.
Qed.

(** * Leases *)

(** Leases for different items. *)
Definition distinct (i : QueueItem) (L : list QueueItem) : Prop :=
  ∀ j, j ∈ L → ¬ same_item i j.

Lemma item_ok_changeable s L i :
  Inv s L → item_ok s i →
  ∃ r d st, GetRun (qi_Namespace i) (qi_RunID i) s = Ok r ∧
    run_Namespace r = qi_Namespace i ∧ run_ID r = qi_RunID i ∧
    changeable s r d (qi_StepID i) st.
Proof.
  intros HI (r & d & st & (Hr & Hns & Hid) & Hd & Hin & Hst & Hopen & Hdeps).
  exists r, d, st. split_and!; [by unfold GetRun; rewrite Hr, cloneRun_id|done..|].
  split; try done. split_and!; [by rewrite Hns, Hid|done..].
Qed.

Lemma findStepDef_changeable s L r d id st :
  Inv s L → changeable s r d id st → ∃ sd, findStepDef d id = Some sd.
Proof.
  intros HI [[Hr _] Hd Hin Hid _ _].
  destruct (inv_run_ok _ _ _ _ _ HI Hr) as (_ & _ & d' & Hd' & Hof & _).
  assert (d' = d) as -> by (unfold def_of in *; congruence).
  assert (id ∈ sd_ID <$> wd_Steps d) as Hel.
  { rewrite <- Hof, <- Hid. by apply list_elem_of_fmap_2. }
  apply list_elem_of_fmap in Hel as (sd & -> & Hsd). unfold findStepDef.
  destruct (list_find_elem_of (λ x, sd_ID x = sd_ID sd) _ _ Hsd eq_refl) as [[n x] ->].
  simpl. eauto.
Qed.

(** A step changed to a state that is not done may be changed again. *)
Lemma changed_changeable s s' L r r' d id f st :
  Inv s L → changeable s r d id st → changed s' r r' d id f st →
  sr_StepID (f st) = id → ¬ step_done (f st) → changeable s' r' d id (f st).
Proof.
  intros HI [Hcur Hd Hin Hid Hopen Hdeps] Hch Hfid Hfopen.
  pose proof Hch as [Hcur' Hd' Hsteps _ _]. split; try done; [by apply Hsteps; left|].
  by apply (changed_deps s' r r' d id f st); [by apply (current_NoDup s L)|..].
Qed.

(** The item of a completed step is gone from the queue. *)
Lemma CompleteStep_no_item s L i r tok :
  Inv s (i :: L) → distinct i L → run_Namespace r = qi_Namespace i → run_ID r = qi_RunID i →
  let c := CompleteStep (qi_Namespace i) (qi_RunID i) (qi_StepID i) tok s in
  c.1 = Ok () → no_item c.2 L r (qi_StepID i).
Proof.
  intros HI Hdist Hns Hid c. subst c. unfold CompleteStep. case_match; simpl; [|done].
  intros _ j [Hj|[k Hk]] Hjn Hji Hjs.
  - apply (Hdist j Hj). split_and!; congruence.
  - simpl in Hk. apply lookup_delete_Some in Hk as [Hne Hk]. apply Hne.
    rewrite (wf_queue _ (inv_wf _ _ HI) _ _ Hk). congruence.
Qed.

Lemma CompleteStep_keeps_runs s ns id st tok :
  st_runs (CompleteStep ns id st tok s).2 = st_runs s ∧
  st_definitions (CompleteStep ns id st tok s).2 = st_definitions s.
Proof. unfold CompleteStep. by case_match. Qed.

Lemma changeable_runs s s' r d id st :
  st_runs s' = st_runs s → st_definitions s' = st_definitions s →
  changeable s r d id st → changeable s' r d id st.
Proof.
  intros Hr Hd [[H1 H2] H3 H4 H5 H6 H7]. split; try done.
  - split; [by rewrite Hr|done].
  - apply def_of_lookup. rewrite Hd. by apply def_of_lookup.
Qed.

Definition fail_step (attempt : Z) (msg : string) (st : StepRun) : StepRun :=
  MkStepRun (sr_StepID st) StepFailed attempt None None None msg "" None.

Lemma fail_store_inv s L i r d st ns id msg now :
  Inv s L → changeable s r d (qi_StepID i) st →
  run_Namespace r = qi_Namespace i → run_ID r = qi_RunID i →
  Inv (fail_store i ns id msg now s) L.
Proof.
  intros HI Hc Hns Hid. apply finish_store_inv, CompleteStep_inv.
  pose proof (current_NoDup _ _ _ HI (ch_current _ _ _ _ _ Hc)) as Hdup.
  destruct (put_step_inv s L r d (qi_StepID i) (fail_step (qi_Attempt i) msg) st) as [HI' _];
    [done..|by intros [?|?]|].
  destruct Hc as [_ _ Hin Hst _ _]. unfold put_step in HI'.
  destruct (update_first_spec _ (fail_step (qi_Attempt i) msg) _ _ Hdup Hin Hst) as [l E].
  rewrite E, Hns, Hid in HI'. unfold fail_step in HI'. by rewrite Hst in HI'.
Qed.

(** * The engine's operations *)

(** When a handler may be executed: its step belongs to a stored run, is the one marked
    running, and every dependency of it is done. *)
Definition may_execute (h : Handle) (s : Store) : Prop :=
  ∃ ns r d st, stored_run s ns (h_RunID h) r ∧ def_of s r d ∧ st ∈ run_Steps r ∧
    sr_StepID st = h_StepID h ∧ sr_State st = StepRunning ∧ deps_done d r (h_StepID h).

Section safety.
Context (en : env) (e : Engine) (sprintf : string → list string → string).

Abbreviation safe := (triple en (exec_guard may_execute) (λ _, True)).

Lemma failStep_safe s L l r d st err :
  Inv s L → changeable s r d (qi_StepID (ql_Item l)) st →
  run_Namespace r = qi_Namespace (ql_Item l) → run_ID r = qi_RunID (ql_Item l) →
  safe s (failStep e sprintf r l err) (λ _ s', Inv s' L).
Proof. intros HI Hc Hns Hid. apply failStep_rule. intros. by eapply fail_store_inv. Qed.

Lemma completeStep_safe s L l r d st output :
  Inv s (ql_Item l :: L) → distinct (ql_Item l) L →
  changeable s r d (qi_StepID (ql_Item l)) st →
  run_Namespace r = qi_Namespace (ql_Item l) → run_ID r = qi_RunID (ql_Item l) →
  safe s (completeStep e r d l output) (λ _ s', Inv s' L).
Proof.
  intros HI Hdist Hc Hns Hid. set (i := ql_Item l) in *.
  assert (Inv s L) as HI' by (eapply Inv_weaken; [|exact HI]; set_solver).
  apply completeStep_rule.
  - intros err _. by apply CompleteStep_inv.
  - intros now now' _ _ Hok. fold i.
    pose proof (CompleteStep_no_item s L i r (ql_Token l) HI Hdist Hns Hid Hok) as Hfree.
    pose proof (CompleteStep_keeps_runs s (qi_Namespace i) (qi_RunID i) (qi_StepID i)
                  (ql_Token l)) as [Hr Hd].
    destruct (put_step_inv _ L r d (qi_StepID i) (succeeded now output) st
                (CompleteStep_inv _ _ (qi_Namespace i) (qi_RunID i) (qi_StepID i)
                   (ql_Token l) HI')
                (changeable_runs _ _ _ _ _ _ Hr Hd Hc)) as [HI'' [Hcur' Hd' _ _ _]]; [done..|].
    by apply advance_store_inv.
Qed.

Lemma executeLease_safe s L l :
  Inv s (ql_Item l :: L) → distinct (ql_Item l) L →
  safe s (executeLease e sprintf l) (λ _ s', Inv s' L).
Proof.
  intros HI Hdist. assert (Inv s L) as HI' by (eapply Inv_weaken; [|exact HI]; set_solver).
  assert (item_ok s (ql_Item l)) as Hi by (apply (inv_items _ _ HI); left; set_solver).
  destruct (item_ok_changeable _ _ _ HI Hi) as (r & d & st & Hget & Hns & Hid & Hc).
  destruct (findStepDef_changeable _ _ _ _ _ _ HI Hc) as [sd Hsd].
  eapply executeLease_rule; [done|exact (ch_def _ _ _ _ _ Hc)|done| |].
  { intros err _. by eapply failStep_safe. }
  intros h t _ _. cbv zeta.
  destruct (put_step_inv s (ql_Item l :: L) r d (qi_StepID (ql_Item l)) (running t) st)
    as [HI2 Hch]; [done..|by intros [?|?]|].
  assert (changeable (put_step (qi_StepID (ql_Item l)) (running t) r s)
            (upd_step (qi_StepID (ql_Item l)) (running t) r) d (qi_StepID (ql_Item l))
            (running t st)) as Hc2.
  { by apply (changed_changeable s _ (ql_Item l :: L) r); [..|apply Hc|intros [?|?]]. }
  assert (Inv (put_step (qi_StepID (ql_Item l)) (running t) r s) L) as HI2'
    by (eapply Inv_weaken; [|exact HI2]; set_solver).
  pose proof Hch as [_ _ _ Hns' Hid']. rewrite Hns in Hns'. rewrite Hid in Hid'. split.
  - destruct Hc2 as [Hcur Hd Hin Hst _ Hdeps].
    eexists _, _, d, (running t st). split_and!; [exact Hcur|done..].
  - intros n. repeat case_match;
      [by eapply failStep_safe|by eapply completeStep_safe|by eapply failStep_safe].
Qed.
End safety.

(** * Dequeueing *)

Definition item_key (i : QueueItem) : string :=
  queueKey (qi_Namespace i) (qi_RunID i) (qi_StepID i).

Lemma NoDup_keys_distinct i L : NoDup (item_key <$> (i :: L)) → distinct i L.
Proof.
  intros [Hi _]%NoDup_cons j Hj (E1 & E2 & E3). apply Hi. apply list_elem_of_fmap.
  exists j. split; [|done]. unfold item_key. by rewrite E1, E2, E3.
Qed.

Lemma lease_of_keys now toks n p :
  Forall (λ ki, item_at ki.1 ki.2) p →
  item_key <$> (ql_Item <$> lease_of now toks n p) = p.*1.
Proof.
  intros Hp. revert n. induction Hp as [|[k i] p Hk Hp IH]; intros n; [done|].
  rewrite lease_of_cons. csimpl. by rewrite IH, Hk.
Qed.

Lemma DequeueAny_inv sh toks limit now s ls s' :
  Inv s [] → DequeueAny sh toks limit now s = (Ok ls, s') →
  Inv s' (ql_Item <$> ls) ∧ NoDup (item_key <$> (ql_Item <$> ls)).
Proof.
  unfold DequeueAny. intros HI E.
  assert (∀ k i, st_queue s !! k = Some i → item_ok s (lease_item now i)) as Hok.
  { intros k i Hi. apply (item_ok_same s i); [done|]. apply (inv_items _ _ HI). right. eauto. }
  pose proof (λ l, dequeue_with_lease _ _ _ _ _ _ _ _ l E) as Hl.
  pose proof (λ k, dequeue_with_queue _ _ _ _ _ _ _ _ k E) as Hq.
  pose proof (dequeue_with_wf (λ _, true) sh toks limit now s (inv_wf _ _ HI)) as Hwf.
  rewrite E in Hwf. rewrite dequeue_with_eq in E. injection E as <- <-. split.
  - apply (queue_inv s []); [done|exact (wf_queue _ Hwf)|]. intros i [Hi|[k Hk]].
    + apply list_elem_of_fmap in Hi as (l & -> & Hin).
      destruct (Hl l Hin) as (k & item & Hk & _ & -> & _). eauto.
    + destruct (Hq k) as [Heq|(item & Hk' & _ & Heq)]; rewrite Heq in Hk.
      * apply (inv_items _ _ HI). right. eauto.
      * simplify_eq. eauto.
  - rewrite lease_of_keys; [apply picked_NoDup, NoDup_range_map_fst|].
    apply Forall_forall. intros [k i] Hin. apply picked_sub in Hin as [Hin _].
    apply elem_of_range_map in Hin. by apply (wf_queue _ (inv_wf _ _ HI)).
Qed.

(** * Submission *)

Lemma hex_digit_no_slash d : (d < 16)%N → hex_digit d ≠ "/"%char.
Proof.
  intros Hd. assert (d ∈ (N.of_nat <$> seq 0 16)) as Hin.
  { apply list_elem_of_fmap. exists (N.to_nat d). split; [lia|]. apply elem_of_seq. lia. }
  assert (Forall (λ d, hex_digit d ≠ "/"%char) (N.of_nat <$> seq 0 16)) as Hall
    by (decide_closed).
  by apply (proj1 (Forall_forall _ _) Hall).
Qed.

Lemma hex_digits_no_slash fuel n acc :
  no_char "/"%char acc → no_char "/"%char (hex_digits fuel n acc).
Proof.
  revert n acc. induction fuel as [|fuel IH]; intros n acc Hacc; simpl; [done|].
  assert (no_char "/"%char (String (hex_digit (n mod 16)) acc)) as H.
  { apply no_char_cons. split; [|done]. intros E. symmetry in E. revert E.
    apply hex_digit_no_slash. by apply N.mod_lt. }
  destruct (n <? 16)%N; [done|]. by apply IH.
Qed.

Lemma run_id_no_slash nano : no_char "/"%char (":" +:+ sprintf_x nano).
Proof.
  rewrite string_app_cons, no_char_cons. split; [done|]. rewrite string_app_nil_l.
  unfold sprintf_x. destruct (nano <? 0)%Z.
  - rewrite string_app_cons, no_char_cons. split; [done|]. rewrite string_app_nil_l.
    by apply hex_digits_no_slash.
  - by apply hex_digits_no_slash.
Qed.

(** A new run whose definition is stored is added to the store. *)
Lemma CreateRun_inv s L d input now nano r :
  Inv s L → GetDefinition (wd_ID d) s = Ok d → NewRun (Some d) input now nano = Ok r →
  let c := CreateRun r s in
  Inv c.2 L ∧ (c.1 = Ok () → current c.2 r ∧ def_of c.2 r d).
Proof.
  intros HI Hd Hr c. subst c. pose proof (NewRun_run_of _ _ _ _ _ Hr) as Hof.
  assert (run_Workflow r = wd_ID d ∧ run_Namespace r = wid_Namespace (wd_ID d) ∧
    run_ID r = ":" +:+ sprintf_x nano ∧ run_Steps r = new_step <$> wd_Steps d)
    as (Hw & Hns & Hid & Hst).
  { unfold NewRun in Hr. destruct (wd_Steps d) eqn:E; [done|]. by simplify_eq. }
  unfold CreateRun. rewrite cloneRun_id.
  destruct (st_runs s !! runKey (run_Namespace r) (run_ID r)) eqn:Efree; [done|].
  cbn [fst snd]. fold (put_run r s).
  assert (def_of (put_run r s) r d) as Hdef by (unfold def_of; by rewrite Hw).
  assert (current (put_run r s) r) as Hcur.
  { split_and!; [|done..]. apply lookup_insert_eq. }
  split; [|done]. destruct HI as [Hwf Hdefs Hruns Hitems]. split.
  - destruct Hwf. split; try done. simpl. by apply map_Forall_insert_2.
  - done.
  - apply map_Forall_insert_2; [|done]. split_and!.
    + rewrite Hns. unfold GetDefinition in Hd. case_match eqn:E; [|done]. simplify_eq.
      rewrite cloneDefinition_id in *. exact (proj2 (Hdefs _ _ E)).
    + rewrite Hid. apply run_id_no_slash.
    + exists d. split_and!; [done..|]. intros st Hin Hp. rewrite Hst in Hin.
      apply list_elem_of_fmap in Hin as (sd & -> & _). done.
  - intros i Ho. destruct (Hitems i Ho) as (r0 & d0 & st & (Hl & H1) & H2).
    exists r0, d0, st. split; [|done]. split; [|done]. simpl.
    rewrite lookup_insert_ne; [done|]. intros E. rewrite E in Efree. congruence.
Qed.

(** The transformers read the steps and the name of the engine's copy, and nothing else. *)
Definition same_view (r r' : Run) : Prop :=
  run_Steps r = run_Steps r' ∧ run_Namespace r = run_Namespace r' ∧ run_ID r = run_ID r'.

Lemma enq_all_view now ss r r' s :
  same_view r r' → (enq_all now ss r s).2 = (enq_all now ss r' s).2.
Proof.
  revert r r' s. induction ss as [|st ss IH]; intros r r' s (H1 & H2 & H3); [done|].
  unfold enq_all. cbn [foldl]. unfold enq_store at 2 4, put_step, queueItemFor.
  rewrite H1, H2, H3. apply IH. unfold upd_step. rewrite H1. by repeat case_match.
Qed.

Lemma ReadySteps_view d r r' :
  run_Steps r = run_Steps r' → ReadySteps (Some d) (Some r) = ReadySteps (Some d) (Some r').
Proof. unfold ReadySteps. by intros ->. Qed.

(** * Sequences of requests *)

(** The requests an engine serves, and the registration of a definition. *)
Inductive command :=
| CDefine (d : WorkflowDefinition)
| CSubmit (input : RunInput)
| CProcess
| CCancel (namespace : Namespace) (runID : string).

Definition serve1 (e : Engine) (sprintf : string → list string → string) (c : command) :
    prog unit :=
  match c with
  | CDefine d => _ ← store (OpCreateDefinition d); Ret ()
  | CSubmit input => _ ← Submit e input; Ret ()
  | CProcess => _ ← ProcessLeases e sprintf; Ret ()
  | CCancel ns id => _ ← Cancel e ns id; Ret ()
  end.

Fixpoint serve (e : Engine) (sprintf : string → list string → string) (cs : list command) :
    prog unit :=
  match cs with
  | [] => Ret ()
  | c :: cs' => _ ← serve1 e sprintf c; serve e sprintf cs'
  end.

(** A registered definition has passed validation. *)
Definition command_ok (c : command) : Prop :=
  match c with
  | CDefine d => validated d ∧ ValidateNamespace (wid_Namespace (wd_ID d)) = None
  | _ => True
  end.

#[local] Opaque triple store perform prog_bind.

(** The store method that a call of the interface runs. *)
Ltac op_simpl := cbn [fst snd store_exec memstore memstore_exec].

Section serving.
Context (en : env) (e : Engine) (sprintf : string → list string → string).

Abbreviation safe := (triple en (exec_guard may_execute) (λ _, True)).

Lemma process_loop_safe s ls :
  Inv s (ql_Item <$> ls) → NoDup (item_key <$> (ql_Item <$> ls)) →
  safe s (process_loop e sprintf ls) (λ _ s', Inv s' []).
Proof.
  revert s. induction ls as [|l ls IH]; intros s HI Hnd; simpl; [by apply triple_ret|].
  rewrite fmap_cons in HI, Hnd. pose proof (NoDup_keys_distinct _ _ Hnd) as Hdist.
  rewrite fmap_cons in Hnd. apply NoDup_cons in Hnd as [_ Hnd].
  apply triple_bind. eapply triple_mono; [by apply executeLease_safe|].
  intros [err|] s' HI'; apply triple_bind; [apply triple_report|apply triple_ret]; by apply IH.
Qed.

Lemma ProcessLeases_safe s :
  Inv s [] → safe s (ProcessLeases e sprintf) (λ _ s', Inv s' []).
Proof.
  intros HI. unfold ProcessLeases, dequeueLeases. apply triple_bind, triple_bind, triple_now.
  intros now _. apply triple_op. intros o.
  change (store_exec o _ s) with (DequeueAny (o_shuffle o) (o_tokens o) (eng_maxDequeue e) now s).
  destruct (DequeueAny _ _ _ _ _) as [[ls|err] s'] eqn:E; [|done].
  destruct (DequeueAny_inv _ _ _ _ _ _ _ HI E) as [HI' Hnd]. apply triple_bind.
  eapply triple_mono; [by apply process_loop_safe|]. intros ???. by apply triple_ret.
Qed.

Lemma Cancel_safe s ns id : Inv s [] → safe s (Cancel e ns id) (λ _ s', Inv s' []).
Proof.
  intros HI. apply triple_bind, triple_op. intros o. cbn.
  destruct (GetRun ns id s) as [r|err]; [|by apply triple_ret].
  destruct (IsTerminal (run_State r)); [by apply triple_ret|].
  apply finishRun_rule. intros now _. by apply finish_store_inv.
Qed.

Lemma Submit_safe s input : Inv s [] → safe s (Submit e input) (λ _ s', Inv s' []).
Proof.
  intros HI. apply triple_bind, triple_now. intros now _. apply triple_bind, triple_op. intros o.
  op_simpl. pose proof (GetDefinitionByName_cases (o_shuffle o)
    (wid_Namespace (ri_Workflow input)) (wid_Name (ri_Workflow input)) s (inv_wf _ _ HI)) as Hd.
  destruct (GetDefinitionByName _ _ _ _) as [d|err]; [|by apply triple_ret].
  destruct Hd as [Hd _]. apply triple_bind, triple_pure; [done..|]. intros nano _.
  destruct (NewRun (Some d) _ now nano) as [r|err] eqn:Hr; [|by apply triple_ret].
  destruct (CreateRun_inv s [] d _ _ _ _ HI Hd Hr) as [HI1 Hcur].
  apply triple_bind, triple_op. intros o1. op_simpl.
  destruct (CreateRun r s) as [[[]|err] s1]; [|by apply triple_ret].
  destruct (Hcur eq_refl) as [[Hl _] Hdef]. cbn [fst snd] in *.
  apply triple_bind, triple_op. intros o2. op_simpl.
  pose proof (UpdateRunState_inv _ _ (run_Namespace r) (run_ID r) StateQueued now HI1) as HI2.
  unfold UpdateRunState in HI2 |- *. rewrite Hl in HI2 |- *. cbn [fst snd] in *.
  set (r2 := apply_run_state StateQueued now r) in *. set (s2 := set_runs _ s1) in *.
  destruct (apply_run_state_keeps StateQueued now r) as (Hst & Hns & Hid & Hw).
  fold r2 in Hst, Hns, Hid, Hw.
  assert (current s2 r2) as Hcur2.
  { split_and!; [|done..]. subst s2. simpl. rewrite Hns, Hid. apply lookup_insert_eq. }
  assert (def_of s2 r2 d) as Hdef2 by (unfold def_of in *; by rewrite Hw).
  apply triple_bind, enqueueReadySteps_rule. intros now2 _. cbv zeta.
  apply triple_bind, emit_rule, triple_bind, triple_report, triple_ret.
  rewrite (enq_all_view now2 _ r r2) by done. rewrite (ReadySteps_view d r r2) by done.
  eapply enq_all_inv; [done|by eapply NoDup_ReadySteps, current_NoDup|].
  intros st Hin. by eapply ReadySteps_changeable.
Qed.

Lemma CreateDefinition_inv s d :
  Inv s [] → def_ok d → Inv (CreateDefinition d s).2 [].
Proof.
  intros [Hwf Hdefs Hruns Hitems] Hd. unfold CreateDefinition. rewrite cloneDefinition_id.
  destruct (st_definitions s !! _) eqn:Efree; [done|]. cbn [snd].
  set (s' := set_definitions _ s).
  assert (∀ r d0, def_of s r d0 → def_of s' r d0) as Hmono.
  { intros r d0 H%def_of_lookup. apply def_of_lookup. subst s'. simpl.
    rewrite lookup_insert_ne; [done|]. intros E. rewrite E in Efree. congruence. }
  split.
  - destruct Hwf. split; try done. simpl. by apply map_Forall_insert_2.
  - by apply map_Forall_insert_2.
  - intros k r Hr. destruct (Hruns k r Hr) as (H1 & H2 & d0 & H3 & H4).
    split_and!; [done..|]. exists d0. eauto.
  - intros i Ho. destruct (Hitems i Ho) as (r & d0 & st & H1 & H2 & H3). exists r, d0, st. eauto.
Qed.

Lemma serve1_safe s c : Inv s [] → command_ok c → safe s (serve1 e sprintf c) (λ _ s', Inv s' []).
Proof.
  intros HI Hc. destruct c as [d|input| |ns id]; apply triple_bind.
  - destruct Hc as [Hv Hns]. apply triple_op. intros o. apply triple_ret, CreateDefinition_inv;
      [done|]. split; [by apply validated_NoDup|].
    apply name_no_slash. unfold ValidateNamespace in Hns. by case_match.
  - eapply triple_mono; [by apply Submit_safe|]. intros. by apply triple_ret.
  - eapply triple_mono; [by apply ProcessLeases_safe|]. intros. by apply triple_ret.
  - eapply triple_mono; [by apply Cancel_safe|]. intros. by apply triple_ret.
Qed.

Lemma serve_safe s cs :
  Inv s [] → Forall command_ok cs → safe s (serve e sprintf cs) (λ _ s', Inv s' []).
Proof.
  intros HI Hcs. revert s HI. induction Hcs as [|c cs Hc Hcs IH]; intros s HI;
    [by apply triple_ret|].
  apply triple_bind. eapply triple_mono; [by apply serve1_safe|]. eauto.
Qed.
End serving.

#[local] Transparent triple store perform prog_bind.

Lemma Inv_New : Inv New [].
Proof.
  split; [apply New_wf|apply map_Forall_empty|apply map_Forall_empty|].
  intros i [?%elem_of_nil|[k Hk]]; [done|]. simpl in Hk. by rewrite lookup_empty in Hk.
Qed.

(** C1: Dependencies are respected.  An engine that starts on an empty store and serves any
    sequence of registrations of validated definitions, submissions, rounds of lease processing
    and cancellations, one after the other, with any handlers (that may fail), clocks, iteration
    orders and lease tokens: does not panic; executes a handler only for a step that is marked
    running in a stored run and all of whose dependencies have succeeded or been skipped at that
    moment; and leaves a store where every step that is no longer pending has its dependencies
    done. *)
Theorem engine_respects_dependencies en e sprintf cs (Hcs : Forall command_ok cs) :
  let w := MkWorld New [] 0 in
  wp en (exec_guard may_execute) (λ _, True) (serve e sprintf cs) (λ _ _, True) w ∧
  ∃ w', run en (serve e sprintf cs) w = (Some tt, w') ∧
    map_Forall (λ _ r, ∃ d, GetDefinition (run_Workflow r) (w_store w') = Ok d ∧
      ∀ st, st ∈ run_Steps r → sr_State st ≠ StepPending → deps_done d r (sr_StepID st))
      (st_runs (w_store w')).
Proof.
  intros w. pose proof (serve_safe en e sprintf New cs Inv_New Hcs w eq_refl) as H.
  split; [by eapply wp_mono|]. apply wp_run in H as ([] & w' & -> & HI); [|done]. exists w'.
  split; [done|]. intros k r Hr. destruct (inv_runs _ _ HI k r Hr) as (_ & _ & d & Hd & _ & Hs).
  eauto.
Qed.
