(* ===== verification/EngineProgress.v ===== *)
(** Progress of the engine's sequential executions: when every handler succeeds and the clock
    moves forward, every submitted run succeeds after as many rounds of lease processing as
    there are steps that are not done. *)
From S2P Require Import Prelude Errors Types Validation Workflow MemStore Persistence.
From S2P Require Import MemStoreFacts Plugin Engine EngineLogic EngineSpec EngineSafety.

(** * Open steps *)

Definition open_count (steps : list StepRun) : nat := length (filter (λ st, ¬ step_done st) steps).

(** The steps of all stored runs that are not done. *)
Definition open_steps (s : Store) : nat :=
  sum_list_with (λ kr, open_count (run_Steps kr.2)) (map_to_list (st_runs s)).

Lemma open_count_zero steps : open_count steps = 0 ↔ Forall step_done steps.
Proof.
  unfold open_count. induction steps as [|a l IH]; [by split|]. rewrite Forall_cons.
  destruct (decide (step_done a)) as [Ha|Ha].
  - rewrite filter_cons_False by tauto. rewrite IH. tauto.
  - rewrite filter_cons_True by done. simpl. split; [done|tauto].
Qed.

Lemma update_first_open id f steps st s' steps' :
  NoDup (sr_StepID <$> steps) → st ∈ steps → sr_StepID st = id → ¬ step_done st →
  update_first id f steps = Some (s', steps') →
  open_count steps = open_count steps' + (if decide (step_done (f st)) then 1 else 0).
Proof.
  intros Hnd Hin Hid Hopen. unfold open_count. revert s' steps' Hnd Hin.
  induction steps as [|a l IH]; intros s' steps' Hnd Hin; simpl; [done|].
  apply NoDup_cons in Hnd as [Ha Hnd]. case_bool_decide as E.
  - assert (a = st) as ->.
    { apply elem_of_cons in Hin as [?|Hin]; [done|]. destruct Ha. rewrite E, <- Hid.
      by apply list_elem_of_fmap_2. }
    intros ?; simplify_eq. rewrite !filter_cons. rewrite (decide_True (P := ¬ _)) by done.
    destruct (decide (step_done (f st))) as [Hf|Hf].
    + rewrite decide_False by tauto. simpl. lia.
    + rewrite decide_True by done. simpl. lia.
  - apply elem_of_cons in Hin as [->|Hin]; [done|].
    destruct (update_first id f l) as [[t l']|] eqn:El; [|done]. intros ?; simplify_eq/=.
    rewrite !filter_cons. specialize (IH _ l' Hnd Hin eq_refl).
    destruct (decide (¬ step_done a)); simpl; lia.
Qed.

Lemma open_steps_put s r r' :
  st_runs s !! runKey (run_Namespace r') (run_ID r') = Some r →
  open_steps (put_run r' s) + open_count (run_Steps r) =
  open_steps s + open_count (run_Steps r').
Proof.
  intros Hr. unfold open_steps, put_run. cbn [st_runs set_runs].
  set (k := runKey _ _) in *.
  assert (map_to_list (st_runs s) ≡ₚ (k, r) :: map_to_list (delete k (st_runs s))) as H1.
  { rewrite <- map_to_list_insert by apply lookup_delete_eq. by rewrite insert_delete_id. }
  assert (map_to_list (<[k:=r']> (st_runs s)) ≡ₚ
          (k, r') :: map_to_list (delete k (st_runs s))) as H2.
  { rewrite <- map_to_list_insert by apply lookup_delete_eq. by rewrite insert_delete_eq. }
  rewrite H1, H2. cbn [sum_list_with snd]. lia.
Qed.

(** * The progress invariant *)

Definition handlers_succeed (reg : Registry) (d : WorkflowDefinition) : Prop :=
  ∀ sd, sd ∈ wd_Steps d → ∃ h, Resolve (sd_Handler sd) reg = Ok h ∧
    ∀ i n, ∃ out, hd_Execute h i n = Ok (MkResult out None).

Definition good_def (reg : Registry) (d : WorkflowDefinition) : Prop :=
  validated d ∧ no_self_dep d ∧ handlers_succeed reg d.

Definition step_key (r : Run) (st : StepRun) : string :=
  queueKey (run_Namespace r) (run_ID r) (sr_StepID st).

(** A run none of whose steps is running or failed, and whose queued steps are queued. *)
Record live_run (s : Store) (r : Run) : Prop := {
  lr_states : ∀ st, st ∈ run_Steps r →
    sr_State st = StepPending ∨ sr_State st = StepQueued ∨ step_done st;
  lr_queued : ∀ st, st ∈ run_Steps r → sr_State st = StepQueued →
    is_Some (st_queue s !! step_key r st)
}.

(** A live run with no ready step left to enqueue, that is promoted when it is done. *)
Record settled (s : Store) (d : WorkflowDefinition) (r : Run) : Prop := {
  se_live : live_run s r;
  se_ready : ∀ st, st ∉ ReadySteps (Some d) (Some r);
  se_done : Forall step_done (run_Steps r) → run_State r = StateSucceeded
}.

(** Every run but the one under the key [x] is settled, and every item of the queue that is not
    leased is visible before the time [T]; the runs under the keys [D] are stored. *)
Record Live (reg : Registry) (D : gset string) (s : Store) (L : list QueueItem) (T : Time)
    (x : option string) : Prop := {
  li_dom : D ⊆ dom (st_runs s);
  li_inv : Inv s L;
  li_defs : map_Forall (λ _, good_def reg) (st_definitions s);
  li_runs : ∀ k r, st_runs s !! k = Some r → x ≠ Some k → ∃ d, def_of s r d ∧ settled s d r;
  li_visible : ∀ k i, st_queue s !! k = Some i → k ∉ item_key <$> L → (qi_VisibleAt i < T)%Z
}.

Abbreviation run_key r := (runKey (run_Namespace r) (run_ID r)).

Lemma settled_queue s s' d r :
  (∀ st, st ∈ run_Steps r → is_Some (st_queue s !! step_key r st) →
     is_Some (st_queue s' !! step_key r st)) →
  settled s d r → settled s' d r.
Proof. intros Hq [[H1 H2] H3 H4]. split; [split|..]; eauto. Qed.

(** The excepted run is changed. *)
Lemma put_run_live reg D s L T r' :
  Live reg D s L T (Some (run_key r')) → Inv (put_run r' s) L →
  Live reg D (put_run r' s) L T (Some (run_key r')).
Proof.
  intros [HD HI Hd Hr Hv] HI'. split; try done; [simpl; set_solver|]. intros k r Hk Hne.
  assert (run_key r' ≠ k) as Hne' by congruence. simpl in Hk.
  rewrite lookup_insert_ne in Hk by done. destruct (Hr k r Hk Hne) as (d & Hdef & Hs).
  exists d. split; [done|]. by apply (settled_queue s).
Qed.

(** A run is excepted, or is settled and no longer excepted. *)
Lemma Live_open reg D s L T x : Live reg D s L T None → Live reg D s L T x.
Proof. intros [HD HI Hd Hr Hv]. split; try done. intros k r Hk _. by apply (Hr k r). Qed.

Lemma Live_close reg D s L T r d :
  Live reg D s L T (Some (run_key r)) → current s r → def_of s r d → settled s d r →
  Live reg D s L T None.
Proof.
  intros [HD HI Hd Hr Hv] (Hl & _) Hdef Hset. split; try done. intros k r0 Hk _.
  destruct (decide (k = run_key r)) as [->|Hne]; [|apply (Hr k r0 Hk); congruence].
  simplify_eq. eauto.
Qed.

(** * The transformers keep the progress invariant *)

Section transformers.
Context (reg : Registry) (D : gset string).

Lemma put_step_live s L T r d id f st :
  Live reg D s L T (Some (run_key r)) → changeable s r d id st →
  (∀ x, sr_StepID (f x) = sr_StepID x) → (step_done (f st) → no_item s L r id) →
  let s' := put_step id f r s in let r' := upd_step id f r in
  Live reg D s' L T (Some (run_key r')) ∧ changed s' r r' d id f st ∧
  st_queue s' = st_queue s ∧
  open_steps s = open_steps s' + (if decide (step_done (f st)) then 1 else 0).
Proof.
  intros HL Hc Hf Hfree s' r'. pose proof (li_inv _ _ _ _ _ _ HL) as HI.
  destruct (put_step_inv s L r d id f st HI Hc Hf Hfree) as [HI' Hch]. fold s' r' in HI', Hch.
  destruct Hc as [Hcur _ Hin Hid Hopen _].
  pose proof (current_NoDup _ _ _ HI Hcur) as Hdup.
  destruct (update_first_spec id f _ _ Hdup Hin Hid) as [steps' Hu].
  destruct (update_first_replace _ _ _ _ _ Hf Hu) as [_ Hrep].
  assert (r' = set_run_Steps steps' r) as Hr' by (unfold r', upd_step; by rewrite Hu).
  assert (s' = put_run r' s) as Hs'.
  { unfold s', put_step. by rewrite Hu, (UpdateStepState_put _ _ _ _ Hcur Hrep), <- Hr'. }
  assert (run_key r' = run_key r) as Hkey by (by rewrite Hr').
  split_and!; [|done|by rewrite Hs'|].
  - rewrite Hs' in HI' |- *. apply put_run_live; [by rewrite Hkey|done].
  - pose proof (open_steps_put s r r') as Ho. rewrite Hkey, <- Hs' in Ho.
    specialize (Ho (proj1 Hcur)).
    pose proof (update_first_open id f _ st _ _ Hdup Hin Hid Hopen Hu) as Hoc.
    rewrite Hr' in Ho. cbn [run_Steps set_run_Steps] in Ho. lia.
Qed.

Lemma Enqueue_live s L T x i :
  Live reg D s L T x → item_ok s i → (qi_VisibleAt i < T)%Z → Live reg D (Enqueue i s).2 L T x.
Proof.
  intros [HD HI Hd Hr Hv] Hi Ht. split; [done|by apply Enqueue_inv|done| |].
  - intros k r Hk Hne. destruct (Hr k r Hk Hne) as (d & Hdef & Hs). exists d. split; [done|].
    apply (settled_queue s); [|done]. intros st _ Hq. simpl. apply lookup_insert_is_Some.
    destruct (decide (item_key i = step_key r st)); [by left|by right].
  - intros k j Hk Hne. simpl in Hk. apply lookup_insert_Some in Hk as [[_ <-]|[_ Hk]]; [done|].
    by apply (Hv k).
Qed.

(** The completion of a leased item of the excepted run. *)
Lemma CompleteStep_live s L T i r tok :
  Live reg D s (i :: L) T (Some (run_key r)) → current s r →
  run_Namespace r = qi_Namespace i → run_ID r = qi_RunID i →
  is_Some (st_queue s !! item_key i) →
  let c := CompleteStep (qi_Namespace i) (qi_RunID i) (qi_StepID i) tok s in
  c.1 = Ok () ∧ Live reg D c.2 L T (Some (run_key r)) ∧
  st_queue c.2 = delete (item_key i) (st_queue s).
Proof.
  intros [HD HI Hd Hr Hv] Hcur Hns Hid [q Hq] c.
  pose proof (CompleteStep_inv s (i :: L) (qi_Namespace i) (qi_RunID i) (qi_StepID i) tok HI)
    as HI'. fold c in HI'.
  assert (c = (Ok (), set_queue (delete (item_key i) (st_queue s)) s)) as Hc.
  { unfold c, CompleteStep. fold (item_key i). by rewrite Hq. }
  rewrite Hc in HI' |- *. cbn [fst snd] in *. split_and!; [done| |done]. split.
  - done.
  - eapply Inv_weaken; [|exact HI']. set_solver.
  - done.
  - intros k r0 Hk Hne. destruct (Hr k r0 Hk Hne) as (d & Hdef & Hs). exists d. split; [done|].
    apply (settled_queue s); [|done]. intros st _ Hst. simpl.
    rewrite lookup_delete_ne; [done|]. intros E.
    destruct (inv_runs _ _ HI _ _ Hk) as (Hn1 & Hn2 & _).
    destruct (inv_run_ok _ _ _ _ _ HI (proj1 Hcur)) as (Hn3 & Hn4 & _).
    unfold item_key, step_key in E. rewrite <- Hns, <- Hid in E.
    apply queueKey_inj in E as (E1 & E2 & _); [|done..].
    apply Hne. rewrite (wf_runs _ (inv_wf _ _ HI) _ _ Hk). by rewrite E1, E2.
  - intros k j Hk Hnk. simpl in Hk. apply lookup_delete_Some in Hk as [Hne Hk].
    apply (Hv k j Hk). rewrite fmap_cons. apply not_elem_of_cons. done.
Qed.

Lemma open_steps_runs s s' : st_runs s' = st_runs s → open_steps s' = open_steps s.
Proof. unfold open_steps. by intros ->. Qed.

(** The change of an open step to a state that is not done makes no step ready. *)
Lemma changed_ReadySteps s s' L r r' d id f st x :
  Inv s L → Inv s' L → changeable s r d id st → changed s' r r' d id f st →
  sr_State (f st) ≠ StepPending → ¬ step_done (f st) →
  x ∈ ReadySteps (Some d) (Some r') → x ∈ ReadySteps (Some d) (Some r) ∧ sr_StepID x ≠ id.
Proof.
  intros HI HI' Hc Hch Hnp Hnd Hx. destruct Hc as [Hcur Hd Hin Hid Hopen _].
  destruct Hch as [Hcur' Hd' Hsteps _ _].
  pose proof (proj1 (inv_defs _ _ HI _ _ (proj1 (def_of_lookup _ _ _) Hd))) as Hdd.
  apply elem_of_ReadySteps in Hx as (Hx & Hp & Hdeps);
    [|done|by apply (current_NoDup s' L)].
  apply Hsteps in Hx as [->|[Hx Hne]]; [done|]. split; [|done].
  apply elem_of_ReadySteps; [done|by apply (current_NoDup s L)|]. split_and!; [done..|].
  intros sd dep H1 H2 H3. destruct (Hdeps sd dep H1 H2 H3) as (y & Hy & Hyd & Hdone).
  apply Hsteps in Hy as [->|[Hy _]]; [by destruct Hnd|]. eauto.
Qed.

Lemma enq_store_live s L T r d now st :
  Live reg D s L T (Some (run_key r)) → live_run s r → changeable s r d (sr_StepID st) st →
  (now < T)%Z →
  let rs := enq_store now (r, s) st in
  Live reg D rs.2 L T (Some (run_key rs.1)) ∧ live_run rs.2 rs.1 ∧
  changed rs.2 r rs.1 d (sr_StepID st) (set_sr_State StepQueued) st ∧
  open_steps rs.2 = open_steps s.
Proof.
  intros HL [Hst Hq] Hc Ht rs.
  assert (Live reg D (Enqueue (queueItemFor r st now now) s).2 L T (Some (run_key r))) as HL1.
  { apply Enqueue_live; [done| |done]. by eapply changeable_item_ok. }
  destruct (put_step_live _ L T r d (sr_StepID st) (set_sr_State StepQueued) st HL1)
    as (HL2 & Hch & Hqueue & Hopen); [by destruct Hc|done|by intros [?|?]|].
  rewrite decide_False in Hopen by (by intros [?|?]).
  split_and!; [exact HL2| |exact Hch|].
  2: { rewrite Nat.add_0_r in Hopen. symmetry. exact Hopen. }
  pose proof Hch as [_ _ Hsteps Hns Hid]. split.
  - intros x [->|[Hx _]]%Hsteps; [by right; left|by apply Hst].
  - intros x Hx Hxq. unfold step_key. cbn [rs enq_store fst snd] in *.
    rewrite Hqueue, Hns, Hid. simpl. apply lookup_insert_is_Some'.
    apply Hsteps in Hx as [->|[Hx _]]; [by left|right]. by apply (Hq x).
Qed.

Lemma enq_all_live L T d now ss r s :
  Live reg D s L T (Some (run_key r)) → live_run s r → current s r → def_of s r d →
  NoDup (sr_StepID <$> ss) → (∀ st, st ∈ ss → changeable s r d (sr_StepID st) st) →
  (∀ st, st ∈ ReadySteps (Some d) (Some r) → st ∈ ss) → (now < T)%Z →
  ¬ Forall step_done (run_Steps r) →
  Live reg D (enq_all now ss r s).2 L T None ∧
  open_steps (enq_all now ss r s).2 = open_steps s.
Proof.
  revert r s. induction ss as [|st ss IH]; intros r s HL Hlive Hcur Hd Hnd Hss Hready Ht Hopen.
  { split; [|done]. apply (Live_close _ _ _ _ _ r d); [done..|]. split; [done| |done].
    intros st Hst%Hready. by apply elem_of_nil in Hst. }
  apply NoDup_cons in Hnd as [Hst Hnd]. pose proof (Hss st (list_elem_of_here _ _)) as Hc.
  destruct (enq_store_live s L T r d now st HL Hlive Hc Ht) as (HL' & Hlive' & Hch & Ho).
  unfold enq_all. cbn [foldl].
  destruct (enq_store now (r, s) st) as [r' s']; cbn [fst snd] in *. rewrite <- Ho.
  pose proof (li_inv _ _ _ _ _ _ HL) as HI. pose proof Hch as [Hcur' Hd' Hsteps _ _].
  assert (¬ step_done (set_sr_State StepQueued st)) as Hq by (by intros [?|?]).
  apply IH; try done.
  - intros x Hx. destruct (Hss x (list_elem_of_further _ _ _ Hx)) as [_ _ Hin _ Hop Hdeps].
    split; try done.
    + apply Hsteps. right. split; [done|]. intros Heq. apply Hst. rewrite <- Heq.
      by apply list_elem_of_fmap_2.
    + destruct Hc as [_ _ Hin' _ Hopen' _].
      by apply (changed_deps s' r r' d (sr_StepID st) (set_sr_State StepQueued) st);
        [by apply (current_NoDup s L)|..].
  - intros x Hx. destruct (changed_ReadySteps s s' L r r' d (sr_StepID st)
      (set_sr_State StepQueued) st x) as [Hx' Hne]; try done; [by apply HL'|].
    apply Hready in Hx'. apply elem_of_cons in Hx' as [->|?]; done.
  - intros Hall. apply Hq. rewrite Forall_forall in Hall. apply Hall, Hsteps. by left.
Qed.

Lemma allDone_spec steps : allDone steps = true ↔ Forall step_done steps.
Proof.
  unfold allDone. rewrite forallb_elem, Forall_forall. apply forall_proper. intros st.
  unfold step_done. destruct (decide (sr_State st = StepSucceeded)),
    (decide (sr_State st = StepSkipped)); repeat case_bool_decide; naive_solver.
Qed.

(** A run that is done is promoted; otherwise its ready steps are enqueued. *)
Lemma advance_store_live s L T d now r :
  Live reg D s L T (Some (run_key r)) → live_run s r → current s r → def_of s r d →
  (now < T)%Z →
  Live reg D (advance_store d now r s) L T None ∧
  open_steps (advance_store d now r s) = open_steps s.
Proof.
  intros HL Hlive Hcur Hd Ht. pose proof (li_inv _ _ _ _ _ _ HL) as HI. unfold advance_store.
  destruct (allDone (run_Steps r)) eqn:E.
  - apply allDone_spec in E. unfold finish_store, UpdateRunState. simpl.
    rewrite (proj1 Hcur). simpl. set (r' := apply_run_state StateSucceeded now r).
    destruct (apply_run_state_keeps StateSucceeded now r) as (Hst & Hns & Hid & Hw).
    fold r' in Hst, Hns, Hid, Hw.
    assert (set_runs (<[run_key r := r']> (st_runs s)) s = put_run r' s) as ->
      by (unfold put_run; by rewrite Hns, Hid).
    split.
    + apply (Live_close _ _ _ _ _ r' d); [|split_and!; [apply lookup_insert_eq|done..]| |].
      * apply put_run_live; [by rewrite Hns, Hid|]. eapply run_change_inv; [done..|].
        by apply keeps_steps_change, apply_run_state_keeps.
      * unfold def_of in *. by rewrite Hw.
      * destruct Hlive as [H1 H2]. rewrite Forall_forall in E. split.
        -- split; unfold step_key; rewrite Hst, ?Hns, ?Hid; [done|]. intros st Hin Hq.
           destruct (E st Hin) as [E'|E']; by rewrite Hq in E'.
        -- intros st Hin. apply list_elem_of_filter in Hin as [Hr Hin]. rewrite Hst in Hin.
           unfold ready in Hr. apply andb_true_iff in Hr as [Hp%bool_decide_eq_true _].
           destruct (E st Hin) as [E'|E']; by rewrite Hp in E'.
        -- intros _. subst r'. unfold apply_run_state. by repeat case_match.
    + pose proof (open_steps_put s r r') as Ho. rewrite Hns, Hid, Hst in Ho.
      specialize (Ho (proj1 Hcur)). lia.
  - apply (enq_all_live L T d); try done.
    + by eapply NoDup_ReadySteps, current_NoDup.
    + intros st Hin. by eapply ReadySteps_changeable.
    + intros Hall. apply allDone_spec in Hall. congruence.
Qed.
End transformers.

(** * A lease processed *)

#[local] Opaque triple store perform prog_bind.

Section lease.
Context (en : env) (e : Engine) (sprintf : string → list string → string).
Context (D : gset string) (T0 T : Time).

(** The clock reads times from [T0] on and before [T]. *)
Definition between (t : Time) : Prop := (T0 <= t < T)%Z.

Abbreviation reg := (eng_registry e).
Abbreviation prog_triple := (triple en (exec_guard (λ _ _, True)) between).

(** A leased item is still in the queue: its step is queued. *)
Lemma leased_in_queue s L i r d st :
  Live reg D s (i :: L) T None → changeable s r d (qi_StepID i) st →
  run_Namespace r = qi_Namespace i → run_ID r = qi_RunID i →
  is_Some (st_queue s !! item_key i) ∧ settled s d r.
Proof.
  intros HL [Hcur Hd Hin Hid Hopen Hdeps] Hns Hrid.
  destruct (li_runs _ _ _ _ _ _ HL _ _ (proj1 Hcur)) as (d' & Hd' & Hset); [done|].
  assert (d' = d) as -> by (unfold def_of in *; congruence). split; [|done].
  pose proof (li_inv _ _ _ _ _ _ HL) as HI. destruct Hset as [[Hst Hq] Hready _].
  destruct (Hst st Hin) as [Hp|[Hqd|Hdone]]; [|specialize (Hq st Hin Hqd)|done].
  - destruct (Hready st). apply elem_of_ReadySteps.
    + exact (proj1 (inv_defs _ _ HI _ _ (proj1 (def_of_lookup _ _ _) Hd))).
    + by apply (current_NoDup s (i :: L)).
    + rewrite Hid. done.
  - unfold step_key in Hq. by rewrite Hns, Hrid, Hid in Hq.
Qed.

(** The run after its leased step succeeded is live. *)
Lemma succeeded_live_run s s1 s3 L i r r1 r3 d st f g :
  Inv s L → current s r → settled s d r → sr_StepID st = qi_StepID i → sr_StepID (f st) = sr_StepID st →
  run_Namespace r = qi_Namespace i → run_ID r = qi_RunID i →
  changed s1 r r1 d (qi_StepID i) f st → changed s3 r1 r3 d (qi_StepID i) g (f st) →
  step_done (g (f st)) → st_queue s3 = delete (item_key i) (st_queue s) → live_run s3 r3.
Proof.
  intros HI Hcur [[Hst Hq] _ _] Hid Hf Hns Hrid [_ _ H1 Hns1 Hid1] [_ _ H3 Hns3 Hid3].
  intros Hdone Hqueue.
  assert (∀ x, x ∈ run_Steps r3 →
    x = g (f st) ∨ x ∈ run_Steps r ∧ sr_StepID x ≠ qi_StepID i) as Hel.
  { intros x [->|[Hx Hne]]%H3; [by left|]. apply H1 in Hx as [->|[Hx _]]; [|by right].
    by rewrite Hf, Hid in Hne. }
  split; intros x Hx.
  - destruct (Hel x Hx) as [->|[Hin _]]; [by right; right|by apply Hst].
  - intros Hxq. destruct (Hel x Hx) as [->|[Hin Hne]].
    { destruct Hdone as [E|E]; by rewrite Hxq in E. }
    destruct (inv_run_ok _ _ _ _ _ HI (proj1 Hcur)) as (Hn1 & Hn2 & _).
    unfold step_key. rewrite Hqueue, Hns3, Hid3, Hns1, Hid1.
    rewrite lookup_delete_ne; [by apply (Hq x)|]. unfold item_key. rewrite <- Hns, <- Hrid.
    intros E. apply queueKey_inj in E as (_ & _ & E); [|done..]. congruence.
Qed.

Lemma completeStep_live s L l r r1 d st t output :
  Live reg D s (ql_Item l :: L) T None → distinct (ql_Item l) L →
  changeable s r d (qi_StepID (ql_Item l)) st →
  run_Namespace r = qi_Namespace (ql_Item l) → run_ID r = qi_RunID (ql_Item l) →
  r1 = upd_step (qi_StepID (ql_Item l)) (running t) r →
  prog_triple (put_step (qi_StepID (ql_Item l)) (running t) r s) (completeStep e r1 d l output)
    (λ _ s', Live reg D s' L T None ∧ S (open_steps s') = open_steps s).
Proof.
  intros HL Hdist Hc Hns Hrid ->. set (i := ql_Item l) in *.
  destruct (leased_in_queue s L i r d st HL Hc Hns Hrid) as [Hq Hset].
  pose proof (li_inv _ _ _ _ _ _ HL) as HI.
  destruct (put_step_live reg D s (i :: L) T r d (qi_StepID i) (running t) st)
    as (HL1 & Hch1 & Hq1 & Ho1); [by apply Live_open|done..|by intros [?|?]|].
  rewrite decide_False in Ho1 by (by intros [?|?]).
  set (s1 := put_step (qi_StepID i) (running t) r s) in *.
  set (r1 := upd_step (qi_StepID i) (running t) r) in *.
  assert (changeable s1 r1 d (qi_StepID i) (running t st)) as Hc1.
  { by apply (changed_changeable s _ (i :: L) r); [..|apply Hc|intros [?|?]]. }
  pose proof Hch1 as [Hcur1 _ _ Hns1 Hid1]. rewrite Hns in Hns1. rewrite Hrid in Hid1.
  destruct (CompleteStep_live reg D s1 L T i r1 (ql_Token l)) as (Hok & HL2 & Hq2);
    [done..|by rewrite Hq1|].
  pose proof (CompleteStep_no_item s1 L i r1 (ql_Token l) (li_inv _ _ _ _ _ _ HL1) Hdist Hns1 Hid1
                Hok) as Hfree.
  pose proof (CompleteStep_keeps_runs s1 (qi_Namespace i) (qi_RunID i) (qi_StepID i)
                (ql_Token l)) as [Hr2 Hd2].
  apply completeStep_rule; [fold i; congruence|]. intros now now' _ Hnow' _. fold i.
  set (s2 := (CompleteStep _ _ _ _ s1).2) in *.
  destruct (put_step_live reg D s2 L T r1 d (qi_StepID i) (succeeded now output) (running t st) HL2
              (changeable_runs _ _ _ _ _ _ Hr2 Hd2 Hc1)) as (HL3 & Hch3 & Hq3 & Ho3); [done..|].
  rewrite decide_True in Ho3 by (by left). rewrite (open_steps_runs _ _ Hr2) in Ho3.
  pose proof Hch3 as [Hcur3 Hd3 _ _ _].
  destruct (advance_store_live reg D _ L T d now' _ HL3) as [HL4 Ho4]; [|done..|apply Hnow'|].
  { apply (succeeded_live_run s s1 _ (i :: L) i r r1 _ d st (running t) (succeeded now output) HI
             (ch_current _ _ _ _ _ Hc) Hset (ch_id _ _ _ _ _ Hc) eq_refl Hns Hrid Hch1 Hch3
             (or_introl eq_refl)).
    by rewrite Hq3, Hq2, Hq1. }
  split; [done|]. lia.
Qed.

Lemma executeLease_live s L l :
  Live reg D s (ql_Item l :: L) T None → distinct (ql_Item l) L →
  prog_triple s (executeLease e sprintf l)
    (λ _ s', Live reg D s' L T None ∧ S (open_steps s') = open_steps s).
Proof.
  intros HL Hdist. pose proof (li_inv _ _ _ _ _ _ HL) as HI.
  assert (item_ok s (ql_Item l)) as Hi by (apply (inv_items _ _ HI); left; set_solver).
  destruct (item_ok_changeable _ _ _ HI Hi) as (r & d & st & Hget & Hns & Hid & Hc).
  destruct (findStepDef_changeable _ _ _ _ _ _ HI Hc) as [sd Hsd].
  pose proof (li_defs _ _ _ _ _ _ HL _ _ (proj1 (def_of_lookup _ _ _) (ch_def _ _ _ _ _ Hc)))
    as (_ & _ & Hh).
  assert (sd ∈ wd_Steps d) as Hin.
  { unfold findStepDef in Hsd. destruct (list_find _ _) as [[n x]|] eqn:E; simplify_eq/=.
    apply list_find_Some in E as [E _]. by eapply list_elem_of_lookup_2. }
  destruct (Hh sd Hin) as (h & Hres & Hex).
  eapply executeLease_rule; [done|exact (ch_def _ _ _ _ _ Hc)|done|congruence|].
  intros h' t Ht Hres'. rewrite Hres in Hres'. simplify_eq. split; [done|]. intros n.
  destruct (Hex (MkHandle (run_ID (upd_step (qi_StepID (ql_Item l)) (running t) r))
    (qi_StepID (ql_Item l)) "" (ri_Payload (run_Input
       (upd_step (qi_StepID (ql_Item l)) (running t) r))) (sd_Timeout sd)) n) as [out ->].
  by eapply completeStep_live.
Qed.

(** * A round *)

Lemma Live_time s L x T1 : (T1 <= T)%Z → Live reg D s L T1 x → Live reg D s L T x.
Proof.
  intros Ht [HD HI Hd Hr Hv]. split; try done. intros k i Hk Hnk. specialize (Hv k i Hk Hnk). lia.
Qed.

Lemma process_loop_live s ls :
  Live reg D s (ql_Item <$> ls) T None → NoDup (item_key <$> (ql_Item <$> ls)) →
  prog_triple s (process_loop e sprintf ls)
    (λ _ s', Live reg D s' [] T None ∧ open_steps s' + length ls = open_steps s).
Proof.
  revert s. induction ls as [|l ls IH]; intros s HL Hnd; simpl.
  { apply triple_ret. split; [done|lia]. }
  rewrite fmap_cons in HL, Hnd. pose proof (NoDup_keys_distinct _ _ Hnd) as Hdist.
  rewrite fmap_cons in Hnd. apply NoDup_cons in Hnd as [_ Hnd].
  apply triple_bind. eapply triple_mono; [by apply executeLease_live|].
  intros a s' [HL' Ho]. apply triple_bind.
  assert (prog_triple s' (process_loop e sprintf ls)
    (λ _ s2, Live reg D s2 [] T None ∧ open_steps s2 + S (length ls) = open_steps s)) as H.
  { eapply triple_mono; [by apply IH|]. intros [] s2 [HL2 Ho2]. split; [done|lia]. }
  destruct a; [by apply triple_report|by apply triple_ret].
Qed.

(** A store with open steps has a visible item. *)
Lemma open_steps_visible s :
  Live reg D s [] T0 None → open_steps s ≠ 0 →
  ∃ k i, st_queue s !! k = Some i ∧ (qi_VisibleAt i < T0)%Z.
Proof.
  intros [HD HI Hd Hr Hv] Ho.
  assert (∃ k r, st_runs s !! k = Some r ∧ ¬ Forall step_done (run_Steps r)) as (k & r & Hk & Hn).
  { unfold open_steps in Ho. destruct (decide (Forall (λ kr, Forall step_done (run_Steps kr.2))
      (map_to_list (st_runs s)))) as [Hall|Hex].
    - destruct Ho. induction Hall as [|kr l Hkr Hl IH]; [done|]. simpl.
      apply open_count_zero in Hkr. by rewrite Hkr, IH.
    - apply not_Forall_Exists, Exists_exists in Hex as ([k r] & Hin & Hn); [|apply _].
      apply elem_of_map_to_list in Hin. eauto. }
  destruct (Hr k r Hk) as (d & Hdef & [[Hst Hq] Hready _]); [done|].
  destruct (inv_runs _ _ HI k r Hk) as (_ & _ & d' & Hd' & Hof & _).
  assert (d' = d) as -> by (unfold def_of in *; congruence).
  destruct (Hd _ _ (proj1 (def_of_lookup _ _ _) Hdef)) as (Hval & Hself & _).
  destruct (decide (Exists (λ st, sr_State st = StepQueued) (run_Steps r))) as [Hex|Hno].
  - apply Exists_exists in Hex as (st & Hin & Hqd). destruct (Hq st Hin Hqd) as [i Hi].
    exists (step_key r st), i. split; [done|]. apply (Hv _ _ Hi). set_solver.
  - exfalso. apply (first_pending_ready d r Hval Hself Hof); [|done|].
    + apply Forall_forall. intros st Hin. destruct (Hst st Hin) as [?|[Hqd|?]]; [by left| |by right].
      destruct Hno. apply Exists_exists. eauto.
    + destruct (ReadySteps _ _) as [|x l] eqn:E; [done|]. destruct (Hready x).
      apply list_elem_of_here.
Qed.

Lemma DequeueAny_live sh toks limit now s ls s' :
  Live reg D s [] T0 None → between now → (0 < limit)%Z →
  DequeueAny sh toks limit now s = (Ok ls, s') →
  Live reg D s' (ql_Item <$> ls) T None ∧ NoDup (item_key <$> (ql_Item <$> ls)) ∧
  open_steps s' = open_steps s ∧ (open_steps s ≠ 0 → 1 <= length ls).
Proof.
  intros HL [Hnow0 Hnow] Hlim E. pose proof (li_inv _ _ _ _ _ _ HL) as HI.
  destruct (DequeueAny_inv _ _ _ _ _ _ _ HI E) as [HI' Hnd].
  unfold DequeueAny in E. pose proof (λ k, dequeue_with_queue _ _ _ _ _ _ _ _ k E) as Hq.
  rewrite dequeue_with_eq in E. set (p := picked _ _ _ _ _) in E. injection E as <- <-.
  assert (item_key <$> (ql_Item <$> lease_of now toks 0 p) = p.*1) as Hkeys.
  { apply lease_of_keys, Forall_forall. intros [k i] Hin. apply picked_sub in Hin as [Hin _].
    apply elem_of_range_map in Hin. by apply (wf_queue _ (inv_wf _ _ HI)). }
  split_and!; [|done|done|].
  - destruct HL as [HD _ Hd Hr Hv]. split; try done.
    + intros k r Hk Hne. destruct (Hr k r Hk Hne) as (d & Hdef & Hs). exists d. split; [done|].
      apply (settled_queue s); [|done]. intros st _ Hst.
      destruct (Hq (step_key r st)) as [->|(i & _ & _ & ->)]; eauto.
    + intros k i Hk Hnk. rewrite Hkeys in Hnk. simpl in Hk. rewrite lease_all_other in Hk by done.
      pose proof (Hv k i Hk ltac:(set_solver)). lia.
  - intros Ho. destruct (open_steps_visible s HL Ho) as (k & i & Hk & Hi).
    unfold lease_of. rewrite length_imap. subst p. unfold picked.
    rewrite (proj2 (Z.ltb_lt _ _) Hlim), length_take.
    set (es := filter _ _). assert ((k, i) ∈ es) as Hin.
    { apply list_elem_of_filter. split; [split; [done|simpl; lia]|]. by apply elem_of_range_map. }
    destruct es; [by apply elem_of_nil in Hin|]. simpl. lia.
Qed.

Lemma ProcessLeases_live s :
  Live reg D s [] T0 None → (0 < eng_maxDequeue e)%Z →
  prog_triple s (ProcessLeases e sprintf)
    (λ _ s', Live reg D s' [] T None ∧ open_steps s' <= open_steps s - 1).
Proof.
  intros HL Hmax. unfold ProcessLeases, dequeueLeases.
  apply triple_bind, triple_bind, triple_now. intros now Hnow. apply triple_op. intros o.
  change (store_exec o _ s) with (DequeueAny (o_shuffle o) (o_tokens o) (eng_maxDequeue e) now s).
  destruct (DequeueAny _ _ _ _ _) as [[ls|err] s'] eqn:E; [|done].
  destruct (DequeueAny_live _ _ _ _ _ _ _ HL Hnow Hmax E) as (HL' & Hnd & Ho & Hlen).
  apply triple_bind. eapply triple_mono; [by apply process_loop_live|].
  intros [] s2 [HL2 Ho2]. apply triple_ret. split; [done|].
  cbn [snd] in Ho2. destruct (decide (open_steps s = 0)) as [|Hn]; [lia|].
  specialize (Hlen Hn). lia.
Qed.
End lease.

(** * Submission and registration *)

Section requests.
Context (en : env) (e : Engine) (D : gset string) (T0 T : Time).
Context (HT : (T0 <= T)%Z).

Abbreviation reg := (eng_registry e).
Abbreviation prog_triple := (triple en (exec_guard (λ _ _, True)) (between T0 T)).

(** A definition that a registration may add. *)
Lemma CreateDefinition_live s d :
  Live reg D s [] T0 None → good_def reg d → def_ok d →
  Live reg D (CreateDefinition d s).2 [] T None.
Proof.
  intros HL Hg Hok. apply (Live_time e D T _ _ _ T0) in HL as [HD HI Hd Hr Hv]; [|done].
  pose proof (CreateDefinition_inv s d HI Hok) as HI'.
  unfold CreateDefinition in *. rewrite cloneDefinition_id in *.
  destruct (st_definitions s !! _) eqn:Efree; [done|]. cbn [snd] in *.
  split; [done|done|by apply map_Forall_insert_2| |done].
  intros k r Hk Hne. destruct (Hr k r Hk Hne) as (d0 & Hdef & Hs). exists d0. split.
  - apply def_of_lookup. apply def_of_lookup in Hdef. simpl.
    rewrite lookup_insert_ne; [done|]. intros E. rewrite E in Efree. congruence.
  - by apply (settled_queue s).
Qed.

(** A new run is live, and is excepted until its ready steps are enqueued. *)
Lemma CreateRun_live s d input now nano r :
  Live reg D s [] T None → GetDefinition (wd_ID d) s = Ok d →
  NewRun (Some d) input now nano = Ok r → (CreateRun r s).1 = Ok () →
  let s' := (CreateRun r s).2 in
  Live reg D s' [] T (Some (run_key r)) ∧ current s' r ∧ def_of s' r d ∧
  (∀ st, st ∈ run_Steps r → sr_State st = StepPending) ∧ run_Steps r ≠ [].
Proof.
  intros HL Hd Hnew Hok s'. pose proof (li_inv _ _ _ _ _ _ HL) as HI.
  destruct (CreateRun_inv s [] d _ _ _ _ HI Hd Hnew) as [HI' Hcd].
  destruct (Hcd Hok) as [Hcur Hdef]. fold s' in HI', Hcur, Hdef.
  assert (s' = put_run r s) as Hs'.
  { unfold s', CreateRun in Hok |- *. rewrite cloneRun_id. by destruct (st_runs s !! _). }
  split_and!; [|done|done| |].
  - rewrite Hs' in HI' |- *. by apply put_run_live; [apply Live_open|].
  - unfold NewRun in Hnew. intros st Hin. case_match; [done|]. simplify_eq.
    simpl in Hin. apply elem_of_cons in Hin as [->|Hin]; [done|].
    by apply list_elem_of_fmap in Hin as (sd & -> & _).
  - unfold NewRun in Hnew. case_match; [done|]. by simplify_eq.
Qed.

Lemma Submit_live s input :
  Live reg D s [] T0 None → prog_triple s (Submit e input) (λ _ s', Live reg D s' [] T None).
Proof.
  intros HL0. pose proof (Live_time e D T _ _ _ T0 HT HL0) as HL.
  pose proof (li_inv _ _ _ _ _ _ HL) as HI.
  apply triple_bind, triple_now. intros now Hnow. apply triple_bind, triple_op. intros o.
  op_simpl. pose proof (GetDefinitionByName_cases (o_shuffle o)
    (wid_Namespace (ri_Workflow input)) (wid_Name (ri_Workflow input)) s (inv_wf _ _ HI)) as Hd.
  destruct (GetDefinitionByName _ _ _ _) as [d|err]; [|by apply triple_ret].
  destruct Hd as [Hd _]. apply triple_bind, triple_pure; [done..|]. intros nano _.
  destruct (NewRun (Some d) _ now nano) as [r|err] eqn:Hr; [|by apply triple_ret].
  pose proof (CreateRun_live s d _ _ _ _ HL Hd Hr) as Hcr.
  apply triple_bind, triple_op. intros o1. op_simpl.
  destruct (CreateRun r s) as [[[]|err] s1] eqn:Ec.
  2: { apply triple_ret. unfold CreateRun in Ec. case_match; by simplify_eq. }
  destruct (Hcr eq_refl) as (HL1 & Hcur1 & Hdef1 & Hpend & Hne). cbn [fst snd] in *.
  apply triple_bind, triple_op. intros o2. op_simpl.
  unfold UpdateRunState. rewrite (proj1 Hcur1). cbn [fst snd].
  destruct (apply_run_state_keeps StateQueued now r) as (Hst & Hns & Hid & Hw).
  set (r2 := apply_run_state StateQueued now r) in *.
  assert (set_runs (<[run_key r := r2]> (st_runs s1)) s1 = put_run r2 s1) as ->
    by (unfold put_run; by rewrite Hns, Hid).
  assert (current (put_run r2 s1) r2) as Hcur2 by (split_and!; [apply lookup_insert_eq|done..]).
  assert (def_of (put_run r2 s1) r2 d) as Hdef2 by (unfold def_of in *; by rewrite Hw).
  assert (Inv (put_run r2 s1) []) as HI2.
  { apply (run_change_inv s1 [] r); [apply HL1|done|].
    by apply keeps_steps_change, apply_run_state_keeps. }
  apply triple_bind, enqueueReadySteps_rule. intros now2 [_ Hnow2]. cbv zeta.
  apply triple_bind, emit_rule, triple_bind, triple_report, triple_ret.
  rewrite (enq_all_view now2 _ r r2) by done. rewrite (ReadySteps_view d r r2) by done.
  apply (enq_all_live reg D [] T d); try done.
  - apply put_run_live; [by rewrite Hns, Hid|done].
  - rewrite <- Hst in Hpend. split; intros st Hin; [left; by apply Hpend|].
    rewrite (Hpend st Hin). done.
  - by eapply NoDup_ReadySteps, current_NoDup.
  - intros st Hin. by eapply ReadySteps_changeable.
  - rewrite Hst. intros Hall. destruct (run_Steps r) as [|st l]; [done|].
    apply Forall_cons in Hall as [Hdone _].
    assert (sr_State st = StepPending) as Hp by (apply Hpend; set_solver).
    destruct Hdone as [E|E]; by rewrite Hp in E.
Qed.
End requests.

#[local] Transparent triple store perform prog_bind.

(** * Sequences of requests *)

Lemma run_bind {A B} en (p : prog A) (f : A → prog B) w :
  run en (p ≫= f) w =
  match run en p w with
  | (Some a, w') => run en (f a) w'
  | (None, w') => (None, w')
  end.
Proof.
  revert w. induction p as [a|X ef k IH|]; intros w; [done| |done]. simpl.
  destruct (do_eff en ef w) as [x w']. apply IH.
Qed.

Section completion.
Context (en : env) (e : Engine) (sprintf : string → list string → string).
Context (Hclock : ∀ n m, n < m → (env_clock en n < env_clock en m)%Z).
Context (Hmax : (0 < eng_maxDequeue e)%Z).

(** The world's store is settled, and its items are visible by now. *)
Definition Live_world (D : gset string) (w : World) : Prop :=
  Live (eng_registry e) D (w_store w) [] (env_clock en (w_tick w)) None.

(** From a triple for a bounded clock to the interpreter. *)
Lemma triple_world {A} (p : prog A) (Q : A → Store → Prop) w :
  (∀ T, (env_clock en (w_tick w) <= T)%Z → T = env_clock en (w_tick (run en p w).2) →
    triple en (exec_guard (λ _ _, True)) (between (env_clock en (w_tick w)) T) (w_store w) p Q) →
  ∃ a w', run en p w = (Some a, w') ∧ Q a (w_store w').
Proof.
  intros Hp. pose proof (run_tick en p w) as Ht.
  assert (∀ n m, n <= m → (env_clock en n <= env_clock en m)%Z) as Hle.
  { intros n m [Hnm| ->]%Nat.le_lteq; [|lia]. specialize (Hclock n m Hnm). lia. }
  eapply wp_run; [by apply (Hp (env_clock en (w_tick (run en p w).2))); [apply Hle|..]|].
  intros n H1 H2. split; [by apply Hle|by apply Hclock].
Qed.

Lemma ProcessLeases_world D w :
  Live_world D w →
  ∃ a w', run en (ProcessLeases e sprintf) w = (Some a, w') ∧ Live_world D w' ∧
    open_steps (w_store w') <= open_steps (w_store w) - 1.
Proof.
  intros HL. destruct (triple_world (ProcessLeases e sprintf)
    (λ _ s', Live (eng_registry e) D s' []
       (env_clock en (w_tick (run en (ProcessLeases e sprintf) w).2)) None ∧
       open_steps s' <= open_steps (w_store w) - 1) w) as (a & w' & Hrun & HL' & Ho).
  { intros T HT ->. by apply ProcessLeases_live. }
  rewrite Hrun in HL'. eauto.
Qed.

Lemma Submit_world D input w :
  Live_world D w → ∃ a w', run en (Submit e input) w = (Some a, w') ∧ Live_world D w'.
Proof.
  intros HL. destruct (triple_world (Submit e input)
    (λ _ s', Live (eng_registry e) D s' []
       (env_clock en (w_tick (run en (Submit e input) w).2)) None) w) as (a & w' & Hrun & HL').
  { intros T HT ->. by apply Submit_live. }
  rewrite Hrun in HL'. eauto.
Qed.

(** Registrations of good definitions, submissions and rounds; no cancellation. *)
Definition live_command (c : command) : Prop :=
  match c with
  | CDefine d => good_def (eng_registry e) d ∧ ValidateNamespace (wid_Namespace (wd_ID d)) = None
  | CCancel _ _ => False
  | _ => True
  end.

Lemma serve1_world D c w :
  live_command c → Live_world D w →
  ∃ w', run en (serve1 e sprintf c) w = (Some tt, w') ∧ Live_world D w'.
Proof.
  intros Hc HL. destruct c as [d|input| |ns id]; [| | |done]; unfold serve1; rewrite run_bind.
  - destruct Hc as [Hg Hns]. assert (def_ok d) as Hok.
    { split; [by apply validated_NoDup, Hg|]. apply name_no_slash.
      unfold ValidateNamespace in Hns. by case_match. }
    assert (env_clock en (w_tick w) <= env_clock en (S (w_tick w)))%Z as Ht
      by (apply Z.lt_le_incl, Hclock; lia).
    pose proof (CreateDefinition_live e D _ _ Ht _ d HL Hg Hok) as H.
    simpl. unfold store_exec, memstore, memstore_exec.
    destruct (CreateDefinition d (w_store w)) as [x s']. eauto.
  - destruct (Submit_world D input w HL) as (a & w' & -> & HL'). eauto.
  - destruct (ProcessLeases_world D w HL) as (a & w' & -> & HL' & _). eauto.
Qed.

Lemma serve_world D cs w :
  Forall live_command cs → Live_world D w →
  ∃ w', run en (serve e sprintf cs) w = (Some tt, w') ∧ Live_world D w'.
Proof.
  intros Hcs. revert w. induction Hcs as [|c cs Hc Hcs IH]; intros w HL; [by eexists|].
  cbn [serve]. rewrite run_bind. destruct (serve1_world D c w Hc HL) as (w1 & -> & HL1). eauto.
Qed.

(** As many rounds as there are open steps leave none. *)
Lemma rounds_world D n w :
  Live_world D w → open_steps (w_store w) <= n →
  ∃ w', run en (serve e sprintf (replicate n CProcess)) w = (Some tt, w') ∧ Live_world D w' ∧
    open_steps (w_store w') = 0.
Proof.
  revert w. induction n as [|n IH]; intros w HL Hn.
  { exists w. split_and!; [done..|lia]. }
  cbn [replicate serve serve1]. rewrite !run_bind.
  destruct (ProcessLeases_world D w HL) as (a & w' & -> & HL' & Ho). apply IH; [done|lia].
Qed.

Lemma Live_New : Live_world ∅ (MkWorld New [] 0).
Proof.
  split; [set_solver|apply Inv_New|apply map_Forall_empty| |]; simpl; intros k r Hk;
    by rewrite lookup_empty in Hk.
Qed.

(** The runs that are stored stay stored. *)
Lemma Live_world_dom D w : Live_world D w → Live_world (dom (st_runs (w_store w))) w.
Proof. intros []. by split. Qed.

Lemma open_steps_zero s k r :
  open_steps s = 0 → st_runs s !! k = Some r → Forall step_done (run_Steps r).
Proof.
  unfold open_steps. intros H Hk. apply elem_of_map_to_list in Hk.
  induction (map_to_list (st_runs s)) as [|kr l IH]; [by apply elem_of_nil in Hk|].
  simpl in H. apply elem_of_cons in Hk as [<-|Hk]; [|apply IH; [lia|done]].
  apply open_count_zero. simpl in H. lia.
Qed.
End completion.

(** C2: Every submitted run completes.  Let an engine start on an empty store and serve any
    sequence of registrations of validated definitions, submissions and rounds of lease
    processing, and no cancellations.  When the namespaces of the definitions are valid, no step
    depends on itself (which the validation does not exclude), the handlers the definitions name
    are registered and succeed, the batch size is positive and the clock moves forward, then as
    many further rounds as there are steps not yet done bring every stored run to SUCCEEDED with
    all its steps done, whatever the iteration orders and the lease tokens are. *)
Theorem engine_completes_runs en e sprintf cs n
  (Hclock : ∀ n m, n < m → (env_clock en n < env_clock en m)%Z)
  (Hmax : (0 < eng_maxDequeue e)%Z) (Hcs : Forall (live_command e) cs)
  (Hn : open_steps (w_store (run en (serve e sprintf cs) (MkWorld New [] 0)).2) <= n) :
  ∃ w1 w2, run en (serve e sprintf cs) (MkWorld New [] 0) = (Some tt, w1) ∧
    run en (serve e sprintf (replicate n CProcess)) w1 = (Some tt, w2) ∧
    dom (st_runs (w_store w1)) ⊆ dom (st_runs (w_store w2)) ∧
    map_Forall (λ _ r, run_State r = StateSucceeded ∧ Forall step_done (run_Steps r))
      (st_runs (w_store w2)).
Proof.
  destruct (serve_world en e sprintf Hclock Hmax ∅ cs (MkWorld New [] 0)) as (w1 & Hrun & HL1);
    [done|apply Live_New|]. rewrite Hrun in Hn. apply Live_world_dom in HL1.
  destruct (rounds_world en e sprintf Hclock Hmax _ n w1 HL1 Hn) as (w2 & Hrun2 & HL2 & Ho).
  exists w1, w2. split_and!; [done..|apply HL2|]. intros k r Hk.
  pose proof (open_steps_zero _ k r Ho Hk) as Hdone. split; [|done].
  destruct (li_runs _ _ _ _ _ _ HL2 k r Hk) as (d & _ & Hs); [done|]. by apply Hs.
Qed.
