(* ===== verification/EngineExamples.v ===== *)
(** Concrete executions of the engine: the hypotheses of the safety and progress theorems hold
    of them, and they show three behaviours of the engine that its users have to know of: a
    concurrent drain may lose the completion of a run, a cancelled run may still succeed, and a
    run that succeeds is never reported as finished. *)
From S2P Require Import Prelude Errors Types Validation Workflow MemStore Persistence.
From S2P Require Import MemStoreFacts Plugin Engine EngineLogic EngineSpec EngineSafety EngineProgress.

Definition ok_handler : Handler := MkHandler "http" "" (λ _ _, Ok (MkResult (Some ∅) None)).
Definition ex_engine : Engine :=
  NewEngine (Register ok_handler NewRegistry).2 (MkOptions 0 true).
Definition ex_env : env :=
  MkEnv Z.of_nat Z.of_nat (λ _, "00") (λ n, ex_oracle (Z.of_nat n)) (λ _, None).
Definition ex_sprintf (fmt : string) (_ : list string) : string := fmt.

(** A diamond of four steps, and two steps without dependencies. *)
Definition ex_diamond : WorkflowDefinition :=
  ex_def 1 [ex_step "a" []; ex_step "b" ["a"]; ex_step "c" ["a"]; ex_step "d" ["b"; "c"]].
Definition ex_pair : WorkflowDefinition := ex_def 1 [ex_step "a" []; ex_step "b" []].

Definition ex_input : RunInput := MkRunInput (MkWorkflowID "prod" "order" 0) None None "".
Definition ex_start : World := MkWorld New [] 0.
Definition ex_submitted (d : WorkflowDefinition) : World :=
  (run ex_env (serve ex_engine ex_sprintf [CDefine d; CSubmit ex_input]) ex_start).2.

Lemma ex_good_def d :
  d = ex_diamond ∨ d = ex_pair → good_def (eng_registry ex_engine) d ∧
  ValidateNamespace (wid_Namespace (wd_ID d)) = None.
Proof.
  intros Hd. split; [|by destruct Hd as [-> | ->]; vm_compute]. split_and!.
  - by destruct Hd as [-> | ->]; vm_compute.
  - unfold no_self_dep. apply Forall_forall. destruct Hd as [-> | ->];
      decide_closed.
  - intros sd Hsd. exists ok_handler. split; [|by eexists].
    assert (sd_Handler sd = "http") as ->; [|by vm_compute].
    assert (Forall (λ sd, sd_Handler sd = "http") (wd_Steps d)) as H
      by (destruct Hd as [-> | ->]; decide_closed).
    by apply (proj1 (Forall_forall _ _) H).
Qed.

Lemma ex_commands_ok : Forall (live_command ex_engine) [CDefine ex_diamond; CSubmit ex_input].
Proof. repeat constructor; apply ex_good_def; by left. Qed.

(** * Witnesses *)

Definition ex_commands : list command :=
  [CDefine ex_diamond; CSubmit ex_input; CProcess; CCancel "prod" ":3"; CProcess; CProcess].

Lemma engine_respects_dependencies_witness :
  Forall command_ok ex_commands ∧
  wp ex_env (exec_guard may_execute) (λ _, True) (serve ex_engine ex_sprintf ex_commands)
    (λ _ _, True) ex_start.
Proof.
  assert (Forall command_ok ex_commands) as H by (repeat constructor; by vm_compute).
  split; [exact H|].
  exact (proj1 (engine_respects_dependencies ex_env ex_engine ex_sprintf ex_commands H)).
Defined.

Lemma engine_completes_runs_witness :
  open_steps (w_store (ex_submitted ex_diamond)) = 4 ∧
  ∃ w1 w2, run ex_env (serve ex_engine ex_sprintf [CDefine ex_diamond; CSubmit ex_input])
      ex_start = (Some tt, w1) ∧
    run ex_env (serve ex_engine ex_sprintf (replicate 4 CProcess)) w1 = (Some tt, w2) ∧
    dom (st_runs (w_store w1)) ⊆ dom (st_runs (w_store w2)) ∧
    map_Forall (λ _ r, run_State r = StateSucceeded ∧ Forall step_done (run_Steps r))
      (st_runs (w_store w2)).
Proof.
  split; [by vm_compute|].
  apply (engine_completes_runs ex_env ex_engine ex_sprintf [CDefine ex_diamond; CSubmit ex_input]
           4); [simpl; lia|by vm_compute|apply ex_commands_ok|].
  decide_closed.
Defined.

(** * A lost completion *)

Lemma picked_empty wanted limit now sh :
  picked wanted limit now 0 (range_map sh (∅ : gmap string QueueItem)) = [].
Proof.
  assert (range_map sh (∅ : gmap string QueueItem) = []) as ->.
  { apply Permutation_nil. symmetry. rewrite range_map_perm. by rewrite map_to_list_empty. }
  unfold picked. cbn. case_match; [by rewrite take_nil|done].
Qed.

Lemma DequeueAny_empty sh toks limit now s :
  st_queue s = ∅ → DequeueAny sh toks limit now s = (Ok [], set_queue ∅ s).
Proof. intros Hq. unfold DequeueAny. by rewrite dequeue_with_eq, Hq, picked_empty. Qed.

(** A round on an empty queue changes nothing. *)
Lemma idle_rounds en e sprintf n w :
  st_queue (w_store w) = ∅ →
  st_runs (w_store (run en (serve e sprintf (replicate n CProcess)) w).2) = st_runs (w_store w).
Proof.
  revert w. induction n as [|n IH]; intros w Hq; [done|]. cbn [replicate serve serve1].
  rewrite !run_bind. unfold ProcessLeases, dequeueLeases. rewrite !run_bind.
  cbn -[DequeueAny serve]. rewrite DequeueAny_empty by done.
  cbn -[DequeueAny serve]. by rewrite IH.
Qed.

Definition ex_drained : option (list QueueLease) * World :=
  run ex_env (drain ex_engine) (ex_submitted ex_pair).
Definition ex_tasks : list (prog unit) :=
  drain_task ex_engine ex_sprintf <$> default [] ex_drained.1.
Definition ex_schedule : list nat := concat (replicate 14 [0; 1]).

(** A concurrent drain can lose the completion of a run.  The two steps of a workflow are
    leased by one drain and processed by two workers, each of which reads the run before the
    other has written its step.  Both steps succeed and both workers return without an error,
    but neither sees the other's step done: the run stays QUEUED, its queue is empty, and no
    number of further rounds changes it. *)
Theorem drain_can_lose_completion :
  ∃ sched w' r,
    exec_schedule ex_env sched ex_tasks ex_drained.2 = ([Ret tt; Ret tt], w') ∧
    st_queue (w_store w') = ∅ ∧
    st_runs (w_store w') !! "prod/:3" = Some r ∧
    Forall step_done (run_Steps r) ∧ run_State r = StateQueued ∧
    ∀ n, st_runs (w_store (run ex_env
      (serve ex_engine ex_sprintf (replicate n CProcess)) w').2) !! "prod/:3" = Some r.
Proof.
  set (res := exec_schedule ex_env ex_schedule ex_tasks ex_drained.2).
  assert (res.1 = [Ret tt; Ret tt]) as Hts by (vm_compute; reflexivity).
  assert (st_queue (w_store res.2) = ∅) as Hq by (vm_compute; reflexivity).
  assert ((λ r, (run_State r, bool_decide (Forall step_done (run_Steps r)))) <$>
    (st_runs (w_store res.2) !! "prod/:3") = Some (StateQueued, true)) as Hr
    by (vm_compute; reflexivity).
  destruct (st_runs (w_store res.2) !! "prod/:3") as [r|] eqn:E; [|done].
  injection Hr as Hst Hdone. apply bool_decide_eq_true in Hdone.
  exists ex_schedule, res.2, r. rewrite <- Hts.
  split_and!; [apply surjective_pairing|exact Hq|exact E|exact Hdone|exact Hst|].
  intros n. rewrite idle_rounds by exact Hq. exact E.
Qed.

(** * Cancellation *)

Definition ex_cancelled (d : WorkflowDefinition) : World :=
  (run ex_env (Cancel ex_engine "prod" ":3") (ex_submitted d)).2.

Definition run_state (id : string) (w : World) : option RunState :=
  run_State <$> st_runs (w_store w) !! runKey "prod" id.

(** The steps whose handlers were executed. *)
Definition executed (w : World) : list (string * string) :=
  omap (λ r, match r with Executed i => Some (h_RunID i, h_StepID i) | _ => None end)
    (w_reports w).

(** Cancellation is not final.  A run is submitted and then cancelled, and is stored as
    CANCELLED before any handler was executed.  The items of its steps stay in the queue: the
    next round executes the handlers of both its steps, and the run ends as SUCCEEDED. *)
Theorem cancel_is_not_final :
  let w := ex_cancelled ex_pair in
  let w' := (run ex_env (ProcessLeases ex_engine ex_sprintf) w).2 in
  run_state ":3" w = Some StateCancelled ∧ executed w = [] ∧
  executed w' ≡ₚ [(":3", "a"); (":3", "b")] ∧ run_state ":3" w' = Some StateSucceeded.
Proof.
  cbv zeta. split_and!; [vm_compute; reflexivity..| |vm_compute; reflexivity].
  decide_closed.
Qed.

(** * Runs that finish without having been started *)

(** A run that the engine finishes is not reclaimed.  The engine takes a run from QUEUED to
    SUCCEEDED or FAILED without setting it RUNNING; the store then records the finish as the
    run's start and leaves its finish time empty, so that no listing of expired runs contains
    it, for any cutoff. *)
Theorem unstarted_run_never_expires ns id to at_ s r
  (Hwf : store_wf s) (Hr : st_runs s !! runKey ns id = Some r)
  (Hstart : run_StartedAt r = None) (Hfin : run_FinishedAt r = None)
  (Hto : to = StateSucceeded ∨ to = StateFailed) :
  let s' := (UpdateRunState ns id to at_ s).2 in
  ∃ r', GetRun ns id s' = Ok r' ∧ run_State r' = to ∧ run_StartedAt r' = Some at_ ∧
    run_FinishedAt r' = None ∧
    ∀ sh cutoff limit x, x ∈ ok_list (ListExpiredRuns sh cutoff limit s') →
      runKey (run_Namespace x) (run_ID x) ≠ runKey ns id.
Proof.
  intros s'. assert (store_wf s') as Hwf'
    by exact (store_exec_wf (ex_oracle 0) (OpUpdateRunState ns id to at_) s Hwf).
  set (r' := apply_run_state to at_ r).
  assert (st_runs s' !! runKey ns id = Some r') as Hr'.
  { unfold s', UpdateRunState. rewrite Hr. apply lookup_insert_eq. }
  assert (run_State r' = to ∧ run_StartedAt r' = Some at_ ∧ run_FinishedAt r' = None)
    as (H1 & H2 & H3).
  { unfold r', apply_run_state. cbn. rewrite Hstart. by destruct Hto as [-> | ->]. }
  exists r'. split_and!; [unfold GetRun; by rewrite Hr', cloneRun_id|done..|].
  intros sh cutoff limit x Hx E. apply elem_of_ListExpiredRuns in Hx as (k & Hk & Hexp).
  pose proof (wf_runs _ Hwf' _ _ Hk) as Hat. unfold run_at in Hat. rewrite Hat, E in Hk.
  simplify_eq. unfold run_expired in Hexp. rewrite H3 in Hexp.
  by rewrite ?andb_false_r in Hexp.
Qed.

Lemma serve_wf en e sprintf cs :
  Forall command_ok cs → store_wf (w_store (run en (serve e sprintf cs) ex_start).2).
Proof.
  intros Hcs. pose proof (serve_safe en e sprintf New cs Inv_New Hcs ex_start eq_refl) as H.
  apply wp_run in H as (a & w & -> & HI); [|done]. exact (inv_wf _ _ HI).
Qed.

Lemma unstarted_run_never_expires_witness :
  run_state ":3" (ex_submitted ex_pair) = Some StateQueued ∧
  ∃ r', GetRun "prod" ":3" (UpdateRunState "prod" ":3" StateSucceeded 50
            (w_store (ex_submitted ex_pair))).2 = Ok r' ∧ run_FinishedAt r' = None.
Proof.
  split; [vm_compute; reflexivity|].
  destruct (unstarted_run_never_expires "prod" ":3" StateSucceeded 50
    (w_store (ex_submitted ex_pair))
    (default (ex_run "" "" 0 "" None) (st_runs (w_store (ex_submitted ex_pair)) !! "prod/:3")))
    as (r' & Hget & _ & _ & Hfin & _).
  - apply serve_wf. repeat constructor; by vm_compute.
  - vm_compute. reflexivity.
  - vm_compute. reflexivity.
  - vm_compute. reflexivity.
  - by left.
  - exists r'. split; [exact Hget|exact Hfin].
Defined.

(** * Steps that depend on themselves *)

Definition ex_self : WorkflowDefinition := ex_def 1 [ex_step "a" ["a"]].

(** A definition with a step that depends on itself passes the validation of its steps,
    which records a step's identifier before it checks the step's dependencies; and no such
    step of a run of any definition with distinct step identifiers is ever ready, so that its
    run never completes. *)
Theorem self_dependency_validated_never_ready :
  ValidateDefinitionSteps (to_StepDef <$> wd_Steps ex_self) = None ∧
  ∀ d r sd, NoDup (sd_ID <$> wd_Steps d) → run_of d r → sd ∈ wd_Steps d →
    sd_ID sd ∈ sd_DependsOn sd →
    ∀ s, s ∈ ReadySteps (Some d) (Some r) → sr_StepID s ≠ sd_ID sd.
Proof.
  split; [vm_compute; reflexivity|]. intros d r sd Hnd Hof Hsd Hself.
  by apply self_dep_never_ready; [|rewrite Hof|..].
Qed.
