(* ===== verification/StateMachine.v ===== *)
(** The state machine of runs: [internal/statemachine/statemachine.go].

    A hook is a callback outside the package: a transition returns the calls it makes. *)
From stdpp Require Import relations.
From S2P Require Import Prelude Errors Types.

Abbreviation SIllegalTransition := (SOther "illegal state transition").
Abbreviation STerminalState := (SOther "cannot transition from terminal state").

Section machine.
Context {Hook : Type}.

Record StateMachine := MkStateMachine {
  sm_legal : gmap RunState (gmap RunState bool);
  sm_hooks : list Hook
}.

Definition allow (from to : RunState) (sm : StateMachine) : StateMachine :=
  let m := default ∅ (sm_legal sm !! from) in
  MkStateMachine (<[from := <[to := true]> m]> (sm_legal sm)) (sm_hooks sm).

Definition NewStateMachine : StateMachine :=
  let sm := MkStateMachine ∅ [] in
  let sm := allow StatePending StateQueued sm in
  let sm := allow StatePending StateCancelled sm in
  let sm := allow StateQueued StateRunning sm in
  let sm := allow StateQueued StateCancelled sm in
  let sm := allow StateRunning StateSucceeded sm in
  let sm := allow StateRunning StateFailed sm in
  let sm := allow StateRunning StateCancelled sm in
  allow StateRunning StateTimedOut sm.

Definition RegisterHook (h : Hook) (sm : StateMachine) : StateMachine :=
  MkStateMachine (sm_legal sm) (sm_hooks sm ++ [h]).

Definition CanTransition (from to : RunState) (sm : StateMachine) : bool :=
  if IsTerminal from then false
  else match sm_legal sm !! from with
       | None => false
       | Some destMap => default false (destMap !! to)
       end.

(** The calls of the hooks, and the error. *)
Definition Transition (from to : RunState) (sm : StateMachine) :
    list (Hook * RunState * RunState) * option error :=
  if IsTerminal from then
    ([], Some (EWrap "%w: state %s is terminal" [from] (ESentinel STerminalState)))
  else if negb (CanTransition from to sm) then
    ([], Some (EWrap "%w: cannot move from %s to %s" [from; to] (ESentinel SIllegalTransition)))
  else ((λ h, (h, from, to)) <$> sm_hooks sm, None).

(** * Facts *)

(** The machine after its construction and the registration of some hooks. *)
Definition with_hooks (hs : list Hook) : StateMachine := foldl (flip RegisterHook) NewStateMachine hs.

Lemma foldl_RegisterHook hs sm :
  foldl (flip RegisterHook) sm hs = MkStateMachine (sm_legal sm) (sm_hooks sm ++ hs).
Proof.
  revert sm. induction hs as [|h hs IH]; intros [l k]; simpl; [by rewrite app_nil_r|].
  rewrite IH. simpl. by rewrite <- app_assoc.
Qed.

Definition legal_moves : list (RunState * RunState) :=
  [(StatePending, StateQueued); (StatePending, StateCancelled);
   (StateQueued, StateRunning); (StateQueued, StateCancelled);
   (StateRunning, StateSucceeded); (StateRunning, StateFailed);
   (StateRunning, StateCancelled); (StateRunning, StateTimedOut)].

Lemma CanTransition_moves from to hs :
  CanTransition from to (with_hooks hs) = true ↔ (from, to) ∈ legal_moves.
Proof.
  unfold with_hooks. rewrite foldl_RegisterHook. unfold CanTransition. cbn [sm_legal].
  split.
  - intros H. destruct (IsTerminal from); [done|].
    destruct (sm_legal NewStateMachine !! from) as [m|] eqn:E; [|done].
    destruct (m !! to) as [b|] eqn:E'; [|done]. simpl in H. subst b.
    assert (map_Forall (λ from m, map_Forall (λ to (b : bool), (from, to) ∈ legal_moves) m)
      (sm_legal NewStateMachine)) as Hall
      by (decide_closed).
    exact (Hall _ _ E _ _ E').
  - intros H. assert (Forall (λ ft, (if IsTerminal ft.1 then false
      else match sm_legal NewStateMachine !! ft.1 with
           | None => false | Some m => default false (m !! ft.2) end) = true) legal_moves) as Hall
      by (decide_closed).
    exact (proj1 (Forall_forall _ _) Hall _ H).
Qed.

(** A move that the machine accepts. *)
Definition accepted (hs : list Hook) (from to : RunState) : Prop :=
  (Transition from to (with_hooks hs)).2 = None.

Lemma accepted_moves hs from to : accepted hs from to ↔ (from, to) ∈ legal_moves.
Proof.
  rewrite <- (CanTransition_moves from to hs). unfold accepted, Transition.
  destruct (IsTerminal from) eqn:E.
  - unfold CanTransition. by rewrite E.
  - by destruct (CanTransition from to (with_hooks hs)).
Qed.

(** The states a run can be in, with the number of moves that lead to them. *)
Definition reachable_states : list (RunState * list nat) :=
  [(StatePending, [0]); (StateQueued, [1]); (StateRunning, [2]); (StateCancelled, [1; 2; 3]);
   (StateSucceeded, [3]); (StateFailed, [3]); (StateTimedOut, [3])].

Lemma reachable_distance hs n s :
  nsteps (accepted hs) n StatePending s →
  ∃ l, (s, l) ∈ reachable_states ∧ n ∈ l.
Proof.
  revert s. induction n as [|n IH]; intros s Hn.
  - inversion Hn; subst. exists [0]. split; decide_closed.
  - apply nsteps_inv_r in Hn as (y & Hy & Hm%accepted_moves). destruct (IH y Hy) as (l & Hl & Hin).
    assert (Forall (λ yl, Forall (λ m, yl.1 = m.1 → Forall (λ n,
      Exists (λ zl, zl.1 = m.2 ∧ S n ∈ zl.2) reachable_states) yl.2) legal_moves)
      reachable_states) as H by (decide_closed).
    rewrite Forall_forall in H. specialize (H _ Hl). rewrite Forall_forall in H.
    specialize (H _ Hm eq_refl). rewrite Forall_forall in H. specialize (H _ Hin).
    apply Exists_exists in H as ([z l'] & Hz & Hz1 & Hz2). simpl in *. subst z. eauto.
Qed.
End machine.
Arguments StateMachine : clear implicits.

(** The life of a run.  Whatever hooks are registered, every sequence of transitions that
    the machine accepts from PENDING has at most three moves; it reaches SUCCEEDED, FAILED or
    TIMED_OUT only from RUNNING, with its third move; and a reachable state can be left exactly
    when it is not terminal. *)
Theorem run_lifecycle {Hook} (hs : list Hook) n s
  (H : nsteps (accepted hs) n StatePending s) :
  n <= 3 ∧
  (s ∈ [StateSucceeded; StateFailed; StateTimedOut] → n = 3 ∧
     ∀ s', accepted hs s' s → s' = StateRunning) ∧
  (IsTerminal s = false ↔ ∃ s', accepted hs s s').
Proof.
  destruct (reachable_distance hs n s H) as (l & Hl & Hn).
  assert (Forall (λ sl, Forall (λ n, n <= 3 ∧
    (sl.1 ∈ [StateSucceeded; StateFailed; StateTimedOut] → n = 3)) sl.2 ∧
    (IsTerminal sl.1 = false ↔ Exists (λ m, m.1 = sl.1) legal_moves)) reachable_states) as Hall
    by (decide_closed).
  rewrite Forall_forall in Hall. destruct (Hall _ Hl) as [Hd Ht]. simpl in *.
  rewrite Forall_forall in Hd. destruct (Hd n Hn) as [Hle H3]. split_and!; [done| |].
  - intros Hs. split; [by apply H3|]. intros s' Hm%accepted_moves.
    assert (Forall (λ m, m.2 ∈ [StateSucceeded; StateFailed; StateTimedOut] → m.1 = StateRunning)
      legal_moves) as Hm2 by (decide_closed).
    rewrite Forall_forall in Hm2. by apply (Hm2 _ Hm).
  - rewrite Ht, Exists_exists. split.
    + intros ([a b] & Hm & <-). exists b. by apply accepted_moves.
    + intros [s' Hm%accepted_moves]. by exists (s, s').
Qed.

Lemma run_lifecycle_witness :
  nsteps (accepted ["audit"]) 3 StatePending StateSucceeded ∧ 3 <= 3.
Proof.
  assert (nsteps (accepted ["audit"]) 3 StatePending StateSucceeded) as H.
  { apply (nsteps_l _ _ _ StateQueued); [by vm_compute|].
    apply (nsteps_l _ _ _ StateRunning); [by vm_compute|].
    apply (nsteps_l _ _ _ StateSucceeded); [by vm_compute|constructor]. }
  split; [exact H|]. exact (proj1 (run_lifecycle ["audit"] 3 StateSucceeded H)).
Defined.

(** Hooks.  An accepted transition calls every registered hook once, in the order of
    registration, with its two states; a rejected one calls none, and its error wraps the
    terminal-state sentinel when the state is terminal and the illegal-transition sentinel
    otherwise. *)
Theorem Transition_hooks {Hook} (hs : list Hook) from to :
  match Transition from to (with_hooks hs) with
  | (calls, None) => (from, to) ∈ legal_moves ∧ calls = (λ h, (h, from, to)) <$> hs
  | (calls, Some err) => ((from, to) ∉ legal_moves) ∧ calls = [] ∧
      errors_Is err STerminalState = IsTerminal from ∧
      errors_Is err SIllegalTransition = negb (IsTerminal from)
  end.
Proof.
  pose proof (accepted_moves hs from to) as Ha. unfold accepted, Transition in *.
  destruct (IsTerminal from); [split_and!; [by rewrite <- Ha|done..]|].
  destruct (CanTransition from to (with_hooks hs)); simpl in *.
  - split; [by apply Ha|]. unfold with_hooks. by rewrite foldl_RegisterHook.
  - split_and!; [by rewrite <- Ha|done..].
Qed.
