(* ===== verification/Dag.v ===== *)
(** The dependency graph: [internal/dag/dag.go].

    The adjacency lists are slices, each owned by one key of one map.  [removeEdge] deletes in
    place, which is visible in one spot: the loops of [RemoveNode] range over the very slice
    whose backing array [removeEdge] shifts.  The lists are values here, and those loops carry
    the backing array. *)
From stdpp Require Import relations.
From S2P Require Import Prelude Errors.

Record Graph := MkGraph {
  g_nodes : gset string;
  g_edges : gmap string (list string);
  g_reverse : gmap string (list string)
}.

Definition NewGraph : Graph := MkGraph ∅ ∅ ∅.

(** Reading a missing key of a map of slices gives the nil slice. *)
Definition out (g : Graph) (n : string) : list string := default [] (g_edges g !! n).
Definition inc (g : Graph) (n : string) : list string := default [] (g_reverse g !! n).

Definition AddNode (name : string) (g : Graph) : Graph :=
  MkGraph ({[name]} ∪ g_nodes g) (<[name := out g name]> (g_edges g))
    (<[name := inc g name]> (g_reverse g)).

(** The loops of [removeEdge]: the list without the first occurrence, if there is one. *)
Fixpoint remove_first (x : string) (l : list string) : option (list string) :=
  match l with
  | [] => None
  | y :: l' => if bool_decide (y = x) then Some l' else (y ::.) <$> remove_first x l'
  end.

Definition update_list (m : gmap string (list string)) (k x : string) : gmap string (list string) :=
  match remove_first x (default [] (m !! k)) with
  | Some l => <[k := l]> m
  | None => m
  end.

Definition removeEdge (from to : string) (g : Graph) : Graph :=
  MkGraph (g_nodes g) (update_list (g_edges g) from to) (update_list (g_reverse g) to from).

Definition RemoveEdge (from to : string) (g : Graph) : Graph := removeEdge from to g.

(** The backing array of a slice [l] after [append(l[:i], l[i+1:]...)]: the elements after
    [i] move one place down, and the last place keeps its element. *)
Definition shift_down (i : nat) (n : nat) (arr : list string) : list string :=
  take i arr ++ drop (S i) (take n arr) ++ drop (n - 1) arr.

(** The in-place deletion of the first occurrence of [x] in the slice [l] whose backing array
    is [arr]. *)
Definition shift_first (x : string) (l arr : list string) : list string :=
  match list_find (x =.) l with
  | Some (i, _) => shift_down i (length l) arr
  | None => arr
  end.

(** The loop over [g.reverse[name]], at the indices [ks] of the slice it started with. *)
Fixpoint remove_in (name : string) (ks : list nat) (arr : list string) (g : Graph) : Graph :=
  match ks with
  | [] => g
  | k :: ks' =>
      let from := nth k arr "" in
      remove_in name ks' (shift_first from (inc g name) arr) (removeEdge from name g)
  end.

(** The loop over [g.edges[name]]. *)
Fixpoint remove_out (name : string) (ks : list nat) (arr : list string) (g : Graph) : Graph :=
  match ks with
  | [] => g
  | k :: ks' =>
      let to := nth k arr "" in
      remove_out name ks' (shift_first to (out g name) arr) (removeEdge name to g)
  end.

Definition RemoveNode (name : string) (g : Graph) : Graph :=
  let g := MkGraph (g_nodes g ∖ {[name]}) (g_edges g) (g_reverse g) in
  let rev := inc g name in
  let g := remove_in name (seq 0 (length rev)) rev g in
  let outs := out g name in
  let g := remove_out name (seq 0 (length outs)) outs g in
  MkGraph (g_nodes g) (delete name (g_edges g)) (delete name (g_reverse g)).

(** The loop of [hasPath]; the top of the stack is the head of the list, so that the
    successors of a node are pushed in reverse. *)
Fixpoint search (g : Graph) (to : string) (fuel : nat) (visited : gset string)
    (stack : list string) : option bool :=
  match fuel with
  | 0 => None
  | S fuel' =>
      match stack with
      | [] => Some false
      | current :: stack' =>
          if bool_decide (current = to) then Some true
          else if bool_decide (current ∈ visited) then search g to fuel' visited stack'
          else search g to fuel' ({[current]} ∪ visited) (reverse (out g current) ++ stack')
      end
  end.

(** A node's successors are pushed once, so the loop pops at most one node per edge and the
    first one; one more round sees the stack empty. *)
Definition edge_count (g : Graph) : nat :=
  sum_list_with (λ kl, length kl.2) (map_to_list (g_edges g)).

Definition hasPath (g : Graph) (from to : string) : bool :=
  default false (search g to (2 + edge_count g) ∅ [from]).

Definition err_node : error := EFmt "node not found" [].
Definition err_would_cycle : error := EFmt "would create cycle" [].
Definition err_cycle : error := EFmt "cycle detected" [].

Definition AddEdge (from to : string) (g : Graph) : result error unit * Graph :=
  if negb (bool_decide (from ∈ g_nodes g)) || negb (bool_decide (to ∈ g_nodes g)) then
    (Err err_node, g)
  else if hasPath g to from then (Err err_would_cycle, g)
  else (Ok (), MkGraph (g_nodes g) (<[from := out g from ++ [to]]> (g_edges g))
                 (<[to := inc g to ++ [from]]> (g_reverse g))).

Definition HasNode (g : Graph) (name : string) : bool := bool_decide (name ∈ g_nodes g).

(** [for n := range g.nodes], in the order of the oracle. *)
Definition Nodes (sh : shuffle) (g : Graph) : list string := sh _ (elements (g_nodes g)).

(** [inDegree[to]++] for every edge. *)
Definition incr (m : gmap string Z) (n : string) : gmap string Z :=
  <[n := (default 0 (m !! n) + 1)%Z]> m.
Definition decr (m : gmap string Z) (n : string) : gmap string Z :=
  <[n := (default 0 (m !! n) - 1)%Z]> m.

Definition in_degrees (sh : shuffle) (g : Graph) : gmap string Z :=
  let m := foldl (λ m n, <[n := 0%Z]> m) ∅ (Nodes sh g) in
  foldl (foldl incr) m (range_values sh (g_edges g)).

(** The inner loop of the sort: the degrees and the queue after a node's edges. *)
Fixpoint release (tos : list string) (deg : gmap string Z) (queue : list string) :
    gmap string Z * list string :=
  match tos with
  | [] => (deg, queue)
  | to :: tos' =>
      let deg' := decr deg to in
      release tos' deg'
        (if bool_decide (default 0%Z (deg' !! to) = 0%Z) then queue ++ [to] else queue)
  end.

Fixpoint sort_loop (g : Graph) (fuel : nat) (deg : gmap string Z) (queue res : list string) :
    option (list string) :=
  match queue with
  | [] => Some res
  | node :: queue' =>
      match fuel with
      | 0 => None
      | S fuel' =>
          let '(deg', queue'') := release (out g node) deg queue' in
          sort_loop g fuel' deg' queue'' (res ++ [node])
      end
  end.

(** A key of the degree map enters the queue at most once, when its degree is or becomes zero,
    so there are at most as many rounds as keys and the fuel does not run out. *)
Definition TopologicalSort (sh : shuffle) (g : Graph) : result error (list string) :=
  let deg := in_degrees sh g in
  let queue := (filter (λ nd, nd.2 = 0%Z) (range_map sh deg)).*1 in
  match sort_loop g (size deg) deg queue [] with
  | Some res => if bool_decide (length res = size (g_nodes g)) then Ok res else Err err_cycle
  | None => Err err_cycle
  end.

Definition Dependents (g : Graph) (node : string) : list string := [] ++ out g node.
Definition Dependencies (g : Graph) (node : string) : list string := [] ++ inc g node.

(** * Theorems

    Correctness of the dependency graph: the search for a path decides reachability, a graph
    built by the graph's operations stays acyclic, and its topological sort succeeds with every
    edge going forward. *)

Definition edge (g : Graph) (u v : string) : Prop := v ∈ out g u.

(** * Sums over the unvisited sources *)

(** The sum of [f] over the adjacency lists of the nodes that are not in [vis]. *)
Definition open_sum (g : Graph) (f : list string → nat) (vis : gset string) : nat :=
  sum_list_with (λ kl, if decide (kl.1 ∈ vis) then 0 else f kl.2) (map_to_list (g_edges g)).

Lemma sum_list_with_ext {A} (f h : A → nat) l :
  (∀ x, x ∈ l → f x = h x) → sum_list_with f l = sum_list_with h l.
Proof.
  induction l as [|a l IH]; intros H; [done|]. simpl. rewrite (H a), IH; [done| |]; set_solver.
Qed.

Lemma open_sum_visit g f vis x :
  f [] = 0 → x ∉ vis → open_sum g f vis = open_sum g f ({[x]} ∪ vis) + f (out g x).
Proof.
  intros Hf Hx. unfold open_sum, out. destruct (g_edges g !! x) as [l|] eqn:E; simpl.
  - assert (map_to_list (g_edges g) ≡ₚ (x, l) :: map_to_list (delete x (g_edges g))) as ->.
    { rewrite <- map_to_list_insert by apply lookup_delete_eq. by rewrite insert_delete_id. }
    simpl. rewrite (decide_False (P := x ∈ vis)), (decide_True (P := x ∈ {[x]} ∪ vis)) by set_solver.
    rewrite (sum_list_with_ext _ (λ kl, if decide (kl.1 ∈ {[x]} ∪ vis) then 0 else f kl.2)); [lia|].
    intros [k l'] Hk. apply elem_of_map_to_list, lookup_delete_Some in Hk as [Hne _]. simpl.
    destruct (decide (k ∈ vis)); [rewrite decide_True|rewrite decide_False]; set_solver.
  - rewrite Hf, Nat.add_0_r. apply sum_list_with_ext. intros [k l] Hk.
    apply elem_of_map_to_list in Hk. simpl.
    assert (k ≠ x) by congruence.
    destruct (decide (k ∈ vis)); [rewrite decide_True|rewrite decide_False]; set_solver.
Qed.

Lemma open_sum_zero g f vis u :
  open_sum g f vis = 0 → f [] = 0 → u ∉ vis → f (out g u) = 0.
Proof. intros H Hf Hu. rewrite (open_sum_visit g f vis u Hf Hu) in H. lia. Qed.

(** * The search for a path *)

Lemma edge_count_sum g : edge_count g = open_sum g length ∅.
Proof.
  unfold edge_count, open_sum. apply sum_list_with_ext. intros kl _.
  by rewrite decide_False by set_solver.
Qed.

Lemma search_true g to fuel vis stack :
  search g to fuel vis stack = Some true → ∃ x, x ∈ stack ∧ rtc (edge g) x to.
Proof.
  revert vis stack. induction fuel as [|fuel IH]; intros vis stack; simpl; [done|].
  destruct stack as [|c stack]; [done|]. case_bool_decide as E.
  { intros _. exists c. subst. split; [set_solver|done]. }
  case_bool_decide.
  - intros (x & Hx & Hp)%IH. exists x. split; [set_solver|done].
  - intros (x & Hx & Hp)%IH. apply elem_of_app in Hx as [Hx|Hx].
    + rewrite elem_of_reverse in Hx. exists c. split; [set_solver|]. apply (rtc_l _ c x); [exact Hx|exact Hp].
    + exists x. split; [set_solver|done].
Qed.

(** The nodes that were visited are closed under edges, up to the stack. *)
Lemma search_false g to fuel vis stack :
  to ∉ vis → (∀ u v, u ∈ vis → edge g u v → v ∈ vis ∨ v ∈ stack) →
  search g to fuel vis stack = Some false →
  ∀ x, x ∈ vis ∨ x ∈ stack → ¬ rtc (edge g) x to.
Proof.
  revert vis stack. induction fuel as [|fuel IH]; intros vis stack Hto Hcl; simpl; [done|].
  destruct stack as [|c stack].
  - intros _ x [Hx|Hx%elem_of_nil] Hp; [|done]. induction Hp as [x|x y z Hxy Hp IHp]; [done|].
    apply IHp; [done|done|]. destruct (Hcl x y Hx Hxy) as [?|?%elem_of_nil]; done.
  - case_bool_decide as Ec; [done|]. case_bool_decide as Ev; intros Hs x Hx.
    + eapply IH; [done| |exact Hs|]; [|set_solver].
      intros u v Hu Huv. destruct (Hcl u v Hu Huv) as [?|Hv]; [by left|]. set_solver.
    + eapply IH; [| |exact Hs|]; [set_solver| |set_solver].
      intros u v [->%elem_of_singleton|Hu]%elem_of_union Huv.
      * right. apply elem_of_app. left. by rewrite elem_of_reverse.
      * destruct (Hcl u v Hu Huv) as [?|Hv]; set_solver.
Qed.

Lemma search_fuel g to fuel vis stack :
  length stack + open_sum g length vis < fuel → is_Some (search g to fuel vis stack).
Proof.
  revert vis stack. induction fuel as [|fuel IH]; intros vis stack Hf; [lia|]. simpl.
  destruct stack as [|c stack]; [done|]. simpl in Hf. case_bool_decide; [done|].
  case_bool_decide as Ev; [apply IH; lia|]. apply IH.
  rewrite length_app, length_reverse. rewrite (open_sum_visit g length vis c) in Hf by done. lia.
Qed.

Lemma hasPath_spec g from to : hasPath g from to = true ↔ rtc (edge g) from to.
Proof.
  unfold hasPath. destruct (search_fuel g to (2 + edge_count g) ∅ [from]) as [b Hb].
  { rewrite edge_count_sum. simpl. lia. }
  rewrite Hb. simpl. split.
  - intros ->. apply search_true in Hb as (x & ->%list_elem_of_singleton & Hp). done.
  - intros Hp. destruct b; [done|]. exfalso. revert Hp.
    eapply search_false; [| |exact Hb|]; set_solver.
Qed.

(** * Graphs built by the operations *)

Lemma remove_first_cnt x l y :
  match remove_first x l with
  | Some l' => cnt y l = cnt y l' + (if decide (y = x) then 1 else 0)
  | None => x ∉ l
  end.
Proof.
  induction l as [|z l IH]; simpl; [set_solver|]. case_bool_decide as E.
  - subst. rewrite cnt_cons. lia.
  - destruct (remove_first x l) as [l'|]; simpl; [rewrite !cnt_cons; lia|set_solver].
Qed.

Record dag_wf (g : Graph) : Prop := {
  dw_nodes : ∀ u v, edge g u v → u ∈ g_nodes g ∧ v ∈ g_nodes g;
  dw_mirror : ∀ u v, cnt v (out g u) = cnt u (inc g v);
  dw_rank : ∃ rank : string → nat, ∀ u v, edge g u v → rank u < rank v
}.

Inductive dag_op :=
| OpAddNode (name : string)
| OpAddEdge (from to : string)
| OpRemoveEdge (from to : string).

Definition dag_step (g : Graph) (o : dag_op) : Graph :=
  match o with
  | OpAddNode name => AddNode name g
  | OpAddEdge from to => (AddEdge from to g).2
  | OpRemoveEdge from to => RemoveEdge from to g
  end.

Definition build (ops : list dag_op) : Graph := foldl dag_step NewGraph ops.

Lemma default_insert (m : gmap string (list string)) k l k' :
  default [] (<[k := l]> m !! k') = if decide (k' = k) then l else default [] (m !! k').
Proof.
  case_decide; [subst; by rewrite lookup_insert_eq|by rewrite lookup_insert_ne].
Qed.

Lemma out_AddNode g n u : out (AddNode n g) u = out g u.
Proof. unfold out at 1. simpl. rewrite default_insert. by case_decide; subst. Qed.
Lemma inc_AddNode g n u : inc (AddNode n g) u = inc g u.
Proof. unfold inc at 1. simpl. rewrite default_insert. by case_decide; subst. Qed.

Lemma update_list_cnt m k x k' y :
  cnt x (default [] (m !! k)) ≠ 0 →
  cnt y (default [] (m !! k')) =
  cnt y (default [] (update_list m k x !! k')) + (if decide (k' = k ∧ y = x) then 1 else 0).
Proof.
  intros Hx. unfold update_list. pose proof (remove_first_cnt x (default [] (m !! k)) y) as H.
  destruct (remove_first x _) as [l|]; [|by apply cnt_elem in Hx].
  rewrite default_insert. destruct (decide (k' = k)) as [->|Hne].
  - rewrite H. repeat case_decide; naive_solver.
  - rewrite decide_False by tauto. lia.
Qed.

Lemma update_list_none m k x :
  cnt x (default [] (m !! k)) = 0 → update_list m k x = m.
Proof.
  intros Hx. unfold update_list. pose proof (remove_first_cnt x (default [] (m !! k)) x) as H.
  destruct (remove_first x _); [|done]. rewrite decide_True in H by done. lia.
Qed.

Lemma removeEdge_wf from to g : dag_wf g → dag_wf (removeEdge from to g).
Proof.
  intros [Hn Hm [rank Hr]]. destruct (decide (cnt to (out g from) = 0)) as [E|E].
  { unfold removeEdge. pose proof E as E'. rewrite Hm in E'.
    rewrite (update_list_none (g_edges g) from to E), (update_list_none (g_reverse g) to from E').
    split; [exact Hn|exact Hm|by exists rank]. }
  pose proof E as E'. rewrite Hm in E'.
  assert (∀ u v, edge (removeEdge from to g) u v → edge g u v) as Hsub.
  { intros u v Huv. apply cnt_elem. apply cnt_elem in Huv.
    unfold out in *. simpl in Huv.
    rewrite (update_list_cnt (g_edges g) from to u v E). lia. }
  split.
  - intros u v Huv. by apply Hn, Hsub.
  - intros u v. specialize (Hm u v). unfold out, inc in *. simpl.
    rewrite (update_list_cnt (g_edges g) from to u v E) in Hm.
    rewrite (update_list_cnt (g_reverse g) to from v u E') in Hm.
    repeat case_decide; naive_solver lia.
  - exists rank. intros u v Huv. by apply Hr, Hsub.
Qed.

(** The new rank lifts what the target of the new edge reaches above its source. *)
Lemma AddEdge_wf from to g : dag_wf g → dag_wf (AddEdge from to g).2.
Proof.
  intros Hwf. unfold AddEdge. destruct (bool_decide_reflect (from ∈ g_nodes g)) as [Hf|]; [|done].
  destruct (bool_decide_reflect (to ∈ g_nodes g)) as [Ht|]; [|done]. simpl.
  destruct (hasPath g to from) eqn:Hp; simpl; [done|].
  destruct Hwf as [Hn Hm [rank Hr]]. set (g' := MkGraph _ _ _).
  assert (∀ u, out g' u = if decide (u = from) then out g from ++ [to] else out g u) as Hout
    by (intros u; apply default_insert).
  assert (∀ v, inc g' v = if decide (v = to) then inc g to ++ [from] else inc g v) as Hinc
    by (intros v; apply default_insert).
  assert (∀ u v, edge g' u v → edge g u v ∨ u = from ∧ v = to) as Hedge.
  { intros u v. unfold edge. rewrite Hout. case_decide; set_solver. }
  split.
  - intros u v [Huv|[-> ->]]%Hedge; [by apply Hn|done].
  - intros u v. rewrite Hout, Hinc. specialize (Hm u v).
    repeat case_decide; subst; rewrite ?cnt_app, ?cnt_cons; unfold cnt in *; simpl;
      repeat case_decide; naive_solver lia.
  - exists (λ x, rank x + if hasPath g to x then S (rank from) else 0). simpl.
    intros u v [Huv|[-> ->]]%Hedge.
    + specialize (Hr u v Huv). destruct (hasPath g to u) eqn:Hu; [|lia].
      apply hasPath_spec in Hu.
      assert (hasPath g to v = true) as -> by (apply hasPath_spec; by eapply rtc_r).
      lia.
    + rewrite Hp. assert (hasPath g to to = true) as -> by (by apply hasPath_spec). lia.
Qed.

Lemma build_wf ops : dag_wf (build ops).
Proof.
  unfold build. assert (dag_wf NewGraph) as H.
  { split; [intros u v Huv; by apply elem_of_nil in Huv|done|].
    exists (λ _, 0). intros u v Huv. by apply elem_of_nil in Huv. }
  revert H. generalize NewGraph. induction ops as [|o ops IH]; intros g Hg; [done|].
  apply IH. destruct o as [n|u v|u v]; simpl; [|by apply AddEdge_wf|by apply removeEdge_wf].
  destruct Hg as [Hn Hm [rank Hr]]. split.
  - intros u v. unfold edge. rewrite out_AddNode. intros Huv%Hn. simpl. set_solver.
  - intros u v. by rewrite out_AddNode, inc_AddNode.
  - exists rank. intros u v. unfold edge. rewrite out_AddNode. apply Hr.
Qed.

(** * In-degrees *)

Lemma foldl_incr l deg n :
  degree (foldl incr deg l) n = (degree deg n + Z.of_nat (cnt n l))%Z ∧
  dom (foldl incr deg l) = dom deg ∪ list_to_set l.
Proof.
  revert deg. induction l as [|x l IH]; intros deg; simpl.
  - split; [unfold cnt; simpl; lia|set_solver].
  - destruct (IH (incr deg x)) as [-> ->]. unfold incr. rewrite degree_insert, dom_insert_L, cnt_cons.
    split; [|set_solver]. fold (degree deg x). case_decide; subst; lia.
Qed.

Lemma foldl_foldl_incr ls deg n :
  degree (foldl (foldl incr) deg ls) n =
    (degree deg n + Z.of_nat (sum_list_with (cnt n) ls))%Z ∧
  dom (foldl (foldl incr) deg ls) = dom deg ∪ list_to_set (concat ls).
Proof.
  revert deg. induction ls as [|l ls IH]; intros deg; simpl; [split; [lia|set_solver]|].
  destruct (IH (foldl incr deg l)) as [-> ->]. destruct (foldl_incr l deg n) as [-> ->].
  rewrite list_to_set_app_L. split; [lia|set_solver].
Qed.

Lemma foldl_zero l deg n :
  degree (foldl (λ m n, <[n := 0%Z]> m) deg l) n =
    (if decide (n ∈ l) then 0 else degree deg n)%Z ∧
  dom (foldl (λ m n, <[n := 0%Z]> m) deg l) = dom deg ∪ list_to_set l.
Proof.
  revert deg. induction l as [|x l IH]; intros deg; simpl; [split; [done|set_solver]|].
  destruct (IH (<[x := 0%Z]> deg)) as [-> ->]. rewrite degree_insert, dom_insert_L.
  split; [|set_solver]. destruct (decide (n ∈ l)), (decide (n = x)), (decide (n ∈ x :: l));
    set_solver.
Qed.

Lemma elem_of_Nodes sh g n : n ∈ Nodes sh g ↔ n ∈ g_nodes g.
Proof. unfold Nodes. by rewrite (shuffle_perm sh), elem_of_elements. Qed.

Lemma in_degrees_degree sh g n :
  degree (in_degrees sh g) n = Z.of_nat (open_sum g (cnt n) ∅).
Proof.
  unfold in_degrees. destruct (foldl_foldl_incr (range_values sh (g_edges g))
    (foldl (λ m n, <[n := 0%Z]> m) ∅ (Nodes sh g)) n) as [-> _].
  destruct (foldl_zero (Nodes sh g) ∅ n) as [-> _].
  unfold range_values. rewrite sum_list_with_fmap, (sum_list_with_perm _ _ _ (range_map_perm sh _)).
  assert (open_sum g (cnt n) ∅ = sum_list_with (cnt n ∘ snd) (map_to_list (g_edges g))) as ->.
  { apply sum_list_with_ext. intros kl _. by rewrite decide_False by set_solver. }
  unfold degree. rewrite lookup_empty. by case_decide.
Qed.

Lemma in_degrees_dom sh g n :
  n ∈ dom (in_degrees sh g) ↔ n ∈ g_nodes g ∨ ∃ u, edge g u n.
Proof.
  unfold in_degrees. destruct (foldl_foldl_incr (range_values sh (g_edges g))
    (foldl (λ m n, <[n := 0%Z]> m) ∅ (Nodes sh g)) n) as [_ ->].
  destruct (foldl_zero (Nodes sh g) ∅ n) as [_ ->].
  rewrite dom_empty_L, !elem_of_union, !elem_of_list_to_set, elem_of_Nodes, list_elem_of_In, in_concat.
  split.
  - intros [[?%elem_of_empty|?]|(l & Hl & Hn)]; [done|by left|right].
    apply list_elem_of_In, elem_of_range_values in Hl as [u Hu]. exists u.
    unfold edge, out. rewrite Hu. by apply list_elem_of_In.
  - intros [?|[u Hu]]; [by left; right|right]. unfold edge, out in Hu.
    destruct (g_edges g !! u) as [l|] eqn:E; [|by apply elem_of_nil in Hu].
    exists l. split; [|by apply list_elem_of_In]. apply list_elem_of_In, elem_of_range_values. eauto.
Qed.

(** * The loop of the sort *)

Lemma release_spec tos deg queue deg' queue' :
  release tos deg queue = (deg', queue') →
  (∀ n, n ∈ tos → n ∈ dom deg) → (∀ n, (Z.of_nat (cnt n tos) <= degree deg n)%Z) →
  (∀ n, degree deg' n = (degree deg n - Z.of_nat (cnt n tos))%Z) ∧ dom deg' = dom deg ∧
  ∃ q, queue' = queue ++ q ∧ NoDup q ∧ ∀ n, n ∈ q ↔ n ∈ tos ∧ degree deg' n = 0%Z.
Proof.
  revert deg queue. induction tos as [|x tos IH]; intros deg queue; simpl.
  { intros [= <- <-] _ _. split_and!; [intros n; unfold cnt; simpl; lia|done|].
    exists []. split_and!; [by rewrite app_nil_r|constructor|set_solver]. }
  intros Hr Hdom Hge. assert (degree (decr deg x) x = degree deg x - 1)%Z as Hx.
  { unfold decr. by rewrite degree_insert, decide_True. }
  assert (∀ n, n ≠ x → degree (decr deg x) n = degree deg n) as Hne.
  { intros n Hn. unfold decr. by rewrite degree_insert, decide_False. }
  assert (dom (decr deg x) = dom deg) as Hd.
  { unfold decr. rewrite dom_insert_L. set_solver. }
  destruct (IH _ _ Hr) as (Hdeg & Hdom' & q & -> & Hnd & Hq).
  { intros n Hn. rewrite Hd. set_solver. }
  { intros n. specialize (Hge n). rewrite cnt_cons in Hge. destruct (decide (n = x)) as [->|Hn].
    - rewrite Hx. lia.
    - rewrite Hne by done. lia. }
  split_and!; [|by rewrite Hdom'|].
  { intros n. rewrite Hdeg, cnt_cons. destruct (decide (n = x)) as [->|Hn].
    - rewrite Hx. lia.
    - rewrite Hne by done. lia. }
  case_bool_decide as Hz; fold (degree (decr deg x) x) in Hz.
  - assert (cnt x tos = 0) as Hnot.
    { specialize (Hge x). rewrite cnt_cons, decide_True in Hge by done. lia. }
    exists (x :: q). rewrite <- app_assoc. split_and!; [done| |].
    + apply NoDup_cons. split; [|done]. rewrite Hq, cnt_elem. tauto.
    + intros n. rewrite !elem_of_cons, Hq. split; [|tauto]. intros [->|?]; [|tauto].
      split; [by left|]. by rewrite Hdeg, Hz, Hnot.
  - exists q. split_and!; [done..|]. intros n. rewrite Hq, elem_of_cons. split; [tauto|].
    intros [[->|?] H0]; [|done]. split; [|done]. apply cnt_elem. rewrite Hdeg in H0. lia.
Qed.

(** The nodes [res] that are sorted, the queue, and the degrees that count the edges from the
    nodes not yet sorted. *)
Record kahn (g : Graph) (deg : gmap string Z) (queue res : list string) : Prop := {
  k_nodup : NoDup (res ++ queue);
  k_deg : ∀ n, degree deg n = Z.of_nat (open_sum g (cnt n) (list_to_set res));
  k_dom : ∀ u v, edge g u v → v ∈ dom deg;
  k_ready : ∀ n, n ∈ res ++ queue ↔ n ∈ dom deg ∧ degree deg n = 0%Z;
  k_order : ∀ l1 v l2, res = l1 ++ v :: l2 → ∀ u, edge g u v → u ∈ l1
}.

Lemma kahn_step g deg node queue res deg' queue' :
  kahn g deg (node :: queue) res → release (out g node) deg queue = (deg', queue') →
  kahn g deg' queue' (res ++ [node]) ∧ dom deg' = dom deg.
Proof.
  intros [Hnd Hdeg Hdom Hready Hord] Hrel.
  assert (node ∉ res) as Hnode.
  { apply NoDup_app in Hnd as (_ & Hd & _). intros Hin. by apply (Hd node Hin), list_elem_of_here. }
  assert (∀ n, open_sum g (cnt n) (list_to_set res) =
    open_sum g (cnt n) (list_to_set (res ++ [node])) + cnt n (out g node)) as Hsum.
  { intros n. rewrite (open_sum_visit g (cnt n) (list_to_set res) node); [|done|set_solver].
    f_equal. f_equal. rewrite list_to_set_app_L. set_solver. }
  destruct (release_spec _ _ _ _ _ Hrel) as (Hdeg' & Hdom' & q & -> & Hndq & Hq).
  { intros n Hn. by apply (Hdom node). }
  { intros n. rewrite Hdeg, Hsum. lia. }
  assert (∀ n, n ∈ res ++ node :: queue → cnt n (out g node) = 0) as Hold.
  { intros n [_ H0]%Hready. rewrite Hdeg, Hsum in H0. lia. }
  assert (∀ n, n ∈ (res ++ [node]) ++ queue ++ q ↔ n ∈ res ++ node :: queue ∨ n ∈ q) as Hel.
  { intros n. rewrite !elem_of_app, !elem_of_cons, elem_of_nil. tauto. }
  split; [|done]. split.
  - rewrite (assoc_L (++)), <- (assoc_L (++) res). simpl. apply NoDup_app. split_and!; [done| |done].
    intros n Hn Hin. apply Hold in Hn. apply Hq in Hin as [Hin%cnt_elem _]. lia.
  - intros n. rewrite Hdeg', Hdeg, Hsum. lia.
  - intros u v Huv. rewrite Hdom'. by eapply Hdom.
  - intros n. rewrite Hel, Hdom'. split.
    + intros [Hn|[Hn H0]%Hq]; [|split; [by apply (Hdom node)|done]]. rewrite Hdeg', (Hold n Hn).
      apply Hready in Hn as [? ->]. done.
    + intros [Hn H0]. destruct (decide (cnt n (out g node) = 0)) as [E|E].
      * left. apply Hready. split; [done|]. rewrite Hdeg', E in H0. lia.
      * right. apply Hq. split; [by apply cnt_elem|done].
  - intros l1 v l2 Heq u Huv. destruct l2 as [|x l2 _] using rev_ind.
    + apply app_inj_tail in Heq as [<- <-]. apply dec_stable. intros Hu.
      assert (degree deg node = 0%Z) as H0.
      { apply Hready. apply elem_of_app. right. apply list_elem_of_here. }
      rewrite Hdeg in H0.
      pose proof (open_sum_zero g (cnt node) (list_to_set res) u ltac:(lia) eq_refl) as Hz.
      apply cnt_elem in Huv. apply Huv, Hz. set_solver.
    + rewrite app_comm_cons, app_assoc in Heq. apply app_inj_tail in Heq as [-> _].
      by apply (Hord l1 v l2).
Qed.

Lemma kahn_length g deg queue res : kahn g deg queue res → length (res ++ queue) <= size deg.
Proof.
  intros [Hnd _ _ Hready _]. rewrite <- size_dom, <- (size_list_to_set (C := gset string)) by done.
  apply subseteq_size. intros n Hn%elem_of_list_to_set. by apply Hready.
Qed.

Lemma sort_loop_spec g fuel deg queue res :
  kahn g deg queue res → size deg <= fuel + length res →
  ∃ r deg', sort_loop g fuel deg queue res = Some r ∧ kahn g deg' [] r ∧ dom deg' = dom deg.
Proof.
  revert deg queue res. induction fuel as [|fuel IH]; intros deg queue res Hk Hf;
    (destruct queue as [|node queue]; [simpl; eauto|]).
  - pose proof (kahn_length _ _ _ _ Hk) as Hl. rewrite length_app in Hl. simpl in Hl. lia.
  - simpl. destruct (release (out g node) deg queue) as [deg' queue'] eqn:E.
    destruct (kahn_step _ _ _ _ _ _ _ Hk E) as [Hk' Hdom].
    destruct (IH deg' queue' (res ++ [node])) as (r & deg2 & Hr & Hk2 & Hdom2); [done| |].
    + rewrite <- !size_dom in *. rewrite Hdom, length_app. simpl. lia.
    + exists r, deg2. split_and!; [done..|]. congruence.
Qed.

Lemma TopologicalSort_run sh g :
  ∃ r deg', kahn g deg' [] r ∧ dom deg' = dom (in_degrees sh g) ∧
    TopologicalSort sh g =
      if bool_decide (length r = size (g_nodes g)) then Ok r else Err err_cycle.
Proof.
  unfold TopologicalSort. set (deg := in_degrees sh g).
  set (queue := (filter (λ nd, nd.2 = 0%Z) (range_map sh deg)).*1).
  destruct (sort_loop_spec g (size deg) deg queue []) as (r & deg' & -> & Hk & Hd);
    [|simpl; lia|eauto].
  split.
  - simpl. apply (sublist_NoDup _ (range_map sh deg).*1); [apply NoDup_range_map_fst|].
    apply fmap_sublist, sublist_filter.
  - intros n. apply in_degrees_degree.
  - intros u v Huv. apply in_degrees_dom. eauto.
  - intros n. simpl. unfold queue. rewrite list_elem_of_fmap. split.
    + intros ([k z] & -> & Hin). apply list_elem_of_filter in Hin as [Hz Hin].
      apply elem_of_range_map in Hin. simpl in *. unfold degree. rewrite Hin. subst z.
      split; [by apply elem_of_dom_2 in Hin|done].
    + intros [[z Hz]%elem_of_dom H0]. exists (n, z). split; [done|].
      apply list_elem_of_filter. unfold degree in H0. rewrite Hz in H0.
      split; [done|]. by apply elem_of_range_map.
  - intros l1 v l2 H. by destruct l1.
Qed.

(** A list of nodes in which the source of every edge comes before its target. *)
Definition topological (g : Graph) (l : list string) : Prop :=
  l ≡ₚ elements (g_nodes g) ∧
  ∀ l1 v l2, l = l1 ++ v :: l2 → ∀ u, edge g u v → u ∈ l1.

(** The topological sort of a graph built by any sequence of added nodes, added edges and
    removed edges succeeds, whatever the iteration orders are: it lists every node once, the
    source of every edge before its target. *)
Theorem TopologicalSort_built ops sh :
  ∃ l, TopologicalSort sh (build ops) = Ok l ∧ topological (build ops) l.
Proof.
  destruct (build_wf ops) as [Hn _ [rank Hrank]]. set (g := build ops) in *.
  destruct (TopologicalSort_run sh g) as (r & deg & [Hnd Hdeg _ Hready Hord] & Hdom & ->).
  assert (∀ n, n ∈ dom deg ↔ n ∈ g_nodes g) as Hnodes.
  { intros n. rewrite Hdom, in_degrees_dom. split; [|by left].
    intros [?|[u Hu]]; [done|]. by apply (Hn u n). }
  rewrite app_nil_r in Hnd. setoid_rewrite app_nil_r in Hready.
  assert (∀ k n, rank n < k → n ∈ g_nodes g → n ∈ r) as Hall.
  { induction k as [|k IH]; intros n Hk Hin; [lia|]. apply Hready. split; [by apply Hnodes|].
    rewrite Hdeg. destruct (decide (open_sum g (cnt n) (list_to_set r) = 0)) as [->|E]; [done|].
    exfalso. apply E. unfold open_sum.
    rewrite (sum_list_with_ext _ (λ _, 0)); [by induction (map_to_list (g_edges g))|].
    intros [u l] Hu. simpl. case_decide as Hv; [done|]. apply elem_of_map_to_list in Hu.
    apply dec_stable. intros Hc. apply Hv, elem_of_list_to_set.
    assert (edge g u n) as Huv by (unfold edge, out; rewrite Hu; by apply cnt_elem).
    apply IH; [|by apply (Hn u n)]. specialize (Hrank u n Huv). lia. }
  assert (r ≡ₚ elements (g_nodes g)) as Hperm.
  { apply NoDup_Permutation; [done|apply NoDup_elements|]. intros n. rewrite elem_of_elements.
    split; [|by apply (Hall (S (rank n))); lia]. intros [Hin _]%Hready. by apply Hnodes. }
  exists r. split; [|done]. rewrite bool_decide_true; [done|].
  by rewrite (Permutation_length Hperm).
Qed.

(** [AddEdge] on a graph with both nodes refuses an edge exactly when its target already
    reaches its source, so that no sequence of operations makes a cycle; the search it relies on
    always ends with the right answer.  [Dependents] and [Dependencies] stay inverse to each
    other, with multiplicity. *)
Theorem AddEdge_acyclic ops from to :
  let g := build ops in
  (from ∈ g_nodes g → to ∈ g_nodes g →
     (AddEdge from to g).1 = Err err_would_cycle ↔ rtc (edge g) to from) ∧
  (∀ n, ¬ tc (edge g) n n) ∧
  (∀ u v, cnt v (Dependents g u) = cnt u (Dependencies g v)).
Proof.
  intros g. destruct (build_wf ops) as [_ Hm [rank Hr]]. fold g in Hm, Hr. split_and!; [| |done].
  - intros Hf Ht. unfold AddEdge. rewrite !bool_decide_true by done. simpl.
    rewrite <- hasPath_spec. by destruct (hasPath g to from).
  - assert (∀ x y, tc (edge g) x y → rank x < rank y) as H.
    { intros x y Hxy. induction Hxy as [x y Hxy|x y z Hxy _ IH]; [by apply Hr|].
      specialize (Hr x y Hxy). lia. }
    intros n Hn. specialize (H n n Hn). lia.
Qed.

(** * A node removed *)

Definition ex_fan : Graph :=
  build [OpAddNode "a"; OpAddNode "b"; OpAddNode "c"; OpAddNode "x";
         OpAddEdge "a" "x"; OpAddEdge "b" "x"; OpAddEdge "c" "x"].

(** [RemoveNode] can leave an edge to the node it removes: its loop ranges over the list of
    incoming edges while it deletes from it in place, and skips the second of three.  The
    remaining three nodes have no path between any two of them, but the sort of the graph
    reports a cycle. *)
Theorem RemoveNode_leaves_edge :
  let g := RemoveNode "x" ex_fan in
  g_nodes g = {["a"; "b"; "c"]} ∧ Dependents g "b" = ["x"] ∧
  Forall (λ u, Forall (λ v, hasPath g u v = true → u = v) ["a"; "b"; "c"]) ["a"; "b"; "c"] ∧
  TopologicalSort shuffle_id g = Err err_cycle.
Proof.
  cbv zeta. split_and!; [vm_compute; reflexivity..| |vm_compute; reflexivity].
  decide_closed.
Qed.
