(* ===== verification/Saga.v ===== *)
(** Sagas: [internal/saga/saga.go].

    The actions of a step are code outside the package.  An action changes the world [W] it acts
    on and may return an error; a compensation may be missing. *)
From S2P Require Import Prelude Errors.

Section saga.
Context {W : Type}.

Definition action : Type := W → option error * W.

Record Step := MkStep {
  step_Name : string;
  step_Execute : action;
  step_Compensate : option action
}.

Record Saga := MkSaga {
  sg_steps : list Step;
  sg_executed : list Step;
  sg_completed : bool;
  sg_failed : bool;
  sg_err : option error
}.

Definition NewSaga : Saga := MkSaga [] [] false false None.

Definition AddStep (st : Step) (s : Saga) : Saga :=
  MkSaga (sg_steps s ++ [st]) (sg_executed s) (sg_completed s) (sg_failed s) (sg_err s).

(** The body of the loop of [compensate]; the error of a compensation is dropped. *)
Definition compensate_step (st : Step) (w : W) : W :=
  match step_Compensate st with
  | Some c => (c w).2
  | None => w
  end.

(** The loop from index [i - 1] down to 0. *)
Fixpoint compensate_loop (executed : list Step) (i : nat) (w : W) : W :=
  match i with
  | 0 => w
  | S i' =>
      compensate_loop executed i'
        (match executed !! i' with Some st => compensate_step st w | None => w end)
  end.

Definition compensate (s : Saga) (w : W) : W :=
  compensate_loop (sg_executed s) (length (sg_executed s)) w.

Definition err_finished : error := EFmt "saga already finished" [].

(** The loop of [Execute] over the steps that remain. *)
Fixpoint execute_loop (steps : list Step) (s : Saga) (w : W) : option error * Saga * W :=
  match steps with
  | [] => (None, MkSaga (sg_steps s) (sg_executed s) true (sg_failed s) (sg_err s), w)
  | st :: steps' =>
      match step_Execute st w with
      | (Some err, w') =>
          let s' := MkSaga (sg_steps s) (sg_executed s) (sg_completed s) true (Some err) in
          (Some err, s', compensate s' w')
      | (None, w') =>
          execute_loop steps' (MkSaga (sg_steps s) (sg_executed s ++ [st]) (sg_completed s)
                                 (sg_failed s) (sg_err s)) w'
      end
  end.

Definition Execute (s : Saga) (w : W) : option error * Saga * W :=
  if sg_completed s || sg_failed s then (Some err_finished, s, w)
  else execute_loop (sg_steps s) s w.

Definition StepsExecuted (s : Saga) : nat := length (sg_executed s).
Definition StepsTotal (s : Saga) : nat := length (sg_steps s).

(** * The orchestrator *)

(** [Create] hands out a pointer: the sagas are in a heap, and the map holds addresses. *)
Record Orchestrator := MkOrchestrator {
  or_sagas : gmap string nat;
  or_heap : list Saga
}.

Definition NewOrchestrator : Orchestrator := MkOrchestrator ∅ [].

Definition Create (id : string) (o : Orchestrator) : nat * Orchestrator :=
  let p := length (or_heap o) in
  (p, MkOrchestrator (<[id := p]> (or_sagas o)) (or_heap o ++ [NewSaga])).

Definition Get (id : string) (o : Orchestrator) : option nat := or_sagas o !! id.

Definition Delete (id : string) (o : Orchestrator) : Orchestrator :=
  MkOrchestrator (delete id (or_sagas o)) (or_heap o).

Definition ListSagas (sh : shuffle) (o : Orchestrator) : list string :=
  (range_map sh (or_sagas o)).*1.

(** * Facts *)

(** A list of compensations, run in order. *)
Definition undo_all (l : list Step) (w : W) : W := foldl (flip compensate_step) w l.

Lemma compensate_loop_reverse l w : compensate_loop l (length l) w = undo_all (reverse l) w.
Proof.
  assert (∀ i, i <= length l → ∀ w, compensate_loop l i w = undo_all (reverse (take i l)) w) as H.
  { induction i as [|i IH]; intros Hi w0; [done|]. cbn [compensate_loop].
    destruct (lookup_lt_is_Some_2 l i) as [st Hst]; [lia|].
    rewrite Hst, IH by lia. rewrite (take_S_r _ _ _ Hst), reverse_app. done. }
  rewrite H by done. by rewrite take_ge.
Qed.

Lemma AddStep_all l : foldl (flip AddStep) NewSaga l = MkSaga l [] false false None.
Proof. induction l as [|st l IH] using rev_ind; [done|]. by rewrite foldl_app, IH. Qed.

(** The actions that succeed one after the other. *)
Fixpoint runs_ok (l : list Step) (w w' : W) : Prop :=
  match l with
  | [] => w' = w
  | st :: l' => ∃ w1, step_Execute st w = (None, w1) ∧ runs_ok l' w1 w'
  end.

(** What [Execute] does to the world: all actions succeed; or some action fails after others
    that succeeded, and those are compensated, the last one first. *)
Inductive outcome (steps : list Step) (w : W) : option error → list Step → W → Prop :=
| outcome_ok w' : runs_ok steps w w' → outcome steps w None steps w'
| outcome_fail l1 st l2 w1 w2 err :
    steps = l1 ++ st :: l2 → runs_ok l1 w w1 → step_Execute st w1 = (Some err, w2) →
    outcome steps w (Some err) l1 (undo_all (reverse l1) w2).

Lemma runs_ok_snoc l st w w1 w2 :
  runs_ok l w w1 → step_Execute st w1 = (None, w2) → runs_ok (l ++ [st]) w w2.
Proof.
  revert w. induction l as [|a l IH]; intros w; simpl; [intros -> ?; eauto|].
  intros (w' & Ha & Hl) Hst. eauto.
Qed.

Lemma execute_loop_outcome done rest s w0 w :
  sg_executed s = done → runs_ok done w0 w →
  match execute_loop rest s w with
  | (r, s', w') => outcome (done ++ rest) w0 r (sg_executed s') w' ∧
      sg_steps s' = sg_steps s ∧
      match r with
      | None => sg_completed s' = true ∧ sg_failed s' = sg_failed s
      | Some err => sg_failed s' = true ∧ sg_completed s' = sg_completed s ∧ sg_err s' = Some err
      end
  end.
Proof.
  revert done s w. induction rest as [|st rest IH]; intros done s w Hdone Hok; simpl.
  - rewrite Hdone, app_nil_r. split_and!; [by constructor|done..].
  - destruct (step_Execute st w) as [[err|] w'] eqn:E; simpl.
    + split_and!; [|done..]. unfold compensate. simpl. rewrite Hdone, compensate_loop_reverse.
      by eapply outcome_fail.
    + specialize (IH (done ++ [st]) (MkSaga (sg_steps s) (sg_executed s ++ [st]) (sg_completed s)
        (sg_failed s) (sg_err s)) w'). rewrite <- app_assoc in IH. simpl in IH.
      rewrite Hdone in IH |- *. apply IH; [done|]. by eapply runs_ok_snoc.
Qed.

Lemma undo_runs l w w' :
  (∀ st, st ∈ l → ∀ a b, step_Execute st a = (None, b) → compensate_step st b = a) →
  runs_ok l w w' → undo_all (reverse l) w' = w.
Proof.
  revert w. induction l as [|st l IH]; intros w Hinv; simpl; [by intros ->|].
  intros (w1 & Hst & Hl). rewrite reverse_cons. unfold undo_all. rewrite foldl_app. simpl.
  fold (undo_all (reverse l) w'). rewrite (IH w1); [|set_solver|done].
  apply Hinv; [set_solver|done].
Qed.
End saga.
Arguments Step : clear implicits.
Arguments Saga : clear implicits.

(** A saga executed for the first time either runs all its actions in order and is
    completed, or stops at the first action that fails, compensates exactly the steps that
    succeeded before it, the last one first, reports the action's error and is failed.  A second
    execution changes nothing and is an error. *)
Theorem saga_execute {W} (steps : list (Step W)) (w : W) :
  let s := foldl (flip AddStep) NewSaga steps in
  match Execute s w with
  | (r, s', w') => outcome steps w r (sg_executed s') w' ∧
      sg_completed s' = bool_decide (r = None) ∧ sg_failed s' = negb (bool_decide (r = None)) ∧
      ∀ w2, Execute s' w2 = (Some err_finished, s', w2)
  end.
Proof.
  cbv zeta. rewrite AddStep_all. unfold Execute at 1. simpl.
  pose proof (execute_loop_outcome [] steps (MkSaga steps [] false false None) w w eq_refl
    eq_refl) as Ho.
  destruct (execute_loop _ _ _) as [[r s'] w']. destruct Ho as (Ho & Hst & Hr). split; [done|].
  destruct r as [err|]; simpl in *.
  - destruct Hr as (Hf & Hc & _). split_and!; [done..|]. intros w2. unfold Execute.
    by rewrite Hf, orb_true_r.
  - destruct Hr as [Hc Hf]. split_and!; [done..|]. intros w2. unfold Execute. by rewrite Hc.
Qed.

(** C40: A failed saga restores the world.  When every compensation undoes its action and a
    failing action changes nothing, a saga that fails ends in the world it started in. *)
Theorem saga_restores_world {W} (steps : list (Step W)) (w : W) err s' w'
  (Hundo : ∀ st, st ∈ steps → ∀ a b, step_Execute st a = (None, b) → compensate_step st b = a)
  (Hatomic : ∀ st, st ∈ steps → ∀ a b e, step_Execute st a = (Some e, b) → b = a)
  (Hrun : Execute (foldl (flip AddStep) NewSaga steps) w = (Some err, s', w')) :
  w' = w.
Proof.
  rewrite AddStep_all in Hrun. unfold Execute in Hrun. simpl in Hrun.
  pose proof (execute_loop_outcome [] steps (MkSaga steps [] false false None) w w eq_refl
    eq_refl) as Ho.
  rewrite Hrun in Ho. destruct Ho as [Ho _]. simpl in Ho.
  inversion Ho as [|l1 st l2 w1 w2 e Heq Hok Hst]; subst.
  assert (w2 = w1) as -> by (eapply Hatomic; [apply elem_of_mid|exact Hst]).
  apply undo_runs; [|done]. intros st' Hin. apply Hundo. set_solver.
Qed.

Definition ex_add (n : Z) : Step Z :=
  MkStep "add" (λ w, (None, (w + n)%Z)) (Some (λ w, (None, (w - n)%Z))).
Definition ex_fail : Step Z := MkStep "fail" (λ w, (Some (EFmt "boom" []), w)) None.

Lemma saga_restores_world_witness :
  (Execute (foldl (flip AddStep) NewSaga [ex_add 3; ex_add 4; ex_fail; ex_add 5]) 10%Z).2 = 10%Z.
Proof.
  destruct (Execute (foldl (flip AddStep) NewSaga [ex_add 3; ex_add 4; ex_fail; ex_add 5]) 10%Z)
    as [[r s'] w'] eqn:E.
  assert (r = Some (EFmt "boom" [])) as -> by (vm_compute in E; by simplify_eq).
  apply (saga_restores_world [ex_add 3; ex_add 4; ex_fail; ex_add 5] 10%Z (EFmt "boom" []) s' w');
    [| |exact E].
  - intros st Hst a b. rewrite !elem_of_cons, elem_of_nil in Hst.
    destruct Hst as [->|[->|[->|[->|[]]]]]; simpl; intros ?; simplify_eq;
      unfold compensate_step; simpl; lia.
  - intros st Hst a b e. rewrite !elem_of_cons, elem_of_nil in Hst.
    destruct Hst as [->|[->|[->|[->|[]]]]]; simpl; intros ?; by simplify_eq.
Defined.
