(* ===== verification/Fencing.v ===== *)
(** Fencing tokens: [internal/fencing/token.go], [cas_generator.go], [lease.go],
    [storage_validator.go] and [context.go].

    Token numbers and epochs are unsigned 64-bit integers, so that they wrap around.  Each
    reading of the clock is an argument.  Where a method releases a lock between two accesses,
    what other goroutines do in between is an argument too. *)
From S2P Require Import Prelude Errors.

Abbreviation SStaleFencingToken := (SOther "fencing: stale fencing token rejected (zombie write defense)").
Abbreviation STokenExpired := (SOther "fencing: fencing token lease has expired").
Abbreviation SPreempted := (SOther "fencing: lock preemption detected by higher fencing token").
Abbreviation SMissingContextToken := (SOther "fencing: no fencing token found in execution context").

Definition add_u64 (x y : Z) : Z := wrap_u 64 (x + y).

Record FencingToken := MkFencingToken {
  ft_Resource : string;
  ft_Token : Z;
  ft_Owner : string;
  ft_Epoch : Z;
  ft_IssuedAt : Time;
  ft_ExpiresAt : Time
}.

Definition IsExpired (now : Time) (t : FencingToken) : bool := time_after now (ft_ExpiresAt t).

(** * The generator *)

Record TokenGenerator := MkTokenGenerator {
  tg_lastToken : gmap string Z;
  tg_epochs : gmap string Z;
  tg_activeTokens : gmap string FencingToken
}.

Definition NewTokenGenerator : TokenGenerator := MkTokenGenerator ∅ ∅ ∅.

(** A missing key of a map of integers reads as 0. *)
Definition u64_at (m : gmap string Z) (k : string) : Z := default 0%Z (m !! k).

Definition default_ttl (ttl : Duration) : Duration :=
  if (ttl <=? 0)%Z then (30 * second)%Z else ttl.

Definition AcquireToken (resource owner : string) (ttl : Duration) (now : Time)
    (g : TokenGenerator) : FencingToken * TokenGenerator :=
  let tokNum := add_u64 (u64_at (tg_lastToken g) resource) 1 in
  let lastToken := <[resource := tokNum]> (tg_lastToken g) in
  let '(epoch, epochs) :=
    if (tokNum =? 1)%Z then (1%Z, <[resource := 1%Z]> (tg_epochs g))
    else (u64_at (tg_epochs g) resource, tg_epochs g) in
  let token := MkFencingToken resource tokNum owner epoch now
                 (time_add now (default_ttl ttl)) in
  (token, MkTokenGenerator lastToken epochs (<[resource := token]> (tg_activeTokens g))).

Definition NextEpoch (resource : string) (g : TokenGenerator) : Z * TokenGenerator :=
  let epochs := <[resource := add_u64 (u64_at (tg_epochs g) resource) 1]> (tg_epochs g) in
  (u64_at epochs resource, MkTokenGenerator (tg_lastToken g) epochs (tg_activeTokens g)).

Definition LatestToken (resource : string) (g : TokenGenerator) : option FencingToken :=
  tg_activeTokens g !! resource.

Definition CurrentTokenNumber (resource : string) (g : TokenGenerator) : Z :=
  u64_at (tg_lastToken g) resource.

(** * The lock-free generator *)

Record ResourceCounter := MkResourceCounter { rc_counter : Z; rc_epoch : Z }.

Abbreviation CASTokenGenerator := (gmap string ResourceCounter) (only parsing).

Definition getOrCreateCounter (resource : string) (g : CASTokenGenerator) :
    ResourceCounter * CASTokenGenerator :=
  match g !! resource with
  | Some rc => (rc, g)
  | None => let rc := MkResourceCounter 0 1 in (rc, <[resource := rc]> g)
  end.

(** [others] is what other goroutines do between the addition to the counter and the reading
    of the epoch. *)
Definition AcquireFastToken (others : CASTokenGenerator → CASTokenGenerator)
    (resource owner : string) (ttl : Duration) (now : Time) (g : CASTokenGenerator) :
    FencingToken * CASTokenGenerator :=
  let '(rc, g) := getOrCreateCounter resource g in
  let tokNum := add_u64 (rc_counter rc) 1 in
  let g := others (<[resource := MkResourceCounter tokNum (rc_epoch rc)]> g) in
  let epoch := default 0%Z (rc_epoch <$> g !! resource) in
  (MkFencingToken resource tokNum owner epoch now (time_add now (default_ttl ttl)), g).

Definition AdvanceEpoch (resource : string) (g : CASTokenGenerator) : Z * CASTokenGenerator :=
  let '(rc, g) := getOrCreateCounter resource g in
  let epoch := add_u64 (rc_epoch rc) 1 in
  (epoch, <[resource := MkResourceCounter (rc_counter rc) epoch]> g).

Definition CurrentSeq (resource : string) (g : CASTokenGenerator) : Z :=
  default 0%Z (rc_counter <$> g !! resource).

(** * The lease manager *)

(** The errors keep their format and the sentinel they wrap; the numbers they print are left
    out, and so is the token that some methods return beside an error. *)
Definition err_token (format : string) (s : sentinel) : error := EWrap format [] (ESentinel s).

Definition CheckPreemption (now : Time) (current : FencingToken) (g : TokenGenerator) :
    option error :=
  if IsExpired now current then Some (err_token "%w: token %d expired at %s" STokenExpired)
  else match LatestToken (ft_Resource current) g with
  | None => None
  | Some latest =>
      if (ft_Token current <? ft_Token latest)%Z
      then Some (err_token "%w: resource %s preempted by token %d (current=%d)" SPreempted)
      else None
  end.

(** The manager's own mutex does not stop the generator: [others] is what other goroutines do
    to the generator between the second check and the write of the extended token. *)
Definition ExtendLease (others : TokenGenerator → TokenGenerator) (now now' : Time)
    (current : FencingToken) (additionalTTL : Duration) (g : TokenGenerator) :
    result error FencingToken * TokenGenerator :=
  match CheckPreemption now current g with
  | Some err => (Err err, g)
  | None =>
      let preempted :=
        match LatestToken (ft_Resource current) g with
        | Some latest => (ft_Token current <? ft_Token latest)%Z
        | None => false
        end in
      if preempted
      then (Err (err_token "%w: cannot extend preempted token %d < %d" SPreempted), g)
      else
        let updated := MkFencingToken (ft_Resource current) (ft_Token current) (ft_Owner current)
                         (ft_Epoch current) (ft_IssuedAt current)
                         (time_add now' (default_ttl additionalTTL)) in
        let g := others g in
        (Ok updated, MkTokenGenerator (tg_lastToken g) (tg_epochs g)
                       (<[ft_Resource current := updated]> (tg_activeTokens g)))
  end.

(** Callbacks are code outside the package, here names; [NotifyPreemption] returns its calls. *)
Abbreviation Subscribers := (gmap string (list string)) (only parsing).

Definition OnPreemption (resource callback : string) (m : Subscribers) : Subscribers :=
  <[resource := default [] (m !! resource) ++ [callback]]> m.

Definition NotifyPreemption (newToken : FencingToken) (m : Subscribers) :
    list (string * FencingToken) :=
  (λ cb, (cb, newToken)) <$> default [] (m !! ft_Resource newToken).

(** * The guarded storage *)

Record StorageEntry := MkStorageEntry {
  se_Value : list Byte.byte;
  se_FencingToken : FencingToken
}.

Record FencedStorage := MkFencedStorage {
  fs_store : gmap string StorageEntry;
  fs_highestToken : gmap string Z;
  fs_rejectedCnt : Z
}.

Definition NewFencedStorage : FencedStorage := MkFencedStorage ∅ ∅ 0.

(** [exists && token.Token < highest]. *)
Definition stale (key : string) (token : FencingToken) (s : FencedStorage) : bool :=
  match fs_highestToken s !! key with
  | Some highest => (ft_Token token <? highest)%Z
  | None => false
  end.

Definition reject (s : FencedStorage) : FencedStorage :=
  MkFencedStorage (fs_store s) (fs_highestToken s) (add_u64 (fs_rejectedCnt s) 1).

Definition Put (now : Time) (key : string) (value : list Byte.byte) (token : FencingToken)
    (s : FencedStorage) : option error * FencedStorage :=
  if IsExpired now token
  then (Some (err_token "%w: token %d for %s expired at %s" STokenExpired), s)
  else if stale key token s
  then (Some (err_token "%w: rejected token %d < highest observed token %d for key %q"
                SStaleFencingToken), reject s)
  else (None, MkFencedStorage (<[key := MkStorageEntry ([] ++ value) token]> (fs_store s))
                (<[key := ft_Token token]> (fs_highestToken s)) (fs_rejectedCnt s)).

Definition Get (key : string) (s : FencedStorage) : option (list Byte.byte * FencingToken) :=
  match fs_store s !! key with
  | None => None
  | Some entry => Some ([] ++ se_Value entry, se_FencingToken entry)
  end.

Definition Delete (now : Time) (key : string) (token : FencingToken) (s : FencedStorage) :
    option error * FencedStorage :=
  if IsExpired now token then (Some (ESentinel STokenExpired), s)
  else if stale key token s
  then (Some (err_token "%w: cannot delete with stale token %d < highest %d" SStaleFencingToken),
        reject s)
  else (None, MkFencedStorage (delete key (fs_store s))
                (<[key := ft_Token token]> (fs_highestToken s)) (fs_rejectedCnt s)).

Definition HighestObservedToken (key : string) (s : FencedStorage) : Z :=
  u64_at (fs_highestToken s) key.

Definition RejectedCount (s : FencedStorage) : Z := fs_rejectedCnt s.

(** * Tokens in contexts *)

(** What a context holds under the package's private key. *)
Abbreviation Context_ := (option FencingToken) (only parsing).

Definition WithFencingToken (ctx : Context_) (token : FencingToken) : Context_ := Some token.

Definition FromContext (ctx : Context_) : option FencingToken := ctx.

Definition RequireFencingToken (now : Time) (ctx : Context_) : result error FencingToken :=
  match FromContext ctx with
  | None => Err (ESentinel SMissingContextToken)
  | Some tok =>
      if IsExpired now tok then Err (err_token "%w: token %d expired at %s" STokenExpired)
      else Ok tok
  end.

Definition DeriveSubStepToken (parent : FencingToken) (subStepID : string) : FencingToken :=
  MkFencingToken (ft_Resource parent) (ft_Token parent)
    (ft_Owner parent +:+ "/" +:+ subStepID) (ft_Epoch parent) (ft_IssuedAt parent)
    (ft_ExpiresAt parent).

Definition WithDerivedSubStep (now : Time) (ctx : Context_) (subStepID : string) :
    result error (Context_ * FencingToken) :=
  match RequireFencingToken now ctx with
  | Err err => Err err
  | Ok parent =>
      let child := DeriveSubStepToken parent subStepID in
      Ok (WithFencingToken ctx child, child)
  end.

(** * Theorems

    Correctness of fencing: the tokens of a resource are numbered in the order they are issued,
    and the guarded storage refuses the writes of every holder that was superseded. *)

(** * The generator's tokens *)

(** The calls that change the generator, one at a time. *)
Inductive gen_op :=
| GAcquire (resource owner : string) (ttl : Duration) (now : Time)
| GNextEpoch (resource : string)
| GExtend (now now' : Time) (current : FencingToken) (ttl : Duration).

Definition gen_step (o : gen_op) (g : TokenGenerator) : option FencingToken * TokenGenerator :=
  match o with
  | GAcquire r ow ttl now => let '(t, g') := AcquireToken r ow ttl now g in (Some t, g')
  | GNextEpoch r => (None, (NextEpoch r g).2)
  | GExtend now now' cur ttl => (None, (ExtendLease (λ g, g) now now' cur ttl g).2)
  end.

(** The tokens a sequence of calls issues, and the generator after it. *)
Fixpoint gen_run (ops : list gen_op) (g : TokenGenerator) : list FencingToken * TokenGenerator :=
  match ops with
  | [] => ([], g)
  | o :: ops' =>
      let '(t, g1) := gen_step o g in
      let '(ts, g2) := gen_run ops' g1 in
      (option_list t ++ ts, g2)
  end.

Definition tokens_of (r : string) (ts : list FencingToken) : list Z :=
  ft_Token <$> filter (λ t, ft_Resource t = r) ts.

Lemma u64_at_insert m k z k' : u64_at (<[k := z]> m) k' = if decide (k' = k) then z else u64_at m k'.
Proof.
  unfold u64_at. case_decide; [subst; by rewrite lookup_insert_eq|by rewrite lookup_insert_ne].
Qed.

Lemma ExtendLease_lastToken others now now' cur ttl g :
  (∀ g, tg_lastToken (others g) = tg_lastToken g) →
  tg_lastToken (ExtendLease others now now' cur ttl g).2 = tg_lastToken g.
Proof. intros H. unfold ExtendLease. repeat case_match; simpl; auto. Qed.

Lemma gen_run_numbers ops r g :
  (0 <= CurrentTokenNumber r g)%Z →
  (CurrentTokenNumber r g + Z.of_nat (length ops) < 2 ^ 64)%Z →
  let '(ts, g') := gen_run ops g in
  tokens_of r ts = seqZ (CurrentTokenNumber r g + 1) (Z.of_nat (length (tokens_of r ts))) ∧
  CurrentTokenNumber r g' = (CurrentTokenNumber r g + Z.of_nat (length (tokens_of r ts)))%Z ∧
  length (tokens_of r ts) <= length ops.
Proof.
  unfold CurrentTokenNumber. revert g. induction ops as [|o ops IH]; intros g H0 Hlt.
  { simpl. split_and!; [done|lia|done]. }
  cbn [gen_run]. rewrite length_cons in Hlt. destruct (gen_step o g) as [t g1] eqn:Eo.
  assert (option_list t ≫= (λ t, tokens_of r [t]) = [] ∧
            u64_at (tg_lastToken g1) r = u64_at (tg_lastToken g) r ∨
          option_list t ≫= (λ t, tokens_of r [t]) = [(u64_at (tg_lastToken g) r + 1)%Z] ∧
            u64_at (tg_lastToken g1) r = (u64_at (tg_lastToken g) r + 1)%Z) as Hcase.
  { destruct o as [r' ow ttl now|r'|now now' cur ttl]; simpl in Eo.
    - destruct (AcquireToken r' ow ttl now g) as [t' g'] eqn:Ea. simplify_eq. simpl.
      unfold AcquireToken in Ea.
      assert (tg_lastToken g1 = <[r' := add_u64 (u64_at (tg_lastToken g) r') 1]> (tg_lastToken g) ∧
        ft_Resource t' = r' ∧ ft_Token t' = add_u64 (u64_at (tg_lastToken g) r') 1)
        as (Hl & Hr & Ht) by (case_match; by simplify_eq).
      rewrite Hl, u64_at_insert. unfold tokens_of. rewrite filter_cons, Hr.
      destruct (decide (r = r')) as [->|Hne].
      + right. rewrite decide_True by done. simpl. rewrite Ht. unfold add_u64.
        rewrite wrap_u_small by lia. done.
      + left. rewrite decide_False by congruence. done.
    - simplify_eq. by left.
    - simplify_eq. left. split; [done|]. by rewrite ExtendLease_lastToken. }
  specialize (IH g1). destruct (gen_run ops g1) as [ts g2].
  assert (tokens_of r (option_list t ++ ts) =
    (option_list t ≫= (λ t, tokens_of r [t])) ++ tokens_of r ts) as ->.
  { destruct t; [|done]. simpl. unfold tokens_of. rewrite app_nil_r.
    by rewrite <- fmap_app, <- filter_app. }
  destruct Hcase as [[-> Hn]|[-> Hn]]; rewrite Hn in IH;
    (destruct IH as (IH1 & IH2 & IH3); [lia|lia|]); simpl.
  - split_and!; [done|lia|lia].
  - split_and!; [|lia|lia]. rewrite Nat2Z.inj_succ, seqZ_cons by lia.
    rewrite Z.pred_succ, <- Z.add_1_r. congruence.
Qed.

(** The tokens of a resource are numbered 1, 2, 3, ... in the order they are issued,
    whatever other resources, epochs and lease extensions do in between, as long as fewer than
    2^64 calls are made. *)
Theorem tokens_numbered ops r (Hlen : (Z.of_nat (length ops) < 2 ^ 64)%Z) :
  let ts := tokens_of r (gen_run ops NewTokenGenerator).1 in
  ts = seqZ 1 (Z.of_nat (length ts)).
Proof.
  pose proof (gen_run_numbers ops r NewTokenGenerator) as H.
  change (CurrentTokenNumber r NewTokenGenerator) with 0%Z in H.
  destruct (gen_run ops NewTokenGenerator) as [ts g']. apply H; [done|]. by rewrite Z.add_0_l.
Qed.

Definition ex_ops : list gen_op :=
  [GAcquire "db" "a" 0 10; GAcquire "queue" "a" 0 11; GNextEpoch "db"; GAcquire "db" "b" 0 12].

Lemma tokens_numbered_witness :
  (Z.of_nat (length ex_ops) < 2 ^ 64)%Z ∧
  tokens_of "db" (gen_run ex_ops NewTokenGenerator).1 =
    seqZ 1 (Z.of_nat (length (tokens_of "db" (gen_run ex_ops NewTokenGenerator).1))).
Proof.
  split; [vm_compute; reflexivity|].
  apply (tokens_numbered ex_ops "db"). vm_compute. reflexivity.
Defined.

(** * The storage *)

Inductive storage_op :=
| SPut (now : Time) (key : string) (value : list Byte.byte) (token : FencingToken)
| SDelete (now : Time) (key : string) (token : FencingToken).

Definition storage_step (s : FencedStorage) (o : storage_op) : FencedStorage :=
  match o with
  | SPut now k v t => (Put now k v t s).2
  | SDelete now k t => (Delete now k t s).2
  end.

Definition guarded (key : string) (n : Z) (s : FencedStorage) : Prop :=
  ∃ h, fs_highestToken s !! key = Some h ∧ (n <= h)%Z.

Lemma insert_guarded key n key' t s st c :
  guarded key n s → stale key' t s = false →
  guarded key n (MkFencedStorage st (<[key' := ft_Token t]> (fs_highestToken s)) c).
Proof.
  intros (h & Hh & Hle) Hst. unfold guarded. simpl. destruct (decide (key' = key)) as [->|Hne].
  - rewrite lookup_insert_eq. eexists. split; [done|]. unfold stale in Hst. rewrite Hh in Hst. lia.
  - rewrite lookup_insert_ne by done. eauto.
Qed.

Lemma storage_step_guarded key n s o : guarded key n s → guarded key n (storage_step s o).
Proof.
  intros Hg. destruct o as [now k v t|now k t]; simpl; [unfold Put|unfold Delete];
    (destruct (IsExpired now t); [done|]); destruct (stale k t s) eqn:E; try done;
    by apply insert_guarded.
Qed.

Lemma storage_run_guarded key n ops s :
  guarded key n s → guarded key n (foldl storage_step s ops).
Proof.
  revert s. induction ops as [|o ops IH]; intros s Hg; [done|]. by apply IH, storage_step_guarded.
Qed.

(** A guarded key refuses a lower token. *)
Lemma guarded_rejects key t s now v :
  guarded key (ft_Token t + 1) s →
  (∃ err, (Put now key v t s).1 = Some err ∧
     (IsExpired now t = false → errors_Is err SStaleFencingToken = true)) ∧
  (∃ err, (Delete now key t s).1 = Some err) ∧
  fs_store (Put now key v t s).2 = fs_store s ∧ fs_store (Delete now key t s).2 = fs_store s.
Proof.
  intros (h & Hh & Hle). assert (stale key t s = true) as Hst.
  { unfold stale. rewrite Hh. apply Z.ltb_lt. lia. }
  unfold Put, Delete. rewrite Hst. destruct (IsExpired now t); simpl; eauto 10.
Qed.

Lemma AcquireToken_number r ow ttl now g :
  (0 <= CurrentTokenNumber r g)%Z → (CurrentTokenNumber r g + 1 < 2 ^ 64)%Z →
  ft_Token (AcquireToken r ow ttl now g).1 = (CurrentTokenNumber r g + 1)%Z ∧
  CurrentTokenNumber r (AcquireToken r ow ttl now g).2 = (CurrentTokenNumber r g + 1)%Z.
Proof.
  unfold CurrentTokenNumber. intros H0 Hlt. unfold AcquireToken, add_u64.
  rewrite wrap_u_small by lia. destruct (_ =? _)%Z; simpl;
    by rewrite u64_at_insert, decide_True.
Qed.

Lemma write_guarded s s' now k v b :
  Put now k v b s = (None, s') ∨ Delete now k b s = (None, s') → guarded k (ft_Token b) s'.
Proof.
  unfold Put, Delete. intros H. destruct (IsExpired now b); [by destruct H|].
  destruct (stale k b s); [by destruct H|].
  exists (ft_Token b). split; [|done]. destruct H as [[= <-]|[= <-]]; apply lookup_insert_eq.
Qed.

(** C39: Zombie writes are refused.  After any calls of the generator, [a] is issued for a
    resource; after any further calls, [b] is issued for it (fewer than 2^64 calls in all).
    Once [b] has written or deleted a key of the storage, then after any further calls of the
    storage every write and every deletion of the key with the token [a] is an error that leaves
    the stored entries unchanged, a stale-token error when [a] has not expired. *)
Theorem zombie_writes_refused ops0 ops r oa ob ttla ttlb ta tb s s1 now k v sops now' v'
  (Hlen : (Z.of_nat (length ops0 + length ops) + 2 < 2 ^ 64)%Z) :
  let g0 := (gen_run ops0 NewTokenGenerator).2 in
  let a := (AcquireToken r oa ttla ta g0).1 in
  let g1 := (gen_run ops (AcquireToken r oa ttla ta g0).2).2 in
  let b := (AcquireToken r ob ttlb tb g1).1 in
  Put now k v b s = (None, s1) ∨ Delete now k b s = (None, s1) →
  let s' := foldl storage_step s1 sops in
  (∃ err, (Put now' k v' a s').1 = Some err ∧
     (IsExpired now' a = false → errors_Is err SStaleFencingToken = true)) ∧
  (∃ err, (Delete now' k a s').1 = Some err) ∧
  fs_store (Put now' k v' a s').2 = fs_store s' ∧ fs_store (Delete now' k a s').2 = fs_store s'.
Proof.
  intros g0 a g1 b Hw s'.
  assert (CurrentTokenNumber r NewTokenGenerator = 0%Z) as Hz by done.
  pose proof (gen_run_numbers ops0 r NewTokenGenerator) as H0. rewrite Hz in H0.
  subst g0. destruct (gen_run ops0 NewTokenGenerator) as [ts0 g0] eqn:E0. simpl in a, g1.
  destruct H0 as (_ & Hn0 & Hl0); [lia..|].
  destruct (AcquireToken_number r oa ttla ta g0) as [Ha Ha']; [lia..|]. fold a in Ha.
  pose proof (gen_run_numbers ops r (AcquireToken r oa ttla ta g0).2) as H1. rewrite Ha' in H1.
  subst g1. destruct (gen_run ops (AcquireToken r oa ttla ta g0).2) as [ts1 g1]. simpl in b.
  destruct H1 as (_ & Hn1 & Hl1); [lia..|].
  destruct (AcquireToken_number r ob ttlb tb g1) as [Hb _]; [lia..|]. fold b in Hb.
  apply guarded_rejects, storage_run_guarded.
  destruct (write_guarded _ _ _ _ _ _ Hw) as (h & Hh & Hle). exists h. split; [done|]. lia.
Qed.

Lemma zombie_writes_refused_witness :
  ∃ err, (Put 40 "row" [] (AcquireToken "db" "a" 0 10 NewTokenGenerator).1
            (foldl storage_step (Put 30 "row" [] (AcquireToken "db" "b" 0 20
               (AcquireToken "db" "a" 0 10 NewTokenGenerator).2).1 NewFencedStorage).2
               [SDelete 35 "other" (AcquireToken "db" "a" 0 10 NewTokenGenerator).1])).1 = Some err ∧
    (IsExpired 40 (AcquireToken "db" "a" 0 10 NewTokenGenerator).1 = false →
     errors_Is err SStaleFencingToken = true).
Proof.
  refine (proj1 (zombie_writes_refused [] [] "db" "a" "b" 0 0 10 20 NewFencedStorage _ 30 "row" []
    [SDelete 35 "other" (AcquireToken "db" "a" 0 10 NewTokenGenerator).1] 40 [] _ _)).
  - vm_compute. reflexivity.
  - left. vm_compute. reflexivity.
Defined.

(** * Epochs and extensions *)

(** An epoch can go backwards: when the epoch of a resource is advanced before its first
    token is issued, the issue sets it back to 1.  And advancing an epoch does not reset the
    sequence of the tokens, for either generator. *)
Theorem epoch_goes_backwards :
  (∀ r o ttl now,
     let g := (NextEpoch r (NextEpoch r NewTokenGenerator).2).2 in
     u64_at (tg_epochs g) r = 2%Z ∧ ft_Epoch (AcquireToken r o ttl now g).1 = 1%Z) ∧
  (∀ r g, CurrentTokenNumber r (NextEpoch r g).2 = CurrentTokenNumber r g) ∧
  (∀ r g, CurrentSeq r (AdvanceEpoch r g).2 = CurrentSeq r g).
Proof.
  split_and!.
  - intros r o ttl now g. subst g. unfold NextEpoch. cbn [fst snd tg_epochs].
    rewrite !u64_at_insert, !decide_True by done.
    split; reflexivity.
  - done.
  - intros r g. unfold AdvanceEpoch, getOrCreateCounter, CurrentSeq.
    destruct (g !! r) as [rc|] eqn:E; simpl; by rewrite lookup_insert_eq.
Qed.

Definition ex_a : FencingToken := (AcquireToken "db" "a" 0 10 NewTokenGenerator).1.
Definition ex_g : TokenGenerator := (AcquireToken "db" "a" 0 10 NewTokenGenerator).2.

(** An extension can hide a preemption.  While [a] extends its lease, [b] acquires the
    resource after [a]'s checks and before [a]'s write: the extension succeeds, the generator
    then reports [a]'s token as the latest one although a higher one was issued, and [a]'s next
    preemption check passes. *)
Theorem ExtendLease_hides_preemption :
  let others g := (AcquireToken "db" "b" 0 20 g).2 in
  match ExtendLease others 15 16 ex_a 0 ex_g with
  | (Ok t, g) => ft_Token t = 1%Z ∧ CurrentTokenNumber "db" g = 2%Z ∧
      LatestToken "db" g = Some t ∧ CheckPreemption 25 t g = None
  | (Err _, _) => False
  end.
Proof. vm_compute. split_and!; reflexivity. Qed.
