(* ===== verification/Leader.v ===== *)
(** Leader election: [internal/leader/leader.go] and [inmem.go].

    [Coordinator] is the Go interface of that name as a class, and [InMemCoordinator] an
    instance.  A candidate's methods are written against the class; each coordinator call takes
    the reading of the coordinator's clock. *)
From stdpp Require Import relations.
From S2P Require Import Prelude Errors.

Abbreviation SNotLeader := (SOther "leader: current instance is not the elected leader").

Inductive State := StateFollower | StateCandidate | StateLeader.

#[export] Instance State_eq_dec : EqDecision State.
Proof. solve_decision. Defined.

Definition State_String (s : State) : string :=
  match s with
  | StateFollower => "FOLLOWER"
  | StateCandidate => "CANDIDATE"
  | StateLeader => "LEADER"
  end.

Record Config := MkConfig {
  cfg_LeaseDuration : Duration;
  cfg_RenewInterval : Duration;
  cfg_RetryInterval : Duration
}.

Definition DefaultConfig : Config :=
  MkConfig (500 * millisecond) (150 * millisecond) (100 * millisecond).

Record Record_ := MkRecord {
  rec_LeaderID : string;
  rec_Term : Z;
  rec_ExpiresAt : Time
}.

Class Coordinator (C : Type) := {
  TryAcquireOrRenew : Time → string → Z → Duration → C → result error (Record_ * bool) * C;
  GetLeader : Time → C → result error Record_;
  Release : string → Z → C → option error * C
}.

(** * The in-memory coordinator *)

(** Its only field is the record. *)
Record InMemCoordinator := MkInMemCoordinator { im_record : Record_ }.

Definition NewInMemCoordinator : InMemCoordinator :=
  MkInMemCoordinator (MkRecord "" 0 time_zero).

Definition inmem_TryAcquireOrRenew (now : Time) (candidateID : string) (term : Z)
    (ttl : Duration) (c : InMemCoordinator) : result error (Record_ * bool) * InMemCoordinator :=
  let r := im_record c in
  if negb (bool_decide (rec_LeaderID r = "")) && negb (bool_decide (rec_LeaderID r = candidateID))
     && time_before now (rec_ExpiresAt r)
  then (Ok (r, false), c)
  else
    let term' :=
      if negb (bool_decide (rec_LeaderID r = candidateID)) || time_after now (rec_ExpiresAt r)
      then wrap_u 64 (rec_Term r + 1) else rec_Term r in
    let r' := MkRecord candidateID term' (time_add now ttl) in
    (Ok (r', true), MkInMemCoordinator r').

Definition inmem_GetLeader (now : Time) (c : InMemCoordinator) : result error Record_ :=
  if time_after now (rec_ExpiresAt (im_record c)) then Err (ESentinel SNotLeader)
  else Ok (im_record c).

Definition inmem_Release (candidateID : string) (term : Z) (c : InMemCoordinator) :
    option error * InMemCoordinator :=
  let r := im_record c in
  if bool_decide (rec_LeaderID r = candidateID)
  then (None, MkInMemCoordinator (MkRecord "" (rec_Term r) time_zero))
  else (None, c).

#[export] Instance inmem_coordinator : Coordinator InMemCoordinator := {
  TryAcquireOrRenew := inmem_TryAcquireOrRenew;
  GetLeader := inmem_GetLeader;
  Release := inmem_Release
}.

(** * Candidates *)

(** The two channels have room for one signal; a callback is code outside the package, here
    a name. *)
Record Candidate := MkCandidate {
  ca_id : string;
  ca_cfg : Config;
  ca_state : State;
  ca_term : Z;
  ca_isLeader : bool;
  ca_electedCh : bool;
  ca_revokedCh : bool;
  ca_onElected : list string;
  ca_onRevoked : list string
}.

Definition positive_or (d default : Duration) : Duration := if (d <=? 0)%Z then default else d.

Definition NewCandidate (id : string) (cfg : Config) : Candidate :=
  MkCandidate id
    (MkConfig (positive_or (cfg_LeaseDuration cfg) (500 * millisecond))
       (positive_or (cfg_RenewInterval cfg) (150 * millisecond))
       (positive_or (cfg_RetryInterval cfg) (100 * millisecond)))
    StateFollower 0 false false false [] [].

Definition OnElected (fn : string) (c : Candidate) : Candidate :=
  MkCandidate (ca_id c) (ca_cfg c) (ca_state c) (ca_term c) (ca_isLeader c) (ca_electedCh c)
    (ca_revokedCh c) (ca_onElected c ++ [fn]) (ca_onRevoked c).
Definition OnRevoked (fn : string) (c : Candidate) : Candidate :=
  MkCandidate (ca_id c) (ca_cfg c) (ca_state c) (ca_term c) (ca_isLeader c) (ca_electedCh c)
    (ca_revokedCh c) (ca_onElected c) (ca_onRevoked c ++ [fn]).

Definition set_role (st : State) (term : Z) (lead : bool) (c : Candidate) : Candidate :=
  MkCandidate (ca_id c) (ca_cfg c) st term lead (ca_electedCh c) (ca_revokedCh c)
    (ca_onElected c) (ca_onRevoked c).

Definition IsLeader (c : Candidate) : bool := ca_isLeader c.

(** The channel after the signal, and the callbacks that are called. *)
Definition triggerElected (c : Candidate) : list string * Candidate :=
  (ca_onElected c,
   MkCandidate (ca_id c) (ca_cfg c) (ca_state c) (ca_term c) (ca_isLeader c) true
     (ca_revokedCh c) (ca_onElected c) (ca_onRevoked c)).
Definition triggerRevoked (c : Candidate) : list string * Candidate :=
  (ca_onRevoked c,
   MkCandidate (ca_id c) (ca_cfg c) (ca_state c) (ca_term c) (ca_isLeader c) (ca_electedCh c)
     true (ca_onElected c) (ca_onRevoked c)).

Section candidate.
Context {C : Type} {HC : Coordinator C}.

(** On an error of the coordinator the state is reset and the flag is not. *)
Definition Campaign (now : Time) (c : Candidate) (co : C) :
    result error bool * Candidate * C :=
  match TryAcquireOrRenew now (ca_id c) (ca_term c) (cfg_LeaseDuration (ca_cfg c)) co with
  | (Err err, co') => (Err err, set_role StateFollower (ca_term c) (ca_isLeader c) c, co')
  | (Ok (rec, true), co') => (Ok true, set_role StateLeader (rec_Term rec) true c, co')
  | (Ok (_, false), co') => (Ok false, set_role StateFollower (ca_term c) false c, co')
  end.

(** [stepDown] in its two parts: the change of state under the candidate's mutex, which says
    whether the lease is to be released, and the release with its callbacks. *)
Definition stepDown_state (c : Candidate) : bool * Candidate :=
  (bool_decide (ca_state c = StateLeader), set_role StateFollower (ca_term c) false c).
Definition stepDown_release (c : Candidate) (co : C) : list string * Candidate * C :=
  let '(_, co') := Release (ca_id c) (ca_term c) co in
  let '(calls, c') := triggerRevoked c in
  (calls, c', co').

(** A tick of [runLoop] up to the release of a lost lease: whether it is to be released, the
    callbacks that are called and the interval of the next tick. *)
Definition tick (now : Time) (c : Candidate) (co : C) :
    bool * list string * Duration * Candidate * C :=
  if bool_decide (ca_state c = StateLeader) then
    match TryAcquireOrRenew now (ca_id c) (ca_term c) (cfg_LeaseDuration (ca_cfg c)) co with
    | (Ok (rec, true), co') =>
        (false, [], cfg_RenewInterval (ca_cfg c),
         set_role (ca_state c) (rec_Term rec) (ca_isLeader c) c, co')
    | (_, co') =>
        let '(rel, c') := stepDown_state c in
        (rel, [], cfg_RetryInterval (ca_cfg c), c', co')
    end
  else
    match Campaign now c co with
    | (Ok true, c', co') =>
        let '(calls, c'') := triggerElected c' in
        (false, calls, cfg_RenewInterval (ca_cfg c), c'', co')
    | (_, c', co') => (false, [], cfg_RetryInterval (ca_cfg c), c', co')
    end.
End candidate.

(** * What a coordinator promises *)

(** The holder and the term a coordinator knows, and how its operations change them.  Terms
    are 64-bit: the promise of a new term holds below the last one. *)
Class CoordinatorLaws (C : Type) `{Coordinator C} := {
  co_holder : C → string;
  co_term : C → Z;
  law_acquired now id term ttl co rec co' :
    TryAcquireOrRenew now id term ttl co = (Ok (rec, true), co') →
    (0 <= co_term co < 2 ^ 64 - 1)%Z →
    co_holder co' = id ∧ rec_LeaderID rec = id ∧ rec_Term rec = co_term co' ∧
    (co_holder co = id ∧ co_term co' = co_term co ∨ co_term co' = (co_term co + 1)%Z);
  law_refused now id term ttl co res co' :
    TryAcquireOrRenew now id term ttl co = (res, co') → (∀ rec, res ≠ Ok (rec, true)) →
    co_holder co' = co_holder co ∧ co_term co' = co_term co;
  law_release id term co :
    co_term (Release id term co).2 = co_term co ∧
    (co_holder co ≠ id → co_holder (Release id term co).2 = co_holder co)
}.

#[export] Program Instance inmem_laws : CoordinatorLaws InMemCoordinator := {
  co_holder c := rec_LeaderID (im_record c);
  co_term c := rec_Term (im_record c)
}.
Next Obligation.
  intros now id term ttl [[h t e]] rec co'. simpl. unfold inmem_TryAcquireOrRenew. simpl.
  case_match; [done|]. intros [= <- <-] Ht. simpl. split_and!; [done..|].
  destruct (bool_decide_reflect (h = id)); simpl; [|right; rewrite wrap_u_small; lia].
  destruct (time_after now e); [right; rewrite wrap_u_small; lia|by left].
Qed.
Next Obligation.
  intros now id term ttl [[h t e]] res co'. simpl. unfold inmem_TryAcquireOrRenew. simpl.
  case_match; [by intros [= <- <-]|]. intros [= <- <-] Hn. by destruct (Hn _ eq_refl).
Qed.
Next Obligation.
  intros id term [[h t e]]. simpl. unfold inmem_Release. simpl. by case_bool_decide.
Qed.

(** * Theorems

    Safety of leader election: leases exclude each other, and two candidates that both believe
    to be the leader never have the same term. *)

(** * A cluster of candidates *)

Section cluster.
Context {C : Type} {HC : Coordinator C} {HCL : CoordinatorLaws C}.

(** The candidates by identifier, those that have stepped down and have not yet released, and
    the coordinator. *)
Record Cluster := MkCluster {
  cl_nodes : gmap string Candidate;
  cl_releasing : gset string;
  cl_coord : C
}.

(** One step of the cluster: a tick of a candidate that has nothing to release, the end of a
    candidate's loop, and the release of a lease. *)
Inductive cluster_step : Cluster → Cluster → Prop :=
| step_tick cl id c now rel calls d c' co' :
    cl_nodes cl !! id = Some c → id ∉ cl_releasing cl →
    tick now c (cl_coord cl) = (rel, calls, d, c', co') →
    cluster_step cl (MkCluster (<[id := c']> (cl_nodes cl))
      (if rel : bool then {[id]} ∪ cl_releasing cl else cl_releasing cl) co')
| step_stop cl id c rel c' :
    cl_nodes cl !! id = Some c → id ∉ cl_releasing cl → stepDown_state c = (rel, c') →
    cluster_step cl (MkCluster (<[id := c']> (cl_nodes cl))
      (if rel : bool then {[id]} ∪ cl_releasing cl else cl_releasing cl) (cl_coord cl))
| step_release cl id c calls c' co' :
    cl_nodes cl !! id = Some c → id ∈ cl_releasing cl →
    stepDown_release c (cl_coord cl) = (calls, c', co') →
    cluster_step cl (MkCluster (<[id := c']> (cl_nodes cl)) (cl_releasing cl ∖ {[id]}) co').

Definition leads (cl : Cluster) (id : string) (term : Z) : Prop :=
  ∃ c, cl_nodes cl !! id = Some c ∧ ca_state c = StateLeader ∧ ca_term c = term.

Record cluster_inv (cl : Cluster) : Prop := {
  ci_ids : ∀ id c, cl_nodes cl !! id = Some c → ca_id c = id;
  ci_term : (0 <= co_term (cl_coord cl))%Z;
  ci_le : ∀ id t, leads cl id t → (t <= co_term (cl_coord cl))%Z;
  ci_holder : ∀ id, leads cl id (co_term (cl_coord cl)) → co_holder (cl_coord cl) = id;
  ci_distinct : ∀ id1 id2 t, leads cl id1 t → leads cl id2 t → id1 = id2;
  ci_releasing : ∀ id t, id ∈ cl_releasing cl → ¬ leads cl id t
}.

Lemma leads_insert cl id c' rel co id' t :
  leads (MkCluster (<[id := c']> (cl_nodes cl)) rel co) id' t →
  id' = id ∧ ca_state c' = StateLeader ∧ ca_term c' = t ∨ id' ≠ id ∧ leads cl id' t.
Proof.
  intros (c & Hc & Hs & Ht). simpl in Hc. destruct (decide (id' = id)) as [->|Hne].
  - rewrite lookup_insert_eq in Hc. simplify_eq. by left.
  - rewrite lookup_insert_ne in Hc by done. right. split; [done|]. by exists c.
Qed.

(** A candidate that becomes or stays the leader with the coordinator's new term. *)
Lemma inv_acquired cl id c c' co' :
  cluster_inv cl → cl_nodes cl !! id = Some c → ca_id c' = id → id ∉ cl_releasing cl →
  ca_term c' = co_term co' → co_holder co' = id →
  co_holder (cl_coord cl) = id ∧ co_term co' = co_term (cl_coord cl) ∨
    co_term co' = (co_term (cl_coord cl) + 1)%Z →
  cluster_inv (MkCluster (<[id := c']> (cl_nodes cl)) (cl_releasing cl) co').
Proof.
  intros [Hids H0 Hle Hh Hd Hrel] Hc Hid Hnr Ht Hho Hcase.
  assert (∀ id' t, id' ≠ id → leads cl id' t → (t < co_term co')%Z) as Hlt.
  { intros id' t Hne Hl. specialize (Hle id' t Hl). destruct Hcase as [[Hold ->]| ->]; [|lia].
    destruct (decide (t = co_term (cl_coord cl))) as [->|]; [|lia].
    apply Hh in Hl. congruence. }
  split; simpl.
  - intros id' c0 Hc0. destruct (decide (id' = id)) as [->|Hne].
    + rewrite lookup_insert_eq in Hc0. by simplify_eq.
    + rewrite lookup_insert_ne in Hc0 by done. by apply Hids.
  - destruct Hcase as [[_ ->]| ->]; lia.
  - intros id' t [(-> & _ & <-)|[Hne Hl]]%leads_insert; [lia|]. specialize (Hlt id' t Hne Hl). lia.
  - intros id' [(-> & _ & _)|[Hne Hl]]%leads_insert; [done|]. specialize (Hlt _ _ Hne Hl). lia.
  - intros id1 id2 t [(-> & _ & E1)|[Hne1 Hl1]]%leads_insert
      [(-> & _ & E2)|[Hne2 Hl2]]%leads_insert; [done| | |by eapply Hd].
    + specialize (Hlt _ _ Hne2 Hl2). lia.
    + specialize (Hlt _ _ Hne1 Hl1). lia.
  - intros id' t Hin [(-> & _)|[_ Hl]]%leads_insert; [done|]. by eapply Hrel.
Qed.

(** A candidate that does not lead, and a coordinator with the same term whose holder is the
    same unless it was this candidate. *)
Lemma inv_follower cl id c c' rel co' :
  cluster_inv cl → cl_nodes cl !! id = Some c → ca_id c' = id → ca_state c' ≠ StateLeader →
  co_term co' = co_term (cl_coord cl) →
  (co_holder (cl_coord cl) ≠ id → co_holder co' = co_holder (cl_coord cl)) →
  (∀ x, x ∈ rel → x = id ∨ x ∈ cl_releasing cl) →
  cluster_inv (MkCluster (<[id := c']> (cl_nodes cl)) rel co').
Proof.
  intros [Hids H0 Hle Hh Hd Hrel] Hc Hid Hns Ht Hho Hsub.
  assert (∀ id' t r, leads (MkCluster (<[id := c']> (cl_nodes cl)) r co') id' t →
    id' ≠ id ∧ leads cl id' t) as Hl.
  { intros id' t r [(_ & Hs & _)|?]%leads_insert; done. }
  split; simpl; rewrite ?Ht.
  - intros id' c0 Hc0. destruct (decide (id' = id)) as [->|Hne].
    + rewrite lookup_insert_eq in Hc0. by simplify_eq.
    + rewrite lookup_insert_ne in Hc0 by done. by apply Hids.
  - done.
  - intros id' t [_ ?]%Hl. by eapply Hle.
  - intros id' [Hne Hl']%Hl. apply Hh in Hl'. rewrite Hho; congruence.
  - intros id1 id2 t [_ ?]%Hl [_ ?]%Hl. by eapply Hd.
  - intros id' t Hin [Hne Hl']%Hl. destruct (Hsub id' Hin) as [?|Hin']; [done|].
    by eapply Hrel.
Qed.

Lemma cluster_step_inv cl cl' :
  (co_term (cl_coord cl) < 2 ^ 64 - 1)%Z → cluster_inv cl → cluster_step cl cl' →
  cluster_inv cl'.
Proof.
  intros Hmax HI Hstep. pose proof (ci_term _ HI) as H0.
  destruct Hstep as [cl id c now rel calls d c' co' Hc Hnr Ht|cl id c rel c' Hc Hnr Ht|
    cl id c calls c' co' Hc Hin Ht]; pose proof (ci_ids _ HI _ _ Hc) as Hid.
  - unfold tick, Campaign in Ht. case_bool_decide as Hs;
      destruct (TryAcquireOrRenew _ _ _ _ _) as [[[rec []]|err] co1] eqn:E; simplify_eq/=.
    1,4: destruct (law_acquired _ _ _ _ _ _ _ E) as (E1 & _ & E3 & E4); [lia|];
      by eapply inv_acquired.
    all: destruct (law_refused _ _ _ _ _ _ _ E) as [E1 E2]; [done|];
      eapply inv_follower; try done; rewrite ?bool_decide_true by done; set_solver.
  - unfold stepDown_state in Ht. simplify_eq. eapply inv_follower; try done.
    case_bool_decide; set_solver.
  - unfold stepDown_release in Ht.
    destruct (law_release (ca_id c) (ca_term c) (cl_coord cl)) as [E1 E2].
    destruct (Release _ _ _) as [r co1]. simplify_eq/=.
    eapply inv_follower; try done; [|set_solver].
    intros Hs. apply (ci_releasing _ HI (ca_id c) (ca_term c) Hin). by exists c.
Qed.

Lemma cluster_step_term cl cl' :
  (co_term (cl_coord cl) < 2 ^ 64 - 1)%Z → cluster_inv cl → cluster_step cl cl' →
  (co_term (cl_coord cl') <= co_term (cl_coord cl) + 1)%Z.
Proof.
  intros Hmax HI Hstep. pose proof (ci_term _ HI) as H0.
  destruct Hstep as [cl id c now rel calls d c' co' Hc Hnr Ht|cl id c rel c' Hc Hnr Ht|
    cl id c calls c' co' Hc Hin Ht]; simpl.
  - unfold tick, Campaign in Ht. case_bool_decide as Hs;
      destruct (TryAcquireOrRenew _ _ _ _ _) as [[[rec []]|err] co1] eqn:E; simplify_eq/=.
    1,4: destruct (law_acquired _ _ _ _ _ _ _ E) as (_ & _ & _ & E4); lia.
    all: destruct (law_refused _ _ _ _ _ _ _ E) as [_ E2]; [done|lia].
  - lia.
  - unfold stepDown_release in Ht.
    destruct (law_release (ca_id c) (ca_term c) (cl_coord cl)) as [E1 _].
    destruct (Release _ _ _) as [r co1]. simplify_eq/=. lia.
Qed.

(** A cluster before any election: every node is new. *)
Definition fresh_cluster (cl : Cluster) : Prop :=
  (∀ id c, cl_nodes cl !! id = Some c → ca_id c = id ∧ ca_state c = StateFollower) ∧
  cl_releasing cl = ∅ ∧ (0 <= co_term (cl_coord cl))%Z.

Lemma fresh_inv cl : fresh_cluster cl → cluster_inv cl.
Proof.
  intros (Hn & Hr & Ht).
  assert (∀ id t, ¬ leads cl id t) as Hno.
  { intros id t (c & Hc & Hs & _). destruct (Hn id c Hc) as [_ Hf]. congruence. }
  split; try done; try (intros; by edestruct Hno).
  intros id c Hc. by apply Hn.
Qed.

Lemma cluster_run_inv n cl cl' :
  cluster_inv cl → (co_term (cl_coord cl) + Z.of_nat n < 2 ^ 64)%Z →
  nsteps cluster_step n cl cl' → cluster_inv cl'.
Proof.
  intros HI Hmax Hn. revert HI Hmax. induction Hn as [cl|n cl cl1 cl2 Hstep Hn IH]; [done|].
  intros HI Hmax. assert (co_term (cl_coord cl) < 2 ^ 64 - 1)%Z as Hlt by lia.
  pose proof (cluster_step_term _ _ Hlt HI Hstep).
  apply IH; [by eapply cluster_step_inv|lia].
Qed.
End cluster.

(** Terms fence leaders.  For every coordinator that keeps the promises of the interface,
    and any number of candidates that tick, stop and release their leases in any order at any
    times: two different candidates that are both in the leader state (one of them with a lease
    it has lost without knowing yet) never have the same term, up to 2^64 terms. *)
Theorem leaders_have_distinct_terms {C} {HC : Coordinator C} {HCL : CoordinatorLaws C}
  n (cl cl' : Cluster (C := C)) id1 id2 t
  (Hfresh : fresh_cluster cl) (Hmax : (co_term (cl_coord cl) + Z.of_nat n < 2 ^ 64)%Z)
  (Hrun : nsteps cluster_step n cl cl')
  (H1 : leads cl' id1 t) (H2 : leads cl' id2 t) : id1 = id2.
Proof.
  pose proof (cluster_run_inv n cl cl' (fresh_inv cl Hfresh) Hmax Hrun) as HI.
  exact (ci_distinct _ HI _ _ _ H1 H2).
Qed.

(** * The in-memory coordinator's leases *)

Inductive coord_call :=
| CallTry (now : Time) (id : string) (term : Z) (ttl : Duration)
| CallRelease (id : string) (term : Z).

Definition coord_step (co : InMemCoordinator) (c : coord_call) : InMemCoordinator :=
  match c with
  | CallTry now id term ttl => (TryAcquireOrRenew now id term ttl co).2
  | CallRelease id term => (Release id term co).2
  end.

(** A call by a candidate other than [a], before the time [e]. *)
Definition foreign (a : string) (e : Time) (c : coord_call) : Prop :=
  match c with
  | CallTry now id _ _ => id ≠ a ∧ (now < e)%Z
  | CallRelease id _ => id ≠ a
  end.

Lemma foreign_step a co c :
  a ≠ "" → rec_LeaderID (im_record co) = a → foreign a (rec_ExpiresAt (im_record co)) c →
  coord_step co c = co.
Proof.
  intros Ha Hl. destruct co as [[h t e]]. simpl in *. subst h.
  destruct c as [now id term ttl|id term]; simpl; unfold inmem_TryAcquireOrRenew, inmem_Release;
    simpl.
  - intros [Hid Hlt]. rewrite !bool_decide_false by done. unfold time_before.
    by rewrite (proj2 (Z.ltb_lt _ _) Hlt).
  - intros Hid. by rewrite bool_decide_false.
Qed.

(** A lease excludes the others.  After a candidate has acquired the lease, whatever calls
    other candidates make before it expires: none of them acquires it, their releases do not
    take it away, and the holder's record is what the coordinator reports. *)
Theorem lease_excludes_others now a term ttl co rec co' calls
  (Ha : a ≠ "") (Hacq : TryAcquireOrRenew now a term ttl co = (Ok (rec, true), co'))
  (Hcalls : Forall (foreign a (now + ttl)%Z) calls) :
  let co2 := foldl coord_step co' calls in
  (∀ now' b term' ttl', b ≠ a → (now' < now + ttl)%Z →
     TryAcquireOrRenew now' b term' ttl' co2 = (Ok (rec, false), co2)) ∧
  (∀ now', (now' < now + ttl)%Z → GetLeader now' co2 = Ok rec) ∧
  rec_LeaderID rec = a.
Proof.
  assert (im_record co' = rec ∧ rec_LeaderID rec = a ∧ rec_ExpiresAt rec = (now + ttl)%Z)
    as (Hr & Hl & He).
  { simpl in Hacq. unfold inmem_TryAcquireOrRenew in Hacq. case_match; by simplify_eq. }
  assert (foldl coord_step co' calls = co') as ->.
  { induction Hcalls as [|c calls Hc Hcalls IH]; [done|]. simpl.
    rewrite (foreign_step a); [done|done|by rewrite Hr|by rewrite Hr, He]. }
  destruct co' as [r]. simpl in Hr. subst r. cbv zeta. split_and!; [| |done].
  - intros now' b term' ttl' Hb Hlt. simpl. unfold inmem_TryAcquireOrRenew. simpl.
    rewrite Hl, !bool_decide_false by done. unfold time_before. rewrite He.
    by rewrite (proj2 (Z.ltb_lt _ _) Hlt).
  - intros now' Hlt. simpl. unfold inmem_GetLeader, time_after. simpl. rewrite He.
    destruct (Z.ltb_spec (now + ttl) now'); [lia|done].
Qed.

(** * Witnesses and stale leaders *)

Definition ms (n : Z) : Time := (n * millisecond)%Z.
Definition ex_node (id : string) : Candidate := NewCandidate id DefaultConfig.
Definition ex_cluster : Cluster :=
  MkCluster {[ "a" := ex_node "a"; "b" := ex_node "b" ]} ∅ NewInMemCoordinator.

(** [a] is elected at 100ms and, without a tick of it, [b] at 700ms. *)
Definition ex_tick (now : Time) (id : string) (cl : Cluster) : Cluster (C := InMemCoordinator) :=
  match cl_nodes cl !! id with
  | Some c =>
      let '(rel, _, _, c', co') := tick now c (cl_coord cl) in
      MkCluster (<[id := c']> (cl_nodes cl))
        (if rel : bool then {[id]} ∪ cl_releasing cl else cl_releasing cl) co'
  | None => cl
  end.
Definition ex_elected_a : Cluster := ex_tick (ms 100) "a" ex_cluster.
Definition ex_elected_b : Cluster := ex_tick (ms 700) "b" ex_elected_a.

Lemma ex_tick_step now id cl :
  is_Some (cl_nodes cl !! id) → id ∉ cl_releasing cl → cluster_step cl (ex_tick now id cl).
Proof.
  intros [c Hc] Hr. unfold ex_tick. rewrite Hc.
  destruct (tick now c (cl_coord cl)) as [[[[rel calls] d] c'] co'] eqn:E.
  by eapply step_tick.
Qed.

Lemma ex_fresh : fresh_cluster ex_cluster.
Proof.
  split; [|done]. intros id c Hc. unfold ex_cluster in Hc. simpl in Hc.
  apply lookup_insert_Some in Hc as [[<- <-]|[_ [<- <-]%lookup_singleton_Some]]; done.
Qed.

Lemma ex_run : nsteps cluster_step 2 ex_cluster ex_elected_b.
Proof.
  apply (nsteps_l _ _ _ ex_elected_a); [by apply ex_tick_step; [vm_compute; eauto|]|].
  apply (nsteps_l _ _ _ ex_elected_b); [by apply ex_tick_step; [vm_compute; eauto|]|constructor].
Qed.

Lemma leaders_have_distinct_terms_witness :
  leads ex_elected_b "a" 1 ∧ leads ex_elected_b "b" 2 ∧ (leads ex_elected_b "b" 1 → "b" = "a").
Proof.
  assert (leads ex_elected_b "a" 1) as Ha by (eexists; split; [vm_compute; reflexivity|done]).
  split; [exact Ha|]. split; [eexists; split; [vm_compute; reflexivity|done]|]. intros Hb.
  apply (leaders_have_distinct_terms 2 ex_cluster ex_elected_b "b" "a" 1);
    [exact ex_fresh|vm_compute; reflexivity|exact ex_run|exact Hb|exact Ha].
Defined.

Definition ex_acquired : InMemCoordinator :=
  (TryAcquireOrRenew (ms 100) "a" 0 (ms 500) NewInMemCoordinator).2.

Lemma lease_excludes_others_witness :
  GetLeader (ms 500) (foldl coord_step ex_acquired [CallTry (ms 200) "b" 0 (ms 500); CallRelease "b" 0])
    = Ok (MkRecord "a" 1 (ms 600)).
Proof.
  refine (proj1 (proj2 (lease_excludes_others (ms 100) "a" 0 (ms 500) NewInMemCoordinator
    (MkRecord "a" 1 (ms 600)) ex_acquired [CallTry (ms 200) "b" 0 (ms 500); CallRelease "b" 0]
    _ _ _)) (ms 500) _).
  - done.
  - vm_compute. reflexivity.
  - repeat constructor; done.
  - vm_compute. reflexivity.
Defined.

(** The leader flag outlives the lease.  A candidate whose lease expired and was taken over
    still answers that it is the leader, beside the new one, until its next tick. *)
Theorem IsLeader_outlives_lease :
  let flag id := IsLeader <$> cl_nodes ex_elected_b !! id in
  nsteps cluster_step 2 ex_cluster ex_elected_b ∧
  flag "a" = Some true ∧ flag "b" = Some true ∧ co_holder (cl_coord ex_elected_b) = "b".
Proof. split; [exact ex_run|]. vm_compute. split_and!; reflexivity. Qed.

(** A campaign that fails with an error makes the candidate a follower and leaves its leader
    flag as it was, so that a leader that campaigns keeps answering that it is the leader. *)
Theorem Campaign_error_keeps_flag {C} {HC : Coordinator C} now (c : Candidate) (co co' : C) err
  (Herr : TryAcquireOrRenew now (ca_id c) (ca_term c) (cfg_LeaseDuration (ca_cfg c)) co
          = (Err err, co')) :
  ∃ c', Campaign now c co = (Err err, c', co') ∧ ca_state c' = StateFollower ∧
    IsLeader c' = IsLeader c ∧ ca_term c' = ca_term c.
Proof. unfold Campaign. rewrite Herr. eexists. split; [done|]. done. Qed.

(** A coordinator that cannot be reached. *)
Definition unreachable : Coordinator unit := {|
  TryAcquireOrRenew := λ _ _ _ _ co, (Err (EFmt "unreachable" []), co);
  GetLeader := λ _ _, Err (EFmt "unreachable" []);
  Release := λ _ _ co, (Some (EFmt "unreachable" []), co)
|}.

Lemma Campaign_error_keeps_flag_witness :
  ∃ c', Campaign (HC := unreachable) 0 (set_role StateLeader 7 true (ex_node "a")) tt
          = (Err (EFmt "unreachable" []), c', tt) ∧
    ca_state c' = StateFollower ∧ IsLeader c' = true ∧ ca_term c' = 7%Z.
Proof.
  exact (Campaign_error_keeps_flag (HC := unreachable) 0
    (set_role StateLeader 7 true (ex_node "a")) tt tt (EFmt "unreachable" []) eq_refl).
Defined.
