(* ===== verification/Lease.v ===== *)
(** Resource leases: [internal/lease/lease.go].

    A lease is a value here: the manager is the only one that changes the lease a pointer of
    which it has handed out.  Each reading of the clock is an argument; a lease's identifier is
    drawn from the token function, code outside the package. *)
From S2P Require Import Prelude Errors.

Record Lease := MkLease {
  le_ID : string;
  le_Holder : string;
  le_Resource : string;
  le_ExpiresAt : Time
}.

Inductive lease_error :=
| LeaseNotFoundError (Resource : string)
| LeaseConflictError (Resource Holder : string).

Definition lease_error_text (e : lease_error) : string :=
  match e with
  | LeaseNotFoundError r => "lease not found: " +:+ r
  | LeaseConflictError r h => "lease conflict: " +:+ r +:+ " held by " +:+ h
  end.

Abbreviation Manager := (gmap string Lease) (only parsing).

Definition NewManager : Manager := ∅.

(** [token] is what the token function returns; [now] and [now'] are the two readings. *)
Definition Acquire (token : string) (now now' : Time) (holder resource : string)
    (ttl : Duration) (m : Manager) : result lease_error Lease * Manager :=
  let conflict :=
    match m !! resource with
    | Some existing =>
        if time_before now (le_ExpiresAt existing) && negb (bool_decide (le_Holder existing = holder))
        then Some (le_Holder existing) else None
    | None => None
    end in
  match conflict with
  | Some h => (Err (LeaseConflictError resource h), m)
  | None =>
      let lease := MkLease token holder resource (time_add now' ttl) in
      (Ok lease, <[resource := lease]> m)
  end.

(** The common checks of [Renew] and [Release]. *)
Definition held (holder resource : string) (m : Manager) : result lease_error Lease :=
  match m !! resource with
  | None => Err (LeaseNotFoundError resource)
  | Some lease =>
      if bool_decide (le_Holder lease = holder) then Ok lease
      else Err (LeaseConflictError resource (le_Holder lease))
  end.

Definition Renew (now : Time) (holder resource : string) (ttl : Duration) (m : Manager) :
    option lease_error * Manager :=
  match held holder resource m with
  | Err e => (Some e, m)
  | Ok lease =>
      (None, <[resource := MkLease (le_ID lease) (le_Holder lease) (le_Resource lease)
                             (time_add now ttl)]> m)
  end.

Definition ReleaseLease (holder resource : string) (m : Manager) : option lease_error * Manager :=
  match held holder resource m with
  | Err e => (Some e, m)
  | Ok _ => (None, delete resource m)
  end.

Definition GetLease (now : Time) (resource : string) (m : Manager) : option Lease :=
  match m !! resource with
  | None => None
  | Some lease => if time_after now (le_ExpiresAt lease) then None else Some lease
  end.

(** The loop of [Expired] deletes the bindings it visits. *)
Definition Expired (sh : shuffle) (now : Time) (m : Manager) : list Lease * Manager :=
  let gone := filter (λ rl, time_after now (le_ExpiresAt rl.2) = true) (range_map sh m) in
  (gone.*2, foldl (λ m rl, delete rl.1 m) m gone).

(** [All] reads the clock once per lease: [nows] gives the reading for each. *)
Definition All (sh : shuffle) (nows : Lease → Time) (m : Manager) : list Lease :=
  filter (λ l, time_before (nows l) (le_ExpiresAt l) = true) (range_values sh m).

(** * Exclusion *)

Inductive lease_call :=
| LAcquire (token : string) (now now' : Time) (holder resource : string) (ttl : Duration)
| LRenew (now : Time) (holder resource : string) (ttl : Duration)
| LRelease (holder resource : string)
| LExpired (sh : shuffle) (now : Time).

Definition lease_step (m : Manager) (c : lease_call) : Manager :=
  match c with
  | LAcquire tok now now' h r ttl => (Acquire tok now now' h r ttl m).2
  | LRenew now h r ttl => (Renew now h r ttl m).2
  | LRelease h r => (ReleaseLease h r m).2
  | LExpired sh now => (Expired sh now m).2
  end.

(** A call by another holder than [a], or a purge, before the time [e]. *)
Definition by_others (a : string) (e : Time) (c : lease_call) : Prop :=
  match c with
  | LAcquire _ now _ h _ _ => h ≠ a ∧ (now < e)%Z
  | LRenew _ h _ _ => h ≠ a
  | LRelease h _ => h ≠ a
  | LExpired _ now => (now < e)%Z
  end.

Lemma foldl_delete_keep {V} (l : list (string * V)) (m : gmap string V) k :
  k ∉ l.*1 → foldl (λ m kv, delete kv.1 m) m l !! k = m !! k.
Proof.
  revert m. induction l as [|[k' v] l IH]; intros m; [done|]. csimpl.
  intros [Hne Hk]%not_elem_of_cons. rewrite IH by done. by rewrite lookup_delete_ne.
Qed.

Lemma held_other a h r m lease :
  m !! r = Some lease → le_Holder lease = a → h ≠ a →
  held h r m = Err (LeaseConflictError r a).
Proof. intros Hm Hl Hh. unfold held. rewrite Hm, Hl. by rewrite bool_decide_false. Qed.

Lemma by_others_keeps a c m r lease :
  m !! r = Some lease → le_Holder lease = a → by_others a (le_ExpiresAt lease) c →
  lease_step m c !! r = Some lease.
Proof.
  intros Hm Hl. destruct c as [tok now now' h r' ttl|now h r' ttl|h r'|sh now]; simpl.
  - intros [Hh Hlt]. unfold Acquire. destruct (decide (r' = r)) as [->|Hne].
    + rewrite Hm, Hl, bool_decide_false by done. unfold time_before.
      by rewrite (proj2 (Z.ltb_lt _ _) Hlt).
    + destruct (m !! r') as [ex|]; [destruct (_ && _)|]; simpl; try done;
        by rewrite lookup_insert_ne.
  - intros Hh. unfold Renew. destruct (decide (r' = r)) as [->|Hne].
    + by rewrite (held_other a h r m lease).
    + destruct (held h r' m); [|done]. simpl. by rewrite lookup_insert_ne.
  - intros Hh. unfold ReleaseLease. destruct (decide (r' = r)) as [->|Hne].
    + by rewrite (held_other a h r m lease).
    + destruct (held h r' m); [|done]. simpl. by rewrite lookup_delete_ne.
  - intros Hlt. rewrite foldl_delete_keep; [done|]. intros Hin.
    apply list_elem_of_fmap in Hin as ([k l] & -> & Hin).
    apply list_elem_of_filter in Hin as [He Hin%elem_of_range_map]. simpl in *.
    assert (l = lease) as -> by congruence. unfold time_after in He. lia.
Qed.

(** A lease excludes other holders.  After a holder has acquired a resource, whatever other
    holders acquire, renew and release, and whatever purges of expired leases run, before the
    lease expires: the lease is still the holder's, and another holder's acquisition of the
    resource is a conflict that names the holder. *)
Theorem Acquire_excludes token now now' a r ttl m lease m' calls
  (Hacq : Acquire token now now' a r ttl m = (Ok lease, m'))
  (Hcalls : Forall (by_others a (now' + ttl)%Z) calls) :
  let m2 := foldl lease_step m' calls in
  (∀ t, (t < now' + ttl)%Z → GetLease t r m2 = Some lease) ∧
  (∀ tok t t' b d, b ≠ a → (t < now' + ttl)%Z →
     Acquire tok t t' b r d m2 = (Err (LeaseConflictError r a), m2)) ∧
  le_Holder lease = a.
Proof.
  assert (m' !! r = Some lease ∧ le_Holder lease = a ∧ le_ExpiresAt lease = (now' + ttl)%Z)
    as (Hm & Hl & He).
  { unfold Acquire in Hacq. case_match; simplify_eq. by rewrite lookup_insert_eq. }
  assert (foldl lease_step m' calls !! r = Some lease) as Hm2.
  { clear Hacq. revert m' Hm. induction Hcalls as [|c calls Hc Hcalls IH]; intros m' Hm; [done|].
    apply IH. apply (by_others_keeps a); [done..|by rewrite He]. }
  cbv zeta. split_and!; [| |done].
  - intros t Ht. unfold GetLease. rewrite Hm2. unfold time_after. rewrite He.
    destruct (Z.ltb_spec (now' + ttl) t); [lia|done].
  - intros tok t t' b d Hb Ht. unfold Acquire. rewrite Hm2, Hl, bool_decide_false by done.
    unfold time_before. by rewrite He, (proj2 (Z.ltb_lt _ _) Ht).
Qed.

Definition ex_held : Manager := (Acquire "t1" 10 11 "w1" "gpu" 100 NewManager).2.
Definition ex_calls : list lease_call :=
  [LAcquire "t2" 20 21 "w2" "gpu" 100; LRelease "w2" "gpu"; LExpired shuffle_id 50;
   LAcquire "t3" 60 61 "w2" "disk" 5].

Lemma Acquire_excludes_witness :
  GetLease 110 "gpu" (foldl lease_step ex_held ex_calls) = Some (MkLease "t1" "w1" "gpu" 111).
Proof.
  refine (proj1 (Acquire_excludes "t1" 10 11 "w1" "gpu" 100 NewManager
    (MkLease "t1" "w1" "gpu" 111) ex_held ex_calls _ _) 110%Z _).
  - vm_compute. reflexivity.
  - repeat constructor; done.
  - vm_compute. reflexivity.
Defined.
