(* ===== verification/Lane.v ===== *)
(** Priority lanes and their deficit round-robin scheduler: [internal/lane/lane.go],
    [drr_scheduler.go] and [atomic_counter.go].

    A lane's pointer in the map of a scheduler is its index in the scheduler's slice.  Costs and
    deficits are Go [int]s; [deficits_bounded] shows how far below overflow they stay. *)
From S2P Require Import Prelude Errors.

Abbreviation SLaneFull := (SOther "lane: queue capacity exceeded").
Abbreviation SLaneNotFound := (SOther "lane: lane ID not recognized").
Abbreviation SInvalidQuantum := (SOther "lane: quantum must be positive").

Record Task := MkTask {
  tk_ID : string;
  tk_LaneID : string;
  tk_Payload : list Byte.byte;
  tk_Cost : Z;
  tk_EnqueuedAt : Time;
  tk_AgeBoosted : bool
}.

Record LaneConfig := MkLaneConfig {
  lc_ID : string;
  lc_Priority : Z;
  lc_Quantum : Z;
  lc_MaxCapacity : Z;
  lc_StarvationThreshold : Duration
}.

Record Lane := MkLane {
  ln_cfg : LaneConfig;
  ln_tasks : list Task;
  ln_deficit : Z;
  ln_enqueuedCount : Z;
  ln_dequeuedCount : Z
}.

Definition NewLane (cfg : LaneConfig) : result error Lane :=
  if (lc_Quantum cfg <=? 0)%Z then Err (ESentinel SInvalidQuantum)
  else
    Ok (MkLane (MkLaneConfig (lc_ID cfg) (lc_Priority cfg) (lc_Quantum cfg)
                  (if (lc_MaxCapacity cfg <=? 0)%Z then 10000 else lc_MaxCapacity cfg)%Z
                  (if (lc_StarvationThreshold cfg <=? 0)%Z then 30 * second
                   else lc_StarvationThreshold cfg)%Z) [] 0 0 0).

(** The task as the lane stores it. *)
Definition admit_task (now : Time) (l : Lane) (t : Task) : Task :=
  MkTask (tk_ID t) (lc_ID (ln_cfg l)) (tk_Payload t)
    (if (tk_Cost t <=? 0)%Z then 1 else tk_Cost t)%Z
    (if time_is_zero (tk_EnqueuedAt t) then now else tk_EnqueuedAt t) (tk_AgeBoosted t).

Definition lane_Enqueue (now : Time) (t : Task) (l : Lane) : option error * Lane :=
  if (lc_MaxCapacity (ln_cfg l) <=? Z.of_nat (length (ln_tasks l)))%Z then
    (Some (EWrap "%w: lane %s at max capacity (%d)"
             [lc_ID (ln_cfg l); pretty (lc_MaxCapacity (ln_cfg l))] (ESentinel SLaneFull)), l)
  else
    (None, MkLane (ln_cfg l) (ln_tasks l ++ [admit_task now l t]) (ln_deficit l)
             (wrap_u 64 (ln_enqueuedCount l + 1)) (ln_dequeuedCount l)).

Definition lane_Dequeue (l : Lane) : option Task * Lane :=
  match ln_tasks l with
  | [] => (None, l)
  | t :: ts =>
      (Some t, MkLane (ln_cfg l) ts (ln_deficit l) (ln_enqueuedCount l)
                 (wrap_u 64 (ln_dequeuedCount l + 1)))
  end.

Definition Peek (l : Lane) : option Task := head (ln_tasks l).
Definition Len (l : Lane) : nat := length (ln_tasks l).

Definition OldestWaitDuration (now : Time) (l : Lane) : Duration :=
  match ln_tasks l with
  | [] => 0%Z
  | t :: _ => time_sub now (tk_EnqueuedAt t)
  end.

Definition IsStarving (now : Time) (l : Lane) : bool :=
  match ln_tasks l with
  | [] => false
  | t :: _ => (lc_StarvationThreshold (ln_cfg l) <=? time_sub now (tk_EnqueuedAt t))%Z
  end.

Record LaneStats := MkLaneStats {
  ls_ID : string;
  ls_CurrentDepth : nat;
  ls_EnqueuedTotal : Z;
  ls_DequeuedTotal : Z;
  ls_OldestWait : Duration;
  ls_Deficit : Z
}.

Definition Stats (now : Time) (l : Lane) : LaneStats :=
  MkLaneStats (lc_ID (ln_cfg l)) (length (ln_tasks l)) (ln_enqueuedCount l) (ln_dequeuedCount l)
    (OldestWaitDuration now l) (ln_deficit l).

(** * The scheduler *)

Record DRRScheduler := MkDRR {
  dr_lanes : list Lane;
  dr_laneMap : gmap string nat;
  dr_roundIndex : nat;
  dr_quantumAdded : bool;
  dr_totalTasks : Z
}.

(** The loop of the constructor; [i] is the index of the next lane. *)
Fixpoint lane_map (lanes : list Lane) (i : nat) (m : gmap string nat) :
    result error (gmap string nat) :=
  match lanes with
  | [] => Ok m
  | l :: lanes' =>
      match m !! lc_ID (ln_cfg l) with
      | Some _ => Err (EFmt "duplicate lane ID: %s" [lc_ID (ln_cfg l)])
      | None => lane_map lanes' (S i) (<[lc_ID (ln_cfg l) := i]> m)
      end
  end.

Definition NewDRRScheduler (lanes : list Lane) : result error DRRScheduler :=
  match lanes with
  | [] => Err (EFmt "at least one lane required" [])
  | _ => match lane_map lanes 0 ∅ with
         | Err err => Err err
         | Ok m => Ok (MkDRR lanes m 0 false 0)
         end
  end.

Definition set_lane (i : nat) (l : Lane) (s : DRRScheduler) : DRRScheduler :=
  MkDRR (<[i := l]> (dr_lanes s)) (dr_laneMap s) (dr_roundIndex s) (dr_quantumAdded s)
    (dr_totalTasks s).
Definition add_total (z : Z) (s : DRRScheduler) : DRRScheduler :=
  MkDRR (dr_lanes s) (dr_laneMap s) (dr_roundIndex s) (dr_quantumAdded s) (dr_totalTasks s + z).
Definition set_round (i : nat) (q : bool) (s : DRRScheduler) : DRRScheduler :=
  MkDRR (dr_lanes s) (dr_laneMap s) i q (dr_totalTasks s).

Definition Enqueue (now : Time) (t : Task) (s : DRRScheduler) : option error * DRRScheduler :=
  let missing := (Some (EWrap "%w: %s" [tk_LaneID t] (ESentinel SLaneNotFound)), s) in
  match dr_laneMap s !! tk_LaneID t with
  | None => missing
  | Some i =>
      match dr_lanes s !! i with
      | None => missing
      | Some l =>
          match lane_Enqueue now t l with
          | (Some err, _) => (Some err, s)
          | (None, l') => (None, add_total 1 (set_lane i l' s))
          end
      end
  end.

Definition boost (t : Task) : Task :=
  MkTask (tk_ID t) (tk_LaneID t) (tk_Payload t) (tk_Cost t) (tk_EnqueuedAt t) true.

(** The loop over the lanes that serves the first starving one; [i] is the index of the head
    of [lanes]. *)
Fixpoint serve_starving (now : Time) (lanes : list Lane) (i : nat) (s : DRRScheduler) :
    option (Task * DRRScheduler) :=
  match lanes with
  | [] => None
  | l :: lanes' =>
      if (0 <? Len l)%nat && IsStarving now l then
        match lane_Dequeue l with
        | (Some t, l') => Some (boost t, add_total (-1) (set_lane i l' s))
        | (None, _) => serve_starving now lanes' (S i) s
        end
      else serve_starving now lanes' (S i) s
  end.

Definition next_lane (s : DRRScheduler) : nat :=
  (S (dr_roundIndex s)) mod length (dr_lanes s).

Definition set_deficit (z : Z) (l : Lane) : Lane :=
  MkLane (ln_cfg l) (ln_tasks l) z (ln_enqueuedCount l) (ln_dequeuedCount l).

(** One attempt of the round-robin: the task it serves, if any.  [None] is the panic of an
    index out of range. *)
Definition attempt (s : DRRScheduler) : option (option Task * DRRScheduler) :=
  match dr_lanes s !! dr_roundIndex s with
  | None => None
  | Some l =>
      match ln_tasks l with
      | [] =>
          Some (None, set_round (next_lane s) false (set_lane (dr_roundIndex s) (set_deficit 0 l) s))
      | t :: ts =>
          let l := if dr_quantumAdded s then l
                   else set_deficit (ln_deficit l + lc_Quantum (ln_cfg l)) l in
          if (tk_Cost t <=? ln_deficit l)%Z then
            let d := (ln_deficit l - tk_Cost t)%Z in
            let served d := MkLane (ln_cfg l) ts d (ln_enqueuedCount l)
                              (wrap_u 64 (ln_dequeuedCount l + 1)) in
            let i := dr_roundIndex s in
            let s' :=
              match ts with
              | [] => set_round (next_lane s) false (set_lane i (served 0%Z) s)
              | t' :: _ =>
                  if (d <? tk_Cost t')%Z
                  then set_round (next_lane s) false (set_lane i (served d) s)
                  else set_round i true (set_lane i (served d) s)
              end in
            Some (Some t, add_total (-1) s')
          else Some (None, set_round (next_lane s) false (set_lane (dr_roundIndex s) l s))
      end
  end.

Fixpoint attempts (n : nat) (s : DRRScheduler) : option (option Task * DRRScheduler) :=
  match n with
  | 0 => Some (None, s)
  | S n' =>
      match attempt s with
      | Some (None, s') => attempts n' s'
      | r => r
      end
  end.

Inductive schedule_result :=
| Served (t : Task) (s : DRRScheduler)
| Blocked
| Panicked
| OutOfFuel.

(** The outer loop of [ScheduleNext], where it neither waits nor is cancelled; [Blocked] is the
    wait for a task.  A pass that serves nothing is followed by another. *)
Fixpoint ScheduleNext (fuel : nat) (now : Time) (s : DRRScheduler) : schedule_result :=
  match fuel with
  | 0 => OutOfFuel
  | S fuel' =>
      if (dr_totalTasks s =? 0)%Z then Blocked
      else
        match serve_starving now (dr_lanes s) 0 s with
        | Some (t, s') => Served t s'
        | None =>
            match attempts (length (dr_lanes s) * 2) s with
            | None => Panicked
            | Some (Some t, s') => Served t s'
            | Some (None, s') => ScheduleNext fuel' now s'
            end
        end
  end.

Definition LaneIDs (s : DRRScheduler) : list string := (λ l, lc_ID (ln_cfg l)) <$> dr_lanes s.

(** * The atomic counter *)

Record AtomicQuantumCounter := MkCounter { ac_credits : Z; ac_depth : Z }.

Definition NewAtomicQuantumCounter (initial : Z) : AtomicQuantumCounter := MkCounter initial 0.
Definition counter_Add (delta : Z) (c : AtomicQuantumCounter) : Z * AtomicQuantumCounter :=
  let v := wrap_s 64 (ac_credits c + delta) in (v, MkCounter v (ac_depth c)).
Definition counter_Sub (delta : Z) (c : AtomicQuantumCounter) : Z * AtomicQuantumCounter :=
  counter_Add (wrap_s 64 (- delta)) c.
Definition counter_Reset (c : AtomicQuantumCounter) : AtomicQuantumCounter :=
  MkCounter 0 (ac_depth c).
Definition IncDepth (c : AtomicQuantumCounter) : Z * AtomicQuantumCounter :=
  let v := wrap_s 64 (ac_depth c + 1) in (v, MkCounter (ac_credits c) v).
Definition DecDepth (c : AtomicQuantumCounter) : Z * AtomicQuantumCounter :=
  let v := wrap_s 64 (ac_depth c - 1) in (v, MkCounter (ac_credits c) v).

(** The loop of [TryConsume]: [others] is what other goroutines make of the counter between
    the load and the compare-and-swap of each round. *)
Fixpoint TryConsume (others : list (AtomicQuantumCounter → AtomicQuantumCounter)) (cost : Z)
    (c : AtomicQuantumCounter) : bool * AtomicQuantumCounter :=
  let curr := ac_credits c in
  if (curr <? cost)%Z then (false, c)
  else match others with
  | [] => (true, MkCounter (wrap_s 64 (curr - cost)) (ac_depth c))
  | f :: others' =>
      let c' := f c in
      if (ac_credits c' =? curr)%Z
      then (true, MkCounter (wrap_s 64 (curr - cost)) (ac_depth c'))
      else TryConsume others' cost c'
  end.

(** * Theorems

    Correctness of the deficit round-robin scheduler: it serves the head of one lane, it serves
    some task whenever there is one, and no lane accumulates credit. *)

(** * The invariant *)

(** The tasks of the lane at an index, and its credit limit: only the lane whose turn it is may
    have its quantum on top of the costliest task. *)
Definition tasks_at (s : DRRScheduler) (i : nat) : list Task :=
  default [] (ln_tasks <$> dr_lanes s !! i).

Definition extra (s : DRRScheduler) (i : nat) (l : Lane) : Z :=
  if bool_decide (i = dr_roundIndex s) && dr_quantumAdded s then lc_Quantum (ln_cfg l) else 0%Z.

Definition cost_ok (M : Z) (t : Task) : Prop := (1 <= tk_Cost t <= M)%Z.

Definition lane_ok (M e : Z) (l : Lane) : Prop :=
  (0 < lc_Quantum (ln_cfg l))%Z ∧ Forall (cost_ok M) (ln_tasks l) ∧
  (0 <= ln_deficit l < M + e)%Z.

Definition queued (lanes : list Lane) : nat := sum_list_with (λ l, length (ln_tasks l)) lanes.

Record drr_inv (M : Z) (s : DRRScheduler) : Prop := {
  di_round : dr_roundIndex s < length (dr_lanes s);
  di_total : dr_totalTasks s = Z.of_nat (queued (dr_lanes s));
  di_map : map_Forall (λ _ i, i < length (dr_lanes s)) (dr_laneMap s);
  di_lanes : ∀ i l, dr_lanes s !! i = Some l → lane_ok M (extra s i l) l
}.

Lemma queued_insert lanes i l l' :
  lanes !! i = Some l →
  queued (<[i := l']> lanes) + length (ln_tasks l) = queued lanes + length (ln_tasks l').
Proof.
  unfold queued. revert i. induction lanes as [|a lanes IH]; intros [|i] Hi; simplify_eq/=; [lia|].
  specialize (IH i Hi). lia.
Qed.

Lemma lane_ok_mono M e e' l : (e <= e')%Z → lane_ok M e l → lane_ok M e' l.
Proof. intros He (H1 & H2 & H3). split_and!; [done..|lia|lia]. Qed.

Lemma next_lane_lt M s : drr_inv M s → next_lane s < length (dr_lanes s).
Proof. intros HI. pose proof (di_round _ _ HI). unfold next_lane. apply Nat.mod_upper_bound. lia. Qed.

Lemma lane_lt s i (l : Lane) : dr_lanes s !! i = Some l → i < length (dr_lanes s).
Proof. apply lookup_lt_Some. Qed.

(** The invariant of a scheduler whose lane [i] is replaced. *)
Lemma inv_update M s s' i l l' :
  drr_inv M s → dr_lanes s !! i = Some l → dr_lanes s' = <[i := l']> (dr_lanes s) →
  dr_laneMap s' = dr_laneMap s → dr_roundIndex s' < length (dr_lanes s) →
  (dr_totalTasks s' + Z.of_nat (length (ln_tasks l)) =
   dr_totalTasks s + Z.of_nat (length (ln_tasks l')))%Z →
  lane_ok M (extra s' i l') l' →
  (∀ j lj, j ≠ i → dr_lanes s !! j = Some lj → lane_ok M (extra s' j lj) lj) →
  drr_inv M s'.
Proof.
  intros HI Hl Hlanes Hmap Hround Htot Hl' Hother. split; rewrite Hlanes.
  - by rewrite length_insert.
  - pose proof (queued_insert (dr_lanes s) i l l' Hl). pose proof (di_total _ _ HI). lia.
  - rewrite Hmap. intros k j Hj. rewrite length_insert. by apply (di_map _ _ HI k).
  - intros j lj Hj. destruct (decide (j = i)) as [->|Hne].
    + rewrite list_lookup_insert_eq in Hj by by eapply lane_lt. by simplify_eq.
    + rewrite list_lookup_insert_ne in Hj by done. by apply Hother.
Qed.

(** The other lanes when the turn passes on, or stays. *)
Lemma other_lane_ok M s s' i j lj :
  drr_inv M s → i = dr_roundIndex s → j ≠ i → dr_lanes s !! j = Some lj →
  dr_quantumAdded s' = false ∨ dr_roundIndex s' = i →
  lane_ok M (extra s' j lj) lj.
Proof.
  intros HI -> Hne Hj Hs'. pose proof (di_lanes _ _ HI j lj Hj) as Hok. revert Hok.
  apply lane_ok_mono. unfold extra. rewrite (bool_decide_false (j = dr_roundIndex s)) by done.
  simpl. destruct Hs' as [->| ->]; [by rewrite andb_false_r|].
  by rewrite bool_decide_false.
Qed.

(** * Serving a task *)

(** The task [t] is the head of one lane, which loses it; the other lanes keep their tasks. *)
Definition serves (s : DRRScheduler) (t : Task) (s' : DRRScheduler) : Prop :=
  ∃ i t0 ts, tasks_at s i = t0 :: ts ∧ (t = t0 ∨ t = boost t0) ∧ tasks_at s' i = ts ∧
    (∀ j, j ≠ i → tasks_at s' j = tasks_at s j) ∧ dr_totalTasks s' = (dr_totalTasks s - 1)%Z.

Lemma tasks_at_insert s s' i l l' :
  dr_lanes s !! i = Some l → dr_lanes s' = <[i := l']> (dr_lanes s) →
  tasks_at s' i = ln_tasks l' ∧ ∀ j, j ≠ i → tasks_at s' j = tasks_at s j.
Proof.
  intros Hl Hs'. unfold tasks_at. rewrite Hs'. split.
  - by rewrite list_lookup_insert_eq by by eapply lane_lt.
  - intros j Hj. by rewrite list_lookup_insert_ne.
Qed.

(** The three ends of an attempt: it serves the head, or passes the turn on with the lane's
    credit reset, or raised and below the cost of its head. *)
Inductive attempt_end (s : DRRScheduler) : option Task → DRRScheduler → Prop :=
| end_served t s' : serves s t s' → attempt_end s (Some t) s'
| end_passed s' l l' :
    dr_lanes s !! dr_roundIndex s = Some l → dr_lanes s' = <[dr_roundIndex s := l']> (dr_lanes s) →
    dr_roundIndex s' = next_lane s → dr_quantumAdded s' = false →
    dr_totalTasks s' = dr_totalTasks s → ln_tasks l' = ln_tasks l →
    match ln_tasks l with
    | [] => True
    | t :: _ => (ln_deficit l' < tk_Cost t)%Z ∧
        ln_deficit l' = (ln_deficit l +
          if dr_quantumAdded s then 0 else lc_Quantum (ln_cfg l))%Z
    end → attempt_end s None s'.

(** The turn passes on, with the lane's credit below the costliest task. *)
Lemma pass_inv M s l l' z :
  drr_inv M s → dr_lanes s !! dr_roundIndex s = Some l → lane_ok M 0 l' →
  (z + Z.of_nat (length (ln_tasks l)) = Z.of_nat (length (ln_tasks l')))%Z →
  drr_inv M (add_total z (set_round (next_lane s) false (set_lane (dr_roundIndex s) l' s))).
Proof.
  intros HI Hl Hok Hz. eapply (inv_update M s _ (dr_roundIndex s) l l'); try done.
  - by apply (next_lane_lt M).
  - simpl. lia.
  - unfold extra. simpl. by rewrite andb_false_r.
  - intros j lj Hj Hlj. eapply other_lane_ok; try done. by left.
Qed.

(** The turn stays. *)
Lemma stay_inv M s l l' z :
  drr_inv M s → dr_lanes s !! dr_roundIndex s = Some l →
  lane_ok M (lc_Quantum (ln_cfg l')) l' →
  (z + Z.of_nat (length (ln_tasks l)) = Z.of_nat (length (ln_tasks l')))%Z →
  drr_inv M (add_total z (set_round (dr_roundIndex s) true (set_lane (dr_roundIndex s) l' s))).
Proof.
  intros HI Hl Hok Hz. eapply (inv_update M s _ (dr_roundIndex s) l l'); try done.
  - exact (di_round _ _ HI).
  - simpl. lia.
  - unfold extra. simpl. by rewrite bool_decide_true.
  - intros j lj Hj Hlj. eapply other_lane_ok; try done. by right.
Qed.

Lemma add_total_0 s : add_total 0 s = s.
Proof. destruct s. unfold add_total. simpl. by rewrite Z.add_0_r. Qed.

Lemma serves_lane s i l t ts l' s' :
  dr_lanes s !! i = Some l → ln_tasks l = t :: ts → ln_tasks l' = ts →
  dr_lanes s' = <[i := l']> (dr_lanes s) → dr_totalTasks s' = (dr_totalTasks s - 1)%Z →
  ∀ u, u = t ∨ u = boost t → serves s u s'.
Proof.
  intros Hl Ht Ht' Hs' Htot u Hu. destruct (tasks_at_insert s s' i l l' Hl Hs') as [H1 H2].
  exists i, t, ts. split_and!; [|done|congruence|done|done].
  unfold tasks_at. by rewrite Hl.
Qed.

Lemma attempt_spec M s :
  (1 <= M)%Z → drr_inv M s →
  ∃ r s', attempt s = Some (r, s') ∧ drr_inv M s' ∧ attempt_end s r s'.
Proof.
  intros HM HI. unfold attempt.
  destruct (lookup_lt_is_Some_2 (dr_lanes s) (dr_roundIndex s) (di_round _ _ HI)) as [l Hl].
  rewrite Hl. pose proof (di_lanes _ _ HI _ _ Hl) as (Hq & Hts & Hd). unfold extra in Hd.
  rewrite bool_decide_true in Hd by done. destruct (ln_tasks l) as [|t ts] eqn:Et.
  { eexists _, _. split; [done|]. split.
    - rewrite <- (add_total_0 (set_round _ _ _)). apply (pass_inv M s l); [done..| |simpl; lia].
      split_and!; simpl; [done|by rewrite Et|lia|lia].
    - eapply end_passed; try done. by rewrite Et. }
  set (l1 := if dr_quantumAdded s then l else _).
  assert (ln_deficit l1 = ln_deficit l + if dr_quantumAdded s then 0 else lc_Quantum (ln_cfg l))%Z
    as Hdef by (unfold l1; destruct (dr_quantumAdded s); simpl; lia).
  assert (ln_cfg l1 = ln_cfg l ∧ ln_tasks l1 = ln_tasks l) as [Hcfg Hts1]
    by (unfold l1; by destruct (dr_quantumAdded s)).
  pose proof (Forall_cons_1 _ _ _ Hts) as [Ht Hts'].
  destruct (Z.leb_spec (tk_Cost t) (ln_deficit l1)) as [Hle|Hgt].
  - assert (0 <= ln_deficit l1 - tk_Cost t < M - 1 + lc_Quantum (ln_cfg l))%Z as Hrange.
    { unfold cost_ok in Ht. destruct (dr_quantumAdded s); simpl in *; lia. }
    eexists _, _. split; [done|]. split.
    + destruct ts as [|t' ts]; [|destruct (Z.ltb_spec (ln_deficit l1 - tk_Cost t) (tk_Cost t'))].
      * apply (pass_inv M s l); [done..| |rewrite Et; simpl; lia].
        split_and!; simpl; [by rewrite Hcfg|done|lia|lia].
      * apply (pass_inv M s l); [done..| |rewrite Et; simpl; lia].
        pose proof (Forall_cons_1 _ _ _ Hts') as [Ht' _]. unfold cost_ok in Ht'.
        split_and!; simpl; [by rewrite Hcfg|done|lia|lia].
      * apply (stay_inv M s l); [done..| |rewrite Et; simpl; lia].
        split_and!; simpl; [by rewrite Hcfg|done|lia|rewrite Hcfg; lia].
    + apply end_served. destruct ts as [|t' ts]; [|destruct (_ <? _)%Z];
        (eapply (serves_lane s _ l t); [done|done| |done|simpl; lia|by left]); done.
  - eexists _, _. split; [done|]. unfold cost_ok in Ht. split.
    + rewrite <- (add_total_0 (set_round _ _ _)). apply (pass_inv M s l); [done..| |].
      * split_and!; [by rewrite Hcfg|by rewrite Hts1, Et| |lia].
        destruct (dr_quantumAdded s); simpl in *; lia.
      * rewrite Hts1. lia.
    + eapply end_passed; try done. by rewrite Et.
Qed.

(** * Progress *)

(** The number of turns until the lane [i] has its turn. *)
Definition distance (s : DRRScheduler) (i : nat) : nat :=
  if decide (dr_roundIndex s <= i) then i - dr_roundIndex s
  else i + length (dr_lanes s) - dr_roundIndex s.

Lemma distance_next s s' i :
  i < length (dr_lanes s) → dr_roundIndex s < length (dr_lanes s) → i ≠ dr_roundIndex s →
  dr_roundIndex s' = next_lane s → length (dr_lanes s') = length (dr_lanes s) →
  distance s i = S (distance s' i).
Proof.
  intros Hi Hr Hne Hs' Hlen. unfold distance. rewrite Hs', Hlen. unfold next_lane.
  destruct (decide (S (dr_roundIndex s) = length (dr_lanes s))) as [E|E].
  - rewrite E, Nat.Div0.mod_same. repeat case_decide; lia.
  - rewrite Nat.mod_small by lia. repeat case_decide; lia.
Qed.

(** A lane with tasks across an attempt that serves nothing. *)
Lemma passed_lane M s s' i l t ts :
  drr_inv M s → attempt_end s None s' → dr_lanes s !! i = Some l → ln_tasks l = t :: ts →
  dr_quantumAdded s' = false ∧ dr_roundIndex s' = next_lane s ∧
  length (dr_lanes s') = length (dr_lanes s) ∧
  ∃ l', dr_lanes s' !! i = Some l' ∧ ln_tasks l' = t :: ts ∧
    if decide (i = dr_roundIndex s)
    then (ln_deficit l' < tk_Cost t)%Z ∧ (ln_deficit l <= ln_deficit l')%Z ∧
         (dr_quantumAdded s = false → ln_deficit l < ln_deficit l')%Z
    else ln_deficit l' = ln_deficit l.
Proof.
  intros HI He Hl Ht. inversion He as [|s0 lr lr' Hlr Hs' Hr Hq _ Hts Hcase]; subst.
  split_and!; [done..|by rewrite Hs', length_insert|]. rewrite Hs'.
  destruct (decide (i = dr_roundIndex s)) as [->|Hne].
  - rewrite list_lookup_insert_eq by by eapply lane_lt. exists lr'. split; [done|].
    assert (lr = l) as -> by congruence. rewrite Ht in Hcase, Hts. split; [done|].
    destruct Hcase as [Hlt Hd]. destruct (di_lanes _ _ HI _ _ Hl) as (Hqu & _ & _).
    split_and!; [done|destruct (dr_quantumAdded s); lia|]. intros Hf. rewrite Hf in Hd. lia.
  - rewrite list_lookup_insert_ne by done. eauto.
Qed.

Lemma attempts_lane M m s s' i l t ts :
  (1 <= M)%Z → drr_inv M s → attempts m s = Some (None, s') →
  dr_lanes s !! i = Some l → ln_tasks l = t :: ts →
  drr_inv M s' ∧ length (dr_lanes s') = length (dr_lanes s) ∧
  ∃ l', dr_lanes s' !! i = Some l' ∧ ln_tasks l' = t :: ts ∧
    (ln_deficit l <= ln_deficit l')%Z ∧
    (ln_deficit l < tk_Cost t → ln_deficit l' < tk_Cost t)%Z ∧
    (dr_quantumAdded s = false → (distance s i < m)%nat →
     ln_deficit l < ln_deficit l' < tk_Cost t)%Z.
Proof.
  intros HM. revert s l. induction m as [|m IH]; intros s l HI; simpl.
  { intros [= <-] Hl Ht. split_and!; [done..|]. exists l. split_and!; [done..|lia]. }
  destruct (attempt_spec M s HM HI) as (r & s1 & -> & HI1 & He). destruct r; [done|].
  intros Ha Hl Ht. destruct (passed_lane M s s1 i l t ts HI He Hl Ht)
    as (Hq1 & Hr1 & Hlen1 & l1 & Hl1 & Ht1 & Hd1).
  destruct (IH s1 l1 HI1 Ha Hl1 Ht1) as (HI' & Hlen & l' & Hl' & Ht' & Hle & Hlt & Hdist).
  split_and!; [done|congruence|]. exists l'. split; [done|]. split; [done|].
  destruct (decide (i = dr_roundIndex s)) as [->|Hne].
  - destruct Hd1 as (Hc1 & Hle1 & Hadd). specialize (Hlt Hc1). split_and!; [lia|lia|].
    intros Hf _. specialize (Hadd Hf). lia.
  - rewrite Hd1 in *. split_and!; [done..|]. intros _ Hdm. apply Hdist; [done|].
    pose proof (distance_next s s1 i (lane_lt _ _ _ Hl) (di_round _ _ HI) Hne Hr1 Hlen1). lia.
Qed.

Lemma distance_lt s i :
  i < length (dr_lanes s) → dr_roundIndex s < length (dr_lanes s) →
  distance s i < length (dr_lanes s).
Proof. unfold distance. intros. case_decide; lia. Qed.

(** A pass that serves nothing raises the credit of every lane with tasks, below the cost of
    its head. *)
Lemma pass_lane M s s' i l t ts :
  (1 <= M)%Z → drr_inv M s → attempts (length (dr_lanes s) * 2) s = Some (None, s') →
  dr_lanes s !! i = Some l → ln_tasks l = t :: ts →
  drr_inv M s' ∧ ∃ l', dr_lanes s' !! i = Some l' ∧ ln_tasks l' = t :: ts ∧
    (ln_deficit l < ln_deficit l' < tk_Cost t)%Z.
Proof.
  intros HM HI. pose proof (di_round _ _ HI) as Hr.
  destruct (length (dr_lanes s) * 2) as [|m] eqn:Em; [lia|]. simpl.
  destruct (attempt_spec M s HM HI) as (r & s1 & -> & HI1 & He). destruct r; [done|].
  intros Ha Hl Ht. destruct (passed_lane M s s1 i l t ts HI He Hl Ht)
    as (Hq1 & Hr1 & Hlen1 & l1 & Hl1 & Ht1 & Hd1).
  destruct (attempts_lane M m s1 s' i l1 t ts HM HI1 Ha Hl1 Ht1)
    as (HI' & _ & l' & Hl' & Ht' & _ & _ & Hdist).
  split; [done|]. exists l'. split; [done|]. split; [done|].
  assert (distance s1 i < m) as Hdm.
  { pose proof (distance_lt s1 i (lane_lt _ _ _ Hl1) (di_round _ _ HI1)). lia. }
  specialize (Hdist Hq1 Hdm). destruct (decide (i = dr_roundIndex s)); [|lia].
  destruct Hd1 as (_ & Hle & _). lia.
Qed.

Lemma serves_ext s0 s t s' :
  (∀ i, tasks_at s0 i = tasks_at s i) → dr_totalTasks s0 = dr_totalTasks s →
  serves s0 t s' → serves s t s'.
Proof.
  intros Ht Htot (i & t0 & ts & H1 & H2 & H3 & H4 & H5). exists i, t0, ts.
  split_and!; [by rewrite <- Ht|done|done| |by rewrite <- Htot].
  intros j Hj. rewrite <- Ht. by apply H4.
Qed.

Lemma passed_tasks s s' :
  attempt_end s None s' →
  (∀ i, tasks_at s' i = tasks_at s i) ∧ dr_totalTasks s' = dr_totalTasks s.
Proof.
  intros He. inversion He as [|s0 lr lr' Hlr Hs' Hr Hq Htot Hts _]; subst. split; [|done].
  destruct (tasks_at_insert s s' _ lr lr' Hlr Hs') as [H1 H2]. intros i.
  destruct (decide (i = dr_roundIndex s)) as [->|Hne]; [|by apply H2].
  rewrite H1, Hts. unfold tasks_at. by rewrite Hlr.
Qed.

Lemma attempts_spec M m s :
  (1 <= M)%Z → drr_inv M s →
  ∃ r s', attempts m s = Some (r, s') ∧ drr_inv M s' ∧
    match r with
    | Some t => serves s t s'
    | None => (∀ i, tasks_at s' i = tasks_at s i) ∧ dr_totalTasks s' = dr_totalTasks s
    end.
Proof.
  intros HM. revert s. induction m as [|m IH]; intros s HI; simpl; [by eexists None, s|].
  destruct (attempt_spec M s HM HI) as (r & s1 & -> & HI1 & He). destruct r as [t|].
  { eexists _, _. split_and!; [done..|]. by inversion He. }
  destruct (passed_tasks _ _ He) as [Ht Htot]. destruct (IH s1 HI1) as (r & s' & -> & HI' & Hr).
  exists r, s'. split_and!; [done..|]. destruct r as [t|].
  - by apply (serves_ext s1).
  - destruct Hr as [Ht' Htot']. split; [|congruence]. intros i. by rewrite Ht'.
Qed.

Lemma serve_starving_spec M now s t s' :
  drr_inv M s → serve_starving now (dr_lanes s) 0 s = Some (t, s') →
  drr_inv M s' ∧ serves s t s'.
Proof.
  intros HI. assert (∀ lanes k, (∀ j, lanes !! j = dr_lanes s !! (k + j)) →
    serve_starving now lanes k s = Some (t, s') → drr_inv M s' ∧ serves s t s') as H;
    [|by apply (H (dr_lanes s) 0)].
  induction lanes as [|l lanes IH]; intros k Hk; simpl; [done|].
  assert (∀ j, lanes !! j = dr_lanes s !! (S k + j)) as Hk'.
  { intros j. specialize (Hk (S j)). simpl in Hk. rewrite Hk. f_equal. lia. }
  specialize (Hk 0). simpl in Hk. rewrite Nat.add_0_r in Hk. symmetry in Hk.
  case_match; [|by apply IH]. unfold lane_Dequeue.
  destruct (ln_tasks l) as [|t0 ts] eqn:Et; [by apply IH|]. intros [= <- <-].
  pose proof (di_lanes _ _ HI _ _ Hk) as (Hq & Hts & Hd).
  rewrite Et in Hts. apply Forall_cons_1 in Hts as [_ Hts].
  set (l' := MkLane _ _ _ _ _). split.
  - eapply (inv_update M s _ k l l'); try done.
    + exact (di_round _ _ HI).
    + simpl. rewrite Et. simpl. lia.
    + intros j lj _ Hj. exact (di_lanes _ _ HI j lj Hj).
  - eapply (serves_lane s k l t0 ts l'); try done. by right.
Qed.

(** Enough fuel for the lane [i]: its credit grows by one per pass at least. *)
Lemma ScheduleNext_serves M fuel now s i l t ts :
  (1 <= M)%Z → drr_inv M s → dr_totalTasks s ≠ 0%Z →
  dr_lanes s !! i = Some l → ln_tasks l = t :: ts →
  Z.to_nat (M - ln_deficit l) < fuel →
  ∃ u s', ScheduleNext fuel now s = Served u s' ∧ drr_inv M s' ∧ serves s u s'.
Proof.
  intros HM. revert s l. induction fuel as [|fuel IH]; intros s l HI Htot Hl Ht Hf; [lia|]. simpl.
  rewrite (proj2 (Z.eqb_neq _ _) Htot).
  destruct (serve_starving now (dr_lanes s) 0 s) as [[u s']|] eqn:Es.
  { eexists _, _. split; [done|]. by eapply serve_starving_spec. }
  destruct (attempts_spec M (length (dr_lanes s) * 2) s HM HI) as (r & s' & Ha & HI' & Hr).
  rewrite Ha. destruct r as [u|]; [by eexists _, _|].
  destruct (pass_lane M s s' i l t ts HM HI Ha Hl Ht) as (_ & l' & Hl' & Ht' & Hd).
  destruct Hr as [Htasks Htot']. pose proof (di_lanes _ _ HI _ _ Hl) as (_ & Hts & _).
  rewrite Ht in Hts. apply Forall_cons_1 in Hts as [Hc _]. unfold cost_ok in Hc.
  destruct (IH s' l') as (u & s2 & Hsch & HI2 & Hserv); [done|congruence|done|done|lia|].
  eexists _, _. split_and!; [done..|]. by apply (serves_ext s').
Qed.

(** * The reachable schedulers *)

(** A scheduler of fresh lanes, fed tasks of cost at most [M] and asked for tasks, at any
    times and with any fuel.  The two critical sections of [Enqueue] are one step here. *)
Inductive reachable (M : Z) : DRRScheduler → Prop :=
| reach_new cfgs lanes s :
    Forall2 (λ cfg l, NewLane cfg = Ok l) cfgs lanes → NewDRRScheduler lanes = Ok s →
    reachable M s
| reach_enqueue s now t :
    reachable M s → (tk_Cost t <= M)%Z → reachable M (Enqueue now t s).2
| reach_schedule s fuel now t s' :
    reachable M s → ScheduleNext fuel now s = Served t s' → reachable M s'.

Lemma NewLane_ok M cfg l : (1 <= M)%Z → NewLane cfg = Ok l → lane_ok M 0 l ∧ ln_tasks l = [].
Proof.
  unfold NewLane. intros HM. case_match eqn:Hq; intros [= <-]. apply Z.leb_gt in Hq.
  split; [|done]. split_and!; simpl; [done|constructor|lia|lia].
Qed.

Lemma lane_map_bound n lanes i m m' :
  lane_map lanes i m = Ok m' → i + length lanes <= n →
  map_Forall (λ _ j, j < n) m → map_Forall (λ _ j, j < n) m'.
Proof.
  revert i m. induction lanes as [|l lanes IH]; simpl; intros i m; [by intros [= <-]|].
  case_match; [done|]. intros Hm Hn HF. apply (IH _ _ Hm); [lia|].
  apply map_Forall_insert_2; [lia|done].
Qed.

Lemma new_inv M cfgs lanes s :
  (1 <= M)%Z → Forall2 (λ cfg l, NewLane cfg = Ok l) cfgs lanes → NewDRRScheduler lanes = Ok s →
  drr_inv M s.
Proof.
  intros HM HF. unfold NewDRRScheduler. destruct lanes as [|l0 lanes0] eqn:E; [done|].
  rewrite <- E in *. destruct (lane_map lanes 0 ∅) as [m|] eqn:Em; [|done]. intros [= <-].
  assert (Forall (λ l, lane_ok M 0 l ∧ ln_tasks l = []) lanes) as Hok.
  { clear -HM HF. induction HF; constructor; eauto using NewLane_ok. }
  split; simpl.
  - rewrite E. simpl. lia.
  - clear -Hok. unfold queued. induction Hok as [|l ls [_ Hl]]; simpl; [done|]. rewrite Hl. simpl. lia.
  - apply (lane_map_bound _ _ _ _ _ Em); [lia|]. apply map_Forall_empty.
  - intros i l Hl. unfold extra. simpl. rewrite andb_false_r.
    exact (proj1 (Forall_lookup_1 _ _ _ _ Hok Hl)).
Qed.

Lemma admit_cost M now l t : (1 <= M)%Z → (tk_Cost t <= M)%Z → cost_ok M (admit_task now l t).
Proof.
  intros HM Ht. unfold cost_ok, admit_task. simpl. destruct (Z.leb_spec (tk_Cost t) 0); lia.
Qed.

Lemma lane_Enqueue_inv M now t s :
  (1 <= M)%Z → drr_inv M s → (tk_Cost t <= M)%Z → drr_inv M (Enqueue now t s).2.
Proof.
  intros HM HI Ht. unfold Enqueue. destruct (dr_laneMap s !! tk_LaneID t) as [i|]; [|done].
  destruct (dr_lanes s !! i) as [l|] eqn:Hl; [|done]. unfold lane_Enqueue. destruct (_ <=? _)%Z; [done|].
  pose proof (di_lanes _ _ HI _ _ Hl) as (Hq & Hts & Hd). simpl.
  eapply (inv_update M s _ i l); [done|done|done|done|exact (di_round _ _ HI)| | |].
  - simpl. rewrite length_app. simpl. lia.
  - split_and!; simpl; [done| |apply Hd|apply Hd].
    apply Forall_app_2; [done|]. constructor; [by apply admit_cost|constructor].
  - intros j lj _ Hj. exact (di_lanes _ _ HI j lj Hj).
Qed.

Lemma queued_pos lanes :
  queued lanes ≠ 0 → ∃ i l t ts, lanes !! i = Some l ∧ ln_tasks l = t :: ts.
Proof.
  induction lanes as [|l lanes IH]; simpl; [done|]. unfold queued in *. simpl.
  destruct (ln_tasks l) as [|t ts] eqn:Et; simpl.
  - intros Hn. destruct (IH Hn) as (i & l' & t & ts & Hi & Ht). by exists (S i), l', t, ts.
  - intros _. by exists 0, l, t, ts.
Qed.

Lemma ScheduleNext_inv M fuel now s t s' :
  (1 <= M)%Z → drr_inv M s → ScheduleNext fuel now s = Served t s' → drr_inv M s' ∧ serves s t s'.
Proof.
  intros HM. revert s. induction fuel as [|fuel IH]; simpl; [done|]. intros s HI.
  case_match; [done|]. destruct (serve_starving _ _ _ _) as [[u s1]|] eqn:Es.
  { intros [= <- <-]. by eapply serve_starving_spec. }
  destruct (attempts_spec M (length (dr_lanes s) * 2) s HM HI) as (r & s1 & -> & HI1 & Hr).
  destruct r as [u|]; [by intros [= <- <-]|]. destruct Hr as [Ht Htot]. intros Hs.
  destruct (IH s1 HI1 Hs) as [HI' Hserv]. split; [done|]. by apply (serves_ext s1).
Qed.

Lemma reachable_inv M s : (1 <= M)%Z → reachable M s → drr_inv M s.
Proof.
  intros HM Hr. induction Hr; [by eapply new_inv|by apply lane_Enqueue_inv|by eapply ScheduleNext_inv].
Qed.

(** The scheduler is work-conserving, and terminates: while a task is queued, [ScheduleNext]
    returns one after at most [M + 1] passes, where [M] bounds the costs, and never panics on an
    index; the task is the head of its lane, the other lanes keep theirs, and the count of tasks
    drops by one. *)
Theorem ScheduleNext_progress (M : Z) (s : DRRScheduler) (fuel : nat) (now : Time) :
  (1 <= M)%Z → reachable M s → dr_totalTasks s ≠ 0%Z → Z.to_nat M < fuel →
  ∃ t s', ScheduleNext fuel now s = Served t s' ∧ serves s t s'.
Proof.
  intros HM Hr Ht Hf. pose proof (reachable_inv _ _ HM Hr) as HI.
  pose proof (di_total _ _ HI) as Htot.
  destruct (queued_pos (dr_lanes s)) as (i & l & t & ts & Hl & Hts); [lia|].
  destruct (di_lanes _ _ HI _ _ Hl) as (_ & _ & Hd & _).
  destruct (ScheduleNext_serves M fuel now s i l t ts) as (u & s' & H1 & _ & H3); try done; [lia|].
  eauto.
Qed.

(** No lane accumulates credit: its deficit stays non-negative and below the largest cost
    plus its own quantum.  And the count of tasks that the scheduler keeps is the number of tasks
    in its lanes. *)
Theorem deficits_bounded (M : Z) (s : DRRScheduler) :
  (1 <= M)%Z → reachable M s →
  dr_totalTasks s = Z.of_nat (queued (dr_lanes s)) ∧
  ∀ i l, dr_lanes s !! i = Some l →
    (0 <= ln_deficit l < M + lc_Quantum (ln_cfg l))%Z.
Proof.
  intros HM Hr. pose proof (reachable_inv _ _ HM Hr) as HI. split; [exact (di_total _ _ HI)|].
  intros i l Hl. destruct (di_lanes _ _ HI _ _ Hl) as (Hq & _ & Hd). unfold extra in Hd.
  destruct (_ && _); lia.
Qed.

(** Two lanes, with a task dearer than its lane's quantum in the second. *)
Definition ex_cfg (id : string) (q : Z) : LaneConfig := MkLaneConfig id 0 q 0 0.
Definition ex_lane (id : string) (q : Z) : Lane :=
  MkLane (MkLaneConfig id 0 q 10000 (30 * second)) [] 0 0 0.
Definition ex_sched : DRRScheduler :=
  (Enqueue 5 (MkTask "t" "low" [] 7 5 false)
    (MkDRR [ex_lane "high" 4; ex_lane "low" 2] (<["low" := 1]> (<["high" := 0]> ∅)) 0 false 0)).2.

Lemma ex_reachable : reachable 10 ex_sched.
Proof.
  apply reach_enqueue; [|decide_closed].
  apply (reach_new 10 [ex_cfg "high" 4; ex_cfg "low" 2] [ex_lane "high" 4; ex_lane "low" 2]);
    [|vm_compute; reflexivity].
  constructor; [vm_compute; reflexivity|]. constructor; [vm_compute; reflexivity|constructor].
Defined.

Lemma ScheduleNext_progress_witness :
  ∃ t s', ScheduleNext 11 6 ex_sched = Served t s' ∧ serves ex_sched t s'.
Proof.
  apply (ScheduleNext_progress 10 ex_sched 11 6); [lia|exact ex_reachable| |lia].
  decide_closed.
Defined.

Lemma deficits_bounded_witness :
  dr_totalTasks ex_sched = Z.of_nat (queued (dr_lanes ex_sched)) ∧
  ∀ i l, dr_lanes ex_sched !! i = Some l →
    (0 <= ln_deficit l < 10 + lc_Quantum (ln_cfg l))%Z.
Proof. apply (deficits_bounded 10 ex_sched); [lia|exact ex_reachable]. Defined.
