(* ===== verification/MmapRing.v ===== *)
(** The ring buffer of framed records of [internal/mmapring]: [frame.go], [ring.go] and
    [cursor.go].

    Bytes are integers of [0, 256).  Positions and lengths, Go [int]s that the code keeps
    non-negative, are natural numbers: a cursor is created at a non-negative offset.  Each method
    holds the lock of the ring throughout, and is one step here. *)
From S2P Require Import Prelude Errors.

Abbreviation SInvalidMagic := (SOther "mmapring: invalid frame magic bytes").
Abbreviation SCorruptHeader := (SOther "mmapring: frame header corrupted or too short").
Abbreviation SChecksumFailed := (SOther "mmapring: frame payload checksum verification failed").
Abbreviation SBufferFull := (SOther "mmapring: ring buffer capacity exceeded").
Abbreviation SCursorExpired := (SOther "mmapring: consumer cursor has been overwritten by ring buffer").

Abbreviation bytes := (list Z).

(** * Frames *)

Definition FrameMagic : Z := 0x544D5052%Z.
Definition HeaderSize : nat := 22.

Record Header := MkHeader {
  h_Magic : Z;
  h_Seq : Z;
  h_Length : Z;
  h_Checksum : Z;
  h_Flags : Z
}.

(** [binary.BigEndian]: the [n] bytes of an integer, and the integer of some bytes. *)
Fixpoint be_bytes (n : nat) (z : Z) : bytes :=
  match n with
  | 0 => []
  | S n' => Z.land (Z.shiftr z (8 * Z.of_nat n')) 255 :: be_bytes n' z
  end.

Definition be_value (bs : bytes) : Z := foldl (λ acc b, Z.lor (Z.shiftl acc 8) b) 0%Z bs.

(** The contents of the 22-byte array that [Encode] fills. *)
Definition Encode (h : Header) : bytes :=
  be_bytes 4 (h_Magic h) ++ be_bytes 8 (h_Seq h) ++ be_bytes 4 (h_Length h) ++
  be_bytes 4 (h_Checksum h) ++ be_bytes 2 (h_Flags h).

(** [l[i:j]] *)
Definition slice {A} (i j : nat) (l : list A) : list A := take (j - i) (drop i l).

Definition DecodeHeader (src : bytes) : result error Header :=
  if length src <? HeaderSize then Err (ESentinel SCorruptHeader)
  else
    let magic := be_value (slice 0 4 src) in
    if negb (magic =? FrameMagic)%Z then Err (ESentinel SInvalidMagic)
    else Ok (MkHeader magic (be_value (slice 4 12 src)) (be_value (slice 12 16 src))
               (be_value (slice 16 20 src)) (be_value (slice 20 22 src))).

Record Frame := MkFrame { f_Header : Header; f_Payload : bytes }.

(** [crc32.ChecksumIEEE]: the reflected CRC-32 with polynomial 0xEDB88320, bit by bit. *)
Definition crc_poly : Z := 0xEDB88320%Z.
Definition crc_bit (x : Z) : Z :=
  if Z.odd x then Z.lxor (Z.shiftr x 1) crc_poly else Z.shiftr x 1.
Definition crc_byte (crc b : Z) : Z := Nat.iter 8 crc_bit (Z.lxor crc b).
Definition ones32 : Z := 0xFFFFFFFF%Z.

Definition ComputeChecksum (data : bytes) : Z :=
  Z.lxor (foldl crc_byte ones32 data) ones32.

(** * The ring *)

Record RingBuffer := MkRing {
  r_capacity : nat;
  r_data : bytes;
  r_writePos : nat;
  r_oldestSeq : Z;
  r_nextSeq : Z;
  r_totalBytes : Z
}.

Definition New (capacity : Z) : RingBuffer :=
  let capacity := (if capacity <=? Z.of_nat HeaderSize * 2 then 64 * 1024 else capacity)%Z in
  MkRing (Z.to_nat capacity) (replicate (Z.to_nat capacity) 0%Z) 0 1 1 0.

(** The loop of [writeBytesLocked]: the data and the position after writing [p].  Every round
    writes a byte at least, so [length p] rounds are enough. *)
Fixpoint write_loop (fuel cap : nat) (p data : bytes) (pos : nat) : bytes * nat :=
  match fuel with
  | 0 => (data, pos)
  | S fuel' =>
      match p with
      | [] => (data, pos)
      | _ =>
          let avail := cap - pos in
          let chunk := if avail <? length p then avail else length p in
          write_loop fuel' cap (drop chunk p)
            (take pos data ++ take chunk p ++ drop (pos + chunk) data)
            ((pos + chunk) mod cap)
      end
  end.

Definition writeBytesLocked (p : bytes) (r : RingBuffer) : RingBuffer :=
  let '(data, pos) := write_loop (length p) (r_capacity r) p (r_data r) (r_writePos r) in
  MkRing (r_capacity r) data pos (r_oldestSeq r) (r_nextSeq r) (r_totalBytes r).

Definition Append (payload : bytes) (r : RingBuffer) : result error Z * RingBuffer :=
  let frameLen := HeaderSize + length payload in
  if r_capacity r <? frameLen then (Err (ESentinel SBufferFull), r)
  else
    let seq := r_nextSeq r in
    let r := MkRing (r_capacity r) (r_data r) (r_writePos r) (r_oldestSeq r)
               (wrap_u 64 (r_nextSeq r + 1)) (r_totalBytes r) in
    let hdr := MkHeader FrameMagic seq (wrap_u 32 (Z.of_nat (length payload)))
                 (ComputeChecksum payload) 0 in
    let r := writeBytesLocked (Encode hdr) r in
    let r := writeBytesLocked payload r in
    (Ok seq, MkRing (r_capacity r) (r_data r) (r_writePos r) (r_oldestSeq r) (r_nextSeq r)
               (wrap_u 64 (r_totalBytes r + Z.of_nat frameLen))).

(** The loop of [readBytesLocked]: the [n] bytes it copies to the destination. *)
Fixpoint read_loop (fuel cap : nat) (data : bytes) (pos n : nat) : bytes :=
  match fuel with
  | 0 => []
  | S fuel' =>
      match n with
      | 0 => []
      | _ =>
          let avail := cap - pos in
          let chunk := if avail <? n then avail else n in
          slice pos (pos + chunk) data ++
          read_loop fuel' cap data ((pos + chunk) mod cap) (n - chunk)
      end
  end.

Definition readBytesLocked (offset n : nat) (r : RingBuffer) : bytes :=
  read_loop n (r_capacity r) (r_data r) (offset mod r_capacity r) n.

Definition ReadFrameAt (offset : nat) (r : RingBuffer) : result error (Frame * nat) :=
  match DecodeHeader (readBytesLocked offset HeaderSize r) with
  | Err err => Err err
  | Ok hdr =>
      let n := Z.to_nat (h_Length hdr) in
      let payload := readBytesLocked (offset + HeaderSize) n r in
      if negb (ComputeChecksum payload =? h_Checksum hdr)%Z then Err (ESentinel SChecksumFailed)
      else Ok (MkFrame hdr payload, (offset + HeaderSize + n) mod r_capacity r)
  end.

(** * Cursors *)

Record Cursor := MkCursor { c_offset : nat; c_lastSeq : Z }.

Definition NewCursor (startOffset : nat) (r : RingBuffer) : Cursor :=
  MkCursor (startOffset mod r_capacity r) 0.

(** [Next]: the frame, [None] where the code returns false without an error.  The write position is read in
    a section of its own; [r] is the ring when the frame is read. *)
Definition next_after (currentWritePos : nat) (c : Cursor) (r : RingBuffer) : result error (option Frame) * Cursor :=
  if c_offset c =? currentWritePos then (Ok None, c)
  else
    match ReadFrameAt (c_offset c) r with
    | Err err => (Err err, c)
    | Ok (frame, nextOffset) =>
        if ((0 <? c_lastSeq c) && (h_Seq (f_Header frame) <=? c_lastSeq c))%Z
        then (Err (ESentinel SCursorExpired), c)
        else (Ok (Some frame), MkCursor nextOffset (h_Seq (f_Header frame)))
    end.

(** A call that is not interrupted. *)
Definition Next (c : Cursor) (r : RingBuffer) : result error (option Frame) * Cursor :=
  next_after (r_writePos r) c r.

(** The loop of [Snapshot]; [None] when it has not ended after [fuel] rounds. *)
Fixpoint snapshot_loop (fuel : nat) (c : Cursor) (r : RingBuffer) : option (list Frame) :=
  match fuel with
  | 0 => None
  | S fuel' =>
      match Next c r with
      | (Ok (Some f), c') => cons f <$> snapshot_loop fuel' c' r
      | _ => Some []
      end
  end.

Definition Snapshot (fuel : nat) (r : RingBuffer) : option (list Frame) :=
  snapshot_loop fuel (NewCursor 0 r) r.

Definition Stats (r : RingBuffer) : nat * nat * Z * Z :=
  (r_capacity r, r_writePos r, r_nextSeq r, r_totalBytes r).
