(* ===== verification/MmapRingFacts.v ===== *)
(** Correctness of the ring buffer of framed records: the wire format, the checksum, and a
    consumer that is not lapped seeing a queue. *)
From S2P Require Import Prelude Errors MmapRing.

(** * The wire format *)

Lemma lor_shiftl_8 (a b : Z) : (0 <= b < 256)%Z → Z.lor (Z.shiftl a 8) b = (a * 256 + b)%Z.
Proof.
  intros Hb. rewrite <- Z.add_nocarry_lor; [by rewrite Z.shiftl_mul_pow2|].
  apply Z.bits_inj'. intros n Hn. rewrite Z.land_spec, Z.bits_0.
  destruct (Z.lt_ge_cases n 8); [by rewrite Z.shiftl_spec_low|].
  rewrite (Z.bits_above_log2 b), andb_false_r; [done|lia|].
  destruct (decide (b = 0%Z)) as [->|]; [simpl; lia|]. apply Z.log2_lt_pow2; [lia|].
  apply Z.lt_le_trans with (2 ^ 8)%Z; [lia|]. apply Z.pow_le_mono_r; lia.
Qed.

Lemma land_255 (z : Z) : Z.land z 255 = (z mod 256)%Z.
Proof. change 255%Z with (Z.ones 8). by rewrite Z.land_ones. Qed.

Lemma be_value_bytes_acc n z acc :
  foldl (λ acc b, Z.lor (Z.shiftl acc 8) b) acc (be_bytes n z) =
  (acc * 2 ^ (8 * Z.of_nat n) + z mod 2 ^ (8 * Z.of_nat n))%Z.
Proof.
  revert acc. induction n as [|n IH]; intros acc; [simpl; rewrite Z.mod_1_r; lia|].
  cbn [be_bytes foldl]. rewrite IH, land_255, lor_shiftl_8 by (apply Z.mod_pos_bound; lia).
  replace (8 * Z.of_nat (S n))%Z with (8 * Z.of_nat n + 8)%Z by lia.
  rewrite Z.pow_add_r by lia. change (2 ^ 8)%Z with 256%Z.
  rewrite Z.rem_mul_r, Z.shiftr_div_pow2 by lia. lia.
Qed.

Lemma be_value_bytes n z : (0 <= z < 2 ^ (8 * Z.of_nat n))%Z → be_value (be_bytes n z) = z.
Proof. intros Hz. unfold be_value. rewrite be_value_bytes_acc, Z.mod_small by done. lia. Qed.

Lemma length_be_bytes n z : length (be_bytes n z) = n.
Proof. induction n; simpl; congruence. Qed.

Definition header_ok (h : Header) : Prop :=
  h_Magic h = FrameMagic ∧ (0 <= h_Seq h < 2 ^ 64)%Z ∧ (0 <= h_Length h < 2 ^ 32)%Z ∧
  (0 <= h_Checksum h < 2 ^ 32)%Z ∧ (0 <= h_Flags h < 2 ^ 16)%Z.

Lemma length_Encode h : length (Encode h) = HeaderSize.
Proof. unfold Encode. by rewrite !length_app, !length_be_bytes. Qed.

Lemma decode_encode h : header_ok h → DecodeHeader (Encode h) = Ok h.
Proof.
  destruct h as [m s l c f]. intros (Hm & Hs & Hl & Hc & Hf). simpl in *. subst m.
  unfold DecodeHeader. rewrite length_Encode, Nat.ltb_irrefl.
  change (slice 0 4 (Encode ?h)) with (be_bytes 4 (h_Magic h)).
  change (slice 4 12 (Encode ?h)) with (be_bytes 8 (h_Seq h)).
  change (slice 12 16 (Encode ?h)) with (be_bytes 4 (h_Length h)).
  change (slice 16 20 (Encode ?h)) with (be_bytes 4 (h_Checksum h)).
  change (slice 20 22 (Encode ?h)) with (be_bytes 2 (h_Flags h)).
  cbn [h_Magic h_Seq h_Length h_Checksum h_Flags].
  rewrite !be_value_bytes; [by rewrite Z.eqb_refl|done..|by unfold FrameMagic].
Qed.

(** * The checksum *)

Definition u32 (x : Z) : Prop := (0 <= x < 2 ^ 32)%Z.

Lemma u32_bits x : u32 x ↔ (0 <= x)%Z ∧ ∀ n, (32 <= n)%Z → Z.testbit x n = false.
Proof.
  unfold u32. split.
  - intros Hx. split; [lia|]. intros n Hn. destruct (decide (x = 0%Z)) as [->|]; [apply Z.bits_0|].
    apply Z.bits_above_log2; [lia|]. apply Z.lt_le_trans with 32%Z; [|done].
    apply Z.log2_lt_pow2; lia.
  - intros [H0 Hb]. split; [done|]. destruct (Z.lt_ge_cases x (2 ^ 32)) as [|Hge]; [done|].
    assert (0 < x)%Z as Hpos by lia. pose proof (Z.bit_log2 x Hpos) as Hl.
    rewrite Hb in Hl; [done|]. apply Z.log2_le_pow2; lia.
Qed.

Lemma u32_lxor x y : u32 x → u32 y → u32 (Z.lxor x y).
Proof.
  rewrite !u32_bits. intros [Hx Hbx] [Hy Hby]. split; [by apply Z.lxor_nonneg|].
  intros n Hn. by rewrite Z.lxor_spec, Hbx, Hby.
Qed.

Lemma u32_shiftr x : u32 x → (0 <= Z.shiftr x 1 < 2 ^ 31)%Z.
Proof.
  unfold u32. intros Hx. rewrite Z.shiftr_div_pow2 by lia. change (2 ^ 1)%Z with 2%Z.
  split; [apply Z.div_pos; lia|]. apply Z.div_lt_upper_bound; lia.
Qed.

Lemma u32_crc_bit x : u32 x → u32 (crc_bit x).
Proof.
  intros Hx. pose proof (u32_shiftr x Hx). unfold crc_bit.
  assert (u32 (Z.shiftr x 1)) by (unfold u32; lia).
  destruct (Z.odd x); [|done]. apply u32_lxor; [done|]. by vm_compute.
Qed.

(** The top bit of the shifted remainder tells which bit was shifted out. *)
Lemma crc_bit_top x : u32 x → Z.testbit (crc_bit x) 31 = Z.odd x.
Proof.
  intros Hx. assert (Z.testbit (Z.shiftr x 1) 31 = false) as Hs.
  { rewrite Z.shiftr_spec by lia. by apply (proj1 (u32_bits x) Hx). }
  unfold crc_bit. destruct (Z.odd x); [|done]. by rewrite Z.lxor_spec, Hs.
Qed.

Lemma lxor_cancel_r x y z : Z.lxor x z = Z.lxor y z → x = y.
Proof.
  intros E. apply (f_equal (λ w, Z.lxor w z)) in E.
  by rewrite !Z.lxor_assoc, !Z.lxor_nilpotent, !Z.lxor_0_r in E.
Qed.

Lemma crc_bit_inj x y : u32 x → u32 y → crc_bit x = crc_bit y → x = y.
Proof.
  intros Hx Hy E. assert (Z.odd x = Z.odd y) as Ho by (by rewrite <- !crc_bit_top, E).
  assert (Z.shiftr x 1 = Z.shiftr y 1) as Hs.
  { unfold crc_bit in E. rewrite Ho in E. destruct (Z.odd y); [by eapply lxor_cancel_r|done]. }
  rewrite (Z.div2_odd x), (Z.div2_odd y), !Z.div2_spec. by rewrite Ho, Hs.
Qed.

Lemma u32_crc_bits n x : u32 x → u32 (Nat.iter n crc_bit x).
Proof. intros Hx. induction n; simpl; [done|]. by apply u32_crc_bit. Qed.

Lemma crc_bits_inj n x y : u32 x → u32 y → Nat.iter n crc_bit x = Nat.iter n crc_bit y → x = y.
Proof.
  intros Hx Hy. induction n as [|n IH]; simpl; [done|]. intros E. apply IH.
  apply crc_bit_inj; [by apply u32_crc_bits..|done].
Qed.

Definition byte_ok (b : Z) : Prop := (0 <= b < 256)%Z.

Lemma byte_u32 b : byte_ok b → u32 b.
Proof. unfold byte_ok, u32. lia. Qed.

Lemma u32_crc_byte x b : u32 x → byte_ok b → u32 (crc_byte x b).
Proof. intros Hx Hb. apply u32_crc_bits, u32_lxor; [done|by apply byte_u32]. Qed.

Lemma crc_byte_inj x y b c :
  u32 x → u32 y → byte_ok b → byte_ok c → crc_byte x b = crc_byte y c → Z.lxor x b = Z.lxor y c.
Proof. intros. eapply crc_bits_inj; [by apply u32_lxor, byte_u32..|done]. Qed.

Lemma u32_crc l x : u32 x → Forall byte_ok l → u32 (foldl crc_byte x l).
Proof.
  intros Hx Hl. revert x Hx. induction Hl as [|b l Hb Hl IH]; intros x Hx; simpl; [done|].
  by apply IH, u32_crc_byte.
Qed.

Lemma crc_inj l x y :
  Forall byte_ok l → u32 x → u32 y → foldl crc_byte x l = foldl crc_byte y l → x = y.
Proof.
  intros Hl. revert x y. induction Hl as [|b l Hb Hl IH]; intros x y Hx Hy; simpl; [done|].
  intros E. apply IH in E; [|by apply u32_crc_byte..].
  apply crc_byte_inj in E; [|done..]. by eapply lxor_cancel_r.
Qed.

Lemma u32_ones : u32 ones32.
Proof. by vm_compute. Qed.

Lemma u32_ComputeChecksum l : Forall byte_ok l → u32 (ComputeChecksum l).
Proof. intros Hl. apply u32_lxor; [apply u32_crc; [apply u32_ones|done]|apply u32_ones]. Qed.

(** Payloads that differ in one byte have different checksums. *)
Lemma ComputeChecksum_one_byte l1 l2 b c :
  Forall byte_ok l1 → Forall byte_ok l2 → byte_ok b → byte_ok c → b ≠ c →
  ComputeChecksum (l1 ++ b :: l2) ≠ ComputeChecksum (l1 ++ c :: l2).
Proof.
  intros H1 H2 Hb Hc Hne E. apply lxor_cancel_r in E. rewrite !foldl_app in E. simpl in E.
  pose proof (u32_crc l1 _ u32_ones H1) as Hx.
  apply crc_inj in E; [|done|by apply u32_crc_byte..].
  apply crc_byte_inj in E; [|done..]. rewrite !(Z.lxor_comm (foldl _ _ _)) in E.
  by apply lxor_cancel_r in E.
Qed.

(** * Reading and writing around the end *)

(** [holds cap data off bs]: the bytes from the offset on, wrapping at the end, are [bs]. *)
Definition holds (cap : nat) (data : bytes) (off : nat) (bs : bytes) : Prop :=
  ∀ i, i < length bs → data !! ((off + i) mod cap) = bs !! i.

Lemma mod_wrap a cap : a < 2 * cap → a mod cap = if decide (a < cap) then a else a - cap.
Proof.
  intros Ha. case_decide; [by apply Nat.mod_small|]. symmetry. apply (Nat.mod_unique _ _ 1); lia.
Qed.

Lemma mod_add_l a b cap : (a mod cap + b) mod cap = (a + b) mod cap.
Proof. apply Nat.Div0.add_mod_idemp_l. Qed.

Lemma holds_mod cap data off bs : holds cap data (off mod cap) bs ↔ holds cap data off bs.
Proof. unfold holds. by setoid_rewrite mod_add_l. Qed.

Lemma holds_app cap data off bs1 bs2 :
  holds cap data off (bs1 ++ bs2) ↔
  holds cap data off bs1 ∧ holds cap data (off + length bs1) bs2.
Proof.
  unfold holds. rewrite length_app. split.
  - intros H. split; intros i Hi.
    + rewrite H by lia. by apply lookup_app_l.
    + rewrite <- Nat.add_assoc, H by lia. rewrite lookup_app_r by lia. f_equal. lia.
  - intros [H1 H2] i Hi. destruct (decide (i < length bs1)).
    + rewrite H1 by done. by rewrite lookup_app_l.
    + rewrite lookup_app_r by lia. rewrite <- H2 by lia. f_equal. f_equal. lia.
Qed.

Lemma read_loop_holds fuel cap data pos bs :
  length data = cap → pos < cap → length bs <= fuel → holds cap data pos bs →
  read_loop fuel cap data pos (length bs) = bs.
Proof.
  intros Hd. revert pos bs. induction fuel as [|fuel IH]; intros pos bs Hp Hf Hh.
  { by destruct bs; [|simpl in Hf; lia]. }
  destruct bs as [|b0 bs0] eqn:E; [done|]. rewrite <- E in *. cbn [read_loop].
  destruct (length bs) as [|n] eqn:En; [by rewrite E in En|]. rewrite <- En in *.
  set (chunk := if cap - pos <? length bs then _ else _).
  assert (1 <= chunk ∧ chunk <= length bs ∧ pos + chunk <= cap) as (Hc1 & Hc2 & Hc3).
  { unfold chunk. destruct (Nat.ltb_spec (cap - pos) (length bs)); lia. }
  rewrite <- (take_drop chunk bs) in Hh. apply holds_app in Hh as [Hh1 Hh2].
  rewrite length_take_le in Hh2 by done.
  transitivity (take chunk bs ++ drop chunk bs); [f_equal|apply take_drop].
  - apply list_eq. intros i. unfold slice. destruct (decide (i < chunk)) as [Hi|Hi].
    + rewrite !lookup_take_lt, lookup_drop by lia. specialize (Hh1 i).
      rewrite length_take_le, Nat.mod_small, lookup_take_lt in Hh1 by lia. by apply Hh1.
    + rewrite !lookup_take_ge by lia. done.
  - rewrite <- length_drop. apply IH; [apply Nat.mod_upper_bound; lia|rewrite length_drop; lia|].
    by apply holds_mod.
Qed.

Lemma readBytes_holds off r bs :
  length (r_data r) = r_capacity r → 0 < r_capacity r → holds (r_capacity r) (r_data r) off bs →
  readBytesLocked off (length bs) r = bs.
Proof.
  intros Hd Hc Hh. unfold readBytesLocked. apply read_loop_holds; [done| |lia|by apply holds_mod].
  apply Nat.mod_upper_bound. lia.
Qed.

(** A write that does not reach the end of the data. *)
Definition splice (pos : nat) (p data : bytes) : bytes :=
  take pos data ++ p ++ drop (pos + length p) data.

Lemma length_splice pos p data :
  pos + length p <= length data → length (splice pos p data) = length data.
Proof. intros. unfold splice. rewrite !length_app, length_take_le, length_drop; lia. Qed.

Lemma lookup_splice pos p data j :
  pos + length p <= length data →
  splice pos p data !! j =
  if decide (pos <= j < pos + length p) then p !! (j - pos) else data !! j.
Proof.
  intros Hl. unfold splice. assert (length (take pos data) = pos) as Ht by (rewrite length_take_le; lia).
  case_decide as Hj.
  - rewrite lookup_app_r, lookup_app_l by lia. by rewrite Ht.
  - destruct (decide (j < pos)).
    + rewrite lookup_app_l, lookup_take_lt by lia. done.
    + rewrite !lookup_app_r, lookup_drop by lia. f_equal. lia.
Qed.

Lemma write_loop_splice fuel cap p data pos :
  length data = cap → pos + length p <= cap → length p <= fuel → pos < cap →
  write_loop fuel cap p data pos = (splice pos p data, (pos + length p) mod cap).
Proof.
  intros Hd Hp Hf Hlt. destruct fuel as [|fuel].
  { destruct p; [|simpl in Hf; lia]. unfold splice. simpl.
    by rewrite Nat.add_0_r, take_drop, Nat.mod_small. }
  destruct p as [|b p0] eqn:E; simpl.
  { unfold splice. simpl. by rewrite Nat.add_0_r, take_drop, Nat.mod_small. }
  change (S (length p0)) with (length (b :: p0)). rewrite <- E in *.
  destruct (Nat.ltb_spec (cap - pos) (length p)); [lia|].
  rewrite drop_all, (take_ge p) by lia. by destruct fuel.
Qed.

(** A write of at most [cap] bytes: what is at each distance from where it starts. *)
Lemma write_loop_spec cap p data pos :
  length data = cap → pos < cap → length p <= cap →
  ∃ data', write_loop (length p) cap p data pos = (data', (pos + length p) mod cap) ∧
    length data' = cap ∧
    ∀ k, k < cap → data' !! ((pos + k) mod cap) =
      if decide (k < length p) then p !! k else data !! ((pos + k) mod cap).
Proof.
  intros Hd Hpos Hp. destruct (decide (pos + length p <= cap)) as [Hfit|Hover].
  { eexists. rewrite write_loop_splice by done. split; [done|].
    split; [by rewrite length_splice; lia|]. intros k Hk. rewrite lookup_splice by lia.
    rewrite mod_wrap by lia. repeat case_decide; try lia; f_equal; lia. }
  destruct p as [|b p0] eqn:E; [simpl in Hover; lia|]. cbn [length write_loop].
  change (S (length p0)) with (length (b :: p0)). rewrite <- E in *.
  destruct (Nat.ltb_spec (cap - pos) (length p)) as [_|]; [|lia].
  replace (pos + (cap - pos)) with cap by lia. rewrite Nat.Div0.mod_same.
  rewrite (drop_ge data), app_nil_r by lia.
  set (p1 := take (cap - pos) p). set (p2 := drop (cap - pos) p).
  assert (length p1 = cap - pos) as Hl1 by (unfold p1; rewrite length_take_le; lia).
  assert (length p2 = length p - (cap - pos)) as Hl2 by (unfold p2; by rewrite length_drop).
  assert (length p = S (length p0)) as Hlp by (by rewrite E).
  assert (take pos data ++ p1 = splice pos p1 data) as ->.
  { unfold splice. rewrite Hl1, (drop_ge data), app_nil_r by lia. done. }
  assert (length (splice pos p1 data) = cap) as Hs by (rewrite length_splice; lia).
  rewrite write_loop_splice by lia. eexists. split_and!.
  - f_equal. rewrite Hl2. rewrite mod_wrap, mod_wrap by lia. repeat case_decide; lia.
  - rewrite length_splice; lia.
  - intros k Hk. rewrite lookup_splice, lookup_splice, mod_wrap, Hl1, Hl2 by lia. unfold p1, p2.
    repeat case_decide; try lia; rewrite ?lookup_drop, ?lookup_take_lt by lia; try (f_equal; lia).
Qed.

Lemma holds_insert cap data off bs i b :
  length data = cap → length bs <= cap → i < length bs → holds cap data off bs →
  holds cap (<[(off + i) mod cap := b]> data) off (<[i := b]> bs).
Proof.
  intros Hd Hl Hi Hh j Hj. rewrite length_insert in Hj. destruct (decide (j = i)) as [->|Hne].
  - rewrite !list_lookup_insert_eq; [done|done|rewrite Hd; apply Nat.mod_upper_bound; lia].
  - rewrite (list_lookup_insert_ne bs), <- Hh by done. apply list_lookup_insert_ne.
    intros E. apply Hne. rewrite <- (mod_add_l off i), <- (mod_add_l off j) in E.
    assert (off mod cap < cap) as Ho by (apply Nat.mod_upper_bound; lia).
    rewrite (mod_wrap (off mod cap + i)), (mod_wrap (off mod cap + j)) in E by lia.
    repeat case_decide; lia.
Qed.

(** Writing behind what the ring holds extends it, while there is room. *)
Lemma writeBytes_holds off bs p r :
  length (r_data r) = r_capacity r → 0 < r_capacity r → length bs + length p <= r_capacity r →
  r_writePos r = (off + length bs) mod r_capacity r →
  holds (r_capacity r) (r_data r) off bs →
  let r' := writeBytesLocked p r in
  length (r_data r') = r_capacity r ∧ r_writePos r' = (off + length (bs ++ p)) mod r_capacity r ∧
  holds (r_capacity r) (r_data r') off (bs ++ p) ∧
  r_capacity r' = r_capacity r ∧ r_nextSeq r' = r_nextSeq r.
Proof.
  intros Hd Hc Hl Hw Hh r'. subst r'. unfold writeBytesLocked. set (cap := r_capacity r) in *.
  assert (r_writePos r < cap) as Hlt by (rewrite Hw; apply Nat.mod_upper_bound; lia).
  destruct (write_loop_spec cap p (r_data r) (r_writePos r) Hd Hlt) as (data' & -> & Hd' & Hk);
    [lia|]. simpl. rewrite Hw, mod_add_l, length_app, <- Nat.add_assoc. split_and!; [done..| |done|done].
  apply holds_app. split; intros i Hi.
  - rewrite <- Hh by done. destruct (decide (length bs = 0)); [lia|].
    specialize (Hk (cap - length bs + i)). rewrite decide_False in Hk by lia.
    assert ((r_writePos r + (cap - length bs + i)) mod cap = (off + i) mod cap) as E.
    { rewrite Hw, mod_add_l. replace (off + length bs + (cap - length bs + i)) with (off + i + 1 * cap)
        by lia. apply Nat.Div0.mod_add. }
    rewrite E in Hk. apply Hk. lia.
  - specialize (Hk i). rewrite decide_True, Hw, mod_add_l in Hk by lia. apply Hk. lia.
Qed.

(** * The ring as a queue *)

(** The frames in flight, as numbered payloads, and the bytes they take. *)
Definition item : Type := Z * bytes.
Definition frame_of (it : item) : Frame :=
  MkFrame (MkHeader FrameMagic it.1 (Z.of_nat (length it.2)) (ComputeChecksum it.2) 0) it.2.
Definition frame_bytes (it : item) : bytes := Encode (f_Header (frame_of it)) ++ it.2.
Definition queue_bytes (q : list item) : bytes := q ≫= frame_bytes.

Lemma length_frame_bytes it : length (frame_bytes it) = HeaderSize + length it.2.
Proof. unfold frame_bytes. by rewrite length_app, length_Encode. Qed.

Lemma queue_bytes_app q1 q2 : queue_bytes (q1 ++ q2) = queue_bytes q1 ++ queue_bytes q2.
Proof. apply bind_app. Qed.

Lemma queue_bytes_singleton it : queue_bytes [it] = frame_bytes it.
Proof. apply app_nil_r. Qed.

(** The frames [q] lie between the cursor and the write position. *)
Record ring_inv (cap : nat) (r : RingBuffer) (c : Cursor) (q : list item) : Prop := {
  ri_cap : r_capacity r = cap;
  ri_pos : 0 < cap;
  ri_max : (Z.of_nat cap <= 2 ^ 32)%Z;
  ri_data : length (r_data r) = cap;
  ri_off : c_offset c < cap;
  ri_fits : length (queue_bytes q) <= cap;
  ri_write : r_writePos r = (c_offset c + length (queue_bytes q)) mod cap;
  ri_holds : holds cap (r_data r) (c_offset c) (queue_bytes q);
  ri_seqs : q.*1 = seqZ (c_lastSeq c + 1) (Z.of_nat (length q));
  ri_last : (0 <= c_lastSeq c)%Z;
  ri_next : r_nextSeq r = (c_lastSeq c + 1 + Z.of_nat (length q))%Z;
  ri_bytes : Forall (λ it, Forall byte_ok it.2) q
}.

Lemma new_ring_inv capacity :
  (44 < capacity <= 2 ^ 32)%Z →
  ring_inv (Z.to_nat capacity) (New capacity) (NewCursor 0 (New capacity)) [].
Proof.
  intros Hc. unfold New. destruct (Z.leb_spec capacity (Z.of_nat HeaderSize * 2)); [exfalso; unfold HeaderSize in *; lia|].
  split; try done; simpl; try lia.
  - apply length_replicate.
  - rewrite Nat.Div0.mod_0_l. lia.
  - rewrite Nat.add_0_r. by rewrite !Nat.Div0.mod_0_l.
  - intros i Hi. simpl in Hi. lia.
Qed.

Lemma Append_inv cap r c q p :
  ring_inv cap r c q → (r_nextSeq r + 1 < 2 ^ 64)%Z → Forall byte_ok p →
  length (queue_bytes q) + HeaderSize + length p <= cap →
  ∃ r', Append p r = (Ok (r_nextSeq r), r') ∧ ring_inv cap r' c (q ++ [(r_nextSeq r, p)]).
Proof.
  intros HI Hs Hp Hfit. pose proof (ri_pos _ _ _ _ HI). pose proof (ri_max _ _ _ _ HI).
  pose proof (ri_cap _ _ _ _ HI) as Hcap. pose proof (ri_last _ _ _ _ HI).
  pose proof (ri_next _ _ _ _ HI) as Hnext.
  unfold Append. rewrite Hcap. destruct (Nat.ltb_spec cap (HeaderSize + length p)); [lia|].
  assert (HeaderSize = 22) as Hhs by done.
  rewrite (wrap_u_small 64 (r_nextSeq r + 1)), (wrap_u_small 32 (Z.of_nat (length p))) by lia.
  set (r0 := MkRing cap (r_data r) _ _ _ _). set (it := (r_nextSeq r, p)).
  change (MkHeader _ _ _ _ _) with (f_Header (frame_of it)). set (h := f_Header (frame_of it)).
  destruct (writeBytes_holds (c_offset c) (queue_bytes q) (Encode h) r0)
    as (Hd1 & Hw1 & Hh1 & Hc1 & Hn1); change (r_capacity r0) with cap in *;
    [by destruct HI|done|rewrite length_Encode; lia|by destruct HI|by destruct HI|].
  set (r1 := writeBytesLocked (Encode h) r0) in *.
  destruct (writeBytes_holds (c_offset c) (queue_bytes q ++ Encode h) p r1)
    as (Hd2 & Hw2 & Hh2 & Hc2 & Hn2);
    rewrite ?Hc1; try done; [rewrite length_app, length_Encode; lia|].
  set (r2 := writeBytesLocked p r1) in *. eexists. split; [done|].
  assert ((queue_bytes q ++ Encode h) ++ p = queue_bytes (q ++ [it])) as E.
  { by rewrite queue_bytes_app, queue_bytes_singleton, <- app_assoc. }
  rewrite E, Hc1 in *. split; simpl; rewrite ?Hc2, ?Hn2, ?Hn1, ?length_app; simpl; try done; try lia.
  - apply (ri_off _ _ _ _ HI).
  - rewrite queue_bytes_app, length_app, queue_bytes_singleton, length_frame_bytes. simpl. lia.
  - rewrite fmap_app, (ri_seqs _ _ _ _ HI). simpl. rewrite Hnext, Nat2Z.inj_add.
    rewrite seqZ_app by lia. by rewrite (seqZ_cons _ (Z.of_nat 1)) by lia.
  - apply Forall_app. split; [apply (ri_bytes _ _ _ _ HI)|by constructor].
Qed.

(** Reading where the ring holds a header and as many bytes as it announces. *)
Lemma ReadFrameAt_holds off r h p :
  length (r_data r) = r_capacity r → 0 < r_capacity r → header_ok h →
  h_Length h = Z.of_nat (length p) → holds (r_capacity r) (r_data r) off (Encode h ++ p) →
  ReadFrameAt off r =
  if (ComputeChecksum p =? h_Checksum h)%Z
  then Ok (MkFrame h p, (off + HeaderSize + length p) mod r_capacity r)
  else Err (ESentinel SChecksumFailed).
Proof.
  intros Hd Hc Hok Hl Hh. apply holds_app in Hh as [Hh1 Hh2]. rewrite length_Encode in Hh2.
  unfold ReadFrameAt. rewrite <- (length_Encode h), (readBytes_holds off r _ Hd Hc Hh1).
  rewrite (decode_encode h Hok), Hl, Nat2Z.id, length_Encode, (readBytes_holds _ r _ Hd Hc Hh2).
  by destruct (_ =? _)%Z.
Qed.

Lemma item_header_ok cap r c q it :
  ring_inv cap r c q → (r_nextSeq r < 2 ^ 64)%Z → it ∈ q →
  header_ok (f_Header (frame_of it)) ∧ (c_lastSeq c < it.1)%Z.
Proof.
  intros HI Hs Hit. assert (it.1 ∈ q.*1) as Hseq by (by apply list_elem_of_fmap_2).
  rewrite (ri_seqs _ _ _ _ HI), elem_of_seqZ in Hseq. pose proof (ri_next _ _ _ _ HI).
  pose proof (ri_last _ _ _ _ HI).
  pose proof (proj1 (Forall_forall _ _) (ri_bytes _ _ _ _ HI) it Hit) as Hb.
  assert (length it.2 < cap).
  { apply list_elem_of_split in Hit as (q1 & q2 & ->). pose proof (ri_fits _ _ _ _ HI) as Hf.
    rewrite queue_bytes_app in Hf. change (it :: q2) with ([it] ++ q2) in Hf.
    rewrite queue_bytes_app, queue_bytes_singleton, !length_app, length_frame_bytes in Hf.
    unfold HeaderSize in Hf. lia. }
  pose proof (ri_max _ _ _ _ HI). split; [|lia]. split; [done|]. simpl.
  split; [lia|]. split; [lia|]. split; [by apply u32_ComputeChecksum|lia].
Qed.

Lemma Next_nonempty cap r c it q :
  ring_inv cap r c (it :: q) → length (queue_bytes (it :: q)) < cap →
  c_offset c ≠ r_writePos r.
Proof.
  intros HI Hlt. rewrite (ri_write _ _ _ _ HI). pose proof (ri_off _ _ _ _ HI).
  change (it :: q) with ([it] ++ q) in *. revert Hlt.
  rewrite queue_bytes_app, queue_bytes_singleton, length_app, length_frame_bytes.
  unfold HeaderSize. intros Hlt. rewrite mod_wrap by lia. case_decide; lia.
Qed.

Lemma Next_inv cap r c it q :
  ring_inv cap r c (it :: q) → (r_nextSeq r < 2 ^ 64)%Z → length (queue_bytes (it :: q)) < cap →
  ∃ c', Next c r = (Ok (Some (frame_of it)), c') ∧ ring_inv cap r c' q.
Proof.
  intros HI Hs Hlt. destruct (item_header_ok _ _ _ _ it HI Hs) as [Hok Hseq]; [by left|].
  unfold Next, next_after. rewrite (proj2 (Nat.eqb_neq _ _) (Next_nonempty _ _ _ _ _ HI Hlt)).
  pose proof (ri_holds _ _ _ _ HI) as Hh. pose proof (ri_cap _ _ _ _ HI) as Hcap.
  pose proof (ri_pos _ _ _ _ HI) as Hpos. pose proof (ri_data _ _ _ _ HI) as Hd.
  change (it :: q) with ([it] ++ q) in Hh.
  rewrite queue_bytes_app, queue_bytes_singleton in Hh. apply holds_app in Hh as [Hh1 Hh2].
  rewrite (ReadFrameAt_holds _ r (f_Header (frame_of it)) it.2); rewrite ?Hcap; try done.
  rewrite Z.eqb_refl. simpl. rewrite (proj2 (Z.leb_gt _ _) Hseq), andb_false_r.
  eexists. split; [by destruct it|].
  pose proof (ri_seqs _ _ _ _ HI) as Hsq. csimpl in Hsq. rewrite seqZ_cons in Hsq by lia.
  injection Hsq as Hit Hrest. rewrite length_frame_bytes, Nat.add_assoc in Hh2.
  pose proof (ri_next _ _ _ _ HI) as Hn. pose proof (ri_last _ _ _ _ HI).
  simpl in Hn. split; simpl; try done.
  - apply (ri_max _ _ _ _ HI).
  - apply Nat.mod_upper_bound. lia.
  - revert Hlt. change (it :: q) with ([it] ++ q). rewrite queue_bytes_app, length_app. lia.
  - rewrite mod_add_l, (ri_write _ _ _ _ HI). change (it :: q) with ([it] ++ q).
    rewrite queue_bytes_app, queue_bytes_singleton, length_app, length_frame_bytes. f_equal. lia.
  - by apply holds_mod.
  - rewrite Hrest, Hit. f_equal; lia.
  - lia.
  - lia.
  - pose proof (ri_bytes _ _ _ _ HI) as Hb. by apply Forall_cons_1 in Hb as [_ Hb].
Qed.

Lemma Next_empty cap r c : ring_inv cap r c [] → Next c r = (Ok None, c).
Proof.
  intros HI. unfold Next, next_after. rewrite (ri_write _ _ _ _ HI). simpl. rewrite Nat.add_0_r, Nat.mod_small.
  - by rewrite Nat.eqb_refl.
  - apply (ri_off _ _ _ _ HI).
Qed.

(** * A producer and a consumer *)

Inductive ring_op := RAppend (p : bytes) | RNext.
Inductive ring_out := OAppend (r : result error Z) | ONext (r : result error (option Frame)).

Definition ring_step (rc : RingBuffer * Cursor) (op : ring_op) : ring_out * (RingBuffer * Cursor) :=
  match op with
  | RAppend p => let '(res, r') := Append p rc.1 in (OAppend res, (r', rc.2))
  | RNext => let '(res, c') := Next rc.2 rc.1 in (ONext res, (rc.1, c'))
  end.

Fixpoint ring_run (ops : list ring_op) (rc : RingBuffer * Cursor) : list ring_out :=
  match ops with
  | [] => []
  | op :: ops' => let '(o, rc') := ring_step rc op in o :: ring_run ops' rc'
  end.

(** The specification: a queue of numbered payloads. *)
Definition fifo_step (st : Z * list item) (op : ring_op) : ring_out * (Z * list item) :=
  match op with
  | RAppend p => (OAppend (Ok st.1), ((st.1 + 1)%Z, st.2 ++ [(st.1, p)]))
  | RNext =>
      match st.2 with
      | [] => (ONext (Ok None), st)
      | it :: q => (ONext (Ok (Some (frame_of it))), (st.1, q))
      end
  end.

Fixpoint fifo_run (ops : list ring_op) (st : Z * list item) : list ring_out :=
  match ops with
  | [] => []
  | op :: ops' => let '(o, st') := fifo_step st op in o :: fifo_run ops' st'
  end.

(** The producer does not lap the consumer: the unread frames take less than the capacity. *)
Fixpoint unlapped (cap : nat) (ops : list ring_op) (st : Z * list item) : Prop :=
  match ops with
  | [] => True
  | op :: ops' =>
      let st' := (fifo_step st op).2 in
      match op with RAppend p => Forall byte_ok p | RNext => True end ∧
      length (queue_bytes st'.2) < cap ∧ unlapped cap ops' st'
  end.

Definition ring_end (ops : list ring_op) (rc : RingBuffer * Cursor) : RingBuffer * Cursor :=
  foldl (λ rc op, (ring_step rc op).2) rc ops.
Definition fifo_end (ops : list ring_op) (st : Z * list item) : Z * list item :=
  foldl (λ st op, (fifo_step st op).2) st ops.

Lemma ring_refines cap ops r c q :
  ring_inv cap r c q → length (queue_bytes q) < cap →
  (r_nextSeq r + Z.of_nat (length ops) < 2 ^ 64)%Z → unlapped cap ops (r_nextSeq r, q) →
  ring_run ops (r, c) = fifo_run ops (r_nextSeq r, q) ∧
  let '(r', c') := ring_end ops (r, c) in
  let '(n', q') := fifo_end ops (r_nextSeq r, q) in
  ring_inv cap r' c' q' ∧ length (queue_bytes q') < cap ∧ r_nextSeq r' = n' ∧ (n' < 2 ^ 64)%Z.
Proof.
  revert r c q. induction ops as [|op ops IH]; intros r c q HI Hlt Hs Hu;
    [simpl in *; split_and!; [done..|lia]|].
  cbn [length] in Hs. destruct Hu as (Hb & Hfit & Hu). destruct op as [p|].
  - cbn [fifo_step fst snd] in Hfit, Hu.
    destruct (Append_inv cap r c q p HI) as (r' & Ha & HI'); [lia|done| |].
    { revert Hfit. rewrite queue_bytes_app, queue_bytes_singleton, length_app, length_frame_bytes.
      cbn [snd]. lia. }
    simpl. rewrite Ha. assert (r_nextSeq r' = r_nextSeq r + 1)%Z as Hn.
    { rewrite (ri_next _ _ _ _ HI'), (ri_next _ _ _ _ HI), length_app. simpl. lia. }
    rewrite <- Hn in Hu |- *.
    destruct (IH r' c (q ++ [(r_nextSeq r, p)])) as [Hrun Hend]; [done|done|lia|done|].
    split; [by f_equal|exact Hend].
  - destruct q as [|it q]; cbn [fifo_step fst snd] in Hfit, Hu; simpl.
    + rewrite (Next_empty _ _ _ HI). destruct (IH r c []) as [Hrun Hend]; [done|done|lia|done|].
      split; [by f_equal|exact Hend].
    + destruct (Next_inv cap r c it q HI) as (c' & -> & HI'); [lia|done|].
      destruct (IH r c' q) as [Hrun Hend]; [done|done|lia|done|].
      split; [by f_equal|exact Hend].
Qed.

(** A new ring, with a cursor at its start. *)
Definition fresh (capacity : Z) : RingBuffer * Cursor :=
  (New capacity, NewCursor 0 (New capacity)).

Lemma fresh_refines capacity ops :
  (44 < capacity <= 2 ^ 32)%Z → (Z.of_nat (length ops) + 1 < 2 ^ 64)%Z →
  unlapped (Z.to_nat capacity) ops (1%Z, []) →
  ring_run ops (fresh capacity) = fifo_run ops (1%Z, []) ∧
  let '(r', c') := ring_end ops (fresh capacity) in
  let '(n', q') := fifo_end ops (1%Z, []) in
  ring_inv (Z.to_nat capacity) r' c' q' ∧ length (queue_bytes q') < Z.to_nat capacity ∧
  r_nextSeq r' = n' ∧ (n' < 2 ^ 64)%Z.
Proof.
  intros Hc Hn Hu. pose proof (new_ring_inv capacity Hc) as HI.
  apply (ring_refines _ ops _ _ [] HI); [simpl; lia| |done].
  rewrite (ri_next _ _ _ _ HI). simpl. lia.
Qed.

(** C4: A consumer that is not lapped sees a queue.  Let the capacity be more than 44 bytes (a header)
    and at most 2^32.  For any sequence of fewer than 2^64 - 1 appends and reads, one at a time, in
    which the unread frames take less than the capacity, however often the writes wrap around
    the end of the buffer: every append succeeds with the next sequence number, and the reads
    return the frames appended, once each, in order and with their payloads, and nothing when
    all are read. *)
Theorem ring_refines_fifo (capacity : Z) (ops : list ring_op) :
  (44 < capacity <= 2 ^ 32)%Z → (Z.of_nat (length ops) + 1 < 2 ^ 64)%Z →
  unlapped (Z.to_nat capacity) ops (1%Z, []) →
  ring_run ops (fresh capacity) = fifo_run ops (1%Z, []).
Proof. intros Hc Hn Hu. apply (fresh_refines capacity ops Hc Hn Hu). Qed.

Definition ex_ops : list ring_op :=
  [RAppend [1; 2; 3]%Z; RNext; RAppend [4; 5; 6; 7]%Z; RNext; RNext; RAppend []; RNext].

#[local] Instance byte_ok_dec b : Decision (byte_ok b).
Proof. unfold byte_ok. apply _. Defined.

#[local] Instance unlapped_dec cap ops st : Decision (unlapped cap ops st).
Proof. revert st. induction ops as [|[p|] ops IH]; intros st; simpl; apply _. Defined.

Lemma ex_ops_unlapped : unlapped (Z.to_nat 45) ex_ops (1%Z, []).
Proof. decide_closed. Defined.

Lemma ring_refines_fifo_witness : ring_run ex_ops (fresh 45) = fifo_run ex_ops (1%Z, []).
Proof. apply ring_refines_fifo; [lia|simpl; lia|exact ex_ops_unlapped]. Defined.

(** * Corruption *)

Definition corrupt (i : nat) (b : Z) (r : RingBuffer) : RingBuffer :=
  MkRing (r_capacity r) (<[i := b]> (r_data r)) (r_writePos r) (r_oldestSeq r) (r_nextSeq r)
    (r_totalBytes r).

Lemma lookup_differs (p : bytes) i b :
  i < length p → p !! i ≠ Some b → Forall byte_ok p → byte_ok b →
  ComputeChecksum (<[i := b]> p) ≠ ComputeChecksum p.
Proof.
  intros Hi Hne Hp Hb. destruct (lookup_lt_is_Some_2 p i Hi) as [a Ha].
  pose proof (take_drop_middle p i a Ha) as E. rewrite <- E in Hp.
  apply Forall_app in Hp as [H1 [Ha' H2]%Forall_cons_1].
  rewrite <- E at 2. rewrite insert_take_drop by done.
  apply ComputeChecksum_one_byte; [done..|]. intros ->. congruence.
Qed.

Lemma corrupt_frame cap r c it q i b :
  ring_inv cap r c (it :: q) → (r_nextSeq r < 2 ^ 64)%Z → length (queue_bytes (it :: q)) < cap →
  i < length it.2 → byte_ok b → it.2 !! i ≠ Some b →
  Next c (corrupt ((c_offset c + HeaderSize + i) mod cap) b r) =
  (Err (ESentinel SChecksumFailed), c).
Proof.
  intros HI Hs Hlt Hi Hb Hne. destruct (item_header_ok _ _ _ _ it HI Hs) as [Hok _]; [by left|].
  unfold Next, next_after. cbn [r_writePos corrupt].
  rewrite (proj2 (Nat.eqb_neq _ _) (Next_nonempty _ _ _ _ _ HI Hlt)).
  pose proof (ri_holds _ _ _ _ HI) as Hh. pose proof (ri_cap _ _ _ _ HI) as Hcap.
  pose proof (ri_pos _ _ _ _ HI) as Hpos. pose proof (ri_data _ _ _ _ HI) as Hd.
  pose proof (ri_bytes _ _ _ _ HI) as Hby. apply Forall_cons_1 in Hby as [Hby _].
  revert Hlt. change (it :: q) with ([it] ++ q) in Hh |- *.
  rewrite queue_bytes_app, queue_bytes_singleton, length_app, length_frame_bytes in *. intros Hlt.
  apply holds_app in Hh as [Hh _]. set (h := f_Header (frame_of it)) in *.
  rewrite (ReadFrameAt_holds _ _ h (<[i := b]> it.2)); cbn [r_capacity r_data corrupt];
    rewrite ?Hcap, ?length_insert; try done.
  - change (h_Checksum h) with (ComputeChecksum it.2).
    by rewrite (proj2 (Z.eqb_neq _ _) (lookup_differs _ _ _ Hi Hne Hby Hb)).
  - assert (Encode h ++ <[i := b]> it.2 = <[HeaderSize + i := b]> (frame_bytes it)) as ->.
    { unfold frame_bytes. rewrite <- (length_Encode h). by rewrite insert_app_r. }
    rewrite <- Nat.add_assoc. apply holds_insert; [done|rewrite length_frame_bytes; lia| |done].
    rewrite length_frame_bytes. lia.
Qed.

(** Corruption is detected.  Whatever appends and reads have been made without lapping the
    consumer, changing any one byte of the payload of the next unread frame in the buffer makes
    the read fail with the checksum error and leaves the cursor where it is. *)
Theorem corruption_detected (capacity : Z) (ops : list ring_op) n it q i b :
  (44 < capacity <= 2 ^ 32)%Z → (Z.of_nat (length ops) + 1 < 2 ^ 64)%Z →
  unlapped (Z.to_nat capacity) ops (1%Z, []) →
  fifo_end ops (1%Z, []) = (n, it :: q) →
  i < length it.2 → byte_ok b → it.2 !! i ≠ Some b →
  let '(r, c) := ring_end ops (fresh capacity) in
  Next c (corrupt ((c_offset c + HeaderSize + i) mod Z.to_nat capacity) b r) =
  (Err (ESentinel SChecksumFailed), c).
Proof.
  intros Hc Hn Hu Hend Hi Hb Hne. destruct (fresh_refines capacity ops Hc Hn Hu) as [_ H].
  destruct (ring_end ops (fresh capacity)) as [r c]. rewrite Hend in H.
  destruct H as (HI & Hlt & Hs & Hmax). eapply corrupt_frame; try done. by rewrite Hs.
Qed.

Lemma corruption_detected_witness :
  match ring_end (take 3 ex_ops) (fresh 45) with
  | (r, c) => Next c (corrupt ((c_offset c + HeaderSize + 2) mod 45) 9 r) =
      (Err (ESentinel SChecksumFailed), c)
  end.
Proof.
  apply (corruption_detected 45 (take 3 ex_ops) 3 (2%Z, [4; 5; 6; 7]%Z) [] 2 9);
    [lia|simpl; lia| |vm_compute; reflexivity|simpl; lia|by unfold byte_ok|done].
  decide_closed.
Defined.

(** * Snapshots *)

Definition append_all (ps : list bytes) (r : RingBuffer) : RingBuffer :=
  foldl (λ r p, (Append p r).2) r ps.
Definition numbered (ps : list bytes) : list item := zip (seqZ 1 (Z.of_nat (length ps))) ps.
Definition frames_size (ps : list bytes) : nat := sum_list_with (λ p, HeaderSize + length p) ps.

Lemma snapshot_queue cap fuel r c q :
  ring_inv cap r c q → (r_nextSeq r < 2 ^ 64)%Z → length (queue_bytes q) < cap → length q < fuel →
  snapshot_loop fuel c r = Some (frame_of <$> q).
Proof.
  revert c q. induction fuel as [|fuel IH]; intros c q HI Hs Hlt Hf; [lia|]. simpl.
  destruct q as [|it q]; [by rewrite (Next_empty _ _ _ HI)|].
  destruct (Next_inv cap r c it q HI Hs Hlt) as (c' & -> & HI').
  rewrite (IH c' q HI' Hs); [done| |simpl in Hf; lia].
  revert Hlt. change (it :: q) with ([it] ++ q). rewrite queue_bytes_app, length_app. lia.
Qed.

Lemma append_all_inv cap ps r c q :
  ring_inv cap r c q → (r_nextSeq r + Z.of_nat (length ps) < 2 ^ 64)%Z →
  Forall (Forall byte_ok) ps → length (queue_bytes q) + frames_size ps <= cap →
  let q' := q ++ zip (seqZ (r_nextSeq r) (Z.of_nat (length ps))) ps in
  ring_inv cap (append_all ps r) c q' ∧
  r_nextSeq (append_all ps r) = (r_nextSeq r + Z.of_nat (length ps))%Z ∧
  length (queue_bytes q') = length (queue_bytes q) + frames_size ps.
Proof.
  revert r q. induction ps as [|p ps IH]; intros r q HI Hs Hb Hf.
  { simpl. rewrite app_nil_r. split_and!; [done|lia|unfold frames_size; simpl; lia]. }
  apply Forall_cons_1 in Hb as [Hp Hb]. cbn [length] in Hs.
  assert (frames_size (p :: ps) = HeaderSize + length p + frames_size ps) as Hfs by done.
  destruct (Append_inv cap r c q p HI) as (r' & Ha & HI'); [lia|done|lia|].
  assert (r_nextSeq r' = r_nextSeq r + 1)%Z as Hn.
  { rewrite (ri_next _ _ _ _ HI'), (ri_next _ _ _ _ HI), length_app. simpl. lia. }
  assert (length (queue_bytes (q ++ [(r_nextSeq r, p)])) =
          length (queue_bytes q) + (HeaderSize + length p)) as Hq.
  { by rewrite queue_bytes_app, queue_bytes_singleton, length_app, length_frame_bytes. }
  destruct (IH r' (q ++ [(r_nextSeq r, p)])) as (HI2 & Hn2 & Hl2); [done|lia|done|lia|].
  cbn [append_all foldl length]. rewrite Ha. cbn [snd]. fold (append_all ps r').
  rewrite seqZ_cons by lia. change (Z.succ (r_nextSeq r)) with (r_nextSeq r + 1)%Z.
  replace (Z.pred (Z.of_nat (S (length ps)))) with (Z.of_nat (length ps))
    by lia. rewrite Hn in *. rewrite <- app_assoc in *.
  split_and!; [done|lia|]. etransitivity; [exact Hl2|]. lia.
Qed.

(** A snapshot of a buffer that has not wrapped around returns every frame, in order; a
    snapshot of a buffer that the frames fill exactly returns none of them, since the write
    position is then back where the cursor starts. *)
Theorem Snapshot_complete (capacity : Z) (ps : list bytes) (fuel : nat) :
  (44 < capacity <= 2 ^ 32)%Z → (Z.of_nat (length ps) + 1 < 2 ^ 64)%Z →
  Forall (Forall byte_ok) ps → frames_size ps <= Z.to_nat capacity → length ps < fuel →
  Snapshot fuel (append_all ps (New capacity)) =
  Some (if decide (frames_size ps = Z.to_nat capacity) then [] else frame_of <$> numbered ps).
Proof.
  intros Hc Hn Hb Hf Hfuel. pose proof (new_ring_inv capacity Hc) as HI.
  assert (r_nextSeq (New capacity) = 1)%Z as Hnext by done.
  destruct (append_all_inv _ ps _ _ [] HI) as (HI' & Hn' & Hl); [lia|done|done|].
  rewrite app_nil_l, Hnext in *. change (length (queue_bytes [])) with 0 in Hl.
  rewrite Nat.add_0_l in Hl. fold (numbered ps) in HI', Hl.
  set (r := append_all ps (New capacity)) in *. set (c := NewCursor 0 (New capacity)) in *.
  assert (NewCursor 0 r = c) as Hcur.
  { unfold c, NewCursor. by rewrite (ri_cap _ _ _ _ HI'), (ri_cap _ _ _ _ HI). }
  unfold Snapshot. rewrite Hcur. case_decide as Hfill.
  - destruct fuel as [|fuel]; [lia|]. cbn [snapshot_loop]. unfold Next, next_after.
    rewrite (ri_write _ _ _ _ HI'), Hl, Hfill.
    replace (c_offset c + Z.to_nat capacity) with (c_offset c + 1 * Z.to_nat capacity) by lia.
    rewrite Nat.Div0.mod_add.
    rewrite Nat.mod_small by apply (ri_off _ _ _ _ HI'). by rewrite Nat.eqb_refl.
  - apply (snapshot_queue (Z.to_nat capacity)); [done|lia|lia|].
    unfold numbered. rewrite length_zip_with. lia.
Qed.

Lemma Snapshot_complete_witness :
  Snapshot 3 (append_all [[1]; [2; 3]]%Z (New 100)) = Some (frame_of <$> numbered [[1]; [2; 3]]%Z).
Proof.
  apply (Snapshot_complete 100 [[1]; [2; 3]]%Z 3);
    [lia|simpl; lia| |decide_closed|simpl; lia].
  decide_closed.
Defined.

(** Two payloads for a ring of 64 bytes.  The second wraps around, and its bytes are a header at
    the start of the buffer: number 0, as long as the rest of the buffer, with the checksum of
    the rest of the buffer, which the first payload makes zero. *)
Definition ex_forged : list bytes :=
  [replicate 16 0%Z ++ [175; 19; 203; 204]%Z;
   Encode (MkHeader FrameMagic 0 42 0 0)].

Lemma forged_next :
  let r := append_all ex_forged (New 64) in
  ∃ f, Next (MkCursor 0 0) r = (Ok (Some f), MkCursor 0 0).
Proof. eexists. vm_compute. reflexivity. Qed.

(** A snapshot need not end.  Two appended payloads leave, at the start of the buffer, a
    header with the sequence number 0 that spans the whole buffer: the cursor accepts the frame,
    comes back to where it was and accepts it again, since it compares sequence numbers only when
    the last one is positive. *)
Theorem Snapshot_diverges (fuel : nat) :
  Forall (λ p, HeaderSize + length p <= 64) ex_forged ∧
  Snapshot fuel (append_all ex_forged (New 64)) = None.
Proof.
  split; [decide_closed|].
  destruct forged_next as [f Hf]. unfold Snapshot.
  change (NewCursor 0 (append_all ex_forged (New 64))) with (MkCursor 0 0).
  induction fuel as [|fuel IH]; [done|]. cbn [snapshot_loop]. by rewrite Hf, IH.
Qed.

(** The check value of the CRC-32 of the digits 1 to 9. *)
Example crc_check : ComputeChecksum [49; 50; 51; 52; 53; 54; 55; 56; 57]%Z = 0xCBF43926%Z.
Proof. vm_compute. reflexivity. Qed.
