(* ===== verification/Worker.v ===== *)
(** The background workers over the store: [internal/worker]: the pool's registry, the lease
    reaper, the expiry worker and the compaction worker.

    The workers are written against the store interface.  The store is shared with other
    goroutines: an [env] says what they make of it before each call of a worker, and gives each
    call its oracle.  A round of a worker returns what it logs and counts, and the store.  The
    loops of the tickers that call the rounds are not modelled. *)
From S2P Require Import Prelude Errors Types MemStore Persistence MemStoreFacts.

Inductive worker_event :=
| Warnf (format : string) (args : list string) (err : error)
| Infof (format : string) (args : list string)
| Incr (name : string).

Record Pool := MkPool {
  pl_workers : list string;
  pl_interval : Duration
}.

Definition NewPool (interval : Duration) : Pool :=
  MkPool [] (if (interval <=? 0)%Z then 30 * second else interval)%Z.

(** A worker is represented by its name. *)
Definition Register (w : string) (p : Pool) : Pool := MkPool (pl_workers p ++ [w]) (pl_interval p).
Definition List_ (p : Pool) : list string := pl_workers p.

Record LeaseReaper := MkLeaseReaper { lr_leaseTimeout : Duration; lr_interval : Duration }.
Definition NewLeaseReaper (leaseTimeout interval : Duration) : LeaseReaper :=
  MkLeaseReaper (if (leaseTimeout <=? 0)%Z then 60 * second else leaseTimeout)%Z
    (if (interval <=? 0)%Z then 15 * second else interval)%Z.

Definition hour : Duration := (3600 * second)%Z.

Record ExpiryWorker := MkExpiryWorker { ew_maxAge : Duration; ew_limit : Z }.
Definition NewExpiryWorker (maxAge : Duration) (limit : Z) : ExpiryWorker :=
  MkExpiryWorker (if (maxAge <=? 0)%Z then 7 * 24 * hour else maxAge)%Z
    (if (limit <=? 0)%Z then 100 else limit)%Z.

Record CompactionWorker := MkCompactionWorker { cw_before : Duration; cw_limit : Z }.
Definition NewCompactionWorker (before : Duration) (limit : Z) : CompactionWorker :=
  MkCompactionWorker (if (before <=? 0)%Z then 30 * 24 * hour else before)%Z
    (if (limit <=? 0)%Z then 50 else limit)%Z.

Section workers.
Context {St : Type} `{HS : StoreImpl St}.

Record env := MkEnv {
  e_oracle : nat → oracle;
  e_others : nat → St → St
}.

(** The [k]-th call of a round. *)
Definition call {A} (e : env) (k : nat) (op : StoreOp A) (s : St) : A * St :=
  store_exec (e_oracle e k) op (e_others e k s).

Fixpoint reap_loop (e : env) (k : nat) (expired : list QueueItem) (s : St) :
    list worker_event * St :=
  match expired with
  | [] => ([], s)
  | item :: expired' =>
      let '(r, s) := call e k (OpReleaseStep (qi_Namespace item) (qi_RunID item) (qi_StepID item)) s in
      let ev := match r with
                | Err err => Warnf "lease-reaper: release step %s/%s: %v"
                               [qi_RunID item; qi_StepID item] err
                | Ok _ => Incr "worker.lease_reaper.released"
                end in
      let '(evs, s) := reap_loop e (S k) expired' s in (ev :: evs, s)
  end.

Definition reaper_runOnce (e : env) (now : Time) (w : LeaseReaper) (s : St) :
    list worker_event * St :=
  match call e 0 (OpLeaseExpired (lr_leaseTimeout w) now) s with
  | (Err err, s) => ([Warnf "lease-reaper: %v" [] err], s)
  | (Ok expired, s) => reap_loop e 1 expired s
  end.

Definition expiry_runOnce (e : env) (now : Time) (w : ExpiryWorker) (s : St) :
    list worker_event * St :=
  let cutoff := time_add now (- ew_maxAge w) in
  match call e 0 (OpListExpiredRuns cutoff (ew_limit w)) s with
  | (Err err, s) => ([Warnf "expiry: list expired runs: %v" [] err], s)
  | (Ok [], s) => ([], s)
  | (Ok expired, s) =>
      match call e 1 (OpDeleteRuns (run_ID <$> expired)) s with
      | (Err err, s) => ([Warnf "expiry: delete runs: %v" [] err], s)
      | (Ok deleted, s) =>
          (if (0 <? deleted)%Z
           then [Incr "worker.expiry.deleted";
                 Infof "expiry: deleted %d old runs" [pretty deleted]]
           else [], s)
      end
  end.

Definition compaction_runOnce (e : env) (now : Time) (w : CompactionWorker) (s : St) :
    list worker_event * St :=
  let before := time_add now (- cw_before w) in
  match call e 0 (OpCompactRuns before (cw_limit w)) s with
  | (Err err, s) => ([Warnf "compaction: compact runs: %v" [] err], s)
  | (Ok compacted, s) =>
      (if (0 <? compacted)%Z
       then [Incr "worker.compaction.compacted";
             Infof "compaction: compacted %d runs" [pretty compacted]]
       else [], s)
  end.
End workers.
Arguments env St : clear implicits.

(** * The reaper on the in-memory store *)

(** Nobody else uses the store during the round. *)
Definition alone (e : env Store) : Prop := ∀ k s, e_others e k s = s.

(** The store where the item at a key has been released. *)
Definition visible_now (t : Time) (item : QueueItem) : QueueItem := set_qi_VisibleAt t item.

Lemma reap_loop_queue e k expired s T :
  alone e → (∀ k, o_now (e_oracle e k) <= T)%Z →
  let s' := (reap_loop e k expired s).2 in
  s' = set_queue (st_queue s') s ∧
  ∀ key, st_queue s' !! key = st_queue s !! key ∨
    ∃ item now, st_queue s !! key = Some item ∧ st_queue s' !! key = Some (visible_now now item) ∧
      (now <= T)%Z ∧
      ∃ it, it ∈ expired ∧ key = queueKey (qi_Namespace it) (qi_RunID it) (qi_StepID it).
Proof.
  intros Ha HT. revert k s. induction expired as [|it expired IH]; intros k s; simpl.
  { split; [by destruct s|]. by left. }
  unfold call. rewrite Ha.
  change (store_exec ?o (OpReleaseStep ?a ?b ?c) ?s) with (ReleaseStep (o_now o) a b c s).
  unfold ReleaseStep.
  set (k0 := queueKey (qi_Namespace it) (qi_RunID it) (qi_StepID it)).
  destruct (st_queue s !! k0) as [item|] eqn:Ek.
  - set (s1 := set_queue (<[_ := _]> _) s). specialize (IH (S k) s1).
    destruct (reap_loop e (S k) expired s1) as [evs s']. simpl in *. destruct IH as [Hs IH].
    split; [by etransitivity; [exact Hs|]|]. intros key. specialize (IH key).
    destruct (decide (key = k0)) as [->|Hne].
    + right. rewrite lookup_insert_eq in IH.
      destruct IH as [->|(item' & now & [= <-] & -> & Hle & it' & Hin & Heq)].
      * exists item, (o_now (e_oracle e k)). split_and!; [done..|apply HT|]. exists it. set_solver.
      * exists item, now. split_and!; [done..|]. exists it. set_solver.
    + rewrite lookup_insert_ne in IH by done.
      destruct IH as [->|(item' & now & H1 & H2 & Hle & it' & Hin & Heq)]; [by left|].
      right. exists item', now. split_and!; [done..|]. exists it'. set_solver.
  - specialize (IH (S k) s). destruct (reap_loop e (S k) expired s) as [evs s']. simpl in *.
    destruct IH as [Hs IH]. split; [done|]. intros key.
    destruct (IH key) as [->|(item' & now & H1 & H2 & Hle & it' & Hin & Heq)]; [by left|].
    right. exists item', now. split_and!; [done..|]. exists it'. set_solver.
Qed.

Lemma reaper_queue e now w s T :
  store_wf s → alone e → (∀ k, o_now (e_oracle e k) <= T)%Z →
  let s' := (reaper_runOnce e now w s).2 in
  s' = set_queue (st_queue s') s ∧
  ∀ key, st_queue s' !! key = st_queue s !! key ∨
    ∃ item t, st_queue s !! key = Some item ∧ st_queue s' !! key = Some (visible_now t item) ∧
      (t <= T)%Z ∧ (lr_leaseTimeout w < time_sub now (qi_VisibleAt item))%Z.
Proof.
  intros Hwf Ha HT. unfold reaper_runOnce, call. rewrite Ha.
  change (store_exec ?o (OpLeaseExpired ?d ?t) ?s) with (LeaseExpired (o_shuffle o) d t s, s).
  unfold LeaseExpired. cbv iota beta.
  set (expired := filter _ _). destruct (reap_loop_queue e 1 expired s T Ha HT) as [H1 H2].
  split; [done|]. intros key. destruct (H2 key) as [?|(item & t & Hk & Hk' & Ht & it & Hin & Heq)];
    [by left|]. right. exists item, t. split_and!; [done..|].
  apply list_elem_of_filter in Hin as [Hx [k' Hk2]%elem_of_range_values].
  pose proof (wf_queue _ Hwf _ _ Hk2) as Hat. unfold item_at in Hat.
  rewrite Heq, <- Hat, Hk2 in Hk. simplify_eq. apply andb_true_iff in Hx as [_ Hx]. lia.
Qed.

(** The lease reaper never takes a lease away, and never makes an item available that was
    not: when nobody uses the store during its round, then at every time from the end of the
    round on, an item can be leased after it exactly when it could be before (the items it
    releases have been visible for the whole timeout); nothing but the queue changes. *)
Theorem reaper_preserves_availability (e : env Store) now w s T t key wanted :
  store_wf s → alone e → (∀ k, o_now (e_oracle e k) <= T)%Z → (0 <= lr_leaseTimeout w)%Z →
  (now <= T)%Z → (T < t)%Z → (∀ item z, wanted (visible_now z item) = wanted item) →
  let s' := (reaper_runOnce e now w s).2 in
  s' = set_queue (st_queue s') s ∧
  ((∃ item, st_queue s' !! key = Some item ∧ eligible wanted t item) ↔
   (∃ item, st_queue s !! key = Some item ∧ eligible wanted t item)).
Proof.
  intros Hwf Ha HT Hto Hnow Ht Hw s'. subst s'.
  destruct (reaper_queue e now w s T Hwf Ha HT) as [H1 H2]. split; [done|].
  destruct (H2 key) as [->|(item & z & Hk & Hk' & Hz & Hexp)]; [done|]. rewrite Hk, Hk'.
  unfold eligible. setoid_rewrite (inj_iff Some). unfold time_sub, min_int64 in Hexp.
  split; intros (? & <- & H3 & H4); eexists; (split; [done|]); rewrite Hw in *; split; simpl in *;
    try done; lia.
Qed.

(** A queue with an item that was leased once and abandoned a hundred seconds ago, and a lease
    that still runs. *)
Definition ex_item (step : string) (visibleAt : Time) : QueueItem :=
  MkQueueItem ":1" "prod" step 0 visibleAt 1.
Definition ex_queue : Store :=
  (exec_calls [Call (ex_oracle 1) (OpEnqueue (ex_item "a" 1));
               Call (ex_oracle 1) (OpEnqueue (ex_item "b" (120 * second)%Z))] New).2.
Definition ex_env : env Store := MkEnv (λ _, ex_oracle (100 * second)%Z) (λ _ s, s).
Definition ex_reaper : LeaseReaper := NewLeaseReaper 0 0.

Lemma reaper_preserves_availability_witness :
  (∃ item, st_queue (reaper_runOnce ex_env (100 * second)%Z ex_reaper ex_queue).2
             !! queueKey "prod" ":1" "a" = Some item ∧
     eligible (λ _, true) (101 * second)%Z item) ↔
  (∃ item, st_queue ex_queue !! queueKey "prod" ":1" "a" = Some item ∧
     eligible (λ _, true) (101 * second)%Z item).
Proof.
  apply (reaper_preserves_availability ex_env (100 * second)%Z ex_reaper ex_queue
           (100 * second)%Z (101 * second)%Z (queueKey "prod" ":1" "a") (λ _, true)).
  - apply exec_calls_wf, New_wf.
  - intros k s. reflexivity.
  - intros k. unfold ex_env, ex_oracle. simpl. lia.
  - unfold ex_reaper, NewLeaseReaper, second. simpl. lia.
  - lia.
  - unfold second. lia.
  - reflexivity.
Defined.

(** Another goroutine leases the abandoned item after the reaper has listed it. *)
Definition ex_race : env Store :=
  MkEnv (λ _, ex_oracle (100 * second)%Z)
    (λ k s, if k =? 1 then (DequeueAny shuffle_id (λ _, "t1") 0 (100 * second)%Z s).2 else s).
Definition leased (r : result error (list QueueLease) * Store) : list string :=
  match r.1 with Ok ls => (λ l, qi_StepID (ql_Item l)) <$> ls | Err _ => [] end.

(** A reaper that races with a dequeue breaks a running lease.  An abandoned item is leased
    by another goroutine between the listing and the release of the reaper's round; the reaper
    then makes it visible, and the next dequeue, one second later and well within the thirty
    seconds of the lease, leases it a second time.  Without the reaper's round it does not. *)
Theorem reaper_breaks_running_lease :
  let now := (100 * second)%Z in
  let next s := leased (DequeueAny shuffle_id (λ _, "t2") 0 (now + second)%Z s) in
  leased (DequeueAny shuffle_id (λ _, "t1") 0 now ex_queue) = ["a"] ∧
  next (DequeueAny shuffle_id (λ _, "t1") 0 now ex_queue).2 = [] ∧
  next (reaper_runOnce ex_race now ex_reaper ex_queue).2 = ["a"].
Proof. vm_compute. split_and!; reflexivity. Qed.

(** A finished run, and a live run of another namespace with the same identifier. *)
Definition ex_same_id : Store :=
  (exec_calls [Call (ex_oracle 1) (OpCreateRun (ex_run "prod" "r" 10 StateSucceeded (Some 20%Z)));
               Call (ex_oracle 1) (OpCreateRun (ex_run "test" "r" 30 StateQueued None))] New).2.

(** Retention crosses namespaces.  The expiry worker deletes runs by their identifier alone:
    its round on a store with one expired run deletes a live run of another namespace that has
    the same identifier, and counts both. *)
Theorem expiry_crosses_namespaces :
  let e := MkEnv (λ _, ex_oracle 1) (λ _ s, s) in
  let '(evs, s') := expiry_runOnce e (8 * 24 * hour)%Z (NewExpiryWorker 0 0) ex_same_id in
  run_State <$> st_runs ex_same_id !! runKey "test" "r" = Some StateQueued ∧
  evs = [Incr "worker.expiry.deleted"; Infof "expiry: deleted %d old runs" ["2"]] ∧
  st_runs s' = ∅.
Proof. vm_compute. split_and!; reflexivity. Qed.
