(* ===== verification/Deadlock.v ===== *)
(** The deadlock detector: [internal/deadlock/deadlock.go].

    Every method holds the detector's lock, and is one step on its state; a round of
    [ResolveDeadlocks] takes it several times, and is modelled with no other calls in between.
    The sweeper that calls it periodically is not modelled. *)
From S2P Require Import Prelude Errors.

Abbreviation STaskNotFound := (SOther "deadlock: task not found").
Abbreviation SNoVictim := (SOther "deadlock: no victim could be selected").

(** The type is [int]: [VictimOther] is a value that is not one of the constants. *)
Inductive VictimPolicy := VictimLowestPriority | VictimYoungest | VictimFewestLocks | VictimOther (n : Z).

Record TaskInfo := MkTaskInfo {
  ti_ID : string;
  ti_WorkflowID : string;
  ti_Priority : Z;
  ti_StartedAt : Time;
  ti_HeldLocks : gset string;
  ti_WaitingLock : string
}.

Record Detector := MkDetector {
  d_tasks : gmap string TaskInfo;
  d_lockHolders : gmap string string;
  d_lockWaiters : gmap string (list string)
}.

Definition NewDetector : Detector := MkDetector ∅ ∅ ∅.

Definition RegisterTask (id workflowID : string) (priority : Z) (startedAt : Time) (d : Detector) :
    Detector :=
  MkDetector (<[id := MkTaskInfo id workflowID priority startedAt ∅ ""]> (d_tasks d))
    (d_lockHolders d) (d_lockWaiters d).

(** The loop over the held locks; what it deletes does not depend on the order. *)
Definition release_held (id : string) (locks : gset string) (holders : gmap string string) :
    gmap string string :=
  foldl (λ h lockID, if bool_decide (h !! lockID = Some id) then delete lockID h else h)
    holders (elements locks).

Definition UnregisterTask (id : string) (d : Detector) : Detector :=
  match d_tasks d !! id with
  | None => d
  | Some t =>
      let holders := release_held id (ti_HeldLocks t) (d_lockHolders d) in
      let waiters :=
        if bool_decide (ti_WaitingLock t ≠ "")
        then <[ti_WaitingLock t :=
                 filter (λ w, w ≠ id) (default [] (d_lockWaiters d !! ti_WaitingLock t))]>
               (d_lockWaiters d)
        else d_lockWaiters d in
      MkDetector (delete id (d_tasks d)) holders waiters
  end.

Definition AcquireLock (taskID lockID : string) (d : Detector) : result error bool * Detector :=
  match d_tasks d !! taskID with
  | None => (Err (ESentinel STaskNotFound), d)
  | Some t =>
      let wait := match d_lockHolders d !! lockID with
                  | Some holder => bool_decide (holder ≠ taskID)
                  | None => false
                  end in
      if wait then
        (Ok false,
         MkDetector (<[taskID := MkTaskInfo (ti_ID t) (ti_WorkflowID t) (ti_Priority t)
                                   (ti_StartedAt t) (ti_HeldLocks t) lockID]> (d_tasks d))
           (d_lockHolders d)
           (<[lockID := default [] (d_lockWaiters d !! lockID) ++ [taskID]]> (d_lockWaiters d)))
      else
        (Ok true,
         MkDetector (<[taskID := MkTaskInfo (ti_ID t) (ti_WorkflowID t) (ti_Priority t)
                                   (ti_StartedAt t) ({[lockID]} ∪ ti_HeldLocks t) ""]> (d_tasks d))
           (<[lockID := taskID]> (d_lockHolders d)) (d_lockWaiters d))
  end.

Definition ReleaseLock (taskID lockID : string) (d : Detector) : option error * Detector :=
  match d_tasks d !! taskID with
  | None => (Some (ESentinel STaskNotFound), d)
  | Some t =>
      (None,
       MkDetector (<[taskID := MkTaskInfo (ti_ID t) (ti_WorkflowID t) (ti_Priority t)
                                 (ti_StartedAt t) (ti_HeldLocks t ∖ {[lockID]})
                                 (ti_WaitingLock t)]> (d_tasks d))
         (if bool_decide (d_lockHolders d !! lockID = Some taskID)
          then delete lockID (d_lockHolders d) else d_lockHolders d)
         (d_lockWaiters d))
  end.

(** * Detection *)

(** The task a task waits for. *)
Definition waits_for (d : Detector) (taskID : string) (task : TaskInfo) : option string :=
  if bool_decide (ti_WaitingLock task ≠ "") then
    match d_lockHolders d !! ti_WaitingLock task with
    | Some holder => if bool_decide (holder ≠ taskID) then Some holder else None
    | None => None
    end
  else None.

(** The graph as a map from tasks to lists, each of which the loop over the tasks appends to. *)
Definition BuildWaitForGraph (sh : shuffle) (d : Detector) : gmap string (list string) :=
  foldl (λ wfg kt,
           match waits_for d kt.1 kt.2 with
           | Some holder => <[kt.1 := default [] (wfg !! kt.1) ++ [holder]]> wfg
           | None => wfg
           end) ∅ (range_map sh (d_tasks d)).

(** The variables the closure [dfs] shares. *)
Record search_state := MkSearch {
  sc_visited : gset string;
  sc_recStack : gset string;
  sc_path : list string;
  sc_cycles : list (list string)
}.

(** [path[cycleStart:]], with [cycleStart] the first index of the node. *)
Definition cycle_from (v : string) (path : list string) : option (list string) :=
  match list_find (λ node, node = v) path with
  | Some (i, _) => Some (drop i path)
  | None => None
  end.

(** [fuel] bounds the depth of the recursion; [None] when it runs out. *)
Fixpoint dfs (wfg : gmap string (list string)) (fuel : nat) (u : string) (st : search_state) :
    option search_state :=
  match fuel with
  | 0 => None
  | S fuel' =>
      let visit st v :=
        if bool_decide (v ∈ sc_visited st) then
          if bool_decide (v ∈ sc_recStack st) then
            match cycle_from v (sc_path st) with
            | Some cycle => Some (MkSearch (sc_visited st) (sc_recStack st) (sc_path st)
                                    (sc_cycles st ++ [cycle]))
            | None => Some st
            end
          else Some st
        else dfs wfg fuel' v st in
      let st := MkSearch ({[u]} ∪ sc_visited st) ({[u]} ∪ sc_recStack st) (sc_path st ++ [u])
                  (sc_cycles st) in
      st ← foldl (λ acc v, st ← acc; visit st v) (Some st) (default [] (wfg !! u));
      Some (MkSearch (sc_visited st) (sc_recStack st ∖ {[u]})
              (take (length (sc_path st) - 1) (sc_path st)) (sc_cycles st))
  end.

Fixpoint search_all (wfg : gmap string (list string)) (fuel : nat) (us : list string)
    (st : search_state) : option search_state :=
  match us with
  | [] => Some st
  | u :: us' =>
      if bool_decide (u ∈ sc_visited st) then search_all wfg fuel us' st
      else st ← dfs wfg fuel u st; search_all wfg fuel us' st
  end.

(** A search visits a task at most once; there are as many tasks and holders as this. *)
Definition search_fuel (wfg : gmap string (list string)) : nat :=
  S (size wfg + length (concat (map_to_list wfg).*2)).

Definition DetectDeadlocks (sh sh' : shuffle) (d : Detector) : option (list (list string)) :=
  let wfg := BuildWaitForGraph sh d in
  sc_cycles <$> search_all wfg (search_fuel wfg) (range_map sh' wfg).*1 (MkSearch ∅ ∅ [] []).

(** * Resolution *)

Definition victim_less (policy : VictimPolicy) (a b : TaskInfo) : bool :=
  match policy with
  | VictimLowestPriority =>
      if bool_decide (ti_Priority a ≠ ti_Priority b) then (ti_Priority a <? ti_Priority b)%Z
      else time_after (ti_StartedAt a) (ti_StartedAt b)
  | VictimYoungest => time_after (ti_StartedAt a) (ti_StartedAt b)
  | VictimFewestLocks => size (ti_HeldLocks a) <? size (ti_HeldLocks b)
  | VictimOther _ => false
  end.

Definition candidates (d : Detector) (cycle : list string) : list TaskInfo :=
  omap (λ id, d_tasks d !! id) cycle.

(** [sh] is the order in which [sort.Slice] leaves candidates it does not distinguish; a policy that is none
    of the constants leaves them in the order of the cycle. *)
Definition ordered (sh : shuffle) (policy : VictimPolicy) (cs : list TaskInfo) : list TaskInfo :=
  match policy with
  | VictimOther _ => cs
  | _ => sort_slice (victim_less policy) (sh _ cs)
  end.

Definition SelectVictim (sh : shuffle) (cycle : list string) (policy : VictimPolicy)
    (d : Detector) : result error string :=
  match ordered sh policy (candidates d cycle) with
  | [] => Err (ESentinel SNoVictim)
  | t :: _ => Ok (ti_ID t)
  end.

(** The loop over the cycles: the tasks aborted, in order, which are the calls of the callback,
    and the detector. *)
Fixpoint resolve_loop (sh : shuffle) (policy : VictimPolicy) (cycles : list (list string))
    (aborted : gset string) (d : Detector) : list string * Detector :=
  match cycles with
  | [] => ([], d)
  | cycle :: cycles' =>
      if existsb (λ node, bool_decide (node ∈ aborted)) cycle
      then resolve_loop sh policy cycles' aborted d
      else
        match SelectVictim sh cycle policy d with
        | Ok victim =>
            if bool_decide (victim ≠ "") then
              let '(vs, d') :=
                resolve_loop sh policy cycles' ({[victim]} ∪ aborted) (UnregisterTask victim d) in
              (victim :: vs, d')
            else resolve_loop sh policy cycles' aborted d
        | Err _ => resolve_loop sh policy cycles' aborted d
        end
  end.

(** The number of tasks aborted is the number of calls of the callback.  The calls of the methods take the
    lock one after the other; this is a round in which nobody else takes it in between. *)
Definition ResolveDeadlocks (sh sh' sh'' : shuffle) (policy : VictimPolicy) (d : Detector) :
    option (list string * Detector) :=
  cycles ← DetectDeadlocks sh sh' d; Some (resolve_loop sh'' policy cycles ∅ d).

(** * Theorems

    Correctness of the deadlock detector: it reports exactly the cycles of the wait-for
    relation, and its resolution leaves none. *)

(** * Cycles of a partial function *)

Section functional.
Context (g : string → option string).

Definition step (x y : string) : Prop := g x = Some y.
Definition on_cycle (x : string) : Prop := tc step x x.

(** A list of distinct nodes, each followed by its successor, the last by the first. *)
Definition chain (l : list string) : Prop :=
  ∀ i a b, l !! i = Some a → l !! S i = Some b → step a b.
Definition cycle_of (c : list string) : Prop :=
  NoDup c ∧ chain c ∧ ∃ a z, head c = Some a ∧ last c = Some z ∧ step z a.

Lemma on_cycle_step x y : on_cycle x → step x y → on_cycle y ∧ rtc step y x.
Proof.
  intros Hc Hxy. assert (rtc step y x) as Hyx.
  { inversion Hc as [? ? H1|? z ? H1 H2]; subst; unfold step in *.
    - assert (y = x) as -> by congruence. done.
    - assert (y = z) as -> by congruence. by apply tc_rtc. }
  split; [|done]. unfold on_cycle. eapply tc_rtc_l; [exact Hyx|]. by apply tc_once.
Qed.

(** On a cycle every node reached leads back. *)
Lemma on_cycle_rtc x y : rtc step x y → on_cycle x → on_cycle y ∧ rtc step y x.
Proof.
  induction 1 as [x|x y z Hxy Hyz IH]; [done|]. intros Hc.
  destruct (on_cycle_step x y Hc Hxy) as [Hcy Hyx]. destruct (IH Hcy) as [Hz Hzy].
  split; [done|]. by transitivity y.
Qed.

Lemma on_cycle_succ x : on_cycle x → ∃ y, step x y.
Proof. intros Hc. inversion Hc; eauto. Qed.

Lemma closed_rtc (P : string → Prop) x y :
  (∀ a b, P a → step a b → P b) → rtc step x y → P x → P y.
Proof. intros Hcl. induction 1; eauto. Qed.

Lemma chain_rtc l i j a b :
  chain l → i <= j → l !! i = Some a → l !! j = Some b → rtc step a b.
Proof.
  intros Hch Hij. revert b. induction Hij as [|j Hij IH]; intros b Ha Hb; [by simplify_eq|].
  destruct (lookup_lt_is_Some_2 l j) as [c Hc]; [apply lookup_lt_Some in Hb; lia|].
  eapply rtc_r; [by apply IH|]. by eapply Hch.
Qed.

Lemma chain_app_r l1 l2 : chain (l1 ++ l2) → chain l2.
Proof.
  intros Hch i a b Ha Hb. apply (Hch (length l1 + i)).
  - rewrite lookup_app_r by lia. by rewrite Nat.add_comm, Nat.add_sub.
  - rewrite lookup_app_r by lia. by replace (S (length l1 + i) - length l1) with (S i) by lia.
Qed.

Lemma chain_last l x z : chain l → x ∈ l → last l = Some z → rtc step x z.
Proof.
  rewrite last_lookup. intros Hch [i Hi]%list_elem_of_lookup Hz.
  eapply chain_rtc; [done| |done|done]. apply lookup_lt_Some in Hi. lia.
Qed.

Lemma cycle_of_tc c x y : cycle_of c → x ∈ c → y ∈ c → tc step x y.
Proof.
  intros (_ & Hch & a & z & Ha & Hz & Hza) Hx Hy. pose proof (chain_last c x z Hch Hx Hz) as Hxz.
  apply list_elem_of_lookup in Hy as [i Hi]. rewrite head_lookup in Ha.
  assert (rtc step a y) as Hay by (eapply (chain_rtc c 0 i); [done|lia|done|done]).
  eapply tc_rtc_l; [exact Hxz|]. eapply tc_rtc_r; [by apply tc_once|done].
Qed.

Lemma cycle_of_on_cycle c x : cycle_of c → x ∈ c → on_cycle x.
Proof. intros Hc Hx. by apply (cycle_of_tc c). Qed.
End functional.

(** * The wait-for graph *)

Definition next (d : Detector) (u : string) : option string := d_tasks d !! u ≫= waits_for d u.

(** The task [u] waits for a lock that the task [v] holds. *)
Definition waits (d : Detector) : string → string → Prop := step (next d).

Lemma build_lookup d l (m : gmap string (list string)) u :
  NoDup l.*1 → (∀ k, k ∈ l.*1 → m !! k = None) →
  foldl (λ wfg kt,
           match waits_for d kt.1 kt.2 with
           | Some holder => <[kt.1 := default [] (wfg !! kt.1) ++ [holder]]> wfg
           | None => wfg
           end) m l !! u =
  match (list_to_map l : gmap string TaskInfo) !! u ≫= waits_for d u with
  | Some v => Some [v]
  | None => m !! u
  end.
Proof.
  revert m. induction l as [|[k t] l IH]; intros m; csimpl; [by rewrite lookup_empty|].
  rewrite NoDup_cons. intros [Hk Hnd] Hm. rewrite IH; [|done|].
  - destruct (decide (u = k)) as [->|Hne].
    + rewrite lookup_insert_eq. rewrite (not_elem_of_list_to_map_1 _ _ Hk). simpl.
      destruct (waits_for d k t) as [v|]; [|by rewrite Hm by set_solver].
      rewrite lookup_insert_eq, Hm by set_solver. done.
    + rewrite lookup_insert_ne by done. destruct (list_to_map l !! u ≫= waits_for d u); [done|].
      destruct (waits_for d k t); [by rewrite lookup_insert_ne|done].
  - intros j Hj. destruct (waits_for d k t); [|by apply Hm; set_solver].
    rewrite lookup_insert_ne by set_solver. apply Hm. set_solver.
Qed.

Lemma graph_lookup sh d u : BuildWaitForGraph sh d !! u = (λ v, [v]) <$> next d u.
Proof.
  unfold BuildWaitForGraph. rewrite build_lookup by (auto with loops; set_solver).
  unfold next. assert (list_to_map (range_map sh (d_tasks d)) = d_tasks d) as ->.
  { rewrite (list_to_map_proper _ (map_to_list (d_tasks d)));
      [apply list_to_map_to_list|auto with loops..]. }
  destruct (d_tasks d !! u ≫= waits_for d u); simpl; [done|apply lookup_empty].
Qed.

(** * The search *)

(** What is found at the end of a path that cannot be extended. *)
Definition found (g : string → option string) (path : list string) : list (list string) :=
  match last path ≫= g with
  | Some v => if bool_decide (v ∈ path) then option_list (cycle_from v path) else []
  | None => []
  end.

(** The search from [u]: the nodes it visits, each the successor of the one before, until there
    is none or it has been visited. *)
Record trail_of (g : string → option string) (visited : gset string) (u : string)
    (t : list string) : Prop := {
  tr_head : head t = Some u;
  tr_chain : chain g t;
  tr_nodup : NoDup t;
  tr_fresh : ∀ x, x ∈ t → x ∉ visited;
  tr_end : ∀ z v, last t = Some z → g z = Some v → v ∈ t ∨ v ∈ visited
}.

Lemma trail_single g visited u :
  u ∉ visited → (∀ v, g u = Some v → v ∈ {[u]} ∪ visited) → trail_of g visited u [u].
Proof.
  intros Hu Hv. split; [done| |apply NoDup_singleton|set_solver|].
  - intros [|i] a b Ha Hb; simplify_eq/=; by destruct i.
  - intros z v [= <-] E. apply Hv in E. set_solver.
Qed.

Lemma trail_cons g visited u v t :
  u ∉ visited → g u = Some v → trail_of g ({[u]} ∪ visited) v t → trail_of g visited u (u :: t).
Proof.
  intros Hu Hv [Hh Hc Hnd Hfr He]. split; [done| |apply NoDup_cons; set_solver|set_solver|].
  - intros [|i] a b Ha Hb; simplify_eq/=; [|by eapply Hc].
    rewrite head_lookup in Hh. rewrite Hh in Hb. by simplify_eq.
  - intros z w Hz Hw. destruct t as [|y t]; [done|]. specialize (He z w Hz Hw). set_solver.
Qed.

(** The variables after a node is left. *)
Ltac search_eq :=
  simpl; f_equal; f_equal;
  [set_solver|set_solver|rewrite length_app; simpl; by rewrite Nat.add_sub, take_app_length|..];
  by rewrite ?app_nil_r.

Lemma cycle_closed g c a b : cycle_of g c → a ∈ c → step g a b → b ∈ c.
Proof.
  intros (_ & Hch & h & z & Hh & Hz & Hzh) [i Hi]%list_elem_of_lookup Hab.
  unfold step in *. destruct (c !! S i) as [b'|] eqn:Eb.
  - pose proof (Hch i a b' Hi Eb) as Hab'. unfold step in Hab'. simplify_eq.
    by eapply list_elem_of_lookup_2.
  - rewrite last_lookup in Hz. apply lookup_ge_None in Eb. pose proof (lookup_lt_Some _ _ _ Hi).
    replace (pred (length c)) with i in Hz by lia. simplify_eq. by apply head_Some_elem_of.
Qed.

Lemma cycle_from_spec v path :
  v ∈ path → ∃ l c, path = l ++ c ∧ cycle_from v path = Some c ∧ head c = Some v.
Proof.
  intros Hv. unfold cycle_from. destruct (list_find (λ node, node = v) path) as [[i w]|] eqn:E.
  - apply list_find_Some in E as (Hi & -> & _). exists (take i path), (drop i path).
    split_and!; [by rewrite take_drop|done|]. by rewrite head_lookup, lookup_drop, Nat.add_0_r.
  - apply list_find_None in E. rewrite Forall_forall in E. by destruct (E v Hv).
Qed.

(** What a search finds is the cycle of the nodes it visits that are on one. *)
Lemma trail_found g (V : gset string) u t :
  trail_of g V u t → (∀ x y, x ∈ V → g x = Some y → y ∈ V) →
  Forall (cycle_of g) (found g t) ∧ NoDup (concat (found g t)) ∧
  (∀ x, x ∈ concat (found g t) → x ∈ t) ∧
  (∀ x, x ∈ t → on_cycle g x → x ∈ concat (found g t)).
Proof.
  intros Ht Hcl. pose proof (tr_chain _ _ _ _ Ht) as Hch.
  destruct (last t) as [z|] eqn:Ez.
  2:{ apply last_None in Ez as ->. by destruct Ht. }
  assert (∀ x, x ∈ t → on_cycle g x → on_cycle g z ∧ rtc (step g) z x) as Hz
    by (intros x Hx; by apply on_cycle_rtc, (chain_last g t)).
  unfold found. rewrite Ez. simpl. destruct (g z) as [v|] eqn:Ev.
  2:{ split_and!; [constructor..|set_solver|]. intros x Hx [[y Hy]%on_cycle_succ _]%Hz; [|done].
      unfold step in Hy. congruence. }
  assert (∀ x, x ∈ t → on_cycle g x → rtc (step g) v x) as Hv.
  { intros x Hx Hc. pose proof (rtc_r _ _ _ (chain_last g t x z Hch Hx Ez) Ev) as Hxv.
    by apply (on_cycle_rtc g x v Hxv). }
  case_bool_decide as Hin.
  - destruct (cycle_from_spec v t Hin) as (l & c & -> & -> & Hh). simpl. rewrite app_nil_r.
    assert (cycle_of g c) as Hcyc.
    { split; [apply (NoDup_app l c), Ht|]. split; [by apply (chain_app_r g l)|].
      exists v, z. split_and!; [done| |done]. rewrite last_app in Ez.
      destruct (last c) eqn:Ec; [done|]. by apply last_None in Ec as ->. }
    split_and!; [by constructor|apply Hcyc|set_solver|].
    intros x Hx Hc. apply (closed_rtc g (λ y, y ∈ c) v); [|by apply Hv|by apply head_Some_elem_of].
    intros a b. by apply cycle_closed.
  - split_and!; [constructor..|set_solver|]. intros x Hx Hc.
    destruct (tr_end _ _ _ _ Ht z v Ez Ev) as [|HvV]; [done|].
    destruct (tr_fresh _ _ _ _ Ht x Hx). apply (closed_rtc g (λ y, y ∈ V) v); eauto.
Qed.

Section search.
Context (wfg : gmap string (list string)) (g : string → option string) (nodes : gset string).
Hypothesis Hg : ∀ x, wfg !! x = (λ v, [v]) <$> g x.
Hypothesis Hnodes : ∀ x y, g x = Some y → y ∈ nodes.

Lemma dfs_spec fuel u st :
  sc_recStack st = list_to_set (sc_path st) → (∀ x, x ∈ sc_path st → x ∈ sc_visited st) →
  u ∉ sc_visited st → u ∈ nodes → size (nodes ∖ sc_visited st) <= fuel →
  ∃ t, trail_of g (sc_visited st) u t ∧
    dfs wfg fuel u st =
    Some (MkSearch (list_to_set t ∪ sc_visited st) (sc_recStack st) (sc_path st)
            (sc_cycles st ++ found g (sc_path st ++ t))).
Proof.
  revert u st. induction fuel as [|fuel IH]; intros u st Hrec Hpath Hu Hn Hf.
  { exfalso. assert (size (nodes ∖ sc_visited st) = 0) as Hs by lia.
    apply size_empty_inv in Hs. set_solver. }
  assert (u ∉ sc_path st) as Hup by naive_solver.
  simpl. rewrite Hg. destruct (g u) as [v|] eqn:Egu; simpl.
  2:{ exists [u]. split; [apply trail_single; congruence|]. unfold found. rewrite last_snoc. simpl.
      rewrite Egu, app_nil_r. search_eq. }
  case_bool_decide as Hv; simpl.
  - exists [u]. split; [apply trail_single; congruence|].
    assert (v ∈ ({[u]} ∪ sc_recStack st) ↔ v ∈ sc_path st ++ [u]) as Hiff
      by (rewrite Hrec; set_solver).
    unfold found. rewrite last_snoc. simpl. rewrite Egu, <- (bool_decide_ext _ _ Hiff).
    case_bool_decide; [|search_eq]. destruct (cycle_from v (sc_path st ++ [u])); search_eq.
  - destruct (IH v (MkSearch ({[u]} ∪ sc_visited st) ({[u]} ∪ sc_recStack st)
                 (sc_path st ++ [u]) (sc_cycles st))) as (t & Ht & ->); simpl.
    + rewrite Hrec. set_solver.
    + set_solver.
    + done.
    + by eapply Hnodes.
    + assert (nodes ∖ ({[u]} ∪ sc_visited st) = (nodes ∖ sc_visited st) ∖ {[u]}) as ->
        by set_solver. rewrite size_difference by set_solver. rewrite size_singleton. lia.
    + exists (u :: t). split; [by eapply trail_cons|]. rewrite <- app_assoc. search_eq.
Qed.

(** The nodes visited so far, with all the cycles among them. *)
Record search_inv (st : search_state) : Prop := {
  si_rec : sc_recStack st = ∅;
  si_path : sc_path st = [];
  si_closed : ∀ x y, x ∈ sc_visited st → g x = Some y → y ∈ sc_visited st;
  si_cycles : Forall (cycle_of g) (sc_cycles st);
  si_nodup : NoDup (concat (sc_cycles st));
  si_sub : ∀ x, x ∈ concat (sc_cycles st) → x ∈ sc_visited st;
  si_complete : ∀ x, x ∈ sc_visited st → on_cycle g x → x ∈ concat (sc_cycles st)
}.

Lemma dfs_inv fuel u st :
  search_inv st → u ∉ sc_visited st → u ∈ nodes → size nodes <= fuel →
  ∃ st', dfs wfg fuel u st = Some st' ∧ search_inv st' ∧
    {[u]} ∪ sc_visited st ⊆ sc_visited st'.
Proof.
  intros [Hr Hp Hcl Hcy Hnd Hsub Hco] Hu Hn Hf. destruct (dfs_spec fuel u st) as (t & Ht & ->).
  { by rewrite Hr, Hp. } { rewrite Hp. set_solver. } { done. } { done. }
  { etransitivity; [|exact Hf]. apply subseteq_size. set_solver. }
  rewrite Hp. simpl. destruct (trail_found g _ u t Ht Hcl) as (H1 & H2 & H3 & H4).
  destruct Ht as [Hh Hch Hndt Hfr Hend]. eexists. split; [done|]. split.
  - split; simpl; rewrite ?concat_app; try done.
    + intros x y. rewrite !elem_of_union, !elem_of_list_to_set. intros [Hx|Hx] Hy; [|eauto].
      apply list_elem_of_lookup in Hx as [i Hi]. destruct (t !! S i) as [y'|] eqn:E.
      * pose proof (Hch i x y' Hi E) as Hs. unfold step in Hs. simplify_eq.
        left. by eapply list_elem_of_lookup_2.
      * apply (Hend x); [|done]. rewrite last_lookup. apply lookup_ge_None in E.
        pose proof (lookup_lt_Some _ _ _ Hi). by replace (pred (length t)) with i by lia.
    + by apply Forall_app.
    + apply NoDup_app. split_and!; [done| |done]. intros x Hx Hx'. apply (Hfr x); eauto.
    + set_solver.
    + intros x. rewrite elem_of_union, elem_of_list_to_set. set_solver.
  - simpl. apply head_Some_elem_of in Hh. set_solver.
Qed.

Lemma search_all_inv fuel us st :
  search_inv st → (∀ u, u ∈ us → u ∈ nodes) → size nodes <= fuel →
  ∃ st', search_all wfg fuel us st = Some st' ∧ search_inv st' ∧
    (∀ u, u ∈ us → u ∈ sc_visited st') ∧ sc_visited st ⊆ sc_visited st'.
Proof.
  intros HI Hus Hf. revert st HI. induction us as [|u us IH]; intros st HI; simpl.
  { exists st. split_and!; [done|done|set_solver|done]. }
  case_bool_decide as Hu.
  - destruct IH with st as (st' & -> & HI' & H1 & H2); [set_solver|done|].
    exists st'. split_and!; [done|done|set_solver|done].
  - destruct (dfs_inv fuel u st HI Hu) as (st1 & -> & HI1 & Hsub); [set_solver|done|]. simpl.
    destruct IH with st1 as (st' & -> & HI' & H1 & H2); [set_solver|done|].
    exists st'. split_and!; [done|done|set_solver|set_solver].
Qed.
End search.

Lemma elem_of_concat {A} (x : A) (ls : list (list A)) : x ∈ concat ls ↔ ∃ l, x ∈ l ∧ l ∈ ls.
Proof. rewrite list_elem_of_In, in_concat. setoid_rewrite list_elem_of_In. naive_solver. Qed.

Lemma size_list_to_set_le (l : list string) : size (list_to_set l : gset string) <= length l.
Proof.
  induction l as [|x l IH]; [by rewrite list_to_set_nil, size_empty|]. simpl.
  rewrite size_union_alt, size_singleton. apply le_n_S. etransitivity; [|exact IH].
  apply subseteq_size. set_solver.
Qed.

(** The tasks that wait and the tasks they wait for. *)
Definition graph_nodes (wfg : gmap string (list string)) : gset string :=
  list_to_set ((map_to_list wfg).*1 ++ concat (map_to_list wfg).*2).

Lemma graph_nodes_fuel wfg : size (graph_nodes wfg) <= search_fuel wfg.
Proof.
  unfold graph_nodes, search_fuel. etransitivity; [apply size_list_to_set_le|].
  rewrite length_app, length_fmap, length_map_to_list. lia.
Qed.

Lemma graph_nodes_key wfg u : u ∈ (map_to_list wfg).*1 → u ∈ graph_nodes wfg.
Proof. unfold graph_nodes. rewrite elem_of_list_to_set. set_solver. Qed.

Lemma graph_nodes_target (wfg : gmap string (list string)) x vs y :
  wfg !! x = Some vs → y ∈ vs → y ∈ graph_nodes wfg.
Proof.
  intros Hx Hy. unfold graph_nodes. rewrite elem_of_list_to_set, elem_of_app. right.
  apply elem_of_concat. exists vs. split; [done|]. apply list_elem_of_fmap.
  exists (x, vs). split; [done|]. by apply elem_of_map_to_list.
Qed.

Lemma DetectDeadlocks_spec sh sh' d :
  ∃ cycles, DetectDeadlocks sh sh' d = Some cycles ∧ Forall (cycle_of (next d)) cycles ∧
    NoDup (concat cycles) ∧ ∀ u, on_cycle (next d) u → u ∈ concat cycles.
Proof.
  unfold DetectDeadlocks. set (wfg := BuildWaitForGraph sh d).
  pose proof (graph_lookup sh d) as Hg. fold wfg in Hg.
  destruct (search_all_inv wfg (next d) (graph_nodes wfg)) with (fuel := search_fuel wfg)
    (us := (range_map sh' wfg).*1) (st := MkSearch ∅ ∅ [] []) as (st & -> & HI & Hall & _).
  - done.
  - intros x y E. eapply (graph_nodes_target wfg x [y]); [|set_solver]. by rewrite Hg, E.
  - split; simpl; try done; try constructor; set_solver.
  - intros u. rewrite range_map_perm. apply graph_nodes_key.
  - apply graph_nodes_fuel.
  - simpl. eexists. split; [done|]. destruct HI as [_ _ _ Hcy Hnd _ Hco]. split_and!; [done..|].
    intros u Hu. apply Hco; [|done]. destruct (on_cycle_succ _ _ Hu) as [v Hv]. apply Hall.
    rewrite range_map_perm. apply list_elem_of_fmap. exists (u, [v]). split; [done|].
    apply elem_of_map_to_list. by rewrite Hg, Hv.
Qed.

(** The detector reports exactly the deadlocks.  Whatever the order in which the maps are
    visited, the search ends; every list it reports is a cycle of distinct tasks each of which
    waits for the next, the last one for the first; no task is reported twice; and the tasks
    reported are all the tasks that wait, over any number of others, for themselves. *)
Theorem DetectDeadlocks_exact (sh sh' : shuffle) (d : Detector) :
  ∃ cycles, DetectDeadlocks sh sh' d = Some cycles ∧
    Forall (cycle_of (next d)) cycles ∧ NoDup (concat cycles) ∧
    ∀ u, u ∈ concat cycles ↔ tc (waits d) u u.
Proof.
  destruct (DetectDeadlocks_spec sh sh' d) as (cycles & Hd & Hcy & Hnd & Hco).
  exists cycles. split_and!; [done..|]. intros u. split; [|apply Hco].
  intros (c & Hu & Hc)%elem_of_concat. rewrite Forall_forall in Hcy.
  by apply (cycle_of_on_cycle (next d) c u); [apply Hcy|].
Qed.

(** * Victims *)

(** The task that the policy prefers to abort among those of a cycle. *)
Definition preferred (policy : VictimPolicy) (d : Detector) (cycle : list string) (v : string) :
    Prop :=
  v ∈ cycle ∧ ∃ t, d_tasks d !! v = Some t ∧
    ∀ x tx, x ∈ cycle → d_tasks d !! x = Some tx → victim_less policy tx t = false.

Lemma victim_less_asym policy a b : victim_less policy a b = true → victim_less policy b a = false.
Proof.
  destruct policy; simpl; unfold time_after; repeat case_bool_decide; solve_ltb.
Qed.

Lemma victim_less_trans policy a b c :
  not_after (victim_less policy) a b → not_after (victim_less policy) b c →
  not_after (victim_less policy) a c.
Proof.
  unfold not_after. destruct policy; simpl; unfold time_after; repeat case_bool_decide; solve_ltb.
Qed.

Definition det_wf (d : Detector) : Prop := map_Forall (λ id t, ti_ID t = id ∧ id ≠ "") (d_tasks d).

Lemma ordered_spec sh policy cs :
  ordered sh policy cs ≡ₚ cs ∧ Sorted (not_after (victim_less policy)) (ordered sh policy cs).
Proof.
  destruct policy as [| | |n]; cbn [ordered].
  4: { split; [done|]. induction cs as [|t cs IH]; constructor; [done|]. by destruct cs; constructor. }
  all: split; [rewrite sort_slice_perm; apply shuffle_perm|apply sort_slice_sorted, victim_less_asym].
Qed.

Lemma SelectVictim_preferred sh policy cycle d :
  det_wf d → cycle ≠ [] → (∀ x, x ∈ cycle → is_Some (d_tasks d !! x)) →
  ∃ v, SelectVictim sh cycle policy d = Ok v ∧ v ≠ "" ∧ preferred policy d cycle v.
Proof.
  intros Hwf Hne Hreg. unfold SelectVictim. set (cs := candidates d cycle).
  assert (∀ t, t ∈ cs ↔ ∃ x, x ∈ cycle ∧ d_tasks d !! x = Some t) as Hcs.
  { intros t. unfold cs, candidates. by rewrite list_elem_of_omap. }
  destruct (ordered_spec sh policy cs) as [Hp Hs]. destruct (ordered sh policy cs) as [|t ts].
  { exfalso. apply Permutation_nil in Hp. destruct cycle as [|x cycle]; [done|].
    destruct (Hreg x) as [tx Hx]; [set_solver|]. assert (tx ∈ cs) as Hin by (apply Hcs; set_solver).
    rewrite Hp in Hin. set_solver. }
  assert (t ∈ cs) as (x & Hx & Ht)%Hcs by (rewrite <- Hp; set_solver).
  destruct (Hwf x t Ht) as [Hid Hnn]. exists (ti_ID t). rewrite Hid. split_and!; [done..|].
  split; [done|]. exists t. split; [done|]. intros y ty Hy Hty.
  assert (ty ∈ t :: ts) as Hin by (rewrite Hp; apply Hcs; eauto).
  apply Sorted_extends in Hs; [|intros a b c; apply victim_less_trans].
  apply elem_of_cons in Hin as [->|Hin].
  - destruct (victim_less policy t t) eqn:E; [|done]. pose proof (victim_less_asym _ _ _ E).
    congruence.
  - rewrite List.Forall_forall in Hs. apply Hs. by apply list_elem_of_In.
Qed.

(** * Resolution *)

Lemma release_held_sub id locks holders l h :
  release_held id locks holders !! l = Some h → holders !! l = Some h.
Proof.
  unfold release_held. generalize (elements locks). intros ks. revert holders.
  induction ks as [|k ks IH]; intros holders; simpl; [done|]. intros H%IH.
  case_bool_decide; [|done]. by apply lookup_delete_Some in H as [_ H].
Qed.

Lemma Unregister_tasks id d : d_tasks (UnregisterTask id d) = delete id (d_tasks d).
Proof.
  unfold UnregisterTask. destruct (d_tasks d !! id) eqn:E; [done|]. by rewrite delete_id.
Qed.

Lemma Unregister_next id d u v :
  next (UnregisterTask id d) u = Some v → next d u = Some v ∧ u ≠ id.
Proof.
  unfold next. rewrite Unregister_tasks. destruct (decide (u = id)) as [->|Hne];
    [by rewrite lookup_delete_eq|]. rewrite lookup_delete_ne by done.
  intros H. split; [|done]. revert H. destruct (d_tasks d !! u) as [t|]; [|done]. simpl.
  unfold waits_for, UnregisterTask. destruct (d_tasks d !! id) as [ti|]; [|done]. simpl.
  case_bool_decide; [|done]. destruct (release_held _ _ _ !! _) as [h|] eqn:E; [|done].
  apply release_held_sub in E. by rewrite E.
Qed.

(** The detector after the tasks of [gone] have been aborted. *)
Definition without (gone : gset string) (d0 d : Detector) : Prop :=
  (∀ u v, next d u = Some v → next d0 u = Some v ∧ u ∉ gone) ∧
  d_tasks d = filter (λ kt, kt.1 ∉ gone) (d_tasks d0).

Lemma without_Unregister gone d0 d v :
  without gone d0 d → without ({[v]} ∪ gone) d0 (UnregisterTask v d).
Proof.
  intros [Hn Ht]. split.
  - intros x y [Hxy Hx]%Unregister_next. apply Hn in Hxy. set_solver.
  - rewrite Unregister_tasks, Ht. apply map_eq. intros k. apply option_eq. intros t.
    rewrite lookup_delete_Some, !map_lookup_filter_Some. set_solver.
Qed.

Lemma cycle_registered d c x : cycle_of (next d) c → x ∈ c → is_Some (d_tasks d !! x).
Proof.
  intros Hc Hx. destruct (on_cycle_succ _ _ (cycle_of_on_cycle _ _ _ Hc Hx)) as [y Hy].
  unfold step, next in Hy. by destruct (d_tasks d !! x).
Qed.

Lemma resolve_loop_spec sh policy d0 cycles gone d :
  det_wf d0 → without gone d0 d → Forall (cycle_of (next d0)) cycles → NoDup (concat cycles) →
  (∀ x, x ∈ concat cycles → x ∉ gone) →
  let '(vs, d') := resolve_loop sh policy cycles gone d in
  Forall2 (preferred policy d0) cycles vs ∧ without (list_to_set vs ∪ gone) d0 d'.
Proof.
  intros Hwf. revert gone d. induction cycles as [|c cycles IH]; intros gone d Hd Hcy Hnd Hg; simpl.
  { split; [constructor|]. by rewrite union_empty_l_L. }
  apply Forall_cons_1 in Hcy as [Hc Hcy]. simpl in Hnd, Hg.
  apply NoDup_app in Hnd as (_ & Hdisj & Hnd).
  destruct (existsb _ c) eqn:Ex.
  { exfalso. apply existsb_exists in Ex as (x & Hx%list_elem_of_In & Hin%bool_decide_eq_true).
    apply (Hg x); set_solver. }
  assert (∀ x, x ∈ c → d_tasks d !! x = d_tasks d0 !! x) as Hsame.
  { intros x Hx. destruct Hd as [_ ->]. apply option_eq. intros t.
    rewrite map_lookup_filter_Some. simpl. specialize (Hg x). set_solver. }
  destruct (SelectVictim_preferred sh policy c d) as (v & -> & Hne & Hv & t & Ht & Hmin).
  - destruct Hd as [_ Hd]. unfold det_wf. rewrite Hd. intros x t Ht.
    apply map_lookup_filter_Some in Ht as [Ht _]. by apply Hwf.
  - destruct Hc as (_ & _ & a & z & Ha & _). by intros ->.
  - intros x Hx. rewrite Hsame by done. by eapply cycle_registered.
  - rewrite bool_decide_true by done.
    specialize (IH ({[v]} ∪ gone) (UnregisterTask v d)).
    destruct (resolve_loop sh policy cycles ({[v]} ∪ gone) (UnregisterTask v d)) as [vs d'].
    destruct IH as [H1 H2]; [by apply without_Unregister|done|done|set_solver|].
    split.
    + constructor; [|done]. split; [done|]. exists t. rewrite <- Hsame by done. split; [done|].
      intros x tx Hx Htx. apply (Hmin x tx Hx). by rewrite Hsame.
    + simpl. by rewrite <- (assoc_L (∪)), (comm_L (∪) {[v]}), <- (assoc_L (∪)), (comm_L (∪) gone) in *.
Qed.

(** A cycle of what is left after some tasks are gone was a cycle before, without them. *)
Lemma without_on_cycle gone d0 d u v :
  without gone d0 d → on_cycle (next d) u → rtc (step (next d0)) u v →
  on_cycle (next d0) u ∧ v ∉ gone.
Proof.
  intros [Hn _] Hu Huv. split.
  - unfold on_cycle in *. clear Huv. revert Hu. generalize u at 2 4. intros w Hu.
    induction Hu as [x y Hxy|x y z Hxy _ IH]; [|eapply tc_l; [|done]]; [apply tc_once|];
      by apply Hn.
  - assert (on_cycle (next d) v) as [w Hw]%on_cycle_succ; [|by apply Hn in Hw as [_ Hw]].
    induction Huv as [x|x y z Hxy _ IH]; [done|]. apply IH.
    destruct (on_cycle_succ _ _ Hu) as [y' Hy']. assert (y' = y) as ->.
    { apply Hn in Hy' as [Hy' _]. unfold step in Hxy. congruence. }
    by apply (on_cycle_step _ x).
Qed.

Inductive det_op :=
| DRegister (id workflowID : string) (priority : Z) (startedAt : Time)
| DUnregister (id : string)
| DAcquire (taskID lockID : string)
| DRelease (taskID lockID : string).

Definition det_step (d : Detector) (op : det_op) : Detector :=
  match op with
  | DRegister id w p t => RegisterTask id w p t d
  | DUnregister id => UnregisterTask id d
  | DAcquire t l => (AcquireLock t l d).2
  | DRelease t l => (ReleaseLock t l d).2
  end.
Definition det_run (ops : list det_op) : Detector := foldl det_step NewDetector ops.

Definition op_named (op : det_op) : Prop :=
  match op with DRegister id _ _ _ => id ≠ "" | _ => True end.

Lemma det_step_wf d op : det_wf d → op_named op → det_wf (det_step d op).
Proof.
  intros Hwf Hop. destruct op; simpl.
  - unfold det_wf. simpl. by apply map_Forall_insert_2.
  - unfold det_wf. rewrite Unregister_tasks. by apply map_Forall_delete.
  - unfold AcquireLock. destruct (d_tasks d !! taskID) as [t|] eqn:E; [|done].
    apply Hwf in E as HE. case_match; simpl; unfold det_wf; by apply map_Forall_insert_2.
  - unfold ReleaseLock. destruct (d_tasks d !! taskID) as [t|] eqn:E; [|done].
    apply Hwf in E as HE. simpl; unfold det_wf; by apply map_Forall_insert_2.
Qed.

Lemma det_run_wf ops : Forall op_named ops → det_wf (det_run ops).
Proof.
  intros Hops. unfold det_run. assert (det_wf NewDetector) as H by apply map_Forall_empty.
  revert H. generalize NewDetector. induction Hops as [|op ops Hop _ IH]; intros d Hd; simpl; [done|].
  by apply IH, det_step_wf.
Qed.

(** C34: Resolution ends every deadlock and aborts no more than it must.  After any calls of the
    detector (with no task of the empty name), a round of resolution under any policy, during which
    nobody else calls the detector, aborts
    exactly one task of each cycle detected, one that the policy prefers to no other task of the
    cycle; every other task stays registered as it was; and afterwards no task waits, over any
    number of others, for itself. *)
Theorem ResolveDeadlocks_clears ops sh sh' sh'' policy (Hops : Forall op_named ops) :
  let d := det_run ops in
  ∃ cycles victims d', DetectDeadlocks sh sh' d = Some cycles ∧
    ResolveDeadlocks sh sh' sh'' policy d = Some (victims, d') ∧
    Forall2 (preferred policy d) cycles victims ∧
    d_tasks d' = filter (λ kt, kt.1 ∉ victims) (d_tasks d) ∧
    ∀ u, ¬ tc (waits d') u u.
Proof.
  intros d. destruct (DetectDeadlocks_spec sh sh' d) as (cycles & Hd & Hcy & Hnd & Hco).
  pose proof (resolve_loop_spec sh'' policy d cycles ∅ d (det_run_wf ops Hops)) as Hr.
  unfold ResolveDeadlocks. rewrite Hd. simpl.
  destruct (resolve_loop sh'' policy cycles ∅ d) as [victims d'].
  destruct Hr as [Hv Hw]; [|done|done|set_solver|].
  { split; [set_solver|]. symmetry. apply map_filter_id. set_solver. }
  exists cycles, victims, d'. split_and!; [done..| |].
  - destruct Hw as [_ ->]. apply map_filter_ext. intros k t _. simpl. set_solver.
  - intros u Hu. destruct (without_on_cycle _ _ _ _ u Hw Hu) as [Hu0 _]; [done|].
    apply Hco, elem_of_concat in Hu0 as (c & Huc & Hc). rewrite Forall_forall in Hcy.
    apply list_elem_of_lookup in Hc as Hi. destruct Hi as [i Hi].
    destruct (Forall2_lookup_l _ _ _ _ _ Hv Hi) as (v & Hvi & Hvc & _).
    destruct (without_on_cycle _ _ _ _ v Hw Hu) as [_ Hnot].
    { apply tc_rtc. by apply (cycle_of_tc _ c); [apply Hcy| |]. }
    apply Hnot. apply list_elem_of_lookup_2 in Hvi. set_solver.
Qed.

(** Two tasks that hold a lock each and wait for the other's, and one that waits for them. *)
Definition ex_ops : list det_op :=
  [DRegister "a" "w" 5 10; DRegister "b" "w" 3 20; DRegister "c" "w" 1 30;
   DAcquire "a" "l1"; DAcquire "b" "l2"; DAcquire "a" "l2"; DAcquire "b" "l1"; DAcquire "c" "l1"].

Lemma ResolveDeadlocks_clears_witness :
  (∃ cycles victims d', DetectDeadlocks shuffle_id shuffle_rev (det_run ex_ops) = Some cycles ∧
    ResolveDeadlocks shuffle_id shuffle_rev shuffle_id VictimLowestPriority (det_run ex_ops)
      = Some (victims, d') ∧
    Forall2 (preferred VictimLowestPriority (det_run ex_ops)) cycles victims ∧
    d_tasks d' = filter (λ kt, kt.1 ∉ victims) (d_tasks (det_run ex_ops)) ∧
    ∀ u, ¬ tc (waits d') u u) ∧
  fst <$> ResolveDeadlocks shuffle_id shuffle_rev shuffle_id VictimLowestPriority (det_run ex_ops)
    = Some ["b"].
Proof.
  split; [|vm_compute; reflexivity]. apply ResolveDeadlocks_clears.
  repeat (constructor; [simpl; congruence || exact I|]). constructor.
Defined.
