(* ===== verification/CircuitBreaker.v ===== *)
(** The circuit breaker: [internal/circuitbreaker/circuitbreaker.go].  Every method holds the
    breaker's lock and is one step; [now] is its reading of the clock.  Counts are Go [int]s of
    calls, kept unbounded. *)
From S2P Require Import Prelude.

Inductive State := StateClosed | StateOpen | StateHalfOpen.

#[export] Instance State_eq_dec : EqDecision State.
Proof. solve_decision. Defined.

Definition State_String (s : State) : string :=
  match s with
  | StateClosed => "closed"
  | StateOpen => "open"
  | StateHalfOpen => "half-open"
  end.

Record Breaker := MkBreaker {
  b_state : State;
  b_failureCount : Z;
  b_successCount : Z;
  b_failureThreshold : Z;
  b_successThreshold : Z;
  b_timeout : Duration;
  b_lastFailure : Time;
  b_halfOpenMax : Z;
  b_halfOpenCount : Z
}.

Definition New (failureThreshold successThreshold : Z) (timeout : Duration) : Breaker :=
  MkBreaker StateClosed 0 0 failureThreshold successThreshold timeout time_zero 1 0.

Definition timed_out (now : Time) (b : Breaker) : bool :=
  (b_timeout b <? time_sub now (b_lastFailure b))%Z.

Definition Allow (now : Time) (b : Breaker) : bool * Breaker :=
  match b_state b with
  | StateClosed => (true, b)
  | StateOpen =>
      if timed_out now b then
        (true, MkBreaker StateHalfOpen (b_failureCount b) 0 (b_failureThreshold b)
                 (b_successThreshold b) (b_timeout b) (b_lastFailure b) (b_halfOpenMax b) 0)
      else (false, b)
  | StateHalfOpen => ((b_halfOpenCount b <? b_halfOpenMax b)%Z, b)
  end.

Definition RecordSuccess (b : Breaker) : Breaker :=
  match b_state b with
  | StateClosed =>
      MkBreaker StateClosed 0 (b_successCount b) (b_failureThreshold b) (b_successThreshold b)
        (b_timeout b) (b_lastFailure b) (b_halfOpenMax b) (b_halfOpenCount b)
  | StateOpen => b
  | StateHalfOpen =>
      let n := (b_successCount b + 1)%Z in
      if (b_successThreshold b <=? n)%Z then
        MkBreaker StateClosed 0 0 (b_failureThreshold b) (b_successThreshold b)
          (b_timeout b) (b_lastFailure b) (b_halfOpenMax b) (b_halfOpenCount b)
      else
        MkBreaker StateHalfOpen (b_failureCount b) n (b_failureThreshold b)
          (b_successThreshold b) (b_timeout b) (b_lastFailure b) (b_halfOpenMax b)
          (b_halfOpenCount b)
  end.

Definition RecordFailure (now : Time) (b : Breaker) : Breaker :=
  match b_state b with
  | StateClosed =>
      let n := (b_failureCount b + 1)%Z in
      let opened := (b_failureThreshold b <=? n)%Z in
      MkBreaker (if opened then StateOpen else StateClosed) n (b_successCount b)
        (b_failureThreshold b) (b_successThreshold b) (b_timeout b)
        (if opened then now else b_lastFailure b) (b_halfOpenMax b) (b_halfOpenCount b)
  | StateOpen => b
  | StateHalfOpen =>
      MkBreaker StateOpen (b_failureCount b) 0 (b_failureThreshold b) (b_successThreshold b)
        (b_timeout b) now (b_halfOpenMax b) 0
  end.

Definition GetState (now : Time) (b : Breaker) : State :=
  if bool_decide (b_state b = StateOpen) && timed_out now b then StateHalfOpen else b_state b.

Definition Reset_ (b : Breaker) : Breaker :=
  MkBreaker StateClosed 0 0 (b_failureThreshold b) (b_successThreshold b) (b_timeout b)
    (b_lastFailure b) (b_halfOpenMax b) 0.

(** * Traces *)

Inductive call := CAllow (now : Time) | CSuccess | CFailure (now : Time) | CReset.

(** The answers of [Allow] along a sequence of calls, and the breaker after it. *)
Fixpoint trace (cs : list call) (b : Breaker) : list bool * Breaker :=
  match cs with
  | [] => ([], b)
  | CAllow now :: cs' =>
      let '(ok, b) := Allow now b in let '(oks, b) := trace cs' b in (ok :: oks, b)
  | CSuccess :: cs' => trace cs' (RecordSuccess b)
  | CFailure now :: cs' => trace cs' (RecordFailure now b)
  | CReset :: cs' => trace cs' (Reset_ b)
  end.

Definition failures (ts : list Time) (b : Breaker) : Breaker :=
  foldl (flip RecordFailure) b ts.

(** Calls other than [Reset], with every [Allow] within the timeout after [t0]. *)
Definition while_open (t0 : Time) (timeout : Duration) (c : call) : Prop :=
  match c with
  | CAllow now => (time_sub now t0 <= timeout)%Z
  | CReset => False
  | _ => True
  end.

(** Failures that do not reach the threshold are counted. *)
Lemma failures_closed ts b :
  b_state b = StateClosed →
  (b_failureCount b + Z.of_nat (length ts) < b_failureThreshold b)%Z →
  b_state (failures ts b) = StateClosed ∧
  b_failureCount (failures ts b) = (b_failureCount b + Z.of_nat (length ts))%Z ∧
  b_failureThreshold (failures ts b) = b_failureThreshold b ∧
  b_timeout (failures ts b) = b_timeout b.
Proof.
  unfold failures. revert b. induction ts as [|t ts IH]; intros b Hs Hn; simpl in *.
  { split_and!; [done|lia|done|done]. }
  assert (RecordFailure t b =
    MkBreaker StateClosed (b_failureCount b + 1) (b_successCount b) (b_failureThreshold b)
      (b_successThreshold b) (b_timeout b) (b_lastFailure b) (b_halfOpenMax b)
      (b_halfOpenCount b)) as ->.
  { unfold RecordFailure. rewrite Hs. by rewrite (proj2 (Z.leb_gt _ _)) by lia. }
  destruct (IH (MkBreaker StateClosed (b_failureCount b + 1) (b_successCount b)
                  (b_failureThreshold b) (b_successThreshold b) (b_timeout b) (b_lastFailure b)
                  (b_halfOpenMax b) (b_halfOpenCount b))) as (H1 & H2 & H3 & H4);
    simpl in *; [done|lia|].
  split_and!; [done|lia|done|done].
Qed.

Lemma open_trace cs b :
  b_state b = StateOpen → Forall (while_open (b_lastFailure b) (b_timeout b)) cs →
  Forall (λ ok, ok = false) (trace cs b).1 ∧ (trace cs b).2 = b.
Proof.
  intros Hb Hcs. induction Hcs as [|c cs Hc _ IH]; simpl; [done|].
  destruct c as [now| |now|]; simpl in *.
  - unfold Allow, timed_out. rewrite Hb, (proj2 (Z.ltb_ge _ _)) by done.
    destruct (trace cs b) as [oks b']. simpl in *. destruct IH as [H1 ->]. by split; [constructor|].
  - unfold RecordSuccess. by rewrite Hb.
  - unfold RecordFailure. by rewrite Hb.
  - done.
Qed.

(** The breaker trips at the threshold and then blocks.  A closed breaker with a positive
    threshold stays closed through consecutive failures until their count reaches the threshold,
    and is open from that failure on; then, whatever successes and failures are recorded, every
    call within the timeout after that failure is refused, and the breaker does not change. *)
Theorem breaker_trips_and_blocks (b : Breaker) (ts : list Time) (t0 : Time) (cs : list call) :
  b_state b = StateClosed →
  (b_failureCount b + Z.of_nat (length ts) + 1 = b_failureThreshold b)%Z →
  Forall (while_open t0 (b_timeout b)) cs →
  (∀ k, b_state (failures (take k ts) b) = StateClosed) ∧
  let b' := failures (ts ++ [t0]) b in
  b_state b' = StateOpen ∧ b_lastFailure b' = t0 ∧
  Forall (λ ok, ok = false) (trace cs b').1 ∧ (trace cs b').2 = b'.
Proof.
  intros Hb Hn Hcs. split.
  { intros k. apply (failures_closed (take k ts) b Hb). rewrite length_take. lia. }
  intros b'. destruct (failures_closed ts b Hb) as (H1 & H2 & H3 & H4); [lia|].
  assert (b' = RecordFailure t0 (failures ts b)) as Hb'
    by (unfold b', failures; by rewrite foldl_app).
  assert (b_state b' = StateOpen ∧ b_lastFailure b' = t0 ∧ b_timeout b' = b_timeout b)
    as (Ho & Hl & Ht).
  { rewrite Hb'. unfold RecordFailure. rewrite H1, H2, H3. simpl.
    by rewrite (proj2 (Z.leb_le _ _)) by lia. }
  split_and!; [done..| |]; apply open_trace; rewrite ?Hl, ?Ht; done.
Qed.

Lemma breaker_trips_and_blocks_witness :
  b_state (failures [10; 11; 12]%Z (New 3 1 100)) = StateOpen ∧
  (trace [CAllow 50; CSuccess; CFailure 60; CAllow 112] (failures [10; 11; 12]%Z (New 3 1 100))).1
    = [false; false].
Proof.
  split; [|vm_compute; reflexivity].
  apply (breaker_trips_and_blocks (New 3 1 100) [10; 11]%Z 12 []);
    [reflexivity|reflexivity|constructor].
Defined.

(** A half-open breaker does not limit the calls it lets through.  Its limit is one probe, but
    no method counts the calls it allows: once the timeout of an open breaker has passed, any
    number of calls is allowed until a result is recorded. *)
Theorem half_open_unlimited (b : Breaker) (now : Time) (nows : list Time) :
  b_state b = StateOpen → timed_out now b = true → b_halfOpenMax b = 1%Z →
  Forall (λ ok, ok = true) (trace (CAllow <$> now :: nows) b).1 ∧
  length (trace (CAllow <$> now :: nows) b).1 = S (length nows).
Proof.
  intros Hb Hto Hmax.
  assert (∀ h, b_state h = StateHalfOpen → b_halfOpenMax h = 1%Z → b_halfOpenCount h = 0%Z →
    trace (CAllow <$> nows) h = (replicate (length nows) true, h)) as Hh.
  { intros h H1 H2 H3. induction nows as [|t nows IH]; csimpl; [done|]. unfold Allow.
    by rewrite H1, H2, H3, IH. }
  assert (trace (CAllow <$> now :: nows) b =
    (true :: replicate (length nows) true, (Allow now b).2)) as ->.
  { csimpl. unfold Allow. rewrite Hb, Hto. by rewrite Hh. }
  simpl. rewrite length_replicate. split; [|done].
  constructor; [done|]. by apply Forall_replicate.
Qed.

Lemma half_open_unlimited_witness :
  Forall (λ ok, ok = true)
    (trace (CAllow <$> [120; 121; 122]%Z) (failures [10; 11; 12]%Z (New 3 1 100))).1.
Proof.
  apply (half_open_unlimited (failures [10; 11; 12]%Z (New 3 1 100)) 120 [121; 122]%Z);
    vm_compute; reflexivity.
Defined.
