(* ===== verification/SortSearch.v ===== *)
(** The binary search of Go's [sort] package, and that it finds the first index of a monotone
    predicate. *)
From S2P Require Import Prelude.

(** The loop of [sort.Search] on the indices from [i] to [j]; every round halves the interval. *)
Fixpoint search_loop (fuel : nat) (f : nat → bool) (i j : nat) : nat :=
  match fuel with
  | 0 => i
  | S fuel' =>
      if i <? j then
        let h := (i + j) / 2 in
        if negb (f h) then search_loop fuel' f (S h) j else search_loop fuel' f i h
      else i
  end.
Definition sort_Search (n : nat) (f : nat → bool) : nat := search_loop (S n) f 0 n.

Section search.
Context (f : nat → bool) (n : nat).
Hypothesis Hmono : ∀ i j, i <= j → j < n → f i = true → f j = true.

Lemma search_loop_spec fuel i j :
  j - i < fuel → i <= j → j <= n →
  (∀ k, k < i → f k = false) → (∀ k, j <= k → k < n → f k = true) →
  let r := search_loop fuel f i j in
  r <= n ∧ (∀ k, k < r → f k = false) ∧ (∀ k, r <= k → k < n → f k = true).
Proof using Hmono.
  revert i j. induction fuel as [|fuel IH]; intros i j Hf Hij Hjn Hlo Hhi; [lia|]. cbn [search_loop].
  destruct (Nat.ltb_spec i j) as [Hlt|Hge].
  2: { assert (i = j) as -> by lia. split_and!; auto. }
  assert (i <= (i + j) / 2 < j) as [H1 H2].
  { split; [apply Nat.div_le_lower_bound; lia|apply Nat.Div0.div_lt_upper_bound; lia]. }
  set (h := (i + j) / 2) in *. clearbody h.
  destruct (f h) eqn:E; cbn [negb]; apply IH; try lia; auto.
  - intros k Hk Hkn. destruct (decide (j <= k)); [by apply Hhi|]. by apply (Hmono h).
  - intros k Hk. apply not_true_is_false. intros Hfk.
    rewrite (Hmono k h) in E; [done|lia..|done].
Qed.

Lemma sort_Search_spec :
  let r := sort_Search n f in
  r <= n ∧ (∀ k, k < r → f k = false) ∧ (∀ k, r <= k → k < n → f k = true).
Proof using Hmono. apply search_loop_spec; lia. Qed.
End search.

(** * The owner of a hash on a ring of sorted keys *)

Section ring.
Local Open Scope Z_scope.

(** The index of the first key that is not below [h], or of the first key of all. *)
Definition ring_index (keys : list Z) (h : Z) : nat :=
  let idx := sort_Search (length keys) (λ i, h <=? default 0 (keys !! i)) in
  if (length keys <=? idx)%nat then 0%nat else idx.

(** [k] is the first of the keys from [h] on, going round after the last one. *)
Definition is_successor (keys : list Z) (h k : Z) : Prop :=
  k ∈ keys ∧
  (h <= k ∧ (∀ j, j ∈ keys → h <= j → k <= j) ∨
   (∀ j, j ∈ keys → j < h) ∧ (∀ j, j ∈ keys → k <= j)).

Lemma sorted_lookup_le l i j x y :
  StronglySorted Z.le l → l !! i = Some x → l !! j = Some y → (i <= j)%nat → x <= y.
Proof.
  intros Hs. revert i j. induction Hs as [|a l Hl IH Ha]; intros i j Hi Hj Hij; [done|].
  rewrite Forall_forall in Ha. destruct i as [|i], j as [|j]; cbn in Hi, Hj; try lia; simplify_eq; [lia| |].
  - apply Ha. by eapply list_elem_of_lookup_2.
  - apply (IH i j); [done|done|lia].
Qed.

Lemma ring_index_spec keys h :
  StronglySorted Z.le keys → keys ≠ [] → ∃ k, keys !! ring_index keys h = Some k ∧ is_successor keys h k.
Proof.
  intros Hs Hne. unfold ring_index. set (f := λ i, h <=? default 0 (keys !! i)).
  assert (∀ i k, keys !! i = Some k → f i = (h <=? k)) as Hf by (intros i k E; unfold f; by rewrite E).
  destruct (sort_Search_spec f (length keys)) as (Hle & Hlo & Hhi).
  { intros i j Hij Hj Hi. destruct (lookup_lt_is_Some_2 keys j Hj) as [y Hy].
    destruct (lookup_lt_is_Some_2 keys i) as [x Hx]; [lia|]. rewrite (Hf i x Hx) in Hi. rewrite (Hf j y Hy).
    pose proof (sorted_lookup_le keys i j x y Hs Hx Hy Hij). lia. }
  set (idx := sort_Search (length keys) f) in *. clearbody idx.
  assert (0 < length keys)%nat as Hlen by (destruct keys; [done|cbn; lia]).
  destruct (Nat.leb_spec (length keys) idx) as [Hend|Hin].
  - destruct (lookup_lt_is_Some_2 keys 0 Hlen) as [k Hk]. exists k. split; [done|].
    split; [by eapply list_elem_of_lookup_2|]. right. split; intros j [i Hi]%list_elem_of_lookup_1.
    + pose proof (lookup_lt_Some _ _ _ Hi). specialize (Hlo i ltac:(lia)). rewrite (Hf i j Hi) in Hlo. lia.
    + apply (sorted_lookup_le keys 0 i); auto with lia.
  - destruct (lookup_lt_is_Some_2 keys idx Hin) as [k Hk]. exists k. split; [done|].
    split; [by eapply list_elem_of_lookup_2|]. left. split.
    + specialize (Hhi idx (Nat.le_refl _) Hin). rewrite (Hf idx k Hk) in Hhi. lia.
    + intros j [i Hi]%list_elem_of_lookup_1 Hj. destruct (decide (idx <= i)%nat).
      * by apply (sorted_lookup_le keys idx i).
      * specialize (Hlo i ltac:(lia)). rewrite (Hf i j Hi) in Hlo. lia.
Qed.

Lemma is_successor_unique keys h k k' : is_successor keys h k → is_successor keys h k' → k = k'.
Proof.
  intros [Hk [[H1 H2]|[H1 H2]]] [Hk' [[H3 H4]|[H3 H4]]].
  - specialize (H2 k' Hk' H3). specialize (H4 k Hk H1). lia.
  - specialize (H3 k Hk). lia.
  - specialize (H1 k' Hk'). lia.
  - specialize (H2 k' Hk'). specialize (H4 k Hk). lia.
Qed.

(** Taking keys away does not change the owner of a hash, unless its own key is taken. *)
Lemma is_successor_subset keys keys' h k :
  (∀ j, j ∈ keys' → j ∈ keys) → k ∈ keys' → is_successor keys h k → is_successor keys' h k.
Proof. intros Hsub Hk [_ [[H1 H2]|[H1 H2]]]; (split; [done|]); [left|right]; auto. Qed.
End ring.
