(* ===== verification/Compactor.v ===== *)
(** The log-structured key-value store: [internal/compactor/compactor.go].

    Every method holds the store's lock and is one step.  [sh] is the order in which a loop
    visits a map, [now] and [tableID] are the time and its printed form, which names a table. *)
From S2P Require Import Prelude Errors SortSearch.

Abbreviation SStoreClosed := (SOther "compactor: store closed").

Record Entry := MkEntry {
  e_Key : string;
  e_Value : list Byte.byte;
  e_Seq : Z;
  e_IsTombstone : bool;
  e_Timestamp : Time
}.

Record SnapshotTable := MkTable {
  sn_ID : string;
  sn_MinKey : string;
  sn_MaxKey : string;
  sn_Entries : list Entry
}.

Definition NewSnapshotTable (id : string) (entries : list Entry) : SnapshotTable :=
  match head entries, last entries with
  | Some e0, Some en => MkTable id (e_Key e0) (e_Key en) entries
  | _, _ => MkTable id "" "" []
  end.

(** [Entries[i].Key >= key]; the search only looks at indices in range. *)
Definition key_from (entries : list Entry) (key : string) (i : nat) : bool :=
  match entries !! i with
  | Some e => negb (string_ltb (e_Key e) key)
  | None => true
  end.

Definition table_Get (key : string) (t : SnapshotTable) : option Entry :=
  if (length (sn_Entries t) =? 0) || string_ltb key (sn_MinKey t) || string_ltb (sn_MaxKey t) key
  then None
  else
    let idx := sort_Search (length (sn_Entries t)) (key_from (sn_Entries t) key) in
    match sn_Entries t !! idx with
    | Some e => if bool_decide (e_Key e = key) then Some e else None
    | None => None
    end.

Record Store := MkStore {
  st_seqCounter : Z;
  st_flushThresh : Z;
  st_memTable : gmap string Entry;
  st_snapshots : list SnapshotTable;
  st_closed : bool
}.

Definition DefaultThreshold : Z := 50.

Definition New (threshold : Z) : Store :=
  MkStore 0 (if (threshold <=? 0)%Z then DefaultThreshold else threshold) ∅ [] false.

Definition entry_less (a b : Entry) : bool := string_ltb (e_Key a) (e_Key b).

Definition flushLocked (sh : shuffle) (tableID : string) (s : Store) : Store :=
  if (size (st_memTable s) =? 0)%nat then s
  else
    let entries := sort_slice entry_less (range_values sh (st_memTable s)) in
    MkStore (st_seqCounter s) (st_flushThresh s) ∅
      (st_snapshots s ++ [NewSnapshotTable tableID entries]) (st_closed s).

(** The common part of [Put] and [Delete]: the next number, the entry, and the flush. *)
Definition write (sh : shuffle) (now : Time) (tableID key : string) (value : list Byte.byte)
    (tombstone : bool) (s : Store) : result error Z * Store :=
  if st_closed s then (Err (ESentinel SStoreClosed), s)
  else
    let seq := wrap_u 64 (st_seqCounter s + 1) in
    let s := MkStore seq (st_flushThresh s)
               (<[key := MkEntry key value seq tombstone now]> (st_memTable s))
               (st_snapshots s) (st_closed s) in
    (Ok seq, if (st_flushThresh s <=? Z.of_nat (size (st_memTable s)))%Z
             then flushLocked sh tableID s else s).

Definition Put (sh : shuffle) (now : Time) (tableID key : string) (val : list Byte.byte)
    (s : Store) : result error Z * Store :=
  write sh now tableID key val false s.

Definition Delete (sh : shuffle) (now : Time) (tableID key : string) (s : Store) :
    result error Z * Store :=
  write sh now tableID key [] true s.

Definition Flush (sh : shuffle) (tableID : string) (s : Store) : option error * Store :=
  if st_closed s then (Some (ESentinel SStoreClosed), s) else (None, flushLocked sh tableID s).

(** What a found entry answers. *)
Definition live (e : Entry) : option (list Byte.byte) :=
  if e_IsTombstone e then None else Some (e_Value e).

(** The loop over the tables, given from the newest to the oldest. *)
Fixpoint get_loop (key : string) (snaps : list SnapshotTable) : option (list Byte.byte) :=
  match snaps with
  | [] => None
  | snap :: snaps' =>
      match table_Get key snap with
      | Some e => live e
      | None => get_loop key snaps'
      end
  end.

Definition Get (key : string) (s : Store) : result error (option (list Byte.byte)) :=
  if st_closed s then Err (ESentinel SStoreClosed)
  else
    match st_memTable s !! key with
    | Some e => Ok (live e)
    | None => Ok (get_loop key (reverse (st_snapshots s)))
    end.

(** The two loops that keep the newest entry of each key. *)
Definition keep_latest (m : gmap string Entry) (e : Entry) : gmap string Entry :=
  match m !! e_Key e with
  | Some existing => if (e_Seq existing <? e_Seq e)%Z then <[e_Key e := e]> m else m
  | None => <[e_Key e := e]> m
  end.
Definition latest_map (snaps : list SnapshotTable) : gmap string Entry :=
  foldl (λ m snap, foldl keep_latest m (sn_Entries snap)) ∅ snaps.

Definition is_live (e : Entry) : Prop := e_IsTombstone e = false.
#[export] Instance is_live_dec e : Decision (is_live e).
Proof. unfold is_live. apply _. Defined.

Definition Compact (sh sh' : shuffle) (tableID : string) (s : Store) : option error * Store :=
  if st_closed s then (Some (ESentinel SStoreClosed), s)
  else
    let s := flushLocked sh tableID s in
    let with_snapshots snaps :=
      MkStore (st_seqCounter s) (st_flushThresh s) (st_memTable s) snaps (st_closed s) in
    match st_snapshots s with
    | [] => (None, s)
    | [snap] =>
        (None, with_snapshots [NewSnapshotTable "compacted" (filter is_live (sn_Entries snap))])
    | snaps =>
        let entries :=
          sort_slice entry_less (filter is_live (range_values sh' (latest_map snaps))) in
        (None, with_snapshots [NewSnapshotTable "compacted" entries])
    end.

(** The map [seen] of [Stats]. *)
Definition see (m : gmap string bool) (e : Entry) : gmap string bool :=
  match m !! e_Key e with
  | Some _ => m
  | None => <[e_Key e := negb (e_IsTombstone e)]> m
  end.
Definition seen (s : Store) : gmap string bool :=
  foldl (λ m snap, foldl see m (sn_Entries snap))
    ((λ e, negb (e_IsTombstone e)) <$> st_memTable s) (reverse (st_snapshots s)).

Definition Stats (s : Store) : nat * nat :=
  (size (filter (λ kb, kb.2 = true) (seen s)), length (st_snapshots s)).

Definition Close (s : Store) : Store :=
  MkStore (st_seqCounter s) (st_flushThresh s) (st_memTable s) (st_snapshots s) true.

(** * Theorems

    The log-structured store of [internal/compactor/compactor.go] is a map.

    Tables, tombstones, flushes and compactions are invisible: on any sequence of operations
    the store answers what a plain finite map answers. *)

(** * Tables as maps *)

Definition entry_lt (a b : Entry) : Prop := entry_less a b = true.
Definition entries_map (es : list Entry) : gmap string Entry :=
  list_to_map ((λ e, (e_Key e, e)) <$> es).

(** A table as the store builds them: its entries strictly increase in their keys. *)
Definition table_ok (t : SnapshotTable) : Prop :=
  t = NewSnapshotTable (sn_ID t) (sn_Entries t) ∧ StronglySorted entry_lt (sn_Entries t).
Definition table_map (t : SnapshotTable) : gmap string Entry := entries_map (sn_Entries t).

#[local] Instance entry_lt_trans : Transitive entry_lt.
Proof. intros a b c. apply string_ltb_trans. Qed.

Lemma sorted_NoDup_keys es : StronglySorted entry_lt es → NoDup (e_Key <$> es).
Proof.
  induction 1 as [|e es Hs IH Hall]; csimpl; [constructor|]. constructor; [|done].
  intros (e' & E & He')%list_elem_of_fmap. rewrite Forall_forall in Hall.
  specialize (Hall e' He'). unfold entry_lt, entry_less in Hall.
  by rewrite E, string_ltb_irrefl in Hall.
Qed.

Lemma entries_map_lookup es k e :
  NoDup (e_Key <$> es) → entries_map es !! k = Some e ↔ e ∈ es ∧ e_Key e = k.
Proof.
  intros Hnd. unfold entries_map. rewrite <- elem_of_list_to_map.
  - rewrite list_elem_of_fmap. naive_solver.
  - by rewrite <- list_fmap_compose.
Qed.

Lemma entries_map_cons e es : entries_map (e :: es) = <[e_Key e := e]> (entries_map es).
Proof. done. Qed.

Lemma sort_entries_sorted es :
  NoDup (e_Key <$> es) → StronglySorted entry_lt (sort_slice entry_less es).
Proof.
  intros Hnd.
  assert (NoDup (e_Key <$> sort_slice entry_less es)) as Hnd'
    by (by rewrite (sort_slice_perm entry_less es)).
  assert (Sorted (not_after entry_less) (sort_slice entry_less es)) as Hs.
  { apply sort_slice_sorted. intros a b. apply string_ltb_asym. }
  apply Sorted_StronglySorted; [apply _|].
  revert Hs Hnd'. generalize (sort_slice entry_less es). clear.
  induction 1 as [|e es Hs IH Hhd]; csimpl; [constructor|].
  rewrite NoDup_cons. intros [Hni Hnd]. constructor; [by apply IH|].
  destruct Hhd as [|b es Hab]; constructor. unfold entry_lt, entry_less, not_after in *.
  apply not_false_is_true. intros Hba. apply Hni. csimpl.
  rewrite (string_ltb_total _ _ Hba Hab). apply list_elem_of_here.
Qed.

Lemma NewSnapshotTable_entries id es : sn_Entries (NewSnapshotTable id es) = es.
Proof.
  unfold NewSnapshotTable. destruct es as [|e es]; [done|].
  simpl head. destruct (last (e :: es)) eqn:E; [done|]. by apply last_None in E.
Qed.

Lemma NewSnapshotTable_ok id es :
  StronglySorted entry_lt es → table_ok (NewSnapshotTable id es).
Proof.
  intros Hs. split; [|by rewrite NewSnapshotTable_entries].
  rewrite NewSnapshotTable_entries. f_equal. unfold NewSnapshotTable.
  by destruct (head es), (last es).
Qed.

Lemma sorted_head_le e es x :
  StronglySorted entry_lt (e :: es) → x ∈ e :: es → string_ltb (e_Key x) (e_Key e) = false.
Proof.
  intros [_ Hall]%StronglySorted_inv. rewrite elem_of_cons. intros [->|Hx].
  - apply string_ltb_irrefl.
  - rewrite Forall_forall in Hall. by apply string_ltb_asym, Hall.
Qed.

Lemma sorted_lookup_lt es i j a b :
  StronglySorted entry_lt es → es !! i = Some a → es !! j = Some b → i < j → entry_lt a b.
Proof.
  intros Hs. revert i j. induction Hs as [|e es Hs IH Hall]; intros [|i] [|j] Ha Hb Hij;
    simplify_eq/=; try lia.
  - rewrite Forall_forall in Hall. apply Hall. by eapply list_elem_of_lookup_2.
  - apply (IH i j); auto with lia.
Qed.

Lemma sorted_last_le es e x :
  StronglySorted entry_lt es → last es = Some e → x ∈ es → string_ltb (e_Key e) (e_Key x) = false.
Proof.
  rewrite last_lookup. intros Hs He [i Hi]%list_elem_of_lookup.
  pose proof (lookup_lt_Some _ _ _ Hi) as Hlt.
  destruct (decide (i = pred (length es))) as [->|Hne].
  - simplify_eq. apply string_ltb_irrefl.
  - apply string_ltb_asym. eapply sorted_lookup_lt; [done..|]. lia.
Qed.

(** The range test of a lookup rejects no key of the table. *)
Lemma table_range t e :
  table_ok t → e ∈ sn_Entries t →
  (length (sn_Entries t) =? 0) || string_ltb (e_Key e) (sn_MinKey t)
    || string_ltb (sn_MaxKey t) (e_Key e) = false.
Proof.
  intros [-> Hs]. rewrite NewSnapshotTable_entries in *. revert Hs.
  generalize (sn_ID t) (sn_Entries t). intros id es Hs He. unfold NewSnapshotTable.
  destruct es as [|e0 es]; [by apply elem_of_nil in He|]. change (head (e0 :: es)) with (Some e0).
  destruct (last (e0 :: es)) as [en|] eqn:El; [|by apply last_None in El].
  cbn [sn_MinKey sn_MaxKey sn_Entries length Nat.eqb orb].
  by rewrite (sorted_head_le e0 es e), (sorted_last_le (e0 :: es) en e).
Qed.

Lemma key_from_mono es key i j :
  StronglySorted entry_lt es → i <= j → j < length es →
  key_from es key i = true → key_from es key j = true.
Proof.
  intros Hs Hij Hj. unfold key_from.
  destruct (lookup_lt_is_Some_2 es j Hj) as [b Hb].
  destruct (lookup_lt_is_Some_2 es i) as [a Ha]; [lia|]. rewrite Ha, Hb.
  rewrite !negb_true_iff. intros Hak. destruct (decide (i = j)) as [->|Hne]; [congruence|].
  assert (entry_lt a b) as Hab by (eapply sorted_lookup_lt; [done..|]; lia).
  apply not_true_is_false. intros Hbk. unfold entry_lt, entry_less in Hab.
  by rewrite (string_ltb_trans _ _ _ Hab Hbk) in Hak.
Qed.

(** A lookup in a table, with its range test and binary search, is a map lookup. *)
Lemma table_Get_map key t : table_ok t → table_Get key t = table_map t !! key.
Proof.
  intros Hok. pose proof Hok as [_ Hs].
  pose proof (sorted_NoDup_keys _ Hs) as Hnd.
  assert (∀ e, table_Get key t = Some e → e ∈ sn_Entries t ∧ e_Key e = key) as Hsound.
  { unfold table_Get. intros e. repeat case_match; intros; simplify_eq.
    split; [by eapply list_elem_of_lookup_2|by eapply bool_decide_eq_true_1]. }
  apply option_eq. intros e. unfold table_map. rewrite entries_map_lookup by done.
  split; [apply Hsound|]. intros [He <-].
  unfold table_Get. rewrite table_range by done.
  destruct (sort_Search_spec (key_from (sn_Entries t) (e_Key e)) (length (sn_Entries t)))
    as (Hr & Hlo & Hhi); [intros; by eapply key_from_mono|].
  set (r := sort_Search _ _) in *. clearbody r.
  apply list_elem_of_lookup in He as [i Hi].
  destruct (decide (i < r)) as [Hlt|Hge].
  { specialize (Hlo i Hlt). unfold key_from in Hlo.
    by rewrite Hi, string_ltb_irrefl in Hlo. }
  pose proof (lookup_lt_Some _ _ _ Hi) as Hlen.
  destruct (decide (i = r)) as [<-|Hne]; [by rewrite Hi, bool_decide_eq_true_2|].
  destruct (lookup_lt_is_Some_2 (sn_Entries t) r) as [b Hb]; [lia|].
  specialize (Hhi r (le_n r)). unfold key_from in Hhi. rewrite Hb, negb_true_iff in Hhi.
  assert (entry_lt b e) as Hbe by (eapply sorted_lookup_lt; [done..|]; lia).
  unfold entry_lt, entry_less in Hbe. rewrite Hhi in Hbe; [done|lia].
Qed.

(** * The store as a map of its newest entries *)

Definition tables_map (ts : list SnapshotTable) : gmap string Entry :=
  foldl (λ m t, table_map t ∪ m) ∅ ts.
Definition view (s : Store) : gmap string Entry := st_memTable s ∪ tables_map (st_snapshots s).
(** The plain map the store stands for. *)
Definition content (s : Store) : gmap string (list Byte.byte) := omap live (view s).

Lemma tables_map_app ts t : tables_map (ts ++ [t]) = table_map t ∪ tables_map ts.
Proof. unfold tables_map. by rewrite foldl_app. Qed.

Lemma get_loop_map key ts :
  Forall table_ok ts → get_loop key (reverse ts) = tables_map ts !! key ≫= live.
Proof.
  induction ts as [|t ts IH] using rev_ind; [done|].
  rewrite Forall_app, Forall_singleton. intros [Hts Ht].
  rewrite reverse_snoc, tables_map_app. cbn [get_loop].
  rewrite (table_Get_map _ _ Ht), lookup_union, IH by done.
  by destruct (table_map t !! key), (tables_map ts !! key).
Qed.

(** * The invariant *)

Definition older (t1 t2 : SnapshotTable) : Prop :=
  ∀ e1 e2, e1 ∈ sn_Entries t1 → e2 ∈ sn_Entries t2 → (e_Seq e1 < e_Seq e2)%Z.

(** Tables are sorted; entries sit under their key; sequence numbers grow from the older
    tables to the newer ones, up to [b], and then in the memory table up to the counter. *)
Record store_inv (s : Store) : Prop := {
  inv_tables : Forall table_ok (st_snapshots s);
  inv_keyed : map_Forall (λ k e, e_Key e = k) (st_memTable s);
  inv_older : StronglySorted older (st_snapshots s);
  inv_split : ∃ b, (∀ t e, t ∈ st_snapshots s → e ∈ sn_Entries t → (e_Seq e <= b)%Z) ∧
    map_Forall (λ _ e, (b < e_Seq e <= st_seqCounter s)%Z) (st_memTable s) ∧
    (0 <= b <= st_seqCounter s)%Z
}.

Lemma keyed_values sh (m : gmap string Entry) :
  map_Forall (λ k e, e_Key e = k) m →
  (λ e, (e_Key e, e)) <$> range_values sh m = range_map sh m.
Proof.
  intros Hk. unfold range_values. rewrite <- list_fmap_compose.
  rewrite <- (list_fmap_id (range_map sh m)) at 2.
  apply list_fmap_ext. intros i [k e] Hi. simpl.
  assert (m !! k = Some e) as Hm
    by (eapply elem_of_range_map, list_elem_of_lookup_2; exact Hi).
  by rewrite (Hk _ _ Hm).
Qed.

Lemma keyed_NoDup sh (m : gmap string Entry) :
  map_Forall (λ k e, e_Key e = k) m → NoDup (e_Key <$> range_values sh m).
Proof.
  intros Hk. pose proof (NoDup_range_map_fst sh m) as Hnd.
  rewrite <- (keyed_values sh m Hk), <- list_fmap_compose in Hnd. exact Hnd.
Qed.

(** The entries of a map, in any order. *)
Lemma entries_map_values sh (m : gmap string Entry) :
  map_Forall (λ k e, e_Key e = k) m → entries_map (range_values sh m) = m.
Proof.
  intros Hk. unfold entries_map. rewrite (keyed_values sh m Hk).
  rewrite (list_to_map_proper _ _ (NoDup_range_map_fst sh m) (range_map_perm sh m)).
  apply list_to_map_to_list.
Qed.

Lemma entries_map_perm es es' :
  NoDup (e_Key <$> es) → es ≡ₚ es' → entries_map es = entries_map es'.
Proof.
  intros Hnd Hp. apply list_to_map_proper; [by rewrite <- list_fmap_compose|by rewrite Hp].
Qed.

(** * The operations *)

Lemma flushLocked_spec sh id s :
  store_inv s →
  let s' := flushLocked sh id s in
  store_inv s' ∧ view s' = view s ∧ st_memTable s' = ∅ ∧
  st_seqCounter s' = st_seqCounter s ∧ st_closed s' = st_closed s.
Proof.
  intros [Ht Hk Ho (b & Hb & Hm & Hb0)]. unfold flushLocked.
  destruct (Nat.eqb_spec (size (st_memTable s)) 0) as [E|_]; simpl.
  { apply map_size_empty_iff in E. split_and!; try done. by split; [..|exists b]. }
  pose proof (sort_entries_sorted _ (keyed_NoDup sh _ Hk)) as Hs.
  set (es := sort_slice _ _) in *.
  assert (∀ e, e ∈ es → (b < e_Seq e <= st_seqCounter s)%Z) as Hes.
  { intros e. unfold es. rewrite (sort_slice_perm entry_less).
    intros [k Hke]%elem_of_range_values. by apply (Hm k). }
  split_and!; try done; [split; simpl|].
  - rewrite Forall_app, Forall_singleton. split; [done|by apply NewSnapshotTable_ok].
  - apply map_Forall_empty.
  - apply StronglySorted_app_2; [|done|by repeat constructor].
    intros t1 t2 Ht1 ->%list_elem_of_singleton e1 e2 He1.
    rewrite NewSnapshotTable_entries. intros He2.
    specialize (Hb _ _ Ht1 He1). specialize (Hes _ He2). lia.
  - exists (st_seqCounter s). split_and!; [|apply map_Forall_empty|lia|lia].
    intros t e. rewrite elem_of_app, list_elem_of_singleton. intros [Hin| ->] He.
    + specialize (Hb _ _ Hin He). lia.
    + rewrite NewSnapshotTable_entries in He. apply Hes in He. lia.
  - unfold view. simpl. rewrite (left_id_L ∅ (∪)), tables_map_app. f_equal.
    unfold table_map. rewrite NewSnapshotTable_entries.
    transitivity (entries_map (range_values sh (st_memTable s)));
      [|by apply entries_map_values].
    apply entries_map_perm; [|apply sort_slice_perm]. unfold es.
    rewrite (sort_slice_perm entry_less). by apply keyed_NoDup.
Qed.

Lemma write_spec sh now id key value tomb s :
  store_inv s → st_closed s = false → (st_seqCounter s + 1 < 2 ^ 64)%Z →
  let seq := (st_seqCounter s + 1)%Z in
  let '(r, s') := write sh now id key value tomb s in
  r = Ok seq ∧ store_inv s' ∧ st_closed s' = false ∧ st_seqCounter s' = seq ∧
  view s' = <[key := MkEntry key value seq tomb now]> (view s).
Proof.
  intros [Ht Hk Ho (b & Hb & Hm & Hb0)] Hc Hlt. unfold write. rewrite Hc.
  rewrite wrap_u_small by lia. set (s1 := MkStore _ _ _ _ _).
  assert (store_inv s1) as Hinv.
  { split; [done| |done|exists b; split_and!; [done| |simpl; lia..]].
    - by apply map_Forall_insert_2.
    - apply map_Forall_insert_2; simpl; [lia|]. eapply map_Forall_impl; [exact Hm|].
      simpl. lia. }
  assert (view s1 = <[key := MkEntry key value (st_seqCounter s + 1) tomb now]> (view s)) as Hv
    by (unfold view; simpl; by rewrite insert_union_l).
  destruct (_ <=? _)%Z; [|done].
  destruct (flushLocked_spec sh id s1 Hinv) as (? & E & ? & ? & ?).
  rewrite E. done.
Qed.

(** The newest entry of each key, table after table. *)
Lemma keep_latest_map m es :
  NoDup (e_Key <$> es) →
  (∀ e e', e ∈ es → m !! e_Key e = Some e' → (e_Seq e' < e_Seq e)%Z) →
  foldl keep_latest m es = entries_map es ∪ m.
Proof.
  revert m. induction es as [|e es IH]; csimpl; intros m.
  { intros _ _. symmetry. apply (left_id_L ∅ (∪)). }
  rewrite NoDup_cons. intros [Hni Hnd] Hm.
  assert (keep_latest m e = <[e_Key e := e]> m) as ->.
  { unfold keep_latest. destruct (m !! e_Key e) as [e'|] eqn:E; [|done].
    by rewrite (proj2 (Z.ltb_lt _ _) (Hm e e' (list_elem_of_here _ _) E)). }
  rewrite IH; [|done|].
  - rewrite entries_map_cons, <- insert_union_r; [by rewrite insert_union_l|].
    apply eq_None_not_Some. intros [e' [He' E]%entries_map_lookup]; [|done].
    apply Hni. rewrite <- E. by apply list_elem_of_fmap_2.
  - intros e1 e2 He1. rewrite lookup_insert_ne.
    + apply Hm. by apply list_elem_of_further.
    + intros E. apply Hni. rewrite E. by apply list_elem_of_fmap_2.
Qed.

Lemma latest_map_tables ts :
  Forall table_ok ts → StronglySorted older ts → latest_map ts = tables_map ts.
Proof.
  intros Hts Ho. unfold latest_map, tables_map.
  assert (∀ t k e', t ∈ ts → (∅ : gmap string Entry) !! k = Some e' →
    ∀ e, e ∈ sn_Entries t → (e_Seq e' < e_Seq e)%Z) as H0 by done.
  revert H0. generalize (∅ : gmap string Entry).
  induction Ho as [|t ts Ho IH Hall]; intros m Hm; [done|]. simpl.
  apply Forall_cons in Hts as [[_ Ht] Hts]. rewrite keep_latest_map.
  - apply IH; [done|]. intros t' k e' Ht' [He'|[_ He']]%lookup_union_Some_raw e He.
    + apply entries_map_lookup in He' as [He' _]; [|by apply sorted_NoDup_keys].
      rewrite Forall_forall in Hall. by apply (Hall t').
    + eapply (Hm t'); [by apply list_elem_of_further|done..].
  - by apply sorted_NoDup_keys.
  - intros e e' He Hk. by eapply Hm; [apply list_elem_of_here|..].
Qed.

Lemma live_filter (m : gmap string Entry) :
  omap live (filter (λ ke, is_live ke.2) m) = omap live m.
Proof.
  apply map_eq. intros k. rewrite !lookup_omap, map_lookup_filter.
  destruct (m !! k) as [e|]; [simpl|done]. case_guard as Hl; simpl; [done|].
  unfold is_live, live in *. by destruct (e_IsTombstone e).
Qed.

Lemma entries_map_filter es :
  NoDup (e_Key <$> es) →
  entries_map (filter is_live es) = filter (λ ke, is_live ke.2) (entries_map es).
Proof.
  intros Hnd. apply map_eq. intros k. apply option_eq. intros e.
  rewrite map_lookup_filter_Some, !entries_map_lookup, list_elem_of_filter; [naive_solver|done|].
  eapply sublist_NoDup; [exact Hnd|]. apply fmap_sublist, sublist_filter.
Qed.

Lemma StronglySorted_filter {A} (R : relation A) (P : A → Prop) `{∀ x, Decision (P x)} l :
  StronglySorted R l → StronglySorted R (filter P l).
Proof.
  induction 1 as [|x l Hs IH Hall]; [constructor|].
  rewrite filter_cons. case_decide; [|done]. constructor; [done|].
  rewrite Forall_forall in *. intros y [_ Hy]%list_elem_of_filter. by apply Hall.
Qed.

Lemma tables_map_Some ts k e :
  Forall table_ok ts → tables_map ts !! k = Some e →
  e_Key e = k ∧ ∃ t, t ∈ ts ∧ e ∈ sn_Entries t.
Proof.
  induction ts as [|t ts IH] using rev_ind; [done|].
  rewrite Forall_app, Forall_singleton, tables_map_app. intros [Hts [_ Hs]].
  intros [He|[_ He]]%lookup_union_Some_raw.
  - apply entries_map_lookup in He as [He Hk]; [|by apply sorted_NoDup_keys].
    split; [done|]. exists t. split; [by apply elem_of_mid|done].
  - destruct (IH Hts He) as (Hk & t' & Ht' & He'). split; [done|]. exists t'.
    split; [|done]. apply elem_of_app. by left.
Qed.

(** One table of the live entries stands for all the tables. *)
Lemma compacted_spec s es :
  store_inv s → st_memTable s = ∅ → StronglySorted entry_lt es →
  entries_map es = filter (λ ke, is_live ke.2) (tables_map (st_snapshots s)) →
  let s' := MkStore (st_seqCounter s) (st_flushThresh s) (st_memTable s)
              [NewSnapshotTable "compacted" es] (st_closed s) in
  store_inv s' ∧ content s' = content s.
Proof.
  intros [Ht Hk Ho (b & Hb & Hm & Hb0)] Hmem Hs Hes. split.
  - split; simpl; [by apply Forall_singleton, NewSnapshotTable_ok|done|by repeat constructor|].
    exists b. split_and!; [|done|lia|lia]. intros t e ->%list_elem_of_singleton.
    rewrite NewSnapshotTable_entries. intros He.
    assert (entries_map es !! e_Key e = Some e) as Hl
      by (apply entries_map_lookup; [by apply sorted_NoDup_keys|done]).
    rewrite Hes in Hl. apply map_lookup_filter_Some in Hl as [Hl _].
    apply tables_map_Some in Hl as (_ & t & Ht' & He'); [|done]. by apply (Hb t).
  - unfold content, view. simpl. rewrite Hmem, !(left_id_L ∅ (∪)).
    unfold tables_map at 1, table_map. simpl. rewrite NewSnapshotTable_entries, Hes.
    rewrite (right_id_L ∅ (∪)). apply live_filter.
Qed.

(** Compacting does not change what the store stands for. *)
Lemma Compact_spec sh sh' id s :
  store_inv s → st_closed s = false →
  let '(r, s') := Compact sh sh' id s in
  r = None ∧ store_inv s' ∧ st_closed s' = false ∧ st_seqCounter s' = st_seqCounter s ∧
  content s' = content s.
Proof.
  intros Hinv Hc. unfold Compact. rewrite Hc.
  destruct (flushLocked_spec sh id s Hinv) as (Hinv1 & Hv & Hm & <- & Hc1).
  set (s1 := flushLocked sh id s) in *. rewrite Hc in Hc1.
  assert (content s = content s1) as -> by (unfold content; by rewrite Hv).
  destruct (st_snapshots s1) as [|t [|t' ts]] eqn:E; [done| |].
  - pose proof (inv_tables _ Hinv1) as Hts. rewrite E, Forall_singleton in Hts.
    destruct Hts as [_ Hs].
    destruct (compacted_spec s1 (filter is_live (sn_Entries t)) Hinv1 Hm); [| |done].
    + by apply StronglySorted_filter.
    + rewrite E, entries_map_filter by (by apply sorted_NoDup_keys).
      unfold tables_map. simpl. by rewrite (right_id_L ∅ (∪)).
  - rewrite <- E, latest_map_tables by apply Hinv1.
    assert (map_Forall (λ k e, e_Key e = k) (tables_map (st_snapshots s1))) as Hk.
    { intros k e He. eapply tables_map_Some in He as [? _]; [done|apply Hinv1]. }
    pose proof (keyed_NoDup sh' _ Hk) as Hnd.
    assert (NoDup (e_Key <$> filter is_live (range_values sh' (tables_map (st_snapshots s1)))))
      as Hnd' by (eapply sublist_NoDup; [exact Hnd|]; apply fmap_sublist, sublist_filter).
    eapply compacted_spec in Hinv1 as [??]; [split_and!; done|done| |].
    + by apply sort_entries_sorted.
    + erewrite entries_map_perm; [|by rewrite sort_slice_perm|apply sort_slice_perm].
      by rewrite entries_map_filter, entries_map_values.
Qed.

(** * Statistics *)

Definition flag (e : Entry) : bool := negb (e_IsTombstone e).

Lemma see_map m es :
  NoDup (e_Key <$> es) → foldl see m es = m ∪ (flag <$> entries_map es).
Proof.
  revert m. induction es as [|e es IH]; csimpl; intros m.
  { intros _. unfold entries_map. simpl. by rewrite fmap_empty, (right_id_L ∅ (∪)). }
  rewrite NoDup_cons. intros [Hni Hnd]. rewrite IH by done. rewrite entries_map_cons, fmap_insert.
  unfold see. destruct (m !! e_Key e) eqn:E.
  - apply map_eq. intros k. rewrite !lookup_union. destruct (decide (e_Key e = k)) as [<-|Hne].
    + rewrite E. by repeat destruct (_ !! _).
    + by rewrite lookup_insert_ne.
  - by rewrite <- insert_union_r, insert_union_l.
Qed.

Lemma seen_tables m ts :
  Forall table_ok ts →
  foldl (λ m t, foldl see m (sn_Entries t)) m (reverse ts) = m ∪ (flag <$> tables_map ts).
Proof.
  revert m. induction ts as [|t ts IH] using rev_ind; intros m.
  { intros _. unfold tables_map. simpl. by rewrite fmap_empty, (right_id_L ∅ (∪)). }
  rewrite Forall_app, Forall_singleton. intros [Hts [_ Ht]].
  rewrite reverse_snoc, tables_map_app. simpl. rewrite IH, see_map by (done || by apply sorted_NoDup_keys).
  by rewrite map_fmap_union, (assoc_L (∪)).
Qed.

Lemma Stats_spec s : store_inv s → (Stats s).1 = size (content s).
Proof.
  intros Hinv. unfold Stats, seen. simpl. rewrite seen_tables by apply Hinv.
  change (λ e, negb (e_IsTombstone e)) with flag. rewrite <- map_fmap_union.
  change (st_memTable s ∪ tables_map (st_snapshots s)) with (view s). unfold content.
  rewrite <- !size_dom. f_equal. apply set_eq. intros k. rewrite !elem_of_dom.
  unfold is_Some. setoid_rewrite map_lookup_filter_Some. setoid_rewrite lookup_fmap_Some.
  setoid_rewrite lookup_omap_Some. unfold flag, live. split.
  - intros (x & (e & Hx & He) & Hb). simpl in Hb. destruct (e_IsTombstone e) eqn:E; [by simplify_eq|].
    exists (e_Value e), e. by rewrite E.
  - intros (v & e & Hl & He). destruct (e_IsTombstone e) eqn:E; [done|].
    exists true. split; [exists e; by rewrite E|done].
Qed.

(** * Refinement *)

Inductive op :=
  | OPut (sh : shuffle) (now : Time) (tableID key : string) (val : list Byte.byte)
  | ODelete (sh : shuffle) (now : Time) (tableID key : string)
  | OFlush (sh : shuffle) (tableID : string)
  | OCompact (sh sh' : shuffle) (tableID : string)
  | OGet (key : string)
  | OStats.

Inductive answer :=
  | ASeq (r : result error Z)
  | AErr (e : option error)
  | AValue (r : result error (option (list Byte.byte)))
  | ACount (n : nat).

Definition store_step (o : op) (s : Store) : answer * Store :=
  match o with
  | OPut sh now id k v => let '(r, s') := Put sh now id k v s in (ASeq r, s')
  | ODelete sh now id k => let '(r, s') := Delete sh now id k s in (ASeq r, s')
  | OFlush sh id => let '(r, s') := Flush sh id s in (AErr r, s')
  | OCompact sh sh' id => let '(r, s') := Compact sh sh' id s in (AErr r, s')
  | OGet k => (AValue (Get k s), s)
  | OStats => (ACount (Stats s).1, s)
  end.

(** The specification: the number of writes so far, and a plain map. *)
Definition map_step (o : op) (a : Z * gmap string (list Byte.byte)) :
    answer * (Z * gmap string (list Byte.byte)) :=
  let '(n, m) := a in
  match o with
  | OPut _ _ _ k v => (ASeq (Ok (n + 1)%Z), ((n + 1)%Z, <[k := v]> m))
  | ODelete _ _ _ k => (ASeq (Ok (n + 1)%Z), ((n + 1)%Z, delete k m))
  | OFlush _ _ | OCompact _ _ _ => (AErr None, a)
  | OGet k => (AValue (Ok (m !! k)), a)
  | OStats => (ACount (size m), a)
  end.

Fixpoint answers {S} (step : op → S → answer * S) (ops : list op) (s : S) : list answer :=
  match ops with
  | [] => []
  | o :: ops' => let '(r, s') := step o s in r :: answers step ops' s'
  end.

Definition represents (s : Store) (a : Z * gmap string (list Byte.byte)) : Prop :=
  store_inv s ∧ st_closed s = false ∧ a = (st_seqCounter s, content s).

Lemma content_write s s' key e :
  view s' = <[key := e]> (view s) →
  content s' = match live e with Some v => <[key := v]> (content s) | None => delete key (content s) end.
Proof.
  unfold content. intros ->. destruct (live e) eqn:E.
  - by apply omap_insert_Some.
  - by apply omap_insert_None.
Qed.

Lemma store_step_simulation o s a :
  represents s a → (st_seqCounter s + 1 < 2 ^ 64)%Z →
  let '(r, s') := store_step o s in
  let '(r', a') := map_step o a in
  r = r' ∧ represents s' a' ∧ (st_seqCounter s' <= st_seqCounter s + 1)%Z.
Proof.
  intros (Hinv & Hc & ->) Hlt. destruct o as [sh now id k v|sh now id k|sh id|sh sh' id|k|]; simpl.
  - pose proof (write_spec sh now id k v false s Hinv Hc Hlt) as H. unfold Put.
    destruct (write _ _ _ _ _ _ _) as [r s']. destruct H as (-> & Hi & Hc' & Hn & Hv).
    apply content_write in Hv. split_and!; [done| |lia]. split_and!; [done..|].
    by rewrite Hn, Hv.
  - pose proof (write_spec sh now id k [] true s Hinv Hc Hlt) as H. unfold Delete.
    destruct (write _ _ _ _ _ _ _) as [r s']. destruct H as (-> & Hi & Hc' & Hn & Hv).
    apply content_write in Hv. split_and!; [done| |lia]. split_and!; [done..|].
    by rewrite Hn, Hv.
  - unfold Flush. rewrite Hc. destruct (flushLocked_spec sh id s Hinv) as (Hi & Hv & _ & Hn & Hc').
    split_and!; [done| |lia]. split_and!; [done|congruence|]. unfold content. by rewrite Hn, Hv.
  - pose proof (Compact_spec sh sh' id s Hinv Hc) as H.
    destruct (Compact sh sh' id s) as [r s']. destruct H as (-> & Hi & Hc' & Hn & Hv).
    split_and!; [done| |lia]. split_and!; [done..|]. by rewrite Hn, Hv.
  - split_and!; [|done|lia]. unfold Get. rewrite Hc. f_equal. unfold content, view.
    rewrite lookup_omap, lookup_union. destruct (st_memTable s !! k); simpl.
    + by destruct (tables_map _ !! k).
    + rewrite get_loop_map by apply Hinv. by destruct (tables_map _ !! k).
  - split_and!; [|done|lia]. f_equal. by apply Stats_spec.
Qed.

Lemma New_represents threshold : represents (New threshold) (0%Z, ∅).
Proof.
  split_and!; [|done|].
  - split; simpl; [constructor|apply map_Forall_empty|constructor|].
    exists 0%Z. split_and!; [set_solver|apply map_Forall_empty|done|done].
  - done.
Qed.

Lemma answers_simulation ops s a :
  represents s a → (st_seqCounter s + Z.of_nat (length ops) < 2 ^ 64)%Z →
  answers store_step ops s = answers map_step ops a.
Proof.
  revert s a. induction ops as [|o ops IH]; intros s a Hr Hlt; [done|]. cbn [answers length] in *.
  pose proof (store_step_simulation o s a Hr) as H.
  destruct (store_step o s) as [r s'], (map_step o a) as [r' a'].
  destruct H as (-> & Hr' & Hn); [lia|]. f_equal. apply IH; [done|lia].
Qed.

(** C5: The store refines a plain map: whatever the threshold, and whatever the order of map
    iterations, on any sequence of fewer than 2^64 puts, deletes, flushes, compactions, lookups
    and counts, an open store gives the answers of a finite map with a write counter. *)
Theorem compactor_refines_map threshold ops :
  (Z.of_nat (length ops) < 2 ^ 64)%Z →
  answers store_step ops (New threshold) = answers map_step ops (0%Z, ∅).
Proof.
  intros Hlt. apply answers_simulation; [apply New_represents|done].
Qed.

Definition example_ops : list op :=
  let b (c : ascii) := [Ascii.byte_of_ascii c] in
  [OPut shuffle_id 1 "t1" "k" (b "a"%char); OPut shuffle_rev 2 "t2" "j" (b "b"%char);
   OPut shuffle_id 3 "t3" "k" (b "c"%char); OGet "k"; ODelete shuffle_id 4 "t4" "j"; OStats;
   OCompact shuffle_id shuffle_rev "t5"; OGet "j"; OGet "k"; OStats].

Lemma compactor_refines_map_witness :
  answers store_step example_ops (New 2) = answers map_step example_ops (0%Z, ∅).
Proof. apply (compactor_refines_map 2 example_ops). vm_compute. reflexivity. Defined.
