(* ===== verification/Expr.v ===== *)
(** The expression language of conditions: [internal/expr/expr.go].

    The lexer works on runes; its state is the part of the input it has not read.  The parser's
    state is the list of tokens it has not read.  Recursion that is not structural takes fuel,
    and running out of it is the outcome [OutOfFuel], which [ExprFacts] proves impossible. *)
From Stdlib Require Import SpecFloat.
From stdpp Require Import pretty.
From S2P Require Import Prelude Errors Runes Strings Float64.

Abbreviation SSyntaxError := (SOther "expr: syntax error").
Abbreviation SUnexpectedToken := (SOther "expr: unexpected token").
Abbreviation SUnsupportedType := (SOther "expr: unsupported type for operator").
Abbreviation SDivisionByZero := (SOther "expr: division by zero").

Inductive failure := Failure (e : error) | OutOfFuel.

(** [fmt.Errorf(format, sentinel, args...)] with the sentinel wrapped. *)
Definition errorf {A} (format : string) (args : list string) (s : sentinel) : result failure A :=
  Err (Failure (EWrap format args (ESentinel s))).

(** * Tokens *)

Inductive TokenType :=
  | TokEOF | TokNumber | TokString | TokBool | TokNull | TokPath | TokIdent | TokOp
  | TokLParen | TokRParen | TokLBracket | TokRBracket | TokComma.

#[export] Instance TokenType_eq_dec : EqDecision TokenType.
Proof. solve_decision. Defined.

Record Token := MkToken { tok_Type : TokenType; tok_Value : string }.

#[export] Instance Token_eq_dec : EqDecision Token.
Proof. solve_decision. Defined.

(** * Lexer *)

(** The rune of an ASCII character. *)
Definition ch (c : ascii) : Z := byteZ c.

Definition lex_peek (input : list Z) : Z := default 0%Z (head input).

(** The loop over white space; a zero rune ends the input. *)
Fixpoint skip_space (input : list Z) : list Z :=
  match input with
  | [] => []
  | c :: rest => if (c =? 0)%Z then input else if unicode_IsSpace c then skip_space rest else input
  end.

(** The body of a string literal after its opening quote: the runes of its value and the rest
    of the input.  Past the end of the input the lexer reads zero runes. *)
Fixpoint lex_string (quote : Z) (input : list Z) : result failure (list Z * list Z) :=
  match input with
  | [] => errorf "%w: unterminated string literal" [] SSyntaxError
  | c :: rest =>
      if (c =? 0)%Z then errorf "%w: unterminated string literal" [] SSyntaxError
      else if (c =? quote)%Z then Ok ([], rest)
      else if (c =? ch "\")%Z then
        match rest with
        | [] => errorf "%w: unterminated string literal" [] SSyntaxError
        | esc :: rest' =>
            let r := if (esc =? ch "n")%Z then 10%Z
                     else if (esc =? ch "t")%Z then 9%Z else esc in
            '(b, rest'') ← lex_string quote rest'; Ok (r :: b, rest'')
        end
      else '(b, rest') ← lex_string quote rest; Ok (c :: b, rest')
  end.

(** The longest prefix of runes that pass a test. *)
Fixpoint lex_while (P : Z → bool) (input : list Z) : list Z * list Z :=
  match input with
  | [] => ([], [])
  | c :: rest => if P c then let '(b, rest') := lex_while P rest in (c :: b, rest') else ([], input)
  end.

Section unicode.
Context (U : tables).

Definition path_char (c : Z) : bool :=
  unicode_IsLetter U c || unicode_IsDigit U c || (c =? ch ".")%Z || (c =? ch "_")%Z
  || (c =? ch "-")%Z.
Definition word_char (c : Z) : bool :=
  unicode_IsLetter U c || unicode_IsDigit U c || (c =? ch "_")%Z.

Fixpoint lex_number (hasDot : bool) (input : list Z) : list Z * list Z :=
  match input with
  | [] => ([], [])
  | c :: rest =>
      if unicode_IsDigit U c then
        let '(b, rest') := lex_number hasDot rest in (c :: b, rest')
      else if (c =? ch ".")%Z && negb hasDot then
        let '(b, rest') := lex_number true rest in (c :: b, rest')
      else ([], input)
  end.

Definition two_char_ops : list string := ["=="; "!="; "<="; ">="; "&&"; "||"].
Definition one_char_ops : list Z := ch <$> ["<"; ">"; "+"; "-"; "*"; "/"; "!"]%char.

(** The keywords and the identifiers. *)
Definition word_token (word : string) : Token :=
  let lower := strings_ToLower U word in
  if bool_decide (lower = "true") || bool_decide (lower = "false") then MkToken TokBool lower
  else if bool_decide (lower = "null") || bool_decide (lower = "nil") then MkToken TokNull "null"
  else if bool_decide (lower = "in") || bool_decide (lower = "contains") then MkToken TokOp lower
  else MkToken TokIdent word.

Definition NextToken (input : list Z) : result failure (Token * list Z) :=
  let input := skip_space input in
  let c := lex_peek input in
  let rest := tail input in
  if (c =? 0)%Z then Ok (MkToken TokEOF "", input)
  else if (c =? ch "(")%Z then Ok (MkToken TokLParen "(", rest)
  else if (c =? ch ")")%Z then Ok (MkToken TokRParen ")", rest)
  else if (c =? ch "[")%Z then Ok (MkToken TokLBracket "[", rest)
  else if (c =? ch "]")%Z then Ok (MkToken TokRBracket "]", rest)
  else if (c =? ch ",")%Z then Ok (MkToken TokComma ",", rest)
  else if (c =? 34)%Z || (c =? ch "'")%Z then (* 34 is the double quote *)
    '(b, rest') ← lex_string c rest; Ok (MkToken TokString (string_of_runes b), rest')
  else if (c =? ch "$")%Z then
    let '(b, rest') := lex_while path_char rest in
    Ok (MkToken TokPath ("$" +:+ string_of_runes b), rest')
  else if unicode_IsDigit U c then
    let '(b, rest') := lex_number false input in
    Ok (MkToken TokNumber (string_of_runes b), rest')
  else
    let twoChars := match input with
                    | c1 :: c2 :: _ => string_of_runes [c1; c2]
                    | _ => ""
                    end in
    if bool_decide (twoChars ∈ two_char_ops) then Ok (MkToken TokOp twoChars, drop 2 input)
    else if bool_decide (c ∈ one_char_ops) then Ok (MkToken TokOp (utf8_encode c), rest)
    else if unicode_IsLetter U c || (c =? ch "_")%Z then
      let '(b, rest') := lex_while word_char input in
      Ok (word_token (string_of_runes b), rest')
    else errorf "%w: unexpected character '%c'" [utf8_encode c] SSyntaxError.

(** The loop of [Parse] that reads the tokens. *)
Fixpoint lex (fuel : nat) (input : list Z) : result failure (list Token) :=
  match fuel with
  | 0 => Err OutOfFuel
  | S fuel' =>
      '(t, rest) ← NextToken input;
      if bool_decide (tok_Type t = TokEOF) then Ok [t]
      else ts ← lex fuel' rest; Ok (t :: ts)
  end.
End unicode.

(** * Values *)

(** The dynamic types the evaluator distinguishes.  A map is a list of bindings with distinct
    keys; a value of any other type is known by its [%v] text. *)
Inductive value :=
  | VNil
  | VBool (b : bool)
  | VInt (z : Z)
  | VInt64 (z : Z)
  | VFloat (f : float64)
  | VString (s : string)
  | VList (vs : list value)
  | VStrings (ss : list string)
  | VMap (kvs : list (string * value))
  | VOther (text : string).

Abbreviation env_map := (list (string * value)) (only parsing).

Fixpoint map_lookup (k : string) (kvs : env_map) : option value :=
  match kvs with
  | [] => None
  | (k', v) :: kvs' => if bool_decide (k = k') then Some v else map_lookup k kvs'
  end.

Definition bracketed (words : list string) : string := "[" +:+ join " " words +:+ "]".

(** [fmt.Sprintf("%v", v)]; maps print in the order of their keys. *)
Fixpoint sprint (v : value) : string :=
  match v with
  | VNil => "<nil>"
  | VBool b => if b then "true" else "false"
  | VInt z | VInt64 z => pretty z
  | VFloat f => format_v f
  | VString s => s
  | VList vs => bracketed (sprint <$> vs)
  | VStrings ss => bracketed ss
  | VMap kvs =>
      let printed := (λ kv, (fst kv, sprint (snd kv))) <$> kvs in
      let sorted := sort_slice (λ a b, string_ltb (fst a) (fst b)) printed in
      "map" +:+ bracketed ((λ kt, fst kt +:+ ":" +:+ snd kt) <$> sorted)
  | VOther text => text
  end.

(** * Conversions *)

(** In the case of the two integer types [val] keeps its interface type, and an interface that
    holds an [int64] is different from the [int] zero. *)
Definition isTruthy (v : value) : bool :=
  match v with
  | VNil => false
  | VBool b => b
  | VInt z => negb (z =? 0)%Z
  | VInt64 z => true
  | VFloat f => negb (f64_eqb f f64_zero)
  | VString s => negb (bool_decide (s = ""))
  | VList _ | VStrings _ | VMap _ | VOther _ => true
  end.

Definition toFloat (v : value) : result error float64 :=
  match v with
  | VFloat f => Ok f
  | VInt z | VInt64 z => Ok (f64_of_Z z)
  | VString s =>
      match ParseFloat s with
      | (f, None) => Ok f
      | (_, Some _) =>
          Err (EWrap "%w: cannot convert string %q to number" [s] (ESentinel SUnsupportedType))
      end
  | _ =>
      Err (EWrap "%w: value %v cannot be converted to number" [sprint v]
             (ESentinel SUnsupportedType))
  end.

Definition toFloatPair (left right : value) : result error (float64 * float64) :=
  l ← toFloat left; r ← toFloat right; Ok (l, r).

Definition is_nil (v : value) : bool := match v with VNil => true | _ => false end.

Definition isEqual (left right : value) : bool :=
  if is_nil left && is_nil right then true
  else if is_nil left || is_nil right then false
  else
    match toFloat left, toFloat right with
    | Ok lf, Ok rf => f64_eqb lf rf
    | _, _ => bool_decide (sprint left = sprint right)
    end.

Definition isIn (item collection : value) : bool :=
  match collection with
  | VList coll => existsb (isEqual item) coll
  | VStrings coll => existsb (λ el, bool_decide (sprint item = el)) coll
  | VString coll => string_contains coll (sprint item)
  | _ => false
  end.

Definition isContains (collection item : value) : bool := isIn item collection.

(** * Nodes and evaluation *)

Inductive Node :=
  | LiteralNode (v : value)
  | ListNode (elements : list Node)
  | PathNode (path : string)
  | UnaryNode (op : string) (e : Node)
  | BinaryNode (lhs : Node) (op : string) (rhs : Node).

(** The loop of [PathNode.Eval] over the segments. *)
Fixpoint path_walk (current : value) (segments : list string) : value :=
  match segments with
  | [] => current
  | seg :: segments' =>
      if bool_decide (seg = "") then path_walk current segments'
      else
        match current with
        | VMap kvs =>
            match map_lookup seg kvs with
            | Some v => path_walk v segments'
            | None => VNil
            end
        | _ => VNil
        end
  end.

Definition path_eval (path : string) (env : option env_map) : value :=
  match env with
  | None => VNil
  | Some kvs =>
      let p := trim_prefix (trim_prefix path "$.") "$" in
      path_walk (VMap kvs) (split "." p)
  end.

Definition unary_op (op : string) (val : value) : result error value :=
  if bool_decide (op = "!") then Ok (VBool (negb (isTruthy val)))
  else if bool_decide (op = "-") then num ← toFloat val; Ok (VFloat (f64_opp num))
  else Err (EWrap "%w: %s" [op] (ESentinel SSyntaxError)).

(** The operators that evaluate both operands. *)
Definition binary_op (op : string) (l r : value) : result error value :=
  let compare (f : float64 → float64 → bool) := '(x, y) ← toFloatPair l r; Ok (VBool (f x y)) in
  let arith (f : float64 → float64 → float64) := '(x, y) ← toFloatPair l r; Ok (VFloat (f x y)) in
  if bool_decide (op = "==") then Ok (VBool (isEqual l r))
  else if bool_decide (op = "!=") then Ok (VBool (negb (isEqual l r)))
  else if bool_decide (op = "<") then compare f64_ltb
  else if bool_decide (op = "<=") then compare f64_leb
  else if bool_decide (op = ">") then compare (λ x y, f64_ltb y x)
  else if bool_decide (op = ">=") then compare (λ x y, f64_leb y x)
  else if bool_decide (op = "+") then
    match l with
    | VString ls => Ok (VString (ls +:+ sprint r))
    | _ => arith f64_add
    end
  else if bool_decide (op = "-") then arith f64_sub
  else if bool_decide (op = "*") then arith f64_mul
  else if bool_decide (op = "/") then
    '(x, y) ← toFloatPair l r;
    if f64_eqb y f64_zero then Err (ESentinel SDivisionByZero) else Ok (VFloat (f64_div x y))
  else if bool_decide (op = "in") then Ok (VBool (isIn l r))
  else if bool_decide (op = "contains") then Ok (VBool (isContains l r))
  else Err (EWrap "%w: unknown operator %s" [op] (ESentinel SSyntaxError)).

Fixpoint Eval (n : Node) (env : option env_map) : result error value :=
  match n with
  | LiteralNode v => Ok v
  | ListNode elements =>
      let eval_elements := fix eval_elements (els : list Node) : result error (list value) :=
        match els with
        | [] => Ok []
        | el :: els' => v ← Eval el env; vs ← eval_elements els'; Ok (v :: vs)
        end in
      vs ← eval_elements elements; Ok (VList vs)
  | PathNode path => Ok (path_eval path env)
  | UnaryNode op e => val ← Eval e env; unary_op op val
  | BinaryNode lhs op rhs =>
      if bool_decide (op = "||") then
        leftVal ← Eval lhs env;
        if isTruthy leftVal then Ok (VBool true)
        else rightVal ← Eval rhs env; Ok (VBool (isTruthy rightVal))
      else if bool_decide (op = "&&") then
        leftVal ← Eval lhs env;
        if negb (isTruthy leftVal) then Ok (VBool false)
        else rightVal ← Eval rhs env; Ok (VBool (isTruthy rightVal))
      else
        leftVal ← Eval lhs env;
        rightVal ← Eval rhs env;
        binary_op op leftVal rightVal
  end.

(** * Parser *)

Definition parser : Type := list Token → result failure (Node * list Token).

Definition peek (ts : list Token) : Token := default (MkToken TokEOF "") (head ts).
Definition next (ts : list Token) : Token * list Token := (peek ts, tail ts).

(** The shape the five levels of binary operators share: an operand, then the loop that takes
    an operator of the level and another operand. *)
Fixpoint level_loop (fuel : nat) (ops : list string) (operand : parser) (lhs : Node)
    (ts : list Token) : result failure (Node * list Token) :=
  let t := peek ts in
  if bool_decide (tok_Type t = TokOp) && bool_decide (tok_Value t ∈ ops) then
    match fuel with
    | 0 => Err OutOfFuel
    | S fuel' =>
        '(rhs, ts') ← operand (tail ts);
        level_loop fuel' ops operand (BinaryNode lhs (tok_Value t) rhs) ts'
    end
  else Ok (lhs, ts).
Definition parse_level (ops : list string) (operand : parser) : parser := λ ts,
  '(lhs, ts') ← operand ts; level_loop (length ts') ops operand lhs ts'.

Definition parseUnary (primary : parser) : parser := λ ts,
  let t := peek ts in
  if bool_decide (tok_Type t = TokOp) && bool_decide (tok_Value t ∈ ["!"; "-"]) then
    '(sub, ts') ← primary (tail ts); Ok (UnaryNode (tok_Value t) sub, ts')
  else primary ts.

Definition parseMulDiv (primary : parser) : parser :=
  parse_level ["*"; "/"] (parseUnary primary).
Definition parseAddSub (primary : parser) : parser :=
  parse_level ["+"; "-"] (parseMulDiv primary).
Definition parseComparison (primary : parser) : parser :=
  parse_level ["=="; "!="; "<"; "<="; ">"; ">="; "in"; "contains"] (parseAddSub primary).
Definition parseLogicalAnd (primary : parser) : parser :=
  parse_level ["&&"] (parseComparison primary).
Definition parseLogicalOr (primary : parser) : parser :=
  parse_level ["||"] (parseLogicalAnd primary).

(** The elements of a list literal, up to the closing bracket. *)
Fixpoint parse_elements (fuel : nat) (element : parser) (ts : list Token) :
    result failure (list Node * list Token) :=
  if bool_decide (tok_Type (peek ts) = TokRBracket) then Ok ([], ts)
  else
    match fuel with
    | 0 => Err OutOfFuel
    | S fuel' =>
        '(el, ts1) ← element ts;
        if bool_decide (tok_Type (peek ts1) = TokComma) then
          '(els, ts2) ← parse_elements fuel' element (tail ts1); Ok (el :: els, ts2)
        else if bool_decide (tok_Type (peek ts1) = TokRBracket) then
          '(els, ts2) ← parse_elements fuel' element ts1; Ok (el :: els, ts2)
        else errorf "%w: expected comma or closing bracket" [] SSyntaxError
    end.

(** The recursion goes through parentheses and brackets, each one token deeper. *)
Fixpoint parsePrimary (fuel : nat) : parser := λ ts,
  let t := peek ts in
  match fuel with
  | 0 => Err OutOfFuel
  | S fuel' =>
      match tok_Type t with
      | TokNumber => Ok (LiteralNode (VFloat (ParseFloat (tok_Value t)).1), tail ts)
      | TokString => Ok (LiteralNode (VString (tok_Value t)), tail ts)
      | TokBool => Ok (LiteralNode (VBool (bool_decide (tok_Value t = "true"))), tail ts)
      | TokNull => Ok (LiteralNode VNil, tail ts)
      | TokPath => Ok (PathNode (tok_Value t), tail ts)
      | TokLParen =>
          '(sub, ts1) ← parseLogicalOr (parsePrimary fuel') (tail ts);
          if bool_decide (tok_Type (peek ts1) = TokRParen) then Ok (sub, tail ts1)
          else errorf "%w: missing closing parenthesis" [] SSyntaxError
      | TokLBracket =>
          '(els, ts1) ← parse_elements (length ts) (parseLogicalOr (parsePrimary fuel')) (tail ts);
          Ok (ListNode els, tail ts1)
      | _ => errorf "%w: unexpected token %s" [tok_Value t] SUnexpectedToken
      end
  end.

Definition parse_tokens (tokens : list Token) : result failure Node :=
  '(node, ts) ← parseLogicalOr (parsePrimary (S (length tokens))) tokens;
  if bool_decide (tok_Type (peek ts) = TokEOF) then Ok node
  else errorf "%w: unexpected trailing token %s" [tok_Value (peek ts)] SSyntaxError.

Definition Parse (U : tables) (input : string) : result failure Node :=
  let input := runes input in
  tokens ← lex U (S (length input)) input;
  parse_tokens tokens.

Definition lift_error {A} (r : result error A) : result failure A :=
  match r with Ok a => Ok a | Err e => Err (Failure e) end.

Definition Evaluate (U : tables) (exprStr : string) (env : option env_map) : result failure value :=
  ast ← Parse U exprStr; lift_error (Eval ast env).

Definition EvaluateBool (U : tables) (exprStr : string) (env : option env_map) :
    result failure bool :=
  res ← Evaluate U exprStr env; Ok (isTruthy res).
