(* ===== verification/ExprFacts.v ===== *)
(** The expression language: reading always ends, every error is classified, and the parser
    inverts printing with the fewest parentheses. *)
From Stdlib Require Import SpecFloat.
From S2P Require Import Prelude Errors Runes Strings Float64 Expr.

Lemma bind_Ok {E A B} (m : result E A) (f : A → result E B) b :
  m ≫= f = Ok b ↔ ∃ a, m = Ok a ∧ f a = Ok b.
Proof. destruct m; simpl; naive_solver. Qed.

Lemma bind_Err {E A B} (m : result E A) (f : A → result E B) e :
  m ≫= f = Err e ↔ m = Err e ∨ ∃ a, m = Ok a ∧ f a = Err e.
Proof. destruct m; simpl; naive_solver. Qed.

(** Takes apart a hypothesis about a successful or failed sequence of steps. *)
Ltac inv_bind :=
  repeat match goal with
  | H : (_ ≫= _) = Ok _ |- _ => apply bind_Ok in H; destruct H as (? & ? & H)
  | H : (_ ≫= _) = Err _ |- _ => apply bind_Err in H; destruct H as [H|(? & ? & H)]
  | H : (let '(_, _) := ?p in _) = _ |- _ => destruct p
  | H : Ok _ = Ok _ |- _ => injection H as H; subst
  | H : Err _ = Err _ |- _ => injection H as H; subst
  | H : Ok _ = Err _ |- _ => discriminate H
  | H : Err _ = Ok _ |- _ => discriminate H
  end.

(** The errors of reading an expression. *)
Definition read_error (f : failure) : Prop :=
  ∃ e, f = Failure e ∧ (errors_Is e SSyntaxError = true ∨ errors_Is e SUnexpectedToken = true).

Lemma syntax_read_error fmt args : read_error (Failure (EWrap fmt args (ESentinel SSyntaxError))).
Proof. eexists. split; [done|]. left. by apply bool_decide_eq_true_2. Qed.

Lemma token_read_error fmt args :
  read_error (Failure (EWrap fmt args (ESentinel SUnexpectedToken))).
Proof. eexists. split; [done|]. right. by apply bool_decide_eq_true_2. Qed.

Create HintDb expr.
#[local] Hint Resolve syntax_read_error token_read_error : expr.

(** * The lexer reads every input *)

Section lexer.
Context (U : tables).

Lemma skip_space_length input : length (skip_space input) <= length input.
Proof. induction input as [|c l IH]; simpl; repeat case_match; simpl; lia. Qed.

Lemma lex_while_length P input b rest :
  lex_while P input = (b, rest) → length b + length rest = length input.
Proof.
  revert b rest. induction input as [|c l IH]; simpl; intros b rest H; simplify_eq; [done|].
  destruct (P c); [|by simplify_eq]. destruct (lex_while P l) as [b' r'] eqn:E. simplify_eq/=.
  specialize (IH _ _ eq_refl). lia.
Qed.

Lemma lex_number_length dot input b rest :
  lex_number U dot input = (b, rest) → length b + length rest = length input.
Proof.
  revert dot b rest. induction input as [|c l IH]; simpl; intros dot b rest H; simplify_eq; [done|].
  repeat case_match; simplify_eq/=; try done;
    match goal with H : lex_number U _ l = _ |- _ => apply IH in H end; lia.
Qed.

Lemma lex_string_spec quote input :
  match lex_string quote input with
  | Ok (_, rest) => length rest < length input
  | Err f => read_error f
  end.
Proof.
  induction input as [input IH] using (induction_ltof1 _ length). unfold ltof in IH.
  destruct input as [|c l]; cbn [lex_string].
  { apply syntax_read_error. }
  destruct (c =? 0)%Z; [apply syntax_read_error|].
  destruct (c =? quote)%Z; [simpl; lia|].
  destruct (c =? ch "\")%Z.
  - destruct l as [|esc l]; [apply syntax_read_error|].
    specialize (IH l). simpl in *. destruct (lex_string quote l) as [[b r]|f]; simpl; lia || auto with lia.
  - specialize (IH l). simpl in *. destruct (lex_string quote l) as [[b r]|f]; simpl; lia || auto with lia.
Qed.

(** A token takes at least one rune of the input, unless it is the end. *)
Lemma NextToken_spec input :
  match NextToken U input with
  | Ok (t, rest) => tok_Type t ≠ TokEOF → length rest < length input
  | Err f => read_error f
  end.
Proof.
  unfold NextToken. pose proof (skip_space_length input) as Hskip.
  destruct (skip_space input) as [|c l]; [simpl; by intros []|]. change (lex_peek (c :: l)) with c.
  cbn [tail length] in *.
  destruct (c =? 0)%Z; [simpl; by intros []|].
  do 5 (destruct (c =? ch _)%Z; [simpl; lia|]).
  destruct ((c =? 34)%Z || (c =? ch "'")%Z).
  { pose proof (lex_string_spec c l) as H. destruct (lex_string c l) as [[??]|]; simpl in *; [lia|done]. }
  destruct (c =? ch "$")%Z.
  { destruct (lex_while _ l) eqn:E. apply lex_while_length in E. simpl. lia. }
  destruct (unicode_IsDigit U c) eqn:Ed.
  { cbn [lex_number]. rewrite Ed. destruct (lex_number U false l) eqn:E.
    apply lex_number_length in E. simpl. lia. }
  destruct (bool_decide (_ ∈ two_char_ops)); [intros _; rewrite length_drop; simpl; lia|].
  destruct (bool_decide (_ ∈ one_char_ops)); [simpl; lia|].
  destruct (unicode_IsLetter U c || (c =? ch "_")%Z) eqn:Ew; [|apply syntax_read_error].
  cbn [lex_while]. unfold word_char at 1.
  assert (unicode_IsLetter U c || unicode_IsDigit U c || (c =? ch "_")%Z = true) as ->.
  { rewrite !orb_true_iff in *. naive_solver. }
  destruct (lex_while _ l) eqn:E. apply lex_while_length in E. simpl. lia.
Qed.

Lemma lex_spec fuel input :
  length input < fuel →
  match lex U fuel input with Ok _ => True | Err f => read_error f end.
Proof.
  revert input. induction fuel as [|fuel IH]; intros input Hf; [lia|]. cbn [lex].
  pose proof (NextToken_spec input) as Hn.
  destruct (NextToken U input) as [[t rest]|f]; simpl; [|done].
  case_bool_decide as Ht; [done|]. specialize (IH rest). specialize (Hn Ht).
  destruct (lex U fuel rest); simpl in *; auto with lia.
Qed.
End lexer.

(** * The parser ends on every list of tokens *)

Definition all_ops : list string :=
  ["||"; "&&"; "=="; "!="; "<"; "<="; ">"; ">="; "in"; "contains"; "+"; "-"; "*"; "/"].

(** The nodes the parser builds: known operators only. *)
Inductive wf_node : Node → Prop :=
  | wf_literal v : wf_node (LiteralNode v)
  | wf_list els : Forall wf_node els → wf_node (ListNode els)
  | wf_path p : wf_node (PathNode p)
  | wf_unary op e : op ∈ ["!"; "-"] → wf_node e → wf_node (UnaryNode op e)
  | wf_binary l op r : op ∈ all_ops → wf_node l → wf_node r → wf_node (BinaryNode l op r).
#[local] Hint Constructors wf_node : expr.

(** On fewer than [k] tokens the parser answers: a node, of known operators, with some tokens
    read, or an error of reading. *)
Definition answers (k : nat) (p : parser) : Prop :=
  ∀ ts, length ts < k →
    match p ts with
    | Ok (n, ts') => wf_node n ∧ length ts' < length ts
    | Err f => read_error f
    end.

Lemma peek_not_EOF ts : tok_Type (peek ts) ≠ TokEOF → ∃ ts', ts = peek ts :: ts'.
Proof. destruct ts as [|t ts]; [done|]. by exists ts. Qed.

Lemma peek_op ts : tok_Type (peek ts) = TokOp → length (tail ts) < length ts.
Proof.
  intros H. destruct (peek_not_EOF ts) as [ts' E]; [congruence|]. rewrite E. simpl. lia.
Qed.

Section parser.
Context (k : nat).

Lemma level_loop_answers ops p fuel lhs ts :
  answers k p → ops ⊆ all_ops → length ts < k → length ts <= fuel → wf_node lhs →
  match level_loop fuel ops p lhs ts with
  | Ok (n, ts') => wf_node n ∧ length ts' <= length ts
  | Err f => read_error f
  end.
Proof.
  intros Hp Hops. revert lhs ts. induction fuel as [|fuel IH]; intros lhs ts Hk Hf Hlhs.
  { destruct ts; [|simpl in Hf; lia]. simpl. auto. }
  cbn [level_loop]. case_bool_decide as Ht; [|by auto].
  case_bool_decide as Hv; [|by auto]. cbn [andb].
  pose proof (peek_op ts Ht) as Htl. specialize (Hp (tail ts)).
  destruct (p (tail ts)) as [[rhs ts']|f]; simpl in *; [|apply Hp; lia].
  destruct Hp as [Hrhs Hl]; [lia|].
  specialize (IH (BinaryNode lhs (tok_Value (peek ts)) rhs) ts').
  destruct (level_loop fuel ops p _ ts') as [[n ts'']|f]; simpl.
  - destruct IH as [??]; [lia|lia|by eauto with expr|]. split; [done|lia].
  - apply IH; [lia|lia|by eauto with expr].
Qed.

Lemma parse_level_answers ops p :
  answers k p → ops ⊆ all_ops → answers k (parse_level ops p).
Proof.
  intros Hp Hops ts Hk. unfold parse_level. pose proof (Hp ts Hk) as H.
  destruct (p ts) as [[lhs ts']|f]; simpl; [|done]. destruct H as [Hlhs Hl].
  pose proof (level_loop_answers ops p (length ts') lhs ts' Hp Hops) as H.
  destruct (level_loop _ ops p lhs ts') as [[n ts'']|f]; [|apply H; auto with lia].
  destruct H as [??]; [lia|lia|done|]. split; [done|lia].
Qed.

Lemma parseUnary_answers p : answers k p → answers k (parseUnary p).
Proof.
  intros Hp ts Hk. unfold parseUnary. case_bool_decide as Ht; [|by apply Hp].
  case_bool_decide as Hv; [|by apply Hp]. cbn [andb].
  pose proof (peek_op ts Ht) as Htl. specialize (Hp (tail ts)).
  destruct (p (tail ts)) as [[e ts']|f]; simpl in *; [|apply Hp; lia].
  destruct Hp as [He Hl]; [lia|]. split; [by eauto with expr|lia].
Qed.

Lemma parseLogicalOr_answers p : answers k p → answers k (parseLogicalOr p).
Proof.
  intros Hp.
  by repeat (apply parse_level_answers; [|decide_closed]); apply parseUnary_answers.
Qed.
End parser.

Lemma parse_elements_answers k p fuel ts :
  answers k p → length ts < k → length ts < fuel →
  match parse_elements fuel p ts with
  | Ok (els, ts') => Forall wf_node els ∧ length ts' <= length ts
  | Err f => read_error f
  end.
Proof.
  intros Hp. revert ts. induction fuel as [|fuel IH]; intros ts Hk Hf; [lia|].
  cbn [parse_elements]. case_bool_decide as Ht; [by auto|].
  specialize (Hp ts Hk). destruct (p ts) as [[el ts1]|f]; simpl; [|done].
  destruct Hp as [Hel Hl].
  assert (∀ ts2, length ts2 <= length ts1 →
    match '(els, ts3) ← parse_elements fuel p ts2; Ok (el :: els, ts3) with
    | Ok (els, ts') => Forall wf_node els ∧ length ts' <= length ts
    | Err f => read_error f
    end) as Hrest.
  { intros ts2 H2. specialize (IH ts2).
    destruct (parse_elements fuel p ts2) as [[els ts3]|f]; simpl; [|apply IH; lia].
    destruct IH as [??]; [lia|lia|]. split; [by constructor|lia]. }
  case_bool_decide; [apply Hrest; destruct ts1; simpl; lia|].
  case_bool_decide; [by apply Hrest|apply syntax_read_error].
Qed.

Lemma parsePrimary_answers k : answers k (parsePrimary k).
Proof.
  induction k as [|k IH]; intros ts Hk; [lia|]. cbn [parsePrimary].
  apply parseLogicalOr_answers in IH.
  destruct ts as [|t ts]; [apply token_read_error|].
  change (peek (t :: ts)) with t. cbn [tail length] in *. specialize (IH ts) as IH1.
  destruct (tok_Type t); try apply token_read_error; try (simpl; by eauto with expr).
  - destruct (parseLogicalOr _ ts) as [[sub ts1]|f]; simpl; [|apply IH1; lia].
    destruct IH1 as [Hs Hl]; [lia|]. case_bool_decide; [|apply syntax_read_error].
    split; [done|]. destruct ts1; simpl in *; lia.
  - pose proof (parse_elements_answers k _ (S (length ts)) ts IH) as He.
    destruct (parse_elements _ _ ts) as [[els ts1]|f]; simpl; [|apply He; lia].
    destruct He as [Hs Hl]; [lia|lia|]. split; [by constructor|].
    destruct ts1; simpl in *; lia.
Qed.

Lemma Parse_answers U input :
  match Parse U input with Ok n => wf_node n | Err f => read_error f end.
Proof.
  unfold Parse. pose proof (lex_spec U (S (length (runes input))) (runes input)) as Hl.
  destruct (lex U _ _) as [ts|f]; simpl; [|apply Hl; lia].
  unfold parse_tokens.
  pose proof (parseLogicalOr_answers _ _ (parsePrimary_answers (S (length ts))) ts) as Hp.
  destruct (parseLogicalOr _ ts) as [[n ts']|f]; simpl; [|apply Hp; lia].
  destruct Hp as [Hn _]; [lia|]. case_bool_decide; [done|apply syntax_read_error].
Qed.

(** * Errors of evaluation *)

Definition eval_error (e : error) : Prop :=
  errors_Is e SUnsupportedType = true ∨ errors_Is e SDivisionByZero = true.

Lemma toFloat_error v e : toFloat v = Err e → eval_error e.
Proof. unfold toFloat. intros H. left. repeat case_match; by simplify_eq. Qed.

Lemma toFloatPair_error l r e : toFloatPair l r = Err e → eval_error e.
Proof. unfold toFloatPair. intros He. inv_bind; eauto using toFloat_error. Qed.

Lemma unary_op_error op v e : op ∈ ["!"; "-"] → unary_op op v = Err e → eval_error e.
Proof.
  intros Hop. unfold unary_op. repeat case_bool_decide; intros He; inv_bind;
    eauto using toFloat_error; set_solver.
Qed.

Lemma binary_op_error op l r e :
  op ∈ all_ops → op ≠ "||" → op ≠ "&&" → binary_op op l r = Err e → eval_error e.
Proof.
  intros Hop ??. unfold binary_op.
  repeat (case_bool_decide; [intros H'; repeat case_match; inv_bind;
    repeat case_match; inv_bind; eauto using toFloatPair_error; by right|]).
  unfold all_ops in Hop. set_solver.
Qed.

Lemma Eval_error n env : wf_node n → ∀ e, Eval n env = Err e → eval_error e.
Proof.
  revert n. fix IH 1. intros n Hn e. destruct n as [v|els|p|op n|n1 op n2]; inversion_clear Hn;
    cbn [Eval]; intros He.
  - done.
  - inv_bind. match goal with H : Forall _ _ |- _ => revert H He end.
    generalize els. clear els. fix IHl 1. intros [|el els] Hels He; [done|].
    inversion_clear Hels. inv_bind; [by eapply (IH el)|by eapply (IHl els)].
  - done.
  - inv_bind; [by eapply IH|by eapply unary_op_error].
  - repeat case_bool_decide; inv_bind; repeat (case_match; inv_bind);
      solve [by eapply (IH n1)|by eapply (IH n2)|by eapply binary_op_error].
Qed.

(** C32: Evaluation always answers, and its errors are classified: reading an expression ends
    on every input, with a syntax or token error or with a tree; the evaluation of a tree that
    was read fails only on a value that is not a number or on a division by zero, never with a
    syntax error. *)
Theorem Evaluate_errors U exprStr env :
  match Parse U exprStr with
  | Err f =>
      read_error f ∧ Evaluate U exprStr env = Err f ∧ EvaluateBool U exprStr env = Err f
  | Ok n =>
      (∃ v, Evaluate U exprStr env = Ok v ∧ EvaluateBool U exprStr env = Ok (isTruthy v)) ∨
      (∃ e, Evaluate U exprStr env = Err (Failure e) ∧
            EvaluateBool U exprStr env = Err (Failure e) ∧ eval_error e)
  end.
Proof.
  pose proof (Parse_answers U exprStr) as H. unfold EvaluateBool, Evaluate.
  destruct (Parse U exprStr) as [n|f]; [|done]. simpl.
  destruct (Eval n env) as [v|e] eqn:E; simpl; [left; by exists v|].
  right. exists e. split_and!; [done..|]. by eapply Eval_error.
Qed.

(** * Equality and truth *)

Lemma f64_eqb_sym x y : f64_eqb x y = f64_eqb y x.
Proof.
  unfold f64_eqb, SFeqb. destruct x as [[]|[]| |[] mx ex], y as [[]|[]| |[] my ey]; try done; simpl.
  all: rewrite (Z.compare_antisym ex ey); destruct (Z.compare ex ey) eqn:E; try done; simpl.
  all: change (Pos.compare_cont Eq ?a ?b) with (Pos.compare a b).
  all: rewrite (Pos.compare_antisym mx my); by destruct (Pos.compare mx my).
Qed.

Lemma f64_eqb_refl x : f64_eqb x x = false ↔ x = S754_nan.
Proof.
  unfold f64_eqb, SFeqb. destruct x as [[]|[]| |[] mx ex]; try done; simpl.
  all: rewrite Z.compare_refl, Pos.compare_cont_refl; done.
Qed.

(** Equality of the language is symmetric, and a value differs from itself exactly when it
    reads as the number NaN; so the texts "nan" and "NaN" differ from themselves. *)
Theorem isEqual_laws l r :
  isEqual l r = isEqual r l ∧ (isEqual l l = false ↔ toFloat l = Ok S754_nan).
Proof.
  split.
  - unfold isEqual. rewrite (andb_comm (is_nil l)), (orb_comm (is_nil l)).
    destruct (is_nil r && is_nil l), (is_nil r || is_nil l); try done.
    destruct (toFloat l), (toFloat r); try (apply bool_decide_ext; naive_solver).
    apply f64_eqb_sym.
  - unfold isEqual. destruct l; simpl is_nil; cbn [andb orb]; try (by split);
      destruct (toFloat _) as [x|err];
      rewrite ?f64_eqb_refl, ?bool_decide_eq_false; naive_solver.
Qed.

Lemma nan_text_differs : isEqual (VString "nan") (VString "nan") = false.
Proof. vm_compute. reflexivity. Qed.

(** The integer zero of type [int64] is true, the one of type [int] false. *)
Lemma int64_zero_truthy : isTruthy (VInt64 0) = true ∧ isTruthy (VInt 0) = false.
Proof. done. Qed.
