(* ===== verification/ExprRoundtrip.v ===== *)
(** Printing and reading expressions.

    An abstract expression prints with parentheses only where the precedence of the operators
    asks for them; the parser reads the text back as the tree the expression stands for. *)
From S2P Require Import Prelude Errors Runes Strings Float64 Expr ExprFacts.

(** * Expressions *)

(** Numbers, texts and paths are given by their runes. *)
Inductive expr :=
  | ENumber (digits : list Z)
  | EText (rs : list Z)
  | EBool (b : bool)
  | ENull
  | EPath (rs : list Z)
  | EList (es : list expr)
  | EUnary (op : string) (e : expr)
  | EBinary (l : expr) (op : string) (r : expr).

(** The operators of each level, from the loosest to the tightest. *)
Definition level_ops (p : nat) : list string :=
  match p with
  | 0 => ["||"]
  | 1 => ["&&"]
  | 2 => ["=="; "!="; "<"; "<="; ">"; ">="; "in"; "contains"]
  | 3 => ["+"; "-"]
  | 4 => ["*"; "/"]
  | _ => []
  end.

Definition op_level (op : string) : nat :=
  if bool_decide (op ∈ level_ops 0) then 0
  else if bool_decide (op ∈ level_ops 1) then 1
  else if bool_decide (op ∈ level_ops 2) then 2
  else if bool_decide (op ∈ level_ops 3) then 3
  else 4.

(** 5 for unary operators, 6 for what stands alone. *)
Definition level (e : expr) : nat :=
  match e with
  | EBinary _ op _ => op_level op
  | EUnary _ _ => 5
  | _ => 6
  end.

Fixpoint elab (e : expr) : Node :=
  match e with
  | ENumber digits => LiteralNode (VFloat (ParseFloat (string_of_runes digits)).1)
  | EText rs => LiteralNode (VString (string_of_runes rs))
  | EBool b => LiteralNode (VBool b)
  | ENull => LiteralNode VNil
  | EPath rs => PathNode ("$" +:+ string_of_runes rs)
  | EList es => ListNode (elab <$> es)
  | EUnary op e => UnaryNode op (elab e)
  | EBinary l op r => BinaryNode (elab l) op (elab r)
  end.

(** * Tokens of an expression *)

Definition tok_op (op : string) : Token := MkToken TokOp op.
Definition lparen : Token := MkToken TokLParen "(".
Definition rparen : Token := MkToken TokRParen ")".
Definition lbracket : Token := MkToken TokLBracket "[".
Definition rbracket : Token := MkToken TokRBracket "]".
Definition comma : Token := MkToken TokComma ",".

(** Tokens [b] of an expression of level [q] where level [p] is needed. *)
Definition wrap (p q : nat) (b : list Token) : list Token :=
  if q <? p then lparen :: b ++ [rparen] else b.

Fixpoint separated {A} (sep : A) (ls : list (list A)) : list A :=
  match ls with
  | [] => []
  | [l] => l
  | l :: ls' => l ++ sep :: separated sep ls'
  end.

Fixpoint body (e : expr) : list Token :=
  match e with
  | ENumber digits => [MkToken TokNumber (string_of_runes digits)]
  | EText rs => [MkToken TokString (string_of_runes rs)]
  | EBool b => [MkToken TokBool (if b then "true" else "false")]
  | ENull => [MkToken TokNull "null"]
  | EPath rs => [MkToken TokPath ("$" +:+ string_of_runes rs)]
  | EList es => lbracket :: separated comma (body <$> es) ++ [rbracket]
  | EUnary op e => tok_op op :: wrap 6 (level e) (body e)
  | EBinary l op r =>
      let q := op_level op in
      wrap q (level l) (body l) ++ tok_op op :: wrap (S q) (level r) (body r)
  end.

Definition toks (p : nat) (e : expr) : list Token := wrap p (level e) (body e).

(** * The levels of the parser *)

Definition parser_at (p : nat) (primary : parser) : parser :=
  match p with
  | 0 => parseLogicalOr primary
  | 1 => parseLogicalAnd primary
  | 2 => parseComparison primary
  | 3 => parseAddSub primary
  | 4 => parseMulDiv primary
  | 5 => parseUnary primary
  | _ => primary
  end.

Lemma parser_at_level p primary :
  p <= 4 → parser_at p primary = parse_level (level_ops p) (parser_at (S p) primary).
Proof. intros Hp. do 5 (destruct p as [|p]; [done|]). lia. Qed.

(** The next token is not an operator of level [p] or tighter. *)
Definition stops (p : nat) (ts : list Token) : Prop :=
  ∀ q, p <= q → tok_Type (peek ts) = TokOp → tok_Value (peek ts) ∉ level_ops q.

Lemma stops_not_op p t ts : tok_Type t ≠ TokOp → stops p (t :: ts).
Proof. by intros Ht q _ E. Qed.

Lemma stops_weaken p q ts : p <= q → stops p ts → stops q ts.
Proof. intros Hpq Hs r Hr. apply Hs. lia. Qed.

Lemma op_level_in op : op ∈ all_ops → op ∈ level_ops (op_level op) ∧ op_level op <= 4.
Proof.
  unfold op_level. intros Hop. repeat (case_bool_decide; [by auto with lia|]).
  split; [|done]. simpl in *. set_solver.
Qed.

Lemma op_level_unique op q : op ∈ level_ops q → op_level op = q.
Proof.
  intros Hop. do 5 (destruct q as [|q];
    [by repeat (apply elem_of_cons in Hop as [->|Hop]; [done|]); apply elem_of_nil in Hop|]).
  by apply elem_of_nil in Hop.
Qed.

Lemma stops_op op ts : op ∈ all_ops → stops (S (op_level op)) (tok_op op :: ts).
Proof. intros Hop q Hq _ Hin%op_level_unique. simpl in Hin. lia. Qed.

Section levels.
Context (k : nat) (primary : parser) (Hprim : answers k primary).

Lemma parser_at_answers p : p <= 6 → answers k (parser_at p primary).
Proof using Hprim.
  intros Hp.
  do 5 (destruct p as [|p];
    [by repeat (apply parse_level_answers; [|decide_closed]); apply parseUnary_answers|]).
  destruct p as [|[|p]]; [by apply parseUnary_answers|done|lia].
Qed.

Lemma loop_stop fuel p n ts :
  stops p ts → level_loop fuel (level_ops p) (parser_at (S p) primary) n ts = Ok (n, ts).
Proof using Type.
  intros Hs. destruct fuel; cbn [level_loop]; repeat case_bool_decide; try done;
    by destruct (Hs p).
Qed.

Lemma level_step p ts n rest :
  p <= 4 → parser_at (S p) primary ts = Ok (n, rest) →
  parser_at p primary ts =
    level_loop (length rest) (level_ops p) (parser_at (S p) primary) n rest.
Proof using Type.
  intros Hp E. rewrite parser_at_level by done. unfold parse_level. by rewrite E.
Qed.

(** Reading at a tighter level is reading at a looser one when nothing can follow. *)
Lemma lower p q ts n rest :
  p <= q → q <= 5 → stops p rest →
  parser_at q primary ts = Ok (n, rest) → parser_at p primary ts = Ok (n, rest).
Proof using Type.
  intros Hpq. induction Hpq as [|q Hpq IH]; intros Hq Hs E; [done|].
  apply IH; [lia|done|]. rewrite (level_step q ts n rest) by (done || lia).
  apply loop_stop. by apply (stops_weaken p).
Qed.

Lemma from_primary p t ts n rest :
  p <= 6 → tok_Type t ≠ TokOp → stops p rest →
  primary (t :: ts) = Ok (n, rest) → parser_at p primary (t :: ts) = Ok (n, rest).
Proof using Type.
  intros Hp Ht Hs E. destruct (decide (p = 6)) as [->|Hne]; [done|].
  apply (lower p 5); [lia|done|done|]. simpl. unfold parseUnary.
  by rewrite bool_decide_eq_false_2.
Qed.

(** More fuel than tokens changes nothing. *)
Lemma level_loop_fuel ops p fuel n ts :
  p <= 6 → length ts < k → length ts <= fuel →
  level_loop fuel ops (parser_at p primary) n ts =
  level_loop (length ts) ops (parser_at p primary) n ts.
Proof using Hprim.
  intros Hp. pose proof (parser_at_answers p Hp) as Ha.
  remember (length ts) as m eqn:Em. assert (length ts <= m) as Hm by lia. clear Em.
  revert fuel n ts Hm. induction m as [m IH] using lt_wf_ind. intros fuel n ts Hm Hk Hf.
  destruct ts as [|t ts]; [by destruct fuel, m|].
  destruct fuel as [|fuel], m as [|m]; simpl in *; try lia.
  case_match; [|done]. specialize (Ha ts).
  destruct (parser_at p primary ts) as [[rhs ts']|f]; simpl; [|done].
  destruct Ha as [_ Hl]; [lia|].
  rewrite (IH (length ts')) by lia. symmetry. apply IH; lia.
Qed.
End levels.

(** * Well-formed expressions *)

Section unicode.
Context (U : tables).

(** The digits of a number: it starts with one, and has at most one dot. *)
Fixpoint digits_ok (dot : bool) (ds : list Z) : bool :=
  match ds with
  | [] => true
  | d :: ds' =>
      if in_range 48 57 d then digits_ok dot ds'
      else (d =? ch ".")%Z && negb dot && digits_ok true ds'
  end.
Definition number_ok (ds : list Z) : bool :=
  in_range 48 57 (lex_peek ds) && digits_ok false ds.

Inductive wf : expr → Prop :=
  | wf_number ds : number_ok ds = true → wf (ENumber ds)
  | wf_text rs : forallb valid_rune rs = true → wf (EText rs)
  | wf_bool b : wf (EBool b)
  | wf_null : wf ENull
  | wf_path rs : forallb (λ r, valid_rune r && path_char U r) rs = true → wf (EPath rs)
  | wf_elist es : Forall wf es → wf (EList es)
  | wf_eunary op e : op ∈ ["!"; "-"] → wf e → wf (EUnary op e)
  | wf_ebinary l op r : op ∈ all_ops → wf l → wf r → wf (EBinary l op r).

Lemma wf_ind' (P : expr → Prop) :
  (∀ ds, number_ok ds = true → P (ENumber ds)) →
  (∀ rs, forallb valid_rune rs = true → P (EText rs)) →
  (∀ b, P (EBool b)) → P ENull →
  (∀ rs, forallb (λ r, valid_rune r && path_char U r) rs = true → P (EPath rs)) →
  (∀ es, Forall wf es → Forall P es → P (EList es)) →
  (∀ op e, op ∈ ["!"; "-"] → wf e → P e → P (EUnary op e)) →
  (∀ l op r, op ∈ all_ops → wf l → P l → wf r → P r → P (EBinary l op r)) →
  ∀ e, wf e → P e.
Proof using Type.
  intros Hn Ht Hb H0 Hp Hl Hu Hbin. fix IH 2. intros e [ds H|rs H|b| |rs H|es H|op e' H H'|l op r H Hl' Hr].
  - by apply Hn.
  - by apply Ht.
  - apply Hb.
  - apply H0.
  - by apply Hp.
  - apply Hl; [done|]. induction H as [|x xs Hx Hxs IHxs]; constructor; [by apply IH|done].
  - apply Hu; [done..|]. by apply IH.
  - apply Hbin; [done|done| |done|]; by apply IH.
Qed.

(** Every expression starts with a token that closes nothing. *)
Lemma body_head e :
  wf e → ∃ t ts, body e = t :: ts ∧ tok_Type t ≠ TokRBracket ∧
    (level e = 6 → tok_Type t ≠ TokOp).
Proof using Type.
  induction 1 as [| | | | |es Hes IHes|op e Hop He IHe|l op r Hop Hl (t & ts & E & Ht & _) Hr _]
    using wf_ind'; try (eexists _, _; split_and!; [reflexivity|done|done]).
  - cbn [body level]. unfold wrap. destruct (level l <? op_level op).
    + eexists _, _. split_and!; [reflexivity|done|done].
    + rewrite E. eexists _, _. split_and!; [reflexivity|done|].
      intros Hlv. apply op_level_in in Hop as [_ ?]. lia.
Qed.

(** * The parser reads the tokens *)

(** What is proved of every expression: it is read at every level, and as a left operand it
    leaves the loop of its level with itself on the left. *)
Definition reads (e : expr) : Prop :=
  ∀ f p rest, p <= 6 → stops p rest → length (toks p e ++ rest) < f →
    parser_at p (parsePrimary f) (toks p e ++ rest) = Ok (elab e, rest).
Definition reads_left (e : expr) : Prop :=
  ∀ f q rest, q <= 4 → stops (S q) rest → length (toks q e ++ rest) < f →
    parser_at q (parsePrimary f) (toks q e ++ rest) =
    level_loop (length rest) (level_ops q) (parser_at (S q) (parsePrimary f)) (elab e) rest.
Definition reads_body (e : expr) : Prop :=
  ∀ f rest, stops (level e) rest → length (body e ++ rest) < f →
    parser_at (level e) (parsePrimary f) (body e ++ rest) = Ok (elab e, rest).

Lemma level_le e : wf e → level e <= 6.
Proof using Type. destruct 1; simpl; try lia. apply op_level_in in H as [_ ?]. lia. Qed.

(** Reading the bare tokens at any level the expression binds tighter than. *)
Lemma reads_body_lower e f p rest :
  wf e → reads_body e → p <= level e → stops p rest → length (body e ++ rest) < f →
  parser_at p (parsePrimary f) (body e ++ rest) = Ok (elab e, rest).
Proof using Type.
  intros Hwf Hb Hp Hs Hf. specialize (Hb f rest (stops_weaken _ _ _ Hp Hs) Hf).
  destruct (decide (level e = 6)) as [E|Hne].
  - rewrite E in *. destruct (body_head e Hwf) as (t & ts & Eb & _ & Ht).
    rewrite Eb in *. apply from_primary; auto.
  - pose proof (level_le e Hwf). by apply (lower _ p (level e)); [| lia| |].
Qed.

Lemma parsePrimary_paren f ts :
  parsePrimary (S f) (lparen :: ts) =
  '(sub, ts1) ← parseLogicalOr (parsePrimary f) ts;
  if bool_decide (tok_Type (peek ts1) = TokRParen) then Ok (sub, tail ts1)
  else errorf "%w: missing closing parenthesis" [] SSyntaxError.
Proof using Type. done. Qed.

Lemma reads_from_body e : wf e → reads_body e → reads e.
Proof using Type.
  intros Hwf Hb f p rest Hp Hs Hf. unfold toks, wrap in *.
  destruct (Nat.ltb_spec (level e) p) as [Hlt|Hge].
  - rewrite <- app_comm_cons, <- app_assoc in *.
    change ([rparen] ++ rest) with (rparen :: rest) in *. cbn [length] in Hf.
    destruct f as [|f]; [lia|]. apply from_primary; [done|done|done|].
    rewrite parsePrimary_paren. change (parseLogicalOr ?q) with (parser_at 0 q).
    rewrite (reads_body_lower e f 0 (rparen :: rest) Hwf Hb); [done|lia| |lia].
    by apply stops_not_op.
  - by apply reads_body_lower.
Qed.

Lemma wrap_level p q b : q ≠ p → wrap p q b = wrap (S p) q b.
Proof using Type.
  intros Hne. unfold wrap. destruct (Nat.ltb_spec q p), (Nat.ltb_spec q (S p)); done || lia.
Qed.

Lemma reads_left_other e f q rest :
  reads e → level e ≠ q → q <= 4 → stops (S q) rest → length (toks q e ++ rest) < f →
  parser_at q (parsePrimary f) (toks q e ++ rest) =
  level_loop (length rest) (level_ops q) (parser_at (S q) (parsePrimary f)) (elab e) rest.
Proof using Type.
  intros Hr Hl Hq Hs Hf. unfold toks in *. rewrite wrap_level in * by done.
  apply level_step; [done|]. apply Hr; [lia|done|done].
Qed.

(** The loop takes one operator and its right operand. *)
Lemma loop_takes f op r n rest :
  op ∈ all_ops → reads r → stops (S (op_level op)) rest →
  length (tok_op op :: toks (S (op_level op)) r ++ rest) < f →
  let q := op_level op in
  level_loop (length (tok_op op :: toks (S q) r ++ rest)) (level_ops q)
    (parser_at (S q) (parsePrimary f)) n (tok_op op :: toks (S q) r ++ rest) =
  level_loop (length rest) (level_ops q) (parser_at (S q) (parsePrimary f))
    (BinaryNode n op (elab r)) rest.
Proof using Type.
  intros Hop Hr Hs Hf. apply op_level_in in Hop as [Hin Hle]. cbn [length] in Hf.
  cbn [length level_loop]. change (peek (tok_op op :: _)) with (tok_op op). cbn [tok_Type tok_Value tok_op tail].
  rewrite bool_decide_eq_true_2 by done. rewrite bool_decide_eq_true_2 by done. cbn [andb].
  rewrite Hr by (done || lia). cbn [mbind result_bind]. rewrite length_app in Hf |- *.
  apply (level_loop_fuel f); [apply parsePrimary_answers|lia|lia|lia].
Qed.

(** A binary expression is read at its level: the left operand may be of the same level. *)
Lemma reads_left_binary l op r :
  op ∈ all_ops → reads_left l → reads r → ∀ f rest,
  let q := op_level op in
  stops (S q) rest → length (body (EBinary l op r) ++ rest) < f →
  parser_at q (parsePrimary f) (body (EBinary l op r) ++ rest) =
  level_loop (length rest) (level_ops q) (parser_at (S q) (parsePrimary f))
    (elab (EBinary l op r)) rest.
Proof using Type.
  intros Hop Hl Hr f rest q Hs Hf. cbn [body elab] in *.
  change (wrap _ (level l) (body l)) with (toks q l) in *.
  change (wrap _ (level r) (body r)) with (toks (S q) r) in *.
  rewrite <- app_assoc, <- app_comm_cons in *.
  rewrite Hl; [|by apply op_level_in|by apply stops_op|done].
  apply loop_takes; [done..|]. rewrite length_app in Hf. unfold q in *. lia.
Qed.

Lemma reads_elements fuel f es rest :
  Forall reads es → Forall wf es →
  length (separated comma (body <$> es) ++ rbracket :: rest) < fuel →
  length (separated comma (body <$> es) ++ rbracket :: rest) < f →
  parse_elements fuel (parseLogicalOr (parsePrimary f))
    (separated comma (body <$> es) ++ rbracket :: rest) = Ok (elab <$> es, rbracket :: rest).
Proof using Type.
  intros Hes Hwf. revert fuel Hwf. induction Hes as [|e es He Hes IH]; intros fuel Hwf Hfu Hf.
  { by destruct fuel. }
  apply Forall_cons in Hwf as [Hwe Hwf]. destruct (body_head e Hwe) as (t & ts & E & Ht & _).
  destruct fuel as [|fuel]; [lia|].
  assert (∀ rest', stops 0 rest' → length (body e ++ rest') < f →
    parseLogicalOr (parsePrimary f) (body e ++ rest') = Ok (elab e, rest')) as Hread.
  { intros rest' Hs Hl. apply (He f 0 rest'); [lia|done|done]. }
  assert (∀ l rest', tok_Type (peek ((body e ++ l) ++ rest')) ≠ TokRBracket) as Hpk
    by (intros l rest'; by rewrite E).
  destruct es as [|e' es].
  - csimpl in *. pose proof (Hpk [] (rbracket :: rest)) as Hpk0. rewrite app_nil_r in Hpk0.
    cbn [parse_elements]. rewrite bool_decide_eq_false_2 by done.
    rewrite Hread by (done || by apply stops_not_op). simpl. destruct fuel; [|done].
    rewrite E in Hfu. simpl in Hfu. lia.
  - cbn [fmap list_fmap separated] in *. fold (fmap (M := list) body es) in *.
    change (body e' :: (body <$> es)) with (body <$> e' :: es) in *.
    cbn [parse_elements]. rewrite bool_decide_eq_false_2 by done.
    rewrite <- app_assoc, <- app_comm_cons in *.
    rewrite Hread by (done || by apply stops_not_op). cbn [mbind result_bind].
    rewrite bool_decide_eq_true_2 by done. cbn [tail].
    rewrite length_app in Hfu, Hf. cbn [length] in Hfu, Hf.
    rewrite IH by (done || lia). done.
Qed.

Lemma reads_body_leaf e t :
  body e = [t] → level e = 6 →
  (∀ f rest, parsePrimary (S f) (t :: rest) = Ok (elab e, rest)) → reads_body e.
Proof using Type.
  intros Hb Hl Ht f rest _. rewrite Hl, Hb. destruct f as [|f]; simpl length; [lia|].
  intros _. apply Ht.
Qed.

Lemma parsePrimary_bracket f ts :
  parsePrimary (S f) (lbracket :: ts) =
  '(els, ts1) ← parse_elements (S (length ts)) (parseLogicalOr (parsePrimary f)) ts;
  Ok (ListNode els, tail ts1).
Proof using Type. done. Qed.

Lemma reads_body_list es : Forall reads es → Forall wf es → reads_body (EList es).
Proof using Type.
  intros Hr Hwf f rest _ Hf. cbn [body level] in *.
  rewrite <- app_comm_cons, <- app_assoc in *.
  change ([rbracket] ++ rest) with (rbracket :: rest) in *. cbn [length] in Hf.
  destruct f as [|f]; [lia|]. cbn [parser_at]. rewrite parsePrimary_bracket.
  rewrite reads_elements by (done || lia). done.
Qed.

Lemma reads_body_unary op e : op ∈ ["!"; "-"] → reads e → reads_body (EUnary op e).
Proof using Type.
  intros Hop Hr f rest Hs Hf. cbn [body level elab] in *. rewrite <- app_comm_cons in *.
  cbn [length] in Hf. cbn [parser_at]. unfold parseUnary.
  change (peek (tok_op op :: _)) with (tok_op op). cbn [tok_Type tok_Value tok_op tail].
  rewrite bool_decide_eq_true_2 by done. rewrite bool_decide_eq_true_2 by done. cbn [andb].
  pose proof (Hr f 6 rest) as H. unfold toks in H. cbn [parser_at] in H.
  rewrite H; [done|lia| |lia]. by apply (stops_weaken 5); [lia|].
Qed.

Lemma reads_tight e : wf e → 5 <= level e → reads_body e → reads e ∧ reads_left e.
Proof using Type.
  intros Hw Hl Hb. assert (reads e) as Hr by (by apply reads_from_body).
  split; [done|]. intros f q rest Hq Hs Hf. apply reads_left_other; [done|lia|done..].
Qed.

Lemma reads_wf e : wf e → reads e ∧ reads_left e.
Proof using Type.
  induction 1 as [ds Hds|rs Hrs|b| |rs Hrs|es Hes IH|op e Hop He [IH _]|
    l op r Hop Hl [IHl IHl'] Hr [IHr _]] using wf_ind'.
  1-5: apply reads_tight; [by constructor|simpl; lia|by eapply reads_body_leaf; try done; destruct b].
  - apply reads_tight; [by constructor|simpl; lia|]. apply reads_body_list; [|done].
    eapply Forall_impl; [exact IH|]. by intros e [? _].
  - apply reads_tight; [by constructor|simpl; lia|]. by apply reads_body_unary.
  - pose proof (reads_left_binary l op r Hop IHl' IHr) as Hleft.
    assert (wf (EBinary l op r)) as Hw by (by constructor).
    assert (reads (EBinary l op r)) as Hread.
    { apply reads_from_body; [done|]. intros f rest Hs Hf. cbn [level] in *.
      rewrite Hleft; [by apply loop_stop| |done]. apply (stops_weaken (op_level op)); [lia|done]. }
    split; [done|]. intros f q rest Hq Hs Hf.
    destruct (decide (level (EBinary l op r) = q)) as [<-|Hne]; [|by apply reads_left_other].
    unfold toks, wrap in *. rewrite Nat.ltb_irrefl in *. by apply Hleft.
Qed.

Lemma parse_tokens_body e :
  wf e → parse_tokens (body e ++ [MkToken TokEOF ""]) = Ok (elab e).
Proof using Type.
  intros Hw. destruct (reads_wf e Hw) as [Hr _]. unfold parse_tokens.
  set (eof := [MkToken TokEOF ""]).
  pose proof (Hr (S (length (body e ++ eof))) 0 eof) as H.
  change (toks 0 e) with (body e) in H. cbn [parser_at] in H.
  rewrite H; [done|lia| |lia]. by apply stops_not_op.
Qed.

(** * The lexer reads the text of tokens *)

(** A quote and a backslash are escaped, and so is the zero rune, which would end the input. *)
Definition escape (rs : list Z) : list Z :=
  mjoin ((λ r, if bool_decide (r ∈ [0; 34; 92]%Z) then [92; r]%Z else [r]) <$> rs).

Definition tok_text (t : Token) : list Z :=
  match tok_Type t with
  | TokString => 34%Z :: escape (runes (tok_Value t)) ++ [34%Z]
  | _ => runes (tok_Value t)
  end.

(** The text of an expression: its tokens, each followed by a space. *)
Definition text_of (ts : list Token) : list Z := mjoin ((λ t, tok_text t ++ [32%Z]) <$> ts).
Definition print (e : expr) : string := string_of_runes (text_of (body e)).

Definition lexes (t : Token) : Prop :=
  tok_Type t ≠ TokEOF ∧ forallb valid_rune (tok_text t) = true ∧
  ∀ rest, NextToken U (tok_text t ++ 32%Z :: rest) = Ok (t, 32%Z :: rest).

Lemma NextToken_space l : NextToken U (32%Z :: l) = NextToken U l.
Proof using Type. done. Qed.

Lemma lex_text_of fuel ts :
  Forall lexes ts → length ts < fuel →
  lex U fuel (text_of ts) = Ok (ts ++ [MkToken TokEOF ""]).
Proof using Type.
  intros Hts Hf. destruct fuel as [|fuel]; [lia|].
  assert (∀ fuel ts, Forall lexes ts → length ts < fuel →
    lex U fuel (32%Z :: text_of ts) = Ok (ts ++ [MkToken TokEOF ""])) as Hrest.
  { clear. intros fuel ts Hts. revert fuel. induction Hts as [|t ts (Ht & _ & Hn) Hts IH];
      intros [|fuel] Hf; simpl in Hf; try lia; [done|].
    cbn [lex]. rewrite NextToken_space. unfold text_of. csimpl. rewrite <- app_assoc.
    change ([32%Z] ++ ?l) with (32%Z :: l). rewrite Hn. cbn [mbind result_bind].
    rewrite bool_decide_eq_false_2 by done.
    change (mjoin _) with (text_of ts). by rewrite IH by lia. }
  specialize (Hrest (S fuel) ts Hts Hf). cbn [lex] in *. by rewrite NextToken_space in Hrest.
Qed.

Lemma runes_of_runes rs : forallb valid_rune rs = true → runes (string_of_runes rs) = rs.
Proof using Type.
  intros Hv. pose proof (runes_string_of_runes rs "" Hv) as H.
  by rewrite string_app_nil_r, app_nil_r in H.
Qed.

Lemma lexes_fixed t :
  tok_Type t ≠ TokEOF → forallb valid_rune (tok_text t) = true →
  (∀ rest, NextToken U (tok_text t ++ 32%Z :: rest) = Ok (t, 32%Z :: rest)) → lexes t.
Proof using Type. done. Qed.

Lemma lexes_op op : op ∈ "!" :: all_ops → lexes (tok_op op).
Proof using Type.
  intros Hop. unfold all_ops in Hop.
  by repeat (apply elem_of_cons in Hop as [->|Hop]; [split_and!; [done|done|intros rest; reflexivity]|]);
    apply elem_of_nil in Hop.
Qed.

Lemma digit_valid d : in_range 48 57 d = true → valid_rune d = true.
Proof using Type.
  rewrite in_range_true. intros. unfold valid_rune. apply orb_true_iff. left.
  apply in_range_true. lia.
Qed.

Lemma digits_valid dot ds : digits_ok dot ds = true → forallb valid_rune ds = true.
Proof using Type.
  revert dot. induction ds as [|d ds IH]; intros dot; simpl; [done|].
  destruct (in_range 48 57 d) eqn:E.
  - intros H. by rewrite digit_valid, (IH dot).
  - rewrite !andb_true_iff, Z.eqb_eq. intros [[-> _] H]. by rewrite (IH true).
Qed.

Lemma digit_IsDigit d : in_range 48 57 d = true → unicode_IsDigit U d = true.
Proof using Type.
  intros H. unfold unicode_IsDigit. rewrite (proj2 (in_range_true 0 255 d)); [done|].
  apply in_range_true in H. lia.
Qed.

Lemma lex_number_digits dot ds rest :
  digits_ok dot ds = true → lex_number U dot (ds ++ 32%Z :: rest) = (ds, 32%Z :: rest).
Proof using Type.
  revert dot. induction ds as [|d ds IH]; intros dot; [by destruct dot|].
  cbn [digits_ok app lex_number]. destruct (in_range 48 57 d) eqn:E.
  - intros H. by rewrite digit_IsDigit, IH.
  - rewrite !andb_true_iff, Z.eqb_eq, negb_true_iff. intros [[-> ->] H].
    change (unicode_IsDigit U (ch ".")) with false. cbn iota.
    rewrite Z.eqb_refl. cbn [andb negb]. by rewrite IH.
Qed.

Lemma lexes_number ds :
  number_ok ds = true → lexes (MkToken TokNumber (string_of_runes ds)).
Proof using Type.
  unfold number_ok. rewrite andb_true_iff. intros [Hd Hds].
  pose proof (digits_valid _ _ Hds) as Hv. unfold lexes, tok_text. cbn [tok_Type tok_Value].
  rewrite runes_of_runes by done. split_and!; [done|done|]. intros rest.
  destruct ds as [|d ds]; [done|]. change (lex_peek (d :: ds)) with d in Hd.
  unfold NextToken. rewrite <- app_comm_cons in *.
  assert (d ∈ [48; 49; 50; 51; 52; 53; 54; 55; 56; 57]%Z) as Hin.
  { apply in_range_true in Hd. rewrite !elem_of_cons. lia. }
  assert (skip_space (d :: ds ++ 32%Z :: rest) = d :: ds ++ 32%Z :: rest) as ->.
  { by repeat (apply elem_of_cons in Hin as [->|Hin]; [done|]); apply elem_of_nil in Hin. }
  pose proof (lex_number_digits false (d :: ds) rest Hds) as Hl.
  rewrite <- app_comm_cons in Hl. rewrite Hl. cbn [tail]. change (lex_peek (d :: _)) with d.
  rewrite (digit_IsDigit d Hd).
  by repeat (apply elem_of_cons in Hin as [->|Hin]; [done|]); apply elem_of_nil in Hin.
Qed.

Lemma lex_string_escape rs rest :
  lex_string 34 (escape rs ++ 34%Z :: rest) = Ok (rs, rest).
Proof using Type.
  induction rs as [|r rs IH]; [done|]. unfold escape. csimpl.
  change (mjoin _) with (escape rs). case_bool_decide as Hr.
  - rewrite <- app_assoc. cbn [app lex_string]. change ((92 =? 0)%Z) with false.
    change ((92 =? 34)%Z) with false. change ((92 =? ch "\")%Z) with true. cbn iota.
    rewrite IH. cbn [mbind result_bind].
    by repeat (apply elem_of_cons in Hr as [->|Hr]; [done|]); apply elem_of_nil in Hr.
  - rewrite !not_elem_of_cons in Hr. destruct Hr as (H0 & H34 & H92 & _).
    rewrite <- app_assoc. cbn [app lex_string]. rewrite (proj2 (Z.eqb_neq r 0) H0).
    rewrite (proj2 (Z.eqb_neq r 34) H34). change (ch "\") with 92%Z.
    rewrite (proj2 (Z.eqb_neq r 92) H92). by rewrite IH.
Qed.

Lemma escape_valid rs : forallb valid_rune rs = true → forallb valid_rune (escape rs) = true.
Proof using Type.
  induction rs as [|r rs IH]; [done|]. simpl. rewrite andb_true_iff. intros [Hr Hrs].
  unfold escape. csimpl. change (mjoin _) with (escape rs). rewrite forallb_app, IH by done.
  case_bool_decide; simpl; by rewrite Hr.
Qed.

Lemma lexes_text rs :
  forallb valid_rune rs = true → lexes (MkToken TokString (string_of_runes rs)).
Proof using Type.
  intros Hv. unfold lexes, tok_text. cbn [tok_Type tok_Value]. rewrite runes_of_runes by done.
  split_and!; [done| |].
  - simpl. by rewrite forallb_app, escape_valid.
  - intros rest. rewrite <- app_comm_cons, <- app_assoc. unfold NextToken.
    change (skip_space (34%Z :: ?l)) with (34%Z :: l). cbn [tail].
    change (lex_peek (34%Z :: _)) with 34%Z.
    change ([34%Z] ++ ?l) with (34%Z :: l). rewrite lex_string_escape. done.
Qed.

Lemma lex_while_path rs rest :
  forallb (λ r, valid_rune r && path_char U r) rs = true →
  lex_while (path_char U) (rs ++ 32%Z :: rest) = (rs, 32%Z :: rest).
Proof using Type.
  induction rs as [|r rs IH]; [done|]. cbn [forallb app lex_while].
  rewrite !andb_true_iff. intros [[_ ->] H]. by rewrite IH.
Qed.

Lemma lexes_path rs :
  forallb (λ r, valid_rune r && path_char U r) rs = true →
  lexes (MkToken TokPath ("$" +:+ string_of_runes rs)).
Proof using Type.
  intros Hv. assert (forallb valid_rune rs = true) as Hv'.
  { rewrite !forallb_forall in *. intros x Hx%Hv. by apply andb_true_iff in Hx as [? _]. }
  change ("$" +:+ string_of_runes rs) with (string_of_runes (36%Z :: rs)).
  unfold lexes, tok_text. cbn [tok_Type tok_Value]. rewrite runes_of_runes by done.
  split_and!; [done|done|]. intros rest. unfold NextToken. rewrite <- app_comm_cons.
  change (skip_space (36%Z :: ?l)) with (36%Z :: l). cbn [tail].
  change (lex_peek (36%Z :: _)) with 36%Z. by rewrite lex_while_path.
Qed.

Lemma lexes_wrap p q b : Forall lexes b → Forall lexes (wrap p q b).
Proof using Type.
  intros Hb. unfold wrap. destruct (q <? p); [|done]. constructor; [done|].
  apply Forall_app. split; [done|]. by repeat constructor.
Qed.

Lemma lexes_separated ls : Forall (Forall lexes) ls → Forall lexes (separated comma ls).
Proof using Type.
  induction 1 as [|l ls Hl Hls IH]; [constructor|]. destruct ls as [|l' ls]; [done|].
  cbn [separated]. apply Forall_app. split; [done|]. constructor; [done|apply IH].
Qed.

Lemma lexes_body e : wf e → Forall lexes (body e).
Proof using Type.
  induction 1 as [ds Hds|rs Hrs|b| |rs Hrs|es Hes IH|op e Hop He IH|l op r Hop Hl IHl Hr IHr]
    using wf_ind'; cbn [body].
  - apply Forall_singleton. by apply lexes_number.
  - apply Forall_singleton. by apply lexes_text.
  - apply Forall_singleton. by destruct b.
  - by apply Forall_singleton.
  - apply Forall_singleton. by apply lexes_path.
  - constructor; [done|]. apply Forall_app. split; [|by apply Forall_singleton].
    apply lexes_separated, Forall_fmap. exact IH.
  - constructor; [|by apply lexes_wrap]. apply lexes_op. set_solver.
  - apply Forall_app. split; [by apply lexes_wrap|].
    constructor; [|by apply lexes_wrap]. apply lexes_op. set_solver.
Qed.

Lemma text_of_valid ts : Forall lexes ts → forallb valid_rune (text_of ts) = true.
Proof using Type.
  induction 1 as [|t ts (_ & Ht & _) Hts IH]; [done|]. unfold text_of. csimpl.
  change (mjoin _) with (text_of ts). by rewrite !forallb_app, Ht, IH.
Qed.

Lemma text_of_length ts : length ts <= length (text_of ts).
Proof using Type.
  induction ts as [|t ts IH]; [done|]. unfold text_of. csimpl. change (mjoin _) with (text_of ts).
  rewrite !length_app. simpl. lia.
Qed.
End unicode.

(** C27: Reading inverts printing: an expression printed with parentheses only where precedence
    and left associativity need them, with string literals escaped, is parsed as exactly the
    tree it stands for. *)
Theorem Parse_print U e : wf U e → Parse U (print e) = Ok (elab e).
Proof.
  intros Hwf. pose proof (lexes_body U e Hwf) as Hl. unfold Parse, print.
  rewrite runes_of_runes by (by eapply text_of_valid). pose proof (text_of_length (body e)).
  rewrite (lex_text_of U) by (done || lia). by apply (parse_tokens_body U).
Qed.

(** A nested example; its text literal holds a double quote. *)
Definition example_expr : expr :=
  let number z := ENumber [z + 48]%Z in
  EBinary
    (EBinary (number 1%Z) "-"
       (EBinary (EBinary (number 2%Z) "-" (number 3%Z)) "*" (EUnary "-" (EPath [46; 120]%Z))))
    "in"
    (EList [EBinary (EBinary (EBool true) "||" (EBool false)) "&&" (EUnary "!" ENull);
            EText [105; 116; 34; 115]%Z]).

Definition latin_tables : tables := Tables (λ _, false) (λ _, false) id.

Lemma Parse_print_witness :
  Parse latin_tables (print example_expr) = Ok (elab example_expr).
Proof.
  apply (Parse_print latin_tables example_expr).
  repeat (constructor; try reflexivity); decide_closed.
Defined.
