(* ===== verification/Heap.v ===== *)
(** Binary heaps: the package [container/heap] over its interface.

    [HeapInterface] is [heap.Interface]; [HeapLaws] says that a state of the interface is a
    list of items compared by a strict weak order, that [Swap] exchanges two of them and that
    [Push] and [Pop] work at the end.  The functions of the package keep the heap order and the
    items of any such state. *)
From S2P Require Import Prelude.

Class HeapInterface (St A : Type) := {
  Len : St → nat;
  Less : St → nat → nat → bool;
  Swap : St → nat → nat → St;
  Push : St → A → St;
  Pop : St → option (A * St)
}.

Section functions.
Context {St A : Type} `{HeapInterface St A}.

Fixpoint up_loop (fuel : nat) (s : St) (j : nat) : St :=
  match fuel with
  | 0 => s
  | S fuel' =>
      let i := (j - 1) / 2 in
      if (i =? j) || negb (Less s j i) then s else up_loop fuel' (Swap s i j) i
  end.
(** Every round moves to the parent; [S j] rounds reach the root. *)
Definition up (s : St) (j : nat) : St := up_loop (S j) s j.

Fixpoint down_loop (fuel : nat) (s : St) (i n : nat) : St * nat :=
  match fuel with
  | 0 => (s, i)
  | S fuel' =>
      let j1 := 2 * i + 1 in
      if n <=? j1 then (s, i)
      else
        let j2 := j1 + 1 in
        let j := if (j2 <? n) && Less s j2 j1 then j2 else j1 in
        if negb (Less s j i) then (s, i) else down_loop fuel' (Swap s i j) j n
  end.
(** Every round moves to a child; [n] rounds reach a leaf. *)
Definition down (s : St) (i0 n : nat) : St * bool :=
  let '(s', i) := down_loop n s i0 n in (s', i0 <? i).

(** Downwards, and upwards when nothing moved. *)
Definition down_up (s : St) (i n : nat) : St :=
  let '(s', moved) := down s i n in if moved then s' else up s' i.

Definition heap_Push (s : St) (x : A) : St :=
  let s := Push s x in up s (Len s - 1).

Definition heap_Pop (s : St) : option (A * St) :=
  let n := Len s - 1 in
  let s := Swap s 0 n in
  Pop (down s 0 n).1.

Definition heap_Remove (s : St) (i : nat) : option (A * St) :=
  let n := Len s - 1 in
  if n =? i then Pop s else Pop (down_up (Swap s i n) i n).

Definition heap_Fix (s : St) (i : nat) : St := down_up s i (Len s).
End functions.

(** * Laws *)

Definition parent (j : nat) : nat := (j - 1) / 2.

Definition swap_list {B} (i j : nat) (l : list B) : list B :=
  match l !! i, l !! j with
  | Some a, Some b => <[i := b]> (<[j := a]> l)
  | _, _ => l
  end.

Class HeapLaws (St A B : Type) `{HeapInterface St A} := {
  items : St → list B;
  view : St → A → B;
  lt : B → B → bool;
  lt_asym : ∀ a b, lt a b = true → lt b a = false;
  lt_trans : ∀ a b c, lt b a = false → lt c b = false → lt c a = false;
  Len_items : ∀ s, Len s = length (items s);
  Less_items : ∀ s i j a b, items s !! i = Some a → items s !! j = Some b → Less s i j = lt a b;
  Swap_items : ∀ s i j, i < Len s → j < Len s → items (Swap s i j) = swap_list i j (items s);
  Swap_view : ∀ s i j x, i < Len s → j < Len s → view (Swap s i j) x = view s x;
  Push_items : ∀ s x, items (Push s x) = items s ++ [view s x];
  Pop_items : ∀ s, Len s ≠ 0 →
    ∃ x s', Pop s = Some (x, s') ∧ items s = items s' ++ [view s x]
}.

Lemma swap_list_length {B} i j (l : list B) : length (swap_list i j l) = length l.
Proof. unfold swap_list. repeat case_match; by rewrite ?length_insert. Qed.

Lemma swap_list_lookup {B} i j k (l : list B) :
  i < length l → j < length l →
  swap_list i j l !! k = if decide (k = i) then l !! j else if decide (k = j) then l !! i else l !! k.
Proof.
  intros Hi Hj. unfold swap_list.
  destruct (lookup_lt_is_Some_2 l i Hi) as [a Ha], (lookup_lt_is_Some_2 l j Hj) as [b Hb].
  rewrite Ha, Hb. destruct (decide (k = i)) as [->|Hki].
  - rewrite list_lookup_insert_eq; [done|]. by rewrite length_insert.
  - rewrite list_lookup_insert_ne by done. destruct (decide (k = j)) as [->|Hkj].
    + by rewrite list_lookup_insert_eq.
    + by rewrite list_lookup_insert_ne.
Qed.

Lemma swap_list_perm {B} i j (l : list B) :
  i < length l → j < length l → swap_list i j l ≡ₚ l.
Proof.
  intros Hi Hj. unfold swap_list.
  destruct (lookup_lt_is_Some_2 l i Hi) as [a Ha], (lookup_lt_is_Some_2 l j Hj) as [b Hb].
  rewrite Ha, Hb. by apply Permutation_insert_swap.
Qed.

(** * Heap order *)

Section heap.
Context {St A B : Type} `{HeapLaws St A B}.

(** [a] may sit above [b]. *)
Definition le (a b : B) : Prop := lt b a = false.
Definition ok (l : list B) (i j : nat) : Prop :=
  ∀ a b, l !! i = Some a → l !! j = Some b → le a b.

(** The first [n] items are in heap order. *)
Definition heap (n : nat) (l : list B) : Prop :=
  ∀ j, 0 < j → j < n → ok l (parent j) j.
(** The same for the pairs that do not touch position [k]; below [k], the children may sit
    under its parent. *)
Definition heap_but (n k : nat) (l : list B) : Prop :=
  (∀ j, 0 < j → j < n → j ≠ k → parent j ≠ k → ok l (parent j) j) ∧
  (∀ c, 0 < k → 0 < c → c < n → parent c = k → ok l (parent k) c).
Definition below_ok (n k : nat) (l : list B) : Prop :=
  ∀ c, 0 < c → c < n → parent c = k → ok l k c.
Definition above_ok (k : nat) (l : list B) : Prop := 0 < k → ok l (parent k) k.

Lemma le_refl a : le a a.
Proof. unfold le. destruct (lt a a) eqn:E; [|done]. pose proof (lt_asym _ _ E). congruence. Qed.

Lemma le_trans a b c : le a b → le b c → le a c.
Proof. apply lt_trans. Qed.

Lemma lt_le a b : lt a b = true → le a b.
Proof. apply lt_asym. Qed.

Lemma parent_lt j : 0 < j → parent j < j.
Proof. intros. unfold parent. apply Nat.Div0.div_lt_upper_bound. lia. Qed.

Lemma parent_child c k : 0 < c → parent c = k ↔ c = 2 * k + 1 ∨ c = 2 * k + 2.
Proof.
  intros Hc. unfold parent. pose proof (Nat.div_mod_eq (c - 1) 2).
  pose proof (Nat.mod_upper_bound (c - 1) 2). lia.
Qed.

Lemma heap_all n k l : heap_but n k l → below_ok n k l → above_ok k l → heap n l.
Proof.
  intros [Hb _] Hbelow Habove j Hj Hn. destruct (decide (j = k)) as [->|Hjk]; [by apply Habove|].
  destruct (decide (parent j = k)) as [<-|Hpk]; [by apply Hbelow|by apply Hb].
Qed.

Lemma heap_heap_but n k l : heap n l → heap_but n k l.
Proof.
  intros Hh. split; [intros; by apply Hh|]. intros c Hk Hc Hn Hpc a b Ha Hb.
  pose proof (parent_lt c Hc).
  destruct (lookup_lt_is_Some_2 l k) as [x Hx].
  { apply lookup_lt_Some in Hb. lia. }
  apply (le_trans a x).
  - apply (Hh k); [done|lia|done|done].
  - apply (Hh c); [done|done|by rewrite Hpc|done].
Qed.

(** Nothing is said of position [k] itself. *)
Lemma heap_but_ext n k (l l' : list B) :
  (∀ j, j ≠ k → l !! j = l' !! j) → heap_but n k l → heap_but n k l'.
Proof.
  intros Heq [Hb Hbr]. split.
  - intros j Hj Hn Hjk Hpk a b. rewrite <- !Heq by done. by apply Hb.
  - intros c Hk Hc Hn Hpc a b. pose proof (parent_lt c Hc). pose proof (parent_lt k Hk).
    rewrite <- !Heq by lia. by apply Hbr.
Qed.

(** The value after a swap, at the two places and elsewhere. *)
Lemma swap_left i j (l : list B) :
  i < length l → j < length l → swap_list i j l !! i = l !! j.
Proof. intros. rewrite swap_list_lookup by done. by rewrite decide_True. Qed.
Lemma swap_right i j (l : list B) :
  i < length l → j < length l → i ≠ j → swap_list i j l !! j = l !! i.
Proof.
  intros. rewrite swap_list_lookup by done. rewrite decide_False by done. by rewrite decide_True.
Qed.
Lemma swap_other i j k (l : list B) :
  i < length l → j < length l → k ≠ i → k ≠ j → swap_list i j l !! k = l !! k.
Proof. intros. rewrite swap_list_lookup by done. by rewrite !decide_False. Qed.

(** One step up: the smaller child goes to its parent's place. *)
Lemma up_step n k l :
  0 < k → k < n → n <= length l → heap_but n k l → below_ok n k l → ¬ ok l (parent k) k →
  let l' := swap_list (parent k) k l in
  heap_but n (parent k) l' ∧ below_ok n (parent k) l'.
Proof.
  intros Hk Hn Hlen [Hb Hbr] Hbelow Hnok l'. set (p := parent k) in *.
  pose proof (parent_lt k Hk) as Hpk. fold p in Hpk.
  assert (p < length l) as Hp by lia. assert (k < length l) as Hkl by lia.
  destruct (lookup_lt_is_Some_2 l p Hp) as [x Hx], (lookup_lt_is_Some_2 l k Hkl) as [y Hy].
  assert (le y x) as Hyx.
  { apply lt_le. destruct (lt y x) eqn:E; [done|]. exfalso. apply Hnok.
    intros a b ??. by simplify_eq. }
  assert (l' !! p = Some y) as Lp by (unfold l'; by rewrite swap_left).
  assert (l' !! k = Some x) as Lk by (unfold l'; rewrite swap_right by lia; done).
  assert (∀ j, j ≠ p → j ≠ k → l' !! j = l !! j) as Lo
    by (intros; unfold l'; by apply swap_other).
  assert (∀ c, 0 < c → c < n → parent c = p → c ≠ k → ok l p c) as Hsib.
  { intros c Hc Hcn Hpc Hck. rewrite <- Hpc. apply Hb; [done..|]. lia. }
  assert (below_ok n p l') as Hbelow'.
  { intros c Hc Hcn Hpc a b Ha Hlb. rewrite Lp in Ha. simplify_eq.
    pose proof (parent_lt c Hc). destruct (decide (c = k)) as [->|Hck]; [by simplify_eq|].
    rewrite Lo in Hlb by lia. apply (le_trans a x); [done|]. by apply (Hsib c). }
  split; [split|done].
  - intros j Hj Hjn Hjp Hpj a b Ha Hlb. destruct (decide (j = k)) as [->|Hjk]; [done|].
    rewrite Lo in Hlb by done. destruct (decide (parent j = k)) as [Hpjk|Hpjk].
    + rewrite Hpjk, Lk in Ha. simplify_eq. by apply (Hbr j).
    + rewrite Lo in Ha by done. by apply (Hb j).
  - intros c Hp0 Hc Hcn Hpc a b Ha Hlb. pose proof (parent_lt c Hc). pose proof (parent_lt p Hp0).
    rewrite Lo in Ha by lia.
    assert (le a x) as Hax by (apply (Hb p); [done|lia|lia|lia|done|done]).
    destruct (decide (c = k)) as [->|Hck]; [by simplify_eq|].
    rewrite Lo in Hlb by lia. apply (le_trans a x); [done|]. by apply (Hsib c).
Qed.

(** One step down: the smallest child [j] goes to the place of its parent [k]. *)
Lemma down_step n k j l :
  0 < j → j < n → n <= length l → parent j = k →
  (∀ c, 0 < c → c < n → parent c = k → ok l j c) → heap_but n k l → ¬ ok l k j →
  let l' := swap_list k j l in heap_but n j l' ∧ above_ok j l'.
Proof.
  intros Hj Hn Hlen Hpj Hmin [Hb Hbr] Hnok l'.
  pose proof (parent_lt j Hj) as Hkj. rewrite Hpj in Hkj.
  assert (k < length l) as Hk by lia. assert (j < length l) as Hjl by lia.
  destruct (lookup_lt_is_Some_2 l k Hk) as [x Hx], (lookup_lt_is_Some_2 l j Hjl) as [y Hy].
  assert (le y x) as Hyx.
  { apply lt_le. destruct (lt y x) eqn:E; [done|]. exfalso. apply Hnok.
    intros a b ??. by simplify_eq. }
  assert (l' !! k = Some y) as Lk by (unfold l'; by rewrite swap_left).
  assert (l' !! j = Some x) as Lj by (unfold l'; rewrite swap_right by lia; done).
  assert (∀ i, i ≠ k → i ≠ j → l' !! i = l !! i) as Lo
    by (intros; unfold l'; by apply swap_other).
  split; [split|].
  - intros i Hi Hin Hij Hpi a b Ha Hlb. destruct (decide (i = k)) as [Eik|Hik].
    + subst i. pose proof (parent_lt k Hi). rewrite Lo in Ha by lia. rewrite Lk in Hlb.
      injection Hlb as <-. by apply (Hbr j).
    + rewrite Lo in Hlb by done. destruct (decide (parent i = k)) as [Hpk|Hpk].
      * rewrite Hpk, Lk in Ha. simplify_eq. by apply (Hmin i).
      * rewrite Lo in Ha by done. by apply (Hb i).
  - intros c _ Hc Hcn Hpc a b Ha Hlb. pose proof (parent_lt c Hc).
    rewrite Hpj, Lk in Ha. injection Ha as <-. rewrite Lo in Hlb by lia.
    apply (Hb c); [done|done|lia|lia|by rewrite Hpc|done].
  - intros _ a b Ha Hlb. rewrite Hpj in Ha. by simplify_eq.
Qed.

(** The first item of a heap may sit above every other. *)
Lemma heap_min n l j a b :
  heap n l → j < n → n <= length l → l !! 0 = Some a → l !! j = Some b → le a b.
Proof.
  intros Hh. revert b. induction j as [j IH] using lt_wf_ind. intros b Hj Hn Ha Hb.
  destruct (decide (j = 0)) as [->|Hj0]; [simplify_eq; apply le_refl|].
  pose proof (parent_lt j). destruct (lookup_lt_is_Some_2 l (parent j)) as [x Hx]; [lia|].
  apply (le_trans a x); [apply (IH (parent j)); auto with lia|]. apply (Hh j); auto with lia.
Qed.

(** * The functions *)

(** What the loops do to a state: exchanges among its first [n] items. *)
Inductive swaps (n : nat) : St → St → Prop :=
  | swaps_refl s : swaps n s s
  | swaps_step s i j s' :
      i < n → j < n → n <= Len s → swaps n (Swap s i j) s' → swaps n s s'.

Lemma Swap_Len s i j : i < Len s → j < Len s → Len (Swap s i j) = Len s.
Proof. intros. rewrite !Len_items, Swap_items by done. apply swap_list_length. Qed.

Lemma swaps_spec n s s' :
  swaps n s s' →
  Len s' = Len s ∧ items s' ≡ₚ items s ∧ (∀ x, view s' x = view s x) ∧
  ∀ k, n <= k → items s' !! k = items s !! k.
Proof.
  induction 1 as [s|s i j s' Hi Hj Hn Hs (IHl & IHp & IHv & IHk)]; [done|]. split_and!.
  - by rewrite IHl, Swap_Len by lia.
  - rewrite IHp, Swap_items by lia. apply swap_list_perm; rewrite <- Len_items; lia.
  - intros x. by rewrite IHv, Swap_view by lia.
  - intros k Hk. rewrite IHk, Swap_items by lia.
    apply swap_other; rewrite <- ?Len_items; lia.
Qed.

Lemma swaps_trans n s1 s2 s3 : swaps n s1 s2 → swaps n s2 s3 → swaps n s1 s3.
Proof.
  induction 1 as [s|s i j s' Hi Hj Hn Hs IH]; [done|]. intros H3.
  by apply (swaps_step n s i j); [| | |apply IH].
Qed.

Lemma swaps_weaken n n' s s' : n <= n' → n' <= Len s → swaps n s s' → swaps n' s s'.
Proof.
  intros Hn. induction 2 as [s|s i j s' Hi Hj Hns Hs IH]; [constructor|].
  apply (swaps_step n' s i j); [lia|lia|done|]. apply IH. by rewrite Swap_Len by lia.
Qed.

Lemma not_Less_ok s i j :
  i < Len s → j < Len s → Less s j i = false ↔ ok (items s) i j.
Proof.
  rewrite !Len_items. intros Hi Hj.
  destruct (lookup_lt_is_Some_2 _ _ Hi) as [a Ha], (lookup_lt_is_Some_2 _ _ Hj) as [b Hb].
  rewrite (Less_items s j i b a) by done. unfold ok. rewrite Ha, Hb.
  split; [|intros Hok; by apply Hok]. intros E a' b' ??. by simplify_eq.
Qed.

Lemma up_loop_spec fuel s k n :
  k < fuel → k < n → n <= Len s → heap_but n k (items s) → below_ok n k (items s) →
  heap n (items (up_loop fuel s k)) ∧ swaps n s (up_loop fuel s k).
Proof.
  revert s k. induction fuel as [|fuel IH]; intros s k Hf Hk Hn Hb Hbelow; [lia|].
  cbn [up_loop]. fold (parent k).
  destruct (Nat.eqb_spec (parent k) k) as [E|Hne].
  { split; [|constructor]. apply (heap_all n k); [done..|]. intros Hk0.
    pose proof (parent_lt k Hk0). lia. }
  assert (0 < k) as Hk0. { destruct k; [done|lia]. }
  pose proof (parent_lt k Hk0) as Hp.
  destruct (Less s k (parent k)) eqn:E; cbn [orb negb].
  - assert (¬ ok (items s) (parent k) k) as Hnok.
    { intros Hok%not_Less_ok; [congruence|lia|lia]. }
    rewrite Len_items in Hn.
    destruct (up_step n k (items s) Hk0 Hk Hn Hb Hbelow Hnok) as [Hb' Hbelow'].
    rewrite <- Len_items in Hn. rewrite <- Swap_items in Hb', Hbelow' by lia.
    destruct (IH (Swap s (parent k) k) (parent k)) as [Hh Hs]; try done.
    + lia.
    + lia.
    + by rewrite Swap_Len by lia.
    + split; [done|]. by apply (swaps_step n s (parent k) k); [lia|lia|lia|].
  - split; [|constructor]. apply (heap_all n k); [done..|]. intros _. apply not_Less_ok; [lia|lia|done].
Qed.

(** The child the loop picks may sit above both. *)
Lemma pick_child s k n :
  let j1 := 2 * k + 1 in
  let j := if (j1 + 1 <? n) && Less s (j1 + 1) j1 then j1 + 1 else j1 in
  j1 < n → n <= Len s →
  0 < j ∧ j < n ∧ parent j = k ∧ ∀ c, 0 < c → c < n → parent c = k → ok (items s) j c.
Proof.
  intros j1 j Hj1 Hn.
  assert (parent j1 = k ∧ parent (j1 + 1) = k) as [Hp1 Hp2]
    by (split; apply parent_child; unfold j1; lia).
  assert (∀ i, i < Len s → ok (items s) i i) as Hrefl.
  { intros i Hi a b ??. simplify_eq. apply le_refl. }
  destruct (Nat.ltb_spec (j1 + 1) n) as [H2|H2]; cbn [andb] in j.
  - destruct (Less s (j1 + 1) j1) eqn:E; unfold j; split_and!; try done; try lia.
    + intros c Hc Hcn Hpc. apply (parent_child c k Hc) in Hpc as [->| ->].
      * intros a b Ha Hlb. fold j1 in Hlb.
        rewrite (Less_items s (j1 + 1) j1 a b) in E by done. by apply lt_le.
      * replace (2 * k + 2) with (j1 + 1) by (unfold j1; lia). apply Hrefl. lia.
    + intros c Hc Hcn Hpc. apply (parent_child c k Hc) in Hpc as [->| ->];
        [apply Hrefl; fold j1; lia|].
      replace (2 * k + 2) with (j1 + 1) by (unfold j1; lia).
      apply not_Less_ok; [lia|lia|done].
  - unfold j. split_and!; try done; try lia.
    intros c Hc Hcn Hpc. apply (parent_child c k Hc) in Hpc as [->| ->];
        [apply Hrefl; fold j1; lia|].
    unfold j1 in *. lia.
Qed.

Lemma down_loop_spec fuel s k n :
  n <= k + fuel → n <= Len s → heap_but n k (items s) →
  let '(s', i) := down_loop fuel s k n in
  swaps n s s' ∧ k <= i ∧
  (i = k → s' = s ∧ below_ok n k (items s)) ∧
  (k < i ∨ above_ok k (items s) → heap n (items s')).
Proof.
  revert s k. induction fuel as [|fuel IH]; intros s k Hf Hn Hb.
  { assert (below_ok n k (items s)) as Hbl.
    { intros c Hc Hcn Hpc. pose proof (parent_lt c Hc). lia. }
    split_and!; [constructor|done|done|]. intros [?|Ha]; [lia|]. by apply (heap_all n k). }
  cbn [down_loop]. destruct (Nat.leb_spec n (2 * k + 1)) as [Hle|Hgt].
  { assert (below_ok n k (items s)) as Hbl.
    { intros c Hc Hcn Hpc. apply (parent_child c k Hc) in Hpc. lia. }
    split_and!; [constructor|done|done|]. intros [?|Ha]; [lia|]. by apply (heap_all n k). }
  destruct (pick_child s k n Hgt Hn) as (Hj0 & Hjn & Hpj & Hmin).
  set (j := if _ && _ then _ else _) in *. clearbody j.
  pose proof (parent_lt j Hj0) as Hkj. rewrite Hpj in Hkj.
  destruct (Less s j k) eqn:E; cbn [negb].
  - assert (¬ ok (items s) k j) as Hnok. { intros Hok%not_Less_ok; [congruence|lia|lia]. }
    rewrite Len_items in Hn.
    destruct (down_step n k j (items s) Hj0 Hjn Hn Hpj Hmin Hb Hnok) as [Hb' Ha'].
    rewrite <- Len_items in Hn. rewrite <- Swap_items in Hb', Ha' by lia.
    specialize (IH (Swap s k j) j). rewrite Swap_Len in IH by lia.
    destruct (down_loop fuel (Swap s k j) j n) as [s' i].
    destruct IH as (Hs & Hi & Hieq & Hh); [lia|done|done|].
    split_and!; [by apply (swaps_step n s k j); [lia|lia|lia|]|lia|lia|].
    intros _. apply Hh. by right.
  - assert (below_ok n k (items s)) as Hbl.
    { intros c Hc Hcn Hpc a b Ha Hlb.
      destruct (lookup_lt_is_Some_2 (items s) j) as [y Hy]; [rewrite <- Len_items; lia|].
      apply (le_trans a y); [|by apply (Hmin c)].
      eapply not_Less_ok; [| |exact E|done|done]; lia. }
    split_and!; [constructor|done|done|]. intros [?|Ha]; [lia|]. by apply (heap_all n k).
Qed.

Lemma down_up_spec s i n :
  i < n → n <= Len s → heap_but n i (items s) →
  heap n (items (down_up s i n)) ∧ swaps n s (down_up s i n).
Proof.
  intros Hi Hn Hb. unfold down_up, down. pose proof (down_loop_spec n s i n) as Hd.
  destruct (down_loop n s i n) as [s' k]. destruct Hd as (Hs & Hik & Hst & Hh); [lia|done|done|].
  destruct (Nat.ltb_spec i k) as [Hlt|Hge]; [split; [apply Hh; by left|done]|].
  destruct Hst as [-> Hbelow]; [lia|]. apply up_loop_spec; auto with lia.
Qed.

(** The queue as a client sees it. *)
Definition is_heap (s : St) : Prop := heap (Len s) (items s).

Lemma heap_Push_spec s x :
  is_heap s →
  is_heap (heap_Push s x) ∧ items (heap_Push s x) ≡ₚ view s x :: items s ∧
  swaps (Len (Push s x)) (Push s x) (heap_Push s x).
Proof.
  intros Hh. unfold is_heap, heap_Push, up in *.
  assert (Len (Push s x) = S (Len s)) as HL.
  { rewrite !Len_items, Push_items, length_app. simpl. lia. }
  assert (items (Push s x) = items s ++ [view s x]) as HI by apply Push_items.
  pose proof (Len_items s) as Hls.
  destruct (up_loop_spec (S (Len (Push s x) - 1)) (Push s x) (Len (Push s x) - 1)
    (Len (Push s x))) as [Hh' Hs]; try lia.
  - rewrite HL, HI. split.
    + intros j Hj Hjn Hne _ a b Ha Hb. pose proof (parent_lt j Hj).
      rewrite lookup_app_l in Ha, Hb by lia. apply (Hh j); [lia|lia|done|done].
    + intros c Hk Hc Hcn Hpc. pose proof (parent_lt c Hc). lia.
  - intros c Hc Hcn Hpc. pose proof (parent_lt c Hc). lia.
  - destruct (swaps_spec _ _ _ Hs) as (Hl & Hp & _ & _). rewrite Hl. split_and!; [done| |done].
    rewrite Hp, HI. by rewrite Permutation_app_comm.
Qed.

(** Taking the last item to position [i] leaves a heap but for that position. *)
Lemma swap_last n i l :
  heap (S n) l → length l = S n → i < n → heap_but n i (swap_list i n l).
Proof.
  intros Hh Hl Hi.
  assert (∀ k, k ≠ i → k < n → swap_list i n l !! k = l !! k) as Ho
    by (intros; apply swap_other; lia).
  destruct (heap_heap_but (S n) i l Hh) as [Hb Hbr]. split.
  - intros j Hj Hjn Hji Hpj a b Ha Hlb. pose proof (parent_lt j Hj).
    rewrite Ho in Ha, Hlb by lia. apply (Hb j); [done|lia|done|done|done|done].
  - intros c Hi0 Hc Hcn Hpc a b Ha Hlb. pose proof (parent_lt c Hc). pose proof (parent_lt i Hi0).
    rewrite Ho in Ha, Hlb by lia. apply (Hbr c); [done|done|lia|done|done|done].
Qed.

(** Popping a state whose first items are a heap. *)
Lemma Pop_spec s n m :
  S n = Len s → swaps n s m → heap n (items m) →
  ∃ x s', Pop m = Some (x, s') ∧ is_heap s' ∧ items s ≡ₚ view s x :: items s' ∧
    items s !! n = Some (view s x).
Proof.
  intros Hn Hs Hh. destruct (swaps_spec _ _ _ Hs) as (Hl & Hp & Hv & Hk).
  destruct (Pop_items m) as (x & s' & Hpop & Hi); [lia|].
  assert (Len s' = n) as Hls.
  { pose proof (Len_items m) as E. rewrite Hi, length_app, <- Len_items in E. simpl in E. lia. }
  exists x, s'. split_and!; [done| | |].
  - intros j Hj Hjn a b Ha Hb. pose proof (parent_lt j Hj). rewrite Hls in Hjn.
    pose proof (Len_items s'). apply (Hh j Hj Hjn); rewrite Hi, lookup_app_l by lia; done.
  - rewrite <- Hp, Hi, Hv. by rewrite Permutation_app_comm.
  - rewrite <- Hk, Hi, Hv by lia. rewrite <- Hls, Len_items. by rewrite list_lookup_middle.
Qed.

Lemma heap_Remove_spec s i :
  is_heap s → i < Len s →
  ∃ x s', heap_Remove s i = Some (x, s') ∧ is_heap s' ∧
    items s ≡ₚ view s x :: items s' ∧ items s !! i = Some (view s x) ∧
    ∃ m, swaps (Len s) s m ∧ Pop m = Some (x, s').
Proof.
  unfold is_heap at 1, heap_Remove. intros Hh Hi.
  destruct (Len s) as [|n] eqn:Hn; [lia|]. replace (S n - 1) with n by lia.
  destruct (Nat.eqb_spec n i) as [<-|Hne].
  { destruct (Pop_spec s n s) as (x & s' & ? & ? & ? & ?); [done|constructor| |].
    - intros j Hj Hjn. apply Hh; lia.
    - exists x, s'. split_and!; [done..|]. exists s. split; [constructor|done]. }
  pose proof (Len_items s) as Hl. rewrite Hn in Hl.
  assert (Len (Swap s i n) = S n) as Hls by (rewrite Swap_Len by lia; done).
  assert (items (Swap s i n) = swap_list i n (items s)) as Hsw by (apply Swap_items; lia).
  destruct (down_up_spec (Swap s i n) i n) as [Hh' Hs]; [lia|lia| |].
  { rewrite Hsw. by apply swap_last; [|done|lia]. }
  destruct (Pop_spec (Swap s i n) n (down_up (Swap s i n) i n))
    as (x & s' & Hpop & Hhs & Hp & Hx); [done|done|done|].
  rewrite Swap_view in Hp, Hx by lia. rewrite Hsw in Hp, Hx. exists x, s'.
  split_and!; [done|done| | |].
  - rewrite <- Hp. symmetry. apply swap_list_perm; lia.
  - by rewrite swap_right in Hx by lia.
  - eexists. split; [|exact Hpop]. apply (swaps_step _ s i n); [lia|lia|lia|].
    apply (swaps_weaken n); [lia|lia|done].
Qed.

Lemma heap_Pop_spec s :
  is_heap s → Len s ≠ 0 →
  ∃ x s', heap_Pop s = Some (x, s') ∧ is_heap s' ∧
    items s ≡ₚ view s x :: items s' ∧ items s !! 0 = Some (view s x) ∧
    Forall (le (view s x)) (items s') ∧
    ∃ m, swaps (Len s) s m ∧ Pop m = Some (x, s').
Proof.
  intros Hh Hne.
  assert (∃ x s', heap_Pop s = Some (x, s') ∧ is_heap s' ∧
    items s ≡ₚ view s x :: items s' ∧ items s !! 0 = Some (view s x) ∧
    ∃ m, swaps (Len s) s m ∧ Pop m = Some (x, s'))
    as (x & s' & Hpop & Hhs & Hp & Hx & Hm).
  { unfold is_heap at 1 in Hh. unfold heap_Pop.
    destruct (Len s) as [|n] eqn:Hn; [done|]. replace (S n - 1) with n by lia.
    pose proof (Len_items s) as Hl. rewrite Hn in Hl.
    assert (Len (Swap s 0 n) = S n) as Hls by (rewrite Swap_Len by lia; done).
    assert (items (Swap s 0 n) = swap_list 0 n (items s)) as Hsw by (apply Swap_items; lia).
    unfold down. pose proof (down_loop_spec n (Swap s 0 n) 0 n) as Hd.
    destruct (down_loop n (Swap s 0 n) 0 n) as [m k]. simpl fst.
    destruct Hd as (Hs & _ & _ & Hh'); [lia|lia| |].
    { rewrite Hsw. destruct (decide (n = 0)) as [->|Hn0]; [|by apply swap_last; [|done|lia]].
      split; intros; lia. }
    destruct (Pop_spec (Swap s 0 n) n m) as (x & s' & Hpop & Hhs & Hp & Hx); [done|done| |].
    { apply Hh'. right. intros ?. lia. }
    rewrite Swap_view in Hp, Hx by lia. rewrite Hsw in Hp, Hx. exists x, s'.
    split_and!; [done|done| | |].
    - rewrite <- Hp. symmetry. apply swap_list_perm; lia.
    - destruct (decide (n = 0)) as [->|Hn0].
      + by rewrite swap_left in Hx by lia.
      + by rewrite swap_right in Hx by lia.
    - exists m. split; [|done]. apply (swaps_step _ s 0 n); [lia|lia|lia|].
      apply (swaps_weaken n); [lia|lia|done]. }
  exists x, s'. split_and!; [done..| |done]. apply Forall_forall. intros b Hb.
  assert (b ∈ items s) as [j Hj]%list_elem_of_lookup by (rewrite Hp; by right).
  pose proof (lookup_lt_Some _ _ _ Hj). pose proof (Len_items s).
  eapply (heap_min (Len s)); [exact Hh| | |exact Hx|exact Hj]; lia.
Qed.

Lemma heap_Fix_spec s i :
  i < Len s → heap_but (Len s) i (items s) →
  is_heap (heap_Fix s i) ∧ swaps (Len s) s (heap_Fix s i).
Proof.
  intros Hi Hb. destruct (down_up_spec s i (Len s)) as [Hh Hs]; [done..|].
  destruct (swaps_spec _ _ _ Hs) as (Hl & _). split; [|done].
  unfold is_heap, heap_Fix. by rewrite Hl.
Qed.
End heap.
