(* ===== verification/Shaper.v ===== *)
(** The traffic shaper: [internal/shaper/shaper.go].

    The queue holds pointers to packets that nothing else refers to, so it is a list of packets
    with their heap indices.  A call that has to wait on the condition variable gives the
    outcome [Wait]; it goes on with the definition for the woken call.  [now] is the time and
    [ctxErr] what [ctx.Err()] returns. *)
From Stdlib Require Import SpecFloat.
From S2P Require Import Prelude Errors Runes Float64 Heap.

Abbreviation SQueueFull := (SOther "shaper: queue capacity exceeded").
Abbreviation SShaperClosed := (SOther "shaper: traffic shaper closed").

Abbreviation Priority := Z (only parsing).
Definition PriorityLow : Priority := 0.
Definition PriorityNormal : Priority := 1.
Definition PriorityHigh : Priority := 2.

Abbreviation DropPolicy := Z (only parsing).
Definition DropNewest : DropPolicy := 0.
Definition DropOldest : DropPolicy := 1.
Definition BlockUntilSpace : DropPolicy := 2.

Record Packet := MkPacket {
  pk_ID : string;
  pk_Priority : Priority;
  pk_Data : list Byte.byte;
  pk_EnqueuedAt : Time;
  pk_seq : Z;
  pk_heapIdx : Z
}.

Definition set_heapIdx (i : Z) (p : Packet) : Packet :=
  MkPacket (pk_ID p) (pk_Priority p) (pk_Data p) (pk_EnqueuedAt p) (pk_seq p) i.

Definition packet_less (p q : Packet) : bool :=
  if negb (pk_Priority p =? pk_Priority q)%Z then (pk_Priority q <? pk_Priority p)%Z
  else (pk_seq p <? pk_seq q)%Z.

Abbreviation packetQueue := (list Packet) (only parsing).

Definition pq_Less (pq : packetQueue) (i j : nat) : bool :=
  match pq !! i, pq !! j with
  | Some p, Some q => packet_less p q
  | _, _ => false
  end.

Definition pq_Swap (pq : packetQueue) (i j : nat) : packetQueue :=
  let pq := swap_list i j pq in
  let pq := alter (set_heapIdx (Z.of_nat i)) i pq in
  alter (set_heapIdx (Z.of_nat j)) j pq.

Definition pq_Push (pq : packetQueue) (p : Packet) : packetQueue :=
  pq ++ [set_heapIdx (Z.of_nat (length pq)) p].

Definition pq_Pop (pq : packetQueue) : option (Packet * packetQueue) :=
  match last pq with
  | Some p => Some (set_heapIdx (-1) p, take (length pq - 1) pq)
  | None => None
  end.

#[export] Instance packetQueue_heap : HeapInterface (list Packet) Packet := {|
  Len := length;
  Less := pq_Less;
  Swap := pq_Swap;
  Push := pq_Push;
  Pop := pq_Pop
|}.

Record Config := MkConfig {
  cfg_Capacity : Z;
  cfg_LeakRate : float64;
  cfg_DropPolicy : DropPolicy
}.

Record TrafficShaper := MkShaper {
  ts_cfg : Config;
  ts_queue : packetQueue;
  ts_paceDelay : Duration;
  ts_seqCounter : Z;
  ts_closed : bool;
  ts_enqueued : Z;
  ts_drained : Z;
  ts_dropped : Z
}.

Definition New (cfg : Config) : TrafficShaper :=
  let capacity := if (cfg_Capacity cfg <=? 0)%Z then 100%Z else cfg_Capacity cfg in
  let rate := if f64_leb (cfg_LeakRate cfg) f64_zero then f64_of_Z 100 else cfg_LeakRate cfg in
  let delaySec := f64_div (f64_of_Z 1) rate in
  MkShaper (MkConfig capacity rate (cfg_DropPolicy cfg)) []
    (int64_of_f64 (f64_mul delaySec (f64_of_Z second))) 0 false 0 0 0.

Definition set_queue (q : packetQueue) (ts : TrafficShaper) : TrafficShaper :=
  MkShaper (ts_cfg ts) q (ts_paceDelay ts) (ts_seqCounter ts) (ts_closed ts) (ts_enqueued ts)
    (ts_drained ts) (ts_dropped ts).
Definition add_dropped (ts : TrafficShaper) : TrafficShaper :=
  MkShaper (ts_cfg ts) (ts_queue ts) (ts_paceDelay ts) (ts_seqCounter ts) (ts_closed ts)
    (ts_enqueued ts) (ts_drained ts) (wrap_s 64 (ts_dropped ts + 1)).

(** The scan for the packet to drop: the lowest priority, and the oldest of these. *)
Definition lower_packet (p q : Packet) : bool :=
  (pk_Priority p <? pk_Priority q)%Z
  || (pk_Priority p =? pk_Priority q)%Z && (pk_seq p <? pk_seq q)%Z.
Definition lowestIdx (pq : packetQueue) : nat :=
  foldl (λ best i, match pq !! i, pq !! best with
                   | Some p, Some q => if lower_packet p q then i else best
                   | _, _ => best
                   end) 0 (seq 1 (length pq - 1)).

Inductive outcome (A : Type) :=
  | Done (a : A)
  | Wait     (** waits on the condition variable *)
  | Spin.    (** an unknown drop policy loops without end *)
Arguments Done {_} _.
Arguments Wait {_}.
Arguments Spin {_}.

Definition push_packet (now : Time) (p : Packet) (ts : TrafficShaper) : TrafficShaper :=
  let seq := wrap_u 64 (ts_seqCounter ts + 1) in
  let p := MkPacket (pk_ID p) (pk_Priority p) (pk_Data p) now seq (pk_heapIdx p) in
  MkShaper (ts_cfg ts) (heap_Push (ts_queue ts) p) (ts_paceDelay ts) seq (ts_closed ts)
    (wrap_s 64 (ts_enqueued ts + 1)) (ts_drained ts) (ts_dropped ts).

(** The loop; every round that goes on drops a packet. *)
Fixpoint enqueue_loop (fuel : nat) (now : Time) (p : Packet) (ts : TrafficShaper) :
    outcome (option error) * TrafficShaper :=
  if (cfg_Capacity (ts_cfg ts) <=? Z.of_nat (length (ts_queue ts)))%Z then
    if ts_closed ts then (Done (Some (ESentinel SShaperClosed)), ts)
    else if (cfg_DropPolicy (ts_cfg ts) =? DropNewest)%Z then
      (Done (Some (ESentinel SQueueFull)), add_dropped ts)
    else if (cfg_DropPolicy (ts_cfg ts) =? DropOldest)%Z then
      match fuel, heap_Remove (ts_queue ts) (lowestIdx (ts_queue ts)) with
      | S fuel', Some (_, q) => enqueue_loop fuel' now p (add_dropped (set_queue q ts))
      | _, _ => (Spin, ts)
      end
    else if (cfg_DropPolicy (ts_cfg ts) =? BlockUntilSpace)%Z then (Wait, ts)
    else (Spin, ts)
  else (Done None, push_packet now p ts).

Definition Enqueue (now : Time) (p : Packet) (ts : TrafficShaper) :
    outcome (option error) * TrafficShaper :=
  if ts_closed ts then (Done (Some (ESentinel SShaperClosed)), ts)
  else enqueue_loop (length (ts_queue ts)) now p ts.

(** A call woken from its wait. *)
Definition Enqueue_woken (ctxErr : option error) (now : Time) (p : Packet) (ts : TrafficShaper) :
    outcome (option error) * TrafficShaper :=
  match ctxErr with
  | Some err => (Done (Some err), ts)
  | None => enqueue_loop (length (ts_queue ts)) now p ts
  end.

Definition zero_packet : Packet := MkPacket "" 0 [] time_zero 0 0.

(** [cut] is the error of a context that ends before the pacing delay. *)
Definition take_packet (cut : option error) (ts : TrafficShaper) :
    outcome (Packet * option error) * TrafficShaper :=
  match heap_Pop (ts_queue ts) with
  | Some (p, q) =>
      (Done (p, if (0 <? ts_paceDelay ts)%Z then cut else None),
       MkShaper (ts_cfg ts) q (ts_paceDelay ts) (ts_seqCounter ts) (ts_closed ts)
         (ts_enqueued ts) (wrap_s 64 (ts_drained ts + 1)) (ts_dropped ts))
  | None => (Spin, ts)
  end.

Definition Next (cut : option error) (ts : TrafficShaper) :
    outcome (Packet * option error) * TrafficShaper :=
  if length (ts_queue ts) =? 0 then
    if ts_closed ts then (Done (zero_packet, Some (ESentinel SShaperClosed)), ts) else (Wait, ts)
  else take_packet cut ts.

Definition Next_woken (ctxErr cut : option error) (ts : TrafficShaper) :
    outcome (Packet * option error) * TrafficShaper :=
  if ts_closed ts && (length (ts_queue ts) =? 0)
  then (Done (zero_packet, Some (ESentinel SShaperClosed)), ts)
  else match ctxErr with
       | Some err => (Done (zero_packet, Some err), ts)
       | None => Next cut ts
       end.

Definition Stats (ts : TrafficShaper) : Z * Z * Z * Z :=
  (Z.of_nat (length (ts_queue ts)), ts_enqueued ts, ts_drained ts, ts_dropped ts).

Definition Close (ts : TrafficShaper) : TrafficShaper :=
  MkShaper (ts_cfg ts) (ts_queue ts) (ts_paceDelay ts) (ts_seqCounter ts) true (ts_enqueued ts)
    (ts_drained ts) (ts_dropped ts).

(** * Theorems

    The traffic shaper is a priority queue that is first-in first-out within a priority.

    The reference keeps the packets in order of arrival: it hands out the first packet of the
    highest priority, and drops the first packet of the lowest one.  It chooses without a heap,
    without indices and without comparing sequence numbers. *)

(** * The queue of packets meets the laws of heaps *)

Lemma packet_less_true p q :
  packet_less p q = true ↔
  (pk_Priority q < pk_Priority p ∨ pk_Priority p = pk_Priority q ∧ pk_seq p < pk_seq q)%Z.
Proof.
  unfold packet_less. destruct (Z.eqb_spec (pk_Priority p) (pk_Priority q)); simpl;
    rewrite Z.ltb_lt; lia.
Qed.

Lemma lower_packet_true p q :
  lower_packet p q = true ↔
  (pk_Priority p < pk_Priority q ∨ pk_Priority p = pk_Priority q ∧ pk_seq p < pk_seq q)%Z.
Proof. unfold lower_packet. rewrite orb_true_iff, andb_true_iff, !Z.ltb_lt, Z.eqb_eq. done. Qed.

Lemma packet_less_false p q :
  packet_less p q = false ↔
  (pk_Priority p < pk_Priority q ∨ pk_Priority p = pk_Priority q ∧ pk_seq q <= pk_seq p)%Z.
Proof. rewrite <- not_true_iff_false, packet_less_true. lia. Qed.

(** A packet without its place in the heap. *)
Definition plain (p : Packet) : Packet := set_heapIdx 0 p.

Lemma plain_set i p : plain (set_heapIdx i p) = plain p.
Proof. done. Qed.

Lemma packet_less_plain p q : packet_less (plain p) (plain q) = packet_less p q.
Proof. done. Qed.

Lemma pq_Swap_plain pq i j :
  i < length pq → j < length pq →
  plain <$> pq_Swap pq i j = swap_list i j (plain <$> pq).
Proof.
  intros Hi Hj. apply list_eq. intros k. unfold pq_Swap.
  rewrite list_lookup_fmap, (swap_list_lookup i j k (plain <$> pq)) by (by rewrite length_fmap).
  rewrite !list_lookup_fmap.
  assert (∀ i' k' (l : list Packet), plain <$> alter (set_heapIdx i') k' l !! k = plain <$> l !! k)
    as Halter.
  { intros i' k' l. destruct (decide (k' = k)) as [->|Hne].
    - rewrite list_lookup_alter_eq. by destruct (l !! k).
    - by rewrite list_lookup_alter_ne. }
  rewrite !Halter, swap_list_lookup by done. by repeat case_decide.
Qed.

#[export] Program Instance packetQueue_laws : HeapLaws (list Packet) Packet Packet := {|
  items pq := plain <$> pq;
  view _ p := plain p;
  lt := packet_less
|}.
Next Obligation. intros a b. rewrite packet_less_true, packet_less_false. lia. Qed.
Next Obligation. intros a b c. rewrite !packet_less_false. lia. Qed.
Next Obligation. intros s. by rewrite length_fmap. Qed.
Next Obligation.
  intros s i j a b. rewrite !list_lookup_fmap, !fmap_Some. intros (p & Hp & ->) (q & Hq & ->).
  simpl. unfold pq_Less. by rewrite Hp, Hq.
Qed.
Next Obligation. intros s i j Hi Hj. by apply pq_Swap_plain. Qed.
Next Obligation. done. Qed.
Next Obligation. intros s x. simpl. unfold pq_Push. by rewrite fmap_app. Qed.
Next Obligation.
  intros s Hs. simpl in *. unfold pq_Pop.
  destruct (last s) as [p|] eqn:E; [|by apply last_None in E as ->].
  eexists _, _. split; [done|]. apply last_Some in E as [l ->].
  rewrite length_app. simpl. replace (length l + 1 - 1) with (length l) by lia.
  rewrite take_app_length, fmap_app. done.
Qed.

(** * The reference queue *)

(** Takes out the first packet that no other beats. *)
Fixpoint extract (better : Packet → Packet → bool) (l : list Packet) :
    option (Packet * list Packet) :=
  match l with
  | [] => None
  | p :: l' =>
      match extract better l' with
      | Some (q, rest) => if better q p then Some (q, p :: rest) else Some (p, l')
      | None => Some (p, l')
      end
  end.
Definition higher (p q : Packet) : bool := (pk_Priority q <? pk_Priority p)%Z.
Definition lower (p q : Packet) : bool := (pk_Priority p <? pk_Priority q)%Z.

Record spec := MkSpec {
  sp_capacity : Z;
  sp_policy : DropPolicy;
  sp_paced : bool;
  sp_packets : list Packet;
  sp_count : Z;
  sp_closed : bool
}.

Definition spec_New (cfg : Config) : spec :=
  MkSpec (cfg_Capacity (ts_cfg (New cfg))) (cfg_DropPolicy cfg) (0 <? ts_paceDelay (New cfg))%Z
    [] 0 false.

Definition spec_add (now : Time) (p : Packet) (sp : spec) : spec :=
  let n := (sp_count sp + 1)%Z in
  MkSpec (sp_capacity sp) (sp_policy sp) (sp_paced sp)
    (sp_packets sp ++ [MkPacket (pk_ID p) (pk_Priority p) (pk_Data p) now n 0]) n (sp_closed sp).
Definition spec_set (l : list Packet) (sp : spec) : spec :=
  MkSpec (sp_capacity sp) (sp_policy sp) (sp_paced sp) l (sp_count sp) (sp_closed sp).

Definition spec_enqueue (now : Time) (p : Packet) (sp : spec) : outcome (option error) * spec :=
  if (Z.of_nat (length (sp_packets sp)) <? sp_capacity sp)%Z then (Done None, spec_add now p sp)
  else if sp_closed sp then (Done (Some (ESentinel SShaperClosed)), sp)
  else if (sp_policy sp =? DropNewest)%Z then (Done (Some (ESentinel SQueueFull)), sp)
  else if (sp_policy sp =? DropOldest)%Z then
    match extract lower (sp_packets sp) with
    | Some (_, rest) => (Done None, spec_add now p (spec_set rest sp))
    | None => (Spin, sp)
    end
  else if (sp_policy sp =? BlockUntilSpace)%Z then (Wait, sp)
  else (Spin, sp).

Definition spec_next (cut : option error) (sp : spec) :
    outcome (Packet * option error) * spec :=
  match extract higher (sp_packets sp) with
  | Some (p, rest) => (Done (set_heapIdx (-1) p, if sp_paced sp then cut else None), spec_set rest sp)
  | None =>
      if sp_closed sp then (Done (zero_packet, Some (ESentinel SShaperClosed)), sp) else (Wait, sp)
  end.

Inductive op :=
  | OEnqueue (now : Time) (p : Packet)
  | OEnqueueWoken (ctxErr : option error) (now : Time) (p : Packet)
  | ONext (cut : option error)
  | ONextWoken (ctxErr cut : option error)
  | OClose.

Inductive answer :=
  | AEnqueue (o : outcome (option error))
  | ANext (o : outcome (Packet * option error))
  | AClose.

Definition shaper_step (o : op) (ts : TrafficShaper) : answer * TrafficShaper :=
  match o with
  | OEnqueue now p => let '(r, ts) := Enqueue now p ts in (AEnqueue r, ts)
  | OEnqueueWoken e now p => let '(r, ts) := Enqueue_woken e now p ts in (AEnqueue r, ts)
  | ONext cut => let '(r, ts) := Next cut ts in (ANext r, ts)
  | ONextWoken e cut => let '(r, ts) := Next_woken e cut ts in (ANext r, ts)
  | OClose => (AClose, Close ts)
  end.

Definition spec_step (o : op) (sp : spec) : answer * spec :=
  match o with
  | OEnqueue now p =>
      if sp_closed sp then (AEnqueue (Done (Some (ESentinel SShaperClosed))), sp)
      else let '(r, sp) := spec_enqueue now p sp in (AEnqueue r, sp)
  | OEnqueueWoken (Some e) now p => (AEnqueue (Done (Some e)), sp)
  | OEnqueueWoken None now p => let '(r, sp) := spec_enqueue now p sp in (AEnqueue r, sp)
  | ONext cut => let '(r, sp) := spec_next cut sp in (ANext r, sp)
  | ONextWoken e cut =>
      if sp_closed sp && (length (sp_packets sp) =? 0)
      then (ANext (Done (zero_packet, Some (ESentinel SShaperClosed))), sp)
      else match e with
           | Some e => (ANext (Done (zero_packet, Some e)), sp)
           | None => let '(r, sp) := spec_next cut sp in (ANext r, sp)
           end
  | OClose =>
      (AClose, MkSpec (sp_capacity sp) (sp_policy sp) (sp_paced sp) (sp_packets sp) (sp_count sp) true)
  end.

Fixpoint answers {St} (step : op → St → answer * St) (ops : list op) (s : St) : list answer :=
  match ops with
  | [] => []
  | o :: ops' => let '(r, s') := step o s in r :: answers step ops' s'
  end.

(** * Picking one packet *)

Definition seq_lt (p q : Packet) : Prop := (pk_seq p < pk_seq q)%Z.

(** On packets in order of arrival, the extracted one comes first by key and then by number. *)
Lemma extract_spec better (key : Packet → Z) l :
  (∀ p q, better p q = true ↔ (key p < key q)%Z) → StronglySorted seq_lt l →
  match extract better l with
  | None => l = []
  | Some (p, rest) =>
      l ≡ₚ p :: rest ∧ StronglySorted seq_lt rest ∧
      ∀ q, q ∈ rest → (key p < key q ∨ key p = key q ∧ pk_seq p < pk_seq q)%Z
  end.
Proof.
  intros Hbetter. induction 1 as [|p l Hs IH Hall]; simpl; [done|].
  rewrite Forall_forall in Hall. unfold seq_lt in Hall.
  destruct (extract better l) as [[q rest]|].
  2: { subst l. split_and!; [done|done|]. set_solver. }
  destruct IH as (Hp & Hsr & Hq).
  assert (∀ r, r ∈ rest → r ∈ l) as Hsub by (intros r Hr; rewrite Hp; by right).
  destruct (better q p) eqn:E.
  - apply Hbetter in E. split_and!.
    + rewrite Hp. apply perm_swap.
    + constructor; [done|]. apply Forall_forall. intros r Hr. by apply Hall, Hsub.
    + intros r [->|Hr]%elem_of_cons; [by left|by apply Hq].
  - assert (key p <= key q)%Z as Hle.
    { destruct (Z.lt_ge_cases (key q) (key p)) as [Hlt|?]; [|done].
      apply Hbetter in Hlt. congruence. }
    split_and!; [done|done|]. intros r Hr. pose proof (Hall r Hr) as Hseq.
    rewrite Hp in Hr. apply elem_of_cons in Hr as [->|Hr]; [lia|].
    specialize (Hq r Hr). lia.
Qed.

Lemma extract_higher l :
  StronglySorted seq_lt l →
  match extract higher l with
  | None => l = []
  | Some (p, rest) =>
      l ≡ₚ p :: rest ∧ StronglySorted seq_lt rest ∧ ∀ q, q ∈ rest → packet_less p q = true
  end.
Proof.
  intros Hs. pose proof (extract_spec higher (λ p, - pk_Priority p)%Z l) as H.
  destruct (extract higher l) as [[p rest]|].
  - destruct H as (? & ? & Hq); [|done|].
    + intros p' q. unfold higher. rewrite Z.ltb_lt. lia.
    + split_and!; [done..|]. intros q Hin. rewrite packet_less_true. specialize (Hq q Hin). lia.
  - apply H; [|done]. intros p' q. unfold higher. rewrite Z.ltb_lt. lia.
Qed.

Lemma extract_lower l :
  StronglySorted seq_lt l →
  match extract lower l with
  | None => l = []
  | Some (p, rest) =>
      l ≡ₚ p :: rest ∧ StronglySorted seq_lt rest ∧ ∀ q, q ∈ rest → lower_packet p q = true
  end.
Proof.
  intros Hs. pose proof (extract_spec lower pk_Priority l) as H.
  destruct (extract lower l) as [[p rest]|].
  - destruct H as (? & ? & Hq); [|done|].
    + intros p' q. unfold lower. by rewrite Z.ltb_lt.
    + split_and!; [done..|]. intros q Hin. rewrite lower_packet_true. by apply Hq.
  - apply H; [|done]. intros p' q. unfold lower. by rewrite Z.ltb_lt.
Qed.

(** A packet that beats all others is the one that no other beats. *)
Lemma unique_pick (beats : Packet → Packet → bool) l x l' p rest :
  l ≡ₚ x :: l' → l ≡ₚ p :: rest → (∀ q, q ∈ rest → beats p q = true) →
  (∀ q, q ∈ l' → beats q x = false) → x = p ∧ l' ≡ₚ rest.
Proof.
  intros Hx Hp Hbest Hnone. assert (x :: l' ≡ₚ p :: rest) as Hxp by (by rewrite <- Hx).
  assert (x = p) as ->.
  { assert (x ∈ p :: rest) as Hin by (rewrite <- Hxp; by left).
    apply elem_of_cons in Hin as [?|Hin]; [done|].
    assert (p ∈ x :: l') as Hin' by (rewrite Hxp; by left).
    apply elem_of_cons in Hin' as [?|Hin']; [done|].
    specialize (Hnone p Hin'). specialize (Hbest x Hin). congruence. }
  split; [done|]. by apply Permutation_cons_inv in Hxp.
Qed.

(** The scan finds a packet that is not above any other. *)
Lemma lowest_loop pq k m best :
  k + m = length pq → best < k →
  (∀ j q p, j < k → pq !! j = Some q → pq !! best = Some p → lower_packet q p = false) →
  let r := foldl (λ best i, match pq !! i, pq !! best with
                   | Some p, Some q => if lower_packet p q then i else best
                   | _, _ => best
                   end) best (seq k m) in
  r < length pq ∧
  ∀ j q p, pq !! j = Some q → pq !! r = Some p → lower_packet q p = false.
Proof.
  revert k best. induction m as [|m IH]; intros k best Hk Hb Hinv; cbn [seq foldl].
  { split; [lia|]. intros j q p Hj. eapply Hinv; [|done]. apply lookup_lt_Some in Hj. lia. }
  destruct (lookup_lt_is_Some_2 pq k) as [x Hx]; [lia|].
  destruct (lookup_lt_is_Some_2 pq best) as [y Hy]; [lia|]. rewrite Hx, Hy.
  destruct (lower_packet x y) eqn:E; apply IH; try lia; intros j q p Hj Hq Hp.
  - simplify_eq. destruct (decide (j = k)) as [->|Hne].
    + simplify_eq. apply not_true_iff_false. rewrite lower_packet_true. lia.
    + assert (lower_packet q y = false) as Hqy by (apply (Hinv j); [lia|done|done]).
      apply not_true_iff_false in Hqy. apply not_true_iff_false.
      rewrite lower_packet_true in *. lia.
  - simplify_eq. destruct (decide (j = k)) as [->|Hne]; [by simplify_eq|].
    by apply (Hinv j); [lia|..].
Qed.

Lemma lowestIdx_spec pq :
  pq ≠ [] →
  lowestIdx pq < length pq ∧
  ∀ j q p, pq !! j = Some q → pq !! lowestIdx pq = Some p → lower_packet q p = false.
Proof.
  intros Hne. assert (0 < length pq) by (destruct pq; simpl; [done|lia]).
  apply (lowest_loop pq 1 (length pq - 1) 0); [lia|lia|].
  intros j q p Hj Hq Hp. assert (j = 0) as -> by lia. simplify_eq.
  apply not_true_iff_false. rewrite lower_packet_true. lia.
Qed.

(** * Refinement *)

Record related (ts : TrafficShaper) (sp : spec) : Prop := {
  r_perm : plain <$> ts_queue ts ≡ₚ sp_packets sp;
  r_heap : is_heap (ts_queue ts);
  r_sorted : StronglySorted seq_lt (sp_packets sp);
  r_seq : ∀ p, p ∈ sp_packets sp → (pk_seq p <= sp_count sp)%Z;
  r_count : sp_count sp = ts_seqCounter ts;
  r_nonneg : (0 <= sp_count sp)%Z;
  r_capacity : cfg_Capacity (ts_cfg ts) = sp_capacity sp ∧ (1 <= sp_capacity sp)%Z;
  r_bounded : (Z.of_nat (length (sp_packets sp)) <= sp_capacity sp)%Z;
  r_policy : cfg_DropPolicy (ts_cfg ts) = sp_policy sp;
  r_paced : (0 <? ts_paceDelay ts)%Z = sp_paced sp;
  r_closed : ts_closed ts = sp_closed sp
}.

Lemma r_length ts sp : related ts sp → length (ts_queue ts) = length (sp_packets sp).
Proof. intros Hr. rewrite <- (r_perm _ _ Hr). by rewrite length_fmap. Qed.

Lemma push_related now p ts sp :
  related ts sp → (sp_count sp + 1 < 2 ^ 64)%Z →
  (Z.of_nat (length (sp_packets sp)) < sp_capacity sp)%Z →
  related (push_packet now p ts) (spec_add now p sp).
Proof.
  intros Hr Hc Hlen. pose proof Hr as [Hp Hh Hs Hq Hn H0 Hcap Hb Hpol Hpace Hcl].
  unfold push_packet, spec_add. rewrite wrap_u_small by lia. rewrite <- Hn.
  set (p' := MkPacket _ _ _ _ _ (pk_heapIdx p)).
  destruct (heap_Push_spec (ts_queue ts) p' Hh) as (Hh' & Hp' & _). simpl in Hp'.
  split; simpl; try done.
  - rewrite Hp', Hp. by rewrite Permutation_app_comm.
  - apply StronglySorted_app_2; [|done|by repeat constructor].
    intros x y Hx ->%list_elem_of_singleton. unfold seq_lt. simpl. specialize (Hq x Hx). lia.
  - intros x [Hx| ->%list_elem_of_singleton]%elem_of_app; simpl; [|lia]. specialize (Hq x Hx). lia.
  - lia.
  - rewrite length_app. simpl. lia.
Qed.

Lemma drop_related ts sp :
  related ts sp → ts_queue ts ≠ [] →
  ∃ x q y rest, heap_Remove (ts_queue ts) (lowestIdx (ts_queue ts)) = Some (x, q) ∧
    extract lower (sp_packets sp) = Some (y, rest) ∧
    length (sp_packets sp) = S (length rest) ∧
    related (add_dropped (set_queue q ts)) (spec_set rest sp).
Proof.
  intros Hr Hne. pose proof Hr as [Hp Hh Hs Hq Hn H0 Hcap Hb Hpol Hpace Hcl].
  destruct (lowestIdx_spec _ Hne) as [Hi Hlow].
  destruct (heap_Remove_spec (ts_queue ts) (lowestIdx (ts_queue ts)) Hh Hi)
    as (x & q & Hrem & Hhq & Hpq & Hx & _). simpl in Hpq, Hx.
  pose proof (extract_lower (sp_packets sp) Hs) as He.
  destruct (extract lower (sp_packets sp)) as [[y rest]|].
  2: { rewrite He in Hp. apply Permutation_nil_r, fmap_nil_inv in Hp. done. }
  destruct He as (Hpy & Hsr & Hbest).
  destruct (unique_pick lower_packet (sp_packets sp) (plain x) (plain <$> q) y rest)
    as [Ex Er]; [by rewrite <- Hp|done|done| |].
  { intros z Hz. assert (z ∈ plain <$> ts_queue ts) as Hin by (rewrite Hpq; by right).
    apply list_elem_of_fmap in Hin as (z' & -> & [j Hj]%list_elem_of_lookup).
    apply list_lookup_fmap_Some in Hx as (x' & Ex' & Hx').
    rewrite Ex'. change (lower_packet z' x' = false). by apply (Hlow j). }
  exists x, q, y, rest. split_and!; [done|done| |].
  - by rewrite Hpy.
  - split; simpl; try done.
    + intros p Hin. apply Hq. rewrite Hpy. by right.
    + rewrite Hpy in Hb. simpl in Hb. lia.
Qed.

Lemma enqueue_space fuel now p ts sp :
  related ts sp → (sp_count sp + 1 < 2 ^ 64)%Z →
  (Z.of_nat (length (sp_packets sp)) < sp_capacity sp)%Z →
  enqueue_loop fuel now p ts = (Done None, push_packet now p ts) ∧
  related (push_packet now p ts) (spec_add now p sp).
Proof.
  intros Hr Hc Hlt. split; [|by apply push_related].
  pose proof (r_length _ _ Hr) as Hl. destruct (r_capacity _ _ Hr) as [Hcap _].
  destruct fuel; cbn [enqueue_loop]; rewrite Hcap, Hl; by rewrite (proj2 (Z.leb_gt _ _)).
Qed.

Lemma enqueue_simulation fuel now p ts sp :
  related ts sp → (sp_count sp + 1 < 2 ^ 64)%Z → length (ts_queue ts) <= fuel →
  let '(r, ts') := enqueue_loop fuel now p ts in
  let '(r', sp') := spec_enqueue now p sp in
  r = r' ∧ related ts' sp' ∧ (sp_count sp' <= sp_count sp + 1)%Z.
Proof.
  intros Hr Hc Hf. pose proof (r_length ts sp Hr) as Hlen.
  destruct (r_capacity _ _ Hr) as [Hcap Hcap1]. unfold spec_enqueue.
  destruct (Z.ltb_spec (Z.of_nat (length (sp_packets sp))) (sp_capacity sp)) as [Hlt|Hge].
  { destruct (enqueue_space fuel now p ts sp Hr Hc Hlt) as [-> ?]. split_and!; [done|done|simpl; lia]. }
  destruct fuel as [|fuel]; [lia|]. cbn [enqueue_loop].
  rewrite Hcap, (r_policy _ _ Hr), Hlen, (r_closed _ _ Hr), (proj2 (Z.leb_le _ _)) by done.
  destruct (sp_closed sp); [split_and!; [done|done|lia]|].
  destruct (_ =? DropNewest)%Z; [split_and!; [done|by destruct Hr; split|lia]|].
  destruct (_ =? DropOldest)%Z; [|destruct (_ =? BlockUntilSpace)%Z; split_and!; done || lia].
  destruct (drop_related ts sp Hr) as (x & q & y & rest & -> & -> & Hl & Hr').
  { intros E. rewrite E in Hlen. simpl in Hlen. lia. }
  pose proof (r_bounded _ _ Hr).
  destruct (enqueue_space fuel now p _ _ Hr') as [-> ?]; [done|simpl; lia|].
  split_and!; [done|done|simpl; lia].
Qed.

(** A packet leaves the queue with index -1. *)
Lemma heap_Pop_index q x q' : heap_Pop q = Some (x, q') → x = set_heapIdx (-1) (plain x).
Proof.
  unfold heap_Pop. simpl. unfold pq_Pop. destruct (last _) as [p|]; [|done]. by intros [= <- _].
Qed.

Lemma next_simulation cut ts sp :
  related ts sp →
  let '(r, ts') := Next cut ts in
  let '(r', sp') := spec_next cut sp in
  r = r' ∧ related ts' sp' ∧ (sp_count sp' <= sp_count sp + 1)%Z.
Proof.
  intros Hr. pose proof Hr as [Hp Hh Hs Hq Hn H0 Hcap Hb Hpol Hpace Hcl].
  unfold Next, spec_next. pose proof (extract_higher (sp_packets sp) Hs) as He.
  destruct (Nat.eqb_spec (length (ts_queue ts)) 0) as [E|Hne].
  - assert (sp_packets sp = []) as ->.
    { rewrite (r_length _ _ Hr) in E. by apply length_zero_iff_nil in E. }
    simpl. rewrite Hcl. destruct (sp_closed sp); (split_and!; [done|done|lia]).
  - unfold take_packet. destruct (heap_Pop_spec (ts_queue ts) Hh Hne)
      as (x & q & Hpop & Hhq & Hpq & _ & Hmin & _). rewrite Hpop. apply heap_Pop_index in Hpop.
    simpl in Hpq, Hmin. destruct (extract higher (sp_packets sp)) as [[y rest]|].
    2: { rewrite (r_length _ _ Hr), He in Hne. done. }
    destruct He as (Hpy & Hsr & Hbest).
    destruct (unique_pick packet_less (sp_packets sp) (plain x) (plain <$> q) y rest)
      as [Ex Er]; [by rewrite <- Hp|done|done| |].
    { rewrite Forall_forall in Hmin. intros z Hz. by apply Hmin. }
    split_and!; [|split; simpl; try done|simpl; lia].
    + rewrite Hpop, Ex, Hpace. done.
    + intros p Hin. apply Hq. rewrite Hpy. by right.
    + rewrite Hpy in Hb. simpl in Hb. lia.
Qed.

Lemma shaper_step_simulation o ts sp :
  related ts sp → (sp_count sp + 1 < 2 ^ 64)%Z →
  let '(r, ts') := shaper_step o ts in
  let '(r', sp') := spec_step o sp in
  r = r' ∧ related ts' sp' ∧ (sp_count sp' <= sp_count sp + 1)%Z.
Proof.
  intros Hr Hc.
  assert (∀ now p, let '(r, ts') := enqueue_loop (length (ts_queue ts)) now p ts in
    let '(r', sp') := spec_enqueue now p sp in
    r = r' ∧ related ts' sp' ∧ (sp_count sp' <= sp_count sp + 1)%Z) as Hen
    by (intros; by apply enqueue_simulation).
  pose proof (λ cut, next_simulation cut ts sp Hr) as Hnx.
  destruct o as [now p|e now p|cut|e cut|]; cbn [shaper_step spec_step].
  - unfold Enqueue. rewrite (r_closed _ _ Hr).
    destruct (sp_closed sp); [split_and!; [done|done|lia]|]. specialize (Hen now p).
    destruct (enqueue_loop _ now p ts), (spec_enqueue now p sp). destruct Hen as (-> & ? & ?). done.
  - unfold Enqueue_woken. destruct e as [e|]; [split_and!; [done|done|lia]|]. specialize (Hen now p).
    destruct (enqueue_loop _ now p ts), (spec_enqueue now p sp). destruct Hen as (-> & ? & ?). done.
  - specialize (Hnx cut). destruct (Next cut ts), (spec_next cut sp).
    destruct Hnx as (-> & ? & ?). done.
  - unfold Next_woken. rewrite (r_closed _ _ Hr), (r_length _ _ Hr).
    destruct (sp_closed sp && _); [split_and!; [done|done|lia]|].
    destruct e as [e|]; [split_and!; [done|done|lia]|]. specialize (Hnx cut).
    destruct (Next cut ts), (spec_next cut sp). destruct Hnx as (-> & ? & ?). done.
  - split_and!; [done|by split; destruct Hr|simpl; lia].
Qed.

Lemma New_related cfg : related (New cfg) (spec_New cfg).
Proof.
  assert (1 <= cfg_Capacity (ts_cfg (New cfg)))%Z
    by (simpl; destruct (Z.leb_spec (cfg_Capacity cfg) 0); lia).
  split; try done.
  - constructor.
  - intros p Hp. by apply elem_of_nil in Hp.
  - simpl in *. lia.
Qed.

Lemma shaper_answers_simulation ops ts sp :
  related ts sp → (sp_count sp + Z.of_nat (length ops) < 2 ^ 64)%Z →
  answers shaper_step ops ts = answers spec_step ops sp.
Proof.
  revert ts sp. induction ops as [|o ops IH]; intros ts sp Hr Hlt; [done|].
  cbn [answers length] in *. pose proof (shaper_step_simulation o ts sp Hr) as H.
  destruct (shaper_step o ts) as [r ts'], (spec_step o sp) as [r' sp'].
  destruct H as (-> & Hr' & Hn); [lia|]. f_equal. apply IH; [done|lia].
Qed.

(** C26: The traffic shaper refines a priority queue that is first-in first-out within each
    priority: on any sequence of fewer than 2^64 calls and wake-ups, for any capacity and drop
    policy, it hands out the packet the reference hands out, drops the packet the reference
    drops, and waits exactly when the reference waits. *)
Theorem shaper_refines_priority_fifo cfg ops :
  (Z.of_nat (length ops) < 2 ^ 64)%Z →
  answers shaper_step ops (New cfg) = answers spec_step ops (spec_New cfg).
Proof. intros Hlt. apply shaper_answers_simulation; [apply New_related|exact Hlt]. Qed.

Definition example_ops : list op :=
  let packet id prio := MkPacket id prio [] 0 0 0 in
  [OEnqueue 1 (packet "a" PriorityLow); OEnqueue 2 (packet "b" PriorityHigh);
   OEnqueue 3 (packet "c" PriorityHigh); OEnqueue 4 (packet "d" PriorityNormal);
   ONext None; ONext None; OClose; ONext None; OEnqueue 5 (packet "e" PriorityHigh); ONext None].

Definition example_config : Config := MkConfig 3 (f64_of_Z 10) DropOldest.

Lemma shaper_refines_priority_fifo_witness :
  answers shaper_step example_ops (New example_config) =
  answers spec_step example_ops (spec_New example_config).
Proof. apply (shaper_refines_priority_fifo example_config example_ops). vm_compute. reflexivity. Defined.
