(* ===== verification/Calendar.v ===== *)
(** The calendar of the package [time]: years, months, days and weekdays of an instant.

    An instant counts nanoseconds from the zero time, 1 January of year 1, in the proleptic
    Gregorian calendar.  A location of one zone is its offset from UTC in nanoseconds, as for
    [time.UTC] and [time.FixedZone]. *)
From S2P Require Import Prelude.
Local Open Scope Z_scope.

Definition minute : Duration := 60 * second.
Definition hour : Duration := 60 * minute.
Definition day : Duration := 24 * hour.

(** * Days *)

(** Days from the zero time to 1 January of a year. *)
Definition days_before_year (y : Z) : Z :=
  365 * (y - 1) + (y - 1) / 4 - (y - 1) / 100 + (y - 1) / 400.

Definition is_leap (y : Z) : bool :=
  (y mod 4 =? 0) && (negb (y mod 100 =? 0) || (y mod 400 =? 0)).

(** Days of a year before its month number [m + 1]. *)
Definition days_before_month (leap : bool) (m : Z) : Z :=
  let table := [0; 31; 59; 90; 120; 151; 181; 212; 243; 273; 304; 334; 365] in
  nth (Z.to_nat m) table 0 + (if leap && (2 <=? m) then 1 else 0).

Definition year_of_day (d : Z) : Z :=
  let y := 400 * d / 146097 + 1 in
  if d <? days_before_year y then y - 1
  else if days_before_year (y + 1) <=? d then y + 1
  else y.

(** The month, from 1 to 12, of a day of the year counted from 0. *)
Definition month_of_yday (leap : bool) (n : Z) : Z :=
  let before m := days_before_month leap m <=? n in
  1 + Z.of_nat (length (filter (λ m, before m = true) [1; 2; 3; 4; 5; 6; 7; 8; 9; 10; 11])).

Record date := MkDate { d_year : Z; d_month : Z; d_day : Z }.

Definition date_of_day (d : Z) : date :=
  let y := year_of_day d in
  let n := d - days_before_year y in
  let m := month_of_yday (is_leap y) n in
  MkDate y m (n - days_before_month (is_leap y) (m - 1) + 1).

(** The day of [time.Date]: months out of range carry into the year, days into the months. *)
Definition day_of_date (year month day : Z) : Z :=
  let m := month - 1 in
  let y := year + m / 12 in
  days_before_year y + days_before_month (is_leap y) (m mod 12) + (day - 1).

(** Sunday is 0; the first day of year 1 was a Monday. *)
Definition weekday_of_day (d : Z) : Z := (d + 1) mod 7.

(** ** Years *)

Lemma year_length y :
  days_before_year (y + 1) = days_before_year y + (if is_leap y then 366 else 365).
Proof.
  unfold days_before_year, is_leap. replace (y + 1 - 1) with y by lia.
  destruct (Z.eqb_spec (y mod 4) 0), (Z.eqb_spec (y mod 100) 0), (Z.eqb_spec (y mod 400) 0);
    simpl; Z.div_mod_to_equations; lia.
Qed.

Lemma days_before_year_mono y z : y <= z → days_before_year y <= days_before_year z.
Proof. intros. unfold days_before_year. Z.div_mod_to_equations. lia. Qed.

Lemma year_of_day_spec d :
  days_before_year (year_of_day d) <= d < days_before_year (year_of_day d + 1).
Proof.
  unfold year_of_day. set (y := 400 * d / 146097 + 1).
  assert (days_before_year (y - 1) <= d < days_before_year (y + 2)) as H.
  { unfold days_before_year, y. Z.div_mod_to_equations. lia. }
  destruct (Z.ltb_spec d (days_before_year y)).
  { replace (y - 1 + 1) with y by lia. lia. }
  destruct (Z.leb_spec (days_before_year (y + 1)) d); [|lia].
  replace (y + 1 + 1) with (y + 2) by lia. lia.
Qed.

Lemma year_of_day_unique d y :
  days_before_year y <= d < days_before_year (y + 1) → year_of_day d = y.
Proof.
  intros H. pose proof (year_of_day_spec d) as H'.
  destruct (Z.lt_trichotomy (year_of_day d) y) as [Hlt|[?|Hgt]]; [|done|].
  - pose proof (days_before_year_mono (year_of_day d + 1) y). lia.
  - pose proof (days_before_year_mono (y + 1) (year_of_day d)). lia.
Qed.

(** ** Months *)

(** All twelve months, checked one by one. *)
Definition month_check (leap : bool) (m : Z) : bool :=
  let lo := days_before_month leap (m - 1) in
  let hi := days_before_month leap m in
  (lo <? hi) && forallb (λ n, month_of_yday leap (Z.of_nat n) =? m)
                  (seq (Z.to_nat lo) (Z.to_nat (hi - lo))).

Lemma months_checked :
  forallb (λ m, month_check true m && month_check false m)
    [1; 2; 3; 4; 5; 6; 7; 8; 9; 10; 11; 12] = true.
Proof. vm_compute. reflexivity. Qed.

Lemma month_cases m : 1 <= m <= 12 → m ∈ [1; 2; 3; 4; 5; 6; 7; 8; 9; 10; 11; 12].
Proof. intros. rewrite !elem_of_cons. lia. Qed.

(** Case analysis on the twelve months and the two kinds of years. *)
Ltac month_cases H leap :=
  apply month_cases in H;
  repeat (apply elem_of_cons in H as [->|H]; [destruct leap; vm_compute; intuition congruence|]);
  by apply elem_of_nil in H.

Lemma days_before_month_nonneg leap m :
  1 <= m <= 12 → 0 <= days_before_month leap (m - 1) < days_before_month leap m.
Proof. intros H. month_cases H leap. Qed.

Lemma days_before_month_12 (leap : bool) : days_before_month leap 12 = if leap then 366 else 365.
Proof. by destruct leap. Qed.

Lemma month_of_yday_unique leap m n :
  1 <= m <= 12 → days_before_month leap (m - 1) <= n < days_before_month leap m →
  month_of_yday leap n = m.
Proof.
  intros Hm Hn. pose proof (days_before_month_nonneg leap m Hm) as H0.
  pose proof months_checked as H. rewrite forallb_forall in H. specialize (H m).
  rewrite andb_true_iff in H. apply month_cases in Hm. apply list_elem_of_In in Hm.
  assert (month_check leap m = true) as Hc by (destruct (H Hm); by destruct leap).
  unfold month_check in Hc. rewrite andb_true_iff, forallb_forall in Hc. destruct Hc as [_ Hc].
  specialize (Hc (Z.to_nat n)). rewrite Z2Nat.id in Hc by lia. apply Z.eqb_eq, Hc.
  apply in_seq. lia.
Qed.

(** Every day of a year falls in one of its months. *)
Lemma month_exists (leap : bool) (n : Z) :
  0 <= n < (if leap then 366 else 365) →
  ∃ m, 1 <= m <= 12 ∧ days_before_month leap (m - 1) <= n < days_before_month leap m.
Proof.
  intros Hn. rewrite <- days_before_month_12 in Hn.
  assert (∀ k, 0 <= Z.of_nat k <= 12 → n < days_before_month leap (Z.of_nat k) →
    ∃ m, 1 <= m <= 12 ∧ days_before_month leap (m - 1) <= n < days_before_month leap m) as H.
  { induction k as [|k IH]; intros Hk Hlt.
    - replace (days_before_month leap (Z.of_nat 0)) with 0 in Hlt by (by destruct leap). lia.
    - destruct (Z.lt_ge_cases n (days_before_month leap (Z.of_nat k))); [apply IH; lia|].
      exists (Z.of_nat (S k)). split; [lia|]. replace (Z.of_nat (S k) - 1) with (Z.of_nat k) by lia.
      done. }
  apply (H 12%nat); [lia|]. apply Hn.
Qed.

(** ** Dates *)

(** Where a day lies: in its year, and within that in its month. *)
Lemma date_of_day_spec d :
  let '(MkDate y m dd) := date_of_day d in
  1 <= m <= 12 ∧ 1 <= dd ∧
  days_before_year y <= d < days_before_year (y + 1) ∧
  days_before_month (is_leap y) (m - 1) <= d - days_before_year y < days_before_month (is_leap y) m ∧
  d = days_before_year y + days_before_month (is_leap y) (m - 1) + (dd - 1).
Proof.
  unfold date_of_day. set (y := year_of_day d). pose proof (year_of_day_spec d) as Hy. fold y in Hy.
  pose proof (year_length y) as Hl.
  destruct (month_exists (is_leap y) (d - days_before_year y)) as (m & Hm & Hn); [lia|].
  rewrite (month_of_yday_unique (is_leap y) m) by lia. split_and!; lia.
Qed.

Lemma date_of_day_unique d y m :
  1 <= m <= 12 →
  days_before_month (is_leap y) (m - 1) <= d - days_before_year y < days_before_month (is_leap y) m →
  d_year (date_of_day d) = y ∧ d_month (date_of_day d) = m.
Proof.
  intros Hm Hn. assert (year_of_day d = y) as Hy.
  { apply year_of_day_unique. rewrite year_length, <- days_before_month_12.
    pose proof (days_before_month_nonneg (is_leap y) m Hm).
    assert (∀ k, (k <= 12)%nat → m <= Z.of_nat k →
      days_before_month (is_leap y) m <= days_before_month (is_leap y) (Z.of_nat k)) as Hmono.
    { induction k as [|k IH]; intros Hk Hmk; [lia|].
      destruct (decide (m = Z.of_nat (S k))) as [->|Hne]; [lia|].
      pose proof (days_before_month_nonneg (is_leap y) (Z.of_nat (S k)) ltac:(lia)) as Hs.
      replace (Z.of_nat (S k) - 1) with (Z.of_nat k) in Hs by lia.
      specialize (IH ltac:(lia) ltac:(lia)). lia. }
    specialize (Hmono 12%nat ltac:(lia) ltac:(lia)).
    change (Z.of_nat 12) with 12 in Hmono.
    lia. }
  unfold date_of_day. rewrite Hy. simpl. split; [done|]. by apply month_of_yday_unique.
Qed.

(** The date of a day leads back to the day. *)
Lemma day_of_date_of_day d :
  day_of_date (d_year (date_of_day d)) (d_month (date_of_day d)) (d_day (date_of_day d)) = d.
Proof.
  pose proof (date_of_day_spec d) as H. destruct (date_of_day d) as [y m dd]. simpl.
  destruct H as (Hm & _ & _ & _ & ->). unfold day_of_date.
  rewrite Z.div_small, Z.add_0_r, Z.mod_small by lia. lia.
Qed.

(** The first day of the next month: no day before it lies in another month. *)
Lemma next_month d :
  let '(MkDate y m _) := date_of_day d in
  let d' := day_of_date y (m + 1) 1 in
  d < d' ∧ ∀ x, d <= x < d' → d_month (date_of_day x) = m.
Proof.
  pose proof (date_of_day_spec d) as H. destruct (date_of_day d) as [y m dd].
  destruct H as (Hm & _ & Hy & Hn & _).
  assert (day_of_date y (m + 1) 1 = days_before_year y + days_before_month (is_leap y) m) as ->.
  { unfold day_of_date. replace (m + 1 - 1) with m by lia.
    destruct (decide (m = 12)) as [->|Hne].
    - change (12 / 12) with 1. change (12 mod 12) with 0. rewrite year_length, days_before_month_12.
      unfold days_before_month at 1. rewrite andb_false_r. simpl. lia.
    - rewrite (Z.div_small m 12), (Z.mod_small m 12) by lia.
      replace (y + 0) with y by lia. lia. }
  split; [lia|]. intros x Hx. apply (date_of_day_unique x y m Hm). lia.
Qed.

(** The day after. *)
Lemma next_day d :
  let '(MkDate y m dd) := date_of_day d in day_of_date y m (dd + 1) = d + 1.
Proof.
  pose proof (day_of_date_of_day d) as H. destruct (date_of_day d) as [y m dd]. simpl in H.
  unfold day_of_date in *. lia.
Qed.

(** * Instants *)

(** The day and the time of day of an instant, read in a zone. *)
Definition local_day (off : Z) (t : Time) : Z := (t + off) / day.
Definition local_clock (off : Z) (t : Time) : Z := (t + off) mod day.
Definition t_Year (off : Z) (t : Time) : Z := d_year (date_of_day (local_day off t)).
Definition t_Month (off : Z) (t : Time) : Z := d_month (date_of_day (local_day off t)).
Definition t_Day (off : Z) (t : Time) : Z := d_day (date_of_day (local_day off t)).
Definition t_Weekday (off : Z) (t : Time) : Z := weekday_of_day (local_day off t).
Definition t_Hour (off : Z) (t : Time) : Z := local_clock off t / hour.
Definition t_Minute (off : Z) (t : Time) : Z := local_clock off t mod hour / minute.

(** [time.Date(year, month, day, hour, min, 0, 0, loc)] *)
Definition time_Date (off year month dd hh mm : Z) : Time :=
  day_of_date year month dd * day + hh * hour + mm * minute - off.

(** [t.Truncate(d)] for a positive duration. *)
Definition time_Truncate (t : Time) (d : Duration) : Time := t - t mod d.

(** [t.AddDate(years, 0, 0)]: the same clock time on the same date, as [time.Date] reads it. *)
Definition time_AddYears (off : Z) (t : Time) (years : Z) : Time :=
  day_of_date (t_Year off t + years) (t_Month off t) (t_Day off t) * day + local_clock off t - off.

(** * Locations *)

(** What [Location.lookup] finds for an instant: the offset in force, the first instant of the zone and the
    one after its last, if there are such.  The zones come from the time zone database, so a location is
    any function of this type. *)
Record zone := MkZone { z_offset : Z; z_start : option Time; z_end : option Time }.
Abbreviation Location := (Time → zone) (only parsing).

Definition in_zone (z : zone) (t : Time) : bool :=
  from_option (λ s, s <=? t)%Z true (z_start z) && from_option (λ e, t <? e)%Z true (z_end z).

(** [time.FixedZone], and [time.UTC] for the offset zero. *)
Definition FixedZone (off : Z) : Location := λ _, MkZone off None None.

(** The instant that [time.Date] makes of a local time [u], written as the same time in UTC: the offset is
    the one in force at [u], unless the instant it gives is outside of that zone; then it is the one in
    force at this instant. *)
Definition resolve (loc : Location) (u : Time) : Time :=
  let z := loc u in
  if z_offset z =? 0 then u
  else
    let utc := u - z_offset z in
    u - (if in_zone z utc then z_offset z else z_offset (loc utc)).

Definition DateIn (loc : Location) (year month dd hh mm : Z) : Time := resolve loc (time_Date 0 year month dd hh mm).
Definition AddYearsIn (loc : Location) (t : Time) (years : Z) : Time :=
  let off := z_offset (loc t) in
  resolve loc (day_of_date (t_Year off t + years) (t_Month off t) (t_Day off t) * day + local_clock off t).
