(* ===== verification/Cron.v ===== *)
(** The cron engine: [internal/cronengine/cronengine.go].

    [NextIn] searches in any location, and [Next] is the search in a location of one fixed offset [off],
    where it ends; the engine has schedules in such locations.  Schedules are objects with an identity,
    since the registry, the queue and running goroutines share them: [objs] maps pointers to
    schedules, [schedules] maps identifiers to pointers and [queue] is the heap of pointers.
    A run of a handler is in [runs] from its start to its end.  [now] is the time of the call. *)
From stdpp Require Import pretty.
From S2P Require Import Prelude Errors Runes Strings Calendar Heap.

Abbreviation SScheduleNotFound := (SOther "cronengine: schedule not found").
Abbreviation SScheduleExists := (SOther "cronengine: schedule already exists").
Abbreviation SInvalidExpression := (SOther "cronengine: invalid cron expression").

(** * Expressions *)

(** A set of numbers from 0 to 63 as the bits of a [uint64]. *)
Abbreviation CronField := Z (only parsing).

Definition Matches (cf : CronField) (val : Z) : bool :=
  if (val <? 0)%Z || (63 <? val)%Z then false
  else negb (Z.land cf (Z.shiftl 1 val) =? 0)%Z.

Record Expression := MkExpression {
  ex_Minutes : CronField;
  ex_Hours : CronField;
  ex_DOM : CronField;
  ex_Months : CronField;
  ex_DOW : CronField
}.

(** [field |= 1 << uint(i)]; a shift by 64 or more gives 0. *)
Definition set_bit (field : CronField) (i : Z) : CronField :=
  let n := wrap_u 64 i in
  if (n <? 64)%Z then Z.lor field (Z.shiftl 1 n) else field.

(** [for i := start; i <= end; i += step] with the wrap-around of [int]. *)
Fixpoint range_loop (fuel : nat) (i stop step : Z) (field : CronField) : CronField :=
  match fuel with
  | 0 => field
  | S fuel' =>
      if (i <=? stop)%Z then range_loop fuel' (wrap_s 64 (i + step)) stop step (set_bit field i)
      else field
  end.
(** No more than 128 rounds: without overflow a round goes up by one at least in a range of at
    most 60 numbers; with overflow every second round goes down. *)
Definition range_fuel : nat := 128.

Definition contains_char (c : ascii) (s : string) : bool := negb (bool_decide (no_char c s)).

(** The step of a part: its value and the text of the range. *)
Definition parse_step (part : string) : result error (Z * string) :=
  if contains_char "/" part then
    match split "/" part with
    | [range; step] =>
        match Atoi step with
        | Some n => if (n <=? 0)%Z then Err (EFmt "invalid step value: %s" [step]) else Ok (n, range)
        | None => Err (EFmt "invalid step value: %s" [step])
        end
    | _ => Err (EFmt "invalid step format: %s" [part])
    end
  else Ok (1%Z, part).

Definition in_bounds (lo hi : Z) (v : option Z) : option Z :=
  match v with
  | Some n => if (n <? lo)%Z || (hi <? n)%Z then None else Some n
  | None => None
  end.

Definition parse_range (range : string) (lo hi : Z) : result error (Z * Z) :=
  if bool_decide (range = "*") then Ok (lo, hi)
  else if contains_char "-" range then
    match split "-" range with
    | [a; b] =>
        match in_bounds lo hi (Atoi a) with
        | None => Err (EFmt "range start out of bounds: %s" [a])
        | Some start =>
            match in_bounds lo hi (Atoi b) with
            | None => Err (EFmt "range end out of bounds: %s" [b])
            | Some stop =>
                if (stop <? start)%Z then Err (EFmt "range end out of bounds: %s" [b])
                else Ok (start, stop)
            end
        end
    | _ => Err (EFmt "invalid range format: %s" [range])
    end
  else
    match in_bounds lo hi (Atoi range) with
    | Some v => Ok (v, v)
    | None => Err (EFmt "value out of bounds [%d-%d]: %s" [pretty lo; pretty hi; range])
    end.

Definition parse_part (part : string) (lo hi : Z) (field : CronField) : result error CronField :=
  let part := trim_space part in
  '(step, range) ← parse_step part;
  '(start, stop) ← parse_range range lo hi;
  Ok (range_loop range_fuel start stop step field).

Fixpoint parse_parts (parts : list string) (lo hi : Z) (field : CronField) :
    result error CronField :=
  match parts with
  | [] => Ok field
  | part :: parts' => field' ← parse_part part lo hi field; parse_parts parts' lo hi field'
  end.

Definition parseField (f : string) (lo hi : Z) : result error CronField :=
  parse_parts (split "," f) lo hi 0.

(** [fmt.Errorf("%w (name): %v", ErrInvalidExpression, err)]; the argument is the error [err]. *)
Definition field_error {A} (name : string) (r : result error A) : result error A :=
  match r with
  | Ok a => Ok a
  | Err (EFmt format args) =>
      Err (EWrap ("%w (" +:+ name +:+ "): " +:+ format) args (ESentinel SInvalidExpression))
  | Err _ => Err (EWrap ("%w (" +:+ name +:+ "): %v") [] (ESentinel SInvalidExpression))
  end.

Definition ParseExpression (spec : string) : result error Expression :=
  match fields spec with
  | [f1; f2; f3; f4; f5] =>
      min ← field_error "minute" (parseField f1 0 59);
      hr ← field_error "hour" (parseField f2 0 23);
      dom ← field_error "day of month" (parseField f3 1 31);
      mon ← field_error "month" (parseField f4 1 12);
      dow ← field_error "day of week" (parseField f5 0 6);
      Ok (MkExpression min hr dom mon dow)
  | parts =>
      Err (EWrap "%w: expected 5 fields, got %d" [pretty (length parts)]
             (ESentinel SInvalidExpression))
  end.

(** * The next time *)

(** One round of the search: the time to go on from, or the answer. *)
Definition next_round (e : Expression) (off : Z) (t : Time) : Time + Time :=
  if negb (Matches (ex_Months e) (t_Month off t)) then
    inl (time_Date off (t_Year off t) (t_Month off t + 1) 1 0 0)
  else if negb (Matches (ex_DOM e) (t_Day off t)) || negb (Matches (ex_DOW e) (t_Weekday off t)) then
    inl (time_Date off (t_Year off t) (t_Month off t) (t_Day off t + 1) 0 0)
  else if negb (Matches (ex_Hours e) (t_Hour off t)) then
    inl (time_Date off (t_Year off t) (t_Month off t) (t_Day off t) (t_Hour off t + 1) 0)
  else if negb (Matches (ex_Minutes e) (t_Minute off t)) then inl (t + minute)%Z
  else inr t.

Fixpoint next_loop (fuel : nat) (e : Expression) (off : Z) (t limit : Time) : Time :=
  match fuel with
  | 0 => time_zero
  | S fuel' =>
      if (t <? limit)%Z then
        match next_round e off t with
        | inl t' => next_loop fuel' e off t' limit
        | inr t' => t'
        end
      else time_zero
  end.

(** Every round moves on by a minute at least. *)
Definition Next (e : Expression) (after : Time) (off : Z) : Time :=
  let t := (time_Truncate after minute + minute)%Z in
  let limit := time_AddYears off t 5 in
  next_loop (S (Z.to_nat ((limit - t) / minute + 1))) e off t limit.

(** *** In any location

    The same search where the offset changes with the time: dates are read in the zone of the instant, and
    made by [time.Date] in the location.  The search may not end, so that it takes fuel; [None] is a search
    that goes on. *)
Definition next_roundIn (e : Expression) (loc : Location) (t : Time) : Time + Time :=
  let off := z_offset (loc t) in
  if negb (Matches (ex_Months e) (t_Month off t)) then
    inl (DateIn loc (t_Year off t) (t_Month off t + 1) 1 0 0)
  else if negb (Matches (ex_DOM e) (t_Day off t)) || negb (Matches (ex_DOW e) (t_Weekday off t)) then
    inl (DateIn loc (t_Year off t) (t_Month off t) (t_Day off t + 1) 0 0)
  else if negb (Matches (ex_Hours e) (t_Hour off t)) then
    inl (DateIn loc (t_Year off t) (t_Month off t) (t_Day off t) (t_Hour off t + 1) 0)
  else if negb (Matches (ex_Minutes e) (t_Minute off t)) then inl (t + minute)%Z
  else inr t.

Fixpoint next_loopIn (fuel : nat) (e : Expression) (loc : Location) (t limit : Time) : option Time :=
  match fuel with
  | 0 => None
  | S fuel' =>
      if (t <? limit)%Z then
        match next_roundIn e loc t with
        | inl t' => next_loopIn fuel' e loc t' limit
        | inr t' => Some t'
        end
      else Some time_zero
  end.

Definition NextIn (fuel : nat) (e : Expression) (after : Time) (loc : Location) : option Time :=
  let t := (time_Truncate after minute + minute)%Z in
  next_loopIn fuel e loc t (AddYearsIn loc t 5).
