(* ===== verification/CronFacts.v ===== *)
(** Cron expressions: the next time is the earliest match, and what field texts mean. *)
From stdpp Require Import pretty.
From S2P Require Import Prelude Errors Runes Strings Calendar Heap Cron.
Local Open Scope Z_scope.

(** * The next time *)

(** The instant falls in a minute the expression names. *)
Definition matches (e : Expression) (off : Z) (t : Time) : bool :=
  Matches (ex_Months e) (t_Month off t) && Matches (ex_DOM e) (t_Day off t)
  && Matches (ex_DOW e) (t_Weekday off t) && Matches (ex_Hours e) (t_Hour off t)
  && Matches (ex_Minutes e) (t_Minute off t).

(** The start of a minute. *)
Definition on_minute (t : Time) : Prop := t mod minute = 0.

(** Arithmetic of days, hours and minutes. *)
Ltac clock :=
  unfold on_minute, local_day, local_clock, day, hour, minute, second in *;
  Z.div_mod_to_equations; lia.

Lemma local_day_mono off t x D :
  t <= x → x < D * day - off → local_day off t <= local_day off x < D.
Proof. intros. clock. Qed.

Lemma day_start off t D :
  on_minute t → on_minute off → local_day off t < D →
  t + minute <= D * day - off ∧ on_minute (D * day - off).
Proof. intros. split; clock. Qed.

(** An instant as its day, hour and the rest. *)
Lemma clock_split off t :
  ∃ r, t + off = local_day off t * day + t_Hour off t * hour + r ∧ 0 <= r < hour ∧
    0 <= t_Hour off t < 24.
Proof.
  exists (local_clock off t mod hour). unfold t_Hour.
  assert (0 <= local_clock off t < day) by clock.
  assert (t + off = local_day off t * day + local_clock off t) by clock.
  split_and!; clock.
Qed.

Lemma clock_unique off x D h r :
  x + off = D * day + h * hour + r → 0 <= r < hour → 0 <= h < 24 →
  local_day off x = D ∧ t_Hour off x = h.
Proof.
  intros E Hr Hh. assert (local_day off x = D) as ED.
  { unfold local_day. symmetry. apply (Z.div_unique _ _ _ (h * hour + r)); clock. }
  split; [done|]. unfold t_Hour. symmetry.
  apply (Z.div_unique _ _ _ r); [clock|].
  assert (local_clock off x = h * hour + r); [|lia].
  unfold local_clock. symmetry. apply (Z.mod_unique _ _ D); clock.
Qed.

Lemma same_hour off t x :
  t <= x → x < local_day off t * day + (t_Hour off t + 1) * hour - off →
  local_day off x = local_day off t ∧ t_Hour off x = t_Hour off t.
Proof.
  intros H1 H2. destruct (clock_split off t) as (r & E & Hr & Hh).
  apply (clock_unique off x _ _ (r + (x - t))); lia.
Qed.

Lemma hour_start off t :
  on_minute t → on_minute off →
  let t' := local_day off t * day + (t_Hour off t + 1) * hour - off in
  t + minute <= t' ∧ on_minute t'.
Proof.
  intros Ht Hoff t'. destruct (clock_split off t) as (r & E & Hr & Hh). unfold t'. split; clock.
Qed.

(** A round that does not answer skips only times that do not match. *)
Lemma next_round_spec e off t :
  on_minute t → on_minute off →
  match next_round e off t with
  | inr r => r = t ∧ matches e off t = true
  | inl t' =>
      t + minute <= t' ∧ on_minute t' ∧
      ∀ x, t <= x < t' → on_minute x → matches e off x = false
  end.
Proof.
  intros Ht Hoff. unfold next_round, matches.
  destruct (Matches (ex_Months e) (t_Month off t)) eqn:Em; simpl.
  2: { pose proof (next_month (local_day off t)) as H. unfold time_Date, t_Year, t_Month in *.
    destruct (date_of_day (local_day off t)) as [y m dd]. cbn [d_year d_month d_day] in *. destruct H as [Hlt Hm].
    set (D := day_of_date y (m + 1) 1) in *. rewrite !Z.add_0_r.
    destruct (day_start off t D) as [? ?]; [done..|]. split_and!; [done..|].
    intros x [Hx1 Hx2] _. pose proof (local_day_mono off t x D Hx1 Hx2).
    rewrite (Hm (local_day off x)) by done. by rewrite Em. }
  destruct (Matches (ex_DOM e) (t_Day off t) && Matches (ex_DOW e) (t_Weekday off t)) eqn:Ed.
  2: { rewrite <- negb_andb, Ed. simpl.
    pose proof (next_day (local_day off t)) as H. unfold time_Date, t_Year, t_Month, t_Day in *.
    destruct (date_of_day (local_day off t)) as [y m dd] eqn:Edate. cbn [d_year d_month d_day] in *.
    rewrite H, !Z.add_0_r. destruct (day_start off t (local_day off t + 1)) as [? ?]; [done..|lia|].
    split_and!; [done..|]. intros x [Hx1 Hx2] _.
    pose proof (local_day_mono off t x _ Hx1 Hx2) as Hd.
    assert (local_day off x = local_day off t) as Ex by lia.
    unfold t_Weekday in *.
    rewrite Ex, Edate. cbn [d_month d_day]. rewrite <- !andb_assoc.
    rewrite (andb_assoc (Matches (ex_DOM e) dd)), Ed. by rewrite andb_false_r. }
  rewrite <- negb_andb, Ed. simpl.
  destruct (Matches (ex_Hours e) (t_Hour off t)) eqn:Eh; simpl.
  2: { pose proof (day_of_date_of_day (local_day off t)) as H. unfold time_Date.
    fold (t_Year off t) (t_Month off t) (t_Day off t) in H. rewrite H, Z.add_0_r.
    destruct (hour_start off t Ht Hoff) as [? ?]. split_and!; [done..|].
    intros x [Hx1 Hx2] _. destruct (same_hour off t x Hx1 Hx2) as [_ ->].
    rewrite Eh. by rewrite andb_false_r. }
  destruct (Matches (ex_Minutes e) (t_Minute off t)) eqn:En; simpl.
  - apply andb_true_iff in Ed as [Ed1 Ed2]. split; [done|]. by rewrite ?Ed1, ?Ed2.
  - split_and!; [done|unfold on_minute in *; clock|]. intros x Hx Hxm.
    assert (x = t) as -> by clock. rewrite En. by rewrite andb_false_r.
Qed.

(** No minute from [lo] on and before [hi] matches. *)
Definition none_between (e : Expression) (off lo hi : Z) : Prop :=
  ∀ x, lo <= x < hi → on_minute x → matches e off x = false.

Lemma next_loop_spec fuel e off t limit :
  on_minute t → on_minute off → 0 < t → limit < t + Z.of_nat fuel * minute →
  let r := next_loop fuel e off t limit in
  (r = time_zero ∧ none_between e off t limit) ∨
  (t <= r < limit ∧ on_minute r ∧ matches e off r = true ∧ none_between e off t r).
Proof.
  intros Ht Hoff. revert t Ht. induction fuel as [|fuel IH]; intros t Ht H0 Hf.
  { left. split; [done|]. intros x Hx. simpl in Hf. lia. }
  cbn [next_loop]. destruct (Z.ltb_spec t limit) as [Hlt|Hge].
  2: { left. split; [done|]. intros x Hx. lia. }
  pose proof (next_round_spec e off t Ht Hoff) as Hr.
  destruct (next_round e off t) as [t'|r].
  - destruct Hr as (Hle & Ht' & Hnone). assert (0 < minute) by done.
    destruct (IH t' Ht') as [[-> Hn]|(Hr1 & Hr2 & Hr3 & Hn)]; [lia|lia| |].
    + left. split; [done|]. intros x Hx Hm.
      destruct (Z.lt_ge_cases x t'); [apply Hnone; [lia|done]|apply Hn; [lia|done]].
    + right. split_and!; [lia|lia|done|done|]. intros x Hx Hm.
      destruct (Z.lt_ge_cases x t'); [apply Hnone; [lia|done]|apply Hn; [lia|done]].
  - destruct Hr as [-> Hm]. right. split_and!; [lia|done|done|done|]. intros x Hx. lia.
Qed.

(** In a location of one offset of whole minutes. *)
Lemma Next_fixed e after off :
  0 <= after → on_minute off →
  let r := Next e after off in
  let limit := time_AddYears off (time_Truncate after minute + minute) 5 in
  (r = time_zero ∧ none_between e off (after + 1) limit) ∨
  (after < r < limit ∧ on_minute r ∧ matches e off r = true ∧ none_between e off (after + 1) r).
Proof.
  intros Ha Hoff r limit. set (t := time_Truncate after minute + minute) in *.
  assert (on_minute t) as Ht by (unfold t, time_Truncate; clock).
  assert (after < t ∧ 0 < t ∧ ∀ x, after + 1 <= x → on_minute x → t <= x) as (Hat & Ht0 & Hfirst).
  { unfold t, time_Truncate. split_and!; [clock|clock|]. intros x Hx Hxm. clock. }
  assert (limit < t + Z.of_nat (S (Z.to_nat ((limit - t) / minute + 1))) * minute) as Hf by clock.
  destruct (next_loop_spec _ e off t limit Ht Hoff Ht0 Hf) as [[Hr Hn]|(Hr1 & Hr2 & Hr3 & Hn)].
  - left. split; [exact Hr|]. intros x Hx Hm. apply Hn; [|done]. split; [apply Hfirst; [lia|done]|lia].
  - right. change (next_loop _ e off t limit) with r in Hr1, Hr2, Hr3, Hn.
    split_and!; [lia|lia|done|done|]. intros x Hx Hm. apply Hn; [|done].
    split; [apply Hfirst; [lia|done]|lia].
Qed.

(** ** Locations whose offset changes *)

(** The instant falls in a minute the expression names, in the zone of the instant. *)
Definition matchesIn (e : Expression) (loc : Location) (t : Time) : bool := matches e (z_offset (loc t)) t.

(** Offsets are whole minutes and less than a day. *)
Definition modest (loc : Location) : Prop :=
  ∀ t, on_minute (z_offset (loc t)) ∧ Z.abs (z_offset (loc t)) <= day.

(** One zone, of offset [off], is in force from [lo] to [hi]. *)
Definition steady (loc : Location) (off lo hi : Z) : Prop :=
  ∀ u, lo <= u <= hi → z_offset (loc u) = off ∧ ∀ v, lo <= v <= hi → in_zone (loc u) v = true.

(** A round in a location is one in its zone, but for the date that is made. *)
Lemma next_roundIn_round e loc t :
  let off := z_offset (loc t) in
  match next_round e off t with
  | inr r => next_roundIn e loc t = inr r
  | inl x => next_roundIn e loc t = inl x ∧ x = t + minute ∨ next_roundIn e loc t = inl (resolve loc (x + off))
  end.
Proof.
  intros off. unfold next_round, next_roundIn, DateIn, time_Date. fold off.
  assert (∀ u, resolve loc (u - 0) = resolve loc (u - off + off)) as E by (intros u; f_equal; lia).
  destruct (negb (Matches (ex_Months e) _)); [right; by rewrite E|]. destruct (_ || _); [right; by rewrite E|].
  destruct (negb (Matches (ex_Hours e) _)); [right; by rewrite E|].
  destruct (negb _); [by left|done].
Qed.

Lemma resolve_near loc u : modest loc → Z.abs (resolve loc u - u) <= day.
Proof.
  intros Hm. unfold resolve. destruct (Z.eqb_spec (z_offset (loc u)) 0); [by rewrite Z.sub_diag|].
  pose proof (proj2 (Hm u)). pose proof (proj2 (Hm (u - z_offset (loc u)))). case_match; lia.
Qed.

Lemma resolve_minute loc u : modest loc → on_minute u → on_minute (resolve loc u).
Proof.
  intros Hm Hu. unfold resolve. destruct (Z.eqb_spec (z_offset (loc u)) 0); [done|].
  pose proof (proj1 (Hm u)). pose proof (proj1 (Hm (u - z_offset (loc u)))). case_match; clock.
Qed.

Lemma resolve_steady loc off lo hi x :
  steady loc off lo hi → Z.abs off <= day → lo + day <= x <= hi - day → resolve loc (x + off) = x.
Proof.
  intros Hs Hoff Hx. unfold resolve. destruct (Hs (x + off)) as [-> Hz]; [lia|].
  destruct (Z.eqb_spec off 0); [lia|]. replace (x + off - off) with x by lia. rewrite Hz; lia.
Qed.

Section located.
Context (e : Expression) (loc : Location) (Hm : modest loc).

(** Every time that is found is named. *)
Lemma next_loopIn_sound fuel t limit r :
  next_loopIn fuel e loc t limit = Some r → r = time_zero ∨ (r < limit ∧ matchesIn e loc r = true).
Proof using.
  clear Hm. revert t. induction fuel as [|fuel IH]; intros t; [done|]. cbn [next_loopIn].
  destruct (Z.ltb_spec t limit) as [Hlt|Hge]; [|intros [= <-]; by left].
  destruct (next_roundIn e loc t) as [t'|r'] eqn:E; [apply IH|]. intros [= <-]. right. revert E.
  unfold next_roundIn, matchesIn, matches. repeat case_match; intros E; try done. injection E as <-. split; [done|].
  repeat match goal with
  | H : negb _ = false |- _ => apply negb_false_iff in H
  | H : _ || _ = false |- _ => apply orb_false_iff in H as [? ?]
  end. by repeat (apply andb_true_iff; split).
Qed.

(** A round goes back by two days at most. *)
Lemma next_roundIn_back t t' :
  on_minute t → next_roundIn e loc t = inl t' → on_minute t' ∧ t - 2 * day < t'.
Proof using Hm.
  intros Ht E. destruct (Hm t) as [Ho Hb]. pose proof (next_round_spec e (z_offset (loc t)) t Ht Ho) as Hr.
  pose proof (next_roundIn_round e loc t) as Hin. cbv zeta in Hin.
  destruct (next_round e (z_offset (loc t)) t) as [x|r]; [|congruence]. destruct Hr as (Hle & Hx & _).
  assert (0 < minute ∧ 0 < day) as [? ?] by (split; done).
  destruct Hin as [[Hin ->]|Hin]; rewrite E in Hin; injection Hin as ->; [split; [done|lia]|].
  split; [apply resolve_minute; [done|clock]|]. pose proof (resolve_near loc (x + z_offset (loc t)) Hm). lia.
Qed.

Section horizon.
Context (off lo hi h : Z) (Hs : steady loc off lo hi) (Hh : h <= hi - 4 * day).

(** In the steady time a round does what it does in the fixed zone, as far as the steady time goes. *)
Lemma next_roundIn_steady t :
  lo + day <= t <= hi → on_minute t →
  match next_round e off t with
  | inr r => next_roundIn e loc t = inr r
  | inl x => ∃ t', next_roundIn e loc t = inl t' ∧ on_minute t' ∧ (t' = x ∨ (hi - day < x ∧ hi - 3 * day < t'))
  end.
Proof using Hm Hs.
  intros Ht Hmin. assert (0 < day) as Hday by done. destruct (Hs t) as [Hoff _]; [lia|]. destruct (Hm t) as [Ho Hb].
  pose proof (next_roundIn_round e loc t) as Hin. cbv zeta in Hin. rewrite Hoff in Hin, Ho, Hb.
  pose proof (next_round_spec e off t Hmin Ho) as Hr. destruct (next_round e off t) as [x|r]; [|done].
  destruct Hr as (Hle & Hx & _). assert (0 < minute) by done.
  destruct Hin as [[Hin Ex]|Hin]; [exists x; split_and!; [done|done|by left]|].
  exists (resolve loc (x + off)). split; [done|]. split; [apply resolve_minute; [done|clock]|].
  destruct (Z.le_gt_cases x (hi - day)) as [Hnear|Hfar].
  - left. apply (resolve_steady loc off lo hi); [done|done|lia].
  - right. split; [lia|]. pose proof (resolve_near loc (x + off) Hm). lia.
Qed.

(** A search that is past the horizon does not come back. *)
Lemma past_horizon fuel t limit r :
  lo + day <= h → h <= t → on_minute t → next_loopIn fuel e loc t limit = Some r → r = time_zero ∨ h <= r.
Proof using Hm Hs Hh.
  intros Hlo. assert (0 < day ∧ 0 < minute) as [Hday Hmn] by (split; done). revert t.
  induction fuel as [|fuel IH]; intros t Ht Hmin; [done|]. cbn [next_loopIn].
  destruct (Z.ltb_spec t limit) as [Hlt|Hge]; [|intros [= <-]; by left].
  destruct (next_roundIn e loc t) as [t'|r'] eqn:E.
  2: { intros [= <-]. right. pose proof (next_roundIn_round e loc t) as Hin. cbv zeta in Hin. destruct (Hm t) as [Ho _].
    pose proof (next_round_spec e (z_offset (loc t)) t Hmin Ho) as Hr.
    destruct (next_round e (z_offset (loc t)) t) as [x|r0]; [destruct Hin as [[Hin _]|Hin]; congruence|].
    destruct Hr as [-> _]. assert (r' = t) as -> by congruence. lia. }
  destruct (next_roundIn_back t t' Hmin E) as [Hmin' Hback]. apply IH; [|done].
  destruct (Z.le_gt_cases t (hi - 2 * day)) as [Hin|Hout]; [|lia].
  pose proof (next_roundIn_steady t ltac:(lia) Hmin) as Hst. destruct (Hs t) as [Hoff _]; [lia|].
  destruct (Hm t) as [Ho _]. rewrite Hoff in Ho. pose proof (next_round_spec e off t Hmin Ho) as Hr.
  destruct (next_round e off t) as [x|r1]; [|congruence]. destruct Hst as (t1 & Et & _ & Hcase).
  assert (t1 = t') as -> by congruence. destruct Hr as (Hle & _). destruct Hcase as [->|[? ?]]; lia.
Qed.

(** The search up to the horizon. *)
Lemma next_loopIn_steady limit t :
  h <= limit → lo + day <= h → lo + day <= t → on_minute t →
  (∃ r, t <= r < h ∧ on_minute r ∧ matches e off r = true ∧ none_between e off t r ∧
     ∃ N, ∀ fuel, (N <= fuel)%nat → next_loopIn fuel e loc t limit = Some r) ∨
  (none_between e off t h ∧ ∀ fuel r, next_loopIn fuel e loc t limit = Some r → r = time_zero ∨ h <= r).
Proof using Hm Hs Hh.
  intros Hlim Hloh. assert (0 < day ∧ 0 < minute) as [Hday Hmn] by (split; done).
  remember (Z.to_nat (h - t)) as k eqn:Ek. revert t Ek. induction k as [k IH] using lt_wf_ind; intros t Ek Hlo Hmin.
  destruct (Z.le_gt_cases h t) as [Hpast|Hlt].
  { right. split; [intros x Hx; lia|]. intros fuel r Hr. by eapply past_horizon. }
  pose proof (next_roundIn_steady t ltac:(lia) Hmin) as Hst. destruct (Hs t) as [Hoff _]; [lia|].
  destruct (Hm t) as [Ho _]. rewrite Hoff in Ho. pose proof (next_round_spec e off t Hmin Ho) as Hr.
  destruct (next_round e off t) as [x|r].
  2: { destruct Hr as [-> Hmt]. left. exists t. split_and!; [lia|lia|done|done|intros y Hy; lia|].
    exists 1%nat. intros [|fuel] Hf; [lia|]. cbn [next_loopIn]. destruct (Z.ltb_spec t limit); [|lia]. by rewrite Hst. }
  destruct Hr as (Hle & Hx & Hnone). destruct Hst as (t' & Et & Hmin' & Hcase).
  destruct (Z.le_gt_cases h x) as [Hbeyond|Hwithin].
  - right. split; [intros y Hy; apply Hnone; lia|]. intros [|fuel] r; [done|]. cbn [next_loopIn].
    destruct (Z.ltb_spec t limit); [|lia]. rewrite Et. apply past_horizon; [lia| |done]. destruct Hcase as [->|[? ?]]; lia.
  - destruct Hcase as [->|[? ?]]; [|lia].
    assert (∀ fuel, next_loopIn (S fuel) e loc t limit = next_loopIn fuel e loc x limit) as Eloop.
    { intros fuel. cbn [next_loopIn]. destruct (Z.ltb_spec t limit); [|lia]. by rewrite Et. }
    assert (∀ b, none_between e off x b → none_between e off t b) as Hext.
    { intros b Hb y Hy Hym. destruct (Z.lt_ge_cases y x); [apply Hnone; [lia|done]|apply Hb; [lia|done]]. }
    destruct (IH (Z.to_nat (h - x)) ltac:(lia) x eq_refl ltac:(lia) Hx) as [(r & Hr1 & Hr2 & Hr3 & Hr4 & N & HN)|[Hn Hres]].
    + left. exists r. split_and!; [lia|lia|done|done|by apply Hext|]. exists (S N). intros [|fuel] Hf; [lia|].
      rewrite Eloop. apply HN. lia.
    + right. split; [by apply Hext|]. intros [|fuel] r; [done|]. rewrite Eloop. apply Hres.
Qed.
End horizon.
End located.

(** ** Fixed offsets *)

Lemma resolve_fixed off u : resolve (FixedZone off) u = u - off.
Proof. unfold resolve, FixedZone. cbn. destruct (Z.eqb_spec off 0); lia. Qed.

Lemma next_roundIn_fixed e off t : next_roundIn e (FixedZone off) t = next_round e off t.
Proof.
  pose proof (next_roundIn_round e (FixedZone off) t) as H. cbn [z_offset FixedZone] in H.
  destruct (next_round e off t) as [x|r]; [|done]. destruct H as [[-> _]| ->]; [done|]. rewrite resolve_fixed. f_equal. lia.
Qed.

Lemma next_loopIn_fixed e off fuel fuel' t limit :
  on_minute t → on_minute off → limit < t + Z.of_nat fuel * minute → (S fuel <= fuel')%nat →
  next_loopIn fuel' e (FixedZone off) t limit = Some (next_loop fuel e off t limit).
Proof.
  intros Ht Hoff. revert fuel' t Ht. induction fuel as [|fuel IH]; intros [|fuel'] t Ht Hf Hle; try lia.
  - cbn [next_loopIn next_loop]. destruct (Z.ltb_spec t limit); [lia|done].
  - cbn [next_loopIn next_loop]. destruct (t <? limit); [|done]. rewrite next_roundIn_fixed.
    pose proof (next_round_spec e off t Ht Hoff) as Hr. destruct (next_round e off t) as [x|r]; [|done].
    destruct Hr as (Hx & Hm & _). assert (0 < minute) by done. apply IH; [done|lia|lia].
Qed.

Lemma NextIn_fixed e after off :
  0 <= after → on_minute off → ∃ N, ∀ fuel, (N <= fuel)%nat → NextIn fuel e after (FixedZone off) = Some (Next e after off).
Proof.
  intros Ha Hoff. unfold NextIn, Next. set (t := time_Truncate after minute + minute).
  assert (on_minute t) as Ht by (unfold t, time_Truncate; clock).
  assert (AddYearsIn (FixedZone off) t 5 = time_AddYears off t 5) as ->.
  { unfold AddYearsIn, time_AddYears. cbn [z_offset FixedZone]. by rewrite resolve_fixed. }
  eexists. intros fuel Hf. apply next_loopIn_fixed; [done|done| |exact Hf]. clock.
Qed.

(** C33: [Next] finds matches, and the earliest as long as the clock is not changed.  In any location, a time
    that is found is one that the expression names there, and the result is the zero time otherwise.  In a
    location with offsets of whole minutes and less than a day, as long as the offset stays the same from a
    day before the given time to four days after a horizon (which is within the five years), the search
    ends with the first minute that is named, if there is one before the horizon, and finds none
    before the horizon otherwise.  In a location of one fixed offset of whole minutes the search ends, and
    gives the first minute that is named, or the zero time exactly when no minute of the five years is. *)
Theorem Next_earliest e after loc :
  0 <= after → modest loc →
  let t := time_Truncate after minute + minute in
  (∀ fuel r, NextIn fuel e after loc = Some r → r = time_zero ∨ (r < AddYearsIn loc t 5 ∧ matchesIn e loc r = true)) ∧
  (∀ off h, steady loc off (after - day) (h + 4 * day) → after < h <= AddYearsIn loc t 5 →
     (∃ r, after < r < h ∧ on_minute r ∧ matches e off r = true ∧ none_between e off (after + 1) r ∧
        ∃ N, ∀ fuel, (N <= fuel)%nat → NextIn fuel e after loc = Some r) ∨
     (none_between e off (after + 1) h ∧ ∀ fuel r, NextIn fuel e after loc = Some r → r = time_zero ∨ h <= r)) ∧
  (∀ off, on_minute off →
     let limit := time_AddYears off t 5 in
     ∃ r N, (∀ fuel, (N <= fuel)%nat → NextIn fuel e after (FixedZone off) = Some r) ∧
       ((r = time_zero ∧ none_between e off (after + 1) limit) ∨
        (after < r < limit ∧ on_minute r ∧ matches e off r = true ∧ none_between e off (after + 1) r))).
Proof.
  intros Ha Hm t. assert (0 < day) as Hday by done.
  assert (on_minute t) as Ht by (unfold t, time_Truncate; clock).
  assert (after < t ∧ ∀ x, after + 1 <= x → on_minute x → t <= x) as (Hat & Hfirst).
  { unfold t, time_Truncate. split; [clock|]. intros x Hx Hxm. clock. }
  assert (∀ off b, none_between e off t b → none_between e off (after + 1) b) as Hext.
  { intros off b Hb x Hx Hxm. apply Hb; [|done]. split; [apply Hfirst; [lia|done]|lia]. }
  split_and!.
  - intros fuel r Hr. by eapply next_loopIn_sound.
  - intros off h Hs Hh.
    destruct (next_loopIn_steady e loc Hm off (after - day) (h + 4 * day) h Hs ltac:(lia) (AddYearsIn loc t 5) t)
      as [(r & Hr1 & Hr2 & Hr3 & Hr4 & HN)|[Hn Hres]]; [lia|lia|lia|done| |].
    + left. exists r. split_and!; [lia|lia|done|done|by apply Hext|done].
    + right. split; [by apply Hext|done].
  - intros off Hoff limit. destruct (NextIn_fixed e after off Ha Hoff) as [N HN].
    exists (Next e after off), N. split; [done|]. by apply Next_fixed.
Qed.

(** Weekdays at nine, asked on a Sunday, in a location that changes its offset in the next spring. *)
Definition weekdays_at_nine : Expression :=
  MkExpression (2 ^ 0) (2 ^ 9) (2 ^ 32 - 2) (2 ^ 13 - 2) (2 ^ 6 - 2).
Definition some_sunday : Time := time_Date 0 2026 11 15 10 7.

(** The eastern time of the United States around one second Sunday of March. *)
Definition eastern (change : Time) : Location := λ t,
  if t <? change then MkZone (-5 * hour) None (Some change) else MkZone (-4 * hour) (Some change) None.
Definition spring_2027 : Time := time_Date 0 2027 3 14 7 0.

Lemma eastern_modest change : modest (eastern change).
Proof. intros t. unfold eastern. by destruct (t <? change). Qed.

Lemma eastern_steady change lo hi : hi < change → steady (eastern change) (-5 * hour) lo hi.
Proof.
  intros Hhi u Hu. unfold eastern. destruct (Z.ltb_spec u change); [|lia]. split; [done|]. intros v Hv.
  unfold in_zone. cbn. apply Z.ltb_lt. lia.
Qed.

Definition horizon_2026 : Time := time_Date 0 2026 12 15 0 0.

Lemma Next_earliest_witness :
  let off := -5 * hour in
  (∃ r, some_sunday < r < horizon_2026 ∧ on_minute r ∧ matches weekdays_at_nine off r = true ∧
     none_between weekdays_at_nine off (some_sunday + 1) r ∧
     ∃ N, ∀ fuel, (N <= fuel)%nat → NextIn fuel weekdays_at_nine some_sunday (eastern spring_2027) = Some r) ∨
  (none_between weekdays_at_nine off (some_sunday + 1) horizon_2026 ∧
   ∀ fuel r, NextIn fuel weekdays_at_nine some_sunday (eastern spring_2027) = Some r → r = time_zero ∨ horizon_2026 <= r).
Proof.
  cbv zeta.
  refine (proj1 (proj2 (Next_earliest weekdays_at_nine some_sunday (eastern spring_2027) _ (eastern_modest _))) _ _ (eastern_steady _ _ _ _) _).
  - vm_compute. discriminate.
  - vm_compute. reflexivity.
  - vm_compute. split; [reflexivity|discriminate].
Defined.

(** Every day at three, asked in the night of the change: at one o'clock the search makes the date of two
    o'clock, which does not exist that day, and [time.Date] gives one o'clock again. *)
Definition daily_at_three : Expression := MkExpression (2 ^ 0) (2 ^ 3) (2 ^ 32 - 2) (2 ^ 13 - 2) (2 ^ 7 - 1).
Definition spring_2026 : Time := time_Date 0 2026 3 8 7 0.

Theorem spring_forward_hangs fuel : NextIn fuel daily_at_three (spring_2026 - 110 * minute) (eastern spring_2026) = None.
Proof.
  set (one := spring_2026 - hour).
  set (limit := AddYearsIn (eastern spring_2026) (time_Truncate (spring_2026 - 110 * minute) minute + minute) 5).
  assert (∀ fuel, next_loopIn fuel daily_at_three (eastern spring_2026) one limit = None) as H.
  { intros f. induction f as [|f IH]; [done|]. cbn [next_loopIn].
    assert ((one <? limit) = true) as -> by (vm_compute; reflexivity).
    assert (next_roundIn daily_at_three (eastern spring_2026) one = inl one) as -> by (vm_compute; reflexivity). exact IH. }
  unfold NextIn. fold limit. destruct fuel as [|fuel]; [done|]. cbn [next_loopIn].
  assert ((time_Truncate (spring_2026 - 110 * minute) minute + minute <? limit) = true) as -> by (vm_compute; reflexivity).
  assert (next_roundIn daily_at_three (eastern spring_2026) (time_Truncate (spring_2026 - 110 * minute) minute + minute) = inl one) as ->
    by (vm_compute; reflexivity).
  apply H.
Qed.

(** * What the text of a field means *)

Lemma shiftl_1_testbit n m : 0 <= n → Z.testbit (Z.shiftl 1 n) m = bool_decide (m = n).
Proof.
  intros Hn. rewrite Z.shiftl_1_l. case_bool_decide as E.
  - subst. by apply Z.pow2_bits_true.
  - apply Z.pow2_bits_false. lia.
Qed.

Lemma Matches_testbit cf n : Matches cf n = true ↔ 0 <= n <= 63 ∧ Z.testbit cf n = true.
Proof.
  unfold Matches. destruct (Z.ltb_spec n 0); simpl; [naive_solver lia|].
  destruct (Z.ltb_spec 63 n); simpl; [naive_solver lia|]. rewrite negb_true_iff, Z.eqb_neq.
  assert (Z.land cf (Z.shiftl 1 n) ≠ 0 ↔ Z.testbit cf n = true) as ->; [|naive_solver lia].
  split; intros Hb.
  - apply not_false_is_true. intros Hf. apply Hb. apply Z.bits_inj'. intros m Hm.
    rewrite Z.land_spec, Z.bits_0, shiftl_1_testbit by lia. case_bool_decide; [|apply andb_false_r].
    subst. by rewrite Hf.
  - intros E. assert (Z.testbit (Z.land cf (Z.shiftl 1 n)) n = true) as Ht.
    { rewrite Z.land_spec, Hb, shiftl_1_testbit by lia. by rewrite bool_decide_eq_true_2. }
    by rewrite E, Z.bits_0 in Ht.
Qed.

(** The numbers of a range with a step. *)
Definition in_progression (start stop step n : Z) : Prop :=
  start <= n <= stop ∧ (n - start) mod step = 0.

Lemma in_progression_step start stop step n :
  1 <= step → start <= stop →
  in_progression start stop step n ↔ n = start ∨ in_progression (start + step) stop step n.
Proof.
  intros Hs Hle. unfold in_progression.
  replace (n - (start + step)) with (n - start + (-1) * step) by lia. rewrite Z.mod_add by lia.
  split.
  - intros [Hn Hm]. destruct (decide (n = start)) as [?|Hne]; [by left|]. right.
    split; [|done]. destruct (Z.lt_ge_cases (n - start) step) as [Hlt|?]; [|lia].
    rewrite Z.mod_small in Hm by lia. lia.
  - intros [->|[Hn Hm]]; [|split; [lia|done]]. rewrite Z.sub_diag, Z.mod_0_l by lia. split; lia.
Qed.

Lemma set_bit_testbit field i n :
  0 <= i <= 63 → Z.testbit (set_bit field i) n = true ↔ Z.testbit field n = true ∨ n = i.
Proof.
  intros Hi. unfold set_bit. rewrite wrap_u_small by lia.
  rewrite (proj2 (Z.ltb_lt i 64)) by lia. rewrite Z.lor_spec, shiftl_1_testbit by lia.
  rewrite orb_true_iff, bool_decide_eq_true. done.
Qed.

(** Without overflow the loop sets the bits of the progression. *)
Lemma range_loop_spec fuel i stop step field n :
  0 <= i → stop <= 63 → 1 <= step → stop + step < 2 ^ 63 → stop - i < Z.of_nat fuel →
  Z.testbit (range_loop fuel i stop step field) n = true ↔
  Z.testbit field n = true ∨ in_progression i stop step n.
Proof.
  intros H0 Hstop Hstep Hover. revert i field H0.
  induction fuel as [|fuel IH]; intros i field H0 Hf; cbn [range_loop].
  { unfold in_progression. naive_solver lia. }
  destruct (Z.leb_spec i stop) as [Hle|Hgt]; [|unfold in_progression; naive_solver lia].
  rewrite wrap_s_small by lia. rewrite IH by lia. rewrite set_bit_testbit by lia.
  rewrite (in_progression_step i) by lia. naive_solver.
Qed.

(** Parts of a field as a writer thinks of them. *)
Inductive crange := CAll | CValue (v : Z) | CRange (a b : Z).
Record cpart := MkPart { cp_range : crange; cp_step : option Z }.

Definition print_range (r : crange) : string :=
  match r with
  | CAll => "*"
  | CValue v => pretty v
  | CRange a b => pretty a +:+ String "-" (pretty b)
  end.
Definition print_part (p : cpart) : string :=
  match cp_step p with
  | None => print_range (cp_range p)
  | Some n => print_range (cp_range p) +:+ String "/" (pretty n)
  end.
Definition print_field (ps : list cpart) : string := join "," (print_part <$> ps).

Definition bounds_of (lo hi : Z) (r : crange) : Z * Z :=
  match r with
  | CAll => (lo, hi)
  | CValue v => (v, v)
  | CRange a b => (a, b)
  end.
Definition part_ok (lo hi : Z) (p : cpart) : Prop :=
  let '(a, b) := bounds_of lo hi (cp_range p) in
  lo <= a ∧ a <= b ∧ b <= hi ∧
  match cp_step p with Some n => 1 <= n < 2 ^ 63 - 64 | None => True end.
Definition part_means (lo hi : Z) (p : cpart) (n : Z) : Prop :=
  let '(a, b) := bounds_of lo hi (cp_range p) in
  in_progression a b (default 1 (cp_step p)) n.

Lemma digit_not c d : digit_char c = false → digit_char d = true → c ≠ d.
Proof. intros ?? ->. congruence. Qed.

Lemma pretty_no_char c (z : Z) : 0 <= z → digit_char c = false → no_char c (pretty z).
Proof.
  intros Hz Hc. rewrite pretty_Z_nonneg by done. unfold no_char.
  eapply string_forall_impl; [|apply pretty_N_digits]. intros d Hd.
  apply negb_true_iff, ascii_eqb_false. by apply digit_not.
Qed.

Lemma no_char_app c s t : no_char c (s +:+ t) ↔ no_char c s ∧ no_char c t.
Proof.
  induction s as [|d s IH]; [by rewrite string_app_nil_l; split; [|intros [_ ?]]|].
  rewrite string_app_cons, !no_char_cons, IH. naive_solver.
Qed.

Lemma contains_char_true c s t : contains_char c (s +:+ String c t) = true.
Proof.
  unfold contains_char. rewrite negb_true_iff, bool_decide_eq_false.
  rewrite no_char_app, no_char_cons. naive_solver.
Qed.

Lemma contains_char_false c s : no_char c s → contains_char c s = false.
Proof. intros H. unfold contains_char. by rewrite bool_decide_eq_true_2. Qed.

Section field.
Context (lo hi : Z) (Hlo : 0 <= lo) (Hhi : hi <= 59).

Lemma print_range_no_char c r :
  digit_char c = false → c ≠ "*"%char → c ≠ "-"%char →
  (let '(a, b) := bounds_of lo hi r in lo <= a ∧ a <= b) → no_char c (print_range r).
Proof.
  intros Hd Hstar Hdash. destruct r as [|v|a b]; simpl; intros Hb.
  - by apply no_char_cons.
  - apply pretty_no_char; [lia|done].
  - rewrite no_char_app, no_char_cons. split_and!; [|done|]; apply pretty_no_char; done || lia.
Qed.

Lemma parse_range_print r :
  (let '(a, b) := bounds_of lo hi r in lo <= a ∧ a <= b ∧ b <= hi) →
  parse_range (print_range r) lo hi = Ok (bounds_of lo hi r).
Proof.
  intros Hb. unfold parse_range.
  assert (∀ v, lo <= v <= hi → in_bounds lo hi (Atoi (pretty v)) = Some v) as Hin.
  { intros v Hv. rewrite Atoi_pretty by (unfold max_int64; lia). simpl.
    by rewrite (proj2 (Z.ltb_ge v lo)), (proj2 (Z.ltb_ge hi v)) by lia. }
  assert (∀ (v : Z) s, 0 <= v → pretty v +:+ s ≠ "*") as Hstar.
  { intros v s Hv E. rewrite pretty_Z_nonneg in E by done.
    pose proof (pretty_N_digits (Z.to_N v)) as Hd. pose proof (pretty_N_not_nil (Z.to_N v)).
    destruct (pretty (Z.to_N v)) as [|c t]; [done|]. simpl in Hd.
    rewrite string_app_cons in E. injection E as -> _. done. }
  destruct r as [|v|a b]; simpl in Hb; cbn [print_range bounds_of].
  - done.
  - rewrite bool_decide_eq_false_2.
    2: { intros E. apply (Hstar v ""); [lia|]. by rewrite string_app_nil_r. }
    rewrite contains_char_false by (apply pretty_no_char; [lia|done]).
    by rewrite Hin by lia.
  - rewrite bool_decide_eq_false_2 by (apply Hstar; lia).
    rewrite contains_char_true, split_app by (apply pretty_no_char; [lia|done]).
    rewrite split_no_char by (apply pretty_no_char; [lia|done]).
    rewrite !Hin by lia. by rewrite (proj2 (Z.ltb_ge b a)) by lia.
Qed.

Lemma parse_step_print p :
  part_ok lo hi p →
  parse_step (print_part p) = Ok (default 1 (cp_step p), print_range (cp_range p)).
Proof.
  unfold part_ok. destruct (bounds_of lo hi (cp_range p)) as [a b] eqn:Eb.
  intros (Ha & Hab & Hb & Hs). unfold parse_step, print_part.
  assert (no_char "/" (print_range (cp_range p))) as Hno.
  { apply print_range_no_char; [done|done|done|]. rewrite Eb. lia. }
  destruct (cp_step p) as [n|]; simpl default.
  - rewrite contains_char_true, split_app by done.
    rewrite split_no_char by (apply pretty_no_char; [lia|done]).
    rewrite Atoi_pretty by (unfold max_int64; lia).
    by rewrite (proj2 (Z.leb_gt n 0)) by lia.
  - by rewrite contains_char_false.
Qed.

Lemma string_forall_app (P : ascii → bool) s t :
  string_forall P (s +:+ t) = string_forall P s && string_forall P t.
Proof.
  induction s as [|c s IH]; [done|]. rewrite string_app_cons. simpl. by rewrite IH, andb_assoc.
Qed.

Lemma pretty_visible (z : Z) : 0 <= z → string_forall visible (pretty z) = true.
Proof.
  intros Hz. rewrite pretty_Z_nonneg by done.
  eapply string_forall_impl; [|apply pretty_N_digits]. intros c. unfold digit_char, visible.
  rewrite !andb_true_iff, !Nat.leb_le. lia.
Qed.

Lemma print_part_visible p : part_ok lo hi p → string_forall visible (print_part p) = true.
Proof.
  unfold part_ok. destruct (bounds_of lo hi (cp_range p)) as [a b] eqn:Eb.
  intros (Ha & Hab & Hb & Hs). unfold print_part.
  assert (string_forall visible (print_range (cp_range p)) = true) as Hr.
  { destruct (cp_range p) as [|v|a' b']; simplify_eq/=; [done|apply pretty_visible; lia|].
    rewrite string_forall_app. simpl. rewrite !pretty_visible by lia. done. }
  destruct (cp_step p) as [n|]; [|done]. rewrite string_forall_app, Hr. simpl.
  by rewrite pretty_visible by lia.
Qed.

Lemma print_part_not_nil p : print_part p ≠ "".
Proof.
  unfold print_part. intros E.
  assert (∀ z : Z, pretty z ≠ ("" : string)) as Hp.
  { intros z Ez. destruct z as [|q|q]; [done| |done].
    by apply (pretty_N_not_nil (N.pos q)). }
  destruct (cp_step p), (cp_range p) as [|v|a b]; simpl in E; try done;
    try (by apply (Hp v)); apply (f_equal String.length) in E;
    rewrite ?string_length_app in E; simpl in E; lia.
Qed.

Lemma print_part_no_comma p : part_ok lo hi p → no_char "," (print_part p).
Proof.
  unfold part_ok. destruct (bounds_of lo hi (cp_range p)) as [a b] eqn:Eb.
  intros (Ha & Hab & Hb & Hs). unfold print_part.
  assert (no_char "," (print_range (cp_range p))) as Hno.
  { apply print_range_no_char; [done|done|done|]. rewrite Eb. lia. }
  destruct (cp_step p) as [n|]; [|done]. rewrite no_char_app, no_char_cons.
  split_and!; [done|done|]. apply pretty_no_char; [lia|done].
Qed.

Lemma parse_part_print p field :
  part_ok lo hi p →
  ∃ field', parse_part (print_part p) lo hi field = Ok field' ∧
    ∀ n, Z.testbit field' n = true ↔ Z.testbit field n = true ∨ part_means lo hi p n.
Proof.
  intros Hok. unfold parse_part. rewrite visible_trim by (by apply print_part_visible).
  rewrite parse_step_print by done. cbn [mbind result_bind].
  unfold part_ok, part_means in *. pose proof (parse_range_print (cp_range p)) as Hr.
  destruct (bounds_of lo hi (cp_range p)) as [a b]. destruct Hok as (Ha & Hab & Hb & Hs).
  rewrite Hr by done. cbn [mbind result_bind]. eexists. split; [done|]. intros n.
  apply range_loop_spec; unfold range_fuel; destruct (cp_step p); simpl; lia.
Qed.

Lemma parse_parts_print ps field :
  Forall (part_ok lo hi) ps →
  ∃ field', parse_parts (print_part <$> ps) lo hi field = Ok field' ∧
    ∀ n, Z.testbit field' n = true ↔
      Z.testbit field n = true ∨ Exists (λ p, part_means lo hi p n) ps.
Proof.
  intros Hps. revert field. induction Hps as [|p ps Hp Hps IH]; intros field; csimpl.
  { eexists. split; [done|]. intros n. rewrite Exists_nil. naive_solver. }
  cbn [parse_parts]. destruct (parse_part_print p field Hp) as (f1 & -> & H1).
  cbn [mbind result_bind]. destruct (IH f1) as (f2 & -> & H2). eexists. split; [done|].
  intros n. rewrite H2, H1, Exists_cons. naive_solver.
Qed.

Lemma parseField_print ps :
  ps ≠ [] → Forall (part_ok lo hi) ps →
  ∃ cf, parseField (print_field ps) lo hi = Ok cf ∧
    ∀ n, Matches cf n = true ↔ Exists (λ p, part_means lo hi p n) ps.
Proof.
  intros Hne Hps. unfold parseField, print_field. rewrite split_join.
  - destruct (parse_parts_print ps 0 Hps) as (cf & -> & Hcf). eexists. split; [done|].
    intros n. rewrite Matches_testbit, Hcf, Z.bits_0.
    split; [naive_solver|]. intros Hex. split; [|by right].
    apply Exists_exists in Hex as (p & Hp & Hm). rewrite Forall_forall in Hps. specialize (Hps p Hp).
    unfold part_ok, part_means, in_progression in *.
    destruct (bounds_of lo hi (cp_range p)). lia.
  - by intros E%fmap_nil_inv.
  - rewrite Forall_fmap. eapply Forall_impl; [exact Hps|]. apply print_part_no_comma.
Qed.

Lemma print_field_visible ps :
  ps ≠ [] → Forall (part_ok lo hi) ps →
  string_forall visible (print_field ps) = true ∧ print_field ps ≠ "".
Proof.
  unfold print_field. intros Hne Hps. induction Hps as [|p ps Hp Hps IH]; [done|].
  rewrite fmap_cons. destruct (decide (ps = [])) as [->|Hps0].
  { split; [by apply print_part_visible|apply print_part_not_nil]. }
  rewrite join_cons by (by intros E%fmap_nil_inv). destruct (IH Hps0) as [Hv _].
  rewrite string_forall_app, print_part_visible by done. split; [by simpl; rewrite Hv|].
  intros E%(f_equal String.length). rewrite string_length_app in E. simpl in E. lia.
Qed.
End field.

(** The five fields of an expression. *)
Record cspec := MkCspec {
  cs_minute : list cpart;
  cs_hour : list cpart;
  cs_dom : list cpart;
  cs_month : list cpart;
  cs_dow : list cpart
}.
Definition print_spec (c : cspec) : string :=
  print_field (cs_minute c) +:+ String " " (print_field (cs_hour c) +:+ String " "
    (print_field (cs_dom c) +:+ String " " (print_field (cs_month c) +:+ String " "
      (print_field (cs_dow c))))).

Definition field_ok (lo hi : Z) (ps : list cpart) : Prop :=
  ps ≠ [] ∧ Forall (part_ok lo hi) ps.
Definition spec_ok (c : cspec) : Prop :=
  field_ok 0 59 (cs_minute c) ∧ field_ok 0 23 (cs_hour c) ∧ field_ok 1 31 (cs_dom c) ∧
  field_ok 1 12 (cs_month c) ∧ field_ok 0 6 (cs_dow c).
(** A field holds the numbers its parts mean. *)
Definition field_holds (lo hi : Z) (ps : list cpart) (cf : CronField) : Prop :=
  ∀ n, Matches cf n = true ↔ Exists (λ p, part_means lo hi p n) ps.

(** The parser gives texts their meaning: a well-formed text of five fields, each a list of
    stars, values and ranges with steps below 2^63 - 64, is accepted, and each field of the
    result matches exactly the numbers that some part of its text names. *)
Theorem ParseExpression_meaning c :
  spec_ok c →
  ∃ e, ParseExpression (print_spec c) = Ok e ∧
    field_holds 0 59 (cs_minute c) (ex_Minutes e) ∧ field_holds 0 23 (cs_hour c) (ex_Hours e) ∧
    field_holds 1 31 (cs_dom c) (ex_DOM e) ∧ field_holds 1 12 (cs_month c) (ex_Months e) ∧
    field_holds 0 6 (cs_dow c) (ex_DOW e).
Proof.
  intros ([N1 O1] & [N2 O2] & [N3 O3] & [N4 O4] & [N5 O5]). unfold ParseExpression, print_spec.
  destruct (print_field_visible 0 59 ltac:(lia) ltac:(lia) _ N1 O1) as [V1 W1].
  destruct (print_field_visible 0 23 ltac:(lia) ltac:(lia) _ N2 O2) as [V2 W2].
  destruct (print_field_visible 1 31 ltac:(lia) ltac:(lia) _ N3 O3) as [V3 W3].
  destruct (print_field_visible 1 12 ltac:(lia) ltac:(lia) _ N4 O4) as [V4 W4].
  destruct (print_field_visible 0 6 ltac:(lia) ltac:(lia) _ N5 O5) as [V5 W5].
  rewrite !fields_cons, fields_last by done.
  destruct (parseField_print 0 59 ltac:(lia) ltac:(lia) _ N1 O1) as (f1 & -> & H1).
  destruct (parseField_print 0 23 ltac:(lia) ltac:(lia) _ N2 O2) as (f2 & -> & H2).
  destruct (parseField_print 1 31 ltac:(lia) ltac:(lia) _ N3 O3) as (f3 & -> & H3).
  destruct (parseField_print 1 12 ltac:(lia) ltac:(lia) _ N4 O4) as (f4 & -> & H4).
  destruct (parseField_print 0 6 ltac:(lia) ltac:(lia) _ N5 O5) as (f5 & -> & H5).
  eexists. split; [reflexivity|]. done.
Qed.

(** [5,10-20/5 */2 1 * 1-5] *)
Definition example_spec : cspec :=
  let every := [MkPart CAll None] in
  MkCspec [MkPart (CValue 5) None; MkPart (CRange 10 20) (Some 5)] [MkPart CAll (Some 2)]
    [MkPart (CValue 1) None] every [MkPart (CRange 1 5) None].

Lemma ParseExpression_meaning_witness :
  ∃ e, ParseExpression (print_spec example_spec) = Ok e ∧
    field_holds 0 59 (cs_minute example_spec) (ex_Minutes e) ∧
    field_holds 0 23 (cs_hour example_spec) (ex_Hours e) ∧
    field_holds 1 31 (cs_dom example_spec) (ex_DOM e) ∧
    field_holds 1 12 (cs_month example_spec) (ex_Months e) ∧
    field_holds 0 6 (cs_dow example_spec) (ex_DOW e).
Proof.
  apply (ParseExpression_meaning example_spec).
  repeat split; try discriminate; repeat constructor; vm_compute; congruence.
Defined.

(** A step near the top of the [int] range overflows the loop variable: the text names minute
    59, and minute 57 matches too. *)
Lemma step_overflow :
  ∃ cf, parseField "59/9223372036854775807" 0 59 = Ok cf ∧
    Matches cf 59 = true ∧ Matches cf 57 = true.
Proof. eexists. split; [vm_compute; reflexivity|]. done. Qed.
