(* ===== verification/CronEngine.v ===== *)
(** The engine of [internal/cronengine/cronengine.go]: schedules, their queue, the scheduling
    loop and the runs of handlers.

    Schedules are objects with an identity, since the registry, the queue and running goroutines
    share them: [e_objs] maps pointers to schedules, [e_schedules] identifiers to pointers, and
    [e_queue] is the heap of pointers.  A run of a handler is in [e_runs] from its start to its
    end; [cancelFunc] names the run it cancels.  [now], [started] and [finished] are times of
    calls, [err] what the handler returns.  The sleeping and waking of the loop are not
    modelled: [loop_pop] is what the loop does under the lock each time it looks at the queue,
    and [dispatch] what it does after that. *)
From stdpp Require Import pretty.
From S2P Require Import Prelude Errors Runes Strings Calendar Heap Cron.

Inductive MissedPolicy := MissedFireSkip | MissedFireRunOnce | MissedFireRunAll.
Inductive OverlapPolicy := OverlapAllow | OverlapForbid | OverlapReplace.

#[export] Instance OverlapPolicy_eq_dec : EqDecision OverlapPolicy.
Proof. solve_decision. Defined.

Record ExecutionRecord := MkRecord {
  er_ExecutionID : string;
  er_ScheduleID : string;
  er_ScheduledAt : Time;
  er_StartedAt : Time;
  er_FinishedAt : Time;
  er_Duration : Duration;
  er_Err : option error;
  er_Success : bool
}.

Record Schedule := MkSchedule {
  s_ID : string;
  s_WorkflowID : string;
  s_ExpressionStr : string;
  s_expr : Expression;
  s_Location : Z;
  s_NextRun : Time;
  s_LastRun : Time;
  s_IsPaused : bool;
  s_Missed : MissedPolicy;
  s_Overlap : OverlapPolicy;
  s_heapIndex : Z;
  s_cancel : option nat;
  s_running : bool
}.

Definition set_index (i : Z) (s : Schedule) : Schedule :=
  MkSchedule (s_ID s) (s_WorkflowID s) (s_ExpressionStr s) (s_expr s) (s_Location s) (s_NextRun s)
    (s_LastRun s) (s_IsPaused s) (s_Missed s) (s_Overlap s) i (s_cancel s) (s_running s).
Definition set_times (next last : Time) (s : Schedule) : Schedule :=
  MkSchedule (s_ID s) (s_WorkflowID s) (s_ExpressionStr s) (s_expr s) (s_Location s) next
    last (s_IsPaused s) (s_Missed s) (s_Overlap s) (s_heapIndex s) (s_cancel s) (s_running s).
Definition set_paused (b : bool) (s : Schedule) : Schedule :=
  MkSchedule (s_ID s) (s_WorkflowID s) (s_ExpressionStr s) (s_expr s) (s_Location s) (s_NextRun s)
    (s_LastRun s) b (s_Missed s) (s_Overlap s) (s_heapIndex s) (s_cancel s) (s_running s).
Definition set_run (running : bool) (cancel : option nat) (s : Schedule) : Schedule :=
  MkSchedule (s_ID s) (s_WorkflowID s) (s_ExpressionStr s) (s_expr s) (s_Location s) (s_NextRun s)
    (s_LastRun s) (s_IsPaused s) (s_Missed s) (s_Overlap s) (s_heapIndex s) cancel running.

(** * The queue *)

Abbreviation heap_state := (gmap nat Schedule * list nat)%type (only parsing).

Definition next_run (objs : gmap nat Schedule) (p : nat) : Time :=
  match objs !! p with Some s => s_NextRun s | None => time_zero end.

Definition sq_Less (h : heap_state) (i j : nat) : bool :=
  match h.2 !! i, h.2 !! j with
  | Some p, Some q => time_before (next_run h.1 p) (next_run h.1 q)
  | _, _ => false
  end.

(** The index field of the pointer at a position. *)
Definition index_at (i : nat) (pq : list nat) (objs : gmap nat Schedule) : gmap nat Schedule :=
  match pq !! i with Some p => alter (set_index (Z.of_nat i)) p objs | None => objs end.

Definition sq_Swap (h : heap_state) (i j : nat) : heap_state :=
  let pq := swap_list i j h.2 in
  (index_at j pq (index_at i pq h.1), pq).

Definition sq_Push (h : heap_state) (p : nat) : heap_state :=
  (alter (set_index (Z.of_nat (length h.2))) p h.1, h.2 ++ [p]).

Definition sq_Pop (h : heap_state) : option (nat * heap_state) :=
  match last h.2 with
  | Some p => Some (p, (alter (set_index (-1)) p h.1, take (length h.2 - 1) h.2))
  | None => None
  end.

#[export] Instance scheduleQueue_heap : HeapInterface (gmap nat Schedule * list nat) nat := {|
  Len h := length h.2;
  Less := sq_Less;
  Swap := sq_Swap;
  Push := sq_Push;
  Pop := sq_Pop
|}.

(** * The engine *)

Record EngineConfig := MkEngineConfig {
  cfg_ClockSkewAllowance : Duration;
  cfg_MaxHistoryPerJob : Z
}.
Definition DefaultEngineConfig : EngineConfig := MkEngineConfig (50 * millisecond) 100.

(** A handler in progress: its schedule, the time it was scheduled for, and whether its context
    was cancelled. *)
Record Run := MkRun { r_sched : nat; r_scheduledAt : Time; r_cancelled : bool }.

Record Engine := MkEngine {
  e_cfg : EngineConfig;
  e_objs : gmap nat Schedule;
  e_schedules : gmap string nat;
  e_queue : list nat;
  e_history : gmap string (list ExecutionRecord);
  e_runs : gmap nat Run;
  e_fresh : nat;       (** the next pointer and the next run *)
  e_execSeq : Z
}.

Definition New (cfg : EngineConfig) : Engine := MkEngine cfg ∅ ∅ [] ∅ ∅ 0 0.

Definition set_heap (h : heap_state) (e : Engine) : Engine :=
  MkEngine (e_cfg e) h.1 (e_schedules e) h.2 (e_history e) (e_runs e) (e_fresh e) (e_execSeq e).
Definition heap_of (e : Engine) : heap_state := (e_objs e, e_queue e).
Definition set_objs (objs : gmap nat Schedule) (e : Engine) : Engine :=
  MkEngine (e_cfg e) objs (e_schedules e) (e_queue e) (e_history e) (e_runs e) (e_fresh e)
    (e_execSeq e).
Definition set_runs (runs : gmap nat Run) (e : Engine) : Engine :=
  MkEngine (e_cfg e) (e_objs e) (e_schedules e) (e_queue e) (e_history e) runs (e_fresh e)
    (e_execSeq e).

Definition AddSchedule (id workflowID cronExpr : string) (loc : option Z) (missed : MissedPolicy)
    (overlap : OverlapPolicy) (now : Time) (e : Engine) : option error * Engine :=
  let loc := default 0%Z loc in
  match ParseExpression cronExpr with
  | Err err => (Some err, e)
  | Ok expr =>
      match e_schedules e !! id with
      | Some _ => (Some (ESentinel SScheduleExists), e)
      | None =>
          let s := MkSchedule id workflowID cronExpr expr loc (Next expr now loc) time_zero false
                     missed overlap 0 None false in
          let p := e_fresh e in
          let h := heap_Push (<[p := s]> (e_objs e), e_queue e) p in
          (None, MkEngine (e_cfg e) h.1 (<[id := p]> (e_schedules e)) h.2 (e_history e) (e_runs e)
                   (S p) (e_execSeq e))
      end
  end.

(** The pointer and the object of an identifier. *)
Definition find_schedule (id : string) (e : Engine) : option (nat * Schedule) :=
  p ← e_schedules e !! id; s ← e_objs e !! p; Some (p, s).

Definition PauseSchedule (id : string) (e : Engine) : option error * Engine :=
  match find_schedule id e with
  | None => (Some (ESentinel SScheduleNotFound), e)
  | Some (p, s) => (None, set_objs (<[p := set_paused true s]> (e_objs e)) e)
  end.

Definition ResumeSchedule (id : string) (now : Time) (e : Engine) : option error * Engine :=
  match find_schedule id e with
  | None => (Some (ESentinel SScheduleNotFound), e)
  | Some (p, s) =>
      if negb (s_IsPaused s) then (None, e)
      else
        let s' := set_times (Next (s_expr s) now (s_Location s)) (s_LastRun s) (set_paused false s) in
        let h := (<[p := s']> (e_objs e), e_queue e) in
        let h' := if (0 <=? s_heapIndex s)%Z then heap_Fix h (Z.to_nat (s_heapIndex s))
                  else heap_Push h p in
        (None, set_heap h' e)
  end.

(** [cancelFunc()] *)
Definition cancel_run (c : option nat) (e : Engine) : Engine :=
  match c with
  | Some r => set_runs (alter (λ run, MkRun (r_sched run) (r_scheduledAt run) true) r (e_runs e)) e
  | None => e
  end.

Definition RemoveSchedule (id : string) (e : Engine) : option error * Engine :=
  match find_schedule id e with
  | None => (Some (ESentinel SScheduleNotFound), e)
  | Some (p, s) =>
      let e1 := if (0 <=? s_heapIndex s)%Z
                then match heap_Remove (heap_of e) (Z.to_nat (s_heapIndex s)) with
                     | Some (_, h) => set_heap h e
                     | None => e
                     end
                else e in
      let e2 := MkEngine (e_cfg e1) (e_objs e1) (delete id (e_schedules e1)) (e_queue e1)
                  (e_history e1) (e_runs e1) (e_fresh e1) (e_execSeq e1) in
      (None, cancel_run (s_cancel s) e2)
  end.

(** What the loop decides: to sleep for a while, or the schedule to dispatch and its time. *)
Inductive loop_outcome := Sleep (d : Duration) | Due (p : nat) (triggerTime : Time).

Definition loop_pop (now : Time) (e : Engine) : loop_outcome * Engine :=
  match head (e_queue e) with
  | None => (Sleep (24 * hour), e)
  | Some p0 =>
      let earliest := next_run (e_objs e) p0 in
      if negb (time_after earliest (time_add now (cfg_ClockSkewAllowance (e_cfg e)))) then
        match heap_Pop (heap_of e) with
        | Some (p, h) =>
            match h.1 !! p with
            | Some s =>
                let triggerTime := s_NextRun s in
                let s' := set_times (Next (s_expr s) triggerTime (s_Location s)) triggerTime s in
                let h := (<[p := s']> h.1, h.2) in
                (Due p triggerTime, set_heap (if negb (s_IsPaused s') then heap_Push h p else h) e)
            | None => (Sleep 0, e)
            end
        | None => (Sleep 0, e)
        end
      else (Sleep (time_sub earliest now), e)
  end.

Definition recordExecution (scheduleID : string) (scheduled started finished : Time)
    (err : option error) (e : Engine) : Engine :=
  let seq := wrap_u 64 (e_execSeq e + 1) in
  let rec := MkRecord ("exec-" +:+ pretty seq) scheduleID scheduled started finished
               (time_sub finished started) err (bool_decide (err = None)) in
  let list := default [] (e_history e !! scheduleID) ++ [rec] in
  let max := cfg_MaxHistoryPerJob (e_cfg e) in
  let list := if (0 <? max)%Z && (max <? Z.of_nat (length list))%Z
              then drop (length list - Z.to_nat max) list else list in
  MkEngine (e_cfg e) (e_objs e) (e_schedules e) (e_queue e) (<[scheduleID := list]> (e_history e))
    (e_runs e) (e_fresh e) seq.

(** The start of the goroutine of a run; its end is [finish]. *)
Definition start_run (p : nat) (s : Schedule) (scheduledAt : Time) (e : Engine) : Engine :=
  let r := e_fresh e in
  MkEngine (e_cfg e) (<[p := set_run true (Some r) s]> (e_objs e)) (e_schedules e) (e_queue e)
    (e_history e) (<[r := MkRun p scheduledAt false]> (e_runs e)) (S r) (e_execSeq e).

Definition dispatch (p : nat) (scheduledAt now : Time) (e : Engine) : Engine :=
  match e_objs e !! p with
  | None => e
  | Some s =>
      if s_IsPaused s then e
      else if s_running s then
        match s_Overlap s with
        | OverlapForbid =>
            recordExecution (s_ID s) scheduledAt now now
              (Some (ESentinel (SOther "cronengine: run skipped due to OverlapForbid"))) e
        | OverlapReplace => start_run p s scheduledAt (cancel_run (s_cancel s) e)
        | OverlapAllow => start_run p s scheduledAt e
        end
      else start_run p s scheduledAt e
  end.

(** The end of the goroutine of a run. *)
Definition finish (r : nat) (started finished : Time) (err : option error) (e : Engine) : Engine :=
  match e_runs e !! r with
  | None => e
  | Some run =>
      let p := r_sched run in
      let e1 := MkEngine (e_cfg e) (alter (set_run false None) p (e_objs e)) (e_schedules e)
                  (e_queue e) (e_history e) (delete r (e_runs e)) (e_fresh e) (e_execSeq e) in
      match e_objs e !! p with
      | Some s => recordExecution (s_ID s) (r_scheduledAt run) started finished err e1
      | None => e1
      end
  end.

Definition GetHistory (scheduleID : string) (e : Engine) : list ExecutionRecord :=
  default [] (e_history e !! scheduleID).

Definition TriggerNow (id : string) (now : Time) (e : Engine) : option error * Engine :=
  match e_schedules e !! id with
  | None => (Some (ESentinel SScheduleNotFound), e)
  | Some p => (None, dispatch p now now e)
  end.

(** The snapshot leaves out what concerns the queue and the run. *)
Definition GetSchedule (id : string) (e : Engine) : result error Schedule :=
  match find_schedule id e with
  | None => Err (ESentinel SScheduleNotFound)
  | Some (_, s) => Ok (set_run false None (set_index 0 s))
  end.
