(* ===== verification/CronEngineFacts.v ===== *)
(** The cron engine: the queue never loses a schedule, the loop dispatches the earliest one,
    forbidden overlaps do not happen, and two ways in which schedules misbehave. *)
From S2P Require Import Prelude Errors Runes Strings Calendar Heap Cron CronFacts CronEngine.

(** * The queue meets the laws of heaps *)

(** Schedules without their place in the heap. *)
Definition bare (objs : gmap nat Schedule) : gmap nat Schedule := set_index 0 <$> objs.

Lemma bare_alter i p objs : bare (alter (set_index i) p objs) = bare objs.
Proof.
  apply map_eq. intros q. unfold bare. rewrite !lookup_fmap.
  destruct (decide (p = q)) as [->|Hne].
  - rewrite lookup_alter_eq. by destruct (objs !! q).
  - by rewrite lookup_alter_ne.
Qed.

Lemma bare_lookup objs objs' p s :
  bare objs = bare objs' → objs !! p = Some s →
  ∃ i, objs' !! p = Some (set_index i s).
Proof.
  intros E Hs. assert (bare objs !! p = Some (set_index 0 s)) as H
    by (unfold bare; by rewrite lookup_fmap, Hs).
  rewrite E in H. unfold bare in H. apply lookup_fmap_Some in H as (s' & E' & Hs').
  exists (s_heapIndex s'). rewrite Hs'. f_equal.
  transitivity (set_index (s_heapIndex s') (set_index 0 s')); [by destruct s'|].
  by rewrite E'.
Qed.

Lemma next_run_bare objs p : next_run (bare objs) p = next_run objs p.
Proof. unfold next_run, bare. rewrite lookup_fmap. by destruct (objs !! p). Qed.

Lemma next_run_same objs objs' p : bare objs = bare objs' → next_run objs p = next_run objs' p.
Proof. intros E. by rewrite <- next_run_bare, E, next_run_bare. Qed.

Lemma bare_index_at i pq objs : bare (index_at i pq objs) = bare objs.
Proof. unfold index_at. destruct (pq !! i); [apply bare_alter|done]. Qed.

Definition item (objs : gmap nat Schedule) (p : nat) : nat * Time := (p, next_run objs p).

Lemma item_same objs objs' p : bare objs = bare objs' → item objs p = item objs' p.
Proof. intros E. unfold item. by rewrite (next_run_same objs objs'). Qed.

Lemma swap_list_fmap {A B} (f : A → B) i j l :
  i < length l → j < length l → f <$> swap_list i j l = swap_list i j (f <$> l).
Proof.
  intros Hi Hj. apply list_eq. intros k.
  rewrite list_lookup_fmap, !swap_list_lookup, !list_lookup_fmap by (by rewrite ?length_fmap).
  by repeat case_decide.
Qed.

#[export] Program Instance scheduleQueue_laws :
  HeapLaws (gmap nat Schedule * list nat) nat (nat * Time) := {|
  items h := item h.1 <$> h.2;
  view h p := item h.1 p;
  lt a b := time_before a.2 b.2
|}.
Next Obligation. intros [p t] [q u]. unfold time_before. simpl. rewrite Z.ltb_lt, Z.ltb_ge. lia. Qed.
Next Obligation.
  intros [p t] [q u] [r v]. unfold time_before. simpl. rewrite !Z.ltb_ge. lia.
Qed.
Next Obligation. intros h. cbv beta. by rewrite length_fmap. Qed.
Next Obligation.
  intros h i j a b. cbv beta. rewrite !list_lookup_fmap, !fmap_Some. intros (p & Hp & ->) (q & Hq & ->).
  simpl. unfold sq_Less. by rewrite Hp, Hq.
Qed.
Next Obligation.
  intros h i j Hi Hj. simpl in *. rewrite <- swap_list_fmap by done. apply list_fmap_ext.
  intros k p _. apply item_same. by rewrite !bare_index_at.
Qed.
Next Obligation.
  intros h i j p _ _. simpl. apply item_same. by rewrite !bare_index_at.
Qed.
Next Obligation.
  intros h p. simpl. rewrite fmap_app. f_equal; [|cbn; f_equal; apply item_same, bare_alter].
  apply list_fmap_ext. intros k q _. apply item_same, bare_alter.
Qed.
Next Obligation.
  intros h Hh. simpl in *. unfold sq_Pop.
  destruct (last h.2) as [p|] eqn:E; [|by apply last_None in E; rewrite E in Hh].
  eexists _, _. split; [done|]. apply last_Some in E as [l ->]. simpl.
  rewrite length_app. simpl. replace (length l + 1 - 1) with (length l) by lia.
  rewrite take_app_length, fmap_app. f_equal.
  apply list_fmap_ext. intros k q _. symmetry. apply item_same, bare_alter.
Qed.

(** * Indices *)

(** Every queued schedule knows its position, every other one has index -1 — but for one
    schedule [x] about to be pushed. *)
Definition index_ok_but (x : option nat) (h : gmap nat Schedule * list nat) : Prop :=
  NoDup h.2 ∧
  (∀ i p, h.2 !! i = Some p → ∃ s, h.1 !! p = Some s ∧ s_heapIndex s = Z.of_nat i) ∧
  (∀ p s, h.1 !! p = Some s → p ∉ h.2 → x ≠ Some p → s_heapIndex s = (-1)%Z).
Definition index_ok := index_ok_but None.

Lemma index_at_lookup i pq objs p :
  index_at i pq objs !! p =
  if decide (pq !! i = Some p) then set_index (Z.of_nat i) <$> objs !! p else objs !! p.
Proof.
  unfold index_at. destruct (pq !! i) as [q|] eqn:E; [|by rewrite decide_False].
  destruct (decide (q = p)) as [->|Hne].
  - rewrite lookup_alter_eq. by rewrite decide_True.
  - rewrite lookup_alter_ne by done. rewrite decide_False; [done|]. naive_solver.
Qed.

Lemma Swap_index_ok h i j :
  index_ok h → i < length h.2 → j < length h.2 → index_ok (sq_Swap h i j).
Proof.
  intros (Hnd & Hin & Hout) Hi Hj. unfold sq_Swap.
  pose proof (swap_list_perm i j h.2 Hi Hj) as Hperm. set (pq := swap_list i j h.2) in *.
  assert (NoDup pq) as Hnd' by (by rewrite Hperm).
  split_and!; simpl; [done| |].
  - intros k p Hk. assert (∃ s, h.1 !! p = Some s ∧
      (k ≠ i → k ≠ j → s_heapIndex s = Z.of_nat k)) as (s & Hs & Hidx).
    { assert (p ∈ h.2) as [k' Hk']%list_elem_of_lookup
        by (rewrite <- Hperm; by eapply list_elem_of_lookup_2).
      destruct (Hin k' p Hk') as (s & Hs & Es). exists s. split; [done|]. intros Hki Hkj.
      unfold pq in Hk. rewrite swap_other in Hk by done.
      by rewrite Es, (NoDup_lookup _ _ _ _ Hnd Hk Hk'). }
    rewrite !index_at_lookup. destruct (decide (pq !! j = Some p)) as [Ej|Ej].
    { rewrite (NoDup_lookup _ _ _ _ Hnd' Hk Ej).
      destruct (decide (pq !! i = Some p)); rewrite Hs; simpl; eauto. }
    destruct (decide (pq !! i = Some p)) as [Ei|Ei].
    { rewrite (NoDup_lookup _ _ _ _ Hnd' Hk Ei), Hs. simpl. eauto. }
    exists s. split; [done|]. apply Hidx; intros ->; done.
  - intros p s Hs Hp _. rewrite !index_at_lookup in Hs.
    assert (∀ k, pq !! k ≠ Some p) as Hne by (intros k Hk; by apply Hp, (list_elem_of_lookup_2 _ k)).
    rewrite !decide_False in Hs by apply Hne. apply (Hout p s Hs); [|done]. by rewrite <- Hperm.
Qed.

Lemma swaps_index_ok n h h' :
  swaps n h h' → index_ok h → index_ok h' ∧ bare h'.1 = bare h.1 ∧ h'.2 ≡ₚ h.2.
Proof.
  induction 1 as [h|h i j h' Hi Hj Hn Hs IH]; [done|]. intros Hok. simpl in *.
  destruct IH as (H1 & H2 & H3).
  { apply Swap_index_ok; [done|lia|lia]. }
  split_and!; [done| |].
  - rewrite H2. simpl. by rewrite !bare_index_at.
  - rewrite H3. apply swap_list_perm; lia.
Qed.

Lemma Pop_index_ok m p h :
  index_ok m → sq_Pop m = Some (p, h) → index_ok h ∧ bare h.1 = bare m.1 ∧ m.2 = h.2 ++ [p].
Proof.
  intros (Hnd & Hin & Hout) Hp. unfold sq_Pop in Hp.
  destruct (last m.2) as [q|] eqn:E; [|done]. injection Hp as <- <-.
  apply last_Some in E as [l E]. rewrite E in *. simpl.
  rewrite length_app. simpl. replace (length l + 1 - 1) with (length l) by lia.
  rewrite take_app_length. apply NoDup_app in Hnd as (Hnd & Hni & _).
  assert (∀ p, p ∈ l → p ≠ q) as Hne by (intros p Hp ->; apply (Hni q Hp); set_solver).
  split_and!; [split_and!; simpl|apply bare_alter|done]; [done| |].
  - intros i p Hi. rewrite lookup_alter_ne by (symmetry; apply Hne; by eapply list_elem_of_lookup_2).
    apply Hin. by apply lookup_app_l_Some.
  - intros p s Hs Hp _. destruct (decide (q = p)) as [->|Hqp].
    + rewrite lookup_alter_eq in Hs. apply fmap_Some in Hs as (s' & _ & ->). done.
    + rewrite lookup_alter_ne in Hs by done. apply (Hout p); [done| |done]. set_solver.
Qed.

Lemma Push_index_ok h p :
  index_ok_but (Some p) h → is_Some (h.1 !! p) → p ∉ h.2 → index_ok (sq_Push h p).
Proof.
  intros (Hnd & Hin & Hout) [s Hs] Hp. split_and!; simpl.
  - apply NoDup_app. split_and!; [done| |apply NoDup_singleton]. set_solver.
  - intros i q Hi. apply lookup_app_Some in Hi as [Hi|[Hl Hi]].
    + rewrite lookup_alter_ne; [by apply Hin|]. intros ->. by apply Hp, (list_elem_of_lookup_2 _ i).
    + apply list_lookup_singleton_Some in Hi as [Hi <-]. rewrite lookup_alter_eq, Hs.
      eexists. split; [done|]. simpl. lia.
  - intros q t Hq Hqp _. rewrite lookup_alter_ne in Hq by set_solver.
    apply (Hout q); [done|set_solver|]. intros [= ->]. set_solver.
Qed.

(** * The heap operations, with the indices *)

(** What every operation leaves: a heap with right indices over the same schedules. *)
Definition good (objs : gmap nat Schedule) (h : gmap nat Schedule * list nat) : Prop :=
  is_heap h ∧ index_ok h ∧ bare h.1 = bare objs.

Lemma item_inj objs p q : item objs p = item objs q → p = q.
Proof. by intros [= ->]. Qed.

Lemma queue_Push h p :
  is_heap h → index_ok_but (Some p) h → is_Some (h.1 !! p) → p ∉ h.2 →
  good h.1 (heap_Push h p) ∧ (heap_Push h p).2 ≡ₚ p :: h.2.
Proof.
  intros Hh Hi Hp Hn. destruct (heap_Push_spec h p Hh) as (H1 & _ & H3).
  apply swaps_index_ok in H3 as (H4 & H5 & H6); [|by apply Push_index_ok].
  split; [split_and!; [done|done|]|].
  - rewrite H5. apply bare_alter.
  - rewrite H6. simpl. by rewrite Permutation_app_comm.
Qed.

Lemma queue_Pop h p :
  is_heap h → index_ok h → head h.2 = Some p →
  ∃ h', heap_Pop h = Some (p, h') ∧ good h.1 h' ∧ h.2 ≡ₚ p :: h'.2 ∧
    ∀ q, q ∈ h'.2 → (next_run h.1 p <= next_run h.1 q)%Z.
Proof.
  intros Hh Hi Hhd. destruct (heap_Pop_spec h Hh) as (x & h' & H1 & H2 & _ & H4 & H5 & m & H6 & H7).
  { simpl. by destruct h.2. }
  apply swaps_index_ok in H6 as (H8 & H9 & H10); [|done].
  apply (Pop_index_ok m) in H7 as (H11 & H12 & H13); [|done].
  assert (x = p) as ->.
  { simpl in H4. rewrite list_lookup_fmap in H4. rewrite head_lookup in Hhd. rewrite Hhd in H4.
    apply (inj Some) in H4. symmetry. by apply (item_inj h.1). }
  assert (bare h'.1 = bare h.1) as Hb by (by rewrite H12).
  exists h'. split_and!; [done|by split_and!| |].
  - by rewrite <- H10, H13, Permutation_app_comm.
  - intros q Hq. rewrite Forall_forall in H5. specialize (H5 (item h'.1 q)).
    rewrite (item_same h'.1 h.1) in H5 by done. unfold le in H5. simpl in H5.
    unfold time_before in H5. rewrite Z.ltb_ge in H5. apply H5.
    apply list_elem_of_fmap. exists q. split; [|done]. by apply item_same.
Qed.

Lemma queue_Remove h i p :
  is_heap h → index_ok h → h.2 !! i = Some p →
  ∃ h', heap_Remove h i = Some (p, h') ∧ good h.1 h' ∧ h.2 ≡ₚ p :: h'.2.
Proof.
  intros Hh Hi Hl. destruct (heap_Remove_spec h i Hh) as (x & h' & H1 & H2 & _ & H4 & m & H6 & H7).
  { simpl. by apply lookup_lt_Some in Hl. }
  apply swaps_index_ok in H6 as (H8 & H9 & H10); [|done].
  apply (Pop_index_ok m) in H7 as (H11 & H12 & H13); [|done].
  assert (x = p) as ->.
  { simpl in H4. rewrite list_lookup_fmap, Hl in H4. apply (inj Some) in H4. symmetry. by apply (item_inj h.1). }
  exists h'. split_and!; [done|split_and!; [done|done|by rewrite H12]|].
  by rewrite <- H10, H13, Permutation_app_comm.
Qed.

Lemma index_update x objs q p s s' :
  index_ok_but x (objs, q) → objs !! p = Some s → s_heapIndex s' = s_heapIndex s →
  index_ok_but x (<[p := s']> objs, q).
Proof.
  intros (Hnd & Hin & Hout) Hs Hidx. split_and!; simpl in *; [done| |].
  - intros i r Hi. destruct (Hin i r Hi) as (t & Ht & Ei).
    destruct (decide (p = r)) as [->|Hne].
    + exists s'. rewrite lookup_insert_eq. split; [done|]. rewrite Hs in Ht. injection Ht as <-. by rewrite Hidx.
    + exists t. by rewrite lookup_insert_ne.
  - intros r t Ht. destruct (decide (p = r)) as [->|Hne].
    + rewrite lookup_insert_eq in Ht. injection Ht as <-. rewrite Hidx. by apply Hout.
    + rewrite lookup_insert_ne in Ht by done. by apply Hout.
Qed.

Lemma index_weaken p h : index_ok h → index_ok_but (Some p) h.
Proof. intros (? & ? & Hout). split_and!; [done|done|]. intros q s Hs Hq _. by apply (Hout q). Qed.

Lemma next_run_insert_ne objs p q s : p ≠ q → next_run (<[p := s]> objs) q = next_run objs q.
Proof. intros Hne. unfold next_run. by rewrite lookup_insert_ne. Qed.

Lemma heap_ext objs objs' q :
  (∀ p, p ∈ q → next_run objs p = next_run objs' p) → is_heap (objs, q) → is_heap (objs', q).
Proof.
  intros E Hh. unfold is_heap in *. simpl in *.
  replace (item objs' <$> q) with (item objs <$> q); [done|].
  apply list_fmap_ext. intros i p Hp. unfold item. by rewrite E by (by eapply list_elem_of_lookup_2).
Qed.

Lemma queue_Fix objs q i p s s' :
  is_heap (objs, q) → index_ok (objs, q) → q !! i = Some p → objs !! p = Some s →
  s_heapIndex s' = s_heapIndex s →
  good (<[p := s']> objs) (heap_Fix (<[p := s']> objs, q) i) ∧
  (heap_Fix (<[p := s']> objs, q) i).2 ≡ₚ q.
Proof.
  intros Hh Hi Hq Hs Hidx. destruct (heap_Fix_spec (<[p := s']> objs, q) i) as [H1 H2].
  { simpl. by apply lookup_lt_Some in Hq. }
  { simpl. apply (heap_but_ext _ _ (item objs <$> q)); [|by apply heap_heap_but].
    intros j Hj. rewrite !list_lookup_fmap. destruct (q !! j) as [r|] eqn:E; [|done].
    simpl. unfold item. rewrite next_run_insert_ne; [done|]. intros ->.
    apply Hj. destruct Hi as [Hnd _]. by apply (NoDup_lookup q j i r). }
  apply swaps_index_ok in H2 as (H3 & H4 & H5); [|by eapply index_update].
  by split; [split_and!|].
Qed.

(** * The invariant *)

(** Registered schedules and the queue: a registered schedule has an object with its name, a
    queued one is registered, and one that is registered and not paused is queued. *)
Definition registry_ok (objs : gmap nat Schedule) (schedules : gmap string nat) (q : list nat)
    (fresh : nat) : Prop :=
  (∀ id p, schedules !! id = Some p → ∃ s, objs !! p = Some s ∧ s_ID s = id) ∧
  (∀ p, p ∈ q → ∃ s, objs !! p = Some s ∧ schedules !! (s_ID s) = Some p) ∧
  (∀ p s, objs !! p = Some s → schedules !! (s_ID s) = Some p → s_IsPaused s = false → p ∈ q) ∧
  (∀ p, is_Some (objs !! p) → p < fresh).

(** The runs in progress: of a schedule that forbids overlaps there is at most one, and while
    there is one the schedule is marked as running. *)
Definition runs_ok (objs : gmap nat Schedule) (runs : gmap nat Run) (fresh : nat) : Prop :=
  (∀ r run, runs !! r = Some run → ∃ s, objs !! r_sched run = Some s ∧
     (s_Overlap s = OverlapForbid → s_running s = true)) ∧
  (∀ r1 r2 run1 run2 s, runs !! r1 = Some run1 → runs !! r2 = Some run2 →
     r_sched run1 = r_sched run2 → objs !! r_sched run1 = Some s →
     s_Overlap s = OverlapForbid → r1 = r2) ∧
  (∀ r, is_Some (runs !! r) → r < fresh).

Record engine_inv (e : Engine) : Prop := {
  inv_heap : is_heap (heap_of e);
  inv_index : index_ok (heap_of e);
  inv_registry : registry_ok (e_objs e) (e_schedules e) (e_queue e) (e_fresh e);
  inv_runs : runs_ok (e_objs e) (e_runs e) (e_fresh e)
}.

Lemma registry_bare o o' sch q q' f :
  bare o = bare o' → q ≡ₚ q' → registry_ok o sch q f → registry_ok o' sch q' f.
Proof.
  intros Hb Hq (H1 & H2 & H3 & H4). split_and!.
  - intros id p Hp. destruct (H1 id p Hp) as (s & Hs & Hid).
    destruct (bare_lookup o o' p s Hb Hs) as [i Hi]. by exists (set_index i s).
  - intros p Hp. destruct (H2 p) as (s & Hs & Hid); [by rewrite Hq|].
    destruct (bare_lookup o o' p s Hb Hs) as [i Hi]. by exists (set_index i s).
  - intros p s Hs Hid Hz. destruct (bare_lookup o' o p s (eq_sym Hb) Hs) as [i Hi].
    rewrite <- Hq. by apply (H3 p (set_index i s)).
  - intros p [s Hs]. destruct (bare_lookup o' o p s (eq_sym Hb) Hs) as [i Hi]. apply H4. eauto.
Qed.

(** One schedule changes, and its place in the queue may change with it. *)
Lemma registry_update o sch q q' f p s s' :
  registry_ok o sch q f → o !! p = Some s → s_ID s' = s_ID s →
  (∀ x, x ≠ p → x ∈ q' ↔ x ∈ q) →
  (p ∈ q' → sch !! (s_ID s) = Some p) →
  (sch !! (s_ID s) = Some p → s_IsPaused s' = false → p ∈ q') →
  registry_ok (<[p := s']> o) sch q' f.
Proof.
  intros (H1 & H2 & H3 & H4) Hs Hid Hq Hin Hout. split_and!.
  - intros id x Hx. destruct (H1 id x Hx) as (t & Ht & Et).
    destruct (decide (p = x)) as [<-|Hne].
    + exists s'. rewrite lookup_insert_eq. split; [done|]. congruence.
    + exists t. by rewrite lookup_insert_ne.
  - intros x Hx. destruct (decide (p = x)) as [<-|Hne].
    + exists s'. rewrite lookup_insert_eq, Hid. split; [done|]. by apply Hin.
    + destruct (H2 x) as (t & Ht & Et); [by apply Hq|]. exists t. by rewrite lookup_insert_ne.
  - intros x t Ht Hx Hz. destruct (decide (p = x)) as [<-|Hne].
    + rewrite lookup_insert_eq in Ht. injection Ht as <-. apply Hout; [congruence|done].
    + rewrite lookup_insert_ne in Ht by done. apply Hq; [done|]. by apply (H3 x t).
  - intros x Hx. apply H4. destruct (decide (p = x)) as [<-|Hne]; [by eexists|].
    by rewrite lookup_insert_ne in Hx.
Qed.

Lemma registry_fresh o sch q f f' : f <= f' → registry_ok o sch q f → registry_ok o sch q f'.
Proof. intros Hf (? & ? & ? & H4). split_and!; [done..|]. intros p Hp. specialize (H4 p Hp). lia. Qed.

Lemma runs_ext o o' runs f f' :
  f <= f' →
  (∀ p s, o !! p = Some s →
     ∃ s', o' !! p = Some s' ∧ s_Overlap s' = s_Overlap s ∧ s_running s' = s_running s) →
  runs_ok o runs f → runs_ok o' runs f'.
Proof.
  intros Hf Ho (H1 & H2 & H3). split_and!.
  - intros r run Hr. destruct (H1 r run Hr) as (s & Hs & Hrun).
    destruct (Ho _ s Hs) as (s' & ? & E1 & E2). exists s'. by rewrite E1, E2.
  - intros r1 r2 run1 run2 s' Hr1 Hr2 E Hs' Hov. destruct (H1 r1 run1 Hr1) as (s & Hs & _).
    destruct (Ho _ s Hs) as (s'' & ? & E1 & _). simplify_eq.
    apply (H2 r1 r2 run1 run2 s); congruence.
  - intros r Hr. specialize (H3 r Hr). lia.
Qed.

Lemma runs_bare o o' runs f : bare o = bare o' → runs_ok o runs f → runs_ok o' runs f.
Proof.
  intros Hb. apply runs_ext; [done|]. intros p s Hs.
  destruct (bare_lookup o o' p s Hb Hs) as [i Hi]. by exists (set_index i s).
Qed.

Lemma runs_update o runs f p s s' :
  o !! p = Some s → s_Overlap s' = s_Overlap s → s_running s' = s_running s →
  runs_ok o runs f → runs_ok (<[p := s']> o) runs f.
Proof.
  intros Hs E1 E2. apply runs_ext; [done|]. intros x t Ht. destruct (decide (p = x)) as [<-|Hne].
  - exists s'. rewrite lookup_insert_eq. split; [done|]. by simplify_eq.
  - exists t. by rewrite lookup_insert_ne.
Qed.

Lemma New_inv cfg : engine_inv (New cfg).
Proof.
  split.
  - intros j Hj Hl. simpl in Hl. lia.
  - split_and!; [apply NoDup_nil_2|done|done].
  - split_and!; [done| |done|by intros p [? ?]]. intros p Hp. by apply not_elem_of_nil in Hp.
  - split_and!; [done|done|by intros r [? ?]].
Qed.

(** The heap was replaced, nothing else. *)
Lemma set_heap_inv e objs q h :
  good objs h → h.2 ≡ₚ q → registry_ok objs (e_schedules e) q (e_fresh e) →
  runs_ok objs (e_runs e) (e_fresh e) → engine_inv (set_heap h e).
Proof.
  intros (Hh & Hi & Hb) Hq Hr Hru. destruct h as [o l]. split; simpl in *; [done|done| |].
  - by apply (registry_bare objs o _ q l).
  - by apply (runs_bare objs o).
Qed.

Lemma find_schedule_Some id e p s :
  find_schedule id e = Some (p, s) ↔ e_schedules e !! id = Some p ∧ e_objs e !! p = Some s.
Proof.
  unfold find_schedule. destruct (e_schedules e !! id) as [q|]; simpl; [|naive_solver].
  destruct (e_objs e !! q) as [t|] eqn:E; simpl; naive_solver.
Qed.

Lemma registered_ID e id p s :
  engine_inv e → e_schedules e !! id = Some p → e_objs e !! p = Some s → s_ID s = id.
Proof.
  intros [_ _ (H1 & _) _] Hid Hs. destruct (H1 id p Hid) as (t & Ht & Et). congruence.
Qed.

(** The index of a schedule tells whether, and where, it is queued. *)
Lemma index_queued e p s :
  engine_inv e → e_objs e !! p = Some s →
  if (0 <=? s_heapIndex s)%Z then e_queue e !! Z.to_nat (s_heapIndex s) = Some p
  else p ∉ e_queue e.
Proof.
  intros [_ (_ & Hin & Hout) _ _] Hs. simpl in *.
  destruct (decide (p ∈ e_queue e)) as [Hp|Hp].
  - apply list_elem_of_lookup in Hp as [i Hi]. destruct (Hin i p Hi) as (t & Ht & E).
    simplify_eq. rewrite E. rewrite (proj2 (Z.leb_le _ _)) by lia. by rewrite Nat2Z.id.
  - by rewrite (Hout p s Hs Hp).
Qed.

(** * Every operation keeps the invariant *)

Lemma registry_add o sch q f id s :
  registry_ok o sch q f → sch !! id = None → s_ID s = id →
  registry_ok (<[f := s]> o) (<[id := f]> sch) (f :: q) (S f).
Proof.
  intros (H1 & H2 & H3 & H4) Hid Es.
  assert (o !! f = None) as Hf.
  { destruct (o !! f) eqn:E; [|done]. assert (f < f) by (by apply H4; eexists). lia. }
  split_and!.
  - intros id' x Hx. destruct (decide (id = id')) as [<-|Hne].
    + rewrite lookup_insert_eq in Hx. injection Hx as <-. exists s. by rewrite lookup_insert_eq.
    + rewrite lookup_insert_ne in Hx by done. destruct (H1 id' x Hx) as (t & Ht & Et).
      exists t. rewrite lookup_insert_ne; [done|]. congruence.
  - intros x [->|Hx]%elem_of_cons.
    + exists s. by rewrite Es, !lookup_insert_eq.
    + destruct (H2 x Hx) as (t & Ht & Et). exists t.
      rewrite !lookup_insert_ne; [done| |]; congruence.
  - intros x t Ht Hx Hz. destruct (decide (f = x)) as [<-|Hne]; [by left|]. right.
    rewrite lookup_insert_ne in Ht by done. apply (H3 x t); [done| |done].
    destruct (decide (id = s_ID t)) as [E|E]; [|by rewrite lookup_insert_ne in Hx].
    rewrite <- E, lookup_insert_eq in Hx. congruence.
  - intros x Hx. destruct (decide (f = x)) as [<-|Hne]; [lia|].
    rewrite lookup_insert_ne in Hx by done. specialize (H4 x Hx). lia.
Qed.

Lemma AddSchedule_inv id wf ce loc m o now e :
  engine_inv e → engine_inv (AddSchedule id wf ce loc m o now e).2.
Proof.
  intros Hinv. unfold AddSchedule. destruct (ParseExpression ce) as [expr|]; [|done].
  destruct (e_schedules e !! id) eqn:Hid; [done|].
  set (s := MkSchedule _ _ _ _ _ _ _ _ _ _ _ _ _). set (p := e_fresh e).
  destruct Hinv as [Hh Hi Hreg Hru]. pose proof Hreg as (_ & H2 & _ & H4).
  assert (e_objs e !! p = None) as Hp.
  { destruct (e_objs e !! p) eqn:E; [|done]. assert (p < p) by (by apply H4; eexists). lia. }
  assert (p ∉ e_queue e) as Hpq by (intros (t & ? & _)%H2; congruence).
  destruct (queue_Push (<[p := s]> (e_objs e), e_queue e) p) as ((G1 & G2 & G3) & G4).
  - apply (heap_ext (e_objs e)); [|done]. intros x Hx. rewrite next_run_insert_ne; [done|].
    by intros ->.
  - destruct Hi as (Hnd & Hin & Hout). split_and!; simpl in *; [done| |].
    + intros i x Hx. rewrite lookup_insert_ne; [by apply Hin|]. intros ->.
      by apply Hpq, (list_elem_of_lookup_2 _ i).
    + intros x t Ht Hx Hne. rewrite lookup_insert_ne in Ht by congruence. by apply (Hout x).
  - simpl. rewrite lookup_insert_eq. by eexists.
  - done.
  - set (h := heap_Push _ _) in *. destruct h as [o' q']. simpl in *. split; simpl; [done|done| |].
    + apply (registry_bare (<[p := s]> (e_objs e)) o' _ (p :: e_queue e)); [done|done|].
      by apply registry_add.
    + apply (runs_bare (<[p := s]> (e_objs e))); [done|].
      apply (runs_ext (e_objs e) _ _ (e_fresh e)); [unfold p; lia| |done].
      intros x t Ht. exists t. rewrite lookup_insert_ne; [done|]. congruence.
Qed.

Lemma PauseSchedule_inv id e : engine_inv e → engine_inv (PauseSchedule id e).2.
Proof.
  intros Hinv. unfold PauseSchedule. destruct (find_schedule id e) as [[p s]|] eqn:E; [|done].
  apply find_schedule_Some in E as [Hid Hs]. pose proof (registered_ID e id p s Hinv Hid Hs) as Es.
  destruct Hinv as [Hh Hi Hreg Hru]. split; simpl.
  - apply (heap_ext (e_objs e) (<[p := set_paused true s]> (e_objs e))); [|done]. intros x _. unfold next_run.
    destruct (decide (p = x)) as [<-|]; [by rewrite lookup_insert_eq, Hs|].
    by rewrite lookup_insert_ne.
  - by eapply index_update.
  - eapply registry_update; [done|done|done|done| |done]. intros _. by rewrite Es.
  - by eapply runs_update.
Qed.

Lemma ResumeSchedule_inv id now e : engine_inv e → engine_inv (ResumeSchedule id now e).2.
Proof.
  intros Hinv. unfold ResumeSchedule. destruct (find_schedule id e) as [[p s]|] eqn:E; [|done].
  apply find_schedule_Some in E as [Hid Hs]. pose proof (registered_ID e id p s Hinv Hid Hs) as Es.
  destruct (negb (s_IsPaused s)); [done|]. simpl.
  pose proof (index_queued e p s Hinv Hs) as Hq. set (s' := set_times _ _ _).
  destruct Hinv as [Hh Hi Hreg Hru]. destruct (0 <=? s_heapIndex s)%Z.
  - destruct (queue_Fix (e_objs e) (e_queue e) (Z.to_nat (s_heapIndex s)) p s s') as [G1 G2];
      [done..|]. eapply set_heap_inv; [done|done| |by eapply runs_update].
    eapply registry_update; [done|done|done|done| |].
    + intros _. by rewrite Es.
    + intros _ _. by eapply list_elem_of_lookup_2.
  - destruct (queue_Push (<[p := s']> (e_objs e), e_queue e) p) as [G1 G2].
    + apply (heap_ext (e_objs e)); [|done]. intros x Hx. rewrite next_run_insert_ne; [done|].
      by intros ->.
    + eapply index_update; [by apply index_weaken|done|done].
    + simpl. rewrite lookup_insert_eq. by eexists.
    + done.
    + eapply set_heap_inv; [done|done| |by eapply runs_update].
      eapply registry_update; [done|done|done|set_solver| |].
      * intros _. by rewrite Es.
      * intros _ _. by left.
Qed.

Lemma cancel_run_inv c e : engine_inv e → engine_inv (cancel_run c e).
Proof.
  intros [Hh Hi Hreg (H1 & H2 & H3)]. destruct c as [r|]; [|by split].
  assert (∀ x run, e_runs (cancel_run (Some r) e) !! x = Some run →
    ∃ run', e_runs e !! x = Some run' ∧ r_sched run' = r_sched run) as Hrun.
  { intros x run Hx. simpl in Hx. destruct (decide (r = x)) as [<-|Hne].
    - rewrite lookup_alter_eq in Hx. apply fmap_Some in Hx as (run' & ? & ->). by exists run'.
    - rewrite lookup_alter_ne in Hx by done. by exists run. }
  split; [done..|]. split_and!.
  - intros x run (run' & Hx & <-)%Hrun. by apply (H1 x).
  - intros x y run1 run2 s (run1' & Hx & <-)%Hrun (run2' & Hy & <-)%Hrun. by apply H2.
  - intros x [run (run' & Hx & _)%Hrun]. apply H3. by eexists.
Qed.

Lemma RemoveSchedule_inv id e : engine_inv e → engine_inv (RemoveSchedule id e).2.
Proof.
  intros Hinv. unfold RemoveSchedule. destruct (find_schedule id e) as [[p s]|] eqn:E; [|done].
  apply find_schedule_Some in E as [Hid Hs]. pose proof (registered_ID e id p s Hinv Hid Hs) as Es.
  pose proof (index_queued e p s Hinv Hs) as Hq. simpl. apply cancel_run_inv.
  set (e1 := if (0 <=? s_heapIndex s)%Z then _ else e).
  assert (e_schedules e1 = e_schedules e ∧ e_runs e1 = e_runs e ∧ e_fresh e1 = e_fresh e ∧
    good (e_objs e) (heap_of e1) ∧ (p ∉ e_queue e1) ∧
    (∀ x, x ≠ p → (x ∈ e_queue e1 ↔ x ∈ e_queue e)))
    as (Esch & -> & -> & (G1 & G2 & G3) & Hnp & Hother).
  { destruct Hinv as [Hh Hi _ _]. unfold e1. destruct (0 <=? s_heapIndex s)%Z.
    - destruct (queue_Remove (heap_of e) (Z.to_nat (s_heapIndex s)) p) as (h' & -> & G & Hp); [done..|].
      simpl in *. split_and!; [done|done|done|by destruct h'| |].
      + destruct Hi as [Hnd _]. simpl in Hnd. rewrite Hp in Hnd. by apply NoDup_cons in Hnd as [? _].
      + intros x Hx. rewrite Hp. set_solver.
    - by split_and!. }
  destruct Hinv as [_ _ (H1 & H2 & H3 & H4) Hru]. split; simpl; [done|done| |].
  - apply (registry_bare (e_objs e) _ _ (e_queue e1)); [done|done|]. rewrite Esch. split_and!.
    + intros id' x Hx. apply lookup_delete_Some in Hx as [_ Hx]. by apply H1.
    + intros x Hx. assert (x ≠ p) as Hxp by congruence.
      destruct (H2 x) as (t & Ht & Et); [by apply Hother|]. exists t. split; [done|].
      rewrite lookup_delete_ne; [done|]. congruence.
    + intros x t Ht Hx Hz. apply lookup_delete_Some in Hx as [Hne Hx].
      apply Hother; [|by apply (H3 x t)]. intros ->. congruence.
    + done.
  - by apply (runs_bare (e_objs e)).
Qed.

(** What the loop does to the queue when the first schedule is due. *)
Lemma loop_pop_due e now p :
  engine_inv e → head (e_queue e) = Some p →
  time_after (next_run (e_objs e) p) (time_add now (cfg_ClockSkewAllowance (e_cfg e))) = false →
  (loop_pop now e).1 = Due p (next_run (e_objs e) p) ∧ engine_inv (loop_pop now e).2.
Proof.
  intros Hinv Hhd Hdue. unfold loop_pop. rewrite Hhd, Hdue. cbn [negb].
  destruct Hinv as [Hh Hi Hreg Hru].
  destruct (queue_Pop (heap_of e) p Hh Hi Hhd) as (h & -> & (G1 & G2 & G3) & G4 & _).
  assert (p ∈ e_queue e) as Hp by (rewrite head_lookup in Hhd; by eapply list_elem_of_lookup_2).
  assert (p ∉ h.2) as Hnp.
  { destruct Hi as [Hnd _]. rewrite G4 in Hnd. by apply NoDup_cons in Hnd as [? _]. }
  pose proof Hreg as (_ & H2 & _ & _). destruct (H2 p Hp) as (s0 & Hs0 & Hid).
  destruct (bare_lookup (e_objs e) h.1 p s0) as [i Hs]; [done|done|]. rewrite Hs.
  assert (next_run (e_objs e) p = s_NextRun s0) as -> by (unfold next_run; by rewrite Hs0).
  set (s' := set_times _ _ _). cbn [fst snd]. split; [done|].
  assert (is_heap (<[p := s']> h.1, h.2)) as Hh'.
  { apply (heap_ext h.1); [|by destruct h]. intros x Hx. rewrite next_run_insert_ne; [done|].
    by intros ->. }
  assert (index_ok (<[p := s']> h.1, h.2)) as Hi' by (by eapply index_update; destruct h).
  assert (∀ x, x ≠ p → (x ∈ h.2 ↔ x ∈ e_queue e)) as Hother.
  { intros x Hx. simpl in G4. rewrite G4. set_solver. }
  assert (runs_ok (<[p := s']> h.1) (e_runs e) (e_fresh e)) as Hru'.
  { eapply runs_update; [done|done|done|]. by apply (runs_bare (e_objs e)). }
  assert (registry_ok h.1 (e_schedules e) (e_queue e) (e_fresh e)) as Hreg'
    by (by apply (registry_bare (e_objs e) _ _ (e_queue e))).
  destruct (s_IsPaused s') eqn:Hz; cbn [negb].
  - apply (set_heap_inv e (<[p := s']> h.1) h.2); [by split_and!|done| |done].
    eapply registry_update; [done|done|done|done|done|]. by rewrite Hz.
  - destruct (queue_Push (<[p := s']> h.1, h.2) p) as [G G'];
      [done|by apply index_weaken|simpl; rewrite lookup_insert_eq; by eexists|done|].
    eapply set_heap_inv; [done|done| |done].
    eapply registry_update; [done|done|done| |done|intros _ _; by left].
    intros x Hx. simpl. rewrite <- Hother by done. set_solver.
Qed.

Lemma loop_pop_inv e now : engine_inv e → engine_inv (loop_pop now e).2.
Proof.
  intros Hinv. destruct (head (e_queue e)) as [p|] eqn:Hhd; [|by unfold loop_pop; rewrite Hhd].
  destruct (time_after (next_run (e_objs e) p)
    (time_add now (cfg_ClockSkewAllowance (e_cfg e)))) eqn:Hdue; [|by apply (loop_pop_due e now p)].
  unfold loop_pop. by rewrite Hhd, Hdue.
Qed.

Lemma recordExecution_inv id t1 t2 t3 err e :
  engine_inv e → engine_inv (recordExecution id t1 t2 t3 err e).
Proof. by intros [Hh Hi Hreg Hru]. Qed.

(** A change of the running mark keeps the queue. *)
Lemma set_run_heap objs q p s b c :
  objs !! p = Some s → is_heap (objs, q) → is_heap (<[p := set_run b c s]> objs, q).
Proof.
  intros Hs. apply heap_ext. intros x _. unfold next_run.
  destruct (decide (p = x)) as [<-|]; [by rewrite lookup_insert_eq, Hs|]. by rewrite lookup_insert_ne.
Qed.

Lemma set_run_registry objs sch q f p s b c :
  objs !! p = Some s → registry_ok objs sch q f →
  registry_ok (<[p := set_run b c s]> objs) sch q f.
Proof.
  intros Hs Hreg. pose proof Hreg as (_ & H2 & H3 & _).
  eapply registry_update; [done|done|done|done| |].
  - intros (t & Ht & Et)%H2. congruence.
  - intros Hid Hz. by apply (H3 p s).
Qed.

Lemma start_run_inv p s t e :
  engine_inv e → e_objs e !! p = Some s →
  (s_Overlap s = OverlapForbid → s_running s = false) → engine_inv (start_run p s t e).
Proof.
  intros [Hh Hi Hreg (H1 & H2 & H3)] Hs Hov. split; simpl.
  - by apply set_run_heap.
  - by eapply index_update.
  - apply (registry_fresh _ _ _ (e_fresh e)); [lia|]. by apply set_run_registry.
  - assert (∀ r run, e_runs e !! r = Some run → r_sched run = p → s_Overlap s ≠ OverlapForbid) as Hno.
    { intros r run Hr Hp E. destruct (H1 r run Hr) as (s' & Hs' & Hrun).
      rewrite Hp, Hs in Hs'. injection Hs' as <-. rewrite Hov in Hrun by done. by specialize (Hrun E). }
    split_and!.
    + intros r run [[<- <-]|[Hne Hr]]%lookup_insert_Some.
      * simpl. exists (set_run true (Some (e_fresh e)) s). by rewrite lookup_insert_eq.
      * destruct (H1 r run Hr) as (s' & Hs' & Hrun). destruct (decide (p = r_sched run)) as [<-|Hp].
        -- exists (set_run true (Some (e_fresh e)) s). by rewrite lookup_insert_eq.
        -- exists s'. by rewrite lookup_insert_ne.
    + intros r1 r2 run1 run2 s' Hr1 Hr2 E Hs' Ho.
      assert (∀ r run, e_runs e !! r = Some run → r_sched run = p → r_sched run = r_sched run1 → False)
        as Hcl.
      { intros r run Hr Hp Er. apply (Hno r run Hr Hp). rewrite <- Er, Hp, lookup_insert_eq in Hs'.
        by injection Hs' as <-. }
      apply lookup_insert_Some in Hr1 as [[<- <-]|[Hne1 Hr1]];
        apply lookup_insert_Some in Hr2 as [[<- <-]|[Hne2 Hr2]]; [done| | |].
      * by destruct (Hcl r2 run2 Hr2).
      * by destruct (Hcl r1 run1 Hr1).
      * destruct (decide (p = r_sched run1)) as [Hp|Hp]; [by destruct (Hcl r1 run1 Hr1)|].
        rewrite lookup_insert_ne in Hs' by done. by apply (H2 r1 r2 run1 run2 s').
    + intros r [run [[<- _]|[_ Hr]]%lookup_insert_Some]; [lia|].
      assert (r < e_fresh e) by (apply H3; by eexists). lia.
Qed.

Lemma dispatch_inv p t now e : engine_inv e → engine_inv (dispatch p t now e).
Proof.
  intros Hinv. unfold dispatch. destruct (e_objs e !! p) as [s|] eqn:Hs; [|done].
  destruct (s_IsPaused s); [done|]. destruct (s_running s) eqn:Hr.
  - destruct (s_Overlap s) eqn:Ho.
    + apply start_run_inv; [done|done|]. by rewrite Ho.
    + by apply recordExecution_inv.
    + apply start_run_inv; [by apply cancel_run_inv| |by rewrite Ho]. by destruct (s_cancel s).
  - by apply start_run_inv.
Qed.

Lemma finish_inv r t1 t2 err e : engine_inv e → engine_inv (finish r t1 t2 err e).
Proof.
  intros Hinv. unfold finish. destruct (e_runs e !! r) as [run|] eqn:Hr; [|done].
  destruct Hinv as [Hh Hi Hreg (H1 & H2 & H3)]. destruct (H1 r run Hr) as (s & Hs & Hrun).
  rewrite Hs. apply recordExecution_inv.
  assert (alter (set_run false None) (r_sched run) (e_objs e) =
    <[r_sched run := set_run false None s]> (e_objs e)) as ->.
  { apply map_eq. intros x. destruct (decide (r_sched run = x)) as [<-|Hne].
    - by rewrite lookup_alter_eq, lookup_insert_eq, Hs.
    - by rewrite lookup_alter_ne, lookup_insert_ne. }
  split; simpl.
  - by apply set_run_heap.
  - by eapply index_update.
  - by apply set_run_registry.
  - assert (∀ x run', delete r (e_runs e) !! x = Some run' →
      e_runs e !! x = Some run' ∧ (r_sched run' = r_sched run → s_Overlap s ≠ OverlapForbid)) as Hd.
    { intros x run' [Hne Hx]%lookup_delete_Some. split; [done|]. intros E Ho.
      apply Hne. apply (H2 r x run run' s); [done|done|done|done|done]. }
    split_and!.
    + intros x run' [Hx Hov]%Hd. destruct (H1 x run' Hx) as (s' & Hs' & Hrun').
      destruct (decide (r_sched run = r_sched run')) as [E|E].
      * rewrite <- E, lookup_insert_eq. eexists. split; [done|]. simpl. by intros ?%Hov.
      * exists s'. by rewrite lookup_insert_ne.
    + intros x y run1 run2 s' [Hx Hov]%Hd [Hy _]%Hd E Hs' Ho.
      destruct (decide (r_sched run = r_sched run1)) as [E'|E'].
      * rewrite <- E', lookup_insert_eq in Hs'. injection Hs' as <-. by destruct Hov.
      * rewrite lookup_insert_ne in Hs' by done. by apply (H2 x y run1 run2 s').
    + intros x [run' [Hx _]%Hd]. apply H3. by eexists.
Qed.

(** * Sequences of operations *)

(** The critical sections of the engine: calls of the interface, an iteration of the loop, the
    dispatch of a schedule, the end of a run. *)
Inductive cron_op :=
  | OpAdd (id workflowID cronExpr : string) (loc : option Z) (missed : MissedPolicy)
      (overlap : OverlapPolicy) (now : Time)
  | OpPause (id : string)
  | OpResume (id : string) (now : Time)
  | OpRemove (id : string)
  | OpLoop (now : Time)
  | OpDispatch (p : nat) (scheduledAt now : Time)
  | OpTrigger (id : string) (now : Time)
  | OpFinish (r : nat) (started finished : Time) (err : option error).

Definition cron_step (e : Engine) (op : cron_op) : Engine :=
  match op with
  | OpAdd id wf ce loc m o now => (AddSchedule id wf ce loc m o now e).2
  | OpPause id => (PauseSchedule id e).2
  | OpResume id now => (ResumeSchedule id now e).2
  | OpRemove id => (RemoveSchedule id e).2
  | OpLoop now => (loop_pop now e).2
  | OpDispatch p t now => dispatch p t now e
  | OpTrigger id now => (TriggerNow id now e).2
  | OpFinish r t1 t2 err => finish r t1 t2 err e
  end.

Definition cron_run (cfg : EngineConfig) (ops : list cron_op) : Engine :=
  foldl cron_step (New cfg) ops.

Lemma cron_step_inv e op : engine_inv e → engine_inv (cron_step e op).
Proof.
  intros Hinv. destruct op; simpl.
  - by apply AddSchedule_inv.
  - by apply PauseSchedule_inv.
  - by apply ResumeSchedule_inv.
  - by apply RemoveSchedule_inv.
  - by apply loop_pop_inv.
  - by apply dispatch_inv.
  - unfold TriggerNow. destruct (e_schedules e !! id); [by apply dispatch_inv|done].
  - by apply finish_inv.
Qed.

Lemma cron_run_inv cfg ops : engine_inv (cron_run cfg ops).
Proof.
  unfold cron_run. generalize (New_inv cfg). generalize (New cfg).
  induction ops as [|op ops IH]; intros e He; [done|]. by apply IH, cron_step_inv.
Qed.

(** A schedule the engine has to fire. *)
Definition active (e : Engine) (p : nat) (s : Schedule) : Prop :=
  e_schedules e !! s_ID s = Some p ∧ e_objs e !! p = Some s ∧ s_IsPaused s = false.

(** The first of the queue is the earliest. *)
Lemma head_earliest e p q s :
  engine_inv e → head (e_queue e) = Some p → active e q s →
  (next_run (e_objs e) p <= s_NextRun s)%Z.
Proof.
  intros [Hh Hi (_ & _ & H3 & _) _] Hhd (Hid & Hs & Hz).
  destruct (queue_Pop (heap_of e) p Hh Hi Hhd) as (h & _ & _ & Hp & Hle). simpl in *.
  assert (q ∈ p :: h.2) as Hq by (rewrite <- Hp; by apply (H3 q s)).
  assert (next_run (e_objs e) q = s_NextRun s) as <- by (unfold next_run; by rewrite Hs).
  apply elem_of_cons in Hq as [->|Hq]; [lia|]. by apply Hle.
Qed.

(** C6: The loop serves the earliest schedule and misses none.  After any sequence of operations
    on schedules in locations of fixed offsets, every registered schedule that is not paused is queued once, and an iteration of the loop
    either dispatches the schedule at its own next time, which is due and not later than that of
    any other active schedule, or sleeps, and then no active schedule is due. *)
Theorem cron_loop_serves_earliest cfg ops now :
  let e := cron_run cfg ops in
  let due := time_add now (cfg_ClockSkewAllowance (e_cfg e)) in
  NoDup (e_queue e) ∧ (∀ p s, active e p s → p ∈ e_queue e) ∧
  match (loop_pop now e).1 with
  | Due p t =>
      (∃ s, e_schedules e !! s_ID s = Some p ∧ e_objs e !! p = Some s ∧ t = s_NextRun s) ∧
      (t <= due)%Z ∧ ∀ q s, active e q s → (t <= s_NextRun s)%Z
  | Sleep d =>
      ∀ q s, active e q s → (due < s_NextRun s)%Z ∧
        (min_int64 <= s_NextRun s - now → d <= s_NextRun s - now)%Z
  end.
Proof.
  intros e due. pose proof (cron_run_inv cfg ops) as Hinv. fold e in Hinv.
  split_and!.
  - by destruct Hinv as [_ [Hnd _] _ _].
  - intros p s (Hid & Hs & Hz). destruct Hinv as [_ _ (_ & _ & H3 & _) _]. by apply (H3 p s).
  - destruct (head (e_queue e)) as [p|] eqn:Hhd.
    + destruct (time_after (next_run (e_objs e) p) due) eqn:Hdue.
      * unfold loop_pop. fold due. rewrite Hhd, Hdue. simpl. intros q s Hq.
        pose proof (head_earliest e p q s Hinv Hhd Hq). unfold time_after in Hdue.
        rewrite Z.ltb_lt in Hdue. unfold time_sub. lia.
      * destruct (loop_pop_due e now p Hinv Hhd Hdue) as [-> _].
        unfold time_after in Hdue. rewrite Z.ltb_ge in Hdue. split_and!; [|done|].
        -- destruct Hinv as [_ _ (_ & H2 & _) _]. rewrite head_lookup in Hhd.
           destruct (H2 p) as (s & Hs & Hid); [by eapply list_elem_of_lookup_2|].
           exists s. unfold next_run. by rewrite Hs.
        -- intros q s. by apply head_earliest.
    + unfold loop_pop. rewrite Hhd. simpl. intros q s (Hid & Hs & Hz).
      destruct Hinv as [_ _ (_ & _ & H3 & _) _]. specialize (H3 q s Hs Hid Hz).
      apply head_None in Hhd. rewrite Hhd in H3. by apply not_elem_of_nil in H3.
Qed.

(** * Overlaps *)

(** Forbidden overlaps do not happen.  After any sequence of operations, at most one run of a
    schedule whose policy is [OverlapForbid] is in progress, and during it the schedule is marked
    as running. *)
Theorem forbid_one_run_at_a_time cfg ops r1 r2 run1 run2 s :
  let e := cron_run cfg ops in
  e_runs e !! r1 = Some run1 → e_runs e !! r2 = Some run2 → r_sched run1 = r_sched run2 →
  e_objs e !! r_sched run1 = Some s → s_Overlap s = OverlapForbid →
  r1 = r2 ∧ s_running s = true.
Proof.
  intros e Hr1 Hr2 E Hs Ho. destruct (cron_run_inv cfg ops) as [_ _ _ (H1 & H2 & _)].
  split; [by apply (H2 r1 r2 run1 run2 s)|].
  destruct (H1 r1 run1 Hr1) as (s' & Hs' & Hrun). unfold e in Hs. rewrite Hs' in Hs.
  injection Hs as <-. by apply Hrun.
Qed.

(** A job triggered twice while it runs. *)
Definition triggered_twice (overlap : OverlapPolicy) : list cron_op :=
  [OpAdd "job" "wf" "0 9 * * *" None MissedFireSkip overlap 0; OpTrigger "job" 10; OpTrigger "job" 20].

Lemma forbid_one_run_at_a_time_witness :
  ∃ run s, e_runs (cron_run DefaultEngineConfig (triggered_twice OverlapForbid)) !! 1 = Some run ∧
    e_objs (cron_run DefaultEngineConfig (triggered_twice OverlapForbid)) !! r_sched run = Some s ∧
    s_running s = true.
Proof.
  eexists _, _. split_and!; [vm_compute; reflexivity|vm_compute; reflexivity|].
  eapply (forbid_one_run_at_a_time DefaultEngineConfig (triggered_twice OverlapForbid) 1 1);
    vm_compute; reflexivity.
Defined.

(** The runs in progress that were not cancelled. *)
Definition live_runs (e : Engine) : list nat :=
  (filter (λ x, r_cancelled x.2 = false) (map_to_list (e_runs e))).*1.

(** A replaced run that ends clears the mark of the run that replaced it.  Under
    [OverlapReplace], triggering a schedule cancels the run in progress; but when the cancelled
    run then ends, the engine takes the schedule for idle although its second run goes on, and the
    next trigger starts a third run without cancelling the second. *)
Theorem replaced_run_clears_its_successor :
  let e2 := cron_run DefaultEngineConfig (triggered_twice OverlapReplace) in
  let e3 := cron_run DefaultEngineConfig
              (triggered_twice OverlapReplace ++ [OpFinish 1 10 25 None]) in
  let e4 := cron_run DefaultEngineConfig
              (triggered_twice OverlapReplace ++ [OpFinish 1 10 25 None; OpTrigger "job" 30]) in
  live_runs e2 = [2] ∧
  live_runs e3 = [2] ∧ s_running <$> e_objs e3 !! 0 = Some false ∧
  live_runs e4 ≡ₚ [2; 3].
Proof.
  split_and!; [vm_compute; reflexivity..|]. vm_compute. first [reflexivity|apply perm_swap].
Qed.

(** * Expressions that never match *)

Lemma next_loop_never fuel expr off t limit :
  (∀ u, matches expr off u = false) → next_loop fuel expr off t limit = time_zero.
Proof.
  intros Hno. revert t. induction fuel as [|fuel IH]; intros t; [done|]. simpl.
  destruct (t <? limit)%Z; [|done]. destruct (next_round expr off t) as [t'|t'] eqn:E; [apply IH|].
  specialize (Hno t). unfold next_round in E. unfold matches in Hno.
  destruct (Matches (ex_Months expr) _), (Matches (ex_DOM expr) _), (Matches (ex_DOW expr) _),
    (Matches (ex_Hours expr) _), (Matches (ex_Minutes expr) _); simpl in *; congruence.
Qed.

(** The thirtieth of February. *)
Definition feb_30 : Expression :=
  MkExpression 1 1 (2 ^ 30) (2 ^ 2) (2 ^ 7 - 1).

Lemma feb_30_parsed : ParseExpression "0 0 30 2 *" = Ok feb_30.
Proof. vm_compute. reflexivity. Qed.

Lemma single_bit n v : (0 <= n)%Z → v ≠ n → Matches (2 ^ n) v = false.
Proof.
  intros Hn Hne. destruct (Matches (2 ^ n) v) eqn:E; [|done].
  apply Matches_testbit in E as [_ E]. rewrite Z.pow2_bits_false in E by congruence. done.
Qed.

Lemma feb_30_never off t : matches feb_30 off t = false.
Proof.
  unfold matches, t_Month, t_Day. pose proof (date_of_day_spec (local_day off t)) as H.
  destruct (date_of_day (local_day off t)) as [y m dd]. cbn [d_month d_day ex_Months ex_DOM feb_30].
  destruct H as (Hm & Hd & _ & Hn & E).
  destruct (decide (m = 2%Z)) as [->|Hne]; [|by rewrite (single_bit 2 m)].
  rewrite (single_bit 30 dd); [by rewrite andb_false_r|done|].
  assert (days_before_month (is_leap y) 2 <= days_before_month (is_leap y) (2 - 1) + 29)%Z
    by (by destruct (is_leap y)). lia.
Qed.

(** The iterations of the loop at some times, each with its dispatch. *)
Fixpoint iterations (nows : list Time) (e : Engine) : list loop_outcome :=
  match nows with
  | [] => []
  | now :: nows' =>
      let '(out, e') := loop_pop now e in
      out :: iterations nows' (match out with Due p t => dispatch p t now e' | Sleep _ => e' end)
  end.

(** An engine whose only schedule never matches. *)
Definition spinning (e : Engine) : Prop :=
  e_queue e = [0] ∧ (0 <= cfg_ClockSkewAllowance (e_cfg e))%Z ∧
  ∃ s, e_objs e !! 0 = Some s ∧ s_expr s = feb_30 ∧ s_NextRun s = time_zero ∧ s_IsPaused s = false.

Lemma spinning_dispatch t now e : spinning e → spinning (dispatch 0 t now e).
Proof.
  intros (Hq & Hc & s & Hs & He & Hn & Hz). unfold dispatch. rewrite Hs, Hz.
  assert (∀ e', e_queue e' = [0] → e_cfg e' = e_cfg e → spinning (start_run 0 s t e')) as Hstart.
  { intros e' Hq' Hc'. split_and!; [done|simpl; by rewrite Hc'|].
    exists (set_run true (Some (e_fresh e')) s). simpl. by rewrite lookup_insert_eq. }
  destruct (s_running s); [|by apply Hstart]. destruct (s_Overlap s).
  - by apply Hstart.
  - split_and!; [done|done|]. by exists s.
  - apply Hstart; by destruct (s_cancel s).
Qed.

Lemma spinning_loop now e :
  (0 <= now)%Z → spinning e →
  (loop_pop now e).1 = Due 0 time_zero ∧ spinning (loop_pop now e).2.
Proof.
  intros Hnow (Hq & Hc & s & Hs & He & Hn & Hz). unfold loop_pop, next_run, heap_of.
  rewrite Hq. cbn [head]. rewrite Hs, Hn.
  assert (time_after time_zero (time_add now (cfg_ClockSkewAllowance (e_cfg e))) = false) as ->.
  { unfold time_after, time_add, time_zero. apply Z.ltb_ge. lia. }
  cbn -[heap_Push Next]. rewrite !lookup_alter_eq, Hs. cbn -[heap_Push Next].
  rewrite Hn, Hz, He. split; [done|]. unfold heap_Push. cbn -[Next].
  split_and!; [done|done|]. cbn -[Next]. rewrite lookup_alter_eq, lookup_insert_eq.
  eexists. split; [done|]. split_and!; [done| |done]. by apply next_loop_never, feb_30_never.
Qed.

Lemma spinning_iterations nows e :
  Forall (λ now, 0 <= now)%Z nows → spinning e →
  iterations nows e = replicate (length nows) (Due 0 time_zero).
Proof.
  intros Hnows. revert e. induction Hnows as [|now nows Hnow _ IH]; intros e He; [done|]. simpl.
  destruct (spinning_loop now e Hnow He) as [H1 H2]. destruct (loop_pop now e) as [out e'].
  simpl in *. subst out. rewrite IH; [done|]. by apply spinning_dispatch.
Qed.

(** A schedule with an impossible date fires without end.  The engine accepts the 30th of
    February; [Next] gives it the zero time, which is always due, so every iteration of the loop
    dispatches it, without ever sleeping. *)
Theorem impossible_date_fires_forever cfg id wf loc missed overlap now nows :
  (0 <= cfg_ClockSkewAllowance cfg)%Z → Forall (λ t, 0 <= t)%Z nows →
  let r := AddSchedule id wf "0 0 30 2 *" loc missed overlap now (New cfg) in
  r.1 = None ∧ iterations nows r.2 = replicate (length nows) (Due 0 time_zero).
Proof.
  intros Hc Hnows. unfold AddSchedule. rewrite feb_30_parsed. cbn -[Next heap_Push].
  split; [done|]. apply spinning_iterations; [done|]. unfold heap_Push. cbn -[Next].
  split_and!; [done|done|].
  eexists. split; [reflexivity|]. split_and!; [done| |done]. by apply next_loop_never, feb_30_never.
Qed.

Lemma impossible_date_fires_forever_witness :
  (0 <= cfg_ClockSkewAllowance DefaultEngineConfig)%Z ∧
  iterations [1000; 1000; 2000]%Z
    (AddSchedule "leap" "wf" "0 0 30 2 *" None MissedFireSkip OverlapAllow 500
       (New DefaultEngineConfig)).2 =
    [Due 0 time_zero; Due 0 time_zero; Due 0 time_zero].
Proof.
  split; [by vm_compute|].
  apply (impossible_date_fires_forever DefaultEngineConfig "leap" "wf" None MissedFireSkip
    OverlapAllow 500 [1000; 1000; 2000]%Z); [by vm_compute|]. repeat constructor; by vm_compute.
Defined.
