(* ===== verification/GraphMutator.v ===== *)
(** Mutations of a workflow graph: [internal/graphmutator/graphmutator.go].

    A graph is a map from identifiers to nodes; a node lists the nodes it depends on.  The map
    holds pointers, but every node is stored under its own identifier and reached from nowhere
    else, so that nodes are values here.  The two places where a saved pointer is put back
    ([ExpandFanOut] and [InlineSubDAG]) say what the loops in between did to that node.  The
    branch factory is an argument that returns fresh nodes; a call of [Validate] releases the
    lock for its duration, and the model lets no other call in between. *)
From S2P Require Import Prelude Errors.

Abbreviation SNodeNotFound := (SOther "graphmutator: node not found").
Abbreviation SNodeAlreadyExists := (SOther "graphmutator: node already exists").
Abbreviation SCycleDetected := (SOther "graphmutator: cycle detected in graph").
Abbreviation SDanglingEdge := (SOther "graphmutator: dangling dependency edge").
Abbreviation SEmptySubDAG := (SOther "graphmutator: cannot inline empty sub-dag").

Abbreviation NodeType := string (only parsing).
Abbreviation NodeTask := ("TASK"%string).
Abbreviation NodeApproval := ("APPROVAL"%string).
Abbreviation NodeFanOut := ("FAN_OUT"%string).
Abbreviation NodeFanIn := ("FAN_IN"%string).
Abbreviation NodeSubDAG := ("SUB_DAG"%string).

Record Node := MkNode {
  n_ID : string;
  n_Type : NodeType;
  n_Metadata : gmap string string;
  n_Dependencies : list string
}.

Definition set_deps (deps : list string) (n : Node) : Node :=
  MkNode (n_ID n) (n_Type n) (n_Metadata n) deps.

(** A copy has the same fields. *)
Definition Node_Clone (n : Node) : Node := set_deps (n_Dependencies n) n.

Abbreviation DAG := (gmap string Node) (only parsing).

Definition New : DAG := ∅.

Definition AddNode (n : Node) (d : DAG) : option error * DAG :=
  match d !! n_ID n with
  | Some _ => (Some (EWrap "%w: %s" [n_ID n] (ESentinel SNodeAlreadyExists)), d)
  | None => (None, <[n_ID n := Node_Clone n]> d)
  end.

Definition GetNode (id : string) (d : DAG) : result error Node :=
  match d !! id with
  | Some n => Ok (Node_Clone n)
  | None => Err (EWrap "%w: %s" [id] (ESentinel SNodeNotFound))
  end.

Definition strip (id : string) (n : Node) : Node :=
  set_deps (filter (λ dep, dep ≠ id) (n_Dependencies n)) n.

Definition RemoveNode (id : string) (d : DAG) : option error * DAG :=
  match d !! id with
  | None => (Some (EWrap "%w: %s" [id] (ESentinel SNodeNotFound)), d)
  | Some _ => (None, strip id <$> delete id d)
  end.

Definition AddEdge (parentID childID : string) (d : DAG) : option error * DAG :=
  match d !! parentID, d !! childID with
  | None, _ => (Some (EWrap "%w: parent %s" [parentID] (ESentinel SNodeNotFound)), d)
  | _, None => (Some (EWrap "%w: child %s" [childID] (ESentinel SNodeNotFound)), d)
  | Some _, Some child =>
      if bool_decide (parentID ∈ n_Dependencies child) then (None, d)
      else (None, <[childID := set_deps (n_Dependencies child ++ [parentID]) child]> d)
  end.

Definition Clone (sh : shuffle) (d : DAG) : DAG :=
  foldl (λ cp n, <[n_ID n := Node_Clone n]> cp) New (range_values sh d).

(** * The topological sort *)

(** [dependents] and [inDegree] *)
Abbreviation tables := (gmap string (list string) * gmap string Z)%type (only parsing).

Definition incr (m : gmap string Z) (k : string) (by_ : Z) : gmap string Z :=
  <[k := (default 0 (m !! k) + by_)%Z]> m.

(** The dependencies of one node. *)
Fixpoint count_deps (d : DAG) (id : string) (deps : list string) (st : tables) :
    result error tables :=
  match deps with
  | [] => Ok st
  | dep :: deps' =>
      match d !! dep with
      | None => Err (EWrap "%w: %s -> %s" [id; dep] (ESentinel SDanglingEdge))
      | Some _ =>
          count_deps d id deps'
            (<[dep := default [] (st.1 !! dep) ++ [id]]> st.1, incr st.2 id 1)
      end
  end.

Fixpoint count_nodes (d : DAG) (nodes : list (string * Node)) (st : tables) : result error tables :=
  match nodes with
  | [] => Ok st
  | (id, n) :: nodes' =>
      match count_deps d id (n_Dependencies n) st with
      | Err err => Err err
      | Ok st' => count_nodes d nodes' st'
      end
  end.

Definition sort_Strings (l : list string) : list string := sort_slice string_ltb l.

Fixpoint release (children : list string) (inDegree : gmap string Z) (zero : list string) :
    gmap string Z * list string :=
  match children with
  | [] => (inDegree, zero)
  | child :: children' =>
      let inDegree' := incr inDegree child (-1) in
      release children' inDegree'
        (if bool_decide (default 0%Z (inDegree' !! child) = 0%Z) then sort_Strings (zero ++ [child])
         else zero)
  end.

Fixpoint sort_loop (fuel : nat) (dependents : gmap string (list string)) (inDegree : gmap string Z)
    (zero sorted : list string) : list string :=
  match fuel, zero with
  | S fuel', curr :: zero' =>
      let '(inDegree', zero'') := release (default [] (dependents !! curr)) inDegree zero' in
      sort_loop fuel' dependents inDegree' zero'' (sorted ++ [curr])
  | _, _ => sorted
  end.

(** A node enters the queue at most once, so one round per node is enough. *)
Definition TopologicalSort (sh : shuffle) (d : DAG) : result error (list string) :=
  match count_nodes d (range_map sh d) (∅, (λ _, 0%Z) <$> d) with
  | Err err => Err err
  | Ok (dependents, inDegree) =>
      let zero := sort_Strings (filter (λ kd, kd.2 = 0%Z) (range_map sh inDegree)).*1 in
      let sorted := sort_loop (size d) dependents inDegree zero [] in
      if bool_decide (length sorted = size d) then Ok sorted
      else Err (ESentinel SCycleDetected)
  end.

Definition Validate (sh : shuffle) (d : DAG) : option error :=
  match TopologicalSort sh d with Ok _ => None | Err err => Some err end.

(** * Mutations *)

Definition InjectBefore (sh : shuffle) (targetID : string) (newNode : Node) (d : DAG) :
    option error * DAG :=
  match d !! targetID with
  | None => (Some (EWrap "%w: target %s" [targetID] (ESentinel SNodeNotFound)), d)
  | Some target =>
      match d !! n_ID newNode with
      | Some _ => (Some (EWrap "%w: %s" [n_ID newNode] (ESentinel SNodeAlreadyExists)), d)
      | None =>
          let origDeps := n_Dependencies target in
          let n := set_deps origDeps (Node_Clone newNode) in
          let d1 := <[targetID := set_deps [n_ID n] target]> (<[n_ID n := n]> d) in
          match Validate sh d1 with
          | Some err => (Some err, <[targetID := set_deps origDeps target]> (delete (n_ID n) d1))
          | None => (None, d1)
          end
      end
  end.

(** [for i, dep := range other.Dependencies { if dep == old { other.Dependencies[i] = new } }] *)
Definition redirect (old new : string) (n : Node) : Node :=
  set_deps ((λ dep, if bool_decide (dep = old) then new else dep) <$> n_Dependencies n) n.

Definition InjectAfter (sh : shuffle) (targetID : string) (newNode : Node) (d : DAG) :
    option error * DAG :=
  match d !! targetID with
  | None => (Some (EWrap "%w: target %s" [targetID] (ESentinel SNodeNotFound)), d)
  | Some _ =>
      match d !! n_ID newNode with
      | Some _ => (Some (EWrap "%w: %s" [n_ID newNode] (ESentinel SNodeAlreadyExists)), d)
      | None =>
          let n := set_deps [targetID] (Node_Clone newNode) in
          let rewire id other :=
            if bool_decide (id = n_ID n) || bool_decide (id = targetID) then other
            else redirect targetID (n_ID n) other in
          let d1 := map_imap (λ id other, Some (rewire id other)) (<[n_ID n := n]> d) in
          match Validate sh d1 with
          | Some err => (Some err, redirect (n_ID n) targetID <$> delete (n_ID n) d1)
          | None => (None, d1)
          end
      end
  end.

Definition ExpandFanOut (sh : shuffle) (templateID : string) (count : Z)
    (branchFactory : nat → Node) (reduceNode : Node) (d : DAG) : option error * DAG :=
  if (count <=? 0)%Z then
    (Some (EFmt "graphmutator: branch count must be greater than zero" []), d)
  else
    match d !! templateID with
    | None => (Some (EWrap "%w: %s" [templateID] (ESentinel SNodeNotFound)), d)
    | Some template =>
        let upstream := n_Dependencies template in
        let branchNodes := (λ i, set_deps upstream (branchFactory i)) <$> seq 0 (Z.to_nat count) in
        let branchIDs := n_ID <$> branchNodes in
        let red := set_deps branchIDs (Node_Clone reduceNode) in
        let d1 := foldl (λ d b, <[n_ID b := b]> d) d branchNodes in
        let d2 := <[n_ID red := red]> d1 in
        let rewire other :=
          if bool_decide (n_ID other = n_ID red) then other
          else redirect templateID (n_ID red) other in
        let d3 := rewire <$> d2 in
        let d4 := delete templateID d3 in
        match Validate sh d4 with
        | None => (None, d4)
        | Some err =>
            (* the saved template went through the loop unless a new node had taken its place *)
            let template' :=
              if bool_decide (templateID ∈ branchIDs) || bool_decide (templateID = n_ID red)
              then template else rewire template in
            let d5 := foldl (λ d b, delete (n_ID b) d) (delete (n_ID red) d4) branchNodes in
            (Some err, <[templateID := template']> d5)
        end
    end.

(** [subInDegree] and [subHasOutgoing] after the two loops. *)
Definition sub_degrees (nodes : list (string * Node)) : gmap string Z * gmap string bool :=
  foldl (λ st idn,
    foldl (λ st dep, (incr st.1 idn.1 1, <[dep := true]> st.2)) st (n_Dependencies idn.2))
    (foldl (λ m idn, <[idn.1 := 0%Z]> m) ∅ nodes, ∅) nodes.

(** [newDeps] *)
Definition splice (old : string) (news : list string) (n : Node) : Node :=
  set_deps (foldl (λ acc dep, if bool_decide (dep = old) then acc ++ news else acc ++ [dep]) []
              (n_Dependencies n)) n.

Definition append_deps (deps : list string) (n : Node) : Node :=
  set_deps (n_Dependencies n ++ deps) n.

Definition InlineSubDAG (sh : shuffle) (compositeID : string) (sub d : DAG) : option error * DAG :=
  match d !! compositeID with
  | None => (Some (EWrap "%w: %s" [compositeID] (ESentinel SNodeNotFound)), d)
  | Some composite =>
      if bool_decide (size sub = 0) then (Some (ESentinel SEmptySubDAG), d)
      else
        let '(subInDegree, subHasOutgoing) := sub_degrees (range_map sh sub) in
        let ids := (range_map sh sub).*1 in
        let subRoots := filter (λ id, default 0%Z (subInDegree !! id) = 0%Z) ids in
        let subExits := filter (λ id, default false (subHasOutgoing !! id) = false) ids in
        let upstream := n_Dependencies composite in
        let d1 := foldl (λ d n, <[n_ID n := Node_Clone n]> d) d (range_values sh sub) in
        let d2 := foldl (λ d rootID, alter (append_deps upstream) rootID d) d1 subRoots in
        let rewire other :=
          if bool_decide (n_ID other = compositeID) then other
          else splice compositeID subExits other in
        let d3 := delete compositeID (rewire <$> d2) in
        match Validate sh d3 with
        | Some err => (Some err, <[compositeID := composite]> d3)
        | None => (None, d3)
        end
  end.

(** * Differences *)

Record GraphDiff := MkGraphDiff {
  AddedNodes : list string;
  RemovedNodes : list string;
  AddedEdges : list (string * string);
  RemovedEdges : list (string * string)
}.

Definition absent (d : DAG) (ids : list string) : list string := filter (λ id, d !! id = None) ids.

Definition Diff (sh : shuffle) (d other : DAG) : GraphDiff :=
  MkGraphDiff (sort_Strings (absent d (range_map sh other).*1))
    (sort_Strings (absent other (range_map sh d).*1)) [] [].
