(* ===== verification/GraphMutations.v ===== *)
(** The mutations of a workflow graph keep a valid graph valid and keep the order of its nodes. *)
From stdpp Require Import relations.
From S2P Require Import Prelude Errors GraphMutator GraphMutatorFacts.

(** * Valid graphs and their ranks *)

Definition valid (d : gmap string Node) : Prop := closed d ∧ acyclic d.

Lemma Validate_valid sh d : Validate sh d = None ↔ valid d.
Proof.
  unfold Validate. pose proof (gm_sort_run sh d) as H.
  destruct (TopologicalSort sh d) as [r|err]; split; [|done|done|].
  - intros _. destruct H as [Hcl Ho]. split; [done|]. by apply (sorted_order_acyclic d r).
  - intros [Hcl Hac]. destruct H as [(u & v & Hd & Hn & _)|(_ & _ & ?)]; [|done].
    destruct (Hcl u v Hd). congruence.
Qed.

(** A rank that falls along dependencies. *)
Definition ranked (d : gmap string Node) (rank : string → nat) : Prop :=
  ∀ u v, depends d u v → rank v < rank u.

Lemma ranked_acyclic d rank : ranked d rank → acyclic d.
Proof.
  intros Hr n Hn. assert (∀ u v, tc (depends d) u v → rank v < rank u) as H.
  { induction 1 as [u v Hd|u w v Hd _ IH]; [by apply Hr|]. apply Hr in Hd. lia. }
  apply H in Hn. lia.
Qed.

Lemma valid_order d : valid d → ∃ r, sorted_order d r.
Proof.
  intros Hv. apply (Validate_valid shuffle_id) in Hv. unfold Validate in Hv.
  pose proof (gm_sort_run shuffle_id d) as H.
  destruct (TopologicalSort shuffle_id d) as [r|]; [|done]. exists r. by destruct H.
Qed.

Lemma valid_ranked d : valid d → ∃ rank, ranked d rank.
Proof.
  intros Hv. destruct (valid_order d Hv) as (r & Hp & Hord).
  assert (NoDup r) as Hnd by (rewrite Hp; apply NoDup_elements).
  assert (∀ i v, r !! i = Some v → fst <$> list_find (v =.) r = Some i) as Hpos.
  { intros i v Hi. assert (list_find (v =.) r = Some (i, v)) as ->; [|done].
    apply list_find_Some. split_and!; [done|done|]. intros j w Hj Hlt ->.
    apply (NoDup_lookup r i j w Hnd Hi) in Hj. lia. }
  exists (λ v, default 0 (fst <$> list_find (v =.) r)). intros u v Hd.
  assert (u ∈ r) as (l1 & l2 & Hr)%list_elem_of_split.
  { rewrite Hp, elem_of_elements, elem_of_dom. by eapply depends_dom. }
  destruct (Hord _ _ _ Hr) as [(_ & _ & Hl1) _]. apply Hl1 in Hd. apply list_elem_of_lookup in Hd as [i Hi].
  rewrite (Hpos (length l1) u), (Hpos i v); simpl.
  - by apply lookup_lt_Some in Hi.
  - rewrite Hr. by apply lookup_app_l_Some.
  - rewrite Hr. by apply list_lookup_middle.
Qed.

(** * Expansions *)

(** A relation in which a node was blown up: [proj] collapses the new nodes, [below] is the new
    node that has the old dependencies, [above] the one that has the old dependents. *)
Section expansion.
Context (R R' : relation string) (proj below above : string → string).
Hypothesis step_proj : ∀ x y, R' x y → R (proj x) (proj y) ∨ proj x = proj y.
Hypothesis step_embed : ∀ x y, R x y → R' (below x) (above y).
Hypothesis inside : ∀ x, rtc R' (above x) (below x).
Hypothesis acyclic' : ∀ n, ¬ tc R' n n.

Lemma embed_tc x y : tc R x y → tc R' (below x) (above y).
Proof.
  induction 1 as [x y H|x w y H _ IH]; [by apply tc_once, step_embed|].
  eapply tc_l; [by apply step_embed|]. eapply tc_rtc_l; [apply inside|done].
Qed.

Lemma proj_tc x y : tc R' x y → rtc R (proj x) (proj y).
Proof.
  assert (∀ x y, R' x y → rtc R (proj x) (proj y)) as Hstep.
  { intros u v [H| ->]%step_proj; [by apply rtc_once|done]. }
  induction 1 as [u v H|u w v H _ IH]; [by apply Hstep|]. etrans; [by apply Hstep|done].
Qed.

Lemma expansion_order x y :
  proj x = x → proj y = y → above x = x ∨ below x = x → above y = y ∨ below y = y →
  tc R x y ↔ tc R' x y.
Proof.
  intros Px Py Ex Ey. split.
  - intros H%embed_tc. assert (tc R' x (above y)) as H'.
    { destruct Ex as [<-|<-]; [by eapply tc_rtc_l; [apply inside|]|done]. }
    destruct Ey as [<-|<-]; [done|]. eapply tc_rtc_r; [done|]. apply inside.
  - intros H. pose proof (proj_tc x y H) as Hr. rewrite Px, Py in Hr.
    destruct Hr as [|x' w y' Hw Hr]; [by destruct (acyclic' x)|]. by eapply tc_rtc_r; [apply tc_once|].
Qed.
End expansion.

(** The old nodes keep their order. *)
Definition keeps_order (d d' : gmap string Node) (P : string → Prop) : Prop :=
  ∀ u v, P u → P v → tc (depends d) u v ↔ tc (depends d') u v.

(** * Dependencies of updated graphs *)

Lemma deps_insert d k n x :
  deps (<[k := n]> d) x = if decide (x = k) then n_Dependencies n else deps d x.
Proof.
  unfold deps. case_decide; [subst; by rewrite lookup_insert_eq|by rewrite lookup_insert_ne].
Qed.

Lemma deps_Some d k n : d !! k = Some n → deps d k = n_Dependencies n.
Proof. intros H. unfold deps. by rewrite H. Qed.

Lemma set_deps_same n : set_deps (n_Dependencies n) n = n.
Proof. by destruct n. Qed.

(** * Injection *)

Section inject.
Context (sh : shuffle) (d : gmap string Node) (t : string) (target newNode : Node).
Hypothesis Hv : valid d.
Hypothesis Ht : d !! t = Some target.
Hypothesis Hnew : d !! n_ID newNode = None.
Local Abbreviation new := (n_ID newNode).

Lemma new_not_dep u : ¬ depends d u new.
Proof. intros H. destruct Hv as [Hcl _]. destruct (Hcl u new H). congruence. Qed.

Lemma new_no_deps v : ¬ depends d new v.
Proof. intros H. apply depends_dom in H as [? H]. congruence. Qed.

Lemma target_not_new : t ≠ new.
Proof. intros E. congruence. Qed.

Lemma not_self u : ¬ depends d u u.
Proof. intros H. destruct Hv as [_ Hac]. by apply (Hac u), tc_once. Qed.

Definition before : gmap string Node :=
  <[t := set_deps [new] target]> (<[new := set_deps (n_Dependencies target) newNode]> d).

Lemma deps_before x :
  deps before x = if decide (x = t) then [new] else if decide (x = new) then deps d t else deps d x.
Proof.
  unfold before. rewrite !deps_insert. by rewrite (deps_Some d t target).
Qed.

Lemma depends_before u v :
  depends before u v ↔
  (u = t ∧ v = new) ∨ (u = new ∧ depends d t v) ∨ (u ≠ t ∧ u ≠ new ∧ depends d u v).
Proof.
  pose proof target_not_new. unfold depends. rewrite deps_before.
  destruct (decide (u = t)) as [->|]; [set_solver|]. destruct (decide (u = new)) as [->|]; set_solver.
Qed.

Lemma before_valid : valid before.
Proof.
  split.
  - intros u v Huv. assert (v = new ∨ ∃ w, depends d w v) as [->|[w Hw]].
    { apply depends_before in Huv as [[_ ->]|[[_ ?]|(_ & _ & ?)]]; eauto. }
    + unfold before. rewrite lookup_insert_ne by apply target_not_new. rewrite lookup_insert_eq. eauto.
    + destruct Hv as [Hcl _]. destruct (Hcl w v Hw) as [m Hm]. unfold before.
      rewrite lookup_insert_is_Some'. right. rewrite lookup_insert_is_Some'. eauto.
  - destruct (valid_ranked d Hv) as [rank Hr]. pose proof target_not_new as Hne.
    apply (ranked_acyclic _ (λ x, if decide (x = new) then 2 * rank t else 2 * rank x + 1)).
    intros u v Huv.
    apply depends_before in Huv as [[-> ->]|[[-> H]|(Hut & Hun & H)]].
    + rewrite decide_True, decide_False by done. lia.
    + rewrite (decide_True (P := new = new)) by done.
      rewrite decide_False by (intros ->; by apply (new_not_dep t)). apply Hr in H. lia.
    + rewrite (decide_False (P := u = new)) by done.
      rewrite decide_False by (intros ->; by apply (new_not_dep u)). apply Hr in H. lia.
Qed.

Lemma before_order : keeps_order d before (λ x, x ≠ new).
Proof.
  intros u v Hu Hw. pose proof target_not_new as Hne.
  apply (expansion_order _ _ (λ x, if decide (x = new) then t else x)
    (λ x, if decide (x = t) then new else x) (λ x, x)); cbv beta.
  - intros x y Hxy. apply depends_before in Hxy as [[-> ->]|[[-> H]|(Hxt & Hxn & H)]].
    + right. by rewrite decide_False, decide_True.
    + left. rewrite decide_True by done. rewrite decide_False; [done|].
      intros ->. by apply (new_not_dep t).
    + left. rewrite decide_False by done. rewrite decide_False; [done|].
      intros ->. by apply (new_not_dep x).
  - intros x y H. apply depends_before. destruct (decide (x = t)) as [->|]; [by right; left|].
    right; right. split_and!; [done| |done]. intros ->. by apply (new_no_deps y).
  - intros x. destruct (decide (x = t)) as [->|]; [|done]. apply rtc_once, depends_before. by left.
  - by destruct before_valid.
  - by rewrite decide_False.
  - by rewrite decide_False.
  - by left.
  - by left.
Qed.
Definition after_rewire (x : string) (other : Node) : Node :=
  if bool_decide (x = new) || bool_decide (x = t) then other else redirect t new other.
Definition after : gmap string Node :=
  map_imap (λ x other, Some (after_rewire x other)) (<[new := set_deps [t] newNode]> d).

Lemma depends_after u v :
  depends after u v ↔
  (u = new ∧ v = t) ∨ (u = t ∧ depends d t v) ∨
  (u ≠ t ∧ u ≠ new ∧ ∃ w, depends d u w ∧ v = if decide (w = t) then new else w).
Proof.
  pose proof target_not_new as Hne. unfold depends, deps, after. rewrite map_lookup_imap.
  unfold after_rewire. destruct (decide (u = new)) as [->|Hun].
  - rewrite lookup_insert_eq. simpl. rewrite (bool_decide_eq_true_2 _ (eq_refl new)). simpl. set_solver.
  - rewrite lookup_insert_ne by done. rewrite (bool_decide_eq_false_2 _ Hun). simpl.
    destruct (decide (u = t)) as [->|Hut].
    + rewrite Ht. simpl. rewrite (bool_decide_eq_true_2 _ (eq_refl t)). set_solver.
    + rewrite (bool_decide_eq_false_2 _ Hut). destruct (d !! u) as [m|]; simpl; [|set_solver].
      rewrite list_elem_of_fmap. split.
      * intros (w & -> & Hw). right; right. split_and!; [done|done|]. exists w. split; [done|].
        by case_bool_decide; case_decide.
      * intros [?|[?|(_ & _ & w & Hw & ->)]]; [tauto|tauto|]. exists w. split; [|done].
        by case_bool_decide; case_decide.
Qed.

Lemma after_valid : valid after.
Proof.
  pose proof target_not_new as Hne. split.
  - intros u v Huv. unfold after. rewrite map_lookup_imap.
    assert (is_Some (<[new := set_deps [t] newNode]> d !! v)) as [m ->]; [|by eexists].
    rewrite lookup_insert_is_Some'. destruct Hv as [Hcl _].
    apply depends_after in Huv as [[_ ->]|[[_ H]|(_ & _ & w & H & ->)]].
    + right. eauto.
    + right. by apply (Hcl t).
    + case_decide; [by left|]. right. by apply (Hcl u).
  - destruct (valid_ranked d Hv) as [rank Hr].
    apply (ranked_acyclic _ (λ x, if decide (x = new) then 2 * rank t + 1 else 2 * rank x)).
    intros u v Huv. apply depends_after in Huv as [[-> ->]|[[-> H]|(Hut & Hun & w & H & ->)]].
    + rewrite decide_False, decide_True by done. lia.
    + rewrite (decide_False (P := t = new)) by done.
      rewrite decide_False by (intros ->; by apply (new_not_dep t)). apply Hr in H. lia.
    + rewrite (decide_False (P := u = new)) by done. pose proof (Hr _ _ H) as Hlt.
      destruct (decide (w = t)) as [->|]; [rewrite decide_True by done; lia|].
      rewrite decide_False by (intros ->; by apply (new_not_dep u)). lia.
Qed.

Lemma after_order : keeps_order d after (λ x, x ≠ new).
Proof.
  intros u v Hu Hw. pose proof target_not_new as Hne.
  apply (expansion_order _ _ (λ x, if decide (x = new) then t else x) (λ x, x)
    (λ x, if decide (x = t) then new else x)); cbv beta.
  - intros x y Hxy. apply depends_after in Hxy as [[-> ->]|[[-> H]|(Hxt & Hxn & w & H & ->)]].
    + right. by rewrite decide_True, decide_False.
    + left. rewrite decide_False by done. rewrite decide_False; [done|].
      intros ->. by apply (new_not_dep t).
    + left. rewrite decide_False by done. destruct (decide (w = t)) as [->|]; [by rewrite decide_True|].
      rewrite decide_False; [done|]. intros ->. by apply (new_not_dep x).
  - intros x y H. apply depends_after. destruct (decide (x = t)) as [->|Hxt].
    + right; left. split; [done|]. rewrite decide_False; [done|]. intros ->. by apply (not_self t).
    + right; right. split_and!; [done| |by exists y]. intros ->. by apply (new_no_deps y).
  - intros x. destruct (decide (x = t)) as [->|]; [|done]. apply rtc_once, depends_after. by left.
  - by destruct after_valid.
  - by rewrite decide_False.
  - by rewrite decide_False.
  - by right.
  - by right.
Qed.

Lemma InjectBefore_run : InjectBefore sh t newNode d = (None, before).
Proof.
  unfold InjectBefore. rewrite Ht, Hnew. simpl. rewrite (proj2 (Validate_valid sh _)); [done|].
  apply before_valid.
Qed.

Lemma InjectAfter_run : InjectAfter sh t newNode d = (None, after).
Proof.
  unfold InjectAfter. rewrite Ht, Hnew. simpl. rewrite (proj2 (Validate_valid sh _)); [done|].
  apply after_valid.
Qed.
End inject.

(** Injecting a node into a valid graph.  For a target that is there and a node that is not,
    [InjectBefore] and [InjectAfter] succeed and leave a valid graph.  In the first the new node
    takes over the dependencies of the target, which then depends on it alone; in the second it
    depends on the target alone, and takes its place in every other node.  The nodes that were
    there depend on each other, directly or not, exactly as before. *)
Theorem injections_keep_order sh d t newNode :
  Validate sh d = None → is_Some (d !! t) → d !! n_ID newNode = None →
  ∃ b a, InjectBefore sh t newNode d = (None, b) ∧ InjectAfter sh t newNode d = (None, a) ∧
    Validate sh b = None ∧ Validate sh a = None ∧
    deps b (n_ID newNode) = deps d t ∧ deps b t = [n_ID newNode] ∧
    deps a (n_ID newNode) = [t] ∧ (∀ u, depends a u t → u = n_ID newNode) ∧
    keeps_order d b (λ x, x ≠ n_ID newNode) ∧ keeps_order d a (λ x, x ≠ n_ID newNode).
Proof.
  intros Hv [target Ht] Hnew. apply Validate_valid in Hv. exists (before d t target newNode), (after d t newNode).
  pose proof (target_not_new d t target newNode Ht Hnew) as Hne. split_and!.
  - by apply InjectBefore_run.
  - by eapply InjectAfter_run.
  - by apply Validate_valid, before_valid.
  - by apply Validate_valid, (after_valid d t target).
  - rewrite (deps_before d t target) by done. by rewrite decide_False, decide_True.
  - rewrite (deps_before d t target) by done. by rewrite decide_True.
  - unfold deps, after, after_rewire. rewrite map_lookup_imap, lookup_insert_eq. simpl.
    by rewrite (bool_decide_eq_true_2 _ (eq_refl (n_ID newNode))).
  - intros u Hu. apply (depends_after d t target newNode) in Hu; [|done..].
    destruct Hu as [[-> _]|[[-> H]|(_ & _ & w & _ & Hw)]]; [done| |].
    + by destruct (not_self d Hv t).
    + by case_decide.
  - by apply before_order.
  - by eapply after_order.
Qed.

(** * Fan-out *)

(** Every node is stored under its identifier. *)
Definition keyed (d : gmap string Node) : Prop := ∀ id n, d !! id = Some n → n_ID n = id.

Section fan_out.
Context (sh : shuffle) (d : gmap string Node) (t : string) (count : Z).
Context (branchFactory : nat → Node) (reduceNode : Node).
Local Abbreviation red := (n_ID reduceNode).
Definition branch_ids : list string := (n_ID ∘ branchFactory) <$> seq 0 (Z.to_nat count).

Context (template : Node).
Hypothesis Hv : valid d.
Hypothesis Hkey : keyed d.
Hypothesis Ht : d !! t = Some template.
Hypothesis Hcount : (0 < count)%Z.
Hypothesis Hbranches : ∀ b, b ∈ branch_ids → d !! b = None.
Hypothesis Hred : d !! red = None.
Hypothesis Hred_branch : red ∉ branch_ids.

Definition branches : list Node :=
  (λ i, set_deps (n_Dependencies template) (branchFactory i)) <$> seq 0 (Z.to_nat count).
Definition fan_rewire (other : Node) : Node :=
  if bool_decide (n_ID other = red) then other else redirect t red other.
Definition fanned : gmap string Node :=
  delete t (fan_rewire <$> <[red := set_deps (n_ID <$> branches) reduceNode]>
    (foldl (λ d b, <[n_ID b := b]> d) d branches)).

Lemma branches_ids : n_ID <$> branches = branch_ids.
Proof. unfold branches, branch_ids. by rewrite <- list_fmap_compose. Qed.

Lemma some_branch : ∃ b, b ∈ branch_ids.
Proof.
  exists (n_ID (branchFactory 0)). unfold branch_ids.
  destruct (Z.to_nat count) eqn:E; [lia|]. simpl. by left.
Qed.

Lemma fan_old_dep u v : depends d u v → v ≠ red ∧ v ∉ branch_ids.
Proof.
  destruct Hv as [Hcl _]. intros [m Hm]%Hcl. split; [congruence|]. intros ?%Hbranches. congruence.
Qed.

Lemma fan_old_node u v : depends d u v → u ≠ red ∧ u ∉ branch_ids.
Proof. intros [m Hm]%depends_dom. split; [congruence|]. intros ?%Hbranches. congruence. Qed.

Lemma redirect_fresh n : t ∉ n_Dependencies n → redirect t red n = n.
Proof.
  intros Hn. transitivity (set_deps (id <$> n_Dependencies n) n);
    [|by rewrite list_fmap_id, set_deps_same].
  unfold redirect. f_equal. apply list_fmap_ext. intros i x Hx.
  rewrite bool_decide_eq_false_2; [done|]. intros ->. by apply Hn, (list_elem_of_lookup_2 _ i).
Qed.

Lemma deps_fanned u :
  deps fanned u =
  if decide (u = t) then [] else if decide (u = red) then branch_ids
  else if decide (u ∈ branch_ids) then deps d t
  else (λ w, if bool_decide (w = t) then red else w) <$> deps d u.
Proof.
  destruct (decide (u = t)) as [->|Hut].
  { unfold deps, fanned. by rewrite lookup_delete_eq. }
  unfold deps at 1, fanned. rewrite lookup_delete_ne, lookup_fmap by done.
  destruct (decide (u = red)) as [->|Hur].
  { rewrite lookup_insert_eq. simpl. unfold fan_rewire.
    rewrite bool_decide_eq_true_2 by done. simpl. apply branches_ids. }
  rewrite lookup_insert_ne by done. destruct (decide (u ∈ branch_ids)) as [Hb|Hb].
  - rewrite <- branches_ids in Hb.
    destruct (foldl_insert_in n_ID (λ b, b) branches d u Hb) as (b & Hin & Hid & ->). simpl.
    unfold fan_rewire. rewrite bool_decide_eq_false_2 by congruence.
    unfold branches in Hin. apply list_elem_of_fmap in Hin as (i & -> & _).
    rewrite redirect_fresh; [simpl; by rewrite (deps_Some d t template)|]. simpl.
    rewrite <- (deps_Some d t template) by done. apply (not_self d Hv t).
  - rewrite (foldl_insert_other n_ID (λ b, b)) by (by rewrite branches_ids).
    unfold deps. destruct (d !! u) as [m|] eqn:Hm; simpl; [|done]. unfold fan_rewire.
    rewrite bool_decide_eq_false_2; [done|]. rewrite (Hkey u m Hm). done.
Qed.

Lemma depends_fanned u v :
  depends fanned u v ↔
  (u = red ∧ v ∈ branch_ids) ∨ (u ∈ branch_ids ∧ depends d t v) ∨
  (u ≠ t ∧ ∃ w, depends d u w ∧ v = if decide (w = t) then red else w).
Proof.
  assert (t ≠ red) as Htr by congruence.
  assert (t ∉ branch_ids) as Htb by (intros ?%Hbranches; congruence).
  unfold depends at 1. rewrite deps_fanned.
  destruct (decide (u = t)) as [->|]; [set_solver|].
  destruct (decide (u = red)) as [->|].
  { split; [by left; eauto|]. intros [[_ ?]|[[? _]|(_ & w & Hw & _)]]; [done|done|].
    by apply fan_old_node in Hw as [? _]. }
  destruct (decide (u ∈ branch_ids)) as [Hb|Hb].
  { split; [by right; left|]. intros [[? _]|[[_ ?]|(_ & w & Hw & _)]]; [done|done|].
    by apply fan_old_node in Hw as [_ ?]. }
  rewrite list_elem_of_fmap. split.
  - intros (w & -> & Hw). right; right. split; [done|]. exists w. split; [done|].
    by case_bool_decide; case_decide.
  - intros [[? _]|[[? _]|(_ & w & Hw & ->)]]; [done|done|]. exists w. split; [|done].
    by case_bool_decide; case_decide.
Qed.

Lemma fanned_valid : valid fanned.
Proof.
  assert (t ≠ red) as Htr by congruence. assert (t ∉ branch_ids) as Htb by (intros ?%Hbranches; congruence).
  split.
  - intros u v Huv. unfold fanned. rewrite lookup_delete_ne, lookup_fmap, fmap_is_Some.
    + rewrite lookup_insert_is_Some'. destruct Hv as [Hcl _].
      destruct (decide (v ∈ branch_ids)) as [Hb|Hb].
      { right. rewrite <- branches_ids in Hb.
        destruct (foldl_insert_in n_ID (λ b, b) branches d v Hb) as (b & _ & _ & ->). by eexists. }
      rewrite (foldl_insert_other n_ID (λ b, b)) by (by rewrite branches_ids).
      apply depends_fanned in Huv as [[_ ?]|[[_ H]|(_ & w & H & ->)]]; [done|right; by apply (Hcl t)|].
      case_decide; [by left|]. right. by apply (Hcl u).
    + intros <-. apply depends_fanned in Huv as [[_ ?]|[[_ H]|(_ & w & H & E)]]; [done| |].
      * by apply (not_self d Hv t).
      * case_decide; congruence.
  - destruct (valid_ranked d Hv) as [rank Hr].
    apply (ranked_acyclic _ (λ x, if decide (x = red) then 3 * rank t + 1
      else if decide (x ∈ branch_ids) then 3 * rank t else 3 * rank x)).
    intros u v Huv. apply depends_fanned in Huv as [[-> Hb]|[[Hb H]|(Hut & w & H & ->)]].
    + rewrite (decide_True (P := red = red)) by done. rewrite decide_False by congruence.
      rewrite decide_True by done. lia.
    + destruct (fan_old_dep t v H) as [? ?]. rewrite !(decide_False (P := v = red)) by done.
      rewrite (decide_False (P := v ∈ branch_ids)) by done.
      rewrite (decide_False (P := u = red)) by congruence. rewrite decide_True by done.
      apply Hr in H. lia.
    + destruct (fan_old_node u w H) as [? ?], (fan_old_dep u w H) as [? ?].
      rewrite (decide_False (P := u = red)), (decide_False (P := u ∈ branch_ids)) by done.
      apply Hr in H. destruct (decide (w = t)) as [->|].
      * rewrite decide_True by done. lia.
      * rewrite !decide_False by done. lia.
Qed.

Lemma fanned_order : keeps_order d fanned (λ x, x ≠ t ∧ x ≠ red ∧ x ∉ branch_ids).
Proof.
  intros u v (Hut & Hur & Hub) (Hvt & Hvr & Hvb). destruct some_branch as [b0 Hb0].
  assert (t ≠ red) as Htr by congruence. assert (t ∉ branch_ids) as Htb by (intros ?%Hbranches; congruence).
  set (proj x := if decide (x = red) then t else if decide (x ∈ branch_ids) then t else x).
  assert (∀ x, x ≠ red → x ∉ branch_ids → proj x = x) as Hproj
    by (intros x ? ?; unfold proj; by rewrite !decide_False).
  assert (∀ x, x ∈ branch_ids → proj x = t) as Hprojb
    by (intros x ?; unfold proj; case_decide; [done|by rewrite decide_True]).
  assert (proj red = t) as Hprojr by (unfold proj; by rewrite decide_True).
  apply (expansion_order _ _ proj (λ x, if decide (x = t) then b0 else x)
    (λ x, if decide (x = t) then red else x)).
  - intros x y Hxy. apply depends_fanned in Hxy as [[-> Hb]|[[Hb H]|(Hxt & w & H & ->)]].
    + right. by rewrite Hprojr, Hprojb.
    + left. destruct (fan_old_dep t y H) as [? ?]. by rewrite Hprojb, Hproj.
    + left. destruct (fan_old_node x w H) as [? ?], (fan_old_dep x w H) as [? ?].
      rewrite (Hproj x) by done.
      destruct (decide (w = t)) as [->|]; [by rewrite Hprojr|by rewrite Hproj].
  - intros x y H. apply depends_fanned. destruct (decide (x = t)) as [->|Hxt].
    + right; left. rewrite decide_False; [done|]. intros ->. by apply (not_self d Hv t).
    + right; right. eauto.
  - intros x. destruct (decide (x = t)) as [->|]; [|done]. apply rtc_once, depends_fanned. by left.
  - by destruct fanned_valid.
  - by apply Hproj.
  - by apply Hproj.
  - left. by rewrite decide_False.
  - left. by rewrite decide_False.
Qed.

Lemma ExpandFanOut_run : ExpandFanOut sh t count branchFactory reduceNode d = (None, fanned).
Proof.
  unfold ExpandFanOut. rewrite (proj2 (Z.leb_gt _ _)) by done. rewrite Ht. cbv zeta.
  rewrite (proj2 (Validate_valid sh _)); [done|]. apply fanned_valid.
Qed.
End fan_out.

(** * Inlining *)

Lemma splice_elem c news n v :
  v ∈ n_Dependencies (splice c news n) ↔
  ∃ w, w ∈ n_Dependencies n ∧ (w = c ∧ v ∈ news ∨ w ≠ c ∧ v = w).
Proof.
  unfold splice. simpl. assert (∀ l acc, v ∈ foldl (λ acc dep,
    if bool_decide (dep = c) then acc ++ news else acc ++ [dep]) acc l ↔
    v ∈ acc ∨ ∃ w, w ∈ l ∧ (w = c ∧ v ∈ news ∨ w ≠ c ∧ v = w)) as H.
  { induction l as [|x l IH]; intros acc; simpl; [set_solver|]. rewrite IH.
    case_bool_decide; set_solver. }
  rewrite H. set_solver.
Qed.

Lemma sub_deps_spec id x ds (st : gmap string Z * gmap string bool) :
  let st' := foldl (λ st dep, (incr st.1 id 1, <[dep := true]> st.2)) st ds in
  degree st'.1 x = (degree st.1 x + if decide (id = x) then Z.of_nat (length ds) else 0)%Z ∧
  (default false (st'.2 !! x) = true ↔ default false (st.2 !! x) = true ∨ x ∈ ds).
Proof.
  revert st. induction ds as [|y ds IH]; intros st; simpl.
  { split; [case_decide; lia|set_solver]. }
  destruct (IH (incr st.1 id 1, <[y := true]> st.2)) as [-> ->]. simpl. split.
  - rewrite degree_incr. repeat case_decide; subst; try congruence; lia.
  - destruct (decide (y = x)) as [->|]; [rewrite lookup_insert_eq|rewrite lookup_insert_ne by done];
      simpl; set_solver.
Qed.

Lemma sub_degrees_spec l x :
  degree (sub_degrees l).1 x = Z.of_nat (length (ldeps l x)) ∧
  (default false ((sub_degrees l).2 !! x) = true ↔ ∃ u, x ∈ ldeps l u).
Proof.
  unfold sub_degrees.
  assert (∀ l', degree (foldl (λ m idn, <[idn.1 := 0%Z]> m) ∅ (l' : list (string * Node))) x = 0%Z) as H0.
  { induction l' as [|a l' IH] using rev_ind; [done|]. rewrite foldl_snoc, degree_insert.
    by case_decide. }
  specialize (H0 l). revert H0. generalize (foldl (λ m idn, <[idn.1 := 0%Z]> m) (∅ : gmap string Z) l).
  intros m Hm. assert (∀ st : gmap string Z * gmap string bool,
    let st' := foldl (λ st idn, foldl (λ st dep, (incr st.1 idn.1 1, <[dep := true]> st.2)) st
      (n_Dependencies idn.2)) st l in
    degree st'.1 x = (degree st.1 x + Z.of_nat (length (ldeps l x)))%Z ∧
    (default false (st'.2 !! x) = true ↔ default false (st.2 !! x) = true ∨ ∃ u, x ∈ ldeps l u)) as H.
  { clear m Hm. induction l as [|[id n] l IH]; intros st; cbn [foldl ldeps fst snd].
    { split; [simpl; lia|set_solver]. }
    destruct (IH (foldl (λ st dep, (incr st.1 id 1, <[dep := true]> st.2)) st (n_Dependencies n)))
      as [-> ->]. destruct (sub_deps_spec id x (n_Dependencies n) st) as [-> ->]. split.
    - rewrite length_app. case_decide; simpl; lia.
    - setoid_rewrite elem_of_app. split.
      + intros [[?|Hx]|[u Hu]]; [by left| |by right; exists u; right].
        right. exists id. left. by rewrite decide_True.
      + intros [?|[u [Hu|Hu]]]; [by left; left| |by right; exists u].
        case_decide; [by left; right|by apply not_elem_of_nil in Hu]. }
  destruct (H (m, ∅)) as [-> ->]. simpl. rewrite Hm. split; [lia|]. rewrite lookup_empty. simpl.
  naive_solver.
Qed.

(** In a valid graph that is not empty, some node nobody depends on leads to a node without
    dependencies. *)
Lemma exit_to_root d :
  valid d → d ≠ ∅ →
  ∃ e r, is_Some (d !! e) ∧ (∀ u, ¬ depends d u e) ∧ is_Some (d !! r) ∧ deps d r = [] ∧
    rtc (depends d) e r.
Proof.
  intros Hv Hne. destruct (valid_order d Hv) as (o & Hp & Hord).
  assert (∀ x, x ∈ o ↔ is_Some (d !! x)) as Hin
    by (intros x; by rewrite Hp, elem_of_elements, elem_of_dom).
  destruct o as [|e o _] using rev_ind.
  { destruct Hne. apply map_empty. intros x. destruct (d !! x) eqn:E; [|done].
    assert (x ∈ []) as ?%not_elem_of_nil by (apply Hin; eauto). done. }
  assert (NoDup (o ++ [e])) as Hnd by (rewrite Hp; apply NoDup_elements).
  apply NoDup_app in Hnd as (_ & Hdis & _).
  assert (is_Some (d !! e)) as He by (apply Hin; set_solver). destruct Hv as [Hcl Hac].
  assert (∀ u, ¬ depends d u e) as Hexit.
  { intros u Hu. assert (u ∈ o ++ [e]) as Hu' by (by apply Hin; eapply depends_dom).
    apply elem_of_app in Hu' as [Ho|Ho].
    - apply list_elem_of_split in Ho as (l1 & l2 & ->).
      destruct (Hord l1 u (l2 ++ [e])) as [(_ & _ & H) _]; [by rewrite <- app_assoc|].
      apply (Hdis e); [|set_solver]. apply elem_of_app. left. by apply H.
    - apply list_elem_of_singleton in Ho as ->. by apply (Hac e), tc_once. }
  destruct (valid_ranked d (conj Hcl Hac)) as [rank Hr].
  assert (∀ k x, rank x < k → is_Some (d !! x) →
    ∃ r, is_Some (d !! r) ∧ deps d r = [] ∧ rtc (depends d) x r) as Hdown.
  { induction k as [|k IH]; intros x Hk Hx; [lia|]. destruct (deps d x) as [|y l] eqn:E; [by exists x|].
    assert (depends d x y) as Hxy by (unfold depends; rewrite E; by left).
    destruct (IH y) as (r & ? & ? & ?); [apply Hr in Hxy; lia|by eapply Hcl|].
    exists r. split_and!; [done|done|]. by eapply rtc_l. }
  destruct (Hdown (S (rank e)) e) as (r & ? & ? & ?); [lia|done|]. by exists e, r.
Qed.

Section inline.
Context (sh : shuffle) (d sub : gmap string Node) (c : string) (composite : Node).
Hypothesis Hv : valid d.
Hypothesis Hkey : keyed d.
Hypothesis Hc : d !! c = Some composite.
Hypothesis Hsub : valid sub.
Hypothesis Hsubkey : keyed sub.
Hypothesis Hsubne : sub ≠ ∅.
Hypothesis Hdisj : ∀ x, is_Some (sub !! x) → d !! x = None.

Definition sub_roots : list string :=
  filter (λ id, default 0%Z ((sub_degrees (range_map sh sub)).1 !! id) = 0%Z) (range_map sh sub).*1.
Definition sub_exits : list string :=
  filter (λ id, default false ((sub_degrees (range_map sh sub)).2 !! id) = false) (range_map sh sub).*1.
Definition inline_rewire (other : Node) : Node :=
  if bool_decide (n_ID other = c) then other else splice c sub_exits other.
Definition joined : gmap string Node :=
  foldl (λ d rootID, alter (append_deps (n_Dependencies composite)) rootID d)
    (foldl (λ d n, <[n_ID n := Node_Clone n]> d) d (range_values sh sub)) sub_roots.
Definition inlined : gmap string Node := delete c (inline_rewire <$> joined).

Lemma elem_of_sub_keys x : x ∈ (range_map sh sub).*1 ↔ is_Some (sub !! x).
Proof.
  rewrite list_elem_of_fmap. split.
  - intros ([k n] & -> & H%elem_of_range_map). by eexists.
  - intros [n Hn]. exists (x, n). split; [done|]. by apply elem_of_range_map.
Qed.

Lemma elem_of_roots x : x ∈ sub_roots ↔ is_Some (sub !! x) ∧ deps sub x = [].
Proof.
  unfold sub_roots. rewrite list_elem_of_filter, elem_of_sub_keys.
  fold (degree (sub_degrees (range_map sh sub)).1 x).
  destruct (sub_degrees_spec (range_map sh sub) x) as [-> _]. rewrite ldeps_range.
  rewrite <- length_zero_iff_nil. split; intros [? ?]; split; try done; lia.
Qed.

Lemma elem_of_exits x : x ∈ sub_exits ↔ is_Some (sub !! x) ∧ ∀ u, ¬ depends sub u x.
Proof.
  unfold sub_exits. rewrite list_elem_of_filter, elem_of_sub_keys.
  destruct (sub_degrees_spec (range_map sh sub) x) as [_ H].
  rewrite <- not_true_iff_false, H. setoid_rewrite ldeps_range. unfold depends. naive_solver.
Qed.

Lemma joined_copy x :
  foldl (λ d n, <[n_ID n := Node_Clone n]> d) d (range_values sh sub) !! x =
  match sub !! x with Some n => Some n | None => d !! x end.
Proof.
  assert (n_ID <$> range_values sh sub = (range_map sh sub).*1) as Hids.
  { unfold range_values. rewrite <- list_fmap_compose. apply list_fmap_ext. intros i [k n] Hi.
    simpl. apply Hsubkey, (elem_of_range_map sh). by eapply list_elem_of_lookup_2. }
  destruct (sub !! x) as [n|] eqn:E.
  - rewrite <- (Hsubkey x n E) at 1. rewrite foldl_insert_lookup; [f_equal; apply set_deps_same| |].
    + rewrite Hids. apply NoDup_range_map_fst.
    + apply elem_of_range_values. eauto.
  - apply (foldl_insert_other n_ID Node_Clone). rewrite Hids, elem_of_sub_keys, E. by intros [? ?].
Qed.

Lemma alter_roots l (m : gmap string Node) ds x :
  NoDup l →
  foldl (λ d rootID, alter (append_deps ds) rootID d) m l !! x =
  if decide (x ∈ l) then append_deps ds <$> m !! x else m !! x.
Proof.
  intros Hnd. revert m. induction Hnd as [|y l Hy Hnd IH]; intros m; simpl; [done|]. rewrite IH.
  destruct (decide (x = y)) as [->|Hne].
  - rewrite decide_False by done. rewrite decide_True by set_solver. apply lookup_alter_eq.
  - rewrite lookup_alter_ne by done. by destruct (decide (x ∈ l)); [rewrite decide_True by set_solver|
      rewrite decide_False by set_solver].
Qed.

Lemma roots_nodup : NoDup sub_roots.
Proof. apply NoDup_filter, NoDup_range_map_fst. Qed.

Lemma joined_lookup x :
  joined !! x =
  match sub !! x with
  | Some n => Some (if decide (deps sub x = []) then append_deps (n_Dependencies composite) n else n)
  | None => d !! x
  end.
Proof.
  unfold joined. rewrite (alter_roots _ _ _ _ roots_nodup), joined_copy.
  destruct (sub !! x) as [n|] eqn:E.
  - destruct (decide (deps sub x = [])) as [Hd|Hd].
    + rewrite decide_True; [done|]. apply elem_of_roots. rewrite E. eauto.
    + rewrite decide_False; [done|]. rewrite elem_of_roots. tauto.
  - rewrite decide_False; [done|]. rewrite elem_of_roots, E. by intros [[? ?] _].
Qed.

Lemma joined_key x n : joined !! x = Some n → n_ID n = x.
Proof.
  rewrite joined_lookup. destruct (sub !! x) as [m|] eqn:E; [|by apply Hkey].
  intros [= <-]. case_decide; by apply (Hsubkey x m).
Qed.

Lemma sub_not_c x : is_Some (sub !! x) → x ≠ c.
Proof. intros H ->. apply Hdisj in H. congruence. Qed.

Lemma sub_depends_sub u v : depends sub u v → is_Some (sub !! u) ∧ is_Some (sub !! v).
Proof. intros H. split; [by eapply depends_dom|]. destruct Hsub as [Hcl _]. by eapply Hcl. Qed.

Lemma d_depends_d u v : depends d u v → sub !! u = None ∧ sub !! v = None.
Proof.
  intros H. pose proof (depends_dom d u v H) as [n Hn]. destruct Hv as [Hcl _].
  destruct (Hcl u v H) as [m Hm]. split; apply eq_None_not_Some; intros Hs; apply Hdisj in Hs; congruence.
Qed.

Lemma depends_inlined u v :
  depends inlined u v ↔
  depends sub u v ∨ (is_Some (sub !! u) ∧ deps sub u = [] ∧ depends d c v) ∨
  (u ≠ c ∧ ∃ w, depends d u w ∧ (w = c ∧ v ∈ sub_exits ∨ w ≠ c ∧ v = w)).
Proof.
  destruct (decide (u = c)) as [->|Huc].
  { unfold depends at 1, deps, inlined. rewrite lookup_delete_eq. simpl. split; [set_solver|].
    intros [H|[[H _]|[? _]]]; [|by apply sub_not_c in H|done].
    apply sub_depends_sub in H as [H _]. by apply sub_not_c in H. }
  unfold depends at 1. unfold deps at 1, inlined. rewrite lookup_delete_ne, lookup_fmap by done.
  destruct (joined !! u) as [n|] eqn:E; simpl.
  - unfold inline_rewire. rewrite bool_decide_eq_false_2 by (by rewrite (joined_key u n E)).
    rewrite splice_elem. rewrite joined_lookup in E. destruct (sub !! u) as [m|] eqn:Eu.
    + assert (deps sub u = n_Dependencies m) as Hm by (unfold deps; by rewrite Eu).
      assert (∀ w, depends sub u w → w ≠ c) as Hwc by (intros w H; by apply sub_not_c, (sub_depends_sub u)).
      assert (∀ w, depends d c w → w ≠ c) as Hcc by (intros w H ->; by apply (not_self d Hv c)).
      assert (∀ w, w ∈ n_Dependencies n ↔ depends sub u w ∨ deps sub u = [] ∧ depends d c w) as Hn.
      { intros w. injection E as <-. unfold depends. rewrite (deps_Some d c composite Hc), Hm.
        destruct (decide (n_Dependencies m = [])) as [E0|E0]; simpl; [rewrite E0|]; set_solver. }
      setoid_rewrite Hn. split.
      * intros (w & [Hw|[H0 Hw]] & [[-> _]|[_ ->]]); [by apply Hwc in Hw|by left|by apply Hcc in Hw|].
        right; left. eauto.
      * intros [H|[(_ & H0 & H)|(_ & w & H & _)]]; [exists v; naive_solver..|].
        apply d_depends_d in H as [H _]. congruence.
    + unfold depends. rewrite (deps_Some d u n E). split; [naive_solver|].
      intros [H|[[[? H] _]|[_ H]]]; [|congruence|done].
      apply sub_depends_sub in H as [[? ?] _]. congruence.
  - rewrite joined_lookup in E. destruct (sub !! u) eqn:Eu; [done|]. split; [set_solver|].
    intros [H|[[[? H] _]|(_ & w & H & _)]]; [|congruence|].
    + apply sub_depends_sub in H as [[? ?] _]. congruence.
    + apply depends_dom in H as [? ?]. congruence.
Qed.

Lemma inlined_valid : valid inlined.
Proof.
  split.
  - intros u v Huv. assert (v ≠ c ∧ is_Some (joined !! v)) as [Hvc [n Hn]].
    { rewrite joined_lookup. destruct Hv as [Hcl _].
      apply depends_inlined in Huv as [H|[(_ & _ & H)|(_ & w & H & [[_ Hx]|[Hw ->]])]].
      - apply sub_depends_sub in H as [_ H]. split; [by apply sub_not_c|]. by destruct H as [? ->].
      - split; [intros ->; by apply (not_self d Hv c)|]. pose proof (Hcl _ _ H) as [? Hm].
        destruct (sub !! v); eauto.
      - apply elem_of_exits in Hx as [H' _]. split; [by apply sub_not_c|]. by destruct H' as [? ->].
      - split; [done|]. pose proof (Hcl _ _ H) as [? Hm]. destruct (sub !! w); eauto. }
    unfold inlined. rewrite lookup_delete_ne, lookup_fmap, Hn by done. by eexists.
  - destruct (valid_ranked d Hv) as [rank Hr], (valid_ranked sub Hsub) as [srank Hs].
    set (K := S (max_list (srank <$> elements (dom sub)))).
    assert (∀ x, is_Some (sub !! x) → srank x < K) as HK.
    { intros x Hx. unfold K. apply Nat.lt_succ_r. apply max_list_elem_of_le, list_elem_of_fmap_2.
      by apply elem_of_elements, elem_of_dom. }
    apply (ranked_acyclic _ (λ x, match sub !! x with
      | Some _ => K * rank c + srank x | None => K * rank x end)).
    assert (0 < K) by (unfold K; lia).
    intros u v Huv. apply depends_inlined in Huv as [H0|[([m Hm] & _ & H0)|(Huc & w & H0 & Hw)]].
    + destruct (sub_depends_sub u v H0) as [[m ->] [m' ->]]. apply Hs in H0. lia.
    + destruct (d_depends_d c v H0) as [_ ->]. rewrite Hm. apply Hr in H0. nia.
    + destruct (d_depends_d u w H0) as [-> Ew]. apply Hr in H0. destruct Hw as [[-> Hx]|[Hwc ->]].
      * apply elem_of_exits in Hx as [Hx _]. pose proof (HK v Hx). destruct Hx as [m ->]. nia.
      * rewrite Ew. nia.
Qed.

Lemma inlined_order : keeps_order d inlined (λ x, x ≠ c ∧ sub !! x = None).
Proof.
  intros u v (Huc & Hu) (Hvc & Hw). destruct (exit_to_root sub Hsub Hsubne) as (e & r & He & Hex & Hr & Hr0 & Her).
  set (proj x := match sub !! x with Some _ => c | None => x end).
  assert (∀ x, sub !! x = None → proj x = x) as Hproj by (intros x E; unfold proj; by rewrite E).
  assert (∀ x, is_Some (sub !! x) → proj x = c) as Hprojs by (intros x [m E]; unfold proj; by rewrite E).
  apply (expansion_order _ _ proj (λ x, if decide (x = c) then r else x)
    (λ x, if decide (x = c) then e else x)).
  - intros x y Hxy. apply depends_inlined in Hxy as [H|[(Hx & _ & H)|(Hxc & w & H & Hy)]].
    + right. destruct (sub_depends_sub x y H). by rewrite !Hprojs.
    + left. destruct (d_depends_d c y H) as [_ Hy]. by rewrite Hprojs, Hproj.
    + left. destruct (d_depends_d x w H) as [Hx Hw']. rewrite (Hproj x) by done.
      destruct Hy as [[-> Hy]|[_ ->]]; [|by rewrite Hproj].
      apply elem_of_exits in Hy as [Hy _]. by rewrite Hprojs.
  - intros x y H. apply depends_inlined. destruct (decide (x = c)) as [->|Hxc].
    + right; left. rewrite decide_False; [done|]. intros ->. by apply (not_self d Hv c).
    + right; right. split; [done|]. exists y. split; [done|].
      destruct (decide (y = c)) as [->|]; [left|by right]. split; [done|]. by apply elem_of_exits.
  - intros x. destruct (decide (x = c)) as [->|]; [|done]. eapply rtc_subrel; [|done].
    intros a b H. apply depends_inlined. by left.
  - by destruct inlined_valid.
  - by apply Hproj.
  - by apply Hproj.
  - left. by rewrite decide_False.
  - left. by rewrite decide_False.
Qed.

Lemma InlineSubDAG_run : InlineSubDAG sh c sub d = (None, inlined).
Proof.
  unfold InlineSubDAG. rewrite Hc, bool_decide_eq_false_2 by (by rewrite map_size_empty_iff).
  rewrite (surjective_pairing (sub_degrees _)). cbv zeta.
  rewrite (proj2 (Validate_valid sh _)); [done|]. apply inlined_valid.
Qed.
End inline.

(** Expanding a node of a valid graph.  With new identifiers for the branches and the join,
    [ExpandFanOut] succeeds: the template is gone, every branch has its dependencies, the join
    depends on the branches, and the graph is valid.  With a valid graph of new nodes,
    [InlineSubDAG] succeeds: the composite node is gone, the roots of the inlined graph have its
    dependencies, and the graph is valid.  In both the nodes that were there before depend on
    each other, directly or not, exactly as before. *)
Theorem expansions_keep_order sh d t count branchFactory reduceNode sub :
  Validate sh d = None → keyed d → is_Some (d !! t) →
  ((0 < count)%Z → (∀ b, b ∈ branch_ids count branchFactory → d !! b = None) →
   d !! n_ID reduceNode = None → n_ID reduceNode ∉ branch_ids count branchFactory →
   ∃ d', ExpandFanOut sh t count branchFactory reduceNode d = (None, d') ∧
     Validate sh d' = None ∧ d' !! t = None ∧
     deps d' (n_ID reduceNode) = branch_ids count branchFactory ∧
     (∀ b, b ∈ branch_ids count branchFactory → deps d' b = deps d t) ∧
     keeps_order d d' (λ x, x ≠ t ∧ is_Some (d !! x))) ∧
  (Validate sh sub = None → keyed sub → sub ≠ ∅ → (∀ x, is_Some (sub !! x) → d !! x = None) →
   ∃ d', InlineSubDAG sh t sub d = (None, d') ∧
     Validate sh d' = None ∧ d' !! t = None ∧
     (∀ x y, is_Some (sub !! x) →
        depends d' x y ↔ depends sub x y ∨ deps sub x = [] ∧ depends d t y) ∧
     keeps_order d d' (λ x, x ≠ t ∧ is_Some (d !! x))).
Proof.
  intros Hv Hkey [n Ht]. apply Validate_valid in Hv. split.
  - intros Hcount Hb Hred Hrb. exists (fanned d t count branchFactory reduceNode n). split_and!.
    + by apply ExpandFanOut_run.
    + by apply Validate_valid, fanned_valid.
    + apply lookup_delete_eq.
    + rewrite deps_fanned by done. rewrite decide_False by congruence. by rewrite decide_True.
    + intros b Hin. rewrite deps_fanned by done. pose proof (Hb b Hin).
      rewrite !decide_False by congruence. by rewrite decide_True.
    + intros u v [Hut [m Hu]] [Hvt [m' Hw]].
      assert (∀ x y, d !! x = Some y → x ≠ n_ID reduceNode ∧ x ∉ branch_ids count branchFactory) as Hold.
      { intros x y Hx. split; [congruence|]. intros ?%Hb. congruence. }
      apply fanned_order; try done; by split; [|eapply Hold].
  - intros Hs Hsk Hne Hdis. apply Validate_valid in Hs. exists (inlined sh d sub t n). split_and!.
    + by apply InlineSubDAG_run.
    + by apply Validate_valid, inlined_valid.
    + apply lookup_delete_eq.
    + intros x y Hx. rewrite depends_inlined by done. split; [|naive_solver].
      intros [?|[(_ & ? & ?)|(_ & w & H & _)]]; [by left|by right|].
      apply Hdis in Hx. apply depends_dom in H as [? ?]. congruence.
    + intros u v [Hut [m Hu]] [Hvt [m' Hw]].
      assert (∀ x y, d !! x = Some y → sub !! x = None) as Hold.
      { intros x y Hx. apply eq_None_not_Some. intros ?%Hdis. congruence. }
      apply inlined_order; try done; by split; [|eapply Hold].
Qed.

(** * Witnesses and collisions *)

Definition task (id : string) (ds : list string) : Node := MkNode id NodeTask ∅ ds.
Definition graph (ns : list Node) : gmap string Node := list_to_map ((λ n, (n_ID n, n)) <$> ns).

(** Extract, transform, load. *)
Definition etl : gmap string Node :=
  graph [task "extract" []; task "transform" ["extract"]; task "load" ["transform"]].
Definition shard (i : nat) : Node := task ("shard" +:+ pretty i) [].
Definition check_then_fix : gmap string Node := graph [task "check" []; task "fix" ["check"]].

Lemma etl_keyed : keyed etl.
Proof. intros id n H. by apply elem_of_list_to_map_2, list_elem_of_fmap in H as (m & [= -> ->] & _). Qed.

Lemma fix_keyed : keyed check_then_fix.
Proof. intros id n H. by apply elem_of_list_to_map_2, list_elem_of_fmap in H as (m & [= -> ->] & _). Qed.

Lemma injections_keep_order_witness :
  tc (depends (InjectBefore shuffle_id "load" (task "audit" []) etl).2) "load" "extract" ∧
  deps (InjectBefore shuffle_id "load" (task "audit" []) etl).2 "audit" = ["transform"].
Proof.
  destruct (injections_keep_order shuffle_id etl "load" (task "audit" []))
    as (b & a & -> & _ & _ & _ & Hd & _ & _ & _ & Hb & _);
    [vm_compute; reflexivity|vm_compute; eauto|vm_compute; reflexivity|].
  split; [|etrans; [exact Hd|vm_compute; reflexivity]]. apply Hb; [done|done|].
  apply (tc_l _ "load" "transform"); [by left|]. apply tc_once. by left.
Defined.

Lemma expansions_keep_order_witness :
  (∃ d', ExpandFanOut shuffle_id "transform" 3 shard (task "merge" []) etl = (None, d') ∧
    deps d' "merge" = ["shard0"; "shard1"; "shard2"] ∧ tc (depends d') "load" "extract") ∧
  (∃ d', InlineSubDAG shuffle_id "transform" check_then_fix etl = (None, d') ∧
    Validate shuffle_id d' = None ∧ tc (depends d') "load" "extract").
Proof.
  assert (tc (depends etl) "load" "extract") as H.
  { apply (tc_l _ "load" "transform"); [by left|]. apply tc_once. by left. }
  destruct (expansions_keep_order shuffle_id etl "transform" 3 shard (task "merge" []) check_then_fix)
    as [(d1 & E1 & _ & _ & Hm & _ & Ho1) (d2 & E2 & V2 & _ & _ & Ho2)].
  - vm_compute. reflexivity.
  - apply etl_keyed.
  - vm_compute. eauto.
  - done.
  - intros b Hb. vm_compute in Hb. repeat (apply elem_of_cons in Hb as [->|Hb]; [vm_compute; reflexivity|]).
    by apply not_elem_of_nil in Hb.
  - vm_compute. reflexivity.
  - intros Hb. vm_compute in Hb. repeat (apply elem_of_cons in Hb as [[=]|Hb]). by apply not_elem_of_nil in Hb.
  - vm_compute. reflexivity.
  - apply fix_keyed.
  - done.
  - intros x [n Hx]. apply elem_of_list_to_map_2, list_elem_of_fmap in Hx as (m & [= -> ->] & Hi).
    rewrite !elem_of_cons in Hi.
    destruct Hi as [->|[->|[]%not_elem_of_nil]]; vm_compute; reflexivity.
  - assert (∀ x, x ∈ ["load"; "extract"] → x ≠ "transform" ∧ is_Some (etl !! x)) as Hx.
    { intros x. rewrite !elem_of_cons. intros [->|[->|[]%not_elem_of_nil]]; (split; [done|]);
        vm_compute; eauto. }
    assert ("load" ∈ ["load"; "extract"]) as Hl by (by left).
    assert ("extract" ∈ ["load"; "extract"]) as He by (right; by left).
    split.
    + exists d1. split; [exact E1|]. split; [etrans; [exact Hm|vm_compute; reflexivity]|].
      exact (proj1 (Ho1 "load" "extract" (Hx _ Hl) (Hx _ He)) H).
    + exists d2. split; [exact E2|]. split; [exact V2|]. exact (proj1 (Ho2 "load" "extract" (Hx _ Hl) (Hx _ He)) H).
Defined.

(** A failed expansion damages the graph.  When the join has the identifier of a node that is
    there, the expansion of a valid graph fails with a cycle, and the rollback deletes that node,
    keeps the new wiring of the others and so leaves a graph with dangling edges. *)
Theorem failed_expansion_damages :
  let '(err, d') := ExpandFanOut shuffle_id "transform" 2 shard (task "extract" []) etl in
  Validate shuffle_id etl = None ∧ err = Some (ESentinel SCycleDetected) ∧
  is_Some (etl !! "extract") ∧ d' !! "extract" = None ∧ deps d' "load" = ["extract"].
Proof. vm_compute. split_and!; try reflexivity. eauto. Qed.
