(* ===== verification/Migration.v ===== *)
(** Schema migrations: [internal/migration/migration.go].

    The executor is an interface of the code, a class here, with the state of the database
    passed along.  [PgxExecutor] implements it over a connection pool, which is a parameter.
    The readings of the clock while a migration is applied are an argument, by version. *)
From stdpp Require Import pretty.
From S2P Require Import Prelude Errors Runes Strings Sha256.

Abbreviation SNilExecutor := (SOther "migration: executor is nil").
Abbreviation SDuplicateVersion := (SOther "migration: duplicate migration version").
Abbreviation SNonMonotonicVersion := (SOther "migration: migration versions must be strictly increasing").
Abbreviation SChecksumMismatch := (SOther "migration: checksum mismatch for already applied migration").
Abbreviation SLockAcquisitionFailed := (SOther "migration: failed to acquire distributed migration lock").
Abbreviation SEmptyMigrationName := (SOther "migration: migration name cannot be empty").
Abbreviation SEmptyUpSQL := (SOther "migration: migration Up SQL cannot be empty").

Definition DefaultAdvisoryLockID : Z := 0x54454D50455354.

Record Migration := MkMigration {
  g_Version : Z;
  g_Name : string;
  g_Up : string;
  g_Down : string;
  g_Checksum : string
}.

Record MigrationRecord := MkMigrationRecord {
  mr_Version : Z;
  mr_Name : string;
  mr_Checksum : string;
  mr_AppliedAt : Time;
  mr_ExecutionTimeMs : Z
}.

Record MigrationStatus := MkMigrationStatus {
  st_Version : Z;
  st_Name : string;
  st_Checksum : string;
  st_Applied : bool;
  st_AppliedAt : option Time;
  st_ExecutionTimeMs : Z
}.

(** The arguments of a statement. *)
Inductive arg := AInt (z : Z) | AStr (s : string) | ATime (t : Time).

(** The rows of a query are the results of scanning them, and the error of the cursor. *)
Class Executor (db : Type) := {
  Exec : string → list arg → db → result error Z * db;
  Query : string → db → result error (list (result error MigrationRecord) * option error) * db;
  AcquireLock : Z → db → option error * db;
  ReleaseLock : Z → db → option error * db
}.

(** * The executor on a connection pool *)

(** What is used of the pool: statements, queries, and a query of one row with one boolean. *)
Class Pool (db : Type) := {
  pool_Exec : string → list arg → db → result error Z * db;
  pool_Query : string → db → result error (list (result error MigrationRecord) * option error) * db;
  pool_QueryRow : string → list arg → db → result error bool * db
}.

Definition pgx_AcquireLock `{Pool db} (lockID : Z) (s : db) : option error * db :=
  let '(r, s) := pool_QueryRow "SELECT pg_try_advisory_lock($1)" [AInt lockID] s in
  match r with
  | Err err => (Some (EWrap "pg_try_advisory_lock: %w" [] err), s)
  | Ok false => (Some (ESentinel SLockAcquisitionFailed), s)
  | Ok true => (None, s)
  end.

Definition pgx_ReleaseLock `{Pool db} (lockID : Z) (s : db) : option error * db :=
  let '(r, s) := pool_QueryRow "SELECT pg_advisory_unlock($1)" [AInt lockID] s in
  match r with
  | Err err => (Some (EWrap "pg_advisory_unlock: %w" [] err), s)
  | Ok _ => (None, s)
  end.

#[export] Instance PgxExecutor `{Pool db} : Executor db := {|
  Exec := pool_Exec;
  Query := pool_Query;
  AcquireLock := pgx_AcquireLock;
  ReleaseLock := pgx_ReleaseLock
|}.

(** * Registration *)

Definition ComputeChecksum (sql : string) : string := sha256_hex (trim_space sql).

Record Migrator := MkMigrator {
  m_exec : bool;    (** the executor is not nil *)
  m_lockID : Z;
  m_migrations : list Migration
}.

Definition SetLockID (id : Z) (m : Migrator) : Migrator :=
  MkMigrator (m_exec m) id (m_migrations m).

Definition with_checksum (g : Migration) : Migration :=
  if bool_decide (g_Checksum g = "")
  then MkMigration (g_Version g) (g_Name g) (g_Up g) (g_Down g) (ComputeChecksum (g_Up g)) else g.

(** The migrations before the first that is refused stay registered. *)
Fixpoint Register (migrations : list Migration) (m : Migrator) : option error * Migrator :=
  match migrations with
  | [] => (None, m)
  | g :: rest =>
      if bool_decide (g_Name g = "") then (Some (ESentinel SEmptyMigrationName), m)
      else if bool_decide (g_Up g = "") then (Some (ESentinel SEmptyUpSQL), m)
      else
        let next := Register rest
          (MkMigrator (m_exec m) (m_lockID m) (m_migrations m ++ [with_checksum g])) in
        match last (m_migrations m) with
        | None => next
        | Some l =>
            if (g_Version g =? g_Version l)%Z then
              (Some (EWrap "%w: version %d" [pretty (g_Version g)] (ESentinel SDuplicateVersion)), m)
            else if (g_Version g <? g_Version l)%Z then
              (Some (EWrap "%w: version %d after %d" [pretty (g_Version g); pretty (g_Version l)]
                       (ESentinel SNonMonotonicVersion)), m)
            else next
        end
  end.

Definition default_migrations : list Migration :=
  [MkMigration 1 "create_workflow_definitions"
     "CREATE TABLE IF NOT EXISTS workflow_definitions (
				namespace TEXT NOT NULL DEFAULT 'default',
				name TEXT NOT NULL,
				version INT NOT NULL DEFAULT 1,
				steps JSONB NOT NULL DEFAULT '[]',
				created_at TIMESTAMPTZ NOT NULL DEFAULT now(),
				updated_at TIMESTAMPTZ NOT NULL DEFAULT now(),
				PRIMARY KEY (namespace, name, version)
			)"
     "DROP TABLE IF EXISTS workflow_definitions" "";
   MkMigration 2 "create_runs"
     "CREATE TABLE IF NOT EXISTS runs (
				namespace TEXT NOT NULL DEFAULT 'default',
				id TEXT NOT NULL,
				workflow_name TEXT NOT NULL,
				workflow_version INT NOT NULL DEFAULT 1,
				state TEXT NOT NULL DEFAULT 'PENDING',
				input JSONB DEFAULT '{}',
				steps JSONB DEFAULT '[]',
				error TEXT DEFAULT '',
				created_at TIMESTAMPTZ NOT NULL DEFAULT now(),
				started_at TIMESTAMPTZ,
				finished_at TIMESTAMPTZ,
				PRIMARY KEY (namespace, id)
			)"
     "DROP TABLE IF EXISTS runs" "";
   MkMigration 3 "create_queue"
     "CREATE TABLE IF NOT EXISTS queue (
				namespace TEXT NOT NULL DEFAULT 'default',
				run_id TEXT NOT NULL,
				step_id TEXT NOT NULL,
				enqueued_at TIMESTAMPTZ NOT NULL DEFAULT now(),
				visible_at TIMESTAMPTZ NOT NULL DEFAULT now(),
				attempt INT NOT NULL DEFAULT 0
			)"
     "DROP TABLE IF EXISTS queue" "";
   MkMigration 4 "create_events"
     "CREATE TABLE IF NOT EXISTS events (
				id TEXT NOT NULL,
				type TEXT NOT NULL,
				version INT NOT NULL DEFAULT 1,
				namespace TEXT NOT NULL DEFAULT 'default',
				run_id TEXT NOT NULL DEFAULT '',
				step_id TEXT NOT NULL DEFAULT '',
				created_at TIMESTAMPTZ NOT NULL DEFAULT now(),
				attempt INT NOT NULL DEFAULT 0,
				payload JSONB DEFAULT '{}',
				PRIMARY KEY (id)
			)"
     "DROP TABLE IF EXISTS events" "";
   MkMigration 5 "create_api_tokens"
     "CREATE TABLE IF NOT EXISTS api_tokens (
				id TEXT NOT NULL,
				namespace TEXT NOT NULL DEFAULT 'default',
				role TEXT NOT NULL DEFAULT 'reader',
				label TEXT DEFAULT '',
				token_hash TEXT NOT NULL,
				created_at TIMESTAMPTZ NOT NULL DEFAULT now(),
				expires_at TIMESTAMPTZ,
				PRIMARY KEY (id)
			)"
     "DROP TABLE IF EXISTS api_tokens" "";
   MkMigration 6 "create_webhooks"
     "CREATE TABLE IF NOT EXISTS webhooks (
				id TEXT NOT NULL,
				namespace TEXT NOT NULL DEFAULT 'default',
				url TEXT NOT NULL,
				secret TEXT DEFAULT '',
				types JSONB DEFAULT '[]',
				active BOOLEAN NOT NULL DEFAULT true,
				timeout BIGINT DEFAULT 0,
				created_at TIMESTAMPTZ NOT NULL DEFAULT now(),
				PRIMARY KEY (id)
			)"
     "DROP TABLE IF EXISTS webhooks" "";
   MkMigration 7 "create_deliveries"
     "CREATE TABLE IF NOT EXISTS deliveries (
				id TEXT NOT NULL,
				event_id TEXT NOT NULL,
				endpoint_id TEXT NOT NULL DEFAULT '',
				namespace TEXT NOT NULL DEFAULT 'default',
				status TEXT NOT NULL DEFAULT 'queued',
				attempts INT NOT NULL DEFAULT 0,
				last_status INT DEFAULT 0,
				last_error TEXT DEFAULT '',
				created_at TIMESTAMPTZ NOT NULL DEFAULT now(),
				attempted_at TIMESTAMPTZ,
				finished_at TIMESTAMPTZ,
				PRIMARY KEY (id)
			)"
     "DROP TABLE IF EXISTS deliveries" "";
   MkMigration 8 "create_deadletter_and_artifacts"
     "CREATE TABLE IF NOT EXISTS deadletter (
				id TEXT NOT NULL,
				namespace TEXT NOT NULL DEFAULT 'default',
				run_id TEXT NOT NULL,
				step_id TEXT NOT NULL,
				reason TEXT NOT NULL,
				payload JSONB DEFAULT '{}',
				failed_at TIMESTAMPTZ NOT NULL DEFAULT now(),
				PRIMARY KEY (id)
			);
			CREATE TABLE IF NOT EXISTS step_artifacts (
				id TEXT NOT NULL,
				namespace TEXT NOT NULL DEFAULT 'default',
				run_id TEXT NOT NULL,
				step_id TEXT NOT NULL,
				key TEXT NOT NULL,
				content_type TEXT NOT NULL DEFAULT 'application/octet-stream',
				size_bytes BIGINT NOT NULL DEFAULT 0,
				created_at TIMESTAMPTZ NOT NULL DEFAULT now(),
				PRIMARY KEY (id)
			);"
     "DROP TABLE IF EXISTS deadletter; DROP TABLE IF EXISTS step_artifacts;" ""].

Definition NewWithExecutor (exec : bool) : Migrator :=
  (Register default_migrations (MkMigrator exec DefaultAdvisoryLockID [])).2.

(** * The tracking table *)

Definition createTableSQL : string := "
		CREATE TABLE IF NOT EXISTS schema_migrations (
			version INT NOT NULL,
			name TEXT NOT NULL,
			checksum TEXT NOT NULL DEFAULT '',
			applied_at TIMESTAMPTZ NOT NULL DEFAULT now(),
			execution_time_ms BIGINT NOT NULL DEFAULT 0,
			PRIMARY KEY (version)
		)".
Definition querySQL : string := "SELECT version, name, checksum, applied_at, execution_time_ms FROM schema_migrations ORDER BY version ASC".
Definition insertSQL : string := "INSERT INTO schema_migrations (version, name, checksum, applied_at, execution_time_ms) VALUES ($1, $2, $3, $4, $5)".
Definition deleteSQL : string := "DELETE FROM schema_migrations WHERE version = $1".

Section migrator.
Context {db : Type} {E : Executor db}.

Definition ensureMigrationTable (s : db) : option error * db :=
  let '(r, s) := Exec createTableSQL [] s in
  (match r with Err err => Some err | Ok _ => None end, s).

(** The loop over the rows: the first row that cannot be scanned ends it. *)
Fixpoint scan_rows (rows : list (result error MigrationRecord)) (records : gmap Z MigrationRecord) :
    result error (gmap Z MigrationRecord) :=
  match rows with
  | [] => Ok records
  | Err err :: _ => Err err
  | Ok rec :: rows' => scan_rows rows' (<[mr_Version rec := rec]> records)
  end.

Definition loadAppliedMigrations (s : db) : result error (gmap Z MigrationRecord) * db :=
  let '(r, s) := Query querySQL s in
  match r with
  | Err err => (Err err, s)
  | Ok (rows, rows_err) =>
      match scan_rows rows ∅ with
      | Err err => (Err err, s)
      | Ok records => (match rows_err with Some err => Err err | None => Ok records end, s)
      end
  end.

(** * Migrate *)

Definition checksum_of (g : Migration) : string :=
  if bool_decide (g_Checksum g = "") then ComputeChecksum (g_Up g) else g_Checksum g.

Fixpoint verify (migrations : list Migration) (applied : gmap Z MigrationRecord) : option error :=
  match migrations with
  | [] => None
  | g :: rest =>
      match applied !! g_Version g with
      | Some rec =>
          if negb (bool_decide (mr_Checksum rec = "")) && negb (bool_decide (mr_Checksum rec = checksum_of g))
          then Some (EWrap "%w: migration %d (%s) expected %s, got %s"
                       [pretty (g_Version g); g_Name g; checksum_of g; mr_Checksum rec]
                       (ESentinel SChecksumMismatch))
          else verify rest applied
      | None => verify rest applied
      end
  end.

(** The clock before the script, after it, and when the record is written. *)
Context (clock : Z → Time * Time * Time).

Definition record_of (g : Migration) : MigrationRecord :=
  let '(start, stop, at_) := clock (g_Version g) in
  MkMigrationRecord (g_Version g) (g_Name g) (checksum_of g) at_ (Z.quot (time_sub stop start) millisecond).

Definition insert_args (rec : MigrationRecord) : list arg :=
  [AInt (mr_Version rec); AStr (mr_Name rec); AStr (mr_Checksum rec); ATime (mr_AppliedAt rec);
   AInt (mr_ExecutionTimeMs rec)].

Fixpoint apply_loop (migrations : list Migration) (applied : gmap Z MigrationRecord) (s : db) :
    option error * db :=
  match migrations with
  | [] => (None, s)
  | g :: rest =>
      match applied !! g_Version g with
      | Some _ => apply_loop rest applied s
      | None =>
          let '(r, s) := Exec (g_Up g) [] s in
          match r with
          | Err err => (Some (EWrap "apply migration %d (%s): %w" [pretty (g_Version g); g_Name g] err), s)
          | Ok _ =>
              let '(r, s) := Exec insertSQL (insert_args (record_of g)) s in
              match r with
              | Err err =>
                  (Some (EWrap "record migration %d (%s): %w" [pretty (g_Version g); g_Name g] err), s)
              | Ok _ => apply_loop rest applied s
              end
          end
      end
  end.

Definition migrate_locked (m : Migrator) (s : db) : option error * db :=
  let '(err, s) := ensureMigrationTable s in
  match err with
  | Some err => (Some (EWrap "ensure migration table: %w" [] err), s)
  | None =>
      let '(r, s) := loadAppliedMigrations s in
      match r with
      | Err err => (Some (EWrap "load applied migrations: %w" [] err), s)
      | Ok applied =>
          match verify (m_migrations m) applied with
          | Some err => (Some err, s)
          | None => apply_loop (m_migrations m) applied s
          end
      end
  end.

Definition Migrate (m : Migrator) (s : db) : option error * db :=
  if negb (m_exec m) then (Some (ESentinel SNilExecutor), s)
  else
    let '(err, s) := AcquireLock (m_lockID m) s in
    match err with
    | Some err => (Some (EWrap "acquire migration lock: %w" [] err), s)
    | None =>
        let '(res, s) := migrate_locked m s in
        let '(_, s) := ReleaseLock (m_lockID m) s in
        (res, s)
    end.

(** * Rollback *)

(** The inner loop of the sort: the largest of [x] and [l], and what the swaps leave behind. *)
Fixpoint exchange (x : Z) (l : list Z) : Z * list Z :=
  match l with
  | [] => (x, [])
  | y :: l' =>
      if (x <? y)%Z then let '(top, rest) := exchange y l' in (top, x :: rest)
      else let '(top, rest) := exchange x l' in (top, y :: rest)
  end.

Fixpoint sort_desc (n : nat) (l : list Z) : list Z :=
  match n, l with
  | S n', x :: l' => let '(top, rest) := exchange x l' in top :: sort_desc n' rest
  | _, _ => l
  end.

Definition migMap (migrations : list Migration) : gmap Z Migration :=
  foldl (λ m g, <[g_Version g := g]> m) ∅ migrations.

Fixpoint rollback_loop (versions : list Z) (steps : Z) (ms : gmap Z Migration) (rolledBack : Z) (s : db) :
    (Z * option error) * db :=
  match versions with
  | [] => ((rolledBack, None), s)
  | v :: rest =>
      if (steps <=? rolledBack)%Z then ((rolledBack, None), s)
      else match ms !! v with
      | None =>
          ((rolledBack, Some (EFmt "migration version %d not found in registered migrations" [pretty v])), s)
      | Some g =>
          if bool_decide (g_Down g = "") then
            ((rolledBack, Some (EFmt "migration %d (%s) has no Down SQL definition"
                                  [pretty (g_Version g); g_Name g])), s)
          else
            let '(r, s) := Exec (g_Down g) [] s in
            match r with
            | Err err =>
                ((rolledBack, Some (EWrap "rollback migration %d (%s): %w"
                                      [pretty (g_Version g); g_Name g] err)), s)
            | Ok _ =>
                let '(r, s) := Exec deleteSQL [AInt (g_Version g)] s in
                match r with
                | Err err =>
                    ((rolledBack, Some (EWrap "delete migration record %d (%s): %w"
                                          [pretty (g_Version g); g_Name g] err)), s)
                | Ok _ => rollback_loop rest steps ms (rolledBack + 1) s
                end
            end
      end
  end.

Context (sh : shuffle).

Definition rollback_locked (m : Migrator) (steps : Z) (s : db) : (Z * option error) * db :=
  let '(err, s) := ensureMigrationTable s in
  match err with
  | Some err => ((0%Z, Some err), s)
  | None =>
      let '(r, s) := loadAppliedMigrations s in
      match r with
      | Err err => ((0%Z, Some err), s)
      | Ok applied =>
          let versions := sh _ (map_to_list applied).*1 in
          rollback_loop (sort_desc (length versions) versions) steps (migMap (m_migrations m)) 0 s
      end
  end.

Definition Rollback (m : Migrator) (steps : Z) (s : db) : (Z * option error) * db :=
  if negb (m_exec m) then ((0%Z, Some (ESentinel SNilExecutor)), s)
  else if (steps <=? 0)%Z then ((0%Z, None), s)
  else
    let '(err, s) := AcquireLock (m_lockID m) s in
    match err with
    | Some err => ((0%Z, Some (EWrap "acquire migration lock: %w" [] err)), s)
    | None =>
        let '(res, s) := rollback_locked m steps s in
        let '(_, s) := ReleaseLock (m_lockID m) s in
        (res, s)
    end.

(** * Status *)

Definition status_of (applied : gmap Z MigrationRecord) (g : Migration) : MigrationStatus :=
  match applied !! g_Version g with
  | Some rec =>
      MkMigrationStatus (g_Version g) (g_Name g) (g_Checksum g) true (Some (mr_AppliedAt rec))
        (mr_ExecutionTimeMs rec)
  | None => MkMigrationStatus (g_Version g) (g_Name g) (g_Checksum g) false None 0
  end.

Definition Status (m : Migrator) (s : db) : result error (list MigrationStatus) * db :=
  if negb (m_exec m) then (Err (ESentinel SNilExecutor), s)
  else
    let '(err, s) := ensureMigrationTable s in
    match err with
    | Some err => (Err err, s)
    | None =>
        let '(r, s) := loadAppliedMigrations s in
        match r with
        | Err err => (Err err, s)
        | Ok applied => (Ok (status_of applied <$> m_migrations m), s)
        end
    end.
End migrator.
