(* ===== verification/MigrationFacts.v ===== *)
(** Migrations are applied once, in order, and recorded; a rollback undoes them.

    The theorems hold for every executor that treats the statements on the tracking table the
    way SQL documents them, and for migrations whose scripts leave that table alone on it; a database
    in memory is such an executor. *)
From stdpp Require Import pretty.
From S2P Require Import Prelude Errors Runes Strings Sha256 Migration.

(** The statements on the tracking table and on the locks; a statement that fails changes nothing.
    Nothing is said of other scripts, which may do anything.  [ran] lists those that were run. *)
Class ExecutorLaws (db : Type) `{Executor db} := {
  tracked : db → gmap Z MigrationRecord;
  ran : db → list string;
  tracked_version : ∀ s v rec, tracked s !! v = Some rec → mr_Version rec = v;
  create_law : ∀ s, tracked (Exec createTableSQL [] s).2 = tracked s ∧
    ran (Exec createTableSQL [] s).2 = ran s;
  query_law : ∀ s, tracked (Query querySQL s).2 = tracked s ∧ ran (Query querySQL s).2 = ran s ∧
    ∀ recs, (Query querySQL s).1 = Ok (Ok <$> recs, None) → recs ≡ₚ (map_to_list (tracked s)).*2;
  insert_law : ∀ s rec,
    match Exec insertSQL (insert_args rec) s with
    | (Ok _, s') => tracked s' = <[mr_Version rec := rec]> (tracked s) ∧ ran s' = ran s
    | (Err _, s') => tracked s' = tracked s ∧ ran s' = ran s
    end;
  delete_law : ∀ s v,
    match Exec deleteSQL [AInt v] s with
    | (Ok _, s') => tracked s' = delete v (tracked s) ∧ ran s' = ran s
    | (Err _, s') => tracked s' = tracked s ∧ ran s' = ran s
    end;
  acquire_law : ∀ s id, tracked (AcquireLock id s).2 = tracked s ∧ ran (AcquireLock id s).2 = ran s;
  release_law : ∀ s id, tracked (ReleaseLock id s).2 = tracked s ∧ ran (ReleaseLock id s).2 = ran s
}.

(** * Registration *)

(** The versions rise strictly. *)
Definition increasing (gs : list Migration) : Prop :=
  StronglySorted (λ a b, g_Version a < g_Version b)%Z gs.

Lemma increasing_snoc gs g :
  increasing gs → (∀ l, last gs = Some l → g_Version l < g_Version g)%Z → increasing (gs ++ [g]).
Proof.
  unfold increasing. induction 1 as [|a gs Hs IH Ha]; intros Hl; simpl.
  { constructor; [constructor|done]. }
  constructor.
  - apply IH. intros l H. apply Hl. destruct gs; [done|]. by rewrite last_cons_cons.
  - apply Forall_app. split; [done|]. apply Forall_singleton.
    destruct gs as [|b gs _] using rev_ind; [by apply Hl|].
    rewrite Forall_forall in Ha. assert (a_b : (g_Version a < g_Version b)%Z) by (apply Ha; set_solver).
    specialize (Hl b). rewrite app_comm_cons, last_snoc in Hl. specialize (Hl eq_refl). lia.
Qed.

Lemma with_checksum_Version g : g_Version (with_checksum g) = g_Version g.
Proof. unfold with_checksum. by case_bool_decide. Qed.

Lemma Register_increasing gs m :
  increasing (m_migrations m) → increasing (m_migrations (Register gs m).2).
Proof.
  revert m. induction gs as [|g gs IH]; intros m Hm; [done|]. cbn [Register].
  case_bool_decide; [done|]. case_bool_decide; [done|].
  destruct (last (m_migrations m)) as [l|] eqn:El.
  - destruct (Z.eqb_spec (g_Version g) (g_Version l)); [done|].
    destruct (Z.ltb_spec (g_Version g) (g_Version l)); [done|]. apply IH. simpl.
    apply increasing_snoc; [done|]. intros l' E. rewrite with_checksum_Version.
    assert (l' = l) as -> by congruence. lia.
  - apply IH. simpl. apply increasing_snoc; [done|]. intros l' E. congruence.
Qed.

(** Every migrator: the default migrations, then any calls of [Register]. *)
Definition migrator (calls : list (list Migration)) : Migrator :=
  foldl (λ m gs, (Register gs m).2) (NewWithExecutor true) calls.

Lemma migrator_increasing calls : increasing (m_migrations (migrator calls)).
Proof.
  unfold migrator. assert (increasing (m_migrations (NewWithExecutor true))) as H.
  { apply Register_increasing. constructor. }
  revert H. generalize (NewWithExecutor true). induction calls as [|gs calls IH]; intros m Hm; [done|].
  by apply IH, Register_increasing.
Qed.

Lemma Register_exec gs m : m_exec (Register gs m).2 = m_exec m.
Proof.
  revert m. induction gs as [|g gs IH]; intros m; [done|]. cbn [Register].
  case_bool_decide; [done|]. case_bool_decide; [done|].
  destruct (last (m_migrations m)) as [l|]; [|by rewrite IH].
  destruct (g_Version g =? g_Version l)%Z; [done|].
  destruct (g_Version g <? g_Version l)%Z; [done|]. by rewrite IH.
Qed.

Lemma migrator_exec calls : m_exec (migrator calls) = true.
Proof.
  unfold migrator. assert (m_exec (NewWithExecutor true) = true) as H by apply Register_exec.
  revert H. generalize (NewWithExecutor true). induction calls as [|gs calls IH]; intros m Hm; [done|].
  apply IH. by rewrite Register_exec.
Qed.

(** A script leaves the tracking table of this executor alone, whatever else it does. *)
Definition leaves_table (db : Type) `{ExecutorLaws db} (sql : string) : Prop :=
  ∀ s : db, match Exec sql [] s with
    | (Ok _, s') => tracked s' = tracked s ∧ ran s' = ran s ++ [sql]
    | (Err _, s') => tracked s' = tracked s ∧ ran s' = ran s
    end.

Definition plain (db : Type) `{ExecutorLaws db} (gs : list Migration) : Prop :=
  Forall (λ g, leaves_table db (g_Up g) ∧ leaves_table db (g_Down g)) gs.

(** * Applying *)

Section facts.
Context {db : Type} {E : Executor db} {L : ExecutorLaws db}.
Context (clock : Z → Time * Time * Time).

(** The registered migrations that are not recorded. *)
Definition pending (gs : list Migration) (t : gmap Z MigrationRecord) : list Migration :=
  filter (λ g, t !! g_Version g = None) gs.

Definition record_all (gs : list Migration) (t : gmap Z MigrationRecord) : gmap Z MigrationRecord :=
  foldl (λ t g, <[g_Version g := record_of clock g]> t) t gs.

Lemma record_of_version g : mr_Version (record_of clock g) = g_Version g.
Proof. unfold record_of. by destruct (clock (g_Version g)) as [[? ?] ?]. Qed.

Lemma scan_rows_Ok rows recs records :
  scan_rows rows recs = Ok records →
  ∃ l, rows = Ok <$> l ∧ records = foldl (λ m rec, <[mr_Version rec := rec]> m) recs l.
Proof.
  revert recs. induction rows as [|[rec|err] rows IH]; intros recs; simpl; [|intros Hs|done].
  - intros [= <-]. by exists [].
  - apply IH in Hs as (l & -> & ->). by exists (rec :: l).
Qed.

(** Loading gives the table. *)
Lemma load_spec (s : db) :
  tracked (loadAppliedMigrations s).2 = tracked s ∧ ran (loadAppliedMigrations s).2 = ran s ∧
  ∀ applied, (loadAppliedMigrations s).1 = Ok applied → applied = tracked s.
Proof.
  unfold loadAppliedMigrations. destruct (query_law s) as (H1 & H2 & H3).
  destruct (Query querySQL s) as [[[rows rerr]|err] s']; simpl in *; [|done].
  destruct (scan_rows rows ∅) as [records|err] eqn:Es; simpl; [|done].
  split_and!; [done|done|]. destruct rerr; [done|]. intros applied [= <-].
  apply scan_rows_Ok in Es as (l & -> & ->). specialize (H3 l eq_refl).
  assert (mr_Version <$> l ≡ₚ (map_to_list (tracked s)).*1) as Hv.
  { rewrite H3, <- list_fmap_compose. apply Permutation_refl', list_fmap_ext.
    intros i [v rec] Hi%list_elem_of_lookup_2%elem_of_map_to_list. simpl. by apply tracked_version in Hi. }
  assert (NoDup (mr_Version <$> l)) as Hnd by (rewrite Hv; apply NoDup_fst_map_to_list).
  apply map_eq. intros v. destruct (tracked s !! v) as [rec|] eqn:Ev.
  - rewrite <- (tracked_version s v rec Ev). apply (foldl_insert_lookup mr_Version (λ r, r)); [done|].
    rewrite H3. apply list_elem_of_fmap. exists (v, rec). split; [done|]. by apply elem_of_map_to_list.
  - rewrite (foldl_insert_other mr_Version (λ r, r)); [apply lookup_empty|]. rewrite Hv.
    rewrite list_elem_of_fmap. intros ([v' rec] & -> & Hin%elem_of_map_to_list). simpl in *. congruence.
Qed.
(** The applied migrations [p] of the pending ones, perhaps with one script more that was run
    and could not be recorded. *)
Definition applied_prefix (todo : list Migration) (s s' : db) : Prop :=
  ∃ p q, todo = p ++ q ∧ tracked s' = record_all p (tracked s) ∧
    (ran s' = ran s ++ (g_Up <$> p) ∨
     ∃ g q', q = g :: q' ∧ ran s' = ran s ++ (g_Up <$> p) ++ [g_Up g]).

Lemma apply_loop_spec gs applied (s : db) :
  plain db gs →
  let todo := pending gs applied in
  match apply_loop clock gs applied s with
  | (None, s') => tracked s' = record_all todo (tracked s) ∧ ran s' = ran s ++ (g_Up <$> todo)
  | (Some _, s') => applied_prefix todo s s'
  end.
Proof.
  intros Hp. revert s. induction Hp as [|g gs [Hup _] _ IH]; intros s; cbn [apply_loop].
  { by rewrite app_nil_r. }
  unfold pending. rewrite filter_cons. fold (pending gs applied).
  destruct (applied !! g_Version g) as [rec|] eqn:Ev.
  { rewrite decide_False by done. apply IH. }
  rewrite decide_True by done. pose proof (Hup s) as Hs.
  destruct (Exec (g_Up g) [] s) as [[n|err] s1].
  2: { destruct Hs as [H1 H2]. exists [], (g :: pending gs applied). split_and!; [done|done|].
       left. by rewrite app_nil_r. }
  destruct Hs as [H1 H2]. pose proof (insert_law s1 (record_of clock g)) as Hi.
  destruct (Exec insertSQL _ s1) as [[n'|err] s2]; destruct Hi as [H3 H4].
  2: { exists [], (g :: pending gs applied). split_and!; [done|by rewrite H3|].
       right. exists g, (pending gs applied). split; [done|]. by rewrite H4. }
  assert (tracked s2 = <[g_Version g := record_of clock g]> (tracked s)) as H5
    by (by rewrite H3, H1, record_of_version).
  specialize (IH s2). destruct (apply_loop clock gs applied s2) as [[err|] s'].
  - destruct IH as (p & q & Hpq & Ht & Hr). exists (g :: p), q. split_and!.
    + simpl. by rewrite Hpq.
    + by rewrite Ht, H5.
    + rewrite H4, H2 in Hr. destruct Hr as [->|(g' & q' & -> & ->)].
      * left. by rewrite <- app_assoc.
      * right. exists g', q'. by rewrite <- app_assoc.
  - destruct IH as [Ht Hr]. split; [by rewrite Ht, H5|].
    by rewrite Hr, H4, H2, <- app_assoc.
Qed.

Lemma record_all_lookup p t v :
  record_all p t !! v = None ↔ t !! v = None ∧ v ∉ g_Version <$> p.
Proof.
  unfold record_all. destruct (decide (v ∈ g_Version <$> p)) as [Hv|Hv].
  - destruct (foldl_insert_in g_Version (record_of clock) p t v Hv) as (g & _ & _ & ->). naive_solver.
  - rewrite (foldl_insert_other g_Version (record_of clock)) by done. naive_solver.
Qed.

Lemma increasing_NoDup gs : increasing gs → NoDup (g_Version <$> gs).
Proof.
  induction 1 as [|g gs _ IH Hall]; csimpl; [constructor|]. apply NoDup_cons. split; [|done].
  intros (g' & Eg & Hin)%list_elem_of_fmap. rewrite Forall_forall in Hall. specialize (Hall g' Hin). lia.
Qed.

(** What is left to do after a prefix was recorded. *)
Lemma pending_rest gs t p q :
  increasing gs → pending gs t = p ++ q → pending gs (record_all p t) = q.
Proof.
  intros Hi Hpq. transitivity (filter (λ g, g_Version g ∉ g_Version <$> p) (pending gs t)).
  - unfold pending. rewrite list_filter_filter. apply list_filter_iff. intros g.
    rewrite record_all_lookup. tauto.
  - rewrite Hpq, filter_app. assert (NoDup (g_Version <$> (p ++ q))) as Hnd.
    { rewrite <- Hpq. eapply sublist_NoDup; [by apply increasing_NoDup|].
      apply fmap_sublist, sublist_filter. }
    rewrite fmap_app in Hnd. apply NoDup_app in Hnd as (_ & Hdis & _).
    assert (filter (λ g, g_Version g ∉ g_Version <$> p) p = []) as ->.
    { apply elem_of_nil_inv. intros g [Hn Hg]%list_elem_of_filter. by apply Hn, list_elem_of_fmap_2. }
    simpl. clear Hpq. induction q as [|g q IH]; [done|]. rewrite filter_cons, decide_True.
    + f_equal. apply IH. intros v Hv Hq. apply (Hdis v Hv). csimpl. by right.
    + intros Hg. apply (Hdis _ Hg). csimpl. by left.
Qed.

Lemma verify_None gs applied g rec :
  verify gs applied = None → g ∈ gs → applied !! g_Version g = Some rec →
  mr_Checksum rec = "" ∨ mr_Checksum rec = checksum_of g.
Proof.
  induction gs as [|g' gs IH]; simpl; [set_solver|]. intros Hv [->|Hg]%elem_of_cons Hrec.
  - rewrite Hrec in Hv. repeat case_bool_decide; [by left|by left|by right|done].
  - destruct (applied !! g_Version g') as [rec'|]; [|by apply IH].
    destruct (negb _ && negb _); [done|by apply IH].
Qed.

Lemma migrate_locked_spec m (s : db) :
  plain db (m_migrations m) →
  let todo := pending (m_migrations m) (tracked s) in
  match migrate_locked clock m s with
  | (None, s') => tracked s' = record_all todo (tracked s) ∧ ran s' = ran s ++ (g_Up <$> todo) ∧
      ∀ g rec, g ∈ m_migrations m → tracked s !! g_Version g = Some rec →
        mr_Checksum rec = "" ∨ mr_Checksum rec = checksum_of g
  | (Some _, s') => applied_prefix todo s s'
  end.
Proof.
  intros Hp todo. unfold migrate_locked, ensureMigrationTable.
  assert (∀ s', tracked s' = tracked s → ran s' = ran s → applied_prefix todo s s') as Hnone.
  { intros s' H1 H2. exists [], todo. split_and!; [done|done|]. left. by rewrite app_nil_r. }
  destruct (create_law s) as [C1 C2]. destruct (Exec createTableSQL [] s) as [[n|err] s1]; simpl in *;
    [|by apply Hnone].
  destruct (load_spec s1) as (L1 & L2 & L3). destruct (loadAppliedMigrations s1) as [[applied|err] s2];
    simpl in *; [|apply Hnone; congruence].
  specialize (L3 applied eq_refl) as ->. rewrite C1.
  destruct (verify (m_migrations m) (tracked s)) eqn:Hv; [apply Hnone; congruence|].
  pose proof (apply_loop_spec (m_migrations m) (tracked s) s2 Hp) as Ha. fold todo in Ha.
  destruct (apply_loop clock (m_migrations m) (tracked s) s2) as [[err|] s3].
  - destruct Ha as (p & q & Hpq & Ht & Hr). exists p, q. split_and!; [done|congruence|].
    by rewrite L2, C2 in Hr.
  - destruct Ha as [Ht Hr]. split_and!; [congruence|by rewrite Hr, L2, C2|].
    intros g rec. by apply verify_None.
Qed.
End facts.

(** Pending migrations are applied once, in rising order, and recorded.  For every executor
    that follows the laws and all registered migrations, a run of [Migrate] that succeeds has run
    exactly the scripts of the migrations that were not recorded, in the order of their versions,
    recorded each of them, found the checksums of the others as recorded, and left nothing
    pending.  A run that fails has done so for a first part of them and leaves the rest pending;
    at most the script of the next one was run without being recorded. *)
Theorem Migrate_applies_pending {db} `{L : ExecutorLaws db} clock calls (s : db) :
  let m := migrator calls in
  plain db (m_migrations m) →
  let todo t := pending (m_migrations m) t in
  match Migrate clock m s with
  | (None, s') =>
      ran s' = ran s ++ (g_Up <$> todo (tracked s)) ∧ todo (tracked s') = [] ∧
      tracked s' = record_all clock (todo (tracked s)) (tracked s) ∧
      (∀ g rec, g ∈ m_migrations m → tracked s !! g_Version g = Some rec →
        mr_Checksum rec = "" ∨ mr_Checksum rec = checksum_of g)
  | (Some _, s') =>
      ∃ p q, todo (tracked s) = p ++ q ∧ todo (tracked s') = q ∧
        tracked s' = record_all clock p (tracked s) ∧
        (ran s' = ran s ++ (g_Up <$> p) ∨
         ∃ g q', q = g :: q' ∧ ran s' = ran s ++ (g_Up <$> p) ++ [g_Up g])
  end.
Proof.
  intros m Hp todo. unfold Migrate. unfold m. rewrite migrator_exec. fold m. simpl.
  assert (increasing (m_migrations m)) as Hi by apply migrator_increasing.
  destruct (acquire_law s (m_lockID m)) as [A1 A2].
  destruct (AcquireLock (m_lockID m) s) as [[err|] s1]; simpl in *.
  { exists [], (todo (tracked s)). split_and!; [done|by rewrite A1|done|]. left. by rewrite app_nil_r. }
  pose proof (migrate_locked_spec clock m s1 Hp) as Hm. rewrite A1 in Hm.
  destruct (migrate_locked clock m s1) as [res s2].
  destruct (release_law s2 (m_lockID m)) as [R1 R2].
  destruct (ReleaseLock (m_lockID m) s2) as [rerr s3]. simpl in *. destruct res as [err|].
  - destruct Hm as (p & q & Hpq & Ht & Hr). exists p, q. rewrite A1 in Ht. split_and!; [done| |congruence|].
    + rewrite R1, Ht. by apply pending_rest.
    + by rewrite R2, <- A2.
  - destruct Hm as (Ht & Hr & Hc). split_and!; [by rewrite R2, Hr, A2| |by rewrite R1, Ht|done].
    rewrite R1, Ht. apply pending_rest; [done|]. by rewrite app_nil_r.
Qed.

(** * Rolling back *)

Lemma exchange_spec x l :
  let '(top, rest) := exchange x l in
  x :: l ≡ₚ top :: rest ∧ (x <= top)%Z ∧ Forall (λ y, y <= top)%Z rest.
Proof.
  revert x. induction l as [|y l IH]; intros x; simpl; [done|].
  destruct (Z.ltb_spec x y) as [Hlt|Hge].
  - specialize (IH y). destruct (exchange y l) as [top rest]. destruct IH as (Hp & Hy & Hall).
    split_and!; [by rewrite Hp, Permutation_swap|lia|]. constructor; [lia|done].
  - specialize (IH x). destruct (exchange x l) as [top rest]. destruct IH as (Hp & Hx & Hall).
    split_and!; [by rewrite Permutation_swap, Hp, Permutation_swap|lia|]. constructor; [lia|done].
Qed.

Lemma sort_desc_spec n l :
  length l <= n → sort_desc n l ≡ₚ l ∧ StronglySorted (λ a b, b <= a)%Z (sort_desc n l).
Proof.
  revert l. induction n as [|n IH]; intros [|x l] Hn; simpl in *; try (by split; [|constructor]); [lia|].
  pose proof (exchange_spec x l) as He. destruct (exchange x l) as [top rest].
  destruct He as (Hp & _ & Hall).
  assert (length rest <= n) as Hr by (apply Permutation_length in Hp; simpl in Hp; lia).
  destruct (IH rest Hr) as [Hp' Hs]. split; [by rewrite Hp', Hp|]. constructor; [done|].
  by rewrite Hp'.
Qed.

Lemma migMap_lookup gs g : NoDup (g_Version <$> gs) → g ∈ gs → migMap gs !! g_Version g = Some g.
Proof. apply (foldl_insert_lookup g_Version (λ g, g)). Qed.

Lemma migMap_Some gs v g : migMap gs !! v = Some g → g ∈ gs ∧ g_Version g = v.
Proof.
  intros Hm. apply (foldl_insert_Some g_Version (λ g, g)) in Hm as (g' & Hin & Hv & <-). done.
Qed.

Definition forget_all (gs : list Migration) (t : gmap Z MigrationRecord) : gmap Z MigrationRecord :=
  foldl (λ t g, delete (g_Version g) t) t gs.

Section rollback.
Context {db : Type} {E : Executor db} {L : ExecutorLaws db}.

(** A rollback that succeeds has undone a first part of the versions: all, or as many as asked. *)
Lemma rollback_loop_spec gs vs steps k (s : db) :
  plain db gs → (k <= steps)%Z →
  match rollback_loop vs steps (migMap gs) k s with
  | ((k', None), s') => ∃ done rest,
      vs = (g_Version <$> done) ++ rest ∧ (∀ g, g ∈ done → migMap gs !! g_Version g = Some g) ∧
      k' = (k + Z.of_nat (length done))%Z ∧ (k' <= steps)%Z ∧ (rest = [] ∨ k' = steps) ∧
      tracked s' = forget_all done (tracked s) ∧ ran s' = ran s ++ (g_Down <$> done)
  | ((_, Some _), _) => True
  end.
Proof.
  intros Hplain. revert k s. induction vs as [|v vs IH]; intros k s Hk; cbn [rollback_loop].
  { exists [], []. split_and!; [done|set_solver|simpl; lia|done|by left|done|by rewrite app_nil_r]. }
  destruct (Z.leb_spec steps k) as [Hle|Hlt].
  { exists [], (v :: vs). split_and!; [done|set_solver|simpl; lia|done|right; lia|done|].
    by rewrite app_nil_r. }
  destruct (migMap gs !! v) as [g|] eqn:Eg; [|done]. case_bool_decide; [done|].
  destruct (migMap_Some gs v g Eg) as [Hin Hv].
  destruct (proj1 (Forall_forall _ gs) Hplain g Hin) as [_ Hdown].
  pose proof (Hdown s) as Hs. destruct (Exec (g_Down g) [] s) as [[n|err] s1]; [|done].
  destruct Hs as [H1 H2]. pose proof (delete_law s1 (g_Version g)) as Hd.
  destruct (Exec deleteSQL [AInt (g_Version g)] s1) as [[n'|err] s2]; [|done]. destruct Hd as [H3 H4].
  specialize (IH (k + 1)%Z s2 ltac:(lia)).
  destruct (rollback_loop vs steps (migMap gs) (k + 1) s2) as [[k' [err|]] s']; [done|].
  destruct IH as (gone & rest & -> & Hg & -> & Hst & Hrest & Ht & Hr).
  exists (g :: gone), rest. split_and!.
  - csimpl. by rewrite Hv.
  - intros g' [->|Hg']%elem_of_cons; [by rewrite Hv|by apply Hg].
  - simpl. lia.
  - done.
  - done.
  - by rewrite Ht, H3, H1.
  - by rewrite Hr, H4, H2, <- app_assoc.
Qed.
End rollback.

Lemma forget_all_lookup gs t v :
  forget_all gs t !! v = if decide (v ∈ g_Version <$> gs) then None else t !! v.
Proof.
  unfold forget_all. revert t. induction gs as [|g gs IH]; intros t; [done|]. cbn [foldl]. rewrite IH.
  rewrite fmap_cons. destruct (decide (v = g_Version g)) as [->|Hne].
  - rewrite lookup_delete_eq. rewrite (decide_True (P := g_Version g ∈ g_Version g :: _)) by set_solver.
    by case_decide.
  - rewrite lookup_delete_ne by done. destruct (decide (v ∈ g_Version <$> gs)).
    + by rewrite decide_True by set_solver.
    + by rewrite decide_False by set_solver.
Qed.

(** Forgetting what was recorded. *)
Lemma forget_record clock gs p t :
  p = pending gs t → forget_all (reverse p) (record_all clock p t) = t.
Proof.
  intros ->. apply map_eq. intros v. rewrite forget_all_lookup.
  assert (v ∈ g_Version <$> reverse (pending gs t) ↔ v ∈ g_Version <$> pending gs t) as Hrev
    by (rewrite fmap_reverse; by rewrite elem_of_reverse).
  destruct (decide (v ∈ g_Version <$> reverse (pending gs t))) as [Hv|Hv].
  - apply Hrev, list_elem_of_fmap in Hv as (g & -> & Hg). by apply list_elem_of_filter in Hg as [-> _].
  - rewrite Hrev in Hv. unfold record_all. by apply (foldl_insert_other g_Version (record_of clock)).
Qed.

Lemma increasing_reverse gs :
  increasing gs → StronglySorted (λ a b, b <= a)%Z (reverse (g_Version <$> gs)).
Proof.
  induction 1 as [|g gs _ IH Hall]; [constructor|]. rewrite fmap_cons, reverse_cons.
  apply StronglySorted_app. split_and!; [|done|repeat constructor].
  intros a b Ha ->%list_elem_of_singleton. rewrite elem_of_reverse, list_elem_of_fmap in Ha.
  destruct Ha as (g' & -> & Hg'). rewrite Forall_forall in Hall. specialize (Hall g' Hg'). lia.
Qed.

Lemma increasing_pending gs t : increasing gs → increasing (pending gs t).
Proof.
  unfold pending. induction 1 as [|g gs Hs IH Hall]; [constructor|]. rewrite filter_cons.
  case_decide; [|done]. constructor; [done|]. rewrite Forall_forall in *.
  intros g' [_ Hg']%list_elem_of_filter. by apply Hall.
Qed.

Lemma record_all_is_Some clock p t v :
  is_Some (record_all clock p t !! v) ↔ is_Some (t !! v) ∨ v ∈ g_Version <$> p.
Proof.
  rewrite <- !not_eq_None_Some, record_all_lookup. destruct (decide (v ∈ g_Version <$> p)),
    (t !! v); naive_solver.
Qed.

(** The versions of the table after migrating, in falling order: first those just applied. *)
Lemma versions_after clock gs t vs :
  increasing gs →
  (∀ v g, is_Some (t !! v) → g ∈ pending gs t → v < g_Version g)%Z →
  vs ≡ₚ (map_to_list (record_all clock (pending gs t) t)).*1 →
  StronglySorted (λ a b, b <= a)%Z vs →
  ∃ rest, vs = (g_Version <$> reverse (pending gs t)) ++ rest.
Proof.
  intros Hinc Hlt Hvs Hsort. set (p := pending gs t) in *.
  set (old := sort_desc (size t) (map_to_list t).*1).
  destruct (sort_desc_spec (size t) (map_to_list t).*1) as [Ho1 Ho2].
  { by rewrite length_fmap, length_map_to_list. }
  fold old in Ho1, Ho2. exists old.
  assert (increasing p) as Hp by (by apply increasing_pending).
  assert (∀ v, v ∈ old ↔ is_Some (t !! v)) as Hold.
  { intros v. rewrite Ho1, list_elem_of_fmap. split.
    - intros ([v' r] & -> & Hin%elem_of_map_to_list). eauto.
    - intros [r Hr]. exists (v, r). split; [done|]. by apply elem_of_map_to_list. }
  assert (∀ a b, a ∈ g_Version <$> reverse p → b ∈ old → (b < a)%Z) as Hab.
  { intros a b (g & -> & Hg)%list_elem_of_fmap Hb%Hold. rewrite elem_of_reverse in Hg. by apply Hlt. }
  assert (AntiSymm (=) (λ a b : Z, b <= a)%Z) by (intros a b ? ?; lia).
  apply (StronglySorted_unique (λ a b, b <= a)%Z); [done| |].
  - apply StronglySorted_app. split_and!; [|by rewrite fmap_reverse; apply increasing_reverse|done].
    intros a b Ha Hb. specialize (Hab a b Ha Hb). lia.
  - rewrite Hvs. apply NoDup_Permutation; [apply NoDup_fst_map_to_list| |].
    + apply NoDup_app. split_and!.
      * rewrite fmap_reverse, reverse_Permutation. by apply increasing_NoDup.
      * intros v Hv Ho. specialize (Hab v v Hv Ho). lia.
      * rewrite Ho1. apply NoDup_fst_map_to_list.
    + intros v. rewrite elem_of_app, Hold, fmap_reverse, elem_of_reverse, list_elem_of_fmap.
      pose proof (record_all_is_Some clock p t v) as Hs. split.
      * intros ([v' r] & -> & Hin%elem_of_map_to_list). simpl in *.
        apply or_comm, Hs. eauto.
      * intros [r Hr]%or_comm%Hs. exists (v, r). split; [done|]. by apply elem_of_map_to_list.
Qed.

Section calls.
Context {db : Type} {E : Executor db} {L : ExecutorLaws db}.

Lemma Migrate_Ok clock m (s s' : db) :
  m_exec m = true → plain db (m_migrations m) → Migrate clock m s = (None, s') →
  let todo := pending (m_migrations m) (tracked s) in
  tracked s' = record_all clock todo (tracked s) ∧ ran s' = ran s ++ (g_Up <$> todo).
Proof.
  intros He Hp Hm. unfold Migrate in Hm. rewrite He in Hm. simpl in Hm.
  destruct (acquire_law s (m_lockID m)) as [A1 A2].
  destruct (AcquireLock (m_lockID m) s) as [[err|] s1]; simpl in *; [done|].
  pose proof (migrate_locked_spec clock m s1 Hp) as Hs. rewrite A1 in Hs.
  destruct (migrate_locked clock m s1) as [res s2].
  destruct (release_law s2 (m_lockID m)) as [R1 R2].
  destruct (ReleaseLock (m_lockID m) s2) as [rerr s3]. simpl in *. injection Hm as -> <-.
  destruct Hs as (Hs1 & Hs2 & _). split; [by rewrite R1, Hs1|by rewrite R2, Hs2, A2].
Qed.

Lemma Rollback_Ok sh m steps n (s s' : db) :
  m_exec m = true → plain db (m_migrations m) → (0 < steps)%Z →
  Rollback sh m steps s = ((n, None), s') →
  ∃ gone rest,
    (g_Version <$> gone) ++ rest ≡ₚ (map_to_list (tracked s)).*1 ∧
    StronglySorted (λ a b, b <= a)%Z ((g_Version <$> gone) ++ rest) ∧
    (∀ g, g ∈ gone → migMap (m_migrations m) !! g_Version g = Some g) ∧
    n = Z.of_nat (length gone) ∧ (n <= steps)%Z ∧ (rest = [] ∨ n = steps) ∧
    tracked s' = forget_all gone (tracked s) ∧ ran s' = ran s ++ (g_Down <$> gone).
Proof.
  intros He Hp Hsteps Hr. unfold Rollback in Hr. rewrite He in Hr. simpl in Hr.
  rewrite (proj2 (Z.leb_gt _ _)) in Hr by done.
  destruct (acquire_law s (m_lockID m)) as [A1 A2].
  destruct (AcquireLock (m_lockID m) s) as [[err|] s1]; simpl in *; [done|].
  destruct (rollback_locked sh m steps s1) as [res s2] eqn:Hl.
  destruct (release_law s2 (m_lockID m)) as [R1 R2].
  destruct (ReleaseLock (m_lockID m) s2) as [rerr s3]. simpl in *. injection Hr as -> <-.
  unfold rollback_locked, ensureMigrationTable in Hl.
  destruct (create_law s1) as [C1 C2]. destruct (Exec createTableSQL [] s1) as [[z|err] s4]; simpl in *; [|done].
  destruct (load_spec s4) as (L1 & L2 & L3).
  destruct (loadAppliedMigrations s4) as [[applied|err] s5]; simpl in *; [|done].
  specialize (L3 applied eq_refl) as ->. set (vs := sh _ (map_to_list (tracked s4)).*1) in Hl.
  destruct (sort_desc_spec (length vs) vs (le_n _)) as [D1 D2].
  pose proof (rollback_loop_spec (m_migrations m) (sort_desc (length vs) vs) steps 0 s5 Hp ltac:(lia)) as Hs.
  rewrite Hl in Hs. destruct Hs as (gone & rest & Hvs & Hg & Hn & Hst & Hrest & Ht & Hr).
  exists gone, rest. rewrite Hvs in D1, D2. split_and!; [|done|done|lia|done|done| |].
  - rewrite D1. unfold vs. rewrite (shuffle_perm sh). by rewrite C1, A1.
  - by rewrite R1, Ht, L1, C1, A1.
  - by rewrite R2, Hr, L2, C2, A2.
Qed.
End calls.

(** C28: A rollback undoes a migration.  When no script of a registered migration touches the
    tracking table, the migrations that were pending are newer than the recorded ones, and a run of
    [Migrate] and a rollback of as many steps both succeed, the tracking table is what it was, the scripts that undo the migrations were run in falling order
    of versions, each once, and their number is reported. *)
Theorem rollback_undoes_migrate {db} `{L : ExecutorLaws db} clock sh calls (s s1 s2 : db) n :
  let m := migrator calls in
  let todo := pending (m_migrations m) (tracked s) in
  plain db (m_migrations m) →
  (∀ v g, is_Some (tracked s !! v) → g ∈ todo → v < g_Version g)%Z →
  Migrate clock m s = (None, s1) →
  Rollback sh m (Z.of_nat (length todo)) s1 = ((n, None), s2) →
  tracked s2 = tracked s ∧ n = Z.of_nat (length todo) ∧
  ran s2 = ran s ++ (g_Up <$> todo) ++ (g_Down <$> reverse todo).
Proof.
  intros m todo Hp Hlt Hm Hr. pose proof (migrator_exec calls) as He. fold m in He.
  assert (increasing (m_migrations m)) as Hi by apply migrator_increasing.
  destruct (Migrate_Ok clock m s s1 He Hp Hm) as [Ht1 Hr1]. fold todo in Ht1, Hr1.
  destruct (decide (todo = [])) as [E0|Hne].
  { unfold Rollback in Hr. rewrite He, E0 in Hr. simpl in Hr. injection Hr as <- <-.
    rewrite Ht1, Hr1, E0. by rewrite !app_nil_r. }
  assert (0 < Z.of_nat (length todo))%Z as Hpos by (destruct todo; [done|simpl; lia]).
  destruct (Rollback_Ok sh m _ n s1 s2 He Hp Hpos Hr)
    as (gone & rest & Hperm & Hsort & Hg & Hn & Hle & Hrest & Ht2 & Hr2).
  rewrite Ht1 in Hperm.
  destruct (versions_after clock (m_migrations m) (tracked s) _ Hi Hlt Hperm Hsort) as [rest' Hvs].
  fold todo in Hvs.
  assert (length gone = length todo) as Hlen.
  { destruct Hrest as [->|Hn']; [|lia].
    apply (f_equal length) in Hvs. rewrite app_nil_r, length_app, !length_fmap, length_reverse in Hvs. lia. }
  apply app_inj_1 in Hvs as [Hvs _]; [|by rewrite !length_fmap, length_reverse].
  assert (gone = reverse todo) as ->.
  { assert (∀ g, g ∈ reverse todo → migMap (m_migrations m) !! g_Version g = Some g) as Hg'.
    { intros g Hin. rewrite elem_of_reverse in Hin. apply list_elem_of_filter in Hin as [_ Hin].
      apply migMap_lookup; [by apply increasing_NoDup|done]. }
    revert Hvs Hg Hg'. clear. generalize (reverse todo). induction gone as [|g gone IH]; intros [|g' l]; try done.
    csimpl. intros [= Ev Evs] Hg Hg'. f_equal.
    - pose proof (Hg g ltac:(by left)) as E1. pose proof (Hg' g' ltac:(by left)) as E2. congruence.
    - apply IH; [done| |]; intros x Hx; [apply Hg|apply Hg']; by right. }
  split_and!; [|by rewrite Hn, Hlen|by rewrite Hr2, Hr1, <- app_assoc].
  rewrite Ht2, Ht1. by apply (forget_record clock (m_migrations m)).
Qed.

(** * A database in memory *)

Record memdb := MkMemdb {
  md_rows : list MigrationRecord;
  md_ran : list string;
  md_locked : bool
}.

Definition md_table (s : memdb) : gmap Z MigrationRecord :=
  list_to_map ((λ r, (mr_Version r, r)) <$> md_rows s).

Definition md_Exec (sql : string) (args : list arg) (s : memdb) : result error Z * memdb :=
  if bool_decide (sql = createTableSQL) || bool_decide (sql = querySQL) then (Ok 0%Z, s)
  else if bool_decide (sql = insertSQL) then
    match args with
    | [AInt v; AStr n; AStr c; ATime t; AInt ms] =>
        match md_table s !! v with
        | Some _ => (Err (EFmt "duplicate key value violates unique constraint" []), s)
        | None =>
            (Ok 1%Z, MkMemdb (MkMigrationRecord v n c t ms :: md_rows s) (md_ran s) (md_locked s))
        end
    | _ => (Err (EFmt "wrong number of arguments" []), s)
    end
  else if bool_decide (sql = deleteSQL) then
    match args with
    | [AInt v] =>
        (Ok 1%Z, MkMemdb (filter (λ r, mr_Version r ≠ v) (md_rows s)) (md_ran s) (md_locked s))
    | _ => (Err (EFmt "wrong number of arguments" []), s)
    end
  else (Ok 0%Z, MkMemdb (md_rows s) (md_ran s ++ [sql]) (md_locked s)).

#[export] Instance memdb_Executor : Executor memdb := {|
  Exec := md_Exec;
  Query _ s := (Ok (Ok <$> (map_to_list (md_table s)).*2, None), s);
  AcquireLock _ s :=
    if md_locked s then (Some (ESentinel SLockAcquisitionFailed), s)
    else (None, MkMemdb (md_rows s) (md_ran s) true);
  ReleaseLock _ s := (None, MkMemdb (md_rows s) (md_ran s) false)
|}.

Lemma md_table_delete rows v :
  (list_to_map ((λ r, (mr_Version r, r)) <$> filter (λ r, mr_Version r ≠ v) rows)
    : gmap Z MigrationRecord) =
  delete v (list_to_map ((λ r, (mr_Version r, r)) <$> rows)).
Proof.
  induction rows as [|r rows IH]; [simpl; by rewrite delete_empty|]. rewrite filter_cons. csimpl.
  destruct (decide (mr_Version r ≠ v)) as [Hne|Heq].
  - csimpl. rewrite IH. by rewrite delete_insert_ne.
  - apply dec_stable in Heq as ->. by rewrite IH, delete_insert_eq.
Qed.

#[export] Program Instance memdb_laws : ExecutorLaws memdb := {|
  tracked := md_table;
  ran := md_ran
|}.
Next Obligation.
  intros s v rec Hr. apply elem_of_list_to_map_2, list_elem_of_fmap in Hr as (r & [= -> ->] & _). done.
Qed.
Next Obligation. done. Qed.
Next Obligation.
  intros s. simpl. split_and!; [done|done|]. intros recs [= E].
  assert (∀ l l' : list MigrationRecord, (Ok <$> l : list (result error MigrationRecord)) = Ok <$> l' → l = l')
    as Hinj.
  { induction l as [|r l IH]; intros [|r' l']; try done. csimpl. intros [= -> El]. by rewrite (IH l'). }
  by apply Hinj in E as <-.
Qed.
Next Obligation.
  intros s [v n c t ms]. unfold Exec, memdb_Executor, md_Exec, insert_args. cbn [mr_Version mr_Name mr_Checksum
    mr_AppliedAt mr_ExecutionTimeMs].
  rewrite (bool_decide_eq_false_2 (insertSQL = createTableSQL)) by done.
  rewrite (bool_decide_eq_false_2 (insertSQL = querySQL)) by done.
  rewrite (bool_decide_eq_true_2 (insertSQL = insertSQL)) by done. cbn [orb].
  by destruct (md_table s !! v).
Qed.
Next Obligation.
  intros s v. unfold Exec, memdb_Executor, md_Exec.
  rewrite (bool_decide_eq_false_2 (deleteSQL = createTableSQL)) by done.
  rewrite (bool_decide_eq_false_2 (deleteSQL = querySQL)) by done.
  rewrite (bool_decide_eq_false_2 (deleteSQL = insertSQL)) by done.
  rewrite (bool_decide_eq_true_2 (deleteSQL = deleteSQL)) by done. cbn [orb].
  split; [|done]. apply md_table_delete.
Qed.
Next Obligation. intros s id. simpl. by destruct (md_locked s). Qed.
Next Obligation. done. Qed.

Definition steady_clock (v : Z) : Time * Time * Time := (v * second, v * second + 5000000, v * second + 6000000)%Z.
Definition empty_db : memdb := MkMemdb [] [] false.

(** The default migrations with their checksums. *)
Definition default_migrator : Migrator := Eval vm_compute in migrator [].

Lemma default_migrator_eq : migrator [] = default_migrator.
Proof. vm_compute. reflexivity. Qed.

Lemma memdb_leaves_table sql :
  sql ∉ [createTableSQL; querySQL; insertSQL; deleteSQL] → leaves_table memdb sql.
Proof.
  intros Hsql s. unfold Exec, memdb_Executor, md_Exec. rewrite !not_elem_of_cons in Hsql.
  destruct Hsql as (H1 & H2 & H3 & H4 & _). by rewrite !bool_decide_eq_false_2.
Qed.

Lemma default_plain : plain memdb (m_migrations (migrator [])).
Proof.
  rewrite default_migrator_eq.
  apply (Forall_impl (λ g, (g_Up g ∉ [createTableSQL; querySQL; insertSQL; deleteSQL]) ∧
                           (g_Down g ∉ [createTableSQL; querySQL; insertSQL; deleteSQL]))).
  - apply (bool_decide_unpack _). vm_compute. exact I.
  - intros g [Hup Hdown]. split; by apply memdb_leaves_table.
Qed.

Definition migrated_db : memdb := (Migrate steady_clock default_migrator empty_db).2.

Lemma Migrate_applies_pending_witness :
  pending (m_migrations default_migrator) (tracked migrated_db) = [] ∧ length (ran migrated_db) = 8.
Proof.
  pose proof (Migrate_applies_pending steady_clock [] empty_db default_plain) as Hm.
  rewrite default_migrator_eq in Hm.
  assert (Migrate steady_clock default_migrator empty_db = (None, migrated_db)) as E
    by (vm_compute; reflexivity).
  rewrite E in Hm. destruct Hm as (Hr & Hp & _). split; [exact Hp|]. rewrite Hr. vm_compute. reflexivity.
Defined.

Definition rolled_back_db : memdb := (Rollback shuffle_id default_migrator 8 migrated_db).2.

Lemma rollback_undoes_migrate_witness :
  tracked rolled_back_db = ∅ ∧ length (ran rolled_back_db) = 16.
Proof.
  pose proof (rollback_undoes_migrate steady_clock shuffle_id [] empty_db migrated_db rolled_back_db 8 default_plain)
    as Hu.
  rewrite default_migrator_eq in Hu. destruct Hu as (Ht & _ & Hr).
  - intros v g [r Hr]. vm_compute in Hr. discriminate Hr.
  - vm_compute. reflexivity.
  - vm_compute. reflexivity.
  - split; [exact Ht|]. rewrite Hr. vm_compute. reflexivity.
Defined.
