(* ===== verification/Approval.v ===== *)
(** Approval gates: [internal/approval/approval.go].

    A manager maps identifiers to requests.  The pointer that [CreateRequest] returns is not
    used to change a request behind the manager's back.  Times are arguments. *)
From stdpp Require Import pretty.
From S2P Require Import Prelude Errors.

Abbreviation SAlreadyDecided := (SOther "approval: request has already reached final decision").
Abbreviation SUnauthorizedPerson := (SOther "approval: approver not in authorized group").
Abbreviation SDuplicateVote := (SOther "approval: approver has already voted on this request").
Abbreviation SRequestNotFound := (SOther "approval: approval request not found").
Abbreviation SInvalidPolicy := (SOther "approval: invalid policy configuration").

(** A string in the code: [CreateRequest] takes any. *)
Inductive PolicyType := PolicyAny | PolicyAll | PolicyQuorum | PolicyOther (name : string).
Inductive Decision := DecisionPending | DecisionApproved | DecisionRejected | DecisionExpired.

#[export] Instance PolicyType_eq_dec : EqDecision PolicyType.
Proof. solve_decision. Defined.
#[export] Instance Decision_eq_dec : EqDecision Decision.
Proof. solve_decision. Defined.

Record Vote := MkVote {
  v_ApproverID : string;
  v_Approved : bool;
  v_Comment : string;
  v_VotedAt : Time
}.

Record Request := MkRequest {
  r_ID : string;
  r_Namespace : string;
  r_RunID : string;
  r_StepID : string;
  r_Policy : PolicyType;
  r_Approvers : gset string;     (** every value of the map is true *)
  r_QuorumCount : Z;
  r_Timeout : Duration;
  r_EscalateTo : string;
  r_CreatedAt : Time;
  r_ExpiresAt : Time;
  r_Decision : Decision;
  r_DecidedAt : option Time;
  r_Votes : gmap string Vote;
  r_Escalated : bool
}.

Definition set_decision (d : Decision) (now : Time) (r : Request) : Request :=
  MkRequest (r_ID r) (r_Namespace r) (r_RunID r) (r_StepID r) (r_Policy r) (r_Approvers r)
    (r_QuorumCount r) (r_Timeout r) (r_EscalateTo r) (r_CreatedAt r) (r_ExpiresAt r) d (Some now)
    (r_Votes r) (r_Escalated r).
Definition set_votes (votes : gmap string Vote) (r : Request) : Request :=
  MkRequest (r_ID r) (r_Namespace r) (r_RunID r) (r_StepID r) (r_Policy r) (r_Approvers r)
    (r_QuorumCount r) (r_Timeout r) (r_EscalateTo r) (r_CreatedAt r) (r_ExpiresAt r) (r_Decision r)
    (r_DecidedAt r) votes (r_Escalated r).
Definition set_escalated (r : Request) : Request :=
  MkRequest (r_ID r) (r_Namespace r) (r_RunID r) (r_StepID r) (r_Policy r)
    ({[r_EscalateTo r]} ∪ r_Approvers r) (r_QuorumCount r) (r_Timeout r) (r_EscalateTo r)
    (r_CreatedAt r) (r_ExpiresAt r) (r_Decision r) (r_DecidedAt r) (r_Votes r) true.

Abbreviation Manager := (gmap string Request) (only parsing).
Definition NewManager : Manager := ∅.

Definition CreateRequest (id ns runID stepID : string) (policy : PolicyType) (approvers : list string)
    (quorumCount : Z) (timeout : Duration) (escalateTo : string) (now : Time) (m : Manager) :
    result error Request * Manager :=
  if length approvers =? 0 then
    (Err (EWrap "%w: at least one approver required" [] (ESentinel SInvalidPolicy)), m)
  else if bool_decide (policy = PolicyQuorum) &&
          ((quorumCount <=? 0)%Z || (Z.of_nat (length approvers) <? quorumCount)%Z) then
    (Err (EWrap "%w: quorumCount must be between 1 and %d" [pretty (length approvers)]
            (ESentinel SInvalidPolicy)), m)
  else
    let req := MkRequest id ns runID stepID policy (list_to_set approvers) quorumCount timeout
                 escalateTo now (if (0 <? timeout)%Z then time_add now timeout else time_zero)
                 DecisionPending None ∅ false in
    (Ok req, <[id := req]> m).

(** The loop over the votes. *)
Definition count_votes (votes : list Vote) : Z * Z :=
  foldl (λ c v, if v_Approved v then (c.1 + 1, c.2)%Z else (c.1, c.2 + 1)%Z) (0%Z, 0%Z) votes.

Definition evaluatePolicyLocked (sh : shuffle) (r : Request) : Decision :=
  let '(approveCount, rejectCount) := count_votes (range_values sh (r_Votes r)) in
  let totalApprovers := Z.of_nat (size (r_Approvers r)) in
  match r_Policy r with
  | PolicyAny =>
      if (0 <? approveCount)%Z then DecisionApproved
      else if (rejectCount =? totalApprovers)%Z then DecisionRejected
      else DecisionPending
  | PolicyAll =>
      if (0 <? rejectCount)%Z then DecisionRejected
      else if (approveCount =? totalApprovers)%Z then DecisionApproved
      else DecisionPending
  | PolicyQuorum =>
      if (r_QuorumCount r <=? approveCount)%Z then DecisionApproved
      else
        let remaining := (totalApprovers - Z.of_nat (size (r_Votes r)))%Z in
        if (approveCount + remaining <? r_QuorumCount r)%Z then DecisionRejected
        else DecisionPending
  | PolicyOther _ => DecisionPending
  end.

Definition expired (now : Time) (r : Request) : bool :=
  negb (time_is_zero (r_ExpiresAt r)) && time_after now (r_ExpiresAt r).

Definition CastVote (sh : shuffle) (requestID approverID : string) (approved : bool)
    (comment : string) (now : Time) (m : Manager) : (Decision * option error) * Manager :=
  match m !! requestID with
  | None => ((DecisionPending, Some (ESentinel SRequestNotFound)), m)
  | Some req =>
      if negb (bool_decide (r_Decision req = DecisionPending)) then
        ((r_Decision req, Some (ESentinel SAlreadyDecided)), m)
      else if negb (bool_decide (approverID ∈ r_Approvers req)) then
        ((DecisionPending, Some (ESentinel SUnauthorizedPerson)), m)
      else if bool_decide (is_Some (r_Votes req !! approverID)) then
        ((DecisionPending, Some (ESentinel SDuplicateVote)), m)
      else if expired now req then
        ((DecisionExpired, None), <[requestID := set_decision DecisionExpired now req]> m)
      else
        let req1 := set_votes (<[approverID := MkVote approverID approved comment now]> (r_Votes req)) req in
        let dec := evaluatePolicyLocked sh req1 in
        let req2 := if bool_decide (dec = DecisionPending) then req1 else set_decision dec now req1 in
        ((r_Decision req2, None), <[requestID := req2]> m)
  end.

Definition CheckEscalation (requestID : string) (now : Time) (m : Manager) : bool * Manager :=
  match m !! requestID with
  | None => (false, m)
  | Some req =>
      if bool_decide (r_Decision req = DecisionPending) && negb (r_Escalated req)
         && negb (bool_decide (r_EscalateTo req = "")) && expired now req
      then (true, <[requestID := set_escalated req]> m)
      else (false, m)
  end.

Definition GetStatus (requestID : string) (m : Manager) : result error (Decision * gmap string Vote) :=
  match m !! requestID with
  | None => Err (ESentinel SRequestNotFound)
  | Some req => Ok (r_Decision req, r_Votes req)
  end.

(** * Theorems

    Approval gates decide what their policies say: a request is approved exactly when the votes
    satisfy the policy, and rejected exactly when no further votes can. *)

(** * The policies *)

Definition said (b : bool) (votes : gmap string Vote) (a : string) : Prop :=
  ∃ v, votes !! a = Some v ∧ v_Approved v = b.

Definition satisfied (r : Request) (votes : gmap string Vote) : Prop :=
  match r_Policy r with
  | PolicyAny => ∃ a, a ∈ r_Approvers r ∧ said true votes a
  | PolicyAll => ∀ a, a ∈ r_Approvers r → said true votes a
  | PolicyQuorum =>
      ∃ S : gset string, S ⊆ r_Approvers r ∧ (∀ a, a ∈ S → said true votes a) ∧
        (r_QuorumCount r <= Z.of_nat (size S))%Z
  | PolicyOther _ => False
  end.

(** However the others vote, the policy will not be satisfied. *)
Definition hopeless (r : Request) (votes : gmap string Vote) : Prop :=
  ∀ votes', votes ⊆ votes' → dom votes' = r_Approvers r → ¬ satisfied r votes'.

Definition known (p : PolicyType) : Prop := match p with PolicyOther _ => False | _ => True end.

(** * Counting *)

Definition yes (votes : gmap string Vote) : gset string :=
  dom (filter (λ kv, v_Approved kv.2 = true) votes).

Lemma elem_of_yes votes a : a ∈ yes votes ↔ said true votes a.
Proof.
  unfold yes, said. rewrite elem_of_dom. unfold is_Some. setoid_rewrite map_lookup_filter_Some.
  naive_solver.
Qed.

Lemma yes_dom votes : yes votes ⊆ dom votes.
Proof. intros a (v & Hv & _)%elem_of_yes. by apply elem_of_dom_2 in Hv. Qed.

Lemma count_votes_spec sh votes :
  count_votes (range_values sh votes) =
  (Z.of_nat (size (yes votes)), Z.of_nat (size votes) - Z.of_nat (size (yes votes)))%Z.
Proof.
  assert (∀ (l : list Vote) c, foldl (λ c v, if v_Approved v then (c.1 + 1, c.2)%Z else (c.1, c.2 + 1)%Z) c l =
    (c.1 + Z.of_nat (length (filter (λ v, v_Approved v = true) l)),
     c.2 + (Z.of_nat (length l) - Z.of_nat (length (filter (λ v, v_Approved v = true) l))))%Z) as H.
  { induction l as [|v l IH]; intros [a b]; simpl; [f_equal; lia|]. rewrite IH, filter_cons.
    destruct (v_Approved v); [rewrite decide_True by done|rewrite decide_False by done]; simpl; f_equal; lia. }
  unfold count_votes. rewrite H. simpl.
  assert (length (range_values sh votes) = size votes) as ->.
  { unfold range_values. rewrite length_fmap, (range_map_perm sh votes). apply length_map_to_list. }
  assert (length (filter (λ v, v_Approved v = true) (range_values sh votes)) = size (yes votes)) as ->.
  { unfold yes. rewrite size_dom, map_filter_alt. set (l := map_to_list votes).
    assert (NoDup (filter (λ kv : string * Vote, v_Approved kv.2 = true) l).*1) as Hnd.
    { eapply sublist_NoDup; [|apply fmap_sublist, sublist_filter]. apply NoDup_fst_map_to_list. }
    rewrite <- length_map_to_list, (map_to_list_to_map _ Hnd).
    unfold range_values. rewrite (range_map_perm sh votes). fold l. clear.
    induction l as [|[k v] l IH]; [done|]. csimpl. rewrite !filter_cons. simpl.
    case_decide; csimpl; by rewrite IH. }
  done.
Qed.

(** The policies as conditions on the number of approvals. *)
Definition enough (r : Request) (n : nat) : Prop :=
  match r_Policy r with
  | PolicyAny => 0 < n
  | PolicyAll => size (r_Approvers r) <= n
  | PolicyQuorum => (r_QuorumCount r <= Z.of_nat n)%Z
  | PolicyOther _ => False
  end.

Lemma enough_mono r n n' : n <= n' → enough r n → enough r n'.
Proof. unfold enough. destruct (r_Policy r); lia. Qed.

Lemma satisfied_enough r votes :
  dom votes ⊆ r_Approvers r → satisfied r votes ↔ enough r (size (yes votes)).
Proof.
  intros Hd. pose proof (yes_dom votes) as Hy. unfold satisfied, enough.
  destruct (r_Policy r); [| | |done].
  - split.
    + intros (a & _ & Ha%elem_of_yes). apply Nat.neq_0_lt_0. intros E%size_empty_inv. set_solver.
    + intros Hs. destruct (set_choose_or_empty (yes votes)) as [[a Ha]|E].
      * exists a. split; [set_solver|]. by apply elem_of_yes.
      * rewrite E, size_empty in Hs. lia.
  - split.
    + intros H. apply subseteq_size. intros a Ha. by apply elem_of_yes, H.
    + intros Hs a Ha. apply elem_of_yes. assert (yes votes ≡ r_Approvers r) as ->; [|done].
      apply set_subseteq_size_equiv; [set_solver|lia].
  - split.
    + intros (S & _ & Hall & Hq). assert (S ⊆ yes votes) as Hsub by (intros a Ha; by apply elem_of_yes, Hall).
      apply subseteq_size in Hsub. lia.
    + intros Hq. exists (yes votes). split_and!; [set_solver| |done]. intros a. apply elem_of_yes.
Qed.

(** The most approvals that can still come. *)
Definition best (r : Request) (votes : gmap string Vote) : nat :=
  size (yes votes) + (size (r_Approvers r) - size votes).

Lemma extension_best r votes votes' :
  dom votes ⊆ r_Approvers r → votes ⊆ votes' → dom votes' = r_Approvers r →
  size (yes votes') <= best r votes.
Proof.
  intros Hd Hsub Hdom. unfold best.
  assert (yes votes' ⊆ yes votes ∪ (r_Approvers r ∖ dom votes)) as Hy.
  { intros a Ha. destruct (decide (a ∈ dom votes)) as [[v Hv]%elem_of_dom|Hn].
    - apply elem_of_union_l, elem_of_yes. exists v. split; [done|].
      apply elem_of_yes in Ha as (v' & Hv' & <-). pose proof (lookup_weaken _ _ _ _ Hv Hsub). by simplify_eq.
    - pose proof (yes_dom votes' a Ha). set_solver. }
  apply subseteq_size in Hy. rewrite size_union_alt in Hy.
  assert (size ((r_Approvers r ∖ dom votes) ∖ yes votes) <= size (r_Approvers r ∖ dom votes)) as H1
    by (apply subseteq_size; set_solver).
  rewrite (size_difference (r_Approvers r)) in H1 by done. rewrite size_dom in H1. lia.
Qed.

(** Everyone who has not voted approves. *)
Definition all_yes (r : Request) (votes : gmap string Vote) : gmap string Vote :=
  votes ∪ set_to_map (λ a, (a, MkVote a true "" 0)) (r_Approvers r).

Lemma all_yes_lookup r votes a :
  all_yes r votes !! a =
  match votes !! a with
  | Some v => Some v
  | None => if decide (a ∈ r_Approvers r) then Some (MkVote a true "" 0) else None
  end.
Proof.
  unfold all_yes. destruct (votes !! a) as [v|] eqn:E; [by apply lookup_union_Some_l|].
  rewrite lookup_union_r by done. case_decide as Ha.
  - apply lookup_set_to_map; [naive_solver|]. exists a. done.
  - apply eq_None_not_Some. intros [v Hv]. apply lookup_set_to_map in Hv as (b & Hb & [= -> _]);
      [done|naive_solver].
Qed.

Lemma all_yes_spec r votes :
  dom votes ⊆ r_Approvers r →
  votes ⊆ all_yes r votes ∧ dom (all_yes r votes) = r_Approvers r ∧
  size (yes (all_yes r votes)) = best r votes.
Proof.
  intros Hd. split_and!.
  - apply map_union_subseteq_l.
  - apply set_eq. intros a. rewrite elem_of_dom, all_yes_lookup.
    destruct (votes !! a) as [v|] eqn:E.
    + split; [|by eexists]. intros _. apply Hd. by apply elem_of_dom_2 in E.
    + case_decide; [split; [done|by eexists]|]. split; [by intros [? ?]|done].
  - unfold best.
    assert (yes (all_yes r votes) = yes votes ∪ (r_Approvers r ∖ dom votes)) as ->.
    { apply set_eq. intros a. rewrite elem_of_union, elem_of_difference, !elem_of_yes, not_elem_of_dom.
      unfold said. rewrite all_yes_lookup. destruct (votes !! a) as [v|] eqn:E; [naive_solver|].
      case_decide; naive_solver. }
    rewrite size_union, (size_difference (r_Approvers r)) by (pose proof (yes_dom votes); set_solver).
    by rewrite size_dom.
Qed.

Lemma hopeless_best r votes :
  dom votes ⊆ r_Approvers r → hopeless r votes ↔ ¬ enough r (best r votes).
Proof.
  intros Hd. destruct (all_yes_spec r votes Hd) as (H1 & H2 & H3). split.
  - intros Hh He. apply (Hh _ H1 H2). apply satisfied_enough; [by rewrite H2|]. by rewrite H3.
  - intros He votes' Hs Hdom Hsat. apply He. apply satisfied_enough in Hsat; [|by rewrite Hdom].
    eapply enough_mono; [|done]. by apply extension_best.
Qed.

Lemma hopeless_not_satisfied r votes :
  dom votes ⊆ r_Approvers r → hopeless r votes → ¬ satisfied r votes.
Proof.
  intros Hd Hh Hs. apply (hopeless_best r votes Hd) in Hh. apply Hh.
  apply satisfied_enough in Hs; [|done]. eapply enough_mono; [|done]. unfold best. lia.
Qed.

Lemma evaluate_spec sh r :
  dom (r_Votes r) ⊆ r_Approvers r → r_Approvers r ≠ ∅ →
  match evaluatePolicyLocked sh r with
  | DecisionApproved => satisfied r (r_Votes r)
  | DecisionRejected => known (r_Policy r) ∧ hopeless r (r_Votes r)
  | DecisionPending => ¬ satisfied r (r_Votes r) ∧ (known (r_Policy r) → ¬ hopeless r (r_Votes r))
  | DecisionExpired => False
  end.
Proof.
  intros Hd Hne. pose proof (satisfied_enough r (r_Votes r) Hd) as Hs.
  pose proof (hopeless_best r (r_Votes r) Hd) as Hh. unfold evaluatePolicyLocked.
  rewrite count_votes_spec. revert Hs Hh. unfold enough, best.
  assert (size (yes (r_Votes r)) <= size (r_Votes r)) as H1
    by (rewrite <- (size_dom (r_Votes r)); apply subseteq_size, yes_dom).
  assert (size (r_Votes r) <= size (r_Approvers r)) as H2
    by (rewrite <- (size_dom (r_Votes r)); by apply subseteq_size).
  assert (size (r_Approvers r) ≠ 0) as H3 by (intros E%size_empty_inv; set_solver).
  destruct (r_Policy r); intros Hs Hh; [| | |tauto].
  - destruct (Z.ltb_spec 0 (Z.of_nat (size (yes (r_Votes r))))); [apply Hs; lia|].
    destruct (Z.eqb_spec (Z.of_nat (size (r_Votes r)) - Z.of_nat (size (yes (r_Votes r))))
      (Z.of_nat (size (r_Approvers r)))); rewrite ?Hs, ?Hh; split; try done; lia.
  - destruct (Z.ltb_spec 0 (Z.of_nat (size (r_Votes r)) - Z.of_nat (size (yes (r_Votes r)))));
      [rewrite Hh; split; [done|lia]|].
    destruct (Z.eqb_spec (Z.of_nat (size (yes (r_Votes r)))) (Z.of_nat (size (r_Approvers r))));
      [apply Hs; lia|]. rewrite Hs, Hh. split; lia.
  - destruct (Z.leb_spec (r_QuorumCount r) (Z.of_nat (size (yes (r_Votes r))))); [apply Hs; lia|].
    destruct (Z.ltb_spec (Z.of_nat (size (yes (r_Votes r))) +
      (Z.of_nat (size (r_Approvers r)) - Z.of_nat (size (r_Votes r)))) (r_QuorumCount r));
      rewrite ?Hs, ?Hh; split; try done; lia.
Qed.

(** The evaluation is exact.  For votes of the approvers under one of the three policies, the
    request is approved exactly when the votes satisfy the policy, and rejected exactly when they
    do not and no votes of the remaining approvers could make them; the order in which the votes
    are counted does not matter. *)
Theorem evaluate_exact sh r :
  dom (r_Votes r) ⊆ r_Approvers r → known (r_Policy r) → r_Approvers r ≠ ∅ →
  let d := evaluatePolicyLocked sh r in
  (d = DecisionApproved ↔ satisfied r (r_Votes r)) ∧
  (d = DecisionRejected ↔ hopeless r (r_Votes r)) ∧
  (d = DecisionPending ↔ ¬ satisfied r (r_Votes r) ∧ ¬ hopeless r (r_Votes r)).
Proof.
  intros Hd Hk Hne d. pose proof (evaluate_spec sh r Hd Hne) as H. fold d in H.
  pose proof (hopeless_not_satisfied r (r_Votes r) Hd) as Hx. destruct d; naive_solver.
Qed.

(** Ann and Bob of three have approved. *)
Definition two_of_three : Request :=
  MkRequest "gate" "ns" "run" "deploy" PolicyQuorum {["ann"; "bob"; "cyd"]} 2 0 "" 0 0
    DecisionPending None
    {["ann" := MkVote "ann" true "" 1; "bob" := MkVote "bob" true "" 2]} false.

Lemma evaluate_exact_witness :
  evaluatePolicyLocked shuffle_id two_of_three = DecisionApproved ∧
  satisfied two_of_three (r_Votes two_of_three).
Proof.
  destruct (evaluate_exact shuffle_id two_of_three) as (Ha & _); [|exact I| |].
  - apply (bool_decide_unpack _). vm_compute. exact I.
  - intros E. apply (f_equal size) in E. vm_compute in E. discriminate E.
  - split; [vm_compute; reflexivity|]. apply Ha. vm_compute. reflexivity.
Defined.

(** * Sequences of operations *)

Inductive approval_op :=
  | OpCreate (id ns runID stepID : string) (policy : PolicyType) (approvers : list string)
      (quorumCount : Z) (timeout : Duration) (escalateTo : string) (now : Time)
  | OpVote (requestID approverID : string) (approved : bool) (comment : string) (now : Time)
  | OpEscalate (requestID : string) (now : Time).

Definition approval_step (sh : shuffle) (m : gmap string Request) (op : approval_op) : gmap string Request :=
  match op with
  | OpCreate id ns run step p a q t e now => (CreateRequest id ns run step p a q t e now m).2
  | OpVote id a b c now => (CastVote sh id a b c now m).2
  | OpEscalate id now => (CheckEscalation id now m).2
  end.

Definition approval_run (sh : shuffle) (ops : list approval_op) : gmap string Request :=
  foldl (approval_step sh) NewManager ops.

(** The votes are those of distinct approvers, and the decision is what they say. *)
Record request_ok (r : Request) : Prop := {
  ok_voters : dom (r_Votes r) ⊆ r_Approvers r;
  ok_approvers : r_Approvers r ≠ ∅;
  ok_quorum : r_Policy r = PolicyQuorum → (0 < r_QuorumCount r)%Z;
  ok_decision :
    match r_Decision r with
    | DecisionPending => ¬ satisfied r (r_Votes r)
    | DecisionApproved => satisfied r (r_Votes r)
    | DecisionRejected => known (r_Policy r) ∧ hopeless r (r_Votes r)
    | DecisionExpired => ∃ t, r_DecidedAt r = Some t ∧ expired t r = true
    end
}.

Lemma create_ok id ns run step p a q t e now m r :
  (CreateRequest id ns run step p a q t e now m).1 = Ok r → request_ok r.
Proof.
  unfold CreateRequest. destruct (Nat.eqb_spec (length a) 0) as [|Hlen]; [done|].
  destruct (bool_decide (p = PolicyQuorum) && _) eqn:Eq; [done|]. simpl. intros [= <-].
  assert ((list_to_set a : gset string) ≠ ∅) as Hne.
  { destruct a as [|x a]; [done|]. simpl. set_solver. }
  assert (p = PolicyQuorum → (0 < q)%Z) as Hq.
  { intros ->. rewrite bool_decide_eq_true_2 in Eq by done. simpl in Eq.
    apply orb_false_iff in Eq as [Eq _]. apply Z.leb_gt in Eq. done. }
  split; simpl; [set_solver|done|done|]. rewrite satisfied_enough by set_solver.
  assert (size (yes ∅) = 0) as -> by (vm_compute; reflexivity). unfold enough. simpl.
  assert (size (list_to_set a : gset string) ≠ 0) by (intros E%size_empty_inv; set_solver).
  destruct p; try lia. specialize (Hq eq_refl). lia.
Qed.

Lemma vote_ok sh id a b c now m r :
  (∀ r, m !! id = Some r → request_ok r) →
  (CastVote sh id a b c now m).2 !! id = Some r → request_ok r.
Proof.
  intros Hm. unfold CastVote. destruct (m !! id) as [req|] eqn:Ereq; [|simpl; congruence].
  assert (∀ r', (m !! id = Some r' → request_ok r')) as Hsame by (intros r' E; apply Hm; congruence).
  destruct (bool_decide_reflect (r_Decision req = DecisionPending)) as [Hp|]; simpl;
    [|by intros ?%Hsame].
  destruct (bool_decide_reflect (a ∈ r_Approvers req)) as [Ha|]; simpl; [|by intros ?%Hsame].
  case_bool_decide; simpl; [by intros ?%Hsame|].
  destruct (Hm req eq_refl) as [Hv Hne Hq Hd].
  destruct (expired now req) eqn:Hex; simpl; rewrite lookup_insert_eq; intros [= <-].
  { split; simpl; [done|done|done|]. exists now. done. }
  set (req1 := set_votes _ req).
  assert (dom (r_Votes req1) ⊆ r_Approvers req1) as Hv1 by (simpl; rewrite dom_insert_L; set_solver).
  pose proof (evaluate_spec sh req1 Hv1 Hne) as Hev.
  case_bool_decide as Hdec; rewrite ?Hdec in Hev.
  - split; simpl; [done|done|done|]. rewrite Hp. by destruct Hev.
  - split; simpl; [done|done|done|]. by destruct (evaluatePolicyLocked sh req1).
Qed.

Lemma escalate_ok id now m r :
  (∀ r, m !! id = Some r → request_ok r) →
  (CheckEscalation id now m).2 !! id = Some r → request_ok r.
Proof.
  intros Hm. unfold CheckEscalation. destruct (m !! id) as [req|] eqn:Ereq; [|simpl; congruence].
  destruct (bool_decide_reflect (r_Decision req = DecisionPending)) as [Hp|]; simpl; [|naive_solver].
  destruct (_ && expired now req); simpl; [|naive_solver]. rewrite lookup_insert_eq. intros [= <-].
  destruct (Hm req eq_refl) as [Hv Hne Hq Hd]. rewrite Hp in Hd.
  split; simpl; [set_solver|set_solver|done|]. rewrite Hp. rewrite satisfied_enough in Hd |- * by set_solver.
  unfold enough in *. simpl in *. destruct (r_Policy req); try done. intros Hs. apply Hd.
  etrans; [|exact Hs]. apply subseteq_size. set_solver.
Qed.

Definition requests_ok (m : gmap string Request) : Prop := ∀ id r, m !! id = Some r → request_ok r.

Lemma step_other sh m op id :
  match op with
  | OpCreate i _ _ _ _ _ _ _ _ _ | OpVote i _ _ _ _ | OpEscalate i _ => i ≠ id
  end → approval_step sh m op !! id = m !! id.
Proof.
  destruct op; simpl; intros Hne.
  - unfold CreateRequest. repeat case_match; simpl; try done; by rewrite lookup_insert_ne.
  - unfold CastVote. repeat case_match; simpl; try done; by rewrite lookup_insert_ne.
  - unfold CheckEscalation. repeat case_match; simpl; try done. by rewrite lookup_insert_ne.
Qed.

Lemma approval_step_ok sh m op : requests_ok m → requests_ok (approval_step sh m op).
Proof.
  intros Hm id r Hr. destruct op as [i ns run step p a q t e now|i a b c now|i now];
    (destruct (decide (i = id)) as [->|Hne]; [|by rewrite step_other in Hr; [apply Hm in Hr|]]);
    simpl in Hr.
  - destruct (CreateRequest id ns run step p a q t e now m).1 as [r'|err] eqn:E.
    + assert (r = r') as ->; [|by eapply create_ok].
      revert E Hr. unfold CreateRequest. repeat case_match; simpl; try done;
        intros [= <-]; rewrite lookup_insert_eq; congruence.
    + revert E Hr. unfold CreateRequest. repeat case_match; simpl; try done; by intros _ ?%Hm.
  - by eapply vote_ok; [intros; by eapply Hm|].
  - by eapply escalate_ok; [intros; by eapply Hm|].
Qed.

Lemma approval_run_ok sh ops m : requests_ok m → requests_ok (foldl (approval_step sh) m ops).
Proof. revert m. induction ops as [|op ops IH]; intros m Hm; [done|]. by apply IH, approval_step_ok. Qed.

(** A decided request stays as it is, as long as no new request takes its identifier. *)
Definition creates (id : string) (op : approval_op) : bool :=
  match op with OpCreate i _ _ _ _ _ _ _ _ _ => bool_decide (i = id) | _ => false end.

Lemma decided_step sh m op id r :
  m !! id = Some r → r_Decision r ≠ DecisionPending → creates id op = false →
  approval_step sh m op !! id = Some r.
Proof.
  intros Hr Hd Hc. destruct op as [i ns run step p a q t e now|i a b c now|i now]; simpl in Hc.
  - rewrite step_other; [done|]. by apply bool_decide_eq_false in Hc.
  - destruct (decide (i = id)) as [->|Hne]; [|by rewrite step_other]. simpl. unfold CastVote.
    rewrite Hr, bool_decide_eq_false_2 by done. done.
  - destruct (decide (i = id)) as [->|Hne]; [|by rewrite step_other]. simpl. unfold CheckEscalation.
    rewrite Hr, bool_decide_eq_false_2 by done. done.
Qed.

(** C31: Decisions are right and final.  After any sequence of operations, an approved request has
    votes of its approvers that satisfy its policy, a rejected one has votes that no further votes
    could turn into an approval, an expired one was decided after its deadline, and an undecided
    one does not satisfy its policy; and a decided request is not changed by any later operation
    other than the creation of a request with the same identifier. *)
Theorem approval_decisions sh ops ops' id r :
  approval_run sh ops !! id = Some r →
  request_ok r ∧
  (r_Decision r ≠ DecisionPending → Forall (λ op, creates id op = false) ops' →
   approval_run sh (ops ++ ops') !! id = Some r).
Proof.
  intros Hr. split.
  - eapply (approval_run_ok sh ops NewManager); [|exact Hr]. by intros id' r'.
  - intros Hd Hall. unfold approval_run in *. rewrite foldl_app.
    revert Hr. generalize (foldl (approval_step sh) NewManager ops).
    induction Hall as [|op ops' Hop _ IH]; intros m Hr; [done|]. simpl. by apply IH, decided_step.
Qed.

Definition gate_ops : list approval_op :=
  [OpCreate "gate" "ns" "run" "deploy" PolicyQuorum ["ann"; "bob"; "cyd"] 2 0 "" 5;
   OpVote "gate" "ann" true "" 6; OpVote "gate" "bob" false "" 7; OpVote "gate" "cyd" true "" 8].

Lemma approval_decisions_witness :
  ∃ r, approval_run shuffle_id (gate_ops ++ [OpVote "gate" "bob" true "" 9]) !! "gate" = Some r ∧
    r_Decision r = DecisionApproved ∧ satisfied r (r_Votes r).
Proof.
  destruct (approval_run shuffle_id gate_ops !! "gate") as [r|] eqn:E; [|by vm_compute in E].
  destruct (approval_decisions shuffle_id gate_ops [OpVote "gate" "bob" true "" 9] "gate" r E) as [Hok Hfin].
  assert (r_Decision r = DecisionApproved) as Hd by (vm_compute in E; injection E as <-; reflexivity).
  exists r. split_and!; [|done|].
  - apply Hfin; [by rewrite Hd|]. by repeat constructor.
  - destruct Hok as [_ _ _ Hdec]. by rewrite Hd in Hdec.
Defined.

(** * Two defects *)

(** An escalated request can only expire.  The new approver is added when the deadline has
    passed; from then on no vote of anyone is counted. *)
Theorem escalation_is_too_late id now m m' sh a b c later :
  CheckEscalation id now m = (true, m') → (now <= later)%Z →
  let d := (CastVote sh id a b c later m').1.1 in
  d = DecisionPending ∨ d = DecisionExpired.
Proof.
  unfold CheckEscalation. destruct (m !! id) as [req|]; [|done].
  destruct (bool_decide_reflect (r_Decision req = DecisionPending)) as [Hp|]; simpl; [|done].
  destruct (negb (r_Escalated req) && negb (bool_decide (r_EscalateTo req = "")));
    simpl; [|done]. destruct (expired now req) eqn:Hex; [|done]. intros [= <-] Hle.
  unfold CastVote. rewrite lookup_insert_eq. cbn [r_Decision set_escalated].
  rewrite bool_decide_eq_true_2 by done. cbn [negb].
  assert (expired later (set_escalated req) = true) as Hex'.
  { unfold expired, time_after in *. cbn [r_ExpiresAt set_escalated] in *.
    apply andb_true_iff in Hex as [-> Hex]. apply Z.ltb_lt in Hex. simpl. apply Z.ltb_lt. lia. }
  rewrite Hex'. repeat case_match; simpl; auto.
Qed.

Definition escalated_ops : list approval_op :=
  [OpCreate "gate" "ns" "run" "deploy" PolicyAny ["ann"] 0 10 "boss" 5].

Lemma escalation_is_too_late_witness :
  (CastVote shuffle_id "gate" "boss" true "" 30
     (CheckEscalation "gate" 20 (approval_run shuffle_id escalated_ops)).2).1.1 = DecisionExpired.
Proof.
  destruct (escalation_is_too_late "gate" 20 (approval_run shuffle_id escalated_ops)
    (CheckEscalation "gate" 20 (approval_run shuffle_id escalated_ops)).2 shuffle_id "boss" true "" 30)
    as [E|E]; [vm_compute; reflexivity|lia|by vm_compute in E|exact E].
Defined.

(** An approver named twice counts once, but the quorum may count the name twice: such a
    request is accepted, and rejected when its only approver approves. *)
Theorem repeated_approver_rejected :
  let ops := [OpCreate "gate" "ns" "run" "deploy" PolicyQuorum ["ann"; "ann"] 2 0 "" 5;
              OpVote "gate" "ann" true "" 6] in
  r_Decision <$> approval_run shuffle_id ops !! "gate" = Some DecisionRejected.
Proof. vm_compute. reflexivity. Qed.
