(* ===== verification/EventBus.v ===== *)
(** The event bus: [internal/eventbus/eventbus.go].

    Channels are bounded queues; a send of [select] with a default case is lost when the queue
    is full.  The capacity is taken to be positive, as in the default configuration.  Messages
    move by steps: [Publish] puts one into the queue of the bus, a worker takes it and
    dispatches it, the loop of a subscription takes it from its queue and runs the handler.
    Random identifiers, times, the results of handlers and iteration orders are arguments. *)
From stdpp Require Import pretty relations.
From S2P Require Import Prelude Errors Runes Strings.

Abbreviation SBusClosed := (SOther "eventbus: bus is closed").
Abbreviation SSubscriptionClosed := (SOther "eventbus: subscription closed").
Abbreviation SInvalidPattern := (SOther "eventbus: invalid topic pattern").

Record Message := MkMessage {
  m_ID : string;
  m_Topic : string;
  m_Payload : string;
  m_Headers : gmap string string;
  m_Timestamp : Time;
  m_RetryCount : Z
}.

Record DeadLetter := MkDeadLetter {
  dl_Msg : Message;
  dl_Err : option error;
  dl_FailedAt : Time;
  dl_GroupID : string
}.

Record subscription := MkSub {
  s_id : string;
  s_group : string;
  s_pattern : string;
  s_ch : list Message
}.

Record Config := MkConfig {
  cfg_QueueCapacity : nat;
  cfg_WorkerCount : Z;
  cfg_MaxRetries : Z;
  cfg_RetryBackoff : Duration
}.
Definition DefaultConfig : Config := MkConfig 1024 4 2 (10 * millisecond).

Record EventBus := MkBus {
  eb_cfg : Config;
  eb_subs : gmap string subscription;
  eb_groupMembers : gmap string (list string);
  eb_groupRoundRobin : gmap string Z;
  eb_dlq : list DeadLetter;
  eb_inCh : list Message;
  eb_closed : bool;
  eb_seq : Z
}.

Definition New (cfg : Config) : EventBus := MkBus cfg ∅ ∅ ∅ [] [] false 0.

(** * Topics *)

Fixpoint matchSegments (pSeg tSeg : list string) : bool :=
  match pSeg, tSeg with
  | p :: pSeg', t :: tSeg' =>
      if bool_decide (p = "#") then
        if length pSeg' =? 0 then true
        else existsb (λ k, matchSegments pSeg' (drop k tSeg)) (seq 0 (S (length tSeg)))
      else if bool_decide (p = "*") || bool_decide (p = t) then matchSegments pSeg' tSeg'
      else false
  | _, [] => forallb (λ p, bool_decide (p = "#")) pSeg
  | [], _ => false
  end.

Definition dot : ascii := "."%char.

Definition MatchTopic (pattern topic : string) : bool :=
  if bool_decide (pattern = "#") || bool_decide (pattern = topic) then true
  else matchSegments (split dot pattern) (split dot topic).

(** * Subscriptions *)

Definition set_subs (subs : gmap string subscription) (eb : EventBus) : EventBus :=
  MkBus (eb_cfg eb) subs (eb_groupMembers eb) (eb_groupRoundRobin eb) (eb_dlq eb) (eb_inCh eb)
    (eb_closed eb) (eb_seq eb).
Definition set_inCh (q : list Message) (eb : EventBus) : EventBus :=
  MkBus (eb_cfg eb) (eb_subs eb) (eb_groupMembers eb) (eb_groupRoundRobin eb) (eb_dlq eb) q
    (eb_closed eb) (eb_seq eb).

Definition members (eb : EventBus) (group : string) : list string :=
  default [] (eb_groupMembers eb !! group).

Definition subscribeInternal (group pattern subID : string) (eb : EventBus) :
    result error string * EventBus :=
  if bool_decide (pattern = "") then (Err (ESentinel SInvalidPattern), eb)
  else if eb_closed eb then (Err (ESentinel SBusClosed), eb)
  else
    let subs := <[subID := MkSub subID group pattern []]> (eb_subs eb) in
    if bool_decide (group = "") then (Ok subID, set_subs subs eb)
    else
      (Ok subID,
       MkBus (eb_cfg eb) subs (<[group := members eb group ++ [subID]]> (eb_groupMembers eb))
         (<[group := default 0%Z (eb_groupRoundRobin eb !! group)]> (eb_groupRoundRobin eb))
         (eb_dlq eb) (eb_inCh eb) (eb_closed eb) (eb_seq eb)).

Definition Subscribe (pattern subID : string) (eb : EventBus) : result error string * EventBus :=
  subscribeInternal "" pattern subID eb.

Definition SubscribeGroup (group pattern subID : string) (eb : EventBus) :
    result error string * EventBus :=
  if bool_decide (group = "") then (Err (EFmt "eventbus: group name cannot be empty" []), eb)
  else subscribeInternal group pattern subID eb.

(** The queue of the removed subscription is closed; its loop runs what is left in it. *)
Definition Unsubscribe (subID : string) (eb : EventBus) : (option error * list Message) * EventBus :=
  match eb_subs eb !! subID with
  | None => ((Some (ESentinel SSubscriptionClosed), []), eb)
  | Some sub =>
      let eb := set_subs (delete subID (eb_subs eb)) eb in
      ((None, s_ch sub),
       if bool_decide (s_group sub = "") then eb
       else MkBus (eb_cfg eb) (eb_subs eb)
              (<[s_group sub := filter (λ m, m ≠ subID) (members eb (s_group sub))]> (eb_groupMembers eb))
              (eb_groupRoundRobin eb) (eb_dlq eb) (eb_inCh eb) (eb_closed eb) (eb_seq eb))
  end.

(** * Publishing *)

(** What the [select] of [Publish] saw: room in the queue, the end of its context, or the end of
    the bus. *)
Inductive publish_case := CaseSend | CaseDone (err : error) | CaseStop.

Definition Publish (c : publish_case) (topic payload : string) (headers : gmap string string)
    (rnd : string) (now : Time) (eb : EventBus) : option error * EventBus :=
  if eb_closed eb then (Some (ESentinel SBusClosed), eb)
  else
    let seq := wrap_u 64 (eb_seq eb + 1) in
    let msg := MkMessage ("msg-" +:+ pretty seq +:+ "-" +:+ rnd) topic payload headers now 0 in
    let eb := MkBus (eb_cfg eb) (eb_subs eb) (eb_groupMembers eb) (eb_groupRoundRobin eb)
                (eb_dlq eb) (eb_inCh eb) (eb_closed eb) seq in
    match c with
    | CaseSend => (None, set_inCh (eb_inCh eb ++ [msg]) eb)
    | CaseDone err => (Some err, eb)
    | CaseStop => (Some (ESentinel SBusClosed), eb)
    end.

(** The send is possible. *)
Definition can_publish (eb : EventBus) : bool := length (eb_inCh eb) <? cfg_QueueCapacity (eb_cfg eb).

(** * Dispatch *)

(** [select { case sub.ch <- msg: default: }] *)
Definition offer (cap : nat) (msg : Message) (sub : subscription) : subscription :=
  if length (s_ch sub) <? cap then MkSub (s_id sub) (s_group sub) (s_pattern sub) (s_ch sub ++ [msg])
  else sub.

Definition broadcast (cap : nat) (msg : Message) (subs : gmap string subscription)
    (l : list (string * subscription)) : gmap string subscription :=
  foldl (λ subs idsub,
    if bool_decide (s_group idsub.2 = "") && MatchTopic (s_pattern idsub.2) (m_Topic msg)
    then alter (offer cap msg) idsub.1 subs else subs) subs l.

Definition sub_matches (topic : string) (subs : gmap string subscription) (id : string) : bool :=
  match subs !! id with
  | Some s => MatchTopic (s_pattern s) topic
  | None => false
  end.

(** [matchingSubs] *)
Definition matching (topic : string) (subs : gmap string subscription) (ids : list string) : list string :=
  filter (λ id, sub_matches topic subs id = true) ids.

Abbreviation group_state := (gmap string subscription * gmap string Z)%type (only parsing).

Definition dispatch_group (cap : nat) (msg : Message) (st : group_state) (gm : string * list string) :
    group_state :=
  let '(group, ids) := gm in
  let ms := matching (m_Topic msg) st.1 ids in
  if length ms =? 0 then st
  else
    let rr := wrap_u 64 (default 0%Z (st.2 !! group) + 1) in
    let idx := Z.to_nat (rr mod Z.of_nat (length ms)) in
    match ms !! idx with
    | Some target => (alter (offer cap msg) target st.1, <[group := rr]> st.2)
    | None => st
    end.

Definition dispatch (sh : shuffle) (msg : Message) (eb : EventBus) : EventBus :=
  let cap := cfg_QueueCapacity (eb_cfg eb) in
  let subs := broadcast cap msg (eb_subs eb) (range_map sh (eb_subs eb)) in
  let '(subs, rr) := foldl (dispatch_group cap msg) (subs, eb_groupRoundRobin eb)
                       (range_map sh (eb_groupMembers eb)) in
  MkBus (eb_cfg eb) subs (eb_groupMembers eb) rr (eb_dlq eb) (eb_inCh eb) (eb_closed eb) (eb_seq eb).

(** A round of [workerLoop] that receives a message. *)
Definition worker_step (sh : shuffle) (eb : EventBus) : EventBus :=
  match eb_inCh eb with
  | [] => eb
  | msg :: q => dispatch sh msg (set_inCh q eb)
  end.

(** * Handlers *)

(** The attempts from number [attempt] on: the last error, unless one succeeds. *)
Fixpoint attempts (fuel : nat) (attempt : Z) (maxRetries : Z) (handler : Z → option error)
    (lastErr : option error) : option error * bool :=
  match fuel with
  | 0 => (lastErr, false)
  | S fuel' =>
      if (attempt <=? maxRetries)%Z then
        match handler attempt with
        | None => (None, true)
        | Some err => attempts fuel' (attempt + 1) maxRetries handler (Some err)
        end
      else (lastErr, false)
  end.

(** [MaxRetries + 1] rounds, and one that sees the end. *)
Definition executeHandler (sub : subscription) (msg : Message) (handler : Z → option error)
    (now : Time) (eb : EventBus) : EventBus :=
  let max := cfg_MaxRetries (eb_cfg eb) in
  let '(lastErr, handled) := attempts (Z.to_nat (max + 2)) 0 max handler None in
  if handled then eb
  else
    let msg := MkMessage (m_ID msg) (m_Topic msg) (m_Payload msg) (m_Headers msg) (m_Timestamp msg)
                 (if (0 <=? max)%Z then max else m_RetryCount msg) in
    MkBus (eb_cfg eb) (eb_subs eb) (eb_groupMembers eb) (eb_groupRoundRobin eb)
      (eb_dlq eb ++ [MkDeadLetter msg lastErr now (s_group sub)]) (eb_inCh eb) (eb_closed eb) (eb_seq eb).

(** A round of [subscriptionLoop] that receives a message. *)
Definition subscription_step (subID : string) (handler : Z → option error) (now : Time)
    (eb : EventBus) : EventBus :=
  match eb_subs eb !! subID with
  | Some sub =>
      match s_ch sub with
      | [] => eb
      | msg :: q =>
          executeHandler sub msg handler now
            (set_subs (<[subID := MkSub (s_id sub) (s_group sub) (s_pattern sub) q]> (eb_subs eb)) eb)
      end
  | None => eb
  end.

Definition DeadLetters (eb : EventBus) : list DeadLetter := eb_dlq eb.

Definition Stop (eb : EventBus) : EventBus :=
  if eb_closed eb then eb
  else MkBus (eb_cfg eb) ∅ ∅ (eb_groupRoundRobin eb) (eb_dlq eb) (eb_inCh eb) true (eb_seq eb).

(** * Theorems

    The event bus: what patterns match, and who receives a message. *)

(** * Topics *)

(** A star stands for one segment, a hash for any number of segments. *)
Inductive topic_match : list string → list string → Prop :=
  | match_nil : topic_match [] []
  | match_star p x t : topic_match p t → topic_match ("*" :: p) (x :: t)
  | match_word w p t : w ≠ "#" → topic_match p t → topic_match (w :: p) (w :: t)
  | match_hash p t1 t2 : topic_match p t2 → topic_match ("#" :: p) (t1 ++ t2).

Lemma topic_match_nil_r p : topic_match p [] ↔ Forall (λ w, w = "#") p.
Proof.
  split.
  - remember [] as t eqn:E. induction 1 as [|p x t H IH|w p t Hw H IH|p t1 t2 H IH]; try done.
    apply app_eq_nil in E as [-> ->]. constructor; [done|by apply IH].
  - induction 1 as [|w p -> _ IH]; [constructor|]. by apply (match_hash p [] []).
Qed.

Lemma topic_match_hash p t : topic_match ("#" :: p) t → ∃ t1 t2, t = t1 ++ t2 ∧ topic_match p t2.
Proof. intros H. inversion H; subst; [congruence|]. eauto. Qed.

Lemma matchSegments_spec p t : matchSegments p t = true ↔ topic_match p t.
Proof.
  revert t. induction p as [|w p IH]; intros [|x t].
  - split; [intros _; constructor|done].
  - split; [done|]. intros H. inversion H.
  - cbn [matchSegments]. rewrite topic_match_nil_r, forallb_forall, Forall_forall.
    setoid_rewrite bool_decide_eq_true. by setoid_rewrite list_elem_of_In.
  - cbn [matchSegments]. case_bool_decide as Ew; [subst w|].
    + destruct (Nat.eqb_spec (length p) 0) as [E|E].
      { apply nil_length_inv in E as ->. split; [intros _|done].
        pose proof (match_hash [] (x :: t) [] match_nil) as H. by rewrite app_nil_r in H. }
      rewrite existsb_exists. split.
      * intros (k & _ & Hk). apply IH in Hk.
        pose proof (match_hash p (take k (x :: t)) _ Hk) as H. by rewrite take_drop in H.
      * intros (t1 & t2 & -> & Ht2)%topic_match_hash. exists (length t1). split.
        -- apply in_seq. rewrite length_app. lia.
        -- apply IH. by rewrite drop_app_length.
    + destruct (bool_decide_reflect (w = "*")) as [->|Hstar]; simpl.
      * rewrite IH. split; [apply match_star|]. intros H. by inversion H; subst.
      * case_bool_decide as Ex; [subst x|].
        -- rewrite IH. split; [by apply match_word|]. intros H. by inversion H; subst.
        -- split; [done|]. intros H. inversion H; subst; done.
Qed.

Lemma topic_match_refl t : topic_match t t.
Proof.
  induction t as [|x t IH]; [constructor|]. destruct (decide (x = "#")) as [->|Hne].
  - by apply (match_hash t ["#"] t).
  - by apply match_word.
Qed.

(** Matching is what its documentation says.  A topic matches a pattern exactly when its
    segments are obtained from those of the pattern by replacing every star by one segment and
    every hash by zero or more. *)
Theorem MatchTopic_exact pattern topic :
  MatchTopic pattern topic = true ↔ topic_match (split dot pattern) (split dot topic).
Proof.
  unfold MatchTopic. destruct (bool_decide_reflect (pattern = "#")) as [->|Hh]; simpl.
  { split; [intros _|done]. change (split dot "#") with ["#"].
    pose proof (match_hash [] (split dot topic) [] match_nil) as H. by rewrite app_nil_r in H. }
  destruct (bool_decide_reflect (pattern = topic)) as [->|Hne].
  - split; [intros _; apply topic_match_refl|done].
  - apply matchSegments_spec.
Qed.

(** * The invariant of the bus *)

Record bus_ok (eb : EventBus) : Prop := {
  ok_members : ∀ g ids, eb_groupMembers eb !! g = Some ids →
    g ≠ "" ∧ NoDup ids ∧ ∀ id, id ∈ ids → ∃ s, eb_subs eb !! id = Some s ∧ s_group s = g;
  ok_subs : ∀ id s, eb_subs eb !! id = Some s → s_group s ≠ "" → id ∈ members eb (s_group s)
}.

(** The subscriptions without their queues. *)
Definition bare_sub (s : subscription) : subscription := MkSub (s_id s) (s_group s) (s_pattern s) [].
Definition same_subs (subs subs' : gmap string subscription) : Prop :=
  bare_sub <$> subs = bare_sub <$> subs'.

Lemma same_subs_lookup subs subs' id s :
  same_subs subs subs' → subs !! id = Some s →
  ∃ s', subs' !! id = Some s' ∧ s_group s' = s_group s ∧ s_pattern s' = s_pattern s.
Proof.
  intros E Hs. assert ((bare_sub <$> subs') !! id = Some (bare_sub s)) as H.
  { rewrite <- E, lookup_fmap, Hs. done. }
  apply lookup_fmap_Some in H as (s' & Hb & Hs'). exists s'. split; [done|].
  destruct s, s'. by injection Hb.
Qed.

Lemma same_subs_alter cap msg id subs : same_subs (alter (offer cap msg) id subs) subs.
Proof.
  apply map_eq. intros k. rewrite !lookup_fmap. destruct (decide (id = k)) as [->|Hne].
  - rewrite lookup_alter_eq. destruct (subs !! k) as [s|]; [|done]. simpl. unfold offer.
    by destruct (_ <? _).
  - by rewrite lookup_alter_ne.
Qed.

Lemma matching_same topic subs subs' ids : same_subs subs subs' → matching topic subs ids = matching topic subs' ids.
Proof.
  intros E. unfold matching. apply list_filter_iff. intros id. unfold sub_matches.
  destruct (subs !! id) as [s|] eqn:Hs.
  - destruct (same_subs_lookup subs subs' id s E Hs) as (s' & -> & _ & ->). done.
  - destruct (subs' !! id) as [s'|] eqn:Hs'; [|done].
    destruct (same_subs_lookup subs' subs id s' (eq_sym E) Hs') as (s & ? & _). congruence.
Qed.

Lemma bus_ok_same eb eb' :
  same_subs (eb_subs eb) (eb_subs eb') → eb_groupMembers eb' = eb_groupMembers eb → bus_ok eb → bus_ok eb'.
Proof.
  intros Hs Hg [H1 H2]. split.
  - intros g ids. rewrite Hg. intros E. destruct (H1 g ids E) as (? & ? & Hm). split_and!; [done|done|].
    intros id (s & Hid & <-)%Hm. destruct (same_subs_lookup _ _ id s Hs Hid) as (s' & ? & ? & _). eauto.
  - intros id s' Hs'. destruct (same_subs_lookup _ _ id s' (eq_sym Hs) Hs') as (s & Hid & E & _).
    unfold members. rewrite Hg, <- E. by apply (H2 id s).
Qed.

(** * Broadcast *)

Lemma alter_offer_lookup cap msg id k (subs : gmap string subscription) s :
  subs !! k = Some s →
  alter (offer cap msg) id subs !! k = Some (if bool_decide (id = k) then offer cap msg s else s).
Proof.
  intros Hs. case_bool_decide as E; [subst id|].
  - by rewrite lookup_alter_eq, Hs.
  - by rewrite lookup_alter_ne, Hs.
Qed.

Definition broadcast_to (topic : string) (l : list (string * subscription)) (id : string) : bool :=
  existsb (λ p, bool_decide (p.1 = id) && (bool_decide (s_group p.2 = "") && MatchTopic (s_pattern p.2) topic)) l.

Lemma broadcast_spec cap msg subs l :
  NoDup l.*1 →
  same_subs (broadcast cap msg subs l) subs ∧
  ∀ id s, subs !! id = Some s →
    broadcast cap msg subs l !! id =
      Some (if broadcast_to (m_Topic msg) l id then offer cap msg s else s).
Proof.
  revert subs. induction l as [|[k t] l IH]; intros subs; [done|]. csimpl.
  intros [Hk Hnd]%NoDup_cons. unfold broadcast. cbn [foldl fst snd].
  set (w := bool_decide (s_group t = "") && MatchTopic (s_pattern t) (m_Topic msg)).
  destruct (IH (if w then alter (offer cap msg) k subs else subs) Hnd) as [H1 H2].
  fold (broadcast cap msg (if w then alter (offer cap msg) k subs else subs) l). split.
  - unfold same_subs in *. rewrite H1. destruct w; [apply same_subs_alter|done].
  - intros id s Hs. unfold broadcast_to. cbn [existsb fst snd]. fold w. fold (broadcast_to (m_Topic msg) l id).
    assert (k = id → broadcast_to (m_Topic msg) l id = false) as Hno.
    { intros ->. apply not_true_iff_false. intros H%existsb_exists.
      destruct H as ([k' t'] & Hin & Hb). apply andb_true_iff in Hb as [Hb _].
      apply bool_decide_eq_true in Hb. simpl in Hb. subst k'. apply Hk.
      apply list_elem_of_In in Hin. by apply (list_elem_of_fmap_2 fst) in Hin. }
    destruct w.
    + rewrite (H2 id (if bool_decide (k = id) then offer cap msg s else s)) by (by apply alter_offer_lookup).
      destruct (bool_decide_reflect (k = id)) as [E|E]; simpl; [by rewrite Hno|done].
    + rewrite (H2 id s) by done. by rewrite andb_false_r.
Qed.

(** * Groups *)

(** The member a group chooses. *)
Definition pick (rr : option Z) (ms : list string) : option string :=
  if length ms =? 0 then None
  else ms !! Z.to_nat (wrap_u 64 (default 0%Z rr + 1) mod Z.of_nat (length ms)).

Lemma pick_elem rr ms id : pick rr ms = Some id → id ∈ ms.
Proof. unfold pick. destruct (_ =? _); [done|]. apply list_elem_of_lookup_2. Qed.

Lemma pick_None rr ms : pick rr ms = None → ms = [].
Proof.
  unfold pick. destruct (Nat.eqb_spec (length ms) 0) as [E|E]; [intros _; by apply nil_length_inv|].
  intros H%lookup_ge_None. pose proof (Z.mod_pos_bound (wrap_u 64 (default 0%Z rr + 1)) (Z.of_nat (length ms))
    ltac:(lia)). lia.
Qed.

Lemma dispatch_group_pick cap msg st g ids :
  dispatch_group cap msg st (g, ids) =
  match pick (st.2 !! g) (matching (m_Topic msg) st.1 ids) with
  | Some target =>
      (alter (offer cap msg) target st.1, <[g := wrap_u 64 (default 0%Z (st.2 !! g) + 1)]> st.2)
  | None => st
  end.
Proof. unfold dispatch_group, pick. by destruct (_ =? _). Qed.

Definition group_hits (topic : string) (subs : gmap string subscription) (rr : gmap string Z)
    (l : list (string * list string)) (id : string) : bool :=
  existsb (λ gm, bool_decide (pick (rr !! gm.1) (matching topic subs gm.2) = Some id)) l.

Lemma group_hits_same topic subs subs' rr rr' l id :
  same_subs subs subs' → (∀ g, g ∈ l.*1 → rr !! g = rr' !! g) →
  group_hits topic subs rr l id = group_hits topic subs' rr' l id.
Proof.
  intros Hs. induction l as [|[g ids] l IH]; intros Hrr; [done|]. unfold group_hits. cbn [existsb fst snd].
  rewrite (matching_same topic subs subs') by done. rewrite Hrr by (csimpl; by left). f_equal.
  apply IH. intros g' Hg'. apply Hrr. csimpl. by right.
Qed.

Definition next_rr (topic : string) (subs : gmap string subscription) (rr : gmap string Z)
    (ids : list string) (g : string) : option Z :=
  if bool_decide (matching topic subs ids = []) then rr !! g
  else Some (wrap_u 64 (default 0%Z (rr !! g) + 1)).

Lemma groups_spec cap msg l subs rr :
  NoDup l.*1 →
  (∀ g g' ids ids' id, (g, ids) ∈ l → (g', ids') ∈ l → id ∈ ids → id ∈ ids' → g = g') →
  let st := foldl (dispatch_group cap msg) (subs, rr) l in
  same_subs st.1 subs ∧
  (∀ id s, subs !! id = Some s →
    st.1 !! id = Some (if group_hits (m_Topic msg) subs rr l id then offer cap msg s else s)) ∧
  (∀ g ids, (g, ids) ∈ l → st.2 !! g = next_rr (m_Topic msg) subs rr ids g) ∧
  (∀ g, g ∉ l.*1 → st.2 !! g = rr !! g).
Proof.
  revert subs rr. induction l as [|[g ids] l IH]; intros subs rr.
  { intros _ _. split_and!; [done|done|set_solver|done]. }
  rewrite fmap_cons. cbn [fst]. intros [Hg Hnd]%NoDup_cons Hdis. cbn [foldl]. rewrite dispatch_group_pick. cbn [fst snd].
  set (topic := m_Topic msg).
  assert (∀ g' ids' id, (g', ids') ∈ l → id ∈ ids → id ∈ ids' → False) as Hother.
  { intros g' ids' id Hin H1 H2. assert (g = g') as ->.
    { apply (Hdis g g' ids ids' id); [by left|by right|done|done]. }
    apply Hg. by apply (list_elem_of_fmap_2 fst) in Hin. }
  assert (∀ g1 g2 ids1 ids2 id, (g1, ids1) ∈ l → (g2, ids2) ∈ l → id ∈ ids1 → id ∈ ids2 → g1 = g2) as Hdis'.
  { intros g1 g2 ids1 ids2 id H1 H2. apply Hdis; by right. }
  destruct (pick (rr !! g) (matching topic subs ids)) as [target|] eqn:Hp.
  - set (subs1 := alter (offer cap msg) target subs). set (rr1 := <[g := _]> rr).
    assert (same_subs subs1 subs) as Hs1 by apply same_subs_alter.
    assert (∀ g', g' ∈ l.*1 → rr1 !! g' = rr !! g') as Hrr1.
    { intros g' Hg'. unfold rr1. rewrite lookup_insert_ne; [done|]. by intros ->. }
    destruct (IH subs1 rr1 Hnd Hdis') as (I1 & I2 & I3 & I4). split_and!.
    + unfold same_subs in *. by rewrite I1.
    + intros id s Hs. rewrite (I2 id (if bool_decide (target = id) then offer cap msg s else s))
        by (by apply alter_offer_lookup).
      rewrite (group_hits_same topic subs1 subs rr1 rr) by done.
      unfold group_hits at 2. cbn [existsb fst snd]. rewrite Hp. fold (group_hits topic subs rr l id).
      destruct (bool_decide_reflect (target = id)) as [->|Hne].
      * rewrite bool_decide_eq_true_2 by done. simpl.
        assert (group_hits topic subs rr l id = false) as ->; [|done].
        apply not_true_iff_false. intros H%existsb_exists. destruct H as ([g' ids'] & Hin & Hb).
        apply bool_decide_eq_true, pick_elem in Hb. apply list_elem_of_In in Hin.
        apply list_elem_of_filter in Hb as [_ Hb]. apply pick_elem, list_elem_of_filter in Hp as [_ Hp].
        by apply (Hother g' ids' id).
      * rewrite bool_decide_eq_false_2 by congruence. done.
    + intros g' ids' [[= -> ->]|Hin]%elem_of_cons.
      * rewrite I4 by done. unfold rr1, next_rr. rewrite lookup_insert_eq.
        rewrite bool_decide_eq_false_2; [done|]. intros E. fold topic in E. by rewrite E in Hp.
      * rewrite (I3 g' ids' Hin). unfold next_rr. rewrite (matching_same _ subs1 subs) by done.
        rewrite Hrr1; [done|]. by apply (list_elem_of_fmap_2 fst) in Hin.
    + intros g' [Hne Hg']%not_elem_of_cons. rewrite I4 by done. unfold rr1. by rewrite lookup_insert_ne.
  - destruct (IH subs rr Hnd Hdis') as (I1 & I2 & I3 & I4). split_and!; [done| | |].
    + intros id s Hs. rewrite (I2 id s Hs). unfold group_hits at 2. cbn [existsb fst snd]. rewrite Hp. done.
    + intros g' ids' [[= -> ->]|Hin]%elem_of_cons; [|by apply I3]. rewrite I4 by done.
      unfold next_rr. apply pick_None in Hp. by rewrite bool_decide_eq_true_2.
    + intros g' [_ Hg']%not_elem_of_cons. by apply I4.
Qed.

(** * Dispatch *)

(** The member of a group that gets a message, and who receives it at all. *)
Definition chosen (eb : EventBus) (topic g : string) : option string :=
  pick (eb_groupRoundRobin eb !! g) (matching topic (eb_subs eb) (members eb g)).

Definition receives (eb : EventBus) (topic id : string) (s : subscription) : bool :=
  if bool_decide (s_group s = "") then MatchTopic (s_pattern s) topic
  else bool_decide (chosen eb topic (s_group s) = Some id).

Definition delivered (eb : EventBus) (msg : Message) (id : string) (s : subscription) : subscription :=
  if receives eb (m_Topic msg) id s then offer (cfg_QueueCapacity (eb_cfg eb)) msg s else s.

Lemma broadcast_to_range sh (subs : gmap string subscription) topic id s :
  subs !! id = Some s →
  broadcast_to topic (range_map sh subs) id = bool_decide (s_group s = "") && MatchTopic (s_pattern s) topic.
Proof.
  intros Hs. apply eq_true_iff_eq. unfold broadcast_to. rewrite existsb_exists. split.
  - intros ([k t] & Hin & Hb). apply andb_true_iff in Hb as [Hk Hb]. apply bool_decide_eq_true in Hk.
    simpl in *. subst k. apply list_elem_of_In, elem_of_range_map in Hin. by simplify_eq.
  - intros Hb. exists (id, s). split; [by apply list_elem_of_In, elem_of_range_map|]. simpl.
    by rewrite bool_decide_eq_true_2.
Qed.

Lemma group_hits_range sh eb topic id s :
  bus_ok eb → eb_subs eb !! id = Some s →
  group_hits topic (eb_subs eb) (eb_groupRoundRobin eb) (range_map sh (eb_groupMembers eb)) id =
  negb (bool_decide (s_group s = "")) && bool_decide (chosen eb topic (s_group s) = Some id).
Proof.
  intros [H1 _] Hs. apply eq_true_iff_eq. unfold group_hits. rewrite existsb_exists, andb_true_iff. split.
  - intros ([g ids] & Hin & Hb). apply list_elem_of_In, elem_of_range_map in Hin.
    apply bool_decide_eq_true in Hb. simpl in Hb. destruct (H1 g ids Hin) as (Hg & _ & Hm).
    pose proof (pick_elem _ _ _ Hb) as [_ Hid]%list_elem_of_filter.
    destruct (Hm id Hid) as (s' & Hs' & <-). simplify_eq. split; [by rewrite bool_decide_eq_false_2|].
    apply bool_decide_eq_true. unfold chosen, members. by rewrite Hin.
  - intros [Hg Hc]. apply negb_true_iff, bool_decide_eq_false in Hg. apply bool_decide_eq_true in Hc.
    unfold chosen, members in Hc. destruct (eb_groupMembers eb !! s_group s) as [ids|] eqn:E; [|done].
    exists (s_group s, ids). split; [by apply list_elem_of_In, elem_of_range_map|].
    by apply bool_decide_eq_true.
Qed.

Lemma dispatch_spec sh msg eb :
  bus_ok eb →
  let eb' := dispatch sh msg eb in
  same_subs (eb_subs eb') (eb_subs eb) ∧
  (∀ id s, eb_subs eb !! id = Some s → eb_subs eb' !! id = Some (delivered eb msg id s)) ∧
  (∀ g, eb_groupRoundRobin eb' !! g =
     next_rr (m_Topic msg) (eb_subs eb) (eb_groupRoundRobin eb) (members eb g) g).
Proof.
  intros Hok eb'. unfold eb', dispatch. set (cap := cfg_QueueCapacity (eb_cfg eb)).
  set (subs1 := broadcast cap msg (eb_subs eb) (range_map sh (eb_subs eb))).
  destruct (broadcast_spec cap msg (eb_subs eb) (range_map sh (eb_subs eb))) as [B1 B2];
    [apply NoDup_range_map_fst|]. fold subs1 in B1, B2.
  destruct (groups_spec cap msg (range_map sh (eb_groupMembers eb)) subs1 (eb_groupRoundRobin eb))
    as (G1 & G2 & G3 & G4); [apply NoDup_range_map_fst| |].
  { intros g g' ids ids' id Hg%elem_of_range_map Hg'%elem_of_range_map Hi Hi'. destruct Hok as [H1 _].
    destruct (H1 g ids Hg) as (_ & _ & Hm), (H1 g' ids' Hg') as (_ & _ & Hm').
    destruct (Hm id Hi) as (s & Hs & <-), (Hm' id Hi') as (s' & Hs' & <-). by simplify_eq. }
  destruct (foldl (dispatch_group cap msg) (subs1, eb_groupRoundRobin eb) _) as [subs2 rr2]. simpl in *.
  split_and!.
  - unfold same_subs in *. by rewrite G1.
  - intros id s Hs. specialize (B2 id s Hs). rewrite (G2 id _ B2).
    rewrite (group_hits_same _ subs1 (eb_subs eb) _ (eb_groupRoundRobin eb)) by done.
    rewrite (group_hits_range sh eb _ id s) by done. rewrite (broadcast_to_range sh _ _ id s) by done.
    unfold delivered, receives. destruct (bool_decide_reflect (s_group s = "")); simpl; done.
  - intros g. unfold members. destruct (eb_groupMembers eb !! g) as [ids|] eqn:E; simpl.
    + rewrite (G3 g ids) by (by apply elem_of_range_map). unfold next_rr.
      by rewrite (matching_same _ subs1 (eb_subs eb)).
    + rewrite G4; [done|]. intros ([g' ids] & -> & Hin%elem_of_range_map)%list_elem_of_fmap.
      simpl in E. congruence.
Qed.

(** * Reachable states *)

(** One step of the bus: a call of its interface, or a message that moves on.  A new
    subscription has a new identifier. *)
Inductive bus_step (eb : EventBus) : EventBus → Prop :=
  | step_subscribe group pattern subID :
      eb_subs eb !! subID = None → bus_step eb (subscribeInternal group pattern subID eb).2
  | step_unsubscribe subID : bus_step eb (Unsubscribe subID eb).2
  | step_publish c topic payload headers rnd now :
      (c = CaseSend → can_publish eb = true) →
      bus_step eb (Publish c topic payload headers rnd now eb).2
  | step_worker sh : bus_step eb (worker_step sh eb)
  | step_handle subID handler now : bus_step eb (subscription_step subID handler now eb)
  | step_stop : bus_step eb (Stop eb).

Lemma subscribe_ok group pattern subID eb :
  bus_ok eb → eb_subs eb !! subID = None → bus_ok (subscribeInternal group pattern subID eb).2.
Proof.
  intros Hok Hfresh. unfold subscribeInternal. case_bool_decide; [done|].
  destruct (eb_closed eb); [done|]. destruct Hok as [H1 H2].
  assert (∀ g ids, eb_groupMembers eb !! g = Some ids → g ≠ "" ∧ NoDup ids ∧ (subID ∉ ids) ∧
    ∀ id, id ∈ ids → ∃ s, <[subID := MkSub subID group pattern []]> (eb_subs eb) !! id = Some s ∧ s_group s = g)
    as H1'.
  { intros g ids Hg. destruct (H1 g ids Hg) as (? & ? & Hm). split_and!; [done|done| |].
    - intros (s & Hs & _)%Hm. congruence.
    - intros id Hid. destruct (Hm id Hid) as (s & Hs & ?). exists s. rewrite lookup_insert_ne; [done|].
      congruence. }
  case_bool_decide as Hg; simpl; split; simpl.
  - intros g ids Hm. destruct (H1' g ids Hm) as (? & ? & _ & ?). done.
  - intros id s Hs Hne. unfold members. simpl. destruct (decide (subID = id)) as [->|Hid].
    + rewrite lookup_insert_eq in Hs. injection Hs as <-. done.
    + rewrite lookup_insert_ne in Hs by done. by apply (H2 id s).
  - intros g ids Hm. destruct (decide (group = g)) as [->|Hne].
    + rewrite lookup_insert_eq in Hm. injection Hm as <-. unfold members.
      assert (∀ id, id ∈ default [] (eb_groupMembers eb !! g) →
        id ≠ subID ∧ ∃ s, eb_subs eb !! id = Some s ∧ s_group s = g) as Hold.
      { intros id Hid. destruct (eb_groupMembers eb !! g) as [ids|] eqn:E; [|by apply not_elem_of_nil in Hid].
        destruct (H1 g ids E) as (_ & _ & Hm). destruct (Hm id Hid) as (s & Hs & ?). split; [congruence|eauto]. }
      split_and!; [done| |].
      * apply NoDup_app. split_and!; [|set_solver|apply NoDup_singleton].
        destruct (eb_groupMembers eb !! g) as [ids|] eqn:E; [by destruct (H1 g ids E) as (_ & ? & _)|constructor].
      * intros id [Hid| ->%list_elem_of_singleton]%elem_of_app.
        -- destruct (Hold id Hid) as (Hne & s & ? & ?). exists s. by rewrite lookup_insert_ne.
        -- eexists. by rewrite lookup_insert_eq.
    + rewrite lookup_insert_ne in Hm by done. destruct (H1' g ids Hm) as (? & ? & _ & ?). done.
  - intros id s Hs Hne. unfold members. simpl. destruct (decide (subID = id)) as [->|Hid].
    + rewrite lookup_insert_eq in Hs. injection Hs as <-. simpl. rewrite lookup_insert_eq. simpl. set_solver.
    + rewrite lookup_insert_ne in Hs by done. specialize (H2 id s Hs Hne). unfold members in H2.
      destruct (decide (group = s_group s)) as [->|]; [rewrite lookup_insert_eq; simpl; unfold members; set_solver|].
      by rewrite lookup_insert_ne.
Qed.

Lemma unsubscribe_ok subID eb : bus_ok eb → bus_ok (Unsubscribe subID eb).2.
Proof.
  intros [H1 H2]. unfold Unsubscribe. destruct (eb_subs eb !! subID) as [sub|] eqn:Hsub; [|by split].
  case_bool_decide as Hg; simpl; split; simpl.
  - intros g ids Hm. destruct (H1 g ids Hm) as (? & ? & Hs). split_and!; [done|done|].
    intros id Hid. destruct (Hs id Hid) as (s & ? & ?). exists s. rewrite lookup_delete_ne; [done|].
    intros ->. congruence.
  - intros id s [Hne Hs]%lookup_delete_Some Hgs. by apply (H2 id s).
  - intros g ids Hm. destruct (decide (s_group sub = g)) as [<-|Hne].
    + rewrite lookup_insert_eq in Hm. injection Hm as <-. unfold members. simpl.
      destruct (eb_groupMembers eb !! s_group sub) as [ids|] eqn:E.
      * destruct (H1 _ ids E) as (? & ? & Hs). split_and!; [done|by apply NoDup_filter|].
        intros id [Hid Hin]%list_elem_of_filter. destruct (Hs id Hin) as (s & ? & ?). exists s.
        by rewrite lookup_delete_ne.
      * split_and!; [done|constructor|]. by intros id ?%not_elem_of_nil.
    + rewrite lookup_insert_ne in Hm by done. destruct (H1 g ids Hm) as (? & ? & Hs). split_and!; [done|done|].
      intros id Hid. destruct (Hs id Hid) as (s & ? & ?). exists s. rewrite lookup_delete_ne; [done|].
      intros ->. congruence.
  - intros id s [Hne Hs]%lookup_delete_Some Hgs. specialize (H2 id s Hs Hgs). unfold members in *. simpl.
    destruct (decide (s_group sub = s_group s)) as [->|]; [|by rewrite lookup_insert_ne].
    rewrite lookup_insert_eq. simpl. by apply list_elem_of_filter.
Qed.

Lemma bus_step_ok eb eb' : bus_ok eb → bus_step eb eb' → bus_ok eb'.
Proof.
  intros Hok [g p id Hf|id|c t pl h r n _|sh|id hd n|].
  - by apply subscribe_ok.
  - by apply unsubscribe_ok.
  - apply (bus_ok_same eb); [| |done]; unfold Publish; destruct (eb_closed eb); by destruct c.
  - unfold worker_step. destruct (eb_inCh eb) as [|msg q]; [done|].
    assert (bus_ok (set_inCh q eb)) as Hq by (by apply (bus_ok_same eb)).
    destruct (dispatch_spec sh msg (set_inCh q eb) Hq) as (Hs & _ & _).
    apply (bus_ok_same (set_inCh q eb)); [done| |done]. unfold dispatch. by destruct (foldl _ _ _).
  - unfold subscription_step. destruct (eb_subs eb !! id) as [sub|] eqn:Hs; [|done].
    destruct (s_ch sub) as [|msg q]; [done|]. apply (bus_ok_same eb); [| |done].
    + unfold executeHandler. destruct (attempts _ _ _ _ _) as [e []]; simpl.
      all: apply map_eq; intros k; rewrite !lookup_fmap; destruct (decide (id = k)) as [->|Hne];
        [by rewrite lookup_insert_eq, Hs|by rewrite lookup_insert_ne].
    + unfold executeHandler. by destruct (attempts _ _ _ _ _) as [e []].
  - unfold Stop. destruct (eb_closed eb); [done|]. by split.
Qed.

Lemma reachable_ok cfg eb : rtc bus_step (New cfg) eb → bus_ok eb.
Proof.
  intros H. assert (bus_ok (New cfg)) as H0 by (by split). revert H0.
  induction H as [eb|eb1 eb2 eb3 Hstep _ IH]; [done|]. intros H1. by eapply IH, bus_step_ok.
Qed.

(** C30: Who receives a message, when messages are dispatched one at a time.  In every reachable state, and in whatever order the maps are
    visited, dispatching a message offers it to exactly the individual subscribers whose patterns
    match its topic and, of every group, to one member among those whose patterns match, the one
    the round-robin counter of the group points at; nobody else's queue changes, and the counter
    moves on exactly when some member matched. *)
Theorem dispatch_delivers cfg eb sh msg :
  rtc bus_step (New cfg) eb →
  let eb' := dispatch sh msg eb in
  dom (eb_subs eb') = dom (eb_subs eb) ∧
  (∀ id s, eb_subs eb !! id = Some s → eb_subs eb' !! id = Some (delivered eb msg id s)) ∧
  (∀ g, matching (m_Topic msg) (eb_subs eb) (members eb g) ≠ [] →
     ∃ id s, chosen eb (m_Topic msg) g = Some id ∧ eb_subs eb !! id = Some s ∧ s_group s = g ∧
       MatchTopic (s_pattern s) (m_Topic msg) = true) ∧
  (∀ g, eb_groupRoundRobin eb' !! g =
     next_rr (m_Topic msg) (eb_subs eb) (eb_groupRoundRobin eb) (members eb g) g).
Proof.
  intros Hr eb'. apply reachable_ok in Hr as Hok. destruct (dispatch_spec sh msg eb Hok) as (H1 & H2 & H3).
  split_and!; [|done| |done].
  - apply (f_equal dom) in H1. by rewrite !dom_fmap_L in H1.
  - intros g Hne. destruct (chosen eb (m_Topic msg) g) as [id|] eqn:Hc; [|by apply pick_None in Hc].
    pose proof (pick_elem _ _ _ Hc) as [Hm Hin]%list_elem_of_filter. unfold members in Hin.
    destruct (eb_groupMembers eb !! g) as [ids|] eqn:E; [|by apply not_elem_of_nil in Hin].
    destruct Hok as [Hg _]. destruct (Hg g ids E) as (_ & _ & Hs). destruct (Hs id Hin) as (s & Hid & <-).
    exists id, s. split_and!; [done|done|done|]. unfold sub_matches in Hm. by rewrite Hid in Hm.
Qed.

Lemma dispatch_ok sh msg eb : bus_ok eb → bus_ok (dispatch sh msg eb).
Proof.
  intros Hok. destruct (dispatch_spec sh msg eb Hok) as (Hs & _ & _).
  apply (bus_ok_same eb); [done| |done]. unfold dispatch. by destruct (foldl _ _ _).
Qed.

Lemma dispatch_matching sh msg eb topic g :
  bus_ok eb →
  matching topic (eb_subs (dispatch sh msg eb)) (members (dispatch sh msg eb) g) =
  matching topic (eb_subs eb) (members eb g).
Proof.
  intros Hok. destruct (dispatch_spec sh msg eb Hok) as (Hs & _ & _). rewrite (matching_same _ _ _ _ Hs).
  unfold members, dispatch. by destruct (foldl _ _ _).
Qed.

(** The members of a group that a sequence of messages goes to. *)
Fixpoint choices (sh : shuffle) (g : string) (eb : EventBus) (msgs : list Message) : list (option string) :=
  match msgs with
  | [] => []
  | m :: msgs => chosen eb (m_Topic m) g :: choices sh g (dispatch sh m eb) msgs
  end.

Definition counter (eb : EventBus) (g : string) : Z := default 0%Z (eb_groupRoundRobin eb !! g).

Lemma choices_spec sh g topic ms eb msgs i :
  bus_ok eb → matching topic (eb_subs eb) (members eb g) = ms → ms ≠ [] →
  Forall (λ m, m_Topic m = topic) msgs →
  (0 ≤ counter eb g)%Z → (counter eb g + Z.of_nat (length msgs) < 2 ^ 64)%Z → i < length msgs →
  choices sh g eb msgs !! i =
    Some (ms !! Z.to_nat ((counter eb g + 1 + Z.of_nat i) mod Z.of_nat (length ms))).
Proof.
  revert eb i. induction msgs as [|m msgs IH]; intros eb i Hok Hms Hne; [simpl; lia|].
  intros [Hm Hall]%Forall_cons Hr Hw Hi. cbn [length] in Hw, Hi. cbn [choices].
  assert (wrap_u 64 (counter eb g + 1) = (counter eb g + 1)%Z) as Hwrap by (apply wrap_u_small; lia).
  assert (length ms ≠ 0) as Hlen by (by intros ?%nil_length_inv).
  destruct i as [|i].
  - cbn [lookup list_lookup]. unfold chosen, pick. rewrite Hm, Hms. destruct (Nat.eqb_spec (length ms) 0); [done|].
    change (default 0%Z (eb_groupRoundRobin eb !! g)) with (counter eb g). rewrite Hwrap. by rewrite Z.add_0_r.
  - cbn [lookup list_lookup].
    assert (counter (dispatch sh m eb) g = counter eb g + 1)%Z as Hc.
    { destruct (dispatch_spec sh m eb Hok) as (_ & _ & H). unfold counter at 1. rewrite H. unfold next_rr.
      rewrite Hm, Hms, bool_decide_eq_false_2 by done. by rewrite <- Hwrap. }
    rewrite IH; [|by apply dispatch_ok|by rewrite dispatch_matching|done|done|lia|lia|lia].
    rewrite Hc. do 4 f_equal. lia.
Qed.

Lemma choices_length sh g eb msgs : length (choices sh g eb msgs) = length msgs.
Proof. revert eb. induction msgs as [|m msgs IH]; intros eb; [done|]. simpl. by rewrite IH. Qed.

(** Groups share the work evenly.  When as many messages of a topic are dispatched as a group
    has members whose patterns match it, and the counter of the group does not overflow, every one
    of these members is chosen exactly once. *)
Theorem group_round_robin cfg eb sh g topic msgs :
  rtc bus_step (New cfg) eb →
  let ms := matching topic (eb_subs eb) (members eb g) in
  ms ≠ [] → Forall (λ m, m_Topic m = topic) msgs → length msgs = length ms →
  (0 ≤ counter eb g)%Z → (counter eb g + Z.of_nat (length msgs) < 2 ^ 64)%Z →
  choices sh g eb msgs ≡ₚ Some <$> ms.
Proof.
  intros Hr ms Hne Hall Hlen H0 Hw. apply reachable_ok in Hr as Hok.
  assert (length ms ≠ 0) as Hn by (by intros ?%nil_length_inv).
  assert (choices sh g eb msgs = Some <$> rotate (Z.to_nat (counter eb g + 1)) ms) as ->.
  { apply list_eq. intros i. rewrite list_lookup_fmap. destruct (decide (i < length ms)) as [Hi|Hi].
    - rewrite (choices_spec sh g topic ms) by (done || lia). rewrite lookup_rotate_r by done.
      unfold rotate_nat_add. rewrite Z2Nat.id by lia.
      destruct (lookup_lt_is_Some_2 ms (Z.to_nat ((counter eb g + 1 + Z.of_nat i) mod Z.of_nat (length ms))))
        as [x ->]; [|done].
      pose proof (Z.mod_pos_bound (counter eb g + 1 + Z.of_nat i) (Z.of_nat (length ms)) ltac:(lia)). lia.
    - rewrite !lookup_ge_None_2; [done|rewrite length_rotate; lia|rewrite choices_length; lia]. }
  apply fmap_Permutation. unfold rotate. rewrite Permutation_app_comm. by rewrite take_drop.
Qed.

(** * An example *)

Definition ex_subs : EventBus := Eval vm_compute in
  ((SubscribeGroup "pool" "#" "m2" (SubscribeGroup "pool" "jobs.*" "m1"
     (Subscribe "jobs.#" "a" (New DefaultConfig)).2).2).2).
Definition ex_msg : Message := MkMessage "msg-1" "jobs.run" "payload" ∅ 0 0.

Lemma ex_subs_reachable : rtc bus_step (New DefaultConfig) ex_subs.
Proof.
  eapply rtc_l; [apply (step_subscribe (New DefaultConfig) "" "jobs.#" "a"); vm_compute; reflexivity|].
  eapply rtc_l; [apply (step_subscribe _ "pool" "jobs.*" "m1"); vm_compute; reflexivity|].
  eapply rtc_l; [apply (step_subscribe _ "pool" "#" "m2"); vm_compute; reflexivity|].
  vm_compute. apply rtc_refl.
Qed.

Lemma dispatch_delivers_witness :
  rtc bus_step (New DefaultConfig) ex_subs ∧
  chosen ex_subs "jobs.run" "pool" = Some "m2" ∧
  eb_subs (dispatch shuffle_rev ex_msg ex_subs) !! "a" =
    Some (delivered ex_subs ex_msg "a" (MkSub "a" "" "jobs.#" [])) ∧
  s_ch (delivered ex_subs ex_msg "a" (MkSub "a" "" "jobs.#" [])) = [ex_msg].
Proof.
  split_and!; [apply ex_subs_reachable|vm_compute; reflexivity| |vm_compute; reflexivity].
  apply (dispatch_delivers DefaultConfig ex_subs shuffle_rev ex_msg ex_subs_reachable). vm_compute. reflexivity.
Defined.

Lemma group_round_robin_witness :
  matching "jobs.run" (eb_subs ex_subs) (members ex_subs "pool") = ["m1"; "m2"] ∧
  choices shuffle_rev "pool" ex_subs [ex_msg; ex_msg] ≡ₚ [Some "m1"; Some "m2"].
Proof.
  assert (matching "jobs.run" (eb_subs ex_subs) (members ex_subs "pool") = ["m1"; "m2"]) as E
    by (vm_compute; reflexivity).
  split; [exact E|]. pose proof (group_round_robin DefaultConfig ex_subs shuffle_rev "pool" "jobs.run"
    [ex_msg; ex_msg] ex_subs_reachable) as H. cbv zeta in H. rewrite E in H. apply H.
  - done.
  - repeat constructor.
  - reflexivity.
  - vm_compute. done.
  - vm_compute. done.
Defined.
