(* ===== verification/Ledger.v ===== *)
(** The audit ledger: [internal/ledger/ledger.go].

    Times are read from arguments.  A record is hashed as the text of its fields between colons;
    [ComputeHash] uses the SHA-256 of [Sha256]. *)
From stdpp Require Import pretty.
From S2P Require Import Prelude Errors Strings Sha256.

Abbreviation STamperedBlock :=
  (SOther "ledger: block hash does not match computed hash (tampering detected)").
Abbreviation SBrokenChain := (SOther "ledger: previous hash pointer broken (chain interrupted)").
Abbreviation SEmptyChain := (SOther "ledger: cannot verify empty ledger").

Definition GenesisHash : string := "0000000000000000000000000000000000000000000000000000000000000000".

Record LRecord := MkRecord {
  lr_Index : Z;
  lr_Timestamp : Time;
  lr_Namespace : string;
  lr_Actor : string;
  lr_Action : string;
  lr_Resource : string;
  lr_PayloadHash : string;
  lr_PrevHash : string;
  lr_BlockHash : string
}.

(** [time.Unix(0, 0)], and [ts.UnixNano()]. *)
Definition unix_epoch : Time := (62135596800 * 10 ^ 9)%Z.
Definition UnixNano (ts : Time) : Z := wrap_s 64 (ts - unix_epoch).

Abbreviation colon := (":"%char).

(** The text that is hashed. *)
Definition hashed_text (index : Z) (ts : Time) (ns actor action resource payloadHash prevHash : string) :
    string :=
  pretty index +:+ String colon (pretty (UnixNano ts) +:+ String colon (ns +:+ String colon (actor +:+
    String colon (action +:+ String colon (resource +:+ String colon (payloadHash +:+
      String colon prevHash)))))).

Definition ComputeHash (index : Z) (ts : Time) (ns actor action resource payloadHash prevHash : string) :
    string :=
  sha256_hex (hashed_text index ts ns actor action resource payloadHash prevHash).

Definition HashPayload (payload : string) : string := sha256_hex payload.

Definition NewLedger : list LRecord :=
  [MkRecord 0 unix_epoch "system" "system" "GENESIS" "root" GenesisHash GenesisHash
     (ComputeHash 0 unix_epoch "system" "system" "GENESIS" "root" GenesisHash GenesisHash)].

(** [None] is the panic of the index expression on a ledger without records. *)
Definition Append (ns actor action resource payload : string) (now : Time) (l : list LRecord) :
    option (LRecord * list LRecord) :=
  match last l with
  | None => None
  | Some prev =>
      let newIdx := wrap_u 64 (lr_Index prev + 1) in
      let pHash := HashPayload payload in
      let prevHash := lr_BlockHash prev in
      let rec := MkRecord newIdx now ns actor action resource pHash prevHash
                   (ComputeHash newIdx now ns actor action resource pHash prevHash) in
      Some (rec, l ++ [rec])
  end.

Definition expectedHash (r : LRecord) : string :=
  ComputeHash (lr_Index r) (lr_Timestamp r) (lr_Namespace r) (lr_Actor r) (lr_Action r) (lr_Resource r)
    (lr_PayloadHash r) (lr_PrevHash r).

Fixpoint verify_from (prev : LRecord) (l : list LRecord) : option error :=
  match l with
  | [] => None
  | curr :: l' =>
      if negb (bool_decide (lr_PrevHash curr = lr_BlockHash prev)) then
        Some (EWrap "%w: record %d PrevHash %s != record %d BlockHash %s"
                [pretty (lr_Index curr); lr_PrevHash curr; pretty (lr_Index prev); lr_BlockHash prev]
                (ESentinel SBrokenChain))
      else if negb (bool_decide (lr_BlockHash curr = expectedHash curr)) then
        Some (EWrap "%w: record %d BlockHash %s != computed %s"
                [pretty (lr_Index curr); lr_BlockHash curr; expectedHash curr] (ESentinel STamperedBlock))
      else verify_from curr l'
  end.

Definition Verify (l : list LRecord) : option error :=
  match l with
  | [] => Some (ESentinel SEmptyChain)
  | genesis :: l' => verify_from genesis l'
  end.

Definition Length (l : list LRecord) : nat := length l.

Definition selected (ns actor action : string) (r : LRecord) : bool :=
  (bool_decide (ns = "") || bool_decide (lr_Namespace r = ns)) &&
  (bool_decide (actor = "") || bool_decide (lr_Actor r = actor)) &&
  (bool_decide (action = "") || bool_decide (lr_Action r = action)).

(** The loop over the records from the newest, with those found so far. *)
Fixpoint query_loop (ns actor action : string) (limit : Z) (rest out : list LRecord) : list LRecord :=
  match rest with
  | [] => out
  | r :: rest' =>
      if negb (selected ns actor action r) then query_loop ns actor action limit rest' out
      else
        let out := out ++ [r] in
        if (0 <? limit)%Z && (limit <=? Z.of_nat (length out))%Z then out
        else query_loop ns actor action limit rest' out
  end.

Definition Query (ns actor action : string) (limit : Z) (l : list LRecord) : list LRecord :=
  query_loop ns actor action limit (reverse l) [].

(** * The chain *)

#[local] Opaque sha256_hex.

(** One link: the hash of the previous record, and the hash of its own text. *)
Definition linked (prev curr : LRecord) : Prop :=
  lr_PrevHash curr = lr_BlockHash prev ∧ lr_BlockHash curr = expectedHash curr.

Lemma verify_from_cons prev curr l :
  verify_from prev (curr :: l) = None ↔ linked prev curr ∧ verify_from curr l = None.
Proof.
  simpl. unfold linked. destruct (bool_decide_reflect (lr_PrevHash curr = lr_BlockHash prev)); simpl; [|naive_solver].
  destruct (bool_decide_reflect (lr_BlockHash curr = expectedHash curr)); simpl; naive_solver.
Qed.

Lemma verify_from_snoc prev l curr :
  verify_from prev (l ++ [curr]) = None ↔
  verify_from prev l = None ∧ linked (List.last l prev) curr.
Proof.
  revert prev. induction l as [|r l IH]; intros prev.
  - cbn [app]. rewrite verify_from_cons. simpl. naive_solver.
  - cbn [app]. rewrite !verify_from_cons, IH. destruct l as [|r' l]; [naive_solver|].
    change (List.last (r :: r' :: l) prev) with (List.last (r' :: l) prev).
    assert (List.last (r' :: l) r = List.last (r' :: l) prev) as ->; [|naive_solver].
    clear. revert r'. induction l as [|x l IH]; intros r'; [done|]. apply IH.
Qed.

(** ** Appending *)

(** The entries of a log: what a call of [Append] was given. *)
Record entry := MkEntry {
  en_ns : string; en_actor : string; en_action : string; en_resource : string;
  en_payload : string; en_now : Time
}.

Definition append_entry (l : list LRecord) (e : entry) : list LRecord :=
  match Append (en_ns e) (en_actor e) (en_action e) (en_resource e) (en_payload e) (en_now e) l with
  | Some (_, l') => l'
  | None => l
  end.

Definition ledger (es : list entry) : list LRecord := foldl append_entry NewLedger es.

Definition entry_fields (r : LRecord) : string * string * string * string * Time :=
  (lr_Namespace r, lr_Actor r, lr_Action r, lr_Resource r, lr_Timestamp r).

Lemma ledger_snoc es e :
  ∃ r prev, ledger (es ++ [e]) = ledger es ++ [r] ∧ last (ledger es) = Some prev ∧ linked prev r ∧
    lr_Index r = wrap_u 64 (lr_Index prev + 1) ∧
    entry_fields r = (en_ns e, en_actor e, en_action e, en_resource e, en_now e) ∧
    lr_PayloadHash r = HashPayload (en_payload e).
Proof.
  assert (ledger es ≠ []) as Hne.
  { unfold ledger. assert (NewLedger ≠ []) as H by done. revert H. generalize NewLedger.
    induction es as [|e' es IH]; intros l Hl; [done|]. simpl. apply IH. unfold append_entry, Append.
    destruct (last l); [|done]. by destruct l. }
  unfold ledger at 1. rewrite foldl_app. simpl. fold (ledger es). unfold append_entry, Append.
  destruct (last (ledger es)) as [prev|] eqn:E; [|by apply last_None in E].
  eexists _, prev. split; [reflexivity|]. split_and!; try done.
Qed.

Lemma ledger_cons es : ∃ g l, ledger es = g :: l ∧ NewLedger = [g].
Proof.
  induction es as [|e es IH] using rev_ind; [by eexists _, []|].
  destruct IH as (g & l & E & H), (ledger_snoc es e) as (r & prev & -> & _). rewrite E. by eexists _, _.
Qed.

Lemma last_List_last {A} (x d : A) l : last (x :: l) = Some (List.last l x).
Proof.
  revert x. induction l as [|y l IH]; intros x; [done|]. change (last (x :: y :: l)) with (last (y :: l)).
  rewrite IH. f_equal. destruct l as [|z l]; [done|]. change (List.last (y :: z :: l) x) with (List.last (z :: l) x).
  clear. revert z. induction l as [|w l IH]; intros z; [done|]. apply IH.
Qed.

(** C37: A ledger records what was appended, in order, and verifies.  Record number [i + 1] has the
    fields of entry [i], the hash of its payload and, below 2^64, its position as index. *)
Theorem ledger_records es :
  Verify (ledger es) = None ∧ Length (ledger es) = S (length es) ∧
  ∀ i e, es !! i = Some e →
    ∃ r, ledger es !! S i = Some r ∧ lr_Index r = wrap_u 64 (Z.of_nat (S i)) ∧
      entry_fields r = (en_ns e, en_actor e, en_action e, en_resource e, en_now e) ∧
      lr_PayloadHash r = HashPayload (en_payload e).
Proof.
  induction es as [|e es (Hv & Hl & Hr)] using rev_ind; [by split_and!|].
  destruct (ledger_snoc es e) as (r & prev & E & Hp & Hlink & Hidx & Hf & Hpay). rewrite E.
  destruct (ledger_cons es) as (g & l & Eg & HN). unfold Length in *. split_and!.
  - rewrite Eg in *. cbn [app Verify] in *. apply verify_from_snoc. split; [done|].
    rewrite (last_List_last g g) in Hp. by injection Hp as ->.
  - rewrite !length_app, Hl. simpl. lia.
  - intros i e' Hi. destruct (decide (i < length es)) as [Hlt|Hge].
    + rewrite lookup_app_l in Hi by done. destruct (Hr i e' Hi) as (r' & ? & ?). exists r'.
      rewrite lookup_app_l by lia. done.
    + assert (i = length es) as -> by (apply lookup_lt_Some in Hi; rewrite length_app in Hi; simpl in Hi; lia).
      rewrite list_lookup_middle in Hi by done. injection Hi as <-. exists r.
      rewrite list_lookup_middle by done. split_and!; [done| |done|done]. rewrite Hidx.
      assert (lr_Index prev = wrap_u 64 (Z.of_nat (length es))) as ->.
      { destruct (decide (es = [])) as [->|Hne].
        - apply (f_equal last) in HN. rewrite Eg in Hp. injection Eg as <- <-. by injection Hp as <-.
        - assert (length es ≠ 0) as Hlen by (by intros ?%nil_length_inv).
          destruct (lookup_lt_is_Some_2 es (length es - 1)) as [e0 He0]; [lia|].
          destruct (Hr _ e0 He0) as (r0 & H0 & Hi0 & _).
          replace (S (length es - 1)) with (length es) in H0, Hi0 by lia.
          rewrite last_lookup, Hl in Hp. cbn [pred] in Hp. rewrite Hp in H0. by injection H0 as ->. }
      unfold wrap_u. rewrite Zplus_mod_idemp_l. f_equal. lia.
Qed.

(** The newest matching records come first.  A query returns the records with the given fields,
    from the newest on, and with a positive limit the first so many of them. *)
Theorem Query_newest_first ns actor action limit l :
  let found := filter (λ r, selected ns actor action r = true) (reverse l) in
  Query ns actor action limit l = if (0 <? limit)%Z then take (Z.to_nat limit) found else found.
Proof.
  intros found. unfold Query. subst found. set (rest := reverse l). clearbody rest.
  assert (∀ out, ((0 <? limit) = true → Z.of_nat (length out) < limit)%Z →
    query_loop ns actor action limit rest out =
    out ++ (if (0 <? limit)%Z then take (Z.to_nat limit - length out) (filter (λ r, selected ns actor action r = true) rest)
            else filter (λ r, selected ns actor action r = true) rest)) as H.
  { induction rest as [|r rest IH]; intros out Hout; cbn [query_loop].
    - rewrite filter_nil, take_nil. destruct (0 <? limit)%Z; by rewrite app_nil_r.
    - rewrite filter_cons. destruct (selected ns actor action r) eqn:Es; simpl; [|by apply IH].
      rewrite length_app. simpl. destruct (Z.ltb_spec 0 limit) as [H0|H0]; simpl.
      + specialize (Hout eq_refl). destruct (Z.leb_spec limit (Z.of_nat (length out + 1))) as [H1|H1].
        * replace (Z.to_nat limit - length out) with 1 by lia. simpl. by rewrite take_0.
        * rewrite IH; [|rewrite length_app; simpl; lia].
          rewrite length_app. simpl. replace (Z.to_nat limit - length out) with (S (Z.to_nat limit - (length out + 1))) by lia.
          simpl. by rewrite <- app_assoc.
      + rewrite IH by (rewrite length_app; simpl; lia). by rewrite <- app_assoc. }
  rewrite H; [|simpl; rewrite Z.ltb_lt; lia]. simpl. by rewrite Nat.sub_0_r.
Qed.

(** ** Tampering *)

Definition text_of (r : LRecord) : string :=
  hashed_text (lr_Index r) (lr_Timestamp r) (lr_Namespace r) (lr_Actor r) (lr_Action r) (lr_Resource r)
    (lr_PayloadHash r) (lr_PrevHash r).

(** Fields without colons. *)
Definition plain (r : LRecord) : Prop :=
  no_char colon (lr_Namespace r) ∧ no_char colon (lr_Actor r) ∧ no_char colon (lr_Action r) ∧
  no_char colon (lr_Resource r) ∧ no_char colon (lr_PayloadHash r).

(** A time within the range of [UnixNano], the years 1678 to 2262. *)
Definition near (r : LRecord) : Prop := (- 2 ^ 63 <= lr_Timestamp r - unix_epoch < 2 ^ 63)%Z.

(** The same record, but for its timestamp, which has the same number of nanoseconds as an [int64]. *)
Definition same_record (r r' : LRecord) : Prop :=
  UnixNano (lr_Timestamp r) = UnixNano (lr_Timestamp r') ∧
  r' = MkRecord (lr_Index r) (lr_Timestamp r') (lr_Namespace r) (lr_Actor r) (lr_Action r) (lr_Resource r)
         (lr_PayloadHash r) (lr_PrevHash r) (lr_BlockHash r).

Lemma pretty_N_no_colon (n : N) : no_char colon (pretty n).
Proof.
  apply (string_forall_impl digit_char); [|apply pretty_N_digits]. intros c Hc. apply negb_true_iff.
  apply ascii_eqb_false. intros <-. vm_compute in Hc. done.
Qed.

Lemma pretty_Z_no_colon (z : Z) : no_char colon (pretty z).
Proof.
  destruct z as [|p|p]; [by vm_compute|apply (pretty_N_no_colon (Npos p))|].
  change (pretty (Zneg p)) with (String "-"%char (pretty (Npos p))). apply no_char_cons.
  split; [done|apply pretty_N_no_colon].
Qed.

Lemma text_of_inj r r' :
  plain r → plain r' → lr_BlockHash r = lr_BlockHash r' → text_of r = text_of r' → same_record r r'.
Proof.
  destruct r as [i t ns ac an re pa pr bl], r' as [i' t' ns' ac' an' re' pa' pr' bl'].
  intros (H1 & H2 & H3 & H4 & H5) (H1' & H2' & H3' & H4' & H5'). simpl in *. intros ->.
  unfold text_of, hashed_text. cbn [lr_Index lr_Timestamp lr_Namespace lr_Actor lr_Action lr_Resource
    lr_PayloadHash lr_PrevHash]. intros E.
  apply split_at_char in E as [->%(inj pretty) E]; [|apply pretty_Z_no_colon..].
  apply split_at_char in E as [Et%(inj pretty) E]; [|apply pretty_Z_no_colon..].
  apply split_at_char in E as [-> E]; [|done..]. apply split_at_char in E as [-> E]; [|done..].
  apply split_at_char in E as [-> E]; [|done..]. apply split_at_char in E as [-> E]; [|done..].
  apply split_at_char in E as [-> ->]; [|done..]. done.
Qed.

Lemma same_record_near r r' : same_record r r' → near r → near r' → r = r'.
Proof.
  destruct r as [i t ns ac an re pa pr bl], r' as [i' t' ns' ac' an' re' pa' pr' bl'].
  intros [Et E] Hn Hn'. unfold near, UnixNano in *. simpl in *. injection E as -> -> -> -> -> -> -> ->.
  rewrite !wrap_s_small in Et by (simpl; lia). f_equal. lia.
Qed.

Lemma same_records_near l l' : Forall2 same_record l l' → Forall near l → Forall near l' → l = l'.
Proof.
  induction 1 as [|r r' l l' Hr _ IH]; [done|]. intros [H1 H2]%Forall_cons [H1' H2']%Forall_cons.
  by rewrite (same_record_near r r'), IH.
Qed.

(** C36: Tampering is evident.  Two ledgers of one length that verify and end with the same hash have
    the same records after the first, when the fields have no colons and no two of the hashed texts
    collide: the records agree in all fields but the timestamps, the timestamps agree as numbers of
    nanoseconds of 64 bits, and so they are equal when they are in the range of such numbers. *)
Theorem tamper_evident l l' :
  Verify l = None → Verify l' = None → length l = length l' →
  lr_BlockHash <$> last l = lr_BlockHash <$> last l' →
  Forall plain (tail l) → Forall plain (tail l') →
  (∀ r r', r ∈ tail l → r' ∈ tail l' → expectedHash r = expectedHash r' → text_of r = text_of r') →
  Forall2 same_record (tail l) (tail l') ∧
  (Forall near (tail l) → Forall near (tail l') → tail l = tail l') ∧
  lr_BlockHash <$> head l = lr_BlockHash <$> head l'.
Proof.
  destruct l as [|g l], l' as [|g' l']; try done. cbn [Verify tail head length].
  intros Hv Hv' Hlen. rewrite !(last_List_last _ g). cbn [fmap option_fmap option_map].
  intros Hlast Hp Hp' Hcol.
  enough (Forall2 same_record l l' ∧ lr_BlockHash g = lr_BlockHash g') as [Hl ->].
  { split_and!; [done|by apply same_records_near|done]. }
  revert l' Hv' Hlen Hlast Hp' Hcol. induction l as [|r l IH] using rev_ind; intros l' Hv' Hlen Hlast Hp' Hcol.
  { destruct l'; [|done]. simpl in Hlast. injection Hlast as ->. done. }
  destruct l' as [|r' l' _] using rev_ind; [rewrite length_app in Hlen; simpl in Hlen; lia|].
  rewrite !length_app in Hlen. simpl in Hlen. apply verify_from_snoc in Hv as [Hv [Hl1 Hl2]], Hv' as [Hv' [Hl1' Hl2']].
  rewrite !List.last_last in Hlast. injection Hlast as Hlast.
  apply Forall_app in Hp as [Hp [Hr _]%Forall_cons], Hp' as [Hp' [Hr' _]%Forall_cons].
  assert (same_record r r') as Hsame.
  { apply text_of_inj; [done..|]. apply Hcol; [apply elem_of_app; right; by left..|]. congruence. }
  assert (lr_PrevHash r = lr_PrevHash r') as Hprev by (by destruct Hsame as [_ ->]).
  destruct (IH Hv Hp l') as [Hll Hg]; [done|lia|congruence|done| |].
  { intros x x' Hx Hx'. apply Hcol; apply elem_of_app; by left. }
  split; [|done]. apply Forall2_app; [done|]. by constructor.
Qed.

(** A record is replaced by one with the same hashes. *)
Lemma Verify_replaced g g' l1 l2 r r' :
  lr_BlockHash g = lr_BlockHash g' → expectedHash r' = expectedHash r →
  lr_PrevHash r' = lr_PrevHash r → lr_BlockHash r' = lr_BlockHash r →
  Verify (g' :: l1 ++ r' :: l2) = None ↔ Verify (g :: l1 ++ r :: l2) = None.
Proof.
  intros Hg Hh Hprev Hblock. cbn [Verify].
  assert (∀ p p' c, lr_BlockHash p = lr_BlockHash p' → linked p c ↔ linked p' c) as Hl.
  { intros p p' c E. unfold linked. by rewrite E. }
  assert (∀ p p' l, lr_BlockHash p = lr_BlockHash p' → verify_from p l = None ↔ verify_from p' l = None) as Hv.
  { intros p p' [|c l] E; [done|]. rewrite !verify_from_cons. by rewrite (Hl p p'). }
  revert g g' Hg. induction l1 as [|c l1 IH]; intros g g' Hg; cbn [app]; rewrite !verify_from_cons.
  - assert (linked g' r' ↔ linked g r) as ->; [|by rewrite (Hv r' r)].
    unfold linked. by rewrite Hh, Hg, Hprev, Hblock.
  - by rewrite (Hl g g' c), (IH c c).
Qed.

(** Changes that are not noticed.  The first record is not checked against its own hash, and the
    text that is hashed does not tell where a field ends: moving the part of a namespace after a
    colon to the actor leaves the ledger as it was for [Verify]. *)
Theorem unnoticed_changes g g' l1 l2 i t x y actor action resource payload prev block :
  lr_BlockHash g = lr_BlockHash g' →
  Verify (g' :: l1 ++ MkRecord i t x (y +:+ String colon actor) action resource payload prev block :: l2) = None ↔
  Verify (g :: l1 ++ MkRecord i t (x +:+ String colon y) actor action resource payload prev block :: l2) = None.
Proof.
  intros Hg. apply Verify_replaced; [done| |done|done].
  unfold expectedHash, ComputeHash, hashed_text. simpl. do 4 f_equal. rewrite <- !string_app_assoc. done.
Qed.

(** The timestamp of a record can be moved by 2^64 nanoseconds, which is 584 years. *)
Theorem unnoticed_centuries g l1 l2 i t ns actor action resource payload prev block :
  Verify (g :: l1 ++ MkRecord i (t + 2 ^ 64) ns actor action resource payload prev block :: l2) = None ↔
  Verify (g :: l1 ++ MkRecord i t ns actor action resource payload prev block :: l2) = None.
Proof.
  apply Verify_replaced; [done| |done|done].
  unfold expectedHash, ComputeHash, hashed_text. cbn [lr_Index lr_Timestamp lr_Namespace lr_Actor lr_Action lr_Resource
    lr_PayloadHash lr_PrevHash].
  assert (UnixNano (t + 2 ^ 64) = UnixNano t) as ->; [|done]. unfold UnixNano, wrap_s.
  replace (t + 2 ^ 64 - unix_epoch + 2 ^ (64 - 1))%Z with (t - unix_epoch + 2 ^ (64 - 1) + 1 * 2 ^ 64)%Z by lia.
  by rewrite Z_mod_plus_full.
Qed.

(** * An example *)

Definition ex_ledger : list LRecord := Eval vm_compute in
  ledger [MkEntry "prod" "ann" "DEPLOY" "api" "v1" (unix_epoch + 5); MkEntry "prod" "bo" "STOP" "api" "" (unix_epoch + 9)].

Definition no_collision (l : list LRecord) : bool :=
  forallb (λ r, forallb (λ r', negb (bool_decide (expectedHash r = expectedHash r')) ||
    bool_decide (text_of r = text_of r')) l) l.

Lemma tamper_evident_witness :
  Verify ex_ledger = None ∧ no_collision (tail ex_ledger) = true ∧ tail ex_ledger = tail ex_ledger.
Proof.
  assert (Verify ex_ledger = None) as Hv by (vm_compute; reflexivity).
  assert (no_collision (tail ex_ledger) = true) as Hc by (vm_compute; reflexivity).
  assert (Forall plain (tail ex_ledger)) as Hp by decide_closed.
  split; [exact Hv|]. split; [exact Hc|].
  assert (Forall near (tail ex_ledger)) as Hn by decide_closed.
  refine (proj1 (proj2 (tamper_evident ex_ledger ex_ledger Hv Hv eq_refl eq_refl Hp Hp _)) Hn Hn).
  intros r r' Hr Hr' E. unfold no_collision in Hc. rewrite forallb_forall in Hc.
  specialize (Hc r (proj1 (list_elem_of_In _ _) Hr)). cbv beta in Hc. rewrite forallb_forall in Hc.
  specialize (Hc r' (proj1 (list_elem_of_In _ _) Hr')). cbv beta in Hc.
  rewrite (bool_decide_eq_true_2 _ E) in Hc. by apply bool_decide_eq_true in Hc.
Defined.

(** The hashes of the first record, and of a record appended to it. *)
Definition ex_genesis : string := Eval vm_compute in
  ComputeHash 0 unix_epoch "system" "system" "GENESIS" "root" GenesisHash GenesisHash.
Definition ex_payload : string := Eval vm_compute in HashPayload "v1".
Definition ex_block : string := Eval vm_compute in
  ComputeHash 1 unix_epoch "prod:eu" "ann" "DEPLOY" "api" ex_payload ex_genesis.

Lemma unnoticed_changes_witness :
  Verify (MkRecord 0 7 "" "" "" "" "" "" ex_genesis ::
          [MkRecord 1 unix_epoch "prod" "eu:ann" "DEPLOY" "api" ex_payload ex_genesis ex_block]) = None.
Proof.
  apply (unnoticed_changes (MkRecord 0 unix_epoch "system" "system" "GENESIS" "root" GenesisHash GenesisHash ex_genesis)
    (MkRecord 0 7 "" "" "" "" "" "" ex_genesis) [] [] 1 unix_epoch "prod" "eu" "ann" "DEPLOY" "api" ex_payload
    ex_genesis ex_block); vm_compute; reflexivity.
Defined.
