(* ===== verification/Lock.v ===== *)
(** Locks whose waiters can give up: [internal/lock/lock.go].

    A call of [Lock] or [RLock] that has to wait owns a channel with room for one token; calls and
    their channels share a number.  The critical sections under the mutex [mu] are functions on the
    state of the lock; [select] may take either case that is ready, so a call can give up although
    its channel holds a token. *)
From stdpp Require Import relations.
From S2P Require Import Prelude.
Local Open Scope Z_scope.

(** * The mutual exclusion lock *)

Record Lock := MkLock {
  l_held : bool;
  l_waiters : list nat
}.

Definition New : Lock := MkLock false [].

(** The first section of [Lock]: true when the lock is taken at once. *)
Definition Lock_Lock (ch : nat) (l : Lock) : bool * Lock :=
  if l_held l then (false, MkLock (l_held l) (l_waiters l ++ [ch]))
  else (true, MkLock true (l_waiters l)).

(** [for i, w := range waiters]: remove the first occurrence. *)
Fixpoint remove_chan (ch : nat) (waiters : list nat) : list nat :=
  match waiters with
  | [] => []
  | w :: ws => if decide (w = ch) then ws else w :: remove_chan ch ws
  end.

(** The section of [Lock] after [ctx.Done()]. *)
Definition Lock_cancel (ch : nat) (l : Lock) : Lock :=
  MkLock (l_held l) (remove_chan ch (l_waiters l)).

Definition TryLock (l : Lock) : bool * Lock :=
  if l_held l then (false, l) else (true, MkLock true (l_waiters l)).

(** The channel that is sent a token, if any. *)
Definition Unlock (l : Lock) : option nat * Lock :=
  if l_held l then
    match l_waiters l with
    | ch :: ws => (Some ch, MkLock (l_held l) ws)
    | [] => (None, MkLock false [])
    end
  else (None, l).

Definition IsHeld (l : Lock) : bool := l_held l.
Definition Waiters (l : Lock) : nat := length (l_waiters l).

(** * The readers-writer lock *)

Record RWLock := MkRWLock {
  rw_readers : Z;
  rw_writerHeld : bool;
  rw_writerWaiters : Z;
  rw_readerWaiters : list nat;
  rw_writerQueue : list nat
}.

Definition NewRWLock : RWLock := MkRWLock 0 false 0 [] [].

Definition RLock (ch : nat) (rw : RWLock) : bool * RWLock :=
  if negb (rw_writerHeld rw) && (rw_writerWaiters rw =? 0) then
    (true, MkRWLock (rw_readers rw + 1) (rw_writerHeld rw) (rw_writerWaiters rw) (rw_readerWaiters rw)
             (rw_writerQueue rw))
  else
    (false, MkRWLock (rw_readers rw) (rw_writerHeld rw) (rw_writerWaiters rw) (rw_readerWaiters rw ++ [ch])
              (rw_writerQueue rw)).

Definition RLock_cancel (ch : nat) (rw : RWLock) : RWLock :=
  MkRWLock (rw_readers rw) (rw_writerHeld rw) (rw_writerWaiters rw) (remove_chan ch (rw_readerWaiters rw))
    (rw_writerQueue rw).

(** The channels that are sent a token. *)
Definition RUnlock (rw : RWLock) : list nat * RWLock :=
  let readers := rw_readers rw - 1 in
  match rw_writerQueue rw with
  | ch :: q =>
      if readers =? 0 then
        ([ch], MkRWLock readers true (rw_writerWaiters rw - 1) (rw_readerWaiters rw) q)
      else ([], MkRWLock readers (rw_writerHeld rw) (rw_writerWaiters rw) (rw_readerWaiters rw) (ch :: q))
  | [] => ([], MkRWLock readers (rw_writerHeld rw) (rw_writerWaiters rw) (rw_readerWaiters rw) [])
  end.

Definition RW_Lock (ch : nat) (rw : RWLock) : bool * RWLock :=
  if (rw_readers rw =? 0) && negb (rw_writerHeld rw) then
    (true, MkRWLock (rw_readers rw) true (rw_writerWaiters rw) (rw_readerWaiters rw) (rw_writerQueue rw))
  else
    (false, MkRWLock (rw_readers rw) (rw_writerHeld rw) (rw_writerWaiters rw + 1) (rw_readerWaiters rw)
              (rw_writerQueue rw ++ [ch])).

Definition RW_Lock_cancel (ch : nat) (rw : RWLock) : RWLock :=
  MkRWLock (rw_readers rw) (rw_writerHeld rw) (rw_writerWaiters rw - 1) (rw_readerWaiters rw)
    (remove_chan ch (rw_writerQueue rw)).

(** [for len(rw.readerWaiters) > 0]: every waiting reader is counted and sent a token. *)
Fixpoint wake_readers (ws : list nat) (readers : Z) : list nat * Z :=
  match ws with
  | [] => ([], readers)
  | ch :: ws' => let '(woken, readers') := wake_readers ws' (readers + 1) in (ch :: woken, readers')
  end.

Definition RW_Unlock (rw : RWLock) : list nat * RWLock :=
  if negb (rw_writerHeld rw) then ([], rw)
  else
    match rw_readerWaiters rw with
    | _ :: _ =>
        let '(woken, readers) := wake_readers (rw_readerWaiters rw) (rw_readers rw) in
        (woken, MkRWLock readers false (rw_writerWaiters rw) [] (rw_writerQueue rw))
    | [] =>
        match rw_writerQueue rw with
        | ch :: q => ([ch], MkRWLock (rw_readers rw) true (rw_writerWaiters rw - 1) [] q)
        | [] => ([], MkRWLock (rw_readers rw) false (rw_writerWaiters rw) [] [])
        end
    end.

Definition TryRLock (rw : RWLock) : bool * RWLock :=
  if rw_writerHeld rw || (0 <? rw_writerWaiters rw) then (false, rw)
  else (true, MkRWLock (rw_readers rw + 1) (rw_writerHeld rw) (rw_writerWaiters rw) (rw_readerWaiters rw)
                (rw_writerQueue rw)).

Definition RW_TryLock (rw : RWLock) : bool * RWLock :=
  if (0 <? rw_readers rw) || rw_writerHeld rw then (false, rw)
  else (true, MkRWLock (rw_readers rw) true (rw_writerWaiters rw) (rw_readerWaiters rw) (rw_writerQueue rw)).

(** * Calls *)

(** What a call is doing.  A call that waits, or that has chosen to give up and has not yet entered
    its last section, has a token in its channel or not; a call that gave up leaves its channel. *)
Inductive mode := Rd | Wr.
Inductive status :=
  | Waiting (m : mode) (token : bool)
  | Leaving (m : mode) (token : bool)
  | Holding (m : mode)
  | Left (m : mode) (token : bool)
  | Finished.

#[export] Instance mode_eq_dec : EqDecision mode.
Proof. solve_decision. Defined.
#[export] Instance status_eq_dec : EqDecision status.
Proof. solve_decision. Defined.

(** The lock was given to the call, and it has not given it back. *)
Definition owns (m : mode) (st : status) : bool :=
  match st with
  | Waiting m' token | Leaving m' token | Left m' token => bool_decide (m' = m) && token
  | Holding m' => bool_decide (m' = m)
  | Finished => false
  end.

(** [ch <- struct{}{}] *)
Definition send_token (st : status) : status :=
  match st with
  | Waiting m _ => Waiting m true
  | Leaving m _ => Leaving m true
  | Left m _ => Left m true
  | st => st
  end.

Abbreviation calls := (gmap nat status) (only parsing).

Definition send (cs : calls) (ch : nat) : calls := alter send_token ch cs.
Definition sends (chs : list nat) (cs : calls) : calls := foldl send cs chs.

(** ** Runs of the mutual exclusion lock *)

Inductive lock_step : Lock * calls → Lock * calls → Prop :=
  | lock_call l cs c :
      cs !! c = None →
      lock_step (l, cs) ((Lock_Lock c l).2,
        <[c := if (Lock_Lock c l).1 then Holding Wr else Waiting Wr false]> cs)
  | lock_try l cs c :
      cs !! c = None →
      lock_step (l, cs) ((TryLock l).2, <[c := if (TryLock l).1 then Holding Wr else Finished]> cs)
  | lock_granted l cs c :
      cs !! c = Some (Waiting Wr true) → lock_step (l, cs) (l, <[c := Holding Wr]> cs)
  | lock_done l cs c token :
      cs !! c = Some (Waiting Wr token) → lock_step (l, cs) (l, <[c := Leaving Wr token]> cs)
  | lock_leave l cs c token :
      cs !! c = Some (Leaving Wr token) → lock_step (l, cs) (Lock_cancel c l, <[c := Left Wr token]> cs)
  | lock_unlock l cs c :
      cs !! c = Some (Holding Wr) →
      lock_step (l, cs) ((Unlock l).2, sends (option_list (Unlock l).1) (<[c := Finished]> cs)).

(** ** Runs of the readers-writer lock *)

(** Steps that give up are marked. *)
Inductive rw_step : bool → RWLock * calls → RWLock * calls → Prop :=
  | rw_rlock rw cs c :
      cs !! c = None →
      rw_step false (rw, cs) ((RLock c rw).2, <[c := if (RLock c rw).1 then Holding Rd else Waiting Rd false]> cs)
  | rw_lock rw cs c :
      cs !! c = None →
      rw_step false (rw, cs) ((RW_Lock c rw).2, <[c := if (RW_Lock c rw).1 then Holding Wr else Waiting Wr false]> cs)
  | rw_tryrlock rw cs c :
      cs !! c = None →
      rw_step false (rw, cs) ((TryRLock rw).2, <[c := if (TryRLock rw).1 then Holding Rd else Finished]> cs)
  | rw_trylock rw cs c :
      cs !! c = None →
      rw_step false (rw, cs) ((RW_TryLock rw).2, <[c := if (RW_TryLock rw).1 then Holding Wr else Finished]> cs)
  | rw_granted rw cs c m :
      cs !! c = Some (Waiting m true) → rw_step false (rw, cs) (rw, <[c := Holding m]> cs)
  | rw_done rw cs c m token :
      cs !! c = Some (Waiting m token) → rw_step true (rw, cs) (rw, <[c := Leaving m token]> cs)
  | rw_leave_reader rw cs c token :
      cs !! c = Some (Leaving Rd token) → rw_step true (rw, cs) (RLock_cancel c rw, <[c := Left Rd token]> cs)
  | rw_leave_writer rw cs c token :
      cs !! c = Some (Leaving Wr token) → rw_step true (rw, cs) (RW_Lock_cancel c rw, <[c := Left Wr token]> cs)
  | rw_runlock rw cs c :
      cs !! c = Some (Holding Rd) →
      rw_step false (rw, cs) ((RUnlock rw).2, sends (RUnlock rw).1 (<[c := Finished]> cs))
  | rw_unlock rw cs c :
      cs !! c = Some (Holding Wr) →
      rw_step false (rw, cs) ((RW_Unlock rw).2, sends (RW_Unlock rw).1 (<[c := Finished]> cs)).
