(* ===== verification/LockFacts.v ===== *)
(** The locks exclude each other under every interleaving, and where they can get stuck. *)
From stdpp Require Import relations.
From S2P Require Import Prelude Lock.
Local Open Scope Z_scope.

(** * Counting calls *)

Definition tally (P : status → bool) (cs : calls) : nat := size (filter (λ kv, P kv.2 = true) cs).

Lemma tally_new P cs c st :
  cs !! c = None → tally P (<[c := st]> cs) = (tally P cs + Nat.b2n (P st))%nat.
Proof.
  intros Hc. unfold tally. destruct (P st) eqn:E.
  - rewrite map_filter_insert_True by done. rewrite map_size_insert_None; [simpl; lia|].
    apply map_lookup_filter_None. by left.
  - rewrite map_filter_insert_not' by (simpl; congruence || (rewrite Hc; done)). simpl. lia.
Qed.

Lemma tally_change P cs c st st' :
  cs !! c = Some st → (tally P (<[c := st']> cs) + Nat.b2n (P st) = tally P cs + Nat.b2n (P st'))%nat.
Proof.
  intros Hc. rewrite <- (insert_delete_id cs c st Hc) at 2. rewrite <- insert_delete_eq.
  rewrite !tally_new by apply lookup_delete_eq. lia.
Qed.

Lemma tally_zero P cs : tally P cs = 0%nat ↔ ∀ c st, cs !! c = Some st → P st = false.
Proof.
  unfold tally. rewrite map_size_empty_iff, map_empty. split.
  - intros H c st Hc. specialize (H c). apply map_lookup_filter_None in H as [H|H]; [congruence|].
    apply not_true_iff_false. by apply (H st).
  - intros H c. apply map_lookup_filter_None. right. intros st Hc. simpl. rewrite (H c st Hc). done.
Qed.

Lemma tally_owner P cs c st : cs !! c = Some st → P st = true → (0 < tally P cs)%nat.
Proof.
  intros Hc HP. destruct (decide (tally P cs = 0%nat)) as [H|H]; [|lia].
  rewrite tally_zero in H. specialize (H c st Hc). congruence.
Qed.

Lemma tally_two P cs c c' st st' :
  cs !! c = Some st → cs !! c' = Some st' → P st = true → P st' = true → c ≠ c' → (2 <= tally P cs)%nat.
Proof.
  intros Hc Hc' HP HP' Hne. rewrite <- (insert_delete_id cs c st Hc).
  rewrite tally_new by apply lookup_delete_eq. rewrite HP. simpl.
  assert (0 < tally P (delete c cs))%nat as H'; [|lia].
  apply (tally_owner P _ c' st'); [by rewrite lookup_delete_ne|done].
Qed.

(** A call that is registered in the queue of its mode and was not given the lock. *)
Definition queued (m : mode) (cs : calls) (c : nat) : Prop :=
  cs !! c = Some (Waiting m false) ∨ cs !! c = Some (Leaving m false).

Record queue_ok (m : mode) (q : list nat) (cs : calls) : Prop := {
  q_nodup : NoDup q;
  q_queued : ∀ c, c ∈ q → queued m cs c
}.

Lemma queue_ok_change m q cs c st :
  queue_ok m q cs → c ∉ q → queue_ok m q (<[c := st]> cs).
Proof.
  intros [H1 H2] Hc. split; [done|]. intros c' Hc'. unfold queued. rewrite lookup_insert_ne by (by intros ->).
  by apply H2.
Qed.

Lemma queue_ok_not m q cs c st :
  queue_ok m q cs → cs !! c = st → st ≠ Some (Waiting m false) → st ≠ Some (Leaving m false) → c ∉ q.
Proof. intros [_ H] Hc H1 H2 Hin. destruct (H c Hin) as [E|E]; congruence. Qed.

Lemma queue_ok_enqueue m q cs c :
  queue_ok m q cs → cs !! c = None → queue_ok m (q ++ [c]) (<[c := Waiting m false]> cs).
Proof.
  intros Hq Hc. assert (c ∉ q) as Hin by (by apply (queue_ok_not m q cs c None)).
  destruct (queue_ok_change m q cs c (Waiting m false) Hq Hin) as [H1 H2]. split.
  - apply NoDup_app. split_and!; [done| |apply NoDup_singleton]. intros x Hx ->%list_elem_of_singleton. done.
  - intros c' [Hc'| ->%list_elem_of_singleton]%elem_of_app; [by apply H2|]. left. apply lookup_insert_eq.
Qed.

Lemma queue_ok_leaving m q cs c :
  queue_ok m q cs → cs !! c = Some (Waiting m false) → queue_ok m q (<[c := Leaving m false]> cs).
Proof.
  intros [H1 H2] Hc. split; [done|]. intros c' Hc'. unfold queued. destruct (decide (c = c')) as [->|Hne].
  - rewrite lookup_insert_eq. by right.
  - rewrite lookup_insert_ne by done. by apply H2.
Qed.

Lemma remove_chan_elem c q x : NoDup q → x ∈ remove_chan c q ↔ x ∈ q ∧ x ≠ c.
Proof.
  induction 1 as [|w q Hw _ IH]; simpl; [set_solver|]. destruct (decide (w = c)) as [->|Hne].
  - rewrite elem_of_cons. split; [|naive_solver]. intros Hx. split; [by right|]. by intros ->.
  - rewrite !elem_of_cons, IH. naive_solver.
Qed.

Lemma remove_chan_NoDup c q : NoDup q → NoDup (remove_chan c q).
Proof.
  intros Hnd. pose proof Hnd as Hnd'. revert Hnd. induction q as [|w q IH]; [done|]. intros [Hw Hq]%NoDup_cons. simpl. destruct (decide (w = c)); [done|].
  constructor; [|by apply IH]. rewrite remove_chan_elem by done. naive_solver.
Qed.

Lemma queue_ok_remove m q cs c st :
  queue_ok m q cs → queue_ok m (remove_chan c q) (<[c := st]> cs).
Proof.
  intros [H1 H2]. apply queue_ok_change.
  - split; [by apply remove_chan_NoDup|]. intros x [Hx _]%remove_chan_elem; [|done]. by apply H2.
  - rewrite remove_chan_elem by done. naive_solver.
Qed.

(** ** Sending tokens *)

Lemma sends_lookup chs cs c :
  sends chs cs !! c = if decide (c ∈ chs) then send_token <$> cs !! c else cs !! c.
Proof.
  revert cs. induction chs as [|ch chs IH]; intros cs; [done|]. unfold sends. cbn [foldl].
  fold (sends chs (send cs ch)). rewrite IH. unfold send. destruct (decide (ch = c)) as [->|Hne].
  - rewrite lookup_alter_eq. rewrite (decide_True (P := c ∈ c :: chs)) by by left.
    destruct (decide (c ∈ chs)); [|done]. destruct (cs !! c) as [[]|]; done.
  - rewrite lookup_alter_ne by done. destruct (decide (c ∈ chs)) as [H|H].
    + by rewrite decide_True by by right.
    + rewrite decide_False; [done|]. intros [->|]%elem_of_cons; done.
Qed.

Lemma alter_as_insert {A} (f : A → A) (m : gmap nat A) i x : m !! i = Some x → alter f i m = <[i := f x]> m.
Proof.
  intros H. apply map_eq. intros j. destruct (decide (i = j)) as [->|Hne].
  - by rewrite lookup_alter_eq, lookup_insert_eq, H.
  - by rewrite lookup_alter_ne, lookup_insert_ne.
Qed.

Lemma send_tally m m' cs c :
  queued m cs c →
  tally (owns m') (send cs c) = (tally (owns m') cs + Nat.b2n (bool_decide (m = m')))%nat.
Proof.
  unfold send. intros [Hc|Hc]; rewrite (alter_as_insert _ _ _ _ Hc);
    pose proof (tally_change (owns m') cs c _ (send_token (Waiting m false)) Hc);
    pose proof (tally_change (owns m') cs c _ (send_token (Leaving m false)) Hc); simpl in *;
    rewrite andb_false_r, andb_true_r in *; simpl in *; lia.
Qed.

Lemma sends_tally m m' chs cs :
  queue_ok m chs cs →
  tally (owns m') (sends chs cs) = (tally (owns m') cs + (if bool_decide (m = m') then length chs else 0))%nat.
Proof.
  revert cs. induction chs as [|c chs IH]; intros cs Hq; [simpl; case_bool_decide; unfold sends; simpl; lia|].
  destruct Hq as [[Hc Hnd]%NoDup_cons Hq]. unfold sends. cbn [foldl]. fold (sends chs (send cs c)).
  rewrite IH.
  - rewrite (send_tally m m') by (apply Hq; by left). case_bool_decide; simpl; lia.
  - split; [done|]. intros x Hx. unfold queued, send. rewrite lookup_alter_ne by (by intros ->).
    apply Hq. by right.
Qed.

Lemma queue_ok_sends m q chs cs : queue_ok m q cs → (∀ c, c ∈ q → c ∉ chs) → queue_ok m q (sends chs cs).
Proof.
  intros [H1 H2] Hd. split; [done|]. intros c Hc. unfold queued. rewrite sends_lookup, decide_False by auto.
  by apply H2.
Qed.

Lemma queue_ok_disjoint q q' cs c : queue_ok Rd q cs → queue_ok Wr q' cs → c ∈ q → c ∉ q'.
Proof. intros [_ H] [_ H'] Hc Hc'. destruct (H c Hc), (H' c Hc'); congruence. Qed.

(** * The readers-writer lock *)

Record rw_inv (s : RWLock * calls) : Prop := {
  i_readers : rw_readers s.1 = Z.of_nat (tally (owns Rd) s.2);
  i_writer : tally (owns Wr) s.2 = Nat.b2n (rw_writerHeld s.1);
  i_excl : rw_writerHeld s.1 = true → rw_readers s.1 = 0;
  i_readerq : queue_ok Rd (rw_readerWaiters s.1) s.2;
  i_writerq : queue_ok Wr (rw_writerQueue s.1) s.2
}.

Lemma queue_ok_idle m q cs c st st' :
  queue_ok m q cs → cs !! c = st → st ≠ Some (Waiting m false) → st ≠ Some (Leaving m false) →
  queue_ok m q (<[c := st']> cs).
Proof. intros Hq Hc H1 H2. apply queue_ok_change; [done|]. by apply (queue_ok_not m q cs c st). Qed.

Lemma queue_ok_other m m' q cs c st st' :
  queue_ok m q cs → m ≠ m' → cs !! c = Some st → st = Waiting m' false ∨ st = Leaving m' false →
  queue_ok m q (<[c := st']> cs).
Proof. intros Hq Hm Hc Hst. apply (queue_ok_idle m q cs c (Some st)); [done..| |]; destruct Hst; congruence. Qed.

(** The ways a step changes the calls, on the counts of owners. *)
Ltac tally_step :=
  match goal with
  | H : ?cs !! ?c = None |- context [tally ?P (<[?c := ?st]> ?cs)] => rewrite (tally_new P cs c st H)
  | H : ?cs !! ?c = Some ?st |- context [tally ?P (<[?c := ?st']> ?cs)] =>
      let E := fresh in
      generalize (tally_change P cs c st st' H); generalize (tally P (<[c := st']> cs)); intros ? E; simpl in E
  end.

Ltac queue_step :=
  first [by apply queue_ok_enqueue | by apply queue_ok_leaving | by apply queue_ok_remove
        |eapply queue_ok_idle; [eassumption|eassumption|done|done]].
Ltac rw_cbn := cbn [fst snd rw_readers rw_writerHeld rw_writerWaiters rw_readerWaiters rw_writerQueue Nat.b2n].

Lemma wake_readers_spec ws n : wake_readers ws n = (ws, n + Z.of_nat (length ws)).
Proof.
  revert n. induction ws as [|w ws IH]; intros n; simpl; [f_equal; lia|]. rewrite IH. f_equal. lia.
Qed.

(** Giving the lock to calls of one queue. *)
Lemma sends_readers ws cs q :
  queue_ok Rd ws cs → queue_ok Wr q cs →
  tally (owns Rd) (sends ws cs) = (tally (owns Rd) cs + length ws)%nat ∧
  tally (owns Wr) (sends ws cs) = tally (owns Wr) cs ∧ queue_ok Wr q (sends ws cs).
Proof.
  intros Hr Hw. rewrite !(sends_tally Rd) by done. split_and!; [done|simpl; lia|].
  apply queue_ok_sends; [done|]. intros c Hc Hc'. by apply (queue_ok_disjoint ws q cs c).
Qed.

Lemma sends_writer w cs q ws :
  queue_ok Wr (w :: q) cs → queue_ok Rd ws cs →
  tally (owns Rd) (sends [w] cs) = tally (owns Rd) cs ∧
  tally (owns Wr) (sends [w] cs) = (tally (owns Wr) cs + 1)%nat ∧
  queue_ok Wr q (sends [w] cs) ∧ queue_ok Rd ws (sends [w] cs).
Proof.
  intros [[Hw Hnd]%NoDup_cons Hq] Hr.
  assert (queue_ok Wr [w] cs) as H1.
  { split; [apply NoDup_singleton|]. intros x ->%list_elem_of_singleton. apply Hq. by left. }
  rewrite !(sends_tally Wr) by done. split_and!; [simpl; lia|done| |].
  - apply queue_ok_sends; [split; [done|]; intros x Hx; apply Hq; by right|].
    intros x Hx ->%list_elem_of_singleton. done.
  - apply queue_ok_sends; [done|]. intros x Hx ->%list_elem_of_singleton.
    apply (queue_ok_disjoint ws [w] cs w Hr H1 Hx). by left.
Qed.

Lemma runlock_inv rw cs c :
  rw_inv (rw, cs) → cs !! c = Some (Holding Rd) →
  rw_inv ((RUnlock rw).2, sends (RUnlock rw).1 (<[c := Finished]> cs)).
Proof.
  intros [I1 I2 I3 I4 I5] Hc. simpl in *.
  pose proof (queue_ok_idle _ _ _ c _ Finished I4 Hc ltac:(done) ltac:(done)) as I4'.
  pose proof (queue_ok_idle _ _ _ c _ Finished I5 Hc ltac:(done) ltac:(done)) as I5'.
  pose proof (tally_change (owns Rd) cs c _ Finished Hc) as TR.
  pose proof (tally_change (owns Wr) cs c _ Finished Hc) as TW. simpl in TR, TW.
  assert (rw_writerHeld rw = false) as Hw.
  { apply not_true_iff_false. intros H. specialize (I3 H).
    pose proof (tally_owner (owns Rd) cs c _ Hc eq_refl). lia. }
  unfold RUnlock. destruct (rw_writerQueue rw) as [|w q] eqn:Eq; simpl.
  { unfold sends. simpl. split; simpl; rewrite ?Hw in *; done || lia. }
  destruct (Z.eqb_spec (rw_readers rw - 1) 0) as [E|E]; rw_cbn.
  - destruct (sends_writer w _ q _ I5' I4') as (S1 & S2 & S3 & S4). rewrite Hw in I2. simpl in I2.
    split; rw_cbn; [lia|lia|done|done|done].
  - unfold sends. simpl. split; simpl; rewrite ?Hw in *; done || lia.
Qed.

Lemma unlock_inv rw cs c :
  rw_inv (rw, cs) → cs !! c = Some (Holding Wr) →
  rw_inv ((RW_Unlock rw).2, sends (RW_Unlock rw).1 (<[c := Finished]> cs)).
Proof.
  intros [I1 I2 I3 I4 I5] Hc. simpl in *.
  pose proof (queue_ok_idle _ _ _ c _ Finished I4 Hc ltac:(done) ltac:(done)) as I4'.
  pose proof (queue_ok_idle _ _ _ c _ Finished I5 Hc ltac:(done) ltac:(done)) as I5'.
  pose proof (tally_change (owns Rd) cs c _ Finished Hc) as TR.
  pose proof (tally_change (owns Wr) cs c _ Finished Hc) as TW. simpl in TR, TW.
  pose proof (tally_owner (owns Wr) cs c _ Hc eq_refl) as Hpos.
  assert (rw_writerHeld rw = true) as Hw by (destruct (rw_writerHeld rw); [done|]; simpl in I2; lia).
  specialize (I3 Hw). rewrite Hw in I2. simpl in I2. unfold RW_Unlock. rewrite Hw. simpl.
  destruct (rw_readerWaiters rw) as [|r ws] eqn:Er.
  - destruct (rw_writerQueue rw) as [|w q] eqn:Eq; rw_cbn.
    + unfold sends. simpl. split; simpl; done || lia.
    + destruct (sends_writer w _ q _ I5' I4') as (S1 & S2 & S3 & S4). split; rw_cbn; done || lia.
  - rewrite wake_readers_spec. cbn [fst snd].
    destruct (sends_readers _ _ _ I4' I5') as (S1 & S2 & S3).
    split; rw_cbn.
    + lia.
    + lia.
    + done.
    + split; [constructor|]. by intros ? ?%not_elem_of_nil.
    + done.
Qed.

Lemma rw_step_inv b s s' : rw_inv s → rw_step b s s' → rw_inv s'.
Proof.
  intros I Hs. destruct Hs as [rw cs c Hc|rw cs c Hc|rw cs c Hc|rw cs c Hc|rw cs c m Hc|rw cs c m t Hc|rw cs c t Hc|rw cs c t Hc|rw cs c Hc|rw cs c Hc];
    [| | | | | | | |by apply runlock_inv|by apply unlock_inv]; destruct I as [I1 I2 I3 I4 I5]; simpl in *.
  - unfold RLock. destruct (negb (rw_writerHeld rw) && (rw_writerWaiters rw =? 0)) eqn:E; simpl.
    + apply andb_true_iff in E as [E _]. apply negb_true_iff in E. split; simpl; repeat tally_step; simpl.
      * lia.
      * lia.
      * congruence.
      * queue_step.
      * queue_step.
    + split; simpl; repeat tally_step; simpl; [lia|lia|done|queue_step|queue_step].
  - unfold RW_Lock. destruct ((rw_readers rw =? 0) && negb (rw_writerHeld rw)) eqn:E; simpl.
    + apply andb_true_iff in E as [E0 E]. apply negb_true_iff in E. rewrite E in I2. simpl in I2.
      apply Z.eqb_eq in E0. split; simpl; repeat tally_step; simpl.
      * lia.
      * lia.
      * done.
      * queue_step.
      * queue_step.
    + split; simpl; repeat tally_step; simpl; [lia|lia|done|queue_step|queue_step].
  - unfold TryRLock. destruct (rw_writerHeld rw || (0 <? rw_writerWaiters rw)) eqn:E; simpl.
    + split; simpl; repeat tally_step; simpl; [lia|lia|done|queue_step..].
    + apply orb_false_iff in E as [E _]. split; simpl; repeat tally_step; simpl;
        [lia|lia|congruence|queue_step..].
  - unfold RW_TryLock. destruct ((0 <? rw_readers rw) || rw_writerHeld rw) eqn:E; simpl.
    + split; simpl; repeat tally_step; simpl; [lia|lia|done|queue_step..].
    + apply orb_false_iff in E as [E0 E]. apply Z.ltb_ge in E0. rewrite E in I2. simpl in I2.
      split; simpl; repeat tally_step; simpl; [lia|lia|lia|queue_step..].
  - destruct m; split; simpl; repeat tally_step; simpl;
      (done || lia || queue_step).
  - destruct m, t; split; simpl; repeat tally_step; simpl;
      (done || lia || queue_step).
  - destruct t; split; simpl; repeat tally_step; simpl;
      (done || lia || queue_step).
  - destruct t; split; simpl; repeat tally_step; simpl;
      (done || lia || queue_step).
Qed.

Definition rw_run (s s' : RWLock * calls) : Prop := rtc (λ s s', ∃ b, rw_step b s s') s s'.

Lemma rw_reachable_inv s : rw_run (NewRWLock, ∅) s → rw_inv s.
Proof.
  intros H. assert (rw_inv (NewRWLock, ∅)) as H0.
  { split; simpl; [done..| |]; (split; [constructor|by intros ? ?%not_elem_of_nil]). }
  revert H0. induction H as [s|s1 s2 s3 [b Hs] _ IH]; [done|]. intros I. by eapply IH, rw_step_inv.
Qed.

(** C7: Readers and writers exclude each other.  After any interleaving of calls that take the lock,
    try to, wait, give up and release it, the counter of readers is the number of calls the lock was
    given to for reading, whoever holds it; the flag of the writer says whether it was given to a call
    for writing; and a call that holds the lock for writing is the only one that holds it. *)
Theorem rw_exclusion s :
  rw_run (NewRWLock, ∅) s →
  rw_readers s.1 = Z.of_nat (tally (owns Rd) s.2) ∧
  tally (owns Wr) s.2 = Nat.b2n (rw_writerHeld s.1) ∧
  ∀ c m, s.2 !! c = Some (Holding Wr) →
    (s.2 !! m = Some (Holding Rd) → False) ∧ (s.2 !! m = Some (Holding Wr) → m = c).
Proof.
  intros Hr. destruct (rw_reachable_inv s Hr) as [I1 I2 I3 _ _]. split_and!; [done|done|]. intros c m Hc.
  pose proof (tally_owner (owns Wr) s.2 c _ Hc eq_refl) as Hpos.
  destruct (rw_writerHeld s.1); simpl in I2; [|lia]. specialize (I3 eq_refl). split.
  - intros Hm. pose proof (tally_owner (owns Rd) s.2 m _ Hm eq_refl). lia.
  - intros Hm. destruct (decide (m = c)) as [|Hne]; [done|].
    pose proof (tally_two (owns Wr) s.2 m c _ _ Hm Hc eq_refl eq_refl Hne). lia.
Qed.

(** ** Progress without giving up *)

(** Without calls that give up, waiting writers are counted exactly, readers wait only behind a
    writer, and nobody waits for a lock that is free. *)
Definition shape (rw : RWLock) : Prop :=
  rw_writerWaiters rw = Z.of_nat (length (rw_writerQueue rw)) ∧
  (rw_readerWaiters rw ≠ [] → rw_writerHeld rw = true ∨ rw_writerQueue rw ≠ []) ∧
  (rw_readerWaiters rw ≠ [] ∨ rw_writerQueue rw ≠ [] → rw_writerHeld rw = true ∨ 0 < rw_readers rw).

Definition place_ok (rq wq : list nat) (c : nat) (st : status) : Prop :=
  match st with
  | Waiting Rd false => c ∈ rq
  | Waiting Wr false => c ∈ wq
  | Leaving _ _ | Left _ _ => False
  | _ => True
  end.

Lemma place_insert rq wq rq' wq' (cs : calls) c st :
  (∀ c st, cs !! c = Some st → place_ok rq wq c st) → place_ok rq' wq' c st →
  (∀ c, c ∈ rq → c ∈ rq') → (∀ c, c ∈ wq → c ∈ wq') →
  ∀ c' st', <[c := st]> cs !! c' = Some st' → place_ok rq' wq' c' st'.
Proof.
  intros H Hst Hr Hw c' st'. destruct (decide (c = c')) as [->|Hne].
  - rewrite lookup_insert_eq. by intros [= <-].
  - rewrite lookup_insert_ne by done. intros Hc. specialize (H c' st' Hc). unfold place_ok in *.
    repeat case_match; auto.
Qed.

Lemma place_sends rq wq rq' wq' chs (cs : calls) :
  (∀ c st, cs !! c = Some st → place_ok rq wq c st) →
  (∀ c, c ∈ rq → c ∈ rq' ∨ c ∈ chs) → (∀ c, c ∈ wq → c ∈ wq' ∨ c ∈ chs) →
  ∀ c st, sends chs cs !! c = Some st → place_ok rq' wq' c st.
Proof.
  intros H Hr Hw c st. rewrite sends_lookup. destruct (decide (c ∈ chs)) as [Hc|Hc].
  - intros (st0 & E & Hst0)%fmap_Some. specialize (H c st0 E). subst st.
    destruct st0 as [[] []|[] []|[]|[] []|]; simpl in *; done.
  - intros E. specialize (H c st E). unfold place_ok in *. repeat case_match; naive_solver.
Qed.


Lemma app_not_nil {A} (l : list A) x : l ++ [x] ≠ [].
Proof. by destruct l. Qed.

Lemma shape_calls c rw :
  0 <= rw_readers rw → shape rw →
  shape (RLock c rw).2 ∧ shape (RW_Lock c rw).2 ∧ shape (TryRLock rw).2 ∧ shape (RW_TryLock rw).2.
Proof.
  destruct rw as [n wh ww rq wq]. unfold shape, RLock, RW_Lock, TryRLock, RW_TryLock. rw_cbn.
  intros Hn (S1 & S2 & S3). pose proof (app_not_nil rq c). pose proof (app_not_nil wq c).
  split; [|split; [|split]].
  - destruct wh; simpl.
    { split_and!; auto. } destruct (Z.eqb_spec ww 0) as [E|E]; simpl.
    + assert (wq = []) as -> by (apply nil_length_inv; lia). split_and!; [done|naive_solver|intros; right; lia].
    + assert (wq ≠ []) as Hq by (intros ->; simpl in *; lia). split_and!; [done|by right|]. intros _. apply S3. by right.
  - destruct (Z.eqb_spec n 0) as [E|E], wh; simpl; rewrite ?length_app; simpl;
      (split_and!; [lia|by auto|]); auto; intros _; right; lia.
  - destruct wh; simpl; [by split_and!|]. destruct (Z.ltb_spec 0 ww) as [E|E]; simpl; [by split_and!|].
    split_and!; [done|done|intros; right; lia].
  - destruct (Z.ltb_spec 0 n) as [E|E], wh; simpl; (split_and!; auto).
Qed.

Lemma shape_releases rw :
  0 < rw_readers rw ∧ rw_writerHeld rw = false → shape rw → shape (RUnlock rw).2.
Proof.
  destruct rw as [n wh ww rq wq]. unfold shape, RUnlock. rw_cbn. intros [Hn ->] (S1 & S2 & S3).
  destruct wq as [|w wq]; rw_cbn.
  - split_and!; [done|done|]. intros [H|H]; [|done]. by destruct (S2 H).
  - destruct (Z.eqb_spec (n - 1) 0) as [E|E]; rw_cbn; split_and!; simpl in *; try lia; auto; intros _; right; lia.
Qed.

Lemma shape_unlocks rw :
  rw_readers rw = 0 → shape rw → shape (RW_Unlock rw).2.
Proof.
  destruct rw as [n wh ww rq wq]. unfold shape, RW_Unlock. rw_cbn. intros -> (S1 & S2 & S3).
  destruct wh; rw_cbn; [|done]. destruct rq as [|r rq].
  - destruct wq as [|w wq]; simpl in *; split_and!; auto; try lia; naive_solver.
  - rewrite wake_readers_spec. rw_cbn. split_and!; [done|done|]. intros _. right. simpl. lia.
Qed.

Record live_inv (s : RWLock * calls) : Prop := {
  v_inv : rw_inv s;
  v_shape : shape s.1;
  v_calls : ∀ c st, s.2 !! c = Some st → place_ok (rw_readerWaiters s.1) (rw_writerQueue s.1) c st
}.

Lemma live_step s s' : live_inv s → rw_step false s s' → live_inv s'.
Proof.
  intros [I V1 V2] Hs. pose proof (rw_step_inv _ _ _ I Hs) as I'. split; [done| |]; clear I';
    destruct I as [I1 I2 I3 _ _];
    inversion Hs as [rw cs c Hc|rw cs c Hc|rw cs c Hc|rw cs c Hc|rw cs c m Hc| | | |rw cs c Hc|rw cs c Hc];
    subst; rw_cbn; cbn [fst snd] in *; try (apply (shape_calls c); [lia|done]); try done.
  - pose proof (tally_owner (owns Rd) cs c _ Hc eq_refl). apply shape_releases; [|done].
    split; [lia|]. apply not_true_iff_false. intros H'. specialize (I3 H'). lia.
  - apply shape_unlocks; [|done]. apply I3. pose proof (tally_owner (owns Wr) cs c _ Hc eq_refl).
    destruct (rw_writerHeld rw); [done|]. simpl in I2. lia.
  - unfold RLock. destruct (_ && _); rw_cbn; (eapply place_insert; [done|..]); simpl; auto; set_solver.
  - unfold RW_Lock. destruct (_ && _); rw_cbn; (eapply place_insert; [done|..]); simpl; auto; set_solver.
  - unfold TryRLock. destruct (_ || _); rw_cbn; (eapply place_insert; [done|..]); simpl; auto.
  - unfold RW_TryLock. destruct (_ || _); rw_cbn; (eapply place_insert; [done|..]); simpl; auto.
  - eapply place_insert; [done|..]; simpl; auto.
  - eapply place_sends; [eapply (place_insert _ _ _ _ cs c Finished); [done|done|done|done]|..]; unfold RUnlock;
      destruct (rw_writerQueue rw) as [|w q]; rw_cbn; try destruct (_ =? _); rw_cbn; set_solver.
  - eapply place_sends; [eapply (place_insert _ _ _ _ cs c Finished); [done|done|done|done]|..]; unfold RW_Unlock;
      destruct (rw_writerHeld rw); rw_cbn; try (by auto); destruct (rw_readerWaiters rw) as [|r rq];
      [destruct (rw_writerQueue rw)| |destruct (rw_writerQueue rw)|]; rewrite ?wake_readers_spec; rw_cbn; set_solver.
Qed.

(** C11: Nobody waits for a free lock.  When no call gives up, a call that waits without having been
    given the lock waits for another call that holds it or is just being given it: there is always a
    call that can go on. *)
Theorem rw_no_deadlock s c m :
  rtc (rw_step false) (NewRWLock, ∅) s → s.2 !! c = Some (Waiting m false) →
  ∃ c' m', s.2 !! c' = Some (Holding m') ∨ s.2 !! c' = Some (Waiting m' true).
Proof.
  intros Hr Hc. assert (live_inv s) as [I (S1 & S2 & S3) V].
  { assert (live_inv (NewRWLock, ∅)) as H0.
    { split; [by apply (rw_reachable_inv (NewRWLock, ∅)), rtc_refl|split_and!; simpl; naive_solver|done]. }
    revert H0. induction Hr as [s|s1 s2 s3 Hs _ IH]; [done|]. intros H1. apply IH; [done|]. by apply (live_step s1). }
  specialize (V c _ Hc) as Hin. destruct I as [I1 I2 I3 _ _].
  assert (rw_readerWaiters s.1 ≠ [] ∨ rw_writerQueue s.1 ≠ []) as Hq.
  { destruct m; simpl in Hin; [left|right]; intros E; rewrite E in Hin; by apply not_elem_of_nil in Hin. }
  assert (∃ m', tally (owns m') s.2 ≠ 0%nat) as [m' Hm'].
  { destruct (S3 Hq) as [H|H]; [exists Wr; rewrite H in I2; simpl in I2; lia|exists Rd; lia]. }
  unfold tally in Hm'. apply map_size_non_empty_iff in Hm'. apply map_choose in Hm' as (c' & st & Hst).
  apply map_lookup_filter_Some in Hst as [Hst Ho]. simpl in Ho. exists c', m'. specialize (V c' st Hst).
  destruct st as [m1 []|m1 t|m1|m1 t|]; simpl in *; try done.
  - right. rewrite andb_true_r in Ho. apply bool_decide_eq_true in Ho as ->. done.
  - by rewrite andb_false_r in Ho.
  - left. by apply bool_decide_eq_true in Ho as ->.
Qed.

(** A writer that gives up can strand readers.  There is a run after which the lock is free,
    nobody owns it, and a reader that queued behind a writer, which gave up since, still waits. *)
Theorem cancelled_writer_strands_readers :
  ∃ s, rw_run (NewRWLock, ∅) s ∧ s.2 !! 2%nat = Some (Waiting Rd false) ∧
    s.1 = MkRWLock 0 false 0 [2%nat] [] ∧
    tally (owns Rd) s.2 = 0%nat ∧ tally (owns Wr) s.2 = 0%nat.
Proof.
  eexists. split.
  - eapply rtc_l; [exists false; apply (rw_rlock _ _ 0); reflexivity|].
    eapply rtc_l; [exists false; apply (rw_lock _ _ 1); vm_compute; reflexivity|].
    eapply rtc_l; [exists false; apply (rw_rlock _ _ 2); vm_compute; reflexivity|].
    eapply rtc_l; [exists true; apply (rw_done _ _ 1 Wr false); vm_compute; reflexivity|].
    eapply rtc_l; [exists true; apply (rw_leave_writer _ _ 1 false); vm_compute; reflexivity|].
    eapply rtc_l; [exists false; apply (rw_runlock _ _ 0); vm_compute; reflexivity|].
    apply rtc_refl.
  - vm_compute. split_and!; reflexivity.
Qed.

(** * The mutual exclusion lock *)

Record lock_inv (s : Lock * calls) : Prop := {
  k_owner : tally (owns Wr) s.2 = Nat.b2n (l_held s.1);
  k_queue : queue_ok Wr (l_waiters s.1) s.2;
  k_taken : l_waiters s.1 ≠ [] → l_held s.1 = true
}.

Lemma lock_step_inv s s' : lock_inv s → lock_step s s' → lock_inv s'.
Proof.
  intros I Hs. destruct Hs as [l cs c Hc|l cs c Hc|l cs c Hc|l cs c t Hc|l cs c t Hc|l cs c Hc];
    destruct I as [K1 K2 K3]; simpl in *.
  - unfold Lock_Lock. destruct (l_held l) eqn:E; simpl; split; simpl; repeat tally_step; simpl in *; (done || lia || queue_step).
  - unfold TryLock. destruct (l_held l) eqn:E; simpl; split; simpl; repeat tally_step; rewrite ?E; simpl in *; (done || lia || queue_step).
  - split; simpl; repeat tally_step; (done || lia || queue_step).
  - destruct t; split; simpl; repeat tally_step; (done || lia || queue_step).
  - destruct t; split; simpl; repeat tally_step; (lia || queue_step || idtac).
    all: intros H; apply K3; intros E; by rewrite E in H.
  - pose proof (tally_change (owns Wr) cs c _ Finished Hc) as T. simpl in T.
    pose proof (tally_owner (owns Wr) cs c _ Hc eq_refl) as Hpos.
    pose proof (queue_ok_idle _ _ _ c _ Finished K2 Hc ltac:(done) ltac:(done)) as K2'.
    unfold Unlock. destruct (l_held l) eqn:E; simpl in K1; [|lia].
    destruct (l_waiters l) as [|w ws] eqn:Ew; cbn [fst snd option_list].
    + unfold sends. simpl. split; simpl; [lia|done|done].
    + destruct (sends_writer w _ ws [] K2') as (_ & S2 & S3 & _); [split; [constructor|by intros ? ?%not_elem_of_nil]|].
      change (option_list (Some w)) with [w]. split; cbn [fst snd l_held l_waiters Nat.b2n]; [lia|done|done].
Qed.

Lemma lock_reachable_inv s : rtc lock_step (New, ∅) s → lock_inv s.
Proof.
  intros H. assert (lock_inv (New, ∅)) as H0 by (split; [done|split; [constructor|by intros ? ?%not_elem_of_nil]|done]).
  revert H0. induction H as [s|s1 s2 s3 Hs _ IH]; [done|]. intros I. by eapply IH, lock_step_inv.
Qed.

(** What happens to the calls that own the lock: a call keeps it until it releases it, and one that
    gave up with its token keeps it for good. *)
Lemma left_stays s s' c : lock_inv s → lock_step s s' → s.2 !! c = Some (Left Wr true) → s'.2 !! c = Some (Left Wr true).
Proof.
  intros [_ K _] Hs Hc. destruct Hs as [l cs c' Hc'|l cs c' Hc'|l cs c' Hc'|l cs c' t Hc'|l cs c' t Hc'|l cs c' Hc']; simpl in *.
  1-5: rewrite lookup_insert_ne; [done|intros ->; congruence].
  rewrite sends_lookup. destruct (decide _); rewrite lookup_insert_ne by (intros ->; congruence); by rewrite Hc.
Qed.

(** One holder at a time, and a lock that is lost.  After any interleaving at most one call holds
    the lock, and calls wait only while it is held.  But once a call has given up with a token in its
    channel, no call ever holds the lock again. *)
Theorem lock_exclusion s c1 c2 c0 s' c :
  rtc lock_step (New, ∅) s →
  (s.2 !! c1 = Some (Holding Wr) → s.2 !! c2 = Some (Holding Wr) → c1 = c2) ∧
  (l_waiters s.1 ≠ [] → IsHeld s.1 = true) ∧
  (s.2 !! c0 = Some (Left Wr true) → rtc lock_step s s' → s'.2 !! c ≠ Some (Holding Wr)).
Proof.
  intros Hr. pose proof (lock_reachable_inv s Hr) as I. split_and!.
  - intros H1 H2. destruct (decide (c1 = c2)) as [|Hne]; [done|].
    pose proof (tally_two (owns Wr) s.2 c1 c2 _ _ H1 H2 eq_refl eq_refl Hne). destruct I as [K _ _].
    destruct (l_held s.1); simpl in K; lia.
  - apply I.
  - intros H0 Hs Hc. clear Hr. induction Hs as [s|s1 s2 s3 Hstep _ IH].
    + pose proof (tally_two (owns Wr) s.2 c0 c _ _ H0 Hc eq_refl eq_refl ltac:(intros ->; congruence)).
      destruct I as [K _ _]. destruct (l_held s.1); simpl in K; lia.
    + apply IH; [by apply (lock_step_inv s1)|by apply (left_stays s1)|done].
Qed.

(** A run in which the token of an unlock goes to a call that has just given up. *)
Definition lost_lock : Lock * calls :=
  (MkLock true [], <[1%nat := Left Wr true]> (<[0%nat := Finished]> ∅)).

Lemma lost_lock_reachable : rtc lock_step (New, ∅) lost_lock.
Proof.
  eapply rtc_l; [apply (lock_call _ _ 0); reflexivity|].
  eapply rtc_l; [apply (lock_call _ _ 1); vm_compute; reflexivity|].
  eapply rtc_l; [apply (lock_unlock _ _ 0); vm_compute; reflexivity|].
  eapply rtc_l; [apply (lock_done _ _ 1 true); vm_compute; reflexivity|].
  eapply rtc_l; [apply (lock_leave _ _ 1 true); vm_compute; reflexivity|].
  vm_compute. apply rtc_refl.
Qed.

Lemma lock_exclusion_witness :
  lost_lock.2 !! 1%nat = Some (Left Wr true) ∧ lost_lock.2 !! 5%nat ≠ Some (Holding Wr).
Proof.
  split; [reflexivity|].
  refine (proj2 (proj2 (lock_exclusion lost_lock 0 0 1 lost_lock 5 lost_lock_reachable)) _ _);
    [reflexivity|apply rtc_refl].
Defined.

(** Two calls on the readers-writer lock: a writer, and a reader that waits for it. *)
Definition ex_rw : RWLock * calls :=
  (MkRWLock 0 true 0 [1%nat] [], <[1%nat := Waiting Rd false]> (<[0%nat := Holding Wr]> ∅)).

Lemma ex_rw_reachable : rtc (rw_step false) (NewRWLock, ∅) ex_rw.
Proof.
  eapply rtc_l; [apply (rw_lock _ _ 0); reflexivity|].
  eapply rtc_l; [apply (rw_rlock _ _ 1); vm_compute; reflexivity|]. apply rtc_refl.
Qed.

Lemma rw_exclusion_witness :
  ex_rw.2 !! 0%nat = Some (Holding Wr) ∧ (ex_rw.2 !! 1%nat = Some (Holding Rd) → False).
Proof.
  split; [reflexivity|]. refine (proj1 (proj2 (proj2 (rw_exclusion ex_rw _)) 0%nat 1%nat eq_refl)).
  apply (rtc_subrel (rw_step false)); [|apply ex_rw_reachable]. intros x y H. by exists false.
Defined.

Lemma rw_no_deadlock_witness :
  ex_rw.2 !! 1%nat = Some (Waiting Rd false) ∧
  ∃ c' m', ex_rw.2 !! c' = Some (Holding m') ∨ ex_rw.2 !! c' = Some (Waiting m' true).
Proof.
  split; [reflexivity|]. apply (rw_no_deadlock ex_rw 1 Rd); [apply ex_rw_reachable|reflexivity].
Defined.
