(* ===== verification/Json.v ===== *)
(** JSON values as Go decodes them into [any]: [nil], [bool], [float64], [string], [[]any] and
    [map[string]any].  A map is kept as the list of its entries in the order of their keys, so that
    equal maps are equal lists; [wf] says that the keys are in order. *)
From S2P Require Import Prelude Float64.

#[local] Unset Elimination Schemes.
Inductive json :=
  | JNull
  | JBool (b : bool)
  | JNumber (f : float64)
  | JString (s : string)
  | JArray (l : list json)
  | JObject (kvs : list (string * json)).
#[local] Set Elimination Schemes.

Lemma json_ind (P : json → Prop) :
  P JNull → (∀ b, P (JBool b)) → (∀ f, P (JNumber f)) → (∀ s, P (JString s)) →
  (∀ l, Forall P l → P (JArray l)) → (∀ kvs, Forall (λ kv, P kv.2) kvs → P (JObject kvs)) →
  ∀ v, P v.
Proof.
  intros Hn Hb Hf Hs Ha Ho. fix IH 1. intros [|b|f|s|l|kvs]; [done|done|done|done| |].
  - apply Ha. induction l as [|x l IHl]; constructor; [apply IH|done].
  - apply Ho. induction kvs as [|[k x] kvs IHl]; constructor; [apply IH|done].
Qed.

(** [reflect.DeepEqual] *)
Fixpoint DeepEqual (v w : json) : bool :=
  match v, w with
  | JNull, JNull => true
  | JBool b, JBool c => bool_decide (b = c)
  | JNumber f, JNumber g => f64_eqb f g
  | JString s, JString t => bool_decide (s = t)
  | JArray l, JArray m =>
      (fix go l m := match l, m with
        | [], [] => true
        | x :: l, y :: m => DeepEqual x y && go l m
        | _, _ => false
        end) l m
  | JObject l, JObject m =>
      (fix go l m := match l, m with
        | [], [] => true
        | (j, x) :: l, (k, y) :: m => bool_decide (j = k) && (DeepEqual x y && go l m)
        | _, _ => false
        end) l m
  | _, _ => false
  end.

(** * Maps *)

Fixpoint obj_lookup (k : string) (kvs : list (string * json)) : option json :=
  match kvs with
  | [] => None
  | (j, v) :: kvs' => if bool_decide (k = j) then Some v else obj_lookup k kvs'
  end.

Fixpoint obj_insert (k : string) (v : json) (kvs : list (string * json)) : list (string * json) :=
  match kvs with
  | [] => [(k, v)]
  | (j, w) :: kvs' =>
      if bool_decide (k = j) then (k, v) :: kvs'
      else if string_ltb k j then (k, v) :: (j, w) :: kvs'
      else (j, w) :: obj_insert k v kvs'
  end.

Fixpoint obj_delete (k : string) (kvs : list (string * json)) : list (string * json) :=
  match kvs with
  | [] => []
  | (j, w) :: kvs' => if bool_decide (k = j) then kvs' else (j, w) :: obj_delete k kvs'
  end.

(** The keys are in strictly rising order. *)
Fixpoint keys_above (lo : option string) (kvs : list (string * json)) : bool :=
  match kvs with
  | [] => true
  | (k, _) :: kvs' =>
      (match lo with Some j => string_ltb j k | None => true end) && keys_above (Some k) kvs'
  end.

Fixpoint wf (v : json) : bool :=
  match v with
  | JArray l => forallb wf l
  | JObject kvs => keys_above None kvs && forallb (λ kv, wf kv.2) kvs
  | _ => true
  end.

Definition ordered (kvs : list (string * json)) : Prop := keys_above None kvs = true.

Lemma keys_above_weaken lo kvs : keys_above lo kvs = true → keys_above None kvs = true.
Proof. destruct kvs as [|[k v] kvs]; [done|]. simpl. by intros [_ ?]%andb_true_iff. Qed.

Lemma keys_above_below lo k kvs :
  string_ltb lo k = true → keys_above (Some k) kvs = true → keys_above (Some lo) kvs = true.
Proof.
  intros Hlo. destruct kvs as [|[j v] kvs]; [done|]. simpl. rewrite !andb_true_iff. intros [Hj ?].
  split; [|done]. by apply (string_ltb_trans lo k j).
Qed.

Lemma keys_above_not k kvs : keys_above (Some k) kvs = true → obj_lookup k kvs = None.
Proof.
  induction kvs as [|[j v] kvs IH]; [done|]. simpl. intros [Hj Hkvs]%andb_true_iff.
  case_bool_decide as E; [subst j; by rewrite string_ltb_irrefl in Hj|].
  apply IH. by apply (keys_above_below k j).
Qed.

(** The laws of a finite map. *)
Lemma obj_lookup_insert k j v kvs :
  obj_lookup k (obj_insert j v kvs) = if bool_decide (k = j) then Some v else obj_lookup k kvs.
Proof.
  induction kvs as [|[i w] kvs IH]; simpl; [done|]. destruct (bool_decide_reflect (j = i)) as [->|Hji]; simpl.
  - by destruct (bool_decide_reflect (k = i)).
  - destruct (string_ltb j i); simpl; [done|]. rewrite IH.
    destruct (bool_decide_reflect (k = i)) as [->|]; [|done]. by rewrite (bool_decide_eq_false_2 (i = j)).
Qed.

Lemma keys_above_insert lo k v kvs :
  (match lo with Some j => string_ltb j k = true | None => True end) → keys_above lo kvs = true →
  keys_above lo (obj_insert k v kvs) = true.
Proof.
  revert lo. induction kvs as [|[j w] kvs IH]; intros lo Hlo Hkvs.
  { simpl. destruct lo; [by rewrite Hlo|done]. }
  simpl in Hkvs. apply andb_true_iff in Hkvs as [Hj Hkvs]. simpl. case_bool_decide as Ekj; [subst j|].
  - simpl. by rewrite Hj, Hkvs.
  - destruct (string_ltb k j) eqn:Elt; simpl.
    + rewrite Elt, Hkvs, andb_true_r. destruct lo; [by rewrite Hlo|done].
    + rewrite Hj. simpl. apply IH; [|done]. destruct (string_ltb j k) eqn:E; [done|].
      by pose proof (string_ltb_total _ _ Elt E).
Qed.

Lemma obj_delete_notin k kvs : obj_lookup k kvs = None → obj_delete k kvs = kvs.
Proof.
  induction kvs as [|[j w] kvs IH]; simpl; [done|]. case_bool_decide; [done|]. intros E. by rewrite IH.
Qed.

Lemma keys_above_delete lo k kvs : keys_above lo kvs = true → keys_above lo (obj_delete k kvs) = true.
Proof.
  revert lo. induction kvs as [|[j w] kvs IH]; intros lo; [done|]. simpl. intros [Hj Hkvs]%andb_true_iff.
  case_bool_decide; simpl.
  - destruct lo as [lo|]; [by apply (keys_above_below lo j)|by apply (keys_above_weaken (Some j))].
  - by rewrite Hj, IH.
Qed.

Lemma obj_lookup_delete k j kvs :
  ordered kvs → obj_lookup k (obj_delete j kvs) = if bool_decide (k = j) then None else obj_lookup k kvs.
Proof.
  unfold ordered. induction kvs as [|[i w] kvs IH]; simpl; intros H.
  { by destruct (bool_decide _). }
  destruct (bool_decide_reflect (j = i)) as [->|Hji]; simpl.
  - destruct (bool_decide_reflect (k = i)) as [->|]; [|done]. by apply keys_above_not.
  - destruct (bool_decide_reflect (k = i)) as [->|Hki]; simpl.
    + by rewrite (bool_decide_eq_false_2 (i = j)).
    + apply IH. by apply (keys_above_weaken (Some i)).
Qed.

(** Two ordered maps with the same entries are equal. *)
Lemma obj_ext kvs kvs' :
  ordered kvs → ordered kvs' → (∀ k, obj_lookup k kvs = obj_lookup k kvs') → kvs = kvs'.
Proof.
  unfold ordered. revert kvs'. induction kvs as [|[k v] kvs IH]; intros [|[j w] kvs'] H H' E; [done| | |].
  - specialize (E j). simpl in E. by rewrite bool_decide_eq_true_2 in E.
  - specialize (E k). simpl in E. by rewrite bool_decide_eq_true_2 in E.
  - simpl in H, H'. assert (k = j) as <-.
    { destruct (string_ltb k j) eqn:E1.
      - specialize (E k). simpl in E. rewrite (bool_decide_eq_true_2 (k = k)) in E by done.
        rewrite bool_decide_eq_false_2 in E by (intros ->; by rewrite string_ltb_irrefl in E1).
        rewrite keys_above_not in E; [done|]. by apply (keys_above_below k j).
      - destruct (string_ltb j k) eqn:E2; [|by apply string_ltb_total].
        specialize (E j). simpl in E. rewrite (bool_decide_eq_true_2 (j = j)) in E by done.
        rewrite bool_decide_eq_false_2 in E by (intros ->; by rewrite string_ltb_irrefl in E2).
        rewrite keys_above_not in E; [done|]. by apply (keys_above_below j k). }
    assert (v = w) as <-.
    { specialize (E k). simpl in E. rewrite bool_decide_eq_true_2 in E by done. by simplify_eq. }
    f_equal. apply IH; [by apply (keys_above_weaken (Some k))..|]. intros i. specialize (E i). simpl in E.
    destruct (bool_decide_reflect (i = k)) as [Ei|Ei]; [|done]. rewrite Ei. by rewrite !keys_above_not.
Qed.

Lemma obj_lookup_elem k v kvs : ordered kvs → obj_lookup k kvs = Some v ↔ (k, v) ∈ kvs.
Proof.
  unfold ordered. intros H. induction kvs as [|[j w] kvs IH]; simpl.
  { split; [done|by intros ?%not_elem_of_nil]. }
  simpl in H. rewrite elem_of_cons. case_bool_decide as E; [subst j|].
  - split; [intros [= <-]; by left|]. intros [[= <-]|Hin]; [done|].
    apply IH in Hin; [|by apply (keys_above_weaken (Some k))]. by rewrite keys_above_not in Hin.
  - rewrite IH by (by apply (keys_above_weaken (Some j))). split; [by right|]. intros [[= ? ?]|]; done.
Qed.

(** * [DeepEqual] *)

(** Numbers that are equal to themselves. *)
Fixpoint no_nan (v : json) : bool :=
  match v with
  | JNumber f => f64_eqb f f
  | JArray l => forallb no_nan l
  | JObject kvs => forallb (λ kv, no_nan kv.2) kvs
  | _ => true
  end.

Lemma DeepEqual_arrays l m : DeepEqual (JArray l) (JArray m) = true ↔ Forall2 (λ x y, DeepEqual x y = true) l m.
Proof.
  revert m. induction l as [|x l IH]; intros [|y m]; simpl.
  - split; [by constructor|done].
  - split; [done|]. intros H. inversion H.
  - split; [done|]. intros H. inversion H.
  - rewrite andb_true_iff, (Forall2_cons _ x l y m). simpl in IH. by rewrite IH.
Qed.

Lemma DeepEqual_objects l m :
  DeepEqual (JObject l) (JObject m) = true ↔ Forall2 (λ x y, x.1 = y.1 ∧ DeepEqual x.2 y.2 = true) l m.
Proof.
  revert m. induction l as [|[j x] l IH]; intros [|[k y] m]; simpl.
  - split; [by constructor|done].
  - split; [done|]. intros H. inversion H.
  - split; [done|]. intros H. inversion H.
  - rewrite !andb_true_iff, bool_decide_eq_true, Forall2_cons. simpl in IH. rewrite IH. simpl. naive_solver.
Qed.

Lemma DeepEqual_refl v : no_nan v = true → DeepEqual v v = true.
Proof.
  induction v as [|b|f|s|l IH|kvs IH] using json_ind; simpl; intros H; try done.
  - by apply bool_decide_eq_true.
  - by apply bool_decide_eq_true.
  - apply DeepEqual_arrays. apply Forall2_same_length_lookup_2; [done|]. intros i x y Hx Hy. simplify_eq.
    rewrite Forall_lookup in IH. apply (IH i x Hx). rewrite forallb_forall in H. apply H.
    apply list_elem_of_In. by apply list_elem_of_lookup_2 in Hx.
  - apply DeepEqual_objects. apply Forall2_same_length_lookup_2; [done|]. intros i x y Hx Hy. simplify_eq.
    split; [done|]. rewrite Forall_lookup in IH. apply (IH i x Hx). rewrite forallb_forall in H. apply H.
    apply list_elem_of_In. by apply list_elem_of_lookup_2 in Hx.
Qed.
