(* ===== verification/DeltaDiff.v ===== *)
(** JSON patches: [internal/deltadiff], the files [patch.go], [diff.go] and [apply.go].

    The code changes maps and slices in place; here a document is a value, and [set_at] is the
    assignment to a place in it.  This is what the code computes for documents in which no map or
    slice occurs at two places, as decoded documents are.  [OpCopy] puts the value it copies at a
    second place: the result is as here until a later operation changes one of the two.  The keys
    of a map are visited in sorted order, which is the order of its list. *)
From stdpp Require Import pretty.
From S2P Require Import Prelude Errors Strings Float64 Json.

Abbreviation SInvalidPointer := (SOther "deltadiff: invalid JSON pointer syntax").
Abbreviation SPathNotFound := (SOther "deltadiff: path not found in target structure").
Abbreviation SPatchFailed := (SOther "deltadiff: patch operation failed").
Abbreviation STestFailed := (SOther "deltadiff: patch test operation failed condition").

Inductive OpType := OpAdd | OpRemove | OpReplace | OpMove | OpCopy | OpTest | OpOther (name : string).

Definition op_name (op : OpType) : string :=
  match op with
  | OpAdd => "add" | OpRemove => "remove" | OpReplace => "replace"
  | OpMove => "move" | OpCopy => "copy" | OpTest => "test" | OpOther name => name
  end.

Record PatchOperation := MkOp {
  op_Op : OpType;
  op_Path : string;
  op_From : string;
  op_Value : json
}.
Abbreviation Patch := (list PatchOperation) (only parsing).

Definition isValidOp (op : OpType) : bool :=
  match op with OpOther _ => false | _ => true end.

(** * Pointers *)

(** [strings.ReplaceAll(s, old, new)] for a text that is not empty; [skip] counts the characters
    of an occurrence that are still to be dropped. *)
Fixpoint replace_from (old new : string) (skip : nat) (s : string) : string :=
  match s with
  | EmptyString => ""
  | String c s' =>
      match skip with
      | S skip' => replace_from old new skip' s'
      | O =>
          if has_prefix old s then new +:+ replace_from old new (String.length old - 1) s'
          else String c (replace_from old new 0 s')
      end
  end.
Definition ReplaceAll (s old new : string) : string := replace_from old new 0 s.

Abbreviation slash := ("/"%char).
Abbreviation tilde := ("~"%char).

Definition unescape (tok : string) : string := ReplaceAll (ReplaceAll tok "~1" "/") "~0" "~".
Definition escape (tok : string) : string := ReplaceAll (ReplaceAll tok "~" "~0") "/" "~1".

Definition ParsePointer (ptr : string) : result error (list string) :=
  match ptr with
  | EmptyString => Ok []
  | String c rest =>
      if ascii_eqb c slash then Ok (unescape <$> split slash rest)
      else Err (EWrap "%w: pointer %q must start with '/'" [ptr] (ESentinel SInvalidPointer))
  end.

Definition FormatPointer (tokens : list string) : string :=
  foldr (λ tok rest, String slash (escape tok) +:+ rest) "" tokens.

(** * Differences *)

Definition subPath (path k : string) : string := path +:+ String slash k.

Definition add_op (path : string) (v : json) : PatchOperation := MkOp OpAdd path "" v.
Definition remove_op (path : string) : PatchOperation := MkOp OpRemove path "" JNull.
Definition replace_op (path : string) (v : json) : PatchOperation := MkOp OpReplace path "" v.

(** The first loop of [diffMaps]. *)
Definition removals (path : string) (src dst : list (string * json)) : Patch :=
  concat ((λ kv, match obj_lookup kv.1 dst with
                 | Some _ => []
                 | None => [remove_op (subPath path kv.1)]
                 end) <$> src).

(** The last two loops of [diffSlices]: elements from [i] on that are added, and the indices below
    [i] down to [n] that are removed. *)
Fixpoint added (path : string) (i : nat) (dst : list json) : Patch :=
  match dst with
  | [] => []
  | v :: dst' => add_op (subPath path (pretty i)) v :: added path (S i) dst'
  end.

Definition removed (path : string) (n m : nat) : Patch :=
  (λ i, remove_op (subPath path (pretty i))) <$> reverse (seq n (m - n)).

Fixpoint diffRecursive (path : string) (src dst : json) {struct dst} : Patch :=
  if DeepEqual src dst then []
  else
    match src, dst with
    | JNull, _ => [add_op path dst]
    | _, JNull => [remove_op path]
    | JObject s, JObject d =>
        removals path s d ++
        (fix go d := match d with
          | [] => []
          | (k, v) :: d' =>
              (match obj_lookup k s with
               | None => [add_op (subPath path k) v]
               | Some sv => diffRecursive (subPath path k) sv v
               end) ++ go d'
          end) d
    | JArray s, JArray d =>
        (fix go (i : nat) (s d : list json) {struct d} := match d, s with
          | y :: d', x :: s' => diffRecursive (subPath path (pretty i)) x y ++ go (S i) s' d'
          | _, _ => []
          end) 0 s d ++
        added path (length s) (drop (length s) d) ++ removed path (length d) (length s)
    | _, _ => [replace_op path dst]
    end.

Definition Diff (source target : json) : Patch := diffRecursive "" source target.

(** * Application *)

(** [node[idx]] with the index as the code reads it. *)
Definition array_index (tok : string) (bound : nat) : option nat :=
  match Atoi tok with
  | Some idx => if (idx <? 0)%Z || (Z.of_nat bound <=? idx)%Z then None else Some (Z.to_nat idx)
  | None => None
  end.

Definition path_error (format : string) (args : list string) : error :=
  EWrap format args (ESentinel SPathNotFound).
Definition patch_error (format : string) (args : list string) : error :=
  EWrap format args (ESentinel SPatchFailed).

Fixpoint getValue (target : json) (tokens : list string) : result error json :=
  match tokens with
  | [] => Ok target
  | tok :: tokens' =>
      match target with
      | JObject kvs =>
          match obj_lookup tok kvs with
          | Some v => getValue v tokens'
          | None => Err (path_error "%w: key %q" [tok])
          end
      | JArray l =>
          match array_index tok (length l) with
          | Some i =>
              match l !! i with
              | Some v => getValue v tokens'
              | None => Err (path_error "%w: invalid array index %q" [tok])
              end
          | None => Err (path_error "%w: invalid array index %q" [tok])
          end
      | _ => Err (path_error "%w: cannot traverse into primitive" [])
      end
  end.

(** Assignment to the place at the end of a path that exists. *)
Fixpoint set_at (target : json) (tokens : list string) (v : json) : json :=
  match tokens with
  | [] => v
  | tok :: tokens' =>
      match target with
      | JObject kvs =>
          match obj_lookup tok kvs with
          | Some w => JObject (obj_insert tok (set_at w tokens' v) kvs)
          | None => target
          end
      | JArray l =>
          match array_index tok (length l) with
          | Some i =>
              match l !! i with
              | Some w => JArray (<[i := set_at w tokens' v]> l)
              | None => target
              end
          | None => target
          end
      | _ => target
      end
  end.

(** [tokens[:len(tokens)-1]] and [tokens[len(tokens)-1]] *)
Definition parent_of (tokens : list string) : option (list string * string) :=
  match reverse tokens with
  | [] => None
  | lastToken :: rest => Some (reverse rest, lastToken)
  end.

Definition updateSliceInParent (root : json) (parentTokens : list string) (newSlice : list json) :
    result error json :=
  match parent_of parentTokens with
  | None => Ok (JArray newSlice)
  | Some (grandParentTokens, parentKey) =>
      grandParent ← getValue root grandParentTokens;
      match grandParent with
      | JObject kvs => Ok (set_at root grandParentTokens (JObject (obj_insert parentKey (JArray newSlice) kvs)))
      | JArray l =>
          match Atoi parentKey with
          | None => Err (EFmt "strconv.Atoi: parsing %q" [parentKey])
          | Some idx => Ok (set_at root grandParentTokens (JArray (<[Z.to_nat idx := JArray newSlice]> l)))
          end
      | _ => Err (EFmt "unexpected grandparent type" [])
      end
  end.

Definition addValue (target : json) (tokens : list string) (val : json) : result error json :=
  match parent_of tokens with
  | None => Ok val
  | Some (parentTokens, lastToken) =>
      let target := match target with JNull => JObject [] | _ => target end in
      parent ← getValue target parentTokens;
      match parent with
      | JObject kvs => Ok (set_at target parentTokens (JObject (obj_insert lastToken val kvs)))
      | JArray node =>
          if bool_decide (lastToken = "-") then updateSliceInParent target parentTokens (node ++ [val])
          else
            match array_index lastToken (S (length node)) with
            | Some i => updateSliceInParent target parentTokens (take i node ++ [val] ++ drop i node)
            | None => Err (patch_error "%w: array insert index %q out of range" [lastToken])
            end
      | _ => Err (patch_error "%w: cannot add to non-container" [])
      end
  end.

Definition removeValue (target : json) (tokens : list string) : result error json :=
  match parent_of tokens with
  | None => Ok JNull
  | Some (parentTokens, lastToken) =>
      parent ← getValue target parentTokens;
      match parent with
      | JObject kvs =>
          match obj_lookup lastToken kvs with
          | None => Err (path_error "%w: key %q not found" [lastToken])
          | Some _ => Ok (set_at target parentTokens (JObject (obj_delete lastToken kvs)))
          end
      | JArray node =>
          match array_index lastToken (length node) with
          | Some i => updateSliceInParent target parentTokens (take i node ++ drop (S i) node)
          | None => Err (path_error "%w: remove index %q out of range" [lastToken])
          end
      | _ => Err (patch_error "%w: cannot remove from non-container" [])
      end
  end.

Definition words (ws : list string) : string := "[" +:+ join " "%char ws +:+ "]".

(** [%v] *)
Fixpoint sprint (v : json) : string :=
  match v with
  | JNull => "<nil>"
  | JBool b => if b then "true" else "false"
  | JNumber f => format_v f
  | JString s => s
  | JArray l => words (sprint <$> l)
  | JObject kvs => "map" +:+ words ((λ kv, kv.1 +:+ ":" +:+ sprint kv.2) <$> kvs)
  end.

Definition applyOperation (target : json) (op : PatchOperation) : result error json :=
  tokens ← ParsePointer (op_Path op);
  match op_Op op with
  | OpTest =>
      val ← getValue target tokens;
      if DeepEqual val (op_Value op) then Ok target
      else Err (EWrap "%w: at %s expected %v, got %v" [op_Path op; sprint (op_Value op); sprint val]
                  (ESentinel STestFailed))
  | OpAdd => addValue target tokens (op_Value op)
  | OpRemove => removeValue target tokens
  | OpReplace => t ← removeValue target tokens; addValue t tokens (op_Value op)
  | OpCopy =>
      fromTokens ← ParsePointer (op_From op);
      val ← getValue target fromTokens;
      addValue target tokens val
  | OpMove =>
      fromTokens ← ParsePointer (op_From op);
      val ← getValue target fromTokens;
      t ← removeValue target fromTokens;
      addValue t tokens val
  | OpOther name => Err (patch_error "%w: unknown op %q" [name])
  end.

Fixpoint apply_from (i : nat) (current : json) (patch : Patch) : result error json :=
  match patch with
  | [] => Ok current
  | op :: patch' =>
      match applyOperation current op with
      | Ok current' => apply_from (S i) current' patch'
      | Err err =>
          Err (EWrap "patch failed at operation %d (%s %s): %w" [pretty i; op_name (op_Op op); op_Path op] err)
      end
  end.

Definition Apply (target : json) (patch : Patch) : result error json := apply_from 0 target patch.
