(* ===== verification/DeltaDiffFacts.v ===== *)
(** Patches: pointers are read back as they were written, and applying the difference of two
    documents to the first gives the second. *)
From stdpp Require Import pretty.
From S2P Require Import Prelude Errors Strings Float64 Json DeltaDiff.

(** * Pointers *)

Lemma replace_one (o : ascii) new c s :
  ReplaceAll (String c s) (String o "") new =
  if ascii_eqb o c then new +:+ ReplaceAll s (String o "") new
  else String c (ReplaceAll s (String o "") new).
Proof. unfold ReplaceAll. simpl. rewrite andb_true_r. done. Qed.

Lemma replace_two (o o' : ascii) new c s :
  ReplaceAll (String c s) (String o (String o' "")) new =
  match s with
  | String c' s' =>
      if ascii_eqb o c && ascii_eqb o' c' then new +:+ ReplaceAll s' (String o (String o' "")) new
      else String c (ReplaceAll s (String o (String o' "")) new)
  | EmptyString => String c ""
  end.
Proof.
  unfold ReplaceAll. destruct s as [|c' s']; cbn [replace_from has_prefix String.length Nat.sub].
  - by rewrite andb_false_r.
  - rewrite andb_true_r. done.
Qed.

Lemma escape_cons c s :
  escape (String c s) =
  if ascii_eqb tilde c then String tilde (String "0" (escape s))
  else if ascii_eqb slash c then String tilde (String "1" (escape s))
  else String c (escape s).
Proof.
  unfold escape. rewrite (replace_one tilde). destruct (ascii_eqb tilde c) eqn:E.
  - change ("~0" +:+ ?x) with (String tilde (String "0" x)). by rewrite !(replace_one slash).
  - rewrite (replace_one slash). done.
Qed.

Lemma unescape_escape s : unescape (escape s) = s.
Proof.
  assert (ReplaceAll (escape s) "~1" "/" = ReplaceAll s "~" "~0") as E.
  { induction s as [|c s IH]; [done|]. rewrite escape_cons, (replace_one tilde).
    destruct (ascii_eqb tilde c) eqn:Et.
    - rewrite (replace_two tilde). simpl. destruct (escape s) as [|c' s'] eqn:Es.
      + rewrite <- IH. done.
      + rewrite (replace_two tilde). simpl. by rewrite <- IH.
    - destruct (ascii_eqb slash c) eqn:Es.
      + apply ascii_eqb_true in Es as <-. rewrite (replace_two tilde). simpl. by rewrite IH.
      + rewrite (replace_two tilde). rewrite Et. simpl. rewrite <- IH. by destruct (escape s). }
  unfold unescape. rewrite E. clear E. induction s as [|c s IH]; [done|]. rewrite (replace_one tilde).
  destruct (ascii_eqb tilde c) eqn:Et.
  - apply ascii_eqb_true in Et as <-. change ("~0" +:+ ?x) with (String tilde (String "0" x)).
    rewrite (replace_two tilde). simpl. by rewrite IH.
  - rewrite (replace_two tilde), Et. simpl. rewrite <- IH at 2. by destruct (ReplaceAll s "~" "~0").
Qed.

Lemma escape_no_slash s : no_char slash (escape s).
Proof.
  induction s as [|c s IH]; [done|]. rewrite escape_cons. destruct (ascii_eqb tilde c); [|destruct (ascii_eqb slash c) eqn:E].
  - by repeat (apply no_char_cons; split; [done|]).
  - by repeat (apply no_char_cons; split; [done|]).
  - apply no_char_cons. split; [|done]. by apply ascii_eqb_false.
Qed.

Lemma slashed_join ws :
  ws ≠ [] → foldr (λ tok rest, String slash tok +:+ rest) "" ws = String slash (join slash ws).
Proof.
  induction ws as [|w ws IH]; [done|]. intros _. simpl. destruct ws as [|w' ws].
  - simpl. by rewrite string_app_nil_r.
  - by rewrite IH.
Qed.

(** Pointers are read back.  Whatever the tokens are, parsing the pointer that is formatted from
    them gives them back; slashes and tildes in them are escaped. *)
Theorem pointer_roundtrip tokens : ParsePointer (FormatPointer tokens) = Ok tokens.
Proof.
  destruct (decide (tokens = [])) as [->|Hne]; [done|].
  assert (FormatPointer tokens = String slash (join slash (escape <$> tokens))) as ->.
  { rewrite <- slashed_join by (by destruct tokens). unfold FormatPointer.
    clear Hne. induction tokens as [|t ts IH]; [done|]. simpl. by rewrite IH. }
  unfold ParsePointer. rewrite ascii_eqb_refl. rewrite split_join.
  - f_equal. rewrite <- list_fmap_compose. rewrite <- (list_fmap_id tokens) at 2. apply list_fmap_ext.
    intros i x _. apply unescape_escape.
  - by destruct tokens.
  - apply Forall_fmap, Forall_true. intros t. apply escape_no_slash.
Qed.

(** * Paths of a difference *)

Definition plain_key (k : string) : Prop := no_char slash k ∧ no_char tilde k.
#[export] Instance plain_key_dec k : Decision (plain_key k).
Proof. unfold plain_key. apply _. Defined.

Definition path_of (tokens : list string) : string := foldl subPath "" tokens.

Lemma path_of_snoc p k : path_of (p ++ [k]) = subPath (path_of p) k.
Proof. unfold path_of. by rewrite foldl_app. Qed.

Lemma unescape_plain k : no_char tilde k → unescape k = k.
Proof.
  assert (∀ (o : ascii) new s, no_char tilde s → ReplaceAll s (String tilde (String o "")) new = s) as H.
  { intros o new. induction s as [|c s IH]; [done|]. intros [Hc Hs]%no_char_cons. rewrite (replace_two tilde).
    rewrite IH by done. apply ascii_eqb_false in Hc. rewrite Hc. simpl. by destruct s. }
  intros Hk. unfold unescape. rewrite (H "1"%char "/" k Hk). by apply H.
Qed.

Lemma ParsePointer_path p : Forall plain_key p → ParsePointer (path_of p) = Ok p.
Proof.
  intros Hp. destruct (decide (p = [])) as [->|Hne]; [done|].
  assert (path_of p = String slash (join slash p)) as ->.
  { rewrite <- slashed_join by done. unfold path_of. clear.
    assert (∀ s, foldl subPath s p = s +:+ foldr (λ tok rest, String slash tok +:+ rest) "" p) as H; [|apply H].
    induction p as [|k p IH]; intros s; simpl; [by rewrite string_app_nil_r|]. rewrite IH. unfold subPath.
    by rewrite <- string_app_assoc. }
  unfold ParsePointer. rewrite ascii_eqb_refl. rewrite split_join; [|done|].
  - f_equal. rewrite <- (list_fmap_id p) at 2. apply list_fmap_ext. intros i x Hx.
    rewrite Forall_lookup in Hp. by apply unescape_plain, (Hp i x Hx).
  - eapply Forall_impl; [exact Hp|]. by intros k [? _].
Qed.

(** * Places in a document *)

Lemma getValue_app r p q x : getValue r p = Ok x → getValue r (p ++ q) = getValue x q.
Proof.
  revert r. induction p as [|t p IH]; intros r; simpl; [by intros [= ->]|].
  destruct r as [| | | |l|kvs]; try done.
  - destruct (array_index t (length l)); [|done]. destruct (l !! n); [|done]. apply IH.
  - destruct (obj_lookup t kvs); [|done]. apply IH.
Qed.

Lemma getValue_snoc r p k x :
  getValue r (p ++ [k]) = Ok x → ∃ parent, getValue r p = Ok parent ∧ getValue parent [k] = Ok x.
Proof.
  revert r. induction p as [|t p IH]; intros r; [by exists r|]. cbn [app].
  destruct r as [| | | |l|kvs]; try done; cbn [getValue].
  - destruct (array_index t (length l)); [|done]. destruct (l !! n); [|done]. apply IH.
  - destruct (obj_lookup t kvs); [|done]. apply IH.
Qed.

Lemma set_at_app r p q x v : getValue r p = Ok x → set_at r (p ++ q) v = set_at r p (set_at x q v).
Proof.
  revert r. induction p as [|t p IH]; intros r; simpl; [by intros [= ->]|].
  destruct r as [| | | |l|kvs]; try done.
  - destruct (array_index t (length l)); [|done]. destruct (l !! n); [|done]. intros H. by rewrite (IH _ H).
  - destruct (obj_lookup t kvs); [|done]. intros H. by rewrite (IH _ H).
Qed.

Lemma get_set r p x v : getValue r p = Ok x → getValue (set_at r p v) p = Ok v.
Proof.
  revert r. induction p as [|t p IH]; intros r; simpl; [done|].
  destruct r as [| | | |l|kvs]; try done.
  - destruct (array_index t (length l)) as [i|] eqn:Ei; [|done]. destruct (l !! i) as [w|] eqn:El; [|done].
    intros H. rewrite length_insert, Ei. rewrite list_lookup_insert_eq by (by eapply lookup_lt_Some). by apply IH.
  - destruct (obj_lookup t kvs) as [w|] eqn:E; [|done]. intros H.
    rewrite obj_lookup_insert, bool_decide_eq_true_2 by done. by apply IH.
Qed.

Lemma obj_insert_insert k v w kvs : obj_insert k w (obj_insert k v kvs) = obj_insert k w kvs.
Proof.
  induction kvs as [|[j u] kvs IH]; simpl; [by rewrite bool_decide_eq_true_2|].
  destruct (bool_decide_reflect (k = j)) as [->|Hne]; simpl; [by rewrite bool_decide_eq_true_2|].
  destruct (string_ltb k j) eqn:E; simpl; [by rewrite bool_decide_eq_true_2|].
  rewrite bool_decide_eq_false_2 by done. by rewrite E, IH.
Qed.

Lemma set_set r p x v w : getValue r p = Ok x → set_at (set_at r p v) p w = set_at r p w.
Proof.
  revert r. induction p as [|t p IH]; intros r; simpl; [done|].
  destruct r as [| | | |l|kvs]; try done.
  - destruct (array_index t (length l)) as [i|] eqn:Ei; [|done]. destruct (l !! i) as [u|] eqn:El; [|done].
    intros H. rewrite length_insert, Ei. rewrite list_lookup_insert_eq by (by eapply lookup_lt_Some).
    rewrite (IH _ H). by rewrite list_insert_insert_eq.
  - destruct (obj_lookup t kvs) as [u|] eqn:E; [|done]. intros H.
    rewrite obj_lookup_insert, bool_decide_eq_true_2 by done. rewrite (IH _ H). by rewrite obj_insert_insert.
Qed.

Lemma obj_insert_id k v kvs : ordered kvs → obj_lookup k kvs = Some v → obj_insert k v kvs = kvs.
Proof.
  intros Ho Hv. apply obj_ext; [by apply keys_above_insert|done|]. intros j. rewrite obj_lookup_insert.
  destruct (bool_decide_reflect (j = k)) as [->|]; done.
Qed.

Lemma wf_object kvs : wf (JObject kvs) = true ↔ ordered kvs ∧ ∀ k v, obj_lookup k kvs = Some v → wf v = true.
Proof.
  simpl. rewrite andb_true_iff, forallb_forall. unfold ordered. split; (intros [Ho H]; split; [done|]).
  - intros k v Hv. apply obj_lookup_elem in Hv; [|done]. by apply (H (k, v)), list_elem_of_In.
  - intros [k v] Hin. apply (H k). apply obj_lookup_elem; [done|]. by apply list_elem_of_In.
Qed.

Lemma wf_array l : wf (JArray l) = true ↔ Forall (λ v, wf v = true) l.
Proof. simpl. rewrite forallb_forall, Forall_forall. by setoid_rewrite list_elem_of_In. Qed.

Lemma wf_get r p x : wf r = true → getValue r p = Ok x → wf x = true.
Proof.
  revert r. induction p as [|t p IH]; intros r; simpl; [by intros ? [= ->]|].
  destruct r as [| | | |l|kvs]; try done.
  - intros Hwf%wf_array. destruct (array_index t (length l)) as [i|]; [|done].
    destruct (l !! i) as [w|] eqn:El; [|done]. apply IH. by apply (Forall_lookup_1 _ _ _ _ Hwf El).
  - intros [_ Hwf]%wf_object. destruct (obj_lookup t kvs) as [w|] eqn:E; [|done]. apply IH. by apply (Hwf t).
Qed.

Lemma set_get r p x : wf r = true → getValue r p = Ok x → set_at r p x = r.
Proof.
  revert r. induction p as [|t p IH]; intros r; simpl; [by intros _ [= ->]|].
  destruct r as [| | | |l|kvs]; try done.
  - intros Hwf%wf_array. destruct (array_index t (length l)) as [i|]; [|done].
    destruct (l !! i) as [w|] eqn:El; [|done]. intros H. rewrite IH; [|by apply (Forall_lookup_1 _ _ _ _ Hwf El)|done].
    by rewrite list_insert_id.
  - intros [Ho Hwf]%wf_object. destruct (obj_lookup t kvs) as [w|] eqn:E; [|done]. intros H.
    rewrite IH; [|by apply (Hwf t)|done]. by rewrite obj_insert_id.
Qed.

Lemma wf_insert k v kvs : wf (JObject kvs) = true → wf v = true → wf (JObject (obj_insert k v kvs)) = true.
Proof.
  intros [Ho H]%wf_object Hv. apply wf_object. split; [by apply keys_above_insert|]. intros j w.
  rewrite obj_lookup_insert. case_bool_decide; [by intros [= <-]|apply H].
Qed.

Lemma wf_set r p x v : wf r = true → getValue r p = Ok x → wf v = true → wf (set_at r p v) = true.
Proof.
  revert r. induction p as [|t p IH]; intros r; simpl; [done|].
  destruct r as [| | | |l|kvs]; try done.
  - intros Hwf%wf_array. destruct (array_index t (length l)) as [i|]; [|done].
    destruct (l !! i) as [w|] eqn:El; [|done]. intros H Hv. apply wf_array, Forall_insert; [done|].
    by apply IH; [apply (Forall_lookup_1 _ _ _ _ Hwf El)| |].
  - intros Hwf. pose proof Hwf as [_ H']%wf_object. destruct (obj_lookup t kvs) as [w|] eqn:E; [|done]. intros H Hv.
    apply wf_insert; [done|]. apply IH; [by apply (H' t)|done|done].
Qed.

(** * Single operations *)

Lemma parent_of_snoc p k : parent_of (p ++ [k]) = Some (p, k).
Proof. unfold parent_of. rewrite reverse_snoc. by rewrite reverse_involutive. Qed.

Lemma update_slice r p x sl : getValue r p = Ok x → updateSliceInParent r p sl = Ok (set_at r p (JArray sl)).
Proof.
  destruct p as [|k p _] using rev_ind; [done|]. intros Hx. destruct (getValue_snoc _ _ _ _ Hx) as (gp & Hgp & Hk).
  unfold updateSliceInParent. rewrite parent_of_snoc, Hgp. cbn [mbind result_bind].
  rewrite (set_at_app r p [k] gp) by done. simpl in Hk. destruct gp as [| | | |l|kvs]; try done; simpl.
  - unfold array_index in *. destruct (Atoi k) as [idx|]; [|done].
    destruct ((idx <? 0)%Z || (Z.of_nat (length l) <=? idx)%Z); [done|]. by destruct (l !! Z.to_nat idx).
  - by destruct (obj_lookup k kvs).
Qed.

(** The change of a container at one of its keys. *)
Definition put (parent : json) (k : string) (v : json) : option json :=
  match parent with
  | JObject kvs => Some (JObject (obj_insert k v kvs))
  | JArray l =>
      if bool_decide (k = "-") then None
      else (λ i, JArray (take i l ++ [v] ++ drop i l)) <$> array_index k (S (length l))
  | _ => None
  end.

Definition del (parent : json) (k : string) : option json :=
  match parent with
  | JObject kvs => (λ _, JObject (obj_delete k kvs)) <$> obj_lookup k kvs
  | JArray l => (λ i, JArray (take i l ++ drop (S i) l)) <$> array_index k (length l)
  | _ => None
  end.

Lemma addValue_put r p k v parent parent' :
  getValue r p = Ok parent → put parent k v = Some parent' → addValue r (p ++ [k]) v = Ok (set_at r p parent').
Proof.
  intros Hp Hput. assert (r ≠ JNull) as Hr.
  { intros ->. destruct p; [|done]. injection Hp as <-. done. }
  unfold addValue. rewrite parent_of_snoc.
  replace (match r with JNull => JObject [] | _ => r end) with r by (by destruct r).
  rewrite Hp. cbn [mbind result_bind]. destruct parent as [| | | |l|kvs]; try done; simpl in Hput.
  - case_bool_decide; [done|]. destruct (array_index k (S (length l))); [|done]. injection Hput as <-.
    by rewrite (update_slice _ _ _ _ Hp).
  - by injection Hput as <-.
Qed.

Lemma removeValue_del r p k parent parent' :
  getValue r p = Ok parent → del parent k = Some parent' → removeValue r (p ++ [k]) = Ok (set_at r p parent').
Proof.
  intros Hp Hdel. unfold removeValue. rewrite parent_of_snoc, Hp. cbn [mbind result_bind].
  destruct parent as [| | | |l|kvs]; try done; simpl in Hdel.
  - destruct (array_index k (length l)); [|done]. injection Hdel as <-. by rewrite (update_slice _ _ _ _ Hp).
  - destruct (obj_lookup k kvs); [|done]. by injection Hdel as <-.
Qed.

Lemma apply_add r p k v parent parent' :
  Forall plain_key (p ++ [k]) → getValue r p = Ok parent → put parent k v = Some parent' →
  applyOperation r (add_op (path_of (p ++ [k])) v) = Ok (set_at r p parent').
Proof.
  intros Hpl Hp Hput. unfold applyOperation. simpl. rewrite ParsePointer_path by done. simpl.
  by apply (addValue_put r p k v parent).
Qed.

Lemma apply_remove r p k parent parent' :
  Forall plain_key (p ++ [k]) → getValue r p = Ok parent → del parent k = Some parent' →
  applyOperation r (remove_op (path_of (p ++ [k]))) = Ok (set_at r p parent').
Proof.
  intros Hpl Hp Hdel. unfold applyOperation. simpl. rewrite ParsePointer_path by done. simpl.
  by apply (removeValue_del r p k parent).
Qed.

Lemma obj_insert_delete k v kvs : ordered kvs → obj_insert k v (obj_delete k kvs) = obj_insert k v kvs.
Proof.
  intros Ho. apply obj_ext; [by apply keys_above_insert, keys_above_delete|by apply keys_above_insert|].
  intros j. rewrite !obj_lookup_insert, obj_lookup_delete by done. by destruct (bool_decide (j = k)).
Qed.

Lemma array_index_Some k n i : array_index k n = Some i → i < n ∧ array_index k (S (n - 1)) = Some i ∧ k ≠ "-".
Proof.
  unfold array_index. destruct (Atoi k) as [idx|] eqn:Ek; [|done].
  destruct (Z.ltb_spec idx 0) as [H|H]; simpl; [done|].
  destruct (Z.leb_spec (Z.of_nat n) idx) as [H'|H']; [done|]. intros [= <-]. split_and!; [lia| |].
  - destruct (Z.leb_spec (Z.of_nat (S (n - 1))) idx); [lia|done].
  - intros ->. vm_compute in Ek. done.
Qed.

Lemma apply_replace r p v x :
  Forall plain_key p → wf r = true → getValue r p = Ok x →
  applyOperation r (replace_op (path_of p) v) = Ok (set_at r p v).
Proof.
  intros Hpl Hwf Hx. unfold applyOperation. simpl. rewrite ParsePointer_path by done. simpl.
  destruct p as [|k p _] using rev_ind; [done|]. destruct (getValue_snoc _ _ _ _ Hx) as (parent & Hp & Hk).
  pose proof (wf_get _ _ _ Hwf Hp) as Hwp. rewrite (set_at_app r p [k] parent) by done. simpl in Hk.
  destruct parent as [| | | |l|kvs]; try done.
  - destruct (array_index k (length l)) as [i|] eqn:Ei; [|done]. destruct (l !! i) as [w|] eqn:El; [|done].
    destruct (array_index_Some _ _ _ Ei) as (Hlt & Ei' & Hdash).
    rewrite (removeValue_del r p k (JArray l) (JArray (take i l ++ drop (S i) l))) by (done || (simpl; by rewrite Ei)).
    simpl. rewrite (addValue_put _ p k v (JArray (take i l ++ drop (S i) l)) (JArray (<[i := v]> l))).
    + rewrite (set_set _ _ _ _ _ Hp). simpl. by rewrite Ei, El.
    + by apply (get_set _ _ _ _ Hp).
    + simpl. rewrite bool_decide_eq_false_2 by done. rewrite length_app, length_take, length_drop.
      replace (i `min` length l + (length l - S i)) with (length l - 1) by lia. rewrite Ei'. simpl.
      rewrite insert_take_drop by done. rewrite take_app_length', drop_app_length' by (rewrite length_take; lia). done.
  - destruct (obj_lookup k kvs) as [w|] eqn:Ek; [|done]. apply wf_object in Hwp as [Ho _].
    rewrite (removeValue_del r p k (JObject kvs) (JObject (obj_delete k kvs))) by (done || (simpl; by rewrite Ek)).
    simpl. rewrite (addValue_put _ p k v (JObject (obj_delete k kvs)) (JObject (obj_insert k v kvs))).
    + rewrite (set_set _ _ _ _ _ Hp). simpl. by rewrite Ek.
    + by apply (get_set _ _ _ _ Hp).
    + simpl. by rewrite obj_insert_delete.
Qed.

(** * Sequences of operations *)

Fixpoint run (r : json) (ops : Patch) : option json :=
  match ops with
  | [] => Some r
  | op :: ops' => match applyOperation r op with Ok r' => run r' ops' | Err _ => None end
  end.

Lemma run_apply_from i r ops r' : run r ops = Some r' → apply_from i r ops = Ok r'.
Proof.
  revert i r. induction ops as [|op ops IH]; intros i r; simpl; [by intros [= ->]|].
  destruct (applyOperation r op); [apply IH|done].
Qed.

Lemma run_app r ops ops' : run r (ops ++ ops') = run r ops ≫= λ r', run r' ops'.
Proof.
  revert r. induction ops as [|op ops IH]; intros r; simpl; [done|]. by destruct (applyOperation r op).
Qed.

(** * Documents that can be patched *)

(** The keys are in order and have no slashes and tildes, there is no NaN, arrays fit an [int], and
    nothing below the root is [null]. *)
Definition present (v : json) : bool := match v with JNull => false | _ => true end.

Fixpoint nice (v : json) : bool :=
  match v with
  | JNumber f => f64_eqb f f
  | JArray l => (Z.of_nat (length l) <=? max_int64)%Z && forallb (λ x, present x && nice x) l
  | JObject kvs =>
      keys_above None kvs &&
      forallb (λ kv, bool_decide (plain_key kv.1) && (present kv.2 && nice kv.2)) kvs
  | _ => true
  end.

Lemma nice_object kvs :
  nice (JObject kvs) = true ↔
  ordered kvs ∧ Forall (λ kv, plain_key kv.1 ∧ kv.2 ≠ JNull ∧ nice kv.2 = true) kvs.
Proof.
  simpl. rewrite andb_true_iff, forallb_forall, Forall_forall. unfold ordered.
  assert (∀ v, present v = true ↔ v ≠ JNull) as Hp by (by intros []).
  split; (intros [Ho H]; split; [done|]); intros kv Hin.
  - specialize (H kv (proj1 (list_elem_of_In _ _) Hin)). by rewrite !andb_true_iff, bool_decide_eq_true, Hp in H.
  - specialize (H kv (proj2 (list_elem_of_In _ _) Hin)). by rewrite !andb_true_iff, bool_decide_eq_true, Hp.
Qed.

Lemma nice_array l :
  nice (JArray l) = true ↔ (Z.of_nat (length l) <= max_int64)%Z ∧ Forall (λ x, x ≠ JNull ∧ nice x = true) l.
Proof.
  simpl. rewrite andb_true_iff, Z.leb_le, forallb_forall, Forall_forall.
  assert (∀ v, present v = true ↔ v ≠ JNull) as Hp by (by intros []).
  split; (intros [Ho H]; split; [done|]); intros x Hin.
  - specialize (H x (proj1 (list_elem_of_In _ _) Hin)). by rewrite andb_true_iff, Hp in H.
  - specialize (H x (proj2 (list_elem_of_In _ _) Hin)). by rewrite andb_true_iff, Hp.
Qed.

Lemma nice_wf v : nice v = true → wf v = true ∧ no_nan v = true.
Proof.
  induction v as [|b|f|s|l IH|kvs IH] using json_ind; intros H; try done.
  - apply nice_array in H as [_ H]. simpl. rewrite !forallb_forall. rewrite Forall_forall in IH, H.
    split; intros x Hx%list_elem_of_In; apply IH, H; done.
  - apply nice_object in H as [Ho H]. unfold ordered in Ho. simpl. rewrite Ho. simpl. rewrite !forallb_forall. rewrite Forall_forall in IH, H.
    split; intros x Hx%list_elem_of_In; apply IH, H; done.
Qed.

Lemma nice_entry k v kvs : nice (JObject kvs) = true → obj_lookup k kvs = Some v → plain_key k ∧ v ≠ JNull ∧ nice v = true.
Proof.
  intros [Ho H]%nice_object Hv. apply obj_lookup_elem in Hv; [|done]. rewrite Forall_forall in H. by apply (H (k, v)).
Qed.

(** Two ordered maps whose entries are related are related. *)
Lemma obj_ext_rel (R : json → json → Prop) kvs kvs' :
  ordered kvs → ordered kvs' → (∀ k, option_Forall2 R (obj_lookup k kvs) (obj_lookup k kvs')) →
  Forall2 (λ x y, x.1 = y.1 ∧ R x.2 y.2) kvs kvs'.
Proof.
  unfold ordered. revert kvs'. induction kvs as [|[k v] kvs IH]; intros [|[j w] kvs'] H H' E; [constructor| | |].
  - specialize (E j). simpl in E. rewrite bool_decide_eq_true_2 in E by done. inversion E.
  - specialize (E k). simpl in E. rewrite bool_decide_eq_true_2 in E by done. inversion E.
  - simpl in H, H'. assert (k = j) as <-.
    { destruct (string_ltb k j) eqn:E1; [|destruct (string_ltb j k) eqn:E2; [|by apply string_ltb_total]]; exfalso.
      - specialize (E k). simpl in E. rewrite (bool_decide_eq_true_2 (k = k)) in E by done.
        rewrite bool_decide_eq_false_2 in E by (intros ->; by rewrite string_ltb_irrefl in E1).
        rewrite (keys_above_not k) in E; [inversion E|]. by apply (keys_above_below k j).
      - specialize (E j). simpl in E. rewrite (bool_decide_eq_true_2 (j = j)) in E by done.
        rewrite bool_decide_eq_false_2 in E by (intros ->; by rewrite string_ltb_irrefl in E2).
        rewrite (keys_above_not j) in E; [inversion E|]. by apply (keys_above_below j k). }
    constructor.
    + specialize (E k). simpl in E. rewrite bool_decide_eq_true_2 in E by done. split; [done|]. by inversion E.
    + apply IH; [by apply (keys_above_weaken (Some k))..|]. intros i. specialize (E i). simpl in E.
      destruct (bool_decide_reflect (i = k)) as [Ei|Ei]; [|done]. rewrite Ei, !keys_above_not by done. constructor.
Qed.

Lemma ordered_NoDup kvs : ordered kvs → NoDup kvs.*1.
Proof.
  unfold ordered. induction kvs as [|[k v] kvs IH]; [constructor|]. intros H. rewrite fmap_cons. cbn [fst].
  simpl in H. constructor; [|by apply IH, (keys_above_weaken (Some k))].
  intros ([k' v'] & E & Hin)%list_elem_of_fmap. simpl in E. subst k'.
  apply obj_lookup_elem in Hin; [|by apply (keys_above_weaken (Some k))]. by rewrite keys_above_not in Hin.
Qed.

Lemma lookup_key_iff k kvs : ordered kvs → is_Some (obj_lookup k kvs) ↔ k ∈ kvs.*1.
Proof.
  intros Ho. rewrite list_elem_of_fmap. split.
  - intros [v Hv%obj_lookup_elem]; [|done]. by exists (k, v).
  - intros ([k' v] & E & Hin). simpl in E. subst k'. exists v. by apply obj_lookup_elem.
Qed.

(** * The difference of two maps *)

Section at_path.
Context (p : list string) (Hp : Forall plain_key p).

Lemma plain_snoc k : plain_key k → Forall plain_key (p ++ [k]).
Proof using Hp. intros Hk. apply Forall_app. auto. Qed.

Definition removal (dst : list (string * json)) (kv : string * json) : Patch :=
  match obj_lookup kv.1 dst with
  | Some _ => []
  | None => [remove_op (subPath (path_of p) kv.1)]
  end.

(** The keys of a list of entries that are not in the new map. *)
Definition gone (dst l : list (string * json)) (k : string) : bool :=
  bool_decide (k ∈ l.*1 ∧ obj_lookup k dst = None).

Lemma gone_cons dst k v l j :
  gone dst ((k, v) :: l) j = if bool_decide (j = k) then bool_decide (obj_lookup k dst = None) else gone dst l j.
Proof.
  unfold gone. rewrite fmap_cons. cbn [fst]. destruct (bool_decide_reflect (j = k)) as [->|Hne];
    apply bool_decide_ext; rewrite elem_of_cons; naive_solver.
Qed.

Lemma removals_run dst l c r :
  wf r = true → getValue r p = Ok (JObject c) → NoDup l.*1 → Forall (λ kv, plain_key kv.1) l →
  (∀ k, k ∈ l.*1 → is_Some (obj_lookup k c)) →
  ∃ c', run r (concat (removal dst <$> l)) = Some (set_at r p (JObject c')) ∧ wf (JObject c') = true ∧
    ∀ k, obj_lookup k c' = if gone dst l k then None else obj_lookup k c.
Proof using Hp.
  revert c r. induction l as [|[k v] l IH]; intros c r Hwf Hc Hnd Hpl Hin.
  { exists c. split_and!; [simpl; by rewrite set_get|by apply (wf_get r p)|].
    intros k. unfold gone. rewrite bool_decide_eq_false_2; [done|]. intros [H _]. by apply not_elem_of_nil in H. }
  rewrite fmap_cons in Hnd, Hin. cbn [fst] in Hnd, Hin. apply NoDup_cons in Hnd as [Hk Hnd].
  apply Forall_cons in Hpl as [Hkp Hpl]. pose proof (wf_get _ _ _ Hwf Hc) as Hwc. pose proof Hwc as [Ho Hwv]%wf_object.
  assert (gone dst l k = false) as Hgk by (unfold gone; apply bool_decide_eq_false; naive_solver).
  rewrite fmap_cons. cbn [concat]. unfold removal at 1. cbn [fst]. destruct (obj_lookup k dst) as [w|] eqn:Ed.
  - destruct (IH c r Hwf Hc Hnd Hpl) as (c' & Hrun & Hw' & Hl); [intros j Hj; apply Hin; by right|].
    exists c'. split_and!; [done|done|]. intros j. rewrite Hl, gone_cons, Ed.
    destruct (bool_decide_reflect (j = k)) as [->|]; [by rewrite Hgk|done].
  - assert (is_Some (obj_lookup k c)) as [u Hu] by (apply Hin; by left).
    assert (wf (JObject (obj_delete k c)) = true) as Hwd.
    { apply wf_object. split; [by apply keys_above_delete|]. intros j w. rewrite obj_lookup_delete by done.
      case_bool_decide; [done|apply Hwv]. }
    destruct (IH (obj_delete k c) (set_at r p (JObject (obj_delete k c)))) as (c' & Hrun & Hw' & Hl); [| |done|done| |].
    + by apply (wf_set _ _ _ _ Hwf Hc).
    + by apply (get_set _ _ _ _ Hc).
    + intros j Hj. rewrite obj_lookup_delete, bool_decide_eq_false_2 by (done || by intros ->). apply Hin. by right.
    + exists c'. split_and!; [|done|].
      * cbn [app run]. rewrite <- path_of_snoc.
        rewrite (apply_remove r p k (JObject c) (JObject (obj_delete k c))); [|by apply plain_snoc|done|simpl; by rewrite Hu].
        by rewrite Hrun, (set_set _ _ _ _ _ Hc).
      * intros j. rewrite Hl, gone_cons, obj_lookup_delete, Ed by done.
        destruct (bool_decide_reflect (j = k)) as [->|]; [by rewrite Hgk|done].
Qed.

(** What the induction shows of a new value: the difference to any old value leads to it. *)
Definition patched (dst : json) : Prop :=
  ∀ src p r, Forall plain_key p → wf r = true → getValue r p = Ok src →
    nice src = true → nice dst = true → src ≠ JNull → dst ≠ JNull →
    ∃ d, run r (diffRecursive (path_of p) src dst) = Some (set_at r p d) ∧ DeepEqual d dst = true ∧ wf d = true.

(** The loop over the keys of the new map. *)
Definition change (s : list (string * json)) (kv : string * json) : Patch :=
  match obj_lookup kv.1 s with
  | None => [add_op (subPath (path_of p) kv.1) kv.2]
  | Some sv => diffRecursive (subPath (path_of p) kv.1) sv kv.2
  end.

Lemma diff_objects s d :
  diffRecursive (path_of p) (JObject s) (JObject d) =
  if DeepEqual (JObject s) (JObject d) then []
  else concat (removal d <$> s) ++ concat (change s <$> d).
Proof.
  change (diffRecursive (path_of p) (JObject s) (JObject d)) with
    (if DeepEqual (JObject s) (JObject d) then [] else removals (path_of p) s d ++
      (fix go d := match d with
        | [] => []
        | (k, v) :: d' =>
            (match obj_lookup k s with
             | None => [add_op (subPath (path_of p) k) v]
             | Some sv => diffRecursive (subPath (path_of p) k) sv v
             end) ++ go d'
        end) d).
  destruct (DeepEqual _ _); [done|]. f_equal. generalize d. induction d0 as [|[k v] d0 IH]; [done|].
  rewrite fmap_cons. cbn [concat]. by rewrite <- IH.
Qed.

Lemma changes_run s l c r :
  wf r = true → getValue r p = Ok (JObject c) → nice (JObject s) = true → NoDup l.*1 →
  Forall (λ kv, plain_key kv.1 ∧ kv.2 ≠ JNull ∧ nice kv.2 = true) l → Forall (λ kv, patched kv.2) l →
  (∀ k, k ∈ l.*1 → obj_lookup k c = obj_lookup k s) →
  ∃ c', run r (concat (change s <$> l)) = Some (set_at r p (JObject c')) ∧ wf (JObject c') = true ∧
    (∀ k v, (k, v) ∈ l → ∃ v', obj_lookup k c' = Some v' ∧ DeepEqual v' v = true) ∧
    (∀ k, k ∉ l.*1 → obj_lookup k c' = obj_lookup k c).
Proof using Hp.
  intros Hwf Hc Hs. revert c r Hwf Hc. induction l as [|[k v] l IH]; intros c r Hwf Hc Hnd Hl HP Hin.
  { exists c. split_and!; [simpl; by rewrite set_get|by apply (wf_get r p)|by intros k v ?%not_elem_of_nil|done]. }
  rewrite fmap_cons in Hnd, Hin. cbn [fst] in Hnd, Hin. apply NoDup_cons in Hnd as [Hk Hnd].
  apply Forall_cons in Hl as [(Hkp & Hv0 & Hvn) Hl], HP as [HPv HP]. cbn [fst snd] in *.
  pose proof (wf_get _ _ _ Hwf Hc) as Hwc.
  assert (∃ v', run r (change s (k, v)) = Some (set_at r p (JObject (obj_insert k v' c))) ∧
    DeepEqual v' v = true ∧ wf v' = true) as (v' & Hrun1 & Hv' & Hwv').
  { unfold change. cbn [fst snd]. specialize (Hin k ltac:(by left)). rewrite <- path_of_snoc.
    destruct (obj_lookup k s) as [sv|] eqn:Es.
    - destruct (nice_entry k sv s Hs Es) as (_ & Hsv0 & Hsv).
      destruct (HPv sv (p ++ [k]) r) as (d & Hd & Hde & Hdw); [by apply plain_snoc|done| |done|done|done|done|].
      { rewrite (getValue_app _ _ _ _ Hc). simpl. by rewrite Hin. }
      exists d. split_and!; [|done|done]. rewrite Hd, (set_at_app _ _ _ _ _ Hc). simpl. by rewrite Hin.
    - exists v. destruct (nice_wf v Hvn) as [Hvw Hvnan]. split_and!; [|by apply DeepEqual_refl|done].
      cbn [run]. rewrite (apply_add r p k v (JObject c) (JObject (obj_insert k v c))); [done|by apply plain_snoc|done|done]. }
  destruct (IH (obj_insert k v' c) (set_at r p (JObject (obj_insert k v' c)))) as (c' & Hrun & Hw' & Hl1 & Hl2);
    [| |done|done|done| |].
  - apply (wf_set _ _ _ _ Hwf Hc). by apply wf_insert.
  - by apply (get_set _ _ _ _ Hc).
  - intros j Hj. rewrite obj_lookup_insert, bool_decide_eq_false_2 by (by intros ->). apply Hin. by right.
  - exists c'. split_and!; [|done| |].
    + rewrite fmap_cons. cbn [concat]. rewrite run_app, Hrun1. simpl. by rewrite Hrun, (set_set _ _ _ _ _ Hc).
    + intros j w [[= -> ->]|Hjw]%elem_of_cons; [|by apply Hl1]. exists v'. split; [|done].
      rewrite Hl2 by done. by rewrite obj_lookup_insert, bool_decide_eq_true_2.
    + intros j. rewrite fmap_cons. cbn [fst]. intros [Hne Hj]%not_elem_of_cons. rewrite Hl2 by done.
      by rewrite obj_lookup_insert, bool_decide_eq_false_2.
Qed.

Lemma objects_run s d r :
  wf r = true → getValue r p = Ok (JObject s) → nice (JObject s) = true → nice (JObject d) = true →
  Forall (λ kv, patched kv.2) d →
  ∃ c, run r (concat (removal d <$> s) ++ concat (change s <$> d)) = Some (set_at r p (JObject c)) ∧
    DeepEqual (JObject c) (JObject d) = true ∧ wf (JObject c) = true.
Proof using Hp.
  intros Hwf Hc Hs Hd HP. pose proof Hs as [Hso Hsp]%nice_object. pose proof Hd as [Hdo Hdp]%nice_object.
  destruct (removals_run d s s r Hwf Hc) as (c1 & Hrun1 & Hw1 & Hl1); [by apply ordered_NoDup| | |].
  { eapply Forall_impl; [exact Hsp|]. by intros kv (? & _). }
  { intros k Hk. by apply lookup_key_iff. }
  destruct (changes_run s d c1 (set_at r p (JObject c1))) as (c2 & Hrun2 & Hw2 & Hl2 & Hl3);
    [by apply (wf_set _ _ _ _ Hwf Hc)|by apply (get_set _ _ _ _ Hc)|done|by apply ordered_NoDup|done|done| |].
  { intros k [v Hv]%lookup_key_iff; [|done]. rewrite Hl1. unfold gone. rewrite bool_decide_eq_false_2; [done|].
    intros [_ E]. congruence. }
  exists c2. split_and!; [|apply DeepEqual_objects|done].
  - rewrite run_app, Hrun1. simpl. by rewrite Hrun2, (set_set _ _ _ _ _ Hc).
  - apply (obj_ext_rel (λ x y, DeepEqual x y = true)); [by apply wf_object in Hw2 as [? _]|done|]. intros k. destruct (obj_lookup k d) as [v|] eqn:Ed.
    + apply obj_lookup_elem in Ed; [|done]. destruct (Hl2 k v Ed) as (v' & -> & ?). by constructor.
    + rewrite Hl3; [|intros [? ?]%lookup_key_iff; [congruence|done]].
      rewrite Hl1. unfold gone. destruct (obj_lookup k s) as [w|] eqn:Es; [|by destruct (bool_decide _); constructor].
      rewrite bool_decide_eq_true_2; [constructor|]. split; [|done]. apply lookup_key_iff; [done|]. by rewrite Es.
Qed.

(** * The difference of two arrays *)

(** The loop over the common indices. *)
Fixpoint common (i : nat) (s d : list json) : Patch :=
  match d, s with
  | y :: d', x :: s' => diffRecursive (subPath (path_of p) (pretty i)) x y ++ common (S i) s' d'
  | _, _ => []
  end.

Lemma diff_arrays s d :
  diffRecursive (path_of p) (JArray s) (JArray d) =
  if DeepEqual (JArray s) (JArray d) then []
  else common 0 s d ++ added (path_of p) (length s) (drop (length s) d) ++ removed (path_of p) (length d) (length s).
Proof.
  change (diffRecursive (path_of p) (JArray s) (JArray d)) with
    (if DeepEqual (JArray s) (JArray d) then []
     else
       (fix go (i : nat) (s d : list json) {struct d} := match d, s with
         | y :: d', x :: s' => diffRecursive (subPath (path_of p) (pretty i)) x y ++ go (S i) s' d'
         | _, _ => []
         end) 0 s d ++
       added (path_of p) (length s) (drop (length s) d) ++ removed (path_of p) (length d) (length s)).
  destruct (DeepEqual _ _); [done|]. f_equal. generalize 0 at 1 2. generalize s d. clear s d.
  intros s d. revert s. induction d as [|y d IH]; intros [|x s] i; [done..|]. cbn [common]. by rewrite <- IH.
Qed.

Lemma pretty_nat_Z (i : nat) : pretty i = pretty (Z.of_nat i).
Proof. rewrite pretty_Z_nonneg by lia. by rewrite <- nat_N_Z, N2Z.id. Qed.

Lemma plain_index (i : nat) : plain_key (pretty i) ∧ pretty i ≠ "-".
Proof.
  pose proof (pretty_N_digits (N.of_nat i)) as H. change (pretty (N.of_nat i)) with (pretty i) in H. split; [split|].
  - apply (string_forall_impl digit_char); [|done]. intros c Hc. apply negb_true_iff, ascii_eqb_false. intros <-. done.
  - apply (string_forall_impl digit_char); [|done]. intros c Hc. apply negb_true_iff, ascii_eqb_false. intros <-. done.
  - intros E. rewrite E in H. done.
Qed.

Lemma array_index_pretty (i n : nat) : (Z.of_nat i <= max_int64)%Z → i < n → array_index (pretty i) n = Some i.
Proof.
  intros Hi Hn. unfold array_index. rewrite pretty_nat_Z, Atoi_pretty by lia.
  destruct (Z.ltb_spec (Z.of_nat i) 0); [lia|]. destruct (Z.leb_spec (Z.of_nat n) (Z.of_nat i)); [lia|]. simpl. f_equal. lia.
Qed.

Lemma common_run s d pre r :
  wf r = true → getValue r p = Ok (JArray (pre ++ s)) → (Z.of_nat (length pre + length s) <= max_int64)%Z →
  Forall (λ x, x ≠ JNull ∧ nice x = true) s → Forall (λ x, x ≠ JNull ∧ nice x = true) d → Forall patched d →
  ∃ e, run r (common (length pre) s d) = Some (set_at r p (JArray (pre ++ e ++ drop (length d) s))) ∧
    Forall2 (λ x y, DeepEqual x y = true) e (take (length s) d) ∧ Forall (λ x, wf x = true) e.
Proof using Hp.
  revert s pre r. induction d as [|y d IH]; intros s pre r Hwf Hc Hlen Hs Hd HP.
  { exists []. simpl. rewrite take_nil. split_and!; [|constructor|constructor]. rewrite drop_0, set_get; by destruct s. }
  destruct s as [|x s].
  { exists []. cbn [common drop length take]. split_and!; [|constructor|constructor]. simpl. by rewrite set_get. }
  apply Forall_cons in Hs as [[Hx0 Hx] Hs], Hd as [[Hy0 Hy] Hd], HP as [HPy HP]. simpl in Hlen.
  assert (array_index (pretty (length pre)) (length (pre ++ x :: s)) = Some (length pre)) as Hi.
  { apply array_index_pretty; [lia|]. rewrite length_app. simpl. lia. }
  assert (getValue r (p ++ [pretty (length pre)]) = Ok x) as Hgx.
  { rewrite (getValue_app _ _ _ _ Hc). simpl. by rewrite Hi, list_lookup_middle. }
  destruct (HPy x (p ++ [pretty (length pre)]) r) as (e & He & Hde & Hwe); [by apply plain_snoc, plain_index|done..|].
  assert (set_at r (p ++ [pretty (length pre)]) e = set_at r p (JArray ((pre ++ [e]) ++ s))) as Hse.
  { rewrite (set_at_app _ _ _ _ _ Hc). simpl. rewrite Hi, list_lookup_middle by done.
    rewrite insert_app_r_alt by lia. rewrite Nat.sub_diag. simpl. by rewrite <- app_assoc. }
  destruct (IH s (pre ++ [e]) (set_at r p (JArray ((pre ++ [e]) ++ s)))) as (es & Hes & Hde' & Hwe').
  - rewrite <- Hse. by apply (wf_set _ _ _ _ Hwf Hgx).
  - by apply (get_set _ _ _ _ Hc).
  - rewrite length_app. simpl. lia.
  - done.
  - done.
  - done.
  - exists (e :: es). split_and!; [|by constructor|by constructor].
    cbn [common]. rewrite run_app, <- path_of_snoc, He. cbn [mbind option_bind]. rewrite Hse.
    rewrite length_app in Hes. cbn [length] in Hes. rewrite Nat.add_1_r in Hes. rewrite Hes.
    rewrite (set_set _ _ _ _ _ Hc). do 2 f_equal. f_equal. rewrite <- app_assoc. done.
Qed.

Lemma added_run l c r :
  getValue r p = Ok (JArray c) → wf r = true → (Z.of_nat (length c + length l) <= max_int64)%Z →
  Forall (λ x, wf x = true) l →
  run r (added (path_of p) (length c) l) = Some (set_at r p (JArray (c ++ l))).
Proof using Hp.
  revert c r. induction l as [|v l IH]; intros c r Hc Hwf Hlen Hl.
  { simpl. by rewrite app_nil_r, set_get. }
  apply Forall_cons in Hl as [Hv Hl]. simpl in Hlen. cbn [added run]. rewrite <- path_of_snoc.
  rewrite (apply_add r p (pretty (length c)) v (JArray c) (JArray (c ++ [v]))); [| |done|].
  - specialize (IH (c ++ [v]) (set_at r p (JArray (c ++ [v])))). rewrite length_app in IH. cbn [length] in IH.
    rewrite Nat.add_1_r in IH. rewrite IH; [|by apply (get_set _ _ _ _ Hc)| |lia|done].
    + rewrite (set_set _ _ _ _ _ Hc). by rewrite <- app_assoc.
    + apply (wf_set _ _ _ _ Hwf Hc). apply wf_array, Forall_app. split; [|by constructor].
      apply wf_array. by apply (wf_get r p).
  - apply plain_snoc, plain_index.
  - simpl. rewrite bool_decide_eq_false_2 by apply plain_index. rewrite array_index_pretty by lia. simpl.
    rewrite take_ge, drop_ge by lia. done.
Qed.

Lemma removed_run a b r :
  getValue r p = Ok (JArray (a ++ b)) → wf r = true → (Z.of_nat (length a + length b) <= max_int64)%Z →
  run r (removed (path_of p) (length a) (length a + length b)) = Some (set_at r p (JArray a)).
Proof using Hp.
  unfold removed. replace (length a + length b - length a) with (length b) by lia.
  revert r. induction b as [|v b IH] using rev_ind; intros r Hc Hwf Hlen.
  { simpl. rewrite app_nil_r in Hc. by rewrite set_get. }
  rewrite length_app in Hlen |- *. simpl in Hlen |- *. rewrite Nat.add_1_r, seq_S, reverse_snoc, fmap_cons. cbn [run].
  rewrite <- path_of_snoc.
  rewrite (apply_remove r p (pretty (length a + length b)) (JArray (a ++ b ++ [v])) (JArray (a ++ b))); [| |done|].
  - rewrite IH; [by rewrite (set_set _ _ _ _ _ Hc)|by apply (get_set _ _ _ _ Hc)| |lia].
    apply (wf_set _ _ _ _ Hwf Hc). pose proof (wf_get _ _ _ Hwf Hc) as H%wf_array. apply wf_array.
    rewrite app_assoc in H. by apply Forall_app in H as [? _].
  - apply plain_snoc, plain_index.
  - simpl. rewrite array_index_pretty by (rewrite ?length_app; simpl; lia). simpl. rewrite (app_assoc a b).
    rewrite take_app_length', drop_ge by (rewrite ?length_app; simpl; lia). by rewrite app_nil_r.
Qed.

Lemma arrays_run s d r :
  wf r = true → getValue r p = Ok (JArray s) → nice (JArray s) = true → nice (JArray d) = true → Forall patched d →
  ∃ c, run r (common 0 s d ++ added (path_of p) (length s) (drop (length s) d) ++
              removed (path_of p) (length d) (length s)) = Some (set_at r p (JArray c)) ∧
    DeepEqual (JArray c) (JArray d) = true ∧ wf (JArray c) = true.
Proof using Hp.
  intros Hwf Hc [Hsl Hs]%nice_array [Hdl Hd]%nice_array HP.
  destruct (common_run s d [] r Hwf Hc) as (e & Hrun & He & Hwe); [simpl; lia|done..|]. cbn [app length] in Hrun.
  pose proof (Forall2_length _ _ _ He) as Hle. rewrite length_take in Hle.
  assert (Forall (λ x, wf x = true) d) as Hwd.
  { eapply Forall_impl; [exact Hd|]. intros x [_ ?%nice_wf]. naive_solver. }
  assert (Forall (λ x, wf x = true) s) as Hws.
  { eapply Forall_impl; [exact Hs|]. intros x [_ ?%nice_wf]. naive_solver. }
  assert (wf (set_at r p (JArray (e ++ drop (length d) s))) = true) as Hw1.
  { apply (wf_set _ _ _ _ Hwf Hc), wf_array, Forall_app. split; [done|]. by apply Forall_drop. }
  pose proof (get_set _ _ _ (JArray (e ++ drop (length d) s)) Hc) as Hg1.
  assert (DeepEqual (JArray (e ++ drop (length s) d)) (JArray d) = true ∧ wf (JArray (e ++ drop (length s) d)) = true) as [Hde Hwe'].
  { split.
    - apply DeepEqual_arrays. rewrite <- (take_drop (length s) d) at 2. apply Forall2_app; [done|].
      apply Forall2_same_length_lookup_2; [done|]. intros i x y Hx Hy. simplify_eq. apply DeepEqual_refl.
      apply (Forall_drop _ (length s)) in Hd. by apply nice_wf, (Forall_lookup_1 _ _ _ _ Hd Hx).
    - apply wf_array, Forall_app. split; [done|]. by apply Forall_drop. }
  exists (e ++ drop (length s) d). split_and!; [|done|done].
  rewrite run_app, Hrun. cbn [mbind option_bind]. rewrite run_app.
  destruct (decide (length d <= length s)) as [Hcmp|Hcmp].
  - rewrite (drop_ge d) by done. rewrite app_nil_r. cbn [added run mbind option_bind].
    assert (removed (path_of p) (length d) (length s) =
      removed (path_of p) (length e) (length e + length (drop (length d) s))) as ->.
    { f_equal; rewrite ?length_drop; lia. }
    rewrite (removed_run e (drop (length d) s)); [by rewrite (set_set _ _ _ _ _ Hc)|done|done|].
    rewrite length_drop. lia.
  - rewrite (drop_ge s) in * by lia. rewrite app_nil_r in *. replace (length s) with (length e) at 1 by lia.
    rewrite (added_run (drop (length s) d) e); [|done|done|rewrite length_drop; lia|by apply Forall_drop].
    cbn [mbind option_bind]. rewrite (set_set _ _ _ _ _ Hc). unfold removed.
    replace (length s - length d) with 0 by lia. done.
Qed.
End at_path.

(** * Every difference *)

Lemma diff_leaf path src dst :
  src ≠ JNull → dst ≠ JNull →
  match src, dst with JObject _, JObject _ | JArray _, JArray _ => False | _, _ => True end →
  diffRecursive path src dst = if DeepEqual src dst then [] else [replace_op path dst].
Proof. by destruct src, dst. Qed.

Lemma replaced src dst p r :
  Forall plain_key p → wf r = true → getValue r p = Ok src → nice dst = true →
  ∃ d, run r (if DeepEqual src dst then [] else [replace_op (path_of p) dst]) = Some (set_at r p d) ∧
    DeepEqual d dst = true ∧ wf d = true.
Proof.
  intros Hp Hwf Hsrc Hdst. destruct (DeepEqual src dst) eqn:E.
  - exists src. split_and!; [simpl; by rewrite set_get|done|by apply (wf_get r p)].
  - exists dst. apply nice_wf in Hdst as [Hw Hn]. split_and!; [|by apply DeepEqual_refl|done].
    cbn [run]. by rewrite (apply_replace r p dst src).
Qed.

Lemma patched_all dst : patched dst.
Proof.
  induction dst as [|b|f|s|d IH|d IH] using json_ind; intros src p r Hp Hwf Hsrc Hs Hd Hs0 Hd0; [done| | | | |].
  1-3: rewrite diff_leaf by (done || by destruct src); by apply replaced.
  - destruct src as [| | | |s|]; try (rewrite diff_leaf by done; by apply replaced). rewrite diff_arrays.
    destruct (DeepEqual (JArray s) (JArray d)) eqn:E; [|destruct (arrays_run p Hp s d r) as (c & ?); [done..|by exists (JArray c)]].
    exists (JArray s). split_and!; [simpl; by rewrite set_get|done|by apply (wf_get r p)].
  - destruct src as [| | | | |s]; try (rewrite diff_leaf by done; by apply replaced). rewrite diff_objects.
    destruct (DeepEqual (JObject s) (JObject d)) eqn:E; [|destruct (objects_run p Hp s d r) as (c & ?); [done..|by exists (JObject c)]].
    exists (JObject s). split_and!; [simpl; by rewrite set_get|done|by apply (wf_get r p)].
Qed.

(** C8: A difference leads from the one document to the other.  For documents whose keys have no
    slashes and tildes and that have no null below the root, applying the difference to the first
    succeeds and gives a document that is deeply equal to the second. *)
Theorem diff_apply src dst :
  nice src = true → nice dst = true →
  ∃ d, Apply src (Diff src dst) = Ok d ∧ DeepEqual d dst = true.
Proof.
  intros Hs Hd. pose proof (nice_wf dst Hd) as [Hdw Hdn]. pose proof (nice_wf src Hs) as [Hsw _].
  destruct (decide (present src = true)) as [Hs0|Hs0], (decide (present dst = true)) as [Hd0|Hd0].
  - destruct (patched_all dst src [] src) as (d & Hrun & HE & _); [constructor|done|done|done|done|by intros ->|by intros ->|].
    exists d. split; [|done]. by apply run_apply_from.
  - destruct dst; try done. exists JNull. by destruct src.
  - destruct src; try done. exists dst. split; [|by apply DeepEqual_refl]. by destruct dst.
  - exists JNull. by destruct src, dst.
Qed.

Definition ex_num (z : Z) : json := JNumber (f64_of_Z z).
Definition ex_src : json :=
  JObject [("a", ex_num 1); ("l", JArray [ex_num 1; JString "x"; JBool true]); ("z", JObject [])].
Definition ex_dst : json :=
  JObject [("a", JString "1"); ("b", JArray []); ("l", JArray [ex_num 2; JObject [("k", ex_num 3)]])].

Lemma diff_apply_witness :
  nice ex_src = true ∧ nice ex_dst = true ∧ length (Diff ex_src ex_dst) = 6 ∧
  ∃ d, Apply ex_src (Diff ex_src ex_dst) = Ok d ∧ DeepEqual d ex_dst = true.
Proof.
  split; [vm_compute; reflexivity|]. split; [vm_compute; reflexivity|]. split; [vm_compute; reflexivity|].
  apply (diff_apply ex_src ex_dst); vm_compute; reflexivity.
Defined.

(** Where differences go wrong.  A key that becomes null is removed instead, a null element of an
    array that gets a value is kept behind it, and a key with a slash makes the patch fail. *)
Theorem diff_apply_breaks :
  Apply (JObject [("a", ex_num 1)]) (Diff (JObject [("a", ex_num 1)]) (JObject [("a", JNull)])) = Ok (JObject []) ∧
  Apply (JArray [JNull]) (Diff (JArray [JNull]) (JArray [ex_num 1])) = Ok (JArray [ex_num 1; JNull]) ∧
  is_ok (Apply (JObject []) (Diff (JObject []) (JObject [("a/b", ex_num 1)]))) = false.
Proof. vm_compute. split_and!; reflexivity. Qed.
