(* ===== verification/Paths.v ===== *)
(** The package [path]: [Clean] and [Join] on slash-separated paths. *)
From S2P Require Import Prelude Strings.

Abbreviation slash := ("/"%char).

(** One element of a path, on the elements before it, the last one first. *)
Definition clean_step (rooted : bool) (stack : list string) (seg : string) : list string :=
  if bool_decide (seg = "") || bool_decide (seg = ".") then stack
  else if bool_decide (seg = "..") then
    match stack with
    | top :: stack' =>
        if bool_decide (top = "..") then (if rooted then stack else ".." :: stack) else stack'
    | [] => if rooted then [] else [".."]
    end
  else seg :: stack.

Definition clean_segs (rooted : bool) (segs : list string) : list string :=
  reverse (foldl (clean_step rooted) [] segs).

(** [path.Clean] *)
Definition Clean (p : string) : string :=
  if bool_decide (p = "") then "."
  else
    let rooted := has_prefix "/" p in
    let segs := clean_segs rooted (split slash p) in
    if rooted then String slash (join slash segs)
    else if bool_decide (segs = []) then "." else join slash segs.

(** [path.Join] *)
Definition Join (elems : list string) : string :=
  match filter (λ e, e ≠ "") elems with
  | [] => ""
  | es => Clean (join slash es)
  end.

(** * Absolute paths *)

Lemma has_prefix_app p t : has_prefix p (p +:+ t) = true.
Proof. induction p as [|c p IH]; [done|]. rewrite string_app_cons. simpl. by rewrite ascii_eqb_refl. Qed.

Lemma join_app r c : r ≠ [] → c ≠ [] → join slash (r ++ c) = join slash r +:+ String slash (join slash c).
Proof.
  intros Hr Hc. induction r as [|x r IH]; [done|]. destruct (decide (r = [])) as [->|Hne].
  - cbn [app]. by rewrite join_cons.
  - cbn [app]. rewrite !join_cons, IH by (done || by destruct r). by rewrite <- !string_app_assoc.
Qed.

(** An element that is a name. *)
Definition proper (seg : string) : Prop := no_char slash seg ∧ seg ≠ "" ∧ seg ≠ "." ∧ seg ≠ "..".
#[export] Instance proper_dec seg : Decision (proper seg).
Proof. unfold proper. apply _. Defined.

Definition abs_path (segs : list string) : string := String slash (join slash segs).

Lemma split_sep sep s1 s2 : split sep (s1 +:+ String sep s2) = split sep s1 ++ split sep s2.
Proof.
  induction s1 as [|c s1 IH]; [simpl; by rewrite ascii_eqb_refl|]. rewrite string_app_cons. cbn [split].
  destruct (ascii_eqb sep c); [by rewrite IH|]. rewrite IH.
  destruct (split sep s1) as [|w ws] eqn:E; [by apply split_not_nil in E|done].
Qed.

Lemma abs_path_segs segs : Forall proper segs → ∃ e, split slash (abs_path segs) = "" :: e ++ segs ∧ Forall (λ s, s = "") e.
Proof.
  intros Hs. unfold abs_path. cbn [split]. rewrite ascii_eqb_refl. destruct segs as [|s segs].
  - exists [""]. split; [done|]. by repeat constructor.
  - exists []. split; [|constructor]. rewrite split_join; [done|done|].
    eapply Forall_impl; [exact Hs|]. by intros x [? _].
Qed.

Lemma clean_empty rooted stack e : Forall (λ s, s = "") e → foldl (clean_step rooted) stack e = stack.
Proof. induction 1 as [|s e -> _ IH]; [done|]. simpl. apply IH. Qed.

Lemma clean_proper rooted stack segs :
  Forall proper segs → foldl (clean_step rooted) stack segs = reverse segs ++ stack.
Proof.
  intros H. revert stack. induction H as [|s segs (_ & H1 & H2 & H3) _ IH]; intros stack; [done|]. cbn [foldl].
  unfold clean_step at 2. rewrite !bool_decide_eq_false_2 by done. simpl. rewrite IH, reverse_cons.
  by rewrite <- app_assoc.
Qed.

Lemma clean_step_proper stack seg : no_char slash seg → Forall proper stack → Forall proper (clean_step true stack seg).
Proof.
  intros Hs Hst. unfold clean_step. destruct (bool_decide_reflect (seg = "")) as [|H1]; simpl; [done|].
  destruct (bool_decide_reflect (seg = ".")) as [|H2]; simpl; [done|]. case_bool_decide as H3; [|by constructor].
  destruct Hst as [|top stack Ht Hst]; [done|]. case_bool_decide; [by constructor|done].
Qed.

Lemma clean_segs_proper segs : Forall (no_char slash) segs → Forall proper (clean_segs true segs).
Proof.
  intros H. unfold clean_segs. apply Forall_reverse. assert (Forall proper []) as H0 by constructor.
  revert H0. generalize (@nil string). induction H as [|s segs Hs _ IH]; intros st Hst; [done|]. simpl.
  apply IH. by apply clean_step_proper.
Qed.

Lemma Clean_rooted s : Clean (String slash s) = abs_path (clean_segs true (split slash s)).
Proof.
  unfold Clean. rewrite bool_decide_eq_false_2 by done. cbn [has_prefix]. rewrite ascii_eqb_refl. simpl. done.
Qed.

(** Joining two clean absolute paths. *)
Lemma Join_abs r c : Forall proper r → Forall proper c → Join [abs_path r; abs_path c] = abs_path (r ++ c).
Proof.
  intros Hr Hc. unfold Join. rewrite !filter_cons_True, filter_nil by done.
  change (join slash [abs_path r; abs_path c]) with (abs_path r +:+ String slash (abs_path c)).
  unfold abs_path at 1. rewrite string_app_cons, Clean_rooted. f_equal. unfold clean_segs.
  assert (∀ s, foldl (clean_step true) [] (split slash s) = foldl (clean_step true) [] (split slash (String slash s))) as Hss.
  { intros s. cbn [split]. by rewrite ascii_eqb_refl. }
  rewrite Hss, <- string_app_cons. fold (abs_path r). rewrite split_sep, foldl_app.
  destruct (abs_path_segs r Hr) as (e & -> & He), (abs_path_segs c Hc) as (e' & -> & He').
  cbn [foldl]. rewrite !foldl_app. change (clean_step true ?x "") with x.
  change (clean_step true [] "") with (@nil string).
  rewrite (clean_empty true [] e), (clean_proper true _ r) by done.
  rewrite (clean_empty true _ e'), (clean_proper true _ c) by done.
  rewrite app_nil_r, <- reverse_app. apply reverse_involutive.
Qed.

Lemma Clean_abs r : Forall proper r → Clean (abs_path r) = abs_path r.
Proof.
  intros Hr. unfold abs_path at 1. rewrite Clean_rooted. f_equal. unfold clean_segs.
  destruct (abs_path_segs r Hr) as (e & E & He). unfold abs_path in E. cbn [split] in E. rewrite ascii_eqb_refl in E.
  injection E as ->. rewrite foldl_app, (clean_empty true _ e), (clean_proper true _ r) by done. rewrite app_nil_r. apply reverse_involutive.
Qed.

(** Absolute paths of proper elements are equal only for equal elements. *)
Lemma abs_path_inj r c : Forall proper r → Forall proper c → abs_path r = abs_path c → r = c.
Proof.
  intros Hr Hc E. unfold abs_path in E. injection E as E.
  assert (∀ l, Forall proper l → l ≠ [] → split slash (join slash l) = l) as Hsj.
  { intros l Hl Hne. apply split_join; [done|]. eapply Forall_impl; [exact Hl|]. by intros x [? _]. }
  assert (∀ l, Forall proper l → join slash l = "" → l = []) as Hnil.
  { intros l Hl H. destruct l as [|x l]; [done|]. apply Forall_cons in Hl as [(_ & Hx & _) _]. destruct l; simpl in H; [done|].
    by destruct x. }
  destruct (decide (r = [])) as [->|Hr0]; [symmetry; by apply Hnil|].
  destruct (decide (c = [])) as [->|Hc0]; [by apply Hnil|].
  rewrite <- (Hsj r), <- (Hsj c) by done. by rewrite E.
Qed.
