(* ===== verification/Vfs.v ===== *)
(** The virtual file system of tenants: [internal/vfs/vfs.go].

    Data are strings of bytes; all the bytes held in memory are fewer than 2^63, so sums of sizes
    do not wrap around.  Times and the iteration order of [ListFiles] are arguments. *)
From S2P Require Import Prelude Errors Strings Paths.

Abbreviation SPathEscapesRoot := (SOther "vfs: path traversal escapes tenant root").
Abbreviation SFileNotFound := (SOther "vfs: file not found").
Abbreviation SStorageQuotaExceeded := (SOther "vfs: tenant storage quota exceeded").
Abbreviation SFileCountExceeded := (SOther "vfs: tenant file count limit exceeded").

Record FileInfo := MkFileInfo {
  fi_Path : string;
  fi_SizeBytes : Z;
  fi_CreatedAt : Time;
  fi_UpdatedAt : Time
}.
Record virtualFile := MkFile { vf_info : FileInfo; vf_data : string }.

Record Config := MkConfig { cfg_MaxTotalBytes : Z; cfg_MaxFileCount : Z }.
Definition DefaultConfig : Config := MkConfig (50 * 1024 * 1024) 500.

Record VFS := MkVFS {
  v_root : string;
  v_cfg : Config;
  v_files : gmap string virtualFile;
  v_totalBytes : Z
}.

Definition New (root : string) (cfg : Config) : VFS :=
  let root := if bool_decide (root = "") then "/" else root in
  MkVFS (Clean (String slash root)) cfg ∅ 0.

Definition nul : string := String (ascii_of_nat 0) "".

Definition escapes (userPath : string) : error := EWrap "%w: %s" [userPath] (ESentinel SPathEscapesRoot).

Definition has_suffix_slash (s : string) : bool :=
  match String.get (String.length s - 1) s with Some c => ascii_eqb c slash | None => false end.

Definition resolvePath (v : VFS) (userPath : string) : result error string :=
  if string_contains userPath nul then Err (EFmt "vfs: invalid null byte in path" [])
  else
    let cleanedRel := Clean userPath in
    if has_prefix "/.." userPath || string_contains userPath "/../" || has_prefix ".." cleanedRel then
      Err (escapes userPath)
    else
      let clean := Clean (String slash userPath) in
      let full := Clean (Join [v_root v; clean]) in
      let rootWithSlash := if has_suffix_slash (v_root v) then v_root v else v_root v +:+ "/" in
      if negb (bool_decide (full = v_root v)) && negb (has_prefix rootWithSlash full) then Err (escapes userPath)
      else Ok full.

Definition size (data : string) : Z := Z.of_nat (String.length data).

Definition WriteFile (userPath data : string) (now : Time) (v : VFS) : option error * VFS :=
  match resolvePath v userPath with
  | Err err => (Some err, v)
  | Ok resolved =>
      let dataLen := size data in
      let maxBytes := cfg_MaxTotalBytes (v_cfg v) in
      let maxFiles := cfg_MaxFileCount (v_cfg v) in
      match v_files v !! resolved with
      | None =>
          if (0 <? maxFiles)%Z && (maxFiles <=? Z.of_nat (base.size (v_files v)))%Z then
            (Some (ESentinel SFileCountExceeded), v)
          else if (0 <? maxBytes)%Z && (maxBytes <? v_totalBytes v + dataLen)%Z then
            (Some (ESentinel SStorageQuotaExceeded), v)
          else
            (None, MkVFS (v_root v) (v_cfg v)
                     (<[resolved := MkFile (MkFileInfo resolved dataLen now now) data]> (v_files v))
                     (v_totalBytes v + dataLen))
      | Some existing =>
          let diff := (dataLen - fi_SizeBytes (vf_info existing))%Z in
          if (0 <? maxBytes)%Z && (maxBytes <? v_totalBytes v + diff)%Z then
            (Some (ESentinel SStorageQuotaExceeded), v)
          else
            (None, MkVFS (v_root v) (v_cfg v)
                     (<[resolved := MkFile (MkFileInfo (fi_Path (vf_info existing)) dataLen
                                              (fi_CreatedAt (vf_info existing)) now) data]> (v_files v))
                     (v_totalBytes v + diff))
      end
  end.

Definition ReadFile (userPath : string) (v : VFS) : result error string :=
  resolved ← resolvePath v userPath;
  match v_files v !! resolved with
  | None => Err (ESentinel SFileNotFound)
  | Some f => Ok (vf_data f)
  end.

Definition RemoveFile (userPath : string) (v : VFS) : option error * VFS :=
  match resolvePath v userPath with
  | Err err => (Some err, v)
  | Ok resolved =>
      match v_files v !! resolved with
      | None => (Some (ESentinel SFileNotFound), v)
      | Some f =>
          (None, MkVFS (v_root v) (v_cfg v) (delete resolved (v_files v))
                   (v_totalBytes v - fi_SizeBytes (vf_info f)))
      end
  end.

Definition Stat (userPath : string) (v : VFS) : result error FileInfo :=
  resolved ← resolvePath v userPath;
  match v_files v !! resolved with
  | None => Err (ESentinel SFileNotFound)
  | Some f => Ok (vf_info f)
  end.

(** The error of [resolvePath] is dropped, and the path is then empty. *)
Definition ListFiles (sh : shuffle) (prefix : string) (v : VFS) : list FileInfo :=
  let resolved := match resolvePath v prefix with Ok r => r | Err _ => "" end in
  (λ pf, vf_info pf.2) <$> filter (λ pf, has_prefix resolved pf.1 = true) (range_map sh (v_files v)).

Definition TotalUsage (v : VFS) : Z * Z := (v_totalBytes v, Z.of_nat (base.size (v_files v))).

(** * Theorems

    The virtual file system: paths stay below the root, quotas hold, files are read as written. *)

(** * Paths *)

(** The refusals of [resolvePath]. *)
Definition refused (userPath : string) : bool :=
  has_prefix "/.." userPath || string_contains userPath "/../" || has_prefix ".." (Clean userPath).

Lemma resolve_spec v r u :
  v_root v = abs_path r → Forall proper r →
  resolvePath v u =
    if string_contains u nul then Err (EFmt "vfs: invalid null byte in path" [])
    else if refused u then Err (escapes u)
    else Ok (abs_path (r ++ clean_segs true (split slash u))).
Proof.
  intros Hroot Hr. unfold resolvePath. fold (refused u). destruct (string_contains u nul); [done|].
  destruct (refused u); [done|]. rewrite Clean_rooted, Hroot. set (c := clean_segs true (split slash u)).
  assert (Forall proper c) as Hc by apply clean_segs_proper, split_parts.
  rewrite Join_abs, Clean_abs by (done || by apply Forall_app). case_bool_decide as E; [done|]. simpl.
  assert (c ≠ []) as Hc0 by (intros E0; apply E; by rewrite E0, app_nil_r).
  assert (has_prefix (if has_suffix_slash (abs_path r) then abs_path r else abs_path r +:+ "/") (abs_path (r ++ c)) = true)
    as ->; [|done].
  destruct (decide (r = [])) as [->|Hr0]; [done|].
  assert (abs_path (r ++ c) = abs_path r +:+ String slash (join slash c)) as ->.
  { unfold abs_path. by rewrite join_app, string_app_cons. }
  destruct (has_suffix_slash (abs_path r)); [apply has_prefix_app|].
  change (String slash (join slash c)) with ("/" +:+ join slash c). rewrite string_app_assoc. apply has_prefix_app.
Qed.

(** * Histories *)

Inductive vfs_op := OpWrite (userPath data : string) (now : Time) | OpRemove (userPath : string).

Definition vfs_exec (v : VFS) (op : vfs_op) : VFS :=
  match op with
  | OpWrite p d now => (WriteFile p d now v).2
  | OpRemove p => (RemoveFile p v).2
  end.

Definition vfs_run (root : string) (cfg : Config) (ops : list vfs_op) : VFS := foldl vfs_exec (New root cfg) ops.

Definition total (files : gmap string virtualFile) : Z := map_fold (λ _ f acc, size (vf_data f) + acc)%Z 0%Z files.

Lemma total_insert p f files : files !! p = None → total (<[p := f]> files) = (size (vf_data f) + total files)%Z.
Proof. intros H. unfold total. rewrite map_fold_insert_L; [done|intros; lia|done]. Qed.

Lemma total_delete p f files : files !! p = Some f → total files = (size (vf_data f) + total (delete p files))%Z.
Proof. intros H. rewrite <- (insert_delete_id files p f H) at 1. apply total_insert, lookup_delete_eq. Qed.

Lemma total_nonneg files : (0 <= total files)%Z.
Proof.
  induction files as [|p f files H IH] using map_ind; [done|]. rewrite total_insert by done. unfold size. lia.
Qed.

Record vfs_ok (cfg : Config) (v : VFS) : Prop := {
  ok_cfg : v_cfg v = cfg;
  ok_root : ∃ r, v_root v = abs_path r ∧ Forall proper r;
  ok_total : v_totalBytes v = total (v_files v);
  ok_file : ∀ p f, v_files v !! p = Some f →
    fi_Path (vf_info f) = p ∧ fi_SizeBytes (vf_info f) = size (vf_data f) ∧
    ∃ r rel, v_root v = abs_path r ∧ Forall proper (r ++ rel) ∧ p = abs_path (r ++ rel);
  ok_bytes : (0 < cfg_MaxTotalBytes cfg)%Z → (v_totalBytes v <= cfg_MaxTotalBytes cfg)%Z;
  ok_count : (0 < cfg_MaxFileCount cfg)%Z → (Z.of_nat (base.size (v_files v)) <= cfg_MaxFileCount cfg)%Z
}.

Lemma resolve_inside v u p :
  (∃ r, v_root v = abs_path r ∧ Forall proper r) → resolvePath v u = Ok p →
  ∃ r rel, v_root v = abs_path r ∧ Forall proper (r ++ rel) ∧ p = abs_path (r ++ rel).
Proof.
  intros (r & Hroot & Hr). rewrite (resolve_spec v r u) by done. destruct (string_contains u nul), (refused u); try done.
  intros [= <-]. exists r, (clean_segs true (split slash u)). split_and!; [done| |done].
  apply Forall_app. split; [done|]. apply clean_segs_proper, split_parts.
Qed.

Lemma write_ok cfg u d now v : vfs_ok cfg v → vfs_ok cfg (WriteFile u d now v).2.
Proof.
  intros Hok. destruct (Hok) as [H1 H2 H3 H4 H5 H6]. unfold WriteFile. destruct (resolvePath v u) as [p|err] eqn:Hp; [|done].
  pose proof (resolve_inside v u p H2 Hp) as Hin. rewrite H1. destruct (v_files v !! p) as [f|] eqn:Hf.
  - destruct (H4 p f Hf) as (Hfp & Hfs & _).
    destruct (_ && _) eqn:E; [done|]. split; simpl; [done|done| | | |].
    + rewrite <- insert_delete_eq, total_insert by apply lookup_delete_eq. rewrite H3, (total_delete p f), Hfs by done.
      simpl. lia.
    + intros q g. destruct (decide (p = q)) as [<-|Hne]; [rewrite lookup_insert_eq; by intros [= <-]|].
      rewrite lookup_insert_ne by done. apply H4.
    + intros Hpos. apply andb_false_iff in E. rewrite !Z.ltb_ge in E. lia.
    + intros Hpos. rewrite map_size_insert_Some by done. by apply H6.
  - destruct (_ && _) eqn:E1; [done|]. destruct ((0 <? cfg_MaxTotalBytes cfg)%Z && _) eqn:E2; [done|].
    split; simpl; [done|done| | | |].
    + rewrite total_insert by done. simpl. lia.
    + intros q g. destruct (decide (p = q)) as [<-|Hne]; [rewrite lookup_insert_eq; by intros [= <-]|].
      rewrite lookup_insert_ne by done. apply H4.
    + intros Hpos. apply andb_false_iff in E2. rewrite !Z.ltb_ge in E2. lia.
    + intros Hpos. rewrite map_size_insert_None by done. apply andb_false_iff in E1.
      rewrite Z.ltb_ge, Z.leb_gt in E1. lia.
Qed.

Lemma remove_ok cfg u v : vfs_ok cfg v → vfs_ok cfg (RemoveFile u v).2.
Proof.
  intros Hok. destruct (Hok) as [H1 H2 H3 H4 H5 H6]. unfold RemoveFile. destruct (resolvePath v u) as [p|err] eqn:Hp; [|done].
  destruct (v_files v !! p) as [f|] eqn:Hf; [|done]. destruct (H4 p f Hf) as (Hfp & Hfs & _).
  split; simpl; [done|done| | | |].
  - rewrite H3, (total_delete p f), Hfs by done. lia.
  - intros q g [Hne Hg]%lookup_delete_Some. by apply H4.
  - intros Hpos. specialize (H5 Hpos). rewrite Hfs. unfold size. lia.
  - intros Hpos. rewrite map_size_delete_Some by (by eexists). specialize (H6 Hpos). lia.
Qed.

Lemma vfs_run_ok root cfg ops : vfs_ok cfg (vfs_run root cfg ops).
Proof.
  unfold vfs_run. assert (vfs_ok cfg (New root cfg)) as H0.
  { unfold New. rewrite Clean_rooted. split; simpl; [done| |done|done|lia|rewrite map_size_empty; lia].
    eexists. split; [done|]. apply clean_segs_proper, split_parts. }
  revert H0. generalize (New root cfg). induction ops as [|op ops IH]; intros v Hv; [done|]. simpl. apply IH.
  destruct op; [by apply write_ok|by apply remove_ok].
Qed.

(** C10: Paths cannot leave the root.  In every state, the path of a user is refused when it has a zero
    byte or tries to go up; otherwise it names a place below the root, whose further elements are
    names without [.] and [..].  The check of the result never fails. *)
Theorem vfs_jail root cfg ops u :
  let v := vfs_run root cfg ops in
  ∃ r rel, v_root v = abs_path r ∧ Forall proper r ∧ Forall proper rel ∧
    resolvePath v u =
      if string_contains u nul then Err (EFmt "vfs: invalid null byte in path" [])
      else if refused u then Err (escapes u) else Ok (abs_path (r ++ rel)).
Proof.
  intros v. destruct (vfs_run_ok root cfg ops) as [_ (r & Hroot & Hr) _ _ _ _].
  exists r, (clean_segs true (split slash u)). split_and!; [done|done|apply clean_segs_proper, split_parts|].
  by apply resolve_spec.
Qed.

(** C35: Quotas hold.  After any sequence of writes and removals the reported usage is the number of
    bytes and files that are stored, within the limits that are set; every file is stored below the
    root under its own path with its own size. *)
Theorem vfs_quota root cfg ops :
  let v := vfs_run root cfg ops in
  TotalUsage v = (total (v_files v), Z.of_nat (base.size (v_files v))) ∧
  ((0 < cfg_MaxTotalBytes cfg)%Z → (total (v_files v) <= cfg_MaxTotalBytes cfg)%Z) ∧
  ((0 < cfg_MaxFileCount cfg)%Z → (Z.of_nat (base.size (v_files v)) <= cfg_MaxFileCount cfg)%Z) ∧
  ∀ p f, v_files v !! p = Some f →
    fi_Path (vf_info f) = p ∧ fi_SizeBytes (vf_info f) = size (vf_data f) ∧
    ∃ r rel, v_root v = abs_path r ∧ Forall proper (r ++ rel) ∧ p = abs_path (r ++ rel).
Proof.
  intros v. destruct (vfs_run_ok root cfg ops) as [_ _ H3 H4 H5 H6]. fold v in H3, H4, H5, H6. split_and!.
  - unfold TotalUsage. by rewrite H3.
  - rewrite <- H3. done.
  - done.
  - done.
Qed.

Definition place (v : VFS) (w : string) : option string :=
  match resolvePath v w with Ok p => Some p | Err _ => None end.

(** Files are read as they were written.  After a successful write every path that resolves to the
    same place reads the new contents, after a successful removal none, and every other path reads
    what it read before. *)
Theorem vfs_read_write u d now v :
  let same w := bool_decide (place v w = place v u) in
  match WriteFile u d now v with
  | (None, v') => ∀ w, ReadFile w v' = if same w then Ok d else ReadFile w v
  | (Some _, v') => v' = v
  end ∧
  match RemoveFile u v with
  | (None, v') => ∀ w, ReadFile w v' = if same w then Err (ESentinel SFileNotFound) else ReadFile w v
  | (Some _, v') => v' = v
  end.
Proof.
  intros same.
  assert (∀ files b w, resolvePath (MkVFS (v_root v) (v_cfg v) files b) w = resolvePath v w) as Hres by done.
  split.
  - unfold WriteFile. destruct (resolvePath v u) as [p|err] eqn:Hp; [|done].
    destruct (v_files v !! p) as [f|] eqn:Hf; repeat (destruct (_ && _); [done|]); intros w; unfold ReadFile;
      rewrite Hres; unfold same, place; rewrite Hp; destruct (resolvePath v w) as [q|e]; cbn [mbind result_bind v_files];
      (destruct (decide (p = q)) as [<-|Hne]; [by rewrite bool_decide_eq_true_2, lookup_insert_eq|
       rewrite bool_decide_eq_false_2 by congruence; by rewrite lookup_insert_ne]) || by rewrite bool_decide_eq_false_2.
  - unfold RemoveFile. destruct (resolvePath v u) as [p|err] eqn:Hp; [|done].
    destruct (v_files v !! p) as [f|] eqn:Hf; [|done]. intros w. unfold ReadFile. rewrite Hres. unfold same, place. rewrite Hp.
    destruct (resolvePath v w) as [q|e]; cbn [mbind result_bind v_files]; [|by rewrite bool_decide_eq_false_2].
    destruct (decide (p = q)) as [<-|Hne]; [by rewrite bool_decide_eq_true_2, lookup_delete_eq|].
    rewrite bool_decide_eq_false_2 by congruence. by rewrite lookup_delete_ne.
Qed.

(** Listing does not stay below its prefix.  A prefix that is refused lists every file, and a
    directory lists the files of a directory whose name only begins like it. *)
Theorem vfs_list_leaks :
  let v := vfs_run "/tenant" DefaultConfig [OpWrite "ab/secret" "x" 1; OpWrite "a/open" "y" 2] in
  is_ok (resolvePath v "../other") = false ∧
  (fi_Path <$> ListFiles shuffle_id "../other" v) ≡ₚ ["/tenant/a/open"; "/tenant/ab/secret"] ∧
  (fi_Path <$> ListFiles shuffle_id "a" v) ≡ₚ ["/tenant/a/open"; "/tenant/ab/secret"].
Proof. vm_compute. split_and!; [reflexivity|apply Permutation_swap || reflexivity|apply Permutation_swap || reflexivity]. Qed.
