(* ===== verification/Sandbox.v ===== *)
(** The file system of the sandbox: the type [FileSystem] of [internal/sandbox/sandbox.go].

    The working directory is an argument; what [os] does with a path that is allowed is not
    modelled. *)
From S2P Require Import Prelude Errors Strings Paths.

(** [filepath.Abs] *)
Definition Abs (cwd p : string) : string := if has_prefix "/" p then Clean p else Join [cwd; p].

(** [filepath.HasPrefix] is a comparison of texts. *)
Definition isAllowed (cwd root path : string) : bool := has_prefix (Abs cwd root) (Abs cwd path).

(** The path that [Read], [Write] and [List] hand to the system. *)
Definition access (cwd root path : string) : result error string :=
  let full := Join [root; path] in
  if negb (isAllowed cwd root full) then Err (EFmt "access denied: %s" [path]) else Ok full.

Lemma Join_prefix r p :
  Forall proper r → Join [abs_path r; p] = abs_path (clean_segs true (r ++ split slash p)).
Proof.
  intros Hr. unfold Join. rewrite filter_cons_True by done. destruct (decide (p = "")) as [->|Hp].
  - rewrite filter_cons_False, filter_nil by (intros H; by apply H). cbn [join]. rewrite Clean_abs by done. f_equal.
    unfold clean_segs. rewrite foldl_app, (clean_proper true [] r) by done. rewrite app_nil_r.
    change (foldl (clean_step true) (reverse r) (split slash "")) with (reverse r).
    by rewrite reverse_involutive.
  - rewrite filter_cons_True, filter_nil by done.
    change (join slash [abs_path r; p]) with (abs_path r +:+ String slash p).
    unfold abs_path at 1. rewrite string_app_cons, Clean_rooted. f_equal. unfold clean_segs. f_equal.
    destruct (abs_path_segs r Hr) as (e & E & He). rewrite split_sep, !foldl_app. f_equal.
    unfold abs_path in E. cbn [split] in E. rewrite ascii_eqb_refl in E. injection E as ->.
    by rewrite foldl_app, (clean_empty true _ e).
Qed.

(** The sandbox lets a sibling in.  Whatever the root is, a path that goes up one level and into a
    directory whose name begins with the name of the root is allowed, and names that directory. *)
Theorem sandbox_sibling cwd r name suffix rest :
  Forall proper (r ++ [name]) → Forall proper ((name +:+ suffix) :: rest) →
  access cwd (abs_path (r ++ [name])) (join slash (".." :: (name +:+ suffix) :: rest)) =
  Ok (abs_path (r ++ (name +:+ suffix) :: rest)).
Proof.
  intros Hr Hs. pose proof Hr as [Hr' Hname]%Forall_app. unfold access. rewrite Join_prefix by done.
  assert (clean_segs true ((r ++ [name]) ++ split slash (join slash (".." :: (name +:+ suffix) :: rest))) =
    r ++ (name +:+ suffix) :: rest) as ->.
  { rewrite split_join; [|done|].
    - unfold clean_segs. rewrite foldl_app, (clean_proper true [] (r ++ [name])) by done.
      rewrite app_nil_r, reverse_snoc. cbn [foldl].
      apply Forall_cons in Hname as [(_ & H1 & H2 & H3) _].
      change (clean_step true (name :: reverse r) "..") with
        (if bool_decide (name = "..") then name :: reverse r else reverse r).
      rewrite bool_decide_eq_false_2 by done. change (foldl (clean_step true) (clean_step true (reverse r) (name +:+ suffix)) rest)
        with (foldl (clean_step true) (reverse r) ((name +:+ suffix) :: rest)).
      rewrite clean_proper by done. rewrite reverse_app, !reverse_involutive. done.
    - constructor; [done|]. eapply Forall_impl; [exact Hs|]. by intros x [? _]. }
  unfold isAllowed, Abs. cbn [abs_path has_prefix]. rewrite !ascii_eqb_refl. simpl andb. cbn [has_prefix].
  rewrite !Clean_abs; [|by apply Forall_app|done].
  assert (has_prefix (abs_path (r ++ [name])) (abs_path (r ++ (name +:+ suffix) :: rest)) = true) as ->; [|done].
  assert (∃ t, join slash (r ++ (name +:+ suffix) :: rest) = join slash (r ++ [name]) +:+ t) as [t E].
  { clear. induction r as [|x r [t IH]].
    - simpl. destruct rest as [|y rest]; [by exists suffix|]. exists (suffix +:+ String slash (join slash (y :: rest))).
      by rewrite string_app_assoc.
    - exists t. cbn [app]. rewrite !join_cons by (by destruct r). by rewrite IH, <- !string_app_assoc. }
  unfold abs_path. rewrite E, <- string_app_cons. apply has_prefix_app.
Qed.

Lemma sandbox_sibling_witness :
  access "/" "/data/box" "../boxer/key" = Ok "/data/boxer/key".
Proof. apply (sandbox_sibling "/" ["data"] "box" "er" ["key"]); decide_closed. Defined.
