(* ===== verification/Blobstore.v ===== *)
(** Blobs in memory and multipart uploads: [internal/blobstore/blobstore.go], except for the backend
    on the local file system.

    A reader is the bytes it delivers and the error it ends with.  Times, random identifiers and
    iteration orders are arguments. *)
From stdpp Require Import pretty.
From S2P Require Import Prelude Errors Sha256.
Local Open Scope Z_scope.

Abbreviation SBlobNotFound := (SOther "blobstore: blob not found").
Abbreviation SInvalidKey := (SOther "blobstore: invalid or empty key").
Abbreviation SInvalidRange := (SOther "blobstore: invalid byte range").
Abbreviation SUploadNotFound := (SOther "blobstore: multipart upload not found").
Abbreviation SChecksumMismatch := (SOther "blobstore: checksum mismatch").
Abbreviation SPartNumberInvalid := (SOther "blobstore: part number must be > 0").

Record BlobMeta := MkMeta {
  bm_Key : string;
  bm_Size : Z;
  bm_SHA256 : string;
  bm_ETag : string;
  bm_ContentType : string;
  bm_CreatedAt : Time;
  bm_CustomMetadata : gmap string string
}.

Record reader := MkReader { rd_data : string; rd_err : option error }.
Definition reader_of (data : string) : reader := MkReader data None.

Definition size (data : string) : Z := Z.of_nat (String.length data).

(** [fmt.Sprintf] of the first 16 characters of a digest between quotes. *)
Definition quote : string := String (ascii_of_nat 34) "".
Definition etag (digest : string) : string := quote +:+ String.substring 0 16 digest +:+ quote.

(** The interface [Backend]. *)
Class Backend (B : Type) := {
  Put : string → reader → Z → gmap string string → Time → B → result error BlobMeta * B;
  Get : string → B → result error (string * BlobMeta);
  GetRange : string → Z → Z → B → option (result error string);
  Delete : string → B → option error * B;
  Exists : string → B → bool;
  List : shuffle → string → B → list BlobMeta
}.

(** * The backend in memory *)

Record memBlob := MkBlob { mb_meta : BlobMeta; mb_data : string }.
Abbreviation MemoryBackend := (gmap string memBlob).
Definition NewMemoryBackend : MemoryBackend := ∅.

Definition mem_Put (key : string) (r : reader) (sz : Z) (meta : gmap string string) (now : Time)
    (m : MemoryBackend) : result error BlobMeta * MemoryBackend :=
  if bool_decide (key = "") then (Err (ESentinel SInvalidKey), m)
  else
    match rd_err r with
    | Some err => (Err err, m)
    | None =>
        let written := size (rd_data r) in
        if (0 <? sz) && negb (written =? sz) then
          (Err (EFmt "expected size %d, wrote %d" [pretty sz; pretty written]), m)
        else
          let digest := sha256_hex (rd_data r) in
          let blobMeta := MkMeta key written digest (etag digest) "" now meta in
          (Ok blobMeta, <[key := MkBlob blobMeta (rd_data r)]> m)
    end.

Definition mem_Get (key : string) (m : MemoryBackend) : result error (string * BlobMeta) :=
  match m !! key with
  | None => Err (ESentinel SBlobNotFound)
  | Some b => Ok (mb_data b, mb_meta b)
  end.

(** [None] is the panic of [make] and of the slice expression on a length that makes the end of the
    range overflow. *)
Definition mem_GetRange (key : string) (offset length : Z) (m : MemoryBackend) : option (result error string) :=
  match m !! key with
  | None => Some (Err (ESentinel SBlobNotFound))
  | Some b =>
      let total := size (mb_data b) in
      let stop := wrap_s 64 (offset + length) in
      if (offset <? 0) || (total <? offset) || (length <? 0) || (total <? stop) then
        Some (Err (ESentinel SInvalidRange))
      else if stop <? offset then None
      else Some (Ok (String.substring (Z.to_nat offset) (Z.to_nat length) (mb_data b)))
  end.

Definition mem_Delete (key : string) (m : MemoryBackend) : option error * MemoryBackend :=
  match m !! key with
  | None => (Some (ESentinel SBlobNotFound), m)
  | Some _ => (None, delete key m)
  end.

Definition mem_Exists (key : string) (m : MemoryBackend) : bool := bool_decide (is_Some (m !! key)).

Definition meta_less (a b : BlobMeta) : bool := string_ltb (bm_Key a) (bm_Key b).

Definition mem_List (sh : shuffle) (prefix : string) (m : MemoryBackend) : list BlobMeta :=
  sort_slice meta_less ((λ kb, mb_meta kb.2) <$> filter (λ kb, has_prefix prefix kb.1 = true) (range_map sh m)).

#[export] Instance Memory : Backend MemoryBackend := {|
  Put := mem_Put;
  Get := mem_Get;
  GetRange := mem_GetRange;
  Delete := mem_Delete;
  Exists := mem_Exists;
  List := mem_List
|}.

(** * Multipart uploads *)

Record PartInfo := MkPartInfo {
  pi_PartNumber : Z;
  pi_Size : Z;
  pi_SHA256 : string;
  pi_ETag : string
}.
Record partData := MkPart { pd_info : PartInfo; pd_data : string }.
Record uploadState := MkUpload {
  us_key : string;
  us_parts : gmap Z partData;
  us_createdAt : Time
}.

Section coordinator.
Context {B : Type} {HB : Backend B}.

Record MultipartCoordinator := MkCoordinator {
  mc_backend : B;
  mc_uploads : gmap string uploadState
}.

Definition NewMultipartCoordinator (b : B) : MultipartCoordinator := MkCoordinator b ∅.

Definition CreateMultipart (key uploadID : string) (now : Time) (c : MultipartCoordinator) :
    result error string * MultipartCoordinator :=
  if bool_decide (key = "") then (Err (ESentinel SInvalidKey), c)
  else (Ok uploadID, MkCoordinator (mc_backend c) (<[uploadID := MkUpload key ∅ now]> (mc_uploads c))).

Definition part_info (partNumber : Z) (data : string) : PartInfo :=
  let digest := sha256_hex data in MkPartInfo partNumber (size data) digest (etag digest).

(** The upload is looked up, and the part is stored in it after the reader is read; [others] is what
    other calls do in between.  When they have removed the upload, the part goes with it. *)
Definition UploadPart (uploadID : string) (partNumber : Z) (r : reader)
    (others : MultipartCoordinator → MultipartCoordinator) (c : MultipartCoordinator) :
    result error PartInfo * MultipartCoordinator :=
  if partNumber <=? 0 then (Err (ESentinel SPartNumberInvalid), c)
  else
    match mc_uploads c !! uploadID with
    | None => (Err (ESentinel SUploadNotFound), c)
    | Some _ =>
        let c := others c in
        match rd_err r with
        | Some err => (Err err, c)
        | None =>
            let info := part_info partNumber (rd_data r) in
            (Ok info,
             MkCoordinator (mc_backend c)
               (alter (λ st, MkUpload (us_key st) (<[partNumber := MkPart info (rd_data r)]> (us_parts st))
                               (us_createdAt st)) uploadID (mc_uploads c)))
        end
    end.

Definition part_less (p q : PartInfo) : bool := pi_PartNumber p <? pi_PartNumber q.

(** The loop that stitches the parts together. *)
Fixpoint combine (state : uploadState) (sortedParts : list PartInfo) (combined : string) : result error string :=
  match sortedParts with
  | [] => Ok combined
  | p :: rest =>
      match us_parts state !! pi_PartNumber p with
      | None => Err (EWrap "%w: missing part %d" [pretty (pi_PartNumber p)] (ESentinel SUploadNotFound))
      | Some part =>
          if negb (bool_decide (pi_SHA256 p = "")) && negb (bool_decide (pi_SHA256 p = pi_SHA256 (pd_info part)))
          then Err (ESentinel SChecksumMismatch)
          else combine state rest (combined +:+ pd_data part)
      end
  end.

Definition CompleteMultipart (sh : shuffle) (uploadID : string) (parts : list PartInfo) (now : Time)
    (c : MultipartCoordinator) : result error BlobMeta * MultipartCoordinator :=
  match mc_uploads c !! uploadID with
  | None => (Err (ESentinel SUploadNotFound), c)
  | Some state =>
      let c := MkCoordinator (mc_backend c) (delete uploadID (mc_uploads c)) in
      match combine state (sort_slice part_less (sh _ parts)) "" with
      | Err err => (Err err, c)
      | Ok combined =>
          let '(r, b) := Put (us_key state) (reader_of combined) (size combined) ∅ now (mc_backend c) in
          (r, MkCoordinator b (mc_uploads c))
      end
  end.

Definition AbortMultipart (uploadID : string) (c : MultipartCoordinator) : option error * MultipartCoordinator :=
  match mc_uploads c !! uploadID with
  | None => (Some (ESentinel SUploadNotFound), c)
  | Some _ => (None, MkCoordinator (mc_backend c) (delete uploadID (mc_uploads c)))
  end.
End coordinator.
Arguments MultipartCoordinator : clear implicits.

(** * Theorems

    What a blob backend promises, that the backend in memory keeps it, and multipart uploads over any
    backend that does ([internal/blobstore/blobstore.go]). *)

(** * What a backend promises *)

(** A backend is a map from keys to bytes: [Put] stores all that the reader delivers or nothing, and
    the other operations read or change that map. *)
Class BackendLaws (B : Type) {HB : Backend B} := {
  content : B → gmap string string;
  put_law key r sz m now b :
    match Put key r sz m now b with
    | (Ok meta, b') =>
        content b' = <[key := rd_data r]> (content b) ∧ bm_Key meta = key ∧
        bm_Size meta = size (rd_data r) ∧ bm_SHA256 meta = sha256_hex (rd_data r)
    | (Err _, b') =>
        content b' = content b ∧ (key = "" ∨ rd_err r ≠ None ∨ (0 < sz ∧ size (rd_data r) ≠ sz))
    end;
  get_law key b :
    match Get key b with
    | Ok (data, meta) => content b !! key = Some data
    | Err e => e = ESentinel SBlobNotFound ∧ content b !! key = None
    end;
  delete_law key b :
    let '(r, b') := Delete key b in
    content b' = delete key (content b) ∧ (r = None ↔ is_Some (content b !! key));
  exists_law key b : Exists key b = true ↔ is_Some (content b !! key)
}.

(** * The backend in memory *)

#[local] Opaque sha256_hex.

#[export] Program Instance memory_lawful : BackendLaws MemoryBackend := {|
  content m := mb_data <$> m
|}.
Next Obligation.
  intros key r sz m now b. unfold Put, Memory, mem_Put. case_bool_decide as Hk; [by auto|].
  destruct (rd_err r) as [e|]; [by auto|].
  destruct ((0 <? sz) && negb (size (rd_data r) =? sz)) eqn:E.
  - apply andb_true_iff in E as [?%Z.ltb_lt ?%negb_true_iff%Z.eqb_neq]. auto 10.
  - split; [by rewrite fmap_insert|auto].
Qed.
Next Obligation.
  intros key b. unfold Get, Memory, mem_Get. rewrite lookup_fmap. by destruct (b !! key).
Qed.
Next Obligation.
  intros key b. unfold Delete, Memory, mem_Delete. rewrite lookup_fmap. destruct (b !! key) eqn:E.
  - rewrite fmap_delete. split; [done|]. split; by eauto.
  - split; [|split; [done|by intros [? ?]]]. rewrite delete_id; [done|]. by rewrite lookup_fmap, E.
Qed.
Next Obligation.
  intros key b. unfold Exists, Memory, mem_Exists. by rewrite bool_decide_eq_true, lookup_fmap, fmap_is_Some.
Qed.

Inductive mem_op :=
  | MPut (key : string) (r : reader) (sz : Z) (meta : gmap string string) (now : Time)
  | MDelete (key : string).
Definition mem_step (m : MemoryBackend) (op : mem_op) : MemoryBackend :=
  match op with
  | MPut key r sz meta now => (mem_Put key r sz meta now m).2
  | MDelete key => (mem_Delete key m).2
  end.

(** Every blob is described by its metadata. *)
Definition described (key : string) (b : memBlob) : Prop :=
  bm_Key (mb_meta b) = key ∧ bm_Size (mb_meta b) = size (mb_data b) ∧
  bm_SHA256 (mb_meta b) = sha256_hex (mb_data b).

Lemma mem_step_described m op : map_Forall described m → map_Forall described (mem_step m op).
Proof.
  intros Hm. destruct op as [key r sz meta now|key]; cbn.
  - unfold mem_Put. repeat case_match; try done. apply map_Forall_insert_2; [done|exact Hm].
  - unfold mem_Delete. case_match; [|done]. by apply map_Forall_delete.
Qed.

Lemma mem_run_described h : map_Forall described (foldl mem_step NewMemoryBackend h).
Proof.
  induction h as [|op h IH] using rev_ind; [by apply map_Forall_empty|].
  rewrite foldl_app. by apply mem_step_described.
Qed.

Lemma elem_of_mem_List sh prefix m meta :
  map_Forall described m →
  meta ∈ mem_List sh prefix m ↔
  has_prefix prefix (bm_Key meta) = true ∧ ∃ b, m !! bm_Key meta = Some b ∧ mb_meta b = meta.
Proof.
  intros Hm. unfold mem_List. rewrite sort_slice_perm, list_elem_of_fmap. split.
  - intros ([k b] & -> & [Hp Hk%elem_of_range_map]%list_elem_of_filter). cbn in *.
    destruct (Hm _ _ Hk) as [-> _]. eauto.
  - intros (Hp & b & Hk & <-). exists (bm_Key (mb_meta b), b). split; [done|].
    apply list_elem_of_filter. split; [done|]. by apply elem_of_range_map.
Qed.

Lemma mem_List_keys sh prefix m :
  map_Forall described m →
  bm_Key <$> mem_List sh prefix m ≡ₚ (filter (λ kb, has_prefix prefix kb.1 = true) (range_map sh m)).*1.
Proof.
  intros Hm. unfold mem_List. rewrite sort_slice_perm, <- list_fmap_compose.
  apply Permutation_refl', list_fmap_ext. intros i [k b] Hi. cbn.
  apply list_elem_of_lookup_2, list_elem_of_filter in Hi as [_ Hi%elem_of_range_map].
  apply (Hm _ _ Hi).
Qed.

Lemma mem_List_NoDup sh prefix m :
  map_Forall described m → NoDup (bm_Key <$> mem_List sh prefix m).
Proof.
  intros Hm. rewrite mem_List_keys by done. apply (sublist_NoDup _ (range_map sh m).*1); [apply NoDup_range_map_fst|].
  apply (fmap_sublist fst), sublist_filter.
Qed.

(** After any sequence of stores and deletions, listing the blobs in memory gives, in ascending
    order of their keys and each once, the metadata of exactly the stored blobs whose key has the
    prefix; the metadata has the length and the digest of the bytes that [Get] returns for the key. *)
Theorem memory_listing h sh prefix :
  let m := foldl mem_step NewMemoryBackend h in
  Sorted (not_after meta_less) (List sh prefix m) ∧ NoDup (bm_Key <$> List sh prefix m) ∧
  ∀ meta, meta ∈ List sh prefix m ↔
    has_prefix prefix (bm_Key meta) = true ∧
    ∃ data, Get (bm_Key meta) m = Ok (data, meta) ∧
      bm_Size meta = size data ∧ bm_SHA256 meta = sha256_hex data.
Proof.
  intros m. pose proof (mem_run_described h : map_Forall described m) as Hm. cbn. split; [|split].
  - apply sort_slice_sorted. intros x y. apply string_ltb_asym.
  - by apply mem_List_NoDup.
  - intros meta. rewrite elem_of_mem_List by done. unfold mem_Get. split.
    + intros (Hp & b & Hk & Hb). split; [done|]. rewrite Hk, Hb. destruct (Hm _ _ Hk) as (_ & Hs & Hd).
      rewrite Hb in Hs, Hd. eauto.
    + intros (Hp & data & Hg & _). split; [done|]. destruct (m !! bm_Key meta) as [b|]; [|done].
      injection Hg as _ ?. eauto.
Qed.

Lemma wrapped_end total offset length :
  0 <= offset <= total → 0 <= length < 2 ^ 63 → total < 2 ^ 63 →
  wrap_s 64 (offset + length) = (if offset + length <? 2 ^ 63 then offset + length else offset + length - 2 ^ 64).
Proof.
  intros Ho Hl Ht. destruct (offset + length <? 2 ^ 63) eqn:E.
  - apply Z.ltb_lt in E. apply wrap_s_small; lia.
  - apply Z.ltb_ge in E. unfold wrap_s. replace (64 - 1) with 63 by lia.
    rewrite <- (Z.mod_unique_pos (offset + length + 2 ^ 63) (2 ^ 64) 1 (offset + length - 2 ^ 63)) by lia. lia.
Qed.

(** C38: A range of a stored blob is read exactly when it lies inside the blob, and is then that part
    of its bytes; any other range is refused with [ErrInvalidRange], except that a length that makes
    the end of the range overflow 64 bits gets past the bounds check, and the call panics. *)
Theorem GetRange_exact (m : MemoryBackend) key b offset length :
  m !! key = Some b → size (mb_data b) < 2 ^ 63 →
  - 2 ^ 63 <= offset < 2 ^ 63 → - 2 ^ 63 <= length < 2 ^ 63 →
  (0 <= offset → 0 <= length → offset + length <= size (mb_data b) →
     GetRange key offset length m =
       Some (Ok (String.substring (Z.to_nat offset) (Z.to_nat length) (mb_data b)))) ∧
  (offset < 0 ∨ size (mb_data b) < offset ∨ length < 0 ∨ size (mb_data b) < offset + length < 2 ^ 63 →
     GetRange key offset length m = Some (Err (ESentinel SInvalidRange))) ∧
  (0 <= offset <= size (mb_data b) → 2 ^ 63 <= offset + length → GetRange key offset length m = None).
Proof.
  intros Hk Ht Ho Hl. cbn. unfold mem_GetRange. rewrite Hk. set (total := size (mb_data b)) in *.
  destruct (Z.ltb_spec offset 0), (Z.ltb_spec total offset), (Z.ltb_spec length 0); cbn [orb];
    (split; [|split]); intros; try done; try lia;
    rewrite (wrapped_end total) by lia; destruct (Z.ltb_spec (offset + length) (2 ^ 63)); try lia;
    repeat match goal with |- context [?x <? ?y] => destruct (Z.ltb_spec x y); try lia end; done.
Qed.

Definition hello : MemoryBackend := (mem_Put "k" (reader_of "hello") 5 ∅ 0 ∅).2.

Lemma GetRange_exact_witness :
  GetRange "k" 1 3 hello = Some (Ok "ell") ∧ GetRange "k" 3 3 hello = Some (Err (ESentinel SInvalidRange)) ∧
  GetRange "k" 1 (2 ^ 63 - 1) hello = None.
Proof.
  destruct (hello !! "k") as [b|] eqn:E; [|by vm_compute in E].
  assert (mb_data b = "hello") as Hb by (cbn in E; by injection E as <-).
  assert (size (mb_data b) = 5) as Hs by by rewrite Hb.
  split; [|split].
  - rewrite (proj1 (GetRange_exact hello "k" b 1 3 E ltac:(lia) ltac:(lia) ltac:(lia))) by lia.
    by rewrite Hb.
  - apply (proj1 (proj2 (GetRange_exact hello "k" b 3 3 E ltac:(lia) ltac:(lia) ltac:(lia)))). lia.
  - apply (proj2 (proj2 (GetRange_exact hello "k" b 1 (2 ^ 63 - 1) E ltac:(lia) ltac:(lia) ltac:(lia)))); lia.
Defined.

(** * Multipart uploads *)

Lemma andb_negb_bool_decide_refl b (s : string) : negb b && negb (bool_decide (s = s)) = false.
Proof. rewrite bool_decide_eq_true_2 by done. apply andb_false_r. Qed.

Section multipart.
Context {B : Type} {HB : Backend B} {HL : BackendLaws B}.
Implicit Types c : MultipartCoordinator B.

(** Parts sent one after the other; a later part replaces an earlier one with its number. *)
Definition upload_all (uploadID : string) (ups : list (Z * string)) c : MultipartCoordinator B :=
  foldl (λ c nd, (UploadPart uploadID nd.1 (reader_of nd.2) (λ c, c) c).2) c ups.
Definition latest (ups : list (Z * string)) : gmap Z string := foldl (λ m nd, <[nd.1 := nd.2]> m) ∅ ups.

Definition stored (n : Z) (data : string) : partData := MkPart (part_info n data) data.

Lemma upload_all_parts uploadID ups c key now :
  Forall (λ nd, 0 < nd.1) ups → mc_uploads c !! uploadID = Some (MkUpload key ∅ now) →
  upload_all uploadID ups c =
  MkCoordinator (mc_backend c) (<[uploadID := MkUpload key (map_imap (λ n d, Some (stored n d)) (latest ups)) now]> (mc_uploads c)).
Proof.
  intros Hups Hc. induction ups as [|[n d] ups IH] using rev_ind.
  - cbn. rewrite map_imap_empty, insert_id by done. by destruct c.
  - apply Forall_app in Hups as [Hups Hn]. rewrite Forall_singleton in Hn. cbn [fst] in Hn.
    unfold upload_all, latest in *. rewrite !foldl_app. cbn [foldl]. rewrite IH by done.
    unfold UploadPart. cbn [fst snd mc_uploads mc_backend reader_of rd_err rd_data].
    destruct (Z.leb_spec n 0); [lia|]. rewrite lookup_insert_eq. cbn [snd mc_backend mc_uploads].
    f_equal. rewrite alter_insert_eq. f_equal. cbn [us_key us_parts us_createdAt]. f_equal.
    by rewrite (map_imap_insert (λ n d, Some (stored n d)) n d).
Qed.

Definition info_of (data : gmap Z string) (n : Z) : PartInfo := part_info n (default "" (data !! n)).

Lemma sort_parts (sh : shuffle) data (ns : list Z) :
  sort_slice part_less (sh _ (info_of data <$> ns)) = info_of data <$> merge_sort Z.le ns.
Proof.
  set (l := sort_slice part_less _).
  assert (l ≡ₚ info_of data <$> ns) as Hl by (unfold l; by rewrite sort_slice_perm, shuffle_perm).
  assert (l = info_of data <$> (pi_PartNumber <$> l)) as ->.
  { rewrite <- list_fmap_compose, <- (list_fmap_id l) at 1. apply list_fmap_ext. intros i p Hp.
    apply list_elem_of_lookup_2 in Hp. rewrite Hl in Hp. by apply list_elem_of_fmap in Hp as (n & -> & _). }
  f_equal. apply (StronglySorted_unique Z.le).
  - apply Sorted_StronglySorted; [apply _|]. apply (Sorted_fmap pi_PartNumber (not_after part_less)).
    + intros p q Hpq. unfold not_after, part_less in Hpq. apply Z.ltb_ge in Hpq. exact Hpq.
    + apply sort_slice_sorted. intros p q. unfold part_less. rewrite Z.ltb_lt, Z.ltb_ge. lia.
  - apply StronglySorted_merge_sort; apply _.
  - rewrite Hl, <- list_fmap_compose, merge_sort_Permutation. by rewrite list_fmap_id.
Qed.

(** The bytes of the parts [ns], one after the other. *)
Definition joined (data : gmap Z string) (ns : list Z) : string :=
  foldl (λ whole n, whole +:+ default "" (data !! n)) "" ns.

Lemma combine_joined data key now ns whole :
  Forall (λ n, is_Some (data !! n)) ns →
  combine (MkUpload key (map_imap (λ n d, Some (stored n d)) data) now) (info_of data <$> ns) whole =
  Ok (foldl (λ whole n, whole +:+ default "" (data !! n)) whole ns).
Proof.
  intros Hns. revert whole. induction Hns as [|n ns [d Hd] _ IH]; intros whole; [done|].
  cbn [fmap list_fmap combine us_parts foldl info_of part_info pi_PartNumber].
  rewrite map_lookup_imap, Hd. cbn [mbind option_bind from_option stored pd_info pd_data].
  replace (info_of data n) with (part_info n d) by (unfold info_of; by rewrite Hd).
  rewrite andb_negb_bool_decide_refl. apply IH.
Qed.

(** C9: Over any backend with the laws [BackendLaws], as the one in memory: the parts of a new upload are sent in any order,
    some of them more than once; completing the upload with the infos of some of the parts, in any
    order, stores under the key of the upload the bytes last sent for these parts in ascending order
    of the part numbers, with their length and digest, and the upload is gone. *)
Theorem multipart_assembles sh key uploadID now now' ups ns c :
  key ≠ "" → Forall (λ nd, 0 < nd.1) ups → Forall (λ n, is_Some (latest ups !! n)) ns →
  let c1 := upload_all uploadID ups (CreateMultipart key uploadID now c).2 in
  let whole := joined (latest ups) (merge_sort Z.le ns) in
  ∃ meta c2,
    CompleteMultipart sh uploadID (info_of (latest ups) <$> ns) now' c1 = (Ok meta, c2) ∧
    content (mc_backend c2) = <[key := whole]> (content (mc_backend c)) ∧
    bm_Key meta = key ∧ bm_Size meta = size whole ∧ bm_SHA256 meta = sha256_hex whole ∧
    mc_uploads c2 = delete uploadID (mc_uploads c).
Proof.
  intros Hkey Hups Hns c1 whole. unfold c1, CreateMultipart. rewrite bool_decide_eq_false_2 by done.
  cbn [snd]. rewrite (upload_all_parts _ _ _ key now) by (done || apply lookup_insert_eq).
  unfold CompleteMultipart. cbn [mc_uploads mc_backend]. rewrite lookup_insert_eq, sort_parts.
  rewrite combine_joined by by rewrite merge_sort_Permutation. cbn [us_key].
  change (foldl _ "" _) with whole.
  pose proof (put_law key (reader_of whole) (size whole) ∅ now' (mc_backend c)) as Hput.
  destruct (Put _ _ _ _ _ _) as [[meta|e] b]; cbn [reader_of rd_data rd_err] in Hput; last by destruct Hput as [_ [?|[?|[_ ?]]]].
  destruct Hput as (Hc & Hk & Hs & Hd). eexists meta, _. split; [done|].
  split_and!; try done. cbn [mc_uploads]. by rewrite insert_insert_eq, delete_insert_eq.
Qed.

(** A completion that fails leaves the backend as it was but discards the upload with all of its
    parts: completing it again, and sending it another part, give [ErrUploadNotFound]. *)
Theorem failed_completion_discards sh uploadID parts now c e c' :
  CompleteMultipart sh uploadID parts now c = (Err e, c') →
  content (mc_backend c') = content (mc_backend c) ∧
  (∀ parts' now', CompleteMultipart sh uploadID parts' now' c' = (Err (ESentinel SUploadNotFound), c')) ∧
  (∀ n r others, 0 < n → UploadPart uploadID n r others c' = (Err (ESentinel SUploadNotFound), c')).
Proof.
  intros H. assert (content (mc_backend c') = content (mc_backend c) ∧ mc_uploads c' !! uploadID = None) as [Hc Hu].
  { unfold CompleteMultipart in H. destruct (mc_uploads c !! uploadID) as [st|] eqn:E; [|by simplify_eq].
    destruct (combine _ _ _) as [whole|e'].
    - pose proof (put_law (us_key st) (reader_of whole) (size whole) ∅ now (mc_backend c)) as Hput.
      cbn [mc_backend mc_uploads] in H. destruct (Put _ _ _ _ _ _) as [r b]. simplify_eq.
      split; [apply Hput|apply lookup_delete_eq].
    - simplify_eq. split; [done|]. apply lookup_delete_eq. }
  split; [done|split].
  - intros parts' now'. unfold CompleteMultipart. by rewrite Hu.
  - intros n r others Hn. unfold UploadPart. destruct (Z.leb_spec n 0); [lia|]. by rewrite Hu.
Qed.

(** A part whose bytes are still being read when its upload is completed or aborted is
    acknowledged and lost: the call returns the info of the part and changes nothing. *)
Theorem late_part_lost uploadID n r others c st :
  0 < n → rd_err r = None → mc_uploads c !! uploadID = Some st → mc_uploads (others c) !! uploadID = None →
  UploadPart uploadID n r others c = (Ok (part_info n (rd_data r)), others c).
Proof.
  intros Hn Hr Hc Ho. unfold UploadPart. destruct (Z.leb_spec n 0); [lia|]. rewrite Hc, Hr. f_equal.
  rewrite alter_id by by (intros x Hx; rewrite Ho in Hx). by destruct (others c).
Qed.
End multipart.

Definition two_parts : list (Z * string) := [(2, "B"); (1, "x"); (1, "A")].
Definition fresh : MultipartCoordinator MemoryBackend := NewMultipartCoordinator NewMemoryBackend.

Lemma multipart_assembles_witness :
  let c1 := upload_all "u" two_parts (CreateMultipart "k" "u" 0 fresh).2 in
  ∃ meta c2,
    CompleteMultipart shuffle_rev "u" (info_of (latest two_parts) <$> [2; 1]) 5 c1 = (Ok meta, c2) ∧
    content (mc_backend c2) !! "k" = Some "AB".
Proof.
  destruct (multipart_assembles shuffle_rev "k" "u" 0 5 two_parts [2; 1] fresh) as (meta & c2 & H & Hc & _).
  - done.
  - unfold two_parts. repeat constructor.
  - repeat constructor; by eexists.
  - exists meta, c2. split; [exact H|]. rewrite Hc, lookup_insert_eq. vm_compute. reflexivity.
Defined.

Lemma failed_completion_discards_witness :
  let c1 := upload_all "u" two_parts (CreateMultipart "k" "u" 0 fresh).2 in
  ∃ c2,
    CompleteMultipart shuffle_id "u" [part_info 1 "A"; part_info 2 "wrong"] 5 c1 =
      (Err (ESentinel SChecksumMismatch), c2) ∧
    CompleteMultipart shuffle_id "u" [part_info 1 "A"; part_info 2 "B"] 5 c2 =
      (Err (ESentinel SUploadNotFound), c2).
Proof.
  intros c1. exists fresh.
  assert (CompleteMultipart shuffle_id "u" [part_info 1 "A"; part_info 2 "wrong"] 5 c1 =
            (Err (ESentinel SChecksumMismatch), fresh)) as H by (vm_compute; reflexivity).
  split; [exact H|]. apply (failed_completion_discards _ _ _ _ _ _ _ H).
Defined.

Lemma late_part_lost_witness :
  let c := (CreateMultipart "k" "u" 0 fresh).2 in
  (UploadPart "u" 1 (reader_of "A") (λ c, (AbortMultipart "u" c).2) c).2 = (AbortMultipart "u" c).2.
Proof.
  intros c. rewrite (late_part_lost "u" 1 (reader_of "A") (λ c, (AbortMultipart "u" c).2) c (MkUpload "k" ∅ 0)).
  - reflexivity.
  - lia.
  - reflexivity.
  - reflexivity.
  - reflexivity.
Defined.
