(* ===== verification/Analyzer.v ===== *)
(** Static analysis of workflow definitions: [internal/analyzer], the files [rule.go], [cycle.go],
    [reachability.go] and [config.go].  The rules that match regular expressions ([security.go],
    [params.go]) are not modelled.

    An analysis that does not end is [None]; [AnalyzerFacts] shows that none of the rules here do so.
    The order of iteration over maps is an argument of every rule.  The tables of printable runes beyond Latin-1 and of equal runes up to case are parameters. *)
From stdpp Require Import pretty.
From S2P Require Import Prelude Strings Runes.

(** * Quoted strings: [strconv.Quote] *)

Section quote.
Context (print_table : Z → bool).

Definition IsPrint (r : Z) : bool :=
  if in_range 0 255 r then in_range 32 126 r || (in_range 161 255 r && negb (r =? 173)%Z)
  else print_table r.

Definition hex_digit (d : Z) : string :=
  String (ascii_of_Z (if (d <? 10)%Z then 48 + d else 87 + d)%Z) "".
Fixpoint hex (digits : nat) (z : Z) : string :=
  match digits with
  | 0 => ""
  | S digits' => hex digits' (z / 16)%Z +:+ hex_digit (z mod 16)%Z
  end.

Definition backslash : string := String (ascii_of_nat 92) "".
Definition dquote : string := String (ascii_of_nat 34) "".

Definition escaped_rune (r : Z) : string :=
  if (r =? 34)%Z || (r =? 92)%Z then backslash +:+ utf8_encode r
  else if IsPrint r then utf8_encode r
  else if (r =? 7)%Z then backslash +:+ "a"
  else if (r =? 8)%Z then backslash +:+ "b"
  else if (r =? 12)%Z then backslash +:+ "f"
  else if (r =? 10)%Z then backslash +:+ "n"
  else if (r =? 13)%Z then backslash +:+ "r"
  else if (r =? 9)%Z then backslash +:+ "t"
  else if (r =? 11)%Z then backslash +:+ "v"
  else if (r <? 32)%Z || (r =? 127)%Z then backslash +:+ "x" +:+ hex 2 r
  else if (r <? 65536)%Z then backslash +:+ "u" +:+ hex 4 r
  else backslash +:+ "U" +:+ hex 8 r.

(** The first rune is an error of one byte unless it is the encoding of U+FFFD. *)
Fixpoint quote_loop (fuel : nat) (s : string) : string :=
  match fuel, s, runes s with
  | S fuel', String c s', r :: _ =>
      if (r =? rune_error)%Z && negb (has_prefix (utf8_encode rune_error) s) then
        backslash +:+ "x" +:+ hex 2 (byteZ c) +:+ quote_loop fuel' s'
      else
        escaped_rune r +:+ quote_loop fuel' (trim_prefix s (utf8_encode r))
  | _, _, _ => ""
  end.

Definition Quote (s : string) : string := dquote +:+ quote_loop (String.length s) s +:+ dquote.
End quote.

(** * [rule.go] *)

Abbreviation Severity := string (only parsing).
Abbreviation SeverityInfo := "INFO".
Abbreviation SeverityWarning := "WARNING".
Abbreviation SeverityError := "ERROR".

Record Diagnostic := MkDiag {
  dg_RuleID : string;
  dg_Severity : Severity;
  dg_StepID : string;
  dg_Message : string;
  dg_Line : Z;
  dg_FixSuggestion : string
}.

Record StepNode := MkStep {
  sn_ID : string;
  sn_Type : string;
  sn_DependsOn : list string;
  sn_Parameters : gmap string string;
  sn_Command : string;
  sn_Timeout : string;
  sn_Retries : Z
}.

Record WorkflowAST := MkAST {
  ast_WorkflowID : string;
  ast_Version : string;
  ast_Steps : gmap string StepNode;
  ast_Parameters : gmap string string
}.

Record Rule := MkRule {
  rule_ID : string;
  rule_Description : string;
  rule_Severity : Severity;
  rule_Analyze : WorkflowAST → option (list Diagnostic)
}.

Abbreviation Analyzer := (gmap string Rule) (only parsing).

Definition New : Analyzer := ∅.
Definition Register (rule : Rule) (a : Analyzer) : Analyzer := <[rule_ID rule := rule]> a.
Definition Rules (sh : shuffle) (a : Analyzer) : list Rule :=
  sort_slice (λ r q, string_ltb (rule_ID r) (rule_ID q)) (range_values sh a).

Definition severityWeight (s : Severity) : Z :=
  if bool_decide (s = SeverityError) then 3
  else if bool_decide (s = SeverityWarning) then 2
  else if bool_decide (s = SeverityInfo) then 1
  else 0.

Definition diag_less (d e : Diagnostic) : bool :=
  if bool_decide (dg_Severity d = dg_Severity e) then
    if bool_decide (dg_StepID d = dg_StepID e) then string_ltb (dg_RuleID d) (dg_RuleID e)
    else string_ltb (dg_StepID d) (dg_StepID e)
  else (severityWeight (dg_Severity e) <? severityWeight (dg_Severity d))%Z.

Definition Analyze (sh : shuffle) (ast : WorkflowAST) (a : Analyzer) : option (list Diagnostic) :=
  found ← mapM (λ rule, rule_Analyze rule ast) (range_values sh a);
  Some (sort_slice diag_less (sh _ (concat found))).

Definition HasErrors (diags : list Diagnostic) : bool :=
  existsb (λ d, bool_decide (dg_Severity d = SeverityError)) diags.

(** * [config.go] *)

Record LintConfig := MkLint {
  lc_DisabledRules : list string;
  lc_StepSuppressions : gmap string (list string);
  lc_SeverityOverrides : gmap string Severity;
  lc_MaxSteps : Z
}.

Definition NewDefaultConfig : LintConfig := MkLint [] ∅ ∅ 1000.

Section config.
(** A representative of the runes that are equal to a rune up to case. *)
Context (fold : Z → Z).

Definition EqualFold (s t : string) : bool := bool_decide (fold <$> runes s = fold <$> runes t).

Definition mutes (ruleID r : string) : bool := EqualFold r ruleID || bool_decide (r = "*").

(** A nil configuration is [None]. *)
Definition IsSuppressed (c : option LintConfig) (ruleID stepID : string) : bool :=
  match c with
  | None => false
  | Some c =>
      existsb (mutes ruleID) (lc_DisabledRules c) ||
      (negb (bool_decide (stepID = "")) && existsb (mutes ruleID) (default [] (lc_StepSuppressions c !! stepID)))
  end.

Definition EffectiveSeverity (c : option LintConfig) (ruleID : string) (defaultSev : Severity) : Severity :=
  match c with
  | None => defaultSev
  | Some c =>
      match lc_SeverityOverrides c !! ruleID with
      | Some override => if bool_decide (override = "") then defaultSev else override
      | None => defaultSev
      end
  end.

Definition FilterDiagnostics (c : option LintConfig) (diags : list Diagnostic) : list Diagnostic :=
  match c with
  | None => diags
  | Some _ =>
      (λ d, MkDiag (dg_RuleID d) (EffectiveSeverity c (dg_RuleID d) (dg_Severity d)) (dg_StepID d)
              (dg_Message d) (dg_Line d) (dg_FixSuggestion d))
      <$> filter (λ d, IsSuppressed c (dg_RuleID d) (dg_StepID d) = false) diags
  end.
End config.

(** * [cycle.go] *)

Abbreviation RuleIDUnreachableStep := "WF-001".
Abbreviation RuleIDMissingDependency := "WF-002".
Abbreviation RuleIDCyclicDependency := "WF-004".
Abbreviation RuleIDUnboundedLoop := "WF-005".

Inductive color := white | gray | black.
#[export] Instance color_eq_dec : EqDecision color.
Proof. solve_decision. Defined.

(** The variables that the closure [dfs] shares. *)
Record cycle_search := MkCycleSearch {
  cs_colors : gmap string color;
  cs_path : list string;
  cs_detectedCycles : gset string;
  cs_diags : list Diagnostic
}.

Fixpoint join_arrow (l : list string) : string :=
  match l with
  | [] => ""
  | [x] => x
  | x :: l' => x +:+ " -> " +:+ join_arrow l'
  end.

Section rules.
Context (print_table : Z → bool).
Abbreviation Q := (Quote print_table).

Definition self_diag (u : string) : Diagnostic :=
  MkDiag RuleIDCyclicDependency SeverityError u
    ("step " +:+ Q u +:+ " has self-referential dependency on itself") 0 "Remove self-dependency".
Definition cycle_diag (u cycleStr : string) : Diagnostic :=
  MkDiag RuleIDCyclicDependency SeverityError u ("circular dependency detected: " +:+ cycleStr) 0
    "Break the cycle by removing or reversing one of the dependency edges".

(** A diagnostic is reported once per key. *)
Definition report (key : string) (d : Diagnostic) (st : cycle_search) : cycle_search :=
  if bool_decide (key ∈ cs_detectedCycles st) then st
  else MkCycleSearch (cs_colors st) (cs_path st) ({[key]} ∪ cs_detectedCycles st) (cs_diags st ++ [d]).

Definition back_edge (u v : string) (st : cycle_search) : cycle_search :=
  match list_find (v =.) (cs_path st) with
  | None => st
  | Some (cycleStartIdx, _) =>
      let cycleStr := join_arrow (drop cycleStartIdx (cs_path st) ++ [v]) in
      report cycleStr (cycle_diag u cycleStr) st
  end.

Definition colour (st : cycle_search) (v : string) : color := default white (cs_colors st !! v).
Definition set_color (v : string) (c : color) (st : cycle_search) : cycle_search :=
  MkCycleSearch (<[v := c]> (cs_colors st)) (cs_path st) (cs_detectedCycles st) (cs_diags st).
Definition set_path (path : list string) (st : cycle_search) : cycle_search :=
  MkCycleSearch (cs_colors st) path (cs_detectedCycles st) (cs_diags st).

(** The body of the loop over the dependencies [v] of [u]; [dfs] is the recursive call. *)
Definition visit (steps : gmap string StepNode) (dfs : string → cycle_search → option cycle_search)
    (u : string) (st : cycle_search) (v : string) : option cycle_search :=
  match steps !! v with
  | None => Some st
  | Some _ =>
      if bool_decide (v = u) then Some (report (u +:+ "->" +:+ u) (self_diag u) st)
      else
        match colour st v with
        | gray => Some (back_edge u v st)
        | white => dfs v st
        | black => Some st
        end
  end.

Fixpoint dfs (steps : gmap string StepNode) (fuel : nat) (u : string) (st : cycle_search) :
    option cycle_search :=
  match fuel with
  | 0 => None
  | S fuel' =>
      let st := set_path (cs_path st ++ [u]) (set_color u gray st) in
      st ← foldl (λ acc v, st ← acc; visit steps (dfs steps fuel') u st v) (Some st)
             (default [] (sn_DependsOn <$> steps !! u));
      Some (set_color u black (set_path (take (length (cs_path st) - 1) (cs_path st)) st))
  end.

Fixpoint dfs_all (steps : gmap string StepNode) (ids : list string) (st : cycle_search) :
    option cycle_search :=
  match ids with
  | [] => Some st
  | id :: ids' =>
      st ← (if bool_decide (colour st id = white) then dfs steps (S (size steps)) id st else Some st);
      dfs_all steps ids' st
  end.

Definition Cyclic_Analyze (sh : shuffle) (ast : WorkflowAST) : option (list Diagnostic) :=
  let colors := (λ _, white) <$> ast_Steps ast in
  let stepIDs := sort_slice string_ltb (range_map sh (ast_Steps ast)).*1 in
  st ← dfs_all (ast_Steps ast) stepIDs (MkCycleSearch colors [] ∅ []);
  Some (cs_diags st).

Definition CyclicDependencyRule (sh : shuffle) : Rule :=
  MkRule RuleIDCyclicDependency "Detects circular dependencies and closed loops in workflow DAG" SeverityError
    (Cyclic_Analyze sh).

Definition loop_diags (id : string) (step : StepNode) : list Diagnostic :=
  if bool_decide (sn_Type step = "loop") || bool_decide (sn_Type step = "iterator") then
    let maxIter := sn_Parameters step !! "max_iterations" in
    match maxIter, sn_Parameters step !! "until" with
    | None, None =>
        [MkDiag RuleIDUnboundedLoop SeverityWarning id
           ("loop step " +:+ Q id +:+ " lacks both 'max_iterations' and 'until' termination criteria") 0
           "Define 'max_iterations' or 'until' condition to avoid infinite execution"]
    | Some maxIter, _ =>
        if bool_decide (maxIter = "0") || bool_decide (maxIter = "-1") then
          [MkDiag RuleIDUnboundedLoop SeverityWarning id
             ("loop step " +:+ Q id +:+ " has non-positive max_iterations=" +:+ maxIter) 0
             "Set max_iterations to a positive integer"]
        else []
    | None, Some _ => []
    end
  else [].

Definition step_less (d e : Diagnostic) : bool := string_ltb (dg_StepID d) (dg_StepID e).
Definition message_less (d e : Diagnostic) : bool :=
  if bool_decide (dg_StepID d = dg_StepID e) then string_ltb (dg_Message d) (dg_Message e)
  else string_ltb (dg_StepID d) (dg_StepID e).

Definition Loop_Analyze (sh : shuffle) (ast : WorkflowAST) : option (list Diagnostic) :=
  Some (sort_slice step_less (sh _ (concat ((λ kv, loop_diags kv.1 kv.2) <$> range_map sh (ast_Steps ast))))).

Definition UnboundedLoopRule (sh : shuffle) : Rule :=
  MkRule RuleIDUnboundedLoop "Detects loop constructs without max iterations or termination predicates"
    SeverityWarning (Loop_Analyze sh).

(** * [reachability.go] *)

(** [children[dep] = append(children[dep], id)] for the dependencies that exist. *)
Definition add_child (steps : gmap string StepNode) (id : string) (children : gmap string (list string))
    (dep : string) : gmap string (list string) :=
  match steps !! dep with
  | Some _ => <[dep := default [] (children !! dep) ++ [id]]> children
  | None => children
  end.
Definition children_of (sh : shuffle) (steps : gmap string StepNode) : gmap string (list string) :=
  foldl (λ children kv, foldl (add_child steps kv.1) children (sn_DependsOn kv.2)) ∅ (range_map sh steps).

Definition entrypoints (sh : shuffle) (steps : gmap string StepNode) : list string :=
  (filter (λ kv, sn_DependsOn kv.2 = []) (range_map sh steps)).*1.

(** The children that are not yet visited are marked and queued. *)
Fixpoint mark (chs : list string) (visited : gset string) (queue : list string) :
    gset string * list string :=
  match chs with
  | [] => (visited, queue)
  | ch :: chs' =>
      if bool_decide (ch ∈ visited) then mark chs' visited queue
      else mark chs' ({[ch]} ∪ visited) (queue ++ [ch])
  end.

Fixpoint bfs (children : gmap string (list string)) (fuel : nat) (queue : list string) (visited : gset string) :
    option (gset string) :=
  match queue, fuel with
  | [], _ => Some visited
  | _, 0 => None
  | curr :: queue, S fuel' =>
      let '(visited, queue) := mark (default [] (children !! curr)) visited queue in
      bfs children fuel' queue visited
  end.

Definition unreachable_diag (id : string) : Diagnostic :=
  MkDiag RuleIDUnreachableStep SeverityWarning id
    ("step " +:+ Q id +:+ " is unreachable from any workflow entrypoint") 0
    "Check step dependencies or add connection to root execution path".

Definition Unreachable_Analyze (sh : shuffle) (ast : WorkflowAST) : option (list Diagnostic) :=
  let steps := ast_Steps ast in
  if bool_decide (size steps = 0) then Some []
  else
    let queue := entrypoints sh steps in
    visited ← bfs (children_of sh steps) (S (size steps)) queue (list_to_set queue);
    Some (sort_slice step_less
            (sh _ (unreachable_diag <$> filter (λ id, id ∉ visited) (range_map sh steps).*1))).

Definition UnreachableStepRule (sh : shuffle) : Rule :=
  MkRule RuleIDUnreachableStep "Detects disconnected or unreachable steps in workflow DAG" SeverityWarning
    (Unreachable_Analyze sh).

Definition missing_diag (id dep : string) : Diagnostic :=
  MkDiag RuleIDMissingDependency SeverityError id
    ("step " +:+ Q id +:+ " depends on non-existent parent step " +:+ Q dep) 0
    ("Define step " +:+ Q dep +:+ " or remove dependency reference").

Definition missing_diags (steps : gmap string StepNode) (id : string) (step : StepNode) : list Diagnostic :=
  missing_diag id <$> filter (λ dep, steps !! dep = None) (sn_DependsOn step).

Definition Missing_Analyze (sh : shuffle) (ast : WorkflowAST) : option (list Diagnostic) :=
  Some (sort_slice message_less
          (sh _ (concat ((λ kv, missing_diags (ast_Steps ast) kv.1 kv.2) <$> range_map sh (ast_Steps ast))))).

Definition MissingDependencyRule (sh : shuffle) : Rule :=
  MkRule RuleIDMissingDependency "Flags dependencies pointing to non-existent step IDs" SeverityError
    (Missing_Analyze sh).
End rules.
