(* ===== verification/AnalyzerFacts.v ===== *)
(** The graph rules of the analyzer are exact, and a definition they find nothing in can be executed. *)
From S2P Require Import Prelude Strings Runes Analyzer.

#[local] Opaque self_diag cycle_diag join_arrow Quote.

Section facts.
Context (print_table : Z → bool).
Context (steps : gmap string StepNode).

(** [u] depends on the existing step [v]. *)
Definition edge (u v : string) : Prop :=
  ∃ step, steps !! u = Some step ∧ v ∈ sn_DependsOn step ∧ is_Some (steps !! v).

Abbreviation grounded := (Acc (λ v u, edge u v)) (only parsing).

(** A diagnostic that names a cycle of dependencies, with the step whose dependency closes it. *)
Definition names_cycle (d : Diagnostic) : Prop :=
  (∃ u, edge u u ∧ d = self_diag print_table u) ∨
  (∃ v l u, (∀ i x y, (v :: l) !! i = Some x → (v :: l) !! S i = Some y → edge x y) ∧
     last (v :: l) = Some u ∧ edge u v ∧ d = cycle_diag u (join_arrow ((v :: l) ++ [v]))).

(** * The search for cycles *)

Record search_ok (st : cycle_search) : Prop := {
  so_path : NoDup (cs_path st);
  so_gray : ∀ x, colour st x = gray ↔ x ∈ cs_path st;
  so_chain : ∀ i x y, cs_path st !! i = Some x → cs_path st !! S i = Some y → edge x y;
  so_seen : cs_diags st = [] → cs_detectedCycles st = ∅;
  so_black : cs_diags st = [] → ∀ x, colour st x = black → grounded x;
  so_diags : ∀ d, d ∈ cs_diags st → names_cycle d
}.

(** What a part of the search keeps. *)
Record extends (st st' : cycle_search) : Prop := {
  ex_path : cs_path st' = cs_path st;
  ex_colour : ∀ x, colour st x ≠ white → colour st' x = colour st x;
  ex_diags : cs_diags st' = [] → cs_diags st = []
}.

#[local] Instance extends_preorder : PreOrder extends.
Proof.
  split; [by split|]. intros st1 st2 st3 [H1 H2 H3] [H4 H5 H6]. split.
  - congruence.
  - intros x Hx. rewrite H5; [by apply H2|]. by rewrite H2.
  - auto.
Qed.

Lemma colour_set_color v c st x :
  colour (set_color v c st) x = if decide (x = v) then c else colour st x.
Proof.
  unfold colour, set_color. cbn [cs_colors]. case_decide as H.
  - subst. by rewrite lookup_insert_eq.
  - by rewrite lookup_insert_ne.
Qed.

Lemma report_ok key d st :
  search_ok st → names_cycle d →
  search_ok (report key d st) ∧ extends st (report key d st) ∧ cs_diags (report key d st) ≠ [].
Proof.
  intros Hst Hd. unfold report. case_bool_decide as Hk.
  - split; [done|]. split; [done|]. intros E. apply (so_seen _ Hst) in E. rewrite E in Hk. by apply not_elem_of_empty in Hk.
  - split; [|split].
    + destruct Hst as [H1 H2 H3 H4 H5 H6].
      split; cbn [cs_path cs_detectedCycles cs_diags]; [exact H1|exact H2|exact H3| | |].
      * intros E. by apply app_nil in E as [_ ?].
      * intros E. by apply app_nil in E as [_ ?].
      * intros e. rewrite elem_of_app, list_elem_of_singleton. intros [He|Ee]; [by apply H6|by rewrite Ee].
    + split; [reflexivity|reflexivity|]. cbn [cs_diags]. intros E. by apply app_nil in E as [_ ?].
    + cbn [cs_diags]. intros E. by apply app_nil in E as [_ ?].
Qed.

Lemma back_edge_ok u v st :
  search_ok st → last (cs_path st) = Some u → edge u v → colour st v = gray →
  search_ok (back_edge u v st) ∧ extends st (back_edge u v st) ∧ cs_diags (back_edge u v st) ≠ [].
Proof.
  intros Hst Hu Huv Hv. apply (so_gray _ Hst) in Hv. unfold back_edge.
  destruct (list_find_elem_of (v =.) (cs_path st) v) as [[i x] Hi]; [done|done|]. rewrite Hi.
  apply list_find_Some in Hi as (Hi & -> & _). apply report_ok; [done|]. right.
  exists x, (drop (S i) (cs_path st)), u. rewrite <- (drop_S _ _ _ Hi). split; [|split; [|split; [done|]]].
  - intros j a b. rewrite !lookup_drop, Nat.add_succ_r. apply (so_chain _ Hst).
  - rewrite (drop_S _ _ _ Hi). by rewrite <- (take_drop_middle _ _ _ Hi), last_app_cons in Hu.
  - done.
Qed.

Definition whites (st : cycle_search) : gset string := filter (λ x, colour st x = white) (dom steps).

Lemma whites_extends st st' : extends st st' → size (whites st') <= size (whites st).
Proof.
  intros H. apply subseteq_size. intros x. unfold whites. rewrite !elem_of_filter. intros [Hx ?].
  split; [|done]. destruct (decide (colour st x = white)) as [|Hn]; [done|].
  by rewrite (ex_colour _ _ H _ Hn) in Hx.
Qed.

Lemma whites_visit u st :
  is_Some (steps !! u) → colour st u = white →
  size (whites (set_path (cs_path st ++ [u]) (set_color u gray st))) < size (whites st).
Proof.
  intros Hu Hw. apply subset_size. split.
  - intros x. unfold whites. rewrite !elem_of_filter. intros [Hx ?]. split; [|done].
    change (colour (set_color u gray st) x = white) in Hx. rewrite colour_set_color in Hx. by case_decide.
  - intros H. specialize (H u). unfold whites in H. rewrite !elem_of_filter in H.
    destruct H as [H _]; [by rewrite elem_of_dom|].
    change (colour (set_color u gray st) u = white) in H. rewrite colour_set_color in H. by case_decide.
Qed.

Lemma open_ok u st :
  search_ok st → colour st u = white → (∀ w, last (cs_path st) = Some w → edge w u) →
  search_ok (set_path (cs_path st ++ [u]) (set_color u gray st)).
Proof.
  intros Hst Hw He. pose proof (so_gray _ Hst u) as Hu.
  split; cbn [cs_path cs_detectedCycles cs_diags set_path set_color].
  - apply NoDup_app. split; [apply Hst|]. split; [|apply NoDup_singleton].
    intros x Hx. rewrite list_elem_of_singleton. intros ->. apply Hu in Hx. congruence.
  - intros x. change (colour (set_color u gray st) x = gray ↔ x ∈ cs_path st ++ [u]).
    rewrite colour_set_color, elem_of_app, list_elem_of_singleton, <- (so_gray _ Hst). case_decide; naive_solver.
  - intros i x y Hx Hy. destruct (decide (S i < length (cs_path st))) as [Hlt|Hge].
    + rewrite lookup_app_l in Hx, Hy by lia. by apply (so_chain _ Hst i).
    + assert (S i = length (cs_path st)) as Hi.
      { apply lookup_lt_Some in Hy. rewrite length_app in Hy. cbn in Hy. lia. }
      rewrite lookup_app_r in Hy by lia. rewrite lookup_app_l in Hx by lia.
      replace (S i - length (cs_path st)) with 0 in Hy by lia. injection Hy as ->.
      apply He. rewrite last_lookup, <- Hi. done.
  - apply Hst.
  - intros E x Hx. change (colour (set_color u gray st) x = black) in Hx. rewrite colour_set_color in Hx.
    case_decide; [done|]. by apply (so_black _ Hst).
  - apply Hst.
Qed.

Lemma close_ok u p st :
  search_ok st → cs_path st = p ++ [u] → (cs_diags st = [] → grounded u) →
  search_ok (set_color u black (set_path (take (length (cs_path st) - 1) (cs_path st)) st)).
Proof.
  intros Hst Hp Hu. rewrite Hp, length_app, Nat.add_sub. rewrite take_app_length.
  pose proof (so_path _ Hst) as Hnd. rewrite Hp in Hnd. apply NoDup_app in Hnd as (Hnd & Hdis & _).
  split; cbn [cs_path cs_detectedCycles cs_diags set_path set_color].
  - done.
  - intros x. change (colour (set_color u black st) x = gray ↔ x ∈ p). rewrite colour_set_color.
    pose proof (so_gray _ Hst x) as Hx. rewrite Hp, elem_of_app, list_elem_of_singleton in Hx.
    case_decide as E; [|naive_solver]. subst. split; [done|]. intros H. apply Hdis in H. set_solver.
  - intros i x y Hx Hy. apply (so_chain _ Hst i); rewrite Hp; by apply lookup_app_l_Some.
  - apply Hst.
  - intros E x Hx. change (colour (set_color u black st) x = black) in Hx. rewrite colour_set_color in Hx.
    case_decide; [subst; auto|]. by apply (so_black _ Hst).
  - apply Hst.
Qed.

Definition dfs_works (fuel : nat) : Prop :=
  ∀ u st, search_ok st → is_Some (steps !! u) → colour st u = white →
    (∀ w, last (cs_path st) = Some w → edge w u) → size (whites st) < fuel →
    ∃ st', dfs print_table steps fuel u st = Some st' ∧ search_ok st' ∧ extends st st' ∧ colour st' u = black.

Lemma visit_ok fuel u v st :
  dfs_works fuel → search_ok st → last (cs_path st) = Some u →
  (∃ step, steps !! u = Some step ∧ v ∈ sn_DependsOn step) → size (whites st) < fuel →
  ∃ st', visit print_table steps (dfs print_table steps fuel) u st v = Some st' ∧ search_ok st' ∧
    extends st st' ∧ (cs_diags st' = [] → is_Some (steps !! v) → grounded v).
Proof.
  intros Hdfs Hst Hu (step & Hs & Hv) Hf. unfold visit. destruct (steps !! v) as [vs|] eqn:Ev.
  2:{ exists st. split; [done|]. split; [done|]. split; [done|]. by intros _ [? ?]. }
  assert (edge u v) as He by (exists step; by rewrite Ev).
  case_bool_decide as Evu; [subst v|].
  { destruct (report_ok (u +:+ "->" +:+ u) (self_diag print_table u) st) as (H1 & H2 & H3); [done|by left; exists u|].
    eexists. split; [done|]. split; [done|]. split; [done|]. intros ?; done. }
  destruct (colour st v) eqn:Ec.
  - destruct (Hdfs v st) as (st' & E & H1 & H2 & H3); [done|by rewrite Ev|done| |done|].
    { intros w Hw. rewrite Hu in Hw. by injection Hw as <-. }
    exists st'. split; [done|]. split; [done|]. split; [done|]. intros E' _. by apply (so_black _ H1).
  - destruct (back_edge_ok u v st) as (H1 & H2 & H3); [done..|]. eexists. split; [done|].
    split; [done|]. split; [done|]. intros ?; done.
  - exists st. split; [done|]. split; [done|]. split; [done|]. intros E' _. by apply (so_black _ Hst).
Qed.

Lemma visits_ok fuel u vs st :
  dfs_works fuel → search_ok st → last (cs_path st) = Some u →
  (∀ v, v ∈ vs → ∃ step, steps !! u = Some step ∧ v ∈ sn_DependsOn step) → size (whites st) < fuel →
  ∃ st', foldl (λ acc v, st ← acc; visit print_table steps (dfs print_table steps fuel) u st v) (Some st) vs = Some st' ∧
    search_ok st' ∧ extends st st' ∧ (cs_diags st' = [] → ∀ v, v ∈ vs → is_Some (steps !! v) → grounded v).
Proof.
  intros Hdfs. revert st. induction vs as [|v vs IH]; intros st Hst Hu Hvs Hf.
  { exists st. split; [done|]. split; [done|]. split; [done|]. intros _ v. by rewrite elem_of_nil. }
  destruct (visit_ok fuel u v st) as (st1 & E1 & H1 & X1 & G1); [done..|apply Hvs; by left|done|].
  destruct (IH st1) as (st2 & E2 & H2 & X2 & G2); [done|by rewrite (ex_path _ _ X1)| | |].
  { intros w Hw. apply Hvs. by right. }
  { pose proof (whites_extends _ _ X1). lia. }
  exists st2. split; [cbn [foldl mbind option_bind]; by rewrite E1|]. split; [done|].
  split; [by etrans|]. intros E w. rewrite elem_of_cons. intros [->|Hw]; [|by apply G2].
  apply G1. by apply (ex_diags _ _ X2).
Qed.

Lemma dfs_ok fuel : dfs_works fuel.
Proof.
  induction fuel as [|fuel IH]; intros u st Hst Hu Hw He Hf; [lia|]. cbn [dfs].
  set (st1 := set_path (cs_path st ++ [u]) (set_color u gray st)).
  assert (search_ok st1) as H1 by by apply open_ok.
  destruct (visits_ok fuel u (default [] (sn_DependsOn <$> steps !! u)) st1) as (st2 & E2 & H2 & X2 & G2); [done|done| | | |].
  { unfold st1. cbn. apply last_snoc. }
  { intros v. destruct (steps !! u) as [step|] eqn:E; cbn; [|by rewrite elem_of_nil]. eauto. }
  { pose proof (whites_visit u st Hu Hw). fold st1 in H. lia. }
  rewrite E2. cbn [mbind option_bind]. eexists. split; [done|].
  assert (cs_path st2 = cs_path st ++ [u]) as Hp by apply (ex_path _ _ X2). split; [|split].
  - apply close_ok with (cs_path st); [done|done|]. intros E. constructor. intros v (step & Hs & Hv & Hsv).
    apply (G2 E); [|done]. by rewrite Hs.
  - split; cbn [cs_path cs_diags set_color set_path].
    + by rewrite Hp, length_app, Nat.add_sub, take_app_length.
    + intros x Hx. change (colour (set_color u black st2) x = colour st x). rewrite colour_set_color.
      case_decide as Ex; [by subst|]. assert (colour st1 x = colour st x) as E1.
      { change (colour (set_color u gray st) x = colour st x). rewrite colour_set_color. by case_decide. }
      rewrite <- E1 in Hx |- *. by apply (ex_colour _ _ X2).
    + apply (ex_diags _ _ X2).
  - change (colour (set_color u black st2) u = black). rewrite colour_set_color. by case_decide.
Qed.

Lemma dfs_all_ok ids st :
  search_ok st → cs_path st = [] → (∀ id, id ∈ ids → is_Some (steps !! id)) →
  ∃ st', dfs_all print_table steps ids st = Some st' ∧ search_ok st' ∧ extends st st' ∧
    ∀ id, id ∈ ids → colour st' id = black.
Proof.
  revert st. induction ids as [|id ids IH]; intros st Hst Hp Hids.
  { exists st. split; [done|]. split; [done|]. split; [done|]. intros id. by rewrite elem_of_nil. }
  assert (∃ st1, (if bool_decide (colour st id = white) then dfs print_table steps (S (size steps)) id st else Some st)
            = Some st1 ∧ search_ok st1 ∧ extends st st1 ∧ colour st1 id = black) as (st1 & E1 & H1 & X1 & B1).
  { case_bool_decide as Hw.
    - apply dfs_ok; [done|by apply Hids; left|done|by rewrite Hp|].
      apply Nat.lt_succ_r. rewrite <- size_dom. apply subseteq_size. intros x. unfold whites. set_solver.
    - exists st. split; [done|]. split; [done|]. split; [done|]. destruct (colour st id) eqn:Ec; [done| |done].
      apply (so_gray _ Hst) in Ec. rewrite Hp in Ec. set_solver. }
  destruct (IH st1) as (st2 & E2 & H2 & X2 & B2); [done|by rewrite (ex_path _ _ X1)| |].
  { intros x Hx. apply Hids. by right. }
  exists st2. split; [cbn [dfs_all mbind option_bind]; by rewrite E1|]. split; [done|]. split; [by etrans|].
  intros x. rewrite elem_of_cons. intros [->|Hx]; [|by apply B2]. rewrite (ex_colour _ _ X2); by rewrite B1.
Qed.

Lemma colour_start x : colour (MkCycleSearch ((λ _, white) <$> steps) [] ∅ []) x = white.
Proof. unfold colour. cbn. rewrite lookup_fmap. by destruct (steps !! x). Qed.

Lemma search_ok_start : search_ok (MkCycleSearch ((λ _, white) <$> steps) [] ∅ []).
Proof.
  split; cbn [cs_path cs_detectedCycles cs_diags].
  - constructor.
  - intros x. rewrite colour_start, elem_of_nil. split; [discriminate|intros []].
  - intros i x y Hx. rewrite lookup_nil in Hx. discriminate.
  - reflexivity.
  - intros _ x. rewrite colour_start. discriminate.
  - intros d. rewrite elem_of_nil. intros [].
Qed.

Lemma grounded_acyclic x : grounded x → ¬ tc edge x x.
Proof.
  induction 1 as [x _ IH]. intros Hx.
  assert (∃ y, edge x y ∧ tc edge y y) as (y & Hxy & Hy); [|by apply (IH y)].
  inversion Hx as [? He|? y ? He Ht]; subst.
  - by exists x.
  - exists y. split; [done|]. eapply tc_r; done.
Qed.

Lemma chain_walk v l u :
  (∀ i x y, (v :: l) !! i = Some x → (v :: l) !! S i = Some y → edge x y) →
  last (v :: l) = Some u → rtc edge v u.
Proof.
  revert v. induction l as [|w l IH]; intros v Hc Hu.
  - injection Hu as ->. reflexivity.
  - eapply rtc_l; [by apply (Hc 0)|]. apply IH; [|done]. intros i. apply (Hc (S i)).
Qed.

Lemma names_cycle_tc d : names_cycle d → ∃ x, tc edge x x.
Proof.
  intros [(u & He & _)|(v & l & u & Hc & Hu & He & _)].
  - exists u. by apply tc_once.
  - exists v. eapply tc_rtc_l; [by eapply chain_walk|]. by apply tc_once.
Qed.

Lemma Cyclic_grounded sh ast diags :
  ast_Steps ast = steps → Cyclic_Analyze print_table sh ast = Some diags →
  (∀ d, d ∈ diags → names_cycle d) ∧ (diags = [] → ∀ x, is_Some (steps !! x) → grounded x).
Proof.
  intros Hast. unfold Cyclic_Analyze. rewrite Hast.
  destruct (dfs_all_ok (sort_slice string_ltb (range_map sh steps).*1) _ search_ok_start)
    as (st & E & H & _ & B); [reflexivity| |].
  { intros id. rewrite sort_slice_perm. intros ([k v] & -> & Hk)%list_elem_of_fmap.
    apply elem_of_range_map in Hk. by exists v. }
  rewrite E. cbn [mbind option_bind]. intros [= <-]. split; [apply H|]. intros Hd x [v Hx].
  apply (so_black _ H Hd), B. rewrite sort_slice_perm. apply list_elem_of_fmap. exists (x, v).
  split; [done|]. by apply elem_of_range_map.
Qed.

Lemma Cyclic_ends sh ast : ast_Steps ast = steps → is_Some (Cyclic_Analyze print_table sh ast).
Proof.
  intros Hast. unfold Cyclic_Analyze. rewrite Hast.
  destruct (dfs_all_ok (sort_slice string_ltb (range_map sh steps).*1) _ search_ok_start)
    as (st & E & _); [reflexivity| |rewrite E; by eexists].
  intros id. rewrite sort_slice_perm. intros ([k v] & -> & Hk)%list_elem_of_fmap.
  apply elem_of_range_map in Hk. by exists v.
Qed.

(** * The search for reachable steps *)

(** A step without dependencies is reachable, and so is one with a reachable dependency. *)
Inductive reachable : string → Prop :=
  | reach_entry id step : steps !! id = Some step → sn_DependsOn step = [] → reachable id
  | reach_child id step dep :
      steps !! id = Some step → dep ∈ sn_DependsOn step → reachable dep → reachable id.

Lemma reachable_exists id : reachable id → is_Some (steps !! id).
Proof. destruct 1; by eexists. Qed.

Lemma add_child_spec id children dep d x :
  x ∈ default [] (add_child steps id children dep !! d) ↔
  x ∈ default [] (children !! d) ∨ (x = id ∧ d = dep ∧ is_Some (steps !! dep)).
Proof.
  unfold add_child. destruct (steps !! dep) as [ds|].
  - destruct (decide (d = dep)) as [->|Hn].
    + rewrite lookup_insert_eq. cbn. rewrite elem_of_app, list_elem_of_singleton. naive_solver.
    + rewrite lookup_insert_ne by done. naive_solver.
  - split; [auto|]. by intros [?|(_ & _ & [? ?])].
Qed.

Lemma add_children_spec id deps children d x :
  x ∈ default [] (foldl (add_child steps id) children deps !! d) ↔
  x ∈ default [] (children !! d) ∨ (x = id ∧ d ∈ deps ∧ is_Some (steps !! d)).
Proof.
  revert children. induction deps as [|dep deps IH]; intros children; cbn [foldl].
  - rewrite elem_of_nil. naive_solver.
  - rewrite IH, add_child_spec, elem_of_cons. naive_solver.
Qed.

Lemma elem_of_children_of sh d x :
  x ∈ default [] (children_of sh steps !! d) ↔
  ∃ step, steps !! x = Some step ∧ d ∈ sn_DependsOn step ∧ is_Some (steps !! d).
Proof.
  unfold children_of. setoid_rewrite <- (elem_of_range_map sh).
  assert (∀ l (m : gmap string (list string)),
    x ∈ default [] (foldl (λ children kv, foldl (add_child steps kv.1) children (sn_DependsOn kv.2)) m l !! d) ↔
    x ∈ default [] (m !! d) ∨ ∃ step, (x, step) ∈ l ∧ d ∈ sn_DependsOn step ∧ is_Some (steps !! d)) as Hl.
  { induction l as [|[k v] l IH]; intros m; cbn [foldl].
    - setoid_rewrite elem_of_nil. naive_solver.
    - rewrite IH, add_children_spec. setoid_rewrite elem_of_cons. naive_solver. }
  rewrite Hl, lookup_empty. cbn. rewrite elem_of_nil. naive_solver.
Qed.

Lemma mark_spec chs visited queue :
  ∃ new, mark chs visited queue = (visited ∪ list_to_set chs, queue ++ new) ∧
    NoDup new ∧ ∀ x, x ∈ new ↔ x ∈ chs ∧ (x ∉ visited).
Proof.
  revert visited queue. induction chs as [|ch chs IH]; intros visited queue; cbn [mark].
  - exists []. rewrite app_nil_r. split; [f_equal; set_solver|]. split; [constructor|set_solver].
  - case_bool_decide as Hch.
    + destruct (IH visited queue) as (new & -> & Hnd & Hnew). exists new.
      split; [f_equal; set_solver|]. split; [done|set_solver].
    + destruct (IH ({[ch]} ∪ visited) (queue ++ [ch])) as (new & -> & Hnd & Hnew). exists (ch :: new).
      split; [rewrite <- app_assoc; f_equal; set_solver|]. split; [constructor; [set_solver|done]|].
      intros x. rewrite !elem_of_cons, Hnew, not_elem_of_union, elem_of_singleton.
      destruct (decide (x = ch)) as [->|?]; [|tauto]. split; [by auto|by left].
Qed.

Lemma bfs_ok sh fuel queue visited :
  (∀ x, x ∈ visited → reachable x) → (∀ x, x ∈ queue → x ∈ visited) →
  (∀ x, x ∈ visited → (x ∈ queue) ∨ ∀ y, y ∈ default [] (children_of sh steps !! x) → y ∈ visited) →
  (size steps - size visited) + length queue <= fuel →
  ∃ visited', bfs (children_of sh steps) fuel queue visited = Some visited' ∧ visited ⊆ visited' ∧
    (∀ x, x ∈ visited' → reachable x) ∧
    (∀ x, x ∈ visited' → ∀ y, y ∈ default [] (children_of sh steps !! x) → y ∈ visited').
Proof.
  revert queue visited. induction fuel as [|fuel IH]; intros queue visited Hr Hq Hc Hf.
  { destruct queue; [|cbn in Hf; lia]. exists visited. split; [done|]. split; [done|]. split; [done|].
    intros x Hx. destruct (Hc x Hx) as [Hn|]; [by apply elem_of_nil in Hn|done]. }
  destruct queue as [|curr queue]; cbn [bfs].
  { exists visited. split; [done|]. split; [done|]. split; [done|].
    intros x Hx. destruct (Hc x Hx) as [Hn|]; [by apply elem_of_nil in Hn|done]. }
  set (chs := default [] (children_of sh steps !! curr)).
  destruct (mark_spec chs visited queue) as (new & -> & Hnd & Hnew).
  assert (∀ x, x ∈ visited ∪ list_to_set chs → reachable x) as Hr'.
  { intros x. rewrite elem_of_union, elem_of_list_to_set. intros [Hx|Hx]; [by apply Hr|].
    apply elem_of_children_of in Hx as (step & Hs & Hd & _). eapply reach_child; [done..|].
    apply Hr, Hq. by left. }
  destruct (IH (queue ++ new) (visited ∪ list_to_set chs)) as (vis' & E & Hsub & H1 & H2).
  - done.
  - set_solver.
  - intros x Hx. destruct (decide (x ∈ new)); [left; set_solver|].
    assert (x ∈ visited) as Hv by set_solver. destruct (decide (x = curr)) as [->|Hn].
    + right. intros y Hy. set_solver.
    + destruct (Hc x Hv) as [Hx'|Hx']; [left; set_solver|right; set_solver].
  - assert (size (visited ∪ list_to_set chs) = size visited + length new) as Hs.
    { replace (visited ∪ list_to_set chs) with (visited ∪ list_to_set new).
      2:{ apply set_eq. intros x. rewrite !elem_of_union, !elem_of_list_to_set, Hnew.
          destruct (decide (x ∈ visited)); tauto. }
      rewrite size_union by (intros x ? ?%elem_of_list_to_set%Hnew; tauto). f_equal. by apply size_list_to_set. }
    assert (size (visited ∪ list_to_set chs) <= size steps) as Hle.
    { rewrite <- size_dom. apply subseteq_size. intros x Hx. apply elem_of_dom, reachable_exists. by apply Hr'. }
    rewrite length_app. cbn [length] in Hf. lia.
  - exists vis'. split; [done|]. split; [set_solver|done].
Qed.

Lemma visited_reachable sh :
  ∃ visited, bfs (children_of sh steps) (S (size steps)) (entrypoints sh steps) (list_to_set (entrypoints sh steps))
      = Some visited ∧ ∀ id, id ∈ visited ↔ reachable id.
Proof.
  assert (∀ id, id ∈ entrypoints sh steps ↔ ∃ step, steps !! id = Some step ∧ sn_DependsOn step = []) as Hent.
  { intros id. unfold entrypoints. rewrite list_elem_of_fmap. split.
    - intros ([k v] & -> & [Hv Hk]%list_elem_of_filter). apply elem_of_range_map in Hk. eauto.
    - intros (step & Hs & Hd). exists (id, step). rewrite list_elem_of_filter, elem_of_range_map. done. }
  assert (length (entrypoints sh steps) = size (list_to_set (entrypoints sh steps) : gset string)) as Hlen.
  { symmetry. apply size_list_to_set. unfold entrypoints.
    apply (sublist_NoDup _ (range_map sh steps).*1); [apply NoDup_range_map_fst|].
    apply (fmap_sublist fst), sublist_filter. }
  destruct (bfs_ok sh (S (size steps)) (entrypoints sh steps) (list_to_set (entrypoints sh steps)))
    as (visited & E & Hsub & H1 & H2).
  - intros x Hx%elem_of_list_to_set%Hent. destruct Hx as (step & Hs & Hd). by eapply reach_entry.
  - intros x Hx. by apply elem_of_list_to_set.
  - intros x Hx. left. by apply elem_of_list_to_set in Hx.
  - rewrite Hlen. assert (size (list_to_set (entrypoints sh steps) : gset string) <= size steps); [|lia].
    rewrite <- size_dom. apply subseteq_size. intros x Hx%elem_of_list_to_set%Hent.
    apply elem_of_dom. destruct Hx as (step & Hs & _). by exists step.
  - exists visited. split; [done|]. intros id. split; [apply H1|]. induction 1 as [id step Hs Hd|id step dep Hs Hd Hr IH].
    + apply Hsub, elem_of_list_to_set, Hent. eauto.
    + apply (H2 dep IH), elem_of_children_of. apply reachable_exists in Hr. eauto.
Qed.

(** * Steps that can be executed *)

(** A step can be executed when it is there and all of its dependencies can be. *)
Inductive executable : string → Prop :=
  | exec_step id step :
      steps !! id = Some step → (∀ dep, dep ∈ sn_DependsOn step → executable dep) → executable id.

Lemma executable_exists id : executable id → is_Some (steps !! id).
Proof. destruct 1. by eexists. Qed.

Lemma executable_grounded id : executable id → grounded id.
Proof.
  induction 1 as [id step Hs _ IH]. constructor. intros v (step' & Hs' & Hv & _).
  rewrite Hs in Hs'. injection Hs' as <-. by apply IH.
Qed.

Lemma executable_reachable id : executable id → reachable id.
Proof.
  induction 1 as [id step Hs _ IH]. destruct (sn_DependsOn step) as [|dep deps] eqn:E.
  - by eapply reach_entry.
  - apply (reach_child id step dep); [done|rewrite E; by left|apply IH; by left].
Qed.

Lemma grounded_executable id :
  (∀ x step dep, steps !! x = Some step → dep ∈ sn_DependsOn step → is_Some (steps !! dep)) →
  grounded id → is_Some (steps !! id) → executable id.
Proof.
  intros Hdeps. induction 1 as [id _ IH]. intros [step Hs]. apply (exec_step id step Hs). intros dep Hdep.
  pose proof (Hdeps id step dep Hs Hdep) as Hex. apply IH; [|done]. by exists step.
Qed.
End facts.

Section rules.
Context (print_table : Z → bool).
Implicit Types (sh : shuffle) (ast : WorkflowAST).

Lemma tc_exists ast x y : tc (edge (ast_Steps ast)) x y → is_Some (ast_Steps ast !! x).
Proof. destruct 1 as [? ? (step & Hs & _)|? ? ? (step & Hs & _)]; by exists step. Qed.

(** The search for cycles ends and is exact: it reports nothing exactly when no step depends on
    itself, directly or not, and everything it reports names a cycle of dependencies step by step. *)
Theorem cyclic_exact sh ast :
  ∃ diags, Cyclic_Analyze print_table sh ast = Some diags ∧
    (diags = [] ↔ ∀ u, ¬ tc (edge (ast_Steps ast)) u u) ∧
    ∀ d, d ∈ diags → names_cycle print_table (ast_Steps ast) d.
Proof.
  destruct (Cyclic_ends print_table (ast_Steps ast) sh ast eq_refl) as [diags E]. exists diags.
  destruct (Cyclic_grounded print_table (ast_Steps ast) sh ast diags eq_refl E) as [Hd Hg].
  split; [done|]. split; [|done]. split.
  - intros Hnil u Hu. apply (grounded_acyclic (ast_Steps ast) u); [|exact Hu]. apply Hg; [exact Hnil|].
    by apply tc_exists in Hu.
  - intros Hac. destruct diags as [|d diags]; [done|]. destruct (names_cycle_tc print_table (ast_Steps ast) d) as [x Hx]; [apply Hd; by left|].
    by apply Hac in Hx.
Qed.

(** The search for unreachable steps ends and is exact: it reports, each once and in order of their
    identifiers, the steps that cannot be reached from a step without dependencies. *)
Theorem unreachable_exact sh ast :
  ∃ diags, Unreachable_Analyze print_table sh ast = Some diags ∧
    Sorted (not_after step_less) diags ∧ NoDup (dg_StepID <$> diags) ∧
    ∀ d, d ∈ diags ↔ ∃ id, d = unreachable_diag print_table id ∧ is_Some (ast_Steps ast !! id) ∧
      ¬ reachable (ast_Steps ast) id.
Proof.
  unfold Unreachable_Analyze. case_bool_decide as Hz.
  { exists []. split; [done|]. split; [constructor|]. split; [constructor|]. intros d. rewrite elem_of_nil.
    split; [done|]. intros (id & _ & [s Hs] & _). apply map_size_empty_inv in Hz. rewrite Hz in Hs. done. }
  destruct (visited_reachable (ast_Steps ast) sh) as (visited & E & Hv). rewrite E. cbn [mbind option_bind].
  eexists. split; [reflexivity|]. split; [|split].
  - apply sort_slice_sorted. intros x y. apply string_ltb_asym.
  - rewrite sort_slice_perm, shuffle_perm, <- list_fmap_compose.
    change (dg_StepID ∘ unreachable_diag print_table) with (@id string). rewrite list_fmap_id.
    apply NoDup_filter, NoDup_range_map_fst.
  - intros d. rewrite sort_slice_perm, shuffle_perm, list_elem_of_fmap.
    setoid_rewrite list_elem_of_filter. setoid_rewrite Hv. setoid_rewrite list_elem_of_fmap. split.
    + intros (id & -> & Hn & [k v] & -> & Hk%elem_of_range_map). exists k. split; [done|]. split; [by exists v|done].
    + intros (id & -> & [s Hs] & Hn). exists id. split; [done|]. split; [done|]. exists (id, s).
      split; [done|]. by apply elem_of_range_map.
Qed.

(** * The analyzer with the graph rules *)

Lemma HasErrors_true diags :
  HasErrors diags = true ↔ ∃ d, d ∈ diags ∧ dg_Severity d = SeverityError.
Proof.
  unfold HasErrors. rewrite existsb_exists. setoid_rewrite list_elem_of_In. setoid_rewrite bool_decide_eq_true. done.
Qed.

Lemma Analyze_found sh ast (a : gmap string Rule) :
  (∀ k rule, a !! k = Some rule → is_Some (rule_Analyze rule ast)) →
  ∃ diags, Analyze sh ast a = Some diags ∧
    ∀ d, d ∈ diags ↔ ∃ k rule found, a !! k = Some rule ∧ rule_Analyze rule ast = Some found ∧ d ∈ found.
Proof.
  intros Hall. unfold Analyze. destruct (mapM (λ rule, rule_Analyze rule ast) (range_values sh a)) as [found|] eqn:E.
  - eexists. split; [reflexivity|]. intros d. apply mapM_Some_1 in E.
    rewrite sort_slice_perm, shuffle_perm, list_elem_of_In, in_concat. setoid_rewrite <- list_elem_of_In. split.
    + intros (ds & Hds & Hd). apply list_elem_of_lookup in Hds as [i Hi].
      destruct (Forall2_lookup_r _ _ _ _ _ E Hi) as (rule & Hr & Hf).
      apply list_elem_of_lookup_2, elem_of_range_values in Hr as [k Hk]. eauto 10.
    + intros (k & rule & ds & Hk & Hf & Hd). assert (rule ∈ range_values sh a) as Hr by (apply elem_of_range_values; eauto).
      apply list_elem_of_lookup in Hr as [i Hi]. destruct (Forall2_lookup_l _ _ _ _ _ E Hi) as (ds' & Hds & Hf').
      exists ds. split; [|done]. apply list_elem_of_lookup. exists i. congruence.
  - exfalso. apply mapM_None_1 in E. apply Exists_exists in E as (rule & Hr & Hn).
    apply elem_of_range_values in Hr as [k Hk]. apply Hall in Hk as [? ?]. congruence.
Qed.

Lemma Missing_none sh ast found :
  Missing_Analyze print_table sh ast = Some found →
  (found = [] ↔ ∀ x step dep, ast_Steps ast !! x = Some step → dep ∈ sn_DependsOn step → is_Some (ast_Steps ast !! dep)) ∧
  ∀ d, d ∈ found → dg_Severity d = SeverityError.
Proof.
  unfold Missing_Analyze. intros [= <-].
  assert (∀ d, d ∈ sort_slice message_less (sh _ (concat ((λ kv, missing_diags print_table (ast_Steps ast) kv.1 kv.2)
             <$> range_map sh (ast_Steps ast)))) ↔
    ∃ x step dep, ast_Steps ast !! x = Some step ∧ dep ∈ sn_DependsOn step ∧ ast_Steps ast !! dep = None ∧
      d = missing_diag print_table x dep) as Hd.
  { intros d. rewrite sort_slice_perm, shuffle_perm, list_elem_of_In, in_concat. setoid_rewrite <- list_elem_of_In.
    setoid_rewrite list_elem_of_fmap. unfold missing_diags. split.
    - intros (ds & ([x step] & -> & Hx) & (dep & -> & [Hn Hdep]%list_elem_of_filter)%list_elem_of_fmap).
      apply elem_of_range_map in Hx. eauto 10.
    - intros (x & step & dep & Hx & Hdep & Hn & ->). eexists. split; [exists (x, step); split; [reflexivity|]|].
      + by apply elem_of_range_map.
      + apply list_elem_of_fmap. exists dep. split; [done|]. by apply list_elem_of_filter. }
  split; [|intros d (x & step & dep & _ & _ & _ & ->)%Hd; reflexivity]. split.
  - intros Hnil x step dep Hx Hdep. destruct (ast_Steps ast !! dep) as [ds|] eqn:En; [by exists ds|].
    assert (missing_diag print_table x dep ∈ ([] : list Diagnostic)) as Hin; [|by apply elem_of_nil in Hin].
    rewrite <- Hnil. apply Hd. eauto 10.
  - intros Hall. destruct (sort_slice _ _) as [|d ds] eqn:El; [done|]. exfalso.
    destruct (Hd d) as [Hd' _]. destruct Hd' as (x & step & dep & Hx & Hdep & Hn & _); [by left|].
    destruct (Hall x step dep Hx Hdep). congruence.
Qed.

Definition graph_rules sh : gmap string Rule :=
  Register (MissingDependencyRule print_table sh) (Register (UnreachableStepRule print_table sh)
    (Register (UnboundedLoopRule print_table sh) (Register (CyclicDependencyRule print_table sh) New))).

Lemma graph_rules_lookup sh k rule :
  graph_rules sh !! k = Some rule →
  rule = MissingDependencyRule print_table sh ∨ rule = UnreachableStepRule print_table sh ∨
  rule = UnboundedLoopRule print_table sh ∨ rule = CyclicDependencyRule print_table sh.
Proof.
  unfold graph_rules, Register, New.
  do 4 (rewrite lookup_insert_Some; intros [[_ <-]|[_ H]]; [auto|revert H]). by rewrite lookup_empty.
Qed.

Lemma Loop_warnings sh ast found d :
  Loop_Analyze print_table sh ast = Some found → d ∈ found → dg_Severity d = SeverityWarning.
Proof.
  unfold Loop_Analyze. intros [= <-]. rewrite sort_slice_perm, shuffle_perm, list_elem_of_In, in_concat.
  intros (ds & Hds & Hd). apply list_elem_of_In, list_elem_of_fmap in Hds as ([x step] & -> & _).
  apply list_elem_of_In in Hd. unfold loop_diags in Hd.
  repeat case_match; rewrite ?list_elem_of_singleton, ?elem_of_nil in Hd; by subst.
Qed.

Lemma graph_rules_end sh ast k rule : graph_rules sh !! k = Some rule → is_Some (rule_Analyze rule ast).
Proof.
  intros [->|[->|[->| ->]]]%graph_rules_lookup; cbn [rule_Analyze MissingDependencyRule UnreachableStepRule
    UnboundedLoopRule CyclicDependencyRule].
  - by eexists.
  - destruct (visited_reachable (ast_Steps ast) sh) as (visited & E & _). unfold Unreachable_Analyze.
    rewrite E. case_bool_decide; by eexists.
  - by eexists.
  - by apply (Cyclic_ends print_table (ast_Steps ast)).
Qed.

(** The severities of what the rules find. *)
Lemma graph_rules_errors sh ast k rule found d :
  graph_rules sh !! k = Some rule → rule_Analyze rule ast = Some found → d ∈ found → dg_Severity d = SeverityError →
  (Cyclic_Analyze print_table sh ast = Some found) ∨ (Missing_Analyze print_table sh ast = Some found).
Proof.
  intros [->|[->|[->| ->]]]%graph_rules_lookup; cbn [rule_Analyze MissingDependencyRule UnreachableStepRule
    UnboundedLoopRule CyclicDependencyRule]; intros Hf Hd Hs.
  - by right.
  - unfold Unreachable_Analyze in Hf. case_bool_decide; [injection Hf as <-; by apply elem_of_nil in Hd|].
    destruct (bfs _ _ _ _); [|discriminate]. injection Hf as <-.
    rewrite sort_slice_perm, shuffle_perm, list_elem_of_fmap in Hd. destruct Hd as (id & -> & _). discriminate.
  - rewrite (Loop_warnings _ _ _ _ Hf Hd) in Hs. discriminate.
  - by left.
Qed.

Lemma cyclic_severity d (steps : gmap string StepNode) :
  names_cycle print_table steps d → dg_Severity d = SeverityError.
Proof. by intros [(u & _ & ->)|(v & l & u & _ & _ & _ & ->)]. Qed.

Lemma Unreachable_none sh ast :
  (∀ id, is_Some (ast_Steps ast !! id) → executable (ast_Steps ast) id) →
  Unreachable_Analyze print_table sh ast = Some [].
Proof.
  intros Hex. unfold Unreachable_Analyze. case_bool_decide; [done|].
  destruct (visited_reachable (ast_Steps ast) sh) as (visited & E & Hv). rewrite E. cbn [mbind option_bind].
  f_equal. apply elem_of_nil_inv. intros d. rewrite sort_slice_perm, shuffle_perm, list_elem_of_fmap.
  intros (id & _ & [Hn ([k v] & -> & Hk)%list_elem_of_fmap]%list_elem_of_filter).
  apply elem_of_range_map in Hk. apply Hn, Hv, executable_reachable, Hex. by exists v.
Qed.

Definition clean sh ast : Prop :=
  Cyclic_Analyze print_table sh ast = Some [] ∧ Missing_Analyze print_table sh ast = Some [].

Lemma registered_error sh ast k rule found d :
  graph_rules sh !! k = Some rule → rule_Analyze rule ast = Some found → d ∈ found → dg_Severity d = SeverityError →
  ¬ clean sh ast.
Proof.
  intros Hk Hf Hd Hs [Hc Hm]. destruct (graph_rules_errors _ _ _ _ _ _ Hk Hf Hd Hs) as [E|E].
  - rewrite Hc in E. injection E as <-. by apply elem_of_nil in Hd.
  - rewrite Hm in E. injection E as <-. by apply elem_of_nil in Hd.
Qed.

Lemma clean_errors sh ast :
  (∀ k rule found d, graph_rules sh !! k = Some rule → rule_Analyze rule ast = Some found → d ∈ found →
     dg_Severity d ≠ SeverityError) → clean sh ast.
Proof.
  intros Hno. split.
  - destruct (Cyclic_ends print_table (ast_Steps ast) sh ast eq_refl) as [[|d ds] E]; [done|]. exfalso.
    destruct (Cyclic_grounded print_table (ast_Steps ast) sh ast _ eq_refl E) as [Hd _].
    apply (Hno RuleIDCyclicDependency (CyclicDependencyRule print_table sh) (d :: ds) d); [done|done|by left|].
    eapply cyclic_severity, Hd. by left.
  - destruct (Missing_Analyze print_table sh ast) as [[|d ds]|] eqn:E; [done| |discriminate]. exfalso.
    destruct (Missing_none sh ast _ E) as [_ Hd].
    apply (Hno RuleIDMissingDependency (MissingDependencyRule print_table sh) (d :: ds) d); [done|done|by left|].
    apply Hd. by left.
Qed.

Lemma clean_executable sh ast :
  clean sh ast ↔ ∀ id, is_Some (ast_Steps ast !! id) → executable (ast_Steps ast) id.
Proof.
  split.
  - intros [Hc Hm] id Hid. apply grounded_executable; [|by eapply (Cyclic_grounded print_table); try done|done].
    by apply (Missing_none sh ast _ Hm).
  - intros Hex. split.
    + destruct (Cyclic_ends print_table (ast_Steps ast) sh ast eq_refl) as [[|d ds] E]; [done|]. exfalso.
      destruct (Cyclic_grounded print_table (ast_Steps ast) sh ast _ eq_refl E) as [Hd _].
      destruct (names_cycle_tc print_table (ast_Steps ast) d) as [x Hx]; [apply Hd; by left|].
      apply (grounded_acyclic (ast_Steps ast) x); [|exact Hx]. apply executable_grounded, Hex.
      by apply tc_exists in Hx.
    + unfold Missing_Analyze. f_equal. apply (Missing_none sh ast _ eq_refl). intros x step dep Hx Hdep.
      assert (is_Some (ast_Steps ast !! x)) as H by by exists step. apply Hex in H. destruct H as [id step' Hs Hall].
      rewrite Hx in Hs. injection Hs as <-. by apply executable_exists, Hall.
Qed.

(** C12: What the analyzer accepts can be executed, and nothing else.  With the four graph rules
    registered, the analysis of every definition ends; it has no errors exactly when every step can be
    executed, that is, all of its dependencies exist and can be executed, and then no step is reported
    as unreachable. *)
Theorem analyzer_accepts sh ast :
  ∃ diags, Analyze sh ast (graph_rules sh) = Some diags ∧
    (HasErrors diags = false ↔ ∀ id, is_Some (ast_Steps ast !! id) → executable (ast_Steps ast) id) ∧
    (HasErrors diags = false → Unreachable_Analyze print_table sh ast = Some []).
Proof.
  destruct (Analyze_found sh ast (graph_rules sh)) as (diags & E & Hd); [apply graph_rules_end|].
  assert (HasErrors diags = false ↔ clean sh ast) as Herr.
  { rewrite <- not_true_iff_false, HasErrors_true. split.
    - intros Hno. apply clean_errors. intros k rule found d Hk Hf Hin Hs. apply Hno. exists d. split; [|done].
      apply Hd. eauto 10.
    - intros Hc (d & (k & rule & found & Hk & Hf & Hin)%Hd & Hs). by eapply registered_error. }
  exists diags. split; [done|]. rewrite Herr, <- (clean_executable sh). split; [done|].
  intros Hex. rewrite (clean_executable sh) in Hex. by apply Unreachable_none.
Qed.
End rules.

Definition ex_step (deps : list string) : StepNode := MkStep "" "task" deps ∅ "" "" 0.
Definition ex_blocked : WorkflowAST :=
  MkAST "w" "1" (<["a" := ex_step []]> (<["b" := ex_step ["a"; "c"]]> (<["c" := ex_step ["c"]]> ∅))) ∅.

(** A step with one reachable dependency passes for reachable even when another dependency of it
    can never be executed, so that it cannot either. *)
Theorem reachable_but_blocked :
  Unreachable_Analyze (λ _, true) shuffle_id ex_blocked = Some [unreachable_diag (λ _, true) "c"] ∧
  ¬ executable (ast_Steps ex_blocked) "b".
Proof.
  split; [vm_compute; reflexivity|]. intros H.
  assert (executable (ast_Steps ex_blocked) "c") as Hc.
  { inversion H as [id step Hs Hall]. subst. apply Hall. vm_compute in Hs. injection Hs as <-. by right; left. }
  apply executable_grounded in Hc. apply (grounded_acyclic _ _ Hc). apply tc_once.
  exists (ex_step ["c"]). split; [vm_compute; reflexivity|]. split; [by left|by eexists].
Qed.
