(* ===== verification/JsonText.v ===== *)
(** Reading and writing JSON text as [encoding/json] does: a recursive reader of values, and the strings
    in them.

    The result is the value as it is written: numbers are literals, and the entries of an object are
    in the order of the text, repetitions included.  Values may be nested 10000 deep. *)
From Stdlib Require Import SpecFloat.
From stdpp Require Import pretty.
From S2P Require Import Prelude Runes Strings Float64 Json.
Local Open Scope Z_scope.

#[local] Unset Elimination Schemes.
Inductive jtext :=
  | TNull
  | TBool (b : bool)
  | TNumber (literal : string)
  | TString (s : string)
  | TArray (l : list jtext)
  | TObject (kvs : list (string * jtext)).
#[local] Set Elimination Schemes.

(** * Strings *)

Abbreviation quote_char := (Ascii.ascii_of_nat 34) (only parsing).
Abbreviation escape_char := (Ascii.ascii_of_nat 92) (only parsing).

Definition hex_value (r : Z) : option Z :=
  if in_range 48 57 r then Some (r - 48)
  else if in_range 97 102 r then Some (r - 87)
  else if in_range 65 70 r then Some (r - 55)
  else None.

(** The characters that may follow a backslash, apart from [u]. *)
Definition simple_escape (r : Z) : option Z :=
  if r =? 98 then Some 8
  else if r =? 102 then Some 12
  else if r =? 110 then Some 10
  else if r =? 114 then Some 13
  else if r =? 116 then Some 9
  else if (r =? 92) || (r =? 47) || (r =? 34) then Some r
  else None.

Definition hex4 (a b c d : Z) : option Z :=
  a ← hex_value a; b ← hex_value b; c ← hex_value c; d ← hex_value d;
  Some (((a * 16 + b) * 16 + c) * 16 + d).

(** The bytes up to the closing quote, as the scanner accepts them, and what follows. *)
Fixpoint scan_string (s : string) : option (string * string) :=
  match s with
  | EmptyString => None
  | String c s' =>
      if byteZ c =? 34 then Some ("", s')
      else if byteZ c <? 32 then None
      else if byteZ c =? 92 then
        match s' with
        | String e s'' =>
            if byteZ e =? 117 then
              match s'' with
              | String h1 (String h2 (String h3 (String h4 s4))) =>
                  match hex4 (byteZ h1) (byteZ h2) (byteZ h3) (byteZ h4) with
                  | Some _ =>
                      '(raw, rest) ← scan_string s4;
                      Some (String c (String e (String h1 (String h2 (String h3 (String h4 raw))))), rest)
                  | None => None
                  end
              | _ => None
              end
            else
              match simple_escape (byteZ e) with
              | Some _ => '(raw, rest) ← scan_string s''; Some (String c (String e raw), rest)
              | None => None
              end
        | EmptyString => None
        end
      else '(raw, rest) ← scan_string s'; Some (String c raw, rest)
  end.

Definition high_surrogate (r : Z) : bool := in_range 55296 56319 r.
Definition low_surrogate (r : Z) : bool := in_range 56320 57343 r.

(** Escapes are replaced; a pair of surrogates is one rune, any other surrogate an error rune. *)
Fixpoint unquote (rs : list Z) : list Z :=
  match rs with
  | [] => []
  | r :: rs' =>
      if r =? 92 then
        match rs' with
        | [] => []
        | e :: rs'' =>
            if e =? 117 then
              match rs'' with
              | a :: b :: c :: d :: rs4 =>
                  let rr := default 0 (hex4 a b c d) in
                  if high_surrogate rr || low_surrogate rr then
                    match rs4 with
                    | k :: u :: a' :: b' :: c' :: d' :: rs10 =>
                        let rr1 := default 0 (hex4 a' b' c' d') in
                        if (k =? 92) && (u =? 117) && high_surrogate rr && low_surrogate rr1 then
                          ((rr - 55296) * 1024 + (rr1 - 56320) + 65536) :: unquote rs10
                        else rune_error :: unquote rs4
                    | _ => rune_error :: unquote rs4
                    end
                  else rr :: unquote rs4
              | _ => []
              end
            else default 0 (simple_escape e) :: unquote rs''
        end
      else r :: unquote rs'
  end.

Definition read_string (s : string) : option (string * string) :=
  '(raw, rest) ← scan_string s; Some (string_of_runes (unquote (runes raw)), rest).

(** * Numbers *)

Fixpoint span_digits (s : string) : string * string :=
  match s with
  | String c s' => if digit_char c then let '(ds, rest) := span_digits s' in (String c ds, rest) else ("", s)
  | EmptyString => ("", "")
  end.

(** One digit at least. *)
Definition some_digits (s : string) : option (string * string) :=
  let '(ds, rest) := span_digits s in if bool_decide (ds = "") then None else Some (ds, rest).

Definition read_int (s : string) : option (string * string) :=
  match s with
  | String c s' => if byteZ c =? 48 then Some (String c "", s') else some_digits s
  | EmptyString => None
  end.

Definition read_frac (s : string) : option (string * string) :=
  match s with
  | String c s' => if byteZ c =? 46 then '(ds, rest) ← some_digits s'; Some (String c ds, rest) else Some ("", s)
  | EmptyString => Some ("", s)
  end.

Definition read_exp (s : string) : option (string * string) :=
  match s with
  | String c s' =>
      if (byteZ c =? 101) || (byteZ c =? 69) then
        match s' with
        | String d s'' =>
            if (byteZ d =? 43) || (byteZ d =? 45) then
              '(ds, rest) ← some_digits s''; Some (String c (String d ds), rest)
            else '(ds, rest) ← some_digits s'; Some (String c ds, rest)
        | EmptyString => None
        end
      else Some ("", s)
  | EmptyString => Some ("", s)
  end.

Definition read_number (s : string) : option (string * string) :=
  let '(sign, s) := match s with
                    | String c s' => if byteZ c =? 45 then (String c "", s') else ("", s)
                    | EmptyString => ("", s)
                    end in
  '(int, s) ← read_int s;
  '(frac, s) ← read_frac s;
  '(exp, s) ← read_exp s;
  Some (sign +:+ int +:+ frac +:+ exp, s).

(** * Values *)

Definition is_ws (c : ascii) : bool :=
  (byteZ c =? 32) || (byteZ c =? 9) || (byteZ c =? 13) || (byteZ c =? 10).

Fixpoint skip_ws (s : string) : string :=
  match s with
  | String c s' => if is_ws c then skip_ws s' else s
  | EmptyString => s
  end.

(** The next character after white space, if it is the given one. *)
Definition expect (c : ascii) (s : string) : option string := drop_prefix (String c "") (skip_ws s).

Definition maxNestingDepth : nat := (100 * 100)%nat.

Section elements.
Context (value : string → option (jtext * string)).

(** The elements after the first one, up to the closing bracket. *)
Fixpoint read_elements (fuel : nat) (s : string) : option (list jtext * string) :=
  match fuel with
  | O => None
  | S fuel' =>
      match expect "]" s with
      | Some rest => Some ([], rest)
      | None =>
          s ← expect "," s; '(v, s) ← value s; '(vs, s) ← read_elements fuel' s; Some (v :: vs, s)
      end
  end.

Definition read_entry (s : string) : option ((string * jtext) * string) :=
  s ← expect quote_char s; '(k, s) ← read_string s; s ← expect ":" s; '(v, s) ← value s; Some ((k, v), s).

Fixpoint read_entries (fuel : nat) (s : string) : option (list (string * jtext) * string) :=
  match fuel with
  | O => None
  | S fuel' =>
      match expect "}" s with
      | Some rest => Some ([], rest)
      | None =>
          s ← expect "," s; '(kv, s) ← read_entry s; '(kvs, s) ← read_entries fuel' s; Some (kv :: kvs, s)
      end
  end.
End elements.

(** The value at the beginning of a text, after white space, inside [depth] open brackets at most. *)
Fixpoint read_value (depth : nat) (s : string) : option (jtext * string) :=
  let s := skip_ws s in
  match s with
  | EmptyString => None
  | String c s' =>
      if byteZ c =? 34 then '(t, rest) ← read_string s'; Some (TString t, rest)
      else if byteZ c =? 91 then
        match depth with
        | O => None
        | S depth' =>
            match expect "]" s' with
            | Some rest => Some (TArray [], rest)
            | None =>
                '(v, rest) ← read_value depth' s';
                '(vs, rest) ← read_elements (read_value depth') (String.length s) rest;
                Some (TArray (v :: vs), rest)
            end
        end
      else if byteZ c =? 123 then
        match depth with
        | O => None
        | S depth' =>
            match expect "}" s' with
            | Some rest => Some (TObject [], rest)
            | None =>
                '(kv, rest) ← read_entry (read_value depth') s';
                '(kvs, rest) ← read_entries (read_value depth') (String.length s) rest;
                Some (TObject (kv :: kvs), rest)
            end
        end
      else
        match drop_prefix "true" s, drop_prefix "false" s, drop_prefix "null" s with
        | Some rest, _, _ => Some (TBool true, rest)
        | _, Some rest, _ => Some (TBool false, rest)
        | _, _, Some rest => Some (TNull, rest)
        | _, _, _ => '(lit, rest) ← read_number s; Some (TNumber lit, rest)
        end
  end.

(** A whole text; [None] is a syntax error. *)
Definition read_text (s : string) : option jtext :=
  '(v, rest) ← read_value maxNestingDepth s; if bool_decide (skip_ws rest = "") then Some v else None.

(** [json.Marshal] of decoded values, and [json.Unmarshal] into [any]. *)

(** * Writing *)

Definition backslash : ascii := Ascii.ascii_of_nat 92.
Definition hex_char (d : Z) : ascii := ascii_of_Z (if d <? 10 then 48 + d else 87 + d).
Definition u_escape (r : Z) : string :=
  String backslash ("u" +:+ String (hex_char (r / 4096 mod 16)) (String (hex_char (r / 256 mod 16))
    (String (hex_char (r / 16 mod 16)) (String (hex_char (r mod 16)) "")))).

(** A rune of a string; the characters of HTML are escaped. *)
Definition write_rune (r : Z) : string :=
  if (r =? 92) || (r =? 34) then String backslash (String (ascii_of_Z r) "")
  else if r =? 8 then String backslash "b"
  else if r =? 12 then String backslash "f"
  else if r =? 10 then String backslash "n"
  else if r =? 13 then String backslash "r"
  else if r =? 9 then String backslash "t"
  else if (r <? 32) || (r =? 60) || (r =? 62) || (r =? 38) || (r =? 8232) || (r =? 8233) then u_escape r
  else utf8_encode r.

(** The runes of a string; a byte that is not part of one is written as [�]. *)
Fixpoint write_runes (fuel : nat) (s : string) : string :=
  match fuel, s, runes s with
  | S fuel', String _ s', r :: _ =>
      match drop_prefix (utf8_encode r) s with
      | Some rest => write_rune r +:+ write_runes fuel' rest
      | None => u_escape rune_error +:+ write_runes fuel' s'
      end
  | _, _, _ => ""
  end.

Definition dquote : ascii := Ascii.ascii_of_nat 34.
Definition write_string (s : string) : string :=
  String dquote (write_runes (String.length s) s +:+ String dquote "").

(** The exponent form loses the leading zero of a negative exponent of two digits. *)
Definition write_exponent (digits : string) (exp : Z) : string :=
  let mant := match digits with
              | EmptyString | String _ EmptyString => digits
              | String c rest => String c ("." +:+ rest)
              end in
  mant +:+ "e" +:+ (if exp <? 0 then "-" +:+ pretty (- exp)
                    else "+" +:+ (if exp <? 10 then "0" +:+ pretty exp else pretty exp)).

(** Numbers from 1e-6 to below 1e21 are written without an exponent. *)
Definition write_number (f : float64) : option string :=
  match f with
  | S754_nan | S754_infinity _ => None
  | S754_zero neg => Some (if neg then "-0" else "0")
  | S754_finite neg m e =>
      let '(d, p) := shortest m e in
      let digits := pretty d in
      let dp := Z.of_nat (String.length digits) + p in
      Some ((if neg then "-" else "") +:+
            (if (dp - 1 <? -6) || (21 <=? dp - 1) then write_exponent digits (dp - 1) else format_f digits dp))
  end.

Fixpoint separated (ss : list string) : string :=
  match ss with
  | [] => ""
  | [s] => s
  | s :: ss' => s +:+ "," +:+ separated ss'
  end.

Fixpoint Marshal (v : json) : option string :=
  match v with
  | JNull => Some "null"
  | JBool b => Some (if b then "true" else "false")
  | JNumber f => write_number f
  | JString s => Some (write_string s)
  | JArray l => ss ← mapM Marshal l; Some ("[" +:+ separated ss +:+ "]")
  | JObject kvs =>
      ss ← mapM (λ kv, s ← Marshal kv.2; Some (write_string kv.1 +:+ ":" +:+ s)) kvs;
      Some ("{" +:+ separated ss +:+ "}")
  end.

(** * Reading *)

Fixpoint decoded (v : jtext) : option json :=
  match v with
  | TNull => Some JNull
  | TBool b => Some (JBool b)
  | TNumber literal => match ParseFloat literal with (f, None) => Some (JNumber f) | (_, Some _) => None end
  | TString s => Some (JString s)
  | TArray l => l ← mapM decoded l; Some (JArray l)
  | TObject kvs =>
      kvs ← mapM (λ kv, v ← decoded kv.2; Some (kv.1, v)) kvs;
      Some (JObject (foldl (λ m kv, obj_insert kv.1 kv.2 m) [] kvs))
  end.

Definition Unmarshal (s : string) : option json := read_text s ≫= decoded.
