(* ===== verification/FastJson.v ===== *)
(** The streaming JSON encoder and the codec of workflow events: [internal/fastjson].

    A buffer is the string of its bytes; the pools that recycle buffers hand out empty ones, and what
    they keep is not modelled.  The stack of comma flags has its top first.  The order of a loop over a
    map is an argument.  A raw message is the value that is written in it. *)
From Stdlib Require Import SpecFloat.
From stdpp Require Import pretty.
From S2P Require Import Prelude Errors Strings Runes Float64 Calendar JsonText.
Local Open Scope Z_scope.

(** * [escape.go] *)

Definition bslash : ascii := Ascii.ascii_of_nat 92.
Definition qchar : ascii := Ascii.ascii_of_nat 34.
Definition hexChars (d : Z) : ascii := ascii_of_Z (if d <? 10 then 48 + d else 87 + d).

Definition plain (b : ascii) : bool := (32 <=? byteZ b) && negb (byteZ b =? 92) && negb (byteZ b =? 34).

Definition escaped (b : ascii) : string :=
  if byteZ b =? 92 then String bslash (String bslash "")
  else if byteZ b =? 34 then String bslash (String qchar "")
  else if byteZ b =? 10 then String bslash "n"
  else if byteZ b =? 13 then String bslash "r"
  else if byteZ b =? 9 then String bslash "t"
  else if byteZ b =? 8 then String bslash "b"
  else if byteZ b =? 12 then String bslash "f"
  else String bslash ("u00" +:+ String (hexChars (Z.shiftr (byteZ b) 4)) (String (hexChars (Z.land (byteZ b) 15)) "")).

(** The loop; [pending] is [s[start:i]], the bytes seen since the last one that was escaped. *)
Fixpoint escape_loop (buf pending s : string) : string :=
  match s with
  | EmptyString => if bool_decide (pending = "") then buf else buf +:+ pending
  | String b s' =>
      if plain b then escape_loop buf (pending +:+ String b "") s'
      else
        let buf := if bool_decide (pending = "") then buf else buf +:+ pending in
        escape_loop (buf +:+ escaped b) "" s'
  end.

Definition EscapeString (buf s : string) : string := escape_loop buf "" s.

(** * [stream_encoder.go] *)

Record StreamEncoder := MkEnc { e_buf : string; e_needComma : list bool }.

Definition NewStreamEncoder (buf : string) : StreamEncoder := MkEnc buf [].
Definition Reset (buf : string) (e : StreamEncoder) : StreamEncoder := MkEnc buf [].

Definition append (s : string) (e : StreamEncoder) : StreamEncoder := MkEnc (e_buf e +:+ s) (e_needComma e).
Definition append_escaped (s : string) (e : StreamEncoder) : StreamEncoder :=
  MkEnc (EscapeString (e_buf e) s) (e_needComma e).
(** [if len(e.needComma) > 0 { e.needComma[len(e.needComma)-1] = b }] *)
Definition set_comma (b : bool) (e : StreamEncoder) : StreamEncoder :=
  match e_needComma e with
  | [] => e
  | _ :: st => MkEnc (e_buf e) (b :: st)
  end.

Definition writeSeparator (e : StreamEncoder) : StreamEncoder :=
  match e_needComma e with
  | true :: _ => append "," e
  | _ => e
  end.

Definition open_scope (bracket : string) (e : StreamEncoder) : StreamEncoder :=
  let e := append bracket (writeSeparator e) in MkEnc (e_buf e) (false :: e_needComma e).
Definition close_scope (bracket : string) (e : StreamEncoder) : StreamEncoder :=
  set_comma true (append bracket (MkEnc (e_buf e) (tail (e_needComma e)))).

Definition BeginObject : StreamEncoder → StreamEncoder := open_scope "{".
Definition EndObject : StreamEncoder → StreamEncoder := close_scope "}".
Definition BeginArray : StreamEncoder → StreamEncoder := open_scope "[".
Definition EndArray : StreamEncoder → StreamEncoder := close_scope "]".

Definition Key (key : string) (e : StreamEncoder) : StreamEncoder :=
  let e := append (String qchar "") (writeSeparator e) in
  set_comma false (append (String qchar ":") (append_escaped key e)).

Definition WriteString (s : string) (e : StreamEncoder) : StreamEncoder :=
  let e := append (String qchar "") (writeSeparator e) in
  set_comma true (append (String qchar "") (append_escaped s e)).

Definition write_token (t : string) (e : StreamEncoder) : StreamEncoder :=
  set_comma true (append t (writeSeparator e)).

Definition WriteInt64 (v : Z) : StreamEncoder → StreamEncoder := write_token (pretty v).
Definition WriteUint64 (v : Z) : StreamEncoder → StreamEncoder := write_token (pretty v).
Definition WriteBool (v : bool) : StreamEncoder → StreamEncoder := write_token (if v then "true" else "false").
Definition WriteNull : StreamEncoder → StreamEncoder := write_token "null".

(** [strconv.AppendFloat(v, 'f', -1, 64)] *)
Definition float_text (f : float64) : string :=
  match f with
  | S754_nan => "NaN"
  | S754_infinity neg => if neg then "-Inf" else "+Inf"
  | S754_zero neg => if neg then "-0" else "0"
  | S754_finite neg m e =>
      let '(d, p) := shortest m e in
      let digits := pretty d in
      (if neg then "-" else "") +:+ format_f digits (Z.of_nat (String.length digits) + p)
  end.
Definition WriteFloat64 (v : float64) : StreamEncoder → StreamEncoder := write_token (float_text v).

(** [AppendFormat] with the layout [RFC3339Nano], in a location with a fixed offset of seconds. *)
Definition pad (width : Z) (z : Z) : string :=
  let t := pretty (Z.abs z) in
  (if z <? 0 then "-" else "") +:+ string_rep (width - Z.of_nat (String.length t)) "0" +:+ t.
Fixpoint strip_fraction (digits : nat) (ns : Z) : string :=
  match digits with
  | O => ""
  | S digits' => if ns mod 10 =? 0 then strip_fraction digits' (ns / 10) else "." +:+ pad (Z.of_nat digits) ns
  end.
Definition RFC3339Nano (off : Z) (t : Time) : string :=
  let o := off * second in
  pad 4 (t_Year o t) +:+ "-" +:+ pad 2 (t_Month o t) +:+ "-" +:+ pad 2 (t_Day o t) +:+ "T" +:+
  pad 2 (t_Hour o t) +:+ ":" +:+ pad 2 (t_Minute o t) +:+ ":" +:+ pad 2 (local_clock o t mod minute / second) +:+
  strip_fraction 9 (local_clock o t mod second) +:+
  (if off =? 0 then "Z"
   else
     let zone := Z.quot off 60 in
     (if zone <? 0 then "-" else "+") +:+ pad 2 (Z.abs zone / 60) +:+ ":" +:+ pad 2 (Z.abs zone mod 60)).
Definition WriteTimeRFC3339 (off : Z) (t : Time) : StreamEncoder → StreamEncoder :=
  write_token (String qchar (RFC3339Nano off t +:+ String qchar "")).

Definition write_entry (e : StreamEncoder) (kv : string * string) : StreamEncoder :=
  WriteString kv.2 (Key kv.1 e).
Definition WriteStringMap (sh : shuffle) (m : gmap string string) (e : StreamEncoder) : StreamEncoder :=
  EndObject (foldl write_entry (BeginObject e) (range_map sh m)).

Definition FormatWorkflowEventJSON (sh : shuffle) (seq : Z) (eventType stepID : string)
    (payload : gmap string string) : string :=
  let enc := NewStreamEncoder "" in
  let enc := BeginObject enc in
  let enc := WriteUint64 seq (Key "seq" enc) in
  let enc := WriteString eventType (Key "type" enc) in
  let enc := if bool_decide (stepID = "") then enc else WriteString stepID (Key "step_id" enc) in
  let enc := if (0 <? Z.of_nat (size payload)) then WriteStringMap sh payload (Key "payload" enc) else enc in
  e_buf (EndObject enc).

(** * [decoder.go] *)

Definition StringInterner : Type := gmap string string.

Definition preseeded : list string :=
  ["seq"; "type"; "step_id"; "payload"; "status"; "run_id"; "workflow_id";
   "timestamp"; "data"; "error"; "action"; "retry"; "timeout"; "success";
   "failure"; "pending"; "running"; "completed"; "cancelled"].
Definition NewStringInterner : StringInterner := foldl (λ t s, <[s := s]> t) ∅ preseeded.

(** The table is looked up, and looked up again under the lock before the string is added; [others] is
    what other calls do in between. *)
Definition Intern (b : string) (others : StringInterner → StringInterner) (t : StringInterner) :
    string * StringInterner :=
  match t !! b with
  | Some s => (s, t)
  | None =>
      let t := others t in
      match t !! b with
      | Some existing => (existing, t)
      | None => (b, <[b := b]> t)
      end
  end.

Record DecodedEvent := MkEvent {
  ev_Seq : Z;
  ev_EventType : string;
  ev_StepID : string;
  ev_Payload : gmap string string
}.

(** [json.Unmarshal] of an object into a map of raw messages: the last entry of a key counts, and null
    gives an empty map. *)
Definition unmarshal_object (v : jtext) : option (gmap string jtext) :=
  match v with
  | TObject kvs => Some (foldl (λ m kv, <[kv.1 := kv.2]> m) ∅ kvs)
  | TNull => Some ∅
  | _ => None
  end.
(** Into a string and into a [uint64]: null leaves the zero value. *)
Definition unmarshal_string (v : jtext) : option string :=
  match v with
  | TString s => Some s
  | TNull => Some ""
  | _ => None
  end.
Definition ParseUint (s : string) : option Z :=
  if bool_decide (s = "") then None
  else z ← digits_value s 0; if z <? 2 ^ 64 then Some z else None.
Definition unmarshal_uint64 (v : jtext) : option Z :=
  match v with
  | TNumber literal => ParseUint literal
  | TNull => Some 0
  | _ => None
  end.
(** Into a map of strings: a value that is not a string is an error. *)
Definition unmarshal_strings (v : jtext) : option (gmap string string) :=
  match v with
  | TObject kvs =>
      if forallb (λ kv, bool_decide (is_Some (unmarshal_string kv.2))) kvs
      then Some (foldl (λ m kv, <[kv.1 := default "" (unmarshal_string kv.2)]> m) ∅ kvs) else None
  | TNull => Some ∅
  | _ => None
  end.

Section decoder.
(** What other calls do to the interner, between the critical sections of this one. *)
Context (others : StringInterner → StringInterner).

(** [raw[defaultInterner.Intern([]byte(name))]] *)
Definition raw_field (raw : gmap string jtext) (name : string) (t : StringInterner) :
    option jtext * StringInterner :=
  let '(key, t) := Intern name others t in (raw !! key, t).

Definition decode_string (raw : gmap string jtext) (name : string) (t : StringInterner) : string * StringInterner :=
  let '(v, t) := raw_field raw name t in
  match v ≫= unmarshal_string with
  | Some s => Intern s others t
  | None => ("", t)
  end.

Definition decode_payload (sh : shuffle) (raw : gmap string jtext) (t : StringInterner) :
    gmap string string * StringInterner :=
  let '(v, t) := raw_field raw "payload" t in
  match v ≫= unmarshal_strings with
  | Some m =>
      foldl (λ '(p, t) kv, let '(key, t) := Intern kv.1 others t in (<[key := kv.2]> p, t)) (∅, t) (range_map sh m)
  | None => (∅, t)
  end.

Definition DecodeWorkflowEvent (sh : shuffle) (data : string) (t : StringInterner) :
    result error DecodedEvent * StringInterner :=
  match read_text data ≫= unmarshal_object with
  | None => (Err (EFmt "failed to parse event json: %w" []), t)
  | Some raw =>
      let '(rawSeq, t) := raw_field raw "seq" t in
      let '(eventType, t) := decode_string raw "type" t in
      let '(stepID, t) := decode_string raw "step_id" t in
      let '(payload, t) := decode_payload sh raw t in
      (Ok (MkEvent (default 0 (rawSeq ≫= unmarshal_uint64)) eventType stepID payload), t)
  end.
End decoder.
