(* ===== verification/FastJsonFacts.v ===== *)
(** What the streaming encoder writes is read back: strings, documents and workflow events. *)
From Stdlib Require Import SpecFloat.
From stdpp Require Import pretty.
From S2P Require Import Prelude Errors Strings Runes JsonText FastJson.
Local Open Scope Z_scope.

(** * Strings *)

Definition esc_byte (b : ascii) : string := if plain b then String b "" else escaped b.
Fixpoint esc (s : string) : string :=
  match s with
  | EmptyString => ""
  | String b s' => esc_byte b +:+ esc s'
  end.

Lemma flush_app (buf pending : string) :
  (if bool_decide (pending = "") then buf else buf +:+ pending) = buf +:+ pending.
Proof. case_bool_decide as E; [|done]. by rewrite E, string_app_nil_r. Qed.

(** The loop that copies chunks of plain bytes escapes byte by byte. *)
Lemma EscapeString_esc buf s : EscapeString buf s = buf +:+ esc s.
Proof.
  unfold EscapeString. assert (∀ pending, escape_loop buf pending s = buf +:+ pending +:+ esc s) as H; [|by rewrite H].
  revert buf. induction s as [|b s IH]; intros buf pending; cbn [escape_loop esc].
  - by rewrite flush_app, string_app_nil_r.
  - unfold esc_byte. destruct (plain b); [by rewrite IH, <- !string_app_assoc|].
    rewrite IH, flush_app, <- !string_app_assoc. done.
Qed.

Lemma esc_app s t : esc (s +:+ t) = esc s +:+ esc t.
Proof.
  induction s as [|b s IH]; [done|]. change (esc (String b s +:+ t)) with (esc_byte b +:+ esc (s +:+ t)).
  rewrite IH. apply string_app_assoc.
Qed.

Lemma byteZ_hexChars d : 0 <= d < 16 → byteZ (hexChars d) = if d <? 10 then 48 + d else 87 + d.
Proof. intros Hd. unfold hexChars. apply byteZ_ascii_of_Z. destruct (Z.ltb_spec d 10); lia. Qed.

Lemma hex_value_hexChars d : 0 <= d < 16 → hex_value (byteZ (hexChars d)) = Some d.
Proof.
  intros Hd. rewrite byteZ_hexChars by done. unfold hex_value, in_range.
  destruct (Z.ltb_spec d 10);
    repeat match goal with |- context [?x <=? ?y] => destruct (Z.leb_spec x y); try lia end; cbn; f_equal; lia.
Qed.

Lemma hex4_control b : 0 <= b < 256 →
  hex4 48 48 (byteZ (hexChars (Z.shiftr b 4))) (byteZ (hexChars (Z.land b 15))) = Some b.
Proof.
  intros Hb. unfold hex4.
  assert (Z.shiftr b 4 = b / 16) as E1 by (rewrite Z.shiftr_div_pow2 by lia; done).
  assert (Z.land b 15 = b mod 16) as E2 by (change 15 with (Z.ones 4); rewrite Z.land_ones by lia; done).
  rewrite E1, E2, !hex_value_hexChars; [|split; [apply Z.div_pos; lia|apply Z.div_lt_upper_bound; lia]|apply Z.mod_pos_bound; lia].
  cbn [mbind option_bind hex_value in_range]. cbn. f_equal. pose proof (Z.div_mod b 16). lia.
Qed.

Lemma string_cons_app a s t : String a s +:+ t = String a (s +:+ t).
Proof. done. Qed.

Lemma plain_true b : plain b = true → 32 <= byteZ b ∧ byteZ b ≠ 92 ∧ byteZ b ≠ 34.
Proof.
  unfold plain. rewrite !andb_true_iff, !negb_true_iff, Z.leb_le, !Z.eqb_neq. tauto.
Qed.

Lemma plain_false b : plain b = false → byteZ b = 92 ∨ byteZ b = 34 ∨ byteZ b < 32.
Proof.
  unfold plain. rewrite !andb_false_iff, !negb_false_iff, Z.leb_gt, !Z.eqb_eq. tauto.
Qed.

Lemma scan_simple e s raw rest :
  is_Some (simple_escape (byteZ e)) → scan_string s = Some (raw, rest) →
  scan_string (String bslash (String e s)) = Some (String bslash (String e raw), rest).
Proof.
  intros [v He] Hs. cbn [scan_string]. change (byteZ bslash) with 92. cbn [Z.eqb Z.ltb Z.compare Pos.eqb Pos.compare Pos.compare_cont].
  destruct (Z.eqb_spec (byteZ e) 117) as [E|E]; [by rewrite E in He|]. by rewrite He, Hs.
Qed.

Lemma scan_u h1 h2 h3 h4 v s raw rest :
  hex4 (byteZ h1) (byteZ h2) (byteZ h3) (byteZ h4) = Some v → scan_string s = Some (raw, rest) →
  scan_string (String bslash (String "u" (String h1 (String h2 (String h3 (String h4 s)))))) =
  Some (String bslash (String "u" (String h1 (String h2 (String h3 (String h4 raw))))), rest).
Proof.
  intros Hh Hs. cbn [scan_string]. change (byteZ bslash) with 92. change (byteZ "u") with 117.
  cbn [Z.eqb Z.ltb Z.compare Pos.eqb Pos.compare Pos.compare_cont]. by rewrite Hh, Hs.
Qed.

Lemma control_hex4 b :
  hex4 (byteZ "0") (byteZ "0") (byteZ (hexChars (Z.shiftr (byteZ b) 4))) (byteZ (hexChars (Z.land (byteZ b) 15))) =
  Some (byteZ b).
Proof. apply hex4_control, byteZ_range. Qed.

Ltac escape_cases b :=
  unfold escaped;
  destruct (Z.eqb_spec (byteZ b) 92); [|destruct (Z.eqb_spec (byteZ b) 34); [|destruct (Z.eqb_spec (byteZ b) 10);
    [|destruct (Z.eqb_spec (byteZ b) 13); [|destruct (Z.eqb_spec (byteZ b) 9); [|destruct (Z.eqb_spec (byteZ b) 8);
      [|destruct (Z.eqb_spec (byteZ b) 12)]]]]]].

(** The bytes of an escaped string are accepted by the scanner, up to the quote behind it. *)
Lemma scan_escaped b s raw rest :
  scan_string s = Some (raw, rest) → scan_string (escaped b +:+ s) = Some (escaped b +:+ raw, rest).
Proof.
  intros Hs. escape_cases b; repeat rewrite ?string_cons_app, ?string_app_nil_l; try (by apply scan_simple; [by eexists|]).
  eapply scan_u; [apply control_hex4|done].
Qed.

Lemma scan_esc s rest : scan_string (esc s +:+ String qchar rest) = Some (esc s, rest).
Proof.
  induction s as [|b s IH]; [done|]. cbn [esc]. rewrite <- !string_app_assoc. unfold esc_byte.
  destruct (plain b) eqn:Eb; [|by apply scan_escaped].
  apply plain_true in Eb as (H1 & H2 & H3). change (String b "" +:+ esc s) with (String b (esc s)).
  change (String b "" +:+ (esc s +:+ String qchar rest)) with (String b (esc s +:+ String qchar rest)).
  remember (esc s +:+ String qchar rest) as t eqn:Et. cbn [scan_string].
  destruct (Z.eqb_spec (byteZ b) 34); [done|]. destruct (Z.ltb_spec (byteZ b) 32); [lia|].
  destruct (Z.eqb_spec (byteZ b) 92); [done|]. by rewrite IH.
Qed.

(** * Unescaping *)

Lemma runes_ascii a s : byteZ a < 128 → runes (String a s) = byteZ a :: runes s.
Proof. intros H. cbn [runes]. by destruct (Z.ltb_spec (byteZ a) 128); [|lia]. Qed.

Lemma unquote_simple e v k : simple_escape e = Some v → unquote (92 :: e :: k) = v :: unquote k.
Proof.
  intros He. cbn [unquote]. cbn [Z.eqb Pos.eqb]. destruct (Z.eqb_spec e 117) as [E|E]; [by rewrite E in He|].
  by rewrite He.
Qed.

Lemma unquote_control a b c d v k :
  hex4 a b c d = Some v → 0 <= v < 256 → unquote (92 :: 117 :: a :: b :: c :: d :: k) = v :: unquote k.
Proof.
  intros Hh Hv. cbn [unquote]. cbn [Z.eqb Pos.eqb]. rewrite Hh. cbn [default from_option id].
  unfold high_surrogate, low_surrogate, in_range.
  destruct (Z.leb_spec 55296 v); [lia|]. by destruct (Z.leb_spec 56320 v); [lia|].
Qed.

Lemma hexChars_ascii d : 0 <= d < 16 → byteZ (hexChars d) < 128.
Proof. intros Hd. rewrite byteZ_hexChars by done. destruct (Z.ltb_spec d 10); lia. Qed.

Lemma unquote_escaped b k :
  plain b = false → unquote (runes (escaped b +:+ k)) = byteZ b :: unquote (runes k).
Proof.
  intros Hb. escape_cases b; repeat rewrite ?string_cons_app, ?string_app_nil_l;
    try (rewrite !runes_ascii by done; rewrite (unquote_simple _ (byteZ b)); [done|];
         match goal with H : byteZ b = _ |- _ => by rewrite H end).
  assert (0 <= Z.shiftr (byteZ b) 4 < 16) as H1.
  { pose proof (byteZ_range b). rewrite Z.shiftr_div_pow2 by lia. split; [apply Z.div_pos; lia|apply Z.div_lt_upper_bound; lia]. }
  assert (0 <= Z.land (byteZ b) 15 < 16) as H2.
  { change 15 with (Z.ones 4). rewrite Z.land_ones by lia. apply Z.mod_pos_bound. lia. }
  rewrite !runes_ascii by (done || by apply hexChars_ascii).
  apply unquote_control; [apply control_hex4|apply byteZ_range].
Qed.

Lemma utf8_high r : valid_rune r = true → 128 <= r → string_forall plain (utf8_encode r) = true.
Proof.
  intros Hv Hr. unfold utf8_encode. rewrite Hv. destruct (Z.ltb_spec r 128); [lia|].
  assert (∀ z, 128 <= z < 256 → plain (ascii_of_Z z) = true) as Hp.
  { intros z Hz. unfold plain. rewrite byteZ_ascii_of_Z by lia.
    destruct (Z.leb_spec 32 z), (Z.eqb_spec z 92), (Z.eqb_spec z 34); (lia || done). }
  unfold valid_rune in Hv. apply orb_true_iff in Hv. rewrite !in_range_true in Hv.
  pose proof (Z.mod_pos_bound r 64). pose proof (Z.mod_pos_bound (r / 64) 64). pose proof (Z.mod_pos_bound (r / 4096) 64).
  assert (r / 64 * 64 <= r < r / 64 * 64 + 64) by (pose proof (Z.div_mod r 64); lia).
  assert (r / 4096 * 4096 <= r < r / 4096 * 4096 + 4096) by (pose proof (Z.div_mod r 4096); pose proof (Z.mod_pos_bound r 4096); lia).
  assert (r / 262144 * 262144 <= r < r / 262144 * 262144 + 262144)
    by (pose proof (Z.div_mod r 262144); pose proof (Z.mod_pos_bound r 262144); lia).
  destruct (Z.ltb_spec r 2048); [|destruct (Z.ltb_spec r 65536)]; cbn [string_forall]; rewrite !Hp; (done || lia).
Qed.

Lemma esc_plain s : string_forall plain s = true → esc s = s.
Proof.
  induction s as [|b s IH]; [done|]. cbn [string_forall esc]. intros [Hb Hs]%andb_true_iff.
  unfold esc_byte. by rewrite Hb, IH.
Qed.

Definition valid_text (s : string) : Prop := ∃ rs, s = string_of_runes rs ∧ Forall (λ r, valid_rune r = true) rs.

Lemma unquote_esc s : valid_text s → string_of_runes (unquote (runes (esc s))) = s.
Proof.
  intros (rs & -> & Hrs). induction Hrs as [|r rs Hr _ IH]; [done|].
  change (string_of_runes (r :: rs)) with (utf8_encode r +:+ string_of_runes rs). rewrite esc_app.
  assert (unquote (runes (esc (utf8_encode r) +:+ esc (string_of_runes rs))) = r :: unquote (runes (esc (string_of_runes rs)))) as E.
  { destruct (Z.ltb_spec r 128) as [Hlt|Hge].
    - assert (0 <= r) as H0 by (unfold valid_rune in Hr; apply orb_true_iff in Hr; rewrite !in_range_true in Hr; lia).
      assert (utf8_encode r = String (ascii_of_Z r) "") as -> by (unfold utf8_encode; rewrite Hr; by destruct (Z.ltb_spec r 128); [|lia]).
      assert (byteZ (ascii_of_Z r) = r) as Eb by (apply byteZ_ascii_of_Z; lia).
      cbn [esc]. rewrite string_app_nil_r. unfold esc_byte. destruct (plain (ascii_of_Z r)) eqn:Ep.
      + apply plain_true in Ep as (_ & Hn & _). rewrite string_cons_app, string_app_nil_l, runes_ascii by lia.
        rewrite Eb in Hn |- *. cbn [unquote]. by destruct (Z.eqb_spec r 92).
      + by rewrite unquote_escaped, Eb.
    - rewrite esc_plain by by apply utf8_high. rewrite runes_encode by done. cbn [unquote].
      by destruct (Z.eqb_spec r 92); [lia|]. }
  rewrite E. change (utf8_encode r +:+ string_of_runes (unquote (runes (esc (string_of_runes rs)))) =
    utf8_encode r +:+ string_of_runes rs). by rewrite IH.
Qed.

(** Strings are read back.  Whatever bytes a string has, its escaped form is scanned up to the
    quote behind it, and if it is encoded in UTF-8 it is read back as it was. *)
Theorem escape_roundtrip s rest :
  valid_text s → read_string (EscapeString "" s +:+ String qchar rest) = Some (s, rest).
Proof.
  intros Hs. rewrite EscapeString_esc, string_app_nil_l. unfold read_string. rewrite scan_esc. cbn [mbind option_bind].
  by rewrite unquote_esc.
Qed.

(** * Numbers *)

(** What may follow a value: nothing that continues a number. *)
Definition stops (rest : string) : bool :=
  match rest with
  | EmptyString => true
  | String c _ => negb (digit_char c || (byteZ c =? 46) || (byteZ c =? 101) || (byteZ c =? 69))
  end.

Lemma span_digits_app ds rest :
  string_forall digit_char ds = true → stops rest = true → span_digits (ds +:+ rest) = (ds, rest).
Proof.
  intros Hds Hr. induction ds as [|c ds IH].
  - rewrite string_app_nil_l. destruct rest as [|c rest]; [done|]. cbn [stops] in Hr. cbn [span_digits].
    destruct (digit_char c); [done|done].
  - cbn [string_forall] in Hds. apply andb_true_iff in Hds as [Hc Hds]. rewrite string_cons_app. cbn [span_digits].
    by rewrite Hc, IH.
Qed.

Lemma pretty_N_go_head (x : N) (s : string) :
  (0 < x)%N → ∃ c t, pretty_N_go x s = String c t ∧ byteZ c ≠ 48.
Proof.
  revert s. induction x as [x IH] using (well_founded_induction N.lt_wf_0). intros s Hx. rewrite pretty_N_go_step by done.
  destruct (decide (x / 10 = 0)%N) as [E|E].
  - rewrite E, pretty_N_go_0. eexists _, _. split; [done|].
    assert (x < 10)%N as Hlt by (apply N.div_small_iff in E; lia). rewrite N.mod_small by done.
    unfold byteZ. rewrite pretty_N_char_byte by done. lia.
  - apply IH; [by apply N.div_lt|]. apply N.neq_0_lt_0. exact E.
Qed.

Lemma read_int_pretty (x : N) rest : stops rest = true → read_int (pretty x +:+ rest) = Some (pretty x, rest).
Proof.
  intros Hr. destruct (decide (x = 0%N)) as [->|Hx].
  - done.
  - assert (∃ c t, (pretty x : string) = String c t ∧ byteZ c ≠ 48) as (c & t & E & Hc).
    { unfold pretty, pretty_N. rewrite decide_False by done. apply pretty_N_go_head. lia. }
    pose proof (pretty_N_digits x) as Hd. rewrite E in Hd |- *. rewrite string_cons_app. cbn [read_int].
    destruct (Z.eqb_spec (byteZ c) 48); [done|]. unfold some_digits. rewrite <- string_cons_app, span_digits_app by done.
    by rewrite bool_decide_eq_false_2.
Qed.

Lemma read_number_pretty (z : Z) rest : stops rest = true → read_number (pretty z +:+ rest) = Some (pretty z, rest).
Proof.
  intros Hr.
  assert (∀ sign (x : N), ('(int, s) ← read_int (pretty x +:+ rest); '(frac, s) ← read_frac s; '(exp, s) ← read_exp s;
            Some (sign +:+ int +:+ frac +:+ exp, s)) = Some (sign +:+ pretty x, rest)) as Hn.
  { intros sign x. rewrite read_int_pretty by done. cbn [mbind option_bind].
    assert (read_frac rest = Some ("", rest) ∧ read_exp rest = Some ("", rest)) as [Hf He].
    { destruct rest as [|c rest]; [done|]. cbn [stops] in Hr. cbn [read_frac read_exp].
      destruct (digit_char c), (byteZ c =? 46), (byteZ c =? 101), (byteZ c =? 69); try done. }
    rewrite Hf. cbn [mbind option_bind]. rewrite He. cbn [mbind option_bind]. by rewrite !string_app_nil_r. }
  unfold read_number. destruct z as [|p|p].
  - specialize (Hn "" 0%N). by rewrite string_app_nil_l in Hn.
  - specialize (Hn "" (N.pos p)). rewrite string_app_nil_l in Hn.
    assert (∃ c t, pretty (N.pos p) +:+ rest = String c t ∧ byteZ c ≠ 45) as (c & t & E & Hc).
    { destruct (pretty (N.pos p)) as [|c t] eqn:E; [by apply pretty_N_not_nil in E|].
      pose proof (pretty_N_digits (N.pos p)) as Hd. rewrite E in Hd. cbn [string_forall] in Hd.
      apply andb_true_iff in Hd as [Hd _]. exists c, (t +:+ rest). split; [done|].
      unfold digit_char in Hd. apply andb_true_iff in Hd as [Hd _]. apply Nat.leb_le in Hd. unfold byteZ. lia. }
    change (pretty (Z.pos p)) with (pretty (N.pos p)). rewrite E in Hn |- *.
    destruct (Z.eqb_spec (byteZ c) 45); [done|]. exact Hn.
  - exact (Hn "-" (N.pos p)).
Qed.

(** * Documents *)

#[local] Unset Elimination Schemes.
Inductive doc :=
  | DNull
  | DBool (b : bool)
  | DInt (z : Z)
  | DUint (z : Z)
  | DString (s : string)
  | DArray (l : list doc)
  | DObject (kvs : list (string * doc)).
#[local] Set Elimination Schemes.

Lemma doc_ind (P : doc → Prop) :
  P DNull → (∀ b, P (DBool b)) → (∀ z, P (DInt z)) → (∀ z, P (DUint z)) → (∀ s, P (DString s)) →
  (∀ l, Forall P l → P (DArray l)) → (∀ kvs, Forall (λ kv, P kv.2) kvs → P (DObject kvs)) →
  ∀ d, P d.
Proof.
  intros Hn Hb Hi Hu Hs Ha Ho. fix IH 1. intros [|b|z|z|s|l|kvs]; [done|done|done|done|done| |].
  - apply Ha. induction l as [|x l IHl]; constructor; [apply IH|done].
  - apply Ho. induction kvs as [|[k x] kvs IHl]; constructor; [apply IH|done].
Qed.

(** The calls that write a document. *)
Fixpoint emit (d : doc) (e : StreamEncoder) : StreamEncoder :=
  match d with
  | DNull => WriteNull e
  | DBool b => WriteBool b e
  | DInt z => WriteInt64 z e
  | DUint z => WriteUint64 z e
  | DString s => WriteString s e
  | DArray l => EndArray (foldl (λ e d, emit d e) (BeginArray e) l)
  | DObject kvs => EndObject (foldl (λ e kv, emit kv.2 (Key kv.1 e)) (BeginObject e) kvs)
  end.

(** What is read for it. *)
Fixpoint denote (d : doc) : jtext :=
  match d with
  | DNull => TNull
  | DBool b => TBool b
  | DInt z | DUint z => TNumber (pretty z)
  | DString s => TString s
  | DArray l => TArray (denote <$> l)
  | DObject kvs => TObject ((λ kv, (kv.1, denote kv.2)) <$> kvs)
  end.

(** Its text: elements separated by commas. *)
Definition commas (ts : list string) : string :=
  match ts with
  | [] => ""
  | t :: ts => t +:+ foldr (λ t more, String "," (t +:+ more)) "" ts
  end.
Definition quoted (s : string) : string := String qchar (esc s +:+ String qchar "").
Fixpoint render (d : doc) : string :=
  match d with
  | DNull => "null"
  | DBool b => if b then "true" else "false"
  | DInt z | DUint z => pretty z
  | DString s => quoted s
  | DArray l => String "[" (commas (render <$> l) +:+ "]")
  | DObject kvs => String "{" (commas ((λ kv, quoted kv.1 +:+ String ":" (render kv.2)) <$> kvs) +:+ "}")
  end.

Definition comma (st : list bool) : string := match st with true :: _ => "," | _ => "" end.
Definition written (st : list bool) : list bool := match st with [] => [] | _ :: st => true :: st end.

Ltac enc_simpl :=
  unfold append, set_comma; cbn [e_buf e_needComma comma written]; rewrite ?EscapeString_esc;
  rewrite <- ?string_app_assoc; repeat rewrite ?string_cons_app, ?string_app_nil_l, <- ?string_app_assoc; done.

Lemma write_token_spec t b st : write_token t (MkEnc b st) = MkEnc (b +:+ comma st +:+ t) (written st).
Proof.
  unfold write_token, writeSeparator. destruct st as [|[] st]; enc_simpl.
Qed.

Lemma WriteString_spec s b st : WriteString s (MkEnc b st) = MkEnc (b +:+ comma st +:+ quoted s) (written st).
Proof.
  unfold WriteString, writeSeparator, append_escaped, quoted. destruct st as [|[] st]; enc_simpl.
Qed.

Lemma Key_spec k b c st :
  Key k (MkEnc b (c :: st)) = MkEnc (b +:+ comma (c :: st) +:+ quoted k +:+ ":") (false :: st).
Proof.
  unfold Key, writeSeparator, append_escaped, quoted. destruct c; enc_simpl.
Qed.

Lemma emit_list {A} (f : A → StreamEncoder → StreamEncoder) (text : A → string) (l : list A) :
  (∀ x, x ∈ l → ∀ b c st, f x (MkEnc b (c :: st)) = MkEnc (b +:+ comma (c :: st) +:+ text x) (true :: st)) →
  ∀ b st, ∃ c, foldl (λ e x, f x e) (MkEnc b (false :: st)) l = MkEnc (b +:+ commas (text <$> l)) (c :: st).
Proof.
  intros Hf b st. destruct l as [|x l].
  { exists false. cbn. by rewrite string_app_nil_r. }
  exists true. cbn [foldl]. rewrite Hf by by left. cbn [comma fmap list_fmap commas]. rewrite string_app_nil_l.
  assert (∀ b, foldl (λ e x, f x e) (MkEnc b (true :: st)) l =
    MkEnc (b +:+ foldr (λ t more, String "," (t +:+ more)) "" (text <$> l)) (true :: st)) as Hmore.
  { assert (∀ x, x ∈ l → ∀ b c st, f x (MkEnc b (c :: st)) = MkEnc (b +:+ comma (c :: st) +:+ text x) (true :: st)) as Hf'
      by (intros y Hy; apply Hf; by right). clear Hf.
    induction l as [|y l IH]; intros b'; cbn [foldl fmap list_fmap foldr].
    - by rewrite string_app_nil_r.
    - rewrite Hf' by by left. rewrite IH by (intros z Hz; apply Hf'; by right). by rewrite <- !string_app_assoc. }
  rewrite Hmore. by rewrite <- string_app_assoc.
Qed.

Lemma open_scope_spec br b st : open_scope br (MkEnc b st) = MkEnc (b +:+ comma st +:+ br) (false :: st).
Proof. unfold open_scope, writeSeparator. destruct st as [|[] st]; enc_simpl. Qed.

Lemma close_scope_spec br b c st : close_scope br (MkEnc b (c :: st)) = MkEnc (b +:+ br) (written st).
Proof. unfold close_scope, append, set_comma. by destruct st. Qed.

Lemma emit_render d b st : emit d (MkEnc b st) = MkEnc (b +:+ comma st +:+ render d) (written st).
Proof.
  revert b st. induction d as [|v|z|z|s|l IH|kvs IH] using doc_ind; intros b st; cbn [emit render].
  - apply write_token_spec.
  - apply write_token_spec.
  - apply write_token_spec.
  - apply write_token_spec.
  - apply WriteString_spec.
  - unfold BeginArray, EndArray. rewrite open_scope_spec.
    destruct (emit_list emit render l) with (b := b +:+ comma st +:+ "[") (st := st) as [c E].
    { intros x Hx b' c st'. rewrite Forall_forall in IH. by apply IH. }
    rewrite E, close_scope_spec. enc_simpl.
  - unfold BeginObject, EndObject. rewrite open_scope_spec.
    destruct (emit_list (λ kv e, emit kv.2 (Key kv.1 e)) (λ kv, quoted kv.1 +:+ String ":" (render kv.2)) kvs)
      with (b := b +:+ comma st +:+ "{") (st := st) as [c E].
    { intros x Hx b' c st'. rewrite Forall_forall in IH. rewrite Key_spec, IH by done. enc_simpl. }
    rewrite E, close_scope_spec. enc_simpl.
Qed.

(** * Reading documents *)

Lemma expect_same c s : is_ws c = false → expect c (String c s) = Some s.
Proof.
  intros Hc. unfold expect. cbn [skip_ws]. rewrite Hc. apply drop_prefix_Some. done.
Qed.

Lemma expect_other c d s : is_ws d = false → c ≠ d → expect c (String d s) = None.
Proof.
  intros Hd Hn. unfold expect. cbn [skip_ws]. rewrite Hd. destruct (drop_prefix _ _) eqn:E; [|done].
  apply drop_prefix_Some in E. injection E as E _. by rewrite E in Hn.
Qed.

(** A document begins with a character that is neither white space nor a closing bracket. *)
Definition starts (c : ascii) : bool :=
  negb (is_ws c) && negb (byteZ c =? 93) && negb (byteZ c =? 125) && negb (byteZ c =? 44).

Lemma render_starts d : ∃ c t, render d = String c t ∧ starts c = true.
Proof.
  assert (∀ z : Z, ∃ c t, (pretty z : string) = String c t ∧ starts c = true) as Hz.
  { assert (∀ x : N, ∃ c t, (pretty x : string) = String c t ∧ starts c = true) as HN.
    { intros x. pose proof (pretty_N_digits x) as Hd. destruct (pretty x) as [|c t] eqn:E; [by apply pretty_N_not_nil in E|].
      exists c, t. split; [done|]. cbn [string_forall] in Hd. apply andb_true_iff in Hd as [Hd _].
      unfold digit_char in Hd. apply andb_true_iff in Hd as [H1%Nat.leb_le H2%Nat.leb_le].
      unfold starts, is_ws, byteZ.
      repeat match goal with |- context [?x =? ?y] => destruct (Z.eqb_spec x y); [lia|] end. done. }
    intros [|p|p]; [exact (HN 0%N)|exact (HN (N.pos p))|]. by exists "-"%char, (pretty (N.pos p)). }
  destruct d as [|[]|z|z|s|l|kvs]; cbn [render]; try apply Hz; by eexists _, _.
Qed.

(** Strings are UTF-8, and brackets are nested [depth] deep at most. *)
Fixpoint readable (depth : nat) (d : doc) {struct depth} : Prop :=
  match d, depth with
  | DString s, _ => valid_text s
  | DArray l, S depth' => Forall (readable depth') l
  | DObject kvs, S depth' => Forall (λ kv, valid_text kv.1 ∧ readable depth' kv.2) kvs
  | DArray _, O | DObject _, O => False
  | _, _ => True
  end.

Definition reads {A V} (value : string → option (V * string)) (text : A → string) (val : A → V) (x : A) : Prop :=
  ∀ rest, stops rest = true → value (text x +:+ rest) = Some (val x, rest).

Abbreviation more ts := (foldr (λ t more, String "," (t +:+ more)) "" ts).

Lemma stops_more ts c rest : stops (String c "") = true → stops (more ts +:+ String c rest) = true.
Proof. by destruct ts. Qed.

Lemma read_elements_spec value (l : list doc) fuel rest :
  Forall (reads value render denote) l → (length l < fuel)%nat →
  read_elements value fuel (more (render <$> l) +:+ String "]" rest) = Some (denote <$> l, rest).
Proof.
  intros Hl. revert fuel. induction Hl as [|d l Hd _ IH]; intros [|fuel] Hf; cbn [length] in Hf; try lia.
  - cbn [fmap list_fmap foldr read_elements]. rewrite string_app_nil_l. by rewrite expect_same.
  - cbn [fmap list_fmap foldr read_elements]. rewrite string_cons_app, <- string_app_assoc.
    rewrite expect_other, expect_same by done. cbn [mbind option_bind].
    rewrite Hd by by apply stops_more. cbn [mbind option_bind]. by rewrite IH by lia.
Qed.

Definition entry_text (kv : string * doc) : string := quoted kv.1 +:+ String ":" (render kv.2).
Definition entry_val (kv : string * doc) : string * jtext := (kv.1, denote kv.2).

Lemma read_entry_spec value k d :
  valid_text k → reads value render denote d → reads (read_entry value) entry_text entry_val (k, d).
Proof.
  intros Hk Hd rest Hr. unfold read_entry, entry_text, entry_val, quoted. cbn [fst snd].
  repeat rewrite ?string_cons_app, ?string_app_nil_l, <- ?string_app_assoc. rewrite expect_same by done.
  cbn [mbind option_bind]. unfold read_string. rewrite scan_esc. cbn [mbind option_bind].
  rewrite unquote_esc by done. rewrite expect_same by done. cbn [mbind option_bind]. by rewrite Hd.
Qed.

Lemma read_entries_spec value (kvs : list (string * doc)) fuel rest :
  Forall (reads (read_entry value) entry_text entry_val) kvs → (length kvs < fuel)%nat →
  read_entries value fuel (more (entry_text <$> kvs) +:+ String "}" rest) = Some (entry_val <$> kvs, rest).
Proof.
  intros Hl. revert fuel. induction Hl as [|d l Hd _ IH]; intros [|fuel] Hf; cbn [length] in Hf; try lia.
  - cbn [fmap list_fmap foldr read_entries]. rewrite string_app_nil_l. by rewrite expect_same.
  - cbn [fmap list_fmap foldr read_entries]. rewrite string_cons_app, <- string_app_assoc.
    rewrite expect_other, expect_same by done. cbn [mbind option_bind].
    rewrite Hd by by apply stops_more. cbn [mbind option_bind]. by rewrite IH by lia.
Qed.

Lemma length_more {A} (text : A → string) (l : list A) : (length l <= String.length (more (text <$> l)))%nat.
Proof.
  induction l as [|x l IH]; [cbn; lia|]. rewrite fmap_cons. cbn [foldr]. set (m := more (text <$> l)) in *.
  change (S (length l) <= S (String.length (text x +:+ m)))%nat. rewrite string_length_app. lia.
Qed.

Lemma starts_spec c : starts c = true → is_ws c = false ∧ c ≠ "]"%char ∧ c ≠ "}"%char.
Proof.
  unfold starts. rewrite !andb_true_iff, !negb_true_iff, !Z.eqb_neq. intros [[[H1 H2] H3] H4].
  split; [done|]. split; intros ->; done.
Qed.

Lemma read_number_value depth (z : Z) : reads (read_value depth) (λ z : Z, pretty z) (λ z, TNumber (pretty z)) z.
Proof.
  intros rest Hr. pose proof (read_number_pretty z rest Hr) as Hn.
  assert (∃ c t, pretty z +:+ rest = String c t ∧ (digit_char c = true ∨ byteZ c = 45)) as (c & t & E & Hc).
  { assert (∀ x : N, ∃ c t, pretty x +:+ rest = String c t ∧ digit_char c = true) as HN.
    { intros x. pose proof (pretty_N_digits x) as Hd. destruct (pretty x) as [|c t] eqn:E; [by apply pretty_N_not_nil in E|].
      exists c, (t +:+ rest). split; [done|]. cbn [string_forall] in Hd. by apply andb_true_iff in Hd as [Hd _]. }
    destruct z as [|p|p].
    - destruct (HN 0%N) as (c & t & E & Hc). eauto.
    - destruct (HN (N.pos p)) as (c & t & E & Hc). eauto.
    - exists "-"%char, (pretty (N.pos p) +:+ rest). auto. }
  rewrite E in Hn |- *. assert (48 <= byteZ c <= 57 ∨ byteZ c = 45) as Hb.
  { destruct Hc as [Hc|Hc]; [left|by right]. unfold digit_char in Hc.
    apply andb_true_iff in Hc as [H1%Nat.leb_le H2%Nat.leb_le]. unfold byteZ. lia. }
  assert (is_ws c = false) as Hw.
  { unfold is_ws. repeat match goal with |- context [?x =? ?y] => destruct (Z.eqb_spec x y); [lia|] end. done. }
  assert (∀ w a s, (97 <= byteZ a)%Z → w = String a s → drop_prefix w (String c t) = None) as Hp.
  { intros w a s Ha ->. destruct (drop_prefix _ _) eqn:Ed; [|done]. apply drop_prefix_Some in Ed.
    injection Ed as Ed _. subst a. lia. }
  unfold read_value; destruct depth; cbn [skip_ws]; rewrite Hw;
    repeat match goal with |- context [byteZ c =? ?y] => destruct (Z.eqb_spec (byteZ c) y); [lia|] end;
    rewrite (Hp "true" "t"%char "rue"), (Hp "false" "f"%char "alse"), (Hp "null" "n"%char "ull") by done; by rewrite Hn.
Qed.

Lemma skip_ws_start c t : is_ws c = false → skip_ws (String c t) = String c t.
Proof. intros Hc. cbn [skip_ws]. by rewrite Hc. Qed.

Lemma read_array depth l rest :
  Forall (reads (read_value depth) render denote) l →
  read_value (S depth) (render (DArray l) +:+ rest) = Some (TArray (denote <$> l), rest).
Proof.
  intros Hl. cbn [render]. rewrite string_cons_app, <- string_app_assoc.
  change ("]" +:+ rest) with (String "]" rest). cbn [read_value]. rewrite skip_ws_start by done.
  change (byteZ "[" =? 34) with false. change (byteZ "[" =? 91) with true. cbn match.
  destruct l as [|d l]; [by rewrite string_app_nil_l, expect_same|].
  apply Forall_cons in Hl as [Hd Hl]. rewrite fmap_cons. cbn [commas]. rewrite <- string_app_assoc.
  destruct (render_starts d) as (c & t & Ed & (Hw & Hc & _)%starts_spec).
  pose proof (Hd _ (stops_more (render <$> l) "]" rest eq_refl)) as Hv.
  rewrite Ed in Hv |- *. rewrite string_cons_app in Hv |- *. rewrite expect_other by done. rewrite Hv. cbn [mbind option_bind].
  rewrite read_elements_spec; [done|done|]. cbn [String.length]. rewrite !string_length_app.
  pose proof (length_more render l). lia.
Qed.

Lemma read_object depth kvs rest :
  Forall (reads (read_entry (read_value depth)) entry_text entry_val) kvs →
  read_value (S depth) (render (DObject kvs) +:+ rest) = Some (TObject (entry_val <$> kvs), rest).
Proof.
  intros Hl. cbn [render]. rewrite string_cons_app, <- string_app_assoc.
  change ("}" +:+ rest) with (String "}" rest). cbn [read_value]. rewrite skip_ws_start by done.
  change (byteZ "{" =? 34) with false. change (byteZ "{" =? 91) with false. change (byteZ "{" =? 123) with true. cbn match.
  change (λ kv, quoted kv.1 +:+ String ":" (render kv.2)) with entry_text.
  destruct kvs as [|kv kvs]; [by rewrite string_app_nil_l, expect_same|].
  apply Forall_cons in Hl as [Hd Hl]. rewrite fmap_cons. cbn [commas]. rewrite <- string_app_assoc.
  pose proof (Hd _ (stops_more (entry_text <$> kvs) "}" rest eq_refl)) as Hv.
  assert (∃ t, entry_text kv +:+ (more (entry_text <$> kvs) +:+ String "}" rest) = String qchar t) as [t Et] by by eexists.
  rewrite Et in Hv |- *. rewrite expect_other by done. rewrite Hv. cbn [mbind option_bind].
  rewrite read_entries_spec; [done|done|]. rewrite <- Et. cbn [String.length]. rewrite !string_length_app.
  pose proof (length_more entry_text kvs). lia.
Qed.

Lemma read_quoted depth s rest :
  valid_text s → read_value depth (quoted s +:+ rest) = Some (TString s, rest).
Proof.
  intros Hs. unfold quoted. rewrite string_cons_app, <- string_app_assoc.
  change (String qchar "" +:+ rest) with (String qchar rest).
  assert (read_string (esc s +:+ String qchar rest) = Some (s, rest)) as E.
  { unfold read_string. rewrite scan_esc. cbn [mbind option_bind]. by rewrite unquote_esc. }
  unfold read_value; destruct depth; rewrite skip_ws_start by done;
    change (byteZ qchar =? 34) with true; cbn match; by rewrite E.
Qed.

Lemma read_render depth d : readable depth d → reads (read_value depth) render denote d.
Proof.
  revert d. induction depth as [|depth IH]; intros d Hd rest Hr.
  - destruct d as [|[]|z|z|s|l|kvs]; cbn [readable] in Hd; try done; try by apply read_number_value.
    by apply read_quoted.
  - destruct d as [|[]|z|z|s|l|kvs]; cbn [readable] in Hd; try done; try by apply read_number_value.
    + by apply read_quoted.
    + apply read_array. by eapply Forall_impl.
    + apply read_object. eapply Forall_impl; [done|]. intros [k d] [Hk Hd']. by apply read_entry_spec; [|apply IH].
Qed.

Lemma read_emitted d :
  readable maxNestingDepth d → read_text (e_buf (emit d (NewStreamEncoder ""))) = Some (denote d).
Proof.
  intros Hd. unfold NewStreamEncoder. rewrite emit_render. cbn [e_buf comma]. rewrite !string_app_nil_l.
  unfold read_text. rewrite <- (string_app_nil_r (render d)), (read_render maxNestingDepth d Hd "") by done. done.
Qed.

(** C13: Documents are read back.  Whatever document is written by the calls of the encoder, a reader of
    JSON reads that document from the buffer, when its strings are encoded in UTF-8 and its brackets
    are not nested more than 10000 deep. *)
Theorem encoder_roundtrip d :
  readable maxNestingDepth d → read_text (e_buf (emit d (NewStreamEncoder ""))) = Some (denote d).
Proof. apply read_emitted. Qed.

Definition ex_doc : doc := DObject [("a", DArray [DInt (-1); DNull; DString "x"]); ("b", DBool true)].

Lemma valid_ascii s : string_forall (λ c, byteZ c <? 128) s = true → valid_text s.
Proof.
  intros Hs. exists (map byteZ (String.list_ascii_of_string s)). induction s as [|c s IH]; [by split|].
  cbn [string_forall] in Hs. apply andb_true_iff in Hs as [Hc%Z.ltb_lt Hs].
  destruct (IH Hs) as [E H]. pose proof (byteZ_range c) as Hr. assert (valid_rune (byteZ c) = true) as Hv.
  { unfold valid_rune. apply orb_true_iff. left. apply in_range_true. lia. }
  split; [|by constructor]. cbn [String.list_ascii_of_string map string_of_runes foldr].
  unfold utf8_encode at 1. rewrite Hv. destruct (Z.ltb_spec (byteZ c) 128); [|lia].
  rewrite ascii_of_byteZ, string_cons_app, string_app_nil_l. f_equal. exact E.
Qed.

Lemma ex_readable n : readable (S (S (S n))) ex_doc.
Proof.
  assert (∀ s, string_forall (λ c, byteZ c <? 128) s = true → valid_text s) as H by apply valid_ascii.
  constructor; [split; [by apply H|]|constructor; [split; [by apply H|done]|constructor]].
  constructor; [done|constructor; [done|constructor; [by apply H|constructor]]].
Qed.

Lemma encoder_roundtrip_witness :
  read_text (e_buf (emit ex_doc (NewStreamEncoder ""))) = Some (denote ex_doc).
Proof. apply encoder_roundtrip. exact (ex_readable (100 * 100 - 3)). Defined.

(** * Workflow events *)

Definition event_doc (sh : shuffle) (seq : Z) (eventType stepID : string) (payload : gmap string string) : doc :=
  DObject ([("seq", DUint seq); ("type", DString eventType)] ++
    (if bool_decide (stepID = "") then [] else [("step_id", DString stepID)]) ++
    (if 0 <? Z.of_nat (base.size payload)
     then [("payload", DObject ((λ kv, (kv.1, DString kv.2)) <$> range_map sh payload))] else [])).

Lemma foldl_fmap {A B C} (f : A → C → A) (g : B → C) (a : A) (l : list B) :
  foldl f a (g <$> l) = foldl (λ a b, f a (g b)) a l.
Proof. revert a. induction l as [|b l IH]; intros a; [done|]. apply IH. Qed.

Lemma Format_emit sh seq eventType stepID payload :
  FormatWorkflowEventJSON sh seq eventType stepID payload =
  e_buf (emit (event_doc sh seq eventType stepID payload) (NewStreamEncoder "")).
Proof.
  unfold FormatWorkflowEventJSON, event_doc. cbn [emit]. rewrite !foldl_app. cbn [foldl fst snd emit].
  case_bool_decide; destruct (0 <? Z.of_nat (base.size payload)); cbn [foldl fst snd emit]; try done;
    unfold WriteStringMap; by rewrite foldl_fmap.
Qed.

Lemma foldl_insert_range sh (m : gmap string string) :
  foldl (λ (p : gmap string string) kv, <[kv.1 := kv.2]> p) ∅ (range_map sh m) = m.
Proof.
  apply map_eq. intros k. apply option_eq. intros v. split.
  - intros ([k' v'] & Hin & <- & <-)%foldl_insert_Some. by apply elem_of_range_map in Hin.
  - intros Hk%(elem_of_range_map sh).
    apply (foldl_insert_lookup fst snd _ ∅ (k, v)); [apply NoDup_range_map_fst|done].
Qed.

(** An interner maps every string to itself. *)
Definition canonical (t : StringInterner) : Prop := map_Forall (λ k s, s = k) t.

Lemma canonical_new : canonical NewStringInterner.
Proof.
  unfold NewStringInterner. intros k s (x & _ & <- & <-)%foldl_insert_Some. done.
Qed.

Section interning.
Context (others : StringInterner → StringInterner).
Context (Hothers : ∀ t, canonical t → canonical (others t)).

Lemma Intern_spec b t : canonical t → ∃ t', Intern b others t = (b, t') ∧ canonical t'.
Proof using Hothers.
  intros Ht. unfold Intern. destruct (t !! b) as [s|] eqn:E.
  - apply Ht in E. subst. eauto.
  - pose proof (Hothers t Ht) as Ho. destruct (others t !! b) as [s|] eqn:Eo.
    + apply Ho in Eo. subst. eauto.
    + eexists. split; [done|]. by apply map_Forall_insert_2.
Qed.

Lemma raw_field_spec raw name t :
  canonical t → ∃ t', raw_field others raw name t = (raw !! name, t') ∧ canonical t'.
Proof using Hothers.
  intros Ht. unfold raw_field. destruct (Intern_spec name t Ht) as (t' & E & Ht'). rewrite E. eauto.
Qed.

Lemma decode_string_spec raw name t :
  canonical t → ∃ t', decode_string others raw name t = (default "" (raw !! name ≫= unmarshal_string), t') ∧ canonical t'.
Proof using Hothers.
  intros Ht. unfold decode_string. destruct (raw_field_spec raw name t Ht) as (t1 & E & Ht1). rewrite E.
  destruct (raw !! name ≫= unmarshal_string) as [s|]; [|eauto].
  destruct (Intern_spec s t1 Ht1) as (t2 & E2 & Ht2). rewrite E2. eauto.
Qed.

Lemma decode_payload_spec sh raw t :
  canonical t →
  ∃ t', decode_payload others sh raw t = (default ∅ (raw !! "payload" ≫= unmarshal_strings), t') ∧ canonical t'.
Proof using Hothers.
  intros Ht. unfold decode_payload. destruct (raw_field_spec raw "payload" t Ht) as (t1 & E & Ht1). rewrite E.
  destruct (raw !! "payload" ≫= unmarshal_strings) as [m|]; [|eauto]. cbn [default from_option id].
  assert (∀ l (p : gmap string string) t, canonical t → ∃ t',
    foldl (λ '(p, t) kv, let '(key, t) := Intern kv.1 others t in (<[key := kv.2]> p, t)) (p, t) l =
    (foldl (λ p (kv : string * string), <[kv.1 := kv.2]> p) p l, t') ∧ canonical t') as Hl.
  { clear -Hothers. induction l as [|[k v] l IH]; intros p t Ht; cbn [foldl fst snd]; [eauto|].
    destruct (Intern_spec k t Ht) as (t2 & E2 & Ht2). rewrite E2. by apply IH. }
  destruct (Hl (range_map sh m) ∅ t1 Ht1) as (t2 & E2 & Ht2). exists t2. split; [|done].
  by rewrite E2, foldl_insert_range.
Qed.
End interning.

Lemma unmarshal_payload sh payload :
  unmarshal_strings (denote (DObject ((λ kv, (kv.1, DString kv.2)) <$> range_map sh payload))) = Some payload.
Proof.
  cbn [denote unmarshal_strings]. rewrite <- list_fmap_compose. rewrite foldl_fmap.
  replace (forallb _ _) with true.
  - f_equal. apply foldl_insert_range.
  - symmetry. apply forallb_forall. intros kv Hkv%list_elem_of_In%list_elem_of_fmap.
    destruct Hkv as ([k v] & -> & _). apply bool_decide_eq_true. by eexists.
Qed.

Lemma ParseUint_pretty seq : 0 <= seq < 2 ^ 64 → ParseUint (pretty seq) = Some seq.
Proof.
  intros Hs. rewrite pretty_Z_nonneg by lia. unfold ParseUint.
  rewrite bool_decide_eq_false_2 by apply pretty_N_not_nil. rewrite digits_value_pretty. cbn [mbind option_bind].
  rewrite Z2N.id by lia. by destruct (Z.ltb_spec seq (2 ^ 64)); [|lia].
Qed.

(** The fields of an event, as they are read. *)
Lemma event_fields sh seq eventType stepID payload :
  0 <= seq < 2 ^ 64 →
  ∃ raw, unmarshal_object (denote (event_doc sh seq eventType stepID payload)) = Some raw ∧
    raw !! "seq" ≫= unmarshal_uint64 = Some seq ∧
    default "" (raw !! "type" ≫= unmarshal_string) = eventType ∧
    default "" (raw !! "step_id" ≫= unmarshal_string) = stepID ∧
    default ∅ (raw !! "payload" ≫= unmarshal_strings) = payload.
Proof.
  intros Hs. pose proof (unmarshal_payload sh payload) as Hp.
  unfold event_doc. cbn [denote unmarshal_object]. eexists. split; [done|].
  rewrite !fmap_app, !foldl_app. cbn [fmap list_fmap foldl fst snd denote].
  assert (payload = ∅ ∨ (0 <? Z.of_nat (base.size payload)) = true) as Hpay.
  { destruct (Z.ltb_spec 0 (Z.of_nat (base.size payload))); [by right|left]. apply map_size_empty_inv. lia. }
  case_bool_decide as Hst; (destruct Hpay as [Hpay|Hpay]; [subst payload|rewrite Hpay]); cbn [fmap list_fmap foldl fst snd];
    split_and!;
    repeat first [rewrite lookup_insert_eq | rewrite lookup_insert_ne by done];
    cbn [mbind option_bind unmarshal_uint64 unmarshal_string default from_option id]; rewrite ?lookup_empty, ?Hp;
    try done; by apply ParseUint_pretty.
Qed.

Lemma event_readable sh seq eventType stepID payload n :
  valid_text eventType → valid_text stepID → map_Forall (λ k v, valid_text k ∧ valid_text v) payload →
  readable (S (S (S n))) (event_doc sh seq eventType stepID payload).
Proof.
  intros Ht Hs Hp. unfold event_doc. cbn [readable]. rewrite !Forall_app.
  assert (∀ s, string_forall (λ c, byteZ c <? 128) s = true → valid_text s) as Ha by apply valid_ascii.
  split; [|split].
  - apply Forall_cons; split; [split; [by apply Ha|done]|]. apply Forall_singleton. split; [by apply Ha|done].
  - case_bool_decide; [apply Forall_nil|]; [done|]. apply Forall_singleton. split; [by apply Ha|done].
  - destruct (0 <? _); [|by apply Forall_nil]. apply Forall_singleton. split; [by apply Ha|].
    apply Forall_fmap, Forall_forall. intros [k v] Hkv%elem_of_range_map. cbn. by apply (Hp k v).
Qed.

(** Events are read back.  Whatever the iteration orders, and with any calls that intern other
    strings in between, decoding a formatted event gives its number, type, step and payload, when they
    are encoded in UTF-8. *)
Theorem event_roundtrip others sh sh' seq eventType stepID payload t :
  (∀ t, canonical t → canonical (others t)) → canonical t →
  0 <= seq < 2 ^ 64 → valid_text eventType → valid_text stepID →
  map_Forall (λ k v, valid_text k ∧ valid_text v) payload →
  ∃ t', DecodeWorkflowEvent others sh' (FormatWorkflowEventJSON sh seq eventType stepID payload) t =
    (Ok (MkEvent seq eventType stepID payload), t') ∧ canonical t'.
Proof.
  intros Ho Ht Hseq Hty Hst Hpay. rewrite Format_emit. unfold DecodeWorkflowEvent.
  rewrite read_emitted by exact (event_readable sh seq eventType stepID payload (100 * 100 - 3) Hty Hst Hpay).
  destruct (event_fields sh seq eventType stepID payload Hseq) as (raw & E & H1 & H2 & H3 & H4).
  cbn [mbind option_bind]. rewrite E.
  destruct (raw_field_spec others Ho raw "seq" t Ht) as (t1 & E1 & Ht1). rewrite E1.
  destruct (decode_string_spec others Ho raw "type" t1 Ht1) as (t2 & E2 & Ht2). rewrite E2, H2.
  destruct (decode_string_spec others Ho raw "step_id" t2 Ht2) as (t3 & E3 & Ht3). rewrite E3, H3.
  destruct (decode_payload_spec others Ho sh' raw t3 Ht3) as (t4 & E4 & Ht4). rewrite E4, H4, H1.
  eauto.
Qed.

Lemma event_roundtrip_witness :
  (DecodeWorkflowEvent (λ t, t) shuffle_rev
     (FormatWorkflowEventJSON shuffle_id 7 "done" "s1" {["k" := "v"]}) NewStringInterner).1 =
  Ok (MkEvent 7 "done" "s1" {["k" := "v"]}).
Proof.
  assert (∀ s, string_forall (λ c, byteZ c <? 128) s = true → valid_text s) as Ha by apply valid_ascii.
  destruct (event_roundtrip (λ t, t) shuffle_id shuffle_rev 7 "done" "s1" {["k" := "v"]} NewStringInterner)
    as (t' & E & _).
  - auto.
  - apply canonical_new.
  - lia.
  - by apply Ha.
  - by apply Ha.
  - apply map_Forall_singleton. split; by apply Ha.
  - by rewrite E.
Defined.

(** Numbers that JSON does not have are written all the same, and the text cannot be read; bytes
    that are not UTF-8 are written as they are, and read as another string. *)
Theorem encoder_gaps :
  read_text (e_buf (WriteFloat64 S754_nan (NewStreamEncoder ""))) = None ∧
  read_text (e_buf (WriteString (String (Ascii.ascii_of_nat 255) "") (NewStreamEncoder ""))) =
    Some (TString (utf8_encode rune_error)).
Proof. vm_compute. split; reflexivity. Qed.
