(* ===== verification/Throttler.v ===== *)
(** Rate limits: [internal/throttler].

    Every method is one critical section; the time it reads is an argument.  A slice expression out of
    range panics: the outcome is then [Panics], and the lock is released by its deferred call. *)
From Stdlib Require Import SpecFloat.
From S2P Require Import Prelude Errors Float64.
Local Open Scope Z_scope.

(** * [types.go] *)

Abbreviation SInvalidQuotaConfig := (SOther "throttler: invalid rate limit quota configuration").
Abbreviation SQuotaNotFound := (SOther "throttler: quota key not found").

Record ThrottleConfig := MkThrottle {
  tc_QuotaKey : string;
  tc_RateLimit : Z;
  tc_Window : Duration;
  tc_BurstLimit : Z
}.

(** The receiver is a copy, so that the assignment to [BurstLimit] at the end has no effect. *)
Definition Validate (c : ThrottleConfig) : option error :=
  if bool_decide (tc_QuotaKey c = "") then
    Some (EWrap "%w: quota key must not be empty" [] (ESentinel SInvalidQuotaConfig))
  else if tc_RateLimit c <=? 0 then
    Some (EWrap "%w: rate limit must be positive" [] (ESentinel SInvalidQuotaConfig))
  else if tc_Window c <=? 0 then
    Some (EWrap "%w: window duration must be positive" [] (ESentinel SInvalidQuotaConfig))
  else None.

Record Decision := MkDecision {
  de_Allowed : bool;
  de_Remaining : Z;
  de_ResetAfter : Duration;
  de_WaitDuration : Duration
}.

(** * [sliding_log.go] *)

Record logEntry := MkLog { le_timestamps : list Time; le_config : ThrottleConfig }.
Abbreviation SlidingLogThrottler := (gmap string logEntry).

Definition NewSlidingLogThrottler : SlidingLogThrottler := ∅.

Definition SetQuota (cfg : ThrottleConfig) (t : SlidingLogThrottler) : option error * SlidingLogThrottler :=
  match Validate cfg with
  | Some err => (Some err, t)
  | None =>
      match t !! tc_QuotaKey cfg with
      | None => (None, <[tc_QuotaKey cfg := MkLog [] cfg]> t)
      | Some entry => (None, <[tc_QuotaKey cfg := MkLog (le_timestamps entry) cfg]> t)
      end
  end.

Definition GetQuota (key : string) (t : SlidingLogThrottler) : option ThrottleConfig := le_config <$> t !! key.

(** The loop that drops the entries before the cutoff from the front of a log. *)
Fixpoint purge (cutoff : Time) (log : list Time) : list Time :=
  match log with
  | [] => []
  | t :: log' => if time_before t cutoff then purge cutoff log' else log
  end.

Definition AllowN (key : string) (n : Z) (now : Time) (t : SlidingLogThrottler) :
    outcome (result error Decision) * SlidingLogThrottler :=
  if n <=? 0 then (Returns (Ok (MkDecision true 0 0 0)), t)
  else
    match t !! key with
    | None => (Returns (Err (EWrap "%w: %s" [key] (ESentinel SQuotaNotFound))), t)
    | Some entry =>
        let window := tc_Window (le_config entry) in
        let timestamps := purge (time_add now (- window)) (le_timestamps entry) in
        let currentCount := Z.of_nat (length timestamps) in
        let capacity := tc_RateLimit (le_config entry) in
        if wrap_s 64 (currentCount + n) <=? capacity then
          let timestamps := timestamps ++ replicate (Z.to_nat n) now in
          let remaining := capacity - (currentCount + n) in
          let resetAfter :=
            match timestamps with
            | [] => 0
            | oldest :: _ => Z.max 0 (window - time_sub now oldest)
            end in
          (Returns (Ok (MkDecision true remaining resetAfter 0)), <[key := MkLog timestamps (le_config entry)]> t)
        else
          let t := <[key := MkLog timestamps (le_config entry)]> t in
          match timestamps with
          | [] => (Panics, t)
          | oldest :: _ =>
              let waitDuration := Z.max millisecond (window - time_sub now oldest) in
              (Returns (Ok (MkDecision false 0 waitDuration waitDuration)), t)
          end
    end.

Definition Allow (key : string) (now : Time) (t : SlidingLogThrottler) :
    outcome (result error Decision) * SlidingLogThrottler :=
  AllowN key 1 now t.

(** * [burst.go] *)

Record BurstSmootherConfig := MkBurstConfig {
  bc_QuotaKey : string;
  bc_MacroRate : Z;
  bc_MacroWindow : Duration;
  bc_MicroBurstRate : Z;
  bc_MicroWindow : Duration
}.

Record BurstSmoother := MkSmoother {
  bs_cfg : BurstSmootherConfig;
  bs_macroLog : list Time;
  bs_microLog : list Time
}.

Definition NewBurstSmoother (cfg : BurstSmootherConfig) : result error BurstSmoother :=
  if (bc_MacroRate cfg <=? 0) || (bc_MicroBurstRate cfg <=? 0) then
    Err (EWrap "%w: rates must be positive" [] (ESentinel SInvalidQuotaConfig))
  else if (bc_MacroWindow cfg <=? 0) || (bc_MicroWindow cfg <=? 0) then
    Err (EWrap "%w: windows must be positive" [] (ESentinel SInvalidQuotaConfig))
  else if bc_MacroWindow cfg <=? bc_MicroWindow cfg then
    Err (EWrap "%w: micro window must be strictly smaller than macro window" [] (ESentinel SInvalidQuotaConfig))
  else Ok (MkSmoother cfg [] []).

(** The wait that a full log asks for; [log[0]] panics on an empty one. *)
Definition refuse (window : Duration) (log : list Time) (now : Time) : outcome Decision :=
  match log with
  | [] => Panics
  | oldest :: _ => let wait := window - time_sub now oldest in Returns (MkDecision false 0 wait wait)
  end.

Definition Burst_Allow (now : Time) (b : BurstSmoother) : outcome Decision * BurstSmoother :=
  let cfg := bs_cfg b in
  let macroLog := purge (time_add now (- bc_MacroWindow cfg)) (bs_macroLog b) in
  let microLog := purge (time_add now (- bc_MicroWindow cfg)) (bs_microLog b) in
  let b := MkSmoother cfg macroLog microLog in
  if bc_MacroRate cfg <=? Z.of_nat (length macroLog) then (refuse (bc_MacroWindow cfg) macroLog now, b)
  else if bc_MicroBurstRate cfg <=? Z.of_nat (length microLog) then (refuse (bc_MicroWindow cfg) microLog now, b)
  else
    let macroLog := macroLog ++ [now] in
    let microLog := microLog ++ [now] in
    let remMacro := bc_MacroRate cfg - Z.of_nat (length macroLog) in
    let remMicro := bc_MicroBurstRate cfg - Z.of_nat (length microLog) in
    (Returns (MkDecision true (Z.min remMacro remMicro) 0 0), MkSmoother cfg macroLog microLog).

Definition EstimateWait (queuedAhead : Z) (b : BurstSmoother) : Duration :=
  if queuedAhead <=? 0 then 0
  else
    let nsPerOp := f64_div (f64_of_Z (bc_MacroWindow (bs_cfg b))) (f64_of_Z (bc_MacroRate (bs_cfg b))) in
    int64_of_f64 (f64_mul (f64_of_Z queuedAhead) nsPerOp).

(** * [ring_log.go] *)

Record CompressedTimestampRing := MkTsRing {
  tr_baseTime : Time;
  tr_ring : list Z;
  tr_head : nat;
  tr_tail : nat;
  tr_size : nat;
  tr_capacity : nat
}.

Definition NewCompressedTimestampRing (capacity : Z) (now : Time) : CompressedTimestampRing :=
  let capacity := Z.to_nat (if capacity <=? 0 then 1024 else capacity) in
  MkTsRing now (replicate capacity 0) 0 0 0 capacity.

(** [int32(d.Milliseconds())] *)
Definition millis32 (d : Duration) : Z := wrap_s 32 (Z.quot d millisecond).

Definition Push (t : Time) (r : CompressedTimestampRing) : CompressedTimestampRing :=
  let offset := millis32 (time_sub t (tr_baseTime r)) in
  let '(tail, size) :=
    if bool_decide (tr_size r = tr_capacity r) then (((tr_tail r + 1) mod tr_capacity r)%nat, (tr_size r - 1)%nat)
    else (tr_tail r, tr_size r) in
  MkTsRing (tr_baseTime r) (<[tr_head r := offset]> (tr_ring r)) ((tr_head r + 1) mod tr_capacity r)%nat tail
    (size + 1)%nat (tr_capacity r).

(** The loop over [i] more entries from [idx] on; the counter and the oldest value found. *)
Fixpoint count_loop (ring : list Z) (capacity : nat) (cutoffOffset : Z) (i idx : nat) (validCount : nat)
    (oldestVal : option Z) : nat * option Z :=
  match i with
  | O => (validCount, oldestVal)
  | S i' =>
      let val := default 0 (ring !! idx) in
      let '(validCount, oldestVal) :=
        if cutoffOffset <=? val then (S validCount, Some (default val oldestVal)) else (validCount, oldestVal) in
      count_loop ring capacity cutoffOffset i' ((idx + 1) mod capacity)%nat validCount oldestVal
  end.

Definition CountWithinWindow (now : Time) (window : Duration) (r : CompressedTimestampRing) : nat * Duration :=
  if bool_decide (tr_size r = 0%nat) then (0%nat, 0)
  else
    let nowOffset := millis32 (time_sub now (tr_baseTime r)) in
    let cutoffOffset := wrap_s 32 (nowOffset - millis32 window) in
    let '(validCount, oldestVal) := count_loop (tr_ring r) (tr_capacity r) cutoffOffset (tr_size r) (tr_tail r) 0 None in
    (validCount, match oldestVal with
                 | Some v => wrap_s 32 (nowOffset - v) * millisecond
                 | None => 0
                 end).

Definition Len (r : CompressedTimestampRing) : nat := tr_size r.

(** * [autotuner.go] *)

Record AutoTuner := MkTuner {
  at_throttler : SlidingLogThrottler;
  at_baseRates : gmap string Z;
  at_effectiveRates : gmap string Z;
  at_successCounts : gmap string Z;
  at_coolOffUntil : gmap string Time;
  at_decreaseFactor : float64;
  at_minRate : Z;
  at_probeInterval : Z
}.

Definition f64_half : float64 := f64_div (f64_of_Z 1) (f64_of_Z 2).

Definition NewAutoTuner (t : SlidingLogThrottler) (minRate : Z) (decreaseFactor : float64) : AutoTuner :=
  let minRate := if minRate <=? 0 then 1 else minRate in
  let decreaseFactor :=
    if f64_leb decreaseFactor f64_zero || f64_leb (f64_of_Z 1) decreaseFactor then f64_half else decreaseFactor in
  MkTuner t ∅ ∅ ∅ ∅ decreaseFactor minRate 20.

Definition RegisterBaseQuota (cfg : ThrottleConfig) (a : AutoTuner) : option error * AutoTuner :=
  let '(err, t) := SetQuota cfg (at_throttler a) in
  (err, MkTuner t (<[tc_QuotaKey cfg := tc_RateLimit cfg]> (at_baseRates a))
          (<[tc_QuotaKey cfg := tc_RateLimit cfg]> (at_effectiveRates a)) (at_successCounts a) (at_coolOffUntil a)
          (at_decreaseFactor a) (at_minRate a) (at_probeInterval a)).

(** [int(math.Floor(f))]; a value out of range is left to the machine. *)
Definition floor_int (f : float64) : Z :=
  match f with
  | S754_finite true m e =>
      let z := if 0 <=? e then - (Z.pos m * 2 ^ e) else - Z.pos m / 2 ^ (- e) in
      if min_int64 <=? z then z else min_int64
  | _ => int64_of_f64 f
  end.

(** The quota of the throttler is read, changed and set again. *)
Definition retune (key : string) (newRate : Z) (t : SlidingLogThrottler) : SlidingLogThrottler :=
  match GetQuota key t with
  | Some cfg => (SetQuota (MkThrottle (tc_QuotaKey cfg) newRate (tc_Window cfg) (tc_BurstLimit cfg)) t).2
  | None => t
  end.

Definition RecordFailure (key : string) (statusCode : Z) (retryAfter : Duration) (now : Time) (a : AutoTuner) : AutoTuner :=
  if negb (statusCode =? 429) && negb (statusCode =? 503) then a
  else
    match at_baseRates a !! key with
    | None => a
    | Some _ =>
        let current := default 0 (at_effectiveRates a !! key) in
        let newRate := Z.max (at_minRate a) (floor_int (f64_mul (f64_of_Z current) (at_decreaseFactor a))) in
        let coolOffUntil :=
          if 0 <? retryAfter then <[key := time_add now retryAfter]> (at_coolOffUntil a) else at_coolOffUntil a in
        MkTuner (retune key newRate (at_throttler a)) (at_baseRates a) (<[key := newRate]> (at_effectiveRates a))
          (<[key := 0]> (at_successCounts a)) coolOffUntil (at_decreaseFactor a) (at_minRate a) (at_probeInterval a)
    end.

Definition RecordSuccess (key : string) (a : AutoTuner) : AutoTuner :=
  match at_baseRates a !! key with
  | None => a
  | Some base =>
      let current := default 0 (at_effectiveRates a !! key) in
      if base <=? current then a
      else
        let successes := default 0 (at_successCounts a !! key) + 1 in
        if at_probeInterval a <=? successes then
          let newRate := Z.min base (current + 1) in
          MkTuner (retune key newRate (at_throttler a)) (at_baseRates a) (<[key := newRate]> (at_effectiveRates a))
            (<[key := 0]> (at_successCounts a)) (at_coolOffUntil a) (at_decreaseFactor a) (at_minRate a)
            (at_probeInterval a)
        else
          MkTuner (at_throttler a) (at_baseRates a) (at_effectiveRates a) (<[key := successes]> (at_successCounts a))
            (at_coolOffUntil a) (at_decreaseFactor a) (at_minRate a) (at_probeInterval a)
  end.

Definition EffectiveRate (key : string) (a : AutoTuner) : Z := default 0 (at_effectiveRates a !! key).

Definition IsCoolingOff (key : string) (now : Time) (a : AutoTuner) : bool :=
  match at_coolOffUntil a !! key with
  | None => false
  | Some deadline => time_before now deadline
  end.

(** * Theorems

    What the rate limiters admit ([internal/throttler]). *)

(** * Logs of admitted operations *)

(** How many of the admitted operations fall into the closed window of length [w] that begins at [x]. *)
Definition in_window (x w : Z) (admitted : list Time) : nat :=
  length (filter (λ a, x <= a <= x + w) admitted).
Definition since (x : Z) (admitted : list Time) : list Time := filter (λ a, x <= a) admitted.

(** [log] is what a log with window [w] and limit [limit] holds at time [now], when [admitted] are the
    operations so far. *)
Record tracks (w limit now : Z) (admitted log : list Time) : Prop := {
  tr_sorted : StronglySorted Z.le admitted;
  tr_past : Forall (λ a, a <= now) admitted;
  tr_log : log = since (now - w) admitted;
  tr_bound : ∀ x, Z.of_nat (in_window x w admitted) <= limit
}.

Lemma since_all x l : Forall (λ a, x <= a) l → since x l = l.
Proof. unfold since. induction 1 as [|a l Ha _ IH]; [done|]. rewrite filter_cons_True by done. by rewrite IH. Qed.

Lemma purge_since cutoff l : StronglySorted Z.le l → purge cutoff l = since cutoff l.
Proof.
  induction 1 as [|a l _ IH Ha]; [done|]. cbn [purge]. unfold time_before. destruct (Z.ltb_spec a cutoff) as [Hlt|Hge].
  - unfold since. rewrite filter_cons_False by lia. exact IH.
  - symmetry. apply since_all. constructor; [done|]. eapply Forall_impl; [exact Ha|]. intros b Hb. cbn in Hb. lia.
Qed.

Lemma since_since x y l : x <= y → since y (since x l) = since y l.
Proof. intros Hxy. unfold since. rewrite list_filter_filter. apply list_filter_iff. intros a. lia. Qed.

Lemma since_sorted x l : StronglySorted Z.le l → StronglySorted Z.le (since x l).
Proof.
  unfold since. induction 1 as [|a l _ IH Ha]; [constructor|]. destruct (decide (x <= a)).
  - rewrite filter_cons_True by done. constructor; [done|]. apply Forall_forall. intros b [_ Hb]%list_elem_of_filter.
    rewrite Forall_forall in Ha. by apply Ha.
  - by rewrite filter_cons_False.
Qed.

Lemma length_filter_le {A} (P Q : A → Prop) `{∀ x, base.Decision (P x), ∀ x, base.Decision (Q x)} (l : list A) :
  (∀ x, x ∈ l → P x → Q x) → (length (filter P l) <= length (filter Q l))%nat.
Proof.
  induction l as [|a l IH]; intros HPQ; [done|].
  assert (length (filter P l) <= length (filter Q l))%nat by (apply IH; intros x Hx; apply HPQ; by right).
  destruct (decide (P a)) as [Ha|Ha].
  - rewrite (filter_cons_True P), (filter_cons_True Q) by (done || by apply HPQ; [left|]). cbn [length]. lia.
  - rewrite (filter_cons_False P) by done. destruct (decide (Q a)).
    + rewrite filter_cons_True by done. cbn [length]. lia.
    + by rewrite filter_cons_False.
Qed.

Lemma in_window_snoc x w l n t :
  in_window x w (l ++ replicate n t) = (in_window x w l + (if decide (x <= t <= x + w)%Z then n else 0))%nat.
Proof.
  unfold in_window. rewrite filter_app, length_app. f_equal. induction n as [|n IH]; [by case_decide|].
  cbn [replicate]. case_decide as Hd.
  - rewrite filter_cons_True by done. cbn [length]. by rewrite IH.
  - by rewrite filter_cons_False.
Qed.

Lemma in_window_since x w t l :
  t <= x + w → (in_window x w l <= length (since (t - w) l))%nat.
Proof. intros Ht. apply length_filter_le. lia. Qed.

Section tracking.
Context (w limit now t : Z) (admitted log : list Time).
Context (Hw : 0 <= w) (Ht : now <= t) (Htr : tracks w limit now admitted log).

Lemma tracks_purge : purge (time_add t (- w)) log = since (t - w) admitted.
Proof using Ht Htr.
  destruct Htr as [Hs _ -> _]. unfold time_add. rewrite purge_since by by apply since_sorted.
  replace (t + - w) with (t - w) by lia. apply since_since. lia.
Qed.

Lemma tracks_refuse : tracks w limit t admitted (since (t - w) admitted).
Proof using Ht Htr.
  destruct Htr as [Hs Hp _ Hb]. split; [done| |done|done]. eapply Forall_impl; [exact Hp|]. cbn. lia.
Qed.

Lemma tracks_admit n :
  Z.of_nat (length (since (t - w) admitted)) + Z.of_nat n <= limit →
  tracks w limit t (admitted ++ replicate n t) (since (t - w) admitted ++ replicate n t).
Proof using Hw Ht Htr.
  intros Hn. destruct Htr as [Hs Hp _ Hb].
  assert (Forall (λ a, a <= t) admitted) as Hpt by (eapply Forall_impl; [exact Hp|]; cbn; lia).
  split.
  - apply StronglySorted_app. split; [|split].
    + intros a b Ha [-> _]%elem_of_replicate. rewrite Forall_forall in Hpt. by apply Hpt.
    + done.
    + clear. induction n as [|n IH]; cbn; constructor; [done|]. apply Forall_replicate. lia.
  - apply Forall_app. split; [done|]. apply Forall_replicate. lia.
  - unfold since. rewrite filter_app. f_equal. symmetry. apply since_all. apply Forall_replicate. lia.
  - intros x. rewrite in_window_snoc. case_decide as Hx; [|specialize (Hb x); lia].
    pose proof (in_window_since x w t admitted). lia.
Qed.
End tracking.

Lemma tracks_count w limit now t admitted log :
  tracks w limit now admitted log → now <= t → in_window (t - w) w admitted = length (since (t - w) admitted).
Proof.
  intros [_ Hp _ _] Ht. unfold in_window, since. f_equal. clear -Hp Ht.
  induction Hp as [|a l Ha _ IH]; [done|]. destruct (decide (t - w <= a)).
  - rewrite !filter_cons_True by lia. by rewrite IH.
  - by rewrite !filter_cons_False by lia.
Qed.

(** Calls in order begin at some time. *)
Lemma first_call now times :
  StronglySorted Z.le times → Forall (λ t, t <= now) times →
  ∃ start, start <= now ∧ StronglySorted Z.le (start :: times).
Proof.
  intros Hsort Hnow. destruct times as [|t ts]; [exists now; split; [lia|by repeat constructor]|].
  exists t. apply Forall_cons in Hnow as [Hn1 _]. split; [done|]. constructor; [done|].
  apply StronglySorted_inv in Hsort as [_ Ht]. constructor; [lia|done].
Qed.

(** * The sliding log *)

Inductive th_op :=
  | OpAllow (key : string) (n : Z)
  | OpQuota (cfg : ThrottleConfig).

Definition allowed (r : outcome (result error Decision)) : bool :=
  match r with
  | Returns (Ok d) => de_Allowed d
  | _ => false
  end.

(** A call at a time, and the operations of [key] that have been admitted so far. *)
Definition th_step (key : string) (s : SlidingLogThrottler * list Time) (op : Time * th_op) :
    SlidingLogThrottler * list Time :=
  let '(now, op) := op in
  match op with
  | OpAllow k n =>
      let '(r, t) := AllowN k n now s.1 in
      (t, if bool_decide (k = key) && allowed r then s.2 ++ replicate (Z.to_nat n) now else s.2)
  | OpQuota cfg => ((SetQuota cfg s.1).2, s.2)
  end.

Section sliding.
Context (cfg : ThrottleConfig).
Abbreviation key := (tc_QuotaKey cfg).
Abbreviation w := (tc_Window cfg).
Abbreviation limit := (tc_RateLimit cfg).
Context (Hvalid : Validate cfg = None).

Lemma Validate_None : key ≠ "" ∧ 0 < limit ∧ 0 < w.
Proof using Hvalid.
  unfold Validate in Hvalid. case_bool_decide; [done|].
  destruct (Z.leb_spec limit 0); [done|]. destruct (Z.leb_spec w 0); [done|]. auto.
Qed.

Definition holds (now : Z) (s : SlidingLogThrottler * list Time) : Prop :=
  ∃ log, s.1 !! key = Some (MkLog log cfg) ∧ tracks w limit now s.2 log.

(** The sum of the limit and a request for [n] operations is an [int], and the quota stays what it is:
    another one for the key is refused. *)
Definition fits_int (n : Z) : Prop := limit + n < 2 ^ 63.
Definition op_ok (op : Time * th_op) : Prop :=
  match op.2 with
  | OpAllow k n => k = key → fits_int n
  | OpQuota c => tc_QuotaKey c = key → c = cfg ∨ Validate c ≠ None
  end.

(** What a call does to the log of its key. *)
Lemma AllowN_spec now t n s :
  holds now s → now <= t → 0 < n → fits_int n →
  let '(r, s') := AllowN key n t s.1 in
  if decide (Z.of_nat (in_window (t - w) w s.2) + n <= limit) then
    allowed r = true ∧ holds t (s', s.2 ++ replicate (Z.to_nat n) t)
  else
    allowed r = false ∧ holds t (s', s.2) ∧
    match r with
    | Panics => in_window (t - w) w s.2 = 0%nat
    | Returns (Err _) => False
    | Returns (Ok _) => in_window (t - w) w s.2 ≠ 0%nat
    end.
Proof using Hvalid.
  intros (log & Hk & Htr) Ht Hn Hfit. unfold fits_int in Hfit. destruct Validate_None as (_ & Hl & Hw). unfold AllowN.
  destruct (Z.leb_spec n 0); [lia|]. rewrite Hk. cbn [le_config le_timestamps].
  rewrite (tracks_purge w limit now t s.2 log Ht Htr), (tracks_count _ _ _ _ _ _ Htr Ht).
  set (count := length (since (t - w) s.2)).
  assert (Z.of_nat count <= limit) as Hc.
  { pose proof (tr_bound _ _ _ _ _ Htr (t - w)) as Hb. rewrite (tracks_count _ _ _ _ _ _ Htr Ht) in Hb. exact Hb. }
  rewrite wrap_s_small by lia. destruct (Z.leb_spec (Z.of_nat count + n) limit) as [Hle|Hgt].
  - cbv beta iota zeta. rewrite decide_True by done. split; [done|]. eexists. split; [apply lookup_insert_eq|]. cbn [snd].
    apply tracks_admit with now log; [lia|done|done|]. fold count. lia.
  - pose proof (tracks_refuse w limit now t s.2 log Ht Htr) as Htr'. unfold count in *.
    destruct (since (t - w) s.2) as [|oldest rest]; cbv beta iota zeta; rewrite decide_False by lia;
      (split; [done|]); (split; [eexists; split; [apply lookup_insert_eq|exact Htr']|done]).
Qed.

Lemma AllowN_other k n t (s : SlidingLogThrottler) : k ≠ key → (AllowN k n t s).2 !! key = s !! key.
Proof.
  intros Hk. unfold AllowN. repeat case_match; cbn [snd]; try done; by rewrite lookup_insert_ne.
Qed.

Lemma SetQuota_other c (s : SlidingLogThrottler) log :
  (tc_QuotaKey c = key → c = cfg ∨ Validate c ≠ None) → s !! key = Some (MkLog log cfg) →
  (SetQuota c s).2 !! key = Some (MkLog log cfg).
Proof.
  intros Hc Hs. unfold SetQuota. destruct (Validate c) eqn:Hv; [done|].
  destruct (decide (tc_QuotaKey c = key)) as [Hk|Hk].
  - destruct (Hc Hk) as [->|?]; [|done]. rewrite Hs. apply lookup_insert_eq.
  - destruct (s !! tc_QuotaKey c); cbn [snd]; by rewrite lookup_insert_ne.
Qed.

Lemma th_step_holds now s op : holds now s → now <= op.1 → op_ok op → ∃ now', now <= now' <= op.1 ∧ holds now' (th_step key s op).
Proof using Hvalid.
  intros Hs Ht Hop. destruct op as [t [k n|c]]; cbn [op_ok snd fst th_step] in *.
  - destruct (decide (k = key)) as [->|Hk].
    + destruct (Z.leb_spec n 0) as [Hn|Hn].
      * exists now. split; [lia|]. unfold AllowN. destruct (Z.leb_spec n 0); [|lia].
        rewrite bool_decide_eq_true_2 by done. cbn [andb allowed de_Allowed].
        replace (Z.to_nat n) with 0%nat by lia. rewrite app_nil_r. by destruct s.
      * exists t. split; [lia|]. pose proof (AllowN_spec now t n s Hs Ht ltac:(lia) (Hop eq_refl)) as H.
        destruct (AllowN key n t s.1) as [r s']. rewrite bool_decide_eq_true_2 by done.
        case_decide; [destruct H as [-> H]|destruct H as (-> & H & _)]; exact H.
    + exists now. split; [lia|]. pose proof (AllowN_other k n t s.1 Hk) as H.
      destruct (AllowN k n t s.1) as [r s']. rewrite bool_decide_eq_false_2 by done. cbn [andb snd] in *.
      destruct Hs as (log & Hl & Htr). exists log. cbn [fst snd]. by rewrite H.
  - exists now. split; [lia|]. destruct Hs as (log & Hl & Htr). exists log. cbn [fst snd]. split; [by apply SetQuota_other|done].
Qed.

Lemma th_run_holds ops now s :
  holds now s → StronglySorted Z.le (now :: ops.*1) → Forall op_ok ops →
  ∃ now', holds now' (foldl (th_step key) s ops) ∧ ∀ t, now <= t → Forall (λ o, o <= t) ops.*1 → now' <= t.
Proof using Hvalid.
  revert now s. induction ops as [|op ops IH]; intros now s Hs Hsort Hok.
  { exists now. split; [done|]. auto. }
  apply Forall_cons in Hok as [Hop Hok]. rewrite fmap_cons in Hsort.
  apply StronglySorted_inv in Hsort as [Hsort Hnow]. apply Forall_cons in Hnow as [Hle Hnow].
  destruct (th_step_holds now s op Hs Hle Hop) as (now1 & H1 & Hs1).
  apply StronglySorted_inv in Hsort as [Hsort Hop1].
  destruct (IH now1 (th_step key s op) Hs1) as (now2 & Hs2 & Hlast); [|done|].
  { constructor; [done|]. eapply Forall_impl; [exact Hop1|]. cbn. lia. }
  exists now2. split; [done|]. intros t Ht. rewrite fmap_cons. intros [Ho Hall]%Forall_cons. apply Hlast; [lia|done].
Qed.

Lemma holds_start now : holds now ((SetQuota cfg NewSlidingLogThrottler).2, []).
Proof using Hvalid.
  destruct Validate_None as (_ & Hl & Hw). exists []. unfold SetQuota, NewSlidingLogThrottler. rewrite Hvalid, lookup_empty. cbn [fst snd].
  split; [apply lookup_insert_eq|]. split; [constructor|constructor|done|]. intros x. cbn. lia.
Qed.
End sliding.

(** C14: The sliding log keeps its limit in every window, and refuses nothing that would.  Take any calls
    in order of their times, also on other keys and with quotas for them, that do not change the quota of
    the key and ask on it for numbers whose sum with the limit is an [int].  In no closed window of the
    length of the quota are more operations admitted than its limit.  A further such call panics exactly
    when it asks for more than the limit and the window that ends with it is empty; any other returns a
    decision, and is admitted exactly when what it asks for fits into that window. *)
Theorem sliding_window_exact cfg ops now n :
  Validate cfg = None → Forall (op_ok cfg) ops → StronglySorted Z.le ops.*1 → Forall (λ t, t <= now) ops.*1 →
  0 < n → fits_int cfg n →
  let '(t, admitted) := foldl (th_step (tc_QuotaKey cfg)) ((SetQuota cfg NewSlidingLogThrottler).2, []) ops in
  let count := in_window (now - tc_Window cfg) (tc_Window cfg) admitted in
  (∀ x, Z.of_nat (in_window x (tc_Window cfg) admitted) <= tc_RateLimit cfg) ∧
  if decide (count = 0%nat ∧ tc_RateLimit cfg < n) then (AllowN (tc_QuotaKey cfg) n now t).1 = Panics
  else ∃ d, (AllowN (tc_QuotaKey cfg) n now t).1 = Returns (Ok d) ∧
    (de_Allowed d = true ↔ Z.of_nat count + n <= tc_RateLimit cfg).
Proof.
  intros Hv Hok Hsort Hnow Hn Hfit.
  destruct (first_call now ops.*1 Hsort Hnow) as (start & Hstart & Hsort').
  destruct (th_run_holds cfg Hv ops start _ (holds_start cfg Hv start) Hsort' Hok) as (now' & Hs & Hlast).
  destruct (foldl _ _ _) as [t admitted]. specialize (Hlast now Hstart Hnow).
  pose proof (AllowN_spec cfg Hv now' now n (t, admitted) Hs Hlast Hn Hfit) as H. cbn [fst snd] in H.
  destruct (AllowN _ n now t) as [r t']. cbn [fst].
  split; [destruct Hs as (log & _ & Htr); apply Htr|]. set (count := in_window _ _ admitted) in *. cbv zeta.
  destruct (decide (Z.of_nat count + n <= tc_RateLimit cfg)) as [Hd|Hd].
  - destruct H as [Ha _]. rewrite decide_False by lia. destruct r as [[d|e]|]; cbn [allowed] in Ha; [|done|done].
    exists d. by rewrite Ha.
  - destruct H as (Ha & _ & Hr). destruct r as [[d|e]|]; cbn [allowed] in Ha; [|done|].
    + rewrite decide_False by lia. exists d. rewrite Ha. split; [done|]. split; [done|lia].
    + by rewrite decide_True by lia.
Qed.

(** A request that is so large that its sum with the logged operations overflows passes the test; the code
    then sets out to log it. *)
Theorem overflow_admits key n now (t : SlidingLogThrottler) entry :
  t !! key = Some entry → 0 <= tc_RateLimit (le_config entry) →
  2 ^ 63 <= Z.of_nat (length (purge (time_add now (- tc_Window (le_config entry))) (le_timestamps entry))) + n < 2 ^ 64 →
  0 < n → allowed (AllowN key n now t).1 = true.
Proof.
  intros Hk Hl Hsum Hn. unfold AllowN. destruct (Z.leb_spec n 0); [lia|]. rewrite Hk. cbv zeta.
  set (count := Z.of_nat (length (purge _ _))) in *.
  assert (wrap_s 64 (count + n) = count + n - 2 ^ 64) as ->; [|by destruct (Z.leb_spec (count + n - 2 ^ 64) (tc_RateLimit (le_config entry))); [|lia]].
  unfold wrap_s. change (2 ^ (64 - 1)) with (2 ^ 63) in *.
  replace (count + n + 2 ^ 63) with (count + n - 2 ^ 63 + 1 * 2 ^ 64) by lia. rewrite Z_mod_plus_full, Z.mod_small; lia.
Qed.

Definition ex_quota : ThrottleConfig := MkThrottle "k" 2 1000 2.

Definition ex_calls : list (Time * th_op) :=
  [(100, OpAllow "k" 1); (100, OpQuota (MkThrottle "other" 5 10 5)); (500, OpAllow "k" 1); (600, OpAllow "k" 1);
   (700, OpQuota ex_quota)].

Lemma ex_calls_ok : Forall (op_ok ex_quota) ex_calls.
Proof. repeat constructor; cbn; try done; by left. Qed.

Lemma sliding_window_exact_witness :
  let '(t, admitted) := foldl (th_step "k") ((SetQuota ex_quota NewSlidingLogThrottler).2, []) ex_calls in
  admitted = [100; 500] ∧ (AllowN "k" 3 9000 t).1 = Panics.
Proof.
  pose proof (sliding_window_exact ex_quota ex_calls 9000 3 eq_refl ex_calls_ok ltac:(repeat constructor; done)
    ltac:(repeat constructor; done) eq_refl eq_refl) as H.
  split; [vm_compute; reflexivity|]. exact (proj2 H).
Defined.

(** * Bursts *)

Definition burst_allowed (r : outcome Decision) : bool :=
  match r with
  | Returns d => de_Allowed d
  | Panics => false
  end.

Definition burst_step (s : BurstSmoother * list Time) (now : Time) : BurstSmoother * list Time :=
  let '(r, b) := Burst_Allow now s.1 in (b, if burst_allowed r then s.2 ++ [now] else s.2).

Section burst.
Context (cfg : BurstSmootherConfig).
Context (Hrates : 0 < bc_MacroRate cfg ∧ 0 < bc_MicroBurstRate cfg).
Context (Hwindows : 0 < bc_MacroWindow cfg ∧ 0 < bc_MicroWindow cfg).

Definition smooth (now : Z) (s : BurstSmoother * list Time) : Prop :=
  bs_cfg s.1 = cfg ∧
  tracks (bc_MacroWindow cfg) (bc_MacroRate cfg) now s.2 (bs_macroLog s.1) ∧
  tracks (bc_MicroWindow cfg) (bc_MicroBurstRate cfg) now s.2 (bs_microLog s.1).

Definition macro_count (t : Z) (admitted : list Time) : nat :=
  in_window (t - bc_MacroWindow cfg) (bc_MacroWindow cfg) admitted.
Definition micro_count (t : Z) (admitted : list Time) : nat :=
  in_window (t - bc_MicroWindow cfg) (bc_MicroWindow cfg) admitted.

Lemma Burst_Allow_spec now t s :
  smooth now s → now <= t →
  smooth t (burst_step s t) ∧
  match (Burst_Allow t s.1).1 with
  | Returns d =>
      de_Allowed d = true ↔
      Z.of_nat (macro_count t s.2) < bc_MacroRate cfg ∧ Z.of_nat (micro_count t s.2) < bc_MicroBurstRate cfg
  | Panics => False
  end.
Proof using Hrates Hwindows.
  destruct Hrates as [Hr1 Hr2], Hwindows as [Hw1 Hw2]. intros (Hcfg & Hmac & Hmic) Ht.
  unfold burst_step, Burst_Allow, macro_count, micro_count. rewrite Hcfg.
  rewrite (tracks_purge _ _ _ _ _ _ Ht Hmac), (tracks_purge _ _ _ _ _ _ Ht Hmic).
  rewrite (tracks_count _ _ _ _ _ _ Hmac Ht), (tracks_count _ _ _ _ _ _ Hmic Ht).
  pose proof (tracks_refuse _ _ _ _ _ _ Ht Hmac) as Hmac'. pose proof (tracks_refuse _ _ _ _ _ _ Ht Hmic) as Hmic'.
  destruct (Z.leb_spec (bc_MacroRate cfg) (Z.of_nat (length (since (t - bc_MacroWindow cfg) s.2)))) as [H1|H1].
  { destruct (since (t - bc_MacroWindow cfg) s.2) as [|o l]; [cbn in H1; lia|]. cbn [refuse fst].
    split; [by split|]. cbn [de_Allowed]. split; [done|lia]. }
  destruct (Z.leb_spec (bc_MicroBurstRate cfg) (Z.of_nat (length (since (t - bc_MicroWindow cfg) s.2)))) as [H2|H2].
  { destruct (since (t - bc_MicroWindow cfg) s.2) as [|o l]; [cbn in H2; lia|]. cbn [refuse fst].
    split; [by split|]. cbn [de_Allowed]. split; [done|lia]. }
  cbn [fst burst_allowed de_Allowed]. split; [|split; [done|done]]. split; [done|].
  split; [apply (tracks_admit (bc_MacroWindow cfg) (bc_MacroRate cfg) now t s.2 _ ltac:(lia) Ht Hmac 1); lia|
          apply (tracks_admit (bc_MicroWindow cfg) (bc_MicroBurstRate cfg) now t s.2 _ ltac:(lia) Ht Hmic 1); lia].
Qed.

Lemma burst_run_smooth times now s :
  smooth now s → StronglySorted Z.le (now :: times) →
  ∃ now', smooth now' (foldl burst_step s times) ∧ ∀ t, now <= t → Forall (λ o, o <= t) times → now' <= t.
Proof using Hrates Hwindows.
  revert now s. induction times as [|t times IH]; intros now s Hs Hsort; [by exists now; auto|].
  apply StronglySorted_inv in Hsort as [Hsort Hnow]. apply Forall_cons in Hnow as [Hle _].
  destruct (Burst_Allow_spec now t s Hs Hle) as [Hs1 _].
  destruct (IH t _ Hs1 Hsort) as (now' & Hs2 & Hlast). exists now'. split; [done|].
  intros u Hu [Ho Hall]%Forall_cons. by apply Hlast.
Qed.
End burst.

(** The smoother keeps both of its limits.  After any calls in order of their times, no window of the
    macro length has more admitted operations than the macro rate, and none of the micro length more than
    the burst rate; the next call is admitted exactly when one more fits into both windows that end with
    it, and never panics. *)
Theorem burst_smoothed cfg b times now :
  NewBurstSmoother cfg = Ok b → StronglySorted Z.le times → Forall (λ t, t <= now) times →
  let '(b', admitted) := foldl burst_step (b, []) times in
  (∀ x, Z.of_nat (in_window x (bc_MacroWindow cfg) admitted) <= bc_MacroRate cfg) ∧
  (∀ x, Z.of_nat (in_window x (bc_MicroWindow cfg) admitted) <= bc_MicroBurstRate cfg) ∧
  match (Burst_Allow now b').1 with
  | Returns d =>
      de_Allowed d = true ↔
      Z.of_nat (macro_count cfg now admitted) < bc_MacroRate cfg ∧
      Z.of_nat (micro_count cfg now admitted) < bc_MicroBurstRate cfg
  | Panics => False
  end.
Proof.
  unfold NewBurstSmoother.
  destruct (Z.leb_spec (bc_MacroRate cfg) 0), (Z.leb_spec (bc_MicroBurstRate cfg) 0); try done.
  destruct (Z.leb_spec (bc_MacroWindow cfg) 0), (Z.leb_spec (bc_MicroWindow cfg) 0); try done.
  cbn [orb]. destruct (_ <=? _); [done|]. intros [= <-] Hsort Hnow.
  destruct (first_call now times Hsort Hnow) as (start & Hstart & Hsort').
  destruct (burst_run_smooth cfg ltac:(lia) ltac:(lia) times start (MkSmoother cfg [] [], [])) as (now' & Hs & Hlast); [|done|].
  { split; [done|]. split; (split; [constructor|constructor|done|intros x; cbn; lia]). }
  destruct (foldl _ _ _) as [b' admitted]. specialize (Hlast now Hstart Hnow).
  destruct (Burst_Allow_spec cfg ltac:(lia) ltac:(lia) now' now _ Hs Hlast) as [_ Hd]. split; [apply Hs|]. split; [apply Hs|]. exact Hd.
Qed.

Definition ex_burst : BurstSmootherConfig := MkBurstConfig "k" 3 1000 2 50.

Lemma burst_smoothed_witness :
  let '(b', admitted) := foldl burst_step (MkSmoother ex_burst [] [], []) [10; 20; 30; 400] in
  admitted = [10; 20; 400] ∧
  match (Burst_Allow 1005 b').1 with
  | Returns d => de_Allowed d = true ↔ False
  | Panics => False
  end.
Proof.
  pose proof (burst_smoothed ex_burst (MkSmoother ex_burst [] []) [10; 20; 30; 400] 1005 eq_refl
    ltac:(repeat constructor; done) ltac:(repeat constructor; done)) as H.
  vm_compute in H. vm_compute. split; [reflexivity|]. destruct H as (_ & _ & H). split; [|done].
  intros E. apply H in E as [E _]. discriminate.
Defined.

(** * The ring of timestamps *)

Definition offset_of (base t : Time) : Z := millis32 (time_sub t base).

(** The ring holds the last [capacity] offsets. *)
Record ring_holds (offsets : list Z) (r : CompressedTimestampRing) : Prop := {
  rh_pos : (0 < tr_capacity r)%nat;
  rh_length : length (tr_ring r) = tr_capacity r;
  rh_size : tr_size r = (length offsets `min` tr_capacity r)%nat;
  rh_head : tr_head r = (length offsets mod tr_capacity r)%nat;
  rh_tail : tr_tail r = ((length offsets - tr_size r) mod tr_capacity r)%nat;
  rh_data : ∀ j, (length offsets - tr_size r <= j < length offsets)%nat →
    tr_ring r !! (j mod tr_capacity r)%nat = offsets !! j
}.

Lemma mod_inj_range (a i j cap : nat) :
  (0 < cap)%nat → (a <= i < a + cap)%nat → (a <= j < a + cap)%nat → (i mod cap = j mod cap)%nat → i = j.
Proof.
  intros Hc Hi Hj E. pose proof (Nat.div_mod_eq i cap). pose proof (Nat.div_mod_eq j cap).
  assert (i / cap = j / cap ∨ i / cap < j / cap ∨ j / cap < i / cap)%nat as [Hq|[Hq|Hq]] by lia; [nia|nia|nia].
Qed.

Lemma Push_holds t offsets r :
  ring_holds offsets r → ring_holds (offsets ++ [offset_of (tr_baseTime r) t]) (Push t r).
Proof.
  intros [H1 H2 H3 H4 H5 H6]. set (o := offset_of (tr_baseTime r) t). set (n := length offsets) in *.
  assert (length (offsets ++ [o]) = S n) as Hn by (rewrite length_app; cbn; lia).
  assert (tr_size (Push t r) = (S n `min` tr_capacity r)%nat) as Hsz.
  { unfold Push. case_bool_decide as E; cbn [tr_size]; lia. }
  assert (tr_capacity (Push t r) = tr_capacity r) as Hcap by (unfold Push; by case_bool_decide).
  assert (tr_ring (Push t r) = <[tr_head r := o]> (tr_ring r)) as Hring by (unfold Push; by case_bool_decide).
  split; rewrite ?Hcap, ?Hn, ?Hsz, ?Hring.
  - done.
  - by rewrite length_insert.
  - done.
  - unfold Push. assert (S n mod tr_capacity r = (tr_head r + 1) mod tr_capacity r)%nat as ->; [|by case_bool_decide].
    rewrite H4, Nat.Div0.add_mod_idemp_l. f_equal. lia.
  - unfold Push. case_bool_decide as E; cbn [tr_tail].
    + rewrite H5, Nat.Div0.add_mod_idemp_l. f_equal. lia.
    + rewrite H5. f_equal. lia.
  - intros j Hj. rewrite H4. destruct (decide (j = n)) as [->|Hne].
    + rewrite list_lookup_insert_eq by (rewrite H2; apply Nat.mod_upper_bound; lia).
      rewrite lookup_app_r by done. fold n. by rewrite Nat.sub_diag.
    + rewrite list_lookup_insert_ne.
      * rewrite lookup_app_l by lia. apply H6. lia.
      * intros E. apply Hne, (mod_inj_range (S n - tr_capacity r) j n (tr_capacity r)); [done|lia|lia|done].
Qed.

Lemma count_loop_spec ring cap cutoff i idx v o (l : list Z) :
  (0 < cap)%nat → length l = i → (∀ j, (j < i)%nat → ring !! ((idx + j) mod cap)%nat = l !! j) → (idx < cap)%nat →
  count_loop ring cap cutoff i idx v o =
  ((v + length (filter (λ x, (cutoff <= x)%Z) l))%nat,
   match o with Some x => Some x | None => head (filter (λ x, cutoff <= x) l) end).
Proof.
  intros Hc. revert idx v o l. induction i as [|i IH]; intros idx v o l Hl Hr Hidx.
  { apply nil_length_inv in Hl as ->. cbn. rewrite Nat.add_0_r. by destruct o. }
  destruct l as [|x l]; [done|]. cbn [count_loop].
  assert (ring !! idx = Some x) as Hx.
  { specialize (Hr 0%nat ltac:(lia)). rewrite Nat.add_0_r, Nat.mod_small in Hr by done. exact Hr. }
  assert (∀ j, (j < i)%nat → ring !! (((idx + 1) mod cap + j) mod cap)%nat = l !! j) as Hr'.
  { intros j Hj. rewrite Nat.Div0.add_mod_idemp_l. change (l !! j) with ((x :: l) !! S j). rewrite <- (Hr (S j)) by lia. do 2 f_equal. lia. }
  assert ((idx + 1) mod cap < cap)%nat as Hidx' by (apply Nat.mod_upper_bound; lia).
  rewrite Hx. cbn [default from_option id]. destruct (Z.leb_spec cutoff x) as [Hle|Hgt].
  - rewrite filter_cons_True by done. rewrite (IH _ _ _ l) by (done || by injection Hl). cbn [length head].
    f_equal; [lia|by destruct o].
  - rewrite filter_cons_False by lia. by rewrite (IH _ _ _ l) by (done || by injection Hl).
Qed.

(** The ring counts what it holds.  After any pushes it holds the last ones, as many as its capacity,
    and counts those of them whose offset in milliseconds is not below the cutoff; the age it reports is
    that of the first of these. *)
Theorem ring_counts capacity base ts now window :
  let r := foldl (λ r t, Push t r) (NewCompressedTimestampRing capacity base) ts in
  let cap := Z.to_nat (if capacity <=? 0 then 1024 else capacity) in
  let recent := drop (length ts - cap) (offset_of base <$> ts) in
  let cutoff := wrap_s 32 (offset_of base now - millis32 window) in
  let counted := filter (λ o, cutoff <= o) recent in
  Len r = (length ts `min` cap)%nat ∧
  CountWithinWindow now window r =
    (length counted, match counted with [] => 0 | o :: _ => wrap_s 32 (offset_of base now - o) * millisecond end).
Proof.
  intros r cap recent cutoff counted.
  assert (0 < cap)%nat as Hcap by (unfold cap; destruct (Z.leb_spec capacity 0); lia).
  assert (ring_holds (offset_of base <$> ts) r ∧ tr_baseTime r = base ∧ tr_capacity r = cap) as (Hr & Hb & Hc).
  { unfold r. clear recent counted. induction ts as [|t ts IH] using rev_ind.
    - split; [|done]. cbn. fold cap. split; cbn; [done|apply length_replicate|lia| | |lia].
      + by rewrite Nat.Div0.mod_0_l.
      + by rewrite Nat.Div0.mod_0_l.
    - rewrite foldl_app, fmap_app. destruct IH as (Hr & Hb & Hc). cbn [foldl fmap list_fmap]. split; [|split].
      + rewrite <- Hb at 2. by apply Push_holds.
      + unfold Push. by case_bool_decide.
      + unfold Push. by case_bool_decide. }
  destruct Hr as [H1 H2 H3 H4 H5 H6]. rewrite length_fmap, Hc in *. split; [exact H3|].
  unfold CountWithinWindow. case_bool_decide as Hz.
  - assert (ts = []) as -> by (apply nil_length_inv; lia). unfold counted, recent. cbn. by rewrite drop_nil.
  - rewrite Hb, Hc. fold (offset_of base now). fold cutoff.
    rewrite (count_loop_spec _ _ _ _ _ _ _ recent).
    + fold counted. cbn [Nat.add]. f_equal. by destruct counted.
    + done.
    + unfold recent. rewrite length_drop, length_fmap. lia.
    + intros j Hj. rewrite H5, Nat.Div0.add_mod_idemp_l, H6 by lia. unfold recent. rewrite lookup_drop. f_equal. lia.
    + rewrite H5. apply Nat.mod_upper_bound. lia.
Qed.

(** Offsets overflow after 2^31 milliseconds, less than 25 days: a timestamp that is pushed and
    counted at that very time is not counted. *)
Theorem ring_overflows :
  let t := 2 ^ 31 * millisecond in
  CountWithinWindow t second (Push t (NewCompressedTimestampRing 8 0)) = (0%nat, 0) ∧
  CountWithinWindow (t - millisecond) second (Push (t - millisecond) (NewCompressedTimestampRing 8 0)) = (1%nat, 0).
Proof. vm_compute. split; reflexivity. Qed.

(** * The tuner *)

Inductive tuner_op :=
  | TRegister (cfg : ThrottleConfig)
  | TFailure (key : string) (statusCode : Z) (retryAfter : Duration) (now : Time)
  | TSuccess (key : string)
  | TAllow (key : string) (n : Z) (now : Time).

Definition with_throttler (a : AutoTuner) (t : SlidingLogThrottler) : AutoTuner :=
  MkTuner t (at_baseRates a) (at_effectiveRates a) (at_successCounts a) (at_coolOffUntil a) (at_decreaseFactor a)
    (at_minRate a) (at_probeInterval a).

Definition tuner_step (a : AutoTuner) (op : tuner_op) : AutoTuner :=
  match op with
  | TRegister cfg => (RegisterBaseQuota cfg a).2
  | TFailure key statusCode retryAfter now => RecordFailure key statusCode retryAfter now a
  | TSuccess key => RecordSuccess key a
  | TAllow key n now => with_throttler a (AllowN key n now (at_throttler a)).2
  end.

(** The quota of a key in the throttler is the effective rate of the tuner. *)
Definition tuned (a : AutoTuner) (key : string) (e : Z) : Prop :=
  ∃ b cfg, at_baseRates a !! key = Some b ∧ GetQuota key (at_throttler a) = Some cfg ∧
    tc_QuotaKey cfg = key ∧ tc_RateLimit cfg = e ∧ key ≠ "" ∧ 0 < tc_Window cfg ∧ 1 <= e ∧ Z.min b (at_minRate a) <= e.

Definition tuner_ok (a : AutoTuner) : Prop :=
  1 <= at_minRate a ∧ (∀ key, is_Some (at_baseRates a !! key) → is_Some (at_effectiveRates a !! key)) ∧
  map_Forall (tuned a) (at_effectiveRates a).

Lemma AllowN_quota k n now t key : GetQuota key (AllowN k n now t).2 = GetQuota key t.
Proof.
  unfold AllowN, GetQuota. destruct (n <=? 0); [done|]. destruct (t !! k) as [entry|] eqn:E; [|done].
  repeat case_match; cbn [snd]; (destruct (decide (k = key)) as [->|Hk];
    [rewrite lookup_insert_eq, E; done|by rewrite lookup_insert_ne]).
Qed.

Lemma SetQuota_quota cfg t key :
  Validate cfg = None →
  GetQuota key (SetQuota cfg t).2 = if decide (key = tc_QuotaKey cfg) then Some cfg else GetQuota key t.
Proof.
  intros Hv. unfold SetQuota, GetQuota. rewrite Hv.
  destruct (t !! tc_QuotaKey cfg); cbn [snd]; (case_decide as E;
    [subst; by rewrite lookup_insert_eq|by rewrite lookup_insert_ne]).
Qed.

Lemma retune_quota key newRate t cfg key' :
  GetQuota key t = Some cfg → tc_QuotaKey cfg = key → key ≠ "" → 0 < tc_Window cfg → 1 <= newRate →
  GetQuota key' (retune key newRate t) =
  if decide (key' = key) then Some (MkThrottle key newRate (tc_Window cfg) (tc_BurstLimit cfg)) else GetQuota key' t.
Proof.
  intros Hg Hk Hne Hw Hn. unfold retune. rewrite Hg, Hk. apply SetQuota_quota. unfold Validate. cbn [tc_QuotaKey tc_RateLimit tc_Window].
  rewrite bool_decide_eq_false_2 by done. destruct (Z.leb_spec newRate 0); [lia|]. by destruct (Z.leb_spec (tc_Window cfg) 0); [lia|].
Qed.

Lemma retuned_ok a key newRate succ cool :
  tuner_ok a → is_Some (at_baseRates a !! key) → 1 <= newRate →
  (∀ b, at_baseRates a !! key = Some b → Z.min b (at_minRate a) <= newRate) →
  tuner_ok (MkTuner (retune key newRate (at_throttler a)) (at_baseRates a) (<[key := newRate]> (at_effectiveRates a))
    succ cool (at_decreaseFactor a) (at_minRate a) (at_probeInterval a)).
Proof.
  intros (Hmin & Hdom & Hall) [b Hb] Hn Hge. destruct (Hdom key ltac:(by eexists)) as [e He].
  destruct (Hall key e He) as (b' & cfg & Hb' & Hg & Hk & Hr & Hne & Hw & _).
  split; [done|]. split; cbn [at_baseRates at_effectiveRates].
  - intros k Hk'. apply lookup_insert_is_Some'. auto.
  - intros k e' Hk'. unfold tuned. cbn [at_baseRates at_throttler at_minRate].
    destruct (decide (k = key)) as [->|Hkk].
    + rewrite lookup_insert_eq in Hk'. injection Hk' as <-.
      exists b, (MkThrottle key newRate (tc_Window cfg) (tc_BurstLimit cfg)).
      rewrite (retune_quota key newRate _ cfg key) by done. rewrite decide_True by done. cbn. auto 10.
    + rewrite lookup_insert_ne in Hk' by done. destruct (Hall k e' Hk') as (b2 & cfg2 & ? & ? & ?).
      exists b2, cfg2. rewrite (retune_quota key newRate _ cfg k) by done. by rewrite decide_False.
Qed.

Lemma tuner_step_ok a op :
  tuner_ok a → (∀ cfg, op = TRegister cfg → Validate cfg = None) → tuner_ok (tuner_step a op).
Proof.
  intros Hok Hop. pose proof Hok as (Hmin & Hdom & Hall). destruct op as [cfg|key sc ra now|key|key n now]; cbn [tuner_step].
  - specialize (Hop cfg eq_refl). destruct (Validate_None cfg Hop) as (Hne & Hl & Hw).
    unfold RegisterBaseQuota. pose proof (λ key, SetQuota_quota cfg (at_throttler a) key Hop) as Hq.
    destruct (SetQuota cfg (at_throttler a)) as [err t]. cbn [snd] in *. split; [done|]. split; cbn [at_baseRates at_effectiveRates].
    + intros k Hk. apply lookup_insert_is_Some' in Hk. apply lookup_insert_is_Some'. destruct Hk; auto.
    + intros k e Hk. unfold tuned. cbn [at_baseRates at_throttler at_minRate]. rewrite Hq.
      destruct (decide (k = tc_QuotaKey cfg)) as [->|Hkk].
      * rewrite lookup_insert_eq in Hk |- *. injection Hk as <-. exists (tc_RateLimit cfg), cfg. split_and!; (done || lia).
      * rewrite lookup_insert_ne in Hk |- * by done. apply (Hall k e Hk).
  - unfold RecordFailure. destruct (negb _ && negb _); [done|]. destruct (at_baseRates a !! key) as [b|] eqn:Hb; [|done].
    apply retuned_ok; [done|by rewrite Hb|lia|]. intros b' Hb'. lia.
  - unfold RecordSuccess. destruct (at_baseRates a !! key) as [b|] eqn:Hb; [|done].
    destruct (Z.leb_spec b (default 0 (at_effectiveRates a !! key))) as [Hle|Hlt]; [done|].
    case_match; [|by split]. destruct (Hdom key ltac:(by rewrite Hb)) as [e He]. rewrite He in Hlt |- *. cbn [default from_option id] in *.
    destruct (Hall key e He) as (b2 & cfg2 & Hb2 & _ & _ & _ & _ & _ & H1 & H2).
    apply retuned_ok; [done|by rewrite Hb|lia|]. intros b3 Hb3. assert (b = b2 ∧ b3 = b2) as [-> ->] by (split; congruence). lia.
  - split; [done|]. split; [done|]. intros k e Hk. destruct (Hall k e Hk) as (b2 & cfg2 & ? & Hg & ?).
    exists b2, cfg2. cbn [with_throttler at_throttler at_baseRates at_minRate]. by rewrite AllowN_quota.
Qed.

(** The tuner and the throttler agree.  After any sequence of registrations of valid quotas, failures,
    successes and calls, the quota of every registered key in the throttler has the effective rate of the
    tuner as its limit, which is positive and not below both the base rate and the least rate. *)
Theorem tuner_consistent minRate factor ops key b :
  (∀ cfg, TRegister cfg ∈ ops → Validate cfg = None) →
  let a := foldl tuner_step (NewAutoTuner NewSlidingLogThrottler minRate factor) ops in
  at_baseRates a !! key = Some b →
  ∃ cfg, GetQuota key (at_throttler a) = Some cfg ∧ tc_RateLimit cfg = EffectiveRate key a ∧
    1 <= EffectiveRate key a ∧ Z.min b (at_minRate a) <= EffectiveRate key a.
Proof.
  intros Hops a Hb. assert (tuner_ok a) as (_ & Hdom & Hall).
  { unfold a. clear Hb. assert (tuner_ok (NewAutoTuner NewSlidingLogThrottler minRate factor)) as Hstart.
    { unfold NewAutoTuner. split; [cbn; destruct (Z.leb_spec minRate 0); lia|]. split; [|by apply map_Forall_empty].
      intros k. cbn. rewrite lookup_empty. by intros []. }
    revert Hstart. generalize (NewAutoTuner NewSlidingLogThrottler minRate factor) as a0.
    induction ops as [|op ops IH]; intros a0 H0; [done|]. cbn [foldl]. apply IH.
    - intros cfg Hc. apply Hops. by right.
    - apply tuner_step_ok; [done|]. intros cfg ->. apply Hops. by left. }
  destruct (Hdom key ltac:(by rewrite Hb)) as [e He]. destruct (Hall key e He) as (b' & cfg & Hb' & Hg & _ & Hr & _ & _ & H1 & H2).
  exists cfg. unfold EffectiveRate. rewrite He. cbn [default from_option id]. rewrite Hb in Hb'. injection Hb' as <-. done.
Qed.

Lemma tuner_consistent_witness :
  let a := foldl tuner_step (NewAutoTuner NewSlidingLogThrottler 1 f64_half)
    [TRegister (MkThrottle "k" 10 1000 10); TAllow "k" 2 5; TFailure "k" 429 0 6] in
  EffectiveRate "k" a = 5 ∧ ∃ cfg, GetQuota "k" (at_throttler a) = Some cfg ∧ tc_RateLimit cfg = 5.
Proof.
  intros a. assert (EffectiveRate "k" a = 5) as E by (vm_compute; reflexivity). split; [exact E|].
  destruct (tuner_consistent 1 f64_half [TRegister (MkThrottle "k" 10 1000 10); TAllow "k" 2 5; TFailure "k" 429 0 6] "k" 10)
    as (cfg & Hg & Hr & _).
  - intros cfg Hc. clear E. clear a. apply elem_of_cons in Hc as [Hc|Hc]; [injection Hc as ->; reflexivity|].
    do 2 (apply elem_of_cons in Hc as [Hc|Hc]; [discriminate Hc|]). by apply elem_of_nil in Hc.
  - vm_compute. reflexivity.
  - exists cfg. split; [exact Hg|]. rewrite Hr. exact E.
Defined.
