(* ===== verification/Replay.v ===== *)
(** Recording and replaying of executions: [internal/replay].

    Every method is one critical section; times are arguments.  No other call is made on a replayer
    while [Replay] or [VerifyBranch] runs.  The payload of an event is the map as it is when it is read: the
    recorder keeps the map of the caller, and no theorem depends on who writes to it later.  The text of
    [Summary] is not modelled. *)
From stdpp Require Import pretty.
From S2P Require Import Prelude Errors SortSearch.
Local Open Scope Z_scope.

Abbreviation SNonDeterministicBranch := (SOther "replay: non-deterministic execution branch detected").
Abbreviation SHistoryExhausted := (SOther "replay: recorded history exhausted prematurely").
Abbreviation SEventMismatch := (SOther "replay: event type mismatch during replay").

(** * [event.go] *)

Abbreviation EventType := string (only parsing).

Record HistoryEvent := MkHistoryEvent {
  he_Seq : Z;
  he_Type : EventType;
  he_StepID : string;
  he_Payload : gmap string string;
  he_Timestamp : Time
}.

Record History := MkHistory { hi_RunID : string; hi_WorkflowID : string; hi_Events : list HistoryEvent }.

Record Recorder := MkRecorder {
  rc_runID : string;
  rc_wfID : string;
  rc_seq : Z;
  rc_history : list HistoryEvent
}.

Definition NewRecorder (runID workflowID : string) : Recorder := MkRecorder runID workflowID 0 [].

Definition Record_ (evtType : EventType) (stepID : string) (payload : gmap string string) (now : Time) (r : Recorder) :
    HistoryEvent * Recorder :=
  let seq := wrap_u 64 (rc_seq r + 1) in
  let evt := MkHistoryEvent seq evtType stepID payload now in
  (evt, MkRecorder (rc_runID r) (rc_wfID r) seq (rc_history r ++ [evt])).

Definition Snapshot (r : Recorder) : History := MkHistory (rc_runID r) (rc_wfID r) (rc_history r).

(** * [replayer.go] *)

Record Replayer := MkReplayer { rp_history : History; rp_cursor : nat }.

Definition NewReplayer (h : History) : Replayer := MkReplayer h 0.
Definition events (r : Replayer) : list HistoryEvent := hi_Events (rp_history r).

(** The zero event, which is returned when the history is exhausted. *)
Definition zero_event : HistoryEvent := MkHistoryEvent 0 "" "" ∅ 0.

Definition MatchStep (expectedType : EventType) (stepID : string) (r : Replayer) :
    HistoryEvent * option error * Replayer :=
  match events r !! rp_cursor r with
  | None =>
      (zero_event,
       Some (EWrap "%w: step %s (expected %s at index %d)" [stepID; expectedType; pretty (rp_cursor r)]
               (ESentinel SHistoryExhausted)), r)
  | Some actual =>
      if negb (bool_decide (he_Type actual = expectedType))
         || (negb (bool_decide (stepID = "")) && negb (bool_decide (he_StepID actual = stepID))) then
        (actual,
         Some (EWrap "%w: expected [%s, step=%s], got [%s, step=%s] at index %d"
                 [expectedType; stepID; he_Type actual; he_StepID actual; pretty (rp_cursor r)]
                 (ESentinel SEventMismatch)), r)
      else (actual, None, MkReplayer (rp_history r) (S (rp_cursor r)))
  end.

Definition Peek (r : Replayer) : option HistoryEvent := events r !! rp_cursor r.

Record ReplayReport := MkReport {
  rr_RunID : string;
  rr_WorkflowID : string;
  rr_TotalEvents : nat;
  rr_MatchedEvents : nat;
  rr_Completed : bool
}.

(** The loop of [Replay] over the events from the cursor on; [ctx i] is the error of the context as it is
    seen before the [i]-th of them, and [handler] the error that the handler returns for an event. *)
Fixpoint replay_loop (ctx : nat → option error) (handler : HistoryEvent → option error) (matched : nat)
    (rest : list HistoryEvent) : option error * nat :=
  match ctx matched with
  | Some err => (Some err, matched)
  | None =>
      match rest with
      | [] => (None, matched)
      | evt :: rest' =>
          match handler evt with
          | Some err =>
              (Some (EWrap "step handler failed at seq %d (step %s): %w" [pretty (he_Seq evt); he_StepID evt] err),
               S matched)
          | None => replay_loop ctx handler (S matched) rest'
          end
      end
  end.

Definition Replay (ctx : nat → option error) (handler : HistoryEvent → option error) (r : Replayer) :
    option error * ReplayReport * Replayer :=
  let '(err, matched) := replay_loop ctx handler 0 (drop (rp_cursor r) (events r)) in
  let report := MkReport (hi_RunID (rp_history r)) (hi_WorkflowID (rp_history r)) (length (events r)) matched
                  (bool_decide (err = None)) in
  (err, report, MkReplayer (rp_history r) (rp_cursor r + matched)).

Definition Replayer_Reset (r : Replayer) : Replayer := MkReplayer (rp_history r) 0.
Definition IsComplete (r : Replayer) : bool := bool_decide (rp_cursor r = length (events r)).
Definition RemainingEvents (r : Replayer) : Z := Z.of_nat (length (events r)) - Z.of_nat (rp_cursor r).

(** * [interceptor.go] *)

Record SideEffectInterceptor := MkInterceptor {
  si_isReplaying : bool;
  si_recordedData : gmap string string;
  si_recordedKeys : list string;
  si_cursor : nat
}.

Definition NewSideEffectInterceptor (replaying : bool) : SideEffectInterceptor := MkInterceptor replaying ∅ [] 0.

Definition LoadRecordedSideEffects (effects : gmap string string) (order : list string) (s : SideEffectInterceptor) :
    SideEffectInterceptor :=
  MkInterceptor (si_isReplaying s) effects order 0.

(** [fn] is what the side effect returns when it is executed. *)
Definition Intercept (id : string) (fn : result error string) (s : SideEffectInterceptor) :
    result error string * SideEffectInterceptor :=
  if si_isReplaying s then
    match si_recordedData s !! id with
    | None => (Err (EWrap "%w: side effect %q not found in replay log" [id] (ESentinel SNonDeterministicBranch)), s)
    | Some val => (Ok val, MkInterceptor true (si_recordedData s) (si_recordedKeys s) (S (si_cursor s)))
    end
  else
    match fn with
    | Err err => (Err err, s)
    | Ok val => (Ok val, MkInterceptor false (<[id := val]> (si_recordedData s)) (si_recordedKeys s ++ [id]) (si_cursor s))
    end.

Definition SideEffects (s : SideEffectInterceptor) : gmap string string * list string :=
  (si_recordedData s, si_recordedKeys s).

Record BranchDivergence := MkDivergence {
  bd_Type : string;
  bd_StepID : string;
  bd_Expected : string;
  bd_Actual : string;
  bd_Seq : Z;
  bd_Context : gmap string string
}.

Definition diverged (d : BranchDivergence) : error :=
  EWrap "%w: %s at seq %d (step %s): expected %q, got %q"
    [bd_Type d; pretty (bd_Seq d); bd_StepID d; bd_Expected d; bd_Actual d] (ESentinel SNonDeterministicBranch).

Definition VerifyBranch (r : Replayer) (stepID branchName : string) (divergences : list BranchDivergence) :
    option error * list BranchDivergence :=
  match Peek r with
  | None =>
      let div := MkDivergence "BranchDivergence" stepID "<none>" branchName (Z.of_nat (rp_cursor r)) ∅ in
      (Some (diverged div), divergences ++ [div])
  | Some evt =>
      if negb (bool_decide (he_StepID evt = stepID)) then
        let div := MkDivergence "StepMismatch" stepID (he_StepID evt) stepID (he_Seq evt) ∅ in
        (Some (diverged div), divergences ++ [div])
      else
        match he_Payload evt !! "branch" with
        | Some expectedBranch =>
            if bool_decide (expectedBranch = branchName) then (None, divergences)
            else
              let div := MkDivergence "BranchDivergence" stepID expectedBranch branchName (he_Seq evt) (he_Payload evt) in
              (Some (diverged div), divergences ++ [div])
        | None => (None, divergences)
        end
  end.

(** * [memoizer.go] *)

Record StreamMemoizer := MkMemoizer {
  me_interval : Z;
  me_maxEntries : Z;
  me_checkpoints : gmap Z (gmap string string);
  me_sortedSeqs : list Z
}.

Definition NewStreamMemoizer (interval maxEntries : Z) : StreamMemoizer :=
  MkMemoizer (if interval =? 0 then 100 else interval) (if maxEntries <=? 0 then 256 else maxEntries) ∅ [].

(** The oldest checkpoint gives way when the memoizer is full and the number is new. *)
Definition evict (seq : Z) (m : StreamMemoizer) : StreamMemoizer :=
  if me_maxEntries m <=? Z.of_nat (size (me_checkpoints m)) then
    match me_checkpoints m !! seq, me_sortedSeqs m with
    | None, oldest :: rest => MkMemoizer (me_interval m) (me_maxEntries m) (delete oldest (me_checkpoints m)) rest
    | _, _ => m
    end
  else m.

Definition MaybeMemoize (sh : shuffle) (seq : Z) (state : gmap string string) (force : bool) (m : StreamMemoizer) :
    bool * StreamMemoizer :=
  if negb force && negb (seq mod me_interval m =? 0) then (false, m)
  else
    let m := evict seq m in
    let sortedSeqs :=
      match me_checkpoints m !! seq with
      | None => sort_slice Z.ltb (sh _ (me_sortedSeqs m ++ [seq]))
      | Some _ => me_sortedSeqs m
      end in
    (true, MkMemoizer (me_interval m) (me_maxEntries m) (<[seq := state]> (me_checkpoints m)) sortedSeqs).

Definition FindNearestCheckpoint (targetSeq : Z) (m : StreamMemoizer) : option (Z * gmap string string) :=
  let seqs := me_sortedSeqs m in
  let idx := sort_Search (length seqs) (λ i, targetSeq <? default 0 (seqs !! i)) in
  match idx with
  | O => None
  | S i => let nearestSeq := default 0 (seqs !! i) in Some (nearestSeq, default ∅ (me_checkpoints m !! nearestSeq))
  end.

Definition Memoizer_Len (m : StreamMemoizer) : nat := size (me_checkpoints m).
Definition Clear (m : StreamMemoizer) : StreamMemoizer := MkMemoizer (me_interval m) (me_maxEntries m) ∅ [].

(** * [diff.go] *)

Record FieldDiff := MkFieldDiff { fd_Key : string; fd_Original : string; fd_Replayed : string }.
Record StateDiff := MkStateDiff {
  sd_StepID : string;
  sd_Added : list FieldDiff;
  sd_Removed : list FieldDiff;
  sd_Modified : list FieldDiff
}.

Definition HasDivergence (d : StateDiff) : bool :=
  (0 <? Z.of_nat (length (sd_Added d))) || (0 <? Z.of_nat (length (sd_Removed d))) || (0 <? Z.of_nat (length (sd_Modified d))).

Definition removed_field (replayed : gmap string string) (kv : string * string) : option FieldDiff :=
  match replayed !! kv.1 with
  | None => Some (MkFieldDiff kv.1 kv.2 "")
  | Some _ => None
  end.
Definition modified_field (replayed : gmap string string) (kv : string * string) : option FieldDiff :=
  match replayed !! kv.1 with
  | Some repVal => if bool_decide (kv.2 = repVal) then None else Some (MkFieldDiff kv.1 kv.2 repVal)
  | None => None
  end.
Definition added_field (original : gmap string string) (kv : string * string) : option FieldDiff :=
  match original !! kv.1 with
  | None => Some (MkFieldDiff kv.1 "" kv.2)
  | Some _ => None
  end.

Definition field_less (f g : FieldDiff) : bool := string_ltb (fd_Key f) (fd_Key g).

Definition DiffState (sh : shuffle) (stepID : string) (original replayed : gmap string string) : StateDiff :=
  MkStateDiff stepID
    (sort_slice field_less (sh _ (omap (added_field original) (range_map sh replayed))))
    (sort_slice field_less (sh _ (omap (removed_field replayed) (range_map sh original))))
    (sort_slice field_less (sh _ (omap (modified_field replayed) (range_map sh original)))).

Record Mutation := MkMutation {
  mu_StepID : string;
  mu_Type : string;
  mu_Key : string;
  mu_OldValue : string;
  mu_NewValue : string;
  mu_Timestamp : Time
}.

Definition TrackRead (stepID key : string) (now : Time) (t : list Mutation) : list Mutation :=
  t ++ [MkMutation stepID "READ" key "" "" now].
Definition TrackWrite (stepID key oldValue newValue : string) (now : Time) (t : list Mutation) : list Mutation :=
  t ++ [MkMutation stepID "WRITE" key oldValue newValue now].
Definition TrackDelete (stepID key oldValue : string) (now : Time) (t : list Mutation) : list Mutation :=
  t ++ [MkMutation stepID "DELETE" key oldValue "" now].
Definition MutationsForStep (stepID : string) (t : list Mutation) : list Mutation :=
  filter (λ m, mu_StepID m = stepID) t.

(** * Theorems

    What recording and replaying promise: a replay accepts exactly the calls that were recorded, side
    effects come back unless an identifier is used for two values, the memoizer finds the nearest
    checkpoint it holds, and the difference of two states is exact. *)

(** * Recorded calls and their replay *)

Record call := MkCall { ca_type : string; ca_step : string; ca_payload : gmap string string; ca_now : Time }.

Definition record_all (cs : list call) (r : Recorder) : Recorder :=
  foldl (λ r c, (Record_ (ca_type c) (ca_step c) (ca_payload c) (ca_now c) r).2) r cs.

(** The calls of a replay, up to the first that is refused. *)
Fixpoint match_all (ds : list (string * string)) (r : Replayer) : option error * Replayer :=
  match ds with
  | [] => (None, r)
  | d :: ds' =>
      match MatchStep d.1 d.2 r with
      | (_, Some err, r') => (Some err, r')
      | (_, None, r') => match_all ds' r'
      end
  end.

Definition agree (c : call) (d : string * string) : Prop := ca_type c = d.1 ∧ (d.2 = "" ∨ ca_step c = d.2).
#[export] Instance agree_dec c d : Decision (agree c d).
Proof. unfold agree. apply _. Defined.

Fixpoint agreeing (cs : list call) (ds : list (string * string)) : nat :=
  match cs, ds with
  | c :: cs', d :: ds' => if decide (agree c d) then S (agreeing cs' ds') else O
  | _, _ => O
  end.

Definition same_call (e : HistoryEvent) (c : call) : Prop :=
  he_Type e = ca_type c ∧ he_StepID e = ca_step c ∧ he_Payload e = ca_payload c ∧ he_Timestamp e = ca_now c.

Lemma record_all_spec cs r :
  ∃ es, rc_history (record_all cs r) = rc_history r ++ es ∧ Forall2 same_call es cs.
Proof.
  revert r. induction cs as [|c cs IH]; intros r; cbn [record_all foldl].
  { exists []. by rewrite app_nil_r. }
  destruct (IH (Record_ (ca_type c) (ca_step c) (ca_payload c) (ca_now c) r).2) as (es & E & H).
  unfold record_all in E. rewrite E. cbn. eexists (_ :: es). split; [by rewrite <-app_assoc|].
  by constructor.
Qed.

Lemma MatchStep_agree t s r e c :
  events r !! rp_cursor r = Some e → same_call e c → agree c (t, s) →
  MatchStep t s r = (e, None, MkReplayer (rp_history r) (S (rp_cursor r))).
Proof.
  intros E (Ht & Hs & _) (Ha & Hb). cbn in Ha, Hb. unfold MatchStep. rewrite E, Ht, Hs, Ha.
  rewrite bool_decide_true by done. cbn [negb orb].
  destruct Hb as [->|Hb]; [by rewrite bool_decide_true by done|].
  by rewrite (bool_decide_true (ca_step c = s)) by done; rewrite andb_false_r.
Qed.

Lemma MatchStep_disagree t s r :
  (∀ e c, events r !! rp_cursor r = Some e → same_call e c → ¬ agree c (t, s)) →
  ∃ e err, MatchStep t s r = (e, Some err, r).
Proof.
  intros H. unfold MatchStep. destruct (events r !! rp_cursor r) as [e|]; [|by do 2 eexists].
  case_match eqn:E; [by do 2 eexists|].
  apply orb_false_iff in E as [E1 E2]. apply negb_false_iff, bool_decide_eq_true in E1.
  exfalso. apply (H e (MkCall (he_Type e) (he_StepID e) (he_Payload e) (he_Timestamp e)) eq_refl); [done|].
  split; [done|]. cbn. apply andb_false_iff in E2 as [E2|E2]; apply negb_false_iff, bool_decide_eq_true in E2; auto.
Qed.

Lemma match_all_spec ds cs r :
  Forall2 same_call (drop (rp_cursor r) (events r)) cs →
  let '(err, r') := match_all ds r in
  rp_history r' = rp_history r ∧ rp_cursor r' = (rp_cursor r + agreeing cs ds)%nat ∧
  (err = None ↔ agreeing cs ds = length ds).
Proof.
  revert cs r. induction ds as [|[t s] ds IH]; intros cs r H; cbn [match_all].
  { destruct cs; cbn; rewrite Nat.add_0_r; naive_solver. }
  cbn [fst snd]. destruct (drop (rp_cursor r) (events r)) as [|e es] eqn:D.
  - apply Forall2_nil_inv_l in H as ->.
    destruct (MatchStep_disagree t s r) as (e & err & ->).
    { intros e c Hl. apply lookup_lt_Some in Hl. apply (f_equal length) in D. rewrite length_drop in D. cbn in D. lia. }
    cbn. rewrite Nat.add_0_r. naive_solver.
  - apply Forall2_cons_inv_l in H as (c & cs' & Hc & Hcs & ->).
    assert (events r !! rp_cursor r = Some e) as Hl.
    { by rewrite <-(Nat.add_0_r (rp_cursor r)), <-lookup_drop, D. }
    cbn [agreeing length]. destruct (decide (agree c (t, s))) as [Ha|Ha].
    + rewrite (MatchStep_agree t s r e c Hl Hc Ha).
      specialize (IH cs' (MkReplayer (rp_history r) (S (rp_cursor r)))). cbn [rp_cursor] in IH.
      destruct (match_all ds _) as [err r'].
      destruct IH as (I1 & I2 & I3).
      { unfold events. cbn [rp_history]. fold (events r). by rewrite <-Nat.add_1_r, <-drop_drop, D. }
      split_and!; [done|rewrite I2; cbn; lia|rewrite I3; lia].
    + destruct (MatchStep_disagree t s r) as (e' & err & ->).
      { intros e2 c2 He2 (H1 & H2 & _) Ha2. simplify_eq. apply Ha.
        destruct Hc as (H3 & H4 & _). destruct Ha2 as [Ha2 Hb2]. split; cbn in *; congruence || (rewrite <-H4, H2; auto). }
      rewrite Nat.add_0_r. naive_solver.
Qed.

(** A replay accepts exactly what was recorded.  Whatever calls are recorded and whatever calls a
    replay of the snapshot makes, the replay is stopped at the first call that names another type or
    another (non-empty) step, the cursor counts the calls accepted before it, and all calls are accepted
    and the replay is complete exactly when both sequences have the same length and agree call by call. *)
Theorem replay_exact runID wfID cs ds :
  let h := Snapshot (record_all cs (NewRecorder runID wfID)) in
  let '(err, r) := match_all ds (NewReplayer h) in
  rp_cursor r = agreeing cs ds ∧
  (err = None ↔ agreeing cs ds = length ds) ∧
  (err = None ∧ IsComplete r = true ↔ Forall2 agree cs ds).
Proof.
  destruct (record_all_spec cs (NewRecorder runID wfID)) as (es & E & H). cbn [rc_history NewRecorder app] in E.
  cbv zeta. set (h := Snapshot _).
  assert (hi_Events h = es) as Hh by exact E.
  pose proof (match_all_spec ds cs (NewReplayer h)) as M.
  destruct (match_all ds (NewReplayer h)) as [err r].
  destruct M as (M1 & M2 & M3); [unfold events; cbn [rp_cursor rp_history NewReplayer]; by rewrite drop_0, Hh|].
  cbn [rp_cursor NewReplayer Nat.add] in M2. split_and!; [done|done|].
  unfold IsComplete. rewrite bool_decide_eq_true, M2, M3. unfold events. rewrite M1. cbn [NewReplayer rp_history].
  rewrite Hh, (Forall2_length _ _ _ H). clear.
  revert ds. induction cs as [|c cs IH]; intros [|d ds]; cbn [agreeing length].
  - split; [constructor|done].
  - split; [lia|by inversion 1].
  - split; [lia|by inversion 1].
  - rewrite Forall2_cons, <-IH. destruct (decide (agree c d)); [intuition lia|]. split; [lia|naive_solver].
Qed.

(** * Side effects *)

Fixpoint intercept_all (cs : list (string * result error string)) (s : SideEffectInterceptor) :
    list (result error string) * SideEffectInterceptor :=
  match cs with
  | [] => ([], s)
  | (id, fn) :: cs' =>
      let '(v, s') := Intercept id fn s in
      let '(vs, s'') := intercept_all cs' s' in (v :: vs, s'')
  end.

(** The value that the last successful call with each identifier returned. *)
Definition last_values (cs : list (string * result error string)) (m : gmap string string) : gmap string string :=
  foldl (λ m c, match c.2 with Ok v => <[c.1 := v]> m | Err _ => m end) m cs.

Lemma live_all cs d ks c :
  ∃ ks', intercept_all cs (MkInterceptor false d ks c) = (cs.*2, MkInterceptor false (last_values cs d) ks' c).
Proof.
  revert d ks. induction cs as [|[id [v|e]] cs IH]; intros d ks; cbn.
  - by eexists.
  - destruct (IH (<[id := v]> d) (ks ++ [id])) as [ks' ->]. by eexists.
  - destruct (IH d ks) as [ks' ->]. by eexists.
Qed.

Lemma replayed_all cs d ks c :
  Forall2 (λ call rep, ∀ v, d !! call.1 = Some v → rep = Ok v) cs (intercept_all cs (MkInterceptor true d ks c)).1.
Proof.
  revert c. induction cs as [|[id fn] cs IH]; intros c; cbn; [constructor|].
  destruct (d !! id) as [v|] eqn:E; cbn.
  - destruct (intercept_all cs _) as [vs s] eqn:F. constructor; [cbn; congruence|].
    specialize (IH (S c)). by rewrite F in IH.
  - destruct (intercept_all cs _) as [vs s] eqn:F. constructor; [cbn; congruence|].
    specialize (IH c). by rewrite F in IH.
Qed.

Lemma last_values_lookup cs m id :
  (∀ v, (id, Ok v) ∉ cs) ∧ last_values cs m !! id = m !! id ∨
  ∃ v, (id, Ok v) ∈ cs ∧ last_values cs m !! id = Some v.
Proof.
  revert m. induction cs as [|[i [v|e]] cs IH]; intros m; cbn.
  - left. split; [|done]. intros v. apply not_elem_of_nil.
  - destruct (IH (<[i := v]> m)) as [[H1 H2]|(w & H1 & H2)].
    + destruct (decide (i = id)) as [->|Hne].
      * right. exists v. rewrite lookup_insert_eq in H2. split; [by left|done].
      * left. rewrite lookup_insert_ne in H2 by done. split; [|done].
        intros w [Hw|Hw]%elem_of_cons; [congruence|by apply (H1 w)].
    + right. exists w. split; [by right|done].
  - destruct (IH m) as [[H1 H2]|(w & H1 & H2)].
    + left. split; [|done]. intros w [Hw|Hw]%elem_of_cons; [congruence|by apply (H1 w)].
    + right. exists w. split; [by right|done].
Qed.

Lemma imap_ids (cs : list (string * result error string)) (other : nat → result error string) :
  (imap (λ i (c : string * result error string), (c.1, other i)) cs).*1 = cs.*1.
Proof. revert other. induction cs as [|c cs IH]; intros other; cbn; [done|]. f_equal. apply (IH (other ∘ S)). Qed.

(** What a replay answers depends on the identifiers only. *)
Lemma replayed_ids (cs again : list (string * result error string)) d ks c :
  again.*1 = cs.*1 →
  Forall2 (λ call rep, ∀ v, d !! call.1 = Some v → rep = Ok v) cs (intercept_all again (MkInterceptor true d ks c)).1.
Proof.
  intros Hids. pose proof (replayed_all again d ks c) as R. revert Hids R.
  generalize (intercept_all again (MkInterceptor true d ks c)).1. revert again.
  induction cs as [|x cs IH]; intros [|a again] rep Hids R; try discriminate Hids.
  - apply Forall2_nil_inv_l in R as ->. constructor.
  - apply Forall2_cons_inv_l in R as (r & rep' & Hr & Hrep & ->). injection Hids as Ha Hrest.
    constructor; [by rewrite <-Ha|]. by apply (IH again rep').
Qed.

(** Side effects of a live run come back in a replay exactly when no identifier was used for two
    different values: then every call that succeeded returns in the replay, made of the same calls in the
    same order, what it returned live, whatever its function would return now; otherwise some call silently returns another value, because the
    interceptor keeps one value per identifier and never consults the recorded order. *)
Theorem effects_replayed cs (other : nat → result error string) :
  let '(live, s) := intercept_all cs (NewSideEffectInterceptor false) in
  let '(effects, order) := SideEffects s in
  let again := imap (λ i (c : string * result error string), (c.1, other i)) cs in
  let rep := (intercept_all again (LoadRecordedSideEffects effects order (NewSideEffectInterceptor true))).1 in
  Forall2 (λ l r, ∀ v, l = Ok v → r = Ok v) live rep ↔
  (∀ id v w, (id, Ok v) ∈ cs → (id, Ok w) ∈ cs → v = w).
Proof.
  unfold NewSideEffectInterceptor. destruct (live_all cs ∅ [] 0) as [ks ->]. cbn [SideEffects si_recordedData si_recordedKeys].
  set (again := imap _ _).
  assert (again.*1 = cs.*1) as Hids by apply imap_ids.
  pose proof (replayed_ids cs again (last_values cs ∅) ks 0 Hids) as R'.
  unfold LoadRecordedSideEffects. cbn [si_isReplaying].
  set (rep := (intercept_all again _).1) in *. clearbody rep.
  clear Hids again other. split.
  - intros H id v w Hv Hw.
    destruct (last_values_lookup cs ∅ id) as [[Hn _]|(u & _ & Hu)]; [by destruct (Hn v)|].
    assert (∀ x, (id, Ok x) ∈ cs → x = u) as Hall; [|rewrite (Hall v Hv); symmetry; by apply Hall].
    intros x [i Hi]%list_elem_of_lookup_1.
    destruct (Forall2_lookup_l _ _ _ _ _ R' Hi) as (r & Hr & Hru). cbn in Hru. specialize (Hru u Hu).
    destruct (Forall2_lookup_l _ _ _ i (Ok x) H) as (r2 & Hr2 & Hrx); [by rewrite list_lookup_fmap, Hi|].
    specialize (Hrx x eq_refl). congruence.
  - intros Hsame. apply Forall2_fmap_l. apply Forall2_same_length_lookup_2; [by eapply Forall2_length|].
    intros i [id l] r Hi Hr v Hl. cbn in Hl. subst l.
    destruct (Forall2_lookup_l _ _ _ _ _ R' Hi) as (r' & Hr' & Hru). rewrite Hr in Hr'. injection Hr' as <-.
    destruct (last_values_lookup cs ∅ id) as [[Hn _]|(u & Hin & Hu)];
      [destruct (Hn v); by eapply list_elem_of_lookup_2|].
    rewrite (Hsame id v u); [by apply Hru|by eapply list_elem_of_lookup_2|done].
Qed.

(** * The memoizer *)

Inductive memo_op :=
  | Memoize (sh : shuffle) (seq : Z) (state : gmap string string) (force : bool)
  | ClearAll.

Definition memo_step (m : StreamMemoizer) (o : memo_op) : StreamMemoizer :=
  match o with
  | Memoize sh seq state force => (MaybeMemoize sh seq state force m).2
  | ClearAll => Clear m
  end.

(** The checkpoints that a memoizer without a limit holds. *)
Definition unbounded_step (interval : Z) (m : gmap Z (gmap string string)) (o : memo_op) : gmap Z (gmap string string) :=
  match o with
  | Memoize _ seq state force => if negb force && negb (seq mod interval =? 0) then m else <[seq := state]> m
  | ClearAll => ∅
  end.

Record memo_ok (interval maxEntries : Z) (m : StreamMemoizer) (spec : gmap Z (gmap string string)) : Prop := {
  mo_interval : me_interval m = interval;
  mo_max : me_maxEntries m = maxEntries;
  mo_sorted : StronglySorted Z.lt (me_sortedSeqs m);
  mo_keys : ∀ s, s ∈ me_sortedSeqs m ↔ is_Some (me_checkpoints m !! s);
  mo_size : Z.of_nat (size (me_checkpoints m)) <= maxEntries;
  mo_sub : me_checkpoints m ⊆ spec;
  mo_all : Z.of_nat (size spec) <= maxEntries → me_checkpoints m = spec
}.

(** Distinct numbers are sorted strictly. *)
Lemma sort_numbers l : NoDup l → StronglySorted Z.lt (sort_slice Z.ltb l).
Proof.
  intros Hnd.
  assert (Sorted (not_after Z.ltb) (sort_slice Z.ltb l)) as Hs by (apply sort_slice_sorted; intros x y; lia).
  assert (NoDup (sort_slice Z.ltb l)) as Hnd' by by rewrite sort_slice_perm.
  apply Sorted_StronglySorted in Hs; [|intros x y z; unfold not_after; lia].
  revert Hs Hnd'. generalize (sort_slice Z.ltb l) as k. clear. induction 1 as [|x k Hk IH Hx]; intros Hnd; constructor.
  - apply IH. by apply NoDup_cons in Hnd as [_ ?].
  - apply NoDup_cons in Hnd as [Hnot _]. rewrite Forall_forall in *. intros y Hy. specialize (Hx y Hy).
    unfold not_after in Hx. assert (x ≠ y) by (by intros ->). lia.
Qed.

Lemma sorted_numbers_NoDup l : StronglySorted Z.lt l → NoDup l.
Proof.
  induction 1 as [|x l Hl IH Hx]; constructor; [|done].
  intros Hin. rewrite Forall_forall in Hx. specialize (Hx x Hin). lia.
Qed.

(** What is left when the oldest checkpoint has given way. *)
Lemma evict_ok interval maxEntries m spec seq :
  0 < maxEntries → memo_ok interval maxEntries m spec →
  let m' := evict seq m in
  me_interval m' = interval ∧ me_maxEntries m' = maxEntries ∧ StronglySorted Z.lt (me_sortedSeqs m') ∧
  (∀ s, s ∈ me_sortedSeqs m' ↔ is_Some (me_checkpoints m' !! s)) ∧
  me_checkpoints m' ⊆ spec ∧
  (me_checkpoints m' !! seq = None → Z.of_nat (size (me_checkpoints m')) < maxEntries) ∧
  Z.of_nat (size (me_checkpoints m')) <= maxEntries ∧
  (Z.of_nat (size (<[seq := (∅ : gmap string string)]> spec)) <= maxEntries → me_checkpoints m' = spec).
Proof.
  intros Hpos [Hi Hm Hs Hk Hsz Hsub Hall]. cbv zeta.
  assert (Z.of_nat (size (<[seq := (∅ : gmap string string)]> spec)) <= maxEntries → me_checkpoints m = spec) as Hall'.
  { intros H. apply Hall. rewrite map_size_insert in H. destruct (spec !! seq); cbn in H; lia. }
  unfold evict. rewrite Hm. destruct (Z.leb_spec maxEntries (Z.of_nat (size (me_checkpoints m)))) as [Hfull|Hroom].
  2: { split_and!; auto; lia. }
  destruct (me_checkpoints m !! seq) as [st|] eqn:E; [split_and!; auto; congruence|].
  destruct (me_sortedSeqs m) as [|oldest rest] eqn:F.
  { assert (me_checkpoints m = ∅) as He; [|rewrite He, map_size_empty in Hfull; lia].
    apply map_empty. intros s. apply eq_None_not_Some. intros Hs'. apply Hk in Hs'. by apply not_elem_of_nil in Hs'. }
  apply StronglySorted_inv in Hs as [Hs Hlt]. rewrite Forall_forall in Hlt.
  assert (is_Some (me_checkpoints m !! oldest)) as Hold by (apply Hk; by left).
  cbn [me_interval me_maxEntries me_checkpoints me_sortedSeqs]. rewrite (map_size_delete_Some _ _ Hold).
  split_and!; auto; try lia.
  - intros s. rewrite lookup_delete_is_Some, <-Hk, elem_of_cons. split; [|naive_solver].
    intros Hin. specialize (Hlt s Hin). split; [lia|by right].
  - etrans; [apply delete_subseteq|done].
  - intros H. exfalso. pose proof (Hall' H) as Heq. rewrite Heq in E, Hfull.
    rewrite map_size_insert_None in H by done. lia.
Qed.

Lemma memo_step_ok interval maxEntries m spec o :
  0 < maxEntries → memo_ok interval maxEntries m spec →
  memo_ok interval maxEntries (memo_step m o) (unbounded_step interval spec o).
Proof.
  intros Hpos Hok. destruct o as [sh seq state force|]; cbn [memo_step unbounded_step].
  2: { destruct Hok. constructor; cbn; auto; [constructor| |rewrite map_size_empty; lia].
       intros s. rewrite lookup_empty. split; [by intros ?%not_elem_of_nil|by intros []]. }
  unfold MaybeMemoize. rewrite (mo_interval _ _ _ _ Hok). destruct (negb force && _); [done|].
  destruct (evict_ok interval maxEntries m spec seq Hpos Hok) as (Hi & Hm & Hs & Hk & Hsub & Hlt & Hle & Hall).
  set (m' := evict seq m) in *. clearbody m'. cbn [snd].
  constructor; cbn [me_interval me_maxEntries me_checkpoints me_sortedSeqs]; auto.
  - destruct (me_checkpoints m' !! seq) eqn:E; [done|]. apply sort_numbers. rewrite shuffle_perm.
    apply NoDup_app. split_and!; [by apply sorted_numbers_NoDup| |apply NoDup_singleton].
    intros s Hin ->%list_elem_of_singleton. apply Hk in Hin. rewrite E in Hin. by destruct Hin.
  - intros s. rewrite lookup_insert_is_Some'. destruct (me_checkpoints m' !! seq) eqn:E.
    + rewrite Hk. split; [by right|]. intros [<-|?]; [by rewrite E|done].
    + rewrite sort_slice_perm, shuffle_perm, elem_of_app, list_elem_of_singleton, Hk. naive_solver.
  - rewrite map_size_insert. destruct (me_checkpoints m' !! seq) eqn:E; cbn; [lia|]. specialize (Hlt eq_refl). lia.
  - by apply insert_mono.
  - intros H. f_equal. apply Hall. rewrite map_size_insert in *. by destruct (spec !! seq).
Qed.

Lemma memo_all_ok interval maxEntries ops m spec :
  0 < maxEntries → memo_ok interval maxEntries m spec →
  memo_ok interval maxEntries (foldl memo_step m ops) (foldl (unbounded_step interval) spec ops).
Proof.
  intros Hpos. revert m spec. induction ops as [|o ops IH]; intros m spec Hok; [done|].
  cbn [foldl]. by apply IH, memo_step_ok.
Qed.

Lemma numbers_lookup_lt l i j x y :
  StronglySorted Z.lt l → l !! i = Some x → l !! j = Some y → (i < j)%nat → x < y.
Proof.
  intros Hs. revert i j. induction Hs as [|a l Hl IH Ha]; intros i j Hi Hj Hij; [done|].
  destruct j as [|j]; [lia|]. cbn in Hj. destruct i as [|i]; cbn in Hi.
  - injection Hi as <-. rewrite Forall_forall in Ha. apply Ha. by eapply list_elem_of_lookup_2.
  - apply (IH i j); [done|done|lia].
Qed.

(** The search returns the greatest number that is not after the target. *)
Lemma Find_spec interval maxEntries m spec t :
  memo_ok interval maxEntries m spec →
  match FindNearestCheckpoint t m with
  | Some (s, st) => s <= t ∧ me_checkpoints m !! s = Some st ∧
      (∀ s', is_Some (me_checkpoints m !! s') → s' <= t → s' <= s)
  | None => ∀ s', is_Some (me_checkpoints m !! s') → t < s'
  end.
Proof.
  intros [_ _ Hs Hk _ _ _]. unfold FindNearestCheckpoint. cbv zeta.
  set (l := me_sortedSeqs m) in *. set (f := λ i, t <? default 0 (l !! i)).
  assert (∀ i s, l !! i = Some s → f i = (t <? s)) as Hf by (intros i s E; unfold f; by rewrite E).
  destruct (sort_Search_spec f (length l)) as (Hle & Hlo & Hhi).
  { intros i j Hij Hj Hi. destruct (lookup_lt_is_Some_2 l j Hj) as [y Hy].
    destruct (lookup_lt_is_Some_2 l i) as [x Hx]; [lia|]. rewrite (Hf i x Hx) in Hi. rewrite (Hf j y Hy).
    destruct (decide (i = j)) as [->|]; [congruence|].
    pose proof (numbers_lookup_lt l i j x y Hs Hx Hy ltac:(lia)). lia. }
  destruct (sort_Search (length l) f) as [|i].
  - intros s' [j Hj]%Hk%list_elem_of_lookup_1. pose proof (lookup_lt_Some _ _ _ Hj).
    specialize (Hhi j ltac:(lia) ltac:(done)). rewrite (Hf j s' Hj) in Hhi. lia.
  - destruct (lookup_lt_is_Some_2 l i) as [s Hi]; [lia|]. rewrite Hi. cbn [default from_option id].
    assert (is_Some (me_checkpoints m !! s)) as [st Hst] by (apply Hk; by eapply list_elem_of_lookup_2).
    rewrite Hst. cbn [default from_option id]. split_and!; [|done|].
    + specialize (Hlo i ltac:(lia)). rewrite (Hf i s Hi) in Hlo. lia.
    + intros s' [j Hj]%Hk%list_elem_of_lookup_1 Ht. destruct (decide (j <= i)%nat) as [Hji|Hji].
      * destruct (decide (j = i)) as [->|]; [simplify_eq; lia|].
        pose proof (numbers_lookup_lt l j i s' s Hs Hj Hi ltac:(lia)). lia.
      * pose proof (lookup_lt_Some _ _ _ Hj). specialize (Hhi j ltac:(lia) ltac:(done)). rewrite (Hf j s' Hj) in Hhi. lia.
Qed.

(** C25: The memoizer refines a map of all checkpoints.  After any calls it holds at most its limit of
    checkpoints, each with the state that was memoized last under its number, and every one as long as no
    more than the limit of numbers were memoized since the last [Clear]; [FindNearestCheckpoint] returns the
    held checkpoint with the greatest number up to the target, and nothing only if every one is after it. *)
Theorem memoizer_nearest interval maxEntries ops t :
  let m0 := NewStreamMemoizer interval maxEntries in
  let m := foldl memo_step m0 ops in
  let spec := foldl (unbounded_step (me_interval m0)) ∅ ops in
  Z.of_nat (Memoizer_Len m) <= me_maxEntries m0 ∧
  me_checkpoints m ⊆ spec ∧
  (Z.of_nat (size spec) <= me_maxEntries m0 → me_checkpoints m = spec) ∧
  match FindNearestCheckpoint t m with
  | Some (s, st) => s <= t ∧ me_checkpoints m !! s = Some st ∧
      (∀ s', is_Some (me_checkpoints m !! s') → s' <= t → s' <= s)
  | None => ∀ s', is_Some (me_checkpoints m !! s') → t < s'
  end.
Proof.
  cbv zeta. set (m0 := NewStreamMemoizer interval maxEntries).
  assert (0 < me_maxEntries m0) as Hpos by (cbn; case_match; lia).
  assert (memo_ok (me_interval m0) (me_maxEntries m0) m0 ∅) as H0.
  { constructor; try done; [constructor| |cbn [me_checkpoints m0 NewStreamMemoizer]; rewrite map_size_empty; lia].
    intros s. cbn. rewrite lookup_empty. split; [by intros ?%not_elem_of_nil|by intros []]. }
  pose proof (memo_all_ok _ _ ops m0 ∅ Hpos H0) as Hok.
  split_and!; [apply Hok|apply Hok|apply Hok|by eapply Find_spec].
Qed.

(** * The difference of two states *)

Lemma elem_of_fields (sh : shuffle) (g : string * string → option FieldDiff) (m : gmap string string) f :
  f ∈ sort_slice field_less (sh _ (omap g (range_map sh m))) ↔ ∃ k v, m !! k = Some v ∧ g (k, v) = Some f.
Proof.
  rewrite sort_slice_perm, shuffle_perm, list_elem_of_omap. split.
  - intros ([k v] & Hin & Hg). apply elem_of_range_map in Hin. eauto.
  - intros (k & v & Hin & Hg). exists (k, v). split; [by apply elem_of_range_map|done].
Qed.

Lemma no_fields (l : list FieldDiff) : (0 <? Z.of_nat (length l)) = false ↔ ∀ f, f ∉ l.
Proof.
  destruct l as [|f l]; cbn [length].
  - split; [intros _ f; apply not_elem_of_nil|done].
  - split; [intros H; apply Z.ltb_ge in H; lia|]. intros H. destruct (H f). by left.
Qed.

(** The difference of two states is exact: a field is reported as added, removed or modified exactly
    when it is, with the values of both sides, and no divergence is reported exactly when the states are
    equal, in whatever order the maps are visited. *)
Theorem DiffState_exact sh stepID original replayed :
  let d := DiffState sh stepID original replayed in
  (∀ f, f ∈ sd_Added d ↔ original !! fd_Key f = None ∧ replayed !! fd_Key f = Some (fd_Replayed f) ∧ fd_Original f = "") ∧
  (∀ f, f ∈ sd_Removed d ↔ original !! fd_Key f = Some (fd_Original f) ∧ replayed !! fd_Key f = None ∧ fd_Replayed f = "") ∧
  (∀ f, f ∈ sd_Modified d ↔ original !! fd_Key f = Some (fd_Original f) ∧ replayed !! fd_Key f = Some (fd_Replayed f) ∧
        fd_Original f ≠ fd_Replayed f) ∧
  (HasDivergence d = false ↔ original = replayed).
Proof.
  cbv zeta. set (d := DiffState _ _ _ _).
  assert (∀ f, f ∈ sd_Added d ↔ original !! fd_Key f = None ∧ replayed !! fd_Key f = Some (fd_Replayed f) ∧ fd_Original f = "") as HA.
  { intros [k o r]. cbn [sd_Added d DiffState]. rewrite elem_of_fields. unfold added_field. cbn. split.
    - intros (k' & v & Hv & E). destruct (original !! k') eqn:F; naive_solver.
    - intros (H1 & H2 & ->). exists k, r. by rewrite H1. }
  assert (∀ f, f ∈ sd_Removed d ↔ original !! fd_Key f = Some (fd_Original f) ∧ replayed !! fd_Key f = None ∧ fd_Replayed f = "") as HR.
  { intros [k o r]. cbn [sd_Removed d DiffState]. rewrite elem_of_fields. unfold removed_field. cbn. split.
    - intros (k' & v & Hv & E). destruct (replayed !! k') eqn:F; naive_solver.
    - intros (H1 & H2 & ->). exists k, o. by rewrite H2. }
  assert (∀ f, f ∈ sd_Modified d ↔ original !! fd_Key f = Some (fd_Original f) ∧ replayed !! fd_Key f = Some (fd_Replayed f) ∧
        fd_Original f ≠ fd_Replayed f) as HM.
  { intros [k o r]. cbn [sd_Modified d DiffState]. rewrite elem_of_fields. unfold modified_field. cbn. split.
    - intros (k' & v & Hv & E). destruct (replayed !! k') eqn:F; [|done]. case_bool_decide; naive_solver.
    - intros (H1 & H2 & Hne). exists k, o. rewrite H2, bool_decide_false by done. done. }
  split_and!; auto. unfold HasDivergence. rewrite !orb_false_iff, !no_fields. split.
  - intros [[NA NR] NM]. apply map_eq. intros k.
    destruct (original !! k) as [v|] eqn:E, (replayed !! k) as [w|] eqn:F; [|exfalso..|done].
    + destruct (decide (v = w)) as [->|Hne]; [done|]. destruct (NM (MkFieldDiff k v w)). by apply HM.
    + destruct (NR (MkFieldDiff k v "")). by apply HR.
    + destruct (NA (MkFieldDiff k "" w)). by apply HA.
  - intros ->. split_and!; intros f Hf; [apply HA in Hf|apply HR in Hf|apply HM in Hf]; naive_solver congruence.
Qed.
