(* ===== verification/LoadBalancer.v ===== *)
(** The load balancer: [internal/loadbalancer/loadbalancer.go].

    Targets are shared by pointer between the map, the lists and the callers that hold a connection: they
    live in a heap, and the balancer holds their addresses.  [Select] draws its random numbers [r1] and
    [r2] from the argument.  The operations are written for any hash of the keys, and [hashKey] is the one
    of the program. *)
From stdpp Require Import pretty.
From S2P Require Import Prelude Errors Sha256 SortSearch.
Local Open Scope Z_scope.

Abbreviation SNoHealthyTargets := (SOther "loadbalancer: no healthy targets available").
Abbreviation STargetNotFound := (SOther "loadbalancer: target not found").
Abbreviation SDuplicateTarget := (SOther "loadbalancer: target already exists").

Inductive Strategy :=
  | StrategyRoundRobin
  | StrategyWeightedRoundRobin
  | StrategyLeastConnections
  | StrategyPowerOfTwoChoices
  | StrategyConsistentHash
  | StrategyOther (n : Z).
#[export] Instance Strategy_eq_dec : EqDecision Strategy.
Proof. solve_decision. Defined.

Record Target := MkTarget {
  t_ID : string;
  t_Address : string;
  t_Weight : Z;
  t_Healthy : bool;
  t_ActiveConns : Z;
  t_TotalRequests : Z;
  t_currentWeight : Z
}.

Record vnode := MkVnode { vn_hash : Z; vn_targetID : string }.

(** Addresses of targets, and the heap that holds them. *)
Abbreviation ptr := nat (only parsing).
Abbreviation heap := (gmap nat Target) (only parsing).

Record Balancer := MkBalancer {
  b_strategy : Strategy;
  b_targets : gmap string ptr;
  b_targetList : list ptr;
  b_healthyList : list ptr;
  b_rrIndex : Z;
  b_vnodesPerTgt : Z;
  b_ring : list vnode;
  b_heap : heap;
  b_next : ptr
}.

Definition New (strategy : Strategy) : Balancer := MkBalancer strategy ∅ [] [] 0 50 [] ∅ 0.

Definition nil_target : Target := MkTarget "" "" 0 false 0 0 0.
Definition deref (h : heap) (p : ptr) : Target := default nil_target (h !! p).

Definition set_heap (h : heap) (b : Balancer) : Balancer :=
  MkBalancer (b_strategy b) (b_targets b) (b_targetList b) (b_healthyList b) (b_rrIndex b) (b_vnodesPerTgt b)
    (b_ring b) h (b_next b).

Definition hashKey (key : string) : Z := word_of (take 8 (sha256 (bytes_of_string key))).

Section balancer.
Context (hash : string → Z).

(** The virtual nodes of a target. *)
Definition vnodes (perTgt : Z) (t : Target) : list vnode :=
  (λ i : nat, MkVnode (hash (t_ID t +:+ "#" +:+ pretty (Z.of_nat i))) (t_ID t))
    <$> seq 0 (Z.to_nat (wrap_s 64 (perTgt * t_Weight t))).

Definition id_less (h : heap) (p q : ptr) : bool := string_ltb (t_ID (deref h p)) (t_ID (deref h q)).
Definition hash_less (v w : vnode) : bool := vn_hash v <? vn_hash w.

Definition rebuildListsLocked (sh : shuffle) (b : Balancer) : Balancer :=
  let h := b_heap b in
  let targetList := range_values sh (b_targets b) in
  let healthyList := sort_slice (id_less h) (sh _ (filter (λ p, t_Healthy (deref h p) = true) targetList)) in
  let ring :=
    if bool_decide (b_strategy b = StrategyConsistentHash) then
      sort_slice hash_less (sh _ (concat ((λ p, vnodes (b_vnodesPerTgt b) (deref h p)) <$> healthyList)))
    else [] in
  MkBalancer (b_strategy b) (b_targets b) targetList healthyList (b_rrIndex b) (b_vnodesPerTgt b) ring h (b_next b).

Definition AddTarget (sh : shuffle) (id address : string) (weight : Z) (b : Balancer) : option error * Balancer :=
  match b_targets b !! id with
  | Some _ => (Some (ESentinel SDuplicateTarget), b)
  | None =>
      let weight := if weight <=? 0 then 1 else weight in
      let t := MkTarget id address weight true 0 0 0 in
      (None, rebuildListsLocked sh
        (MkBalancer (b_strategy b) (<[id := b_next b]> (b_targets b)) (b_targetList b) (b_healthyList b)
           (b_rrIndex b) (b_vnodesPerTgt b) (b_ring b) (<[b_next b := t]> (b_heap b)) (S (b_next b))))
  end.

Definition RemoveTarget (sh : shuffle) (id : string) (b : Balancer) : option error * Balancer :=
  match b_targets b !! id with
  | None => (Some (ESentinel STargetNotFound), b)
  | Some _ =>
      (None, rebuildListsLocked sh
        (MkBalancer (b_strategy b) (delete id (b_targets b)) (b_targetList b) (b_healthyList b)
           (b_rrIndex b) (b_vnodesPerTgt b) (b_ring b) (b_heap b) (b_next b)))
  end.

Definition set_Healthy (healthy : bool) (t : Target) : Target :=
  MkTarget (t_ID t) (t_Address t) (t_Weight t) healthy (t_ActiveConns t) (t_TotalRequests t) (t_currentWeight t).
Definition set_currentWeight (w : Z) (t : Target) : Target :=
  MkTarget (t_ID t) (t_Address t) (t_Weight t) (t_Healthy t) (t_ActiveConns t) (t_TotalRequests t) w.
Definition set_conns (active total : Z) (t : Target) : Target :=
  MkTarget (t_ID t) (t_Address t) (t_Weight t) (t_Healthy t) active total (t_currentWeight t).

Definition SetHealth (sh : shuffle) (id : string) (healthy : bool) (b : Balancer) : option error * Balancer :=
  match b_targets b !! id with
  | None => (Some (ESentinel STargetNotFound), b)
  | Some p =>
      (None, rebuildListsLocked sh (set_heap (<[p := set_Healthy healthy (deref (b_heap b) p)]> (b_heap b)) b))
  end.

(** * Selection *)

(** The loop of the weighted round robin over the healthy targets: the heap, [totalWeight] and [best]. *)
Fixpoint weigh (l : list ptr) (h : heap) (totalWeight : Z) (best : option ptr) : heap * Z * option ptr :=
  match l with
  | [] => (h, totalWeight, best)
  | p :: l' =>
      let t := deref h p in
      let t := set_currentWeight (wrap_s 64 (t_currentWeight t + t_Weight t)) t in
      let h := <[p := t]> h in
      let totalWeight := wrap_s 64 (totalWeight + t_Weight t) in
      let best :=
        match best with
        | None => Some p
        | Some q => if t_currentWeight (deref h q) <? t_currentWeight t then Some p else Some q
        end in
      weigh l' h totalWeight best
  end.

Definition select_weighted (b : Balancer) : option ptr * Balancer :=
  let '(h, totalWeight, best) := weigh (b_healthyList b) (b_heap b) 0 None in
  match best with
  | None => (None, set_heap h b)
  | Some p =>
      let t := deref h p in
      (Some p, set_heap (<[p := set_currentWeight (wrap_s 64 (t_currentWeight t - totalWeight)) t]> h) b)
  end.

Fixpoint least (h : heap) (l : list ptr) (minConns : Z) (chosen : option ptr) : option ptr :=
  match l with
  | [] => chosen
  | p :: l' =>
      let conns := t_ActiveConns (deref h p) in
      if conns <? minConns then least h l' conns (Some p) else least h l' minConns chosen
  end.

Definition select_round_robin (b : Balancer) : option ptr * Balancer :=
  let idx := b_rrIndex b in
  (b_healthyList b !! Z.to_nat (idx mod Z.of_nat (length (b_healthyList b))),
   MkBalancer (b_strategy b) (b_targets b) (b_targetList b) (b_healthyList b) (wrap_u 64 (idx + 1)) (b_vnodesPerTgt b)
     (b_ring b) (b_heap b) (b_next b)).

(** [rand.Intn(n)] from a random number. *)
Definition Intn (r n : nat) : nat := r mod n.

Definition select_two (r1 r2 : nat) (b : Balancer) : option ptr :=
  let n := length (b_healthyList b) in
  if bool_decide (n = 1%nat) then b_healthyList b !! 0%nat
  else
    let i := Intn r1 n in
    let j := Intn r2 (n - 1) in
    let j := if (i <=? j)%nat then S j else j in
    match b_healthyList b !! i, b_healthyList b !! j with
    | Some t1, Some t2 =>
        if t_ActiveConns (deref (b_heap b) t1) <=? t_ActiveConns (deref (b_heap b) t2) then Some t1 else Some t2
    | _, _ => None
    end.

Definition select_hash (key : string) (b : Balancer) : option ptr :=
  let idx := ring_index (vn_hash <$> b_ring b) (hash key) in
  match b_ring b !! idx with
  | Some v => b_targets b !! vn_targetID v
  | None => None
  end.

Definition choose (key : string) (r1 r2 : nat) (b : Balancer) : option ptr * Balancer :=
  match b_strategy b with
  | StrategyRoundRobin => select_round_robin b
  | StrategyWeightedRoundRobin => select_weighted b
  | StrategyLeastConnections => (least (b_heap b) (b_healthyList b) (2 ^ 62 - 1) None, b)
  | StrategyPowerOfTwoChoices => (select_two r1 r2 b, b)
  | StrategyConsistentHash => (select_hash key b, b)
  | StrategyOther _ => (None, b)
  end.

(** A nil [chosen] is dereferenced. *)
Definition Select (key : string) (r1 r2 : nat) (b : Balancer) : outcome (result error ptr) * Balancer :=
  if bool_decide (length (b_healthyList b) = 0%nat) then (Returns (Err (ESentinel SNoHealthyTargets)), b)
  else if bool_decide (b_strategy b = StrategyConsistentHash) && bool_decide (length (b_ring b) = 0%nat) then
    (Returns (Err (ESentinel SNoHealthyTargets)), b)
  else
    match choose key r1 r2 b with
    | (None, b) => (Panics, b)
    | (Some p, b) =>
        let t := deref (b_heap b) p in
        (Returns (Ok p),
         set_heap (<[p := set_conns (wrap_s 64 (t_ActiveConns t + 1)) (wrap_s 64 (t_TotalRequests t + 1)) t]> (b_heap b)) b)
    end.

End balancer.

(** The function that [Select] returns with the target. *)
Definition done (p : ptr) (b : Balancer) : Balancer :=
  set_heap (alter (λ t, set_conns (wrap_s 64 (t_ActiveConns t - 1)) (t_TotalRequests t) t) p (b_heap b)) b.

(** The counters of the copy are zero. *)
Definition GetTarget (id : string) (b : Balancer) : result error Target :=
  match b_targets b !! id with
  | None => Err (ESentinel STargetNotFound)
  | Some p =>
      let t := deref (b_heap b) p in
      Ok (MkTarget (t_ID t) (t_Address t) (t_Weight t) (t_Healthy t) 0 0 0)
  end.

(** * Theorems

    What the load balancer promises: it selects registered, healthy targets, and one with the fewest
    connections where that is asked for; the weighted round robin gives every target its weight in each
    full round; and consistent hashing moves only the keys of a target that leaves. *)

Section facts.
Context (hash : string → Z).

(** * Histories *)

Inductive lb_op :=
  | OAdd (sh : shuffle) (id address : string) (weight : Z)
  | ORemove (sh : shuffle) (id : string)
  | OHealth (sh : shuffle) (id : string) (healthy : bool)
  | OSelect (key : string) (r1 r2 : nat)
  | ODone (p : nat).

Definition lb_step (b : Balancer) (o : lb_op) : Balancer :=
  match o with
  | OAdd sh id address weight => (AddTarget hash sh id address weight b).2
  | ORemove sh id => (RemoveTarget hash sh id b).2
  | OHealth sh id healthy => (SetHealth hash sh id healthy b).2
  | OSelect key r1 r2 => (Select hash key r1 r2 b).2
  | ODone p => done p b
  end.

(** Weights are so small that the number of virtual nodes does not overflow. *)
Definition op_ok (o : lb_op) : Prop :=
  match o with
  | OAdd _ _ _ weight => weight <= 2 ^ 50
  | _ => True
  end.

Definition registered (b : Balancer) (p : nat) (t : Target) : Prop :=
  b_targets b !! t_ID t = Some p ∧ b_heap b !! p = Some t.

(** The parts of a target that a selection leaves alone. *)
Definition same_target (t u : Target) : Prop :=
  t_ID t = t_ID u ∧ t_Weight t = t_Weight u ∧ t_Healthy t = t_Healthy u.

Record lb_ok (b : Balancer) : Prop := {
  ok_targets : ∀ id p, b_targets b !! id = Some p → ∃ t, b_heap b !! p = Some t ∧ t_ID t = id ∧ 0 < t_Weight t <= 2 ^ 50;
  ok_fresh : ∀ p, (b_next b <= p)%nat → b_heap b !! p = None;
  ok_nodup : NoDup (b_healthyList b);
  ok_healthy : ∀ p, p ∈ b_healthyList b ↔ ∃ t, registered b p t ∧ t_Healthy t = true;
  ok_per : b_vnodesPerTgt b = 50;
  ok_sorted : StronglySorted Z.le (vn_hash <$> b_ring b);
  ok_ring : ∀ v, v ∈ b_ring b ↔
    b_strategy b = StrategyConsistentHash ∧ ∃ p t, registered b p t ∧ t_Healthy t = true ∧ v ∈ vnodes hash 50 t
}.

Lemma deref_some h p t : h !! p = Some t → deref h p = t.
Proof. unfold deref. by intros ->. Qed.

Lemma deref_insert_eq h p t : deref (<[p := t]> h) p = t.
Proof. unfold deref. by rewrite lookup_insert_eq. Qed.
Lemma deref_insert_ne h p q t : p ≠ q → deref (<[q := t]> h) p = deref h p.
Proof. intros. unfold deref. by rewrite lookup_insert_ne by done. Qed.

Lemma sorted_hashes (l : list vnode) : StronglySorted Z.le (vn_hash <$> sort_slice hash_less l).
Proof.
  assert (Sorted (not_after hash_less) (sort_slice hash_less l)) as Hs.
  { apply sort_slice_sorted. unfold hash_less. intros x y. lia. }
  apply Sorted_StronglySorted in Hs; [|intros x y z; unfold not_after, hash_less; lia].
  induction Hs as [|v k Hk IH Hv]; csimpl; constructor; [done|].
  apply Forall_fmap. eapply Forall_impl; [exact Hv|]. unfold not_after, hash_less. cbn. lia.
Qed.

(** The lists are rebuilt from the map and the heap. *)
Lemma rebuild_ok sh b :
  (∀ id p, b_targets b !! id = Some p → ∃ t, b_heap b !! p = Some t ∧ t_ID t = id ∧ 0 < t_Weight t <= 2 ^ 50) →
  (∀ p, (b_next b <= p)%nat → b_heap b !! p = None) → b_vnodesPerTgt b = 50 →
  lb_ok (rebuildListsLocked hash sh b).
Proof.
  intros Ht Hf Hper. unfold rebuildListsLocked.
  set (hl := sort_slice (id_less _) _).
  assert (∀ p, p ∈ hl ↔ ∃ t, (b_targets b !! t_ID t = Some p ∧ b_heap b !! p = Some t) ∧ t_Healthy t = true) as Hhl.
  { intros p. subst hl. rewrite sort_slice_perm, shuffle_perm, list_elem_of_filter, elem_of_range_values. split.
    - intros [Hh [id Hid]]. destruct (Ht id p Hid) as (t & Et & <- & _). rewrite (deref_some _ _ _ Et) in Hh. eauto.
    - intros (t & [Hid Et] & Hh). rewrite (deref_some _ _ _ Et). eauto. }
  assert (NoDup hl) as Hnd.
  { subst hl. rewrite sort_slice_perm, shuffle_perm. apply NoDup_filter. unfold range_values.
    apply NoDup_fmap_2_strong; [|rewrite range_map_perm; apply NoDup_map_to_list].
    intros [i p] [j q] Hi%elem_of_range_map Hj%elem_of_range_map E. cbn in E. subst q.
    destruct (Ht i p Hi) as (t & Et & <- & _), (Ht j p Hj) as (u & Eu & <- & _). congruence. }
  clearbody hl. constructor; cbn [b_targets b_heap b_next b_healthyList b_vnodesPerTgt b_ring b_strategy]; auto.
  - case_bool_decide; [apply sorted_hashes|constructor].
  - intros v. unfold registered. cbn [b_targets b_heap]. case_bool_decide as Hs.
    + rewrite sort_slice_perm, shuffle_perm, list_elem_of_In, in_concat. setoid_rewrite <-list_elem_of_In. rewrite Hper. split.
      * intros (l & Hl & Hv). apply list_elem_of_fmap in Hl as (p & -> & Hp). apply Hhl in Hp as (t & [Hid Et] & Hh).
        rewrite (deref_some _ _ _ Et) in Hv. split; [done|]. exists p, t. done.
      * intros (_ & p & t & [Hid Et] & Hh & Hv). exists (vnodes hash 50 t). split; [|done]. apply list_elem_of_fmap.
        exists p. rewrite (deref_some _ _ _ Et). split; [done|]. apply Hhl. eauto.
    + split; [by intros ?%not_elem_of_nil|]. by intros [? _].
Qed.

(** A change of the heap that keeps what the lists depend on. *)
Definition hsame (h h' : gmap nat Target) : Prop :=
  ∀ p, match h !! p with Some t => ∃ u, h' !! p = Some u ∧ same_target t u | None => h' !! p = None end.

#[export] Instance hsame_preorder : PreOrder hsame.
Proof.
  split.
  - intros h p. destruct (h !! p) as [t|]; [by exists t|done].
  - intros h1 h2 h3 H12 H23 p. specialize (H12 p). specialize (H23 p). destruct (h1 !! p) as [t|].
    + destruct H12 as (u & E & A1 & A2 & A3). rewrite E in H23. destruct H23 as (v & Ev & B1 & B2 & B3).
      exists v. split; [done|]. split_and!; congruence.
    + by rewrite H12 in H23.
Qed.

Lemma set_heap_ok b h : lb_ok b → hsame (b_heap b) h → lb_ok (set_heap h b).
Proof.
  intros [Ht Hf Hnd Hhl Hper Hs Hr] Hh.
  assert (∀ p, (∃ t, registered b p t ∧ t_Healthy t = true) ↔ ∃ t, registered (set_heap h b) p t ∧ t_Healthy t = true) as Hreg.
  { intros p. unfold registered. cbn. specialize (Hh p). destruct (b_heap b !! p) as [t|].
    - destruct Hh as (u & -> & E1 & E2 & E3). split; intros (x & [Hx [= <-]] & ?); [exists u|exists t]; by rewrite ?E1, ?E3, <-?E1, <-?E3 in *.
    - rewrite Hh. split; intros (x & [_ [=]] & _). }
  constructor; cbn [set_heap b_targets b_heap b_next b_healthyList b_vnodesPerTgt b_ring b_strategy]; auto.
  - intros id p Hid. destruct (Ht id p Hid) as (t & Et & E & Hw). specialize (Hh p). rewrite Et in Hh.
    destruct Hh as (u & -> & E1 & E2 & E3). exists u. by rewrite <-E1, <-E2.
  - intros p Hp. specialize (Hh p). by rewrite (Hf p Hp) in Hh.
  - intros p. by rewrite Hhl.
  - intros v. rewrite Hr. unfold registered. cbn. split; intros (Hc & p & t & [Hid Et] & Hy & Hv); (split; [done|]); specialize (Hh p).
    + rewrite Et in Hh. destruct Hh as (u & Eu & E1 & E2 & E3). exists p, u. unfold vnodes in *. by rewrite <-E1, <-E2, <-E3.
    + destruct (b_heap b !! p) as [u|] eqn:Eu; [|congruence]. destruct Hh as (u' & Eu' & E1 & E2 & E3). simplify_eq.
      exists p, u. unfold vnodes in *. by rewrite E1, E2, E3.
Qed.

Lemma insert_same h p t : same_target (deref h p) t → is_Some (h !! p) → hsame h (<[p := t]> h).
Proof.
  intros Hs [x Hx] q. rewrite (deref_some _ _ _ Hx) in Hs. destruct (decide (q = p)) as [->|Hne].
  - rewrite Hx, lookup_insert_eq. eauto.
  - rewrite lookup_insert_ne by done. destruct (h !! q); [|done]. by eexists.
Qed.

Lemma done_ok p b : lb_ok b → lb_ok (done p b).
Proof.
  intros Hok. apply set_heap_ok; [done|]. intros q. destruct (decide (q = p)) as [->|Hne].
  - rewrite lookup_alter_eq. destruct (b_heap b !! p); [|done]. by eexists.
  - rewrite lookup_alter_ne by done. destruct (b_heap b !! q); [|done]. by eexists.
Qed.

(** * The loop of the weighted round robin *)

Definition cw (h : gmap nat Target) (p : nat) : Z := t_currentWeight (deref h p).
Definition wt (h : gmap nat Target) (p : nat) : Z := t_Weight (deref h p).
Fixpoint total (f : nat → Z) (l : list nat) : Z :=
  match l with
  | [] => 0
  | p :: l' => f p + total f l'
  end.

Lemma credit_insert_eq h p t : cw (<[p := t]> h) p = t_currentWeight t ∧ wt (<[p := t]> h) p = t_Weight t.
Proof. unfold cw, wt. by rewrite deref_insert_eq. Qed.
Lemma credit_insert_ne h p q t : p ≠ q → cw (<[q := t]> h) p = cw h p ∧ wt (<[q := t]> h) p = wt h p.
Proof. intros. unfold cw, wt. by rewrite deref_insert_ne. Qed.

Lemma total_ext f g l : (∀ p, p ∈ l → f p = g p) → total f l = total g l.
Proof.
  intros H. induction l as [|p l IH]; cbn; [done|]. rewrite H by by left. f_equal. apply IH. intros q Hq. apply H. by right.
Qed.
Lemma total_add f g l : total (λ p, f p + g p) l = total f l + total g l.
Proof. induction l; cbn; lia. Qed.
Lemma total_scale c f l : total (λ p, c * f p) l = c * total f l.
Proof. induction l; cbn; lia. Qed.
Lemma weights_nonneg f l : (∀ p, p ∈ l → 0 <= f p) → 0 <= total f l.
Proof.
  intros H. induction l as [|p l IH]; cbn; [lia|]. pose proof (H p ltac:(by left)).
  assert (0 <= total f l) by (apply IH; intros q Hq; apply H; by right). lia.
Qed.
Lemma total_le_length f l c : (∀ p, p ∈ l → f p <= c) → total f l <= Z.of_nat (length l) * c.
Proof.
  intros H. induction l as [|p l IH]; cbn [total length]; [lia|]. pose proof (H p ltac:(by left)).
  assert (total f l <= Z.of_nat (length l) * c) by (apply IH; intros q Hq; apply H; by right). lia.
Qed.
Lemma total_indicator q l : NoDup l → q ∈ l → total (λ p, if decide (p = q) then 1 else 0) l = 1.
Proof.
  induction 1 as [|p l Hp Hnd IH]; [by intros ?%not_elem_of_nil|]. cbn. intros [->|Hq]%elem_of_cons.
  - rewrite decide_True by done. rewrite (total_ext _ (λ _, 0)); [|intros x Hx; rewrite decide_False by congruence; done].
    clear. induction l; cbn in *; lia.
  - rewrite decide_False by congruence. by rewrite IH.
Qed.
(** Where no summand is above its counterpart and the sums agree, the summands do. *)
Lemma total_tight f g l : (∀ p, p ∈ l → f p <= g p) → total f l = total g l → ∀ p, p ∈ l → f p = g p.
Proof.
  intros Hle. induction l as [|q l IH]; cbn; intros E p Hp; [by apply not_elem_of_nil in Hp|].
  assert (total f l <= total g l) as Hl.
  { pose proof (weights_nonneg (λ p, g p + - f p) l) as H. rewrite (total_add g (λ p, - f p)) in H.
    assert (total (λ p, - f p) l = - total f l) as Hn by (clear; induction l; cbn; lia). rewrite Hn in H.
    apply Z.le_0_sub. replace (total g l - total f l) with (total g l + - total f l) by lia. apply H.
    intros x Hx. pose proof (Hle x ltac:(by right)). lia. }
  pose proof (Hle q ltac:(by left)). apply elem_of_cons in Hp as [->|Hp]; [lia|].
  apply IH; [intros x Hx; apply Hle; by right|lia|done].
Qed.

(** One comparison of the loop. *)
Lemma better_spec h (best : option nat) p c :
  cw h p = c →
  ∃ y, match best with None => Some p | Some q => if cw h q <? c then Some p else Some q end = Some y ∧
    (y = p ∨ best = Some y) ∧ ∀ x, x = p ∨ best = Some x → cw h x <= cw h y.
Proof.
  intros <-. destruct best as [q|].
  - destruct (Z.ltb_spec (cw h q) (cw h p)); eexists; (split; [done|]); (split; [auto|]);
      intros x [->|[= ->]]; lia.
  - exists p. split; [done|]. split; [auto|]. intros x [->|?]; [lia|done].
Qed.

(** What the loop does when nothing overflows: every weight is added, and the best has the greatest
    current weight of all, or of those that were better before. *)
Lemma weigh_spec l h tw best :
  NoDup l → (∀ p, p ∈ l → is_Some (h !! p)) →
  (∀ p, p ∈ l → - 2 ^ 62 <= cw h p <= 2 ^ 62 ∧ 0 < wt h p < 2 ^ 62) → 0 <= tw → tw + total (wt h) l < 2 ^ 63 →
  (∀ q, best = Some q → q ∉ l) →
  let '(h', tw', best') := weigh l h tw best in
  tw' = tw + total (wt h) l ∧
  (∀ p, h' !! p = if decide (p ∈ l) then Some (set_currentWeight (cw h p + wt h p) (deref h p)) else h !! p) ∧
  match best' with
  | None => best = None ∧ l = []
  | Some q => (q ∈ l ∨ best = Some q) ∧ (∀ p, p ∈ l ∨ best = Some p → cw h' p <= cw h' q)
  end.
Proof.
  revert h tw best. induction l as [|p l IH]; intros h tw best Hnd Hin Hb Htw Hsum Hbest; cbn [weigh].
  { cbn. split; [lia|]. split; [intros p; rewrite decide_False by apply not_elem_of_nil; done|].
    destruct best as [q|]; [|done]. split; [by right|]. intros p [[]%not_elem_of_nil|[= ->]]. lia. }
  apply NoDup_cons in Hnd as [Hp Hnd]. cbn [total] in *.
  destruct (Hin p ltac:(by left)) as [t Ht]. destruct (Hb p ltac:(by left)) as [Hc Hw]. unfold cw, wt in Hc, Hw.
  pose proof (weights_nonneg (wt h) l ltac:(intros q Hq; destruct (Hb q ltac:(by right)); lia)) as Hnn.
  unfold wt at 1 in Hsum. set (d := deref h p) in *. cbn [t_currentWeight t_Weight set_currentWeight].
  rewrite (wrap_s_small 64 (t_currentWeight d + t_Weight d)) by lia.
  rewrite (wrap_s_small 64 (tw + t_Weight d)) by lia.
  set (t' := set_currentWeight (t_currentWeight d + t_Weight d) d). set (h1 := <[p := t']> h).
  assert (∀ q, q ≠ p → h1 !! q = h !! q) as Hne by (intros q Hq; apply lookup_insert_ne; done).
  assert (∀ q, q ∈ l → deref h1 q = deref h q) as Hd.
  { intros q Hq. unfold deref. rewrite Hne; [done|congruence]. }
  assert (total (wt h1) l = total (wt h) l) as Etot by (apply total_ext; intros q Hq; unfold wt; by rewrite Hd).
  assert (cw h1 p = t_currentWeight d + t_Weight d) as Ep by (unfold cw, deref, h1; by rewrite lookup_insert_eq).
  destruct (better_spec h1 best p _ Ep) as (y & Hy & Hyin & Hymax). unfold cw at 1 in Hy. rewrite Hy. clear Hy.
  assert (y ∉ l) as Hyl.
  { destruct Hyin as [->|Hyb]; [done|]. intros Hin'. apply (Hbest y Hyb). by right. }
  specialize (IH h1 (tw + t_Weight d) (Some y) Hnd). destruct (weigh l h1 _ (Some y)) as [[h' tw'] best'].
  destruct IH as (E & Hh & Hm).
  { intros q Hq. rewrite Hne by congruence. apply Hin. by right. }
  { intros q Hq. unfold cw, wt. rewrite Hd by done. apply Hb. by right. }
  { lia. } { rewrite Etot. lia. } { by intros q [= <-]. }
  split; [rewrite E, Etot; change (wt h p) with (t_Weight d); lia|]. split.
  { intros q. rewrite Hh. destruct (decide (q ∈ l)) as [Hq|Hq].
    - rewrite decide_True by (by right). unfold cw, wt. by rewrite Hd.
    - destruct (decide (q = p)) as [->|Hqp].
      + rewrite decide_True by (by left). unfold h1. by rewrite lookup_insert_eq.
      + rewrite decide_False by (rewrite elem_of_cons; tauto). by apply Hne. }
  destruct best' as [q|]; [|by destruct Hm]. destruct Hm as [Hq Hmax]. split.
  { destruct Hq as [Hq|[= <-]]; [left; by right|]. destruct Hyin as [->|]; [left; by left|by right]. }
  intros x Hx. destruct (decide (x ∈ l)) as [Hxl|Hxl]; [apply Hmax; by left|].
  assert (∀ z, z ∉ l → cw h' z = cw h1 z) as Hout by (intros z Hz; unfold cw, deref; by rewrite Hh, decide_False).
  rewrite (Hout x Hxl). transitivity (cw h1 y); [|rewrite <-(Hout y Hyl); apply Hmax; by right].
  apply Hymax. rewrite elem_of_cons in Hx. tauto.
Qed.

(** * Every operation keeps the invariant *)

Lemma hsame_some h h' p : hsame h h' → is_Some (h !! p) → is_Some (h' !! p).
Proof. intros H [t Ht]. specialize (H p). rewrite Ht in H. destruct H as (u & -> & _). done. Qed.

Lemma weigh_same l h tw best :
  (∀ p, p ∈ l → is_Some (h !! p)) →
  let '(h', _, best') := weigh l h tw best in
  hsame h h' ∧ (∀ q, best' = Some q → q ∈ l ∨ best = Some q) ∧ (best' = None → l = [] ∧ best = None).
Proof.
  revert h tw best. induction l as [|p l IH]; intros h tw best Hin; cbn [weigh].
  { split; [reflexivity|]. split; [by right|done]. }
  cbv zeta. set (t := set_currentWeight _ _). set (best1 := match best with None => _ | Some _ => _ end).
  assert (hsame h (<[p := t]> h)) as Hs by (apply insert_same; [done|apply Hin; by left]).
  specialize (IH (<[p := t]> h) (wrap_s 64 (tw + t_Weight t)) best1).
  destruct (weigh l _ _ best1) as [[h' tw'] best'].
  destruct IH as (H1 & H2 & H3); [intros q Hq; eapply hsame_some; [exact Hs|]; apply Hin; by right|].
  assert (∀ q, best1 = Some q → q = p ∨ best = Some q) as Hb.
  { intros q. subst best1. destruct best; [case_match|]; intros [= <-]; auto. }
  split; [by etrans|]. split.
  - intros q Hq. rewrite elem_of_cons. destruct (H2 q Hq) as [?|[->|?]%Hb]; auto.
  - intros [_ Hn]%H3. subst best1. destruct best; [case_match|]; done.
Qed.

Lemma least_spec h l m chosen :
  match least h l m chosen with
  | Some p => (p ∈ l ∧ t_ActiveConns (deref h p) < m ∧ ∀ q, q ∈ l → t_ActiveConns (deref h p) <= t_ActiveConns (deref h q)) ∨
              chosen = Some p ∧ (∀ q, q ∈ l → m <= t_ActiveConns (deref h q))
  | None => chosen = None ∧ (∀ q, q ∈ l → m <= t_ActiveConns (deref h q))
  end.
Proof.
  revert m chosen. induction l as [|p l IH]; intros m chosen; cbn [least].
  { destruct chosen; [right|]; (split; [done|]); intros q Hq; by apply not_elem_of_nil in Hq. }
  cbv zeta. destruct (Z.ltb_spec (t_ActiveConns (deref h p)) m) as [Hlt|Hge].
  - specialize (IH (t_ActiveConns (deref h p)) (Some p)). destruct (least h l _ _) as [x|]; [|by destruct IH].
    left. destruct IH as [(Hx & Hlx & Hall)|([= ->] & Hall)].
    + split; [by right|]. split; [lia|]. intros q [->|Hq]%elem_of_cons; [lia|by apply Hall].
    + split; [by left|]. split; [lia|]. intros q [->|Hq]%elem_of_cons; [lia|by apply Hall].
  - specialize (IH m chosen). destruct (least h l m chosen) as [x|].
    + destruct IH as [(Hx & Hlx & Hall)|(Hx & Hall)]; [left|right].
      * split; [by right|]. split; [done|]. intros q [->|Hq]%elem_of_cons; [lia|by apply Hall].
      * split; [done|]. intros q [->|Hq]%elem_of_cons; [lia|by apply Hall].
    + destruct IH as [Hx Hall]. split; [done|]. intros q [->|Hq]%elem_of_cons; [lia|by apply Hall].
Qed.

Lemma healthy_some b p : lb_ok b → p ∈ b_healthyList b → is_Some (b_heap b !! p).
Proof. intros Hok (t & [_ Ht] & _)%(ok_healthy _ Hok). by exists t. Qed.

Lemma select_hash_healthy key b :
  lb_ok b → b_ring b ≠ [] → ∃ p, select_hash hash key b = Some p ∧ p ∈ b_healthyList b.
Proof.
  intros Hok Hne. unfold select_hash.
  destruct (ring_index_spec (vn_hash <$> b_ring b) (hash key) (ok_sorted _ Hok)) as (k & Hk & _); [by destruct (b_ring b)|].
  rewrite list_lookup_fmap in Hk. destruct (b_ring b !! _) as [v|] eqn:E; [|done].
  apply list_elem_of_lookup_2, (ok_ring _ Hok) in E as (_ & p & t & Hr & Hh & Hv).
  unfold vnodes in Hv. apply list_elem_of_fmap in Hv as (i & -> & _). cbn. exists p.
  split; [apply Hr|]. apply (ok_healthy _ Hok). eauto.
Qed.

(** Whatever is chosen is on the list of healthy targets; nothing is chosen only for an unknown strategy
    and when all connection counts are at the limit. *)
Lemma choose_spec key r1 r2 b :
  lb_ok b → b_healthyList b ≠ [] → (b_strategy b = StrategyConsistentHash → b_ring b ≠ []) →
  let '(o, b') := choose hash key r1 r2 b in
  lb_ok b' ∧ b_healthyList b' = b_healthyList b ∧ b_targets b' = b_targets b ∧ hsame (b_heap b) (b_heap b') ∧
  match o with
  | Some p => p ∈ b_healthyList b ∧
      (b_strategy b = StrategyLeastConnections → ∀ q, q ∈ b_healthyList b →
         t_ActiveConns (deref (b_heap b) p) <= t_ActiveConns (deref (b_heap b) q))
  | None => (∃ n, b_strategy b = StrategyOther n) ∨
      b_strategy b = StrategyLeastConnections ∧ ∀ q, q ∈ b_healthyList b → 2 ^ 62 - 1 <= t_ActiveConns (deref (b_heap b) q)
  end.
Proof.
  intros Hok Hne Hring. assert (0 < length (b_healthyList b))%nat as Hlen by (destruct (b_healthyList b); [done|cbn; lia]).
  unfold choose. destruct (b_strategy b) eqn:Es.
  - unfold select_round_robin. destruct Hok. split; [by constructor|]. split_and!; try done.
    destruct (lookup_lt_is_Some_2 (b_healthyList b) (Z.to_nat (b_rrIndex b mod Z.of_nat (length (b_healthyList b))))) as [p Hp].
    { pose proof (Z.mod_pos_bound (b_rrIndex b) (Z.of_nat (length (b_healthyList b))) ltac:(lia)). lia. }
    rewrite Hp. split; [by eapply list_elem_of_lookup_2|done].
  - unfold select_weighted. pose proof (weigh_same (b_healthyList b) (b_heap b) 0 None (λ p, healthy_some b p Hok)) as H.
    destruct (weigh _ _ _ _) as [[h tw] best]. destruct H as (Hs & Hb & Hn).
    destruct best as [p|]; [|by destruct Hn].
    destruct (Hb p eq_refl) as [Hp|]; [|done].
    assert (hsame (b_heap b) (<[p := set_currentWeight (wrap_s 64 (t_currentWeight (deref h p) - tw)) (deref h p)]> h)) as Hs2.
    { etrans; [exact Hs|]. apply insert_same; [done|]. eapply hsame_some; [exact Hs|]. by apply healthy_some. }
    split; [by apply set_heap_ok|]. by split_and!.
  - pose proof (least_spec (b_heap b) (b_healthyList b) (2 ^ 62 - 1) None) as H. split; [done|]. split_and!; try done.
    destruct (least _ _ _ _); [|right; split; [done|apply H]]. destruct H as [(Hp & _ & Hall)|[? _]]; [|done]. by split.
  - split; [done|]. split_and!; try done. unfold select_two, Intn.
    destruct (lookup_lt_is_Some_2 (b_healthyList b) 0 Hlen) as [p0 Hp0].
    case_bool_decide as E1; [rewrite Hp0; split; [by eapply list_elem_of_lookup_2|done]|].
    set (n := length (b_healthyList b)) in *. pose proof (Nat.mod_upper_bound r1 n ltac:(lia)).
    pose proof (Nat.mod_upper_bound r2 (n - 1) ltac:(lia)). cbv zeta.
    destruct (lookup_lt_is_Some_2 (b_healthyList b) (r1 mod n)) as [p Hp]; [done|]. rewrite Hp.
    destruct (lookup_lt_is_Some_2 (b_healthyList b) (if (r1 mod n <=? r2 mod (n - 1))%nat then S (r2 mod (n - 1)) else (r2 mod (n - 1))%nat)) as [q Hq].
    { case_match; lia. }
    rewrite Hq. destruct (t_ActiveConns _ <=? _)%Z; (split; [by eapply list_elem_of_lookup_2|done]).
  - destruct (select_hash_healthy key b Hok (Hring eq_refl)) as (p & -> & Hp). by split_and!.
  - split; [done|]. split_and!; try done. left. by eexists.
Qed.

Lemma vnodes_nonempty t : 0 < t_Weight t <= 2 ^ 50 → vnodes hash 50 t ≠ [].
Proof.
  intros Hw. unfold vnodes. rewrite wrap_s_small by lia.
  assert (0 < Z.to_nat (50 * t_Weight t))%nat as H by lia. destruct (Z.to_nat (50 * t_Weight t)); [lia|]. done.
Qed.

Lemma ring_nonempty b :
  lb_ok b → b_healthyList b ≠ [] → b_strategy b = StrategyConsistentHash → b_ring b ≠ [].
Proof.
  intros Hok Hne Hs Hr. destruct (b_healthyList b) as [|p l] eqn:E; [done|].
  assert (p ∈ b_healthyList b) as (t & Hreg & Hh)%(ok_healthy _ Hok) by (rewrite E; by left).
  destruct (ok_targets _ Hok _ _ (proj1 Hreg)) as (u & Hu & _ & Hw). assert (u = t) as -> by (destruct Hreg; congruence).
  destruct (vnodes hash 50 t) as [|v vs] eqn:Ev; [by apply (vnodes_nonempty t)|].
  assert (v ∈ b_ring b) as Hv; [|rewrite Hr in Hv; by apply not_elem_of_nil in Hv].
  apply (ok_ring _ Hok). split; [done|]. exists p, t. rewrite Ev. split_and!; [done|done|by left].
Qed.

Lemma Select_spec key r1 r2 b :
  lb_ok b →
  let '(r, b') := Select hash key r1 r2 b in
  lb_ok b' ∧ b_targets b' = b_targets b ∧
  match r with
  | Returns (Ok p) => p ∈ b_healthyList b ∧
      (b_strategy b = StrategyLeastConnections → ∀ q, q ∈ b_healthyList b →
         t_ActiveConns (deref (b_heap b) p) <= t_ActiveConns (deref (b_heap b) q))
  | Returns (Err err) => err = ESentinel SNoHealthyTargets ∧ b_healthyList b = []
  | Panics => (∃ n, b_strategy b = StrategyOther n) ∨
      b_strategy b = StrategyLeastConnections ∧ ∀ q, q ∈ b_healthyList b → 2 ^ 62 - 1 <= t_ActiveConns (deref (b_heap b) q)
  end.
Proof.
  intros Hok. unfold Select. case_bool_decide as E.
  { split_and!; [done|done|done|by apply length_zero_iff_nil]. }
  assert (b_healthyList b ≠ []) as Hne by (by intros H; rewrite H in E).
  pose proof (choose_spec key r1 r2 b Hok Hne (ring_nonempty b Hok Hne)) as H.
  destruct (bool_decide (b_strategy b = _) && _) eqn:Eb.
  { apply andb_true_iff in Eb as [Es%bool_decide_eq_true Er%bool_decide_eq_true].
    exfalso. apply (ring_nonempty b Hok Hne Es). by apply length_zero_iff_nil. }
  destruct (choose hash key r1 r2 b) as [[p|] b'].
  - destruct H as (Hok' & Hl & Ht & Hs & Hp & Hmin). split; [|by split_and!].
    apply set_heap_ok; [done|]. apply insert_same; [done|]. eapply hsame_some; [exact Hs|]. by apply healthy_some.
  - destruct H as (Hok' & Hl & Ht & Hs & Hn). by split_and!.
Qed.

Lemma AddTarget_ok sh id address weight b :
  lb_ok b → weight <= 2 ^ 50 → lb_ok (AddTarget hash sh id address weight b).2.
Proof.
  intros Hok Hw. unfold AddTarget. destruct (b_targets b !! id) eqn:E; [done|].
  apply rebuild_ok; cbn [b_targets b_heap b_next b_vnodesPerTgt]; [| |apply Hok].
  - intros j p. rewrite lookup_insert_Some. intros [[<- <-]|[Hne Hj]].
    + rewrite lookup_insert_eq. eexists. split; [done|]. split; [done|]. cbn. case_match; lia.
    + destruct (ok_targets _ Hok j p Hj) as (t & Ht & He). exists t. split; [|done]. rewrite lookup_insert_ne; [done|].
      intros <-. by rewrite (ok_fresh _ Hok) in Ht.
  - intros p Hp. rewrite lookup_insert_ne by lia. apply Hok. lia.
Qed.

Lemma RemoveTarget_ok sh id b : lb_ok b → lb_ok (RemoveTarget hash sh id b).2.
Proof.
  intros Hok. unfold RemoveTarget. destruct (b_targets b !! id) eqn:E; [|done].
  apply rebuild_ok; cbn [b_targets b_heap b_next b_vnodesPerTgt]; [|apply Hok|apply Hok].
  intros j p [_ Hj]%lookup_delete_Some. by apply Hok.
Qed.

Lemma SetHealth_ok sh id healthy b : lb_ok b → lb_ok (SetHealth hash sh id healthy b).2.
Proof.
  intros Hok. unfold SetHealth. destruct (b_targets b !! id) as [p|] eqn:E; [|done].
  destruct (ok_targets _ Hok id p E) as (t & Ht & Hid & Hw). rewrite (deref_some _ _ _ Ht).
  apply rebuild_ok; cbn [set_heap b_targets b_heap b_next b_vnodesPerTgt]; [| |apply Hok].
  - intros j q Hj. destruct (decide (q = p)) as [->|Hne].
    + rewrite lookup_insert_eq. eexists. split; [done|]. destruct (ok_targets _ Hok j p Hj) as (u & Hu & Hju & _).
      split; [|done]. cbn. congruence.
    + rewrite lookup_insert_ne by done. by apply Hok.
  - intros q Hq. rewrite lookup_insert_ne; [by apply Hok|]. intros <-. by rewrite (ok_fresh _ Hok) in Ht.
Qed.

Lemma reachable_wf strategy ops : Forall op_ok ops → lb_ok (foldl lb_step (New strategy) ops).
Proof.
  assert (lb_ok (New strategy)) as H0.
  { constructor; cbn; try done; [constructor| |constructor|].
    - intros p. split; [by intros ?%not_elem_of_nil|]. intros (t & [H _] & _). done.
    - intros v. split; [by intros ?%not_elem_of_nil|]. intros (_ & p & t & [H _] & _). done. }
  revert H0. generalize (New strategy). induction ops as [|o ops IH]; intros b Hb Hall; [done|].
  apply Forall_cons in Hall as [Ho Hall]. apply IH; [|done].
  destruct o; cbn [lb_step]; auto using AddTarget_ok, RemoveTarget_ok, SetHealth_ok, done_ok.
  pose proof (Select_spec key r1 r2 b Hb) as H. destruct (Select hash key r1 r2 b). apply H.
Qed.

Lemma strategy_kept strategy ops : b_strategy (foldl lb_step (New strategy) ops) = strategy.
Proof.
  change strategy with (b_strategy (New strategy)) at 2. generalize (New strategy) as b.
  induction ops as [|o ops IH]; intros b; [done|]. cbn [foldl]. rewrite IH. clear IH.
  destruct o; cbn [lb_step done]; unfold AddTarget, RemoveTarget, SetHealth, Select; try (by case_match); [|done].
  repeat (case_match; try done); simplify_eq; unfold choose, select_round_robin, select_weighted in *;
    repeat case_match; simplify_eq; done.
Qed.

(** A selection is sound.  After any operations, a call of [Select] with one of the five strategies
    returns a target that is registered and healthy, and with the strategy of least connections one that
    has no more connections than any other; it returns an error exactly when no registered target is
    healthy, and panics only when every healthy target has as many connections as the limit of the loop. *)
Theorem select_sound strategy ops key r1 r2 :
  Forall op_ok ops → (∀ n, strategy ≠ StrategyOther n) →
  let b := foldl lb_step (New strategy) ops in
  match (Select hash key r1 r2 b).1 with
  | Returns (Ok p) =>
      ∃ t, registered b p t ∧ t_Healthy t = true ∧
        (strategy = StrategyLeastConnections →
         ∀ q u, registered b q u → t_Healthy u = true → t_ActiveConns t <= t_ActiveConns u)
  | Returns (Err err) => err = ESentinel SNoHealthyTargets ∧ ∀ p t, registered b p t → t_Healthy t = false
  | Panics => strategy = StrategyLeastConnections ∧
      ∀ p t, registered b p t → t_Healthy t = true → 2 ^ 62 - 1 <= t_ActiveConns t
  end.
Proof.
  intros Hops Hst. cbv zeta. pose proof (reachable_wf strategy ops Hops) as Hok. pose proof (strategy_kept strategy ops) as Hs.
  set (b := foldl _ _ _) in *. clearbody b. pose proof (Select_spec key r1 r2 b Hok) as H. rewrite Hs in H.
  destruct (Select hash key r1 r2 b) as [[[p|err]|] b']; cbn [fst]; destruct H as (_ & _ & H).
  - destruct H as [(t & Hr & Hh)%(ok_healthy _ Hok) Hmin]. exists t. split_and!; [done|done|].
    intros E q u Hq Hu. specialize (Hmin E q). rewrite (deref_some _ _ _ (proj2 Hr)), (deref_some _ _ _ (proj2 Hq)) in Hmin.
    apply Hmin, (ok_healthy _ Hok). eauto.
  - destruct H as [-> Hnil]. split; [done|]. intros p t Hr. apply not_true_is_false. intros Hh.
    assert (p ∈ b_healthyList b) as Hp by (apply (ok_healthy _ Hok); eauto). rewrite Hnil in Hp. by apply not_elem_of_nil in Hp.
  - destruct H as [[n ->]|[-> Hall]]; [by destruct (Hst n)|]. split; [done|]. intros p t Hr Hh.
    rewrite <-(deref_some _ _ _ (proj2 Hr)). apply Hall, (ok_healthy _ Hok). eauto.
Qed.

(** * Shares of the weighted round robin *)

Inductive traffic :=
  | TSelect (key : string) (r1 r2 : nat)
  | TDone (p : nat).

(** The targets that a sequence of calls is given. *)
Fixpoint serve (ts : list traffic) (b : Balancer) : list nat * Balancer :=
  match ts with
  | [] => ([], b)
  | TSelect key r1 r2 :: ts' =>
      match Select hash key r1 r2 b with
      | (Returns (Ok p), b') => let '(ps, b'') := serve ts' b' in (p :: ps, b'')
      | (_, b') => serve ts' b'
      end
  | TDone p :: ts' => serve ts' (done p b)
  end.

Fixpoint times (p : nat) (l : list nat) : Z :=
  match l with
  | [] => 0
  | q :: l' => (if decide (p = q) then 1 else 0) + times p l'
  end.

Definition weights (b : Balancer) : Z := total (wt (b_heap b)) (b_healthyList b).

Lemma total_upper f l c p : (∀ q, q ∈ l → - c <= f q) → 0 <= c → p ∈ l → f p <= total f l + Z.of_nat (length l) * c.
Proof.
  intros H Hc. induction l as [|q l IH]; [by intros ?%not_elem_of_nil|]. cbn [total length].
  assert (- (Z.of_nat (length l) * c) <= total f l) as Hl.
  { clear IH. assert (∀ x, x ∈ l → - c <= f x) as H' by (intros x Hx; apply H; by right). clear H.
    induction l as [|x l IH]; cbn [total length]; [lia|]. pose proof (H' x ltac:(by left)).
    specialize (IH ltac:(intros y Hy; apply H'; by right)). lia. }
  intros [->|Hp]%elem_of_cons; [lia|]. pose proof (H q ltac:(by left)).
  specialize (IH ltac:(intros x Hx; apply H; by right) Hp). lia.
Qed.

Lemma wt_range b p : lb_ok b → p ∈ b_healthyList b → 0 < wt (b_heap b) p <= 2 ^ 50.
Proof.
  intros Hok (t & [Hid Ht] & _)%(ok_healthy _ Hok). unfold wt. rewrite (deref_some _ _ _ Ht).
  destruct (ok_targets _ Hok _ _ Hid) as (u & Hu & _ & ?). congruence.
Qed.

Lemma weights_pos b : lb_ok b → b_healthyList b ≠ [] → 0 < weights b.
Proof.
  intros Hok Hne. unfold weights. pose proof (λ p, wt_range b p Hok) as Hw.
  destruct (b_healthyList b) as [|p l]; [done|]. cbn [total]. pose proof (Hw p ltac:(by left)).
  pose proof (weights_nonneg (wt (b_heap b)) l ltac:(intros x Hx; pose proof (Hw x ltac:(by right)); lia)). lia.
Qed.

(** One selection: every target is credited its weight, and the one that is chosen pays for all. *)
Lemma weighted_select key r1 r2 b :
  lb_ok b → b_strategy b = StrategyWeightedRoundRobin → b_healthyList b ≠ [] →
  Z.of_nat (length (b_healthyList b)) * weights b <= 2 ^ 62 →
  total (cw (b_heap b)) (b_healthyList b) = 0 → (∀ p, p ∈ b_healthyList b → - weights b < cw (b_heap b) p) →
  ∃ q b', Select hash key r1 r2 b = (Returns (Ok q), b') ∧ q ∈ b_healthyList b ∧ b_healthyList b' = b_healthyList b ∧
    b_strategy b' = StrategyWeightedRoundRobin ∧ 0 < cw (b_heap b) q + wt (b_heap b) q ∧
    ∀ p, p ∈ b_healthyList b → wt (b_heap b') p = wt (b_heap b) p ∧
      cw (b_heap b') p = cw (b_heap b) p + wt (b_heap b) p - (if decide (p = q) then weights b else 0).
Proof.
  intros Hok Hst Hne Hbig Hzero Hlow. set (l := b_healthyList b) in *. set (h := b_heap b) in *. set (W := weights b) in *.
  assert (0 < length l)%nat as Hlen by (destruct l; [done|cbn; lia]).
  pose proof (λ p, wt_range b p Hok) as Hw. pose proof (weights_pos b Hok Hne) as HW. fold l h W in Hw, HW.
  assert (W <= 2 ^ 62) as HW2 by nia.
  assert (∀ p, p ∈ l → - 2 ^ 62 <= cw h p <= 2 ^ 62) as Hcw.
  { intros p Hp. pose proof (Hlow p Hp). pose proof (total_upper (cw h) l W p ltac:(intros x Hx; pose proof (Hlow x Hx); lia) ltac:(lia) Hp). lia. }
  pose proof (weigh_spec l h 0 None (ok_nodup _ Hok) (λ p, healthy_some b p Hok)) as S.
  unfold Select, choose, select_weighted. rewrite bool_decide_false by (fold l; lia). rewrite Hst.
  rewrite bool_decide_false by done. cbn [andb]. fold l h. destruct (weigh l h 0 None) as [[h' tw] best].
  destruct S as (-> & Hh & Hbest); [intros p Hp; pose proof (Hcw p Hp); pose proof (Hw p Hp); lia|lia|change (total (wt h) l) with W; lia|done|].
  destruct best as [q|]; [|by destruct Hbest]. destruct Hbest as [[Hq|?] Hmax]; [|done].
  assert (∀ p, p ∈ l → deref h' p = set_currentWeight (cw h p + wt h p) (deref h p)) as Hd.
  { intros p Hp. unfold deref at 1. by rewrite Hh, decide_True by done. }
  assert (∀ p, p ∈ l → cw h' p = cw h p + wt h p) as Hc' by (intros p Hp; unfold cw at 1; by rewrite Hd).
  assert (0 < cw h q + wt h q) as Hpos.
  { pose proof (total_le_length (λ p, cw h p + wt h p) l (cw h q + wt h q)) as H. rewrite total_add, Hzero in H.
    change (total (wt h) l) with W in H. assert (0 + W <= Z.of_nat (length l) * (cw h q + wt h q)); [|nia]. apply H.
    intros p Hp. specialize (Hmax p (or_introl Hp)). by rewrite !Hc' in Hmax. }
  eexists q, _. split; [done|]. cbn [set_heap b_healthyList b_strategy b_heap]. split_and!; try done.
  intros p Hp. pose proof (Hcw q Hq). pose proof (Hw q Hq). change (t_currentWeight (deref h' q)) with (cw h' q).
  rewrite (Hc' q Hq). change (0 + total (wt h) l) with W. rewrite (wrap_s_small 64 (cw h q + wt h q - W)) by lia. rewrite deref_insert_eq.
  destruct (decide (p = q)) as [->|Hpq].
  - destruct (credit_insert_eq (<[q := set_currentWeight (cw h q + wt h q - W) (deref h' q)]> h') q
      (set_conns (wrap_s 64 (t_ActiveConns (deref h' q) + 1)) (wrap_s 64 (t_TotalRequests (deref h' q) + 1))
         (set_currentWeight (cw h q + wt h q - W) (deref h' q)))) as [E1 E2].
    split; [etrans; [exact E2|]; cbn; by rewrite (Hd q Hq)|exact E1].
  - set (x := set_conns _ _ _). set (y := set_currentWeight (cw h q + wt h q - W) _).
    destruct (credit_insert_ne (<[q := y]> h') p q x Hpq) as [-> ->], (credit_insert_ne h' p q y Hpq) as [-> ->].
    rewrite (Hc' p Hp). unfold wt at 1. rewrite (Hd p Hp). cbn. split; [done|lia].
Qed.

Lemma times_total l ps : NoDup l → (∀ p, p ∈ ps → p ∈ l) → total (λ p, times p ps) l = Z.of_nat (length ps).
Proof.
  intros Hnd. induction ps as [|q ps IH]; intros Hin.
  { cbn. clear. induction l; cbn in *; lia. }
  cbn [times length]. rewrite total_add, (total_indicator q l Hnd), IH; [lia| |apply Hin; by left].
  intros p Hp. apply Hin. by right.
Qed.

(** The credit of a target after [n] selections, of which it got [c p]. *)
Record credited (b0 : Balancer) (n : Z) (c : nat → Z) (b : Balancer) : Prop := {
  cr_ok : lb_ok b;
  cr_strategy : b_strategy b = StrategyWeightedRoundRobin;
  cr_list : b_healthyList b = b_healthyList b0;
  cr_weight : ∀ p, p ∈ b_healthyList b0 → wt (b_heap b) p = wt (b_heap b0) p;
  cr_credit : ∀ p, p ∈ b_healthyList b0 → cw (b_heap b) p = n * wt (b_heap b0) p - weights b0 * c p;
  cr_low : ∀ p, p ∈ b_healthyList b0 → - weights b0 < cw (b_heap b) p;
  cr_total : total c (b_healthyList b0) = n
}.

Lemma credited_weights b0 n c b : credited b0 n c b → weights b = weights b0.
Proof. intros H. unfold weights. rewrite (cr_list _ _ _ _ H). apply total_ext. apply H. Qed.

Lemma credited_done b0 n c b p : credited b0 n c b → credited b0 n c (done p b).
Proof.
  intros [Hok Hst Hl Hw Hc Hlow Ht].
  assert (∀ q, cw (b_heap (done p b)) q = cw (b_heap b) q ∧ wt (b_heap (done p b)) q = wt (b_heap b) q) as H.
  { intros q. unfold cw, wt, deref, done. cbn [set_heap b_heap]. destruct (decide (q = p)) as [->|].
    - rewrite lookup_alter_eq. by destruct (b_heap b !! p).
    - by rewrite lookup_alter_ne. }
  constructor; auto using done_ok; intros q Hq; destruct (H q) as [E1 E2]; rewrite ?E1, ?E2; auto.
Qed.

Lemma credited_select b0 n c b key r1 r2 :
  credited b0 n c b → b_healthyList b0 ≠ [] → Z.of_nat (length (b_healthyList b0)) * weights b0 <= 2 ^ 62 →
  ∃ q b', Select hash key r1 r2 b = (Returns (Ok q), b') ∧ q ∈ b_healthyList b0 ∧
    credited b0 (n + 1) (λ p, (if decide (p = q) then 1 else 0) + c p) b'.
Proof.
  intros Hcr Hne Hbig. pose proof (credited_weights _ _ _ _ Hcr) as HW. destruct Hcr as [Hok Hst Hl Hw Hc Hlow Ht].
  assert (total (cw (b_heap b)) (b_healthyList b) = 0) as Hzero.
  { rewrite Hl, (total_ext _ (λ p, n * wt (b_heap b0) p + - weights b0 * c p)) by (intros p Hp; rewrite Hc by done; lia).
    rewrite total_add, !total_scale, Ht. unfold weights. lia. }
  destruct (weighted_select key r1 r2 b Hok Hst) as (q & b' & E & Hq & Hl' & Hst' & Hpos & Hp);
    [by rewrite Hl|by rewrite Hl, HW|done|by rewrite Hl, HW|].
  rewrite Hl in Hq, Hp. rewrite HW in Hp. exists q, b'. split; [done|]. split; [done|].
  assert (∀ p, p ∈ b_healthyList b0 → 0 < wt (b_heap b0) p) as Hwp.
  { intros p Hpl. rewrite <-Hw by done. apply wt_range; [done|by rewrite Hl]. }
  constructor; [|done|by rewrite Hl'|..].
  - pose proof (Select_spec key r1 r2 b Hok) as H. rewrite E in H. apply H.
  - intros p Hpl. destruct (Hp p Hpl) as [-> _]. auto.
  - intros p Hpl. destruct (Hp p Hpl) as [_ ->]. rewrite (Hc p Hpl), (Hw p Hpl). case_decide; lia.
  - intros p Hpl. destruct (Hp p Hpl) as [_ ->]. pose proof (Hlow p Hpl). pose proof (Hwp p Hpl). rewrite (Hw p Hpl).
    case_decide; [subst p; rewrite <-(Hw q Hpl); lia|lia].
  - rewrite total_add, Ht, (total_indicator q); [lia| |done]. rewrite <-Hl. apply Hok.
Qed.

Lemma serve_credited b0 ts n c b :
  credited b0 n c b → b_healthyList b0 ≠ [] → Z.of_nat (length (b_healthyList b0)) * weights b0 <= 2 ^ 62 →
  let '(ps, b') := serve ts b in
  ∃ c', credited b0 (n + Z.of_nat (length ps)) c' b' ∧ (∀ p, c' p = c p + times p ps) ∧ ∀ p, p ∈ ps → p ∈ b_healthyList b0.
Proof.
  intros Hcr Hne Hbig. revert n c b Hcr. induction ts as [|[key r1 r2|p] ts IH]; intros n c b Hcr; cbn [serve].
  - exists c. cbn. rewrite Z.add_0_r. split; [done|]. split; [intros p; lia|]. by intros p ?%not_elem_of_nil.
  - destruct (credited_select b0 n c b key r1 r2 Hcr Hne Hbig) as (q & b' & -> & Hq & Hcr').
    specialize (IH _ _ _ Hcr'). destruct (serve ts b') as [ps b'']. destruct IH as (c' & H1 & H2 & H3).
    exists c'. cbn [length times]. split; [by replace (n + Z.of_nat (S (length ps))) with (n + 1 + Z.of_nat (length ps)) by lia|].
    split; [intros p; rewrite H2; lia|]. intros p [->|Hp]%elem_of_cons; auto.
  - apply IH. by apply credited_done.
Qed.

(** C20: Weighted round robin is fair.  Take any history after which the current weights of the healthy
    targets are zero, as they are when targets have only been added, and then any calls and completions.
    Let no weight that is added exceed 2^50, and the sum of the weights of the healthy targets times their
    number not exceed 2^62.
    After every selection, a target got less than one selection more than its share by weight; and after
    any number of full rounds, of as many selections as the sum of the weights, every target was selected
    exactly its weight times in each round, and the current weights are zero again. *)
Theorem weighted_fair ops ts :
  Forall op_ok ops →
  let b := foldl lb_step (New StrategyWeightedRoundRobin) ops in
  (∀ p, p ∈ b_healthyList b → cw (b_heap b) p = 0) → b_healthyList b ≠ [] →
  Z.of_nat (length (b_healthyList b)) * weights b <= 2 ^ 62 →
  let '(chosen, b') := serve ts b in
  let n := Z.of_nat (length chosen) in
  ∀ p, p ∈ b_healthyList b →
    weights b * times p chosen < n * wt (b_heap b) p + weights b ∧
    ∀ rounds, n = rounds * weights b → times p chosen = rounds * wt (b_heap b) p ∧ cw (b_heap b') p = 0.
Proof.
  intros Hops b Hzero Hne Hbig. pose proof (reachable_wf StrategyWeightedRoundRobin ops Hops) as Hok. fold b in Hok.
  pose proof (weights_pos b Hok Hne) as HW.
  assert (credited b 0 (λ _, 0) b) as Hcr.
  { constructor; try done; [apply strategy_kept|..].
    - intros p Hp. rewrite Hzero by done. lia.
    - intros p Hp. rewrite Hzero by done. lia.
    - clear. induction (b_healthyList b); cbn in *; lia. }
  clear Hops. clearbody b. pose proof (serve_credited b ts 0 _ b Hcr Hne Hbig) as H. destruct (serve ts b) as [chosen b'].
  destruct H as (c & H1 & H2 & H3). cbv zeta. rewrite Z.add_0_l in H1. set (n := Z.of_nat (length chosen)) in *.
  assert (∀ p, p ∈ b_healthyList b → weights b * times p chosen < n * wt (b_heap b) p + weights b) as Hlt.
  { intros p Hp. pose proof (cr_low _ _ _ _ H1 p Hp) as Hlow. rewrite (cr_credit _ _ _ _ H1 p Hp), H2 in Hlow. lia. }
  intros p Hp. split; [by apply Hlt|]. intros rounds Hn.
  assert (times p chosen = rounds * wt (b_heap b) p) as E.
  { apply (total_tight (λ p, times p chosen) (λ p, rounds * wt (b_heap b) p) (b_healthyList b)); [| |done].
    - intros q Hq. specialize (Hlt q Hq). rewrite Hn in Hlt. nia.
    - rewrite times_total, total_scale; [exact Hn|apply Hok|done]. }
  split; [done|]. rewrite (cr_credit _ _ _ _ H1 p Hp), H2, E, Hn. lia.
Qed.

(** * Consistent hashing *)

(** The virtual node that owns a key. *)
Definition owner (key : string) (b : Balancer) : option vnode :=
  b_ring b !! ring_index (vn_hash <$> b_ring b) (hash key).

Lemma owner_spec key b :
  lb_ok b → b_ring b ≠ [] →
  ∃ v, owner key b = Some v ∧ v ∈ b_ring b ∧ is_successor (vn_hash <$> b_ring b) (hash key) (vn_hash v).
Proof.
  intros Hok Hne. unfold owner.
  destruct (ring_index_spec (vn_hash <$> b_ring b) (hash key) (ok_sorted _ Hok)) as (k & Hk & Hs); [by destruct (b_ring b)|].
  rewrite list_lookup_fmap in Hk. destruct (b_ring b !! _) as [v|] eqn:E; [|done]. injection Hk as <-.
  exists v. split; [done|]. split; [by eapply list_elem_of_lookup_2|done].
Qed.

(** A key stays where it is when nodes are taken from a ring without collisions and its own stays. *)
Lemma owner_stable key b b' v :
  lb_ok b → lb_ok b' → NoDup (vn_hash <$> b_ring b) → (∀ w, w ∈ b_ring b' → w ∈ b_ring b) →
  owner key b = Some v → v ∈ b_ring b' → owner key b' = Some v.
Proof.
  intros Hok Hok' Hnd Hsub Hv Hv'.
  destruct (owner_spec key b Hok) as (w & Hw & Hin & Hs).
  { intros E. unfold owner in Hv. by rewrite E in Hv. }
  rewrite Hw in Hv. injection Hv as ->.
  destruct (owner_spec key b' Hok') as (u & Hu & Huin & Hus); [intros E; rewrite E in Hv'; by apply not_elem_of_nil in Hv'|].
  rewrite Hu. f_equal. apply (NoDup_fmap_elem_inj vn_hash (b_ring b)); [done|by apply Hsub|done|].
  apply (is_successor_unique (vn_hash <$> b_ring b') (hash key)); [done|].
  apply (is_successor_subset (vn_hash <$> b_ring b)); [|apply list_elem_of_fmap; eauto|done].
  intros j (x & -> & Hx)%list_elem_of_fmap. apply list_elem_of_fmap. eauto.
Qed.

Lemma Select_hash key r1 r2 b p :
  lb_ok b → b_strategy b = StrategyConsistentHash →
  (Select hash key r1 r2 b).1 = Returns (Ok p) ↔ ∃ v, owner key b = Some v ∧ b_targets b !! vn_targetID v = Some p.
Proof.
  intros Hok Hs. unfold Select, choose. rewrite Hs. rewrite (bool_decide_true (StrategyConsistentHash = _)) by done. cbn [andb].
  case_bool_decide as El; [|case_bool_decide as Er].
  - split; [done|]. intros (v & Hv & _). unfold owner in Hv. exfalso.
    apply list_elem_of_lookup_2, (ok_ring _ Hok) in Hv as (_ & q & t & Hr & Hh & _).
    assert (q ∈ b_healthyList b) as Hq by (apply (ok_healthy _ Hok); eauto).
    apply length_zero_iff_nil in El. rewrite El in Hq. by apply not_elem_of_nil in Hq.
  - split; [done|]. intros (v & Hv & _). unfold owner in Hv. apply length_zero_iff_nil in Er. by rewrite Er in Hv.
  - fold (owner key b). unfold select_hash. fold (owner key b). destruct (owner key b) as [v|].
    + destruct (b_targets b !! vn_targetID v) eqn:E; cbn; split; [intros [= ->]; eauto|naive_solver|done|naive_solver].
    + cbn. split; [done|]. by intros (v & ? & _).
Qed.

Lemma vnodes_target v t : v ∈ vnodes hash 50 t → vn_targetID v = t_ID t.
Proof. unfold vnodes. by intros (i & -> & _)%list_elem_of_fmap. Qed.

(** Consistent hashing moves only what it has to.  After any history in which no two virtual nodes
    share a hash, removing a target, or marking it as unhealthy, leaves every key that was not on this
    target where it was. *)
Theorem hash_stable ops sh id key r1 r2 p t :
  Forall op_ok ops →
  let b := foldl lb_step (New StrategyConsistentHash) ops in
  NoDup (vn_hash <$> b_ring b) → (Select hash key r1 r2 b).1 = Returns (Ok p) → registered b p t → t_ID t ≠ id →
  (Select hash key r1 r2 (RemoveTarget hash sh id b).2).1 = Returns (Ok p) ∧
  (Select hash key r1 r2 (SetHealth hash sh id false b).2).1 = Returns (Ok p).
Proof.
  intros Hops b Hnd Hsel Hreg Hid. pose proof (reachable_wf StrategyConsistentHash ops Hops) as Hok.
  pose proof (strategy_kept StrategyConsistentHash ops) as Hs. fold b in Hok, Hs. clearbody b.
  apply (Select_hash key r1 r2 b p Hok Hs) in Hsel as (v & Hv & Hp).
  assert (v ∈ b_ring b) as Hin by (by eapply list_elem_of_lookup_2).
  pose proof (proj1 (ok_ring _ Hok v) Hin) as (_ & q & u & [Hu1 Hu2] & Hh & Hvn).
  rewrite (vnodes_target v u Hvn) in Hp. assert (q = p) as -> by congruence. destruct Hreg as [Ht1 Ht2].
  assert (u = t) as -> by congruence.
  split.
  - pose proof (RemoveTarget_ok sh id b Hok) as Hok'. unfold RemoveTarget in *. destruct (b_targets b !! id) as [x|] eqn:Ex.
    2: { apply Select_hash; [done|done|]. exists v. by rewrite (vnodes_target v t Hvn). }
    apply Select_hash; [done|done|]. exists v. rewrite (vnodes_target v t Hvn). split.
    + apply (owner_stable key b); [done|done|done| |done|].
      * intros w (_ & y & z & [H1 H2] & H3 & H4)%(ok_ring _ Hok'). apply (ok_ring _ Hok). split; [done|].
        cbn in H1, H2. apply lookup_delete_Some in H1 as [_ H1]. exists y, z. by split_and!.
      * apply (ok_ring _ Hok'). split; [done|]. exists p, t. split_and!; [split; [|done]|done|done].
        cbn. by rewrite lookup_delete_ne.
    + cbn. by rewrite lookup_delete_ne.
  - pose proof (SetHealth_ok sh id false b Hok) as Hok'. unfold SetHealth in *. destruct (b_targets b !! id) as [x|] eqn:Ex.
    2: { apply Select_hash; [done|done|]. exists v. by rewrite (vnodes_target v t Hvn). }
    destruct (ok_targets _ Hok id x Ex) as (a & Ha & Hai & _). rewrite (deref_some _ _ _ Ha) in *.
    assert (x ≠ p) as Hxp by (intros ->; congruence).
    apply Select_hash; [done|done|]. exists v. rewrite (vnodes_target v t Hvn). split; [|done].
    apply (owner_stable key b); [done|done|done| |done|].
    + intros w (_ & y & z & [H1 H2] & H3 & H4)%(ok_ring _ Hok'). apply (ok_ring _ Hok). split; [done|].
      cbn in H1, H2. destruct (decide (y = x)) as [->|Hne].
      * rewrite lookup_insert_eq in H2. injection H2 as <-. done.
      * rewrite lookup_insert_ne in H2 by done. exists y, z. by split_and!.
    + apply (ok_ring _ Hok'). split; [done|]. exists p, t. split_and!; [split; [done|]|done|done].
      cbn. by rewrite lookup_insert_ne.
Qed.

End facts.

(** * Examples *)

Definition ex_targets : list lb_op := [OAdd shuffle_id "a" "h1" 2; OAdd shuffle_rev "b" "h2" 1; OHealth shuffle_id "a" false].

Lemma select_sound_witness :
  let b := foldl (lb_step hashKey) (New StrategyLeastConnections) ex_targets in
  (Select hashKey "k" 0 0 b).1 = Returns (Ok 1%nat) ∧ ∃ t, registered b 1%nat t ∧ t_Healthy t = true.
Proof.
  cbv zeta. assert ((Select hashKey "k" 0 0 (foldl (lb_step hashKey) (New StrategyLeastConnections) ex_targets)).1 = Returns (Ok 1%nat)) as E
    by (vm_compute; reflexivity).
  pose proof (select_sound hashKey StrategyLeastConnections ex_targets "k" 0 0) as H. cbv zeta in H. rewrite E in H.
  split; [done|]. destruct H as (t & Hr & Hh & _); [|done|by exists t].
  repeat constructor; cbn; lia.
Defined.

Definition ex_weighted : list lb_op := [OAdd shuffle_id "a" "h1" 2; OAdd shuffle_rev "b" "h2" 1].

Lemma weighted_fair_witness :
  let b := foldl (lb_step hashKey) (New StrategyWeightedRoundRobin) ex_weighted in
  let '(chosen, b') := serve hashKey [TSelect "k" 0 0; TDone 0%nat; TSelect "k" 0 0; TSelect "k" 0 0] b in
  chosen = [0; 1; 0]%nat ∧ times 0%nat chosen = 2.
Proof.
  pose proof (weighted_fair hashKey ex_weighted [TSelect "k" 0 0; TDone 0%nat; TSelect "k" 0 0; TSelect "k" 0 0]) as H. cbv zeta in *.
  assert (b_healthyList (foldl (lb_step hashKey) (New StrategyWeightedRoundRobin) ex_weighted) = [0; 1]%nat) as El by (vm_compute; reflexivity).
  rewrite El in H. assert ((serve hashKey [TSelect "k" 0 0; TDone 0%nat; TSelect "k" 0 0; TSelect "k" 0 0]
    (foldl (lb_step hashKey) (New StrategyWeightedRoundRobin) ex_weighted)).1 = [0; 1; 0]%nat) as E by (vm_compute; reflexivity).
  destruct (serve _ _ _) as [chosen b']. cbn [fst] in E. subst chosen. split; [done|].
  refine (proj1 (proj2 (H _ _ _ _ 0%nat _) 1 _)).
  - repeat constructor; cbn; lia.
  - intros p Hp. repeat (apply elem_of_cons in Hp as [->|Hp]; [vm_compute; reflexivity|]). by apply not_elem_of_nil in Hp.
  - done.
  - vm_compute. discriminate.
  - by left.
  - vm_compute. reflexivity.
Defined.

Definition ex_hashed : list lb_op := [OAdd shuffle_id "a" "h1" 1; OAdd shuffle_rev "b" "h2" 1].

(** The bytes of a text as a number. *)
Definition ex_hash (s : string) : Z := word_of (bytes_of_string s).

Lemma hash_stable_witness :
  let b := foldl (lb_step ex_hash) (New StrategyConsistentHash) ex_hashed in
  (Select ex_hash "k" 0 0 b).1 = Returns (Ok 0%nat) ∧
  (Select ex_hash "k" 0 0 (RemoveTarget ex_hash shuffle_rev "b" b).2).1 = Returns (Ok 0%nat).
Proof.
  cbv zeta. assert ((Select ex_hash "k" 0 0 (foldl (lb_step ex_hash) (New StrategyConsistentHash) ex_hashed)).1 = Returns (Ok 0%nat)) as E
    by (vm_compute; reflexivity).
  split; [exact E|].
  refine (proj1 (hash_stable ex_hash ex_hashed shuffle_rev "b" "k" 0 0 0%nat (MkTarget "a" "h1" 1 true 0 0 0) _ _ E _ _)).
  - repeat constructor; cbn; lia.
  - decide_closed.
  - split; vm_compute; reflexivity.
  - discriminate.
Defined.
