(* ===== verification/Barrier.v ===== *)
(** Barriers: [internal/barrier/barrier.go].

    [ArriveAndWait] has three critical sections: the arrival, the check that is made each time the call is
    woken, and the one of the goroutine that watches the context.  A named barrier is shared by pointer. *)
From S2P Require Import Prelude Errors.
Local Open Scope Z_scope.

Abbreviation SBarrierBroken := (SOther "barrier: barrier broken").
Abbreviation SAlreadyArrived := (SOther "barrier: party already arrived in current generation").
Abbreviation SInvalidThreshold := (SOther "barrier: threshold must be > 0").

Record Barrier := MkBarrier {
  ba_threshold : Z;
  ba_arrived : gmap string Time;
  ba_generation : Z;
  ba_broken : bool;
  ba_brokenErr : option error
}.

Definition NewBarrier (threshold : Z) : result error Barrier :=
  if threshold <=? 0 then Err (ESentinel SInvalidThreshold) else Ok (MkBarrier threshold ∅ 0 false None).

(** What a section of [ArriveAndWait] ends with: the return of [(isLast, err)], or a wait for the
    generation that was read on arrival. *)
Inductive arrival :=
  | Return (isLast : bool) (err : option error)
  | Wait (gen : Z).

Definition arrive (partyID : string) (now : Time) (b : Barrier) : arrival * Barrier :=
  if ba_broken b then (Return false (ba_brokenErr b), b)
  else
    let gen := ba_generation b in
    match ba_arrived b !! partyID with
    | Some _ => (Return false (Some (ESentinel SAlreadyArrived)), b)
    | None =>
        let arrived := <[partyID := now]> (ba_arrived b) in
        if ba_threshold b <=? Z.of_nat (size arrived) then
          (Return true None, MkBarrier (ba_threshold b) ∅ (wrap_u 64 (gen + 1)) false (ba_brokenErr b))
        else (Wait gen, MkBarrier (ba_threshold b) arrived gen false (ba_brokenErr b))
    end.

(** The loop around [cond.Wait()] and what follows it. *)
Definition wake (gen : Z) (b : Barrier) : arrival :=
  if (gen =? ba_generation b) && negb (ba_broken b) then Wait gen
  else if ba_broken b then Return false (ba_brokenErr b)
  else Return false None.

Definition breakLocked (err : option error) (b : Barrier) : Barrier :=
  if ba_broken b then b
  else
    MkBarrier (ba_threshold b) (ba_arrived b) (ba_generation b) true
      (match err with None => Some (ESentinel SBarrierBroken) | Some e => Some e end).

(** The goroutine when the context of a call ends with [err]. *)
Definition cancel (gen : Z) (err : error) (b : Barrier) : Barrier :=
  if (gen =? ba_generation b) && negb (ba_broken b) then breakLocked (Some err) b else b.

Definition Break (err : option error) (b : Barrier) : Barrier := breakLocked err b.

Definition Reset (b : Barrier) : Barrier :=
  MkBarrier (ba_threshold b) ∅ (wrap_u 64 (ba_generation b + 1)) false None.

Definition ArrivedCount (b : Barrier) : nat := size (ba_arrived b).

(** * The coordinator *)

Record Coordinator := MkCoordinator {
  co_barriers : gmap string nat;
  co_heap : gmap nat Barrier;
  co_next : nat
}.

Definition NewCoordinator : Coordinator := MkCoordinator ∅ ∅ 0.

Definition GetOrCreate (name : string) (threshold : Z) (c : Coordinator) : result error nat * Coordinator :=
  match co_barriers c !! name with
  | Some p => (Ok p, c)
  | None =>
      match NewBarrier threshold with
      | Err err => (Err err, c)
      | Ok b =>
          (Ok (co_next c),
           MkCoordinator (<[name := co_next c]> (co_barriers c)) (<[co_next c := b]> (co_heap c)) (S (co_next c)))
      end
  end.

Definition Remove (name : string) (c : Coordinator) : Coordinator :=
  match co_barriers c !! name with
  | None => c
  | Some p =>
      MkCoordinator (delete name (co_barriers c)) (alter (Break (Some (ESentinel SBarrierBroken))) p (co_heap c)) (co_next c)
  end.

(** * Theorems

    What a barrier promises, in every interleaving of the critical sections of any number of calls. *)

(** * Interleavings *)

(** A call has returned, from the generation [gen] if it arrived in one, or it waits. *)
Inductive call :=
  | Waiting (gen : Z)
  | Returned (gen : option Z) (isLast : bool) (err : option error).

(** The barrier, its calls, and what happened: the arrivals with their generations, and the generations
    that were ended by a reset. *)
Record sys := MkSys {
  s_b : Barrier;
  s_calls : gmap nat call;
  s_arrivals : list (Z * string);
  s_resets : list Z
}.

Inductive step : sys → sys → Prop :=
  | step_arrive s c party now r b' :
      s_calls s !! c = None → arrive party now (s_b s) = (r, b') →
      step s
        (match r with
         | Return isLast err =>
             if isLast then
               MkSys b' (<[c := Returned (Some (ba_generation (s_b s))) true err]> (s_calls s))
                 (s_arrivals s ++ [(ba_generation (s_b s), party)]) (s_resets s)
             else MkSys b' (<[c := Returned None false err]> (s_calls s)) (s_arrivals s) (s_resets s)
         | Wait gen => MkSys b' (<[c := Waiting gen]> (s_calls s)) (s_arrivals s ++ [(gen, party)]) (s_resets s)
         end)
  | step_wake s c gen isLast err :
      s_calls s !! c = Some (Waiting gen) → wake gen (s_b s) = Return isLast err →
      step s (MkSys (s_b s) (<[c := Returned (Some gen) isLast err]> (s_calls s)) (s_arrivals s) (s_resets s))
  | step_cancel s gen err : step s (MkSys (cancel gen err (s_b s)) (s_calls s) (s_arrivals s) (s_resets s))
  | step_break s err : step s (MkSys (Break err (s_b s)) (s_calls s) (s_arrivals s) (s_resets s))
  | step_reset s :
      step s (MkSys (Reset (s_b s)) (s_calls s) (s_arrivals s) (s_resets s ++ [ba_generation (s_b s)])).

Definition start (b : Barrier) : sys := MkSys b ∅ [] [].

(** The parties that arrived in a generation. *)
Definition parties (g : Z) (l : list (Z * string)) : list string := (filter (λ a, a.1 = g) l).*2.

(** Generations are 64-bit numbers. *)
Definition short (s : sys) : Prop := Z.of_nat (length (s_arrivals s) + length (s_resets s)) < 2 ^ 64 - 1.

Record sys_ok (threshold : Z) (s : sys) : Prop := {
  so_threshold : ba_threshold (s_b s) = threshold;
  so_generation : 0 <= ba_generation (s_b s) <= Z.of_nat (length (s_arrivals s) + length (s_resets s));
  so_nodup : NoDup (s_arrivals s);
  so_past : ∀ g p, (g, p) ∈ s_arrivals s → 0 <= g <= ba_generation (s_b s);
  so_arrived : ∀ p, (ba_generation (s_b s), p) ∈ s_arrivals s ↔ is_Some (ba_arrived (s_b s) !! p);
  so_few : Z.of_nat (length (parties (ba_generation (s_b s)) (s_arrivals s))) < threshold;
  so_ended : ∀ g, 0 <= g < ba_generation (s_b s) → Z.of_nat (length (parties g (s_arrivals s))) = threshold ∨ g ∈ s_resets s;
  so_waiting : ∀ c g, s_calls s !! c = Some (Waiting g) → 0 <= g <= ba_generation (s_b s);
  so_returned : ∀ c g l, s_calls s !! c = Some (Returned (Some g) l None) → 0 <= g < ba_generation (s_b s);
  so_refused : ∀ c l, s_calls s !! c = Some (Returned None l None) → False;
  so_error : ba_broken (s_b s) = true → ba_brokenErr (s_b s) ≠ None
}.

Lemma parties_app g l l' : parties g (l ++ l') = parties g l ++ parties g l'.
Proof. unfold parties. by rewrite filter_app, fmap_app. Qed.
Lemma parties_one g p : parties g [(g, p)] = [p].
Proof. unfold parties. by rewrite filter_cons_True. Qed.
Lemma parties_other g g' p : g ≠ g' → parties g [(g', p)] = [].
Proof. intros. unfold parties. rewrite filter_cons_False; [done|cbn; congruence]. Qed.

Lemma elem_of_parties g p l : p ∈ parties g l ↔ (g, p) ∈ l.
Proof.
  unfold parties. rewrite list_elem_of_fmap. split.
  - intros ([g' p'] & -> & [Hg Hin]%list_elem_of_filter). cbn in Hg. by subst g'.
  - intros H. exists (g, p). split; [done|]. by apply list_elem_of_filter.
Qed.

Lemma NoDup_parties g l : NoDup l → NoDup (parties g l).
Proof.
  intros H. unfold parties. apply NoDup_fmap_2_strong; [|by apply NoDup_filter].
  intros [g1 p1] [g2 p2] [H1 _]%list_elem_of_filter [H2 _]%list_elem_of_filter E. cbn in *. congruence.
Qed.

(** The map of a barrier counts the parties of its generation. *)
Lemma size_arrived (m : gmap string Time) l : NoDup l → (∀ p, p ∈ l ↔ is_Some (m !! p)) → size m = length l.
Proof.
  intros Hnd H. rewrite <-size_dom. assert (dom m = list_to_set (C := gset string) l) as ->.
  { apply set_eq. intros p. rewrite elem_of_dom, elem_of_list_to_set. by rewrite H. }
  by apply size_list_to_set.
Qed.

Lemma no_parties g l : (∀ p, (g, p) ∉ l) → parties g l = [].
Proof.
  intros H. destruct (parties g l) as [|p k] eqn:E; [done|]. exfalso. apply (H p). apply elem_of_parties. rewrite E. by left.
Qed.

(** A party that arrives and does not end the generation. *)
Lemma arrive_waits threshold s c party now b' gen :
  sys_ok threshold s → arrive party now (s_b s) = (Wait gen, b') →
  sys_ok threshold (MkSys b' (<[c := Waiting gen]> (s_calls s)) (s_arrivals s ++ [(gen, party)]) (s_resets s)).
Proof.
  intros [Ht Hg Hnd Hp Ha Hf He Hw Hr Hn Hb] E. unfold arrive in E.
  destruct (ba_broken (s_b s)); [done|]. destruct (ba_arrived (s_b s) !! party) eqn:Ep; [done|].
  destruct (Z.leb_spec (ba_threshold (s_b s)) (Z.of_nat (size (<[party:=now]> (ba_arrived (s_b s)))))) as [|Hlt]; [done|].
  injection E as <- <-. set (g := ba_generation (s_b s)) in *.
  assert ((g, party) ∉ s_arrivals s) as Hnew by (intros H%Ha; rewrite Ep in H; by destruct H).
  assert (size (ba_arrived (s_b s)) = length (parties g (s_arrivals s))) as Hsz.
  { apply size_arrived; [by apply NoDup_parties|]. intros p. by rewrite elem_of_parties, Ha. }
  rewrite map_size_insert_None, Hsz, Ht in Hlt by done.
  constructor; cbn [s_b s_calls s_arrivals s_resets ba_threshold ba_generation ba_arrived ba_broken ba_brokenErr]; fold g; auto.
  - rewrite length_app. cbn. lia.
  - apply NoDup_app. split_and!; [done| |apply NoDup_singleton]. by intros x Hx ->%list_elem_of_singleton.
  - intros h p. rewrite elem_of_app, list_elem_of_singleton. intros [H|[= -> ->]]; [by eapply Hp|lia].
  - intros p. rewrite elem_of_app, list_elem_of_singleton, Ha, lookup_insert_is_Some'. naive_solver.
  - rewrite parties_app, parties_one, length_app. cbn. lia.
  - intros h Hh. rewrite parties_app, (parties_other h g) by lia. rewrite app_nil_r. by apply He.
  - intros d h. rewrite lookup_insert_Some. intros [[_ [= <-]]|[_ H]]; [lia|by eapply Hw].
  - intros d h l. rewrite lookup_insert_Some. intros [[_ [=]]|[_ H]]. by eapply Hr.
  - intros d l. rewrite lookup_insert_Some. intros [[_ [=]]|[_ H]]. by eapply Hn.
Qed.

(** The party that ends the generation. *)
Lemma arrive_trips threshold s c party now b' err :
  sys_ok threshold s → short s → arrive party now (s_b s) = (Return true err, b') →
  err = None ∧
  sys_ok threshold (MkSys b' (<[c := Returned (Some (ba_generation (s_b s))) true err]> (s_calls s))
    (s_arrivals s ++ [(ba_generation (s_b s), party)]) (s_resets s)).
Proof.
  intros [Ht Hg Hnd Hp Ha Hf He Hw Hr Hn Hb] Hshort E. unfold arrive in E.
  destruct (ba_broken (s_b s)); [done|]. destruct (ba_arrived (s_b s) !! party) eqn:Ep; [done|].
  destruct (Z.leb_spec (ba_threshold (s_b s)) (Z.of_nat (size (<[party:=now]> (ba_arrived (s_b s)))))) as [Hge|]; [|done].
  injection E as <- <-. split; [done|]. set (g := ba_generation (s_b s)) in *.
  assert ((g, party) ∉ s_arrivals s) as Hnew by (intros H%Ha; rewrite Ep in H; by destruct H).
  assert (size (ba_arrived (s_b s)) = length (parties g (s_arrivals s))) as Hsz.
  { apply size_arrived; [by apply NoDup_parties|]. intros p. by rewrite elem_of_parties, Ha. }
  rewrite map_size_insert_None, Hsz, Ht in Hge by done. unfold short in Hshort.
  assert (∀ p, (g + 1, p) ∉ s_arrivals s ++ [(g, party)]) as Hnext.
  { intros p. rewrite elem_of_app, list_elem_of_singleton. intros [H%Hp|[= ? _]]; lia. }
  assert (wrap_u 64 (g + 1) = g + 1) as Hwr by (apply wrap_u_small; lia).
  constructor; cbn [s_b s_calls s_arrivals s_resets ba_threshold ba_generation ba_arrived ba_broken ba_brokenErr]; rewrite ?Hwr; auto.
  - rewrite length_app. cbn. lia.
  - apply NoDup_app. split_and!; [done| |apply NoDup_singleton]. by intros x Hx ->%list_elem_of_singleton.
  - intros h p. rewrite elem_of_app, list_elem_of_singleton. intros [H%Hp|[= -> ->]]; lia.
  - intros p. rewrite lookup_empty. split; [intros H; by apply Hnext in H|by intros []].
  - rewrite no_parties by done. cbn. lia.
  - intros h Hh. rewrite parties_app. destruct (decide (h = g)) as [->|Hne].
    + left. rewrite parties_one, length_app. cbn. lia.
    + rewrite (parties_other h g) by done. rewrite app_nil_r. apply He. lia.
  - intros d h. rewrite lookup_insert_Some. intros [[_ [=]]|[_ H%Hw]]. lia.
  - intros d h l. rewrite lookup_insert_Some. intros [[_ [= <- _]]|[_ H%Hr]]; lia.
  - intros d l. rewrite lookup_insert_Some. intros [[_ [=]]|[_ H]]. by eapply Hn.
Qed.

(** Changes that leave the generation alone, of the calls and of the broken flag. *)
Lemma same_generation threshold s b' calls :
  sys_ok threshold s →
  ba_threshold b' = ba_threshold (s_b s) → ba_generation b' = ba_generation (s_b s) → ba_arrived b' = ba_arrived (s_b s) →
  (ba_broken b' = true → ba_brokenErr b' ≠ None) →
  (∀ c g, calls !! c = Some (Waiting g) → s_calls s !! c = Some (Waiting g)) →
  (∀ c g l, calls !! c = Some (Returned (Some g) l None) →
     s_calls s !! c = Some (Returned (Some g) l None) ∨ 0 <= g < ba_generation (s_b s)) →
  (∀ c l, calls !! c = Some (Returned None l None) → s_calls s !! c = Some (Returned None l None)) →
  sys_ok threshold (MkSys b' calls (s_arrivals s) (s_resets s)).
Proof.
  intros [Ht Hg Hnd Hp Ha Hf He Hw Hr Hn Hb] E1 E2 E3 Hbr H1 H2 H3.
  constructor; cbn [s_b s_calls s_arrivals s_resets]; rewrite ?E1, ?E2, ?E3; auto.
  - intros c g H%H1. by eapply Hw.
  - intros c g l [H|H]%H2; [by eapply Hr|done].
  - intros c l H%H3. by eapply Hn.
Qed.

Lemma reset_ok threshold s :
  sys_ok threshold s → short s → 0 < threshold →
  sys_ok threshold (MkSys (Reset (s_b s)) (s_calls s) (s_arrivals s) (s_resets s ++ [ba_generation (s_b s)])).
Proof.
  intros [Ht Hg Hnd Hp Ha Hf He Hw Hr Hn Hb] Hshort Hpos. unfold short in Hshort. set (g := ba_generation (s_b s)) in *.
  assert (wrap_u 64 (g + 1) = g + 1) as Hwr by (apply wrap_u_small; lia).
  assert (∀ p, (g + 1, p) ∉ s_arrivals s) as Hnext by (intros p H%Hp; lia).
  constructor; cbn [s_b s_calls s_arrivals s_resets Reset ba_threshold ba_generation ba_arrived ba_broken ba_brokenErr]; fold g; rewrite ?Hwr; auto.
  - rewrite length_app. cbn. lia.
  - intros h p H%Hp. lia.
  - intros p. rewrite lookup_empty. split; [intros H; by apply Hnext in H|by intros []].
  - rewrite no_parties by done. done.
  - intros h Hh. rewrite elem_of_app, list_elem_of_singleton. destruct (decide (h = g)) as [->|Hne]; [auto|].
    destruct (He h); [lia|auto|auto].
  - intros d h H%Hw. lia.
  - intros d h l H%Hr. lia.
Qed.

Lemma step_ok threshold s s' : 0 < threshold → sys_ok threshold s → short s → step s s' → sys_ok threshold s'.
Proof.
  intros Hpos Hok Hshort Hstep. destruct Hstep as [s c party now r b' Hc E|s c gen isLast err Hc E|s gen err|s err|s].
  - destruct r as [[|] err|gen]; [by eapply arrive_trips| |by eapply arrive_waits].
    pose proof (so_error _ _ Hok) as Hbe. unfold arrive in E.
    assert (b' = s_b s ∧ err ≠ None) as [-> Herr].
    { destruct (ba_broken (s_b s)); [injection E as <- <-; auto|].
      destruct (ba_arrived (s_b s) !! party); [injection E as <- <-; by split|]. destruct (_ <=? _); discriminate E. }
    apply same_generation; auto; intros d; intros; rewrite lookup_insert_Some in *; naive_solver.
  - unfold wake in E. pose proof (so_waiting _ _ Hok c gen Hc) as Hw. pose proof (so_error _ _ Hok) as Hbe.
    apply same_generation; auto; intros d; intros *; rewrite lookup_insert_Some; [naive_solver| |naive_solver].
    intros [[-> [= -> -> ->]]|[_ H]]; [|by left]. right.
    destruct (ba_broken (s_b s)) eqn:Eb; [rewrite andb_false_r in E; injection E as _ E; by destruct (Hbe eq_refl)|].
    destruct (Z.eqb_spec g (ba_generation (s_b s))); [done|]. lia.
  - assert (ba_broken (cancel gen err (s_b s)) = true → ba_brokenErr (cancel gen err (s_b s)) ≠ None) as Hb.
    { pose proof (so_error _ _ Hok). unfold cancel, breakLocked. destruct (_ && _); [|done]. by destruct (ba_broken (s_b s)) eqn:Eb; [rewrite Eb|]. }
    apply same_generation; auto; unfold cancel, breakLocked; repeat case_match; done.
  - assert (ba_broken (Break err (s_b s)) = true → ba_brokenErr (Break err (s_b s)) ≠ None) as Hb.
    { pose proof (so_error _ _ Hok). unfold Break, breakLocked. destruct (ba_broken (s_b s)) eqn:Eb; [by rewrite Eb|]. by destruct err. }
    apply same_generation; auto; unfold Break, breakLocked; repeat case_match; done.
  - by apply reset_ok.
Qed.

Lemma step_short s s' : step s s' → short s' → short s.
Proof.
  intros Hstep. unfold short. destruct Hstep as [s c party now r b' Hc E|s c gen isLast err Hc E|s gen err|s err|s];
    cbn; try (destruct r as [[|] ?|?]; cbn); rewrite ?length_app; cbn; lia.
Qed.

Lemma reachable_sys_ok threshold b s :
  NewBarrier threshold = Ok b → rtc step (start b) s → short s → sys_ok threshold s.
Proof.
  intros Hb. unfold NewBarrier in Hb. destruct (Z.leb_spec threshold 0) as [|Hpos]; [done|]. injection Hb as <-.
  revert s. apply (rtc_ind_r (λ s, short s → sys_ok threshold s)); [intros _|intros s1 s2 Hr Hs IH Hshort].
  - constructor; cbn; try done; try lia; [constructor|by intros g p ?%not_elem_of_nil|].
    intros p. rewrite lookup_empty. split; [by intros ?%not_elem_of_nil|by intros []].
  - eapply step_ok; [done| | |done]; [apply IH|]; by eapply step_short.
Qed.

(** C21: A barrier keeps its parties together.  In every interleaving of arrivals, wake-ups, cancelled
    contexts, breaks and resets, as long as the generations fit into 64 bits: a call that returns without
    an error belongs to a generation in which as many different parties arrived as the threshold says, or
    one that was ended by a reset; and a call that has to wait on belongs to the present generation, in
    which fewer parties have arrived, and the barrier is not broken. *)
Theorem barrier_together threshold b s :
  NewBarrier threshold = Ok b → rtc step (start b) s → short s →
  (∀ c g isLast, s_calls s !! c = Some (Returned g isLast None) →
     ∃ gen, g = Some gen ∧ NoDup (parties gen (s_arrivals s)) ∧
       (Z.of_nat (length (parties gen (s_arrivals s))) = threshold ∨ gen ∈ s_resets s)) ∧
  (∀ c gen, s_calls s !! c = Some (Waiting gen) → wake gen (s_b s) = Wait gen →
     gen = ba_generation (s_b s) ∧ ba_broken (s_b s) = false ∧
     Z.of_nat (length (parties gen (s_arrivals s))) < threshold).
Proof.
  intros Hb Hr Hs. pose proof (reachable_sys_ok threshold b s Hb Hr Hs) as Hok. split.
  - intros c [g|] isLast Hc; [|by apply (so_refused _ _ Hok) in Hc]. exists g. split; [done|].
    split; [apply NoDup_parties, Hok|]. apply (so_ended _ _ Hok). by eapply (so_returned _ _ Hok).
  - intros c gen Hc Hw. unfold wake in Hw. destruct (Z.eqb_spec gen (ba_generation (s_b s))) as [->|Hne].
    + destruct (ba_broken (s_b s)); [done|]. split_and!; [done|done|apply Hok].
    + cbn in Hw. by destruct (ba_broken (s_b s)).
Qed.

Definition ex_barrier : Barrier := MkBarrier 2 ∅ 0 false None.

(** The first party arrives, the second one ends the generation, and the first one is woken. *)
Definition ex_tripped : sys :=
  MkSys (MkBarrier 2 ∅ 1 false None) (<[0%nat := Returned (Some 0) false None]> (<[1%nat := Returned (Some 0) true None]>
    (<[0%nat := Waiting 0]> ∅))) [(0, "a"); (0, "b")] [].

Lemma ex_waits s c party now b' gen :
  s_calls s !! c = None → arrive party now (s_b s) = (Wait gen, b') →
  step s (MkSys b' (<[c := Waiting gen]> (s_calls s)) (s_arrivals s ++ [(gen, party)]) (s_resets s)).
Proof. intros Hc E. exact (step_arrive s c party now _ b' Hc E). Qed.
Lemma ex_trips s c party now b' :
  s_calls s !! c = None → arrive party now (s_b s) = (Return true None, b') →
  step s (MkSys b' (<[c := Returned (Some (ba_generation (s_b s))) true None]> (s_calls s))
    (s_arrivals s ++ [(ba_generation (s_b s), party)]) (s_resets s)).
Proof. intros Hc E. exact (step_arrive s c party now _ b' Hc E). Qed.

Lemma ex_first :
  step (start ex_barrier) (MkSys (MkBarrier 2 {["a" := 5]} 0 false None) (<[0%nat := Waiting 0]> ∅) [(0, "a")] []).
Proof. by apply (ex_waits (start ex_barrier) 0 "a" 5). Qed.

Lemma ex_tripped_reachable : rtc step (start ex_barrier) ex_tripped.
Proof.
  eapply rtc_l; [exact ex_first|]. eapply rtc_l.
  { apply (ex_trips _ 1 "b" 6 (MkBarrier 2 ∅ 1 false None)); vm_compute; reflexivity. }
  eapply rtc_l; [|apply rtc_refl]. refine (step_wake _ 0 0 false None _ _); vm_compute; reflexivity.
Qed.

Lemma barrier_together_witness :
  s_calls ex_tripped !! 0%nat = Some (Returned (Some 0) false None) ∧
  (Z.of_nat (length (parties 0 (s_arrivals ex_tripped))) = 2 ∨ 0 ∈ s_resets ex_tripped).
Proof.
  assert (s_calls ex_tripped !! 0%nat = Some (Returned (Some 0) false None)) as E by (vm_compute; reflexivity).
  split; [exact E|].
  destruct (barrier_together 2 ex_barrier ex_tripped eq_refl ex_tripped_reachable) as [H _]; [vm_compute; reflexivity|].
  destruct (H 0%nat (Some 0) false E) as (gen & [= <-] & _ & Hor). exact Hor.
Defined.

(** A reset lets the parties that wait return without an error, though the barrier was never reached; and
    parties that reached it get an error when it is broken before they are woken. *)
Theorem barrier_misleads :
  (∃ s, rtc step (start ex_barrier) s ∧ s_calls s !! 0%nat = Some (Returned (Some 0) false None) ∧
     parties 0 (s_arrivals s) = ["a"]) ∧
  (∃ s err, rtc step (start ex_barrier) s ∧ s_calls s !! 0%nat = Some (Returned (Some 0) false (Some err)) ∧
     s_calls s !! 1%nat = Some (Returned (Some 0) true None) ∧ parties 0 (s_arrivals s) = ["a"; "b"]).
Proof.
  split.
  - eexists. split.
    { eapply rtc_l; [exact ex_first|]. eapply rtc_l; [apply step_reset|]. eapply rtc_l; [|apply rtc_refl].
      apply (step_wake _ 0 0 false None); vm_compute; reflexivity. }
    split; vm_compute; reflexivity.
  - eexists _, (ESentinel SBarrierBroken). split.
    { eapply rtc_l; [exact ex_first|]. eapply rtc_l.
      { apply (ex_trips _ 1 "b" 6 (MkBarrier 2 ∅ 1 false None)); vm_compute; reflexivity. }
      eapply rtc_l; [apply (step_break _ None)|]. eapply rtc_l; [|apply rtc_refl].
      apply (step_wake _ 0 0 false (Some (ESentinel SBarrierBroken))); vm_compute; reflexivity. }
    split_and!; vm_compute; reflexivity.
Qed.
