(* ===== verification/Lru.v ===== *)
(** The LRU cache: [internal/lru/lru.go].

    The list of [container/list] is the sequence of the addresses of its elements, from the front to the
    back; the elements live in a store, and the map holds their addresses.  The calls of the callback are
    the second component of a result. *)
From S2P Require Import Prelude.

Section lru.
Context {K V : Type} `{Countable K}.

Record entry := MkEntry { en_key : K; en_value : V }.

Record Cache := MkCache {
  c_capacity : Z;
  c_items : gmap K nat;
  c_order : list nat;
  c_elements : gmap nat entry;
  c_next : nat;
  c_onEvict : bool
}.

Definition New (capacity : Z) : Cache :=
  MkCache (if (capacity <=? 0)%Z then 128%Z else capacity) ∅ [] ∅ 0 false.

Definition OnEvict (c : Cache) : Cache :=
  MkCache (c_capacity c) (c_items c) (c_order c) (c_elements c) (c_next c) true.

Definition set_order (order : list nat) (c : Cache) : Cache :=
  MkCache (c_capacity c) (c_items c) order (c_elements c) (c_next c) (c_onEvict c).
Definition set_element (el : nat) (e : entry) (c : Cache) : Cache :=
  MkCache (c_capacity c) (c_items c) (c_order c) (<[el := e]> (c_elements c)) (c_next c) (c_onEvict c).

(** [order.MoveToFront(el)] and [order.Remove(el)] for an element of the list. *)
Definition list_remove (el : nat) (order : list nat) : list nat := filter (λ x, x ≠ el) order.
Definition MoveToFront (el : nat) (c : Cache) : Cache := set_order (el :: list_remove el (c_order c)) c.

Definition Get (key : K) (c : Cache) : option V * Cache :=
  match c_items c !! key with
  | Some el => (en_value <$> c_elements c !! el, MoveToFront el c)
  | None => (None, c)
  end.

Definition removeElement (el : nat) (c : Cache) : list (K * V) * Cache :=
  match c_elements c !! el with
  | None => ([], c)
  | Some e =>
      (if c_onEvict c then [(en_key e, en_value e)] else [],
       MkCache (c_capacity c) (delete (en_key e) (c_items c)) (list_remove el (c_order c)) (delete el (c_elements c))
         (c_next c) (c_onEvict c))
  end.

Definition evict (c : Cache) : list (K * V) * Cache :=
  match last (c_order c) with
  | Some el => removeElement el c
  | None => ([], c)
  end.

Definition Put (key : K) (value : V) (c : Cache) : list (K * V) * Cache :=
  match c_items c !! key with
  | Some el =>
      let c := MoveToFront el c in
      match c_elements c !! el with
      | Some e => ([], set_element el (MkEntry (en_key e) value) c)
      | None => ([], c)
      end
  | None =>
      let '(evicted, c) :=
        if (c_capacity c <=? Z.of_nat (length (c_order c)))%Z then evict c else ([], c) in
      let el := c_next c in
      (evicted,
       MkCache (c_capacity c) (<[key := el]> (c_items c)) (el :: c_order c) (<[el := MkEntry key value]> (c_elements c))
         (S el) (c_onEvict c))
  end.

Definition Remove (key : K) (c : Cache) : bool * list (K * V) * Cache :=
  match c_items c !! key with
  | Some el => let '(evicted, c) := removeElement el c in (true, evicted, c)
  | None => (false, [], c)
  end.

Definition Len (c : Cache) : nat := length (c_order c).

Definition Keys (c : Cache) : list K := omap (λ el, en_key <$> c_elements c !! el) (c_order c).

Definition Clear (c : Cache) : Cache := MkCache (c_capacity c) ∅ [] (c_elements c) (c_next c) (c_onEvict c).
End lru.

Arguments entry : clear implicits.
Arguments Cache K V {_ _}.

(** * Theorems

    The LRU cache refines a list of pairs in the order of their last use, and keeps a key while fewer
    other keys than its capacity are used. *)

Section facts.
Context {K V : Type} `{Countable K}.
Implicit Types (c : Cache K V) (l : list (K * V)).

(** * The specification *)

Definition others (k : K) l : list (K * V) := filter (λ kv, kv.1 ≠ k) l.
Definition find (k : K) l : option V := snd <$> head (filter (λ kv, kv.1 = k) l).

Inductive op :=
  | OGet (k : K)
  | OPut (k : K) (v : V)
  | ORemove (k : K)
  | OKeys
  | OClear.

Inductive answer :=
  | AValue (v : option V)
  | AEvicted (kvs : list (K * V))
  | ARemoved (b : bool) (kvs : list (K * V))
  | AKeys (ks : list K)
  | ANone.

(** The list has the most recently used pair first; a pair that makes room is the last one. *)
Definition spec_step (capacity : nat) (o : op) l : answer * list (K * V) :=
  match o with
  | OGet k =>
      match find k l with
      | Some v => (AValue (Some v), (k, v) :: others k l)
      | None => (AValue None, l)
      end
  | OPut k v =>
      match find k l with
      | Some _ => (AEvicted [], (k, v) :: others k l)
      | None => (AEvicted (drop (capacity - 1) l), (k, v) :: take (capacity - 1) l)
      end
  | ORemove k =>
      match find k l with
      | Some v => (ARemoved true [(k, v)], others k l)
      | None => (ARemoved false [], l)
      end
  | OKeys => (AKeys l.*1, l)
  | OClear => (ANone, [])
  end.

Definition impl_step (o : op) c : answer * Cache K V :=
  match o with
  | OGet k => let '(v, c) := Get k c in (AValue v, c)
  | OPut k v => let '(kvs, c) := Put k v c in (AEvicted kvs, c)
  | ORemove k => let '(b, kvs, c) := Remove k c in (ARemoved b kvs, c)
  | OKeys => (AKeys (Keys c), c)
  | OClear => (ANone, Clear c)
  end.

Fixpoint run {S : Type} (step : op → S → answer * S) (ops : list op) (s : S) : list answer * S :=
  match ops with
  | [] => ([], s)
  | o :: ops' => let '(a, s) := step o s in let '(answers, s) := run step ops' s in (a :: answers, s)
  end.

(** * The representation *)

(** The pair in an element. *)
Definition pair_of c (el : nat) : option (K * V) := (λ e, (en_key e, en_value e)) <$> c_elements c !! el.

Record repr (capacity : nat) c l : Prop := {
  re_capacity : c_capacity c = Z.of_nat capacity;
  re_callback : c_onEvict c = true;
  re_list : Forall2 (λ el kv, pair_of c el = Some kv) (c_order c) l;
  re_nodup : NoDup l.*1;
  re_items : ∀ k el, c_items c !! k = Some el ↔ el ∈ c_order c ∧ ∃ v, pair_of c el = Some (k, v);
  re_fresh : ∀ el, el ∈ c_order c → el < c_next c;
  re_length : length l <= capacity
}.

Lemma find_Some k v l : NoDup l.*1 → find k l = Some v ↔ (k, v) ∈ l.
Proof.
  intros Hnd. unfold find. split.
  - destruct (filter _ l) as [|[j w] f] eqn:E; [done|]. cbn. intros [= ->].
    assert ((j, v) ∈ filter (λ kv, kv.1 = k) l) as [Hj Hin]%list_elem_of_filter by (rewrite E; by left). cbn in Hj. by subst j.
  - intros Hin. destruct (filter (λ kv, kv.1 = k) l) as [|[j w] f] eqn:E.
    + assert ((k, v) ∈ filter (λ kv, kv.1 = k) l) as Hf by (by apply list_elem_of_filter). rewrite E in Hf. by apply not_elem_of_nil in Hf.
    + assert ((j, w) ∈ filter (λ kv, kv.1 = k) l) as [Hj Hw]%list_elem_of_filter by (rewrite E; by left). cbn in Hj. subst j.
      cbn. f_equal. by apply (f_equal snd (NoDup_fmap_elem_inj fst l (k, w) (k, v) Hnd Hw Hin eq_refl)).
Qed.

Lemma find_None k l : NoDup l.*1 → find k l = None ↔ k ∉ l.*1.
Proof.
  intros Hnd. split.
  - intros Hf ([j v] & -> & Hin)%list_elem_of_fmap. apply (find_Some j v l Hnd) in Hin. cbn in Hf. congruence.
  - intros Hn. destruct (find k l) as [v|] eqn:E; [|done]. apply (find_Some k v l Hnd) in E.
    destruct Hn. apply list_elem_of_fmap. by exists (k, v).
Qed.

Lemma others_nodup k l : NoDup l.*1 → NoDup (others k l).*1.
Proof.
  unfold others. induction l as [|[j v] l IH]; [done|]. rewrite fmap_cons, NoDup_cons. intros [Hj Hnd].
  destruct (decide (j ≠ k)) as [Hk|Hk].
  - rewrite filter_cons_True by done. rewrite fmap_cons. apply NoDup_cons. split; [|by apply IH].
    intros ([i w] & Hi & [_ Hin]%list_elem_of_filter)%list_elem_of_fmap. destruct Hj. apply list_elem_of_fmap. by exists (i, w).
  - rewrite filter_cons_False by done. by apply IH.
Qed.

Lemma others_not k l : k ∉ (others k l).*1.
Proof. intros ([j v] & -> & [Hj _]%list_elem_of_filter)%list_elem_of_fmap. by apply Hj. Qed.

Lemma Forall2_filter {A B} (R : A → B → Prop) (P : A → Prop) (Q : B → Prop)
    `{!∀ x, Decision (P x), !∀ y, Decision (Q y)} (l : list A) (k : list B) :
  Forall2 (λ x y, R x y ∧ (P x ↔ Q y)) l k → Forall2 R (filter P l) (filter Q k).
Proof.
  induction 1 as [|x y l k [Hr Hpq] Hl IH]; [done|]. destruct (decide (P x)) as [Hp|Hp].
  - rewrite !filter_cons_True by tauto. by constructor.
  - rewrite !filter_cons_False by tauto. done.
Qed.

(** What the map says of a key. *)
Lemma repr_items capacity c l k :
  repr capacity c l →
  match c_items c !! k with
  | Some el => ∃ v, find k l = Some v ∧ el ∈ c_order c ∧ pair_of c el = Some (k, v)
  | None => find k l = None
  end.
Proof.
  intros [_ _ Hl Hnd Hit _ _]. destruct (c_items c !! k) as [el|] eqn:E.
  - apply Hit in E as [Hin [v Hv]]. exists v. split; [|done]. apply find_Some; [done|].
    apply list_elem_of_lookup_1 in Hin as [i Hi]. destruct (Forall2_lookup_l _ _ _ _ _ Hl Hi) as (kv & Hkv & Hp).
    apply list_elem_of_lookup_2 in Hkv. congruence.
  - apply find_None; [done|]. intros ([j v] & -> & Hin)%list_elem_of_fmap. apply list_elem_of_lookup_1 in Hin as [i Hi].
    destruct (Forall2_lookup_r _ _ _ _ _ Hl Hi) as (el & Hel & Hp). apply list_elem_of_lookup_2 in Hel.
    assert (c_items c !! j = Some el) as H' by (apply Hit; eauto). cbn in E. congruence.
Qed.

(** Taking an element out of the list takes its key out of the pairs. *)
Lemma repr_remove capacity c l k v el :
  repr capacity c l → el ∈ c_order c → pair_of c el = Some (k, v) →
  Forall2 (λ el kv, pair_of c el = Some kv) (list_remove el (c_order c)) (others k l).
Proof.
  intros Hr Hel Hp. apply Forall2_filter. apply Forall2_same_length_lookup_2; [by eapply Forall2_length, Hr|].
  intros i x [j w] Hx Hy. pose proof (Forall2_lookup_lr _ _ _ _ _ _ (re_list _ _ _ Hr) Hx Hy) as Hxp.
  split; [done|]. apply list_elem_of_lookup_2 in Hx. cbn. split; intros Hne ->; apply Hne.
  - assert (c_items c !! k = Some x) as H1 by (apply (re_items _ _ _ Hr); eauto).
    assert (c_items c !! k = Some el) as H2 by (apply (re_items _ _ _ Hr); eauto). congruence.
  - congruence.
Qed.

Lemma repr_lengths capacity c l : repr capacity c l → length (c_order c) = length l.
Proof. intros Hr. eapply Forall2_length, Hr. Qed.

Lemma repr_order_nodup capacity c l : repr capacity c l → NoDup (c_order c).
Proof.
  intros Hr. apply NoDup_alt. intros i j el Hi Hj.
  destruct (Forall2_lookup_l _ _ _ _ _ (re_list _ _ _ Hr) Hi) as ([k v] & Hk & Hp).
  destruct (Forall2_lookup_l _ _ _ _ _ (re_list _ _ _ Hr) Hj) as ([k' v'] & Hk' & Hp'). 
  rewrite Hp in Hp'. injection Hp' as <- <-.
  pose proof (re_nodup _ _ _ Hr) as Hnd. rewrite NoDup_alt in Hnd. apply (Hnd i j k); rewrite list_lookup_fmap; [by rewrite Hk|by rewrite Hk'].
Qed.

Lemma list_remove_elem x el (order : list nat) : x ∈ list_remove el order ↔ x ∈ order ∧ x ≠ el.
Proof. unfold list_remove. rewrite list_elem_of_filter. tauto. Qed.

(** An element is moved to the front, perhaps with another value. *)
Lemma repr_move capacity c l k v el w :
  repr capacity c l → el ∈ c_order c → pair_of c el = Some (k, v) →
  repr capacity (set_element el (MkEntry k w) (MoveToFront el c)) ((k, w) :: others k l).
Proof.
  intros Hr Hel Hp. set (c' := set_element _ _ _).
  assert (pair_of c' el = Some (k, w)) as He by (unfold pair_of; cbn; by rewrite lookup_insert_eq).
  assert (∀ x, x ≠ el → pair_of c' x = pair_of c x) as Hne by (intros x Hx; unfold pair_of; cbn; by rewrite lookup_insert_ne).
  assert (∀ x, x ∈ c_order c' ↔ x ∈ c_order c) as Hord.
  { intros x. cbn. rewrite elem_of_cons, list_remove_elem. destruct (decide (x = el)) as [->|]; tauto. }
  constructor; [apply Hr|apply Hr|..].
  - cbn. constructor; [done|]. eapply Forall2_impl; [|intros x y Hxy; exact Hxy].
    assert (Forall2 (λ x kv, pair_of c x = Some kv ∧ x ≠ el) (list_remove el (c_order c)) (others k l)) as HF.
    { pose proof (repr_remove _ _ _ _ _ _ Hr Hel Hp) as HF. apply Forall2_same_length_lookup_2; [by eapply Forall2_length|].
      intros i x y Hx Hy. split; [by apply (Forall2_lookup_lr _ _ _ _ _ _ HF Hx Hy)|].
      apply list_elem_of_lookup_2, list_remove_elem in Hx. apply Hx. }
    eapply Forall2_impl; [exact HF|]. cbn. intros x y [Hxy Hx]. by rewrite Hne.
  - cbn. apply NoDup_cons. split; [apply others_not|apply others_nodup, Hr].
  - intros j x. rewrite Hord. cbn [c_items c' set_element MoveToFront set_order]. rewrite (re_items _ _ _ Hr).
    destruct (decide (x = el)) as [->|Hx]; [|by rewrite Hne].
    rewrite He, Hp. split; intros [? [u [= -> ->]]]; eauto.
  - intros x Hx%Hord. by apply (re_fresh _ _ _ Hr).
  - transitivity (length l); [|apply Hr]. rewrite <-(repr_lengths _ _ _ Hr). cbn.
    rewrite <-(Forall2_length _ _ _ (repr_remove _ _ _ _ _ _ Hr Hel Hp)). unfold list_remove.
    pose proof (length_filter_lt (λ x, x ≠ el) (c_order c) el Hel ltac:(by intros Hn)). lia.
Qed.

(** A lookup moves the element and keeps its value. *)
Lemma repr_get capacity c l k v el :
  repr capacity c l → el ∈ c_order c → pair_of c el = Some (k, v) → repr capacity (MoveToFront el c) ((k, v) :: others k l).
Proof.
  intros Hr Hel Hp. pose proof (repr_move _ _ _ _ _ _ v Hr Hel Hp) as Hm. unfold pair_of in Hp.
  destruct (c_elements c !! el) as [[k' v']|] eqn:E; [|done]. injection Hp as -> ->.
  unfold set_element in Hm. cbn [MoveToFront set_order c_elements] in Hm. rewrite insert_id in Hm by done. exact Hm.
Qed.

Lemma removeElement_repr capacity c l k v el :
  repr capacity c l → el ∈ c_order c → pair_of c el = Some (k, v) →
  (removeElement el c).1 = [(k, v)] ∧ repr capacity (removeElement el c).2 (others k l).
Proof.
  intros Hr Hel Hp. unfold removeElement. pose proof Hp as Hp'. unfold pair_of in Hp.
  destruct (c_elements c !! el) as [[k' v']|] eqn:E; [|done]. injection Hp as -> ->. rewrite (re_callback _ _ _ Hr).
  split; [done|]. cbn [fst snd en_key en_value]. set (c' := MkCache _ _ _ _ _ _).
  assert (∀ x, x ≠ el → pair_of c' x = pair_of c x) as Hne by (intros x Hx; unfold pair_of; cbn; by rewrite lookup_delete_ne).
  constructor; [apply Hr|done|..].
  - pose proof (repr_remove _ _ _ _ _ _ Hr Hel Hp') as HF. apply Forall2_same_length_lookup_2; [by eapply Forall2_length|].
    intros i x y Hx Hy. rewrite Hne; [by apply (Forall2_lookup_lr _ _ _ _ _ _ HF Hx Hy)|].
    apply list_elem_of_lookup_2, list_remove_elem in Hx. apply Hx.
  - apply others_nodup, Hr.
  - intros j x. cbn [c_items c_order c']. rewrite lookup_delete_Some, (re_items _ _ _ Hr), list_remove_elem.
    destruct (decide (x = el)) as [->|Hx].
    + split; [|by intros [[_ ?] _]]. intros (Hj & _ & w & Hw). congruence.
    + rewrite Hne by done. split; [by intros (_ & Hx' & Hw)|]. intros [[Hx' _] [w Hw]]. split; [|eauto]. intros <-.
      assert (c_items c !! k = Some x) as H1 by (apply (re_items _ _ _ Hr); eauto).
      assert (c_items c !! k = Some el) as H2 by (apply (re_items _ _ _ Hr); eauto). congruence.
  - cbn. intros x [Hx _]%list_remove_elem. by apply (re_fresh _ _ _ Hr).
  - etrans; [apply length_filter|apply Hr].
Qed.

Lemma others_last k v l : NoDup (l ++ [(k, v)]).*1 → others k (l ++ [(k, v)]) = l.
Proof.
  rewrite fmap_app. intros (_ & Hdis & _)%NoDup_app. unfold others. rewrite filter_app, filter_cons_False, app_nil_r by (cbn; tauto).
  induction l as [|[j w] l IH]; [done|]. rewrite filter_cons_True.
  - f_equal. apply IH. intros x Hx. apply Hdis. by right.
  - cbn. intros ->. apply (Hdis k); by left.
Qed.

(** Making room takes the last pair away. *)
Lemma evict_repr capacity c l :
  repr capacity c l → 0 < capacity → capacity <= length l →
  (evict c).1 = drop (capacity - 1) l ∧ repr capacity (evict c).2 (take (capacity - 1) l).
Proof.
  intros Hr Hpos Hfull. assert (length l = capacity) as Hlen by (pose proof (re_length _ _ _ Hr); lia).
  destruct l as [|[k v] l0 _] using rev_ind; [cbn in Hlen; lia|]. rewrite length_app in Hlen. cbn in Hlen.
  pose proof (re_list _ _ _ Hr) as HF. apply Forall2_app_inv_r in HF as (o1 & o2 & HF1 & HF2 & Ho).
  apply Forall2_cons_inv_r in HF2 as (el & o3 & Hp & HF3 & ->). apply Forall2_nil_inv_r in HF3 as ->.
  unfold evict. rewrite Ho, last_snoc.
  destruct (removeElement_repr capacity c _ k v el Hr) as [E1 E2]; [rewrite Ho; apply elem_of_app; right; by left|done|].
  rewrite (others_last k v l0 (re_nodup _ _ _ Hr)) in E2.
  rewrite E1, take_app_length', drop_app_length' by lia. done.
Qed.

Lemma repr_insert capacity c l k v :
  repr capacity c l → length l < capacity → k ∉ l.*1 →
  repr capacity (MkCache (c_capacity c) (<[k := c_next c]> (c_items c)) (c_next c :: c_order c)
    (<[c_next c := MkEntry k v]> (c_elements c)) (S (c_next c)) (c_onEvict c)) ((k, v) :: l).
Proof.
  intros Hr Hlen Hk. set (c' := MkCache _ _ _ _ _ _).
  assert (pair_of c' (c_next c) = Some (k, v)) as He by (unfold pair_of; cbn; by rewrite lookup_insert_eq).
  assert (∀ x, x ∈ c_order c → pair_of c' x = pair_of c x) as Hne.
  { intros x Hx%(re_fresh _ _ _ Hr). unfold pair_of. cbn. rewrite lookup_insert_ne by lia. done. }
  assert (c_items c !! k = None) as Hnone.
  { pose proof (repr_items _ _ _ k Hr) as Hi. destruct (c_items c !! k); [|done]. destruct Hi as (w & Hw & _).
    apply (find_None k l (re_nodup _ _ _ Hr)) in Hk. congruence. }
  constructor; [apply Hr|apply Hr|..].
  - constructor; [done|]. pose proof (re_list _ _ _ Hr) as HF. apply Forall2_same_length_lookup_2; [by eapply Forall2_length|].
    intros i x y Hx Hy. rewrite Hne; [by apply (Forall2_lookup_lr _ _ _ _ _ _ HF Hx Hy)|by eapply list_elem_of_lookup_2].
  - cbn. apply NoDup_cons. split; [done|apply Hr].
  - intros j x. cbn [c_items c_order c']. rewrite lookup_insert_Some, elem_of_cons, (re_items _ _ _ Hr). split.
    + intros [[<- <-]|[Hj [Hx [w Hw]]]]; [eauto|]. split; [by right|]. exists w. by rewrite Hne.
    + intros [[->|Hx] [w Hw]].
      * rewrite He in Hw. injection Hw as <- _. by left.
      * rewrite Hne in Hw by done. right. split; [|eauto]. intros <-.
        assert (c_items c !! k = Some x) by (apply (re_items _ _ _ Hr); eauto). congruence.
  - cbn. intros x [->|Hx%(re_fresh _ _ _ Hr)]%elem_of_cons; lia.
  - cbn. lia.
Qed.

Lemma Keys_repr capacity c l : repr capacity c l → Keys c = l.*1.
Proof.
  intros Hr. unfold Keys. pose proof (re_list _ _ _ Hr) as HF. clear Hr. induction HF as [|el [k v] o l' Hp _ IH]; [done|].
  cbn. unfold pair_of in Hp. destruct (c_elements c !! el) as [e|]; [|done]. injection Hp as <- <-. cbn. by rewrite IH.
Qed.

Lemma step_refines capacity o c l :
  repr capacity c l → 0 < capacity →
  (impl_step o c).1 = (spec_step capacity o l).1 ∧ repr capacity (impl_step o c).2 (spec_step capacity o l).2.
Proof.
  intros Hr Hpos. destruct o as [k|k v|k| |]; cbn [impl_step spec_step].
  - unfold Get. pose proof (repr_items _ _ _ k Hr) as Hi. destruct (c_items c !! k) as [el|]; [|rewrite Hi; by split].
    destruct Hi as (v & -> & Hel & Hp). split; [|by apply (repr_get _ _ _ _ _ el)].
    cbn. unfold pair_of in Hp. destruct (c_elements c !! el); [|done]. by injection Hp as _ <-.
  - unfold Put. pose proof (repr_items _ _ _ k Hr) as Hi. destruct (c_items c !! k) as [el|].
    + destruct Hi as (w & -> & Hel & Hp). pose proof (repr_move _ _ _ _ _ _ v Hr Hel Hp) as Hm.
      unfold pair_of in Hp. cbn [MoveToFront set_order c_elements]. destruct (c_elements c !! el) as [[k' w']|]; [|done].
      injection Hp as -> ->. done.
    + rewrite Hi. apply (find_None k l (re_nodup _ _ _ Hr)) in Hi.
      rewrite (re_capacity _ _ _ Hr), (repr_lengths _ _ _ Hr). destruct (Z.leb_spec (Z.of_nat capacity) (Z.of_nat (length l))).
      * destruct (evict_repr _ _ _ Hr Hpos ltac:(lia)) as [E1 E2]. destruct (evict c) as [kvs c']. cbn [fst snd] in *. subst kvs.
        split; [done|]. apply repr_insert; [done|rewrite length_take; lia|].
        intros Hk. apply Hi. rewrite <-(take_drop (capacity - 1) l), fmap_app. apply elem_of_app. by left.
      * rewrite drop_ge, take_ge by lia. split; [done|]. apply repr_insert; [done|lia|done].
  - unfold Remove. pose proof (repr_items _ _ _ k Hr) as Hi. destruct (c_items c !! k) as [el|]; [|rewrite Hi; by split].
    destruct Hi as (v & -> & Hel & Hp). destruct (removeElement_repr _ _ _ _ _ _ Hr Hel Hp) as [E1 E2].
    destruct (removeElement el c). cbn [fst snd] in *. by subst.
  - split; [|done]. cbn. by rewrite (Keys_repr _ _ _ Hr).
  - split; [done|]. cbn. destruct Hr. constructor; cbn; try done; [constructor| |by intros ? ?%not_elem_of_nil|lia].
    intros k el. rewrite lookup_empty. split; [done|]. by intros [?%not_elem_of_nil _].
Qed.

Lemma run_refines capacity ops c l :
  repr capacity c l → 0 < capacity →
  (run impl_step ops c).1 = (run (spec_step capacity) ops l).1 ∧
  repr capacity (run impl_step ops c).2 (run (spec_step capacity) ops l).2.
Proof.
  intros Hr Hpos. revert c l Hr. induction ops as [|o ops IH]; intros c l Hr; cbn [run]; [done|].
  destruct (step_refines capacity o c l Hr Hpos) as [E1 E2].
  destruct (impl_step o c) as [a c'], (spec_step capacity o l) as [a' l']. cbn [fst snd] in *. subst a'.
  destruct (IH c' l' E2) as [E3 E4].
  destruct (run impl_step ops c'), (run (spec_step capacity) ops l'). cbn [fst snd] in *. by subst.
Qed.

Definition capacity_of (capacity : Z) : nat := Z.to_nat (if (capacity <=? 0)%Z then 128%Z else capacity).

Lemma capacity_pos capacity : 0 < capacity_of capacity.
Proof. unfold capacity_of. destruct (Z.leb_spec capacity 0); lia. Qed.

Lemma repr_new capacity : repr (capacity_of capacity) (OnEvict (New capacity)) [].
Proof.
  constructor; cbn; try done; [|constructor| |by intros ? ?%not_elem_of_nil|lia].
  - unfold capacity_of. destruct (Z.leb_spec capacity 0); lia.
  - intros k el. rewrite lookup_empty. split; [done|]. by intros [?%not_elem_of_nil _].
Qed.

(** C22: The cache refines a list of at most as many pairs as its capacity, in the order of their last use:
    on every sequence of operations it gives the answers of the list, and calls the callback with the pairs
    that the list drops, except for [Clear], which drops all pairs without a call, and in the end it has the keys of the list in the same order. *)
Theorem lru_refines capacity ops :
  let n := capacity_of capacity in
  let '(answers, c) := run impl_step ops (OnEvict (New capacity)) in
  let '(expected, l) := run (spec_step n) ops [] in
  answers = expected ∧ Keys c = l.*1 ∧ Len c = length l ∧ length l <= n.
Proof.
  destruct (run_refines _ ops _ _ (repr_new capacity) (capacity_pos capacity)) as [E Hr].
  cbv zeta. destruct (run impl_step ops _) as [answers c], (run (spec_step _) ops _) as [expected l]. cbn [fst snd] in *.
  split; [done|]. split; [by eapply Keys_repr|]. split; [by eapply repr_lengths|apply Hr].
Qed.

(** * How long a key is kept *)

(** The keys other than [k] that an operation uses; [None] when it takes [k] away or changes its value. *)
Definition uses (k : K) (o : op) : option (gset K) :=
  match o with
  | OGet j => Some ({[j]} ∖ {[k]})
  | OPut j _ => if decide (j = k) then None else Some {[j]}
  | ORemove j => if decide (j = k) then None else Some ∅
  | OKeys => Some ∅
  | OClear => None
  end.

(** The pairs before [k] were used later, and have their keys in [used]. *)
Definition kept (k : K) (v : V) (used : gset K) l : Prop :=
  ∃ pre post, l = pre ++ (k, v) :: post ∧ NoDup l.*1 ∧ ∀ j, j ∈ pre.*1 → j ∈ used.

Lemma kept_length k v (used : gset K) l pre post :
  l = pre ++ (k, v) :: post → NoDup l.*1 → (∀ j, j ∈ pre.*1 → j ∈ used) → length pre <= size used.
Proof.
  intros -> Hnd Hin. rewrite fmap_app in Hnd. apply NoDup_app in Hnd as (Hnd & _).
  rewrite <-(length_fmap fst pre), <-(size_list_to_set (C := gset K) _ Hnd). apply subseteq_size.
  intros j Hj%elem_of_list_to_set. by apply Hin.
Qed.

Lemma others_app k l l' : others k (l ++ l') = others k l ++ others k l'.
Proof. apply filter_app. Qed.
Lemma others_cons_ne k j v l : j ≠ k → others k ((j, v) :: l) = (j, v) :: others k l.
Proof. intros. unfold others. by rewrite filter_cons_True. Qed.
Lemma others_cons_eq k v l : others k ((k, v) :: l) = others k l.
Proof. unfold others. rewrite filter_cons_False; [done|]. cbn. tauto. Qed.
Lemma others_keys k j l : j ∈ (others k l).*1 → j ∈ l.*1.
Proof. intros (kv & -> & [_ Hin]%list_elem_of_filter)%list_elem_of_fmap. apply list_elem_of_fmap. eauto. Qed.

(** Using another key that is in the list puts it before [k]. *)
Lemma kept_front k v (used : gset K) l j w :
  kept k v used l → j ≠ k → j ∈ used → kept k v used ((j, w) :: others j l).
Proof.
  intros (pre & post & -> & Hnd & Hin) Hj Hu. exists ((j, w) :: others j pre), (others j post).
  rewrite others_app, others_cons_ne by done. split; [done|]. split.
  - cbn. apply NoDup_cons. rewrite <-(others_cons_ne j k v post), <-others_app by done. split; [apply others_not|by apply others_nodup].
  - intros i. cbn. intros [->|Hi%others_keys]%elem_of_cons; [done|by apply Hin].
Qed.

Lemma kept_step n k v (used : gset K) l o u :
  kept k v used l → uses k o = Some u → u ⊆ used → size used < n → kept k v used (spec_step n o l).2.
Proof.
  intros Hk Hu Hsub Hsize. destruct o as [j|j w|j| |]; cbn [spec_step uses] in *.
  - destruct (find j l) as [w|] eqn:E; [|done]. cbn. destruct (decide (j = k)) as [->|Hj]; [|apply kept_front; [done|done|set_solver]].
    destruct Hk as (pre & post & -> & Hnd & Hin). apply (find_Some k w _ Hnd) in E.
    assert (w = v) as ->.
    { by apply (f_equal snd (NoDup_fmap_elem_inj fst _ (k, w) (k, v) Hnd E ltac:(apply elem_of_app; right; by left) eq_refl)). }
    exists [], (others k (pre ++ (k, v) :: post)). split; [done|]. split; [|by intros ? ?%not_elem_of_nil].
    cbn. apply NoDup_cons. split; [apply others_not|by apply others_nodup].
  - destruct (decide (j = k)) as [|Hj]; [done|]. injection Hu as <-. assert (j ∈ used) as Hju by set_solver.
    destruct (find j l) as [x|] eqn:E; cbn; [by apply kept_front|].
    destruct Hk as (pre & post & Hl & Hnd & Hin). apply (find_None j l Hnd) in E.
    assert (length ((j, w) :: pre) <= size used) as Hlen.
    { apply (kept_length k v used ((j, w) :: l) _ post); [by rewrite Hl|cbn; by apply NoDup_cons|].
      intros i. cbn. intros [->|Hi]%elem_of_cons; [done|by apply Hin]. }
    cbn in Hlen. exists ((j, w) :: pre), (take (n - 1 - length pre - 1) post).
    assert (take (n - 1) l = pre ++ (k, v) :: take (n - 1 - length pre - 1) post) as Ht.
    { rewrite Hl, take_app_ge by lia. f_equal. destruct (n - 1 - length pre) as [|m] eqn:Em; [lia|]. cbn. by rewrite Nat.sub_0_r. }
    rewrite Ht. split; [done|]. split; [|intros i; cbn; intros [->|Hi]%elem_of_cons; [done|by apply Hin]].
    rewrite <-Ht. cbn. apply NoDup_cons. rewrite fmap_take. split; [|rewrite <-(take_drop (n - 1) l.*1) in Hnd; by apply NoDup_app in Hnd as (? & _)].
    intros Hi. apply E. rewrite <-(take_drop (n - 1) l.*1). apply elem_of_app. by left.
  - destruct (decide (j = k)) as [|Hj]; [done|]. destruct (find j l) as [w|] eqn:E; [|done]. cbn.
    destruct Hk as (pre & post & -> & Hnd & Hin). exists (others j pre), (others j post).
    rewrite others_app, others_cons_ne by done. split; [done|]. split; [|intros i Hi%others_keys; by apply Hin].
    rewrite <-(others_cons_ne j k v post), <-others_app by done. by apply others_nodup.
  - done.
  - done.
Qed.

Lemma kept_run n k v (used : gset K) ops l :
  kept k v used l → (∀ o, o ∈ ops → ∃ u, uses k o = Some u ∧ u ⊆ used) → size used < n →
  kept k v used (run (spec_step n) ops l).2.
Proof.
  intros Hk Hops Hsize. revert l Hk. induction ops as [|o ops IH]; intros l Hk; cbn [run]; [done|].
  destruct (Hops o ltac:(by left)) as (u & Hu & Hsub). pose proof (kept_step n k v used l o u Hk Hu Hsub Hsize) as Hk'.
  destruct (spec_step n o l) as [a l']. specialize (IH ltac:(intros x Hx; apply Hops; by right) l' Hk').
  destruct (run (spec_step n) ops l'). done.
Qed.

Lemma cache_run_app {S : Type} (step : op → S → answer * S) ops ops' s :
  (run step (ops ++ ops') s).2 = (run step ops' (run step ops s).2).2.
Proof.
  revert s. induction ops as [|o ops IH]; intros s; cbn [app run]; [done|]. destruct (step o s) as [a s'].
  specialize (IH s'). destruct (run step (ops ++ ops') s'), (run step ops s'). done.
Qed.

(** A key is kept while fewer other keys than the capacity are used.  Whatever happened before, a
    value that is put into the cache is found again after any operations that do not take it away or put
    another one under its key, and that use fewer other keys than the capacity, each as often as they like. *)
Theorem lru_retains capacity before k v ops (used : gset K) :
  (∀ o, o ∈ ops → ∃ u, uses k o = Some u ∧ u ⊆ used) → size used < capacity_of capacity →
  (Get k (run impl_step (before ++ OPut k v :: ops) (OnEvict (New capacity))).2).1 = Some v.
Proof.
  intros Hops Hsize. set (n := capacity_of capacity) in *.
  destruct (run_refines _ (before ++ OPut k v :: ops) _ _ (repr_new capacity) (capacity_pos capacity)) as [_ Hr].
  set (c := (run impl_step _ _).2) in *. clearbody c. fold n in Hr. rewrite cache_run_app in Hr.
  destruct (run_refines _ before _ _ (repr_new capacity) (capacity_pos capacity)) as [_ Hb]. fold n in Hb.
  set (l := (run (spec_step n) before []).2) in *. cbn [run] in Hr.
  assert (kept k v used (spec_step n (OPut k v) l).2) as Hk.
  { exists [], (tail (spec_step n (OPut k v) l).2).
    destruct (step_refines n (OPut k v) _ _ Hb (capacity_pos capacity)) as [_ Hp].
    split; [|split; [apply Hp|by intros ? ?%not_elem_of_nil]]. cbn. by destruct (find k l). }
  destruct (spec_step n (OPut k v) l) as [a l1]. pose proof (kept_run n k v used ops l1 Hk Hops Hsize) as Hkr.
  destruct (run (spec_step n) ops l1) as [answers l2]. cbn [snd] in *.
  destruct Hkr as (pre & post & -> & Hnd & _).
  destruct (step_refines n (OGet k) _ _ Hr (capacity_pos capacity)) as [E _]. cbn [impl_step spec_step] in E.
  rewrite (proj2 (find_Some k v _ Hnd)) in E by (apply elem_of_app; right; by left).
  destruct (Get k c). by injection E.
Qed.
End facts.

Lemma lru_retains_witness :
  (Get "a" (run impl_step ([OPut "x" 1%Z] ++ OPut "a" 7%Z :: [OPut "b" 2%Z; OGet "x"; OGet "b"; OPut "b" 3%Z])
     (OnEvict (New 3))).2).1 = Some 7%Z.
Proof.
  refine (lru_retains 3 [OPut "x" 1%Z] "a" 7%Z [OPut "b" 2%Z; OGet "x"; OGet "b"; OPut "b" 3%Z] {["b"; "x"]} _ _).
  - intros o Ho. repeat (apply elem_of_cons in Ho as [->|Ho]; [eexists; split; [reflexivity|]; set_solver|]).
    by apply not_elem_of_nil in Ho.
  - vm_compute. lia.
Defined.
