(* ===== verification/ConsistentHash.v ===== *)
(** The hash ring of [internal/consistenthash/consistenthash.go], and that it moves only the keys of a node
    that leaves, as long as no two points of the ring collide. *)
From S2P Require Import Prelude Runes SortSearch Sha256.
Local Open Scope Z_scope.

Record HashRing := MkRing {
  hr_ring : gmap Z string;
  hr_sortedKeys : list Z;
  hr_nodes : gset string;
  hr_replicas : Z
}.

Definition New (replicas : Z) : HashRing := MkRing ∅ [] ∅ (if replicas <=? 0 then 150 else replicas).

Definition hash (key : string) : Z := ChecksumIEEE key.

(** [hr.hash(node + "-" + string(rune(i)))] *)
Definition point (node : string) (i : nat) : Z := hash (node +:+ "-" +:+ utf8_encode (wrap_s 32 (Z.of_nat i))).
Definition points (replicas : Z) (node : string) : list Z := point node <$> seq 0 (Z.to_nat replicas).

Definition add_point (node : string) (hr : HashRing) (key : Z) : HashRing :=
  MkRing (<[key := node]> (hr_ring hr)) (hr_sortedKeys hr ++ [key]) (hr_nodes hr) (hr_replicas hr).

Definition Add (sh : shuffle) (node : string) (hr : HashRing) : HashRing :=
  if bool_decide (node ∈ hr_nodes hr) then hr
  else
    let hr := MkRing (hr_ring hr) (hr_sortedKeys hr) ({[node]} ∪ hr_nodes hr) (hr_replicas hr) in
    let hr := foldl (add_point node) hr (points (hr_replicas hr) node) in
    MkRing (hr_ring hr) (sort_slice Z.ltb (sh _ (hr_sortedKeys hr))) (hr_nodes hr) (hr_replicas hr).

(** The loop that deletes the first occurrence of a key. *)
Fixpoint delete_first (key : Z) (keys : list Z) : list Z :=
  match keys with
  | [] => []
  | k :: keys' => if k =? key then keys' else k :: delete_first key keys'
  end.

Definition remove_point (hr : HashRing) (key : Z) : HashRing :=
  MkRing (delete key (hr_ring hr)) (delete_first key (hr_sortedKeys hr)) (hr_nodes hr) (hr_replicas hr).

Definition Remove (node : string) (hr : HashRing) : HashRing :=
  if bool_decide (node ∈ hr_nodes hr) then
    let hr := MkRing (hr_ring hr) (hr_sortedKeys hr) (hr_nodes hr ∖ {[node]}) (hr_replicas hr) in
    foldl remove_point hr (points (hr_replicas hr) node)
  else hr.

(** [hr.ring[k]] of a key that is not in the map is the empty string. *)
Definition Get (key : string) (hr : HashRing) : string :=
  match hr_sortedKeys hr !! ring_index (hr_sortedKeys hr) (hash key) with
  | Some k => default "" (hr_ring hr !! k)
  | None => ""
  end.

Definition Len (hr : HashRing) : nat := size (hr_nodes hr).
Definition Nodes (sh : shuffle) (hr : HashRing) : list string := sh _ (elements (hr_nodes hr)).

(** The index panics on an empty ring. *)
Fixpoint Distribution (keys : list string) (dist : gmap string Z) (hr : HashRing) : outcome (gmap string Z) :=
  match keys with
  | [] => Returns dist
  | k :: keys' =>
      match hr_sortedKeys hr !! ring_index (hr_sortedKeys hr) (hash k) with
      | None => Panics
      | Some p =>
          let node := default "" (hr_ring hr !! p) in
          Distribution keys' (<[node := default 0 (dist !! node) + 1]> dist) hr
      end
  end.

(** * Facts *)

#[local] Opaque hash.

Inductive ring_op :=
  | RAdd (sh : shuffle) (node : string)
  | RRemove (node : string).
Definition ring_step (hr : HashRing) (o : ring_op) : HashRing :=
  match o with
  | RAdd sh node => Add sh node hr
  | RRemove node => Remove node hr
  end.
Definition node_of (o : ring_op) : string :=
  match o with RAdd _ node => node | RRemove node => node end.

(** Different points of the nodes in use have different hashes. *)
Definition no_collisions (replicas : Z) (names : gset string) : Prop :=
  ∀ n m i j, n ∈ names → m ∈ names → (i < Z.to_nat replicas)%nat → (j < Z.to_nat replicas)%nat →
    point n i = point m j → n = m ∧ i = j.

Record ring_ok (replicas : Z) (names : gset string) (hr : HashRing) : Prop := {
  ro_replicas : hr_replicas hr = replicas;
  ro_names : hr_nodes hr ⊆ names;
  ro_sorted : StronglySorted Z.le (hr_sortedKeys hr);
  ro_nodup : NoDup (hr_sortedKeys hr);
  ro_keys : ∀ k, k ∈ hr_sortedKeys hr ↔ ∃ n, n ∈ hr_nodes hr ∧ k ∈ points replicas n;
  ro_ring : ∀ k n, n ∈ hr_nodes hr → k ∈ points replicas n → hr_ring hr !! k = Some n
}.

Lemma elem_of_points replicas k n : k ∈ points replicas n ↔ ∃ i, (i < Z.to_nat replicas)%nat ∧ k = point n i.
Proof.
  unfold points. rewrite list_elem_of_fmap. split.
  - intros (i & -> & Hi%elem_of_seq). exists i. split; [lia|done].
  - intros (i & Hi & ->). exists i. split; [done|]. apply elem_of_seq. lia.
Qed.

Lemma points_owner replicas names k n m :
  no_collisions replicas names → n ∈ names → m ∈ names → k ∈ points replicas n → k ∈ points replicas m → n = m.
Proof.
  intros Hc Hn Hm (i & Hi & ->)%elem_of_points (j & Hj & E)%elem_of_points. by destruct (Hc n m i j Hn Hm Hi Hj E).
Qed.

Lemma NoDup_points replicas names n : no_collisions replicas names → n ∈ names → NoDup (points replicas n).
Proof.
  intros Hc Hn. unfold points. apply NoDup_fmap_2_strong; [|apply NoDup_seq].
  intros i j Hi%elem_of_seq Hj%elem_of_seq E. by destruct (Hc n n i j Hn Hn ltac:(lia) ltac:(lia) E).
Qed.

Lemma add_points node ks hr :
  let hr' := foldl (add_point node) hr ks in
  hr_sortedKeys hr' = hr_sortedKeys hr ++ ks ∧ hr_nodes hr' = hr_nodes hr ∧ hr_replicas hr' = hr_replicas hr ∧
  ∀ k, hr_ring hr' !! k = if decide (k ∈ ks) then Some node else hr_ring hr !! k.
Proof.
  cbv zeta. revert hr. induction ks as [|x ks IH]; intros hr; cbn [foldl].
  - by rewrite app_nil_r.
  - destruct (IH (add_point node hr x)) as (-> & -> & -> & H). cbn. split; [by rewrite <-app_assoc|].
    split_and!; try done. intros k. rewrite H. destruct (decide (k ∈ ks)) as [Hk|Hk].
    + by rewrite decide_True by (by right).
    + cbn. destruct (decide (k = x)) as [->|Hne].
      * rewrite lookup_insert_eq, decide_True by (by left). done.
      * rewrite lookup_insert_ne, decide_False by (rewrite ?elem_of_cons; naive_solver). done.
Qed.

Lemma sort_keys l : StronglySorted Z.le (sort_slice Z.ltb l).
Proof.
  assert (Sorted (not_after Z.ltb) (sort_slice Z.ltb l)) as Hs by (apply sort_slice_sorted; intros x y; lia).
  apply Sorted_StronglySorted in Hs; [|intros x y z; unfold not_after; lia].
  induction Hs as [|x k Hk IH Hx]; constructor; [done|]. eapply Forall_impl; [exact Hx|]. unfold not_after. cbn. lia.
Qed.

Lemma Add_ok replicas names sh node hr :
  no_collisions replicas names → node ∈ names → ring_ok replicas names hr → ring_ok replicas names (Add sh node hr).
Proof.
  intros Hc Hn [Hr Hnm Hs Hnd Hk Hg]. unfold Add. case_bool_decide as Hin; [by constructor|]. cbv zeta.
  set (hr1 := MkRing (hr_ring hr) _ _ _). change (hr_replicas hr1) with (hr_replicas hr). rewrite Hr.
  destruct (add_points node (points replicas node) hr1) as (E1 & E2 & E3 & E4).
  set (hr2 := foldl _ _ _) in *. clearbody hr2. cbn in E1, E2, E3.
  assert (∀ k, k ∈ hr_sortedKeys hr → k ∉ points replicas node) as Hdis.
  { intros k (m & Hm & Hkm)%Hk Hkn. apply Hin. rewrite <-(points_owner replicas names k m node); auto. }
  constructor; cbn [hr_ring hr_sortedKeys hr_nodes hr_replicas].
  - by rewrite E3.
  - rewrite E2. set_solver.
  - apply sort_keys.
  - rewrite sort_slice_perm, shuffle_perm, E1. apply NoDup_app. split_and!; [done|done|by apply (NoDup_points _ names)].
  - intros k. rewrite sort_slice_perm, shuffle_perm, E1, E2, elem_of_app, Hk. set_solver.
  - intros k n. rewrite E2, E4, elem_of_union, elem_of_singleton. intros Hnn Hkn. case_decide as Hd.
    + f_equal. apply (points_owner replicas names k); auto. destruct Hnn as [->|?]; auto.
    + destruct Hnn as [->|Hnn]; [done|]. by apply Hg.
Qed.

Lemma delete_first_spec key keys :
  NoDup keys → StronglySorted Z.le keys →
  NoDup (delete_first key keys) ∧ StronglySorted Z.le (delete_first key keys) ∧
  ∀ k, k ∈ delete_first key keys ↔ k ∈ keys ∧ k ≠ key.
Proof.
  induction keys as [|x keys IH]; intros Hnd Hs; cbn [delete_first].
  { split_and!; try done. intros k. split; [by intros ?%not_elem_of_nil|]. by intros [?%not_elem_of_nil _]. }
  apply NoDup_cons in Hnd as [Hx Hnd]. apply StronglySorted_inv in Hs as [Hs Hle].
  destruct (IH Hnd Hs) as (H1 & H2 & H3). destruct (Z.eqb_spec x key) as [->|Hne].
  - split_and!; try done. intros k. rewrite elem_of_cons. split; [|naive_solver]. intros Hk. split; [by right|congruence].
  - split; [|split].
    + apply NoDup_cons. split; [|done]. by intros [? _]%H3.
    + constructor; [done|]. rewrite Forall_forall in *. by intros y [Hy _]%H3; apply Hle.
    + intros k. rewrite !elem_of_cons, H3. naive_solver.
Qed.

Lemma remove_points ks hr :
  NoDup (hr_sortedKeys hr) → StronglySorted Z.le (hr_sortedKeys hr) →
  let hr' := foldl remove_point hr ks in
  NoDup (hr_sortedKeys hr') ∧ StronglySorted Z.le (hr_sortedKeys hr') ∧ hr_nodes hr' = hr_nodes hr ∧ hr_replicas hr' = hr_replicas hr ∧
  (∀ k, k ∈ hr_sortedKeys hr' ↔ k ∈ hr_sortedKeys hr ∧ k ∉ ks) ∧
  ∀ k, k ∉ ks → hr_ring hr' !! k = hr_ring hr !! k.
Proof.
  cbv zeta. revert hr. induction ks as [|x ks IH]; intros hr Hnd Hs; cbn [foldl].
  { split_and!; try done. intros k. split; [|by intros [? _]]. intros ?. split; [done|apply not_elem_of_nil]. }
  destruct (delete_first_spec x _ Hnd Hs) as (H1 & H2 & H3).
  destruct (IH (remove_point hr x) H1 H2) as (I1 & I2 & I3 & I4 & I5 & I6). split_and!; try done.
  - intros k. rewrite I5. cbn. rewrite H3, elem_of_cons. tauto.
  - intros k Hk. rewrite elem_of_cons in Hk. rewrite I6 by tauto. cbn. apply lookup_delete_ne. naive_solver.
Qed.

Lemma Remove_ok replicas names node hr :
  no_collisions replicas names → ring_ok replicas names hr → ring_ok replicas names (Remove node hr).
Proof.
  intros Hc [Hr Hnm Hs Hnd Hk Hg]. unfold Remove. case_bool_decide as Hin; [|by constructor]. cbv zeta.
  set (hr1 := MkRing (hr_ring hr) _ _ _). change (hr_replicas hr1) with (hr_replicas hr). rewrite Hr.
  destruct (remove_points (points replicas node) hr1 Hnd Hs) as (E1 & E2 & E3 & E4 & E5 & E6).
  set (hr2 := foldl _ _ _) in *. clearbody hr2. cbn in E3, E4, E5, E6.
  assert (∀ k n, n ∈ hr_nodes hr → n ≠ node → k ∈ points replicas n → k ∉ points replicas node) as Hdis.
  { intros k n Hn Hne Hkn Hkm. apply Hne. apply (points_owner replicas names k); auto. }
  constructor; auto.
  - by rewrite E4.
  - rewrite E3. set_solver.
  - intros k. rewrite E5, Hk, E3. split.
    + intros [(n & Hn & Hkn) Hno]. exists n. split; [|done]. apply elem_of_difference. split; [done|].
      intros ->%elem_of_singleton. done.
    + intros (n & [Hn Hne]%elem_of_difference & Hkn). rewrite elem_of_singleton in Hne. split; [eauto|]. by eapply Hdis.
  - intros k n. rewrite E3. intros [Hn Hne]%elem_of_difference Hkn. rewrite elem_of_singleton in Hne.
    rewrite E6; [by apply Hg|]. by eapply Hdis.
Qed.

Lemma reachable_ring_ok replicas names ops :
  0 < replicas → no_collisions replicas names → Forall (λ o, node_of o ∈ names) ops →
  ring_ok replicas names (foldl ring_step (New replicas) ops).
Proof.
  intros Hpos Hc Hops. assert (ring_ok replicas names (New replicas)) as H0.
  { constructor; cbn; [destruct (Z.leb_spec replicas 0); lia|set_solver|constructor|constructor| |set_solver].
    intros k. split; [by intros ?%not_elem_of_nil|]. intros (n & Hn & _). set_solver. }
  revert H0. generalize (New replicas). induction ops as [|o ops IH]; intros hr Hhr; [done|].
  apply Forall_cons in Hops as [Ho Hops]. apply (IH Hops).
  destruct o; cbn [ring_step]; [by apply Add_ok|by apply Remove_ok].
Qed.

Lemma Get_spec replicas names hr key :
  0 < replicas → ring_ok replicas names hr → hr_nodes hr ≠ ∅ →
  ∃ n k, Get key hr = n ∧ n ∈ hr_nodes hr ∧ k ∈ points replicas n ∧ is_successor (hr_sortedKeys hr) (hash key) k.
Proof.
  intros Hpos Hok Hne. apply set_choose_L in Hne as [n0 Hn0].
  assert (hr_sortedKeys hr ≠ []) as Hkeys.
  { intros E. assert (point n0 0 ∈ hr_sortedKeys hr) as Hin.
    - apply (ro_keys _ _ _ Hok). exists n0. split; [done|]. apply elem_of_points. exists 0%nat. split; [lia|done].
    - rewrite E in Hin. by apply not_elem_of_nil in Hin. }
  destruct (ring_index_spec (hr_sortedKeys hr) (hash key) (ro_sorted _ _ _ Hok) Hkeys) as (k & Hk & Hs).
  assert (k ∈ hr_sortedKeys hr) as (n & Hn & Hkn)%(ro_keys _ _ _ Hok) by (by eapply list_elem_of_lookup_2).
  exists n, k. unfold Get. rewrite Hk, (ro_ring _ _ _ Hok k n Hn Hkn). done.
Qed.

(** The nodes that were added and not removed since, and all of their points. *)
Definition present (ops : list ring_op) : gset string :=
  foldl (λ nodes o, match o with RAdd _ n => {[n]} ∪ nodes | RRemove n => nodes ∖ {[n]} end) ∅ ops.
Definition all_points (replicas : Z) (nodes : gset string) : list Z := elements nodes ≫= points replicas.

(** The points per node that a ring is asked for: 150 when the number makes no sense. *)
Definition points_per_node (replicas : Z) : Z := if replicas <=? 0 then 150 else replicas.

Lemma elem_of_all_points replicas nodes k :
  k ∈ all_points replicas nodes ↔ ∃ n, n ∈ nodes ∧ k ∈ points replicas n.
Proof. unfold all_points. rewrite list_elem_of_bind. setoid_rewrite elem_of_elements. naive_solver. Qed.

Lemma Add_nodes sh node hr : hr_nodes (Add sh node hr) = {[node]} ∪ hr_nodes hr.
Proof.
  unfold Add. case_bool_decide as Hin; [set_solver|]. cbn [hr_nodes hr_replicas].
  set (hr1 := MkRing _ _ _ _). change ({[node]} ∪ hr_nodes hr) with (hr_nodes hr1).
  generalize (points (hr_replicas hr) node) as ks, hr1. clear. intros ks.
  induction ks as [|k ks IH]; intros hr; [done|]. cbn [foldl]. by rewrite IH.
Qed.

Lemma Remove_nodes node hr : hr_nodes (Remove node hr) = hr_nodes hr ∖ {[node]}.
Proof.
  unfold Remove. case_bool_decide as Hin; [|set_solver]. cbn [hr_replicas].
  set (hr1 := MkRing _ _ _ _). change (hr_nodes hr ∖ {[node]}) with (hr_nodes hr1).
  generalize (points (hr_replicas hr) node) as ks, hr1. clear. intros ks.
  induction ks as [|k ks IH]; intros hr; [done|]. cbn [foldl]. by rewrite IH.
Qed.

Lemma ring_nodes replicas ops : hr_nodes (foldl ring_step (New replicas) ops) = present ops.
Proof.
  induction ops as [|o ops IH] using rev_ind; [done|]. unfold present. rewrite !foldl_app. cbn [foldl].
  fold (present ops). rewrite <- IH. destruct o; cbn [ring_step]; [apply Add_nodes|apply Remove_nodes].
Qed.

(** The owner of a key, in terms of the points of the nodes. *)
Lemma Get_owner replicas names hr key :
  0 < replicas → ring_ok replicas names hr → hr_nodes hr ≠ ∅ →
  ∃ k, Get key hr ∈ hr_nodes hr ∧ k ∈ points replicas (Get key hr) ∧
    is_successor (all_points replicas (hr_nodes hr)) (hash key) k.
Proof.
  intros Hpos Hok Hne. destruct (Get_spec replicas names hr key Hpos Hok Hne) as (n & k & -> & Hn & Hk & Hs).
  exists k. split_and!; [done|done|]. apply (is_successor_subset (hr_sortedKeys hr)); [|apply elem_of_all_points; eauto|done].
  intros j Hj%elem_of_all_points. by apply (ro_keys _ _ _ Hok).
Qed.

Lemma Remove_keeps replicas names hr key gone :
  0 < replicas → no_collisions replicas names → ring_ok replicas names hr → hr_nodes hr ≠ ∅ →
  Get key hr ≠ gone → Get key (Remove gone hr) = Get key hr.
Proof.
  intros Hpos Hc Hok Hne Hgone. pose proof (Remove_ok replicas names gone hr Hc Hok) as Hok'.
  pose proof (Remove_nodes gone hr) as En.
  destruct (Get_owner replicas names hr key Hpos Hok Hne) as (k & Hn & Hk & Hs).
  assert (Get key hr ∈ hr_nodes (Remove gone hr)) as Hn' by (rewrite En; set_solver).
  destruct (Get_owner replicas names (Remove gone hr) key Hpos Hok') as (j & Hm & Hj & Hs'); [set_solver|].
  assert (is_successor (all_points replicas (hr_nodes (Remove gone hr))) (hash key) k) as Hs2.
  { apply (is_successor_subset (all_points replicas (hr_nodes hr))); [|apply elem_of_all_points; eauto|done].
    intros x (y & Hy & Hxy)%elem_of_all_points. apply elem_of_all_points. exists y. set_solver. }
  rewrite (is_successor_unique _ _ _ _ Hs' Hs2) in Hj.
  apply (points_owner replicas names k); [done|by apply (ro_names _ _ _ Hok')|by apply (ro_names _ _ _ Hok)|done|done].
Qed.

Lemma New_points replicas : New replicas = New (points_per_node replicas).
Proof. unfold New, points_per_node. destruct (Z.leb_spec replicas 0); [done|]. by destruct (Z.leb_spec replicas 0); [lia|]. Qed.

(** C24: The ring is consistent.  Let a ring be made for some number of points per node (150 when it is not
    positive), and let no two of the points of the nodes in use collide.  After any additions and removals,
    its nodes are those that were added and not removed since; a key belongs to the one of them that has,
    among all the points of all of them, the first from the hash of the key on, going round; it belongs to
    none when there are none; and removing a node leaves every key that it did not have where it was. *)
Theorem ring_consistent replicas names ops key gone :
  let r := points_per_node replicas in
  no_collisions r names → Forall (λ o, node_of o ∈ names) ops →
  let hr := foldl ring_step (New replicas) ops in
  hr_nodes hr = present ops ∧
  (present ops ≠ ∅ → ∃ k, Get key hr ∈ present ops ∧ k ∈ points r (Get key hr) ∧
     is_successor (all_points r (present ops)) (hash key) k) ∧
  (present ops = ∅ → Get key hr = "") ∧
  (Get key hr ≠ gone → Get key (Remove gone hr) = Get key hr).
Proof.
  intros r Hc Hops hr. assert (0 < r) as Hpos by (unfold r, points_per_node; destruct (Z.leb_spec replicas 0); lia).
  assert (ring_ok r names hr) as Hok by (unfold hr; rewrite New_points; by apply reachable_ring_ok).
  pose proof (ring_nodes replicas ops) as En. fold hr in En. rewrite <- En. split; [done|].
  split; [intros Hne; by apply (Get_owner r names)|]. split.
  - intros E. unfold Get. destruct (hr_sortedKeys hr !! _) as [k|] eqn:Ek; [|done].
    apply list_elem_of_lookup_2, (ro_keys _ _ _ Hok) in Ek as (n & Hn & _). set_solver.
  - destruct (decide (hr_nodes hr = ∅)) as [E|Hne]; [|by apply (Remove_keeps r names)].
    intros _. unfold Remove. case_bool_decide as Hin; [|done]. set_solver.
Qed.

Definition ex_names : gset string := {["a"; "b"; "c"]}.
Definition ex_ops : list ring_op := [RAdd shuffle_id "a"; RAdd shuffle_rev "b"; RAdd shuffle_id "c"; RRemove "c"].

Lemma ex_no_collisions : no_collisions 2 ex_names.
Proof.
  assert (∀ n, n ∈ ex_names → n ∈ ["a"; "b"; "c"]) as Hn by (intros n; unfold ex_names; set_solver).
  assert (NoDup ((λ ni, point ni.1 ni.2) <$> (n ← ["a"; "b"; "c"]; i ← [0; 1]%nat; [(n, i)]))) as Hnd by decide_closed.
  intros n m i j Hin%Hn Him%Hn Hi Hj E.
  assert (∀ x k, x ∈ ["a"; "b"; "c"] → (k < 2)%nat → (x, k) ∈ (n ← ["a"; "b"; "c"]; i ← [0; 1]%nat; [(n, i)])) as Hel.
  { intros x k Hx Hk. apply list_elem_of_bind. exists x. split; [|done]. apply list_elem_of_bind. exists k.
    split; [by left|]. destruct k as [|[|k]]; [by left|by right; left|lia]. }
  pose proof (NoDup_fmap_elem_inj _ _ (n, i) (m, j) Hnd (Hel _ _ Hin Hi) (Hel _ _ Him Hj) E) as [= -> ->]. done.
Qed.

Lemma ring_consistent_witness :
  let hr := foldl ring_step (New 2) ex_ops in
  Get "key" hr = "b" ∧ Get "key" (Remove "a" hr) = "b".
Proof.
  cbv zeta. assert (Get "key" (foldl ring_step (New 2) ex_ops) = "b") as E by (vm_compute; reflexivity).
  split; [exact E|]. etrans; [|exact E].
  refine (proj2 (proj2 (proj2 (ring_consistent 2 ex_names ex_ops "key" "a" ex_no_collisions _))) _).
  - repeat constructor; cbn; unfold ex_names; set_solver.
  - rewrite E. discriminate.
Defined.

(** Two names whose checksums agree share all of their points: the second node takes over those of the
    first, and when it leaves, no key finds the first one any more.  The distribution of keys over an empty
    ring panics. *)
Theorem ring_loses_node :
  let hr := Remove "node-pz8lbs" (Add shuffle_id "node-pz8lbs" (Add shuffle_id "node-l5dmvs" (New 3))) in
  hr_nodes hr = {["node-l5dmvs"]} ∧ (∀ key, Get key hr = "") ∧ Distribution ["k"] ∅ (New 3) = Panics.
Proof.
  cbv zeta. split; [apply (bool_decide_unpack _); vm_compute; exact I|]. split; [|vm_compute; reflexivity].
  intros key. unfold Get. destruct (hr_sortedKeys _ !! _) as [k|]; [|done].
  assert (hr_ring (Remove "node-pz8lbs" (Add shuffle_id "node-pz8lbs" (Add shuffle_id "node-l5dmvs" (New 3)))) = ∅) as ->
    by (apply (bool_decide_unpack _); vm_compute; exact I).
  by rewrite lookup_empty.
Qed.
