(* ===== verification/BloomFilter.v ===== *)
(** The Bloom filter of [internal/bloomfilter/bloomfilter.go], and when it says that it contains something. *)
From S2P Require Import Prelude Float64 Sha256.
Local Open Scope Z_scope.

(** The slice of hash states that [New] fills is never used. *)
Record BloomFilter := MkBloom {
  bf_bits : list bool;
  bf_size : Z;
  bf_k : Z;
  bf_count : Z
}.

Definition New (size numHashes : Z) : BloomFilter :=
  let size := if size =? 0 then 1024 else size in
  let numHashes := if numHashes <=? 0 then 3 else numHashes in
  MkBloom (replicate (Z.to_nat size) false) size numHashes 0.

(** Data are lists of bytes; the seed is written as one more byte. *)
Definition hash (data : list Z) (seed : Z) (bf : BloomFilter) : Z :=
  fnv64a_write (fnv64a_write fnv_offset64 data) [wrap_u 8 seed] mod bf_size bf.

Definition seeds (bf : BloomFilter) : list Z := Z.of_nat <$> seq 0 (Z.to_nat (bf_k bf)).

Definition set_bit (data : list Z) (bf : BloomFilter) (i : Z) : BloomFilter :=
  MkBloom (<[Z.to_nat (hash data i bf) := true]> (bf_bits bf)) (bf_size bf) (bf_k bf) (bf_count bf).

Definition Add (data : list Z) (bf : BloomFilter) : BloomFilter :=
  foldl (set_bit data) (MkBloom (bf_bits bf) (bf_size bf) (bf_k bf) (wrap_u 64 (bf_count bf + 1))) (seeds bf).

Definition get_bit (data : list Z) (bf : BloomFilter) (i : Z) : bool :=
  default false (bf_bits bf !! Z.to_nat (hash data i bf)).

(** The loop returns at the first bit that is not set. *)
Definition Contains (data : list Z) (bf : BloomFilter) : bool := forallb (get_bit data bf) (seeds bf).

Definition Added (bf : BloomFilter) : Z := bf_count bf.
Definition Count (bf : BloomFilter) : Z := bf_count bf.
Definition Size (bf : BloomFilter) : Z := bf_size bf.

Definition pow (base exp : float64) : float64 :=
  Nat.iter (Z.to_nat (int64_of_f64 exp)) (λ result, f64_mul result base) (f64_of_Z 1).

Definition FalsePositiveRate (bf : BloomFilter) : float64 :=
  let set := f64_of_Z (bf_count bf) in
  let one := f64_of_Z 1 in
  pow (f64_sub one (pow (f64_sub one (f64_div one (f64_of_Z (bf_size bf)))) set)) (f64_of_Z (bf_k bf)).

Definition FillRatio (bf : BloomFilter) : float64 := f64_div (f64_of_Z (bf_count bf)) (f64_of_Z (bf_size bf)).

Definition Reset (bf : BloomFilter) : BloomFilter :=
  MkBloom (replicate (Z.to_nat (bf_size bf)) false) (bf_size bf) (bf_k bf) 0.

(** * Facts *)

Inductive bloom_op :=
  | BAdd (data : list Z)
  | BReset.

Definition bloom_step (bf : BloomFilter) (o : bloom_op) : BloomFilter :=
  match o with
  | BAdd data => Add data bf
  | BReset => Reset bf
  end.

(** The data that were added since the last reset. *)
Definition present_step (l : list (list Z)) (o : bloom_op) : list (list Z) :=
  match o with
  | BAdd data => data :: l
  | BReset => []
  end.

Record bloom_ok (size k : Z) (l : list (list Z)) (bf : BloomFilter) : Prop := {
  bo_size : bf_size bf = size;
  bo_k : bf_k bf = k;
  bo_length : length (bf_bits bf) = Z.to_nat size;
  bo_bits : ∀ p, (p < Z.to_nat size)%nat →
    bf_bits bf !! p = Some true ↔ ∃ data i, data ∈ l ∧ i ∈ seeds bf ∧ p = Z.to_nat (hash data i bf)
}.

Lemma hash_range data i bf : 0 < bf_size bf → (Z.to_nat (hash data i bf) < Z.to_nat (bf_size bf))%nat.
Proof.
  intros H. unfold hash. pose proof (Z.mod_pos_bound (fnv64a_write (fnv64a_write fnv_offset64 data) [wrap_u 8 i]) (bf_size bf) H). lia.
Qed.

Lemma set_bits data ks bf :
  0 < bf_size bf → length (bf_bits bf) = Z.to_nat (bf_size bf) →
  let bf' := foldl (set_bit data) bf ks in
  bf_size bf' = bf_size bf ∧ bf_k bf' = bf_k bf ∧ bf_count bf' = bf_count bf ∧ length (bf_bits bf') = length (bf_bits bf) ∧
  ∀ p, bf_bits bf' !! p = Some true ↔ bf_bits bf !! p = Some true ∨ ∃ i, i ∈ ks ∧ p = Z.to_nat (hash data i bf).
Proof.
  intros Hpos. cbv zeta. revert bf Hpos. induction ks as [|i ks IH]; intros bf Hpos Hlen; cbn [foldl].
  { split_and!; try done. intros p. split; [by left|]. intros [?|(i & Hi & _)]; [done|]. by apply not_elem_of_nil in Hi. }
  destruct (IH (set_bit data bf i)) as (H1 & H2 & H3 & H4 & H5); [done|cbn; by rewrite length_insert|].
  rewrite H4. cbn in *. rewrite length_insert. split_and!; try done. intros p. rewrite H5.
  change (∃ j, j ∈ ks ∧ p = Z.to_nat (hash data j (set_bit data bf i))) with (∃ j, j ∈ ks ∧ p = Z.to_nat (hash data j bf)).
  destruct (decide (p = Z.to_nat (hash data i bf))) as [->|Hne].
  - rewrite list_lookup_insert_eq by (rewrite Hlen; by apply hash_range). split; [intros _|by left].
    right. exists i. split; [by left|done].
  - rewrite list_lookup_insert_ne by done. setoid_rewrite elem_of_cons. naive_solver.
Qed.

Lemma Add_sound size k l data bf : 0 < size → bloom_ok size k l bf → bloom_ok size k (data :: l) (Add data bf).
Proof.
  intros Hpos [Hs Hk Hlen Hb]. unfold Add.
  destruct (set_bits data (seeds bf) (MkBloom (bf_bits bf) (bf_size bf) (bf_k bf) (wrap_u 64 (bf_count bf + 1)))) as (H1 & H2 & _ & H4 & H5);
    [cbn; by rewrite Hs|cbn; by rewrite Hlen, Hs|].
  set (bf' := foldl _ _ _) in *. clearbody bf'. cbn in H1, H2, H4, H5.
  constructor; [by rewrite H1|by rewrite H2|by rewrite H4|]. intros p Hp. rewrite H5, (Hb p Hp).
  unfold seeds, hash in *. cbn. rewrite H1, H2. setoid_rewrite elem_of_cons. split.
  - intros [(d & i & Hd & Hi & E)|(i & Hi & E)]; [exists d, i|exists data, i]; auto.
  - intros (d & i & [->|Hd] & Hi & E); [right; exists i|left; exists d, i]; auto.
Qed.

Lemma empty_ok size k bf :
  bf_size bf = size → bf_k bf = k → bf_bits bf = replicate (Z.to_nat size) false → bloom_ok size k [] bf.
Proof.
  intros Hs Hk Hb. constructor; [done|done|by rewrite Hb, length_replicate|]. intros p Hp. rewrite Hb, lookup_replicate_2 by done.
  split; [done|]. intros (d & i & Hd & _). by apply not_elem_of_nil in Hd.
Qed.

(** The filter is exact about its bits.  After any additions and resets, something is said to be
    contained exactly when each of its positions is a position of something that was added since the last
    reset; so what was added is always contained, and nothing is after a reset. *)
Theorem bloom_exact size numHashes ops data :
  0 <= size →
  let bf := foldl bloom_step (New size numHashes) ops in
  let present := foldl present_step [] ops in
  (Contains data bf = true ↔
   ∀ i, i ∈ seeds bf → ∃ other j, other ∈ present ∧ j ∈ seeds bf ∧ hash data i bf = hash other j bf) ∧
  (data ∈ present → Contains data bf = true) ∧
  (present = [] → Contains data bf = false).
Proof.
  intros Hsize. cbv zeta. set (n := if size =? 0 then 1024 else size). set (k := if numHashes <=? 0 then 3 else numHashes).
  assert (0 < n) as Hn by (subst n; destruct (Z.eqb_spec size 0); lia).
  assert (0 < k) as Hkp by (subst k; destruct (Z.leb_spec numHashes 0); lia).
  assert (bloom_ok n k (foldl present_step [] ops) (foldl bloom_step (New size numHashes) ops)) as Hok.
  { assert (bloom_ok n k [] (New size numHashes)) as H0 by by apply empty_ok.
    revert H0. generalize (New size numHashes) as bf. generalize (@nil (list Z)) as l.
    induction ops as [|[d|] ops IH]; intros l bf H0; cbn [foldl bloom_step present_step]; [done|apply IH; by apply Add_sound|].
    apply IH. destruct H0. by apply empty_ok; cbn; congruence. }
  set (bf := foldl bloom_step _ _) in *. set (l := foldl present_step _ _) in *. clearbody bf l. destruct Hok as [Hs Hk Hlen Hb].
  assert (∀ i, get_bit data bf i = true ↔ ∃ other j, other ∈ l ∧ j ∈ seeds bf ∧ hash data i bf = hash other j bf) as Hg.
  { intros i. unfold get_bit. pose proof (hash_range data i bf ltac:(lia)) as Hr. rewrite Hs in Hr.
    assert (default false (bf_bits bf !! Z.to_nat (hash data i bf)) = true ↔ bf_bits bf !! Z.to_nat (hash data i bf) = Some true) as ->.
    { destruct (bf_bits bf !! _) as [[|]|]; cbn; naive_solver. }
    rewrite (Hb _ Hr). assert (∀ d j, 0 <= hash d j bf) as Hnn.
    { intros d j. unfold hash. apply Z.mod_pos_bound. lia. }
    split; intros (d & j & Hd & Hj & E); exists d, j; split_and!; try done; [|by rewrite E].
    pose proof (Hnn data i). pose proof (Hnn d j). lia. }
  assert (Contains data bf = true ↔ ∀ i, i ∈ seeds bf → ∃ other j, other ∈ l ∧ j ∈ seeds bf ∧ hash data i bf = hash other j bf) as HC.
  { unfold Contains. rewrite forallb_elem. split; intros H i Hi; apply Hg; auto. }
  split; [exact HC|]. split.
  - intros Hin. apply HC. intros i Hi. by exists data, i.
  - intros ->. apply not_true_is_false. intros H. rewrite HC in H.
    destruct (H 0) as (d & j & Hd & _); [|by apply not_elem_of_nil in Hd].
    unfold seeds. apply list_elem_of_fmap. exists 0%nat. split; [done|]. apply elem_of_seq. lia.
Qed.

Lemma bloom_exact_witness :
  Contains [104; 105] (foldl bloom_step (New 16 2) [BAdd [1]; BReset; BAdd [104; 105]; BAdd [7]]) = true.
Proof.
  refine (proj1 (proj2 (bloom_exact 16 2 [BAdd [1]; BReset; BAdd [104; 105]; BAdd [7]] [104; 105] _)) _).
  - lia.
  - cbn. by right; left.
Defined.

(** The seed is one byte: the positions of a filter with more than 256 hashes repeat. *)
Theorem seeds_repeat data i bf : hash data (i + 256) bf = hash data i bf.
Proof.
  unfold hash. assert (wrap_u 8 (i + 256) = wrap_u 8 i) as ->; [|done].
  unfold wrap_u. change 256 with (1 * 2 ^ 8) at 1. by rewrite Z.mod_add by lia.
Qed.
