(* ===== verification/DeltaBinary.v ===== *)
(** The binary form of patches: [internal/deltadiff/binary.go].

    Bytes are integers of [0, 256).  A value is [nil] where it is [JNull]; the text of an error of
    [encoding/json] is not kept. *)
From stdpp Require Import pretty.
From S2P Require Import Prelude Errors Runes Strings Float64 MmapRing MmapRingFacts Json DeltaDiff JsonText.
Local Open Scope Z_scope.

Abbreviation SCorruptBinaryPatch := (SOther "deltadiff: corrupt or truncated binary patch data").
Abbreviation SUnsupportedVersion := (SOther "deltadiff: unsupported binary patch version").

Definition BinaryMagicHeader : bytes := byteZ <$> ["T"; "P"; "T"; "H"]%char.
Definition BinaryVersion : Z := 1.

Definition bytes_of (s : string) : bytes := byteZ <$> String.list_ascii_of_string s.
Definition string_of (bs : bytes) : string := String.string_of_list_ascii (ascii_of_Z <$> bs).

Definition opTypeToByte (op : OpType) : Z :=
  match op with
  | OpAdd => 0 | OpRemove => 1 | OpReplace => 2 | OpMove => 3 | OpCopy => 4 | OpTest => 5
  | OpOther _ => 255
  end.

Definition byteToOpType (b : Z) : OpType :=
  if b =? 0 then OpAdd else if b =? 1 then OpRemove else if b =? 2 then OpReplace
  else if b =? 3 then OpMove else if b =? 4 then OpCopy else if b =? 5 then OpTest
  else OpOther "unknown".

(** * Encoding *)

(** [binary.Write] of the length of some bytes, as an integer of [n] bytes; the bytes follow. *)
Definition write_framed (n : nat) (bs : bytes) : bytes := be_bytes n (wrap_u (8 * Z.of_nat n) (Z.of_nat (length bs))) ++ bs.

Definition marshal_value (v : json) : option bytes :=
  match v with
  | JNull => Some []
  | _ => bytes_of <$> Marshal v
  end.

Definition encode_op (op : PatchOperation) : result error bytes :=
  match marshal_value (op_Value op) with
  | Some valBytes =>
      Ok ([opTypeToByte (op_Op op)] ++ write_framed 2 (bytes_of (op_Path op)) ++
          write_framed 2 (bytes_of (op_From op)) ++ write_framed 4 valBytes)
  | None => Err (EFmt "failed to marshal op value: %w" [])
  end.

Fixpoint encode_ops (buf : bytes) (patch : Patch) : result error bytes :=
  match patch with
  | [] => Ok buf
  | op :: patch' =>
      match encode_op op with
      | Ok bs => encode_ops (buf ++ bs) patch'
      | Err e => Err e
      end
  end.

Definition EncodeBinary (patch : Patch) : result error bytes :=
  encode_ops (BinaryMagicHeader ++ [BinaryVersion] ++ be_bytes 4 (wrap_u 32 (Z.of_nat (length patch)))) patch.

(** * Decoding *)

(** [binary.Read] of an integer of [n] bytes: all of them must be there. *)
Definition read_uint (n : nat) (r : bytes) : option (Z * bytes) :=
  if bool_decide (length r < n)%nat then None else Some (be_value (take n r), drop n r).

(** [reader.Read] into a new slice of [n] bytes: an error at the end of the data only; a slice that
    is not filled keeps its zeros. *)
Definition Read (n : nat) (r : bytes) : option (bytes * bytes) :=
  match r with
  | [] => None
  | _ => Some (take n r ++ replicate (n - length r) 0, drop n r)
  end.

(** [Read] of a slice that is not empty. *)
Definition Read_some (n : nat) (r : bytes) : option (bytes * bytes) :=
  if bool_decide (n = 0%nat) then Some ([], r) else Read n r.

Definition unmarshal_value (valBytes : bytes) : option json :=
  if bool_decide (valBytes = []) then Some JNull else Unmarshal (string_of valBytes).

Definition corrupt {A} (o : option A) : result error A :=
  match o with Some a => Ok a | None => Err (ESentinel SCorruptBinaryPatch) end.

Definition decode_op (r : bytes) : result error (PatchOperation * bytes) :=
  '(opCode, r) ← corrupt (match r with [] => None | b :: r => Some (b, r) end);
  '(pathLen, r) ← corrupt (read_uint 2 r);
  '(pathBytes, r) ← corrupt (Read (Z.to_nat pathLen) r);
  '(fromLen, r) ← corrupt (read_uint 2 r);
  '(fromBytes, r) ← corrupt (Read_some (Z.to_nat fromLen) r);
  '(valLen, r) ← corrupt (read_uint 4 r);
  '(valBytes, r) ← corrupt (Read_some (Z.to_nat valLen) r);
  match unmarshal_value valBytes with
  | Some val => Ok (MkOp (byteToOpType opCode) (string_of pathBytes) (string_of fromBytes) val, r)
  | None => Err (EWrap "%w: malformed value json: %v" [] (ESentinel SCorruptBinaryPatch))
  end.

Fixpoint decode_ops (count : nat) (ops : Patch) (r : bytes) : result error Patch :=
  match count with
  | O => Ok ops
  | S count' => '(op, r) ← decode_op r; decode_ops count' (ops ++ [op]) r
  end.

Definition DecodeBinary (data : bytes) : result error Patch :=
  if bool_decide (length data < 9)%nat then Err (ESentinel SCorruptBinaryPatch)
  else if negb (bool_decide (take 4 data = BinaryMagicHeader)) then
    Err (EWrap "%w: invalid magic header" [] (ESentinel SCorruptBinaryPatch))
  else match data !! 4%nat with
       | Some version =>
           if negb (version =? BinaryVersion) then
             Err (EWrap "%w: got %d want %d" [pretty version; pretty BinaryVersion] (ESentinel SUnsupportedVersion))
           else '(count, r) ← corrupt (read_uint 4 (drop 5 data)); decode_ops (Z.to_nat count) [] r
       | None => Err (ESentinel SCorruptBinaryPatch)
       end.

(** * Theorems

    Patches in binary form come back as they were, and data that ends early is refused. *)

(** * A truncated value is not JSON text

    The reader of values does not consume a zero byte. *)

Fixpoint ends_nul (s : string) : bool :=
  match s with
  | EmptyString => false
  | String c EmptyString => byteZ c =? 0
  | String _ s' => ends_nul s'
  end.

Lemma ends_nul_tail c s : ends_nul (String c s) = true → byteZ c ≠ 0 → ends_nul s = true.
Proof. destruct s as [|d s]; [|done]. intros H%Z.eqb_eq. done. Qed.

(** A reader that leaves the zero byte at the end. *)
Definition keeps {A} (read : string → option (A * string)) : Prop :=
  ∀ s a rest, ends_nul s = true → read s = Some (a, rest) → ends_nul rest = true.

Lemma keeps_bind {A B} (read : string → option (A * string)) (more : A → string → option (B * string)) :
  keeps read → (∀ a, keeps (more a)) → keeps (λ s, '(a, s) ← read s; more a s).
Proof.
  intros Hr Hm s b rest Hs E. destruct (read s) as [[a s']|] eqn:Er; [|done].
  apply (Hm a s' b rest); [by apply (Hr s a)|done].
Qed.

Lemma keeps_ret {A} (a : A) : keeps (λ s, Some (a, s)).
Proof. intros s b rest Hs [= _ <-]. done. Qed.

Lemma hex4_nonzero a b c d v : hex4 a b c d = Some v → a ≠ 0 ∧ b ≠ 0 ∧ c ≠ 0 ∧ d ≠ 0.
Proof.
  unfold hex4. intros (a' & Ha & (b' & Hb & (c' & Hc & (d' & Hd & _)%bind_Some)%bind_Some)%bind_Some)%bind_Some.
  repeat split; intros ->; done.
Qed.

Lemma scan_string_keeps : keeps scan_string.
Proof.
  assert (∀ n s raw rest, (String.length s < n)%nat → ends_nul s = true → scan_string s = Some (raw, rest) → ends_nul rest = true) as H;
    [|intros s raw rest; by apply (H (S (String.length s))); lia].
  induction n as [|n IH]; intros s raw rest Hn Hs E; [lia|]. destruct s as [|c s]; [done|].
  cbn [scan_string] in E. cbn [String.length] in Hn.
  destruct (Z.eqb_spec (byteZ c) 34) as [Ec|_]; [simplify_eq; apply (ends_nul_tail c); [done|lia]|].
  destruct (Z.ltb_spec (byteZ c) 32) as [|Hc]; [done|].
  apply ends_nul_tail in Hs; [|lia].
  destruct (Z.eqb_spec (byteZ c) 92) as [_|_].
  - destruct s as [|e s]; [done|]. destruct (Z.eqb_spec (byteZ e) 117) as [Ee|_].
    + destruct s as [|h1 [|h2 [|h3 [|h4 s]]]]; try done.
      destruct (hex4 _ _ _ _) eqn:Eh; [|done]. destruct (scan_string s) as [[raw' rest']|] eqn:Er; [|done].
      injection E as _ <-. apply (IH s raw'); [cbn [String.length] in Hn; lia| |done].
      apply hex4_nonzero in Eh as (? & ? & ? & ?). apply ends_nul_tail in Hs; [|lia].
      by do 4 (apply ends_nul_tail in Hs; [|done]).
    + destruct (simple_escape (byteZ e)) eqn:Es; [|done]. destruct (scan_string s) as [[raw' rest']|] eqn:Er; [|done].
      injection E as _ <-. apply (IH s raw'); [cbn [String.length] in Hn; lia| |done].
      apply (ends_nul_tail e); [done|]. intros E0. by rewrite E0 in Es.
  - destruct (scan_string s) as [[raw' rest']|] eqn:Er; [|done]. injection E as _ <-. apply (IH s raw'); [lia|done|done].
Qed.

Lemma read_string_keeps : keeps read_string.
Proof. apply keeps_bind; [apply scan_string_keeps|]. intros raw. apply keeps_ret. Qed.

Lemma span_digits_keeps s ds rest : ends_nul s = true → span_digits s = (ds, rest) → ends_nul rest = true.
Proof.
  revert ds. induction s as [|c s IH]; intros ds Hs E; [done|]. cbn [span_digits] in E.
  destruct (digit_char c) eqn:Ec; [|by simplify_eq]. destruct (span_digits s) as [ds' rest'] eqn:Er.
  injection E as _ <-. apply (IH ds'); [|done]. apply (ends_nul_tail c); [done|].
  unfold byteZ. intros E0. unfold digit_char in Ec. rewrite andb_true_iff, Nat.leb_le in Ec. lia.
Qed.

Lemma some_digits_keeps : keeps some_digits.
Proof.
  intros s ds rest Hs E. unfold some_digits in E. destruct (span_digits s) as [ds' rest'] eqn:Er.
  case_bool_decide; [done|]. injection E as _ <-. by apply (span_digits_keeps s ds').
Qed.

(** A character that was compared with one that is not zero. *)
Ltac past_char c s Hs := apply (ends_nul_tail c s) in Hs; [|lia].

Lemma read_int_keeps : keeps read_int.
Proof.
  intros [|c s] i rest Hs E; [done|]. cbn [read_int] in E.
  destruct (Z.eqb_spec (byteZ c) 48); [|by apply (some_digits_keeps _ i) in E].
  past_char c s Hs. by simplify_eq.
Qed.

Lemma read_frac_keeps : keeps read_frac.
Proof.
  intros [|c s] f rest Hs E; [done|]. cbn [read_frac] in E.
  destruct (Z.eqb_spec (byteZ c) 46); [|by simplify_eq]. past_char c s Hs.
  revert Hs E. apply (keeps_bind some_digits); [apply some_digits_keeps|intros ds; apply keeps_ret].
Qed.

Lemma read_exp_keeps : keeps read_exp.
Proof.
  intros [|c s] x rest Hs E; [done|]. cbn [read_exp] in E.
  destruct ((byteZ c =? 101) || (byteZ c =? 69)) eqn:Ec; [|by simplify_eq].
  rewrite orb_true_iff, !Z.eqb_eq in Ec. past_char c s Hs. destruct s as [|d s]; [done|].
  destruct ((byteZ d =? 43) || (byteZ d =? 45)) eqn:Ed.
  - rewrite orb_true_iff, !Z.eqb_eq in Ed. past_char d s Hs.
    revert Hs E. apply (keeps_bind some_digits); [apply some_digits_keeps|intros ds; apply keeps_ret].
  - revert Hs E. apply (keeps_bind some_digits); [apply some_digits_keeps|intros ds; apply keeps_ret].
Qed.

Lemma read_number_keeps : keeps read_number.
Proof.
  assert (∀ sign, keeps (λ s, '(int, s) ← read_int s; '(frac, s) ← read_frac s; '(exp, s) ← read_exp s;
    Some (sign +:+ int +:+ frac +:+ exp, s))) as H.
  { intros sign. apply keeps_bind; [apply read_int_keeps|]. intros int. apply keeps_bind; [apply read_frac_keeps|].
    intros frac. apply keeps_bind; [apply read_exp_keeps|]. intros exp. apply keeps_ret. }
  intros [|c s] n rest Hs E; [done|]. unfold read_number in E.
  destruct (Z.eqb_spec (byteZ c) 45); [past_char c s Hs|]; by apply H in E.
Qed.

Lemma skip_ws_keeps s : ends_nul s = true → ends_nul (skip_ws s) = true.
Proof.
  induction s as [|c s IH]; [done|]. intros Hs. cbn [skip_ws]. destruct (is_ws c) eqn:Ec; [|done].
  apply IH. unfold is_ws in Ec. rewrite !orb_true_iff, !Z.eqb_eq in Ec. by past_char c s Hs.
Qed.

Lemma drop_prefix_keeps p s rest :
  string_forall (λ c, negb (byteZ c =? 0)) p = true → ends_nul s = true → drop_prefix p s = Some rest → ends_nul rest = true.
Proof.
  intros Hp Hs E. apply drop_prefix_Some in E as ->. induction p as [|c p IH]; [done|].
  cbn [string_forall] in Hp. rewrite andb_true_iff, negb_true_iff, Z.eqb_neq in Hp. destruct Hp as [Hc Hp].
  apply IH; [done|]. by apply (ends_nul_tail c).
Qed.

Lemma expect_keeps c s rest : byteZ c ≠ 0 → ends_nul s = true → expect c s = Some rest → ends_nul rest = true.
Proof.
  intros Hc Hs. apply drop_prefix_keeps; [|by apply skip_ws_keeps].
  cbn [string_forall]. by rewrite andb_true_r, negb_true_iff, Z.eqb_neq.
Qed.

Section values.
Context (value : string → option (jtext * string)) (Hvalue : keeps value).

Lemma read_elements_keeps fuel : keeps (read_elements value fuel).
Proof.
  induction fuel as [|fuel IH]; intros s vs rest Hs E; [done|]. cbn [read_elements] in E.
  destruct (expect "]" s) as [s'|] eqn:Ee; [injection E as _ <-; by apply (expect_keeps "]" s)|].
  destruct (expect "," s) as [s'|] eqn:Ec; [|done]. apply (expect_keeps "," s s') in Hs; [|done|done].
  revert Hs E. apply (keeps_bind value); [done|]. intros v.
  apply (keeps_bind (read_elements value fuel)); [done|]. intros vs'. apply keeps_ret.
Qed.

Lemma read_entry_keeps : keeps (read_entry value).
Proof.
  intros s kv rest Hs E. unfold read_entry in E.
  destruct (expect _ s) as [s'|] eqn:Ec; [|done]. apply (expect_keeps (Ascii.ascii_of_nat 34) s s') in Hs; [|done|done].
  revert Hs E. apply (keeps_bind read_string); [apply read_string_keeps|].
  clear - Hvalue. intros k s a rest Hs E.
  destruct (expect ":" s) as [s'|] eqn:Ec; [|done]. apply (expect_keeps ":" s s') in Hs; [|done|done].
  revert Hs E. apply (keeps_bind value); [done|]. intros v. apply keeps_ret.
Qed.

Lemma read_entries_keeps fuel : keeps (read_entries value fuel).
Proof.
  induction fuel as [|fuel IH]; intros s vs rest Hs E; [done|]. cbn [read_entries] in E.
  destruct (expect "}" s) as [s'|] eqn:Ee; [injection E as _ <-; by apply (expect_keeps "}" s)|].
  destruct (expect "," s) as [s'|] eqn:Ec; [|done]. apply (expect_keeps "," s s') in Hs; [|done|done].
  revert Hs E. apply (keeps_bind (read_entry value)); [apply read_entry_keeps|]. intros kv.
  apply (keeps_bind (read_entries value fuel)); [done|]. intros kvs. apply keeps_ret.
Qed.
End values.

Lemma read_literal_keeps s v rest :
  ends_nul s = true →
  match drop_prefix "true" s, drop_prefix "false" s, drop_prefix "null" s with
  | Some rest, _, _ => Some (TBool true, rest)
  | _, Some rest, _ => Some (TBool false, rest)
  | _, _, Some rest => Some (TNull, rest)
  | _, _, _ => '(lit, rest) ← read_number s; Some (TNumber lit, rest)
  end = Some (v, rest) → ends_nul rest = true.
Proof.
  intros Hs. destruct (drop_prefix "true" s) as [r|] eqn:E1; [intros [= _ <-]; by apply (drop_prefix_keeps "true" s)|].
  destruct (drop_prefix "false" s) as [r|] eqn:E2; [intros [= _ <-]; by apply (drop_prefix_keeps "false" s)|].
  destruct (drop_prefix "null" s) as [r|] eqn:E3; [intros [= _ <-]; by apply (drop_prefix_keeps "null" s)|].
  revert Hs. apply (keeps_bind read_number); [apply read_number_keeps|]. intros lit. apply keeps_ret.
Qed.

Lemma read_string_value_keeps s v rest :
  ends_nul s = true → ('(t, rest) ← read_string s; Some (TString t, rest)) = Some (v, rest) → ends_nul rest = true.
Proof. apply (keeps_bind read_string); [apply read_string_keeps|]. intros t. apply keeps_ret. Qed.

Lemma read_value_keeps depth : keeps (read_value depth).
Proof.
  induction depth as [|depth IH]; intros s v rest Hs%skip_ws_keeps E; cbn [read_value] in E;
    destruct (skip_ws s) as [|c s'] eqn:Es; try done.
  all: destruct (Z.eqb_spec (byteZ c) 34); [past_char c s' Hs; by apply (read_string_value_keeps s' v)|].
  all: destruct (Z.eqb_spec (byteZ c) 91); [|destruct (Z.eqb_spec (byteZ c) 123); [|by apply (read_literal_keeps _ v) in E]].
  all: try done; past_char c s' Hs.
  - destruct (expect "]" s') as [r|] eqn:Ee; [injection E as _ <-; by apply (expect_keeps "]" s')|].
    revert Hs E. apply (keeps_bind (read_value depth)); [done|]. intros v1.
    apply (keeps_bind (read_elements _ _)); [by apply read_elements_keeps|]. intros vs. apply keeps_ret.
  - destruct (expect "}" s') as [r|] eqn:Ee; [injection E as _ <-; by apply (expect_keeps "}" s')|].
    revert Hs E. apply (keeps_bind (read_entry _)); [by apply read_entry_keeps|]. intros kv.
    apply (keeps_bind (read_entries _ _)); [by apply read_entries_keeps|]. intros kvs. apply keeps_ret.
Qed.

Lemma Unmarshal_nul s : ends_nul s = true → Unmarshal s = None.
Proof.
  intros Hs. unfold Unmarshal, read_text. destruct (read_value _ s) as [[v rest]|] eqn:E; [|done].
  apply read_value_keeps in E; [|done]. apply skip_ws_keeps in E. cbn [mbind option_bind].
  rewrite bool_decide_eq_false_2; [done|]. intros E0. by rewrite E0 in E.
Qed.

(** * Frames *)

Lemma length_bytes_of s : length (bytes_of s) = String.length s.
Proof.
  unfold bytes_of. rewrite length_fmap. induction s as [|c s IH]; [done|]. cbn. by rewrite IH.
Qed.

Lemma string_of_bytes_of s : string_of (bytes_of s) = s.
Proof.
  unfold string_of, bytes_of. rewrite <- list_fmap_compose.
  rewrite (list_fmap_ext _ id); [|intros i c _; apply ascii_of_byteZ].
  by rewrite list_fmap_id, String.string_of_list_ascii_of_string.
Qed.

Lemma byteToOpType_of op : isValidOp op = true → byteToOpType (opTypeToByte op) = op.
Proof. by destruct op. Qed.

Lemma read_uint_app n z r : 0 <= z < 2 ^ (8 * Z.of_nat n) → read_uint n (be_bytes n z ++ r) = Some (z, r).
Proof.
  intros Hz. unfold read_uint. rewrite length_app, length_be_bytes, bool_decide_eq_false_2 by lia.
  rewrite take_app_length', drop_app_length', be_value_bytes by (done || by rewrite length_be_bytes). done.
Qed.

Lemma read_uint_short n r : (length r < n)%nat → read_uint n r = None.
Proof. intros Hr. unfold read_uint. by rewrite bool_decide_eq_true_2. Qed.

Lemma Read_app n x r : length x = n → x ++ r ≠ [] → Read n (x ++ r) = Some (x, r).
Proof.
  intros <- Hr. unfold Read. destruct (x ++ r) eqn:E; [done|]. rewrite <- E.
  rewrite take_app_length, drop_app_length, length_app.
  replace (length x - (length x + length r))%nat with 0%nat by lia. by rewrite app_nil_r.
Qed.

Lemma Read_some_app n x r : length x = n → Read_some n (x ++ r) = Some (x, r).
Proof.
  intros Hx. unfold Read_some. case_bool_decide as E.
  - destruct x; [done|]. cbn in Hx. lia.
  - apply Read_app; [done|]. destruct x; [by subst n|done].
Qed.

(** Data that ends inside the bytes to read. *)
Lemma Read_short n r : (length r < n)%nat → Read n r = None ∨ Read n r = Some (r ++ replicate (n - length r) 0, []).
Proof.
  intros Hr. destruct r as [|b r]; [by left|right]. unfold Read. by rewrite take_ge, drop_ge by lia.
Qed.

Lemma Read_some_short n r : (length r < n)%nat → Read_some n r = Read n r.
Proof. intros Hr. unfold Read_some. by rewrite bool_decide_eq_false_2 by lia. Qed.

Lemma ends_nul_app s t : t ≠ "" → ends_nul (s +:+ t) = ends_nul t.
Proof.
  intros Ht. induction s as [|c s IH]; [done|]. rewrite string_app_cons. cbn [ends_nul].
  destruct (s +:+ t) as [|d u] eqn:E; [|done]. destruct s, t; try done.
Qed.

Lemma string_of_app a b : string_of (a ++ b) = string_of a +:+ string_of b.
Proof.
  induction a as [|z a IH]; [done|].
  change (string_of ((z :: a) ++ b)) with (String (ascii_of_Z z) (string_of (a ++ b))). by rewrite IH.
Qed.

Lemma unmarshal_padded bs k : (0 < k)%nat → unmarshal_value (bs ++ replicate k 0) = None.
Proof.
  intros Hk. destruct k as [|k]; [lia|]. unfold unmarshal_value. rewrite bool_decide_eq_false_2 by (by destruct bs).
  apply Unmarshal_nul. rewrite string_of_app, ends_nul_app by done.
  clear Hk. induction k as [|k IH]; [done|]. exact IH.
Qed.

(** * Operations *)

(** The operation is one of the six, the paths fit their frames, and the text of the value fits its
    frame and stands for the value. *)
Definition value_fits (v : json) (valBytes : bytes) : Prop :=
  marshal_value v = Some valBytes ∧ Z.of_nat (length valBytes) < 2 ^ 32 ∧ unmarshal_value valBytes = Some v.
Definition op_fits (op : PatchOperation) : Prop :=
  isValidOp (op_Op op) = true ∧ Z.of_nat (String.length (op_Path op)) < 2 ^ 16 ∧
  Z.of_nat (String.length (op_From op)) < 2 ^ 16 ∧ ∃ valBytes, value_fits (op_Value op) valBytes.

Definition frame (n : nat) (bs : bytes) : bytes := be_bytes n (Z.of_nat (length bs)) ++ bs.
Definition op_bytes (op : PatchOperation) (valBytes : bytes) : bytes :=
  [opTypeToByte (op_Op op)] ++ frame 2 (bytes_of (op_Path op)) ++ frame 2 (bytes_of (op_From op)) ++ frame 4 valBytes.

Lemma write_framed_small n bs : Z.of_nat (length bs) < 2 ^ (8 * Z.of_nat n) → write_framed n bs = frame n bs.
Proof. intros H. unfold write_framed, frame. by rewrite wrap_u_small by lia. Qed.

Lemma encode_op_fits op : op_fits op → ∃ valBytes, value_fits (op_Value op) valBytes ∧ encode_op op = Ok (op_bytes op valBytes).
Proof.
  intros (_ & Hp & Hf & vb & Hv). exists vb. split; [done|]. destruct Hv as (Hm & Hl & _).
  unfold encode_op. by rewrite Hm, !write_framed_small by (rewrite ?length_bytes_of; done).
Qed.

Lemma decode_op_full op valBytes r :
  op_fits op → value_fits (op_Value op) valBytes → decode_op (op_bytes op valBytes ++ r) = Ok (op, r).
Proof.
  intros (Ho & Hp & Hf & _) (_ & Hl & Hu). unfold op_bytes, frame. rewrite <- !(assoc_L (++)).
  unfold decode_op. cbn [app corrupt mbind result_bind].
  rewrite read_uint_app by (rewrite length_bytes_of; lia). cbn [corrupt mbind result_bind].
  rewrite Nat2Z.id, Read_app by (done || by destruct (bytes_of _)). cbn [corrupt mbind result_bind].
  rewrite read_uint_app by (rewrite length_bytes_of; lia). cbn [corrupt mbind result_bind].
  rewrite Nat2Z.id, Read_some_app by done. cbn [corrupt mbind result_bind].
  rewrite read_uint_app by lia. cbn [corrupt mbind result_bind].
  rewrite Nat2Z.id, Read_some_app by done. cbn [corrupt mbind result_bind].
  rewrite Hu, !string_of_bytes_of, byteToOpType_of by done. by destruct op.
Qed.

(** The data ends inside the operation. *)
Lemma take_within {A} m (x y : list A) :
  (m < length x)%nat ∧ take m (x ++ y) = take m x ∨ (length x <= m)%nat ∧ take m (x ++ y) = x ++ take (m - length x) y.
Proof.
  destruct (decide (m < length x)%nat); [left|right]; (split; [lia|]); [by apply take_app_le; lia|by apply take_app_ge; lia].
Qed.

Definition fails {A} (r : result error A) : Prop := ∃ e, r = Err e.

Lemma value_short m valBytes (next : bytes * bytes → result error (PatchOperation * bytes)) :
  Z.of_nat (length valBytes) < 2 ^ 32 → (m < length (frame 4 valBytes))%nat →
  (∀ bs r, unmarshal_value bs = None → fails (next (bs, r))) →
  fails ('(valLen, r) ← corrupt (read_uint 4 (take m (frame 4 valBytes)));
         x ← corrupt (Read_some (Z.to_nat valLen) r); next x).
Proof.
  intros Hl Hm Hn. unfold frame in *. rewrite length_app, length_be_bytes in Hm.
  destruct (take_within m (be_bytes 4 (Z.of_nat (length valBytes))) valBytes) as [[Hlt ->]|[Hge ->]];
    rewrite length_be_bytes in *.
  - rewrite read_uint_short; [by eexists|]. rewrite length_take, length_be_bytes. lia.
  - rewrite read_uint_app by lia. cbn [corrupt mbind result_bind]. rewrite Nat2Z.id.
    assert (length (take (m - 4) valBytes) < length valBytes)%nat as Hs by (rewrite length_take; lia).
    rewrite Read_some_short by done. destruct (Read_short _ _ Hs) as [->| ->]; [by eexists|].
    apply Hn, unmarshal_padded. lia.
Qed.

(** What a reader of the bytes of a frame does with data that is complete or ends early. *)
Definition reads (rd : nat → bytes → option (bytes * bytes)) : Prop :=
  (∀ n x r, length x = n → x ++ r ≠ [] → rd n (x ++ r) = Some (x, r)) ∧
  (∀ n r, (length r < n)%nat ∨ r = [] → rd n r = None ∨ ∃ bs, rd n r = Some (bs, [])).

Lemma Read_reads : reads Read.
Proof.
  split; [apply Read_app|]. intros n r [Hr| ->]; [|by left]. destruct (Read_short n r Hr) as [->| ->]; eauto.
Qed.

Lemma Read_some_reads : reads Read_some.
Proof.
  split; [intros n x r Hx _; by apply Read_some_app|]. intros n r [Hr| ->].
  - rewrite Read_some_short by done. apply Read_reads. by left.
  - unfold Read_some. case_bool_decide; eauto.
Qed.

Lemma frame_short {A} rd m x y (next : bytes → bytes → result error A) :
  reads rd → Z.of_nat (length x) < 2 ^ 16 → (m < length (frame 2 x ++ y))%nat →
  (∀ bs, fails (next bs [])) → (∀ m', (m' < length y)%nat → fails (next x (take m' y))) →
  fails ('(n, r) ← corrupt (read_uint 2 (take m (frame 2 x ++ y)));
         '(bs, r) ← corrupt (rd (Z.to_nat n) r); next bs r).
Proof.
  intros [Hfull Hshort] Hl Hm Hnil Hnext. unfold frame in *. rewrite <- (assoc_L (++)) in *.
  rewrite !length_app, length_be_bytes in Hm.
  destruct (take_within m (be_bytes 2 (Z.of_nat (length x))) (x ++ y)) as [[Hlt ->]|[Hge ->]]; rewrite length_be_bytes in *.
  { rewrite read_uint_short; [by eexists|]. rewrite length_take, length_be_bytes. lia. }
  rewrite read_uint_app by lia. cbn [corrupt mbind result_bind]. rewrite Nat2Z.id.
  assert (∀ r, (length r < length x)%nat ∨ r = [] → fails ('(bs, r) ← corrupt (rd (length x) r); next bs r)) as Hs.
  { intros r Hr. destruct (Hshort (length x) r Hr) as [->|[bs ->]]; [by eexists|apply Hnil]. }
  destruct (take_within (m - 2) x y) as [[Hlt ->]|[Hx ->]].
  - apply Hs. left. rewrite length_take. lia.
  - destruct (decide (x ++ take (m - 2 - length x) y = [])) as [E|E]; [rewrite E; apply Hs; by right|].
    rewrite Hfull by done. cbn [corrupt mbind result_bind]. apply Hnext. lia.
Qed.

Lemma decode_op_short op valBytes m :
  op_fits op → value_fits (op_Value op) valBytes → (m < length (op_bytes op valBytes))%nat →
  fails (decode_op (take m (op_bytes op valBytes))).
Proof.
  intros (_ & Hp & Hf & _) (_ & Hl & _) Hm. unfold op_bytes in *. destruct m as [|m]; [by eexists|].
  unfold decode_op. cbn [app take corrupt mbind result_bind].
  apply (frame_short Read); [apply Read_reads|by rewrite length_bytes_of|cbn in Hm |-*; lia|by eexists|].
  intros m1 Hm1. apply (frame_short Read_some); [apply Read_some_reads|by rewrite length_bytes_of|done|by eexists|].
  intros m2 Hm2. apply (value_short _ _ (λ '(bs, r), _)); [done|done|]. intros bs r Hu. rewrite Hu. by eexists.
Qed.

(** * Patches *)

Lemma decode_ops_app ops0 patch r :
  Forall op_fits patch → ∃ bs, (∀ buf, encode_ops buf patch = Ok (buf ++ bs)) ∧
    decode_ops (length patch) ops0 (bs ++ r) = Ok (ops0 ++ patch) ∧
    (∀ m, (m < length bs)%nat → fails (decode_ops (length patch) ops0 (take m bs))).
Proof.
  intros Hp. revert ops0. induction Hp as [|op patch Hop Hpatch IH]; intros ops0.
  { exists []. split; [|split]; [intros buf; by rewrite app_nil_r|by rewrite app_nil_r|intros m Hm; cbn in Hm; lia]. }
  destruct (encode_op_fits op Hop) as (vb & Hv & He). destruct (IH (ops0 ++ [op])) as (bs & Henc & Hdec & Hcut).
  exists (op_bytes op vb ++ bs). split; [|split].
  - intros buf. cbn [encode_ops]. by rewrite He, Henc, (assoc_L (++)).
  - rewrite <- (assoc_L (++)). cbn [length decode_ops]. rewrite decode_op_full by done.
    cbn [mbind result_bind]. by rewrite Hdec, <- (assoc_L (++)).
  - intros m Hm. rewrite length_app in Hm. cbn [length decode_ops].
    destruct (take_within m (op_bytes op vb) bs) as [[Hlt ->]|[Hge ->]].
    + destruct (decode_op_short op vb m Hop Hv Hlt) as [e ->]. by eexists.
    + rewrite decode_op_full by done. cbn [mbind result_bind]. apply Hcut. lia.
Qed.

(** C23: a patch of fewer than 2^32 known operations, with paths of less than 2^16 bytes and values whose
    JSON text has less than 2^32 bytes and is read back as the value, is encoded; the decoder gives the same patch for the encoded bytes, and
    an error for any beginning of them. *)
Theorem binary_roundtrip (patch : Patch) :
  Z.of_nat (length patch) < 2 ^ 32 → Forall op_fits patch →
  ∃ data, EncodeBinary patch = Ok data ∧ DecodeBinary data = Ok patch ∧
    ∀ m, (m < length data)%nat → ∃ e, DecodeBinary (take m data) = Err e.
Proof.
  intros Hn Hp. destruct (decode_ops_app [] patch [] Hp) as (bs & Henc & Hdec & Hcut). rewrite app_nil_r in Hdec.
  assert (∀ r, DecodeBinary (BinaryMagicHeader ++ [BinaryVersion] ++ be_bytes 4 (Z.of_nat (length patch)) ++ r) =
    decode_ops (length patch) [] r) as Hhead.
  { intros r. unfold DecodeBinary. rewrite bool_decide_eq_false_2 by (cbn; lia).
    rewrite bool_decide_eq_true_2 by done. change ((_ ++ _) !! 4%nat) with (Some BinaryVersion).
    change (drop 5 _) with (be_bytes 4 (Z.of_nat (length patch)) ++ r). cbn [negb Z.eqb Pos.eqb BinaryVersion].
    rewrite read_uint_app by lia. cbn [corrupt mbind result_bind]. by rewrite Nat2Z.id. }
  eexists. unfold EncodeBinary. rewrite wrap_u_small by lia. split; [apply Henc|]. rewrite <- !(assoc_L (++)). split; [by rewrite Hhead|].
  intros m Hm. set (head := BinaryMagicHeader ++ [BinaryVersion] ++ be_bytes 4 (Z.of_nat (length patch))).
  replace (BinaryMagicHeader ++ _) with (head ++ bs) in * by (unfold head; by rewrite <- !(assoc_L (++))).
  rewrite length_app in Hm. destruct (take_within m head bs) as [[Hlt ->]|[Hge ->]].
  - unfold DecodeBinary. rewrite bool_decide_eq_true_2; [by eexists|]. rewrite length_take.
    change (length head) with 9%nat in *. lia.
  - assert (m - length head < length bs)%nat as Hlt by lia. revert Hlt. generalize (m - length head)%nat. intros m' Hm'.
    unfold head. rewrite <- !(assoc_L (++)), Hhead. by apply Hcut.
Qed.

Definition ex_patch : Patch :=
  [MkOp OpAdd "/a" "" (JObject [("k", JArray [JNumber (f64_of_Z 3); JString "x<y"; JNull])]); MkOp OpMove "/b" "/c" JNull].

Lemma binary_roundtrip_witness :
  ∃ data, EncodeBinary ex_patch = Ok data ∧ DecodeBinary data = Ok ex_patch ∧
    ∀ m, (m < length data)%nat → ∃ e, DecodeBinary (take m data) = Err e.
Proof.
  apply (binary_roundtrip ex_patch); [done|].
  repeat constructor; try done; cbn [op_Value]; eexists; (split; [by vm_compute|split; by vm_compute]).
Defined.

(** A path of 2^16 bytes is written with the length zero, and an operation of another name comes back
    as one named [unknown]. *)
Definition unknown_op : PatchOperation := MkOp (OpOther "merge") "/a" "" JNull.
Theorem binary_loses :
  (∀ path, Z.of_nat (String.length path) = 2 ^ 16 → take 2 (write_framed 2 (bytes_of path)) = [0; 0]) ∧
  ∃ data, EncodeBinary [unknown_op] = Ok data ∧ DecodeBinary data = Ok [MkOp (OpOther "unknown") "/a" "" JNull].
Proof.
  split.
  - intros path Hp. unfold write_framed. by rewrite length_bytes_of, Hp.
  - eexists. by split.
Qed.
