(* ===== verification/DeltaHash.v ===== *)
(** Differences with a comparison of hashes: [internal/deltadiff/hash_diff.go]. *)
From Stdlib Require Import SpecFloat.
From S2P Require Import Prelude Float64 Json Sha256 JsonText DeltaDiff.
Local Open Scope Z_scope.

Definition SubtreeHash (val : json) : Z :=
  match val with
  | JNull => 0
  | _ =>
      match Marshal val with
      | Some b => fnv64a_write fnv_offset64 (bytes_of_string b)
      | None => 1
      end
  end.

Definition is_nil (v : json) : bool := match v with JNull => true | _ => false end.

Definition fastDiffRecursive (path : string) (src dst : json) : Patch :=
  if negb (is_nil src) && negb (is_nil dst) && (SubtreeHash src =? SubtreeHash dst) then []
  else diffRecursive path src dst.

Definition FastDiff (source target : json) : Patch :=
  if is_nil source && is_nil target then []
  else if SubtreeHash source =? SubtreeHash target then []
  else fastDiffRecursive "" source target.

Lemma Diff_same v : no_nan v = true → Diff v v = [].
Proof. intros H%DeepEqual_refl. unfold Diff. destruct v; cbn [diffRecursive]; by rewrite H. Qed.

(** The fast difference is the difference, unless two different documents have the same hash. *)
Theorem fast_diff_exact source target :
  no_nan source = true → (SubtreeHash source = SubtreeHash target → source = target) →
  FastDiff source target = Diff source target.
Proof.
  intros Hn Hc. unfold FastDiff, fastDiffRecursive.
  destruct (is_nil source && is_nil target) eqn:En; [by destruct source, target|].
  destruct (Z.eqb_spec (SubtreeHash source) (SubtreeHash target)) as [E|E].
  - rewrite <- (Hc E). by rewrite Diff_same.
  - by rewrite andb_false_r.
Qed.

(** Documents that have no JSON text all have the hash 1: their differences are lost. *)
Definition ex_nan (b : bool) : json := JObject [("a", JNumber S754_nan); ("b", JBool b)].
Theorem fast_diff_loses :
  FastDiff (ex_nan true) (ex_nan false) = [] ∧
  replace_op "/b" (JBool false) ∈ Diff (ex_nan true) (ex_nan false).
Proof. split; [by vm_compute|]. cbn. right. left. Qed.
