(* ===== verification/Webhook.v ===== *)
(** Webhook delivery: [internal/webhookdelivery].

    The HTTP client is an interface of the package: what it answers, the times that are read around the
    call and the random number of the backoff are the arguments [exchange] of a delivery.  The JSON form
    of a payload and the parsers of URLs are parameters.  The connection pool of the HTTP client is
    configuration of the Go library and is left out. *)
From Stdlib Require Import SpecFloat.
From stdpp Require Import pretty.
From S2P Require Import Prelude Errors Strings Sha256 Float64 Ledger Json.
Local Open Scope Z_scope.

Abbreviation SInvalidURL := (SOther "webhook: invalid target url").
Abbreviation SEndpointNotFound := (SOther "webhook: endpoint not found").
Abbreviation SSignatureMismatch := (SOther "webhook: HMAC signature mismatch").
Abbreviation SReplayTimestampExpired := (SOther "webhook: timestamp outside allowed replay tolerance window").
Abbreviation SMalformedSignature := (SOther "webhook: malformed signature or timestamp header").

(** * Signatures *)

Definition DefaultTimestampTolerance : Duration := 300 * second.

(** [t.Unix()] and [time.Unix(sec, 0)] *)
Definition Unix (t : Time) : Z := wrap_s 64 ((t - unix_epoch) / second).
Definition time_Unix (sec : Z) : Time := wrap_s 64 (sec + unix_epoch / second) * second.

Definition signature (tsStr payload secret : string) : string :=
  hex_encode (Sha512.hmac (bytes_of_string secret) (bytes_of_string (tsStr +:+ "." +:+ payload))).

Definition SignPayload (payload : string) (ts : Time) (secret : string) : string * string :=
  let tsStr := pretty (Unix ts) in
  ("t=" +:+ tsStr +:+ ",v1=" +:+ signature tsStr payload secret, tsStr).

(** [strings.SplitN(s, sep, 2)] when it gives two parts. *)
Fixpoint cut (sep : ascii) (s : string) : option (string * string) :=
  match s with
  | EmptyString => None
  | String c s' =>
      if ascii_eqb sep c then Some ("", s') else '(a, b) ← cut sep s'; Some (String c a, b)
  end.

(** One part of the header: the last value of a key counts. *)
Definition header_part (found : string * string) (p : string) : string * string :=
  match cut "=" (trim_space p) with
  | Some (k, v) =>
      if bool_decide (k = "t") then (v, found.2) else if bool_decide (k = "v1") then (found.1, v) else found
  | None => found
  end.

Definition parse_header (sigHeader : string) : string * string :=
  foldl header_part ("", "") (split "," sigHeader).

(** The distance of two times; the least duration has no positive counterpart and stays. *)
Definition distance (now reqTime : Time) : Duration :=
  let diff := time_sub now reqTime in
  if diff <? 0 then wrap_s 64 (- diff) else diff.

Definition VerifySignature (payload sigHeader secret : string) (tolerance : Duration) (now : Time) : option error :=
  let tolerance := if tolerance <=? 0 then DefaultTimestampTolerance else tolerance in
  let '(tsStr, sigHex) := parse_header sigHeader in
  if bool_decide (tsStr = "") || bool_decide (sigHex = "") then Some (ESentinel SMalformedSignature)
  else
    match Atoi tsStr with
    | None => Some (EWrap "%w: invalid timestamp" [] (ESentinel SMalformedSignature))
    | Some tsUnix =>
        let diff := distance now (time_Unix tsUnix) in
        if tolerance <? diff then
          Some (EWrap "%w: age %s exceeds tolerance %s" [pretty diff; pretty tolerance] (ESentinel SReplayTimestampExpired))
        else if negb (bool_decide (sigHex = signature tsStr payload secret)) then Some (ESentinel SSignatureMismatch)
        else None
    end.

(** * Endpoints *)

Record EndpointConfig := MkEndpoint {
  ep_ID : string;
  ep_URL : string;
  ep_Secret : string;
  ep_Events : list string;
  ep_MaxRetries : Z;
  ep_Timeout : Duration;
  ep_Headers : gmap string string;
  ep_Active : bool
}.
Abbreviation EndpointRegistry := (gmap string EndpointConfig) (only parsing).

Section registry.
(** The scheme of a URL that [url.ParseRequestURI] accepts. *)
Context (request_scheme : string → option string).

Definition valid_url (u : string) : bool :=
  match request_scheme u with
  | Some scheme => bool_decide (scheme = "http") || bool_decide (scheme = "https")
  | None => false
  end.

Definition Register (cfg : EndpointConfig) (r : EndpointRegistry) : option error * EndpointRegistry :=
  if negb (valid_url (ep_URL cfg)) then (Some (EWrap "%w: %s" [ep_URL cfg] (ESentinel SInvalidURL)), r)
  else
    let maxRetries := if ep_MaxRetries cfg <=? 0 then 5 else ep_MaxRetries cfg in
    let timeout := if ep_Timeout cfg <=? 0 then 10 * second else ep_Timeout cfg in
    (None, <[ep_ID cfg := MkEndpoint (ep_ID cfg) (ep_URL cfg) (ep_Secret cfg) (ep_Events cfg) maxRetries timeout
                            (ep_Headers cfg) (ep_Active cfg)]> r).
End registry.

Definition Get (id : string) (r : EndpointRegistry) : result error EndpointConfig :=
  match r !! id with
  | Some ep => Ok ep
  | None => Err (EWrap "%w: %s" [id] (ESentinel SEndpointNotFound))
  end.

Definition subscribed (eventType : string) (ep : EndpointConfig) : bool :=
  ep_Active ep &&
  (bool_decide (ep_Events ep = []) ||
   existsb (λ pattern, bool_decide (pattern = "*") || bool_decide (pattern = eventType)) (ep_Events ep)).

Definition SubscribedEndpoints (sh : shuffle) (eventType : string) (r : EndpointRegistry) : list EndpointConfig :=
  List.filter (subscribed eventType) (range_values sh r).

(** * Deliveries *)

Inductive DeliveryStatus := StatusPending | StatusSuccess | StatusRetrying | StatusDeadLetter.
#[export] Instance DeliveryStatus_eq_dec : EqDecision DeliveryStatus.
Proof. solve_decision. Defined.

Record WebhookPayload := MkPayload {
  wp_EventID : string;
  wp_EventType : string;
  wp_WorkflowID : string;
  wp_RunID : string;
  wp_Timestamp : Time;
  wp_Data : json
}.

Record DeliveryAttempt := MkAttempt {
  da_AttemptNumber : Z;
  da_Timestamp : Time;
  da_StatusCode : Z;
  da_Duration : Duration;
  da_Error : string
}.

Record DeliveryRecord := MkDelivery {
  dr_ID : string;
  dr_EndpointID : string;
  dr_Payload : WebhookPayload;
  dr_Status : DeliveryStatus;
  dr_Attempts : list DeliveryAttempt;
  dr_NextRetryAt : option Time;
  dr_CreatedAt : Time;
  dr_CompletedAt : option Time
}.

Definition set_status (st : DeliveryStatus) (r : DeliveryRecord) : DeliveryRecord :=
  MkDelivery (dr_ID r) (dr_EndpointID r) (dr_Payload r) st (dr_Attempts r) (dr_NextRetryAt r) (dr_CreatedAt r)
    (dr_CompletedAt r).

(** ** Backoff *)

Record BackoffConfig := MkBackoff {
  bo_InitialInterval : Duration;
  bo_MaxInterval : Duration;
  bo_Multiplier : float64;
  bo_JitterFraction : float64
}.

Definition DefaultBackoff : BackoffConfig :=
  MkBackoff second (3600 * second) (f64_of_Z 2) (f64_div (f64_of_Z 1) (f64_of_Z 5)).

(** The loop of [math.Pow] over the bits of a positive exponent: the answer is [a1 * 2 ^ ae], the power
    that is squared [x1 * 2 ^ xe]. *)
Fixpoint pow_loop (i : positive) (x1 : float64) (xe : Z) (a1 : float64) (ae : Z) : float64 * Z :=
  if (xe <? - 4096) || (4096 <? xe) then (a1, ae + xe)
  else
    let step (odd : bool) := if odd then (f64_mul a1 x1, ae + xe) else (a1, ae) in
    let x2 := f64_mul x1 x1 in
    let '(x2, xe2) := if f64_ltb x2 (f64_div (f64_of_Z 1) (f64_of_Z 2)) then (f64_add x2 x2, 2 * xe - 1) else (x2, 2 * xe) in
    match i with
    | xH => step true
    | xO i' => let '(a1, ae) := step false in pow_loop i' x2 xe2 a1 ae
    | xI i' => let '(a1, ae) := step true in pow_loop i' x2 xe2 a1 ae
    end.

(** [math.Pow(x, float64(n))] for [n >= 0]. *)
Definition Pow (x : float64) (n : Z) : float64 :=
  if (n =? 0) || f64_eqb x (f64_of_Z 1) then f64_of_Z 1
  else if n =? 1 then x
  else match x, n with
       | S754_nan, _ => S754_nan
       | S754_zero neg, _ => S754_zero (neg && Z.odd n)
       | S754_infinity neg, _ => S754_infinity (neg && Z.odd n)
       | S754_finite _ _ _, Zpos p =>
           let '(x1, xe) := SFfrexp 53 1024 x in
           let '(a1, ae) := pow_loop p x1 xe (f64_of_Z 1) 0 in
           SFldexp 53 1024 a1 ae
       | _, _ => S754_nan
       end.

(** [rand.Int] panics when its bound is not positive; [n] is what it gives otherwise, if it does. *)
Definition CalculateBackoff (attempt : Z) (cfg : BackoffConfig) (n : option Z) : outcome Duration :=
  let attempt := if attempt <=? 0 then 1 else attempt in
  let raw := f64_mul (f64_of_Z (bo_InitialInterval cfg)) (Pow (bo_Multiplier cfg) (attempt - 1)) in
  let raw := if f64_ltb (f64_of_Z (bo_MaxInterval cfg)) raw then f64_of_Z (bo_MaxInterval cfg) else raw in
  let jitterRange := f64_mul raw (bo_JitterFraction cfg) in
  if f64_leb jitterRange f64_zero then Returns (int64_of_f64 raw)
  else
    let maxBig := int64_of_f64 (f64_mul (f64_of_Z 2) jitterRange) in
    if maxBig <=? 0 then Panics
    else match n with
         | None => Returns (int64_of_f64 raw)
         | Some n =>
             let offset := f64_sub (f64_of_Z n) jitterRange in
             let delay := int64_of_f64 (f64_add raw offset) in
             Returns (if delay <? 0 then bo_InitialInterval cfg else delay)
         end.

(** ** Requests *)

(** [textproto.CanonicalMIMEHeaderKey] *)
Definition token_char (c : ascii) : bool :=
  let b := Z.of_nat (byte_of c) in
  ((48 <=? b) && (b <=? 57)) || ((65 <=? b) && (b <=? 90)) || ((97 <=? b) && (b <=? 122)) ||
  bool_decide (c ∈ ["!"; "#"; "$"; "%"; "&"; "'"; "*"; "+"; "-"; "."; "^"; "_"; "`"; "|"; "~"]%char).
Fixpoint canonical_from (upper : bool) (s : string) : string :=
  match s with
  | EmptyString => ""
  | String c s' =>
      let b := byte_of c in
      let c := if upper && (97 <=? b)%nat && (b <=? 122)%nat then Ascii.ascii_of_nat (b - 32)
               else if negb upper && (65 <=? b)%nat && (b <=? 90)%nat then Ascii.ascii_of_nat (b + 32) else c in
      String c (canonical_from (ascii_eqb c "-") s')
  end.
Definition canonical_key (s : string) : string := if string_forall token_char s then canonical_from true s else s.

Record Request := MkRequest {
  rq_URL : string;
  rq_Body : string;
  rq_Header : gmap string string
}.
Definition Header_Set (k v : string) (h : gmap string string) : gmap string string := <[canonical_key k := v]> h.

Definition signer_fun : Type := string → Time → string → string * string.

Definition request_headers (sh : shuffle) (ep : EndpointConfig) (signer : option signer_fun) (payload : string)
    (now : Time) : gmap string string :=
  let h := Header_Set "User-Agent" "Tempest-Webhook-Worker/1.0" (Header_Set "Content-Type" "application/json" ∅) in
  let h := foldl (λ h kv, Header_Set kv.1 kv.2 h) h (range_map sh (ep_Headers ep)) in
  match signer with
  | Some sign =>
      if bool_decide (ep_Secret ep = "") then h
      else
        let '(sig, tsHeader) := sign payload now (ep_Secret ep) in
        Header_Set "X-Tempest-Timestamp" tsHeader (Header_Set "X-Tempest-Signature" sig h)
  | None => h
  end.

(** What happens around a delivery: the times that are read, the error of [http.NewRequest], and the status
    code or the error of the HTTP client. *)
Record exchange := MkExchange {
  x_startTime : Time;
  x_newRequest : option string;
  x_now : Time;
  x_reply : result string Z;
  x_duration : Duration;
  x_completed : Time;
  x_rand : option Z;
  x_retry : Time
}.

Section deliver.
Context (marshal : WebhookPayload → option string).

Definition Deliver (backoff : BackoffConfig) (sh : shuffle) (x : exchange) (ep : EndpointConfig)
    (signer : option signer_fun) (record : DeliveryRecord) :
    outcome (option Request * option error * DeliveryRecord) :=
  match marshal (dr_Payload record) with
  | None => Returns (None, Some (EFmt "failed to marshal payload: %w" []), record)
  | Some payloadBytes =>
      let attemptNum := Z.of_nat (length (dr_Attempts record)) + 1 in
      match x_newRequest x with
      | Some e => Returns (None, Some (EFmt "failed to create request: %w" [e]), record)
      | None =>
          let req := MkRequest (ep_URL ep) payloadBytes (request_headers sh ep signer payloadBytes (x_now x)) in
          let '(statusCode, errMsg) := match x_reply x with Ok code => (code, "") | Err e => (0, e) end in
          let attempt := MkAttempt attemptNum (x_startTime x) statusCode (x_duration x) errMsg in
          let attempts := dr_Attempts record ++ [attempt] in
          let with_result st next completed :=
            MkDelivery (dr_ID record) (dr_EndpointID record) (dr_Payload record) st attempts next (dr_CreatedAt record)
              completed in
          if (200 <=? statusCode) && (statusCode <? 300) then
            Returns (Some req, None, with_result StatusSuccess None (Some (x_completed x)))
          else if ep_MaxRetries ep <=? attemptNum then
            Returns (Some req,
              Some (EFmt "delivery exhausted all %d attempts: status %d (%s)"
                      [pretty (ep_MaxRetries ep); pretty statusCode; errMsg]),
              with_result StatusDeadLetter None (Some (x_completed x)))
          else
            match CalculateBackoff attemptNum backoff (x_rand x) with
            | Panics => Panics
            | Returns delay =>
                Returns (Some req,
                  Some (EFmt "delivery failed (attempt %d/%d): status %d (%s)"
                          [pretty attemptNum; pretty (ep_MaxRetries ep); pretty statusCode; errMsg]),
                  with_result StatusRetrying (Some (time_add (x_retry x) delay)) (dr_CompletedAt record))
            end
      end
  end.

(** ** Dead letters *)

Abbreviation DeadLetterStore := (gmap string DeliveryRecord) (only parsing).

Definition Save (record : DeliveryRecord) (s : DeadLetterStore) : DeadLetterStore :=
  <[dr_ID record := set_status StatusDeadLetter record]> s.

Definition newer (r r' : DeliveryRecord) : bool := time_after (dr_CreatedAt r) (dr_CreatedAt r').

Definition List_ (sh : shuffle) (endpointID : string) (s : DeadLetterStore) : list DeliveryRecord :=
  sort_slice newer (List.filter (λ r, bool_decide (endpointID = "") || bool_decide (dr_EndpointID r = endpointID))
    (range_values sh s)).

(** [others] is what other goroutines do to the store during the delivery. *)
Definition Redeliver (backoff : BackoffConfig) (sh : shuffle) (x : exchange) (others : DeadLetterStore → DeadLetterStore)
    (id : string) (ep : EndpointConfig) (s : DeadLetterStore) : outcome (option error * DeadLetterStore) :=
  match s !! id with
  | None => Returns (Some (EFmt "dead-letter record %s not found" [id]), s)
  | Some rec =>
      match Deliver backoff sh x ep (Some SignPayload) (set_status StatusPending rec) with
      | Panics => Panics
      | Returns (_, err, rec) =>
          let s := others s in
          if bool_decide (dr_Status rec = StatusSuccess) then Returns (None, delete id s)
          else Returns (err, <[id := set_status StatusDeadLetter rec]> s)
      end
  end.

Definition Purge (cutoff : Time) (s : DeadLetterStore) : nat * DeadLetterStore :=
  let kept := filter (λ kv, time_before (dr_CreatedAt kv.2) cutoff = false) s in
  ((size s - size kept)%nat, kept).

(** ** Batches

    Every record is delivered by a goroutine of its own; [None] is a context that is done before there is
    room for it.  The records are different objects. *)
Definition dispatch (backoff : BackoffConfig) (eps : EndpointRegistry) (record : DeliveryRecord)
    (x : option (shuffle * exchange)) : outcome DeliveryRecord :=
  match eps !! dr_EndpointID record, x with
  | Some ep, Some (sh, x) =>
      if ep_Active ep then
        match Deliver backoff sh x ep (Some SignPayload) record with
        | Returns (_, _, record) => Returns record
        | Panics => Panics
        end
      else Returns record
  | _, _ => Returns record
  end.

Definition DispatchBatch (backoff : BackoffConfig) (eps : EndpointRegistry)
    (xs : list (option (shuffle * exchange))) (records : list DeliveryRecord) : list (outcome DeliveryRecord) :=
  zip_with (dispatch backoff eps) records xs.
End deliver.

(** * Signatures are exact *)

Lemma decimal_no_char c s : sign_or_digit c = false → string_forall sign_or_digit s = true → no_char c s.
Proof.
  intros Hc. induction s as [|d s IH]; [done|]. cbn [string_forall]. intros [Hd Hs]%andb_true_iff.
  apply no_char_cons. split; [by intros ->; rewrite Hc in Hd|by apply IH].
Qed.

Lemma sha512_length msg : length (Sha512.sha512 msg) = 64%nat.
Proof.
  unfold Sha512.sha512. assert (∀ bs st, length st = 8%nat → length (foldl Sha512.compress st bs) = 8%nat) as H.
  { assert (∀ kws st, length st = 8%nat → length (foldl Sha512.round st kws) = 8%nat) as Hr.
    { induction kws as [|kw kws IH]; intros st Hst; [done|]. cbn [foldl]. apply IH.
      by do 9 (destruct st as [|? st]; try done). }
    induction bs as [|b bs IH]; intros st Hst; [done|]. cbn [foldl]. apply IH.
    unfold Sha512.compress. rewrite length_zip_with, Hr by done. lia. }
  specialize (H (chunks 128 (length (Sha512.pad msg) / 128) (Sha512.pad msg)) Sha512.H0 eq_refl).
  destruct (foldl Sha512.compress _ _) as [|a [|b [|c [|d [|e [|f [|g [|h [|]]]]]]]]]; done.
Qed.

Lemma sha512_bytes msg : Forall (λ b, 0 <= b < 256) (Sha512.sha512 msg).
Proof.
  apply Forall_forall. unfold Sha512.sha512. intros b (bs & Hb & (w & -> & _)%list_elem_of_fmap)%list_elem_of_join.
  unfold be_bytes in Hb. apply list_elem_of_fmap in Hb as (i & -> & _). apply Z.mod_pos_bound. lia.
Qed.

(** The characters of a header value: visible, and not a comma. *)
Definition plain_char (c : ascii) : bool := visible c && negb (ascii_eqb "," c).

Lemma plain_visible s : string_forall plain_char s = true → string_forall visible s = true.
Proof. apply string_forall_impl. intros c. unfold plain_char. by intros [? _]%andb_true_iff. Qed.

Lemma plain_no_comma s : string_forall plain_char s = true → no_char "," s.
Proof.
  induction s as [|c s IH]; [done|]. cbn [string_forall]. unfold plain_char at 1.
  rewrite !andb_true_iff, negb_true_iff. intros [[_ Hc%ascii_eqb_false] Hs]. apply no_char_cons. auto.
Qed.

Lemma hex_digit_plain d : 0 <= d < 16 → plain_char (hex_digit d) = true.
Proof.
  intros Hd. assert (d ∈ seqZ 0 16) as Hin by (apply elem_of_seqZ; lia). clear Hd. revert d Hin.
  apply Forall_forall. by repeat constructor.
Qed.

Lemma hex_encode_plain bs : Forall (λ b, 0 <= b < 256) bs → string_forall plain_char (hex_encode bs) = true.
Proof.
  induction 1 as [|b bs Hb _ IH]; [done|]. cbn [hex_encode string_forall].
  pose proof (Z.mod_pos_bound b 16 ltac:(lia)). pose proof (Z.div_pos b 16 ltac:(lia) ltac:(lia)).
  pose proof (Z.div_lt_upper_bound b 16 16 ltac:(lia) ltac:(lia)). by rewrite !hex_digit_plain, IH by lia.
Qed.

Lemma signature_plain t p secret : string_forall plain_char (signature t p secret) = true ∧ signature t p secret ≠ "".
Proof.
  unfold signature, Sha512.hmac. set (m := _ ++ Sha512.sha512 _). split; [apply hex_encode_plain, sha512_bytes|].
  pose proof (sha512_length m) as Hl. by destruct (Sha512.sha512 m).
Qed.

Lemma decimal_plain s : string_forall sign_or_digit s = true → string_forall plain_char s = true.
Proof.
  apply string_forall_impl. intros c. unfold sign_or_digit, digit_char, plain_char, visible.
  rewrite !orb_true_iff, !andb_true_iff, negb_true_iff, !Nat.leb_le, ascii_eqb_false.
  intros [[Hc| ->%ascii_eqb_true]| ->%ascii_eqb_true];
    [|split; [split; by apply Nat.leb_le|done]..]. split; [lia|].
  intros <-. change (byte_of ",") with 44%nat in Hc. lia.
Qed.

(** A header with a timestamp and a signature. *)
Lemma parse_header_pair t sig :
  string_forall plain_char t = true → string_forall plain_char sig = true →
  parse_header ("t=" +:+ t +:+ ",v1=" +:+ sig) = (t, sig).
Proof.
  intros Ht Hs. unfold parse_header.
  replace ("t=" +:+ t +:+ ",v1=" +:+ sig) with (("t=" +:+ t) +:+ String "," ("v1=" +:+ sig))
    by (by rewrite <- string_app_assoc).
  rewrite split_app, split_no_char by (apply plain_no_comma; done). cbn [foldl]. unfold header_part.
  rewrite !visible_trim by (apply plain_visible; done). done.
Qed.

Lemma SignPayload_header payload ts secret :
  parse_header (SignPayload payload ts secret).1 = ((SignPayload payload ts secret).2, signature (pretty (Unix ts)) payload secret).
Proof. apply parse_header_pair; [apply decimal_plain, pretty_Z_decimal|apply signature_plain]. Qed.

(** The second of a time. *)
Definition whole_second (t : Time) : Time := t - t mod second.
(** Times that [time.Time] holds, in seconds from the year 1 and from 1970. *)
Definition go_time (t : Time) : Prop := min_int64 <= (t - unix_epoch) / second ∧ t / second <= max_int64.

Lemma time_Unix_Unix t : go_time t → min_int64 <= Unix t <= max_int64 ∧ time_Unix (Unix t) = whole_second t.
Proof.
  intros [Hlo Hhi]. unfold unix_epoch, second, min_int64, max_int64 in *.
  assert ((t - 62135596800 * 10 ^ 9) / 1000000000 = t / 1000000000 - 62135596800) as E.
  { replace (t - 62135596800 * 10 ^ 9) with (t + (- 62135596800) * 1000000000) by lia. rewrite Z.div_add by lia. lia. }
  unfold Unix, time_Unix, unix_epoch, second. rewrite E in *. rewrite wrap_s_small by lia. split; [lia|].
  change (62135596800 * 10 ^ 9 / 1000000000) with 62135596800. rewrite wrap_s_small by lia.
  unfold whole_second, second. pose proof (Z.div_mod t 1000000000 ltac:(lia)). lia.
Qed.

Definition allowed (tolerance : Duration) : Duration := if tolerance <=? 0 then DefaultTimestampTolerance else tolerance.

Lemma VerifySignature_None payload header secret tolerance now :
  VerifySignature payload header secret tolerance now = None ↔
  ∃ sec, Atoi (parse_header header).1 = Some sec ∧ distance now (time_Unix sec) <= allowed tolerance ∧
    (parse_header header).2 = signature (parse_header header).1 payload secret.
Proof.
  unfold VerifySignature. fold (allowed tolerance). destruct (parse_header header) as [t sig]. cbn [fst snd].
  destruct (bool_decide_reflect (t = "")) as [->|Ht]; [split; [done|]; by intros (? & ? & _)|].
  destruct (bool_decide_reflect (sig = "")) as [->|Hs]; cbn [orb].
  { split; [done|]. intros (sec & _ & _ & E). by destruct (signature_plain t payload secret). }
  destruct (Atoi t) as [sec|]; [|split; [done|]; by intros (? & ? & _)].
  destruct (Z.ltb_spec (allowed tolerance) (distance now (time_Unix sec))).
  { split; [done|]. intros (sec' & [= <-] & ? & _). lia. }
  destruct (bool_decide_reflect (sig = signature t payload secret)); cbn [negb].
  - split; [|done]. intros _. by exists sec.
  - split; [done|]. by intros (? & _ & _ & ?).
Qed.

Lemma distance_abs now t : Z.abs (now - t) <= max_int64 → distance now t = Z.abs (now - t).
Proof.
  intros H. unfold distance, time_sub, min_int64, max_int64 in *.
  rewrite Z.min_r, Z.max_r by lia. destruct (Z.ltb_spec (now - t) 0); [rewrite wrap_s_small|]; lia.
Qed.

Lemma signed_verifies payload ts secret tolerance now :
  go_time ts → Z.abs (now - whole_second ts) <= max_int64 →
  VerifySignature payload (SignPayload payload ts secret).1 secret tolerance now = None ↔
  Z.abs (now - whole_second ts) <= allowed tolerance.
Proof.
  intros Hts Hnow. rewrite <- (distance_abs now (whole_second ts)) by done. destruct (time_Unix_Unix ts Hts) as [Hr Hu]. rewrite VerifySignature_None, SignPayload_header. cbn [fst snd].
  change (SignPayload payload ts secret).2 with (pretty (Unix ts) : string). rewrite Atoi_pretty_int by done. split.
  - intros (sec & [= <-] & Hd & _). by rewrite <- Hu.
  - intros Hd. exists (Unix ts). by rewrite Hu.
Qed.

(** A timestamp that is centuries ahead is within every tolerance: the distance overflows. *)
Lemma far_distance now t : max_int64 < t - now → distance now t = min_int64.
Proof.
  intros Hfar. unfold distance. assert (time_sub now t = min_int64) as ->; [|done].
  unfold time_sub, min_int64, max_int64 in *. lia.
Qed.

Lemma far_past now t : max_int64 < now - t → distance now t = max_int64.
Proof.
  intros Hfar. unfold distance. assert (time_sub now t = max_int64) as ->; [|done].
  unfold time_sub, min_int64, max_int64 in *. lia.
Qed.

Lemma allowed_pos tolerance : 0 < allowed tolerance.
Proof. unfold allowed, DefaultTimestampTolerance, second. destruct (Z.leb_spec tolerance 0); lia. Qed.

(** The check of the age of a signed payload, for all times. *)
Lemma signed_verifies_always payload ts secret tolerance now :
  go_time ts → tolerance < max_int64 →
  VerifySignature payload (SignPayload payload ts secret).1 secret tolerance now = None ↔
  Z.abs (now - whole_second ts) <= allowed tolerance ∨ max_int64 < whole_second ts - now.
Proof.
  intros Hts Htol. pose proof (allowed_pos tolerance) as Hpos.
  assert (allowed tolerance < max_int64) as Hmax.
  { unfold allowed, DefaultTimestampTolerance, second, max_int64 in *. destruct (Z.leb_spec tolerance 0); lia. }
  destruct (Z.le_gt_cases (Z.abs (now - whole_second ts)) max_int64) as [Hnear|Hfar].
  { rewrite signed_verifies by done. split; [by left|]. intros [?|?]; lia. }
  rewrite VerifySignature_None, SignPayload_header. cbn [fst snd]. destruct (time_Unix_Unix ts Hts) as [Hr Hu].
  change (SignPayload payload ts secret).2 with (pretty (Unix ts) : string). rewrite Atoi_pretty_int by done.
  destruct (Z.lt_ge_cases max_int64 (whole_second ts - now)) as [Hahead|Hbehind].
  - split; [by right|]. intros _. exists (Unix ts). rewrite Hu, far_distance by done. split_and!; [done| |done].
    unfold min_int64. lia.
  - split; [|lia]. intros (sec & [= <-] & Hd & _). rewrite Hu, far_past in Hd by lia. lia.
Qed.

(** C15: a payload that is signed at some time verifies, for a tolerance below the largest duration,
    exactly while that second is within the tolerance of the clock, or more than 2^63 - 1 nanoseconds (292
    years) ahead of it; and a header with this signature verifies nothing but this payload with this
    timestamp, unless the signatures of two different messages collide. *)
Theorem signature_exact payload ts secret tolerance now :
  go_time ts → tolerance < max_int64 →
  let header := (SignPayload payload ts secret).1 in
  let tsStr := (SignPayload payload ts secret).2 in
  (VerifySignature payload header secret tolerance now = None ↔
   Z.abs (now - whole_second ts) <= allowed tolerance ∨ max_int64 < whole_second ts - now) ∧
  (∀ header' payload', (parse_header header').2 = (parse_header header).2 →
     (signature (parse_header header').1 payload' secret = signature tsStr payload secret →
      (parse_header header').1 +:+ "." +:+ payload' = tsStr +:+ "." +:+ payload) →
     VerifySignature payload' header' secret tolerance now = None →
     payload' = payload ∧ (parse_header header').1 = tsStr).
Proof.
  intros Hts Htol header tsStr. split; [by apply signed_verifies_always|].
  pose proof (SignPayload_header payload ts secret) as Hp. fold header tsStr in Hp.
  intros header' payload' Hsig Hcol (sec & Ha & _ & Hs)%VerifySignature_None.
  rewrite Hs, Hp in Hsig. specialize (Hcol Hsig). apply split_at_char in Hcol as [-> ->]; [done| |].
  - apply decimal_no_char; [done|by apply (Atoi_decimal _ sec)].
  - apply decimal_no_char; [done|apply pretty_Z_decimal].
Qed.

Definition ex_now : Time := unix_epoch + 1000 * second.

Lemma signature_exact_witness :
  VerifySignature "{}" (SignPayload "{}" (ex_now - 7) "key").1 "key" 0 ex_now = None.
Proof. apply (signature_exact "{}" (ex_now - 7) "key" 0 ex_now); [split; by vm_compute|by vm_compute|left; by vm_compute]. Defined.

(** A signature with a timestamp that is centuries ahead can be replayed for centuries. *)
Theorem far_future_accepted payload ts secret tolerance now :
  go_time ts → whole_second ts - now > max_int64 →
  VerifySignature payload (SignPayload payload ts secret).1 secret tolerance now = None.
Proof.
  intros Hts Hfar. apply VerifySignature_None. rewrite SignPayload_header. cbn [fst snd].
  destruct (time_Unix_Unix ts Hts) as [Hr Hu]. exists (Unix ts).
  change (SignPayload payload ts secret).2 with (pretty (Unix ts) : string). split; [by apply Atoi_pretty_int|].
  split; [|done]. rewrite Hu.
  rewrite far_distance by lia. pose proof (allowed_pos tolerance). unfold min_int64. lia.
Qed.

(** * Deliveries *)

Definition code_of (x : exchange) : Z := match x_reply x with Ok code => code | Err _ => 0 end.
Definition ok_code (c : Z) : bool := (200 <=? c) && (c <? 300).
Definition error_of (x : exchange) : string := match x_reply x with Ok _ => "" | Err e => e end.
Definition attempt_of (n : nat) (x : exchange) : DeliveryAttempt :=
  MkAttempt (Z.of_nat n + 1) (x_startTime x) (code_of x) (x_duration x) (error_of x).

Section deliveries.
Context (marshal : WebhookPayload → option string) (backoff : BackoffConfig) (sh : shuffle).

(** What a delivery does to the record when there is a request. *)
Lemma Deliver_spec x ep signer r body :
  marshal (dr_Payload r) = Some body → x_newRequest x = None →
  let n := length (dr_Attempts r) in
  let req := MkRequest (ep_URL ep) body (request_headers sh ep signer body (x_now x)) in
  let result st next completed :=
    MkDelivery (dr_ID r) (dr_EndpointID r) (dr_Payload r) st (dr_Attempts r ++ [attempt_of n x]) next (dr_CreatedAt r) completed in
  if ok_code (code_of x) then
    Deliver marshal backoff sh x ep signer r = Returns (Some req, None, result StatusSuccess None (Some (x_completed x)))
  else if ep_MaxRetries ep <=? Z.of_nat n + 1 then
    ∃ e, Deliver marshal backoff sh x ep signer r = Returns (Some req, Some e, result StatusDeadLetter None (Some (x_completed x)))
  else
    match CalculateBackoff (Z.of_nat n + 1) backoff (x_rand x) with
    | Returns delay => ∃ e,
        Deliver marshal backoff sh x ep signer r =
        Returns (Some req, Some e, result StatusRetrying (Some (time_add (x_retry x) delay)) (dr_CompletedAt r))
    | Panics => Deliver marshal backoff sh x ep signer r = Panics
    end.
Proof.
  intros Hm Hn. unfold Deliver, attempt_of, code_of, error_of, ok_code. rewrite Hm, Hn.
  destruct (x_reply x) as [code|e]; cbn [negb].
  - destruct ((200 <=? code) && (code <? 300)); [done|]. destruct (ep_MaxRetries ep <=? _); [by eexists|].
    destruct (CalculateBackoff _ _ _); [by eexists|done].
  - cbn [andb Z.leb Z.compare]. destruct (ep_MaxRetries ep <=? _); [by eexists|].
    destruct (CalculateBackoff _ _ _); [by eexists|done].
Qed.

(** what a delivery sends is signed: the signature in the header of the request verifies the body that
    is sent, whatever headers are configured, exactly while the second of the signature is within the
    tolerance. *)
Theorem deliver_signed x ep r req err r' tolerance now :
  Deliver marshal backoff sh x ep (Some SignPayload) r = Returns (Some req, err, r') →
  ep_Secret ep ≠ "" → go_time (x_now x) →
  Z.abs (now - whole_second (x_now x)) <= max_int64 →
  ∃ header, rq_Header req !! "X-Tempest-Signature" = Some header ∧
    (VerifySignature (rq_Body req) header (ep_Secret ep) tolerance now = None ↔
     Z.abs (now - whole_second (x_now x)) <= allowed tolerance).
Proof.
  intros Hd Hs Ht Hnow. destruct (marshal (dr_Payload r)) as [body|] eqn:Hm; [|unfold Deliver in Hd; by rewrite Hm in Hd].
  destruct (x_newRequest x) eqn:Hn; [unfold Deliver in Hd; by rewrite Hm, Hn in Hd|].
  assert (req = MkRequest (ep_URL ep) body (request_headers sh ep (Some SignPayload) body (x_now x))) as ->.
  { pose proof (Deliver_spec x ep (Some SignPayload) r body Hm Hn) as Hspec. cbv zeta in Hspec.
    destruct (ok_code _); [|destruct (_ <=? _); [destruct Hspec as [e Hspec]|]].
    3: destruct (CalculateBackoff _ _ _); [destruct Hspec as [e Hspec]|].
    all: rewrite Hspec in Hd; by simplify_eq. }
  exists (SignPayload body (x_now x) (ep_Secret ep)).1. split; [|by apply signed_verifies].
  unfold request_headers. cbn [rq_Header]. rewrite bool_decide_eq_false_2 by done.
  destruct (SignPayload body (x_now x) (ep_Secret ep)) as [sig ts]. unfold Header_Set.
  change (canonical_key "X-Tempest-Timestamp") with "X-Tempest-Timestamp".
  change (canonical_key "X-Tempest-Signature") with "X-Tempest-Signature".
  by rewrite lookup_insert_ne, lookup_insert_eq by done.
Qed.

(** ** Retrying until the delivery is over *)

Definition final (r : DeliveryRecord) : bool :=
  match dr_Status r with StatusSuccess | StatusDeadLetter => true | _ => false end.

Fixpoint retry (ep : EndpointConfig) (signer : option signer_fun) (xs : list exchange) (r : DeliveryRecord) :
    outcome DeliveryRecord :=
  match xs with
  | [] => Returns r
  | x :: xs' =>
      if final r then Returns r
      else match Deliver marshal backoff sh x ep signer r with
           | Returns (_, _, r') => retry ep signer xs' r'
           | Panics => Panics
           end
  end.

(** The attempts of exchanges that are numbered from [n]. *)
Definition attempts_of (n : nat) (xs : list exchange) : list DeliveryAttempt := imap (λ i x, attempt_of (n + i) x) xs.

Lemma attempts_of_cons n x xs : attempts_of n (x :: xs) = attempt_of n x :: attempts_of (S n) xs.
Proof.
  unfold attempts_of. rewrite imap_cons. f_equal; [f_equal; lia|]. apply imap_ext. intros i y _. cbn. f_equal. lia.
Qed.

Lemma retry_final ep signer xs r : final r = true → retry ep signer xs r = Returns r.
Proof. intros Hf. destruct xs; cbn [retry]; [done|]. by rewrite Hf. Qed.

(** At least one attempt is made. *)
Definition max_attempts (ep : EndpointConfig) : Z := Z.max 1 (ep_MaxRetries ep).

(** The exchanges for which a request could be made. *)
Definition requested (xs : list exchange) : list exchange := filter (λ x, x_newRequest x = None) xs.

(** A request that cannot be made leaves the delivery as it is. *)
Lemma retry_requested ep signer xs r : retry ep signer xs r = retry ep signer (requested xs) r.
Proof.
  revert r. induction xs as [|x xs IH]; intros r; [done|]. unfold requested. rewrite filter_cons. fold (requested xs).
  destruct (decide (x_newRequest x = None)) as [Hx|Hx].
  - cbn [retry]. destruct (final r); [done|]. destruct (Deliver _ _ _ _ _ _ _) as [[[? ?] r']|]; [apply IH|done].
  - cbn [retry]. destruct (final r) eqn:Hf; [by rewrite retry_final|]. unfold Deliver.
    destruct (x_newRequest x) as [e|]; [|done]. by destruct (marshal (dr_Payload r)); rewrite IH.
Qed.

(** The first [k] exchanges end the delivery, after [n] attempts before them. *)
Definition ended_by (ep : EndpointConfig) (n k : nat) (xs : list exchange) (st : DeliveryStatus) : Prop :=
  match st with
  | StatusSuccess => ∃ j x, k = S j ∧ xs !! j = Some x ∧ ok_code (code_of x) = true ∧
      Forall (λ x, ok_code (code_of x) = false) (take j xs)
  | StatusDeadLetter => Z.of_nat (n + k) = max_attempts ep ∧ Forall (λ x, ok_code (code_of x) = false) (take k xs)
  | _ => False
  end.

Lemma ended_by_cons ep n k x xs st :
  ok_code (code_of x) = false → ended_by ep (S n) k xs st → ended_by ep n (S k) (x :: xs) st.
Proof.
  intros Hx. destruct st; cbn [ended_by]; try done.
  - intros (j & y & -> & Hy & Hok & Hpre). exists (S j), y. split_and!; [done|done|done|]. by constructor.
  - intros [E Hpre]. split; [lia|]. by constructor.
Qed.

Section retrying.
Context (ep : EndpointConfig) (signer : option signer_fun).

Lemma retry_spec body xs r :
  let n := length (dr_Attempts r) in
  final r = false → marshal (dr_Payload r) = Some body → Z.of_nat n < max_attempts ep <= Z.of_nat (n + length xs) →
  Forall (λ x, x_newRequest x = None ∧ ∀ i, 0 < i < ep_MaxRetries ep → CalculateBackoff i backoff (x_rand x) ≠ Panics) xs →
  ∃ r' k, retry ep signer xs r = Returns r' ∧ dr_Attempts r' = dr_Attempts r ++ attempts_of n (take k xs) ∧
    (k <= length xs)%nat ∧ Z.of_nat (n + k) <= max_attempts ep ∧ ended_by ep n k xs (dr_Status r').
Proof.
  revert r. induction xs as [|x xs IH]; intros r n Hf Hm Hn Hxs; [cbn in Hn; lia|].
  assert (1 <= max_attempts ep ∧ ep_MaxRetries ep <= max_attempts ep ∧
    (max_attempts ep = 1 ∨ max_attempts ep = ep_MaxRetries ep)) as Hcap by (unfold max_attempts; lia).
  apply Forall_cons in Hxs as [[Hnew Hpan] Hxs]. cbn [retry]. rewrite Hf.
  pose proof (Deliver_spec x ep signer r body Hm Hnew) as Hspec. cbv zeta in Hspec. fold n in Hspec.
  destruct (ok_code (code_of x)) eqn:Ec; [|destruct (Z.leb_spec (ep_MaxRetries ep) (Z.of_nat n + 1)) as [Hle|Hgt]].
  - rewrite Hspec. eexists _, 1%nat. split; [by apply retry_final|].
    split; [cbn [take dr_Attempts]; by rewrite attempts_of_cons|]. cbn [length dr_Status ended_by].
    split; [lia|]. split; [lia|]. by exists 0%nat, x.
  - destruct Hspec as [e ->]. eexists _, 1%nat. split; [by apply retry_final|].
    split; [cbn [take dr_Attempts]; by rewrite attempts_of_cons|].
    cbn [length dr_Status ended_by]. split; [lia|]. split; [lia|]. split; [lia|]. by repeat constructor.
  - specialize (Hpan (Z.of_nat n + 1) ltac:(lia)). destruct (CalculateBackoff _ _ _) as [delay|]; [|done].
    destruct Hspec as [e ->]. set (r1 := MkDelivery _ _ _ _ _ _ _ _).
    assert (length (dr_Attempts r1) = S n) as Hl by (cbn; rewrite length_app; cbn; lia).
    destruct (IH r1) as (r' & k & Hr & Hat & Hk & Hmax & Hend); [done|done|rewrite Hl; cbn in Hn; lia|done|].
    rewrite Hl in *. exists r', (S k). split; [done|].
    split; [|cbn [length]; split_and!; [lia|lia|by apply ended_by_cons]].
    rewrite Hat. cbn [take dr_Attempts r1]. by rewrite attempts_of_cons, <- (assoc_L (++)).
Qed.

(** C16: a delivery ends.  Let a new delivery be tried again until it is over, and let the backoff not panic.
    When its payload has a JSON form, and as many requests as the limit can be made, it is over after as
    many attempts at most, where the limit is [MaxRetries], or one: it succeeds exactly with the first
    answer of the class 2xx among them, and is a dead letter after that many other answers; the attempts
    are recorded with their numbers, in order, and tries for which no request could be made leave no
    trace.  When no request can be made, or the payload has no JSON form, it stays as it is however often
    it is tried. *)
Theorem delivery_ends xs r :
  dr_Attempts r = [] → dr_Status r = StatusPending →
  Forall (λ x, ∀ i, 0 < i < ep_MaxRetries ep → CalculateBackoff i backoff (x_rand x) ≠ Panics) xs →
  match marshal (dr_Payload r) with
  | Some _ =>
      let sent := requested xs in
      (max_attempts ep <= Z.of_nat (length sent) →
       ∃ r' k, retry ep signer xs r = Returns r' ∧ dr_Attempts r' = attempts_of 0 (take k sent) ∧
         Z.of_nat k <= max_attempts ep ∧ ended_by ep 0 k sent (dr_Status r')) ∧
      (sent = [] → retry ep signer xs r = Returns r)
  | None => retry ep signer xs r = Returns r
  end.
Proof.
  intros Ha Hs Hxs. assert (final r = false) as Hf by (unfold final; by rewrite Hs).
  destruct (marshal (dr_Payload r)) as [b|] eqn:Hm.
  - cbv zeta. rewrite retry_requested. split; [intros Hn|by intros ->].
    destruct (retry_spec b (requested xs) r) as (r' & k & Hr & Hat & _ & Hmax & Hend); [done|by rewrite Hm| | |].
    + rewrite Ha. cbn [length]. unfold max_attempts in *. lia.
    + apply Forall_forall. intros x [Hx Hin]%list_elem_of_filter. rewrite Forall_forall in Hxs. split; [done|by apply Hxs].
    + rewrite Ha in *. by exists r', k.
  - clear Hxs. induction xs as [|x xs IH]; [done|]. cbn [retry]. rewrite Hf. unfold Deliver. by rewrite Hm.
Qed.
End retrying.

(** ** Dead letters *)

(** Every record is a dead letter, stored under its identifier. *)
Definition store_ok (s : gmap string DeliveryRecord) : Prop :=
  map_Forall (λ id r, dr_ID r = id ∧ dr_Status r = StatusDeadLetter) s.

(** A delivery that fails. *)
Lemma Deliver_fails x ep signer r body :
  marshal (dr_Payload r) = Some body → x_newRequest x = None → ok_code (code_of x) = false →
  (∀ i, 0 < i < ep_MaxRetries ep → CalculateBackoff i backoff (x_rand x) ≠ Panics) →
  ∃ req e r', Deliver marshal backoff sh x ep signer r = Returns (Some req, Some e, r') ∧
    dr_Status r' ≠ StatusSuccess ∧ dr_ID r' = dr_ID r ∧ dr_CreatedAt r' = dr_CreatedAt r ∧
    dr_Attempts r' = dr_Attempts r ++ [attempt_of (length (dr_Attempts r)) x].
Proof.
  intros Hm Hnew Hc Hpan. pose proof (Deliver_spec x ep signer r body Hm Hnew) as Hspec. cbv zeta in Hspec.
  rewrite Hc in Hspec. destruct (Z.leb_spec (ep_MaxRetries ep) (Z.of_nat (length (dr_Attempts r)) + 1)) as [Hle|Hgt].
  - destruct Hspec as [e ->]. by eexists _, _, _.
  - specialize (Hpan (Z.of_nat (length (dr_Attempts r)) + 1) ltac:(lia)).
    destruct (CalculateBackoff _ _ _); [|done]. destruct Hspec as [e ->]. by eexists _, _, _.
Qed.

(** A redelivery removes the record exactly when it is answered with 2xx; otherwise the record is kept with
    one attempt more.  The store stays well-formed, if other calls keep it so. *)
Theorem redelivery x others id ep s r body :
  store_ok s → store_ok (others s) → s !! id = Some r → marshal (dr_Payload r) = Some body → x_newRequest x = None →
  (∀ i, 0 < i < ep_MaxRetries ep → CalculateBackoff i backoff (x_rand x) ≠ Panics) →
  ∃ err s', Redeliver marshal backoff sh x others id ep s = Returns (err, s') ∧ store_ok s' ∧
    (∀ j, j ≠ id → s' !! j = others s !! j) ∧
    if ok_code (code_of x) then err = None ∧ s' !! id = None
    else is_Some err ∧ ∃ r', s' !! id = Some r' ∧
      dr_Attempts r' = dr_Attempts r ++ [attempt_of (length (dr_Attempts r)) x] ∧ dr_CreatedAt r' = dr_CreatedAt r.
Proof.
  intros Hok Hoth Hr Hm Hnew Hpan. unfold Redeliver. rewrite Hr. destruct (Hok id r Hr) as [Hid _].
  destruct (ok_code (code_of x)) eqn:Ec.
  - pose proof (Deliver_spec x ep (Some SignPayload) (set_status StatusPending r) body Hm Hnew) as Hspec. cbv zeta in Hspec.
    rewrite Ec in Hspec. rewrite Hspec. cbn [dr_Status]. rewrite bool_decide_eq_true_2 by done.
    eexists _, _. split; [done|]. split; [by apply map_Forall_delete|].
    split; [intros j Hj; by rewrite lookup_delete_ne|]. by rewrite lookup_delete_eq.
  - destruct (Deliver_fails x ep (Some SignPayload) (set_status StatusPending r) body Hm Hnew Ec Hpan)
      as (req & e & r' & -> & Hst & Hid' & Hcr & Hat).
    rewrite bool_decide_eq_false_2 by done. eexists _, _. split; [done|]. split.
    { apply map_Forall_insert_2; [|done]. split; [|done]. cbn. by rewrite Hid'. }
    split; [intros j Hj; by rewrite lookup_insert_ne|]. split; [by eexists|].
    eexists. by rewrite lookup_insert_eq.
Qed.
End deliveries.

(** * Examples *)

Definition ex_endpoint (retries : Z) : EndpointConfig := MkEndpoint "e" "https://x" "key" [] retries second {["x-tempest-signature" := "forged"]} true.
Definition ex_record : DeliveryRecord :=
  MkDelivery "d" "e" (MkPayload "ev" "t" "w" "r" ex_now JNull) StatusPending [] None ex_now None.
Definition ex_exchange (code : Z) : exchange := MkExchange ex_now None ex_now (Ok code) 5 ex_now (Some 0) ex_now.
Definition ex_marshal (p : WebhookPayload) : option string := Some (wp_EventID p).

Lemma deliver_signed_witness :
  ∃ req err r' header,
    Deliver ex_marshal DefaultBackoff shuffle_id (ex_exchange 200) (ex_endpoint 3) (Some SignPayload) ex_record =
    Returns (Some req, err, r') ∧
    rq_Header req !! "X-Tempest-Signature" = Some header ∧ VerifySignature (rq_Body req) header "key" 0 ex_now = None.
Proof.
  eexists _, _, _.
  destruct (deliver_signed ex_marshal DefaultBackoff shuffle_id (ex_exchange 200) (ex_endpoint 3) ex_record _ _ _ 0 ex_now
    eq_refl) as (header & Hh & Hv); [done|split; by vm_compute|by vm_compute|].
  exists header. split; [reflexivity|]. split; [exact Hh|]. apply Hv. by vm_compute.
Defined.

Definition ex_refused : exchange := MkExchange ex_now (Some "bad URL") ex_now (Ok 200) 5 ex_now (Some 0) ex_now.
Definition ex_exchanges : list exchange := [ex_exchange 500; ex_refused; ex_exchange 204].

Lemma delivery_ends_witness :
  ∃ r' k, retry ex_marshal DefaultBackoff shuffle_id (ex_endpoint 2) None ex_exchanges ex_record = Returns r' ∧
    dr_Attempts r' = attempts_of 0 (take k (requested ex_exchanges)) ∧
    Z.of_nat k <= 2 ∧ ended_by (ex_endpoint 2) 0 k (requested ex_exchanges) (dr_Status r').
Proof.
  refine (proj1 (delivery_ends ex_marshal DefaultBackoff shuffle_id (ex_endpoint 2) None ex_exchanges ex_record eq_refl eq_refl _) _).
  - assert (CalculateBackoff 1 DefaultBackoff (Some 0) ≠ Panics) as H by (by vm_compute).
    repeat constructor; intros i Hi; cbn in Hi; (assert (i = 1) as -> by lia); exact H.
  - by vm_compute.
Defined.

(** A record that is purged while it is delivered again comes back, and the backoff of an interval of one
    nanosecond panics. *)
Theorem delivery_gaps :
  (let s := Save ex_record ∅ in
   (Purge (ex_now + 1) s).2 = ∅ ∧
   ∃ e r, Redeliver ex_marshal DefaultBackoff shuffle_id (ex_exchange 500) (λ s, (Purge (ex_now + 1) s).2) "d" (ex_endpoint 1) s =
     Returns (Some e, {["d" := r]})) ∧
  CalculateBackoff 1 (MkBackoff 1 second (f64_of_Z 2) (bo_JitterFraction DefaultBackoff)) (Some 0) = Panics.
Proof.
  split; [|by vm_compute]. cbv zeta. split; [by vm_compute|].
  unfold Redeliver. change (Save ex_record ∅ !! "d") with (Some (set_status StatusDeadLetter ex_record)).
  destruct (Deliver_fails ex_marshal DefaultBackoff shuffle_id (ex_exchange 500) (ex_endpoint 1) (Some SignPayload)
    (set_status StatusPending (set_status StatusDeadLetter ex_record)) "ev") as (req & e & r & -> & Hst & _);
    [done|done|done|cbn; lia|].
  exists e, (set_status StatusDeadLetter r). rewrite bool_decide_eq_false_2 by done. do 2 f_equal.
Qed.
