(* ===== verification/Mempool.v ===== *)
(** Pools of byte buffers: [internal/mempool/mempool.go].

    A buffer is a slab of one of four sizes of which the first bytes are the data of the caller.  The slice
    [Data] is exported and has the capacity of the slab: a caller can slice it anew, write beyond its
    length, and keep it after [Release]; it is not replaced by a slice of another array.  A [sync.Pool] gives one of the slabs that were put
    into it, or a new one: the argument [choice].  The counters are atomic, and the operations are made of
    the steps that the atomic operations delimit, so that calls can be interleaved. *)
From S2P Require Import Prelude Errors.
Local Open Scope Z_scope.

Abbreviation SMemoryExhausted := (SOther "mempool: global memory limit exhausted").
Abbreviation SBufferTooLarge := (SOther "mempool: requested size exceeds maximum slab class").
Abbreviation SBufferAlreadyFreed := (SOther "mempool: buffer already released back to pool").

Definition SlabSmall : Z := 4 * 1024.
Definition SlabMedium : Z := 64 * 1024.
Definition SlabLarge : Z := 512 * 1024.
Definition SlabJumbo : Z := 4 * 1024 * 1024.

Abbreviation slab := (list Z) (only parsing).

Record Buffer := MkBuffer {
  bu_slabClass : Z;
  bu_slab : slab;
  bu_len : nat;
  bu_freed : bool
}.

Record Pool := MkPool {
  mp_maxBytes : Z;
  mp_currentBytes : Z;
  mp_pools : gmap Z (list slab);
  mp_allocs : Z;
  mp_frees : Z
}.

Definition NewPool (maxBytes : Z) : Pool := MkPool (if maxBytes <=? 0 then 64 * 1024 * 1024 else maxBytes) 0 ∅ 0 0.

Definition selectSlab (size : Z) : Z :=
  if size <=? SlabSmall then SlabSmall
  else if size <=? SlabMedium then SlabMedium
  else if size <=? SlabLarge then SlabLarge
  else if size <=? SlabJumbo then SlabJumbo
  else 0.

(** [p.currentBytes.Add(n)] *)
Definition charge (n : Z) (p : Pool) : Pool :=
  MkPool (mp_maxBytes p) (wrap_s 64 (mp_currentBytes p + n)) (mp_pools p) (mp_allocs p) (mp_frees p).

(** [Get] of the [sync.Pool] of a class, and the counter. *)
Definition take_slab (choice : nat) (class : Z) (p : Pool) : slab * Pool :=
  let pooled := default [] (mp_pools p !! class) in
  let '(raw, pooled) := match pooled !! choice with
                        | Some raw => (raw, delete choice pooled)
                        | None => (replicate (Z.to_nat class) 0, pooled)
                        end in
  (raw, MkPool (mp_maxBytes p) (mp_currentBytes p) (<[class := pooled]> (mp_pools p)) (wrap_u 64 (mp_allocs p + 1)) (mp_frees p)).

(** The state after a panic is kept: [raw[:size]] is out of range for a negative size. *)
Definition Acquire (choice : nat) (size : Z) (p : Pool) : outcome (result error Buffer) * Pool :=
  let slabSize := selectSlab size in
  if slabSize =? 0 then
    (Returns (Err (EWrap "%w: %d > %d" [pretty size; pretty SlabJumbo] (ESentinel SBufferTooLarge))), p)
  else
    let p := charge slabSize p in
    if mp_maxBytes p <? mp_currentBytes p then
      (Returns (Err (ESentinel SMemoryExhausted)), charge (- slabSize) p)
    else
      let '(raw, p) := take_slab choice slabSize p in
      if size <? 0 then (Panics, p)
      else (Returns (Ok (MkBuffer slabSize raw (Z.to_nat size) false)), p).

Definition clearBytes (n : nat) (b : slab) : slab := replicate (n `min` length b) 0 ++ drop n b.

(** [Put] into the [sync.Pool] of the class, and the counter. *)
Definition put_slab (class : Z) (raw : slab) (p : Pool) : Pool :=
  MkPool (mp_maxBytes p) (mp_currentBytes p) (<[class := default [] (mp_pools p !! class) ++ [raw]]> (mp_pools p))
    (mp_allocs p) (wrap_u 64 (mp_frees p + 1)).

Definition returnBuffer (b : Buffer) (p : Pool) : Buffer * Pool :=
  let data := clearBytes (bu_len b) (bu_slab b) in
  (MkBuffer (bu_slabClass b) data (bu_len b) (bu_freed b),
   put_slab (bu_slabClass b) data (charge (- bu_slabClass b) p)).

Definition Release (b : Buffer) (p : Pool) : option error * Buffer * Pool :=
  if bu_freed b then (Some (ESentinel SBufferAlreadyFreed), b, p)
  else
    let '(b, p) := returnBuffer (MkBuffer (bu_slabClass b) (bu_slab b) (bu_len b) true) p in
    (None, b, p).

Definition CurrentUsage (p : Pool) : Z * Z := (mp_currentBytes p, mp_maxBytes p).
Definition Stats (p : Pool) : Z * Z := (mp_allocs p, mp_frees p).

(** * Interleavings

    A call of [Acquire] has charged its slab and goes on to get it ([granted]) or to give the charge back
    ([refused]); a call of [Release] has marked its buffer ([freeing]), and then cleared it and given its
    charge back ([returning]). *)

Record sys := MkSys {
  s_pool : Pool;
  s_granted : list (Z * nat);
  s_refused : list Z;
  s_live : list Buffer;
  s_freeing : list Buffer;
  s_returning : list (Z * slab)
}.

(** Fewer calls than this are refused at the same time. *)
Definition many_calls : Z := 2 ^ 40.

(** A careful caller writes only below the length of [Data], never makes [Data] shorter, and does not write
    to it after [Release]; other callers do what the slice lets them do. *)
Inductive step (careful : bool) : sys → sys → Prop :=
  | step_charge p g r l f t size :
      selectSlab size ≠ 0 → 0 <= size → Z.of_nat (length r) < many_calls →
      let p' := charge (selectSlab size) p in
      step careful (MkSys p g r l f t)
        (if mp_maxBytes p' <? mp_currentBytes p' then MkSys p' g (selectSlab size :: r) l f t
         else MkSys p' ((selectSlab size, Z.to_nat size) :: g) r l f t)
  | step_refund p g r1 r2 class l f t :
      step careful (MkSys p g (r1 ++ class :: r2) l f t) (MkSys (charge (- class) p) g (r1 ++ r2) l f t)
  | step_get p g1 g2 class n r l f t choice raw p' :
      take_slab choice class p = (raw, p') →
      step careful (MkSys p (g1 ++ (class, n) :: g2) r l f t) (MkSys p' (g1 ++ g2) r (MkBuffer class raw n false :: l) f t)
  | step_write p g r l1 l2 class raw n f t i v :
      (i < if careful then n else length raw)%nat →
      step careful (MkSys p g r (l1 ++ MkBuffer class raw n false :: l2) f t)
        (MkSys p g r (l1 ++ MkBuffer class (<[i := v]> raw) n false :: l2) f t)
  | step_reslice p g r l1 l2 class raw n f t k :
      (k <= length raw)%nat → (careful = true → n <= k)%nat →
      step careful (MkSys p g r (l1 ++ MkBuffer class raw n false :: l2) f t)
        (MkSys p g r (l1 ++ MkBuffer class raw k false :: l2) f t)
  | step_late_freeing p g r l f1 f2 class raw n t i v :
      careful = false →
      step careful (MkSys p g r l (f1 ++ MkBuffer class raw n true :: f2) t)
        (MkSys p g r l (f1 ++ MkBuffer class (<[i := v]> raw) n true :: f2) t)
  | step_late_returning p g r l f t1 t2 class raw i v :
      careful = false →
      step careful (MkSys p g r l f (t1 ++ (class, raw) :: t2)) (MkSys p g r l f (t1 ++ (class, <[i := v]> raw) :: t2))
  | step_late_pooled p g r l f t class raws1 raws2 raw i v :
      careful = false → mp_pools p !! class = Some (raws1 ++ raw :: raws2) →
      step careful (MkSys p g r l f t)
        (MkSys (MkPool (mp_maxBytes p) (mp_currentBytes p) (<[class := raws1 ++ <[i := v]> raw :: raws2]> (mp_pools p))
                  (mp_allocs p) (mp_frees p)) g r l f t)
  | step_free p g r l1 l2 class raw n f t :
      step careful (MkSys p g r (l1 ++ MkBuffer class raw n false :: l2) f t)
        (MkSys p g r (l1 ++ l2) (MkBuffer class raw n true :: f) t)
  | step_clear p g r l f1 f2 class raw n t :
      step careful (MkSys p g r l (f1 ++ MkBuffer class raw n true :: f2) t)
        (MkSys (charge (- class) p) g r l (f1 ++ f2) ((class, clearBytes n raw) :: t))
  | step_put p g r l f t1 t2 class raw :
      step careful (MkSys p g r l f (t1 ++ (class, raw) :: t2)) (MkSys (put_slab class raw p) g r l f (t1 ++ t2)).

Definition start (maxBytes : Z) : sys := MkSys (NewPool maxBytes) [] [] [] [] [].

(** A call that is not interrupted is made of these steps. *)
Theorem Acquire_steps careful choice size p g r l f t b p' :
  Z.of_nat (length r) < many_calls → Acquire choice size p = (Returns (Ok b), p') →
  rtc (step careful) (MkSys p g r l f t) (MkSys p' g r (b :: l) f t).
Proof.
  intros Hr. unfold Acquire. destruct (Z.eqb_spec (selectSlab size) 0) as [|Hs]; [done|].
  destruct (mp_maxBytes (charge (selectSlab size) p) <? mp_currentBytes (charge (selectSlab size) p)) eqn:Em; [done|].
  destruct (take_slab choice (selectSlab size) (charge (selectSlab size) p)) as [raw p1] eqn:Et.
  destruct (Z.ltb_spec size 0) as [|Hpos]; [done|]. intros [= <- <-].
  eapply rtc_l; [by apply (step_charge careful p g r l f t size)|]. rewrite Em.
  eapply rtc_once. by apply (step_get careful _ [] g _ _ r l f t choice raw p1).
Qed.

Theorem Release_steps careful b p g r l f t b' p' :
  Release b p = (None, b', p') → rtc (step careful) (MkSys p g r (b :: l) f t) (MkSys p' g r l f t).
Proof.
  destruct b as [class raw n []]; [done|]. cbn. intros [= _ <-].
  eapply rtc_l; [apply (step_free careful p g r [] l)|]. eapply rtc_l; [apply (step_clear careful p g r l [] f)|].
  eapply rtc_once. apply (step_put careful _ g r l f [] t).
Qed.

(** * The invariant *)

Definition sum (l : list Z) : Z := foldr Z.add 0 l.

Lemma sum_app l1 l2 : sum (l1 ++ l2) = sum l1 + sum l2.
Proof. unfold sum. induction l1 as [|x l1 IH]; [done|]. cbn. rewrite IH. lia. Qed.

Lemma sum_cons x l : sum (x :: l) = x + sum l.
Proof. done. Qed.

(** The bytes of the slabs that callers have, will get or are about to return. *)
Definition in_use (s : sys) : Z :=
  sum (s_granted s).*1 + sum (bu_slabClass <$> s_live s) + sum (bu_slabClass <$> s_freeing s).

Definition class_ok (class : Z) : Prop := 0 < class <= SlabJumbo.

Section invariant.
Context (careful : bool).

(** A slab has its size and, if callers are careful, nothing but zeros in it. *)
Definition zero_slab (class : Z) (raw : slab) : Prop :=
  length raw = Z.to_nat class ∧ (careful = true → raw = replicate (Z.to_nat class) 0).

(** Outside of the data of a careful caller there are zeros. *)
Definition buffer_ok (b : Buffer) : Prop :=
  class_ok (bu_slabClass b) ∧ (bu_len b <= Z.to_nat (bu_slabClass b))%nat ∧
  length (bu_slab b) = Z.to_nat (bu_slabClass b) ∧
  (careful = true → drop (bu_len b) (bu_slab b) = replicate (Z.to_nat (bu_slabClass b) - bu_len b) 0).

Record sys_ok (maxBytes : Z) (s : sys) : Prop := {
  so_max : mp_maxBytes (s_pool s) = maxBytes;
  so_current : mp_currentBytes (s_pool s) = in_use s + sum (s_refused s);
  so_limit : in_use s <= maxBytes;
  so_refused : Z.of_nat (length (s_refused s)) <= many_calls;
  so_refused_class : Forall class_ok (s_refused s);
  so_granted : Forall (λ x, class_ok x.1 ∧ (x.2 <= Z.to_nat x.1)%nat) (s_granted s);
  so_live : Forall buffer_ok (s_live s);
  so_freeing : Forall buffer_ok (s_freeing s);
  so_returning : Forall (λ x, zero_slab x.1 x.2) (s_returning s);
  so_pools : map_Forall (λ class, Forall (zero_slab class)) (mp_pools (s_pool s))
}.

Lemma sum_classes l : Forall class_ok l → 0 <= sum l <= Z.of_nat (length l) * SlabJumbo.
Proof.
  induction 1 as [|x l [Hx1 Hx2] _ IH]; [done|]. rewrite sum_cons. cbn [length]. lia.
Qed.

Lemma selectSlab_ok size : 0 <= size → selectSlab size ≠ 0 → class_ok (selectSlab size) ∧ size <= selectSlab size.
Proof.
  unfold selectSlab, class_ok, SlabSmall, SlabMedium, SlabLarge, SlabJumbo. intros H0 Hne.
  repeat case_match; rewrite ?Z.leb_le, ?Z.leb_gt in *; lia.
Qed.

Lemma in_use_nonneg maxBytes s : sys_ok maxBytes s → 0 <= in_use s.
Proof.
  intros Hok. unfold in_use.
  assert (Forall class_ok (s_granted s).*1) as Hg.
  { apply Forall_fmap. eapply Forall_impl; [apply Hok|]. by intros x [? _]. }
  assert (∀ l, Forall buffer_ok l → Forall class_ok (bu_slabClass <$> l)) as Hb.
  { intros l Hl. apply Forall_fmap. eapply Forall_impl; [apply Hl|]. by intros x [? _]. }
  apply sum_classes in Hg as [Hg _]. destruct (sum_classes _ (Hb _ (so_live _ _ Hok))) as [Hl _].
  destruct (sum_classes _ (Hb _ (so_freeing _ _ Hok))) as [Hf _]. lia.
Qed.

(** The counter is far from its limits. *)
Lemma current_bounds maxBytes s :
  0 < maxBytes <= 2 ^ 61 → sys_ok maxBytes s → 0 <= mp_currentBytes (s_pool s) <= maxBytes + 2 ^ 62.
Proof.
  intros Hmax Hok. rewrite (so_current _ _ Hok). pose proof (in_use_nonneg _ _ Hok). pose proof (so_limit _ _ Hok).
  pose proof (so_refused _ _ Hok). destruct (sum_classes _ (so_refused_class _ _ Hok)). unfold many_calls, SlabJumbo in *. lia.
Qed.

Lemma charge_current maxBytes s n :
  0 < maxBytes <= 2 ^ 61 → sys_ok maxBytes s → - SlabJumbo <= n <= SlabJumbo →
  mp_currentBytes (charge n (s_pool s)) = mp_currentBytes (s_pool s) + n.
Proof.
  intros Hmax Hok Hn. pose proof (current_bounds _ _ Hmax Hok). cbn. unfold SlabJumbo in *. apply wrap_s_small; lia.
Qed.

(** What is in the pools does not depend on the counter. *)
Lemma take_slab_zero choice class p raw p' :
  map_Forall (λ class, Forall (zero_slab class)) (mp_pools p) → take_slab choice class p = (raw, p') →
  zero_slab class raw ∧ map_Forall (λ class, Forall (zero_slab class)) (mp_pools p') ∧
  mp_currentBytes p' = mp_currentBytes p ∧ mp_maxBytes p' = mp_maxBytes p.
Proof.
  intros Hp. unfold take_slab.
  assert (Forall (zero_slab class) (default [] (mp_pools p !! class))) as Hz.
  { destruct (mp_pools p !! class) eqn:E; [by apply (Hp class)|done]. }
  destruct (default [] (mp_pools p !! class) !! choice) as [raw0|] eqn:E; intros [= <- <-]; cbn.
  - split; [by apply (Forall_lookup_1 _ _ _ _ Hz E)|]. split; [|done].
    apply map_Forall_insert_2; [by apply Forall_delete|done].
  - split; [split; [apply length_replicate|done]|]. split; [|done]. by apply map_Forall_insert_2.
Qed.

Lemma clearBytes_zero b : buffer_ok b → zero_slab (bu_slabClass b) (clearBytes (bu_len b) (bu_slab b)).
Proof.
  intros (_ & Hlen & Hl & Hd). unfold clearBytes. split.
  - rewrite length_app, length_replicate, length_drop. lia.
  - intros Hc. rewrite (Hd Hc), <- replicate_add. f_equal. lia.
Qed.

Lemma buffer_ok_zero class raw n :
  class_ok class → (n <= Z.to_nat class)%nat → zero_slab class raw → buffer_ok (MkBuffer class raw n false).
Proof.
  intros Hc Hn [Hl Hz]. split_and!; cbn; [done|done|done|]. intros Hcare. by rewrite (Hz Hcare), drop_replicate.
Qed.

(** A late write, by a caller that is not careful. *)
Lemma zero_slab_late class raw i v : careful = false → zero_slab class raw → zero_slab class (<[i := v]> raw).
Proof. intros Hc [Hl _]. split; [by rewrite length_insert|congruence]. Qed.

Lemma buffer_ok_late class raw n b i v :
  careful = false → buffer_ok (MkBuffer class raw n b) → buffer_ok (MkBuffer class (<[i := v]> raw) n b).
Proof. intros Hc (? & ? & ? & _). split_and!; cbn in *; [done|done|by rewrite length_insert|congruence]. Qed.

Ltac use_sums := unfold in_use in *; cbn [s_pool s_granted s_refused s_live s_freeing s_returning] in *;
  rewrite ?fmap_app, ?fmap_cons, ?sum_app, ?sum_cons, ?fmap_app, ?fmap_cons in *; cbn [bu_slabClass fst] in *.
Ltac split_foralls := repeat match goal with
  | H : Forall _ (_ ++ _ :: _) |- _ => apply Forall_app in H as [? ?]
  | H : Forall _ (_ :: _) |- _ => apply Forall_cons in H as [? ?]
  end.

Section steps.
Context (maxBytes : Z) (Hmax : 0 < maxBytes <= 2 ^ 61).

Lemma charge_ok p g r l f t size :
  selectSlab size ≠ 0 → 0 <= size → Z.of_nat (length r) < many_calls → sys_ok maxBytes (MkSys p g r l f t) →
  let p' := charge (selectSlab size) p in
  sys_ok maxBytes (if mp_maxBytes p' <? mp_currentBytes p' then MkSys p' g (selectSlab size :: r) l f t
                   else MkSys p' ((selectSlab size, Z.to_nat size) :: g) r l f t).
Proof.
  intros Hs H0 Hr Hok p'. destruct (selectSlab_ok size H0 Hs) as [Hcl Hsz]. pose proof Hcl as [Hc1 Hc2].
  pose proof (charge_current maxBytes _ (selectSlab size) Hmax Hok ltac:(lia)) as Hcur. cbn [s_pool] in Hcur. fold p' in Hcur.
  destruct Hok as [Hm Hc Hlim Href Hrefc Hg Hl Hf Hret Hp]. use_sums. pose proof (sum_classes _ Hrefc) as [? _].
  change (mp_maxBytes p') with (mp_maxBytes p).
  destruct (Z.ltb_spec (mp_maxBytes p) (mp_currentBytes p')) as [Hover|Hfit]; constructor; use_sums; try done; try lia.
  - cbn [length]. lia.
  - by constructor.
  - constructor; [|done]. cbn. split; [done|lia].
Qed.

(** A charge that is given back. *)
Lemma uncharge_current s class :
  sys_ok maxBytes s → class_ok class → mp_currentBytes (charge (- class) (s_pool s)) = mp_currentBytes (s_pool s) - class.
Proof. intros Hok [Hc1 Hc2]. rewrite (charge_current maxBytes) by (done || lia). lia. Qed.

Lemma refund_ok p g r1 r2 class l f t :
  sys_ok maxBytes (MkSys p g (r1 ++ class :: r2) l f t) → sys_ok maxBytes (MkSys (charge (- class) p) g (r1 ++ r2) l f t).
Proof.
  intros Hok. pose proof (so_refused_class _ _ Hok) as Hrc. cbn in Hrc. split_foralls.
  pose proof (uncharge_current _ class Hok ltac:(done)) as Hcur. cbn [s_pool] in Hcur.
  destruct Hok as [Hm Hc Hlim Href Hrefc Hg Hl Hf Hret Hp]. use_sums.
  constructor; use_sums; try done; try lia; [rewrite length_app in *; cbn in Href; lia|by apply Forall_app].
Qed.

Lemma get_ok p g1 g2 class n r l f t choice raw p' :
  take_slab choice class p = (raw, p') → sys_ok maxBytes (MkSys p (g1 ++ (class, n) :: g2) r l f t) →
  sys_ok maxBytes (MkSys p' (g1 ++ g2) r (MkBuffer class raw n false :: l) f t).
Proof.
  intros Ht [Hm Hc Hlim Href Hrefc Hg Hl Hf Hret Hp]. cbn [s_pool s_granted] in *. split_foralls.
  destruct (take_slab_zero _ _ _ _ _ Hp Ht) as (Hz & Hp' & Hcur & Hmx). use_sums.
  constructor; use_sums; try done; try lia; [by apply Forall_app|].
  constructor; [|done]. match goal with H : class_ok _ ∧ _ |- _ => destruct H end. by apply buffer_ok_zero.
Qed.

Lemma write_buffer_ok p g r l1 l2 class raw n f t i v :
  (i < if careful then n else length raw)%nat → sys_ok maxBytes (MkSys p g r (l1 ++ MkBuffer class raw n false :: l2) f t) →
  sys_ok maxBytes (MkSys p g r (l1 ++ MkBuffer class (<[i := v]> raw) n false :: l2) f t).
Proof.
  intros Hi [Hm Hc Hlim Href Hrefc Hg Hl Hf Hret Hp]. cbn [s_live] in *. split_foralls. use_sums.
  constructor; use_sums; try done; try lia. apply Forall_app. split; [done|]. constructor; [|done].
  match goal with H : buffer_ok _ |- _ => destruct H as (? & ? & Hlen & Hd) end. cbn in *.
  split_and!; cbn; [done|done|by rewrite length_insert|]. intros Hcare. rewrite Hcare in Hi. rewrite drop_insert_lt by done. by apply Hd.
Qed.

Lemma reslice_ok p g r l1 l2 class raw n f t k :
  (k <= length raw)%nat → (careful = true → n <= k)%nat →
  sys_ok maxBytes (MkSys p g r (l1 ++ MkBuffer class raw n false :: l2) f t) →
  sys_ok maxBytes (MkSys p g r (l1 ++ MkBuffer class raw k false :: l2) f t).
Proof.
  intros Hk Hnk [Hm Hc Hlim Href Hrefc Hg Hl Hf Hret Hp]. cbn [s_live] in *. split_foralls. use_sums.
  constructor; use_sums; try done; try lia. apply Forall_app. split; [done|]. constructor; [|done].
  match goal with H : buffer_ok _ |- _ => destruct H as (? & ? & Hlen & Hd) end. cbn in *.
  split_and!; cbn; [done|lia|done|]. intros Hcare. specialize (Hd Hcare). specialize (Hnk Hcare).
  replace k with (n + (k - n))%nat at 1 by lia. rewrite <- drop_drop, Hd, drop_replicate. f_equal. lia.
Qed.

Lemma late_freeing_ok p g r l f1 f2 class raw n t i v :
  careful = false → sys_ok maxBytes (MkSys p g r l (f1 ++ MkBuffer class raw n true :: f2) t) →
  sys_ok maxBytes (MkSys p g r l (f1 ++ MkBuffer class (<[i := v]> raw) n true :: f2) t).
Proof.
  intros Hcare [Hm Hc Hlim Href Hrefc Hg Hl Hf Hret Hp]. cbn [s_freeing] in *. split_foralls. use_sums.
  constructor; use_sums; try done; try lia. apply Forall_app. split; [done|]. constructor; [by apply buffer_ok_late|done].
Qed.

Lemma late_returning_ok p g r l f t1 t2 class raw i v :
  careful = false → sys_ok maxBytes (MkSys p g r l f (t1 ++ (class, raw) :: t2)) →
  sys_ok maxBytes (MkSys p g r l f (t1 ++ (class, <[i := v]> raw) :: t2)).
Proof.
  intros Hcare [Hm Hc Hlim Href Hrefc Hg Hl Hf Hret Hp]. cbn [s_returning] in *. split_foralls. use_sums.
  constructor; use_sums; try done; try lia. apply Forall_app. split; [done|]. constructor; [by apply zero_slab_late|done].
Qed.

Lemma late_pooled_ok p g r l f t class raws1 raws2 raw i v :
  careful = false → mp_pools p !! class = Some (raws1 ++ raw :: raws2) → sys_ok maxBytes (MkSys p g r l f t) →
  sys_ok maxBytes (MkSys (MkPool (mp_maxBytes p) (mp_currentBytes p) (<[class := raws1 ++ <[i := v]> raw :: raws2]> (mp_pools p))
                            (mp_allocs p) (mp_frees p)) g r l f t).
Proof.
  intros Hcare Hl0 [Hm Hc Hlim Href Hrefc Hg Hl Hf Hret Hp]. cbn [s_pool] in *.
  pose proof (Hp class _ Hl0) as Hz. cbn in Hz. split_foralls. use_sums.
  constructor; use_sums; try done; try lia. cbn. apply map_Forall_insert_2; [|done].
  apply Forall_app. split; [done|]. constructor; [by apply zero_slab_late|done].
Qed.

Lemma free_ok p g r l1 l2 class raw n f t :
  sys_ok maxBytes (MkSys p g r (l1 ++ MkBuffer class raw n false :: l2) f t) →
  sys_ok maxBytes (MkSys p g r (l1 ++ l2) (MkBuffer class raw n true :: f) t).
Proof.
  intros [Hm Hc Hlim Href Hrefc Hg Hl Hf Hret Hp]. cbn [s_live] in *. split_foralls. use_sums.
  constructor; use_sums; try done; try lia; [by apply Forall_app|by constructor].
Qed.

Lemma clear_ok p g r l f1 f2 class raw n t :
  sys_ok maxBytes (MkSys p g r l (f1 ++ MkBuffer class raw n true :: f2) t) →
  sys_ok maxBytes (MkSys (charge (- class) p) g r l (f1 ++ f2) ((class, clearBytes n raw) :: t)).
Proof.
  intros Hok. pose proof (so_freeing _ _ Hok) as Hfr. cbn in Hfr. split_foralls.
  match goal with H : buffer_ok _ |- _ => pose proof H as [Hcl _]; pose proof (clearBytes_zero _ H) as Hz end.
  pose proof (uncharge_current _ class Hok Hcl) as Hcur. cbn [s_pool] in Hcur.
  destruct Hok as [Hm Hc Hlim Href Hrefc Hg Hl Hf Hret Hp]. use_sums. destruct Hcl as [Hc1 Hc2]. cbn in Hc1.
  constructor; use_sums; try done; try lia; [by apply Forall_app|by constructor].
Qed.

Lemma put_ok p g r l f t1 t2 class raw :
  sys_ok maxBytes (MkSys p g r l f (t1 ++ (class, raw) :: t2)) → sys_ok maxBytes (MkSys (put_slab class raw p) g r l f (t1 ++ t2)).
Proof.
  intros [Hm Hc Hlim Href Hrefc Hg Hl Hf Hret Hp]. cbn [s_returning] in *. split_foralls. use_sums.
  constructor; use_sums; try done; try lia; [by apply Forall_app|].
  cbn. apply map_Forall_insert_2; [|done]. apply Forall_app. split; [|by apply Forall_singleton].
  destruct (mp_pools p !! class) eqn:E; [by apply (Hp class)|done].
Qed.

Lemma mem_step_ok s s' : sys_ok maxBytes s → step careful s s' → sys_ok maxBytes s'.
Proof.
  intros Hok Hstep. destruct Hstep; [by apply charge_ok|by apply refund_ok|by eapply get_ok|by apply write_buffer_ok
    |by eapply reslice_ok|by apply late_freeing_ok|by apply late_returning_ok|by eapply late_pooled_ok
    |by apply free_ok|by apply clear_ok|by apply put_ok].
Qed.

Lemma start_ok : sys_ok maxBytes (start maxBytes).
Proof.
  constructor; unfold in_use, many_calls; cbn; try done; try lia. destruct (Z.leb_spec maxBytes 0); [lia|done].
Qed.

(** C18: the memory pool keeps its budget and its secrets.  Let the limit be positive and at most 2^61, and
    let there be fewer than 2^40 refused calls at any time.  In every interleaving of any number of calls
    with sizes that are not negative, whatever callers do with the data of their buffers, the slabs that
    callers hold, will get or are about to return never exceed the limit together, and the counter is
    their sum and what refused calls have yet to give back.  If callers write only below the length of
    [Data], never make it shorter and do not write to it after [Release], a slab that is handed out has
    nothing but zeros in it. *)
Theorem mempool_safe s :
  rtc (step careful) (start maxBytes) s →
  in_use s <= maxBytes ∧ mp_currentBytes (s_pool s) = in_use s + sum (s_refused s) ∧
  (careful = true → ∀ choice class, (take_slab choice class (s_pool s)).1 = replicate (Z.to_nat class) 0).
Proof.
  intros Hr. assert (sys_ok maxBytes s) as Hok.
  { revert Hr. apply (rtc_ind_r (λ s, sys_ok maxBytes s)); [apply start_ok|]. intros y z _ Hstep Hy. by apply (mem_step_ok y). }
  split; [apply Hok|]. split; [apply Hok|]. intros Hcare choice class.
  destruct (take_slab choice class (s_pool s)) as [raw p'] eqn:Et.
  destruct (take_slab_zero _ _ _ _ _ (so_pools _ _ Hok) Et) as ([_ Hz] & _). by apply Hz.
Qed.
End steps.
End invariant.

Lemma mempool_safe_witness :
  ∃ s, s_live s ≠ [] ∧ in_use s <= 8192 ∧ mp_currentBytes (s_pool s) = in_use s + sum (s_refused s) ∧
    (true = true → ∀ choice class, (take_slab choice class (s_pool s)).1 = replicate (Z.to_nat class) 0).
Proof.
  exists (MkSys (Acquire 0 10 (NewPool 8192)).2 [] [] [MkBuffer 4096 (replicate (Z.to_nat 4096) 0) 10 false] [] []).
  split; [done|]. apply (mempool_safe true 8192); [lia|].
  apply (Acquire_steps true 0 10 (NewPool 8192) [] [] [] [] []); [done|reflexivity].
Defined.

(** What a caller wrote comes to the next one when [Data] is made shorter before it is released: only the
    bytes below its length are cleared. *)
Theorem resliced_data_leaks :
  ∃ s, rtc (step false) (start 8192) s ∧ (take_slab 0 SlabSmall (s_pool s)).1 !! 0%nat = Some 7.
Proof.
  set (zeros := replicate (Z.to_nat SlabSmall) 0).
  assert (0 < length zeros)%nat as Hlen by (unfold zeros; rewrite length_replicate; unfold SlabSmall; lia).
  assert (Acquire 0 4 (NewPool 8192) = (Returns (Ok (MkBuffer SlabSmall zeros 4 false)), (Acquire 0 4 (NewPool 8192)).2)) as Ha by done.
  set (p := (Acquire 0 4 (NewPool 8192)).2) in *.
  set (b := MkBuffer SlabSmall (<[0%nat := 7]> zeros) 0 false).
  exists (MkSys (Release b p).2 [] [] [] [] []). split.
  - etrans; [exact (Acquire_steps false 0 4 (NewPool 8192) [] [] [] [] [] _ p eq_refl Ha)|].
    eapply rtc_l; [apply (step_write false p [] [] [] [] SlabSmall zeros 4 [] [] 0 7); exact Hlen|].
    eapply rtc_l; [apply (step_reslice false p [] [] [] [] SlabSmall (<[0%nat := 7]> zeros) 4 [] [] 0); [lia|done]|].
    by apply (Release_steps false b p [] [] [] [] [] (Release b p).1.2).
  - assert (mp_pools p !! SlabSmall = Some []) as Hp by done. clearbody p.
    unfold b, Release, returnBuffer, put_slab, charge, take_slab. cbn -[zeros SlabSmall].
    rewrite Hp. cbn -[zeros SlabSmall]. rewrite lookup_insert_eq. cbn -[zeros SlabSmall].
    by rewrite drop_0, list_lookup_insert_eq.
Qed.

(** A negative size panics after the slab is charged, and the charge is never given back. *)
Theorem negative_size_leaks : (Acquire 0 (-1) (NewPool 8192)).1 = Panics ∧ mp_currentBytes (Acquire 0 (-1) (NewPool 8192)).2 = 4096.
Proof. by vm_compute. Qed.
