(* ===== verification/Outbox.v ===== *)
(** The outbox: [internal/outbox/outbox.go].

    Messages are shared by pointer: the store maps identifiers to objects of a heap, and the processor
    changes the objects it was given in place before it stores them again.  Handlers are functions that do
    not change the message; the clock is read for each message that is listed, and after each handler that fails. *)
From S2P Require Import Prelude Errors.
Local Open Scope Z_scope.

Inductive Status := StatusPending | StatusSent | StatusFailed.
#[export] Instance Status_eq_dec : EqDecision Status.
Proof. solve_decision. Defined.

Record Message := MkMessage {
  m_ID : string;
  m_Type : string;
  m_Payload : string;
  m_Headers : gmap string string;
  m_CreatedAt : Time;
  m_RetryCount : Z;
  m_NextRetry : Time;
  m_Status : Status
}.

Abbreviation ptr := nat (only parsing).

Record MemoryStore := MkStore {
  ms_heap : gmap ptr Message;
  ms_messages : gmap string ptr
}.

Definition NewMemoryStore (h : gmap ptr Message) : MemoryStore := MkStore h ∅.

(** The fields of the object at a pointer, and an assignment to them. *)
Definition store_object (p : ptr) (m : Message) (ms : MemoryStore) : MemoryStore :=
  MkStore (<[p := m]> (ms_heap ms)) (ms_messages ms).

Definition Save (p : ptr) (ms : MemoryStore) : MemoryStore :=
  match ms_heap ms !! p with
  | Some m => MkStore (ms_heap ms) (<[m_ID m := p]> (ms_messages ms))
  | None => ms
  end.

Definition Get (id : string) (ms : MemoryStore) : result error ptr :=
  match ms_messages ms !! id with
  | Some p => Ok p
  | None => Err (EFmt "not found: %s" [id])
  end.

Definition due (now : Time) (m : Message) : bool :=
  bool_decide (m_Status m = StatusPending) && (time_is_zero (m_NextRetry m) || time_after now (m_NextRetry m)).

(** The loop ends when the limit is reached after a message is added. *)
Fixpoint list_pending (now : ptr → Time) (limit : Z) (ms : MemoryStore) (ps : list ptr) (pending : list ptr) : list ptr :=
  match ps with
  | [] => pending
  | p :: ps' =>
      match ms_heap ms !! p with
      | Some m =>
          if due (now p) m then
            let pending := pending ++ [p] in
            if limit <=? Z.of_nat (length pending) then pending else list_pending now limit ms ps' pending
          else list_pending now limit ms ps' pending
      | None => list_pending now limit ms ps' pending
      end
  end.

Definition ListPending (sh : shuffle) (now : ptr → Time) (limit : Z) (ms : MemoryStore) : list ptr :=
  list_pending now limit ms (range_values sh (ms_messages ms)) [].

Definition Update (p : ptr) (ms : MemoryStore) : MemoryStore := Save p ms.
Definition Delete (id : string) (ms : MemoryStore) : MemoryStore :=
  MkStore (ms_heap ms) (delete id (ms_messages ms)).

(** * The processor *)

Abbreviation handlers := (gmap string (Message → option error)) (only parsing).

(** What the processor does with a message: no handler, or the answer of the handler. *)
Inductive event := Unhandled | Called (err : option error).

Definition retried (m : Message) (now : Time) : Message :=
  let n := wrap_s 64 (m_RetryCount m + 1) in
  if 5 <=? n then MkMessage (m_ID m) (m_Type m) (m_Payload m) (m_Headers m) (m_CreatedAt m) n (m_NextRetry m) StatusFailed
  else MkMessage (m_ID m) (m_Type m) (m_Payload m) (m_Headers m) (m_CreatedAt m) n (time_add now (wrap_s 64 (n * n * second))) StatusPending.

Definition sent (m : Message) : Message :=
  MkMessage (m_ID m) (m_Type m) (m_Payload m) (m_Headers m) (m_CreatedAt m) (m_RetryCount m) (m_NextRetry m) StatusSent.

Definition unhandled (m : Message) : Message :=
  MkMessage (m_ID m) (m_Type m) (m_Payload m) (m_Headers m) (m_CreatedAt m) (wrap_s 64 (m_RetryCount m + 1)) (m_NextRetry m) StatusFailed.

(** One message of the list. *)
Definition process (hs : handlers) (later : ptr → Time) (st : list (ptr * event) * MemoryStore) (p : ptr) :
    list (ptr * event) * MemoryStore :=
  let '(trace, ms) := st in
  match ms_heap ms !! p with
  | None => st
  | Some m =>
      match hs !! m_Type m with
      | None => (trace ++ [(p, Unhandled)], Update p (store_object p (unhandled m) ms))
      | Some handler =>
          match handler m with
          | Some err => (trace ++ [(p, Called (Some err))], Update p (store_object p (retried m (later p)) ms))
          | None => (trace ++ [(p, Called None)], Update p (store_object p (sent m) ms))
          end
      end
  end.

Definition processPending (sh : shuffle) (now : ptr → Time) (hs : handlers) (later : ptr → Time) (ms : MemoryStore) :
    list (ptr * event) * MemoryStore :=
  foldl (process hs later) ([], ms) (ListPending sh now 100 ms).

(** * Histories

    New messages are saved, and the processor makes rounds. *)

Inductive op :=
  | OpSave (p : ptr) (m : Message)
  | OpRound (sh : shuffle) (now : ptr → Time) (hs : handlers) (later : ptr → Time).

Definition apply_op (st : list (ptr * event) * MemoryStore) (o : op) : list (ptr * event) * MemoryStore :=
  match o with
  | OpSave p m => (st.1, Save p (store_object p m st.2))
  | OpRound sh now hs later =>
      let '(trace, ms) := processPending sh now hs later st.2 in (st.1 ++ trace, ms)
  end.

(** A message that is saved is a new object with a new identifier. *)
Definition fresh (st : list (ptr * event) * MemoryStore) (o : op) : Prop :=
  match o with
  | OpSave p m =>
      ms_heap st.2 !! p = None ∧ ms_messages st.2 !! m_ID m = None ∧
      m_Status m = StatusPending ∧ m_RetryCount m = 0 ∧ m_NextRetry m = time_zero
  | OpRound _ _ _ _ => True
  end.

Inductive history : list (ptr * event) * MemoryStore → Prop :=
  | history_start : history ([], NewMemoryStore ∅)
  | history_op st o : history st → fresh st o → history (apply_op st o).

(** * Theorems *)

(** ** Lists of due messages *)

Definition due_at (now : ptr → Time) (ms : MemoryStore) (p : ptr) : bool :=
  match ms_heap ms !! p with Some m => due (now p) m | None => false end.

Lemma list_pending_spec now limit ms ps pending :
  Z.of_nat (length pending) < limit →
  list_pending now limit ms ps pending =
  pending ++ take (Z.to_nat limit - length pending) (List.filter (due_at now ms) ps).
Proof.
  revert pending. induction ps as [|p ps IH]; intros pending Hl; cbn [list_pending List.filter].
  { by rewrite take_nil, app_nil_r. }
  unfold due_at at 1. destruct (ms_heap ms !! p) as [m|]; [|by apply IH].
  destruct (due (now p) m); [|by apply IH].
  destruct (Z.to_nat limit - length pending)%nat as [|k] eqn:Ek; [lia|]. cbn [take].
  destruct (Z.leb_spec limit (Z.of_nat (length (pending ++ [p])))) as [Hle|Hgt]; rewrite length_app in *; cbn [length] in *.
  - assert (k = 0%nat) as -> by lia. done.
  - rewrite IH by (rewrite length_app; cbn; lia). rewrite <- (assoc_L (++)), length_app. cbn [length app].
    by replace (Z.to_nat limit - (length pending + 1))%nat with k by lia.
Qed.

Lemma ListPending_spec sh now ms :
  ListPending sh now 100 ms = take 100 (List.filter (due_at now ms) (range_values sh (ms_messages ms))).
Proof. unfold ListPending. by rewrite list_pending_spec. Qed.

(** ** What the events of a message say about it *)

Definition events_of (p : ptr) (trace : list (ptr * event)) : list event :=
  (filter (λ x, x.1 = p) trace).*2.

Lemma events_of_app p t1 t2 : events_of p (t1 ++ t2) = events_of p t1 ++ events_of p t2.
Proof. unfold events_of. by rewrite filter_app, fmap_app. Qed.

Lemma events_of_one p q e : events_of p [(q, e)] = if decide (q = p) then [e] else [].
Proof. unfold events_of. rewrite filter_cons, filter_nil. cbn [fst]. by case_decide. Qed.

Definition failures (errs : list error) : list event := (λ e, Called (Some e)) <$> errs.

(** Some failures, five at most, and then nothing, a success or a missing handler. *)
Definition told (evs : list event) (m : Message) : Prop :=
  ∃ errs, (length errs <= 5)%nat ∧
    ((evs = failures errs ∧ m_RetryCount m = Z.of_nat (length errs) ∧
      m_Status m = if decide (length errs = 5%nat) then StatusFailed else StatusPending) ∨
     ((length errs < 5)%nat ∧ evs = failures errs ++ [Called None] ∧
      m_RetryCount m = Z.of_nat (length errs) ∧ m_Status m = StatusSent) ∨
     ((length errs < 5)%nat ∧ evs = failures errs ++ [Unhandled] ∧
      m_RetryCount m = Z.of_nat (length errs) + 1 ∧ m_Status m = StatusFailed)).

Lemma told_pending evs m :
  told evs m → m_Status m = StatusPending →
  ∃ errs, (length errs < 5)%nat ∧ evs = failures errs ∧ m_RetryCount m = Z.of_nat (length errs).
Proof.
  intros (errs & Hl & [(-> & Hc & Hs)|[(_ & _ & _ & Hs)|(_ & _ & _ & Hs)]]) Hp; [|congruence..].
  exists errs. rewrite Hs in Hp. case_decide; [done|]. split; [lia|done].
Qed.

Lemma told_retried evs m e now :
  told evs m → m_Status m = StatusPending → told (evs ++ [Called (Some e)]) (retried m now).
Proof.
  intros Ht Hp. destruct (told_pending _ _ Ht Hp) as (errs & Hl & -> & Hc). unfold retried. rewrite Hc, wrap_s_small by lia.
  exists (errs ++ [e]). rewrite length_app. cbn [length]. split; [lia|]. left. unfold failures. rewrite fmap_app.
  destruct (Z.leb_spec 5 (Z.of_nat (length errs) + 1)); cbn; (split_and!; [done|lia|case_decide; done || lia]).
Qed.

Lemma told_sent evs m : told evs m → m_Status m = StatusPending → told (evs ++ [Called None]) (sent m).
Proof.
  intros Ht Hp. destruct (told_pending _ _ Ht Hp) as (errs & Hl & -> & Hc). exists errs. split; [lia|]. right. left. done.
Qed.

Lemma told_unhandled evs m : told evs m → m_Status m = StatusPending → told (evs ++ [Unhandled]) (unhandled m).
Proof.
  intros Ht Hp. destruct (told_pending _ _ Ht Hp) as (errs & Hl & -> & Hc). exists errs. split; [lia|]. right. right.
  cbn. by rewrite Hc, wrap_s_small by lia.
Qed.

(** ** Rounds *)

Record outbox_ok (st : list (ptr * event) * MemoryStore) : Prop := {
  ob_stored : ∀ id p, ms_messages st.2 !! id = Some p →
    ∃ m, ms_heap st.2 !! p = Some m ∧ m_ID m = id ∧ told (events_of p st.1) m;
  ob_new : ∀ p, ms_heap st.2 !! p = None → events_of p st.1 = []
}.

(** The message at a pointer, stored under its identifier. *)
Definition stored (ms : MemoryStore) (p : ptr) (m : Message) : Prop :=
  ms_heap ms !! p = Some m ∧ ms_messages ms !! m_ID m = Some p.

(** A message is processed by one event that fits its change. *)
Lemma process_one hs later trace ms p m :
  stored ms p m →
  ∃ e m', process hs later (trace, ms) p = (trace ++ [(p, e)], MkStore (<[p := m']> (ms_heap ms)) (ms_messages ms)) ∧
    m_ID m' = m_ID m ∧ (∀ evs, told evs m → m_Status m = StatusPending → told (evs ++ [e]) m').
Proof.
  intros [Hh Hm]. unfold process. rewrite Hh.
  assert (∀ m', m_ID m' = m_ID m →
    Update p (store_object p m' ms) = MkStore (<[p := m']> (ms_heap ms)) (ms_messages ms)) as Hup.
  { intros m' Hid. unfold Update, Save, store_object. cbn. rewrite lookup_insert_eq, Hid. f_equal. by apply insert_id. }
  destruct (hs !! m_Type m) as [handler|]; [destruct (handler m) as [err|]|].
  - exists (Called (Some err)), (retried m (later p)). rewrite Hup by (unfold retried; by case_match).
    split; [done|]. split; [unfold retried; by case_match|]. intros evs. apply told_retried.
  - exists (Called None), (sent m). rewrite Hup by done. split; [done|]. split; [done|]. intros evs. apply told_sent.
  - exists Unhandled, (unhandled m). rewrite Hup by done. split; [done|]. split; [done|]. intros evs. apply told_unhandled.
Qed.

Lemma process_ok hs later st p m :
  outbox_ok st → stored st.2 p m → m_Status m = StatusPending →
  outbox_ok (process hs later st p) ∧
  (∀ q m', q ≠ p → stored st.2 q m' → stored (process hs later st p).2 q m') ∧
  (∃ e, (process hs later st p).1 = st.1 ++ [(p, e)]).
Proof.
  destruct st as [trace ms]. intros [Hst Hnew] Hp Hpend. cbn [fst snd] in *.
  destruct (process_one hs later trace ms p m Hp) as (e & m' & -> & Hid & Ht). cbn [fst snd]. destruct Hp as [Hh Hm].
  split; [|split; [|by exists e]].
  - constructor; cbn [fst snd].
    + intros id q Hq. cbn in Hq. destruct (Hst id q Hq) as (mq & Hhq & Hidq & Htq). rewrite events_of_app, events_of_one.
      destruct (decide (p = q)) as [<-|Hne].
      * exists m'. cbn. rewrite lookup_insert_eq. assert (mq = m) as -> by congruence. split; [done|]. split; [congruence|].
        by apply Ht.
      * exists mq. cbn. by rewrite lookup_insert_ne, app_nil_r by done.
    + intros q Hq. cbn in Hq. apply lookup_insert_None in Hq as [Hq Hne]. rewrite events_of_app, events_of_one, (Hnew q Hq).
      by rewrite decide_False.
  - intros q mq Hne [Hhq Hmq]. split; [|done]. cbn. by rewrite lookup_insert_ne.
Qed.

Lemma rounds_ok hs later ps st :
  outbox_ok st → NoDup ps → (∀ p, p ∈ ps → ∃ m, stored st.2 p m ∧ m_Status m = StatusPending) →
  outbox_ok (foldl (process hs later) st ps) ∧
  ∃ trace, (foldl (process hs later) st ps).1 = st.1 ++ trace ∧ trace.*1 = ps.
Proof.
  revert st. induction ps as [|p ps IH]; intros st Hok Hnd Hps; cbn [foldl].
  { split; [done|]. exists []. by rewrite app_nil_r. }
  apply NoDup_cons in Hnd as [Hp Hnd]. destruct (Hps p ltac:(by left)) as (m & Hm & Hpend).
  destruct (process_ok hs later st p m Hok Hm Hpend) as (Hok' & Hother & e & He).
  destruct (IH (process hs later st p) Hok' Hnd) as [Hok'' (trace & Ht & Htp)].
  { intros q Hq. destruct (Hps q ltac:(by right)) as (mq & Hmq & Hpq). exists mq. split; [|done].
    apply Hother; [|done]. by intros ->. }
  split; [done|]. exists ((p, e) :: trace). rewrite Ht, He, <- (assoc_L (++)). cbn. by rewrite Htp.
Qed.

Lemma NoDup_stored sh st : outbox_ok st → NoDup (range_values sh (ms_messages st.2)).
Proof.
  intros Hok. unfold range_values. apply NoDup_fmap_2_strong; [|apply NoDup_fmap_1 with (f := fst), NoDup_range_map_fst].
  intros [i p] [j q] Hi%elem_of_range_map Hj%elem_of_range_map E. cbn in E. subst q.
  destruct (ob_stored _ Hok i p Hi) as (m & Hm & Hmi & _), (ob_stored _ Hok j p Hj) as (m' & Hm' & Hmj & _). congruence.
Qed.

Lemma pending_stored sh now st p :
  outbox_ok st → p ∈ List.filter (due_at now st.2) (range_values sh (ms_messages st.2)) →
  ∃ m, stored st.2 p m ∧ m_Status m = StatusPending.
Proof.
  intros Hok [Hin Hd]%list_elem_of_In%filter_In. apply list_elem_of_In, elem_of_range_values in Hin as [id Hid].
  destruct (ob_stored _ Hok id p Hid) as (m & Hm & <- & _). exists m. split; [done|].
  unfold due_at in Hd. rewrite Hm in Hd. unfold due in Hd. by apply andb_true_iff in Hd as [?%bool_decide_eq_true _].
Qed.

Lemma NoDup_list_filter {A} (f : A → bool) (l : list A) : NoDup l → NoDup (List.filter f l).
Proof. rewrite !NoDup_ListNoDup. apply List.NoDup_filter. Qed.

(** The trace of a round does not depend on what happened before. *)
Lemma process_shift hs later trace ms qs :
  foldl (process hs later) (trace, ms) qs =
  (trace ++ (foldl (process hs later) ([], ms) qs).1, (foldl (process hs later) ([], ms) qs).2).
Proof.
  revert trace ms. induction qs as [|q qs IH]; intros trace ms; cbn [foldl]; [by rewrite app_nil_r|].
  assert (∃ t m, process hs later (trace, ms) q = (trace ++ t, m) ∧ process hs later ([], ms) q = (t, m)) as (t & m & -> & ->).
  { unfold process. destruct (ms_heap ms !! q) as [m|]; [|exists [], ms; by rewrite app_nil_r].
    destruct (hs !! m_Type m) as [h|]; [destruct (h m)|]; eauto. }
  rewrite (IH (trace ++ t)), (IH t). cbn [fst snd]. by rewrite (assoc_L (++)).
Qed.

Lemma round_ok sh now hs later st :
  outbox_ok st →
  outbox_ok (apply_op st (OpRound sh now hs later)) ∧
  (processPending sh now hs later st.2).1.*1 =
    take 100 (List.filter (due_at now st.2) (range_values sh (ms_messages st.2))).
Proof.
  intros Hok. unfold apply_op, processPending. rewrite ListPending_spec. set (ps := take 100 _).
  assert (NoDup ps) as Hnd.
  { apply (NoDup_app ps (drop 100 (List.filter (due_at now st.2) (range_values sh (ms_messages st.2))))).
    unfold ps. rewrite take_drop. by apply NoDup_list_filter, NoDup_stored. }
  assert (∀ p, p ∈ ps → ∃ m, stored st.2 p m ∧ m_Status m = StatusPending) as Hps.
  { intros p Hp. apply (pending_stored sh now); [done|]. by apply (subseteq_take 100). }
  destruct st as [trace ms]. cbn [fst snd] in *. destruct (rounds_ok hs later ps (trace, ms) Hok Hnd Hps) as [Hok' (t & Ht & Htp)].
  rewrite process_shift in Hok', Ht. destruct (foldl (process hs later) ([], ms) ps) as [t' ms']. cbn [fst snd] in *.
  split; [done|]. apply (inj (app trace)) in Ht. by subst t'.
Qed.

Lemma save_ok st p m : outbox_ok st → fresh st (OpSave p m) → outbox_ok (apply_op st (OpSave p m)).
Proof.
  intros [Hst Hnew] (Hp & Hid & Hs & Hr & Hn). unfold apply_op, Save, store_object. cbn. rewrite lookup_insert_eq.
  constructor; cbn [fst snd ms_messages ms_heap].
  - intros id q. destruct (decide (id = m_ID m)) as [->|Hne].
    + rewrite lookup_insert_eq. intros [= <-]. exists m. rewrite lookup_insert_eq. split; [done|]. split; [done|].
      rewrite (Hnew p Hp). exists []. split; [cbn; lia|]. left. by rewrite Hs, Hr.
    + rewrite lookup_insert_ne by done. intros Hq. destruct (Hst id q Hq) as (mq & Hhq & Hidq & Htq). exists mq.
      rewrite lookup_insert_ne; [done|]. intros ->. congruence.
  - intros q Hq. apply lookup_insert_None in Hq as [Hq _]. by apply Hnew.
Qed.

(** C19: the outbox delivers.  After any history of new messages and rounds, with any handlers, the calls for
    a message are some failures, five at most, then nothing more, or one success, or the lack of a handler;
    and the message says which: it is pending with the number of its failures, sent, or failed.  A round
    handles each of the due messages once, one hundred of them at most. *)
Theorem outbox_delivers st :
  history st →
  (∀ id p, ms_messages st.2 !! id = Some p → ∃ m, ms_heap st.2 !! p = Some m ∧ m_ID m = id ∧ told (events_of p st.1) m) ∧
  (∀ sh now hs later, (processPending sh now hs later st.2).1.*1 =
     take 100 (List.filter (due_at now st.2) (range_values sh (ms_messages st.2)))).
Proof.
  intros Hh. assert (outbox_ok st) as Hok; [|split; [apply Hok|intros; by apply round_ok]].
  induction Hh as [|st o _ IH Ho]; [by constructor|]. destruct o; [by apply save_ok|by apply round_ok].
Qed.

Definition ex_message : Message := MkMessage "a" "mail" "{}" ∅ 5 0 time_zero StatusPending.
Definition ex_handlers : handlers := {["mail" := λ _, None]}.

Lemma outbox_delivers_witness :
  let st := apply_op (apply_op ([], NewMemoryStore ∅) (OpSave 0 ex_message)) (OpRound shuffle_id (λ _, 7) ex_handlers (λ _, 8)) in
  st.1 = [(0%nat, Called None)] ∧
  (∀ id p, ms_messages st.2 !! id = Some p → ∃ m, ms_heap st.2 !! p = Some m ∧ m_ID m = id ∧ told (events_of p st.1) m).
Proof.
  split; [by vm_compute|]. apply outbox_delivers.
  apply history_op; [apply history_op; [apply history_start|by repeat split]|done].
Defined.

(** Two processors that list the messages before either has handled them both send a message. *)
Theorem sent_twice :
  let ms := Save 0 (store_object 0 ex_message (NewMemoryStore ∅)) in
  let ps := ListPending shuffle_id (λ _, 7) 100 ms in
  let '(first, ms') := foldl (process ex_handlers (λ _, 8)) ([], ms) ps in
  (foldl (process ex_handlers (λ _, 8)) (first, ms') ps).1 = [(0%nat, Called None); (0%nat, Called None)].
Proof. by vm_compute. Qed.
