(* ===== verification/LaneControl.v ===== *)
(** Backpressure and latency tuning of lanes: [internal/lane/backpressure.go] and [telemetry.go].

    The lanes are shared with the scheduler: a lane is its index in the list of lanes, as in [Lane].  The
    controllers keep maps from identifiers to lanes; observers are called in turn, and what they are told
    is recorded. *)
From S2P Require Import Prelude Errors Float64 Lane.
Local Open Scope Z_scope.

Definition lane_ids (lanes : list Lane) : gmap string nat :=
  foldl (λ m il, <[lc_ID (ln_cfg il.2) := il.1]> m) ∅ (imap pair lanes).

(** * Backpressure *)

Inductive BackpressureState := StateNormal | StateThrottling | StateRejecting.
#[export] Instance BackpressureState_eq_dec : EqDecision BackpressureState.
Proof. solve_decision. Defined.

Record BackpressureAction := MkAction {
  ba_State : BackpressureState;
  ba_Allowed : bool;
  ba_RetryAfter : Duration;
  ba_CurrentDepth : Z;
  ba_MaxCapacity : Z
}.

Record BackpressureController := MkController {
  bc_lanes : gmap string nat;
  bc_lowWatermark : float64;
  bc_highWatermark : float64;
  bc_states : gmap string BackpressureState;
  bc_observers : nat
}.

Definition pct (n : Z) : float64 := f64_div (f64_of_Z n) (f64_of_Z 100).

Definition NewBackpressureController (lanes : list Lane) (lowPct highPct : float64) : BackpressureController :=
  let lowPct := if f64_leb lowPct f64_zero || f64_leb (f64_of_Z 1) lowPct then pct 70 else lowPct in
  let highPct := if f64_leb highPct lowPct || f64_ltb (f64_of_Z 1) highPct then pct 90 else highPct in
  MkController (lane_ids lanes) lowPct highPct
    (foldl (λ m l, <[lc_ID (ln_cfg l) := StateNormal]> m) ∅ lanes) 0.

Definition AddObserver (b : BackpressureController) : BackpressureController :=
  MkController (bc_lanes b) (bc_lowWatermark b) (bc_highWatermark b) (bc_states b) (S (bc_observers b)).

(** What an observer is told: the lane, the old and the new state. *)
Record notice := MkNotice { no_observer : nat; no_lane : string; no_old : BackpressureState; no_new : BackpressureState }.

Definition classify (b : BackpressureController) (depth cap : Z) : BackpressureState :=
  let ratio := f64_div (f64_of_Z depth) (f64_of_Z cap) in
  if f64_leb (bc_highWatermark b) ratio then StateRejecting
  else if f64_leb (bc_lowWatermark b) ratio then StateThrottling
  else StateNormal.

Definition Check_ (lanes : list Lane) (laneID : string) (b : BackpressureController) :
    BackpressureAction * list notice * BackpressureController :=
  match bc_lanes b !! laneID ≫= (λ i, lanes !! i) with
  | None => (MkAction StateNormal true 0 0 0, [], b)
  | Some lane =>
      let depth := Z.of_nat (Len lane) in
      let cap := if lc_MaxCapacity (ln_cfg lane) <=? 0 then 1000 else lc_MaxCapacity (ln_cfg lane) in
      let prevState := default StateNormal (bc_states b !! laneID) in
      let nextState := classify b depth cap in
      let '(told, b) :=
        if bool_decide (nextState = prevState) then ([], b)
        else ((λ o, MkNotice o laneID prevState nextState) <$> seq 0 (bc_observers b),
              MkController (bc_lanes b) (bc_lowWatermark b) (bc_highWatermark b)
                (<[laneID := nextState]> (bc_states b)) (bc_observers b)) in
      let action := match nextState with
                    | StateRejecting => MkAction nextState false (500 * millisecond) depth cap
                    | StateThrottling => MkAction nextState true (50 * millisecond) depth cap
                    | StateNormal => MkAction nextState true 0 depth cap
                    end in
      (action, told, b)
  end.

Definition State_ (laneID : string) (b : BackpressureController) : BackpressureState :=
  default StateNormal (bc_states b !! laneID).

(** * Latency tuning *)

Record LatencyTuner := MkTuner {
  lt_lanes : gmap string nat;
  lt_baseQuantums : gmap string Z;
  lt_emaLatency : gmap string Duration;
  lt_sampleCount : gmap string Z;
  lt_alpha : float64;
  lt_maxBoost : Z
}.

Definition NewLatencyTuner (lanes : list Lane) (alpha : float64) (maxBoost : Z) : LatencyTuner :=
  MkTuner (lane_ids lanes)
    (foldl (λ m l, <[lc_ID (ln_cfg l) := lc_Quantum (ln_cfg l)]> m) ∅ lanes)
    (foldl (λ m l, <[lc_ID (ln_cfg l) := 0]> m) ∅ lanes)
    (foldl (λ m l, <[lc_ID (ln_cfg l) := 0]> m) ∅ lanes)
    (if f64_leb alpha f64_zero || f64_ltb (f64_of_Z 1) alpha then f64_div (f64_of_Z 1) (f64_of_Z 5) else alpha)
    (if maxBoost <? 1 then 4 else maxBoost).

Definition RecordLatency (laneID : string) (latency : Duration) (t : LatencyTuner) : LatencyTuner :=
  match lt_emaLatency t !! laneID with
  | None => t
  | Some prev =>
      let count := wrap_u 64 (default 0 (lt_sampleCount t !! laneID) + 1) in
      let ema :=
        if count =? 1 then latency
        else int64_of_f64 (f64_add (f64_mul (lt_alpha t) (f64_of_Z latency))
                             (f64_mul (f64_sub (f64_of_Z 1) (lt_alpha t)) (f64_of_Z prev))) in
      MkTuner (lt_lanes t) (lt_baseQuantums t) (<[laneID := ema]> (lt_emaLatency t))
        (<[laneID := count]> (lt_sampleCount t)) (lt_alpha t) (lt_maxBoost t)
  end.

Definition set_quantum (q : Z) (l : Lane) : Lane :=
  MkLane (MkLaneConfig (lc_ID (ln_cfg l)) (lc_Priority (ln_cfg l)) q (lc_MaxCapacity (ln_cfg l))
            (lc_StarvationThreshold (ln_cfg l)))
    (ln_tasks l) (ln_deficit l) (ln_enqueuedCount l) (ln_dequeuedCount l).

Definition tuned (t : LatencyTuner) (targetLatency : Duration) (id : string) : Z :=
  let base := default 0 (lt_baseQuantums t !! id) in
  let measured := default 0 (lt_emaLatency t !! id) in
  if (targetLatency <=? 0) || (measured <=? targetLatency) then base
  else
    let boost := int64_of_f64 (f64_div (f64_of_Z measured) (f64_of_Z targetLatency)) in
    let boost := if lt_maxBoost t <? boost then lt_maxBoost t else boost in
    let boost := if boost <? 1 then 1 else boost in
    wrap_s 64 (base * boost).

Definition tune_lane (t : LatencyTuner) (targetLatency : Duration) (st : gmap string Z * list Lane) (il : string * nat) :
    gmap string Z * list Lane :=
  let q := tuned t targetLatency il.1 in
  (<[il.1 := q]> st.1, alter (set_quantum q) il.2 st.2).

Definition TuneQuantums (sh : shuffle) (targetLatency : Duration) (t : LatencyTuner) (lanes : list Lane) :
    gmap string Z * list Lane :=
  foldl (tune_lane t targetLatency) (∅, lanes) (range_map sh (lt_lanes t)).

Record LaneLatencyMetrics := MkMetrics {
  lm_LaneID : string;
  lm_CurrentQuantum : Z;
  lm_BaseQuantum : Z;
  lm_EMALatency : Duration;
  lm_SampleCount : Z
}.

Definition Metrics (sh : shuffle) (t : LatencyTuner) (lanes : list Lane) : list LaneLatencyMetrics :=
  (λ il, MkMetrics il.1 (default 0 ((λ l, lc_Quantum (ln_cfg l)) <$> lanes !! il.2))
           (default 0 (lt_baseQuantums t !! il.1)) (default 0 (lt_emaLatency t !! il.1))
           (default 0 (lt_sampleCount t !! il.1))) <$> range_map sh (lt_lanes t).

(** * Theorems *)

(** ** Observers *)

Inductive control := DoObserve | DoCheck (lanes : list Lane) (laneID : string).

Definition control_step (st : list notice * BackpressureController) (c : control) : list notice * BackpressureController :=
  match c with
  | DoObserve => (st.1, AddObserver st.2)
  | DoCheck lanes laneID => let '(_, told, b) := Check_ lanes laneID st.2 in (st.1 ++ told, b)
  end.

(** The changes that an observer is told of a lane, from a state on. *)
Fixpoint chain (s : BackpressureState) (l : list notice) : option BackpressureState :=
  match l with
  | [] => Some s
  | n :: l' => if bool_decide (no_old n = s) && negb (bool_decide (no_new n = s)) then chain (no_new n) l' else None
  end.

Definition notices_of (o : nat) (laneID : string) (log : list notice) : list notice :=
  filter (λ n, no_observer n = o ∧ no_lane n = laneID) log.

Lemma chain_app s l1 l2 : chain s (l1 ++ l2) = chain s l1 ≫= λ s', chain s' l2.
Proof.
  revert s. induction l1 as [|n l1 IH]; intros s; [done|]. cbn [app chain]. destruct (_ && _); [apply IH|done].
Qed.

(** One call tells every observer of the change, if there is one. *)
Lemma notices_of_told o n laneID id old new :
  notices_of o id ((λ k, MkNotice k laneID old new) <$> seq 0 n) =
  if decide (laneID = id ∧ (o < n)%nat) then [MkNotice o laneID old new] else [].
Proof.
  unfold notices_of. induction n as [|n IH].
  { cbn. rewrite decide_False; [done|]. lia. }
  rewrite seq_S, fmap_app, filter_app, IH. cbn [fmap list_fmap Nat.add]. rewrite filter_cons, filter_nil. cbn [no_observer no_lane].
  destruct (decide (laneID = id)) as [->|Hne]; [|by repeat case_decide; try tauto].
  destruct (lt_eq_lt_dec n o) as [[Hlt| ->]|Hgt]; repeat case_decide; try done; naive_solver lia.
Qed.

Lemma control_chain st c o id :
  (o < bc_observers st.2)%nat → chain StateNormal (notices_of o id st.1) = Some (State_ id st.2) →
  (o < bc_observers (control_step st c).2)%nat ∧
  chain StateNormal (notices_of o id (control_step st c).1) = Some (State_ id (control_step st c).2).
Proof.
  intros Ho Hc. destruct c as [|lanes laneID]; cbn [control_step]; [split; [cbn; lia|done]|].
  unfold Check_. destruct (bc_lanes st.2 !! laneID ≫= _) as [lane|]; [|by rewrite app_nil_r].
  set (next := classify _ _ _). case_bool_decide as E; cbn [fst snd]; [by rewrite app_nil_r|].
  split; [done|]. unfold notices_of. rewrite filter_app. fold (notices_of o id st.1).
  match goal with |- context [filter _ (_ <$> seq 0 ?n)] =>
    change (filter _ ((λ k, MkNotice k laneID (default StateNormal (bc_states st.2 !! laneID)) next) <$> seq 0 n)) with
      (notices_of o id ((λ k, MkNotice k laneID (default StateNormal (bc_states st.2 !! laneID)) next) <$> seq 0 n)) end.
  rewrite chain_app, Hc, notices_of_told. cbn [mbind option_bind]. unfold State_. cbn [bc_states].
  destruct (decide (laneID = id)) as [->|Hne].
  - rewrite decide_True by done. cbn [chain no_old no_new]. rewrite bool_decide_eq_true_2 by done.
    rewrite bool_decide_eq_false_2 by done. by rewrite lookup_insert_eq.
  - rewrite decide_False by tauto. by rewrite lookup_insert_ne.
Qed.

Lemma states_start (lanes : list Lane) id (m : gmap string BackpressureState) :
  default StateNormal (m !! id) = StateNormal →
  default StateNormal (foldl (λ m l, <[lc_ID (ln_cfg l) := StateNormal]> m) m lanes !! id) = StateNormal.
Proof.
  revert m. induction lanes as [|l lanes IH]; intros m Hm; cbn [foldl]; [done|]. apply IH.
  destruct (decide (lc_ID (ln_cfg l) = id)) as [->|Hne]; [by rewrite lookup_insert_eq|by rewrite lookup_insert_ne].
Qed.

(** Observers see what happens: whatever the lanes hold when they are checked, the changes that an observer
    is told of a lane start at [NORMAL], each starts where the last one ended and goes somewhere else, and
    they end at the state that the controller has for the lane. *)
Theorem observers_see lanes low high n cs o id :
  (o < n)%nat →
  let st := foldl control_step ([], Nat.iter n AddObserver (NewBackpressureController lanes low high)) cs in
  chain StateNormal (notices_of o id st.1) = Some (State_ id st.2).
Proof.
  intros Ho st. set (b := Nat.iter n AddObserver (NewBackpressureController lanes low high)) in st.
  assert (bc_observers b = n ∧ State_ id b = StateNormal) as [Hn Hs].
  { subst b st. clear. induction n as [|n [IH1 IH2]]; cbn [Nat.iter]; [|split; [by cbn; f_equal|done]]. split; [done|].
    by apply states_start. }
  assert (∀ st, (o < bc_observers st.2)%nat → chain StateNormal (notices_of o id st.1) = Some (State_ id st.2) →
    chain StateNormal (notices_of o id (foldl control_step st cs).1) = Some (State_ id (foldl control_step st cs).2)) as H.
  { clear. induction cs as [|c cs IH]; intros st Ho Hc; cbn [foldl]; [done|].
    destruct (control_chain st c o id Ho Hc) as [Ho' Hc']. by apply IH. }
  apply H; cbn [fst snd]; [by rewrite Hn|]. by rewrite Hs.
Qed.

(** A low watermark above the default of the high one turns the two around: nothing is throttled. *)
Theorem watermarks_cross :
  let b := NewBackpressureController [] (pct 95) (pct 0) in
  f64_ltb (bc_highWatermark b) (bc_lowWatermark b) = true.
Proof. by vm_compute. Qed.

(** ** Quantums *)

Definition quantum (l : Lane) : Z := lc_Quantum (ln_cfg l).
Definition lane_id (l : Lane) : string := lc_ID (ln_cfg l).

Lemma lane_ids_snoc lanes l : lane_ids (lanes ++ [l]) = <[lane_id l := length lanes]> (lane_ids lanes).
Proof. unfold lane_ids. rewrite imap_app, foldl_app. cbn. by rewrite Nat.add_0_r. Qed.

Lemma lane_ids_lookup lanes id i :
  NoDup (lane_id <$> lanes) → lane_ids lanes !! id = Some i ↔ ∃ l, lanes !! i = Some l ∧ lane_id l = id.
Proof.
  revert id i. induction lanes as [|l lanes IH] using rev_ind; intros id i Hnd.
  { cbn. split; [done|]. by intros (l & ? & _). }
  rewrite fmap_app in Hnd. apply NoDup_app in Hnd as (Hnd & Hdis & _). rewrite lane_ids_snoc.
  destruct (decide (lane_id l = id)) as [<-|Hne].
  - rewrite lookup_insert_eq. split.
    + intros [= <-]. exists l. by rewrite list_lookup_middle.
    + intros (l' & Hl' & E). apply lookup_snoc_Some in Hl' as [[_ Hl']|[-> _]]; [|done].
      exfalso. apply (Hdis (lane_id l)); [|by left]. rewrite <- E. apply list_elem_of_fmap_2. by apply list_elem_of_lookup_2 in Hl'.
  - rewrite lookup_insert_ne, IH by done. split.
    + intros (l' & Hl' & E). exists l'. split; [|done]. by apply lookup_app_l_Some.
    + intros (l' & Hl' & E). apply lookup_snoc_Some in Hl' as [[_ Hl']|[-> <-]]; [by exists l'|done].
Qed.

Lemma tune_lanes t target ps m lanes :
  NoDup ps.*2 →
  (∀ id i, (id, i) ∈ ps → (foldl (tune_lane t target) (m, lanes) ps).2 !! i = set_quantum (tuned t target id) <$> lanes !! i) ∧
  (∀ i, i ∉ ps.*2 → (foldl (tune_lane t target) (m, lanes) ps).2 !! i = lanes !! i).
Proof.
  revert m lanes. induction ps as [|[jd j] ps IH]; intros m lanes Hnd; cbn [foldl fmap list_fmap snd].
  { split; [by intros id i ?%not_elem_of_nil|done]. }
  apply NoDup_cons in Hnd as [Hj Hnd]. unfold tune_lane at 2 4. cbn [fst snd].
  destruct (IH (<[jd := tuned t target jd]> m) (alter (set_quantum (tuned t target jd)) j lanes) Hnd) as [IH1 IH2]. split.
  - intros id i [[= -> ->]|Hin]%elem_of_cons.
    + rewrite IH2 by done. by rewrite list_lookup_alter_eq.
    + rewrite (IH1 _ _ Hin). rewrite list_lookup_alter_ne; [done|]. intros E. apply Hj.
      apply list_elem_of_fmap. exists (id, i). by rewrite E.
  - intros i Hi. rewrite not_elem_of_cons in Hi. rewrite IH2 by tauto. rewrite list_lookup_alter_ne; [done|].
    intros ->. tauto.
Qed.

Inductive tuning := DoRecord (laneID : string) (latency : Duration) | DoTune (sh : shuffle) (target : Duration).

Definition tuning_step (st : LatencyTuner * list Lane) (o : tuning) : LatencyTuner * list Lane :=
  match o with
  | DoRecord laneID latency => (RecordLatency laneID latency st.1, st.2)
  | DoTune sh target => (st.1, (TuneQuantums sh target st.1 st.2).2)
  end.

Section tuner.
Context (lanes : list Lane) (alpha : float64) (maxBoost : Z).
Let t0 : LatencyTuner := NewLatencyTuner lanes alpha maxBoost.
Context (Hids : NoDup (lane_id <$> lanes)).
Context (Hquantums : Forall (λ l, 0 < quantum l ∧ quantum l * lt_maxBoost t0 <= max_int64) lanes).

(** The lanes are as they were, apart from quantums within the limits. *)
Definition boosted (l l' : Lane) : Prop :=
  ∃ q, l' = set_quantum q l ∧ quantum l <= q <= quantum l * lt_maxBoost t0.

Lemma base_lookup i l : lanes !! i = Some l → lt_baseQuantums t0 !! lane_id l = Some (quantum l).
Proof.
  unfold t0. cbn [lt_baseQuantums NewLatencyTuner]. clear Hquantums t0. revert i. induction lanes as [|l0 ls IH] using rev_ind; intros i Hi; [done|].
  rewrite fmap_app in Hids. apply NoDup_app in Hids as (Hnd & Hdis & _). rewrite foldl_app. cbn [foldl].
  apply lookup_snoc_Some in Hi as [[_ Hi]|[-> ->]]; [|by rewrite lookup_insert_eq].
  rewrite lookup_insert_ne; [by apply (IH Hnd i)|]. intros E. apply (Hdis (lane_id l)); [|by rewrite <- E; left].
  apply list_elem_of_fmap_2. by apply list_elem_of_lookup_2 in Hi.
Qed.
Record tuner_ok (st : LatencyTuner * list Lane) : Prop := {
  to_lanes : lt_lanes st.1 = lane_ids lanes;
  to_base : lt_baseQuantums st.1 = lt_baseQuantums t0;
  to_boost : lt_maxBoost st.1 = lt_maxBoost t0;
  to_quantums : Forall2 boosted lanes st.2
}.

Lemma maxBoost_pos : 1 <= lt_maxBoost t0.
Proof. unfold t0. cbn. destruct (Z.ltb_spec maxBoost 1); lia. Qed.

Lemma tuned_bounds st target i l :
  tuner_ok st → lanes !! i = Some l →
  quantum l <= tuned st.1 target (lane_id l) <= quantum l * lt_maxBoost t0 ∧
  (target <= 0 ∨ default 0 (lt_emaLatency st.1 !! lane_id l) <= target → tuned st.1 target (lane_id l) = quantum l).
Proof.
  intros Hok Hl. destruct (Forall_lookup_1 _ _ _ _ Hquantums Hl) as [Hpos Hfit]. pose proof maxBoost_pos as Hb.
  unfold tuned. rewrite (to_base _ Hok), (base_lookup i l Hl), (to_boost _ Hok). cbn [default from_option id].
  set (measured := default 0 _). destruct (Z.leb_spec target 0), (Z.leb_spec measured target); cbn [orb];
    try (split; [nia|lia]).
  set (boost := int64_of_f64 _). set (b1 := if lt_maxBoost t0 <? boost then lt_maxBoost t0 else boost).
  set (b2 := if b1 <? 1 then 1 else b1).
  assert (1 <= b2 <= lt_maxBoost t0) as Hb2.
  { subst b2 b1. destruct (Z.ltb_spec (lt_maxBoost t0) boost); [rewrite (proj2 (Z.ltb_ge _ _)); lia|].
    destruct (Z.ltb_spec boost 1); lia. }
  unfold max_int64 in Hfit. rewrite wrap_s_small by nia. split; [nia|lia].
Qed.

Lemma set_quantum_twice q q' l : set_quantum q (set_quantum q' l) = set_quantum q l.
Proof. done. Qed.

Lemma TuneQuantums_lookup sh target st i l :
  tuner_ok st → lanes !! i = Some l →
  (TuneQuantums sh target st.1 st.2).2 !! i = Some (set_quantum (tuned st.1 target (lane_id l)) l).
Proof.
  intros Hok Hl. unfold TuneQuantums.
  assert (NoDup (range_map sh (lt_lanes st.1)).*2) as Hnd.
  { apply NoDup_fmap_2_strong; [|apply NoDup_fmap_1 with (f := fst), NoDup_range_map_fst].
    intros [i1 p] [i2 q] H1%elem_of_range_map H2%elem_of_range_map E. cbn in E. subst q. rewrite (to_lanes _ Hok) in H1, H2.
    apply lane_ids_lookup in H1 as (l1 & Hl1 & <-), H2 as (l2 & Hl2 & <-); [|done..]. by simplify_eq. }
  destruct (tune_lanes st.1 target (range_map sh (lt_lanes st.1)) ∅ st.2 Hnd) as [Hin _].
  rewrite (Hin (lane_id l) i).
  - destruct (Forall2_lookup_l _ _ _ _ _ (to_quantums _ Hok) Hl) as (l' & Hl' & q & -> & _). by rewrite Hl'.
  - apply elem_of_range_map. rewrite (to_lanes _ Hok). apply lane_ids_lookup; [done|]. by exists l.
Qed.

Lemma TuneQuantums_length sh target t ls : length (TuneQuantums sh target t ls).2 = length ls.
Proof.
  unfold TuneQuantums. generalize (∅ : gmap string Z). induction (range_map sh (lt_lanes t)) as [|p ps IH] in ls |-*; intros m; [done|].
  cbn [foldl]. unfold tune_lane at 2. rewrite IH. apply length_alter.
Qed.

Lemma tuning_step_ok st o : tuner_ok st → tuner_ok (tuning_step st o).
Proof.
  intros Hok. destruct o as [id latency|sh target]; cbn [tuning_step].
  - unfold RecordLatency. destruct (lt_emaLatency st.1 !! id); constructor; apply Hok.
  - constructor; try apply Hok. cbn [snd]. apply Forall2_same_length_lookup_2.
    { rewrite TuneQuantums_length. apply (Forall2_length _ _ _ (to_quantums _ Hok)). }
    intros i l l' Hl Hl'. rewrite (TuneQuantums_lookup sh target st i l Hok Hl) in Hl'. injection Hl' as <-.
    eexists. split; [done|]. by apply (tuned_bounds st target i).
Qed.

(** tuning stays within its limits.  After any measurements and tunings, the quantum of every lane is at
    least the one it was configured with and at most [maxBoost] times that, however often it was tuned,
    and nothing else of the lanes has changed; a tuning gives a lane that is within the target its own
    quantum back. *)
Theorem tuner_bounded ops :
  let st := foldl tuning_step (t0, lanes) ops in
  Forall2 boosted lanes st.2 ∧
  ∀ sh target i l, lanes !! i = Some l → target <= 0 ∨ default 0 (lt_emaLatency st.1 !! lane_id l) <= target →
    (TuneQuantums sh target st.1 st.2).2 !! i = Some l.
Proof.
  intros st. assert (tuner_ok st) as Hok.
  { assert (∀ st, tuner_ok st → tuner_ok (foldl tuning_step st ops)) as H.
    { induction ops as [|o ops IH]; intros st' Hst; cbn [foldl]; [done|]. by apply IH, tuning_step_ok. }
    apply H. constructor; try done. cbn [snd]. apply Forall2_same_length_lookup_2; [done|]. intros i l l' Hl Hl'.
    assert (l' = l) as -> by congruence. exists (quantum l). split; [by destruct l as [[] ? ? ? ?]|]. pose proof maxBoost_pos.
    destruct (Forall_lookup_1 _ _ _ _ Hquantums Hl). nia. }
  split; [apply Hok|]. intros sh target i l Hl Ht. rewrite (TuneQuantums_lookup sh target st i l Hok Hl). f_equal.
  rewrite (proj2 (tuned_bounds st target i l Hok Hl) Ht). by destruct l as [[] ? ? ? ?].
Qed.
End tuner.

Lemma tuner_bounded_witness :
  let lanes := [ex_lane "a" 5; ex_lane "b" 7] in
  let st := foldl tuning_step (NewLatencyTuner lanes f64_zero 3, lanes) [DoRecord "a" 9000; DoTune shuffle_rev 1000] in
  quantum <$> st.2 = [15; 7] ∧ Forall2 (boosted lanes f64_zero 3) lanes st.2.
Proof.
  split; [by vm_compute|]. apply (tuner_bounded [ex_lane "a" 5; ex_lane "b" 7] f64_zero 3).
  - by vm_compute; repeat constructor; set_solver.
  - repeat constructor; by vm_compute.
Defined.
