(* ===== verification/Versioning.v ===== *)
(** Semantic versions: [internal/versioning/versioning.go]. *)
From stdpp Require Import pretty.
From S2P Require Import Prelude Errors Strings.
Local Open Scope Z_scope.

Record Version := MkVersion {
  v_Major : Z;
  v_Minor : Z;
  v_Patch : Z;
  v_Pre : string
}.
#[export] Instance Version_eq_dec : EqDecision Version.
Proof. solve_decision. Defined.

(** ** The number that [strconv.Atoi] gives along with its error

    A text that is not a number gives zero, one that is out of range the nearest [int64]; digits are read
    until the first of the two shows. *)
Definition max_uint64 : Z := 2 ^ 64 - 1.

Fixpoint scan_uint (s : string) (n : Z) : option Z :=
  match s with
  | EmptyString => Some n
  | String c s' =>
      if digit_char c then
        let n1 := n * 10 + (Z.of_nat (byte_of c) - 48) in
        if max_uint64 <? n1 then Some max_uint64 else scan_uint s' n1
      else None
  end.

Definition Atoi_value (s : string) : Z :=
  let '(neg, digits) :=
    match s with
    | String c s' =>
        if ascii_eqb c "-" then (true, s') else if ascii_eqb c "+" then (false, s') else (false, s)
    | EmptyString => (false, s)
    end in
  if bool_decide (digits = "") then 0
  else match scan_uint digits 0 with
       | None => 0
       | Some un => if neg then Z.max min_int64 (- un) else Z.min max_int64 un
       end.

Definition Parse (v : string) : result error Version :=
  let v := trim_prefix v "v" in
  let parts := split "-" v in
  match split "." (default "" (head parts)) with
  | [a; b; c] => Ok (MkVersion (Atoi_value a) (Atoi_value b) (Atoi_value c) (default "" (parts !! 1%nat)))
  | _ => Err (EFmt "invalid version: %s" [v])
  end.

(** The version that is used when the error is ignored. *)
Definition Parse_value (v : string) : Version := match Parse v with Ok v => v | Err _ => MkVersion 0 0 0 "" end.

Definition String_ (v : Version) : string :=
  let s := pretty (v_Major v) +:+ "." +:+ pretty (v_Minor v) +:+ "." +:+ pretty (v_Patch v) in
  if bool_decide (v_Pre v = "") then s else s +:+ "-" +:+ v_Pre v.

Definition Compare (v other : Version) : Z :=
  if negb (v_Major v =? v_Major other) then (if v_Major other <? v_Major v then 1 else -1)
  else if negb (v_Minor v =? v_Minor other) then (if v_Minor other <? v_Minor v then 1 else -1)
  else if negb (v_Patch v =? v_Patch other) then (if v_Patch other <? v_Patch v then 1 else -1)
  else if bool_decide (v_Pre v = "") && bool_decide (v_Pre other = "") then 0
  else if bool_decide (v_Pre v = "") then 1
  else if bool_decide (v_Pre other = "") then -1
  else if string_ltb (v_Pre other) (v_Pre v) then 1
  else if string_ltb (v_Pre v) (v_Pre other) then -1
  else 0.

Definition Equal (v other : Version) : bool := Compare v other =? 0.
Definition LessThan (v other : Version) : bool := Compare v other <? 0.
Definition GreaterThan (v other : Version) : bool := 0 <? Compare v other.

Definition tilde (v other : Version) : bool :=
  (v_Major v =? v_Major other) && (v_Minor v =? v_Minor other) && (v_Patch other <=? v_Patch v).
Definition caret (v other : Version) : bool :=
  if v_Major other =? 0 then (v_Major v =? v_Major other) && (v_Minor other <=? v_Minor v)
  else (v_Major v =? v_Major other) &&
       ((v_Minor other <? v_Minor v) || ((v_Minor v =? v_Minor other) && (v_Patch other <=? v_Patch v))).

Definition Satisfies (constraint : string) (v : Version) : bool :=
  let constraint := trim_space constraint in
  if bool_decide (constraint = "") || bool_decide (constraint = "*") then true
  else match drop_prefix ">=" constraint with
  | Some rest => let other := Parse_value rest in GreaterThan v other || Equal v other
  | None =>
  match drop_prefix "<=" constraint with
  | Some rest => let other := Parse_value rest in LessThan v other || Equal v other
  | None =>
  match drop_prefix ">" constraint with
  | Some rest => GreaterThan v (Parse_value rest)
  | None =>
  match drop_prefix "<" constraint with
  | Some rest => LessThan v (Parse_value rest)
  | None =>
  match drop_prefix "~" constraint with
  | Some rest => tilde v (Parse_value rest)
  | None =>
  match drop_prefix "^" constraint with
  | Some rest => caret v (Parse_value rest)
  | None => Equal v (Parse_value constraint)
  end end end end end end.

Definition IncrementMajor (v : Version) : Version := MkVersion (wrap_s 64 (v_Major v + 1)) 0 0 "".
Definition IncrementMinor (v : Version) : Version := MkVersion (v_Major v) (wrap_s 64 (v_Minor v + 1)) 0 "".
Definition IncrementPatch (v : Version) : Version := MkVersion (v_Major v) (v_Minor v) (wrap_s 64 (v_Patch v + 1)) "".

(** * The order of versions *)

(** The order on pre-releases: none is the greatest. *)
Definition pre_lt (p q : string) : Prop := p ≠ "" ∧ (q = "" ∨ string_ltb p q = true).
Definition version_lt (v w : Version) : Prop :=
  v_Major v < v_Major w ∨ v_Major v = v_Major w ∧
  (v_Minor v < v_Minor w ∨ v_Minor v = v_Minor w ∧
   (v_Patch v < v_Patch w ∨ v_Patch v = v_Patch w ∧ pre_lt (v_Pre v) (v_Pre w))).

Lemma pre_cases p q : pre_lt p q ∨ p = q ∨ pre_lt q p.
Proof.
  unfold pre_lt. destruct (decide (p = "")) as [->|Hp], (decide (q = "")) as [->|Hq]; auto.
  destruct (string_ltb p q) eqn:E1; [auto|]. destruct (string_ltb q p) eqn:E2; [auto|].
  right. left. by apply string_ltb_total.
Qed.

Lemma pre_lt_irrefl p : ¬ pre_lt p p.
Proof. intros [Hp [?|H]]; [done|]. by rewrite string_ltb_irrefl in H. Qed.

Lemma pre_lt_trans p q r : pre_lt p q → pre_lt q r → pre_lt p r.
Proof.
  intros [Hp Hpq] [Hq Hqr]. split; [done|]. destruct Hpq as [?|Hpq]; [done|]. destruct Hqr as [?|Hqr]; [by left|].
  right. by apply (string_ltb_trans p q r).
Qed.

Lemma version_cases v w : version_lt v w ∨ v = w ∨ version_lt w v.
Proof.
  unfold version_lt. destruct v as [a b c p], w as [a' b' c' p']. cbn.
  destruct (Z.lt_trichotomy a a') as [?|[->|?]]; [auto| |auto 6].
  destruct (Z.lt_trichotomy b b') as [?|[->|?]]; [auto 6| |auto 8].
  destruct (Z.lt_trichotomy c c') as [?|[->|?]]; [auto 8| |auto 10].
  destruct (pre_cases p p') as [?|[->|?]]; auto 10.
Qed.

Lemma version_lt_irrefl v : ¬ version_lt v v.
Proof. unfold version_lt. pose proof (pre_lt_irrefl (v_Pre v)). intuition lia. Qed.

Lemma version_lt_trans u v w : version_lt u v → version_lt v w → version_lt u w.
Proof. unfold version_lt. pose proof (pre_lt_trans (v_Pre u) (v_Pre v) (v_Pre w)). intuition lia. Qed.

Lemma Compare_spec v w :
  (Compare v w = -1 ∧ version_lt v w) ∨ (Compare v w = 0 ∧ v = w) ∨ (Compare v w = 1 ∧ version_lt w v).
Proof.
  destruct v as [a b c p], w as [a' b' c' p']. unfold Compare, version_lt. cbn.
  destruct (Z.eqb_spec a a') as [<-|]; cbn [negb]; [|destruct (Z.ltb_spec a' a); [right; right|left]; split; [done|lia|done|lia]].
  destruct (Z.eqb_spec b b') as [<-|]; cbn [negb]; [|destruct (Z.ltb_spec b' b); [right; right|left]; split; [done|lia|done|lia]].
  destruct (Z.eqb_spec c c') as [<-|]; cbn [negb]; [|destruct (Z.ltb_spec c' c); [right; right|left]; split; [done|lia|done|lia]].
  unfold pre_lt. destruct (bool_decide_reflect (p = "")) as [->|Hp], (bool_decide_reflect (p' = "")) as [->|Hp']; cbn [andb].
  - auto.
  - right. right. split; [done|]. auto 10.
  - left. split; [done|]. auto 10.
  - destruct (string_ltb p' p) eqn:E1; [right; right; split; [done|]; auto 10|].
    destruct (string_ltb p p') eqn:E2; [left; split; [done|]; auto 10|]. right. left. split; [done|].
    by rewrite (string_ltb_total _ _ E1 E2).
Qed.

Lemma LessThan_spec v w : LessThan v w = true ↔ version_lt v w.
Proof.
  unfold LessThan. rewrite Z.ltb_lt. destruct (Compare_spec v w) as [[-> H]|[[-> ->]|[-> H]]].
  - done.
  - split; [lia|]. by intros ?%version_lt_irrefl.
  - split; [lia|]. intros H'. by destruct (version_lt_irrefl v (version_lt_trans _ _ _ H' H)).
Qed.

Lemma GreaterThan_spec v w : GreaterThan v w = true ↔ version_lt w v.
Proof.
  unfold GreaterThan. rewrite Z.ltb_lt. destruct (Compare_spec v w) as [[-> H]|[[-> ->]|[-> H]]].
  - split; [lia|]. intros H'. by destruct (version_lt_irrefl v (version_lt_trans _ _ _ H H')).
  - split; [lia|]. by intros ?%version_lt_irrefl.
  - done.
Qed.

Lemma Equal_spec v w : Equal v w = true ↔ v = w.
Proof.
  unfold Equal. rewrite Z.eqb_eq. destruct (Compare_spec v w) as [[-> H]|[[-> ->]|[-> H]]]; [|done|].
  - split; [done|]. intros ->. by apply version_lt_irrefl in H.
  - split; [done|]. intros ->. by apply version_lt_irrefl in H.
Qed.

Lemma not_less v w : GreaterThan v w || Equal v w = true ↔ ¬ version_lt v w.
Proof.
  rewrite orb_true_iff, GreaterThan_spec, Equal_spec. split.
  - intros [H| ->] H'; [|by apply version_lt_irrefl in H']. by destruct (version_lt_irrefl v (version_lt_trans _ _ _ H' H)).
  - intros H. destruct (version_cases v w) as [?|[?|?]]; auto; done.
Qed.

Lemma not_greater v w : LessThan v w || Equal v w = true ↔ ¬ version_lt w v.
Proof.
  rewrite orb_true_iff, LessThan_spec, Equal_spec. split.
  - intros [H| ->] H'; [|by apply version_lt_irrefl in H']. by destruct (version_lt_irrefl v (version_lt_trans _ _ _ H H')).
  - intros H. destruct (version_cases v w) as [?|[?|?]]; auto; done.
Qed.

(** * Texts of versions *)

Lemma scan_uint_digits s n v :
  0 <= n → digits_value s n = Some v → v <= max_uint64 → scan_uint s n = Some v ∧ n <= v.
Proof.
  revert n. induction s as [|c s IH]; intros n Hn Hv Hmax.
  { cbn in Hv. injection Hv as <-. split; [done|lia]. }
  rewrite digits_value_cons in Hv. cbn [scan_uint]. unfold digit_char.
  destruct ((48 <=? Z.of_nat (byte_of c)) && (Z.of_nat (byte_of c) <=? 57)) eqn:Ec; [|done].
  rewrite andb_true_iff, !Z.leb_le in Ec. rewrite (proj2 (Nat.leb_le _ _)), (proj2 (Nat.leb_le _ _)) by lia. cbn [andb].
  destruct (IH (n * 10 + (Z.of_nat (byte_of c) - 48)) ltac:(lia) Hv Hmax) as [Hs Hle].
  rewrite (proj2 (Z.ltb_ge _ _)) by lia. split; [done|lia].
Qed.

Definition number_ok (z : Z) : Prop := 0 <= z <= max_int64.

Lemma Atoi_value_pretty z : number_ok z → Atoi_value (pretty z) = z.
Proof.
  intros [H0 Hmax]. rewrite pretty_Z_nonneg by done. unfold Atoi_value.
  pose proof (pretty_N_digits (Z.to_N z)) as Hd. pose proof (pretty_N_not_nil (Z.to_N z)) as Hn.
  pose proof (digits_value_pretty (Z.to_N z)) as Hv. rewrite Z2N.id in Hv by done.
  destruct (scan_uint_digits _ 0 z ltac:(lia) Hv) as [Hs _]; [unfold max_uint64, max_int64 in *; lia|].
  destruct (pretty (Z.to_N z)) as [|c s] eqn:E; [done|]. cbn [string_forall] in Hd. apply andb_true_iff in Hd as [Hc _].
  assert (ascii_eqb c "-" = false ∧ ascii_eqb c "+" = false) as [-> ->].
  { unfold digit_char in Hc. split; apply ascii_eqb_false; by intros ->. }
  rewrite bool_decide_eq_false_2, Hs by done. lia.
Qed.

(** Versions whose text can be read back: numbers that are not negative, no hyphen in the pre-release. *)
Definition version_ok (v : Version) : Prop :=
  number_ok (v_Major v) ∧ number_ok (v_Minor v) ∧ number_ok (v_Patch v) ∧ no_char "-" (v_Pre v).

Definition core (v : Version) : string := pretty (v_Major v) +:+ "." +:+ pretty (v_Minor v) +:+ "." +:+ pretty (v_Patch v).

Lemma number_no_char c z : number_ok z → digit_char c = false → no_char c (pretty z).
Proof.
  intros [H0 _] Hc. rewrite pretty_Z_nonneg by done. pose proof (pretty_N_digits (Z.to_N z)) as Hd.
  induction (pretty (Z.to_N z)) as [|d s IH]; [done|]. cbn [string_forall] in Hd. apply andb_true_iff in Hd as [Hd Hs].
  apply no_char_cons. split; [by intros ->; rewrite Hc in Hd|by apply IH].
Qed.

Lemma no_char_concat c s t : no_char c s → no_char c t → no_char c (s +:+ t).
Proof.
  intros Hs Ht. induction s as [|d s IH]; [done|]. rewrite string_app_cons. apply no_char_cons.
  apply no_char_cons in Hs as [? ?]. auto.
Qed.

Lemma core_no_hyphen v : version_ok v → no_char "-" (core v).
Proof.
  intros (Ha & Hb & Hc & _). unfold core. repeat apply no_char_concat; try done; by apply number_no_char.
Qed.

Lemma split_core v : version_ok v → split "." (core v) = [pretty (v_Major v); pretty (v_Minor v); pretty (v_Patch v)].
Proof.
  intros (Ha & Hb & Hc & _). unfold core. change ("." +:+ ?s) with (String "." s).
  rewrite split_app by (by apply number_no_char). f_equal.
  change ("." +:+ ?s) with (String "." s). rewrite split_app by (by apply number_no_char). f_equal.
  apply split_no_char. by apply number_no_char.
Qed.

Lemma split_String v : version_ok v →
  split "-" (String_ v) = if bool_decide (v_Pre v = "") then [core v] else [core v; v_Pre v].
Proof.
  intros Hv. unfold String_. fold (core v). case_bool_decide.
  - apply split_no_char. by apply core_no_hyphen.
  - change ("-" +:+ v_Pre v) with (String "-" (v_Pre v)). rewrite split_app by (by apply core_no_hyphen).
    rewrite split_no_char; [done|]. apply Hv.
Qed.

Lemma String_head v : version_ok v → ∃ c s, String_ v = String c s ∧ digit_char c = true.
Proof.
  intros ([H0 _] & _). unfold String_. rewrite (pretty_Z_nonneg (v_Major v)) by done.
  pose proof (pretty_N_digits (Z.to_N (v_Major v))) as Hd. pose proof (pretty_N_not_nil (Z.to_N (v_Major v))) as Hn.
  destruct (pretty (Z.to_N (v_Major v))) as [|c s]; [done|]. cbn [string_forall] in Hd. apply andb_true_iff in Hd as [Hc _].
  case_bool_decide; rewrite !string_app_cons; eauto.
Qed.

Lemma Parse_text v s : version_ok v → trim_prefix s "v" = String_ v → Parse s = Ok v.
Proof.
  intros Hv Hs. unfold Parse. rewrite Hs, split_String by done. case_bool_decide as E; cbn [head default from_option id lookup list_lookup];
    rewrite split_core by done; destruct Hv as (Ha & Hb & Hc & _); rewrite !Atoi_value_pretty by done; destruct v; cbn in *; by rewrite ?E.
Qed.

Lemma trim_v_String v : version_ok v → trim_prefix (String_ v) "v" = String_ v.
Proof.
  intros (c & s & -> & Hc)%String_head. unfold trim_prefix. cbn [drop_prefix].
  destruct (ascii_eqb "v" c) eqn:E; [|done]. apply ascii_eqb_true in E as <-. done.
Qed.

(** versions are read back as they are printed, with or without the letter in front. *)
Theorem version_roundtrip v :
  version_ok v → Parse (String_ v) = Ok v ∧ Parse ("v" +:+ String_ v) = Ok v.
Proof.
  intros Hv. split; apply Parse_text; try done. by apply trim_v_String.
Qed.

Definition ex_version : Version := MkVersion 1 20 3 "rc.1".

Lemma version_roundtrip_witness : Parse "1.20.3-rc.1" = Ok ex_version ∧ Parse "v1.20.3-rc.1" = Ok ex_version.
Proof. apply (version_roundtrip ex_version). by vm_compute. Defined.

(** ** Constraints *)

Lemma string_forall_app_2 (P : ascii → bool) s t :
  string_forall P s = true → string_forall P t = true → string_forall P (s +:+ t) = true.
Proof.
  intros Hs Ht. induction s as [|c s IH]; [done|]. rewrite string_app_cons. cbn [string_forall] in *.
  apply andb_true_iff in Hs as [-> Hs]. by apply IH.
Qed.

Lemma pretty_visible_text z : number_ok z → string_forall visible (pretty z) = true.
Proof.
  intros [H0 _]. rewrite pretty_Z_nonneg by done. apply (string_forall_impl digit_char); [|apply pretty_N_digits].
  intros c. unfold digit_char, visible. rewrite !andb_true_iff, !Nat.leb_le. lia.
Qed.

Lemma String_visible v : version_ok v → string_forall visible (v_Pre v) = true → string_forall visible (String_ v) = true.
Proof.
  intros (Ha & Hb & Hc & _) Hp. unfold String_. pose proof (pretty_visible_text _ Ha). pose proof (pretty_visible_text _ Hb).
  pose proof (pretty_visible_text _ Hc). case_bool_decide; repeat apply string_forall_app_2; done.
Qed.

Lemma Parse_value_String v : version_ok v → Parse_value (String_ v) = v.
Proof. intros Hv. unfold Parse_value. by rewrite (Parse_text v) by (done || by apply trim_v_String). Qed.

(** How a constraint is taken apart, when the version starts with a digit. *)
Lemma Satisfies_ops x v :
  string_forall visible x = true → x ≠ "" → (∀ d t, digit_char d = false → drop_prefix (String d t) x = None) →
  Satisfies x v = Equal v (Parse_value x) ∧
  Satisfies (">=" +:+ x) v = GreaterThan v (Parse_value x) || Equal v (Parse_value x) ∧
  Satisfies ("<=" +:+ x) v = LessThan v (Parse_value x) || Equal v (Parse_value x) ∧
  Satisfies (">" +:+ x) v = GreaterThan v (Parse_value x) ∧
  Satisfies ("<" +:+ x) v = LessThan v (Parse_value x) ∧
  Satisfies ("~" +:+ x) v = tilde v (Parse_value x) ∧
  Satisfies ("^" +:+ x) v = caret v (Parse_value x).
Proof.
  intros Hvis Hne Hd.
  assert (∀ c t, bool_decide (String c t +:+ x = "") = false ∧ bool_decide (String c t +:+ x = "*") = false) as Hops.
  { intros c t. split; apply bool_decide_eq_false_2; rewrite string_app_cons; [done|]. intros [= _ E]. by destruct t, x. }
  unfold Satisfies. split_and!; rewrite visible_trim by (by try apply string_forall_app_2).
  - rewrite bool_decide_eq_false_2 by done. rewrite bool_decide_eq_false_2.
    2: { intros ->. by specialize (Hd "*"%char "" eq_refl). }
    cbn [orb]. by rewrite !Hd by done.
  - by destruct (Hops ">"%char "=") as [-> ->].
  - by destruct (Hops "<"%char "=") as [-> ->].
  - destruct (Hops ">"%char "") as [-> ->]. cbn [orb]. change (drop_prefix ">=" (">" +:+ x)) with (drop_prefix "=" x).
    by rewrite Hd.
  - destruct (Hops "<"%char "") as [-> ->]. cbn [orb]. change (drop_prefix "<=" ("<" +:+ x)) with (drop_prefix "=" x).
    by rewrite Hd.
  - by destruct (Hops "~"%char "") as [-> ->].
  - by destruct (Hops "^"%char "") as [-> ->].
Qed.

(** constraints mean what they say, for every version in them that can be printed: the comparisons are
    those of the order of versions, in which a pre-release comes before its release; a tilde fixes major
    and minor number; a caret fixes the major number, and asks for no lower version without regard to
    pre-releases, or, for the major number zero, for no lower minor number. *)
Theorem constraints_mean v o :
  version_ok o → string_forall visible (v_Pre o) = true →
  (Satisfies (String_ o) v = true ↔ v = o) ∧
  (Satisfies (">=" +:+ String_ o) v = true ↔ ¬ version_lt v o) ∧
  (Satisfies ("<=" +:+ String_ o) v = true ↔ ¬ version_lt o v) ∧
  (Satisfies (">" +:+ String_ o) v = true ↔ version_lt o v) ∧
  (Satisfies ("<" +:+ String_ o) v = true ↔ version_lt v o) ∧
  (Satisfies ("~" +:+ String_ o) v = true ↔ v_Major v = v_Major o ∧ v_Minor v = v_Minor o ∧ v_Patch o <= v_Patch v) ∧
  (Satisfies ("^" +:+ String_ o) v = true ↔
   v_Major v = v_Major o ∧
   if decide (v_Major o = 0) then v_Minor o <= v_Minor v
   else v_Minor o < v_Minor v ∨ v_Minor v = v_Minor o ∧ v_Patch o <= v_Patch v).
Proof.
  intros Ho Hp. destruct (String_head o Ho) as (c & s & Es & Hc).
  destruct (Satisfies_ops (String_ o) v) as (-> & -> & -> & -> & -> & -> & ->);
    [by apply String_visible|by rewrite Es| |].
  { intros d t Hd. rewrite Es. cbn [drop_prefix]. destruct (ascii_eqb d c) eqn:E; [|done].
    apply ascii_eqb_true in E as ->. by rewrite Hc in Hd. }
  rewrite Parse_value_String by done. split_and!.
  - apply Equal_spec.
  - apply not_less.
  - apply not_greater.
  - apply GreaterThan_spec.
  - apply LessThan_spec.
  - unfold tilde. rewrite !andb_true_iff, !Z.eqb_eq, Z.leb_le. tauto.
  - unfold caret. destruct (Z.eqb_spec (v_Major o) 0); [rewrite decide_True by done|rewrite decide_False by done];
      rewrite ?andb_true_iff, ?orb_true_iff, ?andb_true_iff, ?Z.eqb_eq, ?Z.leb_le, ?Z.ltb_lt; tauto.
Qed.

Lemma constraints_mean_witness : Satisfies ">=1.20.3-rc.1" (MkVersion 1 20 3 "") = true.
Proof.
  destruct (constraints_mean (MkVersion 1 20 3 "") ex_version) as (_ & [_ H] & _); [by vm_compute|done|]. apply H.
  unfold version_lt, pre_lt. cbn. intros [?|[_ [?|[_ [?|[_ [Hp _]]]]]]]; [lia..|done].
Defined.

(** A hyphen in the pre-release cuts it off; a constraint that cannot be read is about version 0.0.0; and a
    caret before a version 0.x lets lower patches in. *)
Theorem version_gaps :
  Parse "1.0.0-rc-1" = Ok (MkVersion 1 0 0 "rc") ∧ Satisfies ">=latest" (MkVersion 0 1 0 "") = true ∧
  Satisfies "^0.2.3" (MkVersion 0 2 0 "") = true.
Proof. by vm_compute. Qed.
