(* ===== verification/TokenBucket.v ===== *)
(** Token buckets with leases: [internal/tokenbucket/tokenbucket.go].

    Leases are shared by pointer between their holders and the bucket: they are objects of a heap.  Times are
    read from arguments, and so are the random identifiers of leases.  A call of [Acquire] that has to wait
    goes on when its timer fires or when it receives from the channel of the bucket, at some time and after
    whatever others did to the bucket, or ends when its context is done.  The channel holds one signal at
    most: a flag.  A product and a sum are rounded one after the other, as on a machine that does not fuse
    them.  The lock of the bucket and those of the leases are taken separately: [Release] takes the lock
    of the bucket inside that of its lease, the reaper takes those of leases inside that of the bucket,
    and [Renew] takes only that of its lease.  The sections that the locks delimit are definitions; the
    methods compose them, and a relation interleaves them. *)
From Stdlib Require Import SpecFloat.
From S2P Require Import Prelude Errors Float64.
Local Open Scope Z_scope.

Abbreviation SRateLimitExceeded := (SOther "tokenbucket: rate limit exceeded").
Abbreviation SLeaseExpired := (SOther "tokenbucket: lease expired").
Abbreviation SLeaseNotFound := (SOther "tokenbucket: lease not found").

Record Config := MkConfig { cf_Capacity : float64; cf_RefillRate : float64 }.

Record Lease := MkLease {
  le_ID : string;
  le_Tenant : string;
  le_Tokens : float64;
  le_ExpiresAt : Time;
  le_released : bool
}.

Abbreviation ptr := nat (only parsing).

Record Bucket := MkBucket {
  bk_cfg : Config;
  bk_tokens : float64;
  bk_lastRefill : Time;
  bk_leases : gmap string ptr;
  bk_wake : bool
}.

(** A bucket and the objects of its leases. *)
Record world := MkWorld { w_bucket : Bucket; w_heap : gmap ptr Lease }.

Definition NewBucket (cfg : Config) (now : Time) : Bucket :=
  let capacity := if f64_leb (cf_Capacity cfg) f64_zero then f64_of_Z 1 else cf_Capacity cfg in
  let rate := if f64_leb (cf_RefillRate cfg) f64_zero then f64_of_Z 1 else cf_RefillRate cfg in
  MkBucket (MkConfig capacity rate) capacity now ∅ false.

(** [d.Seconds()] and [math.Min] *)
Definition Seconds (d : Duration) : float64 :=
  f64_add (f64_of_Z (Z.quot d second)) (f64_div (f64_of_Z (Z.rem d second)) (f64_of_Z second)).

Definition is_nan (x : float64) : bool := match x with S754_nan => true | _ => false end.
Definition f64_min (x y : float64) : float64 :=
  match x, y with
  | S754_infinity true, _ | _, S754_infinity true => S754_infinity true
  | S754_nan, _ | _, S754_nan => S754_nan
  | S754_zero s, S754_zero t => if s then x else y
  | _, _ => if f64_ltb x y then x else y
  end.

Definition set_tokens (tokens : float64) (last : Time) (b : Bucket) : Bucket :=
  MkBucket (bk_cfg b) tokens last (bk_leases b) (bk_wake b).

Definition refillLocked (now : Time) (b : Bucket) : Bucket :=
  let elapsed := Seconds (time_sub now (bk_lastRefill b)) in
  if f64_leb elapsed f64_zero then b
  else set_tokens (f64_min (cf_Capacity (bk_cfg b)) (f64_add (bk_tokens b) (f64_mul elapsed (cf_RefillRate (bk_cfg b))))) now b.

Definition Available (now : Time) (b : Bucket) : float64 * Bucket :=
  let b := refillLocked now b in (bk_tokens b, b).

(** The tokens are there and taken, or the time to wait for them. *)
Definition take (n : float64) (now : Time) (b : Bucket) : option Duration * Bucket :=
  let b := refillLocked now b in
  if f64_leb n (bk_tokens b) then (None, set_tokens (f64_sub (bk_tokens b) n) (bk_lastRefill b) b)
  else
    let needed := f64_sub n (bk_tokens b) in
    let waitSec := f64_div needed (cf_RefillRate (bk_cfg b)) in
    (Some (int64_of_f64 (f64_mul waitSec (f64_of_Z second))), b).

Definition TryAcquire (n : float64) (now : Time) (b : Bucket) : bool * Bucket :=
  if f64_leb n f64_zero then (true, b)
  else let '(wait, b) := take n now b in (match wait with None => true | Some _ => false end, b).

(** How a wait ends, after what others did meanwhile. *)
Inductive wakeup :=
  | TimerFired (others : world → world) (now : Time)
  | Signalled (others : world → world) (now : Time)
  | Cancelled (others : world → world) (err : error).

Definition set_wake (v : bool) (b : Bucket) : Bucket :=
  MkBucket (bk_cfg b) (bk_tokens b) (bk_lastRefill b) (bk_leases b) v.
Definition on_bucket (f : Bucket → Bucket) (w : world) : world := MkWorld (f (w_bucket w)) (w_heap w).

(** [None] is a call that still waits. *)
Fixpoint acquire_loop (n : float64) (now : Time) (ws : list wakeup) (w : world) : option (option error) * world :=
  let '(wait, b) := take n now (w_bucket w) in
  let w := MkWorld b (w_heap w) in
  match wait with
  | None => (Some None, w)
  | Some _ =>
      match ws with
      | [] => (None, w)
      | Cancelled others err :: _ => (Some (Some err), others w)
      | TimerFired others now' :: ws' => acquire_loop n now' ws' (others w)
      | Signalled others now' :: ws' =>
          let w := others w in
          if bk_wake (w_bucket w) then acquire_loop n now' ws' (on_bucket (set_wake false) w) else (None, w)
      end
  end.

Definition Acquire (n : float64) (now : Time) (ws : list wakeup) (w : world) : option (option error) * world :=
  if f64_leb n f64_zero then (Some None, w)
  else if f64_ltb (cf_Capacity (bk_cfg (w_bucket w))) n then
    (Some (Some (EWrap "%w: requested tokens %f exceeds capacity %f"
                  [format_v n; format_v (cf_Capacity (bk_cfg (w_bucket w)))] (ESentinel SRateLimitExceeded))), w)
  else acquire_loop n now ws w.

(** The lease of a call that got its tokens; its object is new. *)
Definition new_lease (id tenant : string) (n : float64) (ttl : Duration) (now : Time) (p : ptr) (w : world) : world :=
  let b := w_bucket w in
  MkWorld (MkBucket (bk_cfg b) (bk_tokens b) (bk_lastRefill b) (<[id := p]> (bk_leases b)) (bk_wake b))
    (<[p := MkLease id tenant n (time_add now ttl) false]> (w_heap w)).

Definition Lease_ (id tenant : string) (n : float64) (ttl : Duration) (now : Time) (ws : list wakeup) (granted : Time) (p : ptr)
    (w : world) : option (result error ptr) * world :=
  match Acquire n now ws w with
  | (Some None, w) => (Some (Ok p), new_lease id tenant n ttl granted p w)
  | (Some (Some err), w) => (Some (Err err), w)
  | (None, w) => (None, w)
  end.

Definition returnTokens (n : float64) (leaseID : string) (now : Time) (b : Bucket) : Bucket :=
  let b := MkBucket (bk_cfg b) (bk_tokens b) (bk_lastRefill b) (delete leaseID (bk_leases b)) (bk_wake b) in
  let b := refillLocked now b in
  let b := set_tokens (f64_min (cf_Capacity (bk_cfg b)) (f64_add (bk_tokens b) n)) (bk_lastRefill b) b in
  set_wake true b.

Definition set_released (l : Lease) : Lease := MkLease (le_ID l) (le_Tenant l) (le_Tokens l) (le_ExpiresAt l) true.

(** *** The sections of [Renew] and [Release]

    The test of [Renew] and its assignment are under the lock of the lease, which others can see between
    them: the reaper reads the expiry without this lock.  The clock is read for each. *)
Definition renew_test (now : Time) (l : Lease) : option error :=
  if le_released l then Some (ESentinel SLeaseNotFound)
  else if time_after now (le_ExpiresAt l) then Some (ESentinel SLeaseExpired)
  else None.

Definition renewed (ttl : Duration) (now : Time) (l : Lease) : Lease :=
  MkLease (le_ID l) (le_Tenant l) (le_Tokens l) (time_add now ttl) (le_released l).

Definition Renew (ttl : Duration) (now now' : Time) (p : ptr) (w : world) : option error * world :=
  match w_heap w !! p with
  | None => (None, w)
  | Some l =>
      match renew_test now l with
      | Some err => (Some err, w)
      | None => (None, MkWorld (w_bucket w) (<[p := renewed ttl now' l]> (w_heap w)))
      end
  end.

(** The lease is marked, unless it is already. *)
Definition release_mark (l : Lease) : option Lease := if le_released l then None else Some (set_released l).

(** The pointers whose tokens are given back are the first component. *)
Definition Release (now : Time) (p : ptr) (w : world) : list ptr * world :=
  match w_heap w !! p with
  | None => ([], w)
  | Some l =>
      match release_mark l with
      | None => ([], w)
      | Some l' => ([p], MkWorld (returnTokens (le_Tokens l') (le_ID l') now (w_bucket w)) (<[p := l']> (w_heap w)))
      end
  end.

(** *** The sections of the reaper *)

(** What the loop has collected: the expired leases, their tokens, and the state. *)
Abbreviation reaped := (list ptr * float64 * world)%type (only parsing).

(** An expired lease is marked, under its lock, and taken from the table. *)
Definition reap_take (kv : string * ptr) (l : Lease) (st : reaped) : reaped :=
  let '(expired, reclaimed, w) := st in
  let b := w_bucket w in
  (expired ++ [kv.2], f64_add reclaimed (le_Tokens l),
   MkWorld (MkBucket (bk_cfg b) (bk_tokens b) (bk_lastRefill b) (delete kv.1 (bk_leases b)) (bk_wake b))
     (<[kv.2 := set_released l]> (w_heap w))).

(** One round of the loop over the leases of the bucket. *)
Definition reap_one (now : Time) (st : reaped) (kv : string * ptr) : reaped :=
  match w_heap st.2 !! kv.2 with
  | Some l => if time_after now (le_ExpiresAt l) then reap_take kv l st else st
  | None => st
  end.

(** What is done after the loop. *)
Definition reap_end (now : Time) (st : reaped) : world :=
  let '(expired, reclaimed, w) := st in
  match expired with
  | [] => w
  | _ =>
      let b := refillLocked now (w_bucket w) in
      MkWorld (MkBucket (bk_cfg b) (f64_min (cf_Capacity (bk_cfg b)) (f64_add (bk_tokens b) reclaimed))
                 (bk_lastRefill b) (bk_leases b) true) (w_heap w)
  end.

Definition ReapExpiredLeases (sh : shuffle) (now : Time) (w : world) : list ptr * world :=
  let st := foldl (reap_one now) ([], f64_zero, w) (range_map sh (bk_leases (w_bucket w))) in
  (st.1.1, reap_end now st).

(** ** Tenants *)

(** [ml_closed]: the channel [stopCh] is closed. *)
Record MultiLimiter := MkLimiter {
  ml_defaultCfg : Config;
  ml_buckets : gmap string world;
  ml_running : bool;
  ml_closed : bool
}.

Definition NewMultiLimiter (defaultCfg : Config) : MultiLimiter := MkLimiter defaultCfg ∅ false false.

Definition set_bucket (tenant : string) (w : world) (m : MultiLimiter) : MultiLimiter :=
  MkLimiter (ml_defaultCfg m) (<[tenant := w]> (ml_buckets m)) (ml_running m) (ml_closed m).

Definition getOrCreateBucket (tenant : string) (now : Time) (m : MultiLimiter) : world * MultiLimiter :=
  match ml_buckets m !! tenant with
  | Some w => (w, m)
  | None => let w := MkWorld (NewBucket (ml_defaultCfg m) now) ∅ in (w, set_bucket tenant w m)
  end.

Definition MultiLimiter_Acquire (tenant : string) (n : float64) (created now : Time) (ws : list wakeup) (m : MultiLimiter) :
    option (option error) * MultiLimiter :=
  let '(w, m) := getOrCreateBucket tenant created m in
  let '(r, w) := Acquire n now ws w in (r, set_bucket tenant w m).

Definition MultiLimiter_Lease (id tenant : string) (n : float64) (ttl : Duration) (created now : Time) (ws : list wakeup)
    (granted : Time) (p : ptr) (m : MultiLimiter) : option (result error ptr) * MultiLimiter :=
  let '(w, m) := getOrCreateBucket tenant created m in
  let '(r, w) := Lease_ id tenant n ttl now ws granted p w in (r, set_bucket tenant w m).

Definition Stats (tenant : string) (now : Time) (m : MultiLimiter) : (float64 * float64 * float64 * nat) * MultiLimiter :=
  match ml_buckets m !! tenant with
  | None => ((cf_Capacity (ml_defaultCfg m), cf_Capacity (ml_defaultCfg m), cf_RefillRate (ml_defaultCfg m), 0%nat), m)
  | Some w =>
      let w := on_bucket (refillLocked now) w in
      let b := w_bucket w in
      ((cf_Capacity (bk_cfg b), bk_tokens b, cf_RefillRate (bk_cfg b), size (bk_leases b)), set_bucket tenant w m)
  end.

(** The flag says whether a goroutine is started. *)
Definition StartReaper (m : MultiLimiter) : bool * MultiLimiter :=
  if ml_running m then (false, m)
  else (true, MkLimiter (ml_defaultCfg m) (ml_buckets m) true (ml_closed m)).

(** One tick of the reaper; each bucket is reaped at a time of its own. *)
Definition reap_tick (sh : shuffle) (now : string → Time) (m : MultiLimiter) : MultiLimiter :=
  MkLimiter (ml_defaultCfg m) (map_imap (λ tenant w, Some (ReapExpiredLeases sh (now tenant) w).2) (ml_buckets m))
    (ml_running m) (ml_closed m).

(** Closing a closed channel panics. *)
Definition Stop (m : MultiLimiter) : outcome MultiLimiter :=
  if negb (ml_running m) then Returns m
  else if ml_closed m then Panics
  else Returns (MkLimiter (ml_defaultCfg m) (ml_buckets m) false true).

(** ** Interleavings

    A lock that is held from one step to the next is held by a call with something left to do: that of a
    lease by a [Release] that has marked it and waits for the bucket, or by a [Renew] that has made its
    test; that of the bucket by a reaper in its loop, with the leases it has yet to visit and, perhaps,
    one that it found expired and whose lock it waits for.  The other sections of the bucket are steps. *)

Inductive holder := Releasing | Renewing (ttl : Duration).

Record reaper := MkReaper {
  rp_now : Time;
  rp_todo : list (string * ptr);
  rp_found : option (string * ptr);
  rp_expired : list ptr;
  rp_reclaimed : float64
}.

(** [sy_log]: the leases whose tokens are back in the bucket. *)
Record sys := MkSys {
  sy_world : world;
  sy_log : list ptr;
  sy_reaper : option reaper;
  sy_held : gmap ptr holder
}.

Inductive step : sys → sys → Prop :=
  | StepRefill w log held now :
      step (MkSys w log None held) (MkSys (on_bucket (refillLocked now) w) log None held)
  | StepTake w log held n now :
      step (MkSys w log None held) (MkSys (on_bucket (λ b, (take n now b).2) w) log None held)
  | StepSignal w log rp held :
      step (MkSys w log rp held) (MkSys (on_bucket (set_wake false) w) log rp held)
  | StepLease w log held id tenant n ttl now p :
      w_heap w !! p = None → (∀ q l, w_heap w !! q = Some l → le_ID l ≠ id) →
      step (MkSys w log None held) (MkSys (new_lease id tenant n ttl now p w) log None held)
  | StepRenewTest w log rp held p l ttl now :
      held !! p = None → w_heap w !! p = Some l → renew_test now l = None →
      step (MkSys w log rp held) (MkSys w log rp (<[p := Renewing ttl]> held))
  | StepRenewed w log rp held p l ttl now :
      held !! p = Some (Renewing ttl) → w_heap w !! p = Some l →
      step (MkSys w log rp held) (MkSys (MkWorld (w_bucket w) (<[p := renewed ttl now l]> (w_heap w))) log rp (delete p held))
  | StepReleaseMark w log rp held p l l' :
      held !! p = None → w_heap w !! p = Some l → release_mark l = Some l' →
      step (MkSys w log rp held) (MkSys (MkWorld (w_bucket w) (<[p := l']> (w_heap w))) log rp (<[p := Releasing]> held))
  | StepReleaseReturn w log held p l now :
      held !! p = Some Releasing → w_heap w !! p = Some l →
      step (MkSys w log None held)
        (MkSys (on_bucket (returnTokens (le_Tokens l) (le_ID l) now) w) (log ++ [p]) None (delete p held))
  | StepReapStart w log held sh now :
      step (MkSys w log None held)
        (MkSys w log (Some (MkReaper now (range_map sh (bk_leases (w_bucket w))) None [] f64_zero)) held)
  | StepReapVisit w log held now kv todo expired sum l :
      w_heap w !! kv.2 = Some l →
      step (MkSys w log (Some (MkReaper now (kv :: todo) None expired sum)) held)
        (MkSys w log (Some (MkReaper now todo (if time_after now (le_ExpiresAt l) then Some kv else None) expired sum)) held)
  | StepReapTake w log held now kv todo expired sum l :
      held !! kv.2 = None → w_heap w !! kv.2 = Some l →
      let st := reap_take kv l (expired, sum, w) in
      step (MkSys w log (Some (MkReaper now todo (Some kv) expired sum)) held)
        (MkSys st.2 log (Some (MkReaper now todo None st.1.1 st.1.2)) held)
  | StepReapEnd w log held now expired sum :
      step (MkSys w log (Some (MkReaper now [] None expired sum)) held)
        (MkSys (reap_end now (expired, sum, w)) (log ++ expired) None held).

Definition start (cfg : Config) (now : Time) : sys := MkSys (MkWorld (NewBucket cfg now) ∅) [] None ∅.

(** *** A call that is not interrupted is made of these steps *)

Theorem Renew_sections ttl now now' p w log rp w' :
  is_Some (w_heap w !! p) → Renew ttl now now' p w = (None, w') → rtc step (MkSys w log rp ∅) (MkSys w' log rp ∅).
Proof.
  intros [l Hl]. unfold Renew. rewrite Hl. destruct (renew_test now l) eqn:Ht; [done|]. intros [= <-].
  eapply rtc_l; [by apply (StepRenewTest w log rp ∅ p l ttl now)|].
  eapply rtc_l; [apply (StepRenewed w log rp _ p l ttl now'); [apply lookup_insert_eq|done]|].
  by rewrite delete_insert_id.
Qed.

Theorem Release_sections now p w log :
  rtc step (MkSys w log None ∅) (MkSys (Release now p w).2 (log ++ (Release now p w).1) None ∅).
Proof.
  unfold Release. destruct (w_heap w !! p) as [l|] eqn:Hl; [|rewrite app_nil_r; apply rtc_refl].
  destruct (release_mark l) as [l'|] eqn:Hm; [|rewrite app_nil_r; apply rtc_refl].
  eapply rtc_l; [by apply (StepReleaseMark w log None ∅ p l l')|].
  eapply rtc_l; [apply (StepReleaseReturn _ log _ p l' now); [apply lookup_insert_eq|apply lookup_insert_eq]|].
  by rewrite delete_insert_id.
Qed.

(** ** Leases are given back once *)

(** The leases that the reaper in its loop has taken count as given back. *)
Definition given (s : sys) : list ptr := sy_log s ++ from_option rp_expired [] (sy_reaper s).

(** When no call is under way, a lease is marked exactly when its tokens are back, and the table has the
    others. *)
Record accounted (log : list ptr) (leases : gmap string ptr) (heap : gmap ptr Lease) : Prop := {
  acc_nodup : NoDup log;
  acc_log : ∀ p, p ∈ log ↔ ∃ l, heap !! p = Some l ∧ le_released l = true;
  acc_live : ∀ id p, leases !! id = Some p ↔ ∃ l, heap !! p = Some l ∧ le_ID l = id ∧ le_released l = false
}.

Lemma refill_leases now b : bk_leases (refillLocked now b) = bk_leases b.
Proof. unfold refillLocked. by destruct (f64_leb _ _). Qed.

Lemma take_leases n now b : bk_leases (take n now b).2 = bk_leases b.
Proof. unfold take. destruct (f64_leb _ _); simpl; apply refill_leases. Qed.

Lemma return_leases n id now b : bk_leases (returnTokens n id now b) = delete id (bk_leases b).
Proof. unfold returnTokens. simpl. by rewrite refill_leases. Qed.


(** *** The loop of the reaper *)









(** *** The invariant of the interleavings *)

(** Of the leases that were given back, the table, the leases, the calls that hold the lock of a lease and
    the leases that the reaper has yet to deal with. *)
Record ok (G : list ptr) (L : gmap string ptr) (H : gmap ptr Lease) (D : gmap ptr holder) (P : list (string * ptr)) : Prop := {
  ok_nodup : NoDup G;
  ok_heap : ∀ p, p ∈ G ∨ is_Some (D !! p) → is_Some (H !! p);
  ok_marked : ∀ p l, H !! p = Some l → le_released l = true ↔ p ∈ G ∨ D !! p = Some Releasing;
  ok_releasing : ∀ p, D !! p = Some Releasing → p ∉ G;
  ok_table : ∀ id p, L !! id = Some p ↔ ∃ l, H !! p = Some l ∧ le_ID l = id ∧ p ∉ G;
  ok_todo : NoDup P.*1;
  ok_listed : ∀ kv, kv ∈ P → L !! kv.1 = Some kv.2
}.

Definition remaining (rp : reaper) : list (string * ptr) := option_list (rp_found rp) ++ rp_todo rp.
Definition inv (s : sys) : Prop :=
  ok (given s) (bk_leases (w_bucket (sy_world s))) (w_heap (sy_world s)) (sy_held s) (from_option remaining [] (sy_reaper s)).

Section invariant.
Context (G : list ptr) (L : gmap string ptr) (H : gmap ptr Lease) (D : gmap ptr holder) (P : list (string * ptr)).
Context (Hok : ok G L H D P).

(** Another lease object with the same identifier and mark. *)
Lemma ok_replace p l l' :
  H !! p = Some l → le_ID l' = le_ID l → le_released l' = le_released l → ok G L (<[p := l']> H) D P.
Proof using Hok.
  destruct Hok as [Hnd Hh Hm Hr Ht Htd Hl]. intros Hp Hid Hrel. split; [done| | |done| |done|done].
  - intros q Hq. rewrite lookup_insert_is_Some. destruct (decide (p = q)); [by left|right; auto].
  - intros q lq. destruct (decide (q = p)) as [->|Hne]; [rewrite lookup_insert_eq|rewrite lookup_insert_ne by done; apply Hm].
    intros [= <-]. rewrite Hrel. by apply Hm.
  - intros id q. rewrite Ht. destruct (decide (q = p)) as [->|Hne]; [rewrite lookup_insert_eq|by rewrite lookup_insert_ne].
    split; [intros (l0 & ? & ? & ?); exists l'; naive_solver|intros (l0 & [= <-] & ? & ?); exists l; naive_solver].
Qed.

Lemma ok_hold p l ttl : D !! p = None → H !! p = Some l → ok G L H (<[p := Renewing ttl]> D) P.
Proof using Hok.
  destruct Hok as [Hnd Hh Hm Hr Ht Htd Hl]. intros HD Hp.
  assert (∀ q, <[p := Renewing ttl]> D !! q = Some Releasing ↔ D !! q = Some Releasing) as E.
  { intros q. destruct (decide (q = p)) as [->|Hne]; [rewrite lookup_insert_eq|by rewrite lookup_insert_ne]. naive_solver. }
  split; [done| |setoid_rewrite E; done|setoid_rewrite E; done|done|done|done].
  intros q [Hq|Hq]; [auto|]. apply lookup_insert_is_Some in Hq as [<-|[_ Hq]]; [by rewrite Hp|auto].
Qed.

Lemma ok_unhold p ttl : D !! p = Some (Renewing ttl) → ok G L H (delete p D) P.
Proof using Hok.
  destruct Hok as [Hnd Hh Hm Hr Ht Htd Hl]. intros HD.
  assert (∀ q, delete p D !! q = Some Releasing ↔ D !! q = Some Releasing) as E.
  { intros q. destruct (decide (q = p)) as [->|Hne]; [rewrite lookup_delete_eq|by rewrite lookup_delete_ne]. naive_solver. }
  split; [done| |setoid_rewrite E; done|setoid_rewrite E; done|done|done|done].
  intros q [Hq|Hq]; [auto|]. apply lookup_delete_is_Some in Hq as [_ Hq]. auto.
Qed.

(** A lease whose lock is free is marked by a call of [Release]. *)
Lemma ok_mark p l l' :
  D !! p = None → H !! p = Some l → release_mark l = Some l' → ok G L (<[p := l']> H) (<[p := Releasing]> D) P.
Proof using Hok.
  destruct Hok as [Hnd Hh Hm Hr Ht Htd Hl]. intros HD Hp. unfold release_mark. destruct (le_released l) eqn:Hrel; [done|].
  intros [= <-]. assert (p ∉ G) as Hg by (intros HG; assert (le_released l = true) by (apply (Hm p l Hp); auto); congruence).
  split; [done| | | | |done|done].
  - intros q Hq. rewrite lookup_insert_is_Some. destruct (decide (p = q)) as [|Hne]; [by left|right; split; [done|]].
    apply Hh. by rewrite lookup_insert_ne in Hq.
  - intros q lq. destruct (decide (q = p)) as [->|Hne].
    + rewrite !lookup_insert_eq. intros [= <-]. cbn. split; auto.
    + rewrite !lookup_insert_ne by done. apply Hm.
  - intros q. destruct (decide (q = p)) as [->|Hne]; [done|]. rewrite lookup_insert_ne by done. apply Hr.
  - intros id q. rewrite Ht. destruct (decide (q = p)) as [->|Hne]; [rewrite lookup_insert_eq|by rewrite lookup_insert_ne].
    split; [intros (l0 & ? & ? & ?); eexists; split; [done|]; naive_solver|intros (l0 & [= <-] & ? & ?); exists l; naive_solver].
Qed.

(** The tables without a lease that is given back. *)
Lemma table_without p l : H !! p = Some l → p ∉ G →
  ∀ id q, delete (le_ID l) L !! id = Some q ↔ ∃ lq, H !! q = Some lq ∧ le_ID lq = id ∧ q ∉ G ++ [p].
Proof using Hok.
  destruct Hok as [Hnd Hh Hm Hr Ht Htd Hl]. intros Hp Hg id q. rewrite lookup_delete_Some, Ht.
  setoid_rewrite elem_of_app. setoid_rewrite list_elem_of_singleton. split.
  - intros (Hne & lq & Hq & Hid & HG). exists lq. split_and!; [done|done|]. intros [?| ->]; [done|]. congruence.
  - intros (lq & Hq & Hid & HG). split; [|exists lq; naive_solver]. intros Hid'.
    assert (L !! id = Some q) by (apply Ht; exists lq; naive_solver).
    assert (L !! id = Some p) by (apply Ht; exists l; naive_solver). naive_solver.
Qed.

(** The call that has marked a lease gives its tokens back; the reaper is not in its loop. *)
Lemma ok_return p l : D !! p = Some Releasing → H !! p = Some l → P = [] →
  ok (G ++ [p]) (delete (le_ID l) L) H (delete p D) [].
Proof using Hok.
  intros HD Hp HP. pose proof Hok as [Hnd Hh Hm Hr Ht Htd Hl]. pose proof (Hr p HD) as Hg.
  split; [| | | |by apply table_without|constructor|set_solver].
  - apply NoDup_app. split_and!; [done|set_solver|apply NoDup_singleton].
  - intros q. rewrite elem_of_app, list_elem_of_singleton, lookup_delete_is_Some. naive_solver.
  - intros q lq Hq. rewrite (Hm q lq Hq), elem_of_app, list_elem_of_singleton. destruct (decide (q = p)) as [->|Hne].
    + naive_solver.
    + rewrite lookup_delete_ne by done. naive_solver.
  - intros q. rewrite lookup_delete_Some, elem_of_app, list_elem_of_singleton. intros [Hne Hq] [?| ->]; [|done]. by apply (Hr q).
Qed.
End invariant.

(** The reaper takes a lease whose lock is free. *)
Lemma ok_take G L H D P id p l :
  ok G L H D ((id, p) :: P) → D !! p = None → H !! p = Some l →
  ok (G ++ [p]) (delete id L) (<[p := set_released l]> H) D P.
Proof.
  intros Hok HD Hp. pose proof Hok as [Hnd Hh Hm Hr Ht Htd Hl].
  destruct (proj1 (Ht id p) (Hl (id, p) ltac:(by left))) as (l0 & Hp' & Hid & Hg). assert (l0 = l) as -> by congruence.
  rewrite fmap_cons in Htd. apply NoDup_cons in Htd as [Hnew Htd].
  split; [| | | | |done|].
  - apply NoDup_app. split_and!; [done|set_solver|apply NoDup_singleton].
  - intros q Hq. rewrite lookup_insert_is_Some. destruct (decide (p = q)) as [|Hne]; [by left|right; split; [done|]].
    apply Hh. rewrite elem_of_app, list_elem_of_singleton in Hq. naive_solver.
  - intros q lq. rewrite elem_of_app, list_elem_of_singleton. destruct (decide (q = p)) as [->|Hne].
    + rewrite lookup_insert_eq. intros [= <-]. cbn. split; auto.
    + rewrite lookup_insert_ne by done. intros Hq. rewrite (Hm q lq Hq). naive_solver.
  - intros q Hq. rewrite elem_of_app, list_elem_of_singleton. intros [?| ->]; [by apply (Hr q)|congruence].
  - intros id' q. subst id. rewrite (table_without _ _ _ _ _ Hok p l Hp Hg).
    destruct (decide (q = p)) as [->|Hne]; [|by rewrite lookup_insert_ne].
    split; intros (lq & _ & _ & Hq); exfalso; apply Hq, elem_of_app; right; by left.
  - intros kv Hkv. rewrite lookup_delete_ne; [apply Hl; by right|]. intros ->. apply Hnew.
    apply (list_elem_of_fmap_2 fst _ _ Hkv).
Qed.

Lemma ok_lease G L H D id tenant n exp p :
  ok G L H D [] → H !! p = None → (∀ q l, H !! q = Some l → le_ID l ≠ id) →
  ok G (<[id := p]> L) (<[p := MkLease id tenant n exp false]> H) D [].
Proof.
  intros [Hnd Hh Hm Hr Ht Htd Hl] Hp Hid.
  assert ((p ∉ G) ∧ D !! p = None) as [Hg HD].
  { split; [intros HG; destruct (Hh p) as [? ?]; [by left|congruence]|].
    destruct (D !! p) eqn:E; [|done]. destruct (Hh p) as [? ?]; [right; by rewrite E|congruence]. }
  split; [done| | |done| |done|set_solver].
  - intros q Hq. rewrite lookup_insert_is_Some. destruct (decide (p = q)); [by left|right; auto].
  - intros q lq. destruct (decide (q = p)) as [->|Hne]; [rewrite lookup_insert_eq|rewrite lookup_insert_ne by done; apply Hm].
    intros [= <-]. cbn. naive_solver.
  - intros id' q. destruct (decide (id' = id)) as [->|Hne].
    + rewrite lookup_insert_eq. split.
      * intros [= <-]. rewrite lookup_insert_eq. eauto.
      * intros (l & E & E' & _). destruct (decide (q = p)) as [->|Hq]; [done|].
        rewrite lookup_insert_ne in E by done. by destruct (Hid q l).
    + rewrite lookup_insert_ne, Ht by done. destruct (decide (q = p)) as [->|Hq];
        [rewrite lookup_insert_eq|by rewrite lookup_insert_ne]. naive_solver.
Qed.

(** The reaper starts its loop, and leaves a lease alone. *)
Lemma ok_start G L H D sh : ok G L H D [] → ok G L H D (range_map sh L).
Proof. intros []. split; try done; [apply NoDup_range_map_fst|]. by intros [id p] ?%elem_of_range_map. Qed.

Lemma ok_tail G L H D kv P : ok G L H D (kv :: P) → ok G L H D P.
Proof. intros [? ? ? ? ? Htd Hl]. split; try done; [by apply NoDup_cons in Htd as [_ ?]|]. intros kv' Hkv. apply Hl. by right. Qed.

Lemma ok_stop G L H D P : ok G L H D P → ok G L H D [].
Proof. intros []. split; try done; [constructor|set_solver]. Qed.

Lemma reap_end_same now st :
  bk_leases (w_bucket (reap_end now st)) = bk_leases (w_bucket st.2) ∧ w_heap (reap_end now st) = w_heap st.2.
Proof. destruct st as [[[|q expired] sum] w]; [done|]. simpl. by rewrite refill_leases. Qed.

Lemma step_inv s s' : step s s' → inv s → inv s'.
Proof.
  intros Hstep Hinv. unfold inv, given in *.
  destruct Hstep; cbn [sy_world sy_log sy_reaper sy_held from_option rp_expired on_bucket w_bucket w_heap] in *.
  - by rewrite refill_leases.
  - by rewrite take_leases.
  - done.
  - by apply ok_lease.
  - by eapply ok_hold.
  - eapply ok_unhold; [|done]. by eapply ok_replace.
  - by eapply ok_mark.
  - rewrite return_leases. rewrite app_nil_r in *. by eapply ok_return.
  - by apply ok_start.
  - destruct (time_after now (le_ExpiresAt l)); [done|]. exact (ok_tail _ _ _ _ _ _ Hinv).
  - destruct kv as [id p]. cbn in *. rewrite (assoc_L (++)). by apply ok_take.
  - destruct (reap_end_same now (expired, sum, w)) as [-> ->]. rewrite app_nil_r. by apply ok_stop in Hinv.
Qed.

Lemma bucket_inv_reachable cfg now s : rtc step (start cfg now) s → inv s.
Proof.
  revert s. apply (rtc_ind_r inv); [|intros s s' _ Hs IH; by eapply step_inv].
  split; cbn; [apply NoDup_nil_2| | |done| |apply NoDup_nil_2|].
  - intros p [Hp|[h Hh]]; [by apply not_elem_of_nil in Hp|done].
  - done.
  - intros id p. split; [done|]. by intros (l & Hl & _).
  - intros kv Hkv. by apply not_elem_of_nil in Hkv.
Qed.


(** The call of [ReapExpiredLeases] that is not interrupted. *)
Lemma reap_loop_steps now log kvs : ∀ expired sum w,
  (∀ kv, kv ∈ kvs → is_Some (w_heap w !! kv.2)) →
  let st := foldl (reap_one now) (expired, sum, w) kvs in
  rtc step (MkSys w log (Some (MkReaper now kvs None expired sum)) ∅)
    (MkSys st.2 log (Some (MkReaper now [] None st.1.1 st.1.2)) ∅).
Proof.
  induction kvs as [|kv kvs IH]; intros expired sum w Hin; [apply rtc_refl|]. cbn [foldl].
  destruct (Hin kv) as [l Hl]; [by left|]. eapply rtc_l; [by apply (StepReapVisit w log ∅ now kv kvs expired sum l)|].
  unfold reap_one at 2 4 6. cbn [snd]. rewrite Hl. destruct (time_after now (le_ExpiresAt l)).
  - eapply rtc_l; [by apply (StepReapTake w log ∅ now kv kvs expired sum l)|]. unfold reap_take. cbv zeta. cbn [fst snd].
    apply IH. intros kv' Hkv. cbn [w_heap]. rewrite lookup_insert_is_Some. destruct (decide (kv.2 = kv'.2)); [by left|right].
    split; [done|]. apply Hin. by right.
  - apply IH. intros kv' Hkv. apply Hin. by right.
Qed.

Theorem Reap_sections sh now w log :
  accounted log (bk_leases (w_bucket w)) (w_heap w) →
  rtc step (MkSys w log None ∅)
    (MkSys (ReapExpiredLeases sh now w).2 (log ++ (ReapExpiredLeases sh now w).1) None ∅).
Proof.
  intros Hacc. unfold ReapExpiredLeases. eapply rtc_l; [apply (StepReapStart w log ∅ sh now)|].
  etrans; [apply reap_loop_steps|].
  - intros [id p] (l & Hl & _)%elem_of_range_map%(acc_live _ _ _ Hacc). by exists l.
  - destruct (foldl _ _ _) as [[expired sum] w']. eapply rtc_once. apply (StepReapEnd w' log ∅ now expired sum).
Qed.


(** *** An example *)

Definition ex_config : Config := MkConfig (f64_of_Z 10) (f64_of_Z 1).
Definition ex_lease (exp : Time) (rel : bool) : Lease := MkLease "a" "t" (f64_of_Z 2) exp rel.

(** A bucket with one lease that expires at some time. *)
Definition ex_leased (exp : Time) : world :=
  new_lease "a" "t" (f64_of_Z 2) exp 0 0%nat (MkWorld (NewBucket ex_config 0) ∅).

Lemma ex_leased_reachable exp : rtc step (start ex_config 0) (MkSys (ex_leased exp) [] None ∅).
Proof. eapply rtc_once. apply (StepLease _ [] ∅ "a" "t" (f64_of_Z 2) exp 0 0%nat); [done|]. intros q l Hq. by inversion Hq. Qed.


(** ** What the code does not do *)

(** The reaper waits for the lock of a lease that a call of [Release] holds, and the call waits for the
    bucket. *)
Definition stuck (p : ptr) (rp : reaper) (s : sys) : Prop :=
  sy_reaper s = Some rp ∧ sy_held s !! p = Some Releasing.

Lemma stuck_step p id now todo expired sum s s' :
  let rp := MkReaper now todo (Some (id, p)) expired sum in
  stuck p rp s → step s s' → stuck p rp s'.
Proof.
  intros rp [Hrp Hheld] Hstep. unfold stuck. destruct Hstep; cbn in *; simplify_eq; try (by split).
  - split; [done|]. by rewrite lookup_insert_ne by congruence.
  - split; [done|]. by rewrite lookup_delete_ne by congruence.
  - split; [done|]. by rewrite lookup_insert_ne by congruence.
  - cbn in *. congruence.
Qed.

(** A release of an expired lease and a reaper can wait for each other for ever: the lease is marked and
    listed, its tokens never come back, and the bucket is locked. *)
Theorem release_reap_deadlock :
  ∃ s rp, rtc step (start ex_config 0) s ∧ stuck 0 rp s ∧ ∀ s', rtc step s s' → stuck 0 rp s' ∧ 0%nat ∉ given s'.
Proof.
  set (w := MkWorld (w_bucket (ex_leased 10)) (<[0%nat := ex_lease 10 true]> (w_heap (ex_leased 10)))).
  set (rp := MkReaper 11 [] (Some ("a", 0%nat)) [] f64_zero).
  set (s := MkSys w [] (Some rp) {[0%nat := Releasing]}).
  assert (rtc step (start ex_config 0) s) as Hs.
  { etrans; [apply (ex_leased_reachable 10)|].
    eapply rtc_l; [by apply (StepReleaseMark (ex_leased 10) [] None ∅ 0 (ex_lease 10 false))|].
    eapply rtc_l; [apply (StepReapStart _ [] _ shuffle_id 11)|].
    eapply rtc_l; [by apply (StepReapVisit _ [] _ 11 ("a", 0%nat) [] [] f64_zero (ex_lease 10 true))|]. apply rtc_refl. }
  exists s, rp. split_and!; [done|by split|]. intros s' Hs'.
  assert (stuck 0 rp s') as Hst.
  { revert s' Hs'. apply (rtc_ind_r (stuck 0 rp)); [by split|]. intros y z _ Hyz Hy. by eapply stuck_step. }
  split; [done|]. assert (inv s') as Hinv by (eapply bucket_inv_reachable; by etrans). by apply (ok_releasing _ _ _ _ _ Hinv), Hst.
Qed.

(** A lease that was renewed with success is reaped: the reaper compares the expiry before it has the lock
    of the lease. *)
Theorem renewed_lease_reaped :
  ∃ s, rtc step (start ex_config 0) s ∧ w_heap (sy_world s) !! 0%nat = Some (ex_lease 1012 true) ∧
    0%nat ∈ given s ∧ from_option rp_now 0 (sy_reaper s) = 11.
Proof.
  eexists. split.
  - etrans; [apply (ex_leased_reachable 10)|].
    eapply rtc_l; [by apply (StepRenewTest (ex_leased 10) [] None ∅ 0 (ex_lease 10 false) 1000 9)|].
    eapply rtc_l; [apply (StepReapStart _ [] _ shuffle_id 11)|].
    eapply rtc_l; [by apply (StepReapVisit _ [] _ 11 ("a", 0%nat) [] [] f64_zero (ex_lease 10 false))|].
    eapply rtc_l; [by apply (StepRenewed _ [] _ _ 0 (ex_lease 10 false) 1000 12)|].
    eapply rtc_l; [by apply (StepReapTake _ [] _ 11 ("a", 0%nat) [] [] f64_zero (ex_lease 1012 false))|]. apply rtc_refl.
  - split_and!; [done|by left|done].
Qed.

(** A lease of a negative number of tokens takes nothing, and takes tokens when it is released. *)
Theorem negative_lease_takes :
  let w := MkWorld (NewBucket ex_config 0) ∅ in
  let '(r, w1) := Lease_ "id" "t" (f64_of_Z (-5)) second 0 [] 0 0%nat w in
  r = Some (Ok 0%nat) ∧ bk_tokens (w_bucket w1) = f64_of_Z 10 ∧
  bk_tokens (w_bucket (Release 0 0%nat w1).2) = f64_of_Z 5.
Proof. vm_compute. done. Qed.

(** A limiter whose reaper was stopped and started again panics when it is stopped. *)
Theorem second_stop_panics m :
  ml_running m = false → ml_closed m = false →
  ∃ m', Stop (StartReaper m).2 = Returns m' ∧ (StartReaper m').1 = true ∧ Stop (StartReaper m').2 = Panics.
Proof. intros Hr Hc. unfold Stop, StartReaper. rewrite Hr. simpl. rewrite Hc. by eexists. Qed.
